(* ===== verification/_CoqProject ===== *)
-Q . S2P
Prelude.v
Identifier.v
Storage.v
Values.v
Events.v
Datamodel.v
Chart.v
Tree.v
Legal.v
Interp.v
Actions.v
Effects.v
Entry.v
EntryCorrect.v
EntryConsistent.v
EntryTotal.v
Domain.v
Steps.v
LegalStep.v
StepCorrect.v
Macrostep.v
Evolution.v
Examples.v
Configurations.v
History.v
Execution.v
Completion.v
Definitions.v
Validate.v
Layout.v
Compile.v
Indexed.v
Validated.v
Accepted.v
Authoring.v
Normalize.v
Artifact.v
Content.v
Compiled.v
Safety.v
Declared.v
Snapshot.v
Restored.v
Typed.v
Instance.v
Replay.v
Memory.v
Stored.v
Outbox.v
Lifetime.v
Lives.v
Hooks.v
Replayed.v
Stores.v
Findings.v
Threads.v
Observation.v
Routing.v
ActorStore.v
System.v
Actors.v
ActorCore.v
ActorCalm.v
ActorSafe.v
ActorPins.v
Directory.v
ActorSystem.v
Bridge.v
ActorRuns.v
ActorTrials.v
JSONTree.v
JSONSyntax.v
JSONInspect.v
JSONDocument.v
JSONRoundtrip.v
JSONAccepted.v
JSONCodec.v
GoModel.v
GoProgram.v
GoSession.v
