(* ===== verification/Prelude.v ===== *)
(** * A verification of the statechart runtime

    The program is a Go library that runs SCXML-style statecharts.  An author
    writes a [Definition] (a tree of states with transitions, executable content,
    data and invocations); [Compile] validates and normalizes it, has a datamodel
    compile its expressions, and lowers it to an immutable [Chart]; an
    interpreter runs the chart on a queue of events, calling the datamodel, I/O
    processors and invocations through interfaces; an [Instance] owns one
    interpreter and serves requests (events, timers, snapshots, stop) one after
    the other; [Rehydrate] rebuilds an instance from a checkpoint and the durable
    log of the inputs it was given; an actor [System] keeps many named instances,
    activates and evicts them, routes events between them and publishes new
    revisions of their charts while goroutines call it concurrently.  This
    library models these parts as executable functions and proves what makes
    them correct.  It is a
    shallow embedding: one definition per Go function or handler, in the order
    and with the guards of the source; errors are values of [result]; a state
    that Go mutates is passed explicitly; a pointer to a state, a node or a
    transition is an index into the array that owns it.

    ** The files, in dependency order

    Shared
    - Prelude.v: errors and results, the functions of Go's [strings] package the
      source uses, decimal printing, sorted sets, hint databases.

    Data (identifier.go, value.go, event.go, errors.go)
    - Identifier.v: [NewIdentifier], [validatePlainIdentifier], [Matches] and the
      canonical processor types.
    - Values.v: [Value], decimal numbers ([canonicalNumber], [Int64Value],
      [AsInt64]), the wire form ([Wire], [ValueFromWire]), JSON shapes, UTF-8.
    - Events.v: [Event], platform error values.

    Interfaces (datamodel.go, exec.go)
    - Datamodel.v: the class [DatamodelSession].  Every theorem about the
      interpreter is proved for an arbitrary instance, whose operations may fail,
      panic and call back; [CounterSession] is a small instance for examples.

    The chart (chart.go, exec.go, invoke.go, state.go)
    - Chart.v: compiled states, transitions, executable operations, invocations;
      the tree navigation of interpreter.go.
    - Tree.v: the theory of ancestors for trees built by the compiler.
    - Legal.v: well-formed charts ([wf_chart], with the executable check
      [wf_chart_check]) and legal configurations ([legal]).

    The interpreter (interpreter.go)
    - Interp.v: the record [interpretation] (Go's type of that name), the event
      queues, [doSend], [dispatchNow], delayed sends, [doCancel], the calls of
      the datamodel; [environment] holds what the instance provides (processors,
      handlers, duration parsing).
    - Actions.v: executable content ([executeOperation], blocks, data
      initialisation, done data), timers and their replay.
    - Effects.v: the exhaustive list of effects that content can have ([prim]).
    - Entry.v: [addDescendantStatesToEnter], [addAncestorStatesToEnter],
      [effectiveTargetStates], [transitionDomain], [computeEntrySet],
      [computeExitSet].
    - EntryCorrect.v, EntryConsistent.v, EntryTotal.v, Domain.v: an entry set
      contains what it must, nothing that conflicts, and is always computed.
    - Steps.v: [enterState], [exitState], invocations, [exitStates] with history
      recording, transition selection, [microstep], [runToStable], [start],
      [processNextExternal], [exitInterpreter].
    - LegalStep.v, StepCorrect.v: one microstep preserves legality.
    - Macrostep.v: the step relation of the interpreter and reachability;
      invariants by induction on it.
    - Evolution.v: every step is a sequence of elementary moves; invariants of
      delayed sends, delivery IDs and invocation channels.
    - Completion.v: when the interpreter completes and which steps end it; the two
      tables of running invocations agree.
    - Examples.v: concrete charts.

    Definitions and their compiler (definition.go, expression.go, executable.go,
    definition_validate.go, compile.go, definition_canonical.go, revision.go,
    state.go, transition.go)
    - Definitions.v: the definition types, deep copies.
    - Validate.v: every check of the validator with its error texts, ID
      generation, implicit defaults, [normalizeDefinition].
    - Layout.v: the pre-order array of a state tree, the specification that the
      validator's index and the compiled array both follow.
    - Compile.v: [Compile], [compileDefinitionState], [compileOperation],
      canonical bytes and revisions.
    - Indexed.v, Validated.v, Accepted.v: what [collectStates] and
      [compileDefinitionState] build, what [validateState] establishes, and that
      together they give [wf_chart].
    - Authoring.v: the authoring helpers, and definitions written with
      them.
    - Content.v: valid executable content compiles without nil dereferences.

    Instances (snapshot.go, event_codec.go, instance.go, log.go, replay.go)
    - Snapshot.v: [buildSnapshot], [restoreFrom], the wire records of snapshots
      and events, for a session that can be encoded ([SnapshotSession]).
    - Instance.v: [Instance], the body of its loop ([boot], [apply], [settle],
      [handle], [serve]) with hooks, timers, invocations and completion.
    - Replay.v: [rehydrate] with its checkpoint, gates and going live.
    - Lifetime.v: the relation [life] of an instance's requests, and what a chart
      does when a request takes long ([occupied]).

    Storage (storage.go, definition_artifact.go, storagetest/memory.go,
    actors/durability.go)
    - Storage.v: actor metadata, directory queries and their Base64 cursors.
    - Artifact.v: the stored form of a chart, and its round trip; revision material
      is framed unambiguously.
    - Memory.v: the in-memory store, one function per method.
    - Stored.v: its tables agree after any calls, deliveries are
      recorded once, terminal actors stay terminal, paging is complete.
    - Outbox.v: the durable processors of an actor and the recovery they share,
      against the class [OutboxStore] of a storage whose calls may fail, with its
      laws, and the in-memory store as an instance.
    - Stores.v: a store and an outbox in use.

    Actors (actors/system.go, router.go, observation.go, inspection.go, bridge.go)
    - Threads.v: a call as a sequence of atomic actions on a shared state, pools
      of calls with every interleaving, a rely/guarantee rule ([wp]) for them, and
      [always], for what every action of a call does whatever the others do.
    - Observation.v: subscriptions with bounded buffers that count what they drop.
    - Routing.v: [ID] and [ID@node] targets.
    - ActorStore.v: the storage interface of a system ([ActorStorage]), its laws
      ([ActorStorageLaws]) and the in-memory store as an instance of them.
    - System.v: the state of a [System] and the functions that run in one
      critical section.
    - Actors.v: the operations (Register, Publish, CollectDefinition, Spawn,
      activation, Send, the dispatcher, residency, idle reaping, Stop) as threads.
    - ActorCore.v, ActorCalm.v: the invariant of a system and what its goroutines
      guarantee each other.
    - ActorSafe.v, ActorPins.v: each operation keeps the invariant.
    - Directory.v: the directory of actors ([QueryActors], here [querySystemActors],
      [InspectActor], [InspectActorDefinition], [QueryActorHistory]), what it shows
      ([visible], [shows]) against the laws [DirectoryLaws] of the storage, and that
      every operation keeps the list of IDs it searches.
    - ActorSystem.v: what holds in every reachable state of a system.
    - Bridge.v: the bridge from one system to another; events that cross it can be
      answered.
    - ActorRuns.v: what single operations do when they run alone.
    - ActorTrials.v: concrete systems and schedules.

    Surface syntax (syntax/json/codec.go, value.go)
    - JSONTree.v: documents as tokens, trees, structs written and read by their tags.
    - JSONSyntax.v: the wire structs, from and to definitions and trees.
    - JSONInspect.v: the inspections, [Marshal] and [Unmarshal].
    - JSONDocument.v, JSONRoundtrip.v: what is written of
      a valid definition passes and is read back.
    - JSONAccepted.v: what passes the inspections can be decoded.
    - JSONCodec.v: the theorems about [Marshal] and [Unmarshal], and examples.

    The Go datamodel (go_model.go)
    - GoModel.v: the registry of named host callbacks ([register] and the typed
      registrations with their references), [GoModel.Compile] (here [GoCompile])
      with its walk over a definition, programs and their fingerprint, sessions
      ([NewSession], evaluation, [Assign], [Execute], [ForEach], [Inspect],
      snapshots).
    - GoProgram.v: what a compilation adds to its tables, for any relation that
      the compilation of one expression respects ([WalkRelation]); every request
      of the chart compiler to a compiled program is answered.
    - GoSession.v: what handles stand for, sessions, variables, snapshots and
      fingerprints.  The sessions are an instance of [DatamodelSession]
      ([GoDatamodelSession]).  [RestorableSession], which the theorems about
      restored instances assume, asks for the very session back; a session of the Go
      datamodel comes back up to the order of map entries.

    Theorems
    - Compiled.v: from an accepted definition to legal runs; document order.
    - Configurations.v: legality, progress, the exact effect of a microstep, and
      conflict-free selection, for any well-formed chart.
    - History.v: recording and restoring history.
    - Execution.v: content cannot touch control state, errors stay in their
      block, finalizers are quiet, timers replay as they fire, delivery and
      invocation IDs are unique, cancellation and termination.
    - Normalize.v: normalization is idempotent, generated IDs are fresh.
    - Safety.v: compilation never dereferences nil; finalizers of compiled charts.
    - Declared.v: what runs in a compiled chart was declared by an active state.
    - Restored.v, Typed.v: a snapshot of a reachable state is accepted by Restore
      and gives that state back; whatever Restore accepts is well typed for its
      chart.
    - Lives.v: the invariant between two requests, every request is answered, a
      sent event is processed before [Send] returns, channels are bounded.
    - Hooks.v: the completion hook is called once, for an instance that completed
      and for no other, and an input that a hook refuses to record is not applied.
    - Replayed.v: rehydrating from the log of a run without invocations gives the
      instance that the run left (a simulation between the live and the gated
      instance), when the processors answer a replay as they did live.
    - Findings.v: three accepted definitions that reach an illegal configuration;
      they show that each condition of [supported] (Accepted.v) is needed; and
      four charts for which instances or replay misbehave.
    - ActorSystem.v, ActorRuns.v: a pinned revision is retained, the calls that
      deliver an identified event hand it over at most once, the number of
      residents is bounded, Stop evicts every actor it can, targets resolve to
      the actor they name, a page of the directory is complete; the least recently
      used actor is evicted, making room
      ends, Publish selects the revision it reports.  They hold for any instance
      ([Instances]) and any storage with the laws.
    - GoProgram.v, GoSession.v: a chart compiles when the Go datamodel has
      compiled its definition; a handle denotes the expression it was asked for;
      callbacks and codecs that fail or panic are contained and cannot touch the
      variables; snapshots restore a session; the fingerprint is the digest of the
      registrations that the definition mentions.
    - Stored.v, Outbox.v: the outbox lists what was stored, replayed sends answer as
      they did live, recovery sends what has no outcome, once.
    - Values.v, Identifier.v, Events.v, Observation.v and JSONCodec.v end with
      their own theorems.

    ** Bounds and fuel

    Go loops and recursions that are not structural take a number of steps.
    - [ancestors] from state [s]: [S s] steps, since a parent precedes its
      children (Tree.v, [ancestors_unfold]).
    - the entry set: [entryFuel], [S (n * (n + 2))] for [n] states; EntryTotal.v
      proves it sufficient for every well-formed chart.
    - effective targets: [n + 2]; [isInFinalState]: [S n].
    - the loops that look for an unused ID: one step per reserved ID ([invokeFuel],
      [nextFree]); the result is proved fresh.
    - [collectDefaultAtoms]: one step per node; at the end of them every node is
      being visited, so reporting a cycle is what the code does.
    - [runToStable] may run forever in the source (an eventless loop), so its
      bound is an argument; a result does not depend on it, and no single
      iteration gets stuck.  The functions of an instance that drain its queues
      take the same argument; [request_answered] (Lives.v) says that a request is
      answered unless the chart, from a state of that request, takes as many events
      or iterations as the argument allows.
    - the readers of JSON documents take a token per step, and get the length of
      the document ([decodeAny_tokens], [inspectJSON_tokens] in JSONDocument.v).
    - [raw], which compiles an expression of the Go datamodel: the size of its
      data ([rawFuel]), since the arguments of a reference are inside of its
      data; [raw_fuel_enough] (GoSession.v) shows that it never runs out.
    - making room among the residents: one step more than there are residents
      ([admit_terminates], ActorRuns.v).
    - the loop of [QueryActors] over the pages of the storage: more steps than there
      are stored actors ([directory_page_complete], ActorSystem.v); the binary
      search of the listed IDs: one step more than there are.
    Counters: [dispatchSeq] is kept modulo [2 ^ 64]; the delivery-ID theorem
    states the bound under which it does not wrap.  Numbers of values are texts,
    as in the source, and [Int64Value]/[AsInt64] are stated on 64-bit integers.
    The other counters of an interpretation (sends, delayed sends and invocations
    of one session) are Go ints that each step increments by one; they are
    unbounded here, since a wrap takes [2 ^ 63] steps.

    ** Choices in the model of the actor system

    A critical section of a mutex, a load or store of an atomic and a call of the
    storage are atomic actions; mutexes held across calls are owned by a goroutine
    in the state ([sy_locks]).  A context is what its [Err()] returns, and does not
    change during a call.  Time is read once per action.  Errors are texts and
    [errors.Is] compares the end of the wrapped text.  What an instance does with
    a request is the class [Instances], not Instance.v, since a hook or a
    processor it calls may interleave with other goroutines.  [sy_activating] and
    [sy_delivered] are ghost fields: no operation reads them.  [sy_delivered] has the
    events that [deliver] hands over itself, and not those that an activation
    replays from the log.  [Register] runs before
    the goroutines start, as its comment demands.  A query reads the table in one
    critical section and each page of the storage in another, so that actors may
    come and go in between; the theorem about its page is for a call that is not
    disturbed.  What [Instance.Inspect] shows is a parameter of [InspectActor].

    ** Choices in the model of the Go datamodel

    The application's type is a type variable, and its callbacks, its factory and
    its codecs are arbitrary functions that return what they did to the
    application's data, the calls they made on their context, and a value, an
    error or a panic.  The codecs read the data and do not change it.  The
    address of a program's owner is a number.  A [GoModel] is registered before it
    compiles, so its mutex does not appear.  The text [json.Marshal] writes for the
    wire form of a value is a parameter; what is used of it is that a text is not
    empty and determines the value that is read from it.  The text of the envelope
    of a snapshot is a parameter too; what is used of it is that the envelope is
    read back up to the order of the entries of maps ([envelope_lawful]).  The body
    of a [ForEach] is any operation on the session.

    ** Choices in the model of instances

    What a processor, a hook or a handler answers is a function of the calls made
    before.  During a replay a send is answered by the processor's [ReplaySend] if
    it is replay-aware and succeeds otherwise ([replayGateSend]).  A panic of a hook
    or a processor, which the goroutine of the source turns into a terminal error,
    is not modelled.

    ** What is not modelled, and why

    The race of concurrent senders for an instance's inbox, contexts and
    deadlines: the loop of an instance is single-owner code, and the model starts
    from the order in which it takes requests.  The macrostep observer and the
    loggers.  Of the actor system: the addresses its I/O processor publishes
    and values carried by contexts; two systems with a bridge are not interleaved
    in one state.  The ECMAScript datamodel embeds a third-party
    script engine, and a datamodel is a parameter.  The textual expressions of the
    Go datamodel (go_text_expression.go, text_expression.go), the
    SCXML surface syntax, the spelling of JSON tokens as bytes and the limit of
    10,000 nested levels of [encoding/json] (documents are taken to stay within
    it), SQL storage, the inspector.  [json.Marshal], SHA-256 and
    [time.ParseDuration] are parameters of [Compile], as the JSON decoder is of
    [decodeCanonicalDefinition]; a [%q] text is quoted without escapes.
    [Rehydrate] sees the log and the checkpoint store through what they answer.
    What would come next: the view of an instance (inspection.go), the SCXML syntax,
    and rehydration from a checkpoint as a refinement. *)

From stdpp Require Export base gmap strings list fin_maps sorting pretty numbers relations.
From Stdlib Require Export Ascii.
From stdpp Require Import options.

(** ** Errors and results

    A Go function that returns [(T, error)] returns [result T] here.  The
    source classifies errors in two places with [errors.As]: a
    [SendExecutionError] becomes an [error.execution] event, and an
    [invokeHandlerUnavailableError] does so for invocations.  The two flags
    record these classes; [msg] is the text of [Error()]. *)
Record error := mk_error {
  msg : string;
  isSendExecution : bool;
  isHandlerUnavailable : bool
}.

(** [fmt.Errorf] without a wrapped error. *)
Definition Errorf (m : string) : error := mk_error m false false.

(** [fmt.Errorf] whose last verb is [%w]: [errors.As] sees through it. *)
Definition Wrapf (prefix : string) (e : error) : error :=
  mk_error (prefix +:+ msg e) (isSendExecution e) (isHandlerUnavailable e).

#[global] Instance error_eq_dec : EqDecision error.
Proof. solve_decision. Defined.

Inductive result (A : Type) : Type :=
| Ok (a : A)
| Err (e : error).
Arguments Ok {A} a.
Arguments Err {A} e.

#[global] Instance result_eq_dec {A} `{EqDecision A} : EqDecision (result A).
Proof. solve_decision. Defined.

#[global] Instance result_ret : MRet result := @Ok.
#[global] Instance result_bind : MBind result := λ A B f m,
  match m with Ok a => f a | Err e => Err e end.
#[global] Instance result_fmap : FMap result := λ A B f m,
  match m with Ok a => Ok (f a) | Err e => Err e end.

Definition is_Ok {A} (r : result A) : Prop := ∃ a, r = Ok a.

(** A guard with an early error return: [if b then return err]. *)
Definition fail_if (b : bool) (e : error) : result unit := if b then Err e else Ok ().

(** Go's [for _, x := range xs { if err := f(x); err != nil { return err } }]
    with an accumulator threaded through the iterations. *)
Fixpoint result_foldl {A B} (f : B → A → result B) (b : B) (xs : list A) : result B :=
  match xs with
  | [] => Ok b
  | x :: xs => b' ← f b x; result_foldl f b' xs
  end.

(** The same loop collecting one result per element. *)
Fixpoint result_mapM {A B} (f : A → result B) (xs : list A) : result (list B) :=
  match xs with
  | [] => Ok []
  | x :: xs => y ← f x; ys ← result_mapM f xs; Ok (y :: ys)
  end.

Lemma result_bind_Ok {A B} (m : result A) (f : A → result B) b :
  m ≫= f = Ok b ↔ ∃ a, m = Ok a ∧ f a = Ok b.
Proof. destruct m; naive_solver. Qed.

Lemma result_mapM_Ok {A B} (f : A → result B) xs ys :
  result_mapM f xs = Ok ys ↔ Forall2 (λ x y, f x = Ok y) xs ys.
Proof.
  revert ys. induction xs as [|x xs IH]; intros ys; simpl.
  { split; [intros [= <-]; constructor | by inversion 1]. }
  split.
  - intros (y & Hy & (zs & Hzs & [= <-])%result_bind_Ok)%result_bind_Ok.
    constructor; [done | by apply IH].
  - inversion 1 as [|? y ? zs Hy Hzs]; simplify_eq.
    apply IH in Hzs. by rewrite Hy; simpl; rewrite Hzs.
Qed.

Lemma fail_if_Ok b e u : fail_if b e = Ok u ↔ b = false.
Proof. destruct b, u; naive_solver. Qed.

(** Inverts every [_ ≫= _ = Ok _] and guard among the hypotheses. *)
Ltac inv_ok :=
  repeat match goal with
  | H : mbind _ _ = Ok _ |- _ => apply result_bind_Ok in H as (? & ? & ?)
  | H : fail_if _ _ = Ok _ |- _ => apply fail_if_Ok in H
  | H : Ok _ = Ok _ |- _ => injection H as H; try subst
  | H : Err _ = Ok _ |- _ => discriminate H
  | H : Ok _ = Err _ |- _ => discriminate H
  | u : unit |- _ => destruct u
  end.

(** ** Strings: the functions of Go's package [strings] that the source uses

    A Go string is a byte sequence, as is [string]. *)
Module strings_pkg.

Fixpoint HasPrefix (s prefix : string) {struct prefix} : bool :=
  match prefix, s with
  | EmptyString, _ => true
  | String b p, String a s => bool_decide (a = b) && HasPrefix s p
  | String _ _, EmptyString => false
  end.

(** [strip_prefix s p] is [Some r] when [s = p ++ r]. *)
Fixpoint strip_prefix (s prefix : string) {struct prefix} : option string :=
  match prefix, s with
  | EmptyString, _ => Some s
  | String b p, String a s => if decide (a = b) then strip_prefix s p else None
  | String _ _, EmptyString => None
  end.

Definition TrimPrefix (s prefix : string) : string := default s (strip_prefix s prefix).

(** [strip_suffix s q] is [Some r] when [s = r ++ q]. *)
Fixpoint strip_suffix (s suffix : string) : option string :=
  if decide (s = suffix) then Some EmptyString else
  match s with
  | EmptyString => None
  | String a s => String a <$> strip_suffix s suffix
  end.

Definition HasSuffix (s suffix : string) : bool := bool_decide (is_Some (strip_suffix s suffix)).
Definition TrimSuffix (s suffix : string) : string := default s (strip_suffix s suffix).

(** [strings.Split(s, c)] for a one-byte separator. *)
Fixpoint Split (c : Ascii.ascii) (s : string) : list string :=
  match s with
  | EmptyString => [EmptyString]
  | String a s =>
      if decide (a = c) then EmptyString :: Split c s
      else match Split c s with
           | [] => [String a EmptyString]
           | h :: t => String a h :: t
           end
  end.

(** Its inverse, [strings.Join]. *)
Fixpoint Join (c : Ascii.ascii) (l : list string) : string :=
  match l with
  | [] => EmptyString
  | [h] => h
  | h :: t => h +:+ String c (Join c t)
  end.

(** [strings.Contains] for a one-byte needle. *)
Fixpoint ContainsByte (c : Ascii.ascii) (s : string) : bool :=
  match s with
  | EmptyString => false
  | String a s => bool_decide (a = c) || ContainsByte c s
  end.

End strings_pkg.
Export strings_pkg.

Lemma string_app_nil_r (s : string) : s +:+ "" = s.
Proof. induction s as [|a s IH]; [done|]. change (String a (s +:+ "") = String a s). by rewrite IH. Qed.

Lemma string_app_assoc (s t u : string) : (s +:+ t) +:+ u = s +:+ (t +:+ u).
Proof. induction s as [|a s IH]; [done|]. change (String a ((s +:+ t) +:+ u) = String a (s +:+ (t +:+ u))). by rewrite IH. Qed.

Lemma string_app_cons a (s t : string) : String a s +:+ t = String a (s +:+ t).
Proof. done. Qed.

Lemma string_app_inj_l (s t u : string) : s +:+ t = s +:+ u → t = u.
Proof. apply (inj (String.app s)). Qed.

Lemma string_length_app (s t : string) :
  String.length (s +:+ t) = String.length s + String.length t.
Proof. induction s as [|a s IH]; [done|]. rewrite string_app_cons. simpl. by rewrite IH. Qed.

Lemma string_app_inj_r (s t u : string) : s +:+ u = t +:+ u → s = t.
Proof.
  revert t. induction s as [|a s IH]; intros [|b t] H; [done|..].
  - apply (f_equal String.length) in H. rewrite !string_length_app in H. simpl in H. lia.
  - apply (f_equal String.length) in H. rewrite !string_length_app in H. simpl in H. lia.
  - rewrite !string_app_cons in H. injection H as -> H. f_equal. by apply IH.
Qed.

Lemma strip_prefix_Some s p r : strip_prefix s p = Some r ↔ s = p +:+ r.
Proof.
  revert s. induction p as [|b p IH]; intros s; simpl.
  { split; [by intros [= ->] | intros ->; done]. }
  destruct s as [|a s]; [split; [done|by rewrite string_app_cons] |].
  rewrite string_app_cons. case_decide as Hab.
  - rewrite IH. naive_solver.
  - naive_solver.
Qed.

Lemma HasPrefix_true s p : HasPrefix s p = true ↔ ∃ r, s = p +:+ r.
Proof.
  revert s. induction p as [|b p IH]; intros s; simpl.
  { split; [intros _; by exists s | done]. }
  destruct s as [|a s].
  { split; [done|]. intros [r Hr]. by rewrite string_app_cons in Hr. }
  rewrite andb_true_iff, bool_decide_eq_true, IH. setoid_rewrite string_app_cons. naive_solver.
Qed.

Lemma strip_suffix_Some s q r : strip_suffix s q = Some r ↔ s = r +:+ q.
Proof.
  revert r. induction s as [|a s IH]; intros r; simpl; case_decide as Hq.
  - subst q. rewrite string_app_nil_r. naive_solver.
  - split; [done|]. intros H. destruct r; [by subst | by rewrite string_app_cons in H].
  - subst q. split; [by intros [= <-]|]. intros H. destruct r as [|b r]; [done|].
    apply (f_equal String.length) in H. rewrite string_length_app in H. simpl in H. lia.
  - rewrite fmap_Some. split.
    + intros (r' & Hr' & ->). apply IH in Hr' as ->. by rewrite string_app_cons.
    + destruct r as [|b r]; [intros H; by subst|]. rewrite string_app_cons.
      intros [= -> ->]. exists r. split; [by apply IH | done].
Qed.

Lemma Split_nonempty c s : Split c s ≠ [].
Proof. induction s as [|a s IH]; simpl; [done|]. case_decide; [done|]. by destruct (Split c s). Qed.

Lemma Join_cons_char c a h t : Join c (String a h :: t) = String a (Join c (h :: t)).
Proof. by destruct t. Qed.

Lemma Join_Split c s : Join c (Split c s) = s.
Proof.
  induction s as [|a s IH]; [done|]. simpl.
  pose proof (Split_nonempty c s) as Hne. case_decide as Ha.
  - destruct (Split c s) as [|h t] eqn:E; [done|]. subst a.
    change (String c (Join c (h :: t)) = String c s). by rewrite IH.
  - destruct (Split c s) as [|h t] eqn:E; [done|]. rewrite Join_cons_char. by rewrite IH.
Qed.

Lemma Join_app c l h t : l ≠ [] → Join c (l ++ h :: t) = Join c l +:+ String c (Join c (h :: t)).
Proof.
  induction l as [|x l IH]; intros Hne; [done|]. destruct l as [|y l]; [reflexivity|].
  change (Join c ((x :: y :: l) ++ h :: t)) with (x +:+ String c (Join c ((y :: l) ++ h :: t))).
  change (Join c (x :: y :: l)) with (x +:+ String c (Join c (y :: l))).
  rewrite IH by done. by rewrite string_app_assoc, string_app_cons.
Qed.

Lemma Split_app_sep c s t : Split c (s +:+ String c t) = Split c s ++ Split c t.
Proof.
  induction s as [|a s IH].
  { change (Split c (String c t) = [""] ++ Split c t). simpl. by rewrite decide_True. }
  rewrite string_app_cons. simpl. rewrite IH. case_decide; [done|].
  pose proof (Split_nonempty c s). by destruct (Split c s).
Qed.

Lemma Split_no_sep c s tok : tok ∈ Split c s → ContainsByte c tok = false.
Proof.
  revert tok. induction s as [|a s IH]; intros tok; simpl.
  { intros ->%list_elem_of_singleton. done. }
  case_decide as Ha.
  { intros [->|?]%elem_of_cons; [done | by apply IH]. }
  destruct (Split c s) as [|h t] eqn:E.
  { by apply Split_nonempty in E. }
  intros [->|?]%elem_of_cons; simpl.
  - rewrite bool_decide_false by done. simpl. apply IH. left.
  - apply IH. by right.
Qed.

#[global] Arguments HasPrefix : simpl never.
#[global] Arguments strip_prefix : simpl never.
#[global] Arguments strip_suffix : simpl never.

(** [fmt.Sprintf("%d", n)] for a non-negative [n]. *)
Definition itoa (n : N) : string := pretty n.

#[global] Instance itoa_inj : Inj (=) (=) itoa.
Proof. unfold itoa. apply _. Qed.

(** [fmt]'s [%q] on a text without bytes that need escaping. *)
Definition quote (s : string) : string :=
  let q := Ascii.ascii_of_nat 34 in String q (s +:+ String q "").

(** ** Sorting a set of indices

    [sort.Slice] on the keys of a Go map whose sort key is unique: the result
    does not depend on the iteration order of the map. *)
Definition sort_asc (X : gset nat) : list nat := merge_sort (≤) (elements X).
Definition sort_desc (X : gset nat) : list nat := reverse (sort_asc X).

Lemma elem_of_sort_asc X x : x ∈ sort_asc X ↔ x ∈ X.
Proof. unfold sort_asc. by rewrite merge_sort_Permutation, elem_of_elements. Qed.

Lemma elem_of_sort_desc X x : x ∈ sort_desc X ↔ x ∈ X.
Proof. unfold sort_desc. by rewrite elem_of_reverse, elem_of_sort_asc. Qed.

Lemma NoDup_sort_asc X : NoDup (sort_asc X).
Proof. unfold sort_asc. rewrite merge_sort_Permutation. apply NoDup_elements. Qed.

Lemma NoDup_sort_desc X : NoDup (sort_desc X).
Proof. unfold sort_desc. rewrite reverse_Permutation. apply NoDup_sort_asc. Qed.

Lemma StronglySorted_sort_asc X : StronglySorted (≤) (sort_asc X).
Proof. apply (StronglySorted_merge_sort (≤)). Qed.

Lemma sort_asc_lt X : StronglySorted (<) (sort_asc X).
Proof.
  pose proof (StronglySorted_sort_asc X) as Hs. pose proof (NoDup_sort_asc X) as Hn.
  induction Hs as [|x l Hs IH Hx]; constructor.
  - apply IH. by apply NoDup_cons in Hn as [_ ?].
  - apply NoDup_cons in Hn as [Hn _]. rewrite Forall_forall in Hx |- *. intros y Hy.
    specialize (Hx y Hy). assert (x ≠ y) by (by intros ->). lia.
Qed.

Lemma list_to_set_sort_asc X : list_to_set (sort_asc X) = X.
Proof. apply set_eq. intros x. by rewrite elem_of_list_to_set, elem_of_sort_asc. Qed.

Lemma sort_asc_empty : sort_asc ∅ = [].
Proof. unfold sort_asc. by rewrite elements_empty. Qed.

Lemma size_list_to_set_le (l : list string) : size (list_to_set l : gset string) ≤ length l.
Proof.
  induction l as [|x l IH]; [done|]. change (size ({[x]} ∪ list_to_set l : gset string) ≤ S (length l)).
  rewrite size_union_alt, size_singleton. pose proof (subseteq_size (list_to_set l ∖ {[x]}) (list_to_set l : gset string)) as H.
  specialize (H ltac:(set_solver)). lia.
Qed.

(** ** Keys of lists *)

(** Elements whose keys (among those that count) are not repeated are
    determined by their keys. *)
Lemma NoDup_filter_elem_inj {A B} (f : A → B) (P : B → Prop) `{∀ b, Decision (P b)} (l : list A) x y :
  NoDup (filter P (map f l)) → x ∈ l → y ∈ l → P (f x) → f x = f y → x = y.
Proof.
  intros Hn Hx Hy HP Heq. induction l as [|a l IH]; [by apply elem_of_nil in Hx|].
  simpl in Hn. rewrite filter_cons in Hn.
  assert (∀ z, z ∈ l → P (f z) → f z ∈ filter P (map f l)) as Hin.
  { intros z Hz Hp. apply list_elem_of_filter. split; [done|]. by apply list_elem_of_fmap_2. }
  apply elem_of_cons in Hx as [->|Hx], Hy as [->|Hy]; [done | | |].
  - rewrite decide_True in Hn by done. apply NoDup_cons in Hn as [Hn _]. destruct Hn. rewrite Heq in HP |- *. auto.
  - assert (P (f a)) by congruence. rewrite decide_True in Hn by done. apply NoDup_cons in Hn as [Hn _].
    destruct Hn. rewrite <- Heq. auto.
  - apply IH; [|done..]. case_decide; [by apply NoDup_cons in Hn as [_ ?] | done].
Qed.

Lemma submseteq_NoDup {A} (l k : list A) : NoDup k → l ⊆+ k → NoDup l.
Proof. intros Hk (k' & E)%submseteq_Permutation. rewrite E in Hk. by apply NoDup_app in Hk as [? _]. Qed.

Lemma NoDup_map_elem_inj {A B} (f : A → B) (l : list A) x y :
  NoDup (map f l) → x ∈ l → y ∈ l → f x = f y → x = y.
Proof.
  intros Hn Hx Hy. apply (NoDup_filter_elem_inj f (λ _, True) l); [|done..].
  by apply NoDup_filter.
Qed.

(** ** Hint databases

    [frame]: which fields of the interpreter an operation leaves alone.
    [total]: which operations return; [effects]: what executable content emits. *)
Create HintDb frame.
Create HintDb total.
Create HintDb effects.
