(* ===== verification/Identifier.v ===== *)
(** * Identifiers (identifier.go, and the identifier checks of
    definition_validate.go, chart.go, ioprocessor.go and invoke.go)

    An [Identifier] is a dot-segmented name.  It serves as state ID, event
    name, event descriptor and send target.  This file models its validation
    and the event-descriptor matching of SCXML 3.12.1, and characterises both
    without reference to splitting. *)

From S2P Require Import Prelude.
From stdpp Require Import options.

Abbreviation Identifier := string (only parsing).

(** ** Validation *)

(** One byte of [segmentPattern], [A-Za-z0-9_-]. *)
Definition segmentByte (a : Ascii.ascii) : bool :=
  let n := Ascii.N_of_ascii a in
  ((65 <=? n) && (n <=? 90) || (97 <=? n) && (n <=? 122) || (48 <=? n) && (n <=? 57)
   || (n =? 95) || (n =? 45))%N.

Fixpoint all_bytes (p : Ascii.ascii → bool) (s : string) : bool :=
  match s with
  | EmptyString => true
  | String a s => p a && all_bytes p s
  end.

(** [segmentPattern.MatchString]: one or more segment bytes. *)
Definition segmentPattern (s : string) : bool :=
  negb (bool_decide (s = "")) && all_bytes segmentByte s.

(** The loop over the segments: the last one may also be ["*"] or empty. *)
Fixpoint validSegments (segs : list string) : bool :=
  match segs with
  | [] => true
  | [seg] => bool_decide (seg = "*") || bool_decide (seg = "") || segmentPattern seg
  | seg :: segs => segmentPattern seg && validSegments segs
  end.

Definition invalidIdentifier (s : string) : error :=
  Errorf ("statecharts: invalid identifier " +:+ quote s).

Definition NewIdentifier (s : string) : result Identifier :=
  if decide (s = "") then Err (Errorf "statecharts: empty identifier") else
  let check := TrimPrefix s "#" in
  if decide (check = "") then Err (invalidIdentifier s) else
  if decide (check = "*") then Ok s else
  if validSegments (Split "."%char check) then Ok s else Err (invalidIdentifier s).

Definition Segments (id : Identifier) : list string := Split "."%char id.

Definition validateEventDescriptor (id : Identifier) : result unit :=
  match NewIdentifier id with
  | Ok _ => Ok ()
  | Err e => Err (Wrapf ("statecharts: invalid event descriptor " +:+ quote id +:+ ": ") e)
  end.

Definition validatePlainIdentifier (id : Identifier) : result unit :=
  _ ← NewIdentifier id;
  fail_if (HasPrefix id "#" || bool_decide (id = "*") || HasSuffix id "." || HasSuffix id ".*")
    (Errorf ("invalid plain identifier " +:+ quote id)).

(** ** Event-descriptor matching *)

(** The [for i, t := range dTokens] comparison, after the length test. *)
Fixpoint token_prefix (d n : list string) : bool :=
  match d, n with
  | [], _ => true
  | t :: d, u :: n => bool_decide (t = u) && token_prefix d n
  | _ :: _, [] => false
  end.

(** The descriptor with its [.*] and [.] sugar removed. *)
Definition trimDescriptor (d : string) : string := TrimSuffix (TrimSuffix d ".*") ".".

Definition Matches (id eventName : Identifier) : bool :=
  if decide (id = "*") then true else
  let d := trimDescriptor id in
  if decide (d = "") then true else
  let dTokens := Split "."%char d in
  let nTokens := Split "."%char eventName in
  if decide (length nTokens < length dTokens) then false else token_prefix dTokens nTokens.

(** ** Processor types *)

Definition SCXMLEventProcessor : Identifier := "http://www.w3.org/TR/scxml/#SCXMLEventProcessor".
Definition SCXMLEventProcessorAlias : Identifier := "scxml".
Definition SCXMLInvokeType : Identifier := "http://www.w3.org/TR/scxml/".

Definition canonicalIOProcessorType (typ : Identifier) : Identifier :=
  if decide (typ = "" ∨ typ = SCXMLEventProcessorAlias) then SCXMLEventProcessor else typ.

Definition canonicalInvokeType (typ : Identifier) : Identifier :=
  if decide (typ = "" ∨ typ = "scxml") then SCXMLInvokeType else typ.

(** ** Matching, characterised on strings *)

Lemma token_prefix_spec d n : token_prefix d n = true ↔ d `prefix_of` n.
Proof.
  revert n. induction d as [|t d IH]; intros n; simpl.
  { split; [intros _; apply prefix_nil | done]. }
  destruct n as [|u n].
  { split; [done | by intros ?%prefix_nil_inv]. }
  rewrite andb_true_iff, bool_decide_eq_true, IH. split.
  - intros [-> ?]. by apply prefix_cons.
  - intros H. split; [by eapply prefix_cons_inv_1 | by eapply prefix_cons_inv_2].
Qed.

(** Token prefixes of a dotted name are the name itself or a proper prefix
    that ends right before a dot. *)
Lemma Split_prefix c d n :
  Split c d `prefix_of` Split c n ↔ n = d ∨ ∃ r, n = d +:+ String c r.
Proof.
  split.
  - intros [k Hk]. destruct k as [|h t].
    + left. rewrite app_nil_r in Hk. by rewrite <- (Join_Split c n), <- (Join_Split c d), Hk.
    + right. exists (Join c (h :: t)).
      rewrite <- (Join_Split c n), Hk, Join_app by apply Split_nonempty. by rewrite Join_Split.
  - intros [->|[r ->]]; [done|]. rewrite Split_app_sep. by apply prefix_app_r.
Qed.

Lemma Matches_unfold id name :
  Matches id name =
    bool_decide (id = "*") || bool_decide (trimDescriptor id = "")
    || token_prefix (Split "."%char (trimDescriptor id)) (Split "."%char name).
Proof.
  unfold Matches. repeat case_decide; simplify_eq/=; rewrite ?bool_decide_true, ?bool_decide_false by done;
    rewrite ?orb_true_r; try done.
  simpl. symmetry. apply not_true_iff_false. rewrite token_prefix_spec.
  intros ?%prefix_length. lia.
Qed.

Lemma NewIdentifier_id s i : NewIdentifier s = Ok i → i = s.
Proof. unfold NewIdentifier. intros H. repeat case_decide; simplify_eq/=; try done. by case_match; simplify_eq. Qed.

Lemma strip_suffix_dotstar_dot s : HasSuffix s "." = false → HasSuffix s ".*" = false → trimDescriptor s = s.
Proof.
  unfold HasSuffix, trimDescriptor, TrimSuffix. intros H1%bool_decide_eq_false H2%bool_decide_eq_false.
  apply eq_None_not_Some in H1, H2. rewrite H2. simpl. by rewrite H1.
Qed.

(** ** Plain identifiers *)

Lemma validSegments_snoc l x :
  validSegments (l ++ [x]) =
    forallb segmentPattern l && (bool_decide (x = "*") || bool_decide (x = "") || segmentPattern x).
Proof.
  induction l as [|y l IH]; [done|].
  change (validSegments (y :: (l ++ [x])) =
    segmentPattern y && forallb segmentPattern l
    && (bool_decide (x = "*") || bool_decide (x = "") || segmentPattern x)).
  rewrite <- andb_assoc, <- IH. destruct (l ++ [x]) eqn:E; [by destruct l | done].
Qed.

Lemma Split_snoc_suffix c s l x : l ≠ [] → Split c s = l ++ [x] → s = Join c l +:+ String c x.
Proof. intros Hl Hs. rewrite <- (Join_Split c s), Hs. by rewrite Join_app. Qed.

Lemma HasSuffix_true s q : HasSuffix s q = true ↔ ∃ r, s = r +:+ q.
Proof.
  unfold HasSuffix. rewrite bool_decide_eq_true. unfold is_Some.
  by setoid_rewrite strip_suffix_Some.
Qed.

Lemma HasSuffix_Split s q :
  HasSuffix s (String "."%char q) = true → ContainsByte "."%char q = false →
  ∃ l, l ≠ [] ∧ Split "."%char s = l ++ [q].
Proof.
  intros [r ->]%HasSuffix_true Hq. exists (Split "."%char r). split; [apply Split_nonempty|].
  rewrite Split_app_sep. f_equal. induction q as [|a q IH]; [done|]. simpl in *.
  apply orb_false_iff in Hq as [Ha%bool_decide_eq_false Hq]. rewrite decide_False by done.
  by rewrite IH.
Qed.

Lemma segmentPattern_not_star x : segmentPattern x = true → x ≠ "*" ∧ x ≠ "".
Proof. intros H. split; by intros ->. Qed.

Lemma HasPrefix_hash_segments s :
  forallb segmentPattern (Split "."%char s) = true → HasPrefix s "#" = false.
Proof.
  destruct s as [|a s]; [done|]. intros H. apply not_true_iff_false.
  intros [r Hr]%HasPrefix_true. rewrite string_app_cons in Hr. injection Hr as -> ->.
  revert H. simpl. change (_ +:+ r) with r.
  destruct (Split "."%char r) as [|h t] eqn:E; [by apply Split_nonempty in E | done].
Qed.

Lemma TrimPrefix_none s p : HasPrefix s p = false → TrimPrefix s p = s.
Proof.
  unfold TrimPrefix. intros H. destruct (strip_prefix s p) as [r|] eqn:E; [|done].
  apply strip_prefix_Some in E. apply not_true_iff_false in H. destruct H. apply HasPrefix_true. eauto.
Qed.

Lemma plain_segments_sufficient s :
  forallb segmentPattern (Split "."%char s) = true → validatePlainIdentifier s = Ok ().
Proof.
  intros H. assert (Hs : s ≠ "" ∧ s ≠ "*") by (split; by intros ->).
  pose proof (HasPrefix_hash_segments s H) as Hh.
  unfold validatePlainIdentifier, NewIdentifier. rewrite (TrimPrefix_none s "#") by done.
  rewrite !decide_False by naive_solver.
  destruct (exists_last (Split_nonempty "."%char s)) as (l & x & Hlx).
  rewrite Hlx, forallb_app in H. simpl in H. rewrite andb_true_r in H. apply andb_true_iff in H as [Hl Hx].
  rewrite Hlx, validSegments_snoc, Hl, Hx, orb_true_r. simpl. rewrite Hh.
  rewrite bool_decide_false by naive_solver.
  assert (HasSuffix s "." = false) as ->.
  { apply not_true_iff_false. intros (k & Hk & Hks)%HasSuffix_Split; [|done].
    rewrite Hlx in Hks. by apply app_inj_tail in Hks as [-> ->]. }
  assert (HasSuffix s ".*" = false) as ->; [|done].
  apply not_true_iff_false. intros (k & Hk & Hks)%HasSuffix_Split; [|done].
  rewrite Hlx in Hks. by apply app_inj_tail in Hks as [-> ->].
Qed.

Lemma plain_segments_necessary s :
  validatePlainIdentifier s = Ok () → forallb segmentPattern (Split "."%char s) = true.
Proof.
  unfold validatePlainIdentifier. intros (i & Hi & Hf)%result_bind_Ok.
  apply fail_if_Ok in Hf. rewrite !orb_false_iff in Hf. destruct Hf as [[[Hh Hstar] Hdot] Hds].
  apply bool_decide_eq_false in Hstar.
  unfold NewIdentifier in Hi. rewrite (TrimPrefix_none s "#") in Hi by done.
  destruct (decide (s = "")) as [|Hne]; [done|]. rewrite !decide_False in Hi by done.
  destruct (validSegments _) eqn:Hv; [|done].
  destruct (exists_last (Split_nonempty "."%char s)) as (l & x & Hlx). rewrite Hlx in Hv |- *.
  rewrite validSegments_snoc in Hv. apply andb_true_iff in Hv as [Hl Hx].
  rewrite forallb_app, Hl. simpl. rewrite andb_true_r.
  destruct l as [|y l].
  { assert (s = x) as <- by (rewrite <- (Join_Split "."%char s), Hlx; done).
    rewrite !bool_decide_false in Hx by done. done. }
  apply Split_snoc_suffix in Hlx as Hs; [|done].
  rewrite !orb_true_iff, !bool_decide_eq_true in Hx. destruct Hx as [[->| ->]|Hx]; [..|done]; exfalso.
  - apply not_true_iff_false in Hds. apply Hds, HasSuffix_true. by eexists.
  - apply not_true_iff_false in Hdot. apply Hdot, HasSuffix_true. by eexists.
Qed.

(** C35 (equivalence): a descriptor matches an event name exactly when it is
    ["*"], is empty once its [.*]/[.] sugar is trimmed, equals the name, or is a
    prefix of the name that ends right before a dot.  Matching never depends on
    how the two texts are split into tokens. *)
Theorem Matches_token_prefix id name :
  Matches id name = true ↔
    id = "*" ∨ trimDescriptor id = "" ∨ name = trimDescriptor id
    ∨ ∃ r, name = trimDescriptor id +:+ String "."%char r.
Proof.
  rewrite Matches_unfold, !orb_true_iff, !bool_decide_eq_true, token_prefix_spec, Split_prefix.
  naive_solver.
Qed.

(** [validatePlainIdentifier] accepts exactly the texts whose
    dot-separated segments are all non-empty words over [A-Za-z0-9_-]; the
    [#] prefix and the wildcard and trailing-dot sugar that [NewIdentifier]
    tolerates never pass it. *)
Theorem validatePlainIdentifier_segments s :
  validatePlainIdentifier s = Ok () ↔ forallb segmentPattern (Segments s) = true.
Proof. split; [apply plain_segments_necessary | apply plain_segments_sufficient]. Qed.
