(* ===== verification/Storage.v ===== *)
(** * Durable actor metadata and its queries (storage.go)

    [ActorMetadata] pins an actor to a chart revision; a directory of actors is
    read page by page with an opaque cursor, the URL-safe Base64 text of the
    last actor's ID.  Go's [encoding/base64] is modelled for the raw URL
    encoding. *)

From S2P Require Import Prelude Identifier.
From stdpp Require Import options.
#[local] Open Scope N_scope.

(** ** Base64, raw URL encoding *)

Definition alphabet : string := "ABCDEFGHIJKLMNOPQRSTUVWXYZabcdefghijklmnopqrstuvwxyz0123456789-_".

Definition encodeDigit (n : N) : Ascii.ascii := default Ascii.zero (String.get (N.to_nat n) alphabet).

(** The position of a byte in the alphabet. *)
Fixpoint digitAt (k : N) (a : Ascii.ascii) (s : string) : option N :=
  match s with
  | EmptyString => None
  | String b s => if decide (a = b) then Some k else digitAt (k + 1) a s
  end.
Definition decodeDigit (a : Ascii.ascii) : option N := digitAt 0 a alphabet.

(** Three bytes as a number of 24 bits, and its four digits of six bits. *)
Definition packBytes (a b c : N) : N := N.lor (N.lor (N.shiftl a 16) (N.shiftl b 8)) c.
Definition digitOf (val shift : N) : Ascii.ascii := encodeDigit (N.land (N.shiftr val shift) 63).

Definition byteVal (a : Ascii.ascii) : N := Ascii.N_of_ascii a.

(** [RawURLEncoding.EncodeToString]. *)
Fixpoint EncodeToString (src : string) : string :=
  match src with
  | EmptyString => ""
  | String a EmptyString =>
      let val := packBytes (byteVal a) 0 0 in
      String (digitOf val 18) (String (digitOf val 12) "")
  | String a (String b EmptyString) =>
      let val := packBytes (byteVal a) (byteVal b) 0 in
      String (digitOf val 18) (String (digitOf val 12) (String (digitOf val 6) ""))
  | String a (String b (String c src)) =>
      let val := packBytes (byteVal a) (byteVal b) (byteVal c) in
      String (digitOf val 18) (String (digitOf val 12) (String (digitOf val 6) (String (digitOf val 0) (EncodeToString src))))
  end.

(** Four digits as a number, and the bytes of it. *)
Definition packDigits (x y z w : N) : N := N.lor (N.lor (N.lor (N.shiftl x 18) (N.shiftl y 12)) (N.shiftl z 6)) w.
Definition byteOf (val shift : N) : Ascii.ascii := Ascii.ascii_of_N (N.shiftr val shift mod 256).

(** The decoder skips line breaks. *)
Fixpoint withoutBreaks (s : string) : string :=
  match s with
  | EmptyString => ""
  | String a s => if bool_decide (byteVal a = 10) || bool_decide (byteVal a = 13) then withoutBreaks s else String a (withoutBreaks s)
  end.

Fixpoint decodeQuanta (s : string) : option string :=
  match s with
  | EmptyString => Some ""
  | String _ EmptyString => None
  | String a (String b EmptyString) =>
      x ← decodeDigit a; y ← decodeDigit b;
      Some (String (byteOf (packDigits x y 0 0) 16) "")
  | String a (String b (String c EmptyString)) =>
      x ← decodeDigit a; y ← decodeDigit b; z ← decodeDigit c;
      let val := packDigits x y z 0 in Some (String (byteOf val 16) (String (byteOf val 8) ""))
  | String a (String b (String c (String d s))) =>
      x ← decodeDigit a; y ← decodeDigit b; z ← decodeDigit c; w ← decodeDigit d;
      rest ← decodeQuanta s;
      let val := packDigits x y z w in Some (String (byteOf val 16) (String (byteOf val 8) (String (byteOf val 0) rest)))
  end.

(** [RawURLEncoding.DecodeString]; [None] is its error. *)
Definition DecodeString (s : string) : option string := decodeQuanta (withoutBreaks s).
#[local] Close Scope N_scope.

(** ** Actor metadata *)

(** Go's zero [time.Time]; times count from it. *)
Definition zeroTime : Z := 0.

Definition ErrInvalidActorMetadata : string := "statecharts: invalid actor metadata".
Definition invalidMetadata (text : string) : error := Errorf (ErrInvalidActorMetadata +:+ ": " +:+ text).
Definition ErrActorCollision : error := Errorf "statecharts: actor identity collision".
Definition ErrActorTerminal : error := Errorf "statecharts: actor is terminal".

(** A lifecycle is a string in the source; others than these two are refused. *)
Definition ActorLifecycleActive : string := "active".
Definition ActorLifecycleTerminal : string := "terminal".

Record ActorMetadata := mkActor {
  am_ActorID : Identifier;
  am_ChartID : Identifier;
  am_Revision : string;
  am_SessionID : string;
  am_Durable : bool;
  am_Lifecycle : string;
  am_StartedAt : Z;
  am_TerminalAt : Z
}.

#[global] Instance ActorMetadata_eq_dec : EqDecision ActorMetadata.
Proof. solve_decision. Defined.

(** [NewIdentifier], its error under a heading. *)
Definition validIdentifier (what : string) (id : Identifier) : result unit :=
  match NewIdentifier id with Ok _ => Ok () | Err e => Err (invalidMetadata (what +:+ ": " +:+ msg e)) end.

Definition metadataValidate (m : ActorMetadata) : result unit :=
  _ ← validIdentifier "actor ID" (am_ActorID m);
  _ ← validIdentifier "chart ID" (am_ChartID m);
  _ ← fail_if (bool_decide (am_Revision m = "")) (invalidMetadata "revision is empty");
  _ ← fail_if (bool_decide (am_SessionID m = "")) (invalidMetadata "session ID is empty");
  _ ← fail_if (negb (am_Durable m)) (invalidMetadata "durable is false");
  _ ← fail_if (bool_decide (am_StartedAt m = zeroTime)) (invalidMetadata "start time is zero");
  if decide (am_Lifecycle m = ActorLifecycleActive) then
    fail_if (negb (bool_decide (am_TerminalAt m = zeroTime))) (invalidMetadata "terminal time is set for an active actor")
  else if decide (am_Lifecycle m = ActorLifecycleTerminal) then
    _ ← fail_if (bool_decide (am_TerminalAt m = zeroTime)) (invalidMetadata "terminal time is zero for a terminal actor");
    fail_if (bool_decide (am_TerminalAt m < am_StartedAt m)%Z) (invalidMetadata "terminal time precedes start time")
  else if decide (am_Lifecycle m = "") then Err (invalidMetadata "lifecycle is empty")
  else Err (invalidMetadata ("lifecycle " +:+ quote (am_Lifecycle m) +:+ " is unknown")).

(** ** Queries *)

Definition DefaultActorMetadataPageLimit : Z := 50.
Definition MaxActorMetadataPageLimit : Z := 200.

Record ActorMetadataQuery := mkQuery {
  q_After : string;
  q_Limit : Z;
  q_ActorIDPrefix : string;
  q_ChartID : Identifier;
  q_Revision : string;
  q_Lifecycle : string
}.

Record ActorMetadataPage := mkPage { pg_Actors : list ActorMetadata; pg_Next : string }.

Definition ActorMetadataCursorFor (actorID : Identifier) : string := EncodeToString (String (Ascii.ascii_of_N 1) actorID).

Definition invalidCursor : error := Errorf "statecharts: invalid actor metadata cursor".

(** The method [Validate]: the query with its limit, and the decoded cursor. *)
Definition queryValidate (q : ActorMetadataQuery) : result (ActorMetadataQuery * Identifier) :=
  let limit := if decide (q_Limit q = 0)%Z then DefaultActorMetadataPageLimit else q_Limit q in
  let normalized := mkQuery (q_After q) limit (q_ActorIDPrefix q) (q_ChartID q) (q_Revision q) (q_Lifecycle q) in
  _ ← fail_if (bool_decide (limit < 0)%Z || bool_decide (MaxActorMetadataPageLimit < limit)%Z)
        (Errorf ("statecharts: actor metadata query limit " +:+ pretty (q_Limit q) +:+ " must be between 1 and "
                 +:+ pretty MaxActorMetadataPageLimit +:+ ", or zero for the default"));
  _ ← (if decide (q_ChartID q = "") then Ok ()
       else match NewIdentifier (q_ChartID q) with
            | Ok _ => Ok ()
            | Err e => Err (Wrapf "statecharts: actor metadata query chart ID: " e)
            end);
  _ ← fail_if (negb (bool_decide (q_Lifecycle q = "")) && negb (bool_decide (q_Lifecycle q = ActorLifecycleActive))
               && negb (bool_decide (q_Lifecycle q = ActorLifecycleTerminal)))
        (Errorf ("statecharts: actor metadata query lifecycle " +:+ quote (q_Lifecycle q) +:+ " is unknown"));
  if decide (q_After q = "") then Ok (normalized, "")
  else
    match DecodeString (q_After q) with
    | Some (String a (String b raw)) =>
        if decide (byteVal a = 1)%N then
          match NewIdentifier (String b raw) with
          | Ok after => Ok (normalized, after)
          | Err _ => Err invalidCursor
          end
        else Err invalidCursor
    | _ => Err invalidCursor
    end.

(** ** The cursor can be read back *)

Section base64.
#[local] Open Scope N_scope.

Lemma digits_check :
  Forall (λ n, decodeDigit (encodeDigit n) = Some n ∧ byteVal (encodeDigit n) ≠ 10 ∧ byteVal (encodeDigit n) ≠ 13) (N.of_nat <$> seq 0 64).
Proof. apply (bool_decide_unpack _). vm_compute. exact I. Qed.

Lemma digit_ok n : n < 64 →
  decodeDigit (encodeDigit n) = Some n ∧ byteVal (encodeDigit n) ≠ 10 ∧ byteVal (encodeDigit n) ≠ 13.
Proof. intros Hn. apply (proj1 (Forall_forall _ _) digits_check). apply list_elem_of_fmap.
  exists (N.to_nat n). split; [lia|]. apply elem_of_seq. lia. Qed.

(** Bits that do not overlap add up. *)
Lemma lor_shiftl a b k : b < 2 ^ k → N.lor (N.shiftl a k) b = a * 2 ^ k + b.
Proof.
  intros Hb. rewrite <- N.shiftl_mul_pow2.
  assert (N.land (N.shiftl a k) b = 0) as H0.
  { apply N.bits_inj_0. intros n. rewrite N.land_spec. destruct (N.lt_ge_cases n k) as [H|H]; [by rewrite N.shiftl_spec_low|].
    destruct (decide (b = 0)) as [->|Hnz]; [by rewrite N.bits_0, andb_false_r|].
    rewrite (N.bits_above_log2 b), andb_false_r; [done|]. apply N.log2_lt_pow2 in Hb; lia. }
  by rewrite N.add_nocarry_lxor, N.lxor_lor by done.
Qed.

Lemma packBytes_sum a b c : b < 256 → c < 256 → packBytes a b c = a * 65536 + b * 256 + c.
Proof.
  intros Hb Hc. unfold packBytes. rewrite (lor_shiftl a (N.shiftl b 8)) by (rewrite N.shiftl_mul_pow2; change (2 ^ 16) with 65536; change (2 ^ 8) with 256; lia).
  rewrite N.shiftl_mul_pow2. replace (a * 2 ^ 16 + b * 2 ^ 8) with (N.shiftl (a * 256 + b) 8).
  2: { rewrite N.shiftl_mul_pow2. change (2 ^ 16) with 65536. change (2 ^ 8) with 256. lia. }
  rewrite lor_shiftl by done. change (2 ^ 8) with 256. lia.
Qed.

Lemma packDigits_sum x y z w : y < 64 → z < 64 → w < 64 → packDigits x y z w = x * 262144 + y * 4096 + z * 64 + w.
Proof.
  intros Hy Hz Hw. unfold packDigits.
  rewrite (lor_shiftl x (N.shiftl y 12)) by (rewrite N.shiftl_mul_pow2; change (2 ^ 18) with 262144; change (2 ^ 12) with 4096; lia).
  replace (x * 2 ^ 18 + N.shiftl y 12) with (N.shiftl (x * 64 + y) 12).
  2: { rewrite !N.shiftl_mul_pow2. change (2 ^ 18) with 262144. change (2 ^ 12) with 4096. lia. }
  rewrite (lor_shiftl _ (N.shiftl z 6)) by (rewrite N.shiftl_mul_pow2; change (2 ^ 12) with 4096; change (2 ^ 6) with 64; lia).
  replace ((x * 64 + y) * 2 ^ 12 + N.shiftl z 6) with (N.shiftl ((x * 64 + y) * 64 + z) 6).
  2: { rewrite !N.shiftl_mul_pow2. change (2 ^ 12) with 4096. change (2 ^ 6) with 64. lia. }
  rewrite lor_shiftl by done. change (2 ^ 6) with 64. lia.
Qed.

(** The digits of a number of 24 bits. *)
Definition digitVal (val shift : N) : N := N.land (N.shiftr val shift) 63.

Lemma digitVal_div val shift : digitVal val shift = (val / 2 ^ shift) mod 64.
Proof. unfold digitVal. by rewrite (N.land_ones _ 6), N.shiftr_div_pow2. Qed.

Lemma repack val : val < 16777216 →
  packDigits (digitVal val 18) (digitVal val 12) (digitVal val 6) (digitVal val 0) = val.
Proof.
  intros Hv. rewrite packDigits_sum by (rewrite digitVal_div; apply N.mod_lt; done). rewrite !digitVal_div.
  change (2 ^ 18) with 262144. change (2 ^ 12) with 4096. change (2 ^ 6) with 64. change (2 ^ 0) with 1.
  pose proof (N.Div0.div_mod val 64). rewrite N.div_1_r.
  assert (val / 4096 = val / 64 / 64) as -> by (rewrite N.Div0.div_div; done).
  assert (val / 262144 = val / 64 / 64 / 64) as -> by (rewrite !N.Div0.div_div; done).
  pose proof (N.Div0.div_mod (val / 64) 64). pose proof (N.Div0.div_mod (val / 64 / 64) 64).
  rewrite (N.mod_small (val / 64 / 64 / 64)); [lia|]. rewrite !N.Div0.div_div. apply N.Div0.div_lt_upper_bound. done.
Qed.

Lemma byteVal_lt a : byteVal a < 256.
Proof. apply Ascii.N_ascii_bounded. Qed.

Lemma byteOf_byteVal a : Ascii.ascii_of_N (byteVal a) = a.
Proof. apply Ascii.ascii_N_embedding. Qed.

(** The bytes of a packed number. *)
Lemma byteOf_pack a b c : let val := packBytes (byteVal a) (byteVal b) (byteVal c) in
  byteOf val 16 = a ∧ byteOf val 8 = b ∧ byteOf val 0 = c.
Proof.
  intros val. pose proof (byteVal_lt a). pose proof (byteVal_lt b). pose proof (byteVal_lt c).
  unfold byteOf. rewrite !N.shiftr_div_pow2. change (2 ^ 16) with 65536. change (2 ^ 8) with 256. change (2 ^ 0) with 1.
  unfold val. rewrite packBytes_sum by done. rewrite N.div_1_r.
  split_and!; (etransitivity; [|apply byteOf_byteVal]); f_equal.
  - replace (byteVal a * 65536 + byteVal b * 256 + byteVal c) with (byteVal b * 256 + byteVal c + byteVal a * 65536) by lia.
    rewrite N.div_add by done. rewrite N.div_small by lia. rewrite N.mod_small; lia.
  - replace (byteVal a * 65536 + byteVal b * 256 + byteVal c) with (byteVal c + (byteVal a * 256 + byteVal b) * 256) by lia.
    rewrite N.div_add by done. rewrite N.div_small by lia. rewrite N.add_0_l, N.add_comm, N.Div0.mod_add. by apply N.mod_small.
  - replace (byteVal a * 65536 + byteVal b * 256 + byteVal c) with (byteVal c + (byteVal a * 256 + byteVal b) * 256) by lia.
    rewrite N.Div0.mod_add. by apply N.mod_small.
Qed.

Lemma decodeDigit_digitOf val shift : decodeDigit (digitOf val shift) = Some (digitVal val shift).
Proof. apply digit_ok. change (digitVal val shift < 64). rewrite digitVal_div. by apply N.mod_lt. Qed.

Lemma withoutBreaks_digitOf val shift s : withoutBreaks (String (digitOf val shift) s) = String (digitOf val shift) (withoutBreaks s).
Proof.
  simpl. destruct (digit_ok (digitVal val shift)) as (_ & H1 & H2); [rewrite digitVal_div; by apply N.mod_lt|].
  by rewrite !bool_decide_false.
Qed.

Lemma packBytes_bound a b c : packBytes (byteVal a) (byteVal b) (byteVal c) < 16777216.
Proof. pose proof (byteVal_lt a). pose proof (byteVal_lt b). pose proof (byteVal_lt c). rewrite packBytes_sum by done. lia. Qed.

(** The digits below the packed bytes are zero. *)
Lemma low_digits a b : b < 256 → digitVal (packBytes a b 0) 0 = 0 ∧ digitVal (packBytes a 0 0) 6 = 0.
Proof.
  intros Hb. rewrite !digitVal_div, !packBytes_sum by done. change (2 ^ 0) with 1. change (2 ^ 6) with 64. rewrite N.div_1_r. split.
  - replace (a * 65536 + b * 256 + 0) with ((a * 1024 + b * 4) * 64) by lia. apply N.Div0.mod_mul.
  - replace (a * 65536 + 0 * 256 + 0) with (a * 16 * 64 * 64) by lia. rewrite N.div_mul by done. apply N.Div0.mod_mul.
Qed.

#[local] Opaque digitOf decodeDigit packDigits packBytes byteOf.

(** Decoding undoes encoding. *)
Lemma DecodeString_EncodeToString s : DecodeString (EncodeToString s) = Some s.
Proof.
  unfold DecodeString. remember (String.length s) as n eqn:Hn. revert s Hn.
  induction (lt_wf n) as [n _ IH]; intros s ->. destruct s as [|a [|b [|c s]]]; [done|..]; cbn [EncodeToString];
    rewrite !withoutBreaks_digitOf; simpl; rewrite !decodeDigit_digitOf; simpl.
  - pose proof (low_digits (byteVal a) 0) as [Hw Hz]; [done|]. pose proof (byteOf_pack a Ascii.zero Ascii.zero) as (Ha & _ & _).
    pose proof (repack (packBytes (byteVal a) 0 0) (packBytes_bound a Ascii.zero Ascii.zero)) as R. rewrite Hz, Hw in R. rewrite R.
    f_equal. f_equal. exact Ha.
  - pose proof (low_digits (byteVal a) (byteVal b) (byteVal_lt b)) as [Hw _].
    pose proof (byteOf_pack a b Ascii.zero) as (Ha & Hb & _).
    pose proof (repack (packBytes (byteVal a) (byteVal b) 0) (packBytes_bound a b Ascii.zero)) as R. rewrite Hw in R. rewrite R.
    f_equal. f_equal; [exact Ha|]. f_equal. exact Hb.
  - rewrite (IH (String.length s)) by (done || (simpl; lia)). simpl. rewrite repack by apply packBytes_bound.
    by destruct (byteOf_pack a b c) as (-> & -> & ->).
Qed.
End base64.
