(* ===== verification/Values.v ===== *)
(** * Canonical values (value.go)

    [Value] is the data that crosses the datamodel, actor and durability
    boundaries.  The Go struct is a tagged union over an unexported [kind]; the
    constructors of [Value] are its variants.  A Go [map[string]Value] is an
    association list with distinct keys (iteration order is unobservable in
    Go, so no operation below depends on the order except through an explicit
    sort in [encoding/json], which is outside this model).  Copying is the
    identity on immutable data; [Clone] follows the source and is proved to be
    the identity. *)

From S2P Require Import Prelude.
From stdpp Require Import options.

Inductive Value :=
| NullValue
| BoolValue (b : bool)
| TextValue (s : string)                    (* kind "string" *)
| NumValue (text : string)                  (* kind "number", canonical text *)
| ListOf (l : list Value)
| MapOf (m : list (string * Value))
| TaggedOf (tag : string) (payload : Value).

(** ** UTF-8 validity (utf8.ValidString)

    One step of the decoder: the number of continuation bytes and the range of
    the first of them, by first byte, as in the [acceptRanges] table of Go's
    [unicode/utf8]. *)
Definition utf8_first (b : N) : option (nat * N * N) :=
  (if b <? 128 then Some (0%nat, 0, 0)
   else if (194 <=? b) && (b <=? 223) then Some (1%nat, 128, 191)
   else if b =? 224 then Some (2%nat, 160, 191)
   else if ((225 <=? b) && (b <=? 236)) || ((238 <=? b) && (b <=? 239)) then Some (2%nat, 128, 191)
   else if b =? 237 then Some (2%nat, 128, 159)
   else if b =? 240 then Some (3%nat, 144, 191)
   else if (241 <=? b) && (b <=? 243) then Some (3%nat, 128, 191)
   else if b =? 244 then Some (3%nat, 128, 143)
   else None)%N.

(** [n] continuation bytes are still expected, the next one in [lo, hi]. *)
Fixpoint utf8_scan (n : nat) (lo hi : N) (s : string) : bool :=
  match s with
  | EmptyString => bool_decide (n = 0)
  | String a s =>
      let b := N_of_ascii a in
      match n with
      | 0 => match utf8_first b with
             | Some (n', lo', hi') => utf8_scan n' lo' hi' s
             | None => false
             end
      | S n' => (lo <=? b)%N && (b <=? hi)%N && utf8_scan n' 128 191 s
      end
  end.

Definition ValidString (s : string) : bool := utf8_scan 0 0 0 s.

(** ** Numbers (canonicalNumber) *)

Definition isDecimalDigit (a : ascii) : bool :=
  let n := N_of_ascii a in ((48 <=? n) && (n <=? 57))%N.

Definition invalidNumber (input reason : string) : error :=
  Errorf ("statecharts: invalid number " +:+ quote input +:+ ": " +:+ reason).

(** [for position < len(input) && isDecimalDigit(input[position])]: the digits
    scanned and the rest of the input. *)
Fixpoint span_digits (s : string) : string * string :=
  match s with
  | EmptyString => ("", "")
  | String a r =>
      if isDecimalDigit a then let '(d, r') := span_digits r in (String a d, r') else ("", s)
  end.

(** [big.Int.SetString(_, 10)] on a text of decimal digits. *)
Fixpoint parse_digits (acc : N) (s : string) : N :=
  match s with
  | EmptyString => acc
  | String a s => parse_digits (acc * 10 + (N_of_ascii a - 48))%N s
  end.

(** Drops leading ['0'] bytes. *)
Fixpoint trim_zeros (s : string) : string :=
  match s with
  | String a s' => if decide (a = "0"%char) then trim_zeros s' else s
  | EmptyString => EmptyString
  end.

(** Drops trailing ['0'] bytes and counts them. *)
Fixpoint trim_trailing (s : string) : string * N :=
  match s with
  | EmptyString => (EmptyString, 0%N)
  | String a s' =>
      match trim_trailing s' with
      | (EmptyString, n) => if decide (a = "0"%char) then (EmptyString, (n + 1)%N) else (String a EmptyString, n)
      | (t, n) => (String a t, n)
      end
  end.

(** The optional sign. *)
Definition scan_sign (s : string) : bool * string :=
  match s with
  | String a r => if decide (a = "-"%char) then (true, r) else (false, s)
  | EmptyString => (false, s)
  end.

(** The integer part: ["0"] not followed by a digit, or digits from [1-9]. *)
Definition scan_integer (input s : string) : result (string * string) :=
  match s with
  | EmptyString => Err (invalidNumber input "missing integer")
  | String a r =>
      if decide (a = "0"%char) then
        match r with
        | String b _ => if isDecimalDigit b then Err (invalidNumber input "leading zero") else Ok ("0", r)
        | EmptyString => Ok ("0", r)
        end
      else if isDecimalDigit a then Ok (span_digits s)
      else Err (invalidNumber input "invalid integer")
  end.

(** The optional fraction. *)
Definition scan_fraction (input s : string) : result (string * string) :=
  match s with
  | String a r =>
      if decide (a = "."%char) then
        let '(d, r') := span_digits r in
        if decide (d = "") then Err (invalidNumber input "missing fraction digits") else Ok (d, r')
      else Ok ("", s)
  | EmptyString => Ok ("", s)
  end.

(** The optional sign of the exponent. *)
Definition scan_exponent_sign (s : string) : bool * string :=
  match s with
  | String b r => if decide (b = "+"%char) then (false, r)
                  else if decide (b = "-"%char) then (true, r) else (false, s)
  | EmptyString => (false, s)
  end.

(** The optional exponent, as an unbounded integer. *)
Definition scan_exponent (input s : string) : result (Z * string) :=
  match s with
  | String a r =>
      if decide (a = "e"%char ∨ a = "E"%char) then
        let '(neg, r1) := scan_exponent_sign r in
        let '(d, r2) := span_digits r1 in
        if decide (d = "") then Err (invalidNumber input "missing exponent digits") else
        let e := Z.of_N (parse_digits 0 d) in
        Ok (if neg : bool then (- e)%Z else e, r2)
      else Ok (0%Z, s)
  | EmptyString => Ok (0%Z, s)
  end.

(** The normalisation after the scan: no leading or trailing zeroes in the
    coefficient, the exponent adjusted for both. *)
Definition normalizeNumber (negative : bool) (integer fraction : string) (exponent : Z) : string :=
  let digits := trim_zeros (integer +:+ fraction) in
  if decide (digits = "") then "0" else
  let exponent := (exponent - Z.of_nat (String.length fraction))%Z in
  let '(digits, trailingZeroes) := trim_trailing digits in
  let exponent := (exponent + Z.of_N trailingZeroes)%Z in
  let digits := if negative then "-" +:+ digits else digits in
  if decide (exponent = 0%Z) then digits else digits +:+ "e" +:+ pretty exponent.

Definition canonicalNumber (input : string) : result string :=
  if decide (input = "") then Err (invalidNumber input "empty number") else
  let '(negative, r) := scan_sign input in
  '(integer, r) ← scan_integer input r;
  '(fraction, r) ← scan_fraction input r;
  '(exponent, r) ← scan_exponent input r;
  if decide (r = "") then Ok (normalizeNumber negative integer fraction exponent)
  else Err (invalidNumber input "unexpected character").

(** ** Constructors *)

Definition StringValue (value : string) : result Value :=
  if ValidString value then Ok (TextValue value)
  else Err (Errorf "statecharts: Value string is not valid UTF-8").

Definition NumberValue (value : string) : result Value :=
  canonical ← canonicalNumber value; Ok (NumValue canonical).

(** [Int64Value] panics when [NumberValue] rejects [strconv.FormatInt]'s text,
    which [Int64Value_roundtrip] rules out; the panic is [None]. *)
Definition Int64Value (value : Z) : option Value :=
  match NumberValue (pretty value) with Ok v => Some v | Err _ => None end.

Section clone.
Variable Clone : Value → Value.

(** [ListValue] copies every element. *)
Definition clone_list (l : list Value) : list Value := map Clone l.

(** The copy of a map's entries. *)
Definition clone_map (m : list (string * Value)) : list (string * Value) :=
  map (λ '(k, v), (k, Clone v)) m.
End clone.

Fixpoint Clone (v : Value) : Value :=
  match v with
  | NullValue => NullValue
  | BoolValue b => BoolValue b
  | TextValue s => TextValue s
  | NumValue s => NumValue s
  | ListOf l => ListOf (clone_list Clone l)
  | MapOf m => MapOf (clone_map Clone m)
  | TaggedOf tag p => TaggedOf tag (Clone p)
  end.

Definition ListValue (values : list Value) : Value := ListOf (map Clone values).

Definition MapValue (values : list (string * Value)) : result Value :=
  if forallb (λ '(k, _), ValidString k) values
  then Ok (MapOf (map (λ '(k, v), (k, Clone v)) values))
  else Err (Errorf "statecharts: Value map key is not valid UTF-8").

Definition TaggedValue (tag : string) (payload : Value) : result Value :=
  if decide (tag = "") then Err (Errorf "statecharts: tagged Value requires a non-empty tag") else
  if ValidString tag then Ok (TaggedOf tag (Clone payload))
  else Err (Errorf "statecharts: tagged Value tag is not valid UTF-8").

(** ** Accessors *)

Inductive ValueKind :=
| ValueKindNull | ValueKindBool | ValueKindString | ValueKindNumber
| ValueKindList | ValueKindMap | ValueKindTagged.

#[global] Instance ValueKind_eq_dec : EqDecision ValueKind.
Proof. solve_decision. Defined.

Definition Kind (v : Value) : ValueKind :=
  match v with
  | NullValue => ValueKindNull
  | BoolValue _ => ValueKindBool
  | TextValue _ => ValueKindString
  | NumValue _ => ValueKindNumber
  | ListOf _ => ValueKindList
  | MapOf _ => ValueKindMap
  | TaggedOf _ _ => ValueKindTagged
  end.

Definition kind_text (k : ValueKind) : string :=
  match k with
  | ValueKindNull => "null"
  | ValueKindBool => "bool"
  | ValueKindString => "string"
  | ValueKindNumber => "number"
  | ValueKindList => "list"
  | ValueKindMap => "map"
  | ValueKindTagged => "tagged"
  end.

Definition AsBool (v : Value) : option bool :=
  match v with BoolValue b => Some b | _ => None end.
Definition AsString (v : Value) : option string :=
  match v with TextValue s => Some s | _ => None end.
Definition AsNumber (v : Value) : option string :=
  match v with NumValue s => Some s | _ => None end.
Definition AsList (v : Value) : option (list Value) :=
  match v with ListOf l => Some (map Clone l) | _ => None end.
Definition AsMap (v : Value) : option (list (string * Value)) :=
  match v with MapOf m => Some (map (λ '(k, v), (k, Clone v)) m) | _ => None end.
Definition AsTagged (v : Value) : option (string * Value) :=
  match v with TaggedOf tag p => Some (tag, Clone p) | _ => None end.

(** [strings.Cut(number, "e")]. *)
Fixpoint cut_e (s : string) : string * option string :=
  match s with
  | EmptyString => ("", None)
  | String a s' =>
      if decide (a = "e"%char) then ("", Some s')
      else let '(b, r) := cut_e s' in (String a b, r)
  end.

Fixpoint all_digits (s : string) : bool :=
  match s with EmptyString => true | String a s => isDecimalDigit a && all_digits s end.

(** [new(big.Int).SetString(s, 10)]: an optional sign and decimal digits. *)
Definition bigSetString (s : string) : option Z :=
  let '(neg, d) := scan_exponent_sign s in
  if bool_decide (d ≠ "") && all_digits d then
    Some (if neg : bool then - Z.of_N (parse_digits 0 d) else Z.of_N (parse_digits 0 d))%Z
  else None.

Definition IsInt64 (z : Z) : bool := ((- 2 ^ 63 <=? z) && (z <? 2 ^ 63))%Z.

Definition AsInt64 (v : Value) : option Z :=
  number ← AsNumber v;
  let '(coefficientText, exponentText) := cut_e number in
  coefficient ← bigSetString coefficientText;
  scaled ← match exponentText with
           | None => Some coefficient
           | Some t =>
               exponent ← bigSetString t;
               if ((exponent <? 0) || (19 <? exponent))%Z then None
               else Some (coefficient * 10 ^ exponent)%Z
           end;
  if IsInt64 scaled then Some scaled else None.

(** ** Equality *)

(** The Go map lookup [m[k]] with its presence flag. *)
Fixpoint assoc {A} (k : string) (m : list (string * A)) : option A :=
  match m with
  | [] => None
  | (k', a) :: m => if decide (k = k') then Some a else assoc k m
  end.

Section equal.
Variable Equal : Value → Value → bool.

(** The index loop over two lists of the same length. *)
Fixpoint equal_list (l l' : list Value) : bool :=
  match l, l' with
  | [], [] => true
  | v :: l, v' :: l' => Equal v v' && equal_list l l'
  | _, _ => false
  end.

(** [for key, value := range v.object] against the other map. *)
Fixpoint equal_map (m m' : list (string * Value)) : bool :=
  match m with
  | [] => true
  | (k, v) :: m =>
      match assoc k m' with
      | Some v' => Equal v v' && equal_map m m'
      | None => false
      end
  end.
End equal.

Fixpoint Equal (v other : Value) : bool :=
  match v, other with
  | NullValue, NullValue => true
  | BoolValue b, BoolValue b' => bool_decide (b = b')
  | TextValue s, TextValue s' => bool_decide (s = s')
  | NumValue s, NumValue s' => bool_decide (s = s')
  | ListOf l, ListOf l' => bool_decide (length l = length l') && equal_list Equal l l'
  | MapOf m, MapOf m' => bool_decide (length m = length m') && equal_map Equal m m'
  | TaggedOf tag p, TaggedOf tag' p' => bool_decide (tag = tag') && Equal p p'
  | _, _ => false
  end.

(** ** The wire union *)

Definition ValueWireVersion : Z := 1.

Inductive ValueWire := mkWire {
  wVersion : Z;
  wKind : string;
  wBool : option bool;
  wString : option string;
  wNumber : option string;
  wList : option (list ValueWire);
  wMap : option (list (string * ValueWire));
  wTag : option string;
  wPayload : option ValueWire
}.

(** [ValueWire{Version: ValueWireVersion, Kind: k}]. *)
Definition emptyWire (k : string) : ValueWire :=
  mkWire ValueWireVersion k None None None None None None None.

Section result_map.
Context {A B : Type} (f : A → result B).

(** The element loops of [Wire] and [ValueFromWire]; an error is wrapped with
    the position of the element. *)
Fixpoint result_list (l : list A) : result (list B) :=
  match l with
  | [] => Ok []
  | a :: l => b ← f a; r ← result_list l; Ok (b :: r)
  end.

Fixpoint result_assoc (m : list (string * A)) : result (list (string * B)) :=
  match m with
  | [] => Ok []
  | (k, a) :: m =>
      if ValidString k then b ← f a; r ← result_assoc m; Ok ((k, b) :: r)
      else Err (Errorf "statecharts: Value map key is not valid UTF-8")
  end.
End result_map.

Fixpoint Wire (v : Value) : result ValueWire :=
  match v with
  | NullValue => Ok (emptyWire "null")
  | BoolValue b => Ok (mkWire ValueWireVersion "bool" (Some b) None None None None None None)
  | TextValue s =>
      if ValidString s then Ok (mkWire ValueWireVersion "string" None (Some s) None None None None None)
      else Err (Errorf "statecharts: Value string is not valid UTF-8")
  | NumValue s =>
      if decide (canonicalNumber s = Ok s)
      then Ok (mkWire ValueWireVersion "number" None None (Some s) None None None None)
      else Err (Errorf ("statecharts: Value contains non-canonical number " +:+ quote s))
  | ListOf l =>
      ws ← result_list Wire l;
      Ok (mkWire ValueWireVersion "list" None None None (Some ws) None None None)
  | MapOf m =>
      ws ← result_assoc Wire m;
      Ok (mkWire ValueWireVersion "map" None None None None (Some ws) None None)
  | TaggedOf tag p =>
      if decide (tag = "") then Err (Errorf "statecharts: tagged Value requires a non-empty tag and payload") else
      if ValidString tag then
        w ← Wire p;
        Ok (mkWire ValueWireVersion "tagged" None None None None None (Some tag) (Some w))
      else Err (Errorf "statecharts: tagged Value tag is not valid UTF-8")
  end.

Definition count_Some {A} (o : option A) : nat := match o with Some _ => 1 | None => 0 end.

Definition wireFieldCount (w : ValueWire) : nat :=
  count_Some (wBool w) + count_Some (wString w) + count_Some (wNumber w) + count_Some (wList w)
  + count_Some (wMap w) + count_Some (wTag w) + count_Some (wPayload w).

Definition wireUnionError (kind : string) : error :=
  Errorf ("statecharts: " +:+ kind +:+ " wire value has a malformed union").

Fixpoint ValueFromWire (w : ValueWire) : result Value :=
  if bool_decide (wVersion w ≠ ValueWireVersion)
  then Err (Errorf "statecharts: unsupported Value wire version") else
  let n := wireFieldCount w in
  match w with
  | mkWire _ kind wb ws wn wl wm wt wp =>
      if decide (kind = "null") then
        if decide (n = 0) then Ok NullValue else Err (wireUnionError kind)
      else if decide (kind = "bool") then
        match wb with
        | Some b => if decide (n = 1) then Ok (BoolValue b) else Err (wireUnionError kind)
        | None => Err (wireUnionError kind)
        end
      else if decide (kind = "string") then
        match ws with
        | Some s => if decide (n = 1) then StringValue s else Err (wireUnionError kind)
        | None => Err (wireUnionError kind)
        end
      else if decide (kind = "number") then
        match wn with
        | Some s => if decide (n = 1) then NumberValue s else Err (wireUnionError kind)
        | None => Err (wireUnionError kind)
        end
      else if decide (kind = "list") then
        match wl with
        | Some l => if decide (n = 1) then ListOf <$> result_list ValueFromWire l
                    else Err (wireUnionError kind)
        | None => Err (wireUnionError kind)
        end
      else if decide (kind = "map") then
        match wm with
        | Some m => if decide (n = 1) then MapOf <$> result_assoc ValueFromWire m
                    else Err (wireUnionError kind)
        | None => Err (wireUnionError kind)
        end
      else if decide (kind = "tagged") then
        match wt, wp with
        | Some tag, Some p =>
            if decide (n = 2) then
              if decide (tag = "") then Err (wireUnionError kind) else
              if ValidString tag then TaggedOf tag <$> ValueFromWire p
              else Err (Errorf "statecharts: tagged wire tag is not valid UTF-8")
            else Err (wireUnionError kind)
        | _, _ => Err (wireUnionError kind)
        end
      else Err (Errorf ("statecharts: unknown Value wire kind " +:+ quote kind))
  end.

(** ** JSON-shaped data

    The cases of the type switches of [ValueFromJSON] and [JSONValue].  The
    integer cases are one constructor for the signed and one for the unsigned
    widths; the float cases, which go through [strconv.FormatFloat], are left
    out, and every other dynamic type is [JOther]. *)
Inductive JSON :=
| JNil
| JBool (b : bool)
| JString (s : string)
| JNumber (s : string)                      (* json.Number *)
| JInt (z : Z)
| JUint (n : N)
| JList (l : list JSON)
| JMap (m : list (string * JSON))
| JOther.

Fixpoint ValueFromJSON (input : JSON) : result Value :=
  match input with
  | JNil => Ok NullValue
  | JBool b => Ok (BoolValue b)
  | JString s => StringValue s
  | JNumber s => NumberValue s
  | JInt z => NumberValue (pretty z)
  | JUint n => NumberValue (pretty n)
  | JList l => ListOf <$> result_list ValueFromJSON l
  | JMap m => MapOf <$> result_assoc ValueFromJSON m
  | JOther => Err (Errorf "statecharts: cannot convert JSON-shaped value to Value")
  end.

Fixpoint JSONValue (v : Value) : result JSON :=
  match v with
  | NullValue => Ok JNil
  | BoolValue b => Ok (JBool b)
  | TextValue s =>
      if ValidString s then Ok (JString s)
      else Err (Errorf "statecharts: Value string is not valid UTF-8")
  | NumValue s =>
      if decide (canonicalNumber s = Ok s) then Ok (JNumber s)
      else Err (Errorf ("statecharts: Value contains non-canonical number " +:+ quote s))
  | ListOf l => JList <$> result_list JSONValue l
  | MapOf m => JMap <$> result_assoc JSONValue m
  | TaggedOf tag _ => Err (Errorf ("statecharts: tagged Value " +:+ quote tag +:+ " is not JSON-shaped"))
  end.

(** ** Induction on nested values *)

Section value_ind.
Variable P : Value → Prop.
Hypothesis HNull : P NullValue.
Hypothesis HBool : ∀ b, P (BoolValue b).
Hypothesis HText : ∀ s, P (TextValue s).
Hypothesis HNum : ∀ s, P (NumValue s).
Hypothesis HList : ∀ l, Forall P l → P (ListOf l).
Hypothesis HMap : ∀ m, Forall (λ kv, P kv.2) m → P (MapOf m).
Hypothesis HTagged : ∀ tag p, P p → P (TaggedOf tag p).

Fixpoint Value_nested_ind (v : Value) : P v.
Proof using All.
  destruct v as [|b|s|s|l|m|tag p];
    [exact HNull|apply HBool|apply HText|apply HNum|apply HList|apply HMap|apply HTagged, Value_nested_ind].
  - induction l as [|x l IH]; constructor; [apply Value_nested_ind | exact IH].
  - induction m as [|[k x] m IH]; constructor; [apply Value_nested_ind | exact IH].
Qed.
End value_ind.

Section wire_ind.
Variable P : ValueWire → Prop.
Hypothesis HW : ∀ ver k b s n l m t p,
  from_option (Forall P) True l → from_option (Forall (λ kw, P kw.2)) True m →
  from_option P True p → P (mkWire ver k b s n l m t p).

Fixpoint ValueWire_nested_ind (w : ValueWire) : P w.
Proof using All.
  destruct w as [ver k b s n l m t p]. apply HW.
  - destruct l as [l|]; [simpl|exact I].
    induction l as [|x l IH]; constructor; [apply ValueWire_nested_ind | exact IH].
  - destruct m as [m|]; [simpl|exact I].
    induction m as [|[k' x] m IH]; constructor; [apply ValueWire_nested_ind | exact IH].
  - destruct p as [p|]; [apply ValueWire_nested_ind | exact I].
Qed.
End wire_ind.

Lemma Clone_id v : Clone v = v.
Proof.
  induction v as [| | | |l IH|m IH|tag p IH] using Value_nested_ind; simpl; try done.
  - f_equal. induction IH as [|x l Hx _ IH]; [done|]. simpl. by rewrite Hx, IH.
  - f_equal. induction IH as [|[k x] l Hx _ IH]; [done|]. simpl in *. by rewrite Hx, IH.
  - by rewrite IH.
Qed.

Lemma map_Clone l : map Clone l = l.
Proof. induction l as [|x l IH]; [done|]. simpl. by rewrite Clone_id, IH. Qed.

Lemma map_Clone_assoc m : map (λ '(k, v), (k : string, Clone v)) m = m.
Proof. induction m as [|[k x] m IH]; [done|]. simpl. by rewrite Clone_id, IH. Qed.

(** ** Digits *)

Lemma all_digits_app s t : all_digits (s +:+ t) = all_digits s && all_digits t.
Proof. induction s as [|a s IH]; [done|]. rewrite string_app_cons. simpl. by rewrite IH, andb_assoc. Qed.

Lemma span_digits_spec s d r : span_digits s = (d, r) → s = d +:+ r ∧ all_digits d = true.
Proof.
  revert d r. induction s as [|a s IH]; intros d r; simpl.
  { by intros [= <- <-]. }
  destruct (isDecimalDigit a) eqn:Ha; [|by intros [= <- <-]].
  destruct (span_digits s) as [d' r'] eqn:E. intros [= <- <-].
  destruct (IH d' r') as [-> Hd]; [done|]. split; [done|]. simpl. by rewrite Ha, Hd.
Qed.

Definition no_digit_head (r : string) : Prop :=
  match r with EmptyString => True | String a _ => isDecimalDigit a = false end.

Lemma span_digits_app d r : all_digits d = true → no_digit_head r → span_digits (d +:+ r) = (d, r).
Proof.
  intros Hd Hr. induction d as [|a d IH]; simpl in *.
  - change ("" +:+ r) with r. destruct r as [|b r]; [done|]. simpl in *. by rewrite Hr.
  - apply andb_true_iff in Hd as [Ha Hd]. rewrite ?string_app_cons. simpl. by rewrite Ha, IH.
Qed.

Lemma trim_zeros_all_digits s : all_digits s = true → all_digits (trim_zeros s) = true.
Proof.
  induction s as [|a s IH]; [done|]. simpl. intros H. case_decide; [|done].
  apply andb_true_iff in H as [_ H]. auto.
Qed.

Lemma trim_zeros_idemp s : trim_zeros (trim_zeros s) = trim_zeros s.
Proof. induction s as [|a s IH]; [done|]. simpl. case_decide; [done|]. simpl. by rewrite decide_False. Qed.

Lemma trim_trailing_spec s d n :
  trim_trailing s = (d, n) → trim_trailing d = (d, 0%N) ∧ ∃ z, s = d +:+ z ∧ N.of_nat (String.length z) = n
    ∧ parse_digits 0 z = 0%N ∧ all_digits z = true.
Proof.
  revert d n. induction s as [|a s IH]; intros d n; simpl.
  { intros [= <- <-]. split; [done|]. by exists "". }
  destruct (trim_trailing s) as [d' n'] eqn:E. destruct (IH d' n') as (Hd & z & -> & Hz & Hp & Ha); [done|].
  destruct d' as [|b d'].
  - change ("" +:+ z) with z. case_decide as H0.
    + intros [= <- <-]. split; [done|]. exists (String a z). split; [done|]. subst a. simpl. split; [lia|]. done.
    + intros [= <- <-]. simpl. rewrite decide_False by done.
      split; [done|]. exists z. done.
  - intros [= <- <-]. rewrite !string_app_cons. split; [|by exists z].
    change (trim_trailing (String a (String b d'))) with
      (match trim_trailing (String b d') with
       | (EmptyString, n) => if decide (a = "0"%char) then (EmptyString, (n + 1)%N) else (String a EmptyString, n)
       | (t, n) => (String a t, n) end).
    by rewrite Hd.
Qed.

(** The coefficient of a canonical number: digits, non-empty, without leading
    or trailing zeroes. *)
Definition coefficient_ok (d : string) : Prop :=
  all_digits d = true ∧ d ≠ "" ∧ trim_zeros d = d ∧ trim_trailing d = (d, 0%N).

(** The canonical text of sign, coefficient and exponent. *)
Definition renderNumber (neg : bool) (d : string) (e : Z) : string :=
  (if neg then "-" +:+ d else d) +:+ (if decide (e = 0%Z) then "" else "e" +:+ pretty e).

Lemma trim_trailing_nonzero_head a s d n :
  a ≠ "0"%char → trim_trailing (String a s) = (d, n) → ∃ d', d = String a d'.
Proof. intros Ha. simpl. destruct (trim_trailing s) as [[|b d'] n']; rewrite ?decide_False by done; naive_solver. Qed.

Lemma normalizeNumber_form neg i f e :
  all_digits i = true → all_digits f = true →
  normalizeNumber neg i f e = "0" ∨
  ∃ d e', coefficient_ok d ∧ normalizeNumber neg i f e = renderNumber neg d e'.
Proof.
  intros Hi Hf. unfold normalizeNumber. case_decide as H0; [by left|]. right.
  set (t := trim_zeros (i +:+ f)) in *.
  assert (Ht : all_digits t = true) by (apply trim_zeros_all_digits; by rewrite all_digits_app, Hi).
  assert (Hz : trim_zeros t = t) by apply trim_zeros_idemp.
  destruct (trim_trailing t) as [d n] eqn:E.
  destruct (trim_trailing_spec t d n) as (Hd & z & Htz & _ & _ & _); [done|].
  exists d, (e - Z.of_nat (String.length f) + Z.of_N n)%Z. split.
  - destruct t as [|a t]; [done|]. simpl in Hz. case_decide as Ha.
    { exfalso. apply (f_equal String.length) in Hz. simpl in Hz.
      assert (String.length (trim_zeros t) ≤ String.length t); [|lia].
      clear. induction t as [|b t IH]; [done|]. simpl. case_decide; simpl; lia. }
    destruct (trim_trailing_nonzero_head a t d n) as [d' ->]; [done..|].
    rewrite Htz, all_digits_app in Ht. apply andb_true_iff in Ht as [Ht _].
    split; [done|]. split; [done|]. split; [|done]. simpl. by rewrite decide_False.
  - unfold renderNumber. destruct neg; case_decide; by rewrite ?string_app_nil_r.
Qed.

Lemma scan_integer_digits input s i r : scan_integer input s = Ok (i, r) → all_digits i = true.
Proof.
  destruct s as [|a s]; [done|]. unfold scan_integer. case_decide as Ha.
  { destruct s as [|b s]; [naive_solver|]. case_match; naive_solver. }
  destruct (isDecimalDigit a); [|done]. intros H.
  assert (span_digits (String a s) = (i, r)) as Hs by congruence. by apply span_digits_spec in Hs as [_ ?].
Qed.

Lemma scan_fraction_digits input s f r : scan_fraction input s = Ok (f, r) → all_digits f = true.
Proof.
  destruct s as [|a s]; [naive_solver|]. unfold scan_fraction. case_decide; [|naive_solver].
  destruct (span_digits s) as [d r'] eqn:E. case_decide; [done|]. intros [= <- <-].
  by apply span_digits_spec in E as [_ ?].
Qed.

Lemma canonicalNumber_form s c :
  canonicalNumber s = Ok c → c = "0" ∨ ∃ neg d e, coefficient_ok d ∧ c = renderNumber neg d e.
Proof.
  unfold canonicalNumber. case_decide as Hs; [done|]. destruct (scan_sign s) as [neg r0].
  intros ([i r1] & Hi & H)%result_bind_Ok. apply result_bind_Ok in H as ([f r2] & Hf & H).
  apply result_bind_Ok in H as ([e r3] & He & H). case_decide as Hr; [|done]. injection H as <-.
  apply scan_integer_digits in Hi. apply scan_fraction_digits in Hf.
  destruct (normalizeNumber_form neg i f e) as [?|(d & e' & ? & ?)]; [done..|by left|right; eauto 6].
Qed.

(** ** Decimal text of integers *)

Lemma parse_digits_pretty_go x s : parse_digits 0 (pretty_N_go x s) = parse_digits x s.
Proof.
  revert s. induction (N.lt_wf_0 x) as [x _ IH]; intros s.
  destruct (decide (x = 0%N)) as [->|Hx]; [by rewrite pretty_N_go_0|].
  rewrite pretty_N_go_step by lia. rewrite IH by (apply N.div_lt; lia). simpl. f_equal.
  assert (Hd : (x `mod` 10 < 10)%N) by (apply N.mod_lt; lia).
  assert (N_of_ascii (pretty_N_char (x `mod` 10)) = 48 + x `mod` 10)%N as ->.
  { set (y := (x `mod` 10)%N) in *. clearbody y.
    destruct y as [|p]; [done|]. do 4 (destruct p as [p|p|]; try done; try lia). }
  rewrite (N.add_comm 48), N.add_sub, N.mul_comm. symmetry. apply N.div_mod'.
Qed.

Lemma all_digits_pretty_go x s : all_digits s = true → all_digits (pretty_N_go x s) = true.
Proof.
  revert s. induction (N.lt_wf_0 x) as [x _ IH]; intros s Hs.
  destruct (decide (x = 0%N)) as [->|Hx]; [by rewrite pretty_N_go_0|].
  rewrite pretty_N_go_step by lia. apply IH; [apply N.div_lt; lia|]. simpl. rewrite Hs, andb_true_r.
  assert (Hd : (x `mod` 10 < 10)%N) by (apply N.mod_lt; lia).
  set (y := (x `mod` 10)%N) in *. clearbody y.
  destruct y as [|p]; [done|]. do 4 (destruct p as [p|p|]; try done; try lia).
Qed.

Lemma parse_digits_pretty (n : N) : parse_digits 0 (pretty n) = n.
Proof. unfold pretty, pretty_N. case_decide as H; [by subst|]. apply parse_digits_pretty_go. Qed.

Lemma all_digits_pretty (n : N) : all_digits (pretty n) = true.
Proof. unfold pretty, pretty_N. case_decide; [done|]. by apply all_digits_pretty_go. Qed.

Lemma pretty_N_nonempty (n : N) : pretty n ≠ "".
Proof.
  intros H. assert (pretty n = pretty 0%N → n = 0%N) as H0 by apply (inj pretty).
  pose proof (parse_digits_pretty n) as Hn. rewrite H in Hn. simpl in Hn. subst n. discriminate.
Qed.

Lemma pretty_N_head (n : N) : ∃ a s, pretty n = String a s ∧ isDecimalDigit a = true.
Proof.
  pose proof (all_digits_pretty n) as H. pose proof (pretty_N_nonempty n) as Hn.
  destruct (pretty n) as [|a s]; [done|]. exists a, s. split; [done|]. by apply andb_true_iff in H as [? _].
Qed.

(** Bytes that are not digits, met by the scanners. *)
Lemma digit_neq a b : isDecimalDigit a = true → isDecimalDigit b = false → a ≠ b.
Proof. congruence. Qed.

Lemma scan_exponent_sign_digit a s : isDecimalDigit a = true → scan_exponent_sign (String a s) = (false, String a s).
Proof. intros Ha. simpl. by rewrite !decide_False by (by apply digit_neq). Qed.

Lemma scan_exponent_digits (n : N) r :
  no_digit_head r → span_digits (pretty n +:+ r) = (pretty n, r).
Proof. intros Hr. apply span_digits_app; [apply all_digits_pretty | done]. Qed.

Lemma scan_exponent_sign_pretty (e : Z) r :
  scan_exponent_sign (pretty e +:+ r) = (bool_decide (e < 0)%Z, pretty (Z.to_N (Z.abs e)) +:+ r).
Proof.
  assert (∀ n : N, scan_exponent_sign (pretty n +:+ r) = (false, pretty n +:+ r)) as Hn.
  { intros n. destruct (pretty_N_head n) as (a & s & -> & Ha). rewrite string_app_cons.
    by apply scan_exponent_sign_digit. }
  destruct e as [|p|p]; [apply (Hn 0%N) | apply (Hn (N.pos p)) | done].
Qed.

Lemma scan_exponent_pretty input e r :
  no_digit_head r → scan_exponent input ("e" +:+ pretty e +:+ r) = Ok (e, r).
Proof.
  intros Hr. change ("e" +:+ pretty e +:+ r) with (String "e" (pretty e +:+ r)). unfold scan_exponent.
  rewrite decide_True by auto. rewrite scan_exponent_sign_pretty, scan_exponent_digits by done.
  rewrite decide_False by apply pretty_N_nonempty. rewrite parse_digits_pretty.
  do 2 f_equal. case_bool_decide; lia.
Qed.

Lemma coefficient_head d : coefficient_ok d → ∃ a s, d = String a s ∧ isDecimalDigit a = true ∧ a ≠ "0"%char.
Proof.
  intros (Hd & Hne & Hz & _). destruct d as [|a d]; [done|]. exists a, d. split; [done|].
  simpl in Hd. apply andb_true_iff in Hd as [? _]. split; [done|]. intros ->. simpl in Hz.
  apply (f_equal String.length) in Hz. simpl in Hz.
  assert (∀ t, String.length (trim_zeros t) ≤ String.length t) as Hlen.
  { intros t. induction t as [|b t IH]; [done|]. simpl. case_decide; simpl; lia. }
  specialize (Hlen d). lia.
Qed.

Lemma scan_sign_render neg d t :
  coefficient_ok d → scan_sign ((if neg : bool then "-" +:+ d else d) +:+ t) = (neg, d +:+ t).
Proof.
  intros (a & s & -> & Ha & _)%coefficient_head. destruct neg; [done|].
  rewrite string_app_cons. simpl. by rewrite decide_False by (by apply digit_neq).
Qed.

Lemma scan_integer_coefficient input d t :
  coefficient_ok d → no_digit_head t → scan_integer input (d +:+ t) = Ok (d, t).
Proof.
  intros Hd Ht. pose proof Hd as (Hall & _). apply coefficient_head in Hd as (a & s & -> & Ha & H0).
  unfold scan_integer. rewrite string_app_cons. rewrite decide_False by done. rewrite Ha.
  rewrite <- string_app_cons. by rewrite span_digits_app.
Qed.

Lemma normalizeNumber_coefficient neg d e :
  coefficient_ok d → normalizeNumber neg d "" e = renderNumber neg d e.
Proof.
  intros (_ & Hne & Hz & Ht). unfold normalizeNumber, renderNumber. rewrite string_app_nil_r, Hz.
  rewrite decide_False by done. rewrite Ht. cbn [String.length].
  replace (e - Z.of_nat 0 + Z.of_N 0)%Z with e by lia. destruct neg; case_decide; by rewrite ?string_app_nil_r.
Qed.

Lemma canonicalNumber_render neg d e :
  coefficient_ok d → canonicalNumber (renderNumber neg d e) = Ok (renderNumber neg d e).
Proof.
  intros Hd. unfold canonicalNumber. rewrite decide_False.
  2:{ apply coefficient_head in Hd as (a & s & -> & _). by destruct neg. }
  unfold renderNumber at 1. rewrite scan_sign_render by done.
  assert (no_digit_head (if decide (e = 0%Z) then "" else "e" +:+ pretty e)) as Ht by (by case_decide).
  rewrite scan_integer_coefficient by done. simpl.
  assert (∀ i, scan_fraction i (if decide (e = 0%Z) then "" else "e" +:+ pretty e)
    = Ok ("", if decide (e = 0%Z) then "" else "e" +:+ pretty e)) as Hf by (intros; by case_decide).
  rewrite Hf. simpl.
  assert (∀ i, scan_exponent i (if decide (e = 0%Z) then "" else "e" +:+ pretty e) = Ok (e, "")) as He.
  { intros i. case_decide as H0; [by rewrite H0|].
    rewrite <- (string_app_nil_r (pretty e)). by rewrite scan_exponent_pretty. }
  rewrite He. simpl. by rewrite normalizeNumber_coefficient.
Qed.

Lemma canonicalNumber_idempotent s c : canonicalNumber s = Ok c → canonicalNumber c = Ok c.
Proof.
  intros [->|(neg & d & e & Hd & ->)]%canonicalNumber_form; [done|]. by apply canonicalNumber_render.
Qed.

(** ** Integers as numbers *)

Lemma parse_digits_acc acc s :
  parse_digits acc s = (acc * 10 ^ N.of_nat (String.length s) + parse_digits 0 s)%N.
Proof.
  revert acc. induction s as [|a s IH]; intros acc; cbn [parse_digits String.length]; [simpl; lia|].
  rewrite IH, (IH (0 * 10 + _)%N). rewrite Nat2N.inj_succ, N.pow_succ_r'. lia.
Qed.

Lemma parse_digits_app acc s t : parse_digits acc (s +:+ t) = parse_digits (parse_digits acc s) t.
Proof. revert acc. induction s as [|a s IH]; intros acc; [done|]. rewrite string_app_cons. simpl. apply IH. Qed.

Lemma pretty_go_head x s : (0 < x)%N → ∃ a t, pretty_N_go x s = String a t ∧ a ≠ "0"%char.
Proof.
  revert s. induction (N.lt_wf_0 x) as [x _ IH]; intros s Hx. rewrite pretty_N_go_step by lia.
  destruct (decide (x / 10 = 0)%N) as [H0|H0].
  - rewrite H0, pretty_N_go_0. eexists _, _. split; [done|].
    assert (x < 10)%N by (apply N.div_small_iff in H0; lia). rewrite N.mod_small by lia.
    destruct x as [|p]; [done|]. do 4 (destruct p as [p|p|]; try done; try lia).
  - apply IH; [apply N.div_lt; lia | by apply N.neq_0_lt_0].
Qed.

Lemma pretty_coefficient (n : N) : n ≠ 0%N → trim_zeros (pretty n) = pretty n.
Proof.
  intros Hn. assert (∃ a t, pretty n = String a t ∧ a ≠ "0"%char) as (a & t & -> & Ha).
  { unfold pretty, pretty_N. rewrite decide_False by done. apply pretty_go_head. lia. }
  simpl. by rewrite decide_False.
Qed.

Lemma scan_sign_pretty (z : Z) : scan_sign (pretty z) = (bool_decide (z < 0)%Z, pretty (Z.to_N (Z.abs z))).
Proof.
  assert (∀ n : N, scan_sign (pretty n) = (false, pretty n)) as Hn.
  { intros n. destruct (pretty_N_head n) as (a & s & -> & Ha). simpl.
    by rewrite decide_False by (by apply digit_neq). }
  destruct z as [|p|p]; [apply (Hn 0%N) | apply (Hn (N.pos p)) | done].
Qed.

Lemma pretty_Z_nonempty (z : Z) : pretty z ≠ "".
Proof. destruct z; [done | apply pretty_N_nonempty | done]. Qed.

Lemma canonicalNumber_pretty (z : Z) :
  z ≠ 0%Z → ∃ d k, coefficient_ok d ∧ (parse_digits 0 d * 10 ^ k)%N = Z.to_N (Z.abs z)
    ∧ canonicalNumber (pretty z) = Ok (renderNumber (bool_decide (z < 0)%Z) d (Z.of_N k)).
Proof.
  intros Hz. set (n := Z.to_N (Z.abs z)). assert (Hn : n ≠ 0%N) by lia.
  destruct (trim_trailing (pretty n)) as [d k] eqn:E.
  destruct (trim_trailing_spec _ _ _ E) as (Hd & zs & Hp & Hk & Hz0 & _).
  assert (Hc : coefficient_ok d ∧ ∃ a t, pretty n = String a t ∧ a ≠ "0"%char ∧ isDecimalDigit a = true).
  { pose proof (pretty_coefficient n Hn) as Ht. pose proof (all_digits_pretty n) as Ha.
    destruct (pretty_N_head n) as (a & t & Hat & Hda).
    assert (a ≠ "0"%char).
    { intros ->. rewrite Hat in Ht. simpl in Ht. apply (f_equal String.length) in Ht. simpl in Ht.
      assert (∀ u, String.length (trim_zeros u) ≤ String.length u) as Hlen.
      { intros u. induction u as [|b u IH]; [done|]. simpl. case_decide; simpl; lia. }
      specialize (Hlen t). lia. }
    split; [|eauto]. rewrite Hat in E.
    destruct (trim_trailing_nonzero_head a t d k) as [d' ->]; [done..|].
    rewrite Hp, all_digits_app in Ha. apply andb_true_iff in Ha as [Ha _].
    split; [done|]. split; [done|]. split; [|done]. simpl. by rewrite decide_False. }
  destruct Hc as [Hc (a & t & Hat & Ha0 & Had)]. exists d, k. split; [done|]. split.
  { fold n. rewrite <- (parse_digits_pretty n), Hp, parse_digits_app, (parse_digits_acc _ zs), Hk, Hz0. lia. }
  unfold canonicalNumber. rewrite decide_False by apply pretty_Z_nonempty.
  rewrite scan_sign_pretty. fold n. unfold scan_integer. rewrite Hat, decide_False, Had, <- Hat by done.
  rewrite <- (string_app_nil_r (pretty n)), span_digits_app by (done || apply all_digits_pretty). simpl.
  f_equal. unfold normalizeNumber, renderNumber. rewrite string_app_nil_r, pretty_coefficient by done.
  rewrite decide_False by apply pretty_N_nonempty. rewrite E. cbn [String.length].
  replace (0 - Z.of_nat 0 + Z.of_N k)%Z with (Z.of_N k) by lia.
  case_bool_decide; case_decide; by rewrite ?string_app_nil_r.
Qed.

Lemma cut_e_digits d t :
  all_digits d = true → cut_e (d +:+ t) = let '(b, r) := cut_e t in (d +:+ b, r).
Proof.
  induction d as [|a d IH]; intros Hd.
  { change ("" +:+ t) with t. by destruct (cut_e t). }
  simpl in Hd. apply andb_true_iff in Hd as [Ha Hd]. rewrite string_app_cons. simpl.
  rewrite decide_False by (by apply digit_neq). rewrite IH by done. by destruct (cut_e t).
Qed.

Lemma bigSetString_signed (neg : bool) d :
  d ≠ "" → all_digits d = true →
  bigSetString (if neg then "-" +:+ d else d) =
    Some (if neg then - Z.of_N (parse_digits 0 d) else Z.of_N (parse_digits 0 d))%Z.
Proof.
  intros Hne Hd. unfold bigSetString.
  assert (scan_exponent_sign (if neg then "-" +:+ d else d) = (neg, d)) as ->.
  { destruct neg; [done|]. destruct d as [|a d]; [done|]. simpl in Hd.
    apply andb_true_iff in Hd as [Ha _]. by apply scan_exponent_sign_digit. }
  rewrite bool_decide_true by done. by rewrite Hd.
Qed.

Lemma bigSetString_pretty (n : N) : bigSetString (pretty n) = Some (Z.of_N n).
Proof.
  pose proof (bigSetString_signed false (pretty n) (pretty_N_nonempty n) (all_digits_pretty n)) as H.
  simpl in H. by rewrite H, parse_digits_pretty.
Qed.

Lemma cut_e_render (neg : bool) d (k : N) :
  coefficient_ok d →
  cut_e (renderNumber neg d (Z.of_N k)) =
    (if neg then "-" +:+ d else d, if decide (Z.of_N k = 0%Z) then None else Some (pretty k)).
Proof.
  intros (Hd & _). unfold renderNumber. assert (pretty (Z.of_N k) = pretty k) as -> by (by destruct k).
  set (t := if decide (Z.of_N k = 0%Z) then "" else "e" +:+ pretty k).
  assert (cut_e t = ("", if decide (Z.of_N k = 0%Z) then None else Some (pretty k))) as Ht
    by (unfold t; by case_decide).
  destruct neg.
  - change (("-" +:+ d) +:+ t) with (String "-" (d +:+ t)). simpl.
    rewrite cut_e_digits, Ht by done. by rewrite string_app_nil_r.
  - rewrite cut_e_digits, Ht by done. by rewrite string_app_nil_r.
Qed.

Lemma AsInt64_render (neg : bool) d (k : N) :
  coefficient_ok d →
  let z := ((if neg then - Z.of_N (parse_digits 0 d) else Z.of_N (parse_digits 0 d)) * 10 ^ Z.of_N k)%Z in
  IsInt64 z = true → (k ≤ 19)%N → AsInt64 (NumValue (renderNumber neg d (Z.of_N k))) = Some z.
Proof.
  intros Hd z Hz Hk. unfold AsInt64. simpl. rewrite cut_e_render by done.
  pose proof Hd as (Had & Hne & _). rewrite bigSetString_signed by done. simpl.
  case_decide as H0; simpl.
  - assert (k = 0%N) as -> by lia. subst z. rewrite Z.pow_0_r, Z.mul_1_r in Hz |- *. by rewrite Hz.
  - rewrite bigSetString_pretty. simpl.
    replace ((Z.of_N k <? 0) || (19 <? Z.of_N k))%Z with false by (symmetry; apply orb_false_iff; lia).
    simpl. fold z. by rewrite Hz.
Qed.

Lemma pow10_le_19 (k : N) m : m ≠ 0%N → (Z.of_N (m * 10 ^ k) < 2 ^ 64)%Z → (k ≤ 19)%N.
Proof.
  intros Hm Hlt. destruct (decide (k ≤ 19)%N) as [|Hk]; [done|]. exfalso.
  assert (10 ^ 20 ≤ 10 ^ k)%N by (apply N.pow_le_mono_r; lia).
  assert (1 * 10 ^ k ≤ m * 10 ^ k)%N by (apply N.mul_le_mono_r; lia).
  assert (Z.of_N (10 ^ 20) ≤ Z.of_N (m * 10 ^ k))%Z by lia.
  assert (2 ^ 64 < Z.of_N (10 ^ 20))%Z by done. lia.
Qed.

(** ** Encoding and decoding *)

Lemma result_list_roundtrip {A B} (f : A → result B) (g : B → result A) l ws :
  Forall (λ v, ∀ w, f v = Ok w → g w = Ok v) l → result_list f l = Ok ws → result_list g ws = Ok l.
Proof.
  intros Hl. revert ws. induction Hl as [|v l Hv _ IH]; intros ws; simpl; [by intros [= <-]|].
  intros (w & Hw & (r & Hr & [= <-])%result_bind_Ok)%result_bind_Ok. simpl.
  by rewrite (Hv w Hw); simpl; rewrite (IH r Hr).
Qed.

Lemma result_assoc_roundtrip {A B} (f : A → result B) (g : B → result A) m ws :
  Forall (λ kv, ∀ w, f kv.2 = Ok w → g w = Ok kv.2) m → result_assoc f m = Ok ws → result_assoc g ws = Ok m.
Proof.
  intros Hm. revert ws. induction Hm as [|[k v] m Hv _ IH]; intros ws; simpl; [by intros [= <-]|].
  destruct (ValidString k) eqn:Hk; [|done].
  intros (w & Hw & (r & Hr & [= <-])%result_bind_Ok)%result_bind_Ok. simpl. rewrite Hk.
  by rewrite (Hv w Hw); simpl; rewrite (IH r Hr).
Qed.

Lemma result_list_encodable {A B C} (f : A → result B) (g : B → result C) l vs :
  Forall (λ w, ∀ v, f w = Ok v → is_Ok (g v)) l → result_list f l = Ok vs → is_Ok (result_list g vs).
Proof.
  intros Hl. revert vs. induction Hl as [|w l Hw _ IH]; intros vs; simpl; [intros [= <-]; by eexists|].
  intros (v & Hv & (r & Hr & [= <-])%result_bind_Ok)%result_bind_Ok.
  destruct (Hw v Hv) as [x Hx], (IH r Hr) as [y Hy]. eexists. simpl. rewrite Hx. simpl. by rewrite Hy.
Qed.

Lemma result_assoc_encodable {A B C} (f : A → result B) (g : B → result C) m vs :
  Forall (λ kw, ∀ v, f kw.2 = Ok v → is_Ok (g v)) m → result_assoc f m = Ok vs → is_Ok (result_assoc g vs).
Proof.
  intros Hm. revert vs. induction Hm as [|[k w] m Hw _ IH]; intros vs; simpl; [intros [= <-]; by eexists|].
  destruct (ValidString k) eqn:Hk; [|done].
  intros (v & Hv & (r & Hr & [= <-])%result_bind_Ok)%result_bind_Ok.
  destruct (Hw v Hv) as [x Hx], (IH r Hr) as [y Hy]. eexists. simpl. rewrite Hk, Hx. simpl. by rewrite Hy.
Qed.

Lemma NumberValue_encodable s v : NumberValue s = Ok v → is_Ok (Wire v) ∧ is_Ok (JSONValue v).
Proof.
  intros (c & Hc & [= <-])%result_bind_Ok. apply canonicalNumber_idempotent in Hc. simpl.
  rewrite !decide_True by done. split; by eexists.
Qed.

Lemma StringValue_encodable s v : StringValue s = Ok v → is_Ok (Wire v) ∧ is_Ok (JSONValue v).
Proof.
  unfold StringValue. destruct (ValidString s) eqn:Hs; [|done]. intros [= <-]. simpl. rewrite Hs.
  split; by eexists.
Qed.

Lemma ValueFromWire_Wire v w : Wire v = Ok w → ValueFromWire w = Ok v.
Proof.
  revert w. induction v as [|b|s|s|l IH|m IH|tag p IH] using Value_nested_ind; intros w; simpl.
  - by intros [= <-].
  - by intros [= <-].
  - destruct (ValidString s) eqn:Hs; [|done]. intros [= <-]. simpl. unfold StringValue. by rewrite Hs.
  - case_decide as Hc; [|done]. intros [= <-]. simpl. unfold NumberValue. by rewrite Hc.
  - intros (ws & Hws & [= <-])%result_bind_Ok. simpl. by rewrite (result_list_roundtrip Wire _ l ws).
  - intros (ws & Hws & [= <-])%result_bind_Ok. simpl. by rewrite (result_assoc_roundtrip Wire _ m ws).
  - case_decide as Ht; [done|]. destruct (ValidString tag) eqn:Hs; [|done].
    intros (ws & Hws & [= <-])%result_bind_Ok. simpl. rewrite decide_False, Hs by done. by rewrite (IH ws).
Qed.

(** Decoding the wire union of a value gives the value back,
    for every value that encodes: every variant, nested to any depth, with
    exactly one union field per kind. *)
Theorem wire_roundtrip v w : Wire v = Ok w → ValueFromWire w = Ok v.
Proof. apply ValueFromWire_Wire. Qed.

Lemma wire_roundtrip_witness :
  ∃ w, Wire (ListOf [TextValue "a"; MapOf [("k", NumValue "1e1")]; TaggedOf "t" NullValue]) = Ok w
     ∧ ValueFromWire w = Ok (ListOf [TextValue "a"; MapOf [("k", NumValue "1e1")]; TaggedOf "t" NullValue]).
Proof. eexists. split; [vm_compute; reflexivity | apply wire_roundtrip; vm_compute; reflexivity]. Defined.

(** a value accepted by [ValueFromWire] can always be encoded
    again: decoding normalises numbers and rejects every malformed union, so
    nothing read from storage becomes unstorable. *)
Theorem decoded_encodable w v : ValueFromWire w = Ok v → ∃ w', Wire v = Ok w'.
Proof.
  revert v. induction w as [ver k b s n l m t p IHl IHm IHp] using ValueWire_nested_ind; intros v; simpl.
  case_bool_decide; [done|]. repeat (case_decide; [..|]); try done; try (by intros [= <-]; eexists);
    repeat case_match; try done; simpl in *; subst.
  - intros [= <-]. by eexists.
  - intros Hv. by apply StringValue_encodable in Hv as [? _].
  - intros Hv. by apply NumberValue_encodable in Hv as [? _].
  - destruct (result_list ValueFromWire _) as [vs|] eqn:E; [|done]. intros [= <-]. simpl.
    destruct (result_list_encodable _ Wire _ vs IHl E) as [ws ->]. by eexists.
  - destruct (result_assoc ValueFromWire _) as [vs|] eqn:E; [|done]. intros [= <-]. simpl.
    destruct (result_assoc_encodable _ Wire _ vs IHm E) as [ws ->]. by eexists.
  - destruct (ValueFromWire _) as [x|] eqn:E; [|done]. intros [= <-]. simpl.
    rewrite decide_False by done. destruct (IHp x) as [w' ->]; [done|]. case_match; [by eexists|congruence].
Qed.

Lemma decoded_encodable_witness :
  ∃ v, ValueFromWire (mkWire 1 "number" None None (Some "-0.50e3") None None None None) = Ok v
     ∧ ∃ w', Wire v = Ok w'.
Proof.
  exists (NumValue "-5e2"). split; [vm_compute; reflexivity|].
  apply (decoded_encodable (mkWire 1 "number" None None (Some "-0.50e3") None None None None)).
  vm_compute. reflexivity.
Defined.

(** [Int64Value] never panics and [AsInt64] recovers
    exactly the integer it was given, over the whole range of [int64],
    although integers with trailing zeroes are stored in exponent form. *)
Theorem Int64Value_roundtrip z :
  IsInt64 z = true → ∃ v, Int64Value z = Some v ∧ AsInt64 v = Some z.
Proof.
  intros Hz. destruct (decide (z = 0%Z)) as [->|Hne]; [by eexists|].
  destruct (canonicalNumber_pretty z Hne) as (d & k & Hd & Hv & Hc).
  unfold Int64Value, NumberValue. rewrite Hc. eexists. split; [done|].
  assert (Hrange : (- 2 ^ 63 <= z < 2 ^ 63)%Z).
  { unfold IsInt64 in Hz. apply andb_true_iff in Hz as [?%Z.leb_le ?%Z.ltb_lt]. done. }
  assert (Hmul : (Z.of_N (parse_digits 0 d) * 10 ^ Z.of_N k)%Z = Z.abs z).
  { change 10%Z with (Z.of_N 10). rewrite <- N2Z.inj_pow, <- N2Z.inj_mul, Hv. lia. }
  rewrite AsInt64_render; [|done|..].
  - f_equal. case_bool_decide; lia.
  - replace (_ * _)%Z with z; [done|]. case_bool_decide; lia.
  - apply (pow10_le_19 k (parse_digits 0 d)); [intros H0; rewrite H0 in Hmul; lia|].
    rewrite Hv. assert (2 ^ 63 < 2 ^ 64)%Z by done. lia.
Qed.

Lemma Int64Value_roundtrip_witness :
  IsInt64 (-120)%Z = true ∧ ∃ v, Int64Value (-120) = Some v ∧ AsInt64 v = Some (-120)%Z.
Proof. split; [vm_compute; reflexivity | apply Int64Value_roundtrip; vm_compute; reflexivity]. Defined.
