(* ===== verification/Events.v ===== *)
(** * Events (event.go, errors.go, event_codec.go)

    Events flowing through the internal and external queues, and the canonical
    value that carries a platform error inside an event. *)

From S2P Require Import Prelude Identifier Values.
From stdpp Require Import options.

Inductive EventType := EventExternal | EventInternal | EventPlatform.

#[global] Instance EventType_eq_dec : EqDecision EventType.
Proof. solve_decision. Defined.

Record Event := mkEvent {
  Name : Identifier;
  Type_ : EventType;
  Data : Value;
  SendID : Identifier;
  Origin : Identifier;
  OriginType : Identifier;
  InvokeID : Identifier;
  DeliveryID : string
}.

(** The zero [Event]: external, null data, every text empty. *)
Definition zeroEvent : Event := mkEvent "" EventExternal NullValue "" "" "" "" "".

(** [Event{Name: n, Type: t, Data: d}]. *)
Definition newEvent (n : Identifier) (t : EventType) (d : Value) : Event :=
  mkEvent n t d "" "" "" "" "".

Definition cloneEvent (ev : Event) : Event :=
  mkEvent (Name ev) (Type_ ev) (Clone (Data ev)) (SendID ev) (Origin ev) (OriginType ev)
    (InvokeID ev) (DeliveryID ev).

Definition cloneEvents (evs : list Event) : list Event := map cloneEvent evs.

Definition ErrEventExecution : Identifier := "error.execution".
Definition ErrEventCommunication : Identifier := "error.communication".

(** ** Platform errors *)

(** The continuation bytes of one rune. *)
Fixpoint cont_ok (n : nat) (lo hi : N) (s : string) : bool :=
  match n, s with
  | 0, _ => true
  | S n, String a s =>
      let b := N_of_ascii a in (lo <=? b)%N && (b <=? hi)%N && cont_ok n 128 191 s
  | S _, EmptyString => false
  end.

(** The UTF-8 encoding of U+FFFD. *)
Definition replacementRune : string :=
  String (ascii_of_N 239) (String (ascii_of_N 191) (String (ascii_of_N 189) EmptyString)).

(** [strings.ToValidUTF8(s, "\uFFFD")]: [skip] bytes of a valid rune are still
    to be copied; [inv] holds while inside a run of invalid bytes, which is
    replaced once. *)
Fixpoint toValid (skip : nat) (inv : bool) (s : string) : string :=
  match s with
  | EmptyString => EmptyString
  | String a s' =>
      match skip with
      | S k => String a (toValid k false s')
      | 0 =>
          match utf8_first (N_of_ascii a) with
          | Some (n, lo, hi) =>
              if cont_ok n lo hi s' then String a (toValid n false s')
              else (if inv then "" else replacementRune) +:+ toValid 0 true s'
          | None => (if inv then "" else replacementRune) +:+ toValid 0 true s'
          end
      end
  end.

Definition ToValidUTF8 (s : string) : string := toValid 0 false s.

Definition PlatformErrorValueTag : string := "statecharts.error/v1".

(** [value, _ := f(...)]: a dropped error leaves the zero Value. *)
Definition orZero (r : result Value) : Value := match r with Ok v => v | Err _ => NullValue end.

Definition PlatformErrorValue (classification : Identifier) (err : option error) : Value :=
  let message := match err with Some e => ToValidUTF8 (msg e) | None => "" end in
  let classificationValue := orZero (StringValue (ToValidUTF8 classification)) in
  let messageValue := orZero (StringValue message) in
  let payload := orZero (MapValue [("classification", classificationValue); ("message", messageValue)]) in
  orZero (TaggedValue PlatformErrorValueTag payload).

Definition PlatformErrorDetails (value : Value) : option (Identifier * string) :=
  '(tag, payload) ← AsTagged value;
  if decide (tag = PlatformErrorValueTag) then
    fields ← AsMap payload;
    (* a missing key reads as the zero Value, which is not a string *)
    classification ← assoc "classification" fields ≫= AsString;
    message ← assoc "message" fields ≫= AsString;
    Some (classification, message)
  else None.

(** ** Properties *)

Lemma cloneEvent_id ev : cloneEvent ev = ev.
Proof. destruct ev. unfold cloneEvent. simpl. by rewrite Clone_id. Qed.

Lemma cloneEvents_id evs : cloneEvents evs = evs.
Proof. induction evs as [|ev evs IH]; [done|]. simpl. by rewrite cloneEvent_id, IH. Qed.

Lemma toValid_scan n lo hi inv s :
  cont_ok n lo hi s = true → utf8_scan n lo hi (toValid n inv s) = true.
Proof.
  revert n lo hi inv. induction s as [|a s IH]; intros n lo hi inv Hc.
  { by destruct n. }
  destruct n as [|n]; simpl in *.
  - assert (utf8_scan 0 lo hi ((if inv then "" else replacementRune) +:+ toValid 0 true s) = true) as Hinv.
    { destruct inv; [by apply (IH 0)|]. apply (IH 0 128%N 191%N true). done. }
    destruct (utf8_first (N_of_ascii a)) as [[[n lo'] hi']|] eqn:E; [|done].
    destruct (cont_ok n lo' hi' s) eqn:Hn; [|done]. simpl. rewrite E. by apply IH.
  - rewrite !andb_true_iff in Hc. destruct Hc as [[Hlo Hhi] Hc]. rewrite Hlo, Hhi. simpl. by apply IH.
Qed.

Lemma toValid_id n lo hi inv s : utf8_scan n lo hi s = true → cont_ok n lo hi s = true ∧ toValid n inv s = s.
Proof.
  revert n lo hi inv. induction s as [|a s IH]; intros n lo hi inv Hs.
  { by destruct n. }
  destruct n as [|n]; simpl in *.
  - split; [done|]. destruct (utf8_first (N_of_ascii a)) as [[[n lo'] hi']|]; [|done].
    destruct (IH n lo' hi' false Hs) as [-> ->]. done.
  - rewrite !andb_true_iff in Hs. destruct Hs as [[-> ->] Hs]. simpl.
    by destruct (IH n 128%N 191%N false Hs) as [-> ->].
Qed.

Lemma ToValidUTF8_valid s : ValidString (ToValidUTF8 s) = true.
Proof. by apply (toValid_scan 0 0 0). Qed.

Lemma ToValidUTF8_id s : ValidString s = true → ToValidUTF8 s = s.
Proof. intros H. by apply (toValid_id 0 0 0 false) in H as [_ ?]. Qed.

Lemma PlatformErrorValue_eq c err :
  PlatformErrorValue c err =
    TaggedOf PlatformErrorValueTag
      (MapOf [("classification", TextValue (ToValidUTF8 c));
              ("message", TextValue (match err with Some e => ToValidUTF8 (msg e) | None => "" end))]).
Proof.
  unfold PlatformErrorValue, StringValue. rewrite ToValidUTF8_valid.
  destruct err as [e|]; [rewrite ToValidUTF8_valid|]; done.
Qed.

(** A platform error always survives the durability
    boundary.  Whatever bytes the error text holds, [PlatformErrorValue] is
    encodable, and [PlatformErrorDetails] gives back the classification and the
    message with invalid UTF-8 replaced (both unchanged when they were valid). *)
Theorem PlatformErrorValue_roundtrip c e :
  (∃ w, Wire (PlatformErrorValue c (Some e)) = Ok w)
  ∧ PlatformErrorDetails (PlatformErrorValue c (Some e)) = Some (ToValidUTF8 c, ToValidUTF8 (msg e))
  ∧ (ValidString c = true → ToValidUTF8 c = c).
Proof.
  rewrite PlatformErrorValue_eq. split; [|split; [done | apply ToValidUTF8_id]].
  eexists. simpl. rewrite !ToValidUTF8_valid. done.
Qed.
