(* ===== verification/Datamodel.v ===== *)
(** * The datamodel interface (datamodel.go, exec.go)

    A chart's expressions are owned by a datamodel that the interpreter calls
    through an interface; the interpreter never inspects a compiled expression.
    The interface is the class [DatamodelSession]: its operations read an
    [ExecContext], update the session's own state, and may call back into the
    interpreter through the context ([Raise], [Send], [Cancel], [Log]).  These
    calls are the [effect]s of an operation, applied by the interpreter in the
    order they were made.  A callback of this interface can fail or panic. *)

From S2P Require Import Prelude Identifier Values Events.
From stdpp Require Import options.

(** What a call ended in: a value, a Go error, or a panic. *)
Inductive outcome (A : Type) :=
| Returned (a : A)
| Failed (e : error)
| Panicked (m : string).
Arguments Returned {A} a.
Arguments Failed {A} e.
Arguments Panicked {A} m.

(** The part of [ExecContext] that a datamodel reads.  [active] is SCXML's
    [In()] predicate.  [finalizing] marks the context of
    [finalizeExecContext], whose raise, send and cancel are refused. *)
Record ExecContext := mkExecContext {
  ec_event : Event;
  ec_hasEvent : bool;
  ec_sessionID : string;
  ec_name : string;
  ec_active : Identifier → bool;
  ec_finalizing : bool
}.

(** The calls a datamodel may make on its context.  The arguments of [EffSend]
    are the event name and the [SendOptions] that a host function builds; an
    [IDLocation] closure built by a host function is not modelled, while the
    [idlocation] of a [<send>] element is (see [doSend]). *)
Inductive effect :=
| EffRaise (ev : Event)
| EffSend (name sendID target typ : Identifier) (data : Value) (delay : Z)
| EffCancel (sendID : Identifier)
| EffLog (label : string) (data : Value).

Class DatamodelSession := {
  CompiledExpression : Type;
  Session : Type;
  EvaluateBoolean : ExecContext → CompiledExpression → Session → Session * list effect * outcome bool;
  EvaluateValue : ExecContext → CompiledExpression → Session → Session * list effect * outcome Value;
  Assign : ExecContext → CompiledExpression → Value → Session → Session * list effect * outcome unit;
  Execute : ExecContext → CompiledExpression → Session → Session * list effect * outcome unit
}.

(** [ExecContext.Raise] overwrites everything but name, data and delivery ID. *)
Definition Raise (ev : Event) : Event :=
  mkEvent (Name ev) EventInternal (Data ev) "" "" "" "" (DeliveryID ev).

(** A datamodel with one integer variable, used to instantiate the interface in
    concrete examples: expressions are literals, reads, tests and increments. *)
Inductive CounterExpr :=
| CLiteral (v : Value)
| CRead
| CBelow (n : Z)
| CIncr
| CFail (m : string)
| CPanic (m : string).

Definition counter_value (n : Z) : Value := match Int64Value n with Some v => v | None => NullValue end.

#[export] Instance CounterSession : DatamodelSession := {
  CompiledExpression := CounterExpr;
  Session := Z;
  EvaluateBoolean _ e n :=
    match e with
    | CBelow m => (n, [], Returned (bool_decide (n < m)%Z))
    | CFail m => (n, [], Failed (Errorf m))
    | CPanic m => (n, [], Panicked m)
    | _ => (n, [], Failed (Errorf "not a condition"))
    end;
  EvaluateValue _ e n :=
    match e with
    | CLiteral v => (n, [], Returned v)
    | CRead => (n, [], Returned (counter_value n))
    | CPanic m => (n, [], Panicked m)
    | _ => (n, [], Failed (Errorf "not a value"))
    end;
  Assign _ e v n :=
    match e, AsInt64 v with
    | CRead, Some z => (z, [], Returned ())
    | _, _ => (n, [], Failed (Errorf "not a location"))
    end;
  Execute _ e n :=
    match e with
    | CIncr => ((n + 1)%Z, [], Returned ())
    | CPanic m => (n, [], Panicked m)
    | _ => (n, [], Failed (Errorf "not a script"))
    end
}.
