(* ===== verification/Chart.v ===== *)
(** * Compiled charts (chart.go, exec.go, invoke.go, state.go)

    A [*compiledState] is a reference into the chart's document-order array:
    [compileDefinitionState] appends every state to [c.order] when it assigns
    its [docOrder], so the pointer and the index [docOrder] identify each
    other.  [state_ref] is that index.  [compiledTransition] pointers are
    identified by their source and their position ([definitionIndex]). *)

From S2P Require Import Prelude Identifier Values Events Datamodel.
From stdpp Require Import options.

Inductive StateKind := KindAtomic | KindCompound | KindParallel | KindFinal | KindHistory.
Inductive HistoryKind := Shallow | Deep.

#[global] Instance StateKind_eq_dec : EqDecision StateKind.
Proof. solve_decision. Defined.
#[global] Instance HistoryKind_eq_dec : EqDecision HistoryKind.
Proof. solve_decision. Defined.

Inductive DataBinding := DataBindingEarly | DataBindingLate.

#[global] Instance DataBinding_eq_dec : EqDecision DataBinding.
Proof. solve_decision. Defined.

Abbreviation state_ref := nat (only parsing).

Section compiled.
Context `{DM : DatamodelSession}.

(** ** Executable content *)

Record compiledParam := mkParam { param_name : Identifier; param_expression : CompiledExpression }.

(** [hasContent]/[content] are one option. *)
Record compiledPayload := mkPayload {
  pl_params : list compiledParam;
  pl_content : option CompiledExpression
}.

Record compiledData := mkData {
  data_location : CompiledExpression;
  data_initializer : option CompiledExpression
}.

Record IterationBindings := mkBindings {
  bind_Item : CompiledExpression;
  bind_Index : option CompiledExpression
}.

(** [compiledOperation] is a struct whose [expressions], [static] and [blocks]
    slices are filled by [compileOperation] in a fixed layout per kind; each
    constructor lists exactly the slots of its kind.  A [nil] expression is
    [None]. *)
Inductive compiledOperation :=
| OpScript (e : CompiledExpression)
| OpCall (e : CompiledExpression)
| OpAssign (location expr : CompiledExpression)
| OpRaise (event : string) (eventExpr data : option CompiledExpression)
| OpCancel (sendID : string) (sendIDExpr : option CompiledExpression)
| OpLog (label : string) (labelExpr expr : option CompiledExpression)
| OpChoose (branches : list (CompiledExpression * list (list compiledOperation)))
    (otherwise : list (list compiledOperation))
| OpForEach (array : CompiledExpression) (bindings : IterationBindings)
    (body : list (list compiledOperation))
| OpSend (event target typ id : string)
    (eventExpr targetExpr typeExpr idLocation delayExpr : option CompiledExpression)
    (payload : compiledPayload) (delay : Z).

(** One block of executable content: an error skips the rest of the block. *)
Definition actionBlock : Type := list compiledOperation.

(** ** States *)

Record compiledTransition := mkTransition {
  t_events : list Identifier;
  t_target : list Identifier;
  t_modelCondition : option CompiledExpression;
  t_actions : list actionBlock;
  t_internal : bool;
  t_source : state_ref;
  t_definitionIndex : Z
}.

Record compiledInvoke := mkInvoke {
  iv_definitionID : Identifier;
  iv_owner : state_ref;
  iv_id : Identifier;
  iv_staticType : Identifier;
  iv_typeExpr : option CompiledExpression;
  iv_staticSource : string;
  iv_sourceExpr : option CompiledExpression;
  iv_payload : compiledPayload;
  iv_modelIDLocation : option CompiledExpression;
  iv_finalize : list actionBlock;
  iv_autoForward : bool
}.

Record compiledState := mkState {
  st_id : Identifier;
  st_kind : StateKind;
  st_historyKind : HistoryKind;
  st_initial : option compiledTransition;
  st_parent : option state_ref;
  st_children : list state_ref;
  st_onEntry : list actionBlock;
  st_onExit : list actionBlock;
  st_transitions : list compiledTransition;
  st_invokes : list compiledInvoke;
  st_modelPayload : option compiledPayload;
  st_data : list compiledData
}.

(** [c.root] is the first state in document order. *)
Record Chart := mkChart {
  c_order : list compiledState;
  c_byID : gmap string state_ref;
  c_data : list compiledData;
  c_dataBinding : DataBinding
}.

Definition root : state_ref := 0.

(** Dereferencing a [*compiledState]. *)
Definition state_of (c : Chart) (s : state_ref) : option compiledState := c_order c !! s.

Definition kind (c : Chart) (s : state_ref) : StateKind :=
  match state_of c s with Some cs => st_kind cs | None => KindAtomic end.
Definition parent (c : Chart) (s : state_ref) : option state_ref := state_of c s ≫= st_parent.
Definition children (c : Chart) (s : state_ref) : list state_ref :=
  match state_of c s with Some cs => st_children cs | None => [] end.
Definition initial (c : Chart) (s : state_ref) : option compiledTransition := state_of c s ≫= st_initial.
Definition transitions (c : Chart) (s : state_ref) : list compiledTransition :=
  match state_of c s with Some cs => st_transitions cs | None => [] end.
Definition sid (c : Chart) (s : state_ref) : Identifier :=
  match state_of c s with Some cs => st_id cs | None => "" end.

(** [States]: every state's ID in document order. *)
Definition States (c : Chart) : list Identifier := map st_id (c_order c).

(** The targets of a transition that [c.byID] resolves. *)
Definition resolve (c : Chart) (ids : list Identifier) : list state_ref := omap (λ id, c_byID c !! id) ids.

(** ** Navigation in the state tree (interpreter.go) *)

Definition isAtomicKind (c : Chart) (s : state_ref) : bool :=
  bool_decide (kind c s = KindAtomic) || bool_decide (kind c s = KindFinal).

Definition realChildren (c : Chart) (s : state_ref) : list state_ref :=
  filter (λ x, kind c x ≠ KindHistory) (children c s).

(** The loop [for p := state.parent; p != nil; p = p.parent].  A parent precedes
    its children in document order, so [S s] steps reach the root from [s]. *)
Fixpoint ancestors_go (c : Chart) (fuel : nat) (s : state_ref) : list state_ref :=
  match fuel with
  | 0 => []
  | S fuel =>
      match parent c s with
      | Some p => p :: ancestors_go c fuel p
      | None => []
      end
  end.

Definition ancestors (c : Chart) (s : state_ref) : list state_ref := ancestors_go c (S s) s.

(** [for p := state.parent; p != nil && p != stop; p = p.parent]. *)
Fixpoint take_until (stop : option state_ref) (l : list state_ref) : list state_ref :=
  match l with
  | [] => []
  | p :: l => if decide (Some p = stop) then [] else p :: take_until stop l
  end.

Definition properAncestors (c : Chart) (state : state_ref) (stop : option state_ref) : list state_ref :=
  take_until stop (ancestors c state).

Definition isDescendant (c : Chart) (s : state_ref) (ancestor : option state_ref) : bool :=
  match ancestor with
  | None => false
  | Some a => bool_decide (a ∈ ancestors c s)
  end.

Definition isCompoundOrRoot (c : Chart) (s : state_ref) : bool :=
  bool_decide (kind c s = KindCompound) || bool_decide (s = root).

End compiled.

Arguments compiledOperation : clear implicits.
Arguments compiledOperation {DM}.
Arguments Chart {DM}.
