(* ===== verification/Tree.v ===== *)
(** * The state tree (interpreter.go: properAncestors, isDescendant)

    Theory of the ancestor relation of a compiled chart, for the charts
    [compileDefinitionState] builds: every state but the root has a parent, the
    parent precedes it in document order, and [children] and [parent] agree.
    [strict x a] is the relation [isDescendant] decides, [under x a] its
    reflexive closure. *)

From S2P Require Import Prelude Identifier Values Events Datamodel Chart.
From stdpp Require Import options.

Section tree.
Context `{DM : DatamodelSession}.

Definition strict (c : Chart) (x a : nat) : Prop := a ∈ ancestors c x.
Definition under (c : Chart) (x a : nat) : Prop := x = a ∨ strict c x a.

#[global] Instance strict_dec c x a : Decision (strict c x a).
Proof. unfold strict. apply _. Defined.
#[global] Instance under_dec c x a : Decision (under c x a).
Proof. unfold under. apply _. Defined.

Record wf_tree (c : Chart) : Prop := {
  wf_parent_lt : ∀ s p, parent c s = Some p → p < s;
  wf_parent_valid : ∀ s p, parent c s = Some p → s < length (c_order c);
  wf_has_parent : ∀ s, s < length (c_order c) → s ≠ root → is_Some (parent c s);
  wf_children : ∀ s x, x ∈ children c s ↔ parent c x = Some s;
  wf_byID : ∀ id s, c_byID c !! id = Some s → s < length (c_order c)
}.

Variable c : Chart.
Hypothesis Htree : wf_tree c.

Lemma ancestors_go_fuel n m s : s < n → s < m → ancestors_go c n s = ancestors_go c m s.
Proof using Htree.
  revert m s. induction n as [|n IH]; intros [|m] s Hn Hm; try lia. simpl.
  destruct (parent c s) as [p|] eqn:E; [|done].
  apply (wf_parent_lt c Htree) in E. f_equal. apply IH; lia.
Qed.

Lemma ancestors_unfold s :
  ancestors c s = match parent c s with Some p => p :: ancestors c p | None => [] end.
Proof using Htree.
  unfold ancestors at 1. simpl. destruct (parent c s) as [p|] eqn:E; [|done].
  apply (wf_parent_lt c Htree) in E. f_equal. apply ancestors_go_fuel; lia.
Qed.

Lemma strict_unfold x a : strict c x a ↔ ∃ p, parent c x = Some p ∧ under c p a.
Proof using Htree.
  unfold under, strict. rewrite ancestors_unfold. destruct (parent c x) as [p|].
  - rewrite elem_of_cons. naive_solver.
  - rewrite elem_of_nil. naive_solver.
Qed.

Lemma strict_parent x p : parent c x = Some p → strict c x p.
Proof using Htree. intros H. apply strict_unfold. exists p. split; [done | by left]. Qed.

Lemma strict_lt x a : strict c x a → a < x.
Proof using Htree.
  revert a. induction (lt_wf x) as [x _ IH]. intros a (p & Hp & Hpa)%strict_unfold.
  apply (wf_parent_lt c Htree) in Hp. destruct Hpa as [<-|Hpa]; [done|]. specialize (IH p Hp a Hpa). lia.
Qed.

Lemma strict_irrefl x : ¬ strict c x x.
Proof using Htree. intros H%strict_lt. lia. Qed.

Lemma strict_valid x a : strict c x a → x < length (c_order c).
Proof using Htree. intros (p & Hp & _)%strict_unfold. by eapply wf_parent_valid. Qed.

Lemma strict_trans x y z : strict c x y → strict c y z → strict c x z.
Proof using Htree.
  revert y z. induction (lt_wf x) as [x _ IH]. intros y z (p & Hp & Hpy)%strict_unfold Hyz.
  apply strict_unfold. exists p. split; [done|]. right. destruct Hpy as [->|Hpy]; [done|].
  eapply IH; [by eapply wf_parent_lt | done..].
Qed.

Lemma under_refl x : under c x x.
Proof. by left. Qed.
Lemma strict_under x y : strict c x y → under c x y.
Proof. by right. Qed.
Lemma under_strict_trans x y z : under c x y → strict c y z → strict c x z.
Proof using Htree. intros [->|H] ?; [done | by eapply strict_trans]. Qed.
Lemma strict_under_trans x y z : strict c x y → under c y z → strict c x z.
Proof using Htree. intros H [<-|H']; [done | by eapply strict_trans]. Qed.
Lemma under_trans x y z : under c x y → under c y z → under c x z.
Proof using Htree. intros [->|H] H'; [done | right; by eapply strict_under_trans]. Qed.

Lemma under_antisym x y : under c x y → under c y x → x = y.
Proof using Htree.
  intros [?|Hxy] [?|Hyx]; subst; try done. exfalso. eapply strict_irrefl, strict_trans; done.
Qed.

(** The ancestors of a state form a chain. *)
Lemma under_comparable x a b : under c x a → under c x b → under c a b ∨ under c b a.
Proof using Htree.
  revert a b. induction (lt_wf x) as [x _ IH]. intros a b [->|Ha] Hb; [by left|]. destruct Hb as [->|Hb].
  { right. by right. }
  apply strict_unfold in Ha as (p & Hp & Ha). apply strict_unfold in Hb as (p' & Hp' & Hb). simplify_eq.
  eapply IH; [by eapply wf_parent_lt | done..].
Qed.

Lemma strict_or_under x a b : under c x a → under c x b → strict c a b ∨ under c b a.
Proof using Htree. intros Ha Hb. destruct (under_comparable x a b Ha Hb) as [[->|?]|?]; auto using under_refl. Qed.

(** The child of [a] on the path to [x]. *)
Lemma strict_child x a : strict c x a → ∃ ch, parent c ch = Some a ∧ under c x ch.
Proof using Htree.
  revert a. induction (lt_wf x) as [x _ IH]. intros a Ha. apply strict_unfold in Ha as (p & Hp & [->|Ha]).
  { exists x. split; [done | apply under_refl]. }
  destruct (IH p (wf_parent_lt c Htree _ _ Hp) a Ha) as (ch & Hch & Hpch).
  exists ch. split; [done|]. right. apply strict_unfold. eauto.
Qed.

Lemma child_unique x a c1 c2 :
  parent c c1 = Some a → parent c c2 = Some a → under c x c1 → under c x c2 → c1 = c2.
Proof using Htree.
  intros H1 H2 Hx1 Hx2. destruct (under_comparable x c1 c2 Hx1 Hx2) as [[->|H]|[->|H]]; try done.
  - apply strict_unfold in H as (p & Hp & [->|H]); simplify_eq;
      [by apply strict_parent, strict_irrefl in H2|].
    exfalso. eapply strict_irrefl, strict_trans; [exact H | by apply strict_parent].
  - apply strict_unfold in H as (p & Hp & [->|H]); simplify_eq;
      [by apply strict_parent, strict_irrefl in H1|].
    exfalso. eapply strict_irrefl, strict_trans; [exact H | by apply strict_parent].
Qed.

Lemma strict_above_child x p a : parent c x = Some p → strict c x a → under c p a.
Proof using Htree. intros Hp (p' & Hp' & H)%strict_unfold. by simplify_eq. Qed.

Lemma strict_root x : x < length (c_order c) → x ≠ root → strict c x root.
Proof using Htree.
  induction (lt_wf x) as [x _ IH]. intros Hv Hx. destruct (wf_has_parent c Htree x Hv Hx) as [p Hp].
  apply strict_unfold. exists p. split; [done|]. destruct (decide (p = root)) as [->|Hpr]; [by left|].
  right. apply IH; [by eapply wf_parent_lt | | done]. apply (wf_parent_lt c Htree) in Hp. lia.
Qed.

Lemma under_root x : x < length (c_order c) → under c x root.
Proof using Htree. intros H. destruct (decide (x = root)) as [->|]; [apply under_refl | right; by apply strict_root]. Qed.

Lemma root_not_strict a : ¬ strict c root a.
Proof using Htree. intros H%strict_lt. unfold root in H. lia. Qed.

(** ** The loops of the source *)

Lemma isDescendant_spec x a : isDescendant c x (Some a) = true ↔ strict c x a.
Proof. apply bool_decide_eq_true. Qed.

Lemma elem_of_take_until stop l p : p ∈ take_until stop l → p ∈ l.
Proof.
  induction l as [|x l IH]; simpl; [done|]. case_decide; [by intros ?%elem_of_nil|].
  rewrite !elem_of_cons. naive_solver.
Qed.

Lemma properAncestors_None x y : y ∈ properAncestors c x None ↔ strict c x y.
Proof.
  unfold properAncestors, strict. generalize (ancestors c x) as l.
  induction l as [|p l IH]; simpl; [done|]. rewrite !elem_of_cons. by rewrite IH.
Qed.

(** For an ancestor [d] of [x], [properAncestors(x, d)] is everything strictly
    between them. *)
Lemma properAncestors_Some x d y :
  strict c x d → y ∈ properAncestors c x (Some d) ↔ strict c x y ∧ strict c y d.
Proof using Htree.
  unfold properAncestors. revert y. induction (lt_wf x) as [x _ IH]. intros y Hd.
  rewrite ancestors_unfold. apply strict_unfold in Hd as (p & Hp & Hpd). rewrite Hp. simpl.
  case_decide as E.
  - injection E as <-. rewrite elem_of_nil. split; [done|]. intros [Hxy Hyp].
    apply (strict_above_child x p y Hp) in Hxy. eapply strict_irrefl, strict_under_trans; done.
  - destruct Hpd as [->|Hpd]; [done|]. rewrite elem_of_cons, IH by (done || by eapply wf_parent_lt).
    split.
    + intros [->|[Hpy Hyd]]; [by eauto using strict_parent|]. split; [|done].
      eapply strict_trans; [by apply strict_parent | done].
    + intros [Hxy Hyd]. apply (strict_above_child x p y Hp) in Hxy as [->|]; auto.
Qed.

(** When [d] is not a proper ancestor the loop runs to the root. *)
Lemma properAncestors_strict x d y : y ∈ properAncestors c x d → strict c x y.
Proof. apply elem_of_take_until. Qed.

Lemma elem_of_realChildren s x : x ∈ realChildren c s ↔ parent c x = Some s ∧ kind c x ≠ KindHistory.
Proof using Htree. unfold realChildren. rewrite list_elem_of_filter, wf_children by done. tauto. Qed.

Lemma properAncestors_root d : properAncestors c root d = [].
Proof using Htree.
  destruct (properAncestors c root d) as [|y l] eqn:E; [done|].
  assert (y ∈ properAncestors c root d) as H by (rewrite E; left).
  by apply properAncestors_strict, root_not_strict in H.
Qed.

End tree.
