(* ===== verification/Legal.v ===== *)
(** * Well-formed charts and legal configurations

    [wf_chart] collects what validation and compilation establish about a
    chart's tree, default transitions, history defaults and transition targets
    (definition_validate.go: validateState, validateTargetSet).  Three
    conditions are stronger than what the validator checks, and each is
    necessary (see Findings.v): the root is compound, a history state is the
    only target of its transition, and a transition that targets a history
    state starts outside of the state the history belongs to.

    [legal] is SCXML 3.11's legal state configuration; [conflict] is the way a
    set of states can fail to extend to one. *)

From S2P Require Import Prelude Identifier Values Events Datamodel Chart Tree.
From stdpp Require Import options.

Section legal.
Context `{DM : DatamodelSession}.
Variable c : Chart.

(** [leastCommonDefinitionAncestor]: the nearest state that is both states or an
    ancestor of them. *)
Definition lca (x y : nat) : option nat :=
  head (filter (λ a, a ∈ y :: ancestors c y) (x :: ancestors c x)).

(** Two states that can be active together without one containing the other. *)
Definition orthogonal (x y : nat) : bool :=
  match lca x y with
  | Some p => bool_decide (kind c p = KindParallel) && bool_decide (p ≠ x) && bool_decide (p ≠ y)
  | None => false
  end.

(** A target list inside the state [a]. *)
Definition target_set (a : nat) (X : list nat) : Prop :=
  X ≠ [] ∧ NoDup X ∧ Forall (λ x, strict c x a) X
  ∧ Forall (λ x, Forall (λ y, x = y ∨ orthogonal x y = true) X) X
  ∧ Forall (λ h, kind c h = KindHistory → X = [h]) X.

#[global] Instance target_set_dec a X : Decision (target_set a X).
Proof. unfold target_set. apply _. Defined.

(** The state [s] is not inside the state the history [h] belongs to. *)
Definition outside (s h : nat) : bool := negb (isDescendant c s (parent c h)).

(** The targets of a transition of the state [s]. *)
Definition transition_targets (s : nat) (X : list nat) : Prop :=
  X = [] ∨ X = [root] ∨
  (target_set root X
   ∧ Forall (λ h, kind c h = KindHistory → outside s h = true) X).

#[global] Instance transition_targets_dec s X : Decision (transition_targets s X).
Proof. unfold transition_targets. apply _. Defined.

(** What well-formedness asks of one state.  [hrank] orders the history states
    along their default transitions: it exists exactly when these defaults form
    no cycle. *)
Definition wf_state (hrank : nat → nat) (s : nat) : Prop :=
  NoDup (children c s)
  ∧ Forall (λ t, t_source t = s ∧ transition_targets s (resolve c (t_target t))) (transitions c s)
  ∧ match kind c s with
    | KindCompound =>
        match initial c s with Some t => target_set s (resolve c (t_target t)) | None => False end
    | KindParallel => realChildren c s ≠ []
    | KindAtomic | KindFinal => children c s = []
    | KindHistory =>
        children c s = [] ∧ hrank s ≤ length (c_order c) ∧
        match parent c s, initial c s with
        | Some q, Some t =>
            target_set q (resolve c (t_target t))
            ∧ Forall (λ h, kind c h = KindHistory → hrank h < hrank s) (resolve c (t_target t))
        | _, _ => False
        end
    end.

#[global] Instance wf_state_dec hrank s : Decision (wf_state hrank s).
Proof.
  unfold wf_state.
  apply and_dec; [apply _|]. apply and_dec; [apply _|].
  destruct (kind c s); try apply _; [destruct (initial c s); apply _|].
  apply and_dec; [apply _|]. apply and_dec; [apply _|].
  destruct (parent c s), (initial c s); apply _.
Defined.

Record wf_chart (hrank : nat → nat) : Prop := {
  wf_is_tree : wf_tree c;
  wf_states : ∀ s, s < length (c_order c) → wf_state hrank s;
  wf_root : kind c root = KindCompound
}.

(** An executable check of well-formedness. *)
Definition tree_ok (s : nat) : Prop :=
  match parent c s with
  | Some p => p < s ∧ s ∈ children c p
  | None => s = root
  end
  ∧ Forall (λ x, parent c x = Some s) (children c s).

#[global] Instance tree_ok_dec s : Decision (tree_ok s).
Proof. unfold tree_ok. destruct (parent c s); apply _. Defined.

Definition wf_chart_check (hrank : nat → nat) : bool :=
  bool_decide (Forall (λ s, tree_ok s ∧ wf_state hrank s) (seq 0 (length (c_order c))))
  && bool_decide (map_Forall (λ _ s, s < length (c_order c)) (c_byID c))
  && bool_decide (kind c root = KindCompound).

Lemma wf_chart_check_sound hrank : wf_chart_check hrank = true → wf_chart hrank.
Proof.
  unfold wf_chart_check. rewrite !andb_true_iff, !bool_decide_eq_true. intros [[Hall Hid] Hroot].
  rewrite Forall_forall in Hall. setoid_rewrite elem_of_seq in Hall.
  assert (∀ s, s < length (c_order c) → tree_ok s ∧ wf_state hrank s) as Hs by (intros s ?; apply Hall; lia).
  assert (∀ s cs, state_of c s = Some cs → s < length (c_order c)) as Hv by (intros s cs; apply lookup_lt_Some).
  assert (∀ s p, parent c s = Some p → s < length (c_order c)) as Hp.
  { intros s p. unfold parent. destruct (state_of c s) as [cs|] eqn:E; [by eauto | done]. }
  split; [split | by apply Hs | done].
  - intros s p H. destruct (Hs s (Hp s p H)) as [[Ht _] _]. rewrite H in Ht. apply Ht.
  - done.
  - intros s Hlt Hne. destruct (Hs s Hlt) as [[Ht _] _]. destruct (parent c s); [eauto | done].
  - intros s x. split.
    + intros Hx. assert (s < length (c_order c)) as Hlt.
      { unfold children in Hx. destruct (state_of c s) as [cs|] eqn:E; [by eauto | by apply elem_of_nil in Hx]. }
      destruct (Hs s Hlt) as [[_ Hc] _]. rewrite Forall_forall in Hc. by apply Hc.
    + intros H. destruct (Hs x (Hp x s H)) as [[Ht _] _]. rewrite H in Ht. apply Ht.
  - intros id s H. by apply (Hid id s).
Qed.

(** ** Legal configurations *)

(** The root is active throughout without being listed. *)
Definition active (cfg : gset nat) (s : nat) : Prop := s = root ∨ s ∈ cfg.

Record legal (cfg : gset nat) : Prop := {
  legal_valid : ∀ s, s ∈ cfg → s < length (c_order c) ∧ kind c s ≠ KindHistory;
  legal_parent : ∀ s p, s ∈ cfg → parent c s = Some p → active cfg p;
  legal_compound : ∀ s, active cfg s → kind c s = KindCompound → ∃ x, x ∈ realChildren c s ∧ x ∈ cfg;
  legal_unique : ∀ s x y, kind c s = KindCompound →
    x ∈ realChildren c s → y ∈ realChildren c s → x ∈ cfg → y ∈ cfg → x = y;
  legal_parallel : ∀ s x, active cfg s → kind c s = KindParallel → x ∈ realChildren c s → x ∈ cfg
}.

(** Recorded history: what [exitStates] stores. *)
Definition history_ok (hist : gmap nat (list nat)) : Prop :=
  ∀ h recorded, hist !! h = Some recorded →
    ∃ q, kind c h = KindHistory ∧ parent c h = Some q ∧ target_set q recorded
         ∧ Forall (λ r, kind c r ≠ KindHistory) recorded.

(** ** Conflicts *)

(** A compound state inside [d] of which [x] and [y] occupy different children. *)
Definition conflict (d x y : nat) : Prop :=
  ∃ p c1 c2, under c p d ∧ kind c p = KindCompound ∧ parent c c1 = Some p ∧ parent c c2 = Some p
             ∧ c1 ≠ c2 ∧ under c x c1 ∧ under c y c2.

Definition consistent (d : nat) (E : gset nat) : Prop := ∀ x y, x ∈ E → y ∈ E → ¬ conflict d x y.

End legal.

(** ** Least common ancestors *)

Section lca_facts.
Context `{DM : DatamodelSession}.
Variable c : Chart.
Hypothesis Htree : wf_tree c.

(** The first match in a chain of ancestors is the nearest one. *)
Lemma chain_first (P : nat → Prop) `{∀ a, Decision (P a)} x p :
  head (filter P (ancestors c x)) = Some p →
  strict c x p ∧ P p ∧ ∀ a, strict c x a → P a → under c p a.
Proof using Htree.
  induction (lt_wf x) as [x _ IH]. rewrite (ancestors_unfold c Htree).
  destruct (parent c x) as [q|] eqn:Hq; [|done].
  pose proof (strict_parent c Htree _ _ Hq) as Hxq.
  destruct (decide (P q)) as [HP|HP]; [rewrite filter_cons_True by done | rewrite filter_cons_False by done].
  - intros [= <-]. split_and!; [done..|]. intros a Ha _. by eapply strict_above_child.
  - intros (H1 & H2 & H3)%IH; [|by eapply wf_parent_lt]. split_and!; [by eapply strict_trans | done |].
    intros a Ha HPa. apply H3; [|done]. destruct (strict_above_child c Htree _ _ _ Hq Ha) as [->|]; done.
Qed.

Lemma lca_spec x y p :
  lca c x y = Some p → under c x p ∧ under c y p ∧ ∀ a, under c x a → under c y a → under c p a.
Proof using Htree.
  unfold lca. assert (∀ a, a ∈ y :: ancestors c y ↔ under c y a) as Hy.
  { intros a. rewrite elem_of_cons. unfold under, strict. naive_solver. }
  destruct (decide (x ∈ y :: ancestors c y)) as [HP|HP];
    [rewrite filter_cons_True by done | rewrite filter_cons_False by done].
  - intros [= <-]. split_and!; [apply under_refl | by apply Hy | done].
  - intros (H1 & H2 & H3)%(chain_first (λ a, a ∈ y :: ancestors c y)).
    split_and!; [by right | by apply Hy |]. intros a [->|Ha] Hya; [by apply Hy in Hya | by apply H3, Hy].
Qed.

(** Two valid states have a least common ancestor, since both are under the root. *)
Lemma lca_exists x y : x < length (c_order c) → y < length (c_order c) → is_Some (lca c x y).
Proof using Htree.
  intros Hx Hy. unfold lca.
  assert (root ∈ filter (λ a, a ∈ y :: ancestors c y) (x :: ancestors c x)) as H.
  { apply list_elem_of_filter. pose proof (under_root c Htree x Hx). pose proof (under_root c Htree y Hy).
    unfold under, strict in *. rewrite !elem_of_cons. naive_solver. }
  destruct (filter _ _) as [|z l]; [by apply elem_of_nil in H | by eexists].
Qed.

(** A branching point found below two states is theirs when they are unrelated. *)
Lemma orthogonal_lift x y a b q :
  x < length (c_order c) → y < length (c_order c) → ¬ under c x y → ¬ under c y x →
  under c a x → under c b y → lca c a b = Some q → kind c q = KindParallel → orthogonal c x y = true.
Proof using Htree.
  intros Hx Hy Hxy Hyx Ha Hb (Haq & Hbq & Hmin)%lca_spec Hk.
  assert (strict c x q) as Hxq.
  { destruct (strict_or_under c Htree a x q Ha Haq) as [H|H]; [done|]. exfalso.
    assert (under c b x) as Hbx by (by eapply under_trans).
    destruct (under_comparable c Htree b x y Hbx Hb); done. }
  assert (strict c y q) as Hyq.
  { destruct (strict_or_under c Htree b y q Hb Hbq) as [H|H]; [done|]. exfalso.
    assert (under c a y) as Hay by (by eapply under_trans).
    destruct (under_comparable c Htree a x y Ha Hay); done. }
  destruct (lca_exists x y Hx Hy) as [q' Hq']. unfold orthogonal. rewrite Hq'.
  apply lca_spec in Hq' as (Hxq' & Hyq' & Hmin').
  assert (q = q') as <-.
  { apply (under_antisym c Htree).
    - apply Hmin; [by eapply (under_trans c Htree); [exact Ha|] | by eapply (under_trans c Htree); [exact Hb|]].
    - apply Hmin'; by right. }
  rewrite !andb_true_iff, !bool_decide_eq_true. split; [split; [done|]|]; intros <-; by eapply strict_irrefl.
Qed.

End lca_facts.

Section legal_facts.
Context `{DM : DatamodelSession}.
Variable c : Chart.
Variable hrank : nat → nat.
Hypothesis Hwf : wf_chart c hrank.

Let Htree := wf_is_tree c hrank Hwf.

Lemma wf_state_of s : kind c s ≠ KindAtomic → wf_state c hrank s.
Proof using Hwf.
  intros Hk. apply (wf_states c hrank Hwf). apply lookup_lt_is_Some. unfold kind, state_of in Hk.
  destruct (c_order c !! s); [eauto | done].
Qed.

Lemma valid_nonatomic s : kind c s ≠ KindAtomic → s < length (c_order c).
Proof using Type.
  intros Hk. apply lookup_lt_is_Some. unfold kind, state_of in Hk.
  destruct (c_order c !! s); [eauto | done].
Qed.

Lemma wf_compound s : kind c s = KindCompound →
  ∃ t, initial c s = Some t ∧ target_set c s (resolve c (t_target t)).
Proof using Hwf.
  intros Hk. destruct (wf_state_of s) as (_ & _ & H); [congruence|]. rewrite Hk in H.
  destruct (initial c s); [eauto | done].
Qed.

Lemma wf_history s : kind c s = KindHistory →
  ∃ q t, parent c s = Some q ∧ initial c s = Some t ∧ hrank s ≤ length (c_order c)
    ∧ target_set c q (resolve c (t_target t))
    ∧ Forall (λ h, kind c h = KindHistory → hrank h < hrank s) (resolve c (t_target t)).
Proof using Hwf.
  intros Hk. destruct (wf_state_of s) as (_ & _ & H); [congruence|]. rewrite Hk in H.
  destruct H as (_ & Hr & H). destruct (parent c s) as [q|], (initial c s) as [t|]; try done.
  exists q, t. naive_solver.
Qed.

Lemma wf_leaf s x : parent c x = Some s → kind c s = KindCompound ∨ kind c s = KindParallel.
Proof using Hwf.
  intros Hx. assert (s < length (c_order c)) as Hv.
  { pose proof (wf_parent_lt c Htree _ _ Hx). pose proof (wf_parent_valid c Htree _ _ Hx). lia. }
  apply (wf_children c Htree) in Hx. destruct (wf_states c hrank Hwf s Hv) as (_ & _ & H).
  destruct (kind c s); auto; exfalso; (rewrite H in Hx || (destruct H as [H _]; rewrite H in Hx)); by apply elem_of_nil in Hx.
Qed.

Lemma strict_nonleaf x s : strict c x s → kind c s = KindCompound ∨ kind c s = KindParallel.
Proof using Hwf.
  intros H. apply (strict_child c Htree) in H as (ch & Hch & _). by eapply wf_leaf.
Qed.

Lemma strict_nonhistory x s : strict c x s → kind c s ≠ KindHistory.
Proof using Hwf. intros [?|?]%strict_nonleaf; congruence. Qed.

Lemma under_nonhistory x s : under c x s → kind c x ≠ KindHistory → kind c s ≠ KindHistory.
Proof using Hwf. intros [->|?] ?; [done | by eapply strict_nonhistory]. Qed.

Lemma NoDup_children s : NoDup (children c s).
Proof using Hwf.
  destruct (decide (s < length (c_order c))) as [Hv|Hv].
  - by destruct (wf_states c hrank Hwf s Hv).
  - unfold children, state_of. rewrite lookup_ge_None_2 by lia. constructor.
Qed.

Lemma NoDup_realChildren s : NoDup (realChildren c s).
Proof using Hwf. unfold realChildren. apply NoDup_filter, NoDup_children. Qed.

Lemma orthogonal_spec d x y :
  orthogonal c x y = true → ¬ under c x y ∧ ¬ under c y x ∧ ¬ conflict c d x y.
Proof using Hwf.
  unfold orthogonal. destruct (lca c x y) as [p|] eqn:E; [|done].
  rewrite !andb_true_iff, !bool_decide_eq_true. intros [[Hk Hx] Hy].
  apply (lca_spec c Htree) in E as (Hxp & Hyp & Hmin). split_and!.
  - intros H. apply Hy. eapply under_antisym; [done | | done]. apply Hmin; [done | apply under_refl].
  - intros H. apply Hx. eapply under_antisym; [done | | done]. apply Hmin; [apply under_refl | done].
  - intros (pp & c1 & c2 & _ & Hpp & H1 & H2 & Hne & Hx1 & Hy2).
    assert (strict c c1 pp) as Hc1 by (by apply strict_parent).
    assert (strict c c2 pp) as Hc2 by (by apply strict_parent).
    destruct (Hmin pp) as [->|Hp]; [right; by eapply under_strict_trans | right; by eapply under_strict_trans | congruence |].
    apply (strict_child c Htree) in Hp as (ch & Hch & Hpch).
    apply Hne. transitivity ch; [|symmetry].
    + apply (child_unique c Htree x pp); [done..|]. by apply (under_trans c Htree _ p).
    + apply (child_unique c Htree y pp); [done..|]. by apply (under_trans c Htree _ p).
Qed.

Lemma conflict_sym d x y : conflict c d x y → conflict c d y x.
Proof. intros (p & c1 & c2 & ?). exists p, c2, c1. naive_solver. Qed.

Lemma conflict_mono_l d x x' y : under c x' x → conflict c d x y → conflict c d x' y.
Proof using Hwf.
  intros H (p & c1 & c2 & ? & ? & ? & ? & ? & ? & ?). exists p, c1, c2. split_and!; try done. by eapply under_trans.
Qed.

Lemma conflict_irrefl d x : ¬ conflict c d x x.
Proof using Hwf.
  intros (p & c1 & c2 & ? & ? & H1 & H2 & Hne & Hx1 & Hx2). apply Hne. by eapply child_unique.
Qed.

Lemma conflict_above d x y : under c x y → ¬ conflict c d x y.
Proof using Hwf.
  intros H Hc. apply conflict_sym in Hc. eapply conflict_mono_l in Hc; [|exact H]. by eapply conflict_irrefl.
Qed.

(** A conflict with something inside [b] is a conflict with [b], unless the
    other side reaches into [b]. *)
Lemma conflict_lift d b x y : under c y b → conflict c d x y → conflict c d x b ∨ strict c x b.
Proof using Hwf.
  intros Hyb (p & c1 & c2 & Hpd & Hk & H1 & H2 & Hne & Hx1 & Hy2).
  assert (strict c y p) as Hyp by (eapply (under_strict_trans c Htree); [exact Hy2 | by apply strict_parent]).
  destruct (strict_or_under c Htree y b p Hyb) as [Hbp|Hpb]; [by right|..].
  - left. exists p, c1, c2. split_and!; try done.
    apply (strict_child c Htree) in Hbp as (ch & Hch & Hbch).
    by rewrite (child_unique c Htree y p c2 ch H2 Hch Hy2 (under_trans c Htree _ _ _ Hyb Hbch)).
  - right. apply (under_strict_trans c Htree _ c1); [done|]. apply (strict_under_trans c Htree _ p); [|done].
    by apply strict_parent.
Qed.

Lemma target_set_strict a X x : target_set c a X → x ∈ X → strict c x a.
Proof. intros (_ & _ & H & _) Hx. by eapply Forall_forall in H. Qed.

Lemma target_set_orthogonal a X x y : target_set c a X → x ∈ X → y ∈ X → x ≠ y → orthogonal c x y = true.
Proof.
  intros (_ & _ & _ & H & _) Hx Hy Hne. rewrite Forall_forall in H. specialize (H x Hx).
  rewrite Forall_forall in H. by destruct (H y Hy) as [->|].
Qed.

Lemma target_set_history a X h : target_set c a X → h ∈ X → kind c h = KindHistory → X = [h].
Proof. intros (_ & _ & _ & _ & H) Hh. by eapply Forall_forall in H. Qed.

End legal_facts.
