(* ===== verification/Interp.v ===== *)
(** * The interpreter's state, queues, sends and executable content
    (interpreter.go, ioprocessor.go, invoke.go)

    [interpretation] is the mutable state of one running chart.  Its fields are
    split in two records: [control] is what only state entry, state exit,
    invocation and event selection change, [effects] is what executable content
    changes (the datamodel session, both queues, delayed sends, the sequence
    numbers and the observable calls to the outside).  Operations are total
    functions on [interpretation]. *)

From S2P Require Import Prelude Identifier Values Events Datamodel Chart.
From stdpp Require Import options.

(** ** Requests to the outside *)

Record SendRequest := mkSendRequest {
  sr_DeliveryID : string;
  sr_SendID : Identifier;
  sr_EventSendID : Identifier;
  sr_Target : Identifier;
  sr_Type : Identifier;
  sr_Event : Identifier;
  sr_Data : Value
}.

Record InvokeRequest := mkInvokeRequest {
  rq_DefinitionID : Identifier;
  rq_ID : Identifier;
  rq_Type : Identifier;
  rq_Source : string;
  rq_Data : Value
}.

(** [pendingSendRecord]: one outstanding delayed send.  [ps_order] is the value
    of [pendingSeq] at its creation, so it identifies the record (the pointer
    the source uses as map key).  [ps_armed] is [stop != nil]: a timer of the
    clock will call back. *)
Record pendingSendRecord := mkPending {
  ps_sendID : Identifier;
  ps_target : Identifier;
  ps_typ : Identifier;
  ps_event : Event;
  ps_fireAt : Z;
  ps_order : nat;
  ps_armed : bool
}.

Record TransitionRef := mkTransitionRef { tr_Source : Identifier; tr_Index : Z }.

Record MicrostepTrace := mkMicrostepTrace {
  mt_Trigger : option Event;
  mt_Transitions : list TransitionRef;
  mt_Exited : list Identifier;
  mt_Entered : list Identifier
}.

(** What the interpreter is configured with and never changes: its identity,
    its I/O processors, the runner that starts invocations, Go's
    [time.ParseDuration] (its fraction arithmetic is floating point) and the
    timer hook.  The answer of a processor or of the runner may depend on all
    requests made before; the runner's [bool] is whether it gave the invocation
    an incoming channel. *)
Record environment := mkEnvironment {
  env_sessionID : string;
  env_name : string;
  env_deliveryNamespace : string;
  env_processor : Identifier → bool;
  env_ioSend : list SendRequest → SendRequest → option error;
  env_startInvoke : list InvokeRequest → InvokeRequest → result bool;
  env_parseDuration : string → result Z;
  env_timerFiredHook : option (Identifier → Identifier → Identifier → Event → option error)
}.

Section interp.
Context `{DM : DatamodelSession}.

Record runningInvoke := mkRunning {
  ri_id : Identifier;
  ri_state : nat;
  ri_spec : compiledInvoke;
  ri_typ : Identifier;
  ri_source : string;
  ri_finalize : list actionBlock;
  ri_autoForward : bool;
  ri_incoming : bool                         (* the channel is not nil *)
}.

Record control := mkControl {
  ctl_configuration : gset nat;
  ctl_historyValue : gmap nat (list nat);
  ctl_running : bool;
  ctl_result_ : Value;
  ctl_completed : bool;
  ctl_lastEvent : Event;
  ctl_hasLastEvent : bool;
  ctl_initializedData : gset nat;
  ctl_statesToInvoke : gset nat;
  ctl_activeInvokes : gmap nat (list runningInvoke);
  ctl_invokesByID : gmap string runningInvoke;
  ctl_invokeSeq : N;
  ctl_hookErr : option error;
  ctl_macrostepTrace : option (list MicrostepTrace)
}.

Record effects := mkEffects {
  eff_session : Session;
  eff_internalQueue : list Event;
  eff_externalQueue : list Event;
  eff_pending : gmap nat pendingSendRecord;
  eff_sendSeq : N;
  eff_dispatchSeq : N;
  eff_pendingSeq : nat;
  eff_now : Z;
  eff_channels : gmap string (list Event);
  eff_requests : list SendRequest;
  eff_logs : list (string * Value);
  eff_cancelled : list Identifier;
  eff_started : list InvokeRequest
}.

Record interpretation := mkInterpretation { control_of : control; effects_of : effects }.

Definition configuration (ip : interpretation) : gset nat := ctl_configuration (control_of ip).
Definition historyValue (ip : interpretation) : gmap nat (list nat) := ctl_historyValue (control_of ip).
Definition running (ip : interpretation) : bool := ctl_running (control_of ip).
Definition result_value (ip : interpretation) : Value := ctl_result_ (control_of ip).
Definition completed (ip : interpretation) : bool := ctl_completed (control_of ip).
Definition lastEvent (ip : interpretation) : Event := ctl_lastEvent (control_of ip).
Definition hasLastEvent (ip : interpretation) : bool := ctl_hasLastEvent (control_of ip).
Definition initializedData (ip : interpretation) : gset nat := ctl_initializedData (control_of ip).
Definition statesToInvoke (ip : interpretation) : gset nat := ctl_statesToInvoke (control_of ip).
Definition activeInvokes (ip : interpretation) : gmap nat (list runningInvoke) := ctl_activeInvokes (control_of ip).
Definition invokesByID (ip : interpretation) : gmap string runningInvoke := ctl_invokesByID (control_of ip).
Definition invokeSeq (ip : interpretation) : N := ctl_invokeSeq (control_of ip).
Definition hookErr (ip : interpretation) : option error := ctl_hookErr (control_of ip).
Definition macrostepTrace (ip : interpretation) : option (list MicrostepTrace) := ctl_macrostepTrace (control_of ip).
Definition session (ip : interpretation) : Session := eff_session (effects_of ip).
Definition internalQueue (ip : interpretation) : list Event := eff_internalQueue (effects_of ip).
Definition externalQueue (ip : interpretation) : list Event := eff_externalQueue (effects_of ip).
Definition pending (ip : interpretation) : gmap nat pendingSendRecord := eff_pending (effects_of ip).
Definition sendSeq (ip : interpretation) : N := eff_sendSeq (effects_of ip).
Definition dispatchSeq (ip : interpretation) : N := eff_dispatchSeq (effects_of ip).
Definition pendingSeq (ip : interpretation) : nat := eff_pendingSeq (effects_of ip).
Definition now (ip : interpretation) : Z := eff_now (effects_of ip).
Definition channels (ip : interpretation) : gmap string (list Event) := eff_channels (effects_of ip).
Definition requests (ip : interpretation) : list SendRequest := eff_requests (effects_of ip).
Definition logs (ip : interpretation) : list (string * Value) := eff_logs (effects_of ip).
Definition cancelled (ip : interpretation) : list Identifier := eff_cancelled (effects_of ip).
Definition started (ip : interpretation) : list InvokeRequest := eff_started (effects_of ip).

Definition set_configuration (v : gset nat) (ip : interpretation) : interpretation :=
  let x := control_of ip in mkInterpretation (mkControl v (ctl_historyValue x) (ctl_running x) (ctl_result_ x) (ctl_completed x) (ctl_lastEvent x) (ctl_hasLastEvent x) (ctl_initializedData x) (ctl_statesToInvoke x) (ctl_activeInvokes x) (ctl_invokesByID x) (ctl_invokeSeq x) (ctl_hookErr x) (ctl_macrostepTrace x)) (effects_of ip).
Definition set_historyValue (v : gmap nat (list nat)) (ip : interpretation) : interpretation :=
  let x := control_of ip in mkInterpretation (mkControl (ctl_configuration x) v (ctl_running x) (ctl_result_ x) (ctl_completed x) (ctl_lastEvent x) (ctl_hasLastEvent x) (ctl_initializedData x) (ctl_statesToInvoke x) (ctl_activeInvokes x) (ctl_invokesByID x) (ctl_invokeSeq x) (ctl_hookErr x) (ctl_macrostepTrace x)) (effects_of ip).
Definition set_running (v : bool) (ip : interpretation) : interpretation :=
  let x := control_of ip in mkInterpretation (mkControl (ctl_configuration x) (ctl_historyValue x) v (ctl_result_ x) (ctl_completed x) (ctl_lastEvent x) (ctl_hasLastEvent x) (ctl_initializedData x) (ctl_statesToInvoke x) (ctl_activeInvokes x) (ctl_invokesByID x) (ctl_invokeSeq x) (ctl_hookErr x) (ctl_macrostepTrace x)) (effects_of ip).
Definition set_result (v : Value) (ip : interpretation) : interpretation :=
  let x := control_of ip in mkInterpretation (mkControl (ctl_configuration x) (ctl_historyValue x) (ctl_running x) v (ctl_completed x) (ctl_lastEvent x) (ctl_hasLastEvent x) (ctl_initializedData x) (ctl_statesToInvoke x) (ctl_activeInvokes x) (ctl_invokesByID x) (ctl_invokeSeq x) (ctl_hookErr x) (ctl_macrostepTrace x)) (effects_of ip).
Definition set_completed (v : bool) (ip : interpretation) : interpretation :=
  let x := control_of ip in mkInterpretation (mkControl (ctl_configuration x) (ctl_historyValue x) (ctl_running x) (ctl_result_ x) v (ctl_lastEvent x) (ctl_hasLastEvent x) (ctl_initializedData x) (ctl_statesToInvoke x) (ctl_activeInvokes x) (ctl_invokesByID x) (ctl_invokeSeq x) (ctl_hookErr x) (ctl_macrostepTrace x)) (effects_of ip).
Definition set_lastEvent (v : Event) (ip : interpretation) : interpretation :=
  let x := control_of ip in mkInterpretation (mkControl (ctl_configuration x) (ctl_historyValue x) (ctl_running x) (ctl_result_ x) (ctl_completed x) v (ctl_hasLastEvent x) (ctl_initializedData x) (ctl_statesToInvoke x) (ctl_activeInvokes x) (ctl_invokesByID x) (ctl_invokeSeq x) (ctl_hookErr x) (ctl_macrostepTrace x)) (effects_of ip).
Definition set_hasLastEvent (v : bool) (ip : interpretation) : interpretation :=
  let x := control_of ip in mkInterpretation (mkControl (ctl_configuration x) (ctl_historyValue x) (ctl_running x) (ctl_result_ x) (ctl_completed x) (ctl_lastEvent x) v (ctl_initializedData x) (ctl_statesToInvoke x) (ctl_activeInvokes x) (ctl_invokesByID x) (ctl_invokeSeq x) (ctl_hookErr x) (ctl_macrostepTrace x)) (effects_of ip).
Definition set_initializedData (v : gset nat) (ip : interpretation) : interpretation :=
  let x := control_of ip in mkInterpretation (mkControl (ctl_configuration x) (ctl_historyValue x) (ctl_running x) (ctl_result_ x) (ctl_completed x) (ctl_lastEvent x) (ctl_hasLastEvent x) v (ctl_statesToInvoke x) (ctl_activeInvokes x) (ctl_invokesByID x) (ctl_invokeSeq x) (ctl_hookErr x) (ctl_macrostepTrace x)) (effects_of ip).
Definition set_statesToInvoke (v : gset nat) (ip : interpretation) : interpretation :=
  let x := control_of ip in mkInterpretation (mkControl (ctl_configuration x) (ctl_historyValue x) (ctl_running x) (ctl_result_ x) (ctl_completed x) (ctl_lastEvent x) (ctl_hasLastEvent x) (ctl_initializedData x) v (ctl_activeInvokes x) (ctl_invokesByID x) (ctl_invokeSeq x) (ctl_hookErr x) (ctl_macrostepTrace x)) (effects_of ip).
Definition set_activeInvokes (v : gmap nat (list runningInvoke)) (ip : interpretation) : interpretation :=
  let x := control_of ip in mkInterpretation (mkControl (ctl_configuration x) (ctl_historyValue x) (ctl_running x) (ctl_result_ x) (ctl_completed x) (ctl_lastEvent x) (ctl_hasLastEvent x) (ctl_initializedData x) (ctl_statesToInvoke x) v (ctl_invokesByID x) (ctl_invokeSeq x) (ctl_hookErr x) (ctl_macrostepTrace x)) (effects_of ip).
Definition set_invokesByID (v : gmap string runningInvoke) (ip : interpretation) : interpretation :=
  let x := control_of ip in mkInterpretation (mkControl (ctl_configuration x) (ctl_historyValue x) (ctl_running x) (ctl_result_ x) (ctl_completed x) (ctl_lastEvent x) (ctl_hasLastEvent x) (ctl_initializedData x) (ctl_statesToInvoke x) (ctl_activeInvokes x) v (ctl_invokeSeq x) (ctl_hookErr x) (ctl_macrostepTrace x)) (effects_of ip).
Definition set_invokeSeq (v : N) (ip : interpretation) : interpretation :=
  let x := control_of ip in mkInterpretation (mkControl (ctl_configuration x) (ctl_historyValue x) (ctl_running x) (ctl_result_ x) (ctl_completed x) (ctl_lastEvent x) (ctl_hasLastEvent x) (ctl_initializedData x) (ctl_statesToInvoke x) (ctl_activeInvokes x) (ctl_invokesByID x) v (ctl_hookErr x) (ctl_macrostepTrace x)) (effects_of ip).
Definition set_hookErr (v : option error) (ip : interpretation) : interpretation :=
  let x := control_of ip in mkInterpretation (mkControl (ctl_configuration x) (ctl_historyValue x) (ctl_running x) (ctl_result_ x) (ctl_completed x) (ctl_lastEvent x) (ctl_hasLastEvent x) (ctl_initializedData x) (ctl_statesToInvoke x) (ctl_activeInvokes x) (ctl_invokesByID x) (ctl_invokeSeq x) v (ctl_macrostepTrace x)) (effects_of ip).
Definition set_macrostepTrace (v : option (list MicrostepTrace)) (ip : interpretation) : interpretation :=
  let x := control_of ip in mkInterpretation (mkControl (ctl_configuration x) (ctl_historyValue x) (ctl_running x) (ctl_result_ x) (ctl_completed x) (ctl_lastEvent x) (ctl_hasLastEvent x) (ctl_initializedData x) (ctl_statesToInvoke x) (ctl_activeInvokes x) (ctl_invokesByID x) (ctl_invokeSeq x) (ctl_hookErr x) v) (effects_of ip).

Definition set_session (v : Session) (ip : interpretation) : interpretation :=
  let x := effects_of ip in mkInterpretation (control_of ip) (mkEffects v (eff_internalQueue x) (eff_externalQueue x) (eff_pending x) (eff_sendSeq x) (eff_dispatchSeq x) (eff_pendingSeq x) (eff_now x) (eff_channels x) (eff_requests x) (eff_logs x) (eff_cancelled x) (eff_started x)).
Definition set_internalQueue (v : list Event) (ip : interpretation) : interpretation :=
  let x := effects_of ip in mkInterpretation (control_of ip) (mkEffects (eff_session x) v (eff_externalQueue x) (eff_pending x) (eff_sendSeq x) (eff_dispatchSeq x) (eff_pendingSeq x) (eff_now x) (eff_channels x) (eff_requests x) (eff_logs x) (eff_cancelled x) (eff_started x)).
Definition set_externalQueue (v : list Event) (ip : interpretation) : interpretation :=
  let x := effects_of ip in mkInterpretation (control_of ip) (mkEffects (eff_session x) (eff_internalQueue x) v (eff_pending x) (eff_sendSeq x) (eff_dispatchSeq x) (eff_pendingSeq x) (eff_now x) (eff_channels x) (eff_requests x) (eff_logs x) (eff_cancelled x) (eff_started x)).
Definition set_pending (v : gmap nat pendingSendRecord) (ip : interpretation) : interpretation :=
  let x := effects_of ip in mkInterpretation (control_of ip) (mkEffects (eff_session x) (eff_internalQueue x) (eff_externalQueue x) v (eff_sendSeq x) (eff_dispatchSeq x) (eff_pendingSeq x) (eff_now x) (eff_channels x) (eff_requests x) (eff_logs x) (eff_cancelled x) (eff_started x)).
Definition set_sendSeq (v : N) (ip : interpretation) : interpretation :=
  let x := effects_of ip in mkInterpretation (control_of ip) (mkEffects (eff_session x) (eff_internalQueue x) (eff_externalQueue x) (eff_pending x) v (eff_dispatchSeq x) (eff_pendingSeq x) (eff_now x) (eff_channels x) (eff_requests x) (eff_logs x) (eff_cancelled x) (eff_started x)).
Definition set_dispatchSeq (v : N) (ip : interpretation) : interpretation :=
  let x := effects_of ip in mkInterpretation (control_of ip) (mkEffects (eff_session x) (eff_internalQueue x) (eff_externalQueue x) (eff_pending x) (eff_sendSeq x) v (eff_pendingSeq x) (eff_now x) (eff_channels x) (eff_requests x) (eff_logs x) (eff_cancelled x) (eff_started x)).
Definition set_pendingSeq (v : nat) (ip : interpretation) : interpretation :=
  let x := effects_of ip in mkInterpretation (control_of ip) (mkEffects (eff_session x) (eff_internalQueue x) (eff_externalQueue x) (eff_pending x) (eff_sendSeq x) (eff_dispatchSeq x) v (eff_now x) (eff_channels x) (eff_requests x) (eff_logs x) (eff_cancelled x) (eff_started x)).
Definition set_now (v : Z) (ip : interpretation) : interpretation :=
  let x := effects_of ip in mkInterpretation (control_of ip) (mkEffects (eff_session x) (eff_internalQueue x) (eff_externalQueue x) (eff_pending x) (eff_sendSeq x) (eff_dispatchSeq x) (eff_pendingSeq x) v (eff_channels x) (eff_requests x) (eff_logs x) (eff_cancelled x) (eff_started x)).
Definition set_channels (v : gmap string (list Event)) (ip : interpretation) : interpretation :=
  let x := effects_of ip in mkInterpretation (control_of ip) (mkEffects (eff_session x) (eff_internalQueue x) (eff_externalQueue x) (eff_pending x) (eff_sendSeq x) (eff_dispatchSeq x) (eff_pendingSeq x) (eff_now x) v (eff_requests x) (eff_logs x) (eff_cancelled x) (eff_started x)).
Definition set_requests (v : list SendRequest) (ip : interpretation) : interpretation :=
  let x := effects_of ip in mkInterpretation (control_of ip) (mkEffects (eff_session x) (eff_internalQueue x) (eff_externalQueue x) (eff_pending x) (eff_sendSeq x) (eff_dispatchSeq x) (eff_pendingSeq x) (eff_now x) (eff_channels x) v (eff_logs x) (eff_cancelled x) (eff_started x)).
Definition set_logs (v : list (string * Value)) (ip : interpretation) : interpretation :=
  let x := effects_of ip in mkInterpretation (control_of ip) (mkEffects (eff_session x) (eff_internalQueue x) (eff_externalQueue x) (eff_pending x) (eff_sendSeq x) (eff_dispatchSeq x) (eff_pendingSeq x) (eff_now x) (eff_channels x) (eff_requests x) v (eff_cancelled x) (eff_started x)).
Definition set_cancelled (v : list Identifier) (ip : interpretation) : interpretation :=
  let x := effects_of ip in mkInterpretation (control_of ip) (mkEffects (eff_session x) (eff_internalQueue x) (eff_externalQueue x) (eff_pending x) (eff_sendSeq x) (eff_dispatchSeq x) (eff_pendingSeq x) (eff_now x) (eff_channels x) (eff_requests x) (eff_logs x) v (eff_started x)).
Definition set_started (v : list InvokeRequest) (ip : interpretation) : interpretation :=
  let x := effects_of ip in mkInterpretation (control_of ip) (mkEffects (eff_session x) (eff_internalQueue x) (eff_externalQueue x) (eff_pending x) (eff_sendSeq x) (eff_dispatchSeq x) (eff_pendingSeq x) (eff_now x) (eff_channels x) (eff_requests x) (eff_logs x) (eff_cancelled x) v).

Record SendOptions := mkSendOptions {
  so_SendID : Identifier;
  so_IDLocation : option CompiledExpression;
  so_Target : Identifier;
  so_Type : Identifier;
  so_Data : Value;
  so_Delay : Z
}.

Variable c : Chart.
Variable env : environment.

(** [newInterpretation] for a session in state [s] at time [t]. *)
Definition newInterpretation (s : Session) (t : Z) : interpretation :=
  mkInterpretation
    (mkControl ∅ ∅ false NullValue false zeroEvent false ∅ ∅ ∅ ∅ 0 None None)
    (mkEffects s [] [] ∅ 0 0 0 t ∅ [] [] [] []).

(** ** Queues *)

Definition enqueueInternal (ev : Event) (ip : interpretation) : interpretation :=
  set_internalQueue (internalQueue ip ++ [ev]) ip.
Definition enqueueExternal (ev : Event) (ip : interpretation) : interpretation :=
  set_externalQueue (externalQueue ip ++ [ev]) ip.

Definition enqueue (ev : Event) (ip : interpretation) : interpretation :=
  if decide (Type_ ev = EventExternal) then enqueueExternal ev ip else enqueueInternal ev ip.

Definition reportError (err : error) (ip : interpretation) : interpretation :=
  enqueueInternal (newEvent ErrEventExecution EventPlatform (PlatformErrorValue ErrEventExecution (Some err))) ip.

Definition reportCommError (err : error) (ip : interpretation) : interpretation :=
  enqueueInternal (newEvent ErrEventCommunication EventPlatform (PlatformErrorValue ErrEventCommunication (Some err))) ip.

Definition reportSendError (sendID : Identifier) (err : error) (ip : interpretation) : interpretation :=
  let name := if isSendExecution err then ErrEventExecution else ErrEventCommunication in
  enqueueInternal (mkEvent name EventPlatform (PlatformErrorValue name (Some err)) sendID "" "" "" "") ip.

(** ** Dispatch *)

Definition stampExternalEvent (ev : Event) : Event :=
  mkEvent (Name ev) EventExternal (Data ev) (SendID ev) ("#_scxml_" +:+ env_sessionID env)
    SCXMLEventProcessorAlias (InvokeID ev) (DeliveryID ev).

(** [ip.dispatchSeq++] on a [uint64]. *)
Definition nextDispatchSeq (ip : interpretation) : N := ((dispatchSeq ip + 1) mod 2 ^ 64)%N.

Definition dispatchToProcessor (sendID target typ : Identifier) (ev : Event) (ip : interpretation) : interpretation :=
  let n := nextDispatchSeq ip in
  let req := mkSendRequest (env_deliveryNamespace env +:+ ":" +:+ itoa n) sendID (SendID ev) target typ
               (Name ev) (Data ev) in
  let answer := env_ioSend env (requests ip) req in
  let ip := set_requests (requests ip ++ [req]) (set_dispatchSeq n ip) in
  match answer with
  | Some err => reportSendError sendID err ip
  | None => ip
  end.

Definition invokeIncomingBuffer : nat := 16.

(** The non-blocking [select { case ri.incoming <- ev: default: }]: [None] when
    the buffer is full. *)
Definition channelSend (id : Identifier) (ev : Event) (ip : interpretation) : option interpretation :=
  let queued := default [] (channels ip !! id) in
  if decide (length queued < invokeIncomingBuffer)
  then Some (set_channels (<[id := queued ++ [ev]]> (channels ip)) ip)
  else None.

Definition unknownIOProcessorError (typ : Identifier) : error :=
  mk_error ("statecharts: no IOProcessor registered for type " +:+ quote typ) true false.

Definition dispatchNow (sendID target typ : Identifier) (ev : Event) (ip : interpretation) : interpretation :=
  let typ := canonicalIOProcessorType typ in
  if env_processor env typ then
    if decide (typ ≠ SCXMLEventProcessor) then dispatchToProcessor sendID target typ ev ip
    else if decide (target = "#_internal") then
      enqueueInternal (mkEvent (Name ev) EventInternal (Data ev) (SendID ev) "" "" (InvokeID ev) (DeliveryID ev)) ip
    else if decide (target = "") then enqueueExternal (stampExternalEvent ev) ip
    else if decide (target = "#_scxml_" +:+ env_sessionID env) then enqueueExternal (stampExternalEvent ev) ip
    else if HasPrefix target "#_" then
      match invokesByID ip !! TrimPrefix target "#_" with
      | Some ri =>
          if ri_incoming ri then
            match channelSend (ri_id ri) (stampExternalEvent ev) ip with
            | Some ip => ip
            | None => reportSendError sendID
                        (Errorf ("statecharts: invoke " +:+ quote (ri_id ri) +:+ " cannot accept another event")) ip
            end
          else dispatchToProcessor sendID target typ ev ip
      | None => dispatchToProcessor sendID target typ ev ip
      end
    else dispatchToProcessor sendID target typ ev ip
  else reportSendError sendID (unknownIOProcessorError typ) ip.

(** ** Delayed sends *)

Definition doCancel (sendID : Identifier) (ip : interpretation) : interpretation :=
  if decide (sendID = "") then ip else
  set_pending (filter (λ '(_, rec), SendID (ps_event rec) ≠ sendID) (pending ip)) ip.

(** Arming a new record: [ip.pendingSeq++], the record and its timer. *)
Definition schedule (sendID target typ : Identifier) (ev : Event) (delay : Z) (ip : interpretation) : interpretation :=
  let n := S (pendingSeq ip) in
  let rec := mkPending sendID target typ ev (now ip + delay)%Z n true in
  set_pending (<[n := rec]> (pending ip)) (set_pendingSeq n ip).

(** [doSend] after the send ID has been settled: [sendID] is the execution ID
    and [eventSendID] the author-visible one. *)
Definition sendResolved (name : Identifier) (sendID eventSendID : Identifier) (opts : SendOptions)
    (ip : interpretation) : interpretation :=
  let typ := canonicalIOProcessorType (so_Type opts) in
  let ev := mkEvent name EventExternal (Clone (so_Data opts)) eventSendID "" "" "" "" in
  if decide (so_Delay opts <= 0)%Z then dispatchNow sendID (so_Target opts) typ ev ip
  else schedule sendID (so_Target opts) typ ev (so_Delay opts) ip.

(** The execution ID: the author's, or [send.<n>]. *)
Definition executionID (opts : SendOptions) (ip : interpretation) : Identifier * interpretation :=
  if decide (so_SendID opts = "") then
    let n := (sendSeq ip + 1)%N in ("send." +:+ itoa n, set_sendSeq n ip)
  else (so_SendID opts, ip).

(** [doSend] for options without an [IDLocation]. *)
Definition doSendPlain (name : Identifier) (opts : SendOptions) (ip : interpretation) : interpretation :=
  let '(sendID, ip) := executionID opts ip in
  sendResolved name sendID (so_SendID opts) opts ip.

Definition doLog (label : string) (data : Value) (ip : interpretation) : interpretation :=
  set_logs (logs ip ++ [(label, Clone data)]) ip.

(** ** Calls into the datamodel *)

Definition execContext (ip : interpretation) : ExecContext :=
  mkExecContext (lastEvent ip) (hasLastEvent ip) (env_sessionID env) (env_name env)
    (λ id, match c_byID c !! id with Some s => bool_decide (s ∈ configuration ip) | None => false end)
    false.

Definition finalizeExecContext (ip : interpretation) : ExecContext :=
  let ec := execContext ip in
  mkExecContext (ec_event ec) (ec_hasEvent ec) (ec_sessionID ec) (ec_name ec) (ec_active ec) true.

Definition forbidden (operation : string) : error :=
  Errorf ("statecharts: " +:+ operation +:+ " is not permitted in finalize").

Definition applyEffect (ec : ExecContext) (ip : interpretation) (e : effect) : interpretation :=
  match e with
  | EffRaise ev =>
      if ec_finalizing ec then reportError (forbidden "raise") ip else enqueueInternal (Raise ev) ip
  | EffSend name sendID target typ data delay =>
      if ec_finalizing ec then reportError (forbidden "send") ip
      else doSendPlain name (mkSendOptions sendID None target typ data delay) ip
  | EffCancel sendID =>
      if ec_finalizing ec then reportError (forbidden "cancel") ip else doCancel sendID ip
  | EffLog label data => doLog label data ip
  end.

(** One call of a session operation: its new state is stored, the calls it
    made on the context are applied in order, and a panic is recovered as an
    error ([defer recover()] in each of the [...Model] wrappers). *)
Definition callModel {A} (ec : ExecContext) (what : string)
    (f : Session → Session * list effect * outcome A) (ip : interpretation) : interpretation * result A :=
  let '(s, effs, out) := f (session ip) in
  let ip := foldl (applyEffect ec) (set_session s ip) effs in
  (ip, match out with
       | Returned a => Ok a
       | Failed e => Err e
       | Panicked m => Err (Errorf ("statecharts: datamodel " +:+ what +:+ " panicked: " +:+ m))
       end).

Definition evaluateModelBoolean (ec : ExecContext) (e : CompiledExpression) (ip : interpretation) :=
  callModel ec "boolean evaluation" (EvaluateBoolean ec e) ip.

Definition evaluateModelValue (ec : ExecContext) (e : CompiledExpression) (ip : interpretation)
    : interpretation * result Value :=
  let '(ip, r) := callModel ec "value evaluation" (EvaluateValue ec e) ip in (ip, Clone <$> r).

Definition assignModel (ec : ExecContext) (location : CompiledExpression) (v : Value) (ip : interpretation) :=
  callModel ec "assignment" (Assign ec location (Clone v)) ip.

Definition executeModel (ec : ExecContext) (e : CompiledExpression) (ip : interpretation) :=
  callModel ec "execution" (Execute ec e) ip.

Definition stringValue (s : string) : Value := orZero (StringValue s).

Definition assignIDLocation (location : CompiledExpression) (id : Identifier) (what : string)
    (ip : interpretation) : interpretation * option error :=
  let '(ip, r) := assignModel (execContext ip) location (stringValue id) ip in
  (ip, match r with Ok _ => None | Err e => Some (Wrapf ("statecharts: " +:+ what +:+ " idlocation: ") e) end).

(** [sendIDLocationError] marks its error as an execution error. *)
Definition sendIDLocationError (e : error) : error := mk_error (msg e) true (isHandlerUnavailable e).

Definition doSend (name : Identifier) (opts : SendOptions) (ip : interpretation) : interpretation :=
  match so_IDLocation opts with
  | None => doSendPlain name opts ip
  | Some location =>
      if decide (so_SendID opts ≠ "") then
        reportSendError (so_SendID opts)
          (sendIDLocationError (Errorf "statecharts: send id and idlocation are mutually exclusive")) ip
      else
        let '(sendID, ip) := executionID opts ip in
        let '(ip, err) := assignIDLocation location sendID "send" ip in
        match err with
        | Some e => reportSendError sendID (sendIDLocationError e) ip
        | None => sendResolved name sendID sendID opts ip
        end
  end.
End interp.
