(* ===== verification/Actions.v ===== *)
(** * Executable content and timers (interpreter.go, go_model.go)

    [act A] is a computation of the interpreter that may fail with a Go error.
    [executeOperation] interprets one compiled operation, [runActionsWithContext]
    one block: an error is reported as an [error.execution] event and skips the
    rest of its block only.  The second half fires and replays the timers of
    delayed sends.  The main fact about all of them is the frame
    [keeps_control]: executable content never touches the configuration, the
    history, the invocations or the running flag. *)

From S2P Require Import Prelude Identifier Values Events Datamodel Chart Interp.
From stdpp Require Import options.

Section actions.
Context `{DM : DatamodelSession}.

Definition act (A : Type) : Type := interpretation → interpretation * result A.

Definition act_ret {A} (a : A) : act A := λ ip, (ip, Ok a).
Definition act_fail {A} (e : error) : act A := λ ip, (ip, Err e).
Definition act_bind {A B} (m : act A) (f : A → act B) : act B := λ ip,
  let '(ip, r) := m ip in
  match r with Ok a => f a ip | Err e => (ip, Err e) end.
Definition act_do (f : interpretation → interpretation) : act unit := λ ip, (f ip, Ok ()).
Definition act_lift {A} (r : result A) : act A := λ ip, (ip, r).

End actions.

Notation "x ←ₐ m ; k" := (act_bind m (λ x, k)) (at level 100, m at next level, k at level 200, right associativity).

Section execute.
Context `{DM : DatamodelSession}.
Variable c : Chart.
Variable env : environment.

Definition valueString (v : Value) (field : string) : result string :=
  match AsString v with
  | Some s => Ok s
  | None => Err (Errorf ("statecharts: " +:+ field +:+ " expression returned " +:+ kind_text (Kind v) +:+ ", want string"))
  end.

Definition evalString (ec : ExecContext) (h : option CompiledExpression) (fallback field : string) : act string :=
  match h with
  | None => act_ret fallback
  | Some h => v ←ₐ evaluateModelValue env ec h; act_lift (valueString v field)
  end.

(** [m[name] = v] on a Go map kept as an association list. *)
Fixpoint map_set (name : string) (v : Value) (m : list (string * Value)) : list (string * Value) :=
  match m with
  | [] => [(name, v)]
  | (k, w) :: m => if decide (k = name) then (k, v) :: m else (k, w) :: map_set name v m
  end.

Fixpoint evaluateParams (ec : ExecContext) (params : list compiledParam) (m : list (string * Value)) : act Value :=
  match params with
  | [] => act_lift (MapValue m)
  | x :: params =>
      v ←ₐ evaluateModelValue env ec (param_expression x);
      evaluateParams ec params (map_set (param_name x) v m)
  end.

Definition evaluatePayload (ec : ExecContext) (p : compiledPayload) : act Value :=
  match pl_content p, pl_params p with
  | Some content, _ => evaluateModelValue env ec content
  | None, [] => act_ret NullValue
  | None, params => evaluateParams ec params []
  end.

(** [if o.expressions[i] != nil { d, e = evaluateModelValue(...) }]. *)
Definition evaluateOptional (ec : ExecContext) (e : option CompiledExpression) : act Value :=
  match e with Some e => evaluateModelValue env ec e | None => act_ret NullValue end.

(** ** Blocks *)

Section blocks.
Variable executeOperation : compiledOperation → act unit.

(** The loop of [runActionsWithContext]: the first error is reported and ends
    the block. *)
Fixpoint runBlock (actions : list compiledOperation) (ip : interpretation) : interpretation :=
  match actions with
  | [] => ip
  | a :: actions =>
      let '(ip, r) := executeOperation a ip in
      match r with
      | Err e => reportError e ip
      | Ok _ => runBlock actions ip
      end
  end.

Fixpoint runNestedBlocks (blocks : list (list compiledOperation)) (ip : interpretation) : interpretation :=
  match blocks with
  | [] => ip
  | block :: blocks => runNestedBlocks blocks (runBlock block ip)
  end.

(** The [ExecutableChoose] case: the first true condition selects its blocks. *)
Section choose.
Variable ec : ExecContext.
Variable otherwise : list (list compiledOperation).

Fixpoint chooseBranch (branches : list (CompiledExpression * list (list compiledOperation))) : act unit :=
  match branches with
  | [] => act_do (runNestedBlocks otherwise)
  | (h, blocks) :: branches =>
      ok ←ₐ evaluateModelBoolean env ec h;
      if (ok : bool) then act_do (runNestedBlocks blocks) else chooseBranch branches
  end.
End choose.

(** The loop of [goSession.ForEach] over the list the array evaluated to. *)
Section iterate.
Variable ec : ExecContext.
Variable b : IterationBindings.
Variable body : list (list compiledOperation).

Fixpoint forEachItems (i : Z) (items : list Value) : act unit :=
  match items with
  | [] => act_ret ()
  | item :: items =>
      _ ←ₐ callModel env ec "iteration" (Assign ec (bind_Item b) item);
      _ ←ₐ match bind_Index b with
           | Some index => callModel env ec "iteration" (Assign ec index (default NullValue (Int64Value i)))
           | None => act_ret ()
           end;
      _ ←ₐ act_do (runNestedBlocks body);
      forEachItems (i + 1)%Z items
  end.
End iterate.

Definition forEachModel (ec : ExecContext) (e : CompiledExpression) (b : IterationBindings)
    (body : list (list compiledOperation)) : act unit :=
  v ←ₐ callModel env ec "iteration" (EvaluateValue ec e);
  match AsList v with
  | None => act_fail (Errorf ("statecharts: foreach array is " +:+ kind_text (Kind v) +:+ ", want list"))
  | Some items => forEachItems ec b body 0 items
  end.

End blocks.

Definition executeSend (ec : ExecContext) (event target typ id : string)
    (eventExpr targetExpr typeExpr idLocation delayExpr : option CompiledExpression)
    (payload : compiledPayload) (delay : Z) : act unit :=
  n ←ₐ evalString ec eventExpr event "send event";
  target ←ₐ evalString ec targetExpr target "send target";
  typ ←ₐ evalString ec typeExpr typ "send type";
  delay ←ₐ match delayExpr with
           | Some _ => s ←ₐ evalString ec delayExpr "" "send delay"; act_lift (env_parseDuration env s)
           | None => act_ret delay
           end;
  data ←ₐ evaluatePayload ec payload;
  act_do (doSend c env n (mkSendOptions id idLocation target typ data delay)).

Fixpoint executeOperation (ec : ExecContext) (o : compiledOperation) {struct o} : act unit :=
  match o with
  | OpScript e | OpCall e => executeModel env ec e
  | OpAssign location expr => v ←ₐ evaluateModelValue env ec expr; assignModel env ec location v
  | OpRaise event eventExpr data =>
      n ←ₐ evalString ec eventExpr event "raise event";
      d ←ₐ evaluateOptional ec data;
      act_do (enqueueInternal (newEvent n EventInternal d))
  | OpCancel sendID sendIDExpr =>
      n ←ₐ evalString ec sendIDExpr sendID "cancel send ID";
      act_do (doCancel n)
  | OpLog label labelExpr expr =>
      l ←ₐ evalString ec labelExpr label "log label";
      d ←ₐ evaluateOptional ec expr;
      act_do (doLog l d)
  | OpChoose branches otherwise => chooseBranch (executeOperation ec) ec otherwise branches
  | OpForEach array bindings body => forEachModel (executeOperation ec) ec array bindings body
  | OpSend event target typ id eventExpr targetExpr typeExpr idLocation delayExpr payload delay =>
      executeSend ec event target typ id eventExpr targetExpr typeExpr idLocation delayExpr payload delay
  end.

Definition runActionsWithContext (actions : actionBlock) (ec : ExecContext) (ip : interpretation) : interpretation :=
  runBlock (executeOperation ec) actions ip.

Definition runActions (actions : actionBlock) (ip : interpretation) : interpretation :=
  runActionsWithContext actions (execContext c env ip) ip.

Definition runNested (ec : ExecContext) (blocks : list actionBlock) (ip : interpretation) : interpretation :=
  runNestedBlocks (executeOperation ec) blocks ip.

Definition runActionBlocks (blocks : list actionBlock) (ip : interpretation) : interpretation :=
  foldl (λ ip block, runActions block ip) ip blocks.

Definition runFinalizeBlocks (blocks : list actionBlock) (ip : interpretation) : interpretation :=
  let ec := finalizeExecContext c env ip in
  foldl (λ ip block, runActionsWithContext block ec ip) ip blocks.

(** ** Data initialisation and done data *)

Definition initializeDatum (ec : ExecContext) (ip : interpretation) (d : compiledData) : interpretation :=
  let '(ip, r) := (v ←ₐ evaluateOptional ec (data_initializer d); assignModel env ec (data_location d) v) ip in
  match r with Ok _ => ip | Err e => reportError e ip end.

Definition initializeData (ds : list compiledData) (ip : interpretation) : interpretation :=
  let ec := execContext c env ip in
  foldl (initializeDatum ec) ip ds.

Definition evaluateStateDone (payload : option compiledPayload) (ip : interpretation) : interpretation * Value :=
  match payload with
  | Some p =>
      let '(ip, r) := evaluatePayload (execContext c env ip) p ip in
      match r with
      | Ok v => (ip, v)
      | Err e => (reportError e ip, NullValue)
      end
  | None => (ip, NullValue)
  end.

(** [activeStates]: the configuration's IDs in document order. *)
Definition activeStates (ip : interpretation) : list Identifier :=
  omap (λ s, if decide (s ∈ configuration ip) then st_id <$> state_of c s else None) (seq 0 (length (c_order c))).

(** ** Timers of delayed sends *)

Definition fireTimer (order : nat) (ip : interpretation) : interpretation :=
  match pending ip !! order with
  | None => ip
  | Some rec =>
      dispatchNow env (ps_sendID rec) (ps_target rec) (ps_typ rec) (ps_event rec)
        (set_pending (delete order (pending ip)) ip)
  end.

Definition handleTimerFire (order : nat) (ip : interpretation) : interpretation :=
  match pending ip !! order with
  | None => ip
  | Some rec =>
      match env_timerFiredHook env with
      | Some hook =>
          match hook (ps_sendID rec) (ps_target rec) (ps_typ rec) (ps_event rec) with
          | Some err => set_running false (set_hookErr (Some err) ip)
          | None => fireTimer order ip
          end
      | None => fireTimer order ip
      end
  end.

(** [sort.Slice] by deadline and then creation order, followed by [matches[0]]. *)
Definition earlier (r r' : pendingSendRecord) : bool :=
  bool_decide (ps_fireAt r < ps_fireAt r')%Z
  || (bool_decide (ps_fireAt r = ps_fireAt r') && bool_decide (ps_order r < ps_order r')).

Definition earliest (recs : list pendingSendRecord) : option pendingSendRecord :=
  foldr (λ r best, match best with
                   | None => Some r
                   | Some b => if earlier b r then Some b else Some r
                   end) None recs.

Definition exactMatch (target typ name : Identifier) (rec : pendingSendRecord) : bool :=
  bool_decide (ps_target rec = target) && bool_decide (ps_typ rec = typ)
  && bool_decide (Name (ps_event rec) = name).

(** The record a durable timer-fired entry consumes. *)
Definition timerMatch (sendID target typ : Identifier) (ev : Event) (ip : interpretation) : option pendingSendRecord :=
  let candidates := filter (λ rec, ps_sendID rec = sendID) ((map_to_list (pending ip)).*2) in
  let exact := filter (λ rec, exactMatch target typ (Name ev) rec = true) candidates in
  match exact with
  | [] => earliest candidates
  | _ => earliest exact
  end.

Definition replayTimerFire (sendID target typ : Identifier) (ev : Event) (ip : interpretation) : interpretation * bool :=
  match timerMatch sendID target typ ev ip with
  | None => (ip, false)
  | Some rec =>
      (dispatchNow env sendID target typ ev (set_pending (delete (ps_order rec) (pending ip)) ip), true)
  end.

End execute.

(** ** Frames: executable content leaves [control_of] alone *)

Section frames.
Context `{DM : DatamodelSession}.
Variable c : Chart.
Variable env : environment.

Definition keeps_control (f : interpretation → interpretation) : Prop :=
  ∀ ip, control_of (f ip) = control_of ip.
Definition act_keeps {A} (m : act A) : Prop := ∀ ip, control_of (m ip).1 = control_of ip.

Lemma act_keeps_ret {A} (a : A) : act_keeps (act_ret a).
Proof. done. Qed.
Lemma act_keeps_fail {A} e : act_keeps (act_fail (A:=A) e).
Proof. done. Qed.
Lemma act_keeps_lift {A} (r : result A) : act_keeps (act_lift r).
Proof. done. Qed.
Lemma act_keeps_do f : keeps_control f → act_keeps (act_do f).
Proof. intros H ip. apply H. Qed.
Lemma act_keeps_bind {A B} (m : act A) (f : A → act B) :
  act_keeps m → (∀ a, act_keeps (f a)) → act_keeps (act_bind m f).
Proof.
  intros Hm Hf ip. unfold act_bind. specialize (Hm ip). destruct (m ip) as [ip' [a|e]]; simpl in *; [|done].
  by rewrite Hf.
Qed.
Lemma keeps_control_foldl {A} (f : interpretation → A → interpretation) (xs : list A) :
  (∀ a, keeps_control (λ ip, f ip a)) → keeps_control (λ ip, foldl f ip xs).
Proof.
  intros Hf. induction xs as [|x xs IH]; intros ip; [done|]. simpl. rewrite IH. apply Hf.
Qed.

Lemma reportError_keeps e : keeps_control (reportError e).
Proof. done. Qed.

Lemma dispatchToProcessor_keeps s t y ev : keeps_control (dispatchToProcessor env s t y ev).
Proof. intros ip. unfold dispatchToProcessor. by destruct (env_ioSend _ _ _). Qed.

Lemma dispatchNow_keeps s t y ev : keeps_control (dispatchNow env s t y ev).
Proof.
  intros ip. unfold dispatchNow, channelSend.
  repeat (case_match || case_decide); simplify_eq; (done || apply dispatchToProcessor_keeps).
Qed.

Lemma doCancel_keeps s : keeps_control (doCancel s).
Proof. intros ip. unfold doCancel. by case_decide. Qed.

Lemma sendResolved_keeps n s s' o : keeps_control (sendResolved env n s s' o).
Proof. intros ip. unfold sendResolved. case_decide; [apply dispatchNow_keeps | done]. Qed.

Lemma doSendPlain_keeps n o : keeps_control (doSendPlain env n o).
Proof. intros ip. unfold doSendPlain, executionID. case_decide; by rewrite sendResolved_keeps. Qed.

Lemma applyEffect_keeps ec e : keeps_control (λ ip, applyEffect env ec ip e).
Proof.
  intros ip. destruct e; simpl; [..|done]; case_match; (done || apply doSendPlain_keeps || apply doCancel_keeps).
Qed.

Lemma callModel_keeps {A} ec what (f : Session → Session * list effect * outcome A) :
  act_keeps (callModel env ec what f).
Proof.
  intros ip. unfold callModel. destruct (f (session ip)) as [[s effs] out]. simpl.
  by rewrite (keeps_control_foldl _ effs (applyEffect_keeps ec)).
Qed.

Lemma evaluateModelValue_keeps ec e : act_keeps (evaluateModelValue env ec e).
Proof.
  intros ip. unfold evaluateModelValue.
  pose proof (callModel_keeps ec "value evaluation" (EvaluateValue ec e) ip) as H.
  by destruct (callModel _ _ _ _ _).
Qed.

Hint Resolve act_keeps_ret act_keeps_fail act_keeps_lift act_keeps_do act_keeps_bind reportError_keeps
  doCancel_keeps callModel_keeps evaluateModelValue_keeps : frame.

Lemma assignIDLocation_keeps l i w ip : control_of (assignIDLocation c env l i w ip).1 = control_of ip.
Proof.
  unfold assignIDLocation, assignModel.
  match goal with |- context [callModel env ?ec ?n ?f ip] => pose proof (callModel_keeps ec n f ip) as H end.
  by destruct (callModel _ _ _ _ _).
Qed.

Lemma executionID_keeps o ip : control_of (executionID o ip).2 = control_of ip.
Proof. unfold executionID. by case_decide. Qed.

Lemma doSend_keeps n o : keeps_control (doSend c env n o).
Proof.
  intros ip. unfold doSend. destruct (so_IDLocation o) as [l|]; [|apply doSendPlain_keeps].
  case_decide; [done|].
  pose proof (executionID_keeps o ip) as H1. destruct (executionID o ip) as [s ip1].
  pose proof (assignIDLocation_keeps l s "send" ip1) as H2.
  destruct (assignIDLocation _ _ _ _ _ _) as [ip2 [e|]]; simpl in *.
  - by rewrite <- H1, <- H2.
  - by rewrite sendResolved_keeps, H2.
Qed.

Lemma evalString_keeps ec h f n : act_keeps (evalString env ec h f n).
Proof. destruct h; simpl; auto with frame. Qed.

Lemma evaluateParams_keeps ec ps m : act_keeps (evaluateParams env ec ps m).
Proof. revert m. induction ps; intros m; simpl; auto with frame. Qed.

Lemma evaluatePayload_keeps ec p : act_keeps (evaluatePayload env ec p).
Proof. unfold evaluatePayload. repeat case_match; auto using evaluateParams_keeps with frame. Qed.

Lemma evaluateOptional_keeps ec e : act_keeps (evaluateOptional env ec e).
Proof. destruct e; simpl; auto with frame. Qed.

Hint Resolve doSend_keeps evalString_keeps evaluatePayload_keeps evaluateOptional_keeps : frame.

Lemma executeSend_keeps ec e t y i ee te ye il de p d :
  act_keeps (executeSend c env ec e t y i ee te ye il de p d).
Proof. unfold executeSend. destruct de; auto 12 with frame. Qed.

(** Induction over operations nested in blocks. *)
Section operation_ind.
Variable P : compiledOperation → Prop.
Hypothesis Hleaf : ∀ o, match o with OpChoose _ _ | OpForEach _ _ _ => False | _ => True end → P o.
Hypothesis Hchoose : ∀ branches otherwise,
  Forall (λ b, Forall (Forall P) (snd b)) branches → Forall (Forall P) otherwise → P (OpChoose branches otherwise).
Hypothesis Hforeach : ∀ a b body, Forall (Forall P) body → P (OpForEach a b body).

Fixpoint operation_nested_ind (o : compiledOperation) : P o.
Proof using Hleaf Hchoose Hforeach.
  assert (∀ l : list (list compiledOperation), Forall (Forall P) l) as Hblocks.
  { induction l as [|b l IH]; constructor; [|exact IH].
    clear IH. induction b as [|x b IHb]; constructor; [apply operation_nested_ind | exact IHb]. }
  destruct o; try (by apply Hleaf).
  - apply Hchoose; [|apply Hblocks]. induction branches as [|x bs IH]; constructor; [apply Hblocks | exact IH].
  - apply Hforeach, Hblocks.
Defined.
End operation_ind.

Section block_frames.
Variable exec : compiledOperation → act unit.

Lemma runBlock_keeps block : Forall (λ o, act_keeps (exec o)) block → keeps_control (runBlock exec block).
Proof.
  induction 1 as [|o block Ho _ IH]; intros ip; [done|]. simpl.
  specialize (Ho ip). destruct (exec o ip) as [ip' [u|e]]; simpl in *; [by rewrite IH | done].
Qed.

Lemma runNestedBlocks_keeps blocks :
  Forall (Forall (λ o, act_keeps (exec o))) blocks → keeps_control (runNestedBlocks exec blocks).
Proof.
  induction 1 as [|b blocks Hb _ IH]; intros ip; [done|]. simpl. by rewrite IH, runBlock_keeps.
Qed.

Lemma chooseBranch_keeps ec otherwise branches :
  Forall (λ b, Forall (Forall (λ o, act_keeps (exec o))) (snd b)) branches →
  Forall (Forall (λ o, act_keeps (exec o))) otherwise →
  act_keeps (chooseBranch env exec ec otherwise branches).
Proof.
  intros Hb Ho. induction Hb as [|[h blocks] branches Hh _ IH]; simpl.
  - by apply act_keeps_do, runNestedBlocks_keeps.
  - apply act_keeps_bind; [apply callModel_keeps|]. intros []; [|done].
    by apply act_keeps_do, runNestedBlocks_keeps.
Qed.

Lemma forEachItems_keeps ec b body i items :
  Forall (Forall (λ o, act_keeps (exec o))) body → act_keeps (forEachItems env exec ec b body i items).
Proof.
  intros Hb. revert i. induction items as [|x items IH]; intros i; simpl; [auto with frame|].
  destruct (bind_Index b); auto 8 using runNestedBlocks_keeps with frame.
Qed.
End block_frames.

Lemma executeOperation_keeps ec o : act_keeps (executeOperation c env ec o).
Proof.
  induction o as [o Hleaf | branches otherwise Hb Ho | a b body Hb] using operation_nested_ind; simpl.
  - destruct o; try done; simpl; unfold executeModel, assignModel; auto using executeSend_keeps with frame.
    + apply act_keeps_bind; [auto with frame|]. intros n. apply act_keeps_bind; [auto with frame|].
      intros d. by apply act_keeps_do.
    + apply act_keeps_bind; [auto with frame|]. intros n. apply act_keeps_bind; [auto with frame|].
      intros d. by apply act_keeps_do.
  - by apply chooseBranch_keeps.
  - unfold forEachModel. apply act_keeps_bind; [auto with frame|]. intros v.
    destruct (AsList v); auto using forEachItems_keeps with frame.
Qed.

Lemma runActionsWithContext_keeps block ec : keeps_control (runActionsWithContext c env block ec).
Proof. apply runBlock_keeps, Forall_forall. intros o _. apply executeOperation_keeps. Qed.

Lemma runActions_keeps block : keeps_control (runActions c env block).
Proof. intros ip. apply runActionsWithContext_keeps. Qed.

Lemma runActionBlocks_keeps blocks : keeps_control (runActionBlocks c env blocks).
Proof. apply keeps_control_foldl. intros b. apply runActions_keeps. Qed.

Lemma runFinalizeBlocks_keeps blocks : keeps_control (runFinalizeBlocks c env blocks).
Proof. intros ip. unfold runFinalizeBlocks. apply keeps_control_foldl. intros b ip'. apply runActionsWithContext_keeps. Qed.

Lemma initializeDatum_keeps ec d : keeps_control (λ ip, initializeDatum env ec ip d).
Proof.
  intros ip. unfold initializeDatum.
  assert (act_keeps (v ←ₐ evaluateOptional env ec (data_initializer d); assignModel env ec (data_location d) v)) as H.
  { apply act_keeps_bind; [auto with frame|]. intros v. apply callModel_keeps. }
  specialize (H ip). destruct (act_bind _ _ ip) as [ip' [u|e]]; done.
Qed.

Lemma initializeData_keeps ds : keeps_control (initializeData c env ds).
Proof. intros ip. unfold initializeData. apply keeps_control_foldl. intros d ip'. apply initializeDatum_keeps. Qed.

Lemma evaluateStateDone_keeps p ip : control_of (evaluateStateDone c env p ip).1 = control_of ip.
Proof.
  unfold evaluateStateDone. destruct p as [p|]; [|done].
  pose proof (evaluatePayload_keeps (execContext c env ip) p ip) as H.
  by destruct (evaluatePayload _ _ _ _) as [ip' [v|e]].
Qed.

Lemma fireTimer_keeps n : keeps_control (fireTimer env n).
Proof. intros ip. unfold fireTimer. case_match; [by rewrite dispatchNow_keeps | done]. Qed.

End frames.

#[export] Hint Resolve reportError_keeps dispatchNow_keeps doCancel_keeps doSend_keeps evalString_keeps
  evaluatePayload_keeps executeOperation_keeps runActions_keeps runActionBlocks_keeps runFinalizeBlocks_keeps
  initializeData_keeps fireTimer_keeps callModel_keeps evaluateModelValue_keeps : frame.
