(* ===== verification/Effects.v ===== *)
(** * The effects of executable content

    Everything executable content does to the interpreter is a sequence of
    primitive effects ([prim]): the datamodel session moves on, an event is
    appended to a queue, a request goes to a processor, a delayed send is
    scheduled or cancelled, something is logged, an error is reported.  In a
    [<finalize>] context ([fin = true]) only the session, the log and error
    reports remain.  Invariants of the interpreter that concern the effects are
    proved once per primitive. *)

From S2P Require Import Prelude Identifier Values Events Datamodel Chart Interp Actions.
From stdpp Require Import options.

Section effects.
Context `{DM : DatamodelSession}.
Variable c : Chart.
Variable env : environment.

Inductive prim (fin : bool) : interpretation → interpretation → Prop :=
| prim_session s ip : prim fin ip (set_session s ip)
| prim_error e ip : prim fin ip (reportError e ip)
| prim_log label v ip : prim fin ip (doLog label v ip)
| prim_internal ev ip : fin = false → prim fin ip (enqueueInternal ev ip)
| prim_external ev ip : fin = false → prim fin ip (enqueueExternal ev ip)
| prim_request req ip : fin = false →
    sr_DeliveryID req = env_deliveryNamespace env +:+ ":" +:+ itoa (nextDispatchSeq ip) →
    prim fin ip (set_requests (requests ip ++ [req]) (set_dispatchSeq (nextDispatchSeq ip) ip))
| prim_channel id ev ip ip' : fin = false → channelSend id ev ip = Some ip' → prim fin ip ip'
| prim_sendSeq ip : fin = false → prim fin ip (set_sendSeq (sendSeq ip + 1) ip)
| prim_schedule sendID target typ ev delay ip :
    fin = false → (0 < delay)%Z → prim fin ip (schedule sendID target typ ev delay ip)
| prim_cancel sendID ip : fin = false → prim fin ip (doCancel sendID ip).

Definition emits (fin : bool) : interpretation → interpretation → Prop := rtc (prim fin).

Definition fun_emits (fin : bool) (f : interpretation → interpretation) : Prop := ∀ ip, emits fin ip (f ip).
Definition act_emits {A} (fin : bool) (m : act A) : Prop := ∀ ip, emits fin ip (m ip).1.

Lemma emits_one fin ip ip' : prim fin ip ip' → emits fin ip ip'.
Proof. apply rtc_once. Qed.

Lemma act_emits_ret {A} fin (a : A) : act_emits fin (act_ret a).
Proof. intros ip. apply rtc_refl. Qed.
Lemma act_emits_fail {A} fin e : act_emits fin (act_fail (A:=A) e).
Proof. intros ip. apply rtc_refl. Qed.
Lemma act_emits_lift {A} fin (r : result A) : act_emits fin (act_lift r).
Proof. intros ip. apply rtc_refl. Qed.
Lemma act_emits_do fin f : fun_emits fin f → act_emits fin (act_do f).
Proof. intros H ip. apply H. Qed.
Lemma act_emits_bind {A B} fin (m : act A) (f : A → act B) :
  act_emits fin m → (∀ a, act_emits fin (f a)) → act_emits fin (act_bind m f).
Proof.
  intros Hm Hf ip. unfold act_bind. specialize (Hm ip). destruct (m ip) as [ip' [a|e]]; simpl in *; [|done].
  etrans; [exact Hm | apply Hf].
Qed.

Lemma emits_foldl {A} fin (f : interpretation → A → interpretation) xs :
  (∀ a, fun_emits fin (λ ip, f ip a)) → fun_emits fin (λ ip, foldl f ip xs).
Proof.
  intros Hf. induction xs as [|x xs IH]; intros ip; simpl; [apply rtc_refl|]. etrans; [apply Hf | apply IH].
Qed.

(** ** Sends *)

Lemma emits_reportSendError id e : fun_emits false (reportSendError id e).
Proof. intros ip. by apply emits_one, prim_internal. Qed.

Lemma emits_dispatchToProcessor s t y ev : fun_emits false (dispatchToProcessor env s t y ev).
Proof.
  intros ip. unfold dispatchToProcessor.
  match goal with |- context [set_requests (requests ip ++ [?r]) _] => pose proof (prim_request false r ip eq_refl eq_refl) as H end.
  destruct (env_ioSend _ _ _); [|by apply emits_one]. eapply rtc_l; [exact H|]. apply emits_reportSendError.
Qed.

Lemma emits_dispatchNow s t y ev : fun_emits false (dispatchNow env s t y ev).
Proof.
  intros ip. unfold dispatchNow.
  destruct (env_processor env _); [|apply emits_reportSendError].
  case_decide; [apply emits_dispatchToProcessor|].
  case_decide; [by apply emits_one, prim_internal|].
  case_decide; [by apply emits_one, prim_external|].
  case_decide; [by apply emits_one, prim_external|].
  destruct (HasPrefix t "#_"); [|apply emits_dispatchToProcessor].
  destruct (invokesByID ip !! _) as [ri|]; [|apply emits_dispatchToProcessor].
  destruct (ri_incoming ri); [|apply emits_dispatchToProcessor].
  destruct (channelSend _ _ ip) as [ip'|] eqn:E; [|apply emits_reportSendError].
  by eapply emits_one, prim_channel.
Qed.

Lemma emits_sendResolved n s s' o : fun_emits false (sendResolved env n s s' o).
Proof.
  intros ip. unfold sendResolved. case_decide; [apply emits_dispatchNow|].
  apply emits_one, prim_schedule; [done | lia].
Qed.

Lemma emits_executionID o ip : emits false ip (executionID o ip).2.
Proof. unfold executionID. case_decide; [by apply emits_one, prim_sendSeq | apply rtc_refl]. Qed.

Lemma emits_doSendPlain n o : fun_emits false (doSendPlain env n o).
Proof.
  intros ip. unfold doSendPlain. pose proof (emits_executionID o ip) as H.
  destruct (executionID o ip) as [sendID ip1]. etrans; [exact H | apply emits_sendResolved].
Qed.

(** ** Calls into the datamodel *)

(** A context that grants no more than [fin] allows. *)
Definition grants (fin : bool) (ec : ExecContext) : Prop := fin = true → ec_finalizing ec = true.

Lemma emits_applyEffect fin ec e : grants fin ec → fun_emits fin (λ ip, applyEffect env ec ip e).
Proof.
  intros Hg ip. destruct e as [ev|name sendID target typ data delay|sendID|label data]; simpl;
    [..|apply emits_one, prim_log];
    (destruct (ec_finalizing ec) eqn:E; [apply emits_one, prim_error|]);
    (destruct fin; [by rewrite Hg in E|]).
  - by apply emits_one, prim_internal.
  - apply emits_doSendPlain.
  - by apply emits_one, prim_cancel.
Qed.

Lemma emits_callModel {A} fin ec what (f : Session → Session * list effect * outcome A) :
  grants fin ec → act_emits fin (callModel env ec what f).
Proof.
  intros Hg ip. unfold callModel. destruct (f (session ip)) as [[s effs] out]. simpl.
  eapply rtc_l; [apply prim_session|].
  apply (emits_foldl fin (applyEffect env ec) effs). intros e. by apply emits_applyEffect.
Qed.

Lemma emits_evaluateModelValue fin ec e : grants fin ec → act_emits fin (evaluateModelValue env ec e).
Proof.
  intros Hg ip. unfold evaluateModelValue.
  pose proof (emits_callModel fin ec "value evaluation" (EvaluateValue ec e) Hg ip) as H.
  by destruct (callModel _ _ _ _ _).
Qed.

Hint Resolve act_emits_ret act_emits_fail act_emits_lift act_emits_do act_emits_bind emits_callModel
  emits_evaluateModelValue : effects.

Lemma emits_evalString fin ec h f n : grants fin ec → act_emits fin (evalString env ec h f n).
Proof. intros. destruct h; simpl; auto with effects. Qed.

Lemma emits_evaluateParams fin ec ps m : grants fin ec → act_emits fin (evaluateParams env ec ps m).
Proof. intros. revert m. induction ps; intros m; simpl; auto with effects. Qed.

Lemma emits_evaluatePayload fin ec p : grants fin ec → act_emits fin (evaluatePayload env ec p).
Proof. intros. unfold evaluatePayload. repeat case_match; auto using emits_evaluateParams with effects. Qed.

Lemma emits_evaluateOptional fin ec e : grants fin ec → act_emits fin (evaluateOptional env ec e).
Proof. intros. destruct e; simpl; auto with effects. Qed.

Lemma emits_doSend n o : fun_emits false (doSend c env n o).
Proof.
  intros ip. unfold doSend. destruct (so_IDLocation o) as [l|]; [|apply emits_doSendPlain].
  case_decide; [apply emits_reportSendError|].
  pose proof (emits_executionID o ip) as H1. destruct (executionID o ip) as [s ip1]. etrans; [exact H1|]. simpl.
  unfold assignIDLocation, assignModel.
  pose proof (emits_callModel false (execContext c env ip1) "assignment"
    (Assign (execContext c env ip1) l (Clone (stringValue s)))) as H2.
  specialize (H2 ltac:(done) ip1). destruct (callModel _ _ _ _ ip1) as [ip2 r]. etrans; [exact H2|]. simpl.
  destruct r as [u|e]; [apply emits_sendResolved | apply emits_reportSendError].
Qed.

Hint Resolve emits_evalString emits_evaluatePayload emits_evaluateOptional emits_doSend : effects.

Lemma emits_executeSend ec e t y i ee te ye il de p d :
  act_emits false (executeSend c env ec e t y i ee te ye il de p d).
Proof. unfold executeSend. assert (grants false ec) by done. destruct de; auto 14 with effects. Qed.

(** ** Operations *)

(** The content the validator admits inside [<finalize>]. *)
Fixpoint finalizable (o : compiledOperation) : bool :=
  match o with
  | OpRaise _ _ _ | OpCancel _ _ | OpSend _ _ _ _ _ _ _ _ _ _ _ => false
  | OpChoose branches otherwise =>
      forallb (λ b, forallb (forallb finalizable) (snd b)) branches && forallb (forallb finalizable) otherwise
  | OpForEach _ _ body => forallb (forallb finalizable) body
  | _ => true
  end.

Section blocks.
Variable fin : bool.
Variable exec : compiledOperation → act unit.

Lemma emits_runBlock block : Forall (λ o, act_emits fin (exec o)) block → fun_emits fin (runBlock exec block).
Proof.
  induction 1 as [|o block Ho _ IH]; intros ip; simpl; [apply rtc_refl|].
  specialize (Ho ip). destruct (exec o ip) as [ip' [u|e]]; simpl in *; (etrans; [exact Ho|]); [apply IH|].
  apply emits_one, prim_error.
Qed.

Lemma emits_runNestedBlocks blocks :
  Forall (Forall (λ o, act_emits fin (exec o))) blocks → fun_emits fin (runNestedBlocks exec blocks).
Proof.
  induction 1 as [|b blocks Hb _ IH]; intros ip; simpl; [apply rtc_refl|].
  etrans; [by apply emits_runBlock | apply IH].
Qed.

Lemma emits_chooseBranch ec otherwise branches :
  grants fin ec →
  Forall (λ b, Forall (Forall (λ o, act_emits fin (exec o))) (snd b)) branches →
  Forall (Forall (λ o, act_emits fin (exec o))) otherwise →
  act_emits fin (chooseBranch env exec ec otherwise branches).
Proof.
  intros Hg Hb Ho. induction Hb as [|[h blocks] branches Hh _ IH]; simpl.
  - by apply act_emits_do, emits_runNestedBlocks.
  - apply act_emits_bind; [by apply emits_callModel|]. intros []; [|done].
    by apply act_emits_do, emits_runNestedBlocks.
Qed.

Lemma emits_forEachItems ec b body i items :
  grants fin ec →
  Forall (Forall (λ o, act_emits fin (exec o))) body → act_emits fin (forEachItems env exec ec b body i items).
Proof.
  intros Hg Hb. revert i. induction items as [|x items IH]; intros i; simpl; [auto with effects|].
  destruct (bind_Index b); auto 8 using emits_runNestedBlocks with effects.
Qed.
End blocks.

Lemma Forall_forallb_2 {A} (f : A → bool) (P : A → Prop) (l : list (list A)) :
  Forall (Forall (λ x, f x = true → P x)) l → forallb (forallb f) l = true → Forall (Forall P) l.
Proof.
  induction 1 as [|x l Hx _ IH]; simpl; [by constructor|]. intros [H1 H2]%andb_true_iff.
  constructor; [|by apply IH]. clear -Hx H1. induction Hx as [|y l Hy _ IH]; [constructor|].
  apply andb_true_iff in H1 as [H1 H1']. constructor; auto.
Qed.

Lemma emits_executeOperation fin ec o :
  grants fin ec → (fin = true → finalizable o = true) → act_emits fin (executeOperation c env ec o).
Proof.
  intros Hg. induction o as [o Hleaf | branches otherwise Hb Ho | a b body Hb] using operation_nested_ind; intros Hf; simpl.
  - destruct o; try done; simpl; unfold executeModel, assignModel; auto with effects;
      try (destruct fin; [by specialize (Hf eq_refl)|]); auto using emits_executeSend with effects.
    + apply act_emits_bind; [auto with effects|]. intros n. apply act_emits_bind; [auto with effects|].
      intros d. apply act_emits_do. intros ip. by apply emits_one, prim_internal.
    + apply act_emits_bind; [auto with effects|]. intros n. apply act_emits_do. intros ip. by apply emits_one, prim_cancel.
    + apply act_emits_bind; [auto with effects|]. intros n. apply act_emits_bind; [auto with effects|].
      intros d. apply act_emits_do. intros ip. apply emits_one, prim_log.
  - assert (∀ l, Forall (Forall (λ o, (fin = true → finalizable o = true) → act_emits fin (executeOperation c env ec o))) l →
      (fin = true → forallb (forallb finalizable) l = true) → Forall (Forall (λ o, act_emits fin (executeOperation c env ec o))) l) as Hall.
    { intros l Hl Hfl. destruct fin.
      - apply (Forall_forallb_2 finalizable); [|by apply Hfl]. eapply Forall_impl; [exact Hl|]. intros b Hbl.
        eapply Forall_impl; [exact Hbl|]. intros o Ho'. first [by apply Ho' | intros Hfo; by apply Ho'].
      - eapply Forall_impl; [exact Hl|]. intros b Hbl. eapply Forall_impl; [exact Hbl|]. intros o Ho'. first [by apply Ho' | intros Hfo; by apply Ho']. }
    apply emits_chooseBranch; [done | | ].
    + clear Ho. induction Hb as [|b branches Hb _ IH]; constructor.
      * apply Hall; [done|]. intros Ht. specialize (Hf Ht). simpl in Hf. apply andb_true_iff in Hf as [Hf _].
        by apply andb_true_iff in Hf as [Hf _].
      * apply IH. intros Ht. specialize (Hf Ht). simpl in Hf |- *. apply andb_true_iff in Hf as [Hf Hf2].
        apply andb_true_iff in Hf as [_ Hf]. by rewrite Hf.
    + apply Hall; [done|]. intros Ht. specialize (Hf Ht). simpl in Hf. by apply andb_true_iff in Hf as [_ ?].
  - unfold forEachModel. apply act_emits_bind; [auto with effects|]. intros v.
    destruct (AsList v) as [items|]; [|auto with effects]. apply emits_forEachItems; [done|].
    destruct fin.
    + apply (Forall_forallb_2 finalizable); [|by apply Hf]. eapply Forall_impl; [exact Hb|]. intros bl Hbl.
      eapply Forall_impl; [exact Hbl|]. intros o Ho'. first [by apply Ho' | intros Hfo; by apply Ho'].
    + eapply Forall_impl; [exact Hb|]. intros bl Hbl. eapply Forall_impl; [exact Hbl|]. intros o Ho'. first [by apply Ho' | intros Hfo; by apply Ho'].
Qed.

Lemma emits_runActionsWithContext fin ec block :
  grants fin ec → (fin = true → forallb finalizable block = true) → fun_emits fin (runActionsWithContext c env block ec).
Proof.
  intros Hg Hf. apply emits_runBlock, Forall_forall. intros o Ho. apply emits_executeOperation; [done|].
  intros Ht. specialize (Hf Ht). rewrite forallb_forall in Hf. apply Hf. by apply list_elem_of_In.
Qed.

Lemma emits_runActions block : fun_emits false (runActions c env block).
Proof. intros ip. by apply emits_runActionsWithContext. Qed.

Lemma emits_runActionBlocks blocks : fun_emits false (runActionBlocks c env blocks).
Proof. apply emits_foldl. intros b. apply emits_runActions. Qed.

Lemma emits_runFinalizeBlocks blocks :
  forallb (forallb finalizable) blocks = true → fun_emits true (runFinalizeBlocks c env blocks).
Proof.
  intros Hb ip. unfold runFinalizeBlocks. set (ec := finalizeExecContext c env ip).
  assert (grants true ec) as Hg by done. clearbody ec. revert ip.
  induction blocks as [|b blocks IH]; intros ip; simpl; [apply rtc_refl|]. simpl in Hb. apply andb_true_iff in Hb as [H1 H2].
  etrans; [|by apply IH]. by apply emits_runActionsWithContext.
Qed.

Lemma emits_initializeData ds : fun_emits false (initializeData c env ds).
Proof.
  intros ip. unfold initializeData. apply (emits_foldl false (initializeDatum env (execContext c env ip))). intros d ip'.
  unfold initializeDatum.
  assert (act_emits false (v ←ₐ evaluateOptional env (execContext c env ip) (data_initializer d);
    assignModel env (execContext c env ip) (data_location d) v)) as H.
  { apply act_emits_bind; [by apply emits_evaluateOptional|]. intros v. by apply emits_callModel. }
  specialize (H ip'). destruct (act_bind _ _ ip') as [ip2 [u|e]]; simpl in *; [done|].
  etrans; [exact H | apply emits_one, prim_error].
Qed.

End effects.
