(* ===== verification/Entry.v ===== *)
(** * Entry sets, exit sets and transition domains (interpreter.go, SCXML D.2)

    The mutual recursion of [addDescendantStatesToEnter] and
    [addAncestorStatesToEnter] follows default transitions and recorded
    history, which is not structural: it is written with fuel and returns
    [None] when the recursion is deeper than the fuel allows.  [entryFuel] is
    enough for every chart whose history defaults do not form a cycle
    ([addDescendantStatesToEnter_total] in EntryTotal.v). *)

From S2P Require Import Prelude Identifier Values Events Datamodel Chart Interp.
From stdpp Require Import options.

(** A loop whose body may not return. *)
Fixpoint option_foldl {A B} (f : A → B → option B) (xs : list A) (b : B) : option B :=
  match xs with
  | [] => Some b
  | x :: xs => f x b ≫= option_foldl f xs
  end.

Section entry.
Context `{DM : DatamodelSession}.
Variable c : Chart.

(** The two maps the source threads through the recursion: [entrySet] and
    [defaults]. *)
Definition entryAcc : Type := gset nat * gmap nat (list actionBlock).

Definition enter (s : nat) (acc : entryAcc) : entryAcc := ({[s]} ∪ acc.1, acc.2).
Definition addDefaults (s : nat) (blocks : list actionBlock) (acc : entryAcc) : entryAcc :=
  (acc.1, <[s := default [] (acc.2 !! s) ++ blocks]> acc.2).

Definition entrySetCovers (entrySet : gset nat) (child : nat) : bool :=
  bool_decide (child ∈ entrySet) || bool_decide (Exists (λ s, isDescendant c s (Some child) = true) (elements entrySet)).

Section ancestors.
Variable addDescendantStatesToEnter : nat → entryAcc → option entryAcc.

(** The body of the loop over the children of a parallel ancestor. *)
Definition enterUncovered (child : nat) (acc : entryAcc) : option entryAcc :=
  if entrySetCovers acc.1 child then Some acc else addDescendantStatesToEnter child acc.

Definition enterAncestor (anc : nat) (acc : entryAcc) : option entryAcc :=
  let acc := enter anc acc in
  if decide (kind c anc = KindParallel) then option_foldl enterUncovered (realChildren c anc) acc
  else Some acc.

Definition addAncestorStatesToEnter_with (ancestor : option nat) (state : nat) (acc : entryAcc) : option entryAcc :=
  option_foldl enterAncestor (properAncestors c state ancestor) acc.

(** Both loops over a target list: descend into every target, then fill in the
    ancestors of every target. *)
Definition enterTargets (targets : list nat) (ancestor : option nat) (acc : entryAcc) : option entryAcc :=
  acc ← option_foldl addDescendantStatesToEnter targets acc;
  option_foldl (addAncestorStatesToEnter_with ancestor) targets acc.
End ancestors.

Section descend.
Variable historyValue : gmap nat (list nat).

Fixpoint addDescendant (fuel : nat) (state : nat) (acc : entryAcc) : option entryAcc :=
  match fuel with
  | 0 => None
  | S fuel =>
      match kind c state with
      | KindHistory =>
          match historyValue !! state, initial c state with
          | Some recorded, _ => enterTargets (addDescendant fuel) recorded (parent c state) acc
          | None, Some t =>
              enterTargets (addDescendant fuel) (resolve c (t_target t)) (parent c state)
                (match parent c state with Some p => addDefaults p (t_actions t) acc | None => acc end)
          | None, None => Some acc
          end
      | KindCompound =>
          let acc := enter state acc in
          match initial c state with
          | Some t =>
              enterTargets (addDescendant fuel) (resolve c (t_target t)) (Some state)
                (addDefaults state (t_actions t) acc)
          | None => Some acc
          end
      | KindParallel => option_foldl (addDescendant fuel) (realChildren c state) (enter state acc)
      | KindAtomic | KindFinal => Some (enter state acc)
      end
  end.
End descend.

Definition entryFuel : nat :=
  let n := length (c_order c) in S (n * (n + 2)).

Definition addDescendantStatesToEnter (ip : interpretation) : nat → entryAcc → option entryAcc :=
  addDescendant (historyValue ip) entryFuel.

Definition addAncestorStatesToEnter (ip : interpretation) : option nat → nat → entryAcc → option entryAcc :=
  addAncestorStatesToEnter_with (addDescendantStatesToEnter ip).

(** ** Effective targets and domains *)

Definition collect (s : nat) (result : list nat) : list nat :=
  if decide (s ∈ result) then result else result ++ [s].

(** [collectEffectiveTarget]: [seen] is the set of the states in [result];
    [visiting] cuts cycles of history defaults, so two levels more than there
    are states are enough. *)
Fixpoint collectEffectiveTarget (hist : gmap nat (list nat)) (fuel : nat) (visiting : list nat)
    (s : nat) (result : list nat) : list nat :=
  match fuel with
  | 0 => result
  | S fuel =>
      if decide (kind c s = KindHistory) then
        if decide (s ∈ visiting) then result else
        match hist !! s, initial c s with
        | Some recorded, _ => foldl (λ result r, collect r result) result recorded
        | None, Some t =>
            foldl (λ result def, collectEffectiveTarget hist fuel (s :: visiting) def result)
              result (resolve c (t_target t))
        | None, None => result
        end
      else collect s result
  end.

Definition effectiveTargetStates (ip : interpretation) (t : compiledTransition) : list nat :=
  foldl (λ result s, collectEffectiveTarget (historyValue ip) (S (S (length (c_order c)))) [] s result)
    [] (resolve c (t_target t)).

Definition allDescendants (states : list nat) (ancestor : nat) : bool :=
  forallb (λ s, isDescendant c s (Some ancestor)) states.

Definition findLCCA (states : list nat) : option nat :=
  match states with
  | [] => None
  | head :: _ =>
      match filter (λ anc, isCompoundOrRoot c anc && allDescendants states anc = true) (properAncestors c head None) with
      | anc :: _ => Some anc
      | [] => Some root
      end
  end.

Definition transitionDomain (ip : interpretation) (t : compiledTransition) : option nat :=
  match effectiveTargetStates ip t with
  | [] => None
  | targets =>
      if t_internal t && bool_decide (kind c (t_source t) = KindCompound) && allDescendants targets (t_source t)
      then Some (t_source t)
      else findLCCA (t_source t :: targets)
  end.

(** ** Entry and exit sets of a list of transitions *)

Definition addTransitionEntry (ip : interpretation) (t : compiledTransition) (acc : entryAcc) : option entryAcc :=
  acc ← option_foldl (addDescendantStatesToEnter ip) (resolve c (t_target t)) acc;
  option_foldl (addAncestorStatesToEnter ip (transitionDomain ip t)) (effectiveTargetStates ip t) acc.

(** The source sorts the set here; the order is taken where states are entered. *)
Definition computeEntrySet (ip : interpretation) (ts : list compiledTransition) : option entryAcc :=
  option_foldl (addTransitionEntry ip) ts (∅, ∅).

(** The states of the configuration below a domain. *)
Definition exitBelow (ip : interpretation) (domain : option nat) : gset nat :=
  filter (λ s, isDescendant c s domain = true) (configuration ip).

Definition transitionExitSet (ip : interpretation) (t : compiledTransition) : gset nat :=
  match t_target t with
  | [] => ∅
  | _ => exitBelow ip (transitionDomain ip t)
  end.

Definition computeExitSet (ip : interpretation) (ts : list compiledTransition) : gset nat :=
  ⋃ (map (transitionExitSet ip) ts).

End entry.
