(* ===== verification/EntryCorrect.v ===== *)
(** * What the entry-set recursion computes

    For a well-formed chart and consistent recorded history, one call of
    [addDescendantStatesToEnter] on a state adds states of that state's region
    only ([grows]): each of them is a real state whose children are covered by
    the entry set, and everything between it and the region's border is in the
    entry set too.  If the region was empty before, no compound state gets two
    children ([addDescendant_consistent]). *)

From S2P Require Import Prelude Identifier Values Events Datamodel Chart Tree Legal Interp Entry.
From stdpp Require Import options.

Lemma option_foldl_app {A B} (f : A → B → option B) xs ys b :
  option_foldl f (xs ++ ys) b = option_foldl f xs b ≫= option_foldl f ys.
Proof. revert b. induction xs as [|x xs IH]; intros b; [done|]. simpl. destruct (f x b); simpl; auto. Qed.

(** The loop rule: [I] relates the elements already handled to the state. *)
Lemma option_foldl_ind {A B} (f : A → B → option B) (I : list A → B → Prop) xs b b' :
  I [] b →
  (∀ pre x post b b', xs = pre ++ x :: post → I pre b → f x b = Some b' → I (pre ++ [x]) b') →
  option_foldl f xs b = Some b' → I xs b'.
Proof.
  intros H0 Hstep. cut (∀ pre post b, xs = pre ++ post → I pre b → option_foldl f post b = Some b' → I xs b').
  { intros H. by apply (H [] xs). }
  intros pre post. revert pre. induction post as [|x post IH]; intros pre b1 Hxs HI; simpl.
  { intros [= <-]. by rewrite Hxs, app_nil_r. }
  destruct (f x b1) as [b2|] eqn:E; simpl; [|done]. apply (IH (pre ++ [x])); [by rewrite <- app_assoc|].
  by eapply Hstep.
Qed.

Section entry_correct.
Context `{DM : DatamodelSession}.
Variable c : Chart.
Variable hrank : nat → nat.
Hypothesis Hwf : wf_chart c hrank.
Variable hist : gmap nat (list nat).
Hypothesis Hhist : history_ok c hist.

Let Htree := wf_is_tree c hrank Hwf.

(** ** Vocabulary *)

(** The real states a target stands for. *)
Inductive effective : nat → nat → Prop :=
| effective_self s : kind c s ≠ KindHistory → effective s s
| effective_recorded h recorded r :
    kind c h = KindHistory → hist !! h = Some recorded → r ∈ recorded → effective h r
| effective_default h t x e :
    kind c h = KindHistory → hist !! h = None → initial c h = Some t →
    x ∈ resolve c (t_target t) → effective x e → effective h e.

(** Where descending into [s] may add states. *)
Definition region (s x : nat) : Prop :=
  if decide (kind c s = KindHistory)
  then match parent c s with Some q => strict c x q | None => False end
  else under c x s.

(** The state whose inside is that region. *)
Definition anchor (s : nat) : nat :=
  if decide (kind c s = KindHistory) then default s (parent c s) else s.

Definition covered (E : gset nat) (y : nat) : Prop := ∃ x, x ∈ E ∧ under c x y.

Definition closed (E : gset nat) (x : nat) : Prop :=
  (kind c x = KindCompound → ∃ ch, ch ∈ realChildren c x ∧ covered E ch)
  ∧ (kind c x = KindParallel → ∀ ch, ch ∈ realChildren c x → covered E ch).

(** [y] lies strictly inside [b]; [None] is no border. *)
Definition inside (y : nat) (b : option nat) : Prop := match b with Some d => strict c y d | None => True end.

Definition upto (E : gset nat) (x : nat) (b : option nat) : Prop :=
  ∀ y, strict c x y → inside y b → y ∈ E.

Record grows (R : nat → Prop) (b : option nat) (E E' : gset nat) : Prop := {
  g_sub : E ⊆ E';
  g_region : ∀ x, x ∈ E' → x ∉ E → R x;
  g_real : ∀ x, x ∈ E' → x ∉ E → x < length (c_order c) ∧ kind c x ≠ KindHistory;
  g_closed : ∀ x, x ∈ E' → x ∉ E → closed E' x;
  g_upto : ∀ x, x ∈ E' → x ∉ E → upto E' x b
}.

(** ** Basic facts *)

Lemma effective_region s e : effective s e → region s e ∧ kind c e ≠ KindHistory.
Proof using Hwf Hhist.
  induction 1 as [s Hs | h recorded r Hk Hr Hin | h t x e Hk Hn Ht Hx _ [IHr IHk]].
  - unfold region. rewrite decide_False by done. split; [apply under_refl | done].
  - destruct (Hhist h recorded Hr) as (q & _ & Hq & Hset & Hreal).
    unfold region. rewrite decide_True, Hq by done. split; [by eapply target_set_strict|].
    by eapply Forall_forall in Hreal.
  - split; [|done]. destruct (wf_history c hrank Hwf h Hk) as (q & t' & Hq & Ht' & _ & Hset & _). simplify_eq.
    unfold region. rewrite decide_True, Hq by done.
    pose proof (target_set_strict c _ _ _ Hset Hx) as Hxq. unfold region in IHr. case_decide as Hxk.
    + destruct (parent c x) as [p|] eqn:Hp; [|done].
      eapply strict_under_trans; [done.. |]. by eapply strict_above_child.
    + by eapply under_strict_trans.
Qed.

(** Every ancestor of a target contains what it stands for. *)
Lemma region_strict s e a : region s e → strict c s a → strict c e a.
Proof using Hwf.
  unfold region. case_decide.
  - intros H' Ha. destruct (parent c s) as [q|] eqn:Hq; [|done].
    eapply strict_under_trans; [done.. |]. by eapply strict_above_child.
  - intros ??. by eapply under_strict_trans.
Qed.

Lemma effective_exists s : ∃ e, effective s e.
Proof using Hwf Hhist.
  remember (hrank s) as n eqn:Hn. revert s Hn. induction (lt_wf n) as [n _ IH]. intros s ->.
  destruct (decide (kind c s = KindHistory)) as [Hk|Hk]; [|exists s; by constructor].
  destruct (hist !! s) as [recorded|] eqn:Hr.
  - destruct (Hhist s recorded Hr) as (q & _ & _ & Hset & _). destruct Hset as [Hne _].
    destruct recorded as [|r rs]; [done|]. exists r. eapply effective_recorded; [done.. |]. left.
  - destruct (wf_history c hrank Hwf s Hk) as (q & t & Hq & Ht & _ & Hset & Hrank).
    destruct Hset as [Hne _]. destruct (resolve c (t_target t)) as [|x xs] eqn:Hx; [done|].
    assert (x ∈ resolve c (t_target t)) as Hin by (rewrite Hx; left).
    destruct (decide (kind c x = KindHistory)) as [Hxk|Hxk].
    + apply Forall_inv in Hrank. destruct (IH (hrank x) (Hrank Hxk) x eq_refl) as [e He].
      exists e. by eapply effective_default.
    + exists x. eapply effective_default; [done.. |]. by constructor.
Qed.

Lemma covered_mono E E' y : E ⊆ E' → covered E y → covered E' y.
Proof. intros Hs (x & Hx & Hxy). exists x. split; [by apply Hs | done]. Qed.

Lemma closed_mono E E' x : E ⊆ E' → closed E x → closed E' x.
Proof.
  intros Hs [H1 H2]. split.
  - intros Hk. destruct (H1 Hk) as (ch & Hch & Hc). eauto using covered_mono.
  - intros Hk ch Hch. eauto using covered_mono.
Qed.

Lemma upto_mono E E' x b : E ⊆ E' → upto E x b → upto E' x b.
Proof. intros Hs H y Hy Hb. apply Hs. by apply H. Qed.

(** A state with something of the entry set inside it has a covered child. *)
Lemma covered_child E x e : e ∈ E → kind c e ≠ KindHistory → strict c e x →
  ∃ ch, ch ∈ realChildren c x ∧ covered E ch.
Proof using Hwf.
  intros He Hk Hx. apply (strict_child c Htree) in Hx as (ch & Hch & Hech). exists ch. split; [|by exists e].
  apply (elem_of_realChildren c Htree). split; [done|]. by eapply under_nonhistory.
Qed.

Lemma grows_refl R b E : grows R b E E.
Proof. split; [done | by intros x ? [] ..]. Qed.

Lemma grows_trans R b E1 E2 E3 : grows R b E1 E2 → grows R b E2 E3 → grows R b E1 E3.
Proof.
  intros G1 G2. split; [by etrans; [apply (g_sub _ _ _ _ G1) | apply (g_sub _ _ _ _ G2)]|..]; intros x Hx Hn;
    destruct (decide (x ∈ E2)) as [H2|H2].
  - by eapply (g_region _ _ _ _ G1).
  - by eapply (g_region _ _ _ _ G2).
  - by eapply (g_real _ _ _ _ G1).
  - by eapply (g_real _ _ _ _ G2).
  - eapply closed_mono; [eapply (g_sub _ _ _ _ G2) | by eapply (g_closed _ _ _ _ G1)].
  - by eapply (g_closed _ _ _ _ G2).
  - eapply upto_mono; [eapply (g_sub _ _ _ _ G2) | by eapply (g_upto _ _ _ _ G1)].
  - by eapply (g_upto _ _ _ _ G2).
Qed.

Lemma entrySetCovers_spec E ch : entrySetCovers c E ch = true ↔ covered E ch.
Proof.
  unfold entrySetCovers, covered. rewrite orb_true_iff, !bool_decide_eq_true, Exists_exists. split.
  - intros [H|(x & Hx & Hd)]; [exists ch; split; [done | apply under_refl]|].
    exists x. rewrite elem_of_elements in Hx. split; [done|]. right. by apply isDescendant_spec.
  - intros (x & Hx & [->|Hd]); [by left|]. right. exists x. rewrite elem_of_elements.
    split; [done|]. by apply isDescendant_spec.
Qed.

(** ** Growth *)

(** What one call of the recursion guarantees, and [desc] does for all states. *)
Definition descends (s : nat) (E E' : gset nat) : Prop :=
  grows (region s) (parent c s) E E' ∧ ∀ e, effective s e → e ∈ E'.

Section loops.
Variable desc : nat → entryAcc → option entryAcc.
Hypothesis Hdesc : ∀ s acc acc', s < length (c_order c) → desc s acc = Some acc' → descends s acc.1 acc'.1.

Lemma descends_real s E E' : descends s E E' → kind c s ≠ KindHistory → s ∈ E'.
Proof using Type. intros [_ H] Hk. apply H. by constructor. Qed.

(** The loop over the children of a parallel state, or over targets: each new
    state belongs to the region of one of them. *)
Lemma descend_loop X acc acc' :
  Forall (λ s, s < length (c_order c)) X →
  option_foldl desc X acc = Some acc' →
  acc.1 ⊆ acc'.1
  ∧ (∀ x, x ∈ acc'.1 → x ∉ acc.1 → ∃ s, s ∈ X ∧ region s x ∧ x < length (c_order c) ∧ kind c x ≠ KindHistory
       ∧ closed acc'.1 x ∧ upto acc'.1 x (parent c s))
  ∧ ∀ s e, s ∈ X → effective s e → e ∈ acc'.1.
Proof using All.
  intros HX. apply (option_foldl_ind desc (λ pre a, acc.1 ⊆ a.1
    ∧ (∀ x, x ∈ a.1 → x ∉ acc.1 → ∃ s, s ∈ pre ∧ region s x ∧ x < length (c_order c) ∧ kind c x ≠ KindHistory
         ∧ closed a.1 x ∧ upto a.1 x (parent c s))
    ∧ ∀ s e, s ∈ pre → effective s e → e ∈ a.1)).
  { split_and!; [done | by intros x ? [] | by intros s e ?%elem_of_nil]. }
  intros pre s post a a' Hsplit (Hsub & Hnew & Heff) Hs.
  assert (s < length (c_order c)) as Hv.
  { rewrite Forall_forall in HX. apply HX. rewrite Hsplit. apply elem_of_app. right. left. }
  destruct (Hdesc s a a' Hv Hs) as [G Hs']. pose proof (g_sub _ _ _ _ G) as Hsub'. split_and!.
  - by etrans.
  - intros x Hx Hn. destruct (decide (x ∈ a.1)) as [Ha|Ha].
    + destruct (Hnew x Ha Hn) as (s' & ? & ? & ? & ? & ? & ?). exists s'.
      split_and!; [apply elem_of_app; by left | done.. | by eapply closed_mono | by eapply upto_mono].
    + exists s. split_and!; [apply elem_of_app; right; left | by eapply (g_region _ _ _ _ G)
        | by eapply (g_real _ _ _ _ G) | by eapply (g_real _ _ _ _ G) | by eapply (g_closed _ _ _ _ G)
        | by eapply (g_upto _ _ _ _ G)].
  - intros s' e [Hin| ->%list_elem_of_singleton]%elem_of_app He; [|by apply Hs'].
    apply Hsub'. by eapply Heff.
Qed.

(** The loop over the real children [ch] of the parallel state [anc]. *)
Lemma fill_loop anc acc acc' :
  option_foldl (enterUncovered c desc) (realChildren c anc) acc = Some acc' →
  acc.1 ⊆ acc'.1
  ∧ (∀ x, x ∈ acc'.1 → x ∉ acc.1 → strict c x anc ∧ x < length (c_order c) ∧ kind c x ≠ KindHistory
       ∧ closed acc'.1 x ∧ upto acc'.1 x (Some anc))
  ∧ ∀ ch, ch ∈ realChildren c anc → covered acc'.1 ch.
Proof using All.
  apply (option_foldl_ind _ (λ pre a, acc.1 ⊆ a.1
    ∧ (∀ x, x ∈ a.1 → x ∉ acc.1 → strict c x anc ∧ x < length (c_order c) ∧ kind c x ≠ KindHistory
         ∧ closed a.1 x ∧ upto a.1 x (Some anc))
    ∧ ∀ ch, ch ∈ pre → covered a.1 ch)).
  { split_and!; [done | by intros x ? [] | by intros s ?%elem_of_nil]. }
  intros pre ch post a a' Hsplit (Hsub & Hnew & Hcov) Hs.
  assert (ch ∈ realChildren c anc) as Hch by (rewrite Hsplit; apply elem_of_app; right; left).
  apply (elem_of_realChildren c Htree) in Hch as [Hp Hk].
  unfold enterUncovered in Hs. destruct (entrySetCovers c a.1 ch) eqn:Hc.
  - injection Hs as <-. split_and!; [done..|].
    intros ch' [?| ->%list_elem_of_singleton]%elem_of_app; [auto|]. by apply entrySetCovers_spec.
  - destruct (Hdesc ch a a' (wf_parent_valid c Htree _ _ Hp) Hs) as [G He].
    pose proof (g_sub _ _ _ _ G) as Hsub'. split_and!.
    + by etrans.
    + intros x Hx Hn. destruct (decide (x ∈ a.1)) as [Ha|Ha].
      * destruct (Hnew x Ha Hn) as (? & ? & ? & ? & ?).
        split_and!; [done.. | by eapply closed_mono | by eapply upto_mono].
      * pose proof (g_region _ _ _ _ G x Hx Ha) as Hr. pose proof (g_upto _ _ _ _ G x Hx Ha) as Hu.
        rewrite Hp in Hu. split_and!; [| by eapply (g_real _ _ _ _ G) .. | by eapply (g_closed _ _ _ _ G) | done].
        eapply region_strict; [done|]. by apply (strict_parent c Htree).
    + intros ch' [?| ->%list_elem_of_singleton]%elem_of_app; [by eapply covered_mono; eauto|].
      exists ch. split; [by apply (descends_real ch a.1) | apply under_refl].
Qed.

(** One ancestor [anc] of something of the entry set. *)
Lemma enterAncestor_grows anc e acc acc' :
  e ∈ acc.1 → kind c e ≠ KindHistory → strict c e anc → anc < length (c_order c) →
  enterAncestor c desc anc acc = Some acc' →
  acc.1 ⊆ acc'.1 ∧ anc ∈ acc'.1
  ∧ ∀ x, x ∈ acc'.1 → x ∉ acc.1 → under c x anc ∧ x < length (c_order c) ∧ kind c x ≠ KindHistory
       ∧ closed acc'.1 x ∧ upto acc'.1 x (Some anc).
Proof using All.
  intros He Hk Hea Hv. unfold enterAncestor.
  assert (∀ E, {[anc]} ∪ acc.1 ⊆ E →
    (kind c anc = KindParallel → ∀ ch, ch ∈ realChildren c anc → covered E ch) → closed E anc) as Hclosed.
  { intros E HE Hpar. split; [|done]. intros _. apply (covered_child E anc e); [|done..].
    apply HE, elem_of_union. by right. }
  assert (∀ E, upto E anc (Some anc)) as Hupto.
  { intros E y Hy Hi. exfalso. eapply strict_irrefl, strict_trans; done. }
  assert (kind c anc ≠ KindHistory) as Hreal by (by eapply strict_nonhistory).
  destruct (decide (kind c anc = KindParallel)) as [Hpar|Hpar].
  - intros (Hsub & Hnew & Hcov)%fill_loop. simpl in *. split_and!.
    + set_solver.
    + set_solver.
    + intros x Hx Hn. destruct (decide (x = anc)) as [->|Hne].
      { split_and!; [apply under_refl | done.. | by apply Hclosed | done]. }
      assert (x ∉ {[anc]} ∪ acc.1) as Hn' by set_solver.
      destruct (Hnew x Hx Hn') as (?&?&?&?&?). split_and!; [by right | done..].
  - intros [= <-]. simpl. split_and!; [set_solver..|].
    intros x Hx Hn. assert (x = anc) as -> by set_solver.
    split_and!; [apply under_refl | done.. | by apply Hclosed | done].
Qed.

(** All ancestors of [t] below [d], where [e] is in the entry set and below
    every one of them. *)
Lemma addAncestors_grows t d e acc acc' :
  e ∈ acc.1 → kind c e ≠ KindHistory → (∀ a, strict c t a → strict c e a) → strict c t d →
  addAncestorStatesToEnter_with c desc (Some d) t acc = Some acc' →
  grows (λ x, strict c x d) (Some d) acc.1 acc'.1 ∧ ∀ y, strict c t y → strict c y d → y ∈ acc'.1.
Proof using All.
  intros He Hk Hbelow Htd Hrun. unfold addAncestorStatesToEnter_with in Hrun.
  assert (∀ y, y ∈ properAncestors c t (Some d) ↔ strict c t y ∧ strict c y d) as Hlist.
  { intros y. by apply (properAncestors_Some c Htree). }
  revert Hrun. generalize (eq_refl : properAncestors c t (Some d) = properAncestors c t (Some d)).
  generalize (properAncestors c t (Some d)) at 2 3 as L. intros L HL Hrun.
  assert (acc.1 ⊆ acc'.1 ∧ (∀ y, y ∈ L → y ∈ acc'.1)
    ∧ ∀ x, x ∈ acc'.1 → x ∉ acc.1 → ∃ anc, anc ∈ L ∧ under c x anc ∧ x < length (c_order c)
         ∧ kind c x ≠ KindHistory ∧ closed acc'.1 x ∧ upto acc'.1 x (Some anc)) as (Hsub & Hall & Hnew).
  { revert Hrun. apply (option_foldl_ind _ (λ pre a, acc.1 ⊆ a.1 ∧ (∀ y, y ∈ pre → y ∈ a.1)
      ∧ ∀ x, x ∈ a.1 → x ∉ acc.1 → ∃ anc, anc ∈ pre ∧ under c x anc ∧ x < length (c_order c)
         ∧ kind c x ≠ KindHistory ∧ closed a.1 x ∧ upto a.1 x (Some anc))).
    { split_and!; [done | by intros y ?%elem_of_nil | by intros x ? []]. }
    intros pre anc post a a' Hsplit (Hsub & Hall & Hnew) Hs.
    assert (anc ∈ properAncestors c t (Some d)) as [Hta Had]%Hlist
      by (rewrite HL, Hsplit; apply elem_of_app; right; left).
    pose proof (strict_valid c Htree _ _ Had) as Hv.
    destruct (enterAncestor_grows anc e a a') as (Hsub' & Hanc & Hnew'); auto. split_and!.
    - by etrans.
    - intros y [?| ->%list_elem_of_singleton]%elem_of_app; auto.
    - intros x Hx Hn. destruct (decide (x ∈ a.1)) as [Ha|Ha].
      + destruct (Hnew x Ha Hn) as (anc' & ? & ? & ? & ? & ? & ?). exists anc'.
        split_and!; [apply elem_of_app; by left | done.. | by eapply closed_mono | by eapply upto_mono].
      + exists anc. split; [apply elem_of_app; right; left | by apply Hnew']. }
  assert (∀ y, strict c t y → strict c y d → y ∈ acc'.1) as Hbetween.
  { intros y Hy Hyd. apply Hall. rewrite <- HL. by apply Hlist. }
  split; [|done]. split; [done|..]; intros x Hx Hn; destruct (Hnew x Hx Hn) as (anc & Hanc & Hxa & ? & ? & ? & Hu);
    [|done|done|]; rewrite <- HL in Hanc; apply Hlist in Hanc as [Hta Had].
  - by eapply under_strict_trans.
  - intros y Hxy Hyd. destruct (strict_or_under c Htree x y anc) as [Hya|Hay]; [by right | done | by apply Hu |].
    apply Hbetween; [|done]. by eapply strict_under_trans.
Qed.

(** The second loop of [enterTargets], and of [computeEntrySet]. *)
Lemma ancestors_loop X d acc acc' :
  Forall (λ t, strict c t d ∧ ∃ e, e ∈ acc.1 ∧ kind c e ≠ KindHistory ∧ ∀ a, strict c t a → strict c e a) X →
  option_foldl (addAncestorStatesToEnter_with c desc (Some d)) X acc = Some acc' →
  grows (λ x, strict c x d) (Some d) acc.1 acc'.1
  ∧ ∀ t y, t ∈ X → strict c t y → strict c y d → y ∈ acc'.1.
Proof using All.
  intros HX. rewrite Forall_forall in HX.
  apply (option_foldl_ind _ (λ pre a, grows (λ x, strict c x d) (Some d) acc.1 a.1
    ∧ ∀ t y, t ∈ pre → strict c t y → strict c y d → y ∈ a.1)).
  { split; [apply grows_refl | by intros t y ?%elem_of_nil]. }
  intros pre t post a a' Hsplit [G Hall] Hs.
  destruct (HX t) as (Htd & e & He & Hk & Hbelow); [rewrite Hsplit; apply elem_of_app; right; left|].
  destruct (addAncestors_grows t d e a a') as [G' Hall']; auto. { by apply (g_sub _ _ _ _ G). }
  split; [by eapply grows_trans|].
  intros t' y [Hin| ->%list_elem_of_singleton]%elem_of_app ??; [|by auto].
  apply (g_sub _ _ _ _ G'). by eapply Hall.
Qed.

(** Up-closure reaches from a target's region to any state above the target. *)
Lemma upto_extend E t x d :
  strict c t d → region t x → upto E x (parent c t) →
  (∀ y, strict c t y → strict c y d → y ∈ E) → upto E x (Some d).
Proof using All.
  intros Htd Hr Hu Hbetween y Hxy Hyd.
  pose proof (proj1 (strict_unfold c Htree t d) Htd) as (p & Hp & Hpd). rewrite Hp in Hu.
  assert (strict c x p) as Hxp by (eapply region_strict; [done | by apply (strict_parent c Htree)]).
  destruct (strict_or_under c Htree x y p) as [Hyp|Hpy]; [by right | by right | by apply Hu |].
  apply Hbetween; [|done]. eapply strict_under_trans; [done| by apply (strict_parent c Htree) | done].
Qed.

Lemma enterTargets_grows X d acc acc' :
  target_set c d X ∨ (NoDup X ∧ Forall (λ x, strict c x d) X) →
  enterTargets c desc X (Some d) acc = Some acc' →
  grows (λ x, strict c x d) (Some d) acc.1 acc'.1 ∧ ∀ t e, t ∈ X → effective t e → e ∈ acc'.1.
Proof using All.
  intros HX Hrun. assert (∀ t, t ∈ X → strict c t d) as HXd.
  { intros t Ht. destruct HX as [HX|[_ HX]]; [by eapply target_set_strict|]. by eapply Forall_forall in HX. }
  unfold enterTargets in Hrun. apply bind_Some in Hrun as (a & Ha & Hrun).
  apply descend_loop in Ha as (Hsub & Hnew & Heff);
    [|apply Forall_forall; intros t Ht; by eapply strict_valid, HXd].
  apply ancestors_loop in Hrun as [G Hall].
  2: { apply Forall_forall. intros t Ht. split; [by apply HXd|]. destruct (effective_exists t) as [e He].
       exists e. split_and!; [by eapply Heff | by apply (effective_region t) |].
       intros y. apply region_strict. by apply effective_region. }
  split; [|intros t e Ht He; apply (g_sub _ _ _ _ G); by eapply Heff].
  assert (∀ x, x ∈ acc'.1 → x ∉ acc.1 → x ∉ a.1 ∨ ∃ t, t ∈ X ∧ region t x ∧ x < length (c_order c)
    ∧ kind c x ≠ KindHistory ∧ closed acc'.1 x ∧ upto acc'.1 x (parent c t)) as Hcase.
  { intros x Hx Hn. destruct (decide (x ∈ a.1)) as [Hxa|]; [right | by left].
    destruct (Hnew x Hxa Hn) as (t & ? & ? & ? & ? & ? & ?). exists t.
    pose proof (g_sub _ _ _ _ G). split_and!; [done.. | by eapply closed_mono | by eapply upto_mono]. }
  split; [etrans; [done | apply (g_sub _ _ _ _ G)]|..]; intros x Hx Hn;
    destruct (Hcase x Hx Hn) as [Hxa|(t & Ht & Hr & ? & ? & ? & Hu)].
  - by apply (g_region _ _ _ _ G).
  - eapply region_strict; [done | by apply HXd].
  - by apply (g_real _ _ _ _ G).
  - done.
  - by apply (g_closed _ _ _ _ G).
  - done.
  - by apply (g_upto _ _ _ _ G).
  - eapply upto_extend; [by apply HXd | done.. | by eauto].
Qed.

End loops.

(** Inside [s]: everything up to [s], and [s], is everything up to its parent. *)
Lemma upto_parent E s x : s ∈ E → under c x s → (x ≠ s → upto E x (Some s)) → upto E x (parent c s).
Proof using All.
  intros Hs Hxs Hu y Hxy Hi. destruct (strict_or_under c Htree x y s) as [Hys|Hsy]; [by right | done |..].
  - apply Hu; [|done..]. intros ->. eapply strict_irrefl, strict_trans; done.
  - destruct Hsy as [->|Hsy]; [done|]. exfalso. apply (strict_unfold c Htree) in Hsy as (p & Hp & Hpy).
    rewrite Hp in Hi. simpl in Hi. eapply strict_irrefl, strict_under_trans; done.
Qed.

(** Entering [s] and then growing inside it. *)
Lemma grows_enter s E E' :
  s < length (c_order c) → kind c s ≠ KindHistory → closed E' s →
  grows (λ x, strict c x s) (Some s) ({[s]} ∪ E) E' → grows (region s) (parent c s) E E'.
Proof using All.
  intros Hv Hk Hc G. pose proof (g_sub _ _ _ _ G) as Hsub. assert (s ∈ E') as Hs by set_solver.
  assert (∀ x, x ∈ E' → x ∉ E → x = s ∨ x ≠ s ∧ x ∉ {[s]} ∪ E) as Hcase.
  { intros x Hx Hn. destruct (decide (x = s)); [by left | right; set_solver]. }
  assert (∀ x, under c x s → region s x) as Hregion.
  { intros x Hx. unfold region. by rewrite decide_False. }
  split; [set_solver|..]; intros x Hx Hn; destruct (Hcase x Hx Hn) as [->|[Hne Hx']]; try done.
  - apply Hregion, under_refl.
  - apply Hregion. right. by apply (g_region _ _ _ _ G).
  - by apply (g_real _ _ _ _ G).
  - by apply (g_closed _ _ _ _ G).
  - apply upto_parent; [done | apply under_refl | done].
  - apply upto_parent; [done | right; by apply (g_region _ _ _ _ G) |]. intros _. by apply (g_upto _ _ _ _ G).
Qed.

Lemma effective_real s e : kind c s ≠ KindHistory → effective s e → e = s.
Proof. by inversion 2. Qed.

Lemma addDescendant_grows fuel s acc acc' :
  s < length (c_order c) → addDescendant c hist fuel s acc = Some acc' → descends s acc.1 acc'.1.
Proof using All.
  revert s acc acc'. induction fuel as [|fuel IH]; intros s acc acc' Hv Hrun; [done|]. simpl in Hrun.
  unfold descends. destruct (kind c s) eqn:Hk.
  - injection Hrun as <-. split; [|intros e ->%effective_real; [set_solver | congruence]].
    apply grows_enter; [done | congruence | split; congruence | apply grows_refl].
  - destruct (wf_compound c hrank Hwf s Hk) as (t & Ht & Hset). rewrite Ht in Hrun.
    apply (enterTargets_grows _ IH) in Hrun as [G Heff]; [|by left]. simpl in G.
    split; [|intros e ->%effective_real; [apply (g_sub _ _ _ _ G); set_solver | congruence]].
    apply grows_enter; [done | congruence | | done]. split; [intros _ | congruence].
    destruct Hset as [Hne Hset']. destruct (resolve c (t_target t)) as [|x xs] eqn:Hx; [done|].
    destruct (effective_exists x) as [e He].
    apply (covered_child _ s e); [eapply Heff; [left | done] | by apply (effective_region x) |].
    eapply region_strict; [by apply effective_region|].
    destruct Hset' as (_ & Hset' & _). by apply Forall_inv in Hset'.
  - assert (∀ ch, ch ∈ realChildren c s → parent c ch = Some s ∧ kind c ch ≠ KindHistory) as Hch
      by (intros ch; apply (elem_of_realChildren c Htree)).
    apply (descend_loop _ IH) in Hrun as (Hsub & Hnew & Heff).
    2: { apply Forall_forall. intros ch [Hp _]%Hch. by eapply wf_parent_valid. }
    simpl in *. split; [|intros e ->%effective_real; [set_solver | congruence]].
    apply grows_enter; [done | congruence | split; [congruence|] |].
    + intros _ ch Hin. exists ch. split; [|apply under_refl]. eapply Heff; [done|]. constructor. by apply Hch.
    + split; [done|..]; intros x Hx Hn; destruct (Hnew x Hx Hn) as (ch & Hin & Hr & ? & ? & ? & Hu); try done;
        apply Hch in Hin as [Hp _]; rewrite Hp in Hu; [|done].
      eapply region_strict; [done|]. by apply (strict_parent c Htree).
  - injection Hrun as <-. split; [|intros e ->%effective_real; [set_solver | congruence]].
    apply grows_enter; [done | congruence | split; congruence | apply grows_refl].
  - destruct (wf_history c hrank Hwf s Hk) as (q & t & Hq & Ht & _ & Hset & _).
    assert (∀ X, target_set c q X → (∀ e, effective s e → ∃ x, x ∈ X ∧ effective x e) → ∀ acc,
      enterTargets c (addDescendant c hist fuel) X (Some q) acc = Some acc' →
      grows (region s) (Some q) acc.1 acc'.1 ∧ ∀ e, effective s e → e ∈ acc'.1) as Hboth.
    { intros X HX Heff acc1 Hrun1. apply (enterTargets_grows _ IH) in Hrun1 as [G Hin]; [|by left]. split.
      - destruct G as [G1 G2 G3 G4 G5]. split; try done. intros x Hx Hn. unfold region.
        rewrite decide_True, Hq by done. auto.
      - intros e (x & Hx & He)%Heff. eauto. }
    rewrite Hq in *. destruct (hist !! s) as [recorded|] eqn:Hr.
    + destruct (Hhist s recorded Hr) as (q' & _ & Hq' & Hset' & Hreal). simplify_eq.
      apply (Hboth recorded); [done | | done]. intros e He. inversion He; simplify_eq. exists e.
      split; [done|]. constructor. rewrite Forall_forall in Hreal. auto.
    + rewrite Ht in Hrun. apply Hboth in Hrun; [done | done |].
      intros e He. inversion He; simplify_eq; eauto.
Qed.

End entry_correct.
