(* ===== verification/EntryConsistent.v ===== *)
(** * The entry set never enters two children of a compound state

    [consistent d E]: inside [d], no compound state has two children covered by
    [E].  Descending into a state whose region is still empty keeps it, and so
    do the loops that fill in ancestors and their parallel siblings. *)

From S2P Require Import Prelude Identifier Values Events Datamodel Chart Tree Legal Interp Entry EntryCorrect.
From stdpp Require Import options.

Section consistency.
Context `{DM : DatamodelSession}.
Variable c : Chart.
Variable hrank : nat → nat.
Hypothesis Hwf : wf_chart c hrank.
Variable hist : gmap nat (list nat).
Hypothesis Hhist : history_ok c hist.
Variable D : nat.

Let Htree := wf_is_tree c hrank Hwf.

(** Targets inside [d] that can be entered one after the other. *)
Record separated (d : nat) (X : list nat) : Prop := {
  sep_NoDup : NoDup X;
  sep_strict : ∀ t, t ∈ X → strict c t d;
  sep_apart : ∀ t t', t ∈ X → t' ∈ X → t ≠ t' → ¬ under c t t' ∧ ¬ under c t' t ∧ ¬ conflict c D t t';
  sep_history : ∀ h, h ∈ X → kind c h = KindHistory → X = [h]
}.

Lemma target_set_separated d X : target_set c d X → separated d X.
Proof using All.
  intros HX. pose proof HX as (_ & Hnd & _ & _ & _). split; [done|..].
  - intros t Ht. by eapply target_set_strict.
  - intros t t' Ht Ht' Hne. eapply orthogonal_spec; [done|]. by eapply target_set_orthogonal.
  - intros h Hh Hk. by eapply target_set_history.
Qed.

Lemma children_separated s : kind c s = KindParallel → separated s (realChildren c s).
Proof using All.
  intros Hs. assert (∀ ch, ch ∈ realChildren c s → parent c ch = Some s ∧ kind c ch ≠ KindHistory) as Hch
    by (intros ch; apply (elem_of_realChildren c Htree)).
  split; [by eapply NoDup_realChildren | intros t [Hp _]%Hch; by apply (strict_parent c Htree) | | by intros h [_ ?]%Hch].
  intros t t' [Hp _]%Hch [Hp' _]%Hch Hne. split_and!.
  - intros Hu. apply Hne. eapply child_unique; [done | done | done | apply under_refl | done].
  - intros Hu. apply Hne. symmetry. eapply child_unique; [done | done | done | apply under_refl | done].
  - intros (p & c1 & c2 & _ & Hk & H1 & H2 & Hc & Ht1 & Ht2).
    assert (strict c c1 p) as Hc1 by (by apply (strict_parent c Htree)).
    assert (strict c t p) as Htp by (by eapply under_strict_trans).
    destruct (strict_above_child c Htree _ _ _ Hp Htp) as [<-|Hsp]; [congruence|].
    apply (strict_child c Htree) in Hsp as (ch & Hchp & Hsch). apply Hc. transitivity ch; [|symmetry].
    + apply (child_unique c Htree t p); try done. right. eapply strict_under_trans; [done | | done].
      by apply (strict_parent c Htree).
    + apply (child_unique c Htree t' p); try done. right. eapply strict_under_trans; [done | | done].
      by apply (strict_parent c Htree).
Qed.

Lemma region_anchor t x : t < length (c_order c) → region c t x → under c x (anchor c t).
Proof using All.
  intros Hv. unfold region, anchor. case_decide; [|done]. destruct (parent c t) as [q|]; [|done]. by right.
Qed.

Lemma anchor_under t d : strict c t d → under c (anchor c t) d.
Proof using All.
  intros Ht. unfold anchor. case_decide; [|by right]. pose proof Ht as (q & Hq & Hqd)%(strict_unfold c Htree).
  by rewrite Hq.
Qed.

Lemma region_inside t d x : strict c t d → region c t x → strict c x d.
Proof using All. intros Ht Hr. by eapply region_strict. Qed.

(** The precondition of descending into [t]. *)
Definition free (E : gset nat) (t : nat) : Prop :=
  ∀ x, x ∈ E → ¬ region c t x ∧ ¬ conflict c D x (anchor c t).

(** The precondition of entering states inside [d]. *)
Definition vacant (E : gset nat) (d : nat) : Prop :=
  ∀ x, x ∈ E → ¬ strict c x d ∧ ¬ conflict c D x d.

Lemma vacant_free E d t : vacant E d → strict c t d → free E t.
Proof using All.
  intros Hvac Ht x Hx. destruct (Hvac x Hx) as [Hns Hnc]. split.
  - intros Hr. apply Hns. by eapply region_inside.
  - intros Hc. eapply (conflict_lift c hrank Hwf) in Hc as [|]; [done.. | by apply anchor_under].
Qed.

(** What has been entered for another target leaves [t] free. *)
Lemma apart_free t t' x : kind c t ≠ KindHistory → kind c t' ≠ KindHistory →
  ¬ under c t t' → ¬ under c t' t → ¬ conflict c D t' t → region c t' x →
  ¬ region c t x ∧ ¬ conflict c D x (anchor c t).
Proof using All.
  intros Hk Hk' H1 H2 H3 Hr. unfold region, anchor in *. rewrite decide_False in Hr by done. rewrite !decide_False by done. split.
  - intros Hx. destruct (under_comparable c Htree x t t' Hx Hr); done.
  - intros Hc. apply conflict_sym in Hc. apply (conflict_lift c hrank Hwf D t' t x Hr) in Hc as [Hc|Hs].
    + by apply conflict_sym in Hc.
    + apply H1. by right.
Qed.

Section loops.
Variable desc : nat → entryAcc → option entryAcc.
Hypothesis Hdesc : ∀ s acc acc', s < length (c_order c) → desc s acc = Some acc' → descends c hist s acc.1 acc'.1.
Hypothesis Hcons : ∀ s acc acc', s < length (c_order c) → desc s acc = Some acc' →
  consistent c D acc.1 → free acc.1 s → consistent c D acc'.1.

Lemma descend_consistent d X acc acc' :
  separated d X → vacant acc.1 d → consistent c D acc.1 →
  option_foldl desc X acc = Some acc' → consistent c D acc'.1.
Proof using All.
  intros Hsep Hvac HE Hrun.
  cut (consistent c D acc'.1 ∧ ∀ x, x ∈ acc'.1 → x ∈ acc.1 ∨ ∃ t, t ∈ X ∧ region c t x); [tauto|].
  revert Hrun. apply (option_foldl_ind _ (λ pre a, consistent c D a.1 ∧
    ∀ x, x ∈ a.1 → x ∈ acc.1 ∨ ∃ t, t ∈ pre ∧ region c t x)); [split; [done | by left]|].
  intros pre t post a a' Hsplit [Ha Hin] Hs.
  assert (t ∈ X) as Ht by (rewrite Hsplit; apply elem_of_app; right; left).
  assert (t < length (c_order c)) as Hv by (eapply strict_valid, sep_strict; done).
  pose proof (proj1 (Hdesc t a a' Hv Hs)) as G. split.
  - apply (Hcons t a a'); [done..|]. intros x Hx. destruct (Hin x Hx) as [Hacc|(t' & Ht' & Hr)].
    { by eapply (vacant_free _ d); [|eapply sep_strict|]. }
    assert (t' ∈ X) as Ht'X by (rewrite Hsplit; apply elem_of_app; by left).
    assert (t ≠ t') as Hne.
    { intros <-. pose proof (sep_NoDup _ _ Hsep) as Hnd. rewrite Hsplit in Hnd.
      apply NoDup_app in Hnd as (_ & Hnd & _). apply (Hnd t Ht'). left. }
    assert (∀ h, h ∈ X → kind c h ≠ KindHistory) as Hnh.
    { intros h Hh Hk. pose proof (sep_history _ _ Hsep h Hh Hk) as HX. rewrite HX in Ht, Ht'X.
      apply list_elem_of_singleton in Ht, Ht'X. congruence. }
    destruct (sep_apart _ _ Hsep t t' Ht Ht'X Hne) as (H1 & H2 & H3).
    apply (apart_free t t'); auto. intros Hc. by apply H3, conflict_sym.
  - intros x Hx. destruct (decide (x ∈ a.1)) as [Hxa|Hxa].
    + destruct (Hin x Hxa) as [|(t' & ? & ?)]; [by left | right]. exists t'. split; [apply elem_of_app; by left | done].
    + right. exists t. split; [apply elem_of_app; right; left | by apply (g_region _ _ _ _ _ G)].
Qed.

(** Filling in the uncovered children of a parallel state of the entry set. *)
Lemma fill_consistent anc acc acc' :
  kind c anc = KindParallel → anc ∈ acc.1 → consistent c D acc.1 →
  option_foldl (enterUncovered c desc) (realChildren c anc) acc = Some acc' → consistent c D acc'.1.
Proof using All.
  intros Hpar Hanc HE Hrun. cut (consistent c D acc'.1 ∧ anc ∈ acc'.1); [tauto|].
  revert Hrun. apply (option_foldl_ind _ (λ _ a, consistent c D a.1 ∧ anc ∈ a.1)); [done|].
  intros pre ch post a a' Hsplit [Ha Hin] Hs.
  assert (ch ∈ realChildren c anc) as Hch by (rewrite Hsplit; apply elem_of_app; right; left).
  apply (elem_of_realChildren c Htree) in Hch as [Hp Hk]. unfold enterUncovered in Hs.
  destruct (entrySetCovers c a.1 ch) eqn:Hc; [by injection Hs as <-|].
  assert (ch < length (c_order c)) as Hv by (by eapply wf_parent_valid).
  split; [|apply (g_sub _ _ _ _ _ (proj1 (Hdesc ch a a' Hv Hs))); done].
  apply (Hcons ch a a'); [done..|]. intros x Hx. unfold region, anchor. rewrite !decide_False by done. split.
  - intros Hu. apply not_true_iff_false in Hc. apply Hc, entrySetCovers_spec. by exists x.
  - intros (p & c1 & c2 & Hpd & Hkp & H1 & H2 & Hne & Hx1 & Hc2).
    assert (strict c ch p) as Hchp by (eapply under_strict_trans; [done | exact Hc2 | by apply (strict_parent c Htree)]).
    destruct (strict_above_child c Htree _ _ _ Hp Hchp) as [<-|Hap]; [congruence|].
    apply (strict_child c Htree) in Hap as (ch' & Hch' & Hanc').
    assert (c2 = ch') as ->.
    { apply (child_unique c Htree ch p); [done..|]. right. eapply strict_under_trans; [done | | exact Hanc'].
      by apply (strict_parent c Htree). }
    apply (Ha x anc Hx Hin). by exists p, c1, ch'.
Qed.

(** Filling in ancestors of something in the entry set. *)
Lemma addAncestors_consistent b t e acc acc' :
  e ∈ acc.1 → (∀ a, strict c t a → strict c e a) → consistent c D acc.1 →
  addAncestorStatesToEnter_with c desc b t acc = Some acc' → consistent c D acc'.1.
Proof using All.
  intros He Hbelow HE Hrun. cut (consistent c D acc'.1 ∧ e ∈ acc'.1); [tauto|].
  revert Hrun. apply (option_foldl_ind _ (λ _ a, consistent c D a.1 ∧ e ∈ a.1)); [done|].
  intros pre anc post a a' Hsplit [Ha Hin] Hs.
  assert (strict c e anc) as Hea.
  { apply Hbelow, (properAncestors_strict c t b). rewrite Hsplit. apply elem_of_app. right. left. }
  assert (consistent c D ({[anc]} ∪ a.1)) as Hanc.
  { assert (∀ x y, x ∈ {[anc]} ∪ a.1 → y ∈ a.1 → ¬ conflict c D x y) as Hone.
    { intros x y [->%elem_of_singleton|Hx]%elem_of_union Hy; [|by apply Ha]. intros Hc.
      apply (Ha e y Hin Hy). eapply conflict_mono_l; [done | | done]. by right. }
    intros x y Hx [->%elem_of_singleton|Hy]%elem_of_union Hc; [|by eapply Hone]. apply conflict_sym in Hc.
    apply (Hone x e Hx Hin). apply conflict_sym. eapply conflict_mono_l; [done | | done]. by right. }
  unfold enterAncestor in Hs. case_decide as Hpar.
  - split; [by eapply (fill_consistent anc (enter anc a)); [| set_solver |..]|].
    apply (fill_loop c hrank Hwf hist Hhist desc Hdesc) in Hs as [Hsub _]. simpl in Hsub. set_solver.
  - injection Hs as <-. simpl. split; [done | set_solver].
Qed.

Lemma enterTargets_consistent d X acc acc' :
  separated d X → vacant acc.1 d → consistent c D acc.1 →
  enterTargets c desc X (Some d) acc = Some acc' → consistent c D acc'.1.
Proof using All.
  intros Hsep Hvac HE Hrun. unfold enterTargets in Hrun. apply bind_Some in Hrun as (a & Ha & Hrun).
  assert (consistent c D a.1) as HEa by (by eapply descend_consistent).
  assert (Forall (λ s, s < length (c_order c)) X) as HXv.
  { apply Forall_forall. intros t Ht. eapply strict_valid, sep_strict; done. }
  apply (descend_loop c hrank Hwf hist Hhist desc Hdesc) in Ha as (Hsub & _ & Heff); [|done].
  assert (∀ t, t ∈ X → ∃ e, e ∈ a.1 ∧ kind c e ≠ KindHistory ∧ ∀ y, strict c t y → strict c e y) as Hwit.
  { intros t Ht. destruct (effective_exists c hrank Hwf hist Hhist t) as [e He]. exists e.
    pose proof (effective_region c hrank Hwf hist Hhist t e He) as [Hr Hk].
    split_and!; [by eapply Heff | done |]. intros y. by eapply region_strict. }
  cut (consistent c D acc'.1 ∧ a.1 ⊆ acc'.1); [tauto|].
  revert Hrun. apply (option_foldl_ind _ (λ _ b, consistent c D b.1 ∧ a.1 ⊆ b.1)); [done|].
  intros pre t post b b' Hsplit [Hb Hsub'] Hs.
  assert (t ∈ X) as Ht by (rewrite Hsplit; apply elem_of_app; right; left).
  destruct (Hwit t Ht) as (e & He & Hk & Hbelow). apply Hsub' in He. split.
  - by eapply addAncestors_consistent.
  - eapply (addAncestors_grows c hrank Hwf hist Hhist desc Hdesc) in Hs as [G _];
      [etrans; [done | apply (g_sub _ _ _ _ _ G)] | done.. | by eapply sep_strict].
Qed.

End loops.

Lemma vacant_enter s E : kind c s ≠ KindHistory → consistent c D E → free E s →
  consistent c D ({[s]} ∪ E) ∧ vacant ({[s]} ∪ E) s.
Proof using All.
  intros Hk HE Hfree. assert (∀ x, x ∈ E → ¬ under c x s ∧ ¬ conflict c D x s) as Hx.
  { intros x Hx. specialize (Hfree x Hx). unfold region, anchor in Hfree. by rewrite !decide_False in Hfree. }
  split.
  - intros x y [->%elem_of_singleton|Hx1]%elem_of_union [->%elem_of_singleton|Hy1]%elem_of_union.
    + by eapply conflict_irrefl.
    + intros Hc%conflict_sym. by apply (Hx y Hy1).
    + by apply Hx.
    + by apply HE.
  - intros x [->%elem_of_singleton|Hx1]%elem_of_union.
    + split; [by eapply strict_irrefl | by eapply conflict_irrefl].
    + split; [|by apply Hx]. intros Hs. destruct (Hx x Hx1) as [Hu _]. apply Hu. by right.
Qed.

Lemma addDescendant_consistent fuel s acc acc' :
  s < length (c_order c) → addDescendant c hist fuel s acc = Some acc' →
  consistent c D acc.1 → free acc.1 s → consistent c D acc'.1.
Proof using All.
  revert s acc acc'. induction fuel as [|fuel IH]; intros s acc acc' Hv Hrun HE Hfree; [done|]. simpl in Hrun.
  pose proof (addDescendant_grows c hrank Hwf hist Hhist fuel) as Hdesc.
  pose proof (vacant_enter s acc.1) as Henter. destruct (kind c s) eqn:Hk.
  - injection Hrun as <-. by apply Henter.
  - destruct (wf_compound c hrank Hwf s Hk) as (t & Ht & Hset). rewrite Ht in Hrun.
    destruct Henter as [HE1 Hvac]; [done..|].
    eapply (enterTargets_consistent _ Hdesc IH s); [by apply target_set_separated | | | exact Hrun]; done.
  - destruct Henter as [HE1 Hvac]; [done..|].
    eapply (descend_consistent _ Hdesc IH s); [by apply children_separated | | | exact Hrun]; done.
  - injection Hrun as <-. by apply Henter.
  - destruct (wf_history c hrank Hwf s Hk) as (q & t & Hq & Ht & _ & Hset & _). rewrite Hq in Hrun.
    assert (vacant acc.1 q) as Hvac.
    { intros x Hx. specialize (Hfree x Hx). unfold region, anchor in Hfree.
      by rewrite !decide_True, Hq in Hfree. }
    destruct (hist !! s) as [recorded|] eqn:Hr.
    + destruct (Hhist s recorded Hr) as (q' & _ & Hq' & Hset' & Hreal). simplify_eq.
      eapply (enterTargets_consistent _ Hdesc IH q); [by apply target_set_separated | | | exact Hrun]; done.
    + rewrite Ht in Hrun.
      eapply (enterTargets_consistent _ Hdesc IH q); [by apply target_set_separated | | | exact Hrun]; done.
Qed.

End consistency.
