(* ===== verification/EntryTotal.v ===== *)
(** * The entry-set recursion returns

    Every recursive call of [addDescendantStatesToEnter] lowers [weight]: a
    state weighs more than everything inside it, and a history state more than
    the states of its parent and than the histories its default leads to.
    [entryFuel] exceeds the weight of every state. *)

From S2P Require Import Prelude Identifier Values Events Datamodel Chart Tree Legal Interp Entry EntryCorrect.
From stdpp Require Import options.

Lemma option_foldl_total {A B} (f : A → B → option B) xs b :
  (∀ x b, x ∈ xs → is_Some (f x b)) → is_Some (option_foldl f xs b).
Proof.
  revert b. induction xs as [|x xs IH]; intros b H; simpl; [eauto|].
  destruct (H x b) as [b' Hb']; [left|]. rewrite Hb'. simpl. apply IH. intros y ??. apply H. by right.
Qed.

Section total.
Context `{DM : DatamodelSession}.
Variable c : Chart.
Variable hrank : nat → nat.
Hypothesis Hwf : wf_chart c hrank.
Variable hist : gmap nat (list nat).
Hypothesis Hhist : history_ok c hist.

Let Htree := wf_is_tree c hrank Hwf.
Let n := length (c_order c).

Definition depth (s : nat) : nat := length (ancestors c s).

Lemma depth_parent s p : parent c s = Some p → depth s = S (depth p).
Proof using All. intros H. unfold depth. by rewrite (ancestors_unfold c Htree s), H. Qed.

Lemma depth_strict x a : strict c x a → depth a < depth x.
Proof using All.
  revert a. induction (lt_wf x) as [x _ IH]. intros a (p & Hp & Hpa)%(strict_unfold c Htree).
  rewrite (depth_parent x p Hp). destruct Hpa as [->|Hpa]; [lia|].
  specialize (IH p (wf_parent_lt c Htree _ _ Hp) a Hpa). lia.
Qed.

Lemma depth_under x a : under c x a → depth a ≤ depth x.
Proof using All. intros [->|H]; [done|]. apply depth_strict in H. lia. Qed.

Lemma depth_le s : depth s ≤ s.
Proof using All.
  induction (lt_wf s) as [s _ IH]. destruct (parent c s) as [p|] eqn:Hp.
  - rewrite (depth_parent s p Hp). pose proof (wf_parent_lt c Htree _ _ Hp) as Hlt. specialize (IH p Hlt). lia.
  - unfold depth. rewrite (ancestors_unfold c Htree), Hp. simpl. lia.
Qed.

Definition weight (s : nat) : nat :=
  if decide (kind c s = KindHistory)
  then match parent c s with Some q => (n + 2) * (n - depth q - 1) + 1 + hrank s | None => 0 end
  else (n + 2) * (n - depth s).

(** Everything inside a valid real state weighs less, and by a margin. *)
Lemma weight_inside x a : strict c x a → weight x < (n + 2) * (n - depth a).
Proof using All.
  intros Hx. assert (depth a < n) as Ha.
  { pose proof (strict_lt c Htree _ _ Hx). pose proof (strict_valid c Htree _ _ Hx). pose proof (depth_le a).
    unfold n. lia. }
  unfold weight. case_decide as Hk.
  - destruct (wf_history c hrank Hwf x Hk) as (q & t & Hq & _ & Hr & _). rewrite Hq. fold n in Hr.
    pose proof (depth_under q a (strict_above_child c Htree _ _ _ Hq Hx)) as Hd.
    assert ((n + 2) * (n - depth q - 1) ≤ (n + 2) * (n - depth a - 1)) by (apply Nat.mul_le_mono_l; lia).
    assert ((n + 2) * (n - depth a) = (n + 2) * (n - depth a - 1) + (n + 2)) by nia. lia.
  - apply depth_strict in Hx. apply Nat.mul_lt_mono_pos_l; lia.
Qed.

Lemma weight_history h q x : kind c h = KindHistory → parent c h = Some q → strict c x q →
  (kind c x = KindHistory → hrank x < hrank h) → weight x < weight h.
Proof using All.
  intros Hk Hq Hx Hr. unfold weight at 2. rewrite decide_True, Hq by done. unfold weight. case_decide as Hxk.
  - specialize (Hr Hxk). destruct (wf_history c hrank Hwf x Hxk) as (q' & t & Hq' & _). rewrite Hq'.
    pose proof (depth_under q' q (strict_above_child c Htree _ _ _ Hq' Hx)) as Hd.
    assert ((n + 2) * (n - depth q' - 1) ≤ (n + 2) * (n - depth q - 1)) by (apply Nat.mul_le_mono_l; lia). lia.
  - apply depth_strict in Hx.
    assert ((n + 2) * (n - depth x) ≤ (n + 2) * (n - depth q - 1)) by (apply Nat.mul_le_mono_l; lia). lia.
Qed.

Lemma weight_entryFuel s : weight s < entryFuel c.
Proof using All.
  unfold entryFuel. fold n. unfold weight. case_decide as Hk; [|nia].
  destruct (wf_history c hrank Hwf s Hk) as (q & t & Hq & _ & Hr & _). rewrite Hq. fold n in Hr.
  pose proof (wf_parent_lt c Htree _ _ Hq). pose proof (wf_parent_valid c Htree _ _ Hq) as Hv. fold n in Hv.
  assert ((n + 2) * (n - depth q - 1) ≤ (n + 2) * (n - 1)) by (apply Nat.mul_le_mono_l; lia).
  assert (n * (n + 2) = (n + 2) * (n - 1) + (n + 2)) by nia. lia.
Qed.

Section loops.
Variable desc : nat → entryAcc → option entryAcc.

Lemma addAncestors_total b t acc :
  (∀ x acc, inside c x b → kind c x ≠ KindHistory → is_Some (desc x acc)) → inside c t b →
  is_Some (addAncestorStatesToEnter_with c desc b t acc).
Proof using All.
  intros Hdesc Ht. apply option_foldl_total. intros anc a Hanc. unfold enterAncestor. case_decide; [|eauto].
  apply option_foldl_total. intros ch a' [Hp Hk]%(elem_of_realChildren c Htree). unfold enterUncovered.
  destruct (entrySetCovers c a'.1 ch); [eauto|]. apply Hdesc; [|done]. destruct b as [d|]; [|done]. simpl in *.
  apply (properAncestors_Some c Htree) in Hanc as [_ Had]; [|done].
  eapply strict_trans; [done | by apply (strict_parent c Htree) | done].
Qed.

Lemma enterTargets_total X d acc :
  (∀ x acc, strict c x d → kind c x ≠ KindHistory → is_Some (desc x acc)) →
  (∀ t acc, t ∈ X → strict c t d ∧ is_Some (desc t acc)) →
  is_Some (enterTargets c desc X (Some d) acc).
Proof using All.
  intros Hdesc HX. unfold enterTargets.
  destruct (option_foldl_total desc X acc) as [a Ha]; [intros; by apply HX|]. rewrite Ha. simpl.
  apply option_foldl_total. intros t a' Ht. apply addAncestors_total; [done | by apply HX].
Qed.
End loops.

Lemma addDescendant_total fuel s acc : weight s < fuel → is_Some (addDescendant c hist fuel s acc).
Proof using All.
  revert s acc. induction fuel as [|fuel IH]; intros s acc Hw; [lia|]. simpl.
  assert (∀ a x acc, weight s = (n + 2) * (n - depth a) → strict c x a →
    is_Some (addDescendant c hist fuel x acc)) as Hin.
  { intros a x acc' Ha Hx. apply IH. pose proof (weight_inside x a Hx). lia. }
  assert (kind c s ≠ KindHistory → weight s = (n + 2) * (n - depth s)) as Hself.
  { intros Hk. unfold weight. by rewrite decide_False. }
  destruct (kind c s) eqn:Hk; [by eauto|..| by eauto|].
  - destruct (wf_compound c hrank Hwf s Hk) as (t & Ht & Hset). rewrite Ht.
    apply enterTargets_total; [intros; by eapply Hin; [apply Hself|]|].
    intros x acc' Hx. pose proof (target_set_strict c _ _ _ Hset Hx). split; [done|]. by eapply Hin; [apply Hself|].
  - apply option_foldl_total. intros ch a [Hp _]%(elem_of_realChildren c Htree).
    eapply Hin; [by apply Hself | by apply (strict_parent c Htree)].
  - destruct (wf_history c hrank Hwf s Hk) as (q & t & Hq & Ht & _ & Hset & Hr). rewrite Hq.
    assert (∀ x acc, strict c x q → (kind c x = KindHistory → hrank x < hrank s) →
      is_Some (addDescendant c hist fuel x acc)) as Hbelow.
    { intros x acc' Hx Hxr. apply IH. pose proof (weight_history s q x Hk Hq Hx Hxr). lia. }
    destruct (hist !! s) as [recorded|] eqn:Hrec.
    + destruct (Hhist s recorded Hrec) as (q' & _ & Hq' & Hset' & Hreal). simplify_eq.
      apply enterTargets_total; [intros; by apply Hbelow|]. intros x acc' Hx.
      pose proof (target_set_strict c _ _ _ Hset' Hx). split; [done|]. apply Hbelow; [done|].
      rewrite Forall_forall in Hreal. intros ?. by destruct (Hreal x Hx).
    + rewrite Ht. apply enterTargets_total; [intros; by apply Hbelow|]. intros x acc' Hx.
      pose proof (target_set_strict c _ _ _ Hset Hx). split; [done|]. apply Hbelow; [done|].
      rewrite Forall_forall in Hr. by apply Hr.
Qed.

End total.
