(* ===== verification/Domain.v ===== *)
(** * Effective targets, transition domains and the entry set of a transition

    [effectiveTargetStates] computes exactly the states its targets stand for;
    the domain of a transition contains its source and all of them.  The entry
    set of one transition fills its domain: one child of the domain is entered,
    every entered state is complete, and nothing outside of the domain changes. *)

From S2P Require Import Prelude Identifier Values Events Datamodel Chart Tree Legal Interp Entry EntryCorrect EntryConsistent EntryTotal.
From stdpp Require Import options.

Section domain.
Context `{DM : DatamodelSession}.
Variable c : Chart.
Variable hrank : nat → nat.
Hypothesis Hwf : wf_chart c hrank.
Variable ip : interpretation.
Hypothesis Hhist : history_ok c (historyValue ip).

Let Htree := wf_is_tree c hrank Hwf.
Let n := length (c_order c).
Let hist := historyValue ip.

Lemma elem_of_collect s l e : e ∈ collect s l ↔ e ∈ l ∨ e = s.
Proof.
  unfold collect. case_decide; [naive_solver|]. rewrite elem_of_app, list_elem_of_singleton. done.
Qed.

Lemma foldl_collect {A} (f : A → list nat → list nat) (P : A → nat → Prop) xs l e :
  (∀ x l, x ∈ xs → (e ∈ f x l ↔ e ∈ l ∨ P x e)) →
  e ∈ foldl (λ l x, f x l) l xs ↔ e ∈ l ∨ ∃ x, x ∈ xs ∧ P x e.
Proof.
  revert l. induction xs as [|x xs IH]; intros l H; simpl.
  { setoid_rewrite elem_of_nil. naive_solver. }
  rewrite IH by (intros y l' Hy; apply H; by right). rewrite (H x l) by left.
  setoid_rewrite elem_of_cons. naive_solver.
Qed.

Lemma elem_of_collectEffectiveTarget fuel visiting s l e :
  0 < fuel → (kind c s = KindHistory → S (hrank s) < fuel ∧ ∀ v, v ∈ visiting → hrank s < hrank v) →
  e ∈ collectEffectiveTarget c hist fuel visiting s l ↔ e ∈ l ∨ effective c hist s e.
Proof using All.
  revert visiting s l. induction fuel as [|fuel IH]; intros visiting s l Hpos Hs; [lia|]. simpl.
  case_decide as Hk.
  - destruct (Hs Hk) as [Hfuel Hvis]. rewrite decide_False by (intros Hin%Hvis; lia).
    destruct (wf_history c hrank Hwf s Hk) as (q & t & Hq & Ht & _ & _ & Hrank). rewrite Ht.
    rewrite Forall_forall in Hrank. destruct (hist !! s) as [recorded|] eqn:Hr.
    + rewrite (foldl_collect collect (λ r e, e = r)) by (intros; apply elem_of_collect).
      split; (intros [?|H]; [by left | right]).
      * destruct H as (r & Hin & ->). by eapply effective_recorded.
      * inversion H; simplify_eq. eauto.
    + rewrite (foldl_collect (λ d l, collectEffectiveTarget c hist fuel (s :: visiting) d l) (effective c hist)).
      2: { intros x l' Hx. pose proof (Hrank x Hx) as Hlt. destruct (decide (kind c x = KindHistory)) as [Hxk|Hxk].
           - apply IH; [specialize (Hlt Hxk); lia|]. intros _. specialize (Hlt Hxk). split; [lia|].
             intros v [->|Hv]%elem_of_cons; [lia|]. specialize (Hvis v Hv). lia.
           - apply IH; [lia | done]. }
      split; (intros [?|H]; [by left | right]).
      * destruct H as (x & Hin & He). by eapply effective_default.
      * inversion H; simplify_eq. eauto.
  - rewrite elem_of_collect. split; (intros [?|H]; [by left | right]).
    + subst e. by constructor.
    + by apply (effective_real c) in H.
Qed.

Lemma elem_of_effectiveTargetStates t e :
  e ∈ effectiveTargetStates c ip t ↔ ∃ x, x ∈ resolve c (t_target t) ∧ effective c hist x e.
Proof using All.
  unfold effectiveTargetStates.
  etrans; [apply (foldl_collect (λ s l, collectEffectiveTarget c hist (S (S n)) [] s l) (effective c hist))|].
  2: { rewrite elem_of_nil. naive_solver. }
  - intros x l _. apply elem_of_collectEffectiveTarget; [lia|]. intros Hk.
    destruct (wf_history c hrank Hwf x Hk) as (q & t' & _ & _ & Hr & _). fold n in Hr.
    split; [lia | by intros v ?%elem_of_nil].
Qed.

Lemma effectiveTargetStates_nil t : effectiveTargetStates c ip t = [] ↔ resolve c (t_target t) = [].
Proof using All.
  split; intros H.
  - destruct (resolve c (t_target t)) as [|x xs] eqn:Hx; [done|]. exfalso.
    destruct (effective_exists c hrank Hwf hist Hhist x) as [e He].
    assert (e ∈ effectiveTargetStates c ip t) as Hin.
    { apply elem_of_effectiveTargetStates. exists x. rewrite Hx. split; [left | done]. }
    rewrite H in Hin. by apply elem_of_nil in Hin.
  - destruct (effectiveTargetStates c ip t) as [|e es] eqn:He; [done|]. exfalso.
    assert (e ∈ effectiveTargetStates c ip t) as (x & Hx & _)%elem_of_effectiveTargetStates by (rewrite He; left).
    rewrite H in Hx. by apply elem_of_nil in Hx.
Qed.

Lemma resolve_valid ids x : x ∈ resolve c ids → x < length (c_order c).
Proof using All. intros (id & _ & Hid)%list_elem_of_omap. by eapply wf_byID. Qed.

Lemma effective_valid x e : x < length (c_order c) → effective c hist x e → e < length (c_order c).
Proof using All.
  intros Hx He. pose proof (effective_region c hrank Hwf hist Hhist x e He) as [Hr _]. unfold region in Hr.
  case_decide.
  - destruct (parent c x) as [q|]; [|done]. by eapply strict_valid.
  - destruct Hr as [->|Hr]; [done | by eapply strict_valid].
Qed.

(** ** Domains *)

Lemma allDescendants_spec X a : allDescendants c X a = true ↔ ∀ x, x ∈ X → strict c x a.
Proof.
  unfold allDescendants. rewrite forallb_forall. setoid_rewrite isDescendant_spec.
  setoid_rewrite <- list_elem_of_In. done.
Qed.

(** The domain of a transition with targets: a compound state that contains the
    source, and strictly contains the targets unless the target is the root. *)
Lemma transitionDomain_spec t :
  t_source t < length (c_order c) → resolve c (t_target t) ≠ [] →
  ∃ d, transitionDomain c ip t = Some d ∧ kind c d = KindCompound ∧ under c (t_source t) d
    ∧ d < length (c_order c)
    ∧ ∀ e, e ∈ effectiveTargetStates c ip t → strict c e d ∨ (e = root ∧ d = root).
Proof using All.
  intros Hsrc Hne. unfold transitionDomain.
  destruct (effectiveTargetStates c ip t) as [|e0 es] eqn:Heff; [by apply effectiveTargetStates_nil in Heff|].
  assert (∀ e, e ∈ e0 :: es → e < length (c_order c)) as Hvalid.
  { rewrite <- Heff. intros e (x & Hx & He)%elem_of_effectiveTargetStates.
    eapply effective_valid; [by eapply resolve_valid | done]. }
  destruct (t_internal t && bool_decide (kind c (t_source t) = KindCompound) && allDescendants c (e0 :: es) (t_source t)) eqn:Hint.
  - rewrite !andb_true_iff, bool_decide_eq_true, allDescendants_spec in Hint. destruct Hint as [[_ Hk] Hall].
    exists (t_source t). split_and!; [done | done | apply under_refl | done |]. intros e He. left. auto.
  - unfold findLCCA. set (P := λ anc, isCompoundOrRoot c anc && allDescendants c (t_source t :: e0 :: es) anc = true).
    assert (properAncestors c (t_source t) None = ancestors c (t_source t)) as ->.
    { unfold properAncestors. induction (ancestors c (t_source t)) as [|a l IH]; [done|]. simpl. by f_equal. }
    destruct (filter P (ancestors c (t_source t))) as [|anc ancs] eqn:Hf.
    + exists root. pose proof (wf_root c hrank Hwf) as Hroot.
      split_and!; [done | done | by apply (under_root c Htree) | by apply valid_nonatomic; rewrite Hroot |].
      intros e He. destruct (decide (e = root)) as [->|]; [by right | left]. apply (strict_root c Htree); auto.
    + assert (head (filter P (ancestors c (t_source t))) = Some anc) as Hh by (by rewrite Hf).
      apply (chain_first c (wf_is_tree c hrank Hwf) P) in Hh as (Hanc & HP & _). unfold P in HP.
      rewrite andb_true_iff, allDescendants_spec in HP. destruct HP as [Hc Hall].
      exists anc. split_and!; [done | | by right | |].
      * unfold isCompoundOrRoot in Hc. rewrite orb_true_iff, !bool_decide_eq_true in Hc.
        destruct Hc as [Hc|Hc]; [done | rewrite Hc; by apply (wf_root c hrank Hwf)].
      * pose proof (strict_lt c Htree _ _ Hanc). lia.
      * intros e He. left. apply Hall. by right.
Qed.

Lemma transitionDomain_None t : resolve c (t_target t) = [] → transitionDomain c ip t = None.
Proof using All. intros H%effectiveTargetStates_nil. unfold transitionDomain. by rewrite H. Qed.

(** ** The entry set of one transition *)

(** Every target lies in the domain: a real target because it is one of the
    effective targets, a history state because its transition starts outside of
    the state it belongs to. *)
Lemma targets_in_domain t d :
  t_source t < length (c_order c) → resolve c (t_target t) ≠ [] →
  target_set c root (resolve c (t_target t)) →
  Forall (λ h, kind c h = KindHistory → outside c (t_source t) h = true) (resolve c (t_target t)) →
  transitionDomain c ip t = Some d →
  ∀ x, x ∈ resolve c (t_target t) → strict c x d.
Proof using All.
  intros Hsrc Hne Hset Hout Hd x Hx.
  destruct (transitionDomain_spec t Hsrc Hne) as (d' & Hd' & _ & Hunder & _ & Heff). simplify_eq.
  pose proof (target_set_strict c _ _ _ Hset Hx) as Hxroot.
  destruct (effective_exists c hrank Hwf hist Hhist x) as [e He].
  assert (e ∈ effectiveTargetStates c ip t) as Hin by (apply elem_of_effectiveTargetStates; eauto).
  pose proof (effective_region c hrank Hwf hist Hhist x e He) as [Hr _].
  assert (strict c e d) as Hed.
  { destruct (Heff e Hin) as [|[-> _]]; [done|]. exfalso.
    eapply root_not_strict; [exact Htree|]. by eapply region_strict. }
  destruct (decide (kind c x = KindHistory)) as [Hk|Hk].
  - rewrite Forall_forall in Hout. specialize (Hout x Hx Hk). unfold outside in Hout.
    destruct (wf_history c hrank Hwf x Hk) as (q & _ & Hq & _). rewrite Hq, negb_true_iff in Hout.
    assert (¬ strict c (t_source t) q) as Hnq by (rewrite <- isDescendant_spec; congruence).
    unfold region in Hr. rewrite decide_True, Hq in Hr by done.
    destruct (strict_or_under c Htree e d q) as [Hdq|Hqd]; [by right | by right | |].
    + destruct Hnq. by eapply under_strict_trans.
    + eapply strict_under_trans; [done | by apply (strict_parent c Htree) | done].
  - by rewrite (effective_real c hist x e Hk He) in Hed.
Qed.

Lemma outside_consistent d E : (∀ x, x ∈ E → ¬ under c x d) → consistent c d E ∧ vacant c d E d.
Proof using All.
  intros HE. assert (∀ x y, x ∈ E → ¬ conflict c d x y) as Hno.
  { intros x y Hx (p & c1 & c2 & Hp & _ & H1 & _ & _ & Hx1 & _). apply (HE x Hx).
    eapply under_trans; [done | exact Hx1 |]. right. eapply strict_under_trans; [done | | exact Hp].
    by apply (strict_parent c Htree). }
  split; [intros x y Hx _; by apply Hno|]. intros x Hx. split; [|by apply Hno].
  intros Hs. apply (HE x Hx). by right.
Qed.

(** What the entry set of a transition with domain [d] adds to [E]. *)
Definition fills (d : nat) (E E' : gset nat) : Prop :=
  grows c (λ x, strict c x d ∨ (x = root ∧ d = root)) (Some d) E E'
  ∧ consistent c d E' ∧ ∃ e, e ∈ E' ∧ strict c e d ∧ kind c e ≠ KindHistory.

Lemma target_entry t d acc acc' :
  t_source t < length (c_order c) → target_set c root (resolve c (t_target t)) →
  Forall (λ h, kind c h = KindHistory → outside c (t_source t) h = true) (resolve c (t_target t)) →
  transitionDomain c ip t = Some d → (∀ x, x ∈ acc.1 → ¬ under c x d) →
  addTransitionEntry c ip t acc = Some acc' → fills d acc.1 acc'.1.
Proof using All.
  intros Hsrc Hset Hout Hd Hfree Hrun. pose proof Hset as [Hne _].
  pose proof (targets_in_domain t d Hsrc Hne Hset Hout Hd) as HXd.
  unfold addTransitionEntry in Hrun. rewrite Hd in Hrun. apply bind_Some in Hrun as (a & Ha & Hrun).
  set (desc := addDescendantStatesToEnter c ip) in *.
  pose proof (addDescendant_grows c hrank Hwf hist Hhist (entryFuel c) : ∀ s acc acc', _ → desc s acc = Some acc' → _) as Hdesc.
  pose proof (addDescendant_consistent c hrank Hwf hist Hhist d (entryFuel c)) as Hcons. fold hist in Hcons.
  destruct (outside_consistent d acc.1 Hfree) as [HE Hvac].
  assert (separated c d d (resolve c (t_target t))) as Hsep.
  { destruct (target_set_separated c hrank Hwf hist Hhist d root _ Hset) as [S1 S2 S3 S4]. by split. }
  assert (consistent c d a.1) as HEa by (by eapply (descend_consistent c hrank Hwf hist Hhist d desc Hdesc Hcons d)).
  apply (descend_loop c hrank Hwf hist Hhist desc Hdesc) in Ha as (Hsub & Hnew & Heff);
    [|apply Forall_forall; intros x Hx; by eapply resolve_valid].
  assert (∀ e, e ∈ effectiveTargetStates c ip t → e ∈ a.1 ∧ kind c e ≠ KindHistory ∧ strict c e d) as Hes.
  { intros e (x & Hx & He)%elem_of_effectiveTargetStates.
    pose proof (effective_region c hrank Hwf hist Hhist x e He) as [Hr Hk].
    split_and!; [by eapply Heff | done | eapply region_strict; eauto]. }
  assert (consistent c d acc'.1) as HE'.
  { cut (consistent c d acc'.1 ∧ a.1 ⊆ acc'.1); [tauto|]. revert Hrun.
    apply (option_foldl_ind _ (λ _ b, consistent c d b.1 ∧ a.1 ⊆ b.1)); [done|].
    intros pre e post b b' Hsplit [Hb Hsub'] Hs.
    destruct (Hes e) as (He & Hk & Hed); [rewrite Hsplit; apply elem_of_app; right; left|]. apply Hsub' in He.
    split; [by eapply (addAncestors_consistent c hrank Hwf hist Hhist d desc Hdesc Hcons (Some d) e e)|].
    apply (addAncestors_grows c hrank Hwf hist Hhist desc Hdesc e d e) in Hs as [G _]; [|done..].
    etrans; [done | apply (g_sub _ _ _ _ _ G)]. }
  apply (ancestors_loop c hrank Hwf hist Hhist desc Hdesc) in Hrun as [G Hall].
  2: { apply Forall_forall. intros e (He & Hk & Hed)%Hes. split; [done|]. by exists e. }
  pose proof (g_sub _ _ _ _ _ G) as Hsub'. split_and!; [|done|].
  - split; [by etrans|..]; intros x Hx Hn; (destruct (decide (x ∈ a.1)) as [Hxa|Hxa];
      [destruct (Hnew x Hxa Hn) as (t' & Ht' & Hr & ? & ? & ? & Hu)|]); try done.
    + left. eapply region_strict; eauto.
    + left. by apply (g_region _ _ _ _ _ G).
    + by apply (g_real _ _ _ _ _ G).
    + by eapply closed_mono.
    + by apply (g_closed _ _ _ _ _ G).
    + eapply (upto_extend c hrank Hwf hist Hhist desc Hdesc); [by apply HXd | done | by eapply upto_mono |].
      intros y Hty Hyd. destruct (effective_exists c hrank Hwf hist Hhist t') as [e He].
      apply (Hall e); [apply elem_of_effectiveTargetStates; eauto | | done].
      eapply region_strict; [done | | done]. by apply (effective_region c hrank Hwf hist Hhist).
    + by apply (g_upto _ _ _ _ _ G).
  - destruct (effectiveTargetStates c ip t) as [|e es] eqn:E; [by apply effectiveTargetStates_nil in E|].
    destruct (Hes e) as (He & Hk & Hed); [left|]. exists e. split_and!; [by apply Hsub' | done..].
Qed.

(** The same for a transition to the root. *)
Lemma root_entry t d acc acc' :
  t_source t < length (c_order c) → resolve c (t_target t) = [root] →
  transitionDomain c ip t = Some d → (∀ x, x ∈ acc.1 → ¬ under c x d) →
  addTransitionEntry c ip t acc = Some acc' → fills d acc.1 acc'.1.
Proof using All.
  intros Hsrc HX Hd Hfree Hrun. pose proof (wf_root c hrank Hwf) as Hk.
  assert (root < length (c_order c)) as Hv by (apply valid_nonatomic; by rewrite Hk).
  assert (kind c root ≠ KindHistory) as Hreal by congruence.
  assert (∀ e, e ∈ effectiveTargetStates c ip t → e = root) as Heff.
  { intros e (x & Hx & He)%elem_of_effectiveTargetStates. rewrite HX in Hx.
    apply list_elem_of_singleton in Hx as ->. by eapply effective_real. }
  assert (d = root) as ->.
  { destruct (transitionDomain_spec t Hsrc) as (d' & Hd' & _ & _ & _ & He); [by rewrite HX|]. simplify_eq.
    destruct (He root) as [Hs|[_ ?]]; [|by eapply root_not_strict in Hs|done].
    apply elem_of_effectiveTargetStates. exists root. rewrite HX. split; [left | by constructor]. }
  unfold addTransitionEntry in Hrun. rewrite Hd, HX in Hrun. simpl in Hrun.
  destruct (addDescendantStatesToEnter c ip root acc) as [a|] eqn:Ha; [|done]. simpl in Hrun.
  assert (acc' = a) as ->.
  { revert Hrun. apply (option_foldl_ind _ (λ _ b, b = a)); [done|].
    intros pre e post b b' Hsplit -> Hs. rewrite (Heff e) in Hs by (rewrite Hsplit; apply elem_of_app; right; left).
    unfold addAncestorStatesToEnter, addAncestorStatesToEnter_with in Hs.
    rewrite (properAncestors_root c Htree) in Hs. by injection Hs as <-. }
  destruct (outside_consistent root acc.1 Hfree) as [HE _].
  assert (consistent c root a.1) as HE'.
  { apply (addDescendant_consistent c hrank Hwf hist Hhist root (entryFuel c) root acc a Hv Ha HE).
    intros x Hx. unfold region, anchor. rewrite !decide_False by done. split; [by apply Hfree|].
    intros (p & c1 & c2 & _ & _ & _ & H2 & _ & _ & Hr2). eapply (root_not_strict c Htree p).
    eapply under_strict_trans; [done | exact Hr2 | by apply (strict_parent c Htree)]. }
  apply (addDescendant_grows c hrank Hwf hist Hhist (entryFuel c)) in Ha as [G Hin]; [|done].
  assert (root ∈ a.1) as Hroot by (apply Hin; by constructor).
  assert (∀ x, x ∈ a.1 → x ∉ acc.1 → x = root ∨ strict c x root) as Hnew.
  { intros x Hx Hn. pose proof (g_region _ _ _ _ _ G x Hx Hn) as Hr. unfold region in Hr.
    rewrite decide_False in Hr by done. destruct Hr; auto. }
  split_and!; [|done|].
  - destruct G as [G1 G2 G3 G4 G5]. split; try done.
    + intros x Hx Hn. destruct (Hnew x Hx Hn); auto.
    + intros x Hx Hn y Hy _. apply (G5 x Hx Hn); [done|].
      destruct (parent c root) as [p|] eqn:Hp; [|done]. apply (wf_parent_lt c Htree) in Hp. unfold root in Hp. lia.
  - assert (root ∉ acc.1) as Hn by (intros Hx; apply (Hfree _ Hx), under_refl).
    destruct (g_closed _ _ _ _ _ G root Hroot Hn) as [Hc _]. destruct (Hc Hk) as (ch & Hch & x & Hx & Hxc).
    apply (elem_of_realChildren c Htree) in Hch as [Hp _].
    assert (strict c x root) as Hs by (eapply under_strict_trans; [done | done | by apply (strict_parent c Htree)]).
    exists x. split_and!; [done | done |]. apply (g_real _ _ _ _ _ G x Hx).
    intros Hacc. apply (Hfree x Hacc). by right.
Qed.

Lemma transition_entry t d acc acc' :
  t_source t < length (c_order c) → transition_targets c (t_source t) (resolve c (t_target t)) →
  transitionDomain c ip t = Some d → (∀ x, x ∈ acc.1 → ¬ under c x d) →
  addTransitionEntry c ip t acc = Some acc' → fills d acc.1 acc'.1.
Proof using All.
  intros Hsrc [HX|[HX|[Hset Hout]]] Hd Hfree Hrun.
  - by rewrite (transitionDomain_None t HX) in Hd.
  - by eapply root_entry.
  - by eapply target_entry.
Qed.

(** A transition without (resolved) targets enters nothing. *)
Lemma transition_entry_nil t acc :
  resolve c (t_target t) = [] → addTransitionEntry c ip t acc = Some acc.
Proof using All.
  intros HX. pose proof (proj2 (effectiveTargetStates_nil t) HX) as He.
  unfold addTransitionEntry. by rewrite HX, He.
Qed.

(** The entry set of a transition is always computed. *)
Lemma transition_entry_total t acc :
  t_source t < length (c_order c) → transition_targets c (t_source t) (resolve c (t_target t)) →
  is_Some (addTransitionEntry c ip t acc).
Proof using All.
  intros Hsrc Htargets.
  assert (∀ x acc, is_Some (addDescendantStatesToEnter c ip x acc)) as Hdesc.
  { intros x a. apply (addDescendant_total c hrank Hwf hist Hhist). apply (weight_entryFuel c hrank Hwf hist Hhist). }
  unfold addTransitionEntry.
  destruct (option_foldl_total (addDescendantStatesToEnter c ip) (resolve c (t_target t)) acc) as [a ->]; [done|].
  simpl. apply option_foldl_total. intros e b He.
  destruct (resolve c (t_target t)) as [|x xs] eqn:HX.
  { apply elem_of_effectiveTargetStates in He as (y & Hy & _). rewrite HX in Hy. by apply elem_of_nil in Hy. }
  destruct (transitionDomain_spec t Hsrc) as (d & Hd & _ & _ & _ & Hed); [by rewrite HX|]. rewrite Hd.
  destruct (Hed e He) as [Hs|[-> ->]].
  - eapply addAncestors_total; [done | exact Hhist | done | done].
  - unfold addAncestorStatesToEnter, addAncestorStatesToEnter_with. rewrite (properAncestors_root c Htree). eauto.
Qed.

End domain.
