(* ===== verification/Steps.v ===== *)
(** * Microsteps and macrosteps (interpreter.go)

    Entering and exiting states, invocations, transition selection, and the
    loops that drive them.  The control part of the state changes only here. *)

From S2P Require Import Prelude Identifier Values Events Datamodel Chart Interp Actions Entry.
From stdpp Require Import options.

(** Go's [<=] on strings: lexicographic by bytes. *)
Definition string_le (a b : string) : Prop := String.leb a b = true.

#[global] Instance string_le_dec : RelDecision string_le.
Proof. intros a b. unfold string_le. apply _. Defined.

Section steps.
Context `{DM : DatamodelSession}.
Variable c : Chart.
Variable env : environment.

(** ** Final states *)

(** The recursion descends the tree, which is no deeper than the number of
    states ([isInFinalState_unfold]). *)
Fixpoint inFinal (fuel : nat) (cfg : gset nat) (s : nat) : bool :=
  match fuel with
  | 0 => false
  | S fuel =>
      match kind c s with
      | KindCompound => existsb (λ x, bool_decide (kind c x = KindFinal) && bool_decide (x ∈ cfg)) (realChildren c s)
      | KindParallel => forallb (inFinal fuel cfg) (realChildren c s)
      | _ => false
      end
  end.

Definition isInFinalState (ip : interpretation) (s : nat) : bool :=
  inFinal (S (length (c_order c))) (configuration ip) s.

Definition doneStateEvent (id : Identifier) (data : Value) : Event :=
  newEvent ("done.state." +:+ id) EventPlatform data.

(** The tail of [enterState] for a final state. *)
Definition enterFinal (s : nat) (cs : compiledState) (ip : interpretation) : interpretation :=
  match st_parent cs with
  | Some p =>
      if decide (p = root) then
        let '(ip, v) := evaluateStateDone c env (st_modelPayload cs) ip in
        let ip := match st_modelPayload cs with Some _ => set_result v ip | None => ip end in
        set_running false (set_completed true ip)
      else
        let '(ip, data) := evaluateStateDone c env (st_modelPayload cs) ip in
        let ip := enqueueInternal (doneStateEvent (sid c p) data) ip in
        match parent c p with
        | Some g =>
            if bool_decide (kind c g = KindParallel)
               && forallb (isInFinalState ip) (realChildren c g)
            then enqueueInternal (doneStateEvent (sid c g) NullValue) ip
            else ip
        | None => ip
        end
  | None =>
      let '(ip, v) := evaluateStateDone c env (st_modelPayload cs) ip in
      let ip := match st_modelPayload cs with Some _ => set_result v ip | None => ip end in
      set_running false (set_completed true ip)
  end.

(** Late data binding: the first entry initialises the state's data. *)
Definition initializeStateData (s : nat) (cs : compiledState) (ip : interpretation) : interpretation :=
  match st_data cs with
  | [] => ip
  | ds => if decide (s ∈ initializedData ip) then ip
          else let ip := initializeData c env ds ip in set_initializedData ({[s]} ∪ initializedData ip) ip
  end.

Definition enterState (s : nat) (defaults : list actionBlock) (ip : interpretation) : interpretation :=
  match state_of c s with
  | None => ip
  | Some cs =>
      let ip := set_configuration ({[s]} ∪ configuration ip) ip in
      let ip := initializeStateData s cs ip in
      let ip := runActionBlocks c env (st_onEntry cs) ip in
      let ip := runActionBlocks c env defaults ip in
      let ip := match st_invokes cs with
                | [] => ip
                | _ => set_statesToInvoke ({[s]} ∪ statesToInvoke ip) ip
                end in
      if decide (st_kind cs = KindFinal) then enterFinal s cs ip else ip
  end.

(** ** Invocations *)

Definition cancelInvokes (s : nat) (ip : interpretation) : interpretation :=
  match default [] (activeInvokes ip !! s) with
  | [] => ip
  | ris =>
      let ip := foldl (λ ip ri, set_cancelled (cancelled ip ++ [ri_id ri])
                                  (set_invokesByID (delete (ri_id ri) (invokesByID ip)) ip)) ip ris in
      set_activeInvokes (delete s (activeInvokes ip)) ip
  end.

Definition exitState (s : nat) (ip : interpretation) : interpretation :=
  match state_of c s with
  | None => ip
  | Some cs =>
      let ip := runActionBlocks c env (st_onExit cs) ip in
      let ip := cancelInvokes s ip in
      let ip := set_statesToInvoke (statesToInvoke ip ∖ {[s]}) ip in
      set_configuration (configuration ip ∖ {[s]}) ip
  end.

(** The IDs written in the chart. *)
Definition staticInvokeIDs : list Identifier := map iv_id (concat (map st_invokes (c_order c))).

Definition invokeIDReserved (ip : interpretation) (id : Identifier) : bool :=
  bool_decide (is_Some (invokesByID ip !! id)) || bool_decide (id ∈ staticInvokeIDs).

Definition generatedInvokeID (s : nat) (n : N) : Identifier := sid c s +:+ ".invoke" +:+ itoa n.

(** The loop that looks for an unused ID, counting up from [invokeSeq]. *)
Fixpoint freshInvokeID (fuel : nat) (ip : interpretation) (s : nat) (seq : N) : Identifier * N :=
  let seq := (seq + 1)%N in
  let id := generatedInvokeID s seq in
  match fuel with
  | 0 => (id, seq)
  | S fuel => if invokeIDReserved ip id then freshInvokeID fuel ip s seq else (id, seq)
  end.

(** Each reserved ID can stop the loop once. *)
Definition invokeFuel (ip : interpretation) : nat := size (invokesByID ip) + length staticInvokeIDs.

Definition assignInvokeID (spec : compiledInvoke) (id : Identifier) (ec : ExecContext) (assignID : bool) : act unit :=
  match iv_modelIDLocation spec with
  | Some location =>
      if assignID then λ ip,
        let '(ip, r) := assignModel env ec location (stringValue id) ip in
        (ip, match r with Ok _ => Ok () | Err e => Err (Wrapf "statecharts: invoke idlocation: " e) end)
      else act_ret ()
  | None => act_ret ()
  end.

(** [evaluateInvokeRequest] before its errors are reported. *)
Definition invokeRequest (spec : compiledInvoke) (id : Identifier) (ec : ExecContext) (assignID : bool) : act InvokeRequest :=
  _ ←ₐ assignInvokeID spec id ec assignID;
  typ ←ₐ evalString env ec (iv_typeExpr spec) (iv_staticType spec) "invoke type";
  source ←ₐ evalString env ec (iv_sourceExpr spec) (iv_staticSource spec) "invoke source";
  data ←ₐ evaluatePayload env ec (iv_payload spec);
  act_ret (mkInvokeRequest (iv_definitionID spec) id (canonicalInvokeType typ) source (Clone data)).

(** Report an error and return [false]. *)
Definition orReport {A} (m : act A) (ip : interpretation) : interpretation * option A :=
  let '(ip, r) := m ip in
  match r with Ok a => (ip, Some a) | Err e => (reportError e ip, None) end.

Definition evaluateInvokeRequest (spec : compiledInvoke) (id : Identifier) (ec : ExecContext) (assignID : bool)
    : interpretation → interpretation * option InvokeRequest :=
  orReport (invokeRequest spec id ec assignID).

Definition evaluateInvokeResumeRequest (ri : runningInvoke) (ec : ExecContext)
    : interpretation → interpretation * option InvokeRequest :=
  orReport (data ←ₐ evaluatePayload env ec (iv_payload (ri_spec ri));
            act_ret (mkInvokeRequest (iv_definitionID (ri_spec ri)) (ri_id ri) (ri_typ ri) (ri_source ri) (Clone data))).

(** The choice of the ID in [beginInvoke]. *)
Definition chooseInvokeID (s : nat) (spec : compiledInvoke) (ip : interpretation) : interpretation * Identifier :=
  if decide (iv_id spec = "") then
    let '(id, seq) := freshInvokeID (invokeFuel ip) ip s (invokeSeq ip) in (set_invokeSeq seq ip, id)
  else (ip, iv_id spec).

Definition invokeFailed (id : Identifier) (err : error) (ip : interpretation) : interpretation :=
  if isHandlerUnavailable err then reportError err ip
  else enqueueInternal (mkEvent ErrEventCommunication EventPlatform
         (PlatformErrorValue ErrEventCommunication (Some err)) "" "" "" id "") ip.

(** The runner gives a started invocation a new, empty channel. *)
Definition openChannel (ri : runningInvoke) (ip : interpretation) : interpretation :=
  set_channels (if ri_incoming ri then <[ri_id ri := []]> (channels ip) else channels ip) ip.

(** The handler takes the next event from its channel. *)
Definition receive (id : Identifier) (ip : interpretation) : interpretation :=
  set_channels (alter tail id (channels ip)) ip.

Definition registerInvoke (s : nat) (ri : runningInvoke) (ip : interpretation) : interpretation :=
  let ip := openChannel ri ip in
  let ip := set_activeInvokes (<[s := default [] (activeInvokes ip !! s) ++ [ri]]> (activeInvokes ip)) ip in
  set_invokesByID (<[ri_id ri := ri]> (invokesByID ip)) ip.

Definition beginInvoke (s : nat) (spec : compiledInvoke) (ip : interpretation) : interpretation :=
  let '(ip, id) := chooseInvokeID s spec ip in
  let '(ip, request) := evaluateInvokeRequest spec id (execContext c env ip) true ip in
  match request with
  | None => ip
  | Some request =>
      let answer := env_startInvoke env (started ip) request in
      let ip := set_started (started ip ++ [request]) ip in
      match answer with
      | Err err => invokeFailed id err ip
      | Ok incoming =>
          registerInvoke s (mkRunning id s spec (rq_Type request) (rq_Source request) (iv_finalize spec)
                              (iv_autoForward spec) incoming) ip
      end
  end.

Definition invokes (s : nat) : list compiledInvoke :=
  match state_of c s with Some cs => st_invokes cs | None => [] end.

Definition processInvokes (ip : interpretation) : interpretation :=
  let pending := sort_asc (statesToInvoke ip) in
  foldl (λ ip s, foldl (λ ip spec, beginInvoke s spec ip) ip (invokes s)) (set_statesToInvoke ∅ ip) pending.

Definition sortedInvokeIDs (m : gmap string runningInvoke) : list Identifier :=
  merge_sort string_le (map_to_list m).*1.

Definition applyInvokeSideEffect (ev : Event) (ip : interpretation) (id : Identifier) : interpretation :=
  match invokesByID ip !! id with
  | None => ip
  | Some ri =>
      let ip := if decide (InvokeID ev ≠ "" ∧ ri_id ri = InvokeID ev)
                then runFinalizeBlocks c env (ri_finalize ri) ip else ip in
      if ri_autoForward ri && ri_incoming ri then
        match channelSend (ri_id ri) (cloneEvent ev) ip with
        | Some ip => ip
        | None => reportCommError (Errorf ("statecharts: invoke " +:+ quote (ri_id ri)
                                           +:+ " cannot accept an autoforwarded event")) ip
        end
      else ip
  end.

Definition applyInvokeSideEffects (ev : Event) (ip : interpretation) : interpretation :=
  foldl (applyInvokeSideEffect ev) ip (sortedInvokeIDs (invokesByID ip)).

(** ** Leaving states *)

Definition exitInterpreter (ip : interpretation) : interpretation :=
  let ip := foldl (λ ip s, exitState s ip) ip (sort_desc (configuration ip)) in
  set_pending ∅ ip.

Definition historyKind (s : nat) : HistoryKind :=
  match state_of c s with Some cs => st_historyKind cs | None => Shallow end.

(** What one history child of [s] records. *)
Definition recordedSet (s child : nat) (cfg : gset nat) : gset nat :=
  match historyKind child with
  | Deep => filter (λ x, isAtomicKind c x = true ∧ isDescendant c x (Some s) = true) cfg
  | Shallow => filter (λ x, parent c x = Some s) cfg
  end.

Definition recordHistory (cfg : gset nat) (s : nat) (hist : gmap nat (list nat)) : gmap nat (list nat) :=
  foldl (λ hist child, if decide (kind c child = KindHistory)
                       then <[child := sort_asc (recordedSet s child cfg)]> hist else hist) hist (children c s).

Definition exitStates (exitSet : gset nat) (ip : interpretation) : interpretation :=
  let ordered := sort_desc exitSet in
  let ip := set_historyValue (foldl (λ hist s, recordHistory (configuration ip) s hist) (historyValue ip) ordered) ip in
  foldl (λ ip s, exitState s ip) ip ordered.

(** ** Transition selection *)

Definition atomicStatesInDocOrder (ip : interpretation) : list nat :=
  filter (λ s, isAtomicKind c s = true ∧ s ∈ configuration ip) (seq 0 (length (c_order c))).

Definition eventMatches (t : compiledTransition) (name : Identifier) : bool :=
  existsb (λ d, Matches d name) (t_events t).

Definition condMatches (t : compiledTransition) (ip : interpretation) : interpretation * bool :=
  match t_modelCondition t with
  | Some e =>
      let '(ip, r) := evaluateModelBoolean env (execContext c env ip) e ip in
      match r with
      | Ok matched => (ip, matched)
      | Err err => (reportError err ip, false)
      end
  | None => (ip, true)
  end.

(** The candidates of one atomic state: the transitions of the state and of its
    ancestors, nearest first. *)
Definition candidates (s : nat) : list compiledTransition :=
  concat (map (transitions c) (s :: properAncestors c s None)).

(** [branchLoop]: conditions are evaluated one after the other until one holds. *)
Fixpoint firstEnabled (guard : compiledTransition → bool) (ts : list compiledTransition) (ip : interpretation)
    : interpretation * option compiledTransition :=
  match ts with
  | [] => (ip, None)
  | t :: ts =>
      if guard t then
        let '(ip, ok) := condMatches t ip in
        if (ok : bool) then (ip, Some t) else firstEnabled guard ts ip
      else firstEnabled guard ts ip
  end.

(** Transitions are compared as pointers. *)
Definition sameTransition (t t' : compiledTransition) : bool :=
  bool_decide (t_source t = t_source t') && bool_decide (t_definitionIndex t = t_definitionIndex t').

Definition addEnabled (t : compiledTransition) (enabled : list compiledTransition) : list compiledTransition :=
  if existsb (sameTransition t) enabled then enabled else enabled ++ [t].

Fixpoint selectEnabled (guard : compiledTransition → bool) (states : list nat) (enabled : list compiledTransition)
    (ip : interpretation) : interpretation * list compiledTransition :=
  match states with
  | [] => (ip, enabled)
  | s :: states =>
      let '(ip, r) := firstEnabled guard (candidates s) ip in
      selectEnabled guard states (match r with Some t => addEnabled t enabled | None => enabled end) ip
  end.

Definition exitSetsIntersect (a b : gset nat) : bool := bool_decide (a ∩ b ≠ ∅).

(** The inner loop of [removeConflictingTransitions]: [None] when [t1] is
    preempted, otherwise the transitions it replaces. *)
Fixpoint conflictScan (ip : interpretation) (t1 : compiledTransition) (filtered toRemove : list compiledTransition)
    : option (list compiledTransition) :=
  match filtered with
  | [] => Some toRemove
  | t2 :: filtered =>
      if exitSetsIntersect (computeExitSet c ip [t1]) (computeExitSet c ip [t2]) then
        if isDescendant c (t_source t1) (Some (t_source t2))
        then conflictScan ip t1 filtered (toRemove ++ [t2])
        else None
      else conflictScan ip t1 filtered toRemove
  end.

Definition addFiltered (ip : interpretation) (filtered : list compiledTransition) (t1 : compiledTransition)
    : list compiledTransition :=
  match conflictScan ip t1 filtered [] with
  | None => filtered
  | Some toRemove => filter (λ t, existsb (sameTransition t) toRemove = false) filtered ++ [t1]
  end.

Definition removeConflictingTransitions (ip : interpretation) (enabled : list compiledTransition)
    : list compiledTransition := foldl (addFiltered ip) [] enabled.

Definition eventGuard (ev : Event) (t : compiledTransition) : bool :=
  negb (bool_decide (t_events t = [])) && eventMatches t (Name ev).
Definition eventlessGuard (t : compiledTransition) : bool := bool_decide (t_events t = []).

Definition selectTransitions (ev : Event) (ip : interpretation) : interpretation * list compiledTransition :=
  let '(ip, enabled) := selectEnabled (eventGuard ev) (atomicStatesInDocOrder ip) [] ip in
  (ip, removeConflictingTransitions ip enabled).

Definition selectEventlessTransitions (ip : interpretation) : interpretation * list compiledTransition :=
  let '(ip, enabled) := selectEnabled eventlessGuard (atomicStatesInDocOrder ip) [] ip in
  (ip, removeConflictingTransitions ip enabled).

(** ** Steps *)

Definition appendTrace (step : MicrostepTrace) (ip : interpretation) : interpretation :=
  match macrostepTrace ip with
  | Some steps => set_macrostepTrace (Some (steps ++ [step])) ip
  | None => ip
  end.

Definition enterStates (entry : entryAcc) (ip : interpretation) : interpretation :=
  foldl (λ ip s, enterState s (default [] (entry.2 !! s)) ip) ip (sort_asc entry.1).

Definition microstep (trigger : option Event) (ts : list compiledTransition) (ip : interpretation)
    : option interpretation :=
  let exitSet := computeExitSet c ip ts in
  entry ← computeEntrySet c ip ts;
  let ip := appendTrace (mkMicrostepTrace trigger
                           (map (λ t, mkTransitionRef (sid c (t_source t)) (t_definitionIndex t)) ts)
                           (map (sid c) (sort_asc exitSet)) (map (sid c) (sort_asc entry.1))) ip in
  let ip := exitStates exitSet ip in
  let ip := foldl (λ ip t, runActionBlocks c env (t_actions t) ip) ip ts in
  Some (enterStates entry ip).

(** One iteration of [runToStable]'s loop: the new state, and whether the loop
    goes on. *)
Definition stableIteration (ip : interpretation) : option (interpretation * bool) :=
  let '(ip, ts) := selectEventlessTransitions ip in
  match ts, internalQueue ip with
  | [], [] =>
      let ip := processInvokes ip in
      Some (ip, negb (bool_decide (internalQueue ip = [])))
  | [], ev :: queue =>
      let ip := set_hasLastEvent true (set_lastEvent ev (set_internalQueue queue ip)) in
      let '(ip, ts) := selectTransitions ev ip in
      match ts with
      | [] => Some (ip, true)
      | _ => ip ← microstep (Some ev) ts ip; Some (ip, true)
      end
  | _, _ => ip ← microstep None ts ip; Some (ip, true)
  end.

(** A chart may loop forever; [None] is "not within [fuel] iterations". *)
Fixpoint runToStable (fuel : nat) (ip : interpretation) : option interpretation :=
  if running ip then
    match fuel with
    | 0 => None
    | S fuel =>
        '(ip, continue) ← stableIteration ip;
        if (continue : bool) then runToStable fuel ip else Some ip
    end
  else Some ip.

Definition initializeEarly (ip : interpretation) (s : nat) : interpretation :=
  match state_of c s with
  | Some cs =>
      match st_data cs with
      | [] => ip
      | ds => let ip := initializeData c env ds ip in set_initializedData ({[s]} ∪ initializedData ip) ip
      end
  | None => ip
  end.

(** The entry set of [start]. *)
Definition initialEntrySet (ip : interpretation) : option entryAcc :=
  match kind c root with
  | KindCompound =>
      match initial c root with
      | Some t => enterTargets c (addDescendantStatesToEnter c ip) (resolve c (t_target t)) (Some root) (∅, ∅)
      | None => Some (∅, ∅)
      end
  | KindParallel => option_foldl (addDescendantStatesToEnter c ip) (realChildren c root) (∅, ∅)
  | _ => Some (enter root (∅, ∅))
  end.

Definition enterInitial (ip : interpretation) : option interpretation :=
  let ip := initializeData c env (c_data c) ip in
  let ip := match c_dataBinding c with
            | DataBindingEarly => foldl initializeEarly ip (seq 0 (length (c_order c)))
            | DataBindingLate => ip
            end in
  entry ← initialEntrySet ip;
  let ip := appendTrace (mkMicrostepTrace None [] [] (map (sid c) (sort_asc entry.1))) (set_running true ip) in
  Some (enterStates entry ip).

Definition start (fuel : nat) (ip : interpretation) : option interpretation :=
  ip ← enterInitial ip; runToStable fuel ip.

(** The first half of [processNextExternal]: the event is dequeued and its
    transitions are taken. *)
Definition takeExternal (ev : Event) (queue : list Event) (ip : interpretation) : option interpretation :=
  let ip := set_hasLastEvent true (set_lastEvent ev (set_externalQueue queue ip)) in
  let ip := applyInvokeSideEffects ev ip in
  let '(ip, ts) := selectTransitions ev ip in
  match ts with
  | [] => Some ip
  | _ => microstep (Some ev) ts ip
  end.

Definition processNextExternal (fuel : nat) (ip : interpretation) : option (interpretation * bool) :=
  if running ip then
    match externalQueue ip with
    | [] => Some (ip, false)
    | ev :: queue => ip ← takeExternal ev queue ip; ip ← runToStable fuel ip; Some (ip, true)
    end
  else Some (ip, false).

End steps.
