(* ===== verification/LegalStep.v ===== *)
(** * Legal configurations from the parts that are kept and entered

    [legal_combine]: keeping [K] and entering [E] gives a legal configuration,
    when the domains form an antichain of active compound states whose inside
    was emptied and is filled by [E].  [computeEntrySet_fills] shows that the
    entry set of conflict-free transitions has this shape. *)

From S2P Require Import Prelude Identifier Values Events Datamodel Chart Tree Legal Interp Entry EntryCorrect EntryConsistent EntryTotal Domain.
From stdpp Require Import options.

Section combine.
Context `{DM : DatamodelSession}.
Variable c : Chart.
Variable hrank : nat → nat.
Hypothesis Hwf : wf_chart c hrank.

Let Htree := wf_is_tree c hrank Hwf.

Lemma legal_ancestor cfg s a : legal c cfg → active cfg s → strict c s a → active cfg a.
Proof using All.
  intros HL. revert a. induction (lt_wf s) as [s _ IH]. intros a Hs Ha.
  pose proof Ha as (p & Hp & Hpa)%(strict_unfold c Htree).
  assert (active cfg p) as Hact.
  { destruct Hs as [->|Hs]; [by apply (strict_parent c Htree), (root_not_strict c Htree) in Hp|].
    by eapply legal_parent. }
  destruct Hpa as [->|Hpa]; [done|]. eapply IH; [by eapply wf_parent_lt | done..].
Qed.

Lemma legal_above cfg s a : legal c cfg → active cfg s → under c s a → active cfg a.
Proof using All. intros HL Hs [->|Ha]; [done | by eapply legal_ancestor]. Qed.

(** The domains of a step, and what [E] enters inside them. *)
Record filled (Dom : nat → Prop) (E : gset nat) : Prop := {
  f_antichain : ∀ d d', Dom d → Dom d' → under c d d' → d = d';
  f_compound : ∀ d, Dom d → kind c d = KindCompound;
  f_consistent : ∀ d, Dom d → consistent c d E;
  f_nonempty : ∀ d, Dom d → ∃ e, e ∈ E ∧ strict c e d ∧ kind c e ≠ KindHistory;
  f_real : ∀ x, x ∈ E → x < length (c_order c) ∧ kind c x ≠ KindHistory;
  f_inside : ∀ x, x ∈ E → ∃ d, Dom d ∧ (strict c x d ∨ (x = root ∧ d = root)) ∧ upto c E x (Some d);
  f_closed : ∀ x, x ∈ E → closed c E x
}.

(** What stays active. *)
Record kept (Dom : nat → Prop) (K : gset nat) : Prop := {
  k_real : ∀ x, x ∈ K → x < length (c_order c) ∧ kind c x ≠ KindHistory;
  k_outside : ∀ x d, x ∈ K → Dom d → ¬ strict c x d;
  k_domain : ∀ d, Dom d → active K d;
  k_parent : ∀ s p, s ∈ K → parent c s = Some p → active K p;
  k_compound : ∀ s, active K s → ¬ Dom s → kind c s = KindCompound → ∃ x, x ∈ realChildren c s ∧ x ∈ K;
  k_unique : ∀ s x y, kind c s = KindCompound → x ∈ realChildren c s → y ∈ realChildren c s →
    x ∈ K → y ∈ K → x = y;
  k_parallel : ∀ s x, active K s → kind c s = KindParallel → x ∈ realChildren c s → x ∈ K
}.

Section with_parts.
Variable Dom : nat → Prop.
Variables K E : gset nat.
Context `{∀ d, Decision (Dom d)}.
Hypothesis HE : filled Dom E.
Hypothesis HK : kept Dom K.

(** A covered state inside a domain is entered. *)
Lemma covered_entered d y : Dom d → strict c y d → covered c E y → y ∈ E.
Proof using All.
  intros Hd Hy (x & Hx & Hxy). destruct (f_inside _ _ HE x Hx) as (d' & Hd' & Hin & Hu).
  assert (strict c x d) as Hxd by (by eapply under_strict_trans).
  destruct Hin as [Hxd'|[-> _]]; [|by apply (root_not_strict c Htree) in Hxd].
  assert (d = d') as <-.
  { destruct (under_comparable c Htree x d d') as [?|?]; [by right | by right | |symmetry]; by eapply (f_antichain _ _ HE). }
  destruct Hxy as [->|Hxy]; [done|]. by apply Hu.
Qed.

Lemma entered_inside x y : x ∈ E → ¬ Dom x → parent c y = Some x → ∃ d, Dom d ∧ strict c y d.
Proof using All.
  intros Hx Hn Hy. destruct (f_inside _ _ HE x Hx) as (d & Hd & [Hs|[-> ->]] & _); [|done].
  exists d. split; [done|]. eapply strict_trans; [done | by apply (strict_parent c Htree) | done].
Qed.

(** A child of a domain is entered. *)
Lemma domain_child d : Dom d → ∃ x, x ∈ realChildren c d ∧ x ∈ E.
Proof using All.
  intros Hd. destruct (f_nonempty _ _ HE d Hd) as (e & He & Hed & Hk).
  destruct (covered_child c hrank Hwf E d e He Hk Hed) as (ch & Hch & Hcov). exists ch. split; [done|].
  eapply covered_entered; [done | | done]. apply (elem_of_realChildren c Htree) in Hch as [Hp _].
  by apply (strict_parent c Htree).
Qed.

Lemma active_combine s : active (K ∪ E) s → active K s ∨ s ∈ E.
Proof. intros [->|[?|?]%elem_of_union]; [left; by left | left; by right | by right]. Qed.

Lemma legal_combine : legal c (K ∪ E).
Proof using All.
  split.
  - intros s [Hs|Hs]%elem_of_union; [by eapply k_real | by eapply f_real].
  - intros s p [Hs|Hs]%elem_of_union Hp.
    + destruct (k_parent _ _ HK s p Hs Hp) as [->|?]; [by left | right; apply elem_of_union; by left].
    + destruct (f_inside _ _ HE s Hs) as (d & Hd & [Hsd|[-> _]] & Hu).
      2: { by apply (strict_parent c Htree), (root_not_strict c Htree) in Hp. }
      destruct (strict_above_child c Htree _ _ _ Hp Hsd) as [->|Hpd].
      * destruct (k_domain _ _ HK d Hd) as [->|?]; [by left | right; apply elem_of_union; by left].
      * right. apply elem_of_union. right. apply Hu; [by apply (strict_parent c Htree) | done].
  - intros s Hs Hk. cut (∃ x, x ∈ realChildren c s ∧ (x ∈ K ∨ x ∈ E)); [set_solver|].
    destruct (decide (Dom s)) as [Hd|Hd]; [destruct (domain_child s Hd) as (x & ? & ?); eauto|].
    apply active_combine in Hs as [Hs|Hs]; [destruct (k_compound _ _ HK s Hs Hd Hk) as (x & ? & ?); eauto|].
    destruct (f_closed _ _ HE s Hs) as [Hc _]. destruct (Hc Hk) as (ch & Hch & Hcov). exists ch. split; [done|].
    right. pose proof Hch as [Hp _]%(elem_of_realChildren c Htree).
    destruct (entered_inside s ch Hs Hd Hp) as (d & Hdd & Hchd). by eapply covered_entered.
  - assert (∀ s x y, kind c s = KindCompound → x ∈ realChildren c s → y ∈ realChildren c s →
      x ∈ E → y ∈ K ∪ E → x = y) as Hone.
    { intros s x y Hk [Hpx _]%(elem_of_realChildren c Htree) [Hpy _]%(elem_of_realChildren c Htree) Hx Hy.
      destruct (f_inside _ _ HE x Hx) as (d & Hd & [Hxd|[-> _]] & _).
      2: { by apply (strict_parent c Htree), (root_not_strict c Htree) in Hpx. }
      pose proof (strict_above_child c Htree _ _ _ Hpx Hxd) as Hsd.
      assert (strict c y d) as Hyd by (eapply strict_under_trans; [done | by apply (strict_parent c Htree) | done]).
      apply elem_of_union in Hy as [Hy|Hy]; [by destruct (k_outside _ _ HK y d Hy Hd)|].
      destruct (decide (x = y)) as [|Hne]; [done|]. exfalso. apply (f_consistent _ _ HE d Hd x y Hx Hy).
      exists s, x, y. split_and!; auto using under_refl. }
    intros s x y Hk Hx Hy [Hx'|Hx']%elem_of_union Hy'; [|by eapply Hone].
    apply elem_of_union in Hy' as [Hy'|Hy']; [by eapply k_unique|]. symmetry. eapply Hone; eauto. set_solver.
  - intros s x Hs Hk Hx. apply elem_of_union. apply active_combine in Hs as [Hs|Hs]; [left; by eapply k_parallel|].
    right. destruct (f_closed _ _ HE s Hs) as [_ Hc]. specialize (Hc Hk x Hx).
    assert (¬ Dom s) as Hd by (intros Hd%(f_compound _ _ HE); congruence).
    pose proof Hx as [Hp _]%(elem_of_realChildren c Htree).
    destruct (entered_inside s x Hs Hd Hp) as (d & Hdd & Hchd). by eapply covered_entered.
Qed.

End with_parts.

End combine.

(** ** The parts of a step *)

Section parts.
Context `{DM : DatamodelSession}.
Variable c : Chart.
Variable hrank : nat → nat.
Hypothesis Hwf : wf_chart c hrank.
Variable ip : interpretation.
Hypothesis Hlegal : legal c (configuration ip).
Hypothesis Hhist : history_ok c (historyValue ip).

Let Htree := wf_is_tree c hrank Hwf.

(** Transitions that can be taken together. *)
Definition takeable (ts : list compiledTransition) : Prop :=
  Forall (λ t, active (configuration ip) (t_source t) ∧ t ∈ transitions c (t_source t)) ts
  ∧ ForallOrdPairs (λ t1 t2, transitionExitSet c ip t1 ## transitionExitSet c ip t2) ts.

Lemma transition_valid t : t ∈ transitions c (t_source t) → t_source t < length (c_order c).
Proof using All.
  intros Ht. unfold transitions in Ht. destruct (state_of c (t_source t)) eqn:E; [|by apply elem_of_nil in Ht].
  by eapply lookup_lt_Some.
Qed.

Lemma transition_wf t : t ∈ transitions c (t_source t) → transition_targets c (t_source t) (resolve c (t_target t)).
Proof using All.
  intros Ht. destruct (wf_states c hrank Hwf (t_source t) (transition_valid t Ht)) as (_ & H & _).
  rewrite Forall_forall in H. by apply H.
Qed.

Lemma domain_resolves t d : transitionDomain c ip t = Some d → resolve c (t_target t) ≠ [].
Proof using All. intros Hd HX. by rewrite (transitionDomain_None c hrank Hwf ip Hhist t HX) in Hd. Qed.

Lemma elem_of_transitionExitSet t x :
  x ∈ transitionExitSet c ip t ↔ x ∈ configuration ip ∧ ∃ d, transitionDomain c ip t = Some d ∧ strict c x d.
Proof using All.
  unfold transitionExitSet, exitBelow. destruct (t_target t) as [|i ids] eqn:Ht.
  - split; [by intros ?%elem_of_empty|]. intros (_ & d & Hd & _). apply domain_resolves in Hd. by rewrite Ht in Hd.
  - rewrite elem_of_filter. destruct (transitionDomain c ip t) as [d|].
    + rewrite isDescendant_spec. naive_solver.
    + simpl. naive_solver.
Qed.

Lemma domain_active t d :
  active (configuration ip) (t_source t) → t ∈ transitions c (t_source t) → transitionDomain c ip t = Some d →
  kind c d = KindCompound ∧ active (configuration ip) d ∧ d < length (c_order c).
Proof using All.
  intros Ha Ht Hd. pose proof (transition_valid t Ht) as Hv.
  destruct (transitionDomain_spec c hrank Hwf ip Hhist t Hv (domain_resolves t d Hd)) as (d' & Hd' & Hk & Hu & ? & _).
  simplify_eq. split_and!; [done | by eapply legal_above | done].
Qed.

(** Comparable domains share an exited state. *)
Lemma domains_apart t1 t2 d1 d2 :
  active (configuration ip) (t_source t1) → t1 ∈ transitions c (t_source t1) →
  transitionDomain c ip t1 = Some d1 → transitionDomain c ip t2 = Some d2 →
  transitionExitSet c ip t1 ## transitionExitSet c ip t2 → ¬ under c d1 d2.
Proof using All.
  intros Ha Ht Hd1 Hd2 Hdisj Hu. destruct (domain_active t1 d1 Ha Ht Hd1) as (Hk & Hact & _).
  destruct (legal_compound _ _ Hlegal d1 Hact Hk) as (x & Hx & Hxc).
  apply (elem_of_realChildren c Htree) in Hx as [Hp _]. apply (strict_parent c Htree) in Hp.
  apply (Hdisj x); apply elem_of_transitionExitSet; split; [done | eauto | done |].
  exists d2. split; [done|]. by eapply strict_under_trans.
Qed.

(** The loop of [computeEntrySet]. *)
Definition loop_filled (pre : list compiledTransition) (E : gset nat) : Prop :=
  (∀ x, x ∈ E → x < length (c_order c) ∧ kind c x ≠ KindHistory ∧ closed c E x ∧
     ∃ t d, t ∈ pre ∧ transitionDomain c ip t = Some d ∧ (strict c x d ∨ (x = root ∧ d = root)) ∧ upto c E x (Some d))
  ∧ ∀ t d, t ∈ pre → transitionDomain c ip t = Some d →
      consistent c d E ∧ ∃ e, e ∈ E ∧ strict c e d ∧ kind c e ≠ KindHistory.

Lemma loop_filled_step pre t E E' d :
  loop_filled pre E → transitionDomain c ip t = Some d →
  (∀ t' d', t' ∈ pre → transitionDomain c ip t' = Some d' → ¬ under c d d' ∧ ¬ under c d' d) →
  fills c d E E' → loop_filled (pre ++ [t]) E'.
Proof using All.
  intros [HA HB] Hd Hapart (G & Hcons & Hne). pose proof (g_sub _ _ _ _ _ G) as Hsub. split.
  - intros x Hx. destruct (decide (x ∈ E)) as [HxE|HxE].
    + destruct (HA x HxE) as (? & ? & ? & t' & d' & Ht' & ? & ? & ?).
      split_and!; [done | done | by eapply closed_mono |]. exists t', d'.
      split_and!; [apply elem_of_app; by left | done | done | by eapply upto_mono].
    + destruct (g_real _ _ _ _ _ G x Hx HxE) as [? ?].
      split_and!; [done | done | by apply (g_closed _ _ _ _ _ G) |]. exists t, d.
      split_and!; [apply elem_of_app; right; left | done | by apply (g_region _ _ _ _ _ G) | by apply (g_upto _ _ _ _ _ G)].
  - intros t' d' [Ht'| ->%list_elem_of_singleton]%elem_of_app Hd'; [|by simplify_eq].
    destruct (HB t' d' Ht' Hd') as [Hc' (e & He & Hed & Hek)]. destruct (Hapart t' d' Ht' Hd') as [N1 N2].
    split; [|exists e; split_and!; [by apply Hsub | done..]].
    assert (∀ x, x ∈ E' → strict c x d' → x ∈ E) as Hold.
    { intros x Hx Hxd'. destruct (decide (x ∈ E)) as [|HxE]; [done|]. exfalso.
      destruct (g_region _ _ _ _ _ G x Hx HxE) as [Hxd|[-> _]]; [|by apply (root_not_strict c Htree) in Hxd'].
      destruct (under_comparable c Htree x d d') as [?|?]; [by right | by right | done..]. }
    intros x y Hx Hy Hconf. pose proof Hconf as (p & c1 & c2 & Hp & _ & H1 & H2 & _ & Hx1 & Hy2).
    assert (∀ z ch, parent c ch = Some p → under c z ch → strict c z d') as Hin.
    { intros z ch Hch Hz. eapply under_strict_trans; [done | exact Hz |].
      eapply strict_under_trans; [done | by apply (strict_parent c Htree) | done]. }
    apply (Hc' x y); [apply Hold | apply Hold | done]; eauto.
Qed.

Lemma computeEntrySet_filled ts entry :
  takeable ts → computeEntrySet c ip ts = Some entry → loop_filled ts entry.1.
Proof using All.
  intros [Hts Hpairs]. unfold computeEntrySet. rewrite Forall_forall in Hts.
  apply (option_foldl_ind _ (λ pre a, loop_filled pre a.1)).
  { split; [by intros x ?%elem_of_empty | by intros t d ?%elem_of_nil]. }
  intros pre t post a a' Hsplit HI Hs.
  assert (∀ t', t' ∈ pre → transitionExitSet c ip t' ## transitionExitSet c ip t) as Hdisj.
  { intros t' Ht'. rewrite Hsplit in Hpairs. clear -Hpairs Ht'.
    induction pre as [|u pre IH]; [by apply elem_of_nil in Ht'|]. inversion Hpairs as [|? ? Hall Hrest]; subst.
    apply elem_of_cons in Ht' as [->|Ht']; [|by apply IH]. rewrite Forall_forall in Hall. apply Hall.
    apply elem_of_app. right. left. }
  assert (t ∈ ts) as Htin by (rewrite Hsplit; apply elem_of_app; right; left).
  destruct (Hts t Htin) as [Hact Ht].
  destruct (transitionDomain c ip t) as [d|] eqn:Hd.
  - assert (∀ t' d', t' ∈ pre → transitionDomain c ip t' = Some d' → ¬ under c d d' ∧ ¬ under c d' d) as Hapart.
    { intros t' d' Ht' Hd'. assert (t' ∈ ts) as Htin' by (rewrite Hsplit; apply elem_of_app; by left).
      destruct (Hts t' Htin') as [Hact' Htr']. specialize (Hdisj t' Ht').
      split; [by apply (domains_apart t t') | by apply (domains_apart t' t)]. }
    eapply loop_filled_step; [done..|].
    eapply (transition_entry c hrank Hwf ip Hhist); [by apply transition_valid | by apply transition_wf | done | | done].
    intros x Hx Hu. destruct HI as [HA _]. destruct (HA x Hx) as (_ & _ & _ & t' & d' & Ht' & Hd' & Hin & _).
    destruct (Hapart t' d' Ht' Hd') as [N1 N2]. destruct Hin as [Hs'|[-> ->]].
    + destruct (under_comparable c Htree x d d') as [?|?]; [done | by right | done..].
    + done.
  - assert (resolve c (t_target t) = []) as HX.
    { destruct (resolve c (t_target t)) eqn:E; [done|]. exfalso.
      destruct (transitionDomain_spec c hrank Hwf ip Hhist t) as (d & Hd' & _); [by apply transition_valid | by rewrite E |].
      congruence. }
    rewrite (transition_entry_nil c hrank Hwf ip Hhist t a HX) in Hs. injection Hs as <-.
    destruct HI as [HA HB]. split.
    + intros x Hx. destruct (HA x Hx) as (? & ? & ? & t' & d' & ? & ? & ? & ?). split_and!; try done.
      exists t', d'. split_and!; [apply elem_of_app; by left | done..].
    + intros t' d' [Ht'| ->%list_elem_of_singleton]%elem_of_app Hd'; [by apply (HB t') | congruence].
Qed.

Lemma computeEntrySet_total ts : takeable ts → is_Some (computeEntrySet c ip ts).
Proof using All.
  intros [Hts _]. rewrite Forall_forall in Hts. apply option_foldl_total. intros t a Ht.
  destruct (Hts t Ht) as [_ Htr].
  apply (transition_entry_total c hrank Hwf ip Hhist); [by apply transition_valid | by apply transition_wf].
Qed.

(** The domains of the transitions taken. *)
Definition domains (ts : list compiledTransition) (d : nat) : Prop :=
  Exists (λ t, transitionDomain c ip t = Some d) ts.

Lemma elem_of_domains ts d : domains ts d ↔ ∃ t, t ∈ ts ∧ transitionDomain c ip t = Some d.
Proof. unfold domains. rewrite Exists_exists. done. Qed.

Lemma elem_of_computeExitSet ts x :
  x ∈ computeExitSet c ip ts ↔ x ∈ configuration ip ∧ ∃ d, domains ts d ∧ strict c x d.
Proof using All.
  unfold computeExitSet. rewrite elem_of_union_list. setoid_rewrite list_elem_of_fmap.
  setoid_rewrite elem_of_domains. split.
  - intros (X & (t & -> & Ht) & Hx). apply elem_of_transitionExitSet in Hx as (? & d & ? & ?). eauto 6.
  - intros (Hc & d & (t & Ht & Hd) & Hx). exists (transitionExitSet c ip t). split; [by exists t|].
    apply elem_of_transitionExitSet. eauto.
Qed.

Lemma takeable_antichain ts d d' :
  takeable ts → domains ts d → domains ts d' → under c d d' → d = d'.
Proof using All.
  intros [Hts Hpairs] (t & Ht & Hd)%elem_of_domains (t' & Ht' & Hd')%elem_of_domains Hu.
  rewrite Forall_forall in Hts. destruct (Hts t Ht) as [Ha Htr]. destruct (Hts t' Ht') as [Ha' Htr'].
  apply list_elem_of_In in Ht, Ht'.
  destruct (ForallOrdPairs_In Hpairs t t' Ht Ht') as [<-|[Hdis|Hdis]]; [congruence|..]; exfalso.
  - by apply (domains_apart t t' d d').
  - by apply (domains_apart t t' d d').
Qed.

Lemma filled_step ts entry :
  takeable ts → computeEntrySet c ip ts = Some entry → filled c (domains ts) entry.1.
Proof using All.
  intros Hts Hrun. pose proof (computeEntrySet_filled ts entry Hts Hrun) as [HA HB]. split.
  - intros d d' ??. by apply (takeable_antichain ts).
  - intros d (t & Ht & Hd)%elem_of_domains. destruct Hts as [Hts _]. rewrite Forall_forall in Hts.
    destruct (Hts t Ht) as [Ha Htr]. by apply (domain_active t d).
  - intros d (t & Ht & Hd)%elem_of_domains. by apply (HB t d).
  - intros d (t & Ht & Hd)%elem_of_domains. by apply (HB t d).
  - intros x Hx. destruct (HA x Hx) as (? & ? & _). done.
  - intros x Hx. destruct (HA x Hx) as (_ & _ & _ & t & d & ? & ? & ? & ?). exists d.
    split_and!; [apply elem_of_domains; eauto | done..].
  - intros x Hx. by destruct (HA x Hx) as (_ & _ & ? & _).
Qed.

Lemma kept_step ts :
  takeable ts → kept c (domains ts) (configuration ip ∖ computeExitSet c ip ts).
Proof using All.
  intros Hts. set (K := configuration ip ∖ computeExitSet c ip ts).
  assert (∀ x, x ∈ K ↔ x ∈ configuration ip ∧ ∀ d, domains ts d → ¬ strict c x d) as HK.
  { intros x. unfold K. rewrite elem_of_difference, elem_of_computeExitSet. naive_solver. }
  assert (∀ s, active K s → active (configuration ip) s ∧ ∀ d, domains ts d → ¬ strict c s d) as Hact.
  { intros s [->|Hs].
    - split; [by left|]. intros d _. by apply (root_not_strict c Htree).
    - apply HK in Hs as [? ?]. split; [by right | done]. }
  assert (∀ s, active (configuration ip) s → (∀ d, domains ts d → ¬ strict c s d) → active K s) as Hact'.
  { intros s [->|Hs] Hd; [by left | right; by apply HK]. }
  assert (∀ s x, active K s → ¬ domains ts s → parent c x = Some s → x ∈ configuration ip → x ∈ K) as Hchild.
  { intros s x Hs Hn Hp Hx. apply HK. split; [done|]. intros d Hd Hxd.
    destruct (strict_above_child c Htree _ _ _ Hp Hxd) as [->|Hsd]; [done|]. by apply (proj2 (Hact s Hs) d). }
  split.
  - intros x [Hx _]%HK. by apply (legal_valid _ _ Hlegal).
  - intros x d [_ Hx]%HK Hd. by apply Hx.
  - intros d Hd. pose proof Hd as (t & Ht & Htd)%elem_of_domains. pose proof Hts as [Hf _]. rewrite Forall_forall in Hf.
    destruct (Hf t Ht) as [Ha Htr]. apply Hact'; [by apply (domain_active t d)|].
    intros d' Hd' Hs. assert (d = d') as <- by (apply (takeable_antichain ts); auto using strict_under).
    by apply (strict_irrefl c Htree) in Hs.
  - intros s p [Hs Hout]%HK Hp. apply Hact'; [by apply (legal_parent _ _ Hlegal s)|]. intros d Hd Hpd.
    apply (Hout d Hd). eapply strict_trans; [done | by apply (strict_parent c Htree) | done].
  - intros s Hs Hn Hk. destruct (legal_compound _ _ Hlegal s (proj1 (Hact s Hs)) Hk) as (x & Hx & Hxc).
    exists x. split; [done|]. apply (elem_of_realChildren c Htree) in Hx as [Hp _]. by eapply Hchild.
  - intros s x y Hk Hx Hy [Hxc _]%HK [Hyc _]%HK. by apply (legal_unique _ _ Hlegal s).
  - intros s x Hs Hk Hx. pose proof Hx as [Hp _]%(elem_of_realChildren c Htree).
    apply (Hchild s x Hs); [| done | by apply (legal_parallel _ _ Hlegal s); [apply Hact|..]].
    intros (t & Ht & Htd)%elem_of_domains. pose proof Hts as [Hf _]. rewrite Forall_forall in Hf.
    destruct (Hf t Ht) as [Ha Htr]. destruct (domain_active t s Ha Htr Htd) as [? _]. congruence.
Qed.

(** Leaving the exit set and entering the entry set is legal again. *)
Lemma legal_step ts entry :
  takeable ts → computeEntrySet c ip ts = Some entry →
  legal c ((configuration ip ∖ computeExitSet c ip ts) ∪ entry.1).
Proof using All.
  intros Hts Hrun. apply (legal_combine c hrank Hwf (domains ts)); [|by apply filled_step | by apply kept_step].
  intros d. unfold domains. apply _.
Qed.

End parts.
