(* ===== verification/StepCorrect.v ===== *)
(** * What steps do to the configuration and to recorded history

    The configuration after a microstep is the old one without the exit set and
    with the entry set, whatever the executable content does ([microstep_configuration]).
    The transitions that selection returns can be taken together
    ([selectEnabled_takeable]), and the history recorded on exit is a legal
    target ([recordHistory_ok]). *)

From S2P Require Import Prelude Identifier Values Events Datamodel Chart Tree Legal Interp Actions Entry EntryCorrect EntryConsistent EntryTotal Domain LegalStep Steps.
From stdpp Require Import options.

Section core.
Context `{DM : DatamodelSession}.
Variable c : Chart.
Variable env : environment.

(** ** Frames on the configuration and the history *)

Definition core (ip : interpretation) : gset nat * gmap nat (list nat) := (configuration ip, historyValue ip).

Lemma core_control ip ip' : control_of ip = control_of ip' → core ip = core ip'.
Proof. unfold core, configuration, historyValue. by intros ->. Qed.

Lemma core_keeps f ip : keeps_control f → core (f ip) = core ip.
Proof. intros H. apply core_control, H. Qed.

Lemma core_foldl {A} (f : interpretation → A → interpretation) xs ip :
  (∀ ip x, core (f ip x) = core ip) → core (foldl f ip xs) = core ip.
Proof. intros H. revert ip. induction xs as [|x xs IH]; intros ip; [done|]. simpl. by rewrite IH, H. Qed.

Lemma core_evaluateStateDone p ip : core (evaluateStateDone c env p ip).1 = core ip.
Proof. apply core_control, evaluateStateDone_keeps. Qed.

Lemma core_enterFinal s cs ip : core (enterFinal c env s cs ip) = core ip.
Proof.
  unfold enterFinal.
  pose proof (core_evaluateStateDone (st_modelPayload cs) ip) as H.
  destruct (evaluateStateDone c env (st_modelPayload cs) ip) as [ip1 v]. simpl in H.
  assert (core (set_running false (set_completed true
    (match st_modelPayload cs with Some _ => set_result v ip1 | None => ip1 end))) = core ip) as Hfin
    by (destruct (st_modelPayload cs); exact H).
  destruct (st_parent cs) as [p|]; [|exact Hfin]. case_decide; [exact Hfin|].
  destruct (parent c p) as [g|]; [|exact H].
  by destruct (bool_decide (kind c g = KindParallel) && _).
Qed.

Lemma core_initializeStateData s cs ip : core (initializeStateData c env s cs ip) = core ip.
Proof.
  unfold initializeStateData. destruct (st_data cs) as [|d ds]; [done|]. case_decide; [done|].
  transitivity (core (initializeData c env (d :: ds) ip)); [done|]. apply core_keeps, initializeData_keeps.
Qed.

Lemma core_runActionBlocks bs ip : core (runActionBlocks c env bs ip) = core ip.
Proof. apply core_keeps, runActionBlocks_keeps. Qed.

Lemma core_enterState s ds ip : s < length (c_order c) →
  core (enterState c env s ds ip) = ({[s]} ∪ configuration ip, historyValue ip).
Proof.
  intros Hv. unfold enterState. destruct (lookup_lt_is_Some_2 _ _ Hv) as [cs Hcs]. unfold state_of. rewrite Hcs.
  set (ip1 := set_configuration ({[s]} ∪ configuration ip) ip).
  set (ip2 := runActionBlocks c env ds _).
  assert (core ip2 = core ip1) as H.
  { unfold ip2. by rewrite !core_runActionBlocks, core_initializeStateData. }
  destruct (st_invokes cs) as [|iv ivs]; simpl; (case_decide; [rewrite core_enterFinal|]); exact H.
Qed.

Lemma core_cancelInvokes s ip : core (cancelInvokes s ip) = core ip.
Proof.
  unfold cancelInvokes. destruct (default [] (activeInvokes ip !! s)) as [|ri ris]; [done|].
  set (f := λ ip ri, _). transitivity (core (foldl f ip (ri :: ris))); [done|]. by apply core_foldl.
Qed.

Lemma core_exitState s ip : s < length (c_order c) →
  core (exitState c env s ip) = (configuration ip ∖ {[s]}, historyValue ip).
Proof.
  intros Hv. unfold exitState. destruct (lookup_lt_is_Some_2 _ _ Hv) as [cs Hcs]. unfold state_of. rewrite Hcs.
  set (ip1 := cancelInvokes s _).
  assert (core ip1 = core ip) as H by (unfold ip1; by rewrite core_cancelInvokes, core_runActionBlocks).
  unfold core in *. injection H as H1 H2. by rewrite <- H1, <- H2.
Qed.

Lemma core_enterStates entry ip : (∀ x, x ∈ entry.1 → x < length (c_order c)) →
  core (enterStates c env entry ip) = (entry.1 ∪ configuration ip, historyValue ip).
Proof.
  intros Hv. unfold enterStates. setoid_rewrite <- (elem_of_sort_asc entry.1) in Hv.
  rewrite <- (list_to_set_sort_asc entry.1) at 2. revert ip Hv.
  induction (sort_asc entry.1) as [|s l IH]; intros ip Hv; simpl.
  { unfold core. f_equal. set_solver. }
  rewrite IH by (intros x Hx; apply Hv; by right).
  pose proof (core_enterState s (default [] (entry.2 !! s)) ip (Hv s (list_elem_of_here _ _))) as H.
  unfold core in H. injection H as -> ->. f_equal. set_solver.
Qed.

Lemma core_exitAll l ip : (∀ x, x ∈ l → x < length (c_order c)) →
  core (foldl (λ ip s, exitState c env s ip) ip l) = (configuration ip ∖ list_to_set l, historyValue ip).
Proof.
  revert ip. induction l as [|s l IH]; intros ip Hv; simpl.
  { unfold core. f_equal. set_solver. }
  rewrite IH by (intros x Hx; apply Hv; by right).
  pose proof (core_exitState s ip (Hv s (list_elem_of_here _ _))) as H.
  unfold core in H. injection H as -> ->. f_equal. set_solver.
Qed.

(** The history after the states of [exitSet] are left. *)
Definition recordedHistory (exitSet : gset nat) (ip : interpretation) : gmap nat (list nat) :=
  foldl (λ hist s, recordHistory c (configuration ip) s hist) (historyValue ip) (sort_desc exitSet).

Lemma core_exitStates X ip : (∀ x, x ∈ X → x < length (c_order c)) →
  core (exitStates c env X ip) = (configuration ip ∖ X, recordedHistory X ip).
Proof.
  intros Hv. unfold exitStates. rewrite core_exitAll by (intros x Hx%elem_of_sort_desc; auto).
  f_equal. simpl. f_equal. apply set_eq. intros x. by rewrite elem_of_list_to_set, elem_of_sort_desc.
Qed.

Lemma core_appendTrace step ip : core (appendTrace step ip) = core ip.
Proof. unfold appendTrace. by destruct (macrostepTrace ip). Qed.

Lemma microstep_core trigger ts ip entry :
  computeEntrySet c ip ts = Some entry → (∀ x, x ∈ entry.1 → x < length (c_order c)) →
  (∀ x, x ∈ computeExitSet c ip ts → x < length (c_order c)) →
  ∃ ip', microstep c env trigger ts ip = Some ip' ∧
    core ip' = (entry.1 ∪ (configuration ip ∖ computeExitSet c ip ts), recordedHistory (computeExitSet c ip ts) ip).
Proof.
  intros Hentry Hv Hx. unfold microstep. rewrite Hentry. simpl. eexists. split; [done|].
  rewrite core_enterStates by done.
  set (ip1 := appendTrace _ ip). set (ip2 := exitStates c env _ ip1).
  set (ip3 := foldl _ ip2 ts).
  assert (core ip3 = core ip2) as H3 by (apply core_foldl; intros; apply core_runActionBlocks).
  assert (core ip1 = core ip) as H1 by apply core_appendTrace.
  pose proof (core_exitStates (computeExitSet c ip ts) ip1 Hx) as H2. fold ip2 in H2.
  unfold core in *. rewrite H2 in H3. injection H3 as -> ->. unfold recordedHistory.
  injection H1 as -> ->. done.
Qed.

End core.

(** ** Recorded history *)

Section history.
Context `{DM : DatamodelSession}.
Variable c : Chart.
Variable hrank : nat → nat.
Hypothesis Hwf : wf_chart c hrank.
Variable cfg : gset nat.
Hypothesis Hlegal : legal c cfg.

Let Htree := wf_is_tree c hrank Hwf.

(** Every active state with children has an active child. *)
Lemma active_child s : active cfg s → (kind c s = KindCompound ∨ kind c s = KindParallel) →
  ∃ x, parent c x = Some s ∧ x ∈ cfg.
Proof using All.
  intros Ha [Hk|Hk].
  - destruct (legal_compound _ _ Hlegal s Ha Hk) as (x & [Hp _]%(elem_of_realChildren c Htree) & Hx). eauto.
  - pose proof (wf_state_of c hrank Hwf s) as Hs. rewrite Hk in Hs. destruct Hs as (_ & _ & Hne); [done|].
    rewrite Hk in Hne. destruct (realChildren c s) as [|x xs] eqn:E; [done|].
    assert (x ∈ realChildren c s) as Hx by (rewrite E; left). exists x.
    split; [by apply (elem_of_realChildren c Htree) in Hx as [? _] | by apply (legal_parallel _ _ Hlegal s)].
Qed.

(** ... and an active atomic descendant. *)
Lemma active_atomic s : active cfg s → (kind c s = KindCompound ∨ kind c s = KindParallel) →
  ∃ x, x ∈ cfg ∧ isAtomicKind c x = true ∧ strict c x s.
Proof using All.
  remember (length (c_order c) - s) as k eqn:Hk. revert s Hk.
  induction (lt_wf k) as [k _ IH]. intros s -> Ha Hs.
  destruct (active_child s Ha Hs) as (x & Hp & Hx). pose proof (strict_parent c Htree _ _ Hp) as Hxs.
  pose proof (legal_valid _ _ Hlegal x Hx) as [Hv Hh].
  destruct (isAtomicKind c x) eqn:Hat; [eauto|].
  destruct (IH (length (c_order c) - x)) with (s := x) as (y & Hy & Hya & Hyx).
  - pose proof (wf_parent_lt c Htree _ _ Hp). lia.
  - done.
  - by right.
  - unfold isAtomicKind in Hat. apply orb_false_iff in Hat as [H1%bool_decide_eq_false H2%bool_decide_eq_false].
    destruct (kind c x) eqn:E; auto; congruence.
  - exists y. split_and!; [done | done | by eapply strict_trans].
Qed.

(** Two active states of which neither contains the other meet in a parallel
    state. *)
Lemma active_orthogonal x y : x ∈ cfg → y ∈ cfg → ¬ under c x y → ¬ under c y x → orthogonal c x y = true.
Proof using All.
  intros Hx Hy Nxy Nyx. unfold orthogonal.
  pose proof (legal_valid _ _ Hlegal x Hx) as [Hvx Hkx]. pose proof (legal_valid _ _ Hlegal y Hy) as [Hvy Hky].
  destruct (lca c x y) as [p|] eqn:E.
  2: { exfalso. unfold lca in E. assert (root ∈ filter (λ a, a ∈ y :: ancestors c y) (x :: ancestors c x)) as Hin.
       { apply list_elem_of_filter. pose proof (under_root c Htree x Hvx) as Hrx.
         pose proof (under_root c Htree y Hvy) as Hry. unfold under, strict in *. rewrite !elem_of_cons.
         naive_solver. }
       destruct (filter _ _); [by apply elem_of_nil in Hin | done]. }
  apply (lca_spec c (wf_is_tree c hrank Hwf)) in E as (Hxp & Hyp & Hmin).
  assert (p ≠ x) as Hpx by (intros ->; by apply Nyx). assert (p ≠ y) as Hpy by (intros ->; by apply Nxy).
  destruct Hxp as [->|Hxp]; [done|]. destruct Hyp as [->|Hyp]; [done|].
  destruct (strict_nonleaf c hrank Hwf x p Hxp) as [Hk|Hk]; [|by rewrite !bool_decide_true].
  exfalso. apply (strict_child c Htree) in Hxp as (c1 & H1 & Hx1). apply (strict_child c Htree) in Hyp as (c2 & H2 & Hy2).
  assert (∀ z ch, z ∈ cfg → under c z ch → parent c ch = Some p → ch ∈ realChildren c p ∧ ch ∈ cfg) as Hch.
  { intros z ch Hz Hzch Hp. split.
    - apply (elem_of_realChildren c Htree). split; [done|]. eapply under_nonhistory; [done | done |].
      by apply (legal_valid _ _ Hlegal).
    - destruct (legal_above c hrank Hwf cfg z ch Hlegal) as [->|?]; [by right | done | | done].
      by apply (strict_parent c Htree), (root_not_strict c Htree) in Hp. }
  destruct (Hch x c1 Hx Hx1 H1) as [R1 C1]. destruct (Hch y c2 Hy Hy2 H2) as [R2 C2].
  assert (c1 = c2) as <- by (by apply (legal_unique _ _ Hlegal p)).
  eapply (strict_irrefl c Htree p), (under_strict_trans c Htree _ c1); [by apply Hmin | by apply (strict_parent c Htree)].
Qed.

Lemma elem_of_recordedSet s child x : x ∈ recordedSet c s child cfg → x ∈ cfg ∧ strict c x s.
Proof using All.
  unfold recordedSet. destruct (historyKind c child); rewrite elem_of_filter; intros [Hx Hc].
  - split; [done | by apply (strict_parent c Htree)].
  - destruct Hx as [Ha Hd]. split; [done | by apply isDescendant_spec].
Qed.

(** Siblings, or atomic states: no recorded state contains another. *)
Lemma recordedSet_apart s child x y :
  x ∈ recordedSet c s child cfg → y ∈ recordedSet c s child cfg → under c x y → x = y.
Proof using All.
  unfold recordedSet. destruct (historyKind c child); rewrite !elem_of_filter; intros [Hx _] [Hy _] Hu.
  - apply (child_unique c Htree x s); auto using under_refl.
  - destruct Hu as [|Hu]; [done|]. destruct Hy as [Hat _].
    unfold isAtomicKind in Hat. apply orb_true_iff in Hat. rewrite !bool_decide_eq_true in Hat.
    destruct (strict_nonleaf c hrank Hwf x y Hu), Hat; congruence.
Qed.

Lemma recorded_target_set s child : s ∈ cfg → parent c child = Some s →
  target_set c s (sort_asc (recordedSet c s child cfg)).
Proof using All.
  intros Hs Hchild. assert (∀ x, x ∈ sort_asc (recordedSet c s child cfg) → x ∈ cfg ∧ strict c x s) as Hrec.
  { intros x Hx%elem_of_sort_asc. by apply (elem_of_recordedSet s child). }
  pose proof (wf_leaf c hrank Hwf s child Hchild) as Hk. assert (active cfg s) as Ha by (by right).
  split_and!.
  - intros Hnil. assert (∃ x, x ∈ recordedSet c s child cfg) as [x Hx].
    { unfold recordedSet. destruct (historyKind c child).
      - destruct (active_child s Ha Hk) as (x & Hp & Hx). exists x. by apply elem_of_filter.
      - destruct (active_atomic s Ha Hk) as (x & Hx & Hat & Hxs). exists x. apply elem_of_filter.
        split_and!; [done | by apply isDescendant_spec | done]. }
    apply elem_of_sort_asc in Hx. rewrite Hnil in Hx. by apply elem_of_nil in Hx.
  - apply NoDup_sort_asc.
  - apply Forall_forall. intros x Hx. by apply Hrec.
  - apply Forall_forall. intros x Hx. apply Forall_forall. intros y Hy.
    destruct (decide (x = y)) as [|Hne]; [by left | right].
    destruct (Hrec x Hx) as [Hxc _]. destruct (Hrec y Hy) as [Hyc _]. apply elem_of_sort_asc in Hx, Hy.
    apply active_orthogonal; [done | done | |]; intros Hu; apply Hne; [|symmetry]; by eapply recordedSet_apart.
  - apply Forall_forall. intros h Hh Hkh. destruct (Hrec h Hh) as [Hc _].
    by destruct (legal_valid _ _ Hlegal h Hc).
Qed.

Lemma recordHistory_ok s hist :
  s ∈ cfg → history_ok c hist → history_ok c (recordHistory c cfg s hist).
Proof using All.
  intros Hs. unfold recordHistory.
  assert (∀ ch, ch ∈ children c s → parent c ch = Some s) as Hch by (intros ch; apply (wf_children c Htree)).
  revert hist Hch. induction (children c s) as [|ch chs IH]; intros hist Hch Hok; [done|]. simpl.
  apply IH; [intros ch' ?; apply Hch; by right|]. case_decide as Hk; [|done].
  intros h recorded [[<- <-]|[_ Hh]]%lookup_insert_Some; [|by apply Hok].
  assert (parent c ch = Some s) as Hp by (apply Hch; left). exists s. split_and!; [done | done | by apply recorded_target_set |].
  apply Forall_forall. intros r Hr%elem_of_sort_asc. apply (elem_of_recordedSet s ch) in Hr as [Hr _].
  by apply (legal_valid _ _ Hlegal).
Qed.

Lemma recordAll_ok l hist :
  (∀ s, s ∈ l → s ∈ cfg) → history_ok c hist → history_ok c (foldl (λ hist s, recordHistory c cfg s hist) hist l).
Proof using All.
  revert hist. induction l as [|s l IH]; intros hist Hl Hok; [done|]. simpl.
  apply IH; [intros x ?; apply Hl; by right|]. apply recordHistory_ok; [apply Hl; left | done].
Qed.

End history.

(** ** Transition selection *)

Section select.
Context `{DM : DatamodelSession}.
Variable c : Chart.
Variable env : environment.

Lemma condMatches_keeps t ip : control_of (condMatches c env t ip).1 = control_of ip.
Proof.
  unfold condMatches. destruct (t_modelCondition t) as [e|]; [|done].
  pose proof (callModel_keeps env (execContext c env ip) "boolean evaluation"
    (EvaluateBoolean (execContext c env ip) e) ip) as H.
  unfold evaluateModelBoolean. by destruct (callModel _ _ _ _ _) as [ip' [b|err]].
Qed.

Lemma firstEnabled_spec guard ts ip :
  control_of (firstEnabled c env guard ts ip).1 = control_of ip ∧
  ∀ t, (firstEnabled c env guard ts ip).2 = Some t → t ∈ ts ∧ guard t = true.
Proof.
  revert ip. induction ts as [|t ts IH]; intros ip; [done|]. simpl.
  destruct (guard t) eqn:Hg.
  - pose proof (condMatches_keeps t ip) as Hk. destruct (condMatches c env t ip) as [ip' [|]]; simpl in *.
    + split; [done|]. intros t' [= <-]. split; [left | done].
    + destruct (IH ip') as [H1 H2]. split; [by rewrite H1|]. intros t' Ht'. split; [right|]; by apply H2.
  - destruct (IH ip) as [H1 H2]. split; [done|]. intros t' Ht'. split; [right|]; by apply H2.
Qed.

Lemma addEnabled_elem t l u : u ∈ addEnabled t l → u ∈ l ∨ u = t.
Proof.
  unfold addEnabled. destruct (existsb _ _); [by left|].
  intros [?| ->%list_elem_of_singleton]%elem_of_app; auto.
Qed.

Lemma selectEnabled_spec guard states enabled ip :
  control_of (selectEnabled c env guard states enabled ip).1 = control_of ip ∧
  ∀ t, t ∈ (selectEnabled c env guard states enabled ip).2 →
    t ∈ enabled ∨ (guard t = true ∧ ∃ s, s ∈ states ∧ t ∈ candidates c s).
Proof.
  revert enabled ip. induction states as [|s states IH]; intros enabled ip; [split; [done | by left]|]. simpl.
  pose proof (firstEnabled_spec guard (candidates c s) ip) as [H1 H2].
  destruct (firstEnabled c env guard (candidates c s) ip) as [ip' r]. simpl in *.
  destruct (IH (match r with Some t => addEnabled t enabled | None => enabled end) ip') as [I1 I2].
  split; [by rewrite I1|]. intros t Ht. destruct (I2 t Ht) as [Hin|(Hg & s' & ? & ?)].
  - destruct r as [u|]; [|by left]. apply addEnabled_elem in Hin as [|Hu]; [by left | subst u; right].
    destruct (H2 t eq_refl) as [Hc Hg]. split; [done|]. exists s. split; [left | done].
  - right. split; [done|]. exists s'. split; [by right | done].
Qed.

(** *** Conflicts *)

Lemma computeExitSet_singleton ip t : computeExitSet c ip [t] = transitionExitSet c ip t.
Proof. unfold computeExitSet. simpl. set_solver. Qed.

Lemma conflictScan_spec ip t1 filtered toRemove R :
  conflictScan c ip t1 filtered toRemove = Some R →
  (∀ t, t ∈ toRemove → t ∈ R) ∧
  ∀ t2, t2 ∈ filtered → t2 ∈ R ∨ transitionExitSet c ip t1 ## transitionExitSet c ip t2.
Proof.
  revert toRemove. induction filtered as [|t2 filtered IH]; intros toRemove; cbn [conflictScan].
  { intros [= <-]. split; [done | by intros t ?%elem_of_nil]. }
  rewrite !computeExitSet_singleton. unfold exitSetsIntersect. case_bool_decide as Hi.
  - destruct (isDescendant c (t_source t1) (Some (t_source t2))); [|done]. intros [H1 H2]%IH. split.
    + intros t Ht. apply H1, elem_of_app. by left.
    + intros t [->|Ht]%elem_of_cons; [left; apply H1, elem_of_app; right; left | by apply H2].
  - intros [H1 H2]%IH. split; [done|]. intros t [->|Ht]%elem_of_cons; [right; set_solver | by apply H2].
Qed.

Lemma sameTransition_refl t : sameTransition t t = true.
Proof. unfold sameTransition. by rewrite !bool_decide_true. Qed.

Lemma ForallOrdPairs_filter {A} (R : A → A → Prop) (P : A → Prop) `{∀ x, Decision (P x)} l :
  ForallOrdPairs R l → ForallOrdPairs R (filter P l).
Proof.
  induction 1 as [|a l Ha Hl IH]; [constructor|].
  destruct (decide (P a)); [rewrite filter_cons_True by done | by rewrite filter_cons_False by done].
  constructor; [|done]. rewrite Forall_forall in Ha |- *. intros x [_ Hx]%list_elem_of_filter. auto.
Qed.

Lemma ForallOrdPairs_snoc {A} (R : A → A → Prop) l a :
  ForallOrdPairs R l → (∀ x, x ∈ l → R x a) → ForallOrdPairs R (l ++ [a]).
Proof.
  induction 1 as [|b l Hb Hl IH]; intros Ha; simpl; [repeat constructor|].
  constructor; [|apply IH; intros x ?; apply Ha; by right].
  apply Forall_app. split; [done|]. constructor; [apply Ha; left | constructor].
Qed.

Lemma addFiltered_spec ip filtered t1 :
  ForallOrdPairs (λ t t', transitionExitSet c ip t ## transitionExitSet c ip t') filtered →
  ForallOrdPairs (λ t t', transitionExitSet c ip t ## transitionExitSet c ip t') (addFiltered c ip filtered t1)
  ∧ ∀ t, t ∈ addFiltered c ip filtered t1 → t ∈ filtered ∨ t = t1.
Proof.
  intros HF. unfold addFiltered. destruct (conflictScan c ip t1 filtered []) as [R|] eqn:HR; [|by auto].
  apply conflictScan_spec in HR as [_ HR]. split.
  - apply ForallOrdPairs_snoc; [by apply ForallOrdPairs_filter|].
    intros t [Hn Ht]%list_elem_of_filter. destruct (HR t Ht) as [Hin|Hd]; [|by symmetry]. exfalso.
    apply not_true_iff_false in Hn. apply Hn, existsb_exists. exists t.
    split; [by apply list_elem_of_In | apply sameTransition_refl].
  - intros t [[_ ?]%list_elem_of_filter| ->%list_elem_of_singleton]%elem_of_app; auto.
Qed.

(** Conflict resolution keeps enabled transitions only, with pairwise disjoint
    exit sets. *)
Lemma removeConflictingTransitions_spec ip enabled :
  ForallOrdPairs (λ t t', transitionExitSet c ip t ## transitionExitSet c ip t')
    (removeConflictingTransitions c ip enabled)
  ∧ ∀ t, t ∈ removeConflictingTransitions c ip enabled → t ∈ enabled.
Proof.
  unfold removeConflictingTransitions.
  cut (∀ filtered, ForallOrdPairs (λ t t', transitionExitSet c ip t ## transitionExitSet c ip t') filtered →
    ForallOrdPairs (λ t t', transitionExitSet c ip t ## transitionExitSet c ip t') (foldl (addFiltered c ip) filtered enabled)
    ∧ ∀ t, t ∈ foldl (addFiltered c ip) filtered enabled → t ∈ filtered ∨ t ∈ enabled).
  { intros H. destruct (H [] (FOP_nil _)) as [H1 H2]. split; [done|].
    intros t [?%elem_of_nil|?]%H2; done. }
  induction enabled as [|t1 enabled IH]; intros filtered HF; simpl; [by auto|].
  destruct (addFiltered_spec ip filtered t1 HF) as [H1 H2]. destruct (IH _ H1) as [I1 I2]. split; [done|].
  intros t Ht. destruct (I2 t Ht) as [Hin|]; [|right; by right].
  destruct (H2 t Hin) as [|Heq]; [by left | subst t; right; left].
Qed.

Variable hrank : nat → nat.
Hypothesis Hwf : wf_chart c hrank.

Lemma candidates_source s t : t ∈ candidates c s → under c s (t_source t) ∧ t ∈ transitions c (t_source t).
Proof using All.
  unfold candidates. intros (l & Hl & Ht)%list_elem_of_In%in_concat. apply list_elem_of_In in Hl, Ht.
  apply list_elem_of_fmap in Hl as (s' & -> & Hs').
  assert (t_source t = s') as Hsrc.
  { unfold transitions in Ht. destruct (state_of c s') as [cs|] eqn:E; [|by apply elem_of_nil in Ht].
    destruct (wf_states c hrank Hwf s') as (_ & Htr & _); [by eapply lookup_lt_Some|].
    rewrite Forall_forall in Htr. apply Htr. unfold transitions. by rewrite E. }
  subst s'. split; [|done]. apply elem_of_cons in Hs' as [->|Hs']; [apply under_refl|].
  right. by apply properAncestors_None.
Qed.

Lemma atomic_active ip s : s ∈ atomicStatesInDocOrder c ip → s ∈ configuration ip.
Proof. unfold atomicStatesInDocOrder. by intros [[_ ?] _]%list_elem_of_filter. Qed.

Lemma selection_takeable guard ip ip' enabled :
  legal c (configuration ip) →
  selectEnabled c env guard (atomicStatesInDocOrder c ip) [] ip = (ip', enabled) →
  control_of ip' = control_of ip ∧ takeable c ip' (removeConflictingTransitions c ip' enabled).
Proof using All.
  intros HL Hsel. pose proof (selectEnabled_spec guard (atomicStatesInDocOrder c ip) [] ip) as [H1 H2].
  rewrite Hsel in H1, H2. simpl in *. split; [done|].
  destruct (removeConflictingTransitions_spec ip' enabled) as [R1 R2]. split; [|done].
  apply Forall_forall. intros t Ht%R2%H2. destruct Ht as [?%elem_of_nil|(_ & s & Hs & Hc)]; [done|].
  apply candidates_source in Hc as [Hu Htr]. split; [|done].
  assert (configuration ip' = configuration ip) as -> by (unfold configuration; by rewrite H1).
  eapply legal_above; [done | done | | done]. right. by apply atomic_active.
Qed.

End select.
