(* ===== verification/Macrostep.v ===== *)
(** * The interpreter as a transition system

    [step] is one atomic change of a running interpreter: an iteration of
    [runToStable]'s loop, the processing of one external event, the arrival of
    an event, a timer, the passing of time.  Every state reachable from the
    initial entry has a legal configuration ([reachable_legal]), and no
    iteration gets stuck ([iteration_total], [external_total]). *)

From S2P Require Import Prelude Identifier Values Events Datamodel Chart Tree Legal Interp Actions Entry EntryCorrect EntryConsistent EntryTotal Domain LegalStep Steps StepCorrect.
From stdpp Require Import options.

Section macrostep.
Context `{DM : DatamodelSession}.
Variable c : Chart.
Variable env : environment.

(** ** Frames of the remaining operations *)

Lemma core_orReport {A} (m : act A) ip : act_keeps m → core (orReport m ip).1 = core ip.
Proof.
  intros H. apply core_control. unfold orReport. specialize (H ip). by destruct (m ip) as [ip' [a|e]].
Qed.

Lemma invokeRequest_keeps spec id ec b : act_keeps (invokeRequest env spec id ec b).
Proof.
  unfold invokeRequest, assignInvokeID. repeat apply act_keeps_bind;
    auto using evalString_keeps, evaluatePayload_keeps.
  - destruct (iv_modelIDLocation spec) as [l|]; [|done]. destruct b; [|done]. intros ip.
    pose proof (callModel_keeps env ec "assignment" (Assign ec l (Clone (stringValue id))) ip) as H.
    unfold assignModel. by destruct (callModel _ _ _ _ _).
  - intros _. apply act_keeps_bind; [apply evalString_keeps|]. intros t. apply act_keeps_bind; [apply evalString_keeps|].
    intros s. apply act_keeps_bind; [apply evaluatePayload_keeps|]. done.
Qed.

Lemma core_beginInvoke s spec ip : core (beginInvoke c env s spec ip) = core ip.
Proof.
  unfold beginInvoke.
  assert (core (chooseInvokeID c s spec ip).1 = core ip) as H1.
  { unfold chooseInvokeID. case_decide; [|done]. by destruct (freshInvokeID _ _ _ _ _). }
  destruct (chooseInvokeID c s spec ip) as [ip1 id]. simpl in H1.
  unfold evaluateInvokeRequest.
  pose proof (core_orReport (invokeRequest env spec id (execContext c env ip1) true) ip1
    (invokeRequest_keeps _ _ _ _)) as H2.
  destruct (orReport _ ip1) as [ip2 [r|]]; simpl in *; [|congruence].
  rewrite <- H1, <- H2. destruct (env_startInvoke env (started ip2) r) as [inc|e]; [done|].
  unfold invokeFailed. by destruct (isHandlerUnavailable e).
Qed.

Lemma core_processInvokes ip : core (processInvokes c env ip) = core ip.
Proof.
  unfold processInvokes. rewrite core_foldl; [done|]. intros ip' s. apply core_foldl. intros. apply core_beginInvoke.
Qed.

Lemma core_applyInvokeSideEffects ev ip : core (applyInvokeSideEffects c env ev ip) = core ip.
Proof.
  unfold applyInvokeSideEffects. apply core_foldl. intros ip' id. unfold applyInvokeSideEffect.
  destruct (invokesByID ip' !! id) as [ri|]; [|done].
  set (ip1 := if decide _ then _ else _).
  assert (core ip1 = core ip') as H.
  { unfold ip1. case_decide; [|done]. apply core_keeps, runFinalizeBlocks_keeps. }
  destruct (ri_autoForward ri && ri_incoming ri); [|done]. unfold channelSend.
  case_decide; by rewrite <- H.
Qed.

(** ** The transition system *)

Inductive step : interpretation → interpretation → Prop :=
| step_iterate ip ip' continue :
    running ip = true → stableIteration c env ip = Some (ip', continue) → step ip ip'
| step_external ip ip' ev queue :
    running ip = true → externalQueue ip = ev :: queue → takeExternal c env ev queue ip = Some ip' → step ip ip'
| step_enqueue ev ip : step ip (enqueue ev ip)
| step_timer n ip : step ip (handleTimerFire env n ip)
| step_replayed sendID target typ ev ip : step ip (replayTimerFire env sendID target typ ev ip).1
| step_receive id ip : step ip (receive id ip)
| step_tick d ip : (0 <= d)%Z → step ip (set_now (now ip + d) ip).

Inductive initial_state : interpretation → Prop :=
| initial_entered s t ip : enterInitial c env (newInterpretation s t) = Some ip → initial_state ip.

Definition reachable (ip : interpretation) : Prop := ∃ ip0, initial_state ip0 ∧ rtc step ip0 ip.

(** The drivers of the loop only take steps. *)
Lemma runToStable_steps fuel ip ip' : runToStable c env fuel ip = Some ip' → rtc step ip ip'.
Proof.
  revert ip. induction fuel as [|fuel IH]; intros ip; simpl;
    (destruct (running ip) eqn:Hr; [|intros [= <-]; apply rtc_refl]); [done|].
  intros ([ip1 b] & Hit & H)%bind_Some. eapply rtc_l; [by eapply step_iterate|].
  destruct b; [by apply IH | injection H as <-; apply rtc_refl].
Qed.

Lemma processNextExternal_steps fuel ip ip' b : processNextExternal c env fuel ip = Some (ip', b) → rtc step ip ip'.
Proof.
  unfold processNextExternal. destruct (running ip) eqn:Hr; [|intros [= <- _]; apply rtc_refl].
  destruct (externalQueue ip) as [|ev queue] eqn:Hq; [intros [= <- _]; apply rtc_refl|].
  intros (ip1 & H1 & (ip2 & H2 & [= <- _])%bind_Some)%bind_Some.
  eapply rtc_l; [by eapply step_external | by eapply runToStable_steps].
Qed.

Lemma start_reachable fuel s t ip : start c env fuel (newInterpretation s t) = Some ip → reachable ip.
Proof.
  unfold start. intros (ip0 & H0 & H)%bind_Some. exists ip0. split; [by econstructor | by eapply runToStable_steps].
Qed.

Lemma reachable_steps ip ip' : reachable ip → rtc step ip ip' → reachable ip'.
Proof. intros (ip0 & H0 & H) H'. exists ip0. split; [done | by etrans]. Qed.

(** ** The invariant *)

Definition well_configured (ip : interpretation) : Prop :=
  legal c (configuration ip) ∧ history_ok c (historyValue ip).

Lemma well_configured_core ip ip' : core ip = core ip' → well_configured ip → well_configured ip'.
Proof. unfold core, well_configured. by intros [= -> ->]. Qed.

Variable hrank : nat → nat.
Hypothesis Hwf : wf_chart c hrank.

Lemma microstep_well_configured trigger ts ip :
  well_configured ip → takeable c ip ts →
  ∃ ip' entry, microstep c env trigger ts ip = Some ip' ∧ well_configured ip'
    ∧ computeEntrySet c ip ts = Some entry
    ∧ configuration ip' = (configuration ip ∖ computeExitSet c ip ts) ∪ entry.1
    ∧ historyValue ip' = recordedHistory c (computeExitSet c ip ts) ip.
Proof using All.
  intros [HL HH] Hts.
  destruct (computeEntrySet_total c hrank Hwf ip HL HH ts Hts) as [entry Hentry].
  pose proof (filled_step c hrank Hwf ip HL HH ts entry Hts Hentry) as HF.
  assert (∀ x, x ∈ computeExitSet c ip ts → x ∈ configuration ip) as Hsub.
  { intros x Hx. by apply (elem_of_computeExitSet c hrank Hwf ip HL HH) in Hx as [? _]. }
  destruct (microstep_core c env trigger ts ip entry Hentry) as (ip' & Hstep & Hcore).
  { intros x Hx. by apply (f_real _ _ _ HF). }
  { intros x Hx. by apply (legal_valid _ _ HL), Hsub. }
  unfold core in Hcore. injection Hcore as HC HV. exists ip', entry. split_and!; [done | | done | set_solver | done].
  split.
  - rewrite HC, union_comm_L. by apply (legal_step c hrank Hwf ip HL HH).
  - rewrite HV. apply (recordAll_ok c hrank Hwf (configuration ip) HL); [|done].
    intros s Hs%elem_of_sort_desc. auto.
Qed.

Lemma select_well_configured guard ip ip' enabled :
  well_configured ip → selectEnabled c env guard (atomicStatesInDocOrder c ip) [] ip = (ip', enabled) →
  control_of ip' = control_of ip ∧ well_configured ip' ∧ takeable c ip' (removeConflictingTransitions c ip' enabled).
Proof using All.
  intros HW Hsel. destruct (selection_takeable c env hrank Hwf guard ip ip' enabled) as [H1 H2]; [apply HW | done |].
  split_and!; [done | | done]. eapply well_configured_core; [|done]. by apply core_control.
Qed.

Lemma iteration_well_configured ip :
  well_configured ip → ∃ ip' b, stableIteration c env ip = Some (ip', b) ∧ well_configured ip'.
Proof using All.
  intros HW. unfold stableIteration, selectEventlessTransitions.
  destruct (selectEnabled c env eventlessGuard _ [] ip) as [ip1 enabled] eqn:Hsel.
  destruct (select_well_configured _ _ _ _ HW Hsel) as (_ & HW1 & Ht1).
  destruct (removeConflictingTransitions c ip1 enabled) as [|t ts] eqn:Hts.
  2: { destruct (microstep_well_configured None (t :: ts) ip1 HW1 Ht1) as (ip' & _ & Hstep & HW' & _).
       rewrite Hstep. simpl. eauto. }
  destruct (internalQueue ip1) as [|ev queue].
  { eexists _, _. split; [done|]. eapply well_configured_core; [|exact HW1]. symmetry. apply core_processInvokes. }
  set (ip2 := set_hasLastEvent true (set_lastEvent ev (set_internalQueue queue ip1))).
  assert (well_configured ip2) as HW2 by exact HW1. unfold selectTransitions.
  destruct (selectEnabled c env (eventGuard ev) _ [] ip2) as [ip3 enabled3] eqn:Hsel3.
  destruct (select_well_configured _ _ _ _ HW2 Hsel3) as (_ & HW3 & Ht3).
  destruct (removeConflictingTransitions c ip3 enabled3) as [|u us] eqn:Hus; [eauto|].
  destruct (microstep_well_configured (Some ev) (u :: us) ip3 HW3 Ht3) as (ip' & _ & Hstep & HW' & _).
  rewrite Hstep. simpl. eauto.
Qed.

Lemma takeExternal_well_configured ev queue ip :
  well_configured ip → ∃ ip', takeExternal c env ev queue ip = Some ip' ∧ well_configured ip'.
Proof using All.
  intros HW. unfold takeExternal.
  set (ip1 := applyInvokeSideEffects c env ev _).
  assert (well_configured ip1) as HW1.
  { eapply well_configured_core; [|exact HW]. symmetry. unfold ip1. by rewrite core_applyInvokeSideEffects. }
  unfold selectTransitions.
  destruct (selectEnabled c env (eventGuard ev) _ [] ip1) as [ip2 enabled] eqn:Hsel.
  destruct (select_well_configured _ _ _ _ HW1 Hsel) as (_ & HW2 & Ht2).
  destruct (removeConflictingTransitions c ip2 enabled) as [|u us] eqn:Hus; [eauto|].
  destruct (microstep_well_configured (Some ev) (u :: us) ip2 HW2 Ht2) as (ip' & _ & Hstep & HW' & _). eauto.
Qed.

Lemma initialEntrySet_filled ip : historyValue ip = ∅ →
  ∃ entry, initialEntrySet c ip = Some entry ∧ legal c entry.1.
Proof using All.
  intros Hh. assert (history_ok c (historyValue ip)) as HH by (rewrite Hh; by intros h r ?%lookup_empty_Some).
  pose proof (wf_root c hrank Hwf) as Hk. destruct (wf_compound c hrank Hwf root Hk) as (t & Ht & Hset).
  unfold initialEntrySet. rewrite Hk, Ht.
  pose proof (wf_is_tree c hrank Hwf) as Htree.
  set (desc := addDescendantStatesToEnter c ip).
  assert (∀ x acc, is_Some (desc x acc)) as Hdesc.
  { intros x a. apply (addDescendant_total c hrank Hwf _ HH), (weight_entryFuel c hrank Hwf _ HH). }
  destruct (enterTargets_total c hrank Hwf _ HH desc (resolve c (t_target t)) root (∅, ∅)) as [entry Hentry]; [done | |].
  { intros x acc Hx. split; [by eapply target_set_strict | done]. }
  exists entry. split; [done|].
  pose proof (addDescendant_grows c hrank Hwf _ HH (entryFuel c) : ∀ s acc acc', _ → desc s acc = Some acc' → _) as Hg.
  pose proof (addDescendant_consistent c hrank Hwf _ HH root (entryFuel c) : ∀ s acc acc', _ → desc s acc = Some acc' → _) as Hc.
  assert (consistent c root entry.1) as Hcons.
  { eapply (enterTargets_consistent c hrank Hwf _ HH root desc Hg Hc root _ (∅, ∅)); [by apply (target_set_separated c hrank Hwf _ HH) | | | done];
      [by intros x ?%elem_of_empty | by intros x y ?%elem_of_empty]. }
  apply (enterTargets_grows c hrank Hwf _ HH desc Hg) in Hentry as [G Heff]; [|by left]. simpl in G.
  assert (∀ x : nat, x ∉ (∅ : gset nat)) as Hno by set_solver.
  rewrite <- (union_empty_l_L entry.1).
  apply (legal_combine c hrank Hwf (λ d, d = root)); [apply _ | |].
  - split.
    + by intros d d' -> ->.
    + by intros d ->.
    + by intros d ->.
    + intros d ->. pose proof Hset as [Hne _]. destruct (resolve c (t_target t)) as [|x xs] eqn:HX; [done|].
      destruct (effective_exists c hrank Hwf _ HH x) as [e He]. exists e.
      pose proof (effective_region c hrank Hwf _ HH x e He) as [Hr Hek].
      split_and!; [eapply Heff; [left | done] | | done]. eapply region_strict; [done | done |].
      eapply target_set_strict; [done | left].
    + intros x Hx. by apply (g_real _ _ _ _ _ G).
    + intros x Hx. exists root. split_and!; [done | left; by apply (g_region _ _ _ _ _ G) | by apply (g_upto _ _ _ _ _ G)].
    + intros x Hx. by apply (g_closed _ _ _ _ _ G).
  - split; try (by intros ? ?%elem_of_empty); try (by intros ? ? ?%elem_of_empty).
    + intros d ->. by left.
    + intros s [->|?%elem_of_empty]; done.
    + by intros s x y _ _ _ ?%elem_of_empty.
    + intros s x [->|?%elem_of_empty]; [congruence | done].
Qed.

Lemma core_initializeEarly ip s : core (initializeEarly c env ip s) = core ip.
Proof using Type.
  unfold initializeEarly. destruct (state_of c s) as [cs|]; [|done]. destruct (st_data cs) as [|d ds]; [done|].
  transitivity (core (initializeData c env (d :: ds) ip)); [done|]. apply core_keeps, initializeData_keeps.
Qed.

Lemma enterInitial_well_configured s t :
  ∃ ip, enterInitial c env (newInterpretation s t) = Some ip ∧ well_configured ip.
Proof using All.
  unfold enterInitial. set (ip1 := match c_dataBinding c with DataBindingEarly => _ | DataBindingLate => _ end).
  assert (core ip1 = (∅, ∅)) as H1.
  { assert (core (initializeData c env (c_data c) (newInterpretation s t)) = (∅, ∅)) as H0
      by (rewrite core_keeps by apply initializeData_keeps; done).
    unfold ip1. destruct (c_dataBinding c); [|done]. rewrite core_foldl; [done|]. apply core_initializeEarly. }
  unfold core in H1. injection H1 as HC HV.
  destruct (initialEntrySet_filled ip1 HV) as (entry & Hentry & HL). rewrite Hentry. simpl. eexists. split; [done|].
  set (ip2 := appendTrace _ _).
  assert (core ip2 = (∅, ∅)) as H2 by (unfold ip2; rewrite core_appendTrace; unfold core; simpl; by f_equal).
  eapply (well_configured_core (enterStates c env entry ip2)); [done|].
  unfold core in H2. injection H2 as HC2 HV2.
  assert (core (enterStates c env entry ip2) = (entry.1, ∅)) as H3.
  { rewrite core_enterStates by (intros x Hx; by apply (legal_valid _ _ HL)). rewrite HC2, HV2. f_equal. set_solver. }
  unfold core in H3. injection H3 as HC3 HV3. unfold well_configured. rewrite HC3, HV3.
  split; [done|]. by intros h r ?%lookup_empty_Some.
Qed.

Lemma step_well_configured ip ip' : step ip ip' → well_configured ip → well_configured ip'.
Proof using All.
  intros Hstep HW. destruct Hstep as [ip ip' b _ Hit | ip ip' ev queue _ _ Hext | ev ip | n ip | sid tg ty ev ip | id ip | d ip _].
  - destruct (iteration_well_configured ip HW) as (ip2 & b2 & H & ?). by simplify_eq.
  - destruct (takeExternal_well_configured ev queue ip HW) as (ip2 & H & ?). by simplify_eq.
  - eapply well_configured_core; [|done]. unfold enqueue. by case_decide.
  - eapply well_configured_core; [|done]. unfold handleTimerFire. destruct (pending ip !! n) as [rec|]; [|done].
    assert (core (fireTimer env n ip) = core ip) as H by (apply core_keeps, fireTimer_keeps).
    destruct (env_timerFiredHook env) as [hook|]; [|done]. by destruct (hook _ _ _ _).
  - eapply well_configured_core; [|done]. unfold replayTimerFire. destruct (timerMatch _ _ _ _ ip); [|done].
    simpl. by rewrite core_keeps by apply dispatchNow_keeps.
  - exact HW.
  - exact HW.
Qed.

Lemma reachable_well_configured ip : reachable ip → well_configured ip.
Proof using All.
  intros (ip0 & [s t ip1 H0] & Hrtc).
  assert (well_configured ip1) as HW0 by (destruct (enterInitial_well_configured s t) as (ip2 & ? & ?); by simplify_eq).
  clear H0. induction Hrtc as [|ip1 ip2 ip3 Hs _ IH]; [done|]. by apply IH, (step_well_configured ip1).
Qed.

Lemma runToStable_well_configured fuel ip ip' :
  well_configured ip → runToStable c env fuel ip = Some ip' → well_configured ip'.
Proof using All.
  revert ip. induction fuel as [|fuel IH]; intros ip HW; simpl; (destruct (running ip); [|by intros [= <-]]); [done|].
  destruct (iteration_well_configured ip HW) as (ip1 & b & -> & HW1). simpl.
  destruct b; [by apply IH | by intros [= <-]].
Qed.

Lemma processNextExternal_well_configured fuel ip ip' b :
  well_configured ip → processNextExternal c env fuel ip = Some (ip', b) → well_configured ip'.
Proof using All.
  intros HW. unfold processNextExternal. destruct (running ip); [|by intros [= <- _]].
  destruct (externalQueue ip) as [|ev queue]; [by intros [= <- _]|].
  destruct (takeExternal_well_configured ev queue ip HW) as (ip1 & -> & HW1). simpl.
  intros (ip2 & H2 & [= <- _])%bind_Some. by eapply runToStable_well_configured.
Qed.

Lemma enqueue_well_configured ev ip : well_configured ip → well_configured (enqueue ev ip).
Proof using Type. unfold enqueue. by case_decide. Qed.

End macrostep.
