(* ===== verification/Evolution.v ===== *)
(** * Invariants of the whole interpreter

    Every operation of the interpreter is a sequence of [move]s: primitive
    effects, changes of the control part, and the few changes of the effects
    that are not executable content (an event leaves a queue, a timer's record
    is removed, time passes).  Invariants of the effects hold in every reachable
    state once each move keeps them. *)

From S2P Require Import Prelude Identifier Values Events Datamodel Chart Tree Legal Interp Actions Effects Entry Steps Macrostep.
From stdpp Require Import options.

Section evolution.
Context `{DM : DatamodelSession}.
Variable c : Chart.
Variable env : environment.

Inductive move : interpretation → interpretation → Prop :=
| move_prim ip ip' : prim env false ip ip' → move ip ip'
| move_control k ip : move ip (mkInterpretation k (effects_of ip))
| move_cancelled l ip : move ip (set_cancelled l ip)
| move_started l ip : move ip (set_started l ip)
| move_internal ev queue ip : internalQueue ip = ev :: queue → move ip (set_internalQueue queue ip)
| move_external ev queue ip : externalQueue ip = ev :: queue → move ip (set_externalQueue queue ip)
| move_fire n ip : move ip (set_pending (delete n (pending ip)) ip)
| move_drop ip : move ip (set_pending ∅ ip)
| move_open ri ip : move ip (openChannel ri ip)
| move_receive id ip : move ip (receive id ip)
| move_tick d ip : (0 <= d)%Z → move ip (set_now (now ip + d) ip).

Definition evolves : interpretation → interpretation → Prop := rtc move.
Definition moving (f : interpretation → interpretation) : Prop := ∀ ip, evolves ip (f ip).

Lemma emits_evolves ip ip' : emits env false ip ip' → evolves ip ip'.
Proof. apply rtc_subrel. intros x y. apply move_prim. Qed.

Lemma control_evolves ip ip' : effects_of ip' = effects_of ip → evolves ip ip'.
Proof. intros H. destruct ip' as [k e]. simpl in H. subst e. apply rtc_once, move_control. Qed.

Lemma moving_foldl {A} (f : interpretation → A → interpretation) xs :
  (∀ a, moving (λ ip, f ip a)) → moving (λ ip, foldl f ip xs).
Proof.
  intros Hf. induction xs as [|x xs IH]; intros ip; simpl; [apply rtc_refl|]. etrans; [apply Hf | apply IH].
Qed.

(** ** Every operation moves *)

Lemma moving_runActionBlocks bs : moving (runActionBlocks c env bs).
Proof. intros ip. apply emits_evolves, emits_runActionBlocks. Qed.

Lemma moving_initializeData ds : moving (initializeData c env ds).
Proof. intros ip. apply emits_evolves, emits_initializeData. Qed.

Lemma moving_evaluateStateDone p ip : evolves ip (evaluateStateDone c env p ip).1.
Proof.
  unfold evaluateStateDone. destruct p as [p|]; [|apply rtc_refl].
  pose proof (emits_evaluatePayload env false (execContext c env ip) p ltac:(done) ip) as H%emits_evolves.
  destruct (evaluatePayload _ _ _ _) as [ip' [v|e]]; simpl in *; [done|].
  etrans; [exact H|]. by apply emits_evolves, emits_one, prim_error.
Qed.

Lemma evolves_internal ev ip : evolves ip (enqueueInternal ev ip).
Proof. by apply emits_evolves, emits_one, prim_internal. Qed.

Lemma moving_enterFinal s cs : moving (enterFinal c env s cs).
Proof.
  intros ip. unfold enterFinal. pose proof (moving_evaluateStateDone (st_modelPayload cs) ip) as H.
  destruct (evaluateStateDone c env (st_modelPayload cs) ip) as [ip1 v]. simpl in H.
  assert (evolves ip (set_running false (set_completed true
    (match st_modelPayload cs with Some _ => set_result v ip1 | None => ip1 end)))) as Hfin.
  { etrans; [exact H|]. apply control_evolves. by destruct (st_modelPayload cs). }
  destruct (st_parent cs) as [p|]; [|exact Hfin]. case_decide; [exact Hfin|].
  etrans; [exact H|]. etrans; [apply evolves_internal|].
  destruct (parent c p) as [g|]; [|apply rtc_refl].
  destruct (bool_decide (kind c g = KindParallel) && _); [apply evolves_internal | apply rtc_refl].
Qed.

Lemma moving_enterState s ds : moving (enterState c env s ds).
Proof.
  intros ip. unfold enterState. cbv zeta. destruct (state_of c s) as [cs|]; [|apply rtc_refl].
  set (ip1 := set_configuration ({[s]} ∪ configuration ip) ip).
  set (ip2 := initializeStateData c env s cs ip1).
  set (ip3 := runActionBlocks c env ds (runActionBlocks c env (st_onEntry cs) ip2)).
  assert (evolves ip1 ip2) as H2.
  { unfold ip2, initializeStateData. destruct (st_data cs) as [|d l]; [apply rtc_refl|]. case_decide; [apply rtc_refl|].
    etrans; [apply moving_initializeData | by apply control_evolves]. }
  assert (evolves ip ip3) as H3.
  { etrans; [by apply (control_evolves ip ip1)|]. etrans; [exact H2|].
    etrans; [apply (moving_runActionBlocks (st_onEntry cs)) | apply moving_runActionBlocks]. }
  assert (evolves ip (match st_invokes cs with [] => ip3 | _ => set_statesToInvoke ({[s]} ∪ statesToInvoke ip3) ip3 end)) as H
    by (etrans; [exact H3|]; destruct (st_invokes cs); [apply rtc_refl | by apply control_evolves]).
  case_decide; [etrans; [exact H | apply moving_enterFinal] | exact H].
Qed.

Lemma moving_cancelInvokes s : moving (cancelInvokes s).
Proof.
  intros ip. unfold cancelInvokes. destruct (default [] (activeInvokes ip !! s)) as [|ri ris]; [apply rtc_refl|].
  set (f := λ ip ri, _). etrans; [|by apply (control_evolves (foldl f ip (ri :: ris)))].
  apply (moving_foldl f (ri :: ris)). intros ri' ip'.
  eapply rtc_l; [apply (move_control (control_of (set_invokesByID (delete (ri_id ri') (invokesByID ip')) ip')))|].
  apply rtc_once, move_cancelled.
Qed.

Lemma moving_exitState s : moving (exitState c env s).
Proof.
  intros ip. unfold exitState. destruct (state_of c s) as [cs|]; [|apply rtc_refl].
  etrans; [apply moving_runActionBlocks|]. etrans; [apply moving_cancelInvokes|]. by apply control_evolves.
Qed.

Lemma moving_exitStates X : moving (exitStates c env X).
Proof.
  intros ip. unfold exitStates. etrans; [|apply moving_foldl; intros s; apply moving_exitState].
  by apply control_evolves.
Qed.

Lemma moving_exitInterpreter : moving (exitInterpreter c env).
Proof.
  intros ip. unfold exitInterpreter.
  etrans; [apply (moving_foldl (λ ip s, exitState c env s ip) (sort_desc (configuration ip))); intros s; apply moving_exitState|].
  apply rtc_once, move_drop.
Qed.

Lemma moving_orReport {A} (m : act A) ip : act_emits env false m → evolves ip (orReport m ip).1.
Proof.
  intros H. specialize (H ip). apply emits_evolves in H. unfold orReport.
  destruct (m ip) as [ip' [a|e]]; simpl in *; [done|]. etrans; [exact H|]. by apply emits_evolves, emits_one, prim_error.
Qed.

Lemma emits_invokeRequest spec id ec b : act_emits env false (invokeRequest env spec id ec b).
Proof.
  assert (grants false ec) as Hg by done. unfold invokeRequest. apply act_emits_bind.
  - unfold assignInvokeID. destruct (iv_modelIDLocation spec) as [l|]; [|apply act_emits_ret].
    destruct b; [|apply act_emits_ret]. intros ip.
    pose proof (emits_callModel env false ec "assignment" (Assign ec l (Clone (stringValue id))) Hg ip) as H.
    unfold assignModel. by destruct (callModel _ _ _ _ _).
  - intros _. apply act_emits_bind; [by apply emits_evalString|]. intros t.
    apply act_emits_bind; [by apply emits_evalString|]. intros s.
    apply act_emits_bind; [by apply emits_evaluatePayload|]. intros d. apply act_emits_ret.
Qed.

Lemma moving_beginInvoke s spec : moving (beginInvoke c env s spec).
Proof.
  intros ip. unfold beginInvoke.
  assert (evolves ip (chooseInvokeID c s spec ip).1) as H1.
  { unfold chooseInvokeID. case_decide; [|apply rtc_refl]. destruct (freshInvokeID _ _ _ _ _). by apply control_evolves. }
  destruct (chooseInvokeID c s spec ip) as [ip1 id]. etrans; [exact H1|]. simpl. unfold evaluateInvokeRequest.
  pose proof (moving_orReport (invokeRequest env spec id (execContext c env ip1) true) ip1
    (emits_invokeRequest _ _ _ _)) as H2.
  destruct (orReport _ ip1) as [ip2 [r|]]; simpl in *; [|done]. etrans; [exact H2|].
  eapply rtc_l; [apply (move_started (started ip2 ++ [r]))|].
  destruct (env_startInvoke env (started ip2) r) as [inc|e].
  { eapply rtc_l; [apply (move_open (mkRunning id s spec (rq_Type r) (rq_Source r) (iv_finalize spec) (iv_autoForward spec) inc))
                  | by apply control_evolves]. }
  unfold invokeFailed. destruct (isHandlerUnavailable e); [by apply emits_evolves, emits_one, prim_error|].
  apply evolves_internal.
Qed.

Lemma moving_processInvokes : moving (processInvokes c env).
Proof.
  intros ip. unfold processInvokes. etrans; [by apply (control_evolves ip (set_statesToInvoke ∅ ip))|].
  apply moving_foldl. intros s. apply moving_foldl. intros spec. apply moving_beginInvoke.
Qed.

(** Finalize content is run in a finalize context, but here it may be any
    content. *)
Lemma moving_runFinalizeBlocks bs : moving (runFinalizeBlocks c env bs).
Proof.
  intros ip. unfold runFinalizeBlocks. apply moving_foldl. intros b ip'.
  by apply emits_evolves, emits_runActionsWithContext.
Qed.

Lemma moving_applyInvokeSideEffects ev : moving (applyInvokeSideEffects c env ev).
Proof.
  intros ip. unfold applyInvokeSideEffects. apply moving_foldl. intros id ip'. unfold applyInvokeSideEffect.
  destruct (invokesByID ip' !! id) as [ri|]; [|apply rtc_refl].
  etrans. { instantiate (1 := if decide (InvokeID ev ≠ "" ∧ ri_id ri = InvokeID ev)
                              then runFinalizeBlocks c env (ri_finalize ri) ip' else ip').
    case_decide; [apply moving_runFinalizeBlocks | apply rtc_refl]. }
  destruct (ri_autoForward ri && ri_incoming ri); [|apply rtc_refl].
  destruct (channelSend _ _ _) as [ip2|] eqn:E; [|apply evolves_internal].
  by eapply emits_evolves, emits_one, prim_channel.
Qed.

Lemma evolves_condMatches t ip : evolves ip (condMatches c env t ip).1.
Proof.
  unfold condMatches. destruct (t_modelCondition t) as [e|]; [|apply rtc_refl].
  pose proof (emits_callModel env false (execContext c env ip) "boolean evaluation"
    (EvaluateBoolean (execContext c env ip) e) ltac:(done) ip) as H%emits_evolves.
  unfold evaluateModelBoolean. destruct (callModel _ _ _ _ _) as [ip' [b|err]]; simpl in *; [done|].
  etrans; [exact H|]. by apply emits_evolves, emits_one, prim_error.
Qed.

Lemma evolves_firstEnabled guard ts ip : evolves ip (firstEnabled c env guard ts ip).1.
Proof.
  revert ip. induction ts as [|t ts IH]; intros ip; simpl; [apply rtc_refl|].
  destruct (guard t); [|apply IH]. pose proof (evolves_condMatches t ip) as H.
  destruct (condMatches c env t ip) as [ip' [|]]; simpl in *; [done|]. etrans; [exact H | apply IH].
Qed.

Lemma evolves_selectEnabled guard states enabled ip : evolves ip (selectEnabled c env guard states enabled ip).1.
Proof.
  revert enabled ip. induction states as [|s states IH]; intros enabled ip; simpl; [apply rtc_refl|].
  pose proof (evolves_firstEnabled guard (candidates c s) ip) as H.
  destruct (firstEnabled c env guard (candidates c s) ip) as [ip' r]. etrans; [exact H | apply IH].
Qed.

Lemma evolves_selectTransitions ev ip : evolves ip (selectTransitions c env ev ip).1.
Proof.
  unfold selectTransitions. pose proof (evolves_selectEnabled (eventGuard ev) (atomicStatesInDocOrder c ip) [] ip) as H.
  by destruct (selectEnabled _ _ _ _ _ _).
Qed.

Lemma evolves_selectEventless ip : evolves ip (selectEventlessTransitions c env ip).1.
Proof.
  unfold selectEventlessTransitions. pose proof (evolves_selectEnabled eventlessGuard (atomicStatesInDocOrder c ip) [] ip) as H.
  by destruct (selectEnabled _ _ _ _ _ _).
Qed.

Lemma moving_enterStates entry : moving (enterStates c env entry).
Proof. apply moving_foldl. intros s. apply moving_enterState. Qed.

Lemma evolves_appendTrace step ip : evolves ip (appendTrace step ip).
Proof. apply control_evolves. unfold appendTrace. by destruct (macrostepTrace ip). Qed.

Lemma evolves_microstep trigger ts ip ip' : microstep c env trigger ts ip = Some ip' → evolves ip ip'.
Proof.
  unfold microstep. intros (entry & _ & [= <-])%bind_Some.
  etrans; [apply evolves_appendTrace|]. etrans; [apply moving_exitStates|].
  etrans; [|apply moving_enterStates]. apply moving_foldl. intros t. apply moving_runActionBlocks.
Qed.

Lemma evolves_iteration ip ip' b : stableIteration c env ip = Some (ip', b) → evolves ip ip'.
Proof.
  unfold stableIteration. pose proof (evolves_selectEventless ip) as H.
  destruct (selectEventlessTransitions c env ip) as [ip1 [|t ts]]; simpl in H.
  2: { intros (ip2 & Hm & [= <- _])%bind_Some. etrans; [exact H | by eapply evolves_microstep]. }
  destruct (internalQueue ip1) as [|ev queue] eqn:Hq.
  { intros [= <- _]. etrans; [exact H | apply moving_processInvokes]. }
  set (ip2 := set_hasLastEvent true (set_lastEvent ev (set_internalQueue queue ip1))).
  assert (evolves ip ip2) as H2.
  { etrans; [exact H|]. eapply rtc_l; [by eapply move_internal|]. by apply control_evolves. }
  pose proof (evolves_selectTransitions ev ip2) as H3.
  destruct (selectTransitions c env ev ip2) as [ip3 [|u us]]; simpl in H3.
  - intros [= <- _]. by etrans.
  - intros (ip4 & Hm & [= <- _])%bind_Some. etrans; [exact H2|]. etrans; [exact H3 | by eapply evolves_microstep].
Qed.

Lemma evolves_takeExternal ev queue ip ip' :
  externalQueue ip = ev :: queue → takeExternal c env ev queue ip = Some ip' → evolves ip ip'.
Proof.
  intros Hq. unfold takeExternal. set (ip1 := set_hasLastEvent true (set_lastEvent ev (set_externalQueue queue ip))).
  assert (evolves ip ip1) as H1. { eapply rtc_l; [by eapply move_external|]. by apply control_evolves. }
  pose proof (moving_applyInvokeSideEffects ev ip1) as H2.
  pose proof (evolves_selectTransitions ev (applyInvokeSideEffects c env ev ip1)) as H3.
  destruct (selectTransitions c env ev _) as [ip3 [|u us]]; simpl in H3.
  - intros [= <-]. etrans; [exact H1|]. by etrans.
  - intros Hm%evolves_microstep. etrans; [exact H1|]. etrans; [exact H2|]. by etrans.
Qed.

Lemma moving_dispatchNow s t y ev : moving (dispatchNow env s t y ev).
Proof. intros ip. apply emits_evolves, emits_dispatchNow. Qed.

Lemma moving_fireTimer n : moving (fireTimer env n).
Proof.
  intros ip. unfold fireTimer. destruct (pending ip !! n) as [rec|]; [|apply rtc_refl].
  eapply rtc_l; [apply (move_fire n) | apply moving_dispatchNow].
Qed.

Lemma step_evolves ip ip' : step c env ip ip' → evolves ip ip'.
Proof.
  intros Hstep. destruct Hstep as [ip ip' b _ Hit | ip ip' ev queue _ Hq Hext | ev ip | n ip | sendID tg ty ev ip | id ip | d ip Hd].
  - by eapply evolves_iteration.
  - by eapply evolves_takeExternal.
  - unfold enqueue. case_decide; [|apply evolves_internal]. by apply emits_evolves, emits_one, prim_external.
  - unfold handleTimerFire. destruct (pending ip !! n) as [rec|]; [|apply rtc_refl].
    destruct (env_timerFiredHook env) as [hook|]; [|apply moving_fireTimer].
    destruct (hook _ _ _ _); [by apply control_evolves | apply moving_fireTimer].
  - unfold replayTimerFire. destruct (timerMatch _ _ _ _ ip) as [rec|]; [|apply rtc_refl]. simpl.
    eapply rtc_l; [apply (move_fire (ps_order rec)) | apply moving_dispatchNow].
  - apply rtc_once, move_receive.
  - by apply rtc_once, move_tick.
Qed.

Lemma evolves_enterInitial s t ip :
  enterInitial c env (newInterpretation s t) = Some ip → evolves (newInterpretation s t) ip.
Proof.
  unfold enterInitial. intros (entry & _ & [= <-])%bind_Some.
  set (ip1 := match c_dataBinding c with DataBindingEarly => _ | DataBindingLate => _ end).
  etrans; [|apply moving_enterStates]. etrans; [|apply evolves_appendTrace].
  etrans; [|by apply (control_evolves ip1)]. etrans; [apply (moving_initializeData (c_data c))|].
  unfold ip1. destruct (c_dataBinding c); [|apply rtc_refl]. apply moving_foldl. intros s' ip'. unfold initializeEarly.
  destruct (state_of c s') as [cs|]; [|apply rtc_refl]. destruct (st_data cs) as [|d ds]; [apply rtc_refl|].
  etrans; [apply moving_initializeData | by apply control_evolves].
Qed.

(** ** Invariants of reachable states *)

Lemma reachable_evolves ip : reachable c env ip → ∃ s t, evolves (newInterpretation s t) ip.
Proof.
  intros (ip0 & [s t ip1 H0] & Hrtc). exists s, t. apply evolves_enterInitial in H0.
  induction Hrtc as [|ip1 ip2 ip3 Hs _ IH]; [done|]. apply IH. etrans; [exact H0 | by apply step_evolves].
Qed.

Lemma reachable_invariant (P : interpretation → Prop) ip :
  (∀ s t, P (newInterpretation s t)) → (∀ ip ip', move ip ip' → P ip → P ip') → reachable c env ip → P ip.
Proof.
  intros H0 Hmove (s & t & Hev)%reachable_evolves. specialize (H0 s t).
  induction Hev as [|ip1 ip2 ip3 Hs _ IH]; [done|]. apply IH. by eapply Hmove.
Qed.

(** Pending sends are keyed by their creation number. *)
Definition pending_ok (ip : interpretation) : Prop :=
  ∀ n rec, pending ip !! n = Some rec → ps_order rec = n ∧ n ≤ pendingSeq ip.

Lemma move_pending_ok ip ip' : move ip ip' → pending_ok ip → pending_ok ip'.
Proof.
  intros Hmove Hok. destruct Hmove as [ip1 ip2 Hp | | | | | | n ip1 | ip1 | | |]; try exact Hok.
  - destruct Hp as [| | | | | |id ev ip1 ip2 _ Hc| |sid tg ty ev d ip1 _ _|sid ip1 _]; try exact Hok.
    + unfold channelSend in Hc. case_decide; [|done]. injection Hc as <-. exact Hok.
    + intros n rec. set (new := mkPending sid tg ty ev (now ip1 + d)%Z (S (pendingSeq ip1)) true).
      change (pending (schedule sid tg ty ev d ip1)) with (<[S (pendingSeq ip1) := new]> (pending ip1)).
      change (pendingSeq (schedule sid tg ty ev d ip1)) with (S (pendingSeq ip1)).
      intros [[<- <-]|[_ Hn]]%lookup_insert_Some; [done|]. destruct (Hok n rec Hn). split; [done | lia].
    + unfold doCancel. case_decide; [exact Hok|]. intros n rec. unfold pending at 1. simpl.
      intros [Hn _]%map_lookup_filter_Some. by apply Hok.
  - intros m rec. unfold pending at 1. simpl. intros [_ Hm]%lookup_delete_Some. by apply Hok.
  - intros m rec. unfold pending. simpl. by rewrite lookup_empty.
Qed.

Lemma reachable_pending_ok ip : reachable c env ip → pending_ok ip.
Proof.
  apply reachable_invariant; [intros s t n rec; unfold pending; simpl; by rewrite lookup_empty | apply move_pending_ok].
Qed.

(** No invocation's channel holds more than its buffer. *)
Definition channels_bounded (ip : interpretation) : Prop :=
  ∀ id queued, channels ip !! id = Some queued → length queued ≤ invokeIncomingBuffer.

Lemma move_channels_bounded ip ip' : move ip ip' → channels_bounded ip → channels_bounded ip'.
Proof.
  intros Hmove Hok. destruct Hmove as [ip1 ip2 Hp | | | | | | | | ri ip1 | id ip1 |]; try exact Hok.
  - destruct Hp as [| | | | | |id ev ip1 ip2 _ Hc| | |sid ip1 _]; try exact Hok.
    + unfold channelSend in Hc. case_decide as Hlen; [|done]. injection Hc as <-. intros id' q.
      unfold channels at 1. simpl. intros [[<- <-]|[_ Hq]]%lookup_insert_Some; [|by eapply Hok].
      rewrite length_app. simpl. lia.
    + unfold doCancel. case_decide; exact Hok.
  - intros id' q. unfold openChannel, channels at 1. simpl. destruct (ri_incoming ri); [|by apply Hok].
    intros [[<- <-]|[_ Hq]]%lookup_insert_Some; [simpl; lia | by eapply Hok].
  - intros id' q. unfold receive, channels at 1. simpl.
    intros [(_ & q' & Hq%Hok & ->)|[_ Hq]]%lookup_alter_Some; [destruct q'; simpl in *; lia | by eapply Hok].
Qed.

(** The i-th request to a processor carries the delivery number i. *)
Definition requests_numbered (ip : interpretation) : Prop :=
  dispatchSeq ip = (N.of_nat (length (requests ip)) mod 2 ^ 64)%N ∧
  ∀ i req, requests ip !! i = Some req →
    sr_DeliveryID req = env_deliveryNamespace env +:+ ":" +:+ itoa (N.of_nat (S i) mod 2 ^ 64).

Lemma reachable_requests_numbered ip : reachable c env ip → requests_numbered ip.
Proof.
  apply reachable_invariant; [done|]. intros ip0 ip' Hmove Hok.
  destruct Hmove as [ip1 ip2 Hp | | | | | | | | | |]; try exact Hok.
  destruct Hp as [| | | | |req ip1 _ Hreq|id ev ip1 ip2 _ Hc| | |sid ip1 _]; try exact Hok.
  - destruct Hok as [Hseq Hall].
    assert (nextDispatchSeq ip1 = (N.of_nat (S (length (requests ip1))) mod 2 ^ 64)%N) as Hnext.
    { unfold nextDispatchSeq. rewrite Hseq. rewrite N.Div0.add_mod_idemp_l. f_equal. lia. }
    split.
    + change (nextDispatchSeq ip1 = (N.of_nat (length (requests ip1 ++ [req])) mod 2 ^ 64)%N).
      rewrite Hnext, length_app. simpl. f_equal. lia.
    + intros i r. change (requests (set_requests (requests ip1 ++ [req]) (set_dispatchSeq (nextDispatchSeq ip1) ip1)))
        with (requests ip1 ++ [req]).
      intros [Hi|[Hlen Hi]]%lookup_app_Some; [by apply Hall|].
      destruct (i - length (requests ip1)) as [|k] eqn:E; [|done]. injection Hi as <-.
      rewrite Hreq, Hnext. assert (i = length (requests ip1)) as -> by lia. done.
  - unfold channelSend in Hc. case_decide; [|done]. injection Hc as <-. exact Hok.
  - unfold doCancel. case_decide; exact Hok.
Qed.

End evolution.
