(* ===== verification/Examples.v ===== *)
(** * Concrete charts

    A player with a parallel state, deep and shallow history and a top-level
    final state, over the counter datamodel, and its environment.  They
    instantiate the parameters and hypotheses of the theorems about the
    interpreter. *)

From S2P Require Import Prelude Identifier Values Events Datamodel Chart Tree Legal Interp Actions Entry Steps.
From stdpp Require Import options.

(** ** Building blocks *)

Definition trans (events targets : list Identifier) (actions : list actionBlock) (source : nat) (i : Z) : compiledTransition :=
  mkTransition events targets None actions false source i.

Definition into (targets : list Identifier) (source : nat) : option compiledTransition :=
  Some (trans [] targets [] source (-1)).

Definition node (id : Identifier) (k : StateKind) (hk : HistoryKind) (ini : option compiledTransition)
    (par : option nat) (chs : list nat) (ts : list compiledTransition) : compiledState :=
  mkState id k hk ini par chs [] [] ts [] None [].

Definition chart_of (l : list compiledState) : Chart :=
  mkChart l (list_to_map (zip (map st_id l) (seq 0 (length l)))) [] DataBindingEarly.

(** An environment with the SCXML processor, whose sends succeed and whose
    invocations start. *)
Definition plainEnv : environment :=
  mkEnvironment "s1" "example" "ns" (λ typ, bool_decide (typ = SCXMLEventProcessor)) (λ _ _, None)
    (λ _ _, Ok true) (λ _, Err (Errorf "bad duration")) None.

(** ** The player

    root > on > (memory, both > (audio > (quiet, loud), video > (dark, bright))), off, done *)
Definition player : Chart :=
  chart_of [
    node "root" KindCompound Shallow (into ["off"] 0) None [1; 10; 11] [];
    node "on" KindCompound Shallow (into ["both"] 1) (Some 0) [2; 3]
      [trans ["power"] ["off"] [] 1 0; trans ["stop"] ["done"] [] 1 1];
    node "memory" KindHistory Deep (into ["both"] 2) (Some 1) [] [];
    node "both" KindParallel Shallow None (Some 1) [4; 7] [];
    node "audio" KindCompound Shallow (into ["quiet"] 4) (Some 3) [5; 6] [];
    node "quiet" KindAtomic Shallow None (Some 4) [] [trans ["volume"] ["loud"] [] 5 0];
    node "loud" KindAtomic Shallow None (Some 4) [] [trans ["volume"] ["quiet"] [] 6 0];
    node "video" KindCompound Shallow (into ["dark"] 7) (Some 3) [8; 9] [];
    node "dark" KindAtomic Shallow None (Some 7) [] [trans ["light"; "volume"] ["bright"] [] 8 0];
    node "bright" KindAtomic Shallow None (Some 7) [] [trans ["light"] ["dark"] [] 9 0];
    node "off" KindAtomic Shallow None (Some 0) []
      [trans ["power"] ["memory"] [] 10 0; trans ["bright"] ["loud"; "bright"] [] 10 1];
    node "done" KindFinal Shallow None (Some 0) [] []
  ].

Definition norank (_ : nat) : nat := 0.

Lemma player_wf : wf_chart player norank.
Proof. apply wf_chart_check_sound. vm_compute. reflexivity. Qed.

Definition ext (name : Identifier) : Event := newEvent name EventExternal NullValue.

(** The state after the initial entry. *)
Definition player0 : interpretation :=
  default (newInterpretation (0%Z : Session) 0) (enterInitial player plainEnv (newInterpretation (0%Z : Session) 0)).

(** The state after a list of external events, each processed to stability. *)
Fixpoint feed (ip : interpretation) (names : list Identifier) : option interpretation :=
  match names with
  | [] => Some ip
  | n :: names => '(ip, _) ← processNextExternal player plainEnv 10 (enqueue (ext n) ip); feed ip names
  end.

Definition activeAfter (names : list Identifier) : option (list Identifier) :=
  ip ← start player plainEnv 10 (newInterpretation (0%Z : Session) 0);
  activeStates player <$> feed ip names.

Example player_start : activeAfter [] = Some ["off"].
Proof. vm_compute. reflexivity. Qed.

Example player_default : activeAfter ["power"] = Some ["on"; "both"; "audio"; "quiet"; "video"; "dark"].
Proof. vm_compute. reflexivity. Qed.

Example player_regions : activeAfter ["power"; "volume"] = Some ["on"; "both"; "audio"; "loud"; "video"; "bright"].
Proof. vm_compute. reflexivity. Qed.

Example player_memory :
  activeAfter ["power"; "light"; "power"; "power"] = Some ["on"; "both"; "audio"; "quiet"; "video"; "bright"].
Proof. vm_compute. reflexivity. Qed.

Example player_targets : activeAfter ["bright"] = Some ["on"; "both"; "audio"; "loud"; "video"; "bright"].
Proof. vm_compute. reflexivity. Qed.

(** ** An alarm

    Its only state schedules two delayed sends under one ID, sends two events to
    a processor, and invokes a service. *)
Definition noPayload : compiledPayload := mkPayload [] None.

Definition sendOp (event target id : string) (delay : Z) : compiledOperation :=
  OpSend event target "" id None None None None None noPayload delay.

Definition service : compiledInvoke :=
  mkInvoke "svc" 1 "" "service" None "src" None noPayload None [[OpScript CIncr; OpScript (CFail "broken")]] true.

Definition alarm : Chart :=
  chart_of [
    node "root" KindCompound Shallow (into ["a"] 0) None [1] [];
    mkState "a" KindAtomic Shallow None (Some 0) []
      [[sendOp "tick" "" "t" 1000; sendOp "tick" "" "t" 2000];
       [sendOp "hello" "elsewhere" "" 0; sendOp "again" "elsewhere" "" 0]] [] [] [service] None []
  ].

Definition alarm0 : interpretation :=
  default (newInterpretation (0%Z : Session) 0) (enterInitial alarm plainEnv (newInterpretation (0%Z : Session) 0)).

Definition firstTick : pendingSendRecord :=
  mkPending "t" "" SCXMLEventProcessor (mkEvent "tick" EventExternal NullValue "t" "" "" "" "") 1000 1 true.

Example alarm_pending : pending alarm0 !! 1 = Some firstTick.
Proof. vm_compute. reflexivity. Qed.

Example alarm_requests : map sr_DeliveryID (requests alarm0) = ["ns:1"; "ns:2"].
Proof. vm_compute. reflexivity. Qed.
