(* ===== verification/Configurations.v ===== *)
(** * Theorems: configurations

    The interpreter keeps a legal configuration, never gets stuck, and changes
    the configuration in a microstep exactly by the exit and entry sets of
    conflict-free transitions. *)

From S2P Require Import Prelude Identifier Values Events Datamodel Chart Tree Legal Interp Actions Entry EntryCorrect EntryConsistent EntryTotal Domain LegalStep Steps StepCorrect Macrostep Examples.
From stdpp Require Import options.

Section theorems.
Context `{DM : DatamodelSession}.
Variable c : Chart.
Variable env : environment.
Variable hrank : nat → nat.

(** In every reachable state of the interpreter of a
    well-formed chart the configuration is legal: parents of active states are
    active, an active compound state has exactly one active child, an active
    parallel state has all of its children active, and no history state is
    active.  This holds whatever the datamodel, the processors and the
    invocations do. *)
Theorem reachable_legal (ip : interpretation) :
  wf_chart c hrank → reachable c env ip → legal c (configuration ip).
Proof. intros Hwf Hr. by apply (reachable_well_configured c env hrank Hwf). Qed.

(** No reachable state is stuck: the initial entry, every
    iteration of the loop of [runToStable] and the processing of every external
    event return.  In particular [entryFuel] is always enough for the recursion
    through default transitions and history. *)
Theorem reachable_progress (ip : interpretation) :
  wf_chart c hrank → reachable c env ip →
  (∃ ip' b, stableIteration c env ip = Some (ip', b))
  ∧ (∀ ev queue, ∃ ip', takeExternal c env ev queue ip = Some ip')
  ∧ (∀ s t, ∃ ip', enterInitial c env (newInterpretation s t) = Some ip').
Proof.
  intros Hwf Hr. pose proof (reachable_well_configured c env hrank Hwf ip Hr) as HW. split_and!.
  - destruct (iteration_well_configured c env hrank Hwf ip HW) as (ip' & b & H & _). eauto.
  - intros ev queue. destruct (takeExternal_well_configured c env hrank Hwf ev queue ip HW) as (ip' & H & _). eauto.
  - intros s t. destruct (enterInitial_well_configured c env hrank Hwf s t) as (ip' & H & _). eauto.
Qed.

(** C16 (functional): a microstep taking conflict-free transitions from a legal
    configuration leaves exactly the active states strictly inside the domains
    of the transitions, enters exactly the entry set, keeps every other active
    state, and ends in a legal configuration.  What is entered lies strictly
    inside a domain (or is the root). *)
Theorem microstep_configuration (trigger : option Event) (ts : list compiledTransition) (ip : interpretation) :
  wf_chart c hrank → legal c (configuration ip) → history_ok c (historyValue ip) → takeable c ip ts →
  ∃ ip' entry,
    microstep c env trigger ts ip = Some ip'
    ∧ computeEntrySet c ip ts = Some entry
    ∧ legal c (configuration ip') ∧ history_ok c (historyValue ip')
    ∧ (∀ x, x ∈ configuration ip' ↔
         x ∈ entry.1 ∨ (x ∈ configuration ip ∧ ∀ d, domains c ip ts d → ¬ strict c x d))
    ∧ ∀ x, x ∈ entry.1 → ∃ d, domains c ip ts d ∧ (strict c x d ∨ (x = root ∧ d = root)).
Proof.
  intros Hwf HL HH Hts.
  destruct (microstep_well_configured c env hrank Hwf trigger ts ip (conj HL HH) Hts)
    as (ip' & entry & Hstep & [HL' HH'] & Hentry & HC & _).
  exists ip', entry. split_and!; try done.
  - intros x. rewrite HC, elem_of_union, elem_of_difference.
    rewrite (elem_of_computeExitSet c hrank Hwf ip HL HH). naive_solver.
  - intros x Hx. destruct (f_inside _ _ _ (filled_step c hrank Hwf ip HL HH ts entry Hts Hentry) x Hx)
      as (d & ? & ? & _). eauto.
Qed.

(** C17 (safety): the transitions selected for an event can be taken together:
    each belongs to an active state (or the root) and matches the event by name,
    the exit sets are pairwise disjoint, the domains form an antichain, and
    evaluating the conditions leaves the configuration, the history and the
    invocations unchanged. *)
Theorem selectTransitions_takeable (ev : Event) (ip ip' : interpretation) (ts : list compiledTransition) :
  wf_chart c hrank → legal c (configuration ip) → history_ok c (historyValue ip) →
  selectTransitions c env ev ip = (ip', ts) →
  control_of ip' = control_of ip ∧ takeable c ip' ts
  ∧ (∀ t, t ∈ ts → eventMatches t (Name ev) = true)
  ∧ ∀ d d', domains c ip' ts d → domains c ip' ts d' → under c d d' → d = d'.
Proof.
  intros Hwf HL HH Hsel. unfold selectTransitions in Hsel.
  destruct (selectEnabled c env (eventGuard ev) (atomicStatesInDocOrder c ip) [] ip) as [ip1 enabled] eqn:He.
  simplify_eq. destruct (selection_takeable c env hrank Hwf _ _ _ _ HL He) as [Hctl Ht].
  assert (core ip' = core ip) as Hcore by (by apply core_control). unfold core in Hcore. injection Hcore as HC HV.
  split_and!; [done | done | |].
  - intros t Hin. apply removeConflictingTransitions_spec in Hin.
    pose proof (selectEnabled_spec c env (eventGuard ev) (atomicStatesInDocOrder c ip) [] ip) as [_ H].
    rewrite He in H. destruct (H t Hin) as [?%elem_of_nil|[Hg _]]; [done|].
    unfold eventGuard in Hg. by apply andb_true_iff in Hg as [_ ?].
  - intros d d'. apply (takeable_antichain c hrank Hwf ip'); [by rewrite HC | by rewrite HV | done].
Qed.

End theorems.

(** ** Witnesses *)

Lemma player0_reachable : reachable player plainEnv player0.
Proof.
  exists player0. split; [|apply rtc_refl]. apply (initial_entered player plainEnv (0%Z : @Session CounterSession) 0).
  destruct (enterInitial_well_configured player plainEnv norank player_wf (0%Z : @Session CounterSession) 0) as (ip & H & _).
  unfold player0. by rewrite H.
Qed.

Lemma reachable_legal_witness :
  wf_chart player norank ∧ reachable player plainEnv player0 ∧ legal player (configuration player0).
Proof.
  split; [apply player_wf|]. split; [apply player0_reachable|].
  exact (reachable_legal player plainEnv norank player0 player_wf player0_reachable).
Defined.

Lemma reachable_progress_witness :
  ∃ ip' b, stableIteration player plainEnv player0 = Some (ip', b).
Proof. exact (proj1 (reachable_progress player plainEnv norank player0 player_wf player0_reachable)). Defined.

Lemma player0_configured : legal player (configuration player0) ∧ history_ok player (historyValue player0).
Proof. exact (reachable_well_configured player plainEnv norank player_wf player0 player0_reachable). Qed.

(** The transition of [off] for [power]. *)
Definition powerOn : compiledTransition := trans ["power"] ["memory"] [] 10 0.

Lemma powerOn_takeable : takeable player player0 [powerOn].
Proof.
  split; [|repeat constructor]. constructor; [|constructor]. split; [|left].
  right. vm_compute. reflexivity.
Qed.

Lemma microstep_configuration_witness :
  ∃ ip', microstep player plainEnv None [powerOn] player0 = Some ip' ∧ legal player (configuration ip').
Proof.
  destruct (microstep_configuration player plainEnv norank None [powerOn] player0 player_wf
    (proj1 player0_configured) (proj2 player0_configured) powerOn_takeable) as (ip' & entry & H & _ & HL & _).
  exists ip'. split; assumption.
Defined.

Lemma selectTransitions_takeable_witness :
  ∃ ip' ts, selectTransitions player plainEnv (ext "power") player0 = (ip', ts) ∧ length ts = 1
    ∧ takeable player ip' ts.
Proof.
  destruct (selectTransitions player plainEnv (ext "power") player0) as [ip' ts] eqn:E.
  exists ip', ts. split; [reflexivity|]. split.
  - assert (length (selectTransitions player plainEnv (ext "power") player0).2 = 1) as H by (vm_compute; reflexivity).
    rewrite E in H. exact H.
  - exact (proj1 (proj2 (selectTransitions_takeable player plainEnv norank (ext "power") player0 ip' ts player_wf
      (proj1 player0_configured) (proj2 player0_configured) E))).
Defined.
