(* ===== verification/History.v ===== *)
(** * Theorems: history

    What leaving states records, and that entering a deep history state again
    restores exactly the part of the configuration that was left. *)

From S2P Require Import Prelude Identifier Values Events Datamodel Chart Tree Legal Interp Actions Entry EntryCorrect EntryConsistent EntryTotal Domain LegalStep Steps StepCorrect Macrostep Examples.
From stdpp Require Import options.

Section history.
Context `{DM : DatamodelSession}.
Variable c : Chart.
Variable hrank : nat → nat.
Hypothesis Hwf : wf_chart c hrank.

Let Htree := wf_is_tree c hrank Hwf.

Lemma lookup_recordHistory cfg s hist h :
  recordHistory c cfg s hist !! h =
    (if decide (kind c h = KindHistory ∧ h ∈ children c s)
     then Some (sort_asc (recordedSet c s h cfg)) else hist !! h).
Proof using All.
  unfold recordHistory. revert hist. induction (children c s) as [|ch chs IH]; intros hist; simpl.
  { rewrite decide_False; [done|]. by intros [_ ?%elem_of_nil]. }
  rewrite IH. destruct (decide (kind c h = KindHistory ∧ h ∈ chs)) as [[Hk Hin]|Hn].
  { rewrite decide_True; [done|]. split; [done | by right]. }
  destruct (decide (kind c ch = KindHistory)) as [Hch|Hch].
  - destruct (decide (ch = h)) as [->|Hne].
    + rewrite lookup_insert_eq, decide_True; [done|]. split; [done | left].
    + rewrite lookup_insert_ne, decide_False; [done | | done].
      intros [Hk [->|Hin]%elem_of_cons]; [done | by apply Hn].
  - rewrite decide_False; [done|]. intros [Hk [->|Hin]%elem_of_cons]; [done | by apply Hn].
Qed.

Lemma lookup_recordAll cfg l hist h :
  foldl (λ hist s, recordHistory c cfg s hist) hist l !! h =
    match parent c h with
    | Some s => if decide (kind c h = KindHistory ∧ s ∈ l) then Some (sort_asc (recordedSet c s h cfg)) else hist !! h
    | None => hist !! h
    end.
Proof using All.
  revert hist. induction l as [|s l IH]; intros hist; simpl.
  { destruct (parent c h); [|done]. rewrite decide_False; [done|]. by intros [_ ?%elem_of_nil]. }
  rewrite IH, lookup_recordHistory. destruct (parent c h) as [p|] eqn:Hp.
  - destruct (decide (kind c h = KindHistory ∧ p ∈ l)) as [[Hk Hin]|Hn].
    { rewrite decide_True; [done|]. split; [done | by right]. }
    destruct (decide (kind c h = KindHistory ∧ h ∈ children c s)) as [[Hk Hc]|Hn'].
    + apply (wf_children c Htree) in Hc. simplify_eq. rewrite decide_True; [done|]. split; [done | left].
    + rewrite decide_False; [done|]. intros [Hk [->|Hin]%elem_of_cons]; [|by apply Hn].
      apply Hn'. split; [done|]. by apply (wf_children c Htree).
  - rewrite decide_False; [done|]. intros [_ Hc%(wf_children c Htree)]. congruence.
Qed.

(** Entering a deep history state adds what was active inside its parent. *)
Lemma deep_history_entry cfg hist h q fuel acc :
  legal c cfg → history_ok c hist → q ∈ cfg → parent c h = Some q → kind c h = KindHistory → historyKind c h = Deep →
  hist !! h = Some (sort_asc (recordedSet c q h cfg)) →
  addDescendant c hist fuel h (∅, ∅) = Some acc →
  ∀ x, x ∈ acc.1 ↔ x ∈ cfg ∧ strict c x q.
Proof using All.
  intros HL HH Hq Hp Hk Hdeep Hrec Hrun.
  pose proof (wf_parent_valid c Htree _ _ Hp) as Hv.
  pose proof (addDescendant_grows c hrank Hwf hist HH fuel h (∅, ∅) acc Hv Hrun) as [G Heff].
  assert (consistent c q acc.1) as Hcons.
  { eapply (addDescendant_consistent c hrank Hwf hist HH q fuel h (∅, ∅)); [done | done | |].
    - by intros x y ?%elem_of_empty.
    - by intros x ?%elem_of_empty. }
  simpl in G. rewrite Hp in G. assert (∀ x : nat, x ∉ (∅ : gset nat)) as Hno by set_solver.
  assert (∀ x, x ∈ acc.1 → strict c x q) as Hin.
  { intros x Hx. pose proof (g_region _ _ _ _ _ G x Hx (Hno x)) as Hr. unfold region in Hr.
    by rewrite decide_True, Hp in Hr. }
  assert (∀ r, r ∈ recordedSet c q h cfg → r ∈ acc.1) as Hrec'.
  { intros r Hr. apply Heff. eapply effective_recorded; [done.. | by apply elem_of_sort_asc]. }
  assert (∀ x, x ∈ cfg → strict c x q → x ∈ acc.1) as Hsup.
  { intros x Hx Hxq. assert (∃ r, r ∈ recordedSet c q h cfg ∧ under c r x) as (r & Hr & Hrx).
    { unfold recordedSet. rewrite Hdeep. setoid_rewrite elem_of_filter. setoid_rewrite isDescendant_spec.
      destruct (isAtomicKind c x) eqn:Hat; [exists x; split_and!; auto using under_refl|].
      assert (kind c x = KindCompound ∨ kind c x = KindParallel) as Hkx.
      { pose proof (legal_valid _ _ HL x Hx) as [_ Hnh]. unfold isAtomicKind in Hat.
        apply orb_false_iff in Hat as [H1%bool_decide_eq_false H2%bool_decide_eq_false].
        destruct (kind c x) eqn:E; auto; congruence. }
      destruct (active_atomic c hrank Hwf cfg HL x) as (r & Hr & Hra & Hrx); [by right | done |].
      exists r. split_and!; [done | by eapply strict_trans | done | by right]. }
    destruct Hrx as [->|Hrx]; [by apply Hrec'|].
    apply (g_upto _ _ _ _ _ G r (Hrec' r Hr) (Hno r)); done. }
  intros x. split; [|by intros [? ?]; apply Hsup]. intros Hx. split; [|by apply Hin].
  induction (lt_wf x) as [x _ IH]. pose proof (Hin x Hx) as Hxq.
  pose proof Hxq as (p & Hxp & Hpq)%(strict_unfold c Htree).
  assert (p ∈ cfg) as Hpc.
  { destruct Hpq as [->|Hpq]; [done|]. apply IH; [by eapply wf_parent_lt|].
    apply (g_upto _ _ _ _ _ G x Hx (Hno x)); [by apply (strict_parent c Htree) | done]. }
  pose proof (g_real _ _ _ _ _ G x Hx (Hno x)) as [_ Hxk].
  assert (x ∈ realChildren c p) as Hxr by (by apply (elem_of_realChildren c Htree)).
  destruct (wf_leaf c hrank Hwf p x Hxp) as [Hkp|Hkp].
  - destruct (legal_compound _ _ HL p) as (y & Hyr & Hy); [by right | done |].
    pose proof Hyr as [Hyp _]%(elem_of_realChildren c Htree).
    assert (strict c y q) as Hyq by (eapply strict_under_trans; [done | by apply (strict_parent c Htree) | done]).
    destruct (decide (x = y)) as [->|Hne]; [done|]. exfalso.
    apply (Hcons x y Hx (Hsup y Hy Hyq)). exists p, x, y. split_and!; auto using under_refl.
  - apply (legal_parallel _ _ HL p); [by right | done..].
Qed.

End history.

Section theorems.
Context `{DM : DatamodelSession}.
Variable c : Chart.
Variable env : environment.
Variable hrank : nat → nat.

(** C19 (functional): a microstep records history before anything is exited.
    For every history child of an exited state it stores, in document order,
    the active atomic descendants (deep) or the active children (shallow) of
    that state in the configuration the step started from; every other recorded
    history is kept. *)
Theorem microstep_records_history trigger ts ip ip' h :
  wf_chart c hrank → legal c (configuration ip) → history_ok c (historyValue ip) → takeable c ip ts →
  microstep c env trigger ts ip = Some ip' →
  historyValue ip' !! h =
    match parent c h with
    | Some s =>
        if decide (kind c h = KindHistory ∧ s ∈ computeExitSet c ip ts)
        then Some (sort_asc (match historyKind c h with
                             | Deep => filter (λ x, isAtomicKind c x = true ∧ isDescendant c x (Some s) = true) (configuration ip)
                             | Shallow => filter (λ x, parent c x = Some s) (configuration ip)
                             end))
        else historyValue ip !! h
    | None => historyValue ip !! h
    end.
Proof.
  intros Hwf HL HH Hts Hstep.
  destruct (microstep_well_configured c env hrank Hwf trigger ts ip (conj HL HH) Hts)
    as (ip2 & entry & Hstep2 & _ & _ & _ & HV). simplify_eq.
  rewrite HV. unfold recordedHistory. rewrite (lookup_recordAll c hrank Hwf).
  destruct (parent c h) as [s|]; [|done].
  destruct (decide (kind c h = KindHistory ∧ s ∈ computeExitSet c ip ts)) as [Hd|Hd].
  - rewrite decide_True; [done|]. by rewrite elem_of_sort_desc.
  - rewrite decide_False; [done|]. by rewrite elem_of_sort_desc.
Qed.

(** C18 (roundtrip): deep history is exact.  If a step exits [q] and [h] is a
    deep history child of [q], then entering [h] afterwards (from any later
    state that still has this record) puts into the entry set exactly the states
    that were active strictly inside [q] when [q] was exited. *)
Theorem deep_history_restores trigger ts ip ip' later h q :
  wf_chart c hrank → legal c (configuration ip) → history_ok c (historyValue ip) → takeable c ip ts →
  microstep c env trigger ts ip = Some ip' →
  parent c h = Some q → kind c h = KindHistory → historyKind c h = Deep → q ∈ computeExitSet c ip ts →
  history_ok c (historyValue later) → historyValue later !! h = historyValue ip' !! h →
  ∃ acc, addDescendantStatesToEnter c later h (∅, ∅) = Some acc
    ∧ ∀ x, x ∈ acc.1 ↔ x ∈ configuration ip ∧ strict c x q.
Proof.
  intros Hwf HL HH Hts Hstep Hp Hk Hdeep Hq HH' Hsame.
  destruct (microstep_well_configured c env hrank Hwf trigger ts ip (conj HL HH) Hts)
    as (ip2 & entry & Hstep2 & _ & _ & _ & HV). simplify_eq.
  rewrite HV in Hsame. unfold recordedHistory in Hsame. rewrite (lookup_recordAll c hrank Hwf), Hp in Hsame.
  rewrite decide_True in Hsame by (by rewrite elem_of_sort_desc).
  destruct (addDescendant_total c hrank Hwf _ HH' (entryFuel c) h (∅, ∅)) as [acc Hacc].
  { apply (weight_entryFuel c hrank Hwf _ HH'). }
  exists acc. split; [done|]. eapply (deep_history_entry c hrank Hwf (configuration ip)); try done.
  by apply (elem_of_computeExitSet c hrank Hwf ip HL HH) in Hq as [? _].
Qed.

End theorems.

(** ** Witnesses *)

Lemma feed_well_configured ip names ip' :
  well_configured player ip → feed ip names = Some ip' → well_configured player ip'.
Proof.
  revert ip. induction names as [|n names IH]; intros ip HW; simpl; [by intros [= <-]|].
  intros ([ip1 b] & H1 & H2)%bind_Some. apply (IH ip1); [|done].
  eapply (processNextExternal_well_configured player plainEnv norank player_wf); [|exact H1].
  by apply enqueue_well_configured.
Qed.

(** The player switched on, with the picture bright. *)
Definition playerBright : interpretation := default player0 (feed player0 ["power"; "light"]).

Lemma playerBright_wc : well_configured player playerBright.
Proof.
  assert (well_configured player player0) as H0.
  { unfold player0. destruct (enterInitial_well_configured player plainEnv norank player_wf (0%Z : @Session CounterSession) 0)
      as (ip & -> & H). exact H. }
  unfold playerBright. destruct (feed player0 ["power"; "light"]) eqn:E; [|done].
  by eapply feed_well_configured.
Qed.

(** The transition of [on] for [power]. *)
Definition powerOff : compiledTransition := trans ["power"] ["off"] [] 1 0.

Lemma powerOff_takeable : takeable player playerBright [powerOff].
Proof.
  split; [|repeat constructor]. constructor; [|constructor]. split; [|left]. right. vm_compute. reflexivity.
Qed.

Definition playerOff : interpretation := default player0 (microstep player plainEnv None [powerOff] playerBright).

Lemma playerOff_step :
  microstep player plainEnv None [powerOff] playerBright = Some playerOff ∧ well_configured player playerOff.
Proof.
  destruct (microstep_well_configured player plainEnv norank player_wf None [powerOff] playerBright playerBright_wc
    powerOff_takeable) as (ip & _ & H & HW & _).
  unfold playerOff. rewrite H. done.
Qed.

Lemma microstep_records_history_witness :
  historyValue playerOff !! 2 = Some [5; 9].
Proof.
  rewrite (microstep_records_history player plainEnv norank None [powerOff] playerBright playerOff 2 player_wf
    (proj1 playerBright_wc) (proj2 playerBright_wc) powerOff_takeable (proj1 playerOff_step)).
  vm_compute. reflexivity.
Defined.

Lemma deep_history_restores_witness :
  ∃ acc, addDescendantStatesToEnter player playerOff 2 (∅, ∅) = Some acc
    ∧ ∀ x, x ∈ acc.1 ↔ x ∈ configuration playerBright ∧ strict player x 1.
Proof.
  apply (deep_history_restores player plainEnv norank None [powerOff] playerBright playerOff playerOff 2 1 player_wf
    (proj1 playerBright_wc) (proj2 playerBright_wc) powerOff_takeable (proj1 playerOff_step));
    [reflexivity | reflexivity | reflexivity | vm_compute; reflexivity | exact (proj2 (proj2 playerOff_step)) | reflexivity].
Defined.
