(* ===== verification/Execution.v ===== *)
(** * Theorems: executable content, timers, invocations and stability *)

From S2P Require Import Prelude Identifier Values Events Datamodel Chart Tree Legal Interp Actions Effects Entry Steps StepCorrect Macrostep Evolution Examples Configurations.
From stdpp Require Import options.

Section lemmas.
Context `{DM : DatamodelSession}.
Variable c : Chart.
Variable env : environment.

(** ** What finalize content may change *)

Definition error_event (ev : Event) : Prop := Name ev = ErrEventExecution ∧ Type_ ev = EventPlatform.

(** Nothing but the session, the log, and reported errors. *)
Definition quiet (ip ip' : interpretation) : Prop :=
  control_of ip' = control_of ip ∧ pending ip' = pending ip ∧ externalQueue ip' = externalQueue ip
  ∧ requests ip' = requests ip ∧ channels ip' = channels ip ∧ sendSeq ip' = sendSeq ip
  ∧ ∃ errors, internalQueue ip' = internalQueue ip ++ errors ∧ Forall error_event errors.

#[local] Instance quiet_preorder : PreOrder quiet.
Proof.
  split.
  - intros ip. split_and!; try done. exists []. by rewrite app_nil_r.
  - intros x y z (? & ? & ? & ? & ? & ? & e1 & Q1 & F1) (? & ? & ? & ? & ? & ? & e2 & Q2 & F2).
    split_and!; try congruence. exists (e1 ++ e2). rewrite Q2, Q1, app_assoc. split; [done | by apply Forall_app].
Qed.

Lemma prim_quiet ip ip' : prim env true ip ip' → quiet ip ip'.
Proof.
  destruct 1; try done; split_and!; try done.
  - exists []. by rewrite app_nil_r.
  - eexists. split; [done|]. by repeat constructor.
  - exists []. by rewrite app_nil_r.
Qed.

Lemma emits_quiet ip ip' : emits env true ip ip' → quiet ip ip'.
Proof. induction 1 as [|x y z H _ IH]; [done|]. etrans; [by apply prim_quiet | done]. Qed.

(** ** Blocks *)

(** Operations that all succeed. *)
Inductive completes (ec : ExecContext) : list compiledOperation → interpretation → interpretation → Prop :=
| completes_nil ip : completes ec [] ip ip
| completes_cons o os ip ip1 ip2 :
    executeOperation c env ec o ip = (ip1, Ok ()) → completes ec os ip1 ip2 → completes ec (o :: os) ip ip2.

(** The two ways a block can end. *)
Lemma runBlock_cases ec block ip :
  completes ec block ip (runBlock (executeOperation c env ec) block ip)
  ∨ ∃ pre o post ip1 ip2 e, block = pre ++ o :: post ∧ completes ec pre ip ip1
      ∧ executeOperation c env ec o ip1 = (ip2, Err e)
      ∧ runBlock (executeOperation c env ec) block ip = reportError e ip2.
Proof.
  revert ip. induction block as [|o block IH]; intros ip; simpl; [left; constructor|].
  destruct (executeOperation c env ec o ip) as [ip' [[]|e]] eqn:E.
  - destruct (IH ip') as [H|(pre & o' & post & ip1 & ip2 & e & -> & H1 & H2 & H3)].
    + left. by econstructor.
    + right. exists (o :: pre), o', post, ip1, ip2, e. split_and!; [done | by econstructor | done | done].
  - right. exists [], o, block, ip, ip', e. split_and!; [done | constructor | done | done].
Qed.

(** ** Timers *)

Lemma earliest_None recs : earliest recs = None ↔ recs = [].
Proof. destruct recs as [|r recs]; [done|]. simpl. split; [|done]. destruct (earliest recs); [by destruct (earlier _ _) | done]. Qed.

Lemma earliest_elem recs r : earliest recs = Some r → r ∈ recs.
Proof.
  revert r. induction recs as [|x recs IH]; intros r; simpl; [done|].
  destruct (earliest recs) as [b|]; [|intros [= <-]; left].
  destruct (earlier b x); intros [= <-]; [right; by apply IH | left].
Qed.

Lemma earlier_asym r r' : earlier r r' = true → earlier r' r = false.
Proof.
  unfold earlier. rewrite orb_true_iff, andb_true_iff, !bool_decide_eq_true. intros H.
  apply orb_false_iff. rewrite andb_false_iff, !bool_decide_eq_false. lia.
Qed.

(** A record earlier than all others is the one that is found. *)
Lemma earliest_unique recs r : r ∈ recs → (∀ r', r' ∈ recs → r' = r ∨ earlier r r' = true) → earliest recs = Some r.
Proof.
  induction recs as [|x recs IH]; intros Hin Hmin; [by apply elem_of_nil in Hin|]. simpl.
  assert (∀ r', r' ∈ recs → r' = r ∨ earlier r r' = true) as Hmin' by (intros r' ?; apply Hmin; by right).
  apply elem_of_cons in Hin as [<-|Hr].
  - destruct (earliest recs) as [b|] eqn:E; [|done]. apply earliest_elem in E.
    destruct (Hmin' b E) as [->|Hb]; [by destruct (earlier r r)|]. by rewrite (earlier_asym _ _ Hb).
  - rewrite (IH Hr Hmin'). destruct (Hmin x) as [->|Hx]; [left| |by rewrite Hx]. by destruct (earlier r r).
Qed.

(** ** Fresh invocation IDs *)

Lemma generatedInvokeID_inj s : Inj (=) (=) (generatedInvokeID c s).
Proof. intros n m H. unfold generatedInvokeID in H. by do 2 apply string_app_inj_l in H as H; apply (inj itoa) in H. Qed.

Definition reservedIDs (ip : interpretation) : gset string := dom (invokesByID ip) ∪ list_to_set (staticInvokeIDs c).

Lemma elem_of_reservedIDs ip id : invokeIDReserved c ip id = true ↔ id ∈ reservedIDs ip.
Proof.
  unfold invokeIDReserved, reservedIDs. rewrite orb_true_iff, !bool_decide_eq_true, elem_of_union, elem_of_dom.
  by rewrite elem_of_list_to_set.
Qed.

(** Every failed attempt uses up one reserved ID. *)
Lemma freshInvokeID_fresh fuel ip s seq (used : gset string) :
  used ⊆ reservedIDs ip → size (reservedIDs ip) ≤ size used + fuel →
  (∀ id, id ∈ used → ∃ m, (m ≤ seq)%N ∧ id = generatedInvokeID c s m) →
  invokeIDReserved c ip (freshInvokeID c fuel ip s seq).1 = false
  ∧ ∃ m, (seq < m)%N ∧ freshInvokeID c fuel ip s seq = (generatedInvokeID c s m, m).
Proof.
  revert seq used. induction fuel as [|fuel IH]; intros seq used Hsub Hsize Hused; simpl.
  - split; [|exists (seq + 1)%N; split; [lia | done]]. apply not_true_iff_false. rewrite elem_of_reservedIDs. intros Hin.
    assert (generatedInvokeID c s (seq + 1) ∉ used) as Hn.
    { intros (m & Hm & ?%(inj (generatedInvokeID c s)))%Hused. lia. }
    assert (used ≡ reservedIDs ip) as Heq by (apply set_subseteq_size_equiv; [done | lia]).
    by rewrite Heq in Hn.
  - destruct (invokeIDReserved c ip (generatedInvokeID c s (seq + 1))) eqn:E.
    2: { split; [done|]. exists (seq + 1)%N. split; [lia | done]. }
    apply elem_of_reservedIDs in E.
    assert (generatedInvokeID c s (seq + 1) ∉ used) as Hn.
    { intros (m & Hm & ?%(inj (generatedInvokeID c s)))%Hused. lia. }
    destruct (IH (seq + 1)%N ({[generatedInvokeID c s (seq + 1)]} ∪ used)) as [H1 (m & Hm & H2)].
    + set_solver.
    + rewrite size_union by set_solver. rewrite size_singleton. lia.
    + intros id [->%elem_of_singleton|Hid]%elem_of_union; [exists (seq + 1)%N; split; [lia | done]|].
      destruct (Hused id Hid) as (m & ? & ->). exists m. split; [lia | done].
    + split; [done|]. exists m. split; [lia | done].
Qed.

Lemma freshInvokeID_unreserved ip s :
  invokeIDReserved c ip (freshInvokeID c (invokeFuel c ip) ip s (invokeSeq ip)).1 = false.
Proof.
  apply (freshInvokeID_fresh _ ip s (invokeSeq ip) ∅); [set_solver | | set_solver].
  rewrite size_empty. unfold reservedIDs, invokeFuel. simpl.
  rewrite size_union_alt, size_dom. apply Nat.add_le_mono_l. etrans; [|apply (size_list_to_set_le (staticInvokeIDs c))].
  apply subseteq_size. set_solver.
Qed.

End lemmas.

Section theorems.
Context `{DM : DatamodelSession}.
Variable c : Chart.
Variable env : environment.

(** Executable content cannot change control state.  Running any
    action blocks, data initialisation, finalize content or a dispatched send
    leaves the configuration, recorded history, invocation tables, running flag
    and trace exactly as they were, whatever the datamodel and the I/O
    processors do, and whether or not they fail or panic. *)
Theorem content_keeps_control blocks ds (sendID target typ : Identifier) ev (ip : interpretation) :
  control_of (runActionBlocks c env blocks ip) = control_of ip
  ∧ control_of (runFinalizeBlocks c env blocks ip) = control_of ip
  ∧ control_of (initializeData c env ds ip) = control_of ip
  ∧ control_of (dispatchNow env sendID target typ ev ip) = control_of ip.
Proof.
  split_and!; [apply runActionBlocks_keeps | apply runFinalizeBlocks_keeps | apply initializeData_keeps | apply dispatchNow_keeps].
Qed.

(** Finalize content has no external effect.  If the blocks contain
    what the validator admits in [<finalize>] (no raise, send or cancel at any
    depth), running them changes neither the delayed sends, the external queue,
    the requests to processors, the channels of invocations nor the send
    counter, and adds only [error.execution] events to the internal queue, even
    if a host function called by the datamodel tries to raise, send or cancel. *)
Theorem finalize_is_quiet blocks (ip : interpretation) :
  forallb (forallb finalizable) blocks = true →
  quiet ip (runFinalizeBlocks c env blocks ip).
Proof. intros H. by apply (emits_quiet env), emits_runFinalizeBlocks. Qed.

(** An error is local to its block.  A block either runs all of its
    operations, or stops at the first one that fails: the operations before it
    completed, the later ones are not executed, and exactly one [error.execution]
    event carrying the error is appended.  The blocks after it run in either
    case, from the state the failed block left. *)
Theorem block_error_isolated (block : actionBlock) (blocks : list actionBlock) (ip : interpretation) :
  runActionBlocks c env (block :: blocks) ip = runActionBlocks c env blocks (runActions c env block ip)
  ∧ (completes c env (execContext c env ip) block ip (runActions c env block ip)
     ∨ ∃ pre o post ip1 ip2 e,
         block = pre ++ o :: post
         ∧ completes c env (execContext c env ip) pre ip ip1
         ∧ executeOperation c env (execContext c env ip) o ip1 = (ip2, Err e)
         ∧ internalQueue (runActions c env block ip) =
             internalQueue ip2 ++ [newEvent ErrEventExecution EventPlatform (PlatformErrorValue ErrEventExecution (Some e))]
         ∧ effects_of (set_internalQueue (internalQueue ip2) (runActions c env block ip)) = effects_of ip2).
Proof.
  split; [done|]. destruct (runBlock_cases c env (execContext c env ip) block ip) as [H|H]; [by left | right].
  destruct H as (pre & o & post & ip1 & ip2 & e & H1 & H2 & H3 & H4).
  exists pre, o, post, ip1, ip2, e. unfold runActions, runActionsWithContext. rewrite H4.
  split_and!; try done. by destruct ip2 as [k []].
Qed.

(** Cancelling.  [doCancel] removes exactly the delayed sends
    whose author-visible send ID is the given one; an empty ID cancels nothing,
    and the rest of the state is unchanged. *)
Theorem doCancel_exact (sendID : Identifier) (ip : interpretation) n rec :
  pending (doCancel sendID ip) !! n = Some rec ↔
    pending ip !! n = Some rec ∧ (sendID = "" ∨ SendID (ps_event rec) ≠ sendID).
Proof.
  unfold doCancel. case_decide as Hid.
  - naive_solver.
  - unfold pending at 1. simpl. rewrite map_lookup_filter_Some. simpl. naive_solver.
Qed.

(** Among the pending sends that a durable entry may mean, [rec] is due first. *)
Definition due_first (ip : interpretation) (n : nat) (rec : pendingSendRecord) : Prop :=
  ∀ m rec', pending ip !! m = Some rec' → m ≠ n →
    ps_sendID rec' = ps_sendID rec → exactMatch (ps_target rec) (ps_typ rec) (Name (ps_event rec)) rec' = true →
    earlier rec rec' = true.

Lemma replay_fires ip n rec : pending_ok ip → pending ip !! n = Some rec → due_first ip n rec →
  replayTimerFire env (ps_sendID rec) (ps_target rec) (ps_typ rec) (ps_event rec) ip = (fireTimer env n ip, true).
Proof.
  intros Hok Hn Hmin.
  unfold replayTimerFire, timerMatch, fireTimer. rewrite Hn.
  set (cands := filter _ ((map_to_list (pending ip)).*2)). set (exact := filter _ cands).
  assert (∀ r, r ∈ exact ↔ (∃ m, pending ip !! m = Some r) ∧ ps_sendID r = ps_sendID rec
    ∧ exactMatch (ps_target rec) (ps_typ rec) (Name (ps_event rec)) r = true) as Hexact.
  { intros r. unfold exact, cands. rewrite !list_elem_of_filter, list_elem_of_fmap. split.
    - intros (He & Hs & [m r'] & -> & Hm%elem_of_map_to_list). eauto.
    - intros ([m Hm] & Hs & He). split_and!; [done | done |]. exists (m, r). split; [done|]. by apply elem_of_map_to_list. }
  assert (rec ∈ exact) as Hin.
  { apply Hexact. split_and!; [by exists n | done |]. unfold exactMatch. by rewrite !bool_decide_true. }
  assert (earliest exact = Some rec) as Hearliest.
  { apply earliest_unique; [done|]. intros r ([m Hm] & Hs & He)%Hexact.
    destruct (decide (m = n)) as [->|Hne]; [left; congruence | right; eauto]. }
  destruct exact as [|r0 rs]; [by apply elem_of_nil in Hin|]. rewrite Hearliest.
  destruct (Hok n rec Hn) as [-> _]. done.
Qed.

(** replaying a timer.  Let [rec] be a delayed send of a
    reachable state that is due before every other pending send with the same
    send ID, target, type and event name.  Consuming the durable entry that
    its firing logs has the same effect as the timer firing live, on the whole
    state. *)
Theorem replay_equals_firing (ip : interpretation) n rec :
  reachable c env ip → pending ip !! n = Some rec →
  (∀ m rec', pending ip !! m = Some rec' → m ≠ n →
     ps_sendID rec' = ps_sendID rec → exactMatch (ps_target rec) (ps_typ rec) (Name (ps_event rec)) rec' = true →
     earlier rec rec' = true) →
  replayTimerFire env (ps_sendID rec) (ps_target rec) (ps_typ rec) (ps_event rec) ip = (fireTimer env n ip, true).
Proof. intros Hr. apply replay_fires. by eapply reachable_pending_ok. Qed.

(** Delivery IDs identify requests.  In every reachable state
    whose requests to I/O processors number less than 2^64, all of them carry
    different delivery IDs, so a receiver can use the ID to drop duplicates. *)
Theorem delivery_ids_unique (ip : interpretation) :
  reachable c env ip → (N.of_nat (length (requests ip)) < 2 ^ 64)%N →
  NoDup (map sr_DeliveryID (requests ip)).
Proof.
  intros [_ Hreq]%reachable_requests_numbered Hlen. apply NoDup_alt. intros i j d Hi Hj.
  rewrite list_lookup_fmap in Hi, Hj. apply fmap_Some in Hi as (ri & Hi & ->). apply fmap_Some in Hj as (rj & Hj & Heq).
  rewrite (Hreq i ri Hi), (Hreq j rj Hj) in Heq.
  apply lookup_lt_Some in Hi, Hj.
  do 2 apply string_app_inj_l in Heq. apply (inj itoa) in Heq.
  rewrite !N.mod_small in Heq by lia. lia.
Qed.

(** A generated invocation ID is new.  The search
    of [beginInvoke] for an unused ID always ends within [invokeFuel] attempts,
    and the ID it settles on is neither in use by a running invocation nor
    written anywhere in the chart. *)
Theorem generated_invoke_id_fresh s (spec : compiledInvoke) (ip : interpretation) :
  iv_id spec = "" →
  invokesByID ip !! (chooseInvokeID c s spec ip).2 = None
  ∧ (chooseInvokeID c s spec ip).2 ∉ staticInvokeIDs c.
Proof.
  intros Hid. unfold chooseInvokeID. rewrite decide_True by done.
  pose proof (freshInvokeID_unreserved c ip s) as H.
  destruct (freshInvokeID c (invokeFuel c ip) ip s (invokeSeq ip)) as [id seq]. simpl in *.
  unfold invokeIDReserved in H. apply orb_false_iff in H as [H1%bool_decide_eq_false H2%bool_decide_eq_false].
  split; [by apply eq_None_not_Some | done].
Qed.

(** ** Stability *)

Lemma statesToInvoke_control ip ip' : control_of ip' = control_of ip → statesToInvoke ip' = statesToInvoke ip.
Proof. unfold statesToInvoke. by intros ->. Qed.

Lemma statesToInvoke_beginInvoke s spec ip : statesToInvoke (beginInvoke c env s spec ip) = statesToInvoke ip.
Proof.
  unfold beginInvoke.
  assert (statesToInvoke (chooseInvokeID c s spec ip).1 = statesToInvoke ip) as H1.
  { unfold chooseInvokeID. case_decide; [|done]. by destruct (freshInvokeID _ _ _ _ _). }
  destruct (chooseInvokeID c s spec ip) as [ip1 id]. simpl in H1. unfold evaluateInvokeRequest, orReport.
  pose proof (invokeRequest_keeps env spec id (execContext c env ip1) true ip1) as H2%statesToInvoke_control.
  destruct (invokeRequest _ _ _ _ _ ip1) as [ip2 [r|e]]; simpl in *; rewrite <- H1, <- H2; [|done].
  destruct (env_startInvoke env (started ip2) r) as [inc|e]; [done|].
  unfold invokeFailed. by destruct (isHandlerUnavailable e).
Qed.

Lemma statesToInvoke_processInvokes ip : statesToInvoke (processInvokes c env ip) = ∅.
Proof.
  unfold processInvokes. generalize (sort_asc (statesToInvoke ip)) as l. intros l.
  assert (statesToInvoke (set_statesToInvoke ∅ ip) = ∅) as H by done.
  revert H. generalize (set_statesToInvoke ∅ ip) as ip0. induction l as [|s l IH]; intros ip0 H; [done|]. simpl. apply IH.
  revert ip0 H. induction (invokes c s) as [|spec specs IHs]; intros ip0 H; [done|]. simpl. apply IHs.
  by rewrite statesToInvoke_beginInvoke.
Qed.

(** The last iteration of the loop. *)
Lemma runToStable_last fuel ip ip' : runToStable c env fuel ip = Some ip' →
  running ip' = false
  ∨ ∃ ip0 ip1, selectEventlessTransitions c env ip0 = (ip1, []) ∧ internalQueue ip1 = []
      ∧ ip' = processInvokes c env ip1 ∧ internalQueue ip' = [].
Proof.
  revert ip. induction fuel as [|fuel IH]; intros ip; simpl;
    (destruct (running ip) eqn:Hrun; [|intros [= <-]; by left]); [done|].
  intros ([ip1 b] & Hit & Hrest)%bind_Some. destruct b; [by apply (IH ip1)|]. injection Hrest as <-. right.
  unfold stableIteration in Hit. destruct (selectEventlessTransitions c env ip) as [ip2 [|t ts]] eqn:Hsel.
  2: { by apply bind_Some in Hit as (? & _ & [=]). }
  destruct (internalQueue ip2) as [|ev queue] eqn:Hq.
  - injection Hit as <- Hb. apply negb_false_iff, bool_decide_eq_true in Hb. eauto 7.
  - destruct (selectTransitions c env ev _) as [ip3 [|u us]]; [by injection Hit|].
    by apply bind_Some in Hit as (? & _ & [=]).
Qed.

Lemma runToStable_settled fuel ip ip' : runToStable c env fuel ip = Some ip' → running ip' = true →
  internalQueue ip' = [] ∧ statesToInvoke ip' = ∅.
Proof.
  intros [Hr|(ip0 & ip1 & _ & _ & -> & Hq)]%runToStable_last Hr'; [by rewrite Hr in Hr'|].
  split; [done | apply statesToInvoke_processInvokes].
Qed.

(** what a macrostep ends in.  When [runToStable] returns, the
    interpreter was stopped, or: the internal queue is empty, every state
    entered during the macrostep has had its invocations started, and the last
    selection of eventless transitions came up empty on an empty internal
    queue, nothing but the invocations having been started since. *)
Theorem runToStable_stable fuel (ip ip' : interpretation) :
  runToStable c env fuel ip = Some ip' →
  running ip' = false
  ∨ (internalQueue ip' = [] ∧ statesToInvoke ip' = ∅
     ∧ ∃ ip0 ip1, selectEventlessTransitions c env ip0 = (ip1, []) ∧ internalQueue ip1 = []
         ∧ ip' = processInvokes c env ip1).
Proof.
  intros [Hr|(ip0 & ip1 & H1 & H2 & -> & H3)]%runToStable_last; [by left | right].
  split_and!; [done | apply statesToInvoke_processInvokes | eauto].
Qed.

(** Fuel only bounds the number of iterations.  If the loop
    of [runToStable] ends within [fuel] iterations, any larger bound gives the
    same result: a chart has at most one stable state to end in. *)
Theorem runToStable_fuel fuel fuel' (ip ip' : interpretation) :
  runToStable c env fuel ip = Some ip' → fuel ≤ fuel' → runToStable c env fuel' ip = Some ip'.
Proof.
  revert fuel' ip. induction fuel as [|fuel IH]; intros [|fuel'] ip; simpl;
    destruct (running ip); try done; try lia.
  intros ([ip1 b] & Hit & Hrest)%bind_Some Hle. rewrite Hit. simpl. destruct b; [|done].
  apply IH; [done | lia].
Qed.

(** ** Leaving *)

Lemma pending_exitInterpreter ip : pending (exitInterpreter c env ip) = ∅.
Proof. done. Qed.

(** Terminal exit.  [exitInterpreter] leaves every active state
    of a chart's configuration (of valid states) and drops every delayed send,
    so no timer of a finished interpreter can fire; a timer that is already
    under way finds no record and does nothing. *)
Theorem exitInterpreter_clears (ip : interpretation) :
  (∀ x, x ∈ configuration ip → x < length (c_order c)) →
  configuration (exitInterpreter c env ip) = ∅
  ∧ pending (exitInterpreter c env ip) = ∅
  ∧ ∀ n, handleTimerFire env n (exitInterpreter c env ip) = exitInterpreter c env ip.
Proof.
  intros Hv. split_and!; [|done|].
  - unfold exitInterpreter.
    pose proof (core_exitAll c env (sort_desc (configuration ip)) ip) as H.
    specialize (H ltac:(intros x Hx%elem_of_sort_desc; auto)). unfold core in H. injection H as HC _.
    etrans; [exact HC|]. apply set_eq. intros x. rewrite elem_of_difference, elem_of_list_to_set, elem_of_sort_desc.
    set_solver.
  - intros n. unfold handleTimerFire. by rewrite pending_exitInterpreter, lookup_empty.
Qed.

End theorems.

(** ** Witnesses *)

Lemma alarm0_reachable : reachable alarm plainEnv alarm0.
Proof.
  exists alarm0. split; [|apply rtc_refl]. apply (initial_entered alarm plainEnv (0%Z : @Session CounterSession) 0).
  unfold alarm0. destruct (enterInitial alarm plainEnv _) eqn:E; [done|]. exfalso.
  assert (is_Some (enterInitial alarm plainEnv (newInterpretation (0%Z : @Session CounterSession) 0))) as [ip Hip].
  { apply (bool_decide_unpack _). vm_compute. exact I. }
  congruence.
Qed.

Lemma finalize_is_quiet_witness :
  forallb (forallb finalizable) (iv_finalize service) = true
  ∧ quiet alarm0 (runFinalizeBlocks alarm plainEnv (iv_finalize service) alarm0).
Proof.
  split; [reflexivity|]. apply (finalize_is_quiet alarm plainEnv (iv_finalize service) alarm0). reflexivity.
Defined.

Lemma replay_equals_firing_witness :
  replayTimerFire plainEnv "t" "" SCXMLEventProcessor (ps_event firstTick) alarm0 = (fireTimer plainEnv 1 alarm0, true).
Proof.
  apply (replay_equals_firing alarm plainEnv alarm0 1 firstTick alarm0_reachable).
  - vm_compute. reflexivity.
  - assert (map_Forall (λ m r, m ≠ 1 → earlier firstTick r = true) (pending alarm0)) as H.
    { apply (bool_decide_unpack _). vm_compute. exact I. }
    intros m rec' Hm Hne _ _. exact (H m rec' Hm Hne).
Defined.

Lemma delivery_ids_unique_witness :
  length (requests alarm0) = 2 ∧ NoDup (map sr_DeliveryID (requests alarm0)).
Proof.
  split; [vm_compute; reflexivity|]. apply (delivery_ids_unique alarm plainEnv alarm0 alarm0_reachable).
  vm_compute. reflexivity.
Defined.

Lemma generated_invoke_id_fresh_witness :
  iv_id service = "" ∧ invokesByID alarm0 !! (chooseInvokeID alarm 1 service alarm0).2 = None.
Proof. split; [reflexivity|]. exact (proj1 (generated_invoke_id_fresh alarm 1 service alarm0 eq_refl)). Defined.

Lemma alarm_runs : ∃ ip, runToStable alarm plainEnv 5 alarm0 = Some ip.
Proof. assert (is_Some (runToStable alarm plainEnv 5 alarm0)) as [ip H]
    by (apply (bool_decide_unpack _); vm_compute; exact I). eauto. Qed.

Lemma runToStable_stable_witness :
  ∃ ip, runToStable alarm plainEnv 5 alarm0 = Some ip ∧ (running ip = false ∨ internalQueue ip = []).
Proof.
  destruct alarm_runs as [ip H]. exists ip. split; [exact H|].
  destruct (runToStable_stable alarm plainEnv 5 alarm0 ip H) as [Hr|[Hq _]]; [left; exact Hr | right; exact Hq].
Defined.

Lemma runToStable_fuel_witness :
  ∃ ip, runToStable alarm plainEnv 5 alarm0 = Some ip ∧ runToStable alarm plainEnv 50 alarm0 = Some ip.
Proof.
  destruct alarm_runs as [ip H]. exists ip. split; [exact H|].
  apply (runToStable_fuel alarm plainEnv 5 50 alarm0 ip H). lia.
Defined.

Lemma exitInterpreter_clears_witness :
  configuration (exitInterpreter alarm plainEnv alarm0) = ∅ ∧ pending (exitInterpreter alarm plainEnv alarm0) = ∅.
Proof.
  destruct (exitInterpreter_clears alarm plainEnv alarm0) as (H1 & H2 & _).
  - assert (set_Forall (λ x, x < 2) (configuration alarm0)) as H by (apply (bool_decide_unpack _); vm_compute; exact I).
    exact H.
  - split; [exact H1 | exact H2].
Defined.
