(* ===== verification/Completion.v ===== *)
(** * Completion (interpreter.go)

    The flags [running] and [completed] and the timer hook's error only change
    in one way during a step: entering a top-level final state ends the run.
    [ends] relates the interpreter before and after. *)

From S2P Require Import Prelude Identifier Values Events Datamodel Chart Tree Legal Interp Actions Entry EntryCorrect EntryConsistent EntryTotal.
From S2P Require Import Domain Steps LegalStep StepCorrect Macrostep Execution.
From stdpp Require Import options.

Section completion.
Context `{DM : DatamodelSession}.
Variable c : Chart.
Variable env : environment.

Definition flags (ip : interpretation) : bool * bool := (running ip, completed ip).

(** The run goes on as before, or has completed. *)
Definition ends (ip ip' : interpretation) : Prop :=
  hookErr ip' = hookErr ip ∧ (flags ip' = flags ip ∨ flags ip' = (false, true)).

#[global] Instance ends_refl : Reflexive ends.
Proof. intros ip. split; [done | by left]. Qed.

#[global] Instance ends_trans : Transitive ends.
Proof. intros ip1 ip2 ip3 [H1 [H2|H2]] [H3 [H4|H4]]; split; try congruence; [left | right | right | right]; congruence. Qed.

Lemma ends_control ip ip' : control_of ip' = control_of ip → ends ip ip'.
Proof. intros H. unfold ends, flags, hookErr, running, completed. rewrite H. auto. Qed.

Lemma ends_keeps f ip : keeps_control f → ends ip (f ip).
Proof. intros H. apply ends_control, H. Qed.

Lemma ends_foldl {A} (f : interpretation → A → interpretation) xs ip :
  (∀ ip x, ends ip (f ip x)) → ends ip (foldl f ip xs).
Proof. intros H. revert ip. induction xs as [|x xs IH]; intros ip; [done|]. simpl. etrans; [apply H | apply IH]. Qed.

Lemma ends_runActionBlocks bs ip : ends ip (runActionBlocks c env bs ip).
Proof. apply ends_keeps, runActionBlocks_keeps. Qed.

Lemma ends_initializeData ds ip : ends ip (initializeData c env ds ip).
Proof. apply ends_keeps, initializeData_keeps. Qed.

Lemma ends_enterFinal s cs ip : ends ip (enterFinal c env s cs ip).
Proof.
  unfold enterFinal. pose proof (ends_control _ _ (evaluateStateDone_keeps c env (st_modelPayload cs) ip)) as H.
  destruct (evaluateStateDone c env (st_modelPayload cs) ip) as [ip1 v]. simpl in H.
  assert (ends ip (set_running false (set_completed true
    (match st_modelPayload cs with Some _ => set_result v ip1 | None => ip1 end)))) as Hfin
    by (destruct H as [H _]; split; [by destruct (st_modelPayload cs) | by right]).
  destruct (st_parent cs) as [p|]; [|exact Hfin]. case_decide; [exact Hfin|].
  destruct (parent c p) as [g|]; [|exact H]. by destruct (bool_decide (kind c g = KindParallel) && _).
Qed.

Lemma ends_enterState s ds ip : ends ip (enterState c env s ds ip).
Proof.
  unfold enterState. destruct (state_of c s) as [cs|]; [|done].
  set (ip1 := set_configuration _ ip). set (ip2 := initializeStateData c env s cs ip1).
  assert (ends ip ip2) as H2.
  { transitivity ip1; [split; [done | by left]|]. unfold ip2, initializeStateData.
    destruct (st_data cs) as [|d l]; [done|]. case_decide; [done|]. exact (ends_initializeData (d :: l) ip1). }
  set (ip3 := runActionBlocks c env ds _).
  assert (ends ip ip3) as H3.
  { etrans; [exact H2|]. etrans; [|apply ends_runActionBlocks]. apply ends_runActionBlocks. }
  assert (ends ip (match st_invokes cs with [] => ip3 | _ => set_statesToInvoke ({[s]} ∪ statesToInvoke ip3) ip3 end)) as H4
    by (by destruct (st_invokes cs)).
  case_decide; [|exact H4]. etrans; [exact H4 | apply ends_enterFinal].
Qed.

(** Leaving a state does not end the run. *)
Lemma flags_foldl {A} (f : interpretation → A → interpretation) xs ip :
  (∀ ip x, flags (f ip x) = flags ip ∧ hookErr (f ip x) = hookErr ip) →
  flags (foldl f ip xs) = flags ip ∧ hookErr (foldl f ip xs) = hookErr ip.
Proof.
  intros H. revert ip. induction xs as [|x xs IH]; intros ip; [done|]. simpl.
  destruct (IH (f ip x)) as [-> ->]. apply H.
Qed.

Lemma exitState_flags ip s : flags (exitState c env s ip) = flags ip ∧ hookErr (exitState c env s ip) = hookErr ip.
Proof.
  unfold exitState. destruct (state_of c s) as [cs|]; [|done].
  set (ip1 := runActionBlocks c env (st_onExit cs) ip).
  assert (flags ip1 = flags ip ∧ hookErr ip1 = hookErr ip) as [<- <-].
  { unfold flags, running, completed, hookErr. unfold ip1. by rewrite runActionBlocks_keeps. }
  assert (flags (cancelInvokes s ip1) = flags ip1 ∧ hookErr (cancelInvokes s ip1) = hookErr ip1) as H; [|exact H].
  unfold cancelInvokes. destruct (default [] (activeInvokes ip1 !! s)) as [|ri ris]; [done|].
  set (f := λ ip ri, _). assert (flags (foldl f ip1 (ri :: ris)) = flags ip1 ∧ hookErr (foldl f ip1 (ri :: ris)) = hookErr ip1) as H
    by (by apply flags_foldl). exact H.
Qed.

Lemma exitInterpreter_flags ip :
  flags (exitInterpreter c env ip) = flags ip ∧ hookErr (exitInterpreter c env ip) = hookErr ip.
Proof.
  exact (flags_foldl (λ ip s, exitState c env s ip) (sort_desc (configuration ip)) ip exitState_flags).
Qed.

Lemma ends_exitState s ip : ends ip (exitState c env s ip).
Proof. destruct (exitState_flags ip s). split; auto. Qed.

Lemma ends_exitInterpreter ip : ends ip (exitInterpreter c env ip).
Proof. destruct (exitInterpreter_flags ip). split; auto. Qed.

Lemma ends_exitStates X ip : ends ip (exitStates c env X ip).
Proof.
  unfold exitStates. set (ip1 := set_historyValue _ ip). transitivity ip1; [split; [done | by left]|].
  apply ends_foldl. intros. apply ends_exitState.
Qed.

Lemma ends_orReport {A} (m : act A) ip : act_keeps m → ends ip (orReport m ip).1.
Proof. intros H. apply ends_control. unfold orReport. specialize (H ip). by destruct (m ip) as [ip' [a|e]]. Qed.

Lemma ends_beginInvoke s spec ip : ends ip (beginInvoke c env s spec ip).
Proof.
  unfold beginInvoke.
  assert (ends ip (chooseInvokeID c s spec ip).1) as H1.
  { unfold chooseInvokeID. case_decide; [|done]. destruct (freshInvokeID _ _ _ _ _). split; [done | by left]. }
  destruct (chooseInvokeID c s spec ip) as [ip1 id]. etrans; [exact H1|]. simpl. unfold evaluateInvokeRequest.
  pose proof (ends_orReport (invokeRequest env spec id (execContext c env ip1) true) ip1 (invokeRequest_keeps _ _ _ _ _)) as H2.
  destruct (orReport _ ip1) as [ip2 [r|]]; simpl in *; [|done]. etrans; [exact H2|].
  destruct (env_startInvoke env (started ip2) r) as [inc|e]; [split; [done | by left]|].
  unfold invokeFailed. destruct (isHandlerUnavailable e); split; auto.
Qed.

Lemma ends_processInvokes ip : ends ip (processInvokes c env ip).
Proof.
  unfold processInvokes. transitivity (set_statesToInvoke ∅ ip); [split; [done | by left]|].
  apply ends_foldl. intros ip1 s. apply ends_foldl. intros. apply ends_beginInvoke.
Qed.

Lemma ends_applyInvokeSideEffects ev ip : ends ip (applyInvokeSideEffects c env ev ip).
Proof.
  apply ends_foldl. intros ip1 id. unfold applyInvokeSideEffect. destruct (invokesByID ip1 !! id) as [ri|]; [|done].
  set (ip2 := if decide _ then _ else ip1).
  assert (ends ip1 ip2) as H2 by (unfold ip2; case_decide; [apply ends_keeps, runFinalizeBlocks_keeps | done]).
  etrans; [exact H2|]. destruct (ri_autoForward ri && ri_incoming ri); [|done]. unfold channelSend.
  case_decide; split; auto.
Qed.

Lemma ends_select guard states enabled ip : ends ip (selectEnabled c env guard states enabled ip).1.
Proof. apply ends_control, (selectEnabled_spec c env guard states enabled ip). Qed.

Lemma ends_appendTrace t ip : ends ip (appendTrace t ip).
Proof. unfold appendTrace. destruct (macrostepTrace ip); [split; [done | by left] | done]. Qed.

Lemma ends_enterStates entry ip : ends ip (enterStates c env entry ip).
Proof. apply ends_foldl. intros. apply ends_enterState. Qed.

Lemma ends_microstep trigger ts ip ip' : microstep c env trigger ts ip = Some ip' → ends ip ip'.
Proof.
  unfold microstep. intros (entry & _ & [= <-])%bind_Some.
  etrans; [apply ends_appendTrace|]. etrans; [apply ends_exitStates|]. etrans; [|apply ends_enterStates].
  apply (ends_foldl (λ ip t, runActionBlocks c env (t_actions t) ip)). intros. apply ends_runActionBlocks.
Qed.

Lemma ends_selectTransitions ev ip : ends ip (selectTransitions c env ev ip).1.
Proof.
  unfold selectTransitions. pose proof (ends_select (eventGuard ev) (atomicStatesInDocOrder c ip) [] ip) as H.
  by destruct (selectEnabled _ _ _ _ _ _).
Qed.

Lemma ends_selectEventless ip : ends ip (selectEventlessTransitions c env ip).1.
Proof.
  unfold selectEventlessTransitions. pose proof (ends_select eventlessGuard (atomicStatesInDocOrder c ip) [] ip) as H.
  by destruct (selectEnabled _ _ _ _ _ _).
Qed.

Lemma ends_iteration ip ip' b : stableIteration c env ip = Some (ip', b) → ends ip ip'.
Proof.
  unfold stableIteration. pose proof (ends_selectEventless ip) as H1.
  destruct (selectEventlessTransitions c env ip) as [ip1 ts]. simpl in H1. destruct ts as [|t ts].
  2: { intros (ip2 & H2 & [= <- _])%bind_Some. etrans; [exact H1 | by eapply ends_microstep]. }
  destruct (internalQueue ip1) as [|ev queue].
  { intros [= <- _]. etrans; [exact H1 | apply ends_processInvokes]. }
  set (ip2 := set_hasLastEvent true _). assert (ends ip ip2) as H2 by exact H1.
  pose proof (ends_selectTransitions ev ip2) as H3. destruct (selectTransitions c env ev ip2) as [ip3 us]. simpl in H3.
  destruct us as [|u us]; [intros [= <- _]; by etrans|].
  intros (ip4 & H4 & [= <- _])%bind_Some. etrans; [exact H2|]. etrans; [exact H3 | by eapply ends_microstep].
Qed.

Lemma ends_takeExternal ev queue ip ip' : takeExternal c env ev queue ip = Some ip' → ends ip ip'.
Proof.
  unfold takeExternal. set (ip1 := applyInvokeSideEffects c env ev _).
  assert (ends ip ip1) as H1 by (etrans; [|apply ends_applyInvokeSideEffects]; split; auto).
  pose proof (ends_selectTransitions ev ip1) as H2. destruct (selectTransitions c env ev ip1) as [ip2 us]. simpl in H2.
  destruct us as [|u us]; [intros [= <-]; by etrans|]. intros H3. etrans; [exact H1|]. etrans; [exact H2 | by eapply ends_microstep].
Qed.

Lemma ends_runToStable fuel ip ip' : runToStable c env fuel ip = Some ip' → ends ip ip'.
Proof.
  revert ip. induction fuel as [|fuel IH]; intros ip; simpl; (destruct (running ip); [|by intros [= <-]]); [done|].
  intros ([ip1 b] & H1%ends_iteration & H)%bind_Some. etrans; [exact H1|]. destruct b; [by apply IH | by injection H as <-].
Qed.

Lemma ends_processNextExternal fuel ip ip' b : processNextExternal c env fuel ip = Some (ip', b) → ends ip ip'.
Proof.
  unfold processNextExternal. destruct (running ip); [|by intros [= <- _]].
  destruct (externalQueue ip) as [|ev queue]; [by intros [= <- _]|].
  intros (ip1 & H1%ends_takeExternal & (ip2 & H2%ends_runToStable & [= <- _])%bind_Some)%bind_Some. by etrans.
Qed.

(** The initial entry sets [running]. *)
Lemma ends_enterInitial ip ip' : enterInitial c env ip = Some ip' →
  hookErr ip' = hookErr ip ∧ (flags ip' = (true, completed ip) ∨ flags ip' = (false, true)).
Proof.
  unfold enterInitial. intros (entry & _ & [= <-])%bind_Some.
  set (ip1 := match c_dataBinding c with DataBindingEarly => _ | DataBindingLate => _ end).
  assert (hookErr ip1 = hookErr ip ∧ flags ip1 = flags ip) as [H1 H2].
  { assert (∀ ds ip, hookErr (initializeData c env ds ip) = hookErr ip ∧ flags (initializeData c env ds ip) = flags ip) as Hd.
    { intros ds ip0. pose proof (initializeData_keeps c env ds ip0) as H. unfold hookErr, flags, running, completed. by rewrite H. }
    unfold ip1. destruct (Hd (c_data c) ip) as [<- <-]. destruct (c_dataBinding c); [|done].
    generalize (initializeData c env (c_data c) ip) as ip0. induction (seq 0 (length (c_order c))) as [|s l IH]; intros ip0; [done|].
    simpl. destruct (IH (initializeEarly c env ip0 s)) as [-> ->]. unfold initializeEarly. destruct (state_of c s) as [cs|]; [|done].
    destruct (st_data cs) as [|d ds]; [done|]. exact (Hd (d :: ds) ip0). }
  unfold flags in H2. injection H2 as _ H3.
  destruct (ends_enterStates entry (appendTrace (mkMicrostepTrace None [] [] (map (sid c) (sort_asc entry.1))) (set_running true ip1)))
    as [E1 E2].
  destruct (ends_appendTrace (mkMicrostepTrace None [] [] (map (sid c) (sort_asc entry.1))) (set_running true ip1)) as [E3 E4].
  split; [by rewrite E1, E3|]. destruct E2 as [->|?]; [|by right]. destruct E4 as [->|?]; [|by right]. left.
  unfold flags. rewrite <- H3. done.
Qed.
End completion.

(** * Running invocations (interpreter.go, invoke.go)

    The bookkeeping of invocations is kept twice: per state ([activeInvokes])
    and by ID ([invokesByID]).  [invocations_ok] says that the two agree, that
    only active states run or await invocations, and that every running
    invocation is one of its state's [<invoke>] elements under a name of its
    own.  Every step keeps it. *)

Section invocations.
Context `{DM : DatamodelSession}.
Variable c : Chart.
Variable env : environment.

Definition chartInvokes : list compiledInvoke := concat (map st_invokes (c_order c)).

(** What the compiler guarantees of the [<invoke>] elements of a chart. *)
Record invokes_wf : Prop := {
  iw_root : invokes c root = [];
  iw_owner : ∀ s spec, spec ∈ invokes c s → iv_owner spec = s;
  iw_definition : NoDup (map iv_definitionID chartInvokes);
  iw_static : NoDup (filter (λ id, id ≠ "") (staticInvokeIDs c));
  iw_type : ∀ spec, spec ∈ chartInvokes → canonicalInvokeType (iv_staticType spec) = iv_staticType spec
}.

(** A running invocation of the state [s]. *)
Record running_ok (s : nat) (ri : runningInvoke) : Prop := {
  ro_state : ri_state ri = s;
  ro_spec : ri_spec ri ∈ invokes c s;
  ro_id : (ri_id ri = iv_id (ri_spec ri) ∧ iv_id (ri_spec ri) ≠ "")
          ∨ (iv_id (ri_spec ri) = "" ∧ ri_id ri ∉ staticInvokeIDs c);
  ro_named : ri_id ri ≠ "";
  ro_typ : ri_typ ri ≠ "" ∧ (iv_typeExpr (ri_spec ri) = None → ri_typ ri = iv_staticType (ri_spec ri));
  ro_finalize : ri_finalize ri = iv_finalize (ri_spec ri);
  ro_autoForward : ri_autoForward ri = iv_autoForward (ri_spec ri)
}.

Record invocations_consistent (active toInvoke : gset nat) (byState : gmap nat (list runningInvoke))
    (byID : gmap string runningInvoke) : Prop := {
  io_pending : toInvoke ⊆ active;
  io_active : ∀ s ris, byState !! s = Some ris →
    ris ≠ [] ∧ s ∈ active ∧ s ∉ toInvoke
    ∧ map ri_spec ris ⊆+ invokes c s ∧ Forall (running_ok s) ris;
  io_index : ∀ id ri, byID !! id = Some ri ↔
    ri_id ri = id ∧ ∃ ris, byState !! ri_state ri = Some ris ∧ ri ∈ ris
}.

Definition invocations_ok (ip : interpretation) : Prop :=
  invocations_consistent (configuration ip) (statesToInvoke ip) (activeInvokes ip) (invokesByID ip).

(** The four fields the invariant is about. *)
Definition invocation_part (ip : interpretation) :=
  (configuration ip, statesToInvoke ip, activeInvokes ip, invokesByID ip).

Lemma invocations_ok_eq ip C S A I : invocation_part ip = (C, S, A, I) → invocations_ok ip ↔ invocations_consistent C S A I.
Proof. unfold invocation_part, invocations_ok. by intros [= -> -> -> ->]. Qed.

Lemma invocations_ok_part ip ip' : invocation_part ip' = invocation_part ip → invocations_ok ip → invocations_ok ip'.
Proof. unfold invocation_part, invocations_ok. by intros [= -> -> -> ->]. Qed.

Lemma part_control ip ip' : control_of ip' = control_of ip → invocation_part ip' = invocation_part ip.
Proof. unfold invocation_part, configuration, statesToInvoke, activeInvokes, invokesByID. by intros ->. Qed.

Lemma part_keeps f ip : keeps_control f → invocation_part (f ip) = invocation_part ip.
Proof. intros H. apply part_control, H. Qed.

Lemma invocations_ok_new s t : invocations_ok (newInterpretation s t).
Proof.
  split; [set_solver | |]; simpl.
  - intros ??. unfold activeInvokes. simpl. by rewrite lookup_empty.
  - intros id ri. unfold activeInvokes, invokesByID. simpl. rewrite !lookup_empty. naive_solver.
Qed.

Lemma invokes_elem s spec : spec ∈ invokes c s → spec ∈ chartInvokes.
Proof.
  unfold invokes, state_of. destruct (c_order c !! s) as [cs|] eqn:E; [|by intros ?%elem_of_nil].
  intros Hin. apply list_elem_of_In, in_concat. exists (st_invokes cs). split; [|by apply list_elem_of_In].
  apply in_map, list_elem_of_In. by eapply list_elem_of_lookup_2.
Qed.

(** ** Leaving a state *)

Lemma lookup_forget (m : gmap string runningInvoke) ris id :
  foldl (λ m ri, delete (ri_id ri) m) m ris !! id = if decide (id ∈ map ri_id ris) then None else m !! id.
Proof.
  revert m. induction ris as [|ri ris IH]; intros m; cbn [foldl map].
  { case_decide as Hin; [by apply elem_of_nil in Hin | done]. }
  rewrite IH. destruct (decide (id = ri_id ri)) as [->|Hne].
  - rewrite lookup_delete_eq. rewrite (decide_True (P := _ ∈ ri_id ri :: _)) by left. by case_decide.
  - rewrite lookup_delete_ne by done.
    destruct (decide (id ∈ map ri_id ris)) as [Hin|Hin].
    + by rewrite decide_True by (by right).
    + rewrite decide_False; [done|]. by rewrite elem_of_cons; intros [|].
Qed.

Lemma cancelInvokes_part s ip : activeInvokes ip !! s ≠ Some [] →
  invocation_part (cancelInvokes s ip) =
    (configuration ip, statesToInvoke ip, delete s (activeInvokes ip),
     foldl (λ m ri, delete (ri_id ri) m) (invokesByID ip) (default [] (activeInvokes ip !! s))).
Proof.
  intros Hne. unfold cancelInvokes. destruct (activeInvokes ip !! s) as [[|ri ris]|] eqn:E; [done| |].
  2: { simpl. by rewrite delete_id by done. }
  set (f := λ ip ri, _). simpl default.
  assert (∀ l ip, invocation_part (foldl f ip l) = (configuration ip, statesToInvoke ip, activeInvokes ip,
    foldl (λ m ri, delete (ri_id ri) m) (invokesByID ip) l)) as Hf.
  { induction l as [|x l IH]; intros ip'; [done|]. simpl. by rewrite IH. }
  specialize (Hf (ri :: ris) ip). remember (foldl f ip (ri :: ris)) as ip' eqn:Hip'.
  unfold invocation_part in Hf |- *. rewrite !pair_eq in Hf. destruct Hf as [[[H1 H2] H3] H4].
  transitivity (configuration ip', statesToInvoke ip', delete s (activeInvokes ip'), invokesByID ip'); [by rewrite Hip'|].
  by rewrite H1, H2, H3, H4.
Qed.

Lemma invocations_forget s C S A I : invocations_consistent C S A I →
  invocations_consistent (C ∖ {[s]}) (S ∖ {[s]}) (delete s A)
    (foldl (λ m ri, delete (ri_id ri) m) I (default [] (A !! s))).
Proof.
  intros [HS HA HI]. split.
  - set_solver.
  - intros s' ris [Hne E]%lookup_delete_Some. destruct (HA _ _ E) as (? & ? & ? & ? & ?).
    split_and!; [done | set_solver | set_solver | done | done].
  - intros id ri. rewrite lookup_forget. split.
    + case_decide as Hid; [done|]. intros (Hri & ris & E & Hin)%HI. split; [done|]. exists ris.
      split; [|done]. apply lookup_delete_Some. split; [|done]. intros ->. rewrite E in Hid. simpl in Hid.
      apply Hid. rewrite <- Hri. by apply list_elem_of_fmap_2.
    + intros (Hri & ris & [Hne E]%lookup_delete_Some & Hin). rewrite decide_False; [by apply HI; eauto|].
      intros (ri' & Hri' & Hin')%list_elem_of_fmap.
      destruct (A !! s) as [ris'|] eqn:E'; [|by apply elem_of_nil in Hin'].
      destruct (HA _ _ E') as (_ & _ & _ & _ & Hall). rewrite Forall_forall in Hall.
      pose proof (ro_state _ _ (Hall ri' Hin')) as Hs.
      assert (I !! id = Some ri) as X1 by (apply HI; eauto).
      assert (I !! id = Some ri') as X2 by (apply HI; rewrite Hs; eauto).
      congruence.
Qed.

Lemma exitState_ok s ip : invocations_ok ip → invocations_ok (exitState c env s ip).
Proof.
  intros H0. unfold exitState. destruct (state_of c s) as [cs|]; [|done].
  assert (invocations_ok (runActionBlocks c env (st_onExit cs) ip)) as H1.
  { eapply invocations_ok_part, H0. apply part_keeps, runActionBlocks_keeps. }
  set (ip1 := runActionBlocks c env (st_onExit cs) ip) in *. clearbody ip1.
  pose proof (cancelInvokes_part s ip1) as Hp.
  specialize (Hp ltac:(intros E; by destruct (io_active _ _ _ _ H1 _ _ E))).
  unfold invocation_part in Hp. rewrite !pair_eq in Hp. destruct Hp as [[[E1 E2] E3] E4].
  change (invocations_consistent (configuration (cancelInvokes s ip1) ∖ {[s]}) (statesToInvoke (cancelInvokes s ip1) ∖ {[s]})
    (activeInvokes (cancelInvokes s ip1)) (invokesByID (cancelInvokes s ip1))).
  rewrite E1, E2, E3, E4. by apply invocations_forget.
Qed.

Lemma exitAll_ok l ip : invocations_ok ip → invocations_ok (foldl (λ ip s, exitState c env s ip) ip l).
Proof. revert ip. induction l as [|s l IH]; intros ip H; [done|]. simpl. by apply IH, exitState_ok. Qed.

Lemma exitStates_ok X ip : invocations_ok ip → invocations_ok (exitStates c env X ip).
Proof. intros H. unfold exitStates. apply exitAll_ok. by eapply invocations_ok_part, H. Qed.

(** ** Entering a state *)

Lemma part_enterFinal s cs ip : invocation_part (enterFinal c env s cs ip) = invocation_part ip.
Proof.
  unfold enterFinal. pose proof (part_control _ _ (evaluateStateDone_keeps c env (st_modelPayload cs) ip)) as H.
  destruct (evaluateStateDone c env (st_modelPayload cs) ip) as [ip1 v]. simpl in H.
  assert (invocation_part (set_running false (set_completed true
    (match st_modelPayload cs with Some _ => set_result v ip1 | None => ip1 end))) = invocation_part ip) as Hfin
    by (destruct (st_modelPayload cs); exact H).
  destruct (st_parent cs) as [p|]; [|exact Hfin]. case_decide; [exact Hfin|].
  destruct (parent c p) as [g|]; [|exact H]. by destruct (bool_decide (kind c g = KindParallel) && _).
Qed.

Lemma part_initializeStateData s cs ip : invocation_part (initializeStateData c env s cs ip) = invocation_part ip.
Proof.
  unfold initializeStateData. destruct (st_data cs) as [|d ds]; [done|]. case_decide; [done|].
  transitivity (invocation_part (initializeData c env (d :: ds) ip)); [done|]. apply part_keeps, initializeData_keeps.
Qed.

Lemma enterState_part s ds cs ip : state_of c s = Some cs →
  invocation_part (enterState c env s ds ip) =
    ({[s]} ∪ configuration ip,
     match st_invokes cs with [] => statesToInvoke ip | _ => {[s]} ∪ statesToInvoke ip end,
     activeInvokes ip, invokesByID ip).
Proof.
  intros Hcs. unfold enterState. rewrite Hcs.
  set (ip1 := set_configuration ({[s]} ∪ configuration ip) ip).
  set (ip2 := runActionBlocks c env ds _).
  assert (invocation_part ip2 = invocation_part ip1) as H.
  { unfold ip2. rewrite !part_keeps by apply runActionBlocks_keeps. apply part_initializeStateData. }
  unfold invocation_part in H. injection H as H1 H2 H3 H4.
  assert (∀ ip', invocation_part (if decide (st_kind cs = KindFinal) then enterFinal c env s cs ip' else ip')
                 = invocation_part ip') as Hfin by (intros ip'; case_decide; [apply part_enterFinal | done]).
  rewrite Hfin. unfold invocation_part.
  destruct (st_invokes cs) as [|iv ivs]; [by rewrite H1, H2, H3, H4|].
  transitivity (configuration ip2, {[s]} ∪ statesToInvoke ip2, activeInvokes ip2, invokesByID ip2); [done|].
  by rewrite H1, H2, H3, H4.
Qed.

(** A state that declares invocations must not be entered while it is active. *)
Lemma enterState_ok s ds ip :
  invocations_ok ip → (s ∈ configuration ip → invokes c s = []) → invocations_ok (enterState c env s ds ip).
Proof.
  intros H0 Hfresh. destruct (state_of c s) as [cs|] eqn:Hcs.
  2: { unfold enterState. by rewrite Hcs. }
  apply (invocations_ok_eq _ _ _ _ _ (enterState_part s ds cs ip Hcs)). destruct H0 as [HS HA HI].
  set (S' := match st_invokes cs with [] => _ | _ => _ end).
  assert (∀ x, x ∈ S' ↔ x ∈ statesToInvoke ip ∨ (x = s ∧ invokes c s ≠ [])) as HS'.
  { intros x. unfold S', invokes. rewrite Hcs. destruct (st_invokes cs); set_solver. }
  split; [|..|done].
  - intros x [Hx|[-> _]]%HS'; set_solver.
  - intros s' ris E. destruct (HA _ _ E) as (Hne & Hc & Hs & Hsub & Hall).
    split_and!; [done | set_solver | | done | done]. rewrite HS'. intros [?|[-> Hinv]]; [done|]. auto.
Qed.

Lemma enterStates_ok entry ip :
  invocations_ok ip → (∀ x, x ∈ entry.1 → x < length (c_order c)) →
  (∀ x, x ∈ entry.1 → x ∈ configuration ip → invokes c x = []) → invocations_ok (enterStates c env entry ip).
Proof.
  unfold enterStates. setoid_rewrite <- (elem_of_sort_asc entry.1). pose proof (NoDup_sort_asc entry.1) as Hn.
  revert ip. induction Hn as [|s l Hs Hn IH]; intros ip Hok Hv Hfresh; [done|]. simpl.
  apply IH; [apply enterState_ok; [done|]; apply Hfresh; left | intros x Hx; apply Hv; by right|].
  pose proof (core_enterState c env s (default [] (entry.2 !! s)) ip (Hv s (list_elem_of_here _ _))) as Hcore.
  unfold core in Hcore. injection Hcore as -> _. intros x Hx [->%elem_of_singleton|Hin]%elem_of_union; [done|].
  apply Hfresh; [by right | done].
Qed.
(** ** Starting invocations *)

Lemma freshInvokeID_generated fuel ip s seq : ∃ m, (freshInvokeID c fuel ip s seq).1 = generatedInvokeID c s m.
Proof.
  revert seq. induction fuel as [|fuel IH]; intros seq; simpl; [by eexists|].
  destruct (invokeIDReserved c ip _); [apply IH | by eexists].
Qed.

Lemma generatedInvokeID_nonempty s n : generatedInvokeID c s n ≠ "".
Proof. unfold generatedInvokeID. by destruct (sid c s). Qed.

(** The name [beginInvoke] settles on. *)
Definition named_for (spec : compiledInvoke) (id : Identifier) (ip : interpretation) : Prop :=
  id ≠ "" ∧ ((id = iv_id spec ∧ iv_id spec ≠ "")
             ∨ (iv_id spec = "" ∧ id ∉ staticInvokeIDs c ∧ invokesByID ip !! id = None)).

Lemma chooseInvokeID_named s spec ip :
  invocation_part (chooseInvokeID c s spec ip).1 = invocation_part ip
  ∧ named_for spec (chooseInvokeID c s spec ip).2 ip.
Proof.
  unfold chooseInvokeID, named_for. case_decide as Hid; [|by split; [|split; [|left]]].
  pose proof (freshInvokeID_unreserved c ip s) as H.
  destruct (freshInvokeID_generated (invokeFuel c ip) ip s (invokeSeq ip)) as [m Hm].
  destruct (freshInvokeID c (invokeFuel c ip) ip s (invokeSeq ip)) as [id seq]. simpl in *. subst id.
  unfold invokeIDReserved in H. apply orb_false_iff in H as [H1%bool_decide_eq_false H2%bool_decide_eq_false].
  split; [done|]. split; [apply generatedInvokeID_nonempty | right]. split_and!; [done | done | by apply eq_None_not_Some].
Qed.

Lemma canonicalInvokeType_nonempty t : canonicalInvokeType t ≠ "".
Proof. unfold canonicalInvokeType. case_decide as H; [done | naive_solver]. Qed.

Lemma act_bind_Ok {A B} (m : act A) (f : A → act B) ip ip' b :
  act_bind m f ip = (ip', Ok b) → ∃ ip1 a, m ip = (ip1, Ok a) ∧ f a ip1 = (ip', Ok b).
Proof. unfold act_bind. destruct (m ip) as [ip1 [a|e]]; [eauto | done]. Qed.

Lemma invokeRequest_type spec id ec b ip ip' r : invokeRequest env spec id ec b ip = (ip', Ok r) →
  ∃ t, rq_Type r = canonicalInvokeType t ∧ (iv_typeExpr spec = None → t = iv_staticType spec).
Proof.
  unfold invokeRequest. intros (ip1 & _ & _ & H)%act_bind_Ok. apply act_bind_Ok in H as (ip2 & t & Ht & H).
  apply act_bind_Ok in H as (ip3 & src & _ & H). apply act_bind_Ok in H as (ip4 & d & _ & H).
  unfold act_ret in H. simplify_eq. exists t. split; [done|]. intros Hn. unfold evalString in Ht. rewrite Hn in Ht.
  unfold act_ret in Ht. by simplify_eq.
Qed.

(** The record [beginInvoke] registers. *)
Record started_as (s : nat) (spec : compiledInvoke) (ip : interpretation) (ri : runningInvoke) : Prop := {
  sa_state : ri_state ri = s;
  sa_spec : ri_spec ri = spec;
  sa_id : named_for spec (ri_id ri) ip;
  sa_typ : ∃ t, ri_typ ri = canonicalInvokeType t ∧ (iv_typeExpr spec = None → t = iv_staticType spec);
  sa_finalize : ri_finalize ri = iv_finalize spec;
  sa_autoForward : ri_autoForward ri = iv_autoForward spec
}.

Lemma beginInvoke_cases s spec ip :
  invocation_part (beginInvoke c env s spec ip) = invocation_part ip
  ∨ ∃ ri, started_as s spec ip ri ∧ invocation_part (beginInvoke c env s spec ip) =
      (configuration ip, statesToInvoke ip, <[s := default [] (activeInvokes ip !! s) ++ [ri]]> (activeInvokes ip),
       <[ri_id ri := ri]> (invokesByID ip)).
Proof.
  unfold beginInvoke. destruct (chooseInvokeID_named s spec ip) as [H1 Hid].
  destruct (chooseInvokeID c s spec ip) as [ip1 id]. simpl in H1, Hid.
  unfold evaluateInvokeRequest, orReport.
  pose proof (invokeRequest_keeps env spec id (execContext c env ip1) true ip1) as H2%part_control.
  destruct (invokeRequest env spec id (execContext c env ip1) true ip1) as [ip2 [r|e]] eqn:E; simpl in H2.
  2: { left. transitivity (invocation_part ip2); [done | congruence]. }
  destruct (invokeRequest_type _ _ _ _ _ _ _ E) as (t & Ht & Hst).
  destruct (env_startInvoke env (started ip2) r) as [inc|e].
  2: { left. transitivity (invocation_part ip2); [|congruence]. unfold invokeFailed. by destruct (isHandlerUnavailable e). }
  right. set (ri := mkRunning _ _ _ _ _ _ _ _). exists ri. split; [by split; eauto|].
  assert (invocation_part ip2 = invocation_part ip) as H3 by congruence.
  unfold invocation_part in H3. rewrite !pair_eq in H3. destruct H3 as [[[E1 E2] E3] E4].
  change (invocation_part (registerInvoke s ri (set_started (started ip2 ++ [r]) ip2))) with
    (configuration ip2, statesToInvoke ip2, <[s := default [] (activeInvokes ip2 !! s) ++ [ri]]> (activeInvokes ip2),
     <[ri_id ri := ri]> (invokesByID ip2)).
  by rewrite E1, E2, E3, E4.
Qed.

Lemma invocations_register s ri C S A I :
  invocations_consistent C S A I → s ∈ C → s ∉ S → running_ok s ri → I !! ri_id ri = None →
  map ri_spec (default [] (A !! s) ++ [ri]) ⊆+ invokes c s →
  invocations_consistent C S (<[s := default [] (A !! s) ++ [ri]]> A) (<[ri_id ri := ri]> I).
Proof.
  intros [HS HA HI] HC HnS Hri Hfresh Hsub. set (l := default [] (A !! s)) in *.
  assert (∀ ri', ri' ∈ l → running_ok s ri' ∧ ∃ ris, A !! s = Some ris ∧ ri' ∈ ris) as Hl.
  { intros ri' Hin. unfold l in Hin. destruct (A !! s) as [ris|] eqn:E; [|by apply elem_of_nil in Hin]. simpl in Hin.
    destruct (HA _ _ E) as (_ & _ & _ & _ & Hall). rewrite Forall_forall in Hall. eauto. }
  split; [done | |].
  - intros s' ris [[<- <-]|[Hne E]]%lookup_insert_Some; [|by apply HA].
    split_and!; [by destruct l | done | done | done |]. apply Forall_app. split; [|by constructor].
    apply Forall_forall. intros ri' Hin. by apply Hl.
  - intros id ri'. rewrite lookup_insert_Some. split.
    + intros [[<- <-]|[Hne (Hid & ris & E & Hin)%HI]].
      * split; [done|]. rewrite (ro_state _ _ Hri), lookup_insert_eq. eexists. split; [done|]. set_solver.
      * split; [done|]. destruct (decide (ri_state ri' = s)) as [Hs|Hs]; [|rewrite lookup_insert_ne by done; eauto].
        rewrite Hs, lookup_insert_eq. eexists. split; [done|]. unfold l. rewrite Hs in E. rewrite E. simpl. set_solver.
    + intros (Hid & ris & [[Hs <-]|[Hne E]]%lookup_insert_Some & Hin).
      * apply elem_of_app in Hin as [Hin| ->%list_elem_of_singleton]; [|by left].
        destruct (Hl _ Hin) as (_ & ris & E & Hin'). right.
        assert (I !! id = Some ri') as X by (apply HI; rewrite <- Hs; eauto). split; [congruence | done].
      * assert (I !! id = Some ri') as X by (apply HI; eauto). right. split; [congruence | done].
Qed.

Hypothesis Hiw : invokes_wf.

(** An [<invoke>] element is identified by its definition ID. *)
Lemma invoke_definition_inj spec spec' :
  spec ∈ chartInvokes → spec' ∈ chartInvokes → iv_definitionID spec = iv_definitionID spec' → spec = spec'.
Proof using Hiw. intros H H' Heq. by apply (NoDup_map_elem_inj iv_definitionID chartInvokes); [apply Hiw|..]. Qed.

Lemma static_id_inj spec spec' :
  spec ∈ chartInvokes → spec' ∈ chartInvokes → iv_id spec ≠ "" → iv_id spec = iv_id spec' → spec = spec'.
Proof using Hiw.
  intros H H' Hne Heq. by apply (NoDup_filter_elem_inj iv_id (λ id, id ≠ "") chartInvokes); [apply Hiw|..].
Qed.

Lemma NoDup_chartInvokes : NoDup chartInvokes.
Proof using Hiw. eapply NoDup_fmap_1, (iw_definition Hiw). Qed.

Lemma NoDup_invokes s : NoDup (invokes c s).
Proof using Hiw.
  pose proof NoDup_chartInvokes as Hn. unfold invokes, state_of. destruct (c_order c !! s) as [cs|] eqn:E; [|constructor].
  unfold chartInvokes in Hn. rewrite <- (take_drop_middle _ _ _ E), map_app, concat_app in Hn. simpl in Hn.
  apply NoDup_app in Hn as (_ & _ & Hn). by apply NoDup_app in Hn as [Hn _].
Qed.

(** The name is not in use when the element is not running. *)
Lemma started_fresh s spec ip ri :
  invocations_ok ip → spec ∈ invokes c s → spec ∉ map ri_spec (default [] (activeInvokes ip !! s)) →
  started_as s spec ip ri → invokesByID ip !! ri_id ri = None.
Proof using Hiw.
  intros [_ HA HI] Hspec Hidle [_ _ [_ [[Hid Hne]|(_ & _ & ?)]] _ _ _]; [|done].
  destruct (invokesByID ip !! ri_id ri) as [ri'|] eqn:E; [exfalso | done].
  apply HI in E as (Hid' & ris & E & Hin). destruct (HA _ _ E) as (_ & _ & _ & _ & Hall).
  rewrite Forall_forall in Hall. specialize (Hall _ Hin). destruct (ro_id _ _ Hall) as [[Hs _]|[_ Hs]].
  - assert (spec = ri_spec ri') as ->.
    { apply static_id_inj; [by eapply invokes_elem | by eapply invokes_elem, Hall | done | congruence]. }
    apply Hidle. rewrite <- (iw_owner Hiw s (ri_spec ri') Hspec), (iw_owner Hiw _ _ (ro_spec _ _ Hall)), E.
    by apply list_elem_of_fmap_2.
  - apply Hs. rewrite Hid', Hid. apply list_elem_of_fmap_2. by eapply invokes_elem.
Qed.

Lemma started_running s spec ip ri : spec ∈ invokes c s → started_as s spec ip ri → running_ok s ri.
Proof using Hiw.
  intros Hspec [Hs Hsp [Hne Hid] (t & Ht & Hst) Hf Ha]. split; rewrite ?Hsp; [done.. | | done | | done | done].
  - naive_solver.
  - rewrite Ht. split; [apply canonicalInvokeType_nonempty|]. intros ->%Hst.
    apply (iw_type Hiw). by eapply invokes_elem.
Qed.

(** What the invocations of one state leave alone. *)
Definition invoked_at (s : nat) (ip ip' : interpretation) : Prop :=
  configuration ip' = configuration ip ∧ statesToInvoke ip' = statesToInvoke ip
  ∧ ∀ s', s' ≠ s → activeInvokes ip' !! s' = activeInvokes ip !! s'.

Lemma beginInvoke_ok s spec ip past rest :
  invokes c s = past ++ spec :: rest → invocations_ok ip → s ∈ configuration ip → s ∉ statesToInvoke ip →
  map ri_spec (default [] (activeInvokes ip !! s)) ⊆+ past →
  invocations_ok (beginInvoke c env s spec ip) ∧ invoked_at s ip (beginInvoke c env s spec ip)
  ∧ map ri_spec (default [] (activeInvokes (beginInvoke c env s spec ip) !! s)) ⊆+ past ++ [spec].
Proof using Hiw.
  intros Hinv Hok HC HS Hsub. set (ip' := beginInvoke c env s spec ip).
  destruct (beginInvoke_cases s spec ip) as [E|(ri & Hri & E)]; fold ip' in E; clearbody ip'.
  - split; [by eapply invocations_ok_part|]. unfold invocation_part in E. injection E as E1 E2 E3 E4.
    unfold invoked_at. rewrite E1, E2, E3. split; [done|]. by apply submseteq_inserts_r.
  - assert (spec ∈ invokes c s) as Hspec by (rewrite Hinv; set_solver).
    assert (spec ∉ map ri_spec (default [] (activeInvokes ip !! s))) as Hidle.
    { intros Hin. pose proof (NoDup_invokes s) as Hn. rewrite Hinv in Hn. apply NoDup_app in Hn as (_ & Hn & _).
      apply (Hn spec); [by eapply elem_of_submseteq | left]. }
    assert (map ri_spec (default [] (activeInvokes ip !! s) ++ [ri]) ⊆+ past ++ [spec]) as Hnew.
    { rewrite map_app. simpl. rewrite (sa_spec _ _ _ _ Hri). by apply submseteq_app. }
    pose proof E as E'. unfold invocation_part in E'. rewrite !pair_eq in E'. destruct E' as [[[E1 E2] E3] E4].
    split_and!.
    + apply (invocations_ok_eq _ _ _ _ _ E). apply invocations_register; auto.
      * by eapply started_running.
      * by eapply started_fresh.
      * etrans; [exact Hnew|]. rewrite Hinv. apply submseteq_app; [done|]. by apply submseteq_skip, submseteq_nil_l.
    + split_and!; [done | done |]. intros s' Hs'. rewrite E3. by apply lookup_insert_ne.
    + by rewrite E3, lookup_insert_eq.
Qed.

Lemma invoked_at_trans s ip1 ip2 ip3 : invoked_at s ip1 ip2 → invoked_at s ip2 ip3 → invoked_at s ip1 ip3.
Proof using Type.
  intros (A1 & B1 & C1) (A2 & B2 & C2). split_and!; [congruence | congruence |]. intros s' Hs'. by rewrite C2, C1.
Qed.

Lemma stateInvokes_ok s specs past ip :
  invokes c s = past ++ specs → invocations_ok ip → s ∈ configuration ip → s ∉ statesToInvoke ip →
  map ri_spec (default [] (activeInvokes ip !! s)) ⊆+ past →
  invocations_ok (foldl (λ ip spec, beginInvoke c env s spec ip) ip specs)
  ∧ invoked_at s ip (foldl (λ ip spec, beginInvoke c env s spec ip) ip specs).
Proof using Hiw.
  revert past ip. induction specs as [|spec specs IH]; intros past ip Hinv Hok HC HS Hsub; simpl; [done|].
  destruct (beginInvoke_ok s spec ip past specs Hinv Hok HC HS Hsub) as (Hok' & Hat & Hsub').
  destruct (IH (past ++ [spec]) (beginInvoke c env s spec ip)) as [H1 H2]; [|done| | |done|].
  - by rewrite Hinv, <- app_assoc.
  - destruct Hat as (-> & _ & _). done.
  - destruct Hat as (_ & -> & _). done.
  - split; [done | by eapply invoked_at_trans].
Qed.

Lemma invokeAll_ok l ip :
  NoDup l → invocations_ok ip → statesToInvoke ip = ∅ →
  (∀ s, s ∈ l → s ∈ configuration ip ∧ activeInvokes ip !! s = None) →
  invocations_ok (foldl (λ ip s, foldl (λ ip spec, beginInvoke c env s spec ip) ip (invokes c s)) ip l).
Proof using Hiw.
  intros Hn. revert ip. induction Hn as [|s l Hs Hn IH]; intros ip Hok HS Hl; simpl; [done|].
  destruct (Hl s (list_elem_of_here _ _)) as [HC HA].
  destruct (stateInvokes_ok s (invokes c s) [] ip) as (H1 & E1 & E2 & E3); [done | done | done | set_solver | by rewrite HA |].
  apply IH; [done | congruence |]. intros s' Hin. destruct (Hl s') as [HC' HA']; [by right|].
  rewrite E1, E3 by set_solver. done.
Qed.

Lemma processInvokes_ok ip : invocations_ok ip → invocations_ok (processInvokes c env ip).
Proof using Hiw.
  intros [HS HA HI]. unfold processInvokes. apply invokeAll_ok; [apply NoDup_sort_asc | | done |].
  - change (invocations_consistent (configuration ip) ∅ (activeInvokes ip) (invokesByID ip)).
    split; [set_solver | | done]. intros s ris E. destruct (HA _ _ E) as (? & ? & ? & ? & ?).
    split_and!; [done | done | set_solver | done | done].
  - intros s Hs%elem_of_sort_asc. split; [by apply HS|].
    change (activeInvokes ip !! s = None). destruct (activeInvokes ip !! s) as [ris|] eqn:E; [|done].
    by destruct (HA _ _ E) as (_ & _ & ? & _).
Qed.

(** ** Steps *)

Lemma part_foldl {A} (f : interpretation → A → interpretation) xs ip :
  (∀ ip x, invocation_part (f ip x) = invocation_part ip) → invocation_part (foldl f ip xs) = invocation_part ip.
Proof using Type. intros H. revert ip. induction xs as [|x xs IH]; intros ip; [done|]. simpl. by rewrite IH, H. Qed.

Lemma part_appendTrace t ip : invocation_part (appendTrace t ip) = invocation_part ip.
Proof using Type. unfold appendTrace. by destruct (macrostepTrace ip). Qed.

Lemma part_applyInvokeSideEffects ev ip : invocation_part (applyInvokeSideEffects c env ev ip) = invocation_part ip.
Proof using Type.
  unfold applyInvokeSideEffects. apply part_foldl. intros ip' id. unfold applyInvokeSideEffect.
  destruct (invokesByID ip' !! id) as [ri|]; [|done]. set (ip1 := if decide _ then _ else _).
  assert (invocation_part ip1 = invocation_part ip') as H.
  { unfold ip1. case_decide; [|done]. apply part_keeps, runFinalizeBlocks_keeps. }
  destruct (ri_autoForward ri && ri_incoming ri); [|done]. unfold channelSend. case_decide; by rewrite <- H.
Qed.

Variable hrank : nat → nat.
Hypothesis Hwf : wf_chart c hrank.

(** Only the root can be entered while it is active, and it has no
    invocations. *)
Lemma microstep_invocations trigger ts ip ip' :
  well_configured c ip → takeable c ip ts → microstep c env trigger ts ip = Some ip' →
  invocations_ok ip → invocations_ok ip'.
Proof using All.
  intros [HL HH] Hts Hstep Hok.
  destruct (computeEntrySet_total c hrank Hwf ip HL HH ts Hts) as [entry Hentry].
  pose proof (filled_step c hrank Hwf ip HL HH ts entry Hts Hentry) as HF.
  pose proof (elem_of_computeExitSet c hrank Hwf ip HL HH ts) as HX.
  unfold microstep in Hstep. rewrite Hentry in Hstep. simpl in Hstep. injection Hstep as <-.
  set (ip1 := appendTrace _ ip). set (ip2 := exitStates c env _ ip1). set (ip3 := foldl _ ip2 ts).
  assert (core ip1 = core ip) as H1 by apply core_appendTrace.
  assert (core ip2 = (configuration ip1 ∖ computeExitSet c ip ts, recordedHistory c (computeExitSet c ip ts) ip1)) as H2.
  { apply core_exitStates. intros x [Hx _]%HX. by apply (legal_valid _ _ HL). }
  assert (core ip3 = core ip2) as H3 by (apply core_foldl; intros; apply core_runActionBlocks).
  apply enterStates_ok.
  - eapply (invocations_ok_part ip2); [apply part_foldl; intros; apply part_keeps, runActionBlocks_keeps|].
    apply exitStates_ok. eapply invocations_ok_part, Hok. apply part_appendTrace.
  - intros x Hx. by apply (f_real _ _ _ HF).
  - intros x Hx Hin. rewrite H2 in H3. unfold core in H3, H1. injection H3 as H3 _. injection H1 as H1 _.
    rewrite H3, H1 in Hin. apply elem_of_difference in Hin as [Hin Hnot].
    destruct (f_inside _ _ _ HF x Hx) as (d & Hd & [Hs|[-> ->]] & _); [|apply (iw_root Hiw)].
    destruct Hnot. apply HX. eauto.
Qed.

Lemma select_invocations guard ip ip' enabled :
  selectEnabled c env guard (atomicStatesInDocOrder c ip) [] ip = (ip', enabled) → well_configured c ip →
  invocations_ok ip → invocations_ok ip'.
Proof using All.
  intros Hsel HW. apply invocations_ok_part, part_control.
  by destruct (select_well_configured c env hrank Hwf guard ip ip' enabled HW Hsel) as (? & _ & _).
Qed.

Lemma iteration_invocations ip ip' b :
  well_configured c ip → stableIteration c env ip = Some (ip', b) → invocations_ok ip → invocations_ok ip'.
Proof using All.
  intros HW. unfold stableIteration, selectEventlessTransitions.
  destruct (selectEnabled c env eventlessGuard _ [] ip) as [ip1 enabled] eqn:Hsel.
  destruct (select_well_configured c env hrank Hwf _ _ _ _ HW Hsel) as (_ & HW1 & Ht1).
  intros Hit Hok%(select_invocations _ _ _ _ Hsel HW). revert Hit.
  destruct (removeConflictingTransitions c ip1 enabled) as [|t ts] eqn:Hts.
  2: { intros (ip2 & Hm & [= <- _])%bind_Some. by eapply microstep_invocations. }
  destruct (internalQueue ip1) as [|ev queue]; [intros [= <- _]; by apply processInvokes_ok|].
  set (ip2 := set_hasLastEvent true (set_lastEvent ev (set_internalQueue queue ip1))).
  assert (well_configured c ip2) as HW2 by exact HW1. assert (invocations_ok ip2) as Hok2 by exact Hok.
  unfold selectTransitions. destruct (selectEnabled c env (eventGuard ev) _ [] ip2) as [ip3 enabled3] eqn:Hsel3.
  destruct (select_well_configured c env hrank Hwf _ _ _ _ HW2 Hsel3) as (_ & HW3 & Ht3).
  apply (select_invocations _ _ _ _ Hsel3 HW2) in Hok2.
  destruct (removeConflictingTransitions c ip3 enabled3) as [|u us] eqn:Hus; [by intros [= <- _]|].
  intros (ip4 & Hm & [= <- _])%bind_Some. by eapply microstep_invocations.
Qed.

Lemma takeExternal_invocations ev queue ip ip' :
  well_configured c ip → takeExternal c env ev queue ip = Some ip' → invocations_ok ip → invocations_ok ip'.
Proof using All.
  intros HW. unfold takeExternal. set (ip1 := applyInvokeSideEffects c env ev _). intros Hext Hok. revert Hext.
  assert (well_configured c ip1) as HW1.
  { eapply well_configured_core; [|exact HW]. symmetry. unfold ip1. by rewrite core_applyInvokeSideEffects. }
  assert (invocations_ok ip1) as Hok1.
  { eapply invocations_ok_part, Hok. unfold ip1. by rewrite part_applyInvokeSideEffects. }
  unfold selectTransitions.
  destruct (selectEnabled c env (eventGuard ev) _ [] ip1) as [ip2 enabled] eqn:Hsel.
  destruct (select_well_configured c env hrank Hwf _ _ _ _ HW1 Hsel) as (_ & HW2 & Ht2).
  apply (select_invocations _ _ _ _ Hsel HW1) in Hok1.
  destruct (removeConflictingTransitions c ip2 enabled) as [|u us] eqn:Hus; [by intros [= <-]|].
  intros Hm. by eapply microstep_invocations.
Qed.

Lemma step_invocations ip ip' : step c env ip ip' → well_configured c ip → invocations_ok ip → invocations_ok ip'.
Proof using All.
  intros Hstep HW. destruct Hstep as [ip ip' b _ Hit | ip ip' ev queue _ _ Hext | ev ip | n ip | sid tg ty ev ip | id ip | d ip _].
  - by eapply iteration_invocations.
  - by eapply takeExternal_invocations.
  - apply invocations_ok_part. unfold enqueue. by case_decide.
  - apply invocations_ok_part. unfold handleTimerFire. destruct (pending ip !! n) as [rec|]; [|done].
    assert (invocation_part (fireTimer env n ip) = invocation_part ip) as H by (apply part_keeps, fireTimer_keeps).
    destruct (env_timerFiredHook env) as [hook|]; [|done]. by destruct (hook _ _ _ _).
  - apply invocations_ok_part. unfold replayTimerFire. destruct (timerMatch _ _ _ _ ip); [|done].
    simpl. by rewrite part_keeps by apply dispatchNow_keeps.
  - done.
  - done.
Qed.

Lemma enterInitial_invocations s t ip : enterInitial c env (newInterpretation s t) = Some ip → invocations_ok ip.
Proof using All.
  unfold enterInitial. set (ip1 := match c_dataBinding c with DataBindingEarly => _ | DataBindingLate => _ end).
  assert (core ip1 = (∅, ∅) ∧ invocation_part ip1 = invocation_part (newInterpretation s t)) as [H1 P1].
  { assert (control_of (initializeData c env (c_data c) (newInterpretation s t)) = control_of (newInterpretation s t)) as H0
      by apply initializeData_keeps.
    unfold ip1. destruct (c_dataBinding c); [|split; [by rewrite (core_control _ _ H0) | by apply part_control]].
    split; [rewrite core_foldl by apply core_initializeEarly; by rewrite (core_control _ _ H0)|].
    rewrite part_foldl; [by apply part_control|]. intros ip' s'. unfold initializeEarly.
    destruct (state_of c s') as [cs|]; [|done]. destruct (st_data cs) as [|d ds]; [done|].
    transitivity (invocation_part (initializeData c env (d :: ds) ip')); [done|]. apply part_keeps, initializeData_keeps. }
  unfold core in H1. injection H1 as HC HV.
  destruct (initialEntrySet_filled c env hrank Hwf ip1 HV) as (entry & Hentry & HL). rewrite Hentry. simpl. intros [= <-].
  set (ip2 := appendTrace _ _).
  assert (invocation_part ip2 = invocation_part (newInterpretation s t)) as P2.
  { unfold ip2. rewrite part_appendTrace. exact P1. }
  apply enterStates_ok.
  - eapply invocations_ok_part; [exact P2 | apply invocations_ok_new].
  - intros x Hx. by apply (legal_valid _ _ HL).
  - unfold invocation_part in P2. injection P2 as -> _ _ _. intros x _ Hx. by apply elem_of_empty in Hx.
Qed.

Lemma reachable_invocations_ok ip : reachable c env ip → invocations_ok ip.
Proof using All.
  intros (ip0 & [s t ip1 H0] & Hrtc).
  assert (well_configured c ip1) as HW0
    by (destruct (enterInitial_well_configured c env hrank Hwf s t) as (ip2 & ? & ?); by simplify_eq).
  apply enterInitial_invocations in H0. induction Hrtc as [|ip1 ip2 ip3 Hs _ IH]; [done|].
  apply IH; [by eapply step_invocations | by eapply step_well_configured].
Qed.
End invocations.
