(* ===== verification/Definitions.v ===== *)
(** * Chart definitions (definition.go, expression.go, executable.go)

    A [Definition] is the syntax-neutral program that validation and the
    compiler read.  Go pointers that may be nil are options; a nil slice and an
    empty one are both [[]] (no code distinguishes them); the enumerations
    [StateKind] and [HistoryKind] are [uint8] values, which may be out of range
    in a definition that was decoded, and string-typed enumerations are strings.
    [Clone] copies a definition before normalization edits it. *)

From S2P Require Import Prelude Identifier Values Events Datamodel Chart.
From stdpp Require Import options.

(** ** Expressions *)

Record Expression := mkExpression { xp_Kind : Identifier; xp_Data : Value }.

Record FunctionRef := mkFunctionRef { fr_Name : Identifier; fr_Version : string; fr_Args : list Expression }.

Record ParamDefinition := mkParamDefinition {
  pd_Name : Identifier;
  pd_Expr : option Expression;
  pd_Location : option Expression
}.

(** ** Executable content *)

Record RaiseDefinition := mkRaise {
  rd_Event : Identifier; rd_EventExpr : option Expression; rd_Data : option Expression
}.

Record SendDefinition := mkSend {
  sn_Event : Identifier; sn_EventExpr : option Expression;
  sn_Target : string; sn_TargetExpr : option Expression;
  sn_Type : string; sn_TypeExpr : option Expression;
  sn_ID : Identifier; sn_IDLocation : option Expression;
  sn_Delay : string; sn_DelayExpr : option Expression;
  sn_Params : list ParamDefinition; sn_Content : option Expression
}.

Record CancelDefinition := mkCancel { cn_SendID : Identifier; cn_SendIDExpr : option Expression }.
Record LogDefinition := mkLog {
  lg_Label : string; lg_LabelExpr : option Expression; lg_Expr : option Expression
}.
Record AssignDefinition := mkAssign { as_Location : Expression; as_Expr : Expression }.
Record ScriptDefinition := mkScript { sc_Expr : Expression }.
Record CallDefinition := mkCall { cl_Function : FunctionRef }.
Record ExtensionDefinition := mkExtension { xt_Namespace : string; xt_Name : string; xt_Data : Value }.

(** The two nested forms, over the type of the nodes inside their blocks. *)
Record ChooseBranch (E : Type) := mkBranch { cb_Condition : Expression; cb_Actions : list (list E) }.
Record Choose (E : Type) := mkChoose { ch_Branches : list (ChooseBranch E); ch_Else : list (list E) }.
Record ForEach (E : Type) := mkForEach {
  fe_Array : Expression; fe_Item : Identifier; fe_Index : Identifier; fe_Actions : list (list E)
}.
Arguments mkBranch {E} _ _.
Arguments cb_Condition {E} _.
Arguments cb_Actions {E} _.
Arguments mkChoose {E} _ _.
Arguments ch_Branches {E} _.
Arguments ch_Else {E} _.
Arguments mkForEach {E} _ _ _ _.
Arguments fe_Array {E} _.
Arguments fe_Item {E} _.
Arguments fe_Index {E} _.
Arguments fe_Actions {E} _.

Abbreviation ExecutableKind := string (only parsing).
Definition ExecutableRaise : ExecutableKind := "raise".
Definition ExecutableSend : ExecutableKind := "send".
Definition ExecutableCancel : ExecutableKind := "cancel".
Definition ExecutableLog : ExecutableKind := "log".
Definition ExecutableAssign : ExecutableKind := "assign".
Definition ExecutableChoose : ExecutableKind := "choose".
Definition ExecutableForEach : ExecutableKind := "foreach".
Definition ExecutableScript : ExecutableKind := "script".
Definition ExecutableCall : ExecutableKind := "call".
Definition ExecutableExtension : ExecutableKind := "extension".

(** The tagged union as the code has it: a tag and ten pointers.  Nothing in
    the type forces exactly one pointer to be set, or the right one. *)
Inductive Executable := mkExecutable {
  ex_Kind : ExecutableKind;
  ex_Raise : option RaiseDefinition;
  ex_Send : option SendDefinition;
  ex_Cancel : option CancelDefinition;
  ex_Log : option LogDefinition;
  ex_Assign : option AssignDefinition;
  ex_Choose : option (Choose Executable);
  ex_ForEach : option (ForEach Executable);
  ex_Script : option ScriptDefinition;
  ex_Call : option CallDefinition;
  ex_Extension : option ExtensionDefinition
}.

Definition ExecutableBlock : Type := list Executable.

(** The constructors of executable.go. *)
Definition NewRaiseExecutable (v : RaiseDefinition) : Executable :=
  mkExecutable ExecutableRaise (Some v) None None None None None None None None None.
Definition NewSendExecutable (v : SendDefinition) : Executable :=
  mkExecutable ExecutableSend None (Some v) None None None None None None None None.
Definition NewCancelExecutable (v : CancelDefinition) : Executable :=
  mkExecutable ExecutableCancel None None (Some v) None None None None None None None.
Definition NewLogExecutable (v : LogDefinition) : Executable :=
  mkExecutable ExecutableLog None None None (Some v) None None None None None None.
Definition NewAssignExecutable (v : AssignDefinition) : Executable :=
  mkExecutable ExecutableAssign None None None None (Some v) None None None None None.
Definition NewChooseExecutable (v : Choose Executable) : Executable :=
  mkExecutable ExecutableChoose None None None None None (Some v) None None None None.
Definition NewForEachExecutable (v : ForEach Executable) : Executable :=
  mkExecutable ExecutableForEach None None None None None None (Some v) None None None.
Definition NewScriptExecutable (v : ScriptDefinition) : Executable :=
  mkExecutable ExecutableScript None None None None None None None (Some v) None None.
Definition NewCallExecutable (v : CallDefinition) : Executable :=
  mkExecutable ExecutableCall None None None None None None None None (Some v) None.
Definition NewExtensionExecutable (v : ExtensionDefinition) : Executable :=
  mkExecutable ExecutableExtension None None None None None None None None None (Some v).

(** ** States, transitions, data and invocations *)

Record StateDefinitionID := mkStateID { sid_Value : Identifier; sid_Generated : bool }.

Definition TransitionExternal : string := "external".
Definition TransitionInternal : string := "internal".
Definition BindingEarly : string := "early".
Definition BindingLate : string := "late".

Record DataDefinition := mkDataDefinition {
  da_ID : Identifier; da_Source : string; da_Expr : option Expression; da_Content : option Expression
}.

Record TransitionDefinition := mkTransitionDefinition {
  td_Events : list Identifier;
  td_Targets : list Identifier;
  td_Type : string;
  td_Condition : option Expression;
  td_Actions : list ExecutableBlock
}.

Record InvokeDefinition := mkInvokeDefinition {
  id_DefinitionID : Identifier;
  id_ID : Identifier;
  id_IDLocation : option Expression;
  id_Type : string;
  id_TypeExpr : option Expression;
  id_Src : string;
  id_SrcExpr : option Expression;
  id_Params : list ParamDefinition;
  id_Content : option Expression;
  id_AutoForward : bool;
  id_Finalize : list ExecutableBlock
}.

Record DoneDataDefinition := mkDoneData { dn_Params : list ParamDefinition; dn_Content : option Expression }.

Inductive StateDefinition := mkStateDefinition {
  sd_ID : StateDefinitionID;
  sd_Kind : N;
  sd_History : N;
  sd_Initial : option TransitionDefinition;
  sd_OnEntry : list ExecutableBlock;
  sd_OnExit : list ExecutableBlock;
  sd_Transitions : list TransitionDefinition;
  sd_Invokes : list InvokeDefinition;
  sd_Data : list DataDefinition;
  sd_DoneData : option DoneDataDefinition;
  sd_Children : list StateDefinition
}.

Record ChartDefinition := mkDefinition {
  df_ID : Identifier;
  df_Name : string;
  df_Datamodel : Identifier;
  df_RevisionSalt : string;
  df_DataBinding : string;
  df_Data : list DataDefinition;
  df_Root : StateDefinition
}.

(** The [uint8] codes of the enumerations. *)
Definition stateKindCode (k : StateKind) : N :=
  match k with KindAtomic => 0 | KindCompound => 1 | KindParallel => 2 | KindFinal => 3 | KindHistory => 4 end%N.
Definition historyKindCode (k : HistoryKind) : N := match k with Shallow => 0 | Deep => 1 end%N.

Definition stateKindOf (n : N) : option StateKind :=
  match n with
  | 0 => Some KindAtomic | 1 => Some KindCompound | 2 => Some KindParallel
  | 3 => Some KindFinal | 4 => Some KindHistory | _ => None
  end%N.
Definition historyKindOf (n : N) : option HistoryKind :=
  match n with 0 => Some Shallow | 1 => Some Deep | _ => None end%N.

(** [state.Kind == k]. *)
Definition isKind (k : StateKind) (s : StateDefinition) : bool := bool_decide (sd_Kind s = stateKindCode k).

Definition sd_id (s : StateDefinition) : Identifier := sid_Value (sd_ID s).

(** ** Deep copies *)

Definition cloneExpression (e : Expression) : Expression := mkExpression (xp_Kind e) (Clone (xp_Data e)).
Definition cloneFunctionRef (r : FunctionRef) : FunctionRef :=
  mkFunctionRef (fr_Name r) (fr_Version r) (cloneExpression <$> fr_Args r).
Definition cloneParam (p : ParamDefinition) : ParamDefinition :=
  mkParamDefinition (pd_Name p) (cloneExpression <$> pd_Expr p) (cloneExpression <$> pd_Location p).
Definition cloneParams (ps : list ParamDefinition) : list ParamDefinition := cloneParam <$> ps.
Definition cloneDataDefinition (d : DataDefinition) : DataDefinition :=
  mkDataDefinition (da_ID d) (da_Source d) (cloneExpression <$> da_Expr d) (cloneExpression <$> da_Content d).
Definition cloneDataDefinitions (ds : list DataDefinition) : list DataDefinition := cloneDataDefinition <$> ds.

Section cloneBlocks.
Variable cloneExecutable : Executable → Executable.
Definition cloneBlocks_with (blocks : list ExecutableBlock) : list ExecutableBlock :=
  map (λ block, map cloneExecutable block) blocks.
End cloneBlocks.

(** [Executable.clone]: a fresh union in which every present payload is copied. *)
Fixpoint cloneExecutable (e : Executable) : Executable :=
  let 'mkExecutable k raise send cancel log assign choose foreach script call extension := e in
  mkExecutable k
    ((λ v, mkRaise (rd_Event v) (cloneExpression <$> rd_EventExpr v) (cloneExpression <$> rd_Data v)) <$> raise)
    ((λ v, mkSend (sn_Event v) (cloneExpression <$> sn_EventExpr v)
        (sn_Target v) (cloneExpression <$> sn_TargetExpr v)
        (sn_Type v) (cloneExpression <$> sn_TypeExpr v)
        (sn_ID v) (cloneExpression <$> sn_IDLocation v)
        (sn_Delay v) (cloneExpression <$> sn_DelayExpr v)
        (cloneParams (sn_Params v)) (cloneExpression <$> sn_Content v)) <$> send)
    ((λ v, mkCancel (cn_SendID v) (cloneExpression <$> cn_SendIDExpr v)) <$> cancel)
    ((λ v, mkLog (lg_Label v) (cloneExpression <$> lg_LabelExpr v) (cloneExpression <$> lg_Expr v)) <$> log)
    ((λ v, mkAssign (cloneExpression (as_Location v)) (cloneExpression (as_Expr v))) <$> assign)
    match choose with
    | Some (mkChoose branches otherwise) =>
        Some (mkChoose
          (map (λ '(mkBranch cond actions), mkBranch (cloneExpression cond) (cloneBlocks_with cloneExecutable actions)) branches)
          (cloneBlocks_with cloneExecutable otherwise))
    | None => None
    end
    match foreach with
    | Some (mkForEach array item index actions) =>
        Some (mkForEach (cloneExpression array) item index (cloneBlocks_with cloneExecutable actions))
    | None => None
    end
    ((λ v, mkScript (cloneExpression (sc_Expr v))) <$> script)
    ((λ v, mkCall (cloneFunctionRef (cl_Function v))) <$> call)
    ((λ v, mkExtension (xt_Namespace v) (xt_Name v) (Clone (xt_Data v))) <$> extension).

Definition cloneBlocks : list ExecutableBlock → list ExecutableBlock := cloneBlocks_with cloneExecutable.

Definition cloneTransition (t : TransitionDefinition) : TransitionDefinition :=
  mkTransitionDefinition (td_Events t) (td_Targets t) (td_Type t) (cloneExpression <$> td_Condition t)
    (cloneBlocks (td_Actions t)).

Definition cloneInvoke (i : InvokeDefinition) : InvokeDefinition :=
  mkInvokeDefinition (id_DefinitionID i) (id_ID i) (cloneExpression <$> id_IDLocation i)
    (id_Type i) (cloneExpression <$> id_TypeExpr i) (id_Src i) (cloneExpression <$> id_SrcExpr i)
    (cloneParams (id_Params i)) (cloneExpression <$> id_Content i) (id_AutoForward i)
    (cloneBlocks (id_Finalize i)).

Definition cloneDoneData (d : DoneDataDefinition) : DoneDataDefinition :=
  mkDoneData (cloneParams (dn_Params d)) (cloneExpression <$> dn_Content d).

Fixpoint cloneState (s : StateDefinition) : StateDefinition :=
  mkStateDefinition (sd_ID s) (sd_Kind s) (sd_History s) (cloneTransition <$> sd_Initial s)
    (cloneBlocks (sd_OnEntry s)) (cloneBlocks (sd_OnExit s))
    (cloneTransition <$> sd_Transitions s) (cloneInvoke <$> sd_Invokes s)
    (cloneDataDefinitions (sd_Data s)) (cloneDoneData <$> sd_DoneData s)
    (map cloneState (sd_Children s)).

Definition cloneDefinition (d : ChartDefinition) : ChartDefinition :=
  mkDefinition (df_ID d) (df_Name d) (df_Datamodel d) (df_RevisionSalt d) (df_DataBinding d)
    (cloneDataDefinitions (df_Data d)) (cloneState (df_Root d)).

(** ** Induction on nested content *)

Section executable_induction.
Variable P : Executable → Prop.

Definition blocks_all (blocks : list ExecutableBlock) : Prop := Forall (Forall P) blocks.

(** [P] holds of every node directly inside [e]. *)
Definition inner_all (e : Executable) : Prop :=
  match ex_Choose e with
  | Some ch => Forall (λ b, blocks_all (cb_Actions b)) (ch_Branches ch) ∧ blocks_all (ch_Else ch)
  | None => True
  end
  ∧ match ex_ForEach e with Some f => blocks_all (fe_Actions f) | None => True end.

Hypothesis step : ∀ e, inner_all e → P e.

Fixpoint Executable_nested_ind (e : Executable) : P e.
Proof using step.
  apply step. destruct e as [k r s c l a ch f sc ca ex].
  assert (∀ blocks, blocks_all blocks) as Hblocks.
  { fix Hb 1. intros [|block blocks]; constructor; [|apply Hb].
    revert block. fix Hblock 1. intros [|e block]; constructor; [apply Executable_nested_ind | apply Hblock]. }
  unfold inner_all. simpl. split.
  - destruct ch as [[branches els]|]; [|done]. simpl. split; [|apply Hblocks].
    revert branches. fix Hbr 1. intros [|[cond actions] branches]; constructor; [apply Hblocks | apply Hbr].
  - destruct f as [[arr item idx actions]|]; [apply Hblocks | done].
Defined.
End executable_induction.

Section state_induction.
Variable P : StateDefinition → Prop.
Hypothesis step : ∀ s, Forall P (sd_Children s) → P s.

Fixpoint StateDefinition_nested_ind (s : StateDefinition) : P s.
Proof using step.
  apply step. destruct s as [? ? ? ? ? ? ? ? ? ? children]. simpl. revert children.
  fix Hch 1. intros [|x children]; constructor; [apply StateDefinition_nested_ind | apply Hch].
Defined.
End state_induction.

(** ** A copy carries the same definition *)

Lemma list_map_id_Forall {A} (f : A → A) l : Forall (λ x, f x = x) l → map f l = l.
Proof. induction 1 as [|x l Hx _ IH]; simpl; congruence. Qed.

Lemma cloneExpression_id e : cloneExpression e = e.
Proof. destruct e. unfold cloneExpression. simpl. by rewrite Clone_id. Qed.

Lemma fmap_id_ext {A} (f : A → A) (o : option A) : (∀ x, f x = x) → f <$> o = o.
Proof. intros H. destruct o; simpl; by rewrite ?H. Qed.
Lemma list_fmap_id_ext {A} (f : A → A) (l : list A) : (∀ x, f x = x) → f <$> l = l.
Proof. intros H. apply list_map_id_Forall. apply Forall_forall. auto. Qed.

Create HintDb clone.
#[export] Hint Rewrite cloneExpression_id Clone_id : clone.
#[export] Hint Resolve cloneExpression_id : clone.

Ltac clone_same :=
  repeat first
    [ rewrite (fmap_id_ext cloneExpression) by apply cloneExpression_id
    | rewrite (list_fmap_id_ext cloneExpression) by apply cloneExpression_id
    | progress autorewrite with clone ].

Lemma cloneParams_id ps : cloneParams ps = ps.
Proof. apply list_fmap_id_ext. intros []. unfold cloneParam. simpl. by clone_same. Qed.
Lemma cloneDataDefinitions_id ds : cloneDataDefinitions ds = ds.
Proof. apply list_fmap_id_ext. intros []. unfold cloneDataDefinition. simpl. by clone_same. Qed.
Lemma cloneFunctionRef_id r : cloneFunctionRef r = r.
Proof. destruct r. unfold cloneFunctionRef. simpl. by clone_same. Qed.
#[export] Hint Rewrite cloneParams_id cloneDataDefinitions_id cloneFunctionRef_id : clone.

Lemma cloneBlocks_with_id f blocks : blocks_all (λ e, f e = e) blocks → cloneBlocks_with f blocks = blocks.
Proof.
  intros H. apply list_map_id_Forall. eapply Forall_impl; [exact H|]. intros b Hb. by apply list_map_id_Forall.
Qed.

Lemma cloneExecutable_id e : cloneExecutable e = e.
Proof.
  induction e as [e [IHc IHf]] using Executable_nested_ind.
  destruct e as [k r s c l a ch f sc ca ex]. simpl in *. f_equal.
  1-5: apply fmap_id_ext; intros []; simpl; by clone_same.
  - destruct ch as [[branches els]|]; [|done]. destruct IHc as [Hb He]. simpl in *. do 2 f_equal; [|by apply cloneBlocks_with_id].
    apply list_map_id_Forall. eapply Forall_impl; [exact Hb|]. intros [cond acts] H. simpl in *.
    rewrite cloneBlocks_with_id by done. by clone_same.
  - destruct f as [[]|]; [|done]. simpl in *. rewrite cloneBlocks_with_id by done. by clone_same.
  - apply fmap_id_ext; intros []; simpl; by clone_same.
  - apply fmap_id_ext; intros []; simpl; by clone_same.
  - apply fmap_id_ext; intros []; simpl; by clone_same.
Qed.

Lemma cloneBlocks_id blocks : cloneBlocks blocks = blocks.
Proof. apply cloneBlocks_with_id. repeat (apply Forall_forall; intros). apply cloneExecutable_id. Qed.
#[export] Hint Rewrite cloneBlocks_id : clone.

Lemma cloneTransition_id t : cloneTransition t = t.
Proof. destruct t. unfold cloneTransition. simpl. by clone_same. Qed.
Lemma cloneInvoke_id i : cloneInvoke i = i.
Proof. destruct i. unfold cloneInvoke. simpl. by clone_same. Qed.
Lemma cloneDoneData_id d : cloneDoneData d = d.
Proof. destruct d. unfold cloneDoneData. simpl. by clone_same. Qed.

Lemma cloneState_id s : cloneState s = s.
Proof.
  induction s as [s IH] using StateDefinition_nested_ind. destruct s. simpl in *.
  rewrite (list_map_id_Forall cloneState) by done. clone_same.
  rewrite (fmap_id_ext cloneTransition), (list_fmap_id_ext cloneTransition) by apply cloneTransition_id.
  rewrite (list_fmap_id_ext cloneInvoke) by apply cloneInvoke_id.
  by rewrite (fmap_id_ext cloneDoneData) by apply cloneDoneData_id.
Qed.

Lemma cloneDefinition_id d : cloneDefinition d = d.
Proof. destruct d. unfold cloneDefinition. simpl. clone_same. by rewrite cloneState_id. Qed.
