(* ===== verification/Validate.v ===== *)
(** * Structural validation and normalization (definition_validate.go)

    [normalizeDefinition] copies a definition, assigns the generated IDs and
    the implicit defaults, indexes the states and validates them.  A
    [*definitionStateNode] is its index in the list of nodes, which
    [collectStates] fills in pre-order; [byID] maps an ID to its node.  The
    duplicate-detection maps of the validator are threaded as [seenIDs].
    Errors carry the traversal path and the text of the source. *)

From S2P Require Import Prelude Identifier Values Events Datamodel Chart Definitions.
From stdpp Require Import options.

(** ** Errors and loops *)

Definition definitionError (path m : string) : error :=
  Errorf ("statecharts: definition " +:+ path +:+ ": " +:+ m).

(** [if err := f(); err != nil { return definitionError(path, "%v", err) }]. *)
Definition at_path {A} (path : string) (r : result A) : result A :=
  match r with Ok a => Ok a | Err e => Err (definitionError path (msg e)) end.

Definition index (path : string) (i : N) : string := path +:+ "[" +:+ itoa i +:+ "]".
Definition childPath (path : string) (i : N) : string := index (path +:+ ".children") i.

Definition whenSome {A} (o : option A) (f : A → result unit) : result unit :=
  match o with Some a => f a | None => Ok () end.

Definition present {A} (o : option A) : bool := match o with Some _ => true | None => false end.
Definition nonEmpty {A} (l : list A) : bool := match l with [] => false | _ => true end.
Definition nonBlank (s : string) : bool := negb (bool_decide (s = "")).

Section loops.
Context {A B S : Type}.

(** [for i, x := range xs { if err := f(i, x); err != nil { return err } }]. *)
Section check.
Variable f : N → A → result unit.
Fixpoint checkEach (i : N) (xs : list A) : result unit :=
  match xs with
  | [] => Ok ()
  | x :: xs => _ ← f i x; checkEach (i + 1) xs
  end.
End check.

(** The same loop over a body that updates the state [s]. *)
Section thread.
Variable f : N → A → S → result S.
Fixpoint forRange (i : N) (xs : list A) (s : S) : result S :=
  match xs with
  | [] => Ok s
  | x :: xs => s ← f i x s; forRange (i + 1) xs s
  end.
End thread.

(** The same loop over a body that also rewrites the element in place. *)
Section rewrite.
Variable f : N → A → S → result (B * S).
Fixpoint mapRange (i : N) (xs : list A) (s : S) : result (list B * S) :=
  match xs with
  | [] => Ok ([], s)
  | x :: xs =>
      r ← f i x s;
      r' ← mapRange (i + 1) xs r.2;
      Ok (r.1 :: r'.1, r'.2)
  end.
End rewrite.

Section accumulate.
Variable f : A → S → B * S.
Fixpoint mapAccum (xs : list A) (s : S) : list B * S :=
  match xs with
  | [] => ([], s)
  | x :: xs =>
      let '(y, s) := f x s in
      let '(ys, s) := mapAccum xs s in
      (y :: ys, s)
  end.
End accumulate.
End loops.

(** ** Normalization *)

(** [for { *next++; candidate := name( *next ); if !reserved[candidate] { break } }]:
    each reserved name can be met once, so [size reserved] retries are enough. *)
Fixpoint nextFree (fuel : nat) (name : N → string) (reserved : gset string) (next : N) : N :=
  let next := (next + 1)%N in
  match fuel with
  | 0 => next
  | S fuel => if decide (name next ∈ reserved) then nextFree fuel name reserved next else next
  end.

Definition generate (name : N → string) (st : gset string * N) : string * (gset string * N) :=
  let next := nextFree (size st.1) name st.1 st.2 in
  (name next, ({[name next]} ∪ st.1, next)).

Definition stateName (n : N) : string := "state." +:+ itoa n.
Definition invokeName (n : N) : string := "invoke." +:+ itoa n.

Definition set_ID (id : StateDefinitionID) (s : StateDefinition) : StateDefinition :=
  mkStateDefinition id (sd_Kind s) (sd_History s) (sd_Initial s) (sd_OnEntry s) (sd_OnExit s)
    (sd_Transitions s) (sd_Invokes s) (sd_Data s) (sd_DoneData s) (sd_Children s).
Definition set_Initial (t : option TransitionDefinition) (s : StateDefinition) : StateDefinition :=
  mkStateDefinition (sd_ID s) (sd_Kind s) (sd_History s) t (sd_OnEntry s) (sd_OnExit s)
    (sd_Transitions s) (sd_Invokes s) (sd_Data s) (sd_DoneData s) (sd_Children s).
Definition set_Transitions (ts : list TransitionDefinition) (s : StateDefinition) : StateDefinition :=
  mkStateDefinition (sd_ID s) (sd_Kind s) (sd_History s) (sd_Initial s) (sd_OnEntry s) (sd_OnExit s)
    ts (sd_Invokes s) (sd_Data s) (sd_DoneData s) (sd_Children s).
Definition set_Invokes (ivs : list InvokeDefinition) (s : StateDefinition) : StateDefinition :=
  mkStateDefinition (sd_ID s) (sd_Kind s) (sd_History s) (sd_Initial s) (sd_OnEntry s) (sd_OnExit s)
    (sd_Transitions s) ivs (sd_Data s) (sd_DoneData s) (sd_Children s).
Definition set_Children (cs : list StateDefinition) (s : StateDefinition) : StateDefinition :=
  mkStateDefinition (sd_ID s) (sd_Kind s) (sd_History s) (sd_Initial s) (sd_OnEntry s) (sd_OnExit s)
    (sd_Transitions s) (sd_Invokes s) (sd_Data s) (sd_DoneData s) cs.

Fixpoint collectReservedStateIDs (s : StateDefinition) (reserved : gset string) : gset string :=
  let reserved := if decide (sd_id s = "") then reserved else {[sd_id s]} ∪ reserved in
  fold_left (λ r x, collectReservedStateIDs x r) (sd_Children s) reserved.

(** The ID of one state, when it has none. *)
Definition assignStateID (id : StateDefinitionID) (path : string) (st : gset string * N)
    : result (StateDefinitionID * (gset string * N)) :=
  if decide (sid_Value id = "") then
    if sid_Generated id then
      let '(name, st) := generate stateName st in Ok (mkStateID name true, st)
    else Err (definitionError (path +:+ ".id") "state ID is empty and is not marked generated")
  else Ok (id, st).

Fixpoint assignGeneratedStateIDs (s : StateDefinition) (path : string) (st : gset string * N)
    : result (StateDefinition * (gset string * N)) :=
  r ← assignStateID (sd_ID s) path st;
  r' ← mapRange (λ i x st, assignGeneratedStateIDs x (childPath path i) st) 0 (sd_Children s) r.2;
  Ok (set_ID r.1 (set_Children r'.1 s), r'.2).

Definition set_DefinitionID (id : Identifier) (i : InvokeDefinition) : InvokeDefinition :=
  mkInvokeDefinition id (id_ID i) (id_IDLocation i) (id_Type i) (id_TypeExpr i) (id_Src i) (id_SrcExpr i)
    (id_Params i) (id_Content i) (id_AutoForward i) (id_Finalize i).

Fixpoint collectReservedInvokeDefinitionIDs (s : StateDefinition) (reserved : gset string) : gset string :=
  let reserved :=
    fold_left (λ r i, if decide (id_DefinitionID i = "") then r else {[id_DefinitionID i]} ∪ r) (sd_Invokes s) reserved in
  fold_left (λ r x, collectReservedInvokeDefinitionIDs x r) (sd_Children s) reserved.

Definition assignInvokeDefinitionID (i : InvokeDefinition) (st : gset string * N)
    : InvokeDefinition * (gset string * N) :=
  if decide (id_DefinitionID i = "") then
    let '(name, st) := generate invokeName st in (set_DefinitionID name i, st)
  else (i, st).

Fixpoint assignGeneratedInvokeDefinitionIDs (s : StateDefinition) (st : gset string * N)
    : StateDefinition * (gset string * N) :=
  let '(invokes, st) := mapAccum assignInvokeDefinitionID (sd_Invokes s) st in
  let '(children, st) := mapAccum assignGeneratedInvokeDefinitionIDs (sd_Children s) st in
  (set_Invokes invokes (set_Children children s), st).

(** The default transition of a compound state that names none: its first child
    that is not a history state. *)
Definition implicitInitial (s : StateDefinition) : option TransitionDefinition :=
  match sd_Initial s with
  | Some t => Some t
  | None =>
      if isKind KindCompound s then
        (λ x, mkTransitionDefinition [] [sd_id x] "" None []) <$>
          head (filter (λ x, isKind KindHistory x = false) (sd_Children s))
      else None
  end.

Fixpoint normalizeImplicitInitials (s : StateDefinition) : StateDefinition :=
  set_Initial (implicitInitial s) (set_Children (map normalizeImplicitInitials (sd_Children s)) s).

Definition normalizeTransitionType (t : TransitionDefinition) : TransitionDefinition :=
  if decide (td_Type t = "")
  then mkTransitionDefinition (td_Events t) (td_Targets t) TransitionExternal (td_Condition t) (td_Actions t)
  else t.

Fixpoint normalizeTransitionTypes (s : StateDefinition) : StateDefinition :=
  set_Initial (normalizeTransitionType <$> sd_Initial s)
    (set_Transitions (normalizeTransitionType <$> sd_Transitions s)
      (set_Children (map normalizeTransitionTypes (sd_Children s)) s)).

(** ** Expressions, parameters and executable content *)

Definition validateUTF8 (value : string) : result unit :=
  fail_if (negb (ValidString value)) (Errorf "value is not valid UTF-8").

(** [MarshalBinary] fails exactly when [Wire] does: what [Wire] returns is data
    that [json.Marshal] encodes. *)
Definition validateExpression (e : Expression) (path : string) : result unit :=
  _ ← at_path (path +:+ ".kind") (validatePlainIdentifier (xp_Kind e));
  _ ← at_path (path +:+ ".data") (Wire (xp_Data e));
  Ok ().

Definition validateFunctionRef (r : FunctionRef) (path : string) : result unit :=
  _ ← at_path (path +:+ ".name") (validatePlainIdentifier (fr_Name r));
  _ ← fail_if (bool_decide (fr_Version r = "")) (definitionError (path +:+ ".version") "function version is empty");
  _ ← at_path (path +:+ ".version") (validateUTF8 (fr_Version r));
  checkEach (λ i e, validateExpression e (index (path +:+ ".args") i)) 0 (fr_Args r).

Definition validateParam (path : string) (i : N) (p : ParamDefinition) (seen : gset string) : result (gset string) :=
  let paramPath := index path i in
  _ ← at_path (paramPath +:+ ".name") (validatePlainIdentifier (pd_Name p));
  _ ← fail_if (bool_decide (pd_Name p ∈ seen))
        (definitionError (paramPath +:+ ".name") ("duplicate parameter " +:+ quote (pd_Name p)));
  _ ← fail_if (Bool.eqb (present (pd_Expr p)) (present (pd_Location p)))
        (definitionError paramPath "parameter requires exactly one of expr and location");
  _ ← whenSome (pd_Expr p) (λ e, validateExpression e (paramPath +:+ ".expr"));
  _ ← whenSome (pd_Location p) (λ e, validateExpression e (paramPath +:+ ".location"));
  Ok ({[pd_Name p]} ∪ seen).

Definition validateParams (ps : list ParamDefinition) (path : string) : result unit :=
  _ ← forRange (validateParam path) 0 ps ∅; Ok ().

Definition validateRaise (r : RaiseDefinition) (path : string) : result unit :=
  _ ← fail_if (Bool.eqb (nonBlank (rd_Event r)) (present (rd_EventExpr r)))
        (definitionError path "raise requires exactly one of event and eventExpr");
  _ ← (if nonBlank (rd_Event r)
       then at_path (path +:+ ".event") (validatePlainIdentifier (rd_Event r)) else Ok ());
  _ ← whenSome (rd_EventExpr r) (λ e, validateExpression e (path +:+ ".eventExpr"));
  whenSome (rd_Data r) (λ e, validateExpression e (path +:+ ".data")).

Definition validateSend (s : SendDefinition) (path : string) : result unit :=
  _ ← fail_if (Bool.eqb (nonBlank (sn_Event s)) (present (sn_EventExpr s)))
        (definitionError path "send requires exactly one of event and eventExpr");
  _ ← (if nonBlank (sn_Event s)
       then at_path (path +:+ ".event") (validatePlainIdentifier (sn_Event s)) else Ok ());
  _ ← whenSome (sn_EventExpr s) (λ e, validateExpression e (path +:+ ".eventExpr"));
  _ ← fail_if (nonBlank (sn_Target s) && present (sn_TargetExpr s))
        (definitionError (path +:+ ".targetExpr") "send target and targetExpr are mutually exclusive");
  _ ← at_path (path +:+ ".target") (validateUTF8 (sn_Target s));
  _ ← whenSome (sn_TargetExpr s) (λ e, validateExpression e (path +:+ ".targetExpr"));
  _ ← fail_if (nonBlank (sn_Type s) && present (sn_TypeExpr s))
        (definitionError (path +:+ ".typeExpr") "send type and typeExpr are mutually exclusive");
  _ ← at_path (path +:+ ".type") (validateUTF8 (sn_Type s));
  _ ← whenSome (sn_TypeExpr s) (λ e, validateExpression e (path +:+ ".typeExpr"));
  _ ← fail_if (nonBlank (sn_ID s) && present (sn_IDLocation s))
        (definitionError (path +:+ ".idLocation") "send id and idLocation are mutually exclusive");
  _ ← (if nonBlank (sn_ID s) then at_path (path +:+ ".id") (validatePlainIdentifier (sn_ID s)) else Ok ());
  _ ← whenSome (sn_IDLocation s) (λ e, validateExpression e (path +:+ ".idLocation"));
  _ ← fail_if (nonBlank (sn_Delay s) && present (sn_DelayExpr s))
        (definitionError (path +:+ ".delayExpr") "send delay and delayExpr are mutually exclusive");
  _ ← at_path (path +:+ ".delay") (validateUTF8 (sn_Delay s));
  _ ← whenSome (sn_DelayExpr s) (λ e, validateExpression e (path +:+ ".delayExpr"));
  _ ← fail_if (nonEmpty (sn_Params s) && present (sn_Content s))
        (definitionError (path +:+ ".content") "send params and whole-payload content are mutually exclusive");
  _ ← validateParams (sn_Params s) (path +:+ ".params");
  whenSome (sn_Content s) (λ e, validateExpression e (path +:+ ".content")).

Definition validateCancel (x : CancelDefinition) (path : string) : result unit :=
  _ ← fail_if (Bool.eqb (nonBlank (cn_SendID x)) (present (cn_SendIDExpr x)))
        (definitionError path "cancel requires exactly one of sendID and sendIDExpr");
  _ ← (if nonBlank (cn_SendID x)
       then at_path (path +:+ ".sendID") (validatePlainIdentifier (cn_SendID x)) else Ok ());
  whenSome (cn_SendIDExpr x) (λ e, validateExpression e (path +:+ ".sendIDExpr")).

Definition validateLog (l : LogDefinition) (path : string) : result unit :=
  _ ← fail_if (nonBlank (lg_Label l) && present (lg_LabelExpr l))
        (definitionError (path +:+ ".labelExpr") "log label and labelExpr are mutually exclusive");
  _ ← at_path (path +:+ ".label") (validateUTF8 (lg_Label l));
  _ ← whenSome (lg_LabelExpr l) (λ e, validateExpression e (path +:+ ".labelExpr"));
  whenSome (lg_Expr l) (λ e, validateExpression e (path +:+ ".expr")).

Definition validateExtension (x : ExtensionDefinition) (path : string) : result unit :=
  _ ← fail_if (bool_decide (xt_Namespace x = ""))
        (definitionError (path +:+ ".extension.namespace") "extension namespace is empty");
  _ ← at_path (path +:+ ".extension.namespace") (validateUTF8 (xt_Namespace x));
  _ ← fail_if (bool_decide (xt_Name x = "")) (definitionError (path +:+ ".extension.name") "extension name is empty");
  _ ← at_path (path +:+ ".extension.name") (validateUTF8 (xt_Name x));
  _ ← at_path (path +:+ ".extension.data") (Wire (xt_Data x));
  Ok ().

(** How many of the ten payloads are present. *)
Definition payloadCount (e : Executable) : nat :=
  count_Some (ex_Raise e) + count_Some (ex_Send e) + count_Some (ex_Cancel e) + count_Some (ex_Log e)
  + count_Some (ex_Assign e) + count_Some (ex_Choose e) + count_Some (ex_ForEach e)
  + count_Some (ex_Script e) + count_Some (ex_Call e) + count_Some (ex_Extension e).

Definition mismatch {A} (path k : string) : result A :=
  Err (definitionError path (k +:+ " kind does not match union payload")).

Section blocks.
Variable validateExecutable : Executable → string → result unit.

Definition validateBlock (path : string) (i : N) (block : ExecutableBlock) : result unit :=
  _ ← fail_if (negb (nonEmpty block)) (definitionError (index path i) "executable block is empty");
  checkEach (λ j e, validateExecutable e (index (index path i) j)) 0 block.

Definition validateBlocks_with (blocks : list ExecutableBlock) (path : string) : result unit :=
  checkEach (validateBlock path) 0 blocks.
End blocks.

Definition forbiddenInFinalize (k : ExecutableKind) : bool :=
  bool_decide (k = ExecutableRaise) || bool_decide (k = ExecutableSend) || bool_decide (k = ExecutableCancel).

Definition validateForEachBindings (item index : Identifier) (path : string) : result unit :=
  _ ← at_path (path +:+ ".foreach.item") (validatePlainIdentifier item);
  if decide (index = "") then Ok () else
  _ ← at_path (path +:+ ".foreach.index") (validatePlainIdentifier index);
  fail_if (bool_decide (index = item))
    (definitionError (path +:+ ".foreach.index") "index and item bindings must differ").

Fixpoint validateExecutable (finalize : bool) (e : Executable) (path : string) {struct e} : result unit :=
  _ ← fail_if (negb (bool_decide (payloadCount e = 1)))
        (definitionError path ("executable union contains " +:+ itoa (N.of_nat (payloadCount e))
           +:+ " payloads; want exactly one"));
  _ ← fail_if (finalize && forbiddenInFinalize (ex_Kind e))
        (definitionError path (ex_Kind e +:+ " is not allowed in invoke finalize content"));
  let 'mkExecutable k raise send cancel log assign choose foreach script call extension := e in
  if decide (k = ExecutableRaise) then
    match raise with Some r => validateRaise r (path +:+ ".raise") | None => mismatch path "raise" end
  else if decide (k = ExecutableSend) then
    match send with Some s => validateSend s (path +:+ ".send") | None => mismatch path "send" end
  else if decide (k = ExecutableCancel) then
    match cancel with Some x => validateCancel x (path +:+ ".cancel") | None => mismatch path "cancel" end
  else if decide (k = ExecutableLog) then
    match log with Some l => validateLog l (path +:+ ".log") | None => mismatch path "log" end
  else if decide (k = ExecutableAssign) then
    match assign with
    | Some a =>
        _ ← validateExpression (as_Location a) (path +:+ ".assign.location");
        validateExpression (as_Expr a) (path +:+ ".assign.expr")
    | None => mismatch path "assign"
    end
  else if decide (k = ExecutableChoose) then
    match choose with
    | Some (mkChoose branches otherwise) =>
        _ ← fail_if (negb (nonEmpty branches))
              (definitionError (path +:+ ".choose.branches") "choose requires at least one branch");
        _ ← checkEach (λ i '(mkBranch cond actions),
              let branchPath := index (path +:+ ".choose.branches") i in
              _ ← validateExpression cond (branchPath +:+ ".condition");
              validateBlocks_with (validateExecutable finalize) actions (branchPath +:+ ".actions")) 0 branches;
        validateBlocks_with (validateExecutable finalize) otherwise (path +:+ ".choose.else")
    | None => mismatch path "choose"
    end
  else if decide (k = ExecutableForEach) then
    match foreach with
    | Some (mkForEach array item index actions) =>
        _ ← validateExpression array (path +:+ ".foreach.array");
        _ ← validateForEachBindings item index path;
        validateBlocks_with (validateExecutable finalize) actions (path +:+ ".foreach.actions")
    | None => mismatch path "foreach"
    end
  else if decide (k = ExecutableScript) then
    match script with Some s => validateExpression (sc_Expr s) (path +:+ ".script.expr") | None => mismatch path "script" end
  else if decide (k = ExecutableCall) then
    match call with Some x => validateFunctionRef (cl_Function x) (path +:+ ".call.function") | None => mismatch path "call" end
  else if decide (k = ExecutableExtension) then
    match extension with Some x => validateExtension x path | None => mismatch path "extension" end
  else Err (definitionError (path +:+ ".kind") ("unknown executable kind " +:+ quote k)).

Definition validateBlocks (blocks : list ExecutableBlock) (path : string) (finalize : bool) : result unit :=
  validateBlocks_with (validateExecutable finalize) blocks path.

Definition validateDoneData (d : DoneDataDefinition) (path : string) : result unit :=
  _ ← fail_if (nonEmpty (dn_Params d) && present (dn_Content d))
        (definitionError (path +:+ ".content") "done-data params and whole-payload content are mutually exclusive");
  _ ← validateParams (dn_Params d) (path +:+ ".params");
  whenSome (dn_Content d) (λ e, validateExpression e (path +:+ ".content")).

(** ** Data declarations and invocations *)

(** The duplicate-detection maps of [definitionValidator]. *)
Record seenIDs := mkSeen {
  invokeDefinitionIDs : gmap string string;
  invokeIDs : gmap string string;
  dataIDs : gmap string string
}.

Definition emptySeen : seenIDs := mkSeen ∅ ∅ ∅.

Definition validateDatum (path : string) (i : N) (d : DataDefinition) (seen : seenIDs) : result seenIDs :=
  let itemPath := index path i in
  _ ← at_path (itemPath +:+ ".id") (validatePlainIdentifier (da_ID d));
  _ ← match dataIDs seen !! da_ID d with
      | Some previous => Err (definitionError (itemPath +:+ ".id")
          ("duplicate data ID " +:+ quote (da_ID d) +:+ " (already declared at " +:+ previous +:+ ")"))
      | None => Ok ()
      end;
  let initializers :=
    ((if nonBlank (da_Source d) then 1 else 0) + count_Some (da_Expr d) + count_Some (da_Content d))%nat in
  _ ← fail_if (bool_decide (1 < initializers))
        (definitionError itemPath ("data declaration contains " +:+ itoa (N.of_nat initializers)
           +:+ " initializers; want at most one"));
  _ ← at_path (itemPath +:+ ".source") (validateUTF8 (da_Source d));
  _ ← whenSome (da_Expr d) (λ e, validateExpression e (itemPath +:+ ".expr"));
  _ ← whenSome (da_Content d) (λ e, validateExpression e (itemPath +:+ ".content"));
  Ok (mkSeen (invokeDefinitionIDs seen) (invokeIDs seen) (<[da_ID d := itemPath +:+ ".id"]> (dataIDs seen))).

Definition validateDataDefinitions (ds : list DataDefinition) (path : string) : seenIDs → result seenIDs :=
  forRange (validateDatum path) 0 ds.

(** The two ID checks of [validateInvoke]. *)
Definition registerInvokeIDs (iv : InvokeDefinition) (path : string) (owner : Identifier) (seen : seenIDs)
    : result seenIDs :=
  _ ← at_path (path +:+ ".definitionId") (validatePlainIdentifier (id_DefinitionID iv));
  _ ← match invokeDefinitionIDs seen !! id_DefinitionID iv with
      | Some previous => Err (definitionError (path +:+ ".definitionId")
          ("duplicate invoke definition ID " +:+ quote (id_DefinitionID iv)
             +:+ " (already declared at " +:+ previous +:+ ")"))
      | None => Ok ()
      end;
  let seen := mkSeen (<[id_DefinitionID iv := path +:+ ".definitionId"]> (invokeDefinitionIDs seen))
    (invokeIDs seen) (dataIDs seen) in
  _ ← fail_if (nonBlank (id_ID iv) && present (id_IDLocation iv))
        (definitionError (path +:+ ".idLocation") "invoke id and idLocation are mutually exclusive");
  if nonBlank (id_ID iv) then
    _ ← at_path (path +:+ ".id") (validatePlainIdentifier (id_ID iv));
    match invokeIDs seen !! id_ID iv with
    | Some previous => Err (definitionError (path +:+ ".id")
        ("duplicate invoke ID " +:+ quote (id_ID iv) +:+ " (already declared at " +:+ previous +:+ ")"))
    | None => Ok (mkSeen (invokeDefinitionIDs seen) (<[id_ID iv := "state " +:+ quote owner]> (invokeIDs seen))
                    (dataIDs seen))
    end
  else Ok seen.

Definition validateInvoke (iv : InvokeDefinition) (path : string) (owner : Identifier) (seen : seenIDs)
    : result seenIDs :=
  seen ← registerInvokeIDs iv path owner seen;
  _ ← whenSome (id_IDLocation iv) (λ e, validateExpression e (path +:+ ".idLocation"));
  _ ← fail_if (nonBlank (id_Type iv) && present (id_TypeExpr iv))
        (definitionError (path +:+ ".typeExpr") "invoke type and typeExpr are mutually exclusive");
  _ ← at_path (path +:+ ".type") (validateUTF8 (id_Type iv));
  _ ← whenSome (id_TypeExpr iv) (λ e, validateExpression e (path +:+ ".typeExpr"));
  _ ← fail_if (nonBlank (id_Src iv) && present (id_SrcExpr iv))
        (definitionError (path +:+ ".srcExpr") "invoke src and srcExpr are mutually exclusive");
  _ ← at_path (path +:+ ".src") (validateUTF8 (id_Src iv));
  _ ← whenSome (id_SrcExpr iv) (λ e, validateExpression e (path +:+ ".srcExpr"));
  _ ← fail_if (nonEmpty (id_Params iv) && present (id_Content iv))
        (definitionError (path +:+ ".content") "invoke params and whole-payload content are mutually exclusive");
  _ ← validateParams (id_Params iv) (path +:+ ".params");
  _ ← whenSome (id_Content iv) (λ e, validateExpression e (path +:+ ".content"));
  _ ← validateBlocks (id_Finalize iv) (path +:+ ".finalize") true;
  Ok seen.

(** ** The index of the states *)

Record definitionStateNode := mkNode {
  nd_state : StateDefinition;
  nd_parent : option nat;
  nd_path : string
}.

(** The nodes in the order [collectStates] creates them, and [byID]. *)
Record stateIndex := mkIndex { nodes : list definitionStateNode; byID : gmap string nat }.

Definition emptyIndex : stateIndex := mkIndex [] ∅.

Definition nodePath (v : stateIndex) (n : nat) : string :=
  match nodes v !! n with Some nd => nd_path nd | None => "" end.

Definition addNode (nd : definitionStateNode) (v : stateIndex) : stateIndex :=
  mkIndex (nodes v ++ [nd]) (<[sd_id (nd_state nd) := length (nodes v)]> (byID v)).

Fixpoint collectStates (s : StateDefinition) (parent : option nat) (path : string) (v : stateIndex)
    : result stateIndex :=
  _ ← at_path (path +:+ ".id") (validatePlainIdentifier (sd_id s));
  _ ← match byID v !! sd_id s with
      | Some previous => Err (definitionError (path +:+ ".id")
          ("duplicate state ID " +:+ quote (sd_id s) +:+ " (already declared at " +:+ nodePath v previous +:+ ".id)"))
      | None => Ok ()
      end;
  let node := length (nodes v) in
  forRange (λ i x v, collectStates x (Some node) (childPath path i) v) 0 (sd_Children s)
    (addNode (mkNode s parent path) v).

(** ** Target sets *)

Section targets.
Variable v : stateIndex.

Definition nodeState (n : nat) : option StateDefinition := nd_state <$> nodes v !! n.
Definition nodeParent (n : nat) : option nat := nodes v !! n ≫= nd_parent.
Definition nodeKind (n : nat) : option StateKind := nodeState n ≫= λ s, stateKindOf (sd_Kind s).
Definition nodeID (n : nat) : string := match nodeState n with Some s => sd_id s | None => "" end.

(** [for current := n.parent; current != nil; current = current.parent]; a
    parent is created before its children, so [S n] steps reach the root. *)
Fixpoint nodeAncestors_go (fuel n : nat) : list nat :=
  match fuel with
  | 0 => []
  | S fuel => match nodeParent n with Some p => p :: nodeAncestors_go fuel p | None => [] end
  end.
Definition nodeAncestors (n : nat) : list nat := nodeAncestors_go (S n) n.

Definition isDefinitionDescendant (candidate : nat) (ancestor : option nat) : bool :=
  match ancestor with Some a => bool_decide (a ∈ nodeAncestors candidate) | None => false end.

Definition leastCommonDefinitionAncestor (x y : nat) : option nat :=
  head (filter (λ a, a ∈ x :: nodeAncestors x) (y :: nodeAncestors y)).

Definition realDefinitionChildren (s : StateDefinition) : list nat :=
  filter (λ n, nodeKind n ≠ Some KindHistory) (omap (λ x, byID v !! sd_id x) (sd_Children s)).

Definition defaultTargets (s : StateDefinition) : list Identifier :=
  match sd_Initial s with Some t => td_Targets t | None => [] end.

Section visit.
Context {A : Type} (visit : A → gset nat → result (gset nat)).
Fixpoint visitAll (xs : list A) (atoms : gset nat) : result (gset nat) :=
  match xs with
  | [] => Ok atoms
  | x :: xs => atoms ← visit x atoms; visitAll xs atoms
  end.
End visit.

(** [visiting] holds the nodes of the current path.  Every level adds one, so
    when [length nodes] levels are used up all nodes are being visited. *)
Fixpoint collectDefaultAtoms (fuel : nat) (visiting : gset nat) (n : nat) (atoms : gset nat) : result (gset nat) :=
  let cycle := Err (Errorf ("default target cycle through state " +:+ quote (nodeID n))) in
  match fuel with
  | 0 => cycle
  | S fuel =>
      if decide (n ∈ visiting) then cycle else
      match nodeState n with
      | None => Ok atoms
      | Some s =>
          match stateKindOf (sd_Kind s) with
          | Some KindAtomic | Some KindFinal => Ok ({[n]} ∪ atoms)
          | Some KindCompound | Some KindHistory =>
              _ ← fail_if (negb (nonEmpty (defaultTargets s)))
                    (Errorf ("state " +:+ quote (sd_id s) +:+ " has no default target"));
              visitAll (λ id atoms,
                match byID v !! id with
                | Some x => collectDefaultAtoms fuel ({[n]} ∪ visiting) x atoms
                | None => Err (Errorf ("state " +:+ quote (sd_id s) +:+ " has unresolved default target " +:+ quote id))
                end) (defaultTargets s) atoms
          | Some KindParallel =>
              visitAll (collectDefaultAtoms fuel ({[n]} ∪ visiting)) (realDefinitionChildren s) atoms
          | None => Ok atoms
          end
      end
  end.

Definition defaultAtomsFuel : nat := length (nodes v).

(** One target of the list: the node it names. *)
Definition resolveTarget (path : string) (i : N) (id : Identifier) (acc : list nat * gset string)
    : result (list nat * gset string) :=
  let targetPath := index path i in
  _ ← at_path targetPath (validatePlainIdentifier id);
  _ ← fail_if (bool_decide (id ∈ acc.2))
        (definitionError targetPath ("target " +:+ quote id +:+ " occurs more than once"));
  match byID v !! id with
  | None => Err (definitionError targetPath ("target state " +:+ quote id +:+ " does not exist"))
  | Some n => Ok (acc.1 ++ [n], {[id]} ∪ acc.2)
  end.

(** [for i, left := range ns { for _, right := range ns[i+1:] { ... } }]. *)
Fixpoint checkPairs (f : nat → nat → result unit) (ns : list nat) : result unit :=
  match ns with
  | [] => Ok ()
  | x :: ns => _ ← checkEach (λ _ y, f x y) 0 ns; checkPairs f ns
  end.

Definition unrelated (path : string) (x y : nat) : result unit :=
  fail_if (isDefinitionDescendant x (Some y) || isDefinitionDescendant y (Some x))
    (definitionError path ("targets " +:+ quote (nodeID x) +:+ " and " +:+ quote (nodeID y)
       +:+ " have an ancestor/descendant relationship")).

Definition together (path : string) (x y : nat) : result unit :=
  fail_if (negb (bool_decide (leastCommonDefinitionAncestor x y ≫= nodeKind = Some KindParallel)))
    (definitionError path ("states " +:+ quote (nodeID x) +:+ " and " +:+ quote (nodeID y)
       +:+ " cannot be active together")).

(** The map [atoms] is ranged over in node order; the order of a Go map decides
    only which offending pair the error names. *)
Definition validateTargetSet (targets : list Identifier) (path : string) : result unit :=
  r ← forRange (resolveTarget path) 0 targets ([], ∅);
  let ns := r.1 in
  _ ← checkPairs (unrelated path) ns;
  if negb (nonEmpty ns) then Ok () else
  atoms ← at_path path (visitAll (λ n, collectDefaultAtoms defaultAtomsFuel ∅ n) ns ∅);
  _ ← fail_if (bool_decide (atoms = ∅)) (definitionError path "target does not expand to an atomic state");
  checkPairs (together path) (sort_asc atoms).

(** ** Transitions and states *)

Definition validateTransition (t : TransitionDefinition) (path : string) (defaultTransition : bool) : result unit :=
  _ ← fail_if (negb (bool_decide (td_Type t = TransitionExternal)) && negb (bool_decide (td_Type t = TransitionInternal)))
        (definitionError (path +:+ ".type") ("invalid transition type " +:+ quote (td_Type t)));
  _ ← fail_if (defaultTransition && (nonEmpty (td_Events t) || present (td_Condition t)))
        (definitionError path "default transition must be eventless and unconditional");
  _ ← fail_if (negb defaultTransition && negb (nonEmpty (td_Events t)) && negb (present (td_Condition t))
                 && negb (nonEmpty (td_Targets t)))
        (definitionError path "transition has no event, condition, or target");
  _ ← checkEach (λ i ev, at_path (index (path +:+ ".events") i) (validateEventDescriptor ev)) 0 (td_Events t);
  _ ← whenSome (td_Condition t) (λ e, validateExpression e (path +:+ ".condition"));
  _ ← validateBlocks (td_Actions t) (path +:+ ".actions") false;
  validateTargetSet (td_Targets t) (path +:+ ".targets").

(** [StateKind.String]. *)
Definition stateKindString (k : StateKind) : string :=
  match k with
  | KindAtomic => "atomic" | KindCompound => "compound" | KindParallel => "parallel"
  | KindFinal => "final" | KindHistory => "history"
  end.

(** The checks of [validateState] before the switch. *)
Definition validateStateHead (s : StateDefinition) (path : string) (isRoot : bool) : result unit :=
  _ ← fail_if (4 <? sd_Kind s)%N
        (definitionError (path +:+ ".kind") ("invalid state kind " +:+ itoa (sd_Kind s)));
  _ ← fail_if (isKind KindHistory s && (1 <? sd_History s)%N)
        (definitionError (path +:+ ".history") ("invalid history kind " +:+ itoa (sd_History s)));
  _ ← fail_if (negb (isKind KindHistory s) && negb (bool_decide (sd_History s = historyKindCode Shallow)))
        (definitionError (path +:+ ".history") "history kind is allowed only on history states");
  _ ← (if isRoot && (isKind KindCompound s || isKind KindParallel s) then
         _ ← fail_if (nonEmpty (sd_OnEntry s))
               (definitionError (path +:+ ".onEntry") "document root must not have entry content");
         _ ← fail_if (nonEmpty (sd_OnExit s))
               (definitionError (path +:+ ".onExit") "document root must not have exit content");
         fail_if (nonEmpty (sd_Invokes s))
           (definitionError (path +:+ ".invokes") "document root must not have invokes")
       else Ok ());
  _ ← fail_if (negb (isKind KindFinal s) && present (sd_DoneData s))
        (definitionError (path +:+ ".doneData") "done data is allowed only on final states");
  _ ← fail_if (isRoot && nonEmpty (sd_Data s))
        (definitionError (path +:+ ".data") "document-level data belongs in Definition.Data");
  fail_if ((isKind KindFinal s || isKind KindHistory s) && nonEmpty (sd_Data s))
    (definitionError (path +:+ ".data")
       (stateKindString (if isKind KindFinal s then KindFinal else KindHistory)
          +:+ " state must not contain data declarations")).

Definition forbidChild (n : nat) : result unit :=
  fail_if (bool_decide (nodeKind n = Some KindFinal))
    (definitionError (nodePath v n +:+ ".kind") "parallel state must not contain a final child").

(** The switch of [validateState]. *)
Definition validateStateKind (n : nat) (s : StateDefinition) (path : string) : result unit :=
  match stateKindOf (sd_Kind s) with
  | Some KindAtomic =>
      _ ← fail_if (present (sd_Initial s))
            (definitionError (path +:+ ".initial") "atomic state must not have a default transition");
      fail_if (nonEmpty (sd_Children s)) (definitionError (path +:+ ".children") "atomic state must not have children")
  | Some KindCompound =>
      _ ← fail_if (negb (nonEmpty (realDefinitionChildren s)))
            (definitionError (path +:+ ".children") "compound state has no children");
      fail_if (negb (nonEmpty (defaultTargets s)))
        (definitionError (path +:+ ".initial") "compound state has no initial target")
  | Some KindParallel =>
      _ ← fail_if (present (sd_Initial s))
            (definitionError (path +:+ ".initial") "parallel state must not have a default transition");
      _ ← fail_if (negb (nonEmpty (realDefinitionChildren s)))
            (definitionError (path +:+ ".children") "parallel state has no children");
      checkEach (λ _, forbidChild) 0 (realDefinitionChildren s)
  | Some KindFinal =>
      _ ← fail_if (present (sd_Initial s))
            (definitionError (path +:+ ".initial") "final state must not have a default transition");
      _ ← fail_if (nonEmpty (sd_Children s))
            (definitionError (path +:+ ".children") "final state must not have children");
      _ ← fail_if (nonEmpty (sd_Transitions s))
            (definitionError (path +:+ ".transitions") "final state must not have transitions");
      fail_if (nonEmpty (sd_Invokes s))
        (definitionError (path +:+ ".invokes") "final state must not have invokes")
  | Some KindHistory =>
      _ ← fail_if (negb (present (nodeParent n))) (definitionError path "history state must have a parent");
      _ ← fail_if (negb (nonEmpty (defaultTargets s)))
            (definitionError (path +:+ ".initial") "history state has no default target");
      fail_if (nonEmpty (sd_Children s) || nonEmpty (sd_OnEntry s) || nonEmpty (sd_OnExit s)
               || nonEmpty (sd_Transitions s) || nonEmpty (sd_Invokes s) || present (sd_DoneData s))
        (definitionError path "history state contains ordinary state content")
  | None => Ok ()
  end.

(** One target of a default transition, of the state [s] with node [n]. *)
Definition validateDefaultTarget (n : nat) (s : StateDefinition) (path : string) (i : N) (id : Identifier) : result unit :=
  let targetPath := index (path +:+ ".initial.targets") i in
  let target := byID v !! id in
  _ ← fail_if (isKind KindCompound s
               && match target with Some x => negb (isDefinitionDescendant x (Some n)) | None => true end)
        (definitionError targetPath
           ("initial target " +:+ quote id +:+ " is not a descendant of state " +:+ quote (sd_id s)));
  match target with
  | Some x =>
      if isKind KindHistory s then
        _ ← fail_if (negb (isDefinitionDescendant x (nodeParent n)))
              (definitionError targetPath ("history default target " +:+ quote id +:+ " is outside parent "
                 +:+ quote (match nodeParent n with Some p => nodeID p | None => "" end)));
        fail_if (bool_decide (sd_History s = historyKindCode Shallow) && negb (bool_decide (nodeParent x = nodeParent n)))
          (definitionError targetPath ("shallow history target " +:+ quote id +:+ " is not an immediate child"))
      else Ok ()
  | None => Ok ()
  end.

Definition validateInitial (n : nat) (s : StateDefinition) (path : string) (isRoot : bool) : result unit :=
  whenSome (sd_Initial s) (λ t,
    _ ← validateTransition t (path +:+ ".initial") true;
    _ ← fail_if (isRoot && (nonEmpty (td_Actions t) || bool_decide (td_Type t = TransitionInternal)))
          (definitionError (path +:+ ".initial") "document root initial transition may only specify targets");
    checkEach (validateDefaultTarget n s path) 0 (td_Targets t)).

(** Everything [validateState] checks of the node [n], whose state is [s],
    before its children. *)
Definition validateStateSelf (n : nat) (s : StateDefinition) (isRoot : bool) (seen : seenIDs) : result seenIDs :=
  let path := nodePath v n in
  _ ← validateStateHead s path isRoot;
  seen ← (if isRoot then Ok seen else validateDataDefinitions (sd_Data s) (path +:+ ".data") seen);
  _ ← validateStateKind n s path;
  _ ← validateInitial n s path isRoot;
  _ ← validateBlocks (sd_OnEntry s) (path +:+ ".onEntry") false;
  _ ← validateBlocks (sd_OnExit s) (path +:+ ".onExit") false;
  _ ← checkEach (λ i t, validateTransition t (index (path +:+ ".transitions") i) false) 0 (sd_Transitions s);
  seen ← forRange (λ i iv seen, validateInvoke iv (index (path +:+ ".invokes") i) (sd_id s) seen) 0 (sd_Invokes s) seen;
  _ ← whenSome (sd_DoneData s) (λ d, validateDoneData d (path +:+ ".doneData"));
  Ok seen.

(** The node of a child is looked up by its ID; [collectStates] put the child
    there, so the lookup cannot return nil. *)
Fixpoint validateState (n : nat) (s : StateDefinition) (isRoot : bool) (seen : seenIDs) {struct s} : result seenIDs :=
  seen ← validateStateSelf n s isRoot seen;
  forRange (λ _ x seen,
    match byID v !! sd_id x with
    | Some k => validateState k x false seen
    | None => Err (Errorf "runtime error: invalid memory address or nil pointer dereference")
    end) 0 (sd_Children s) seen.

End targets.

Definition validateHeader (d : ChartDefinition) : result unit :=
  _ ← at_path "definition.id" (validatePlainIdentifier (df_ID d));
  _ ← at_path "definition.name" (validateUTF8 (df_Name d));
  _ ← at_path "definition.datamodel" (validatePlainIdentifier (df_Datamodel d));
  _ ← at_path "definition.revisionSalt" (validateUTF8 (df_RevisionSalt d));
  fail_if (nonBlank (df_DataBinding d) && negb (bool_decide (df_DataBinding d = BindingEarly))
           && negb (bool_decide (df_DataBinding d = BindingLate)))
    (definitionError "definition.dataBinding" ("invalid data binding " +:+ quote (df_DataBinding d))).

(** The normalization steps between the header and the index. *)
Definition normalizeRoot (r : StateDefinition) : result StateDefinition :=
  st ← assignGeneratedStateIDs r "root" (collectReservedStateIDs r ∅, 0%N);
  let r := st.1 in
  let r := (assignGeneratedInvokeDefinitionIDs r (collectReservedInvokeDefinitionIDs r ∅, 0%N)).1 in
  Ok (normalizeTransitionTypes (normalizeImplicitInitials r)).

Definition normalizeDefinition (input : ChartDefinition) : result ChartDefinition :=
  let d := cloneDefinition input in
  _ ← validateHeader d;
  let binding := if decide (df_DataBinding d = "") then BindingEarly else df_DataBinding d in
  seen ← validateDataDefinitions (df_Data d) "definition.data" emptySeen;
  r ← normalizeRoot (df_Root d);
  v ← collectStates r None "root" emptyIndex;
  _ ← validateState v 0 r true seen;
  Ok (mkDefinition (df_ID d) (df_Name d) (df_Datamodel d) (df_RevisionSalt d) binding (df_Data d) r).

Definition Validate (d : ChartDefinition) : result unit := _ ← normalizeDefinition d; Ok ().
