(* ===== verification/Layout.v ===== *)
(** * Pre-order layout of a state tree

    Both [collectStates] and [compileDefinitionState] walk the tree of a
    definition in pre-order and append one entry per state to an array.
    [layout] is that array, stated without the walk's other work: each state
    with the index of its parent.  [starts] are the indices of the children of
    one state.  The lemmas relate the two. *)

From S2P Require Import Prelude Identifier Values Events Datamodel Chart Definitions.
From stdpp Require Import options.

Fixpoint ssize (s : StateDefinition) : nat := S (list_sum (map ssize (sd_Children s))).

(** The IDs of a state tree in pre-order. *)
Fixpoint preorder (s : StateDefinition) : list Identifier := sd_id s :: concat (map preorder (sd_Children s)).

Section forest.
Variable layout : nat → StateDefinition → list (StateDefinition * option nat).
Fixpoint forest_with (b : nat) (xs : list StateDefinition) : list (StateDefinition * option nat) :=
  match xs with
  | [] => []
  | x :: xs => layout b x ++ forest_with (b + ssize x) xs
  end.
End forest.

(** The states of [s] in document order, [s] itself at index [i]. *)
Fixpoint layout (par : option nat) (i : nat) (s : StateDefinition) : list (StateDefinition * option nat) :=
  (s, par) :: forest_with (λ b x, layout (Some i) b x) (S i) (sd_Children s).

Definition forest (p b : nat) (xs : list StateDefinition) : list (StateDefinition * option nat) :=
  forest_with (λ b x, layout (Some p) b x) b xs.

Fixpoint starts (b : nat) (xs : list StateDefinition) : list nat :=
  match xs with
  | [] => []
  | x :: xs => b :: starts (b + ssize x) xs
  end.

#[global] Arguments forest : simpl never.
#[global] Arguments layout : simpl never.
#[global] Arguments ssize : simpl never.

Lemma layout_unfold par i s : layout par i s = (s, par) :: forest i (S i) (sd_Children s).
Proof. by destruct s. Qed.

Lemma forest_cons p b x xs : forest p b (x :: xs) = layout (Some p) b x ++ forest p (b + ssize x) xs.
Proof. done. Qed.

Lemma ssize_unfold s : ssize s = S (list_sum (map ssize (sd_Children s))).
Proof. by destruct s. Qed.

Lemma length_layout par i s : length (layout par i s) = ssize s.
Proof.
  revert par i. induction s as [s IH] using StateDefinition_nested_ind. intros par i.
  rewrite layout_unfold, ssize_unfold. simpl. f_equal. generalize (S i) as b.
  induction IH as [|x xs Hx _ IHxs]; intros b; [done|].
  rewrite forest_cons, length_app, Hx, IHxs. done.
Qed.

Lemma length_forest p b xs : length (forest p b xs) = list_sum (map ssize xs).
Proof.
  revert b. induction xs as [|x xs IH]; intros b; [done|].
  rewrite forest_cons, length_app, length_layout, IH. done.
Qed.

(** Splitting a forest at an index. *)
Lemma forest_lookup p b x xs k e :
  forest p b (x :: xs) !! k = Some e ↔
    (k < ssize x ∧ layout (Some p) b x !! k = Some e)
    ∨ (ssize x ≤ k ∧ forest p (b + ssize x) xs !! (k - ssize x) = Some e).
Proof.
  rewrite forest_cons, lookup_app_Some, length_layout. split.
  - intros [H|?]; [|by right]. left. split; [|done]. apply lookup_lt_Some in H. by rewrite length_layout in H.
  - intros [[_ ?]|?]; [by left | by right].
Qed.

Lemma starts_bounds b xs j : j ∈ starts b xs → b ≤ j < b + list_sum (map ssize xs).
Proof.
  revert b. induction xs as [|x xs IH]; intros b; simpl; [by intros ?%elem_of_nil|].
  rewrite elem_of_cons. pose proof (ssize_unfold x). intros [->|Hj%IH]; lia.
Qed.

Lemma starts_sorted b xs : StronglySorted (<) (starts b xs).
Proof.
  revert b. induction xs as [|x xs IH]; intros b; simpl; constructor; [done|].
  apply Forall_forall. intros j Hj%starts_bounds. rewrite ssize_unfold in Hj. lia.
Qed.

Lemma starts_NoDup b xs : NoDup (starts b xs).
Proof.
  revert b. induction xs as [|x xs IH]; intros b; simpl; constructor; [|done].
  intros Hj%starts_bounds. rewrite ssize_unfold in Hj. lia.
Qed.

Lemma length_starts b xs : length (starts b xs) = length xs.
Proof. revert b. induction xs; intros b; simpl; auto. Qed.

(** ** Parents *)

(** What is known of the parent of entry [k] of the tree that starts at [i]:
    the entry is the root, or its parent lies in the tree before it. *)
Lemma layout_parent par i s k x q :
  layout par i s !! k = Some (x, q) →
  (k = 0 ∧ x = s ∧ q = par) ∨ (0 < k ∧ ∃ p, q = Some p ∧ i ≤ p < i + k).
Proof.
  revert par i k x q. induction s as [s IH] using StateDefinition_nested_ind. intros par i [|k] x q.
  { rewrite layout_unfold. intros [= <- <-]. by left. }
  rewrite layout_unfold. simpl. intros H. right. split; [lia|].
  assert (∃ p, q = Some p ∧ (p = i ∨ S i ≤ p < S i + k)) as (p & -> & ?); [|exists p; split; [done | lia]].
  revert k H. generalize (S i) as b. induction IH as [|y ys Hy _ IHys]; intros b k; [done|].
  rewrite forest_lookup. intros [[Hk H]|[Hk H]].
  - apply Hy in H as [(-> & -> & ->)|(Hk' & p & -> & ?)]; [by eauto|]. exists p. split; [done | lia].
  - apply IHys in H as (p & -> & [->|?]); [by eauto|]. exists p. split; [done | lia].
Qed.

Lemma forest_parent p b xs k x q :
  forest p b xs !! k = Some (x, q) → ∃ p', q = Some p' ∧ (p' = p ∨ b ≤ p' < b + k).
Proof.
  revert b k. induction xs as [|y ys IH]; intros b k; [done|]. rewrite forest_lookup. intros [[Hk H]|[Hk H]].
  - apply layout_parent in H as [(-> & -> & ->)|(Hk' & p' & -> & ?)]; [by eauto|]. exists p'. split; [done | lia].
  - apply IH in H as (p' & -> & [->|?]); [by eauto|]. exists p'. split; [done | lia].
Qed.

(** The tree of an entry lies inside the array. *)
Lemma layout_size par i s k x q : layout par i s !! k = Some (x, q) → k + ssize x ≤ ssize s.
Proof.
  revert par i k x q. induction s as [s IH] using StateDefinition_nested_ind. intros par i [|k] x q.
  { rewrite layout_unfold. intros [= <- <-]. lia. }
  rewrite layout_unfold, (ssize_unfold s). simpl. intros H. apply le_n_S. revert k H. generalize (S i) as b.
  induction IH as [|y ys Hy _ IHys]; intros b k; [done|]. rewrite forest_lookup. simpl. intros [[Hk H]|[Hk H]].
  - apply Hy in H. lia.
  - apply IHys in H. lia.
Qed.

(** ** Children *)

(** The [m]-th tree of a forest starts at its start. *)
Lemma forest_start p b xs m x :
  xs !! m = Some x → ∃ j, starts b xs !! m = Some j ∧ b ≤ j ∧ forest p b xs !! (j - b) = Some (x, Some p).
Proof.
  revert b m. induction xs as [|y ys IH]; intros b m; [done|]. destruct m as [|m]; simpl.
  - intros [= ->]. exists b. split_and!; [done | lia|]. rewrite Nat.sub_diag, forest_cons, layout_unfold. done.
  - intros H. destruct (IH (b + ssize y) m H) as (j & Hj & Hle & Hf). exists j. split_and!; [done | lia|].
    apply forest_lookup. right. split; [lia|]. by replace (j - b - ssize y) with (j - (b + ssize y)) by lia.
Qed.

Lemma forest_top p b xs j :
  p < b → (∃ y, forest p b xs !! j = Some (y, Some p)) ↔ b + j ∈ starts b xs.
Proof.
  intros Hp. revert b Hp j. induction xs as [|x xs IH]; intros b Hp j; simpl.
  { split; [by intros (y & ?) | by intros ?%elem_of_nil]. }
  rewrite elem_of_cons. assert (p < b + ssize x) as Hp' by lia. split.
  - intros (y & [[Hj H]|[Hj H]]%forest_lookup).
    + apply layout_parent in H as [(-> & _ & _)|(? & q & ? & ?)]; [left; lia|]. simplify_eq. lia.
    + right. replace (b + j) with (b + ssize x + (j - ssize x)) by lia. apply IH; eauto.
  - intros [Hj|Hj].
    + assert (j = 0) as -> by lia. exists x. rewrite forest_cons, layout_unfold. done.
    + pose proof (starts_bounds _ _ _ Hj).
      replace (b + j) with (b + ssize x + (j - ssize x)) in Hj by lia. apply IH in Hj as (y & Hy); [|done].
      exists y. apply forest_lookup. right. split; [lia | done].
Qed.

(** Inside the tree that starts at [i], the entries whose parent is entry [k]
    are exactly the starts of the children of the state there. *)
Lemma layout_children s par i k x q j :
  (∀ p, par = Some p → p < i) →
  layout par i s !! k = Some (x, q) →
  (∃ y, layout par i s !! j = Some (y, Some (i + k))) ↔ i + j ∈ starts (S (i + k)) (sd_Children x).
Proof.
  revert par i k x q j. induction s as [s IH] using StateDefinition_nested_ind. intros par i k x q j Hpar.
  rewrite layout_unfold. destruct k as [|k]; simpl.
  { intros [= -> ->]. rewrite Nat.add_0_r. destruct j as [|j]; simpl.
    - split; [intros (y & [= -> ->]); specialize (Hpar i eq_refl); lia|]. intros ?%starts_bounds. lia.
    - rewrite <- Nat.add_succ_comm. apply forest_top. lia. }
  intros Hk. destruct j as [|j]; simpl.
  { split; [intros (y & [= -> ->]); specialize (Hpar _ eq_refl); lia|]. intros ?%starts_bounds. lia. }
  rewrite <- !Nat.add_succ_comm. revert k j Hk. assert (i < S i) as Hlt by lia. revert Hlt.
  generalize (S i) as b. clear Hpar par. induction IH as [|y ys Hy _ IHys]; intros b Hlt k j; [done|].
  intros [[Hk H]|[Hk H]]%forest_lookup.
  - pose proof (layout_size _ _ _ _ _ _ H) as Hsz.
    rewrite <- (Hy (Some i) b k x q j) by (done || intros ? [= <-]; done). split.
    + intros (z & [[Hj Hz]|[Hj Hz]]%forest_lookup); [by eauto|].
      apply forest_parent in Hz as (p' & [= <-] & ?). lia.
    + intros (z & Hz). exists z. apply forest_lookup. left. split; [|done].
      apply lookup_lt_Some in Hz. by rewrite length_layout in Hz.
  - assert (i < b + ssize y) as Hlt' by lia.
    replace (b + k) with (b + ssize y + (k - ssize y)) by lia. split.
    + intros (z & [[Hj Hz]|[Hj Hz]]%forest_lookup).
      * apply layout_parent in Hz as [(-> & _ & [= ?])|(? & p' & [= <-] & ?)]; lia.
      * replace (b + j) with (b + ssize y + (j - ssize y)) by lia. eapply IHys; [done | exact H|]. eauto.
    + intros Hj. pose proof (starts_bounds _ _ _ Hj).
      replace (b + j) with (b + ssize y + (j - ssize y)) in Hj by lia.
      eapply (IHys (b + ssize y) Hlt' (k - ssize y)) in Hj as (z & Hz); [|exact H].
      exists z. apply forest_lookup. right. split; [lia | done].
Qed.

(** The [m]-th child of entry [k], found at its start. *)
Lemma layout_child s par i k x q m y :
  layout par i s !! k = Some (x, q) → sd_Children x !! m = Some y →
  ∃ j, starts (S (i + k)) (sd_Children x) !! m = Some j ∧ i ≤ j ∧ layout par i s !! (j - i) = Some (y, Some (i + k)).
Proof.
  revert par i k x q. induction s as [s IH] using StateDefinition_nested_ind. intros par i k x q.
  rewrite layout_unfold. destruct k as [|k]; simpl.
  { intros [= -> ->] Hm. rewrite Nat.add_0_r. destruct (forest_start i (S i) _ _ _ Hm) as (j & Hj & Hle & Hf).
    exists j. split_and!; [done | lia|]. destruct (j - i) as [|d] eqn:E; [lia|]. simpl. by replace d with (j - S i) by lia. }
  intros Hk Hm. rewrite <- !Nat.add_succ_comm.
  assert (∃ j, starts (S (S i + k)) (sd_Children x) !! m = Some j ∧ S i ≤ j
          ∧ forest i (S i) (sd_Children s) !! (j - S i) = Some (y, Some (S i + k))) as (j & Hj & Hle & Hf).
  2: { exists j. split_and!; [done | lia|]. destruct (j - i) as [|d] eqn:E; [lia|]. simpl. by replace d with (j - S i) by lia. }
  revert k Hk. generalize (S i) as b. induction IH as [|z zs Hz _ IHzs]; intros b k; [done|].
  intros [[Hk H]|[Hk H]]%forest_lookup.
  - destruct (Hz _ _ _ _ _ H Hm) as (j & Hj & Hle & Hl). exists j. split_and!; [done | lia|].
    apply forest_lookup. left. split; [|done]. apply lookup_lt_Some in Hl. by rewrite length_layout in Hl.
  - destruct (IHzs _ _ H) as (j & Hj & Hle & Hl). replace (b + ssize z + (k - ssize z)) with (b + k) in * by lia.
    exists j. split_and!; [done | lia|]. apply forest_lookup. right. split; [lia|].
    by replace (j - b - ssize z) with (j - (b + ssize z)) by lia.
Qed.
