(* ===== verification/Compile.v ===== *)
(** * The chart compiler (compile.go, chart.go, definition_canonical.go, revision.go)

    [Compile] normalizes a definition, asks the datamodel to compile its
    expressions, and lowers the state tree to the document-order array that the
    interpreter runs on.  The datamodel is a parameter: its [ResolveExpression],
    [ResolveFunction] and [ResolveDataLocation] return the handles the
    interpreter passes back to it.  [time.ParseDuration], [json.Marshal] and
    SHA-256 are parameters too.  A nil pointer dereference, which the validator
    rules out, is the error [nilDereference]. *)

From S2P Require Import Prelude Identifier Values Events Datamodel Chart Definitions Validate.
From stdpp Require Import options.

Definition nilDereference : error := Errorf "runtime error: invalid memory address or nil pointer dereference".

(** ** Revision material *)

(** [binary.BigEndian] of [n] in [k] bytes. *)
Fixpoint bigEndian (k : nat) (n : N) : string :=
  match k with
  | 0 => ""
  | S k => String (Ascii.ascii_of_N ((n / 256 ^ N.of_nat k) mod 256)) (bigEndian k n)
  end.

Definition zeroByte : string := String Ascii.zero "".
Definition DefinitionCanonicalMagic : string := "statecharts-definition" +:+ zeroByte.
Definition DefinitionCanonicalVersion : N := 2.
Definition RevisionEnvelopeMagic : string := "statecharts-revision" +:+ zeroByte.
Definition RevisionEnvelopeVersion : N := 1.

Definition revisionField (value : string) : string :=
  bigEndian 8 (N.of_nat (String.length value)) +:+ value.

(** The bytes that [deriveRevisionFromCanonical] writes to the digest. *)
Definition revisionMaterial (canonical datamodel fingerprint : string) : string :=
  RevisionEnvelopeMagic +:+ bigEndian 4 RevisionEnvelopeVersion
  +:+ revisionField canonical +:+ revisionField datamodel +:+ revisionField fingerprint.

(** ** The datamodel's compiler *)

Section compile.
Context `{DM : DatamodelSession}.

Record DatamodelProgram := mkProgram {
  Fingerprint : string;
  ResolveExpression : Expression → result CompiledExpression;
  ResolveFunction : FunctionRef → result CompiledExpression;
  ResolveDataLocation : Identifier → result CompiledExpression
}.

(** A nil program is [None]. *)
Record Datamodel := mkDatamodel {
  model_Name : Identifier;
  model_Compile : ChartDefinition → result (option DatamodelProgram)
}.

Variable parseDuration : string → result Z.
Variable p : DatamodelProgram.

(** ** Executable content *)

Definition resolveExpr (e : option Expression) : result (option CompiledExpression) :=
  match e with Some e => Some <$> ResolveExpression p e | None => Ok None end.

(** The closure [add] of [compileOperation]. *)
Definition add (path : string) (e : option Expression) (field : string) : result (option CompiledExpression) :=
  at_path (path +:+ field) (resolveExpr e).

Definition compileParam (path : string) (i : N) (q : ParamDefinition) : result compiledParam :=
  match pd_Expr q, pd_Location q with
  | Some e, _ => h ← at_path (index (path +:+ ".params") i +:+ ".expr") (ResolveExpression p e); Ok (mkParam (pd_Name q) h)
  | None, Some e => h ← at_path (index (path +:+ ".params") i +:+ ".location") (ResolveExpression p e); Ok (mkParam (pd_Name q) h)
  | None, None => Err nilDereference
  end.

Section collect.
Context {A B : Type} (f : N → A → result B).
(** [for i, x := range xs { y, err := f(i, x); if err != nil { return nil, err }; r = append(r, y) }]. *)
Fixpoint collectEach (i : N) (xs : list A) : result (list B) :=
  match xs with
  | [] => Ok []
  | x :: xs => y ← f i x; ys ← collectEach (i + 1) xs; Ok (y :: ys)
  end.
End collect.

Definition compilePayload (ps : list ParamDefinition) (content : option Expression) (path : string) : result compiledPayload :=
  match content with
  | Some e => h ← at_path (path +:+ ".content") (ResolveExpression p e); Ok (mkPayload [] (Some h))
  | None => qs ← collectEach (compileParam path) 0 ps; Ok (mkPayload qs None)
  end.

Definition compileSend (s : SendDefinition) (path : string) : result compiledOperation :=
  eventExpr ← add path (sn_EventExpr s) ".send.eventExpr";
  targetExpr ← add path (sn_TargetExpr s) ".send.targetExpr";
  typeExpr ← add path (sn_TypeExpr s) ".send.typeExpr";
  idLocation ← add path (sn_IDLocation s) ".send.idLocation";
  delayExpr ← add path (sn_DelayExpr s) ".send.delayExpr";
  delay ← (if nonBlank (sn_Delay s) then
             match parseDuration (sn_Delay s) with
             | Ok d => Ok d
             | Err e => Err (definitionError (path +:+ ".send.delay")
                 ("invalid delay " +:+ quote (sn_Delay s) +:+ ": " +:+ msg e))
             end
           else Ok 0%Z);
  payload ← compilePayload (sn_Params s) (sn_Content s) (path +:+ ".send");
  Ok (OpSend (sn_Event s) (sn_Target s) (sn_Type s) (sn_ID s)
        eventExpr targetExpr typeExpr idLocation delayExpr payload delay).

Section compileBlocks.
Variable compileOperation : Executable → string → result compiledOperation.
Definition compileBlocks_with (blocks : list ExecutableBlock) (path : string) : result (list actionBlock) :=
  collectEach (λ i block, collectEach (λ j e, compileOperation e (index (index path i) j)) 0 block) 0 blocks.
End compileBlocks.

Definition orNil {A B} (o : option A) (f : A → result B) : result B :=
  match o with Some a => f a | None => Err nilDereference end.

Fixpoint compileOperation (e : Executable) (path : string) {struct e} : result compiledOperation :=
  let 'mkExecutable k raise send cancel log assign choose foreach script call extension := e in
  if decide (k = ExecutableScript) then
    orNil script (λ s, OpScript <$> at_path (path +:+ ".script.expr") (ResolveExpression p (sc_Expr s)))
  else if decide (k = ExecutableCall) then
    orNil call (λ x, OpCall <$> at_path (path +:+ ".call.function") (ResolveFunction p (cl_Function x)))
  else if decide (k = ExecutableRaise) then
    orNil raise (λ r,
      eventExpr ← add path (rd_EventExpr r) ".raise.eventExpr";
      data ← add path (rd_Data r) ".raise.data";
      Ok (OpRaise (rd_Event r) eventExpr data))
  else if decide (k = ExecutableCancel) then
    orNil cancel (λ x,
      sendIDExpr ← add path (cn_SendIDExpr x) ".cancel.sendIDExpr";
      Ok (OpCancel (cn_SendID x) sendIDExpr))
  else if decide (k = ExecutableLog) then
    orNil log (λ l,
      labelExpr ← add path (lg_LabelExpr l) ".log.labelExpr";
      expr ← add path (lg_Expr l) ".log.expr";
      Ok (OpLog (lg_Label l) labelExpr expr))
  else if decide (k = ExecutableAssign) then
    orNil assign (λ a,
      location ← at_path (path +:+ ".assign.location") (ResolveExpression p (as_Location a));
      expr ← at_path (path +:+ ".assign.expr") (ResolveExpression p (as_Expr a));
      Ok (OpAssign location expr))
  else if decide (k = ExecutableChoose) then
    match choose with
    | Some (mkChoose branches otherwise) =>
        bs ← collectEach (λ i '(mkBranch cond actions),
               let branchPath := index (path +:+ ".choose.branches") i in
               h ← at_path (branchPath +:+ ".condition") (ResolveExpression p cond);
               x ← compileBlocks_with compileOperation actions (branchPath +:+ ".actions");
               Ok (h, x)) 0 branches;
        x ← compileBlocks_with compileOperation otherwise (path +:+ ".choose.else");
        Ok (OpChoose bs x)
    | None => Err nilDereference
    end
  else if decide (k = ExecutableForEach) then
    match foreach with
    | Some (mkForEach array item index actions) =>
        h ← at_path (path +:+ ".foreach.array") (ResolveExpression p array);
        itemLocation ← at_path (path +:+ ".foreach.item") (ResolveDataLocation p item);
        indexLocation ← (if decide (index = "") then Ok None
                         else Some <$> at_path (path +:+ ".foreach.index") (ResolveDataLocation p index));
        x ← compileBlocks_with compileOperation actions (path +:+ ".foreach.actions");
        Ok (OpForEach h (mkBindings itemLocation indexLocation) x)
    | None => Err nilDereference
    end
  else if decide (k = ExecutableSend) then orNil send (λ s, compileSend s path)
  else if decide (k = ExecutableExtension) then
    orNil extension (λ x, Err (definitionError (path +:+ ".extension")
      ("unhandled extension " +:+ quote (xt_Namespace x) +:+ ":" +:+ quote (xt_Name x))))
  else Err (definitionError (path +:+ ".kind") ("unsupported executable kind " +:+ quote k)).

Definition compileBlocks : list ExecutableBlock → string → result (list actionBlock) :=
  compileBlocks_with compileOperation.

(** ** Data, transitions, invocations *)

Definition compileDatum (path : string) (i : N) (d : DataDefinition) : result compiledData :=
  let itemPath := index path i in
  _ ← fail_if (nonBlank (da_Source d))
        (definitionError (itemPath +:+ ".source") "data sources are not supported by the compiled datamodel contract");
  location ← at_path (itemPath +:+ ".id") (ResolveDataLocation p (da_ID d));
  initializer ← match da_Expr d, da_Content d with
    | Some e, _ => Some <$> at_path (itemPath +:+ ".expr") (ResolveExpression p e)
    | None, Some e => Some <$> at_path (itemPath +:+ ".content") (ResolveExpression p e)
    | None, None => Ok None
    end;
  Ok (mkData location initializer).

Definition compileData (ds : list DataDefinition) (path : string) : result (list compiledData) :=
  collectEach (compileDatum path) 0 ds.

Definition compileDefinitionTransition (t : TransitionDefinition) (source : state_ref) (definitionIndex : Z)
    (path : string) : result compiledTransition :=
  condition ← at_path (path +:+ ".condition") (resolveExpr (td_Condition t));
  actions ← compileBlocks (td_Actions t) (path +:+ ".actions");
  Ok (mkTransition (td_Events t) (td_Targets t) condition actions
        (bool_decide (td_Type t = TransitionInternal)) source definitionIndex).

Definition compileDefinitionInvoke (iv : InvokeDefinition) (owner : state_ref) (path : string) : result compiledInvoke :=
  idLocation ← at_path (path +:+ ".idLocation") (resolveExpr (id_IDLocation iv));
  typeExpr ← at_path (path +:+ ".typeExpr") (resolveExpr (id_TypeExpr iv));
  sourceExpr ← at_path (path +:+ ".srcExpr") (resolveExpr (id_SrcExpr iv));
  payload ← compilePayload (id_Params iv) (id_Content iv) path;
  finalize ← compileBlocks (id_Finalize iv) (path +:+ ".finalize");
  Ok (mkInvoke (id_DefinitionID iv) owner (id_ID iv) (canonicalInvokeType (id_Type iv)) typeExpr
        (id_Src iv) sourceExpr payload idLocation finalize (id_AutoForward iv)).

(** ** States *)

(** The parts of the [Chart] under construction. *)
Record building := mkBuilding {
  bd_order : list compiledState;
  bd_byID : gmap string state_ref;
  bd_invokes : gmap string compiledInvoke
}.

(** What is compiled of state [s], at index [i], before its children. *)
Definition compileStateSelf (s : StateDefinition) (parent : option state_ref) (i : state_ref) (path : string)
    : result compiledState :=
  onEntry ← compileBlocks (sd_OnEntry s) (path +:+ ".onEntry");
  onExit ← compileBlocks (sd_OnExit s) (path +:+ ".onExit");
  data ← compileData (sd_Data s) (path +:+ ".data");
  done ← match sd_DoneData s with
    | Some d => Some <$> compilePayload (dn_Params d) (dn_Content d) (path +:+ ".doneData")
    | None => Ok None
    end;
  initial ← match sd_Initial s with
    | Some t => Some <$> compileDefinitionTransition t i (-1)%Z (path +:+ ".initial")
    | None => Ok None
    end;
  transitions ← collectEach (λ k t,
    compileDefinitionTransition t i (Z.of_N k) (index (path +:+ ".transitions") k)) 0 (sd_Transitions s);
  invokes ← collectEach (λ k iv, compileDefinitionInvoke iv i (index (path +:+ ".invokes") k)) 0 (sd_Invokes s);
  Ok (mkState (sd_id s) (default KindAtomic (stateKindOf (sd_Kind s))) (default Shallow (historyKindOf (sd_History s)))
        initial parent [] onEntry onExit transitions invokes done data).

(** [cs.children = append(cs.children, child)]. *)
Definition add_child (x : state_ref) (cs : compiledState) : compiledState :=
  mkState (st_id cs) (st_kind cs) (st_historyKind cs) (st_initial cs) (st_parent cs) (st_children cs ++ [x])
    (st_onEntry cs) (st_onExit cs) (st_transitions cs) (st_invokes cs) (st_modelPayload cs) (st_data cs).

Definition addState (cs : compiledState) (b : building) : building :=
  mkBuilding (bd_order b ++ [cs]) (<[st_id cs := length (bd_order b)]> (bd_byID b))
    (fold_left (λ m iv, <[iv_definitionID iv := iv]> m) (st_invokes cs) (bd_invokes b)).

Definition appendChild (i x : state_ref) (b : building) : building :=
  mkBuilding (alter (add_child x) i (bd_order b)) (bd_byID b) (bd_invokes b).

(** The index of a state is the length of the array when it is reached. *)
Fixpoint compileDefinitionState (s : StateDefinition) (parent : option state_ref) (path : string) (b : building)
    : result building :=
  let i := length (bd_order b) in
  cs ← compileStateSelf s parent i path;
  forRange (λ k x b,
    let j := length (bd_order b) in
    b ← compileDefinitionState x (Some i) (childPath path k) b;
    Ok (appendChild i j b)) 0 (sd_Children s) (addState cs b).

End compile.

Arguments DatamodelProgram {DM}.
Arguments Datamodel {DM}.

(** ** Compile *)

Section compile_chart.
Context `{DM : DatamodelSession}.
Variable parseDuration : string → result Z.
Variable jsonMarshal : ChartDefinition → result string.
Variable sha256 : string → string.

Definition CanonicalBytes (d : ChartDefinition) : result string :=
  n ← normalizeDefinition d;
  body ← jsonMarshal n;
  Ok (DefinitionCanonicalMagic +:+ bigEndian 4 DefinitionCanonicalVersion +:+ body).

(** [sha256] returns the digest in hexadecimal. *)
Definition deriveRevisionFromCanonical (canonical datamodel fingerprint : string) : string :=
  "sha256:" +:+ sha256 (revisionMaterial canonical datamodel fingerprint).

(** The fields of [Chart] that the interpreter reads, and the rest. *)
Record compiledChart := mkCompiled {
  cc_chart : Chart;
  cc_name : string;
  cc_definition : ChartDefinition;
  cc_canonical : string;
  cc_fingerprint : string;
  cc_revision : string;
  cc_invokes : gmap string compiledInvoke
}.

Definition bindingOf (s : string) : DataBinding :=
  if decide (s = BindingEarly) then DataBindingEarly else DataBindingLate.

Definition Compile (definition : ChartDefinition) (model : option Datamodel) : result compiledChart :=
  match model with
  | None => Err (Errorf "statecharts: nil datamodel")
  | Some model =>
      d ← normalizeDefinition definition;
      _ ← fail_if (negb (bool_decide (df_Datamodel d = model_Name model)))
            (definitionError "definition.datamodel" ("datamodel " +:+ quote (df_Datamodel d)
               +:+ " does not match compiler " +:+ quote (model_Name model)));
      program ← model_Compile model d;
      match program with
      | None => Err (Errorf ("statecharts: datamodel " +:+ quote (model_Name model) +:+ " returned a nil program"))
      | Some p =>
          _ ← fail_if (bool_decide (Fingerprint p = ""))
                (Errorf ("statecharts: datamodel " +:+ quote (model_Name model) +:+ " returned an empty program fingerprint"));
          canonical ← match CanonicalBytes d with
            | Ok b => Ok b
            | Err e => Err (Wrapf "statecharts: canonicalize chart definition: " e)
            end;
          globalData ← compileData p (df_Data d) "definition.data";
          b ← compileDefinitionState parseDuration p (df_Root d) None "root" (mkBuilding [] ∅ ∅);
          Ok (mkCompiled (mkChart (bd_order b) (bd_byID b) globalData (bindingOf (df_DataBinding d)))
                (df_Name d) d canonical (Fingerprint p)
                (deriveRevisionFromCanonical canonical (model_Name model) (Fingerprint p)) (bd_invokes b))
      end
  end.

(** [Build]: the definition assembled from a root state, then [Compile].  An
    option edits the definition. *)
Definition Build (r : StateDefinition) (model : option Datamodel) (opts : list (ChartDefinition → ChartDefinition))
    : result compiledChart :=
  match model with
  | None => Err (Errorf "statecharts: nil datamodel")
  | Some m =>
      let id := if decide (sd_id r = "") then "chart" else sd_id r in
      Compile (fold_left (λ d opt, opt d) opts
                 (mkDefinition id "" (model_Name m) "" "" [] (cloneState r))) model
  end.

End compile_chart.
