(* ===== verification/Indexed.v ===== *)
(** * The validator's index and the compiled array follow the layout

    [collectStates] and [compileDefinitionState] produce their arrays in the
    pre-order of [layout], with the same parents and the same ID map; the
    children of a compiled state are the starts of its definition's children. *)

From S2P Require Import Prelude Identifier Values Events Datamodel Chart Definitions Validate Layout Compile.
From stdpp Require Import options.

(** ** The ID map *)

(** The insertions both walks make, one per state. *)
Fixpoint ids_map (b : nat) (l : list string) (m : gmap string nat) : gmap string nat :=
  match l with
  | [] => m
  | id :: l => ids_map (S b) l (<[id := b]> m)
  end.

Lemma ids_map_app b l l' m : ids_map b (l ++ l') m = ids_map (b + length l) l' (ids_map b l m).
Proof.
  revert b m. induction l as [|x l IH]; intros b m; simpl; [by rewrite Nat.add_0_r|].
  rewrite IH. by rewrite Nat.add_succ_comm.
Qed.

Definition ids (L : list (StateDefinition * option nat)) : list string := map (λ e, sd_id e.1) L.

Lemma ids_forest_cons p b x xs : ids (forest p b (x :: xs)) = ids (layout (Some p) b x) ++ ids (forest p (b + ssize x) xs).
Proof. unfold ids. by rewrite forest_cons, map_app. Qed.

Lemma length_ids L : length (ids L) = length L.
Proof. apply length_map. Qed.

(** ** The validator's index *)

Definition entry_of (nd : definitionStateNode) : StateDefinition * option nat := (nd_state nd, nd_parent nd).

Lemma collectStates_unfold s par path v :
  collectStates s par path v =
    (_ ← at_path (path +:+ ".id") (validatePlainIdentifier (sd_id s));
     _ ← match byID v !! sd_id s with
         | Some previous => Err (definitionError (path +:+ ".id")
             ("duplicate state ID " +:+ quote (sd_id s) +:+ " (already declared at " +:+ nodePath v previous +:+ ".id)"))
         | None => Ok ()
         end;
     forRange (λ i x w, collectStates x (Some (length (nodes v))) (childPath path i) w) 0 (sd_Children s)
       (addNode (mkNode s par path) v)).
Proof. by destruct s. Qed.

(** One entry per node: [byID] is a bijection between IDs and nodes. *)
Definition index_ok (v : stateIndex) : Prop :=
  ∀ id n, byID v !! id = Some n ↔ ∃ nd, nodes v !! n = Some nd ∧ sd_id (nd_state nd) = id.

Lemma index_ok_addNode nd v : byID v !! sd_id (nd_state nd) = None → index_ok v → index_ok (addNode nd v).
Proof.
  intros Hnew Hok id n. unfold addNode. simpl. rewrite lookup_insert_Some, (Hok id n).
  split.
  - intros [[<- <-]|[Hne (x & Hx & <-)]]; [exists nd | exists x]; (split; [|done]); apply lookup_snoc_Some; [by right|].
    left. split; [by eapply lookup_lt_Some | done].
  - intros (x & [[Hlt Hx]|[-> ->]]%lookup_snoc_Some & <-); [|by left]. right. split; [|by eauto].
    intros Heq. assert (byID v !! sd_id (nd_state x) = Some n) as H by (apply Hok; eauto). by rewrite <- Heq, Hnew in H.
Qed.

Record collected (L : nat → list (StateDefinition * option nat)) (v v' : stateIndex) : Prop := {
  co_nodes : ∃ ns, nodes v' = nodes v ++ ns ∧ map entry_of ns = L (length (nodes v));
  co_byID : byID v' = ids_map (length (nodes v)) (ids (L (length (nodes v)))) (byID v);
  co_index : index_ok v → index_ok v'
}.

Lemma collected_length L v v' : collected L v v' → length (nodes v') = length (nodes v) + length (L (length (nodes v))).
Proof. intros [(ns & -> & <-) _ _]. by rewrite length_app, length_map. Qed.

Lemma collectStates_collected s par path v v' :
  collectStates s par path v = Ok v' → collected (λ b, layout par b s) v v'.
Proof.
  revert par path v v'. induction s as [s IH] using StateDefinition_nested_ind. intros par path v v'.
  rewrite collectStates_unfold. intros H. apply result_bind_Ok in H as ([] & _ & H).
  apply result_bind_Ok in H as ([] & Hnew & H). destruct (byID v !! sd_id s) as [|] eqn:Enew; [done|]. clear Hnew.
  set (p := length (nodes v)) in *. set (w := addNode (mkNode s par path) v) in *.
  assert (collected (λ b, forest p b (sd_Children s)) w v') as [(ns & Hns & He) Hid Hix].
  { clearbody p w. revert w H. generalize 0%N as i.
    induction IH as [|x xs Hx _ IHxs]; intros i w; simpl.
    { intros [= ->]. split; [exists []; by rewrite app_nil_r | done..]. }
    intros (w1 & H1 & H2)%result_bind_Ok. apply Hx in H1. apply IHxs in H2.
    pose proof (collected_length _ _ _ H1) as Hlen. cbv beta in Hlen. rewrite length_layout in Hlen.
    destruct H1 as [(n1 & E1 & M1) B1 I1], H2 as [(n2 & E2 & M2) B2 I2]. rewrite Hlen in *. cbv beta in *. split.
    - exists (n1 ++ n2). rewrite map_app, M1, M2, E2, E1, app_assoc. split; [done | by rewrite forest_cons].
    - by rewrite B2, B1, ids_forest_cons, ids_map_app, length_ids, length_layout.
    - auto. }
  assert (length (nodes w) = S p) as Hw by (unfold w, addNode; simpl; rewrite length_app; simpl; lia).
  rewrite Hw in *. split.
  - exists (mkNode s par path :: ns). rewrite Hns. unfold w, addNode. simpl. rewrite <- app_assoc. split; [done|].
    rewrite layout_unfold. unfold entry_of at 1. simpl. by rewrite He.
  - rewrite Hid. fold p. rewrite layout_unfold. done.
  - intros Hok. apply Hix. by apply index_ok_addNode.
Qed.

(** ** The compiled array *)

Section compiled.
Context `{DM : DatamodelSession}.
Variable parseDuration : string → result Z.
Variable p : DatamodelProgram.

Definition set_children (xs : list nat) (cs : compiledState) : compiledState :=
  mkState (st_id cs) (st_kind cs) (st_historyKind cs) (st_initial cs) (st_parent cs) xs
    (st_onEntry cs) (st_onExit cs) (st_transitions cs) (st_invokes cs) (st_modelPayload cs) (st_data cs).

(** The compiled state [cs] at index [k] comes from [s] with parent [q]. *)
Definition compiled_as (k : nat) (s : StateDefinition) (q : option nat) (cs : compiledState) : Prop :=
  ∃ path self, compileStateSelf parseDuration p s q k path = Ok self
    ∧ cs = set_children (starts (S k) (sd_Children s)) self.

Lemma compileDefinitionState_unfold s par path b :
  compileDefinitionState parseDuration p s par path b =
    (cs ← compileStateSelf parseDuration p s par (length (bd_order b)) path;
     forRange (λ k x b',
       b'' ← compileDefinitionState parseDuration p x (Some (length (bd_order b))) (childPath path k) b';
       Ok (appendChild (length (bd_order b)) (length (bd_order b')) b'')) 0 (sd_Children s) (addState cs b)).
Proof. by destruct s. Qed.

Lemma collectEach_Ok {A B} (f : N → A → result B) i xs ys :
  collectEach f i xs = Ok ys → Forall2 (λ x y, ∃ j, f j x = Ok y) xs ys.
Proof.
  revert i ys. induction xs as [|x xs IH]; intros i ys; simpl; [intros [= <-]; constructor|].
  intros (y & Hy & (ys' & Hys & [= <-])%result_bind_Ok)%result_bind_Ok. constructor; [by eauto | by eapply IH].
Qed.

Lemma compileDefinitionTransition_shape t k i path t' :
  compileDefinitionTransition parseDuration p t k i path = Ok t' → t_target t' = td_Targets t ∧ t_source t' = k.
Proof. unfold compileDefinitionTransition. intros H. inv_ok. done. Qed.

Lemma compileStateSelf_shape s q k path self :
  compileStateSelf parseDuration p s q k path = Ok self →
  st_id self = sd_id s ∧ st_parent self = q ∧ st_children self = []
  ∧ st_kind self = default KindAtomic (stateKindOf (sd_Kind s)).
Proof. unfold compileStateSelf. intros H. inv_ok. done. Qed.

Lemma compileStateSelf_transitions s q k path self :
  compileStateSelf parseDuration p s q k path = Ok self →
  t_target <$> st_initial self = td_Targets <$> sd_Initial s
  ∧ Forall2 (λ d t, t_target t = td_Targets d ∧ t_source t = k) (sd_Transitions s) (st_transitions self).
Proof.
  unfold compileStateSelf. intros H. do 4 apply result_bind_Ok in H as (? & _ & H).
  apply result_bind_Ok in H as (init & Hinit & H). apply result_bind_Ok in H as (ts & Hts & H). inv_ok. simpl. split.
  - destruct (sd_Initial s) as [t|]; simplify_eq/=; [|done]. destruct (compileDefinitionTransition _ _ _ _ _ _) as [t'|] eqn:E; [|done].
    injection Hinit as <-. simpl. f_equal. by apply compileDefinitionTransition_shape in E as [? _].
  - apply collectEach_Ok in Hts. eapply Forall2_impl; [exact Hts|]. intros d t (j & Hj).
    by eapply compileDefinitionTransition_shape.
Qed.

Definition compiled_from (L : list (StateDefinition * option nat)) (b : nat) (css : list compiledState) : Prop :=
  length css = length L
  ∧ ∀ k s q, L !! k = Some (s, q) → ∃ cs, css !! k = Some cs ∧ compiled_as (b + k) s q cs.

Lemma compiled_from_nil b : compiled_from [] b [].
Proof. done. Qed.

Lemma compiled_from_app L L' b css css' :
  compiled_from L b css → compiled_from L' (b + length L) css' → compiled_from (L ++ L') b (css ++ css').
Proof.
  intros [Hl H] [Hl' H']. split; [rewrite !length_app; lia|]. intros k s q [Hk|[Hk HL]]%lookup_app_Some.
  - destruct (H k s q Hk) as (cs & Hcs & ?). exists cs. split; [by apply lookup_app_l_Some | done].
  - destruct (H' _ s q HL) as (cs & Hcs & Has). exists cs. rewrite lookup_app_r by lia. rewrite Hl.
    split; [done|]. by replace (b + length L + (k - length L)) with (b + k) in Has by lia.
Qed.

Lemma compiled_from_cons s q L b cs css :
  compiled_as b s q cs → compiled_from L (S b) css → compiled_from ((s, q) :: L) b (cs :: css).
Proof.
  intros Hcs [Hl H]. split; [simpl; lia|]. intros [|k] s' q'; simpl.
  - intros [= <- <-]. exists cs. by rewrite Nat.add_0_r.
  - intros Hk. destruct (H k s' q' Hk) as (cs' & ? & ?). exists cs'. by rewrite <- Nat.add_succ_comm.
Qed.

Lemma alter_snoc {A} (f : A → A) (pre : list A) x post :
  alter f (length pre) (pre ++ x :: post) = pre ++ f x :: post.
Proof.
  induction pre as [|y pre IH]; [done|].
  change (y :: alter f (length pre) (pre ++ x :: post) = y :: (pre ++ f x :: post)). by rewrite IH.
Qed.

(** The loop over the children of the state at index [length pre]: they are
    appended to the array, and their starts to the state's children. *)
Lemma compile_children path pre xs :
  Forall (λ x, ∀ par path b b', compileDefinitionState parseDuration p x par path b = Ok b' →
    (∃ css, bd_order b' = bd_order b ++ css ∧ compiled_from (layout par (length (bd_order b)) x) (length (bd_order b)) css)
    ∧ bd_byID b' = ids_map (length (bd_order b)) (ids (layout par (length (bd_order b)) x)) (bd_byID b)) xs →
  ∀ i cs post b b', bd_order b = pre ++ cs :: post →
  forRange (λ k x b',
       b'' ← compileDefinitionState parseDuration p x (Some (length pre)) (childPath path k) b';
       Ok (appendChild (length pre) (length (bd_order b')) b'')) i xs b = Ok b' →
  (∃ css, bd_order b' = pre ++ set_children (st_children cs ++ starts (length (bd_order b)) xs) cs :: post ++ css
     ∧ compiled_from (forest (length pre) (length (bd_order b)) xs) (length (bd_order b)) css)
  ∧ bd_byID b' = ids_map (length (bd_order b)) (ids (forest (length pre) (length (bd_order b)) xs)) (bd_byID b).
Proof.
  induction 1 as [|x xs Hx _ IHxs]; intros i cs post b b' Hb; simpl.
  { intros [= ->]. split; [|done]. exists []. rewrite !app_nil_r, Hb. split; [by destruct cs | apply compiled_from_nil]. }
  intros (b2 & (b1 & H1 & [= <-])%result_bind_Ok & H2)%result_bind_Ok.
  apply Hx in H1 as [(c1 & O1 & F1) B1].
  assert (length (bd_order b1) = length (bd_order b) + ssize x) as Hlen.
  { rewrite O1, length_app. destruct F1 as [-> _]. by rewrite length_layout. }
  set (n := length (bd_order b)) in *.
  apply (IHxs _ (add_child n cs) (post ++ c1)) in H2.
  2: { simpl. rewrite O1, Hb, <- app_assoc. simpl. by rewrite alter_snoc. }
  simpl in H2. rewrite length_alter, Hlen in H2. destruct H2 as [(c2 & O2 & F2) B2]. split.
  - exists (c1 ++ c2). rewrite O2, <- !app_assoc. split; [done|].
    rewrite forest_cons. apply compiled_from_app; [done|]. by rewrite length_layout.
  - by rewrite B2, B1, ids_forest_cons, ids_map_app, length_ids, length_layout.
Qed.

Lemma compile_layout s par path b b' :
  compileDefinitionState parseDuration p s par path b = Ok b' →
  (∃ css, bd_order b' = bd_order b ++ css ∧ compiled_from (layout par (length (bd_order b)) s) (length (bd_order b)) css)
  ∧ bd_byID b' = ids_map (length (bd_order b)) (ids (layout par (length (bd_order b)) s)) (bd_byID b).
Proof.
  revert par path b b'. induction s as [s IH] using StateDefinition_nested_ind. intros par path b b'.
  rewrite compileDefinitionState_unfold. intros (self & Hself & H)%result_bind_Ok.
  pose proof (compileStateSelf_shape _ _ _ _ _ Hself) as (Hid & Hpar & Hch & _).
  eapply (compile_children path (bd_order b) _ IH _ self []) in H as [(css & O & F) B]; [|done].
  simpl in *. rewrite length_app, Nat.add_1_r in *. rewrite Hch in O. split.
  - eexists. split; [exact O|]. rewrite layout_unfold. apply compiled_from_cons; [|done]. by eexists _, _.
  - rewrite B, layout_unfold. simpl. by rewrite Hid.
Qed.

End compiled.
