(* ===== verification/Validated.v ===== *)
(** * What validation establishes of every state

    [validateState] checks each node once; [node_ok] collects the part of its
    checks that shapes the chart.  [validateState_node_ok] says that an accepted
    root satisfies it at every state of the tree. *)

From S2P Require Import Prelude Identifier Values Events Datamodel Chart Definitions Validate Layout Compile Indexed.
From stdpp Require Import options.

(** ** Loops that succeed *)

Lemma checkEach_Ok {A} (f : N → A → result unit) i xs :
  checkEach f i xs = Ok () → ∀ x, x ∈ xs → ∃ j, f j x = Ok ().
Proof.
  revert i. induction xs as [|y ys IH]; intros i; simpl; [by intros _ ? ?%elem_of_nil|].
  intros ([] & Hy & H)%result_bind_Ok x [->|Hx]%elem_of_cons; [by eauto | by eapply IH].
Qed.

Lemma checkEach_any {A} (f : A → result unit) i xs :
  checkEach (λ _, f) i xs = Ok () ↔ Forall (λ x, f x = Ok ()) xs.
Proof.
  revert i. induction xs as [|y ys IH]; intros i; simpl; [by split|].
  rewrite result_bind_Ok, Forall_cons, <- (IH (i + 1)%N). split.
  - by intros ([] & ? & ?).
  - intros [? ?]. eauto.
Qed.

Lemma checkPairs_Ok f ns :
  checkPairs f ns = Ok () → NoDup ns → ∀ x y, x ∈ ns → y ∈ ns → x ≠ y → f x y = Ok () ∨ f y x = Ok ().
Proof.
  induction ns as [|z ns IH]; simpl; [by intros _ _ ? ? ?%elem_of_nil|].
  intros ([] & Hz%checkEach_any & H)%result_bind_Ok [Hnz Hn]%NoDup_cons x y Hx Hy Hne.
  rewrite Forall_forall in Hz. apply elem_of_cons in Hx as [->|Hx], Hy as [->|Hy]; try done; auto.
Qed.

Lemma nonEmpty_true {A} (l : list A) : nonEmpty l = true ↔ l ≠ [].
Proof. by destruct l. Qed.
Lemma nonEmpty_false {A} (l : list A) : nonEmpty l = false ↔ l = [].
Proof. by destruct l. Qed.

(** ** Target sets *)

Section targets.
Variable v : stateIndex.

Lemma resolveTargets_Ok path i targets acc acc' :
  forRange (resolveTarget v path) i targets acc = Ok acc' →
  Forall (λ id, is_Some (byID v !! id)) targets
  ∧ acc'.1 = acc.1 ++ omap (λ id, byID v !! id) targets
  ∧ NoDup targets ∧ Forall (λ id, id ∉ acc.2) targets.
Proof.
  revert i acc. induction targets as [|id ids IH]; intros i acc; simpl.
  { intros [= ->]. rewrite app_nil_r. split_and!; [done..|constructor|done]. }
  intros (acc1 & H1 & H)%result_bind_Ok. unfold resolveTarget in H1. inv_ok.
  apply bool_decide_eq_false in H1. destruct (byID v !! id) as [n|] eqn:E; inv_ok.
  apply IH in H as (Hex & Heq & Hnd & Hnew). simpl in *. rewrite Heq, <- app_assoc. split_and!.
  - constructor; [by rewrite E | done].
  - done.
  - constructor; [|done]. intros Hin. rewrite Forall_forall in Hnew. apply Hnew in Hin. set_solver.
  - constructor; [done|]. eapply Forall_impl; [exact Hnew|]. set_solver.
Qed.

(** What an accepted target list is. *)
Record targets_ok (targets : list Identifier) (ns : list nat) : Prop := {
  to_resolved : Forall (λ id, is_Some (byID v !! id)) targets;
  to_nodes : ns = omap (λ id, byID v !! id) targets;
  to_NoDup : NoDup targets;
  to_unrelated : NoDup ns → ∀ x y, x ∈ ns → y ∈ ns → x ≠ y → isDefinitionDescendant v x (Some y) = false;
  to_atoms : ns ≠ [] → ∃ atoms, visitAll (λ n, collectDefaultAtoms v (defaultAtomsFuel v) ∅ n) ns ∅ = Ok atoms
    ∧ ∀ x y, x ∈ atoms → y ∈ atoms → x ≠ y →
        leastCommonDefinitionAncestor v x y ≫= nodeKind v = Some KindParallel
        ∨ leastCommonDefinitionAncestor v y x ≫= nodeKind v = Some KindParallel
}.

Lemma at_path_Ok {A} path (r : result A) a : at_path path r = Ok a → r = Ok a.
Proof. by destruct r. Qed.

Lemma together_Ok path x y :
  together v path x y = Ok () → leastCommonDefinitionAncestor v x y ≫= nodeKind v = Some KindParallel.
Proof. unfold together. intros H%fail_if_Ok. by apply negb_false_iff, bool_decide_eq_true in H. Qed.

Lemma validateTargetSet_Ok targets path :
  validateTargetSet v targets path = Ok () → targets_ok targets (omap (λ id, byID v !! id) targets).
Proof.
  unfold validateTargetSet. intros (acc & Hr & H)%result_bind_Ok.
  apply resolveTargets_Ok in Hr as (Hex & Heq & Hnd & _). simpl in Heq. rewrite Heq in H.
  apply result_bind_Ok in H as ([] & Hun & H). split; [done..| |].
  - intros Hnn x y Hx Hy Hne. destruct (checkPairs_Ok _ _ Hun Hnn x y Hx Hy Hne) as [H'|H'];
      apply fail_if_Ok, orb_false_iff in H' as [? ?]; done.
  - intros Hne. apply nonEmpty_true in Hne. rewrite Hne in H. simpl in H.
    apply result_bind_Ok in H as (atoms & Hat%at_path_Ok & H). apply result_bind_Ok in H as (u & _ & H).
    exists atoms. split; [done|]. intros x y Hx Hy Hxy.
    destruct (checkPairs_Ok _ _ H (NoDup_sort_asc atoms) x y) as [H'|H']; [by apply elem_of_sort_asc..|done| |];
      apply together_Ok in H'; auto.
Qed.

(** ** One state *)

Definition targets_in (a : nat) (ids : list Identifier) : Prop :=
  Forall (λ id, ∃ x, byID v !! id = Some x ∧ isDefinitionDescendant v x (Some a) = true) ids.

Definition shape_ok (n : nat) (s : StateDefinition) : Prop :=
  match stateKindOf (sd_Kind s) with
  | Some KindAtomic | Some KindFinal => sd_Children s = []
  | Some KindCompound => ∃ t, sd_Initial s = Some t ∧ td_Targets t ≠ [] ∧ targets_in n (td_Targets t)
  | Some KindParallel => realDefinitionChildren v s ≠ []
  | Some KindHistory =>
      sd_Children s = [] ∧ ∃ q t, nodeParent v n = Some q ∧ sd_Initial s = Some t
        ∧ td_Targets t ≠ [] ∧ targets_in q (td_Targets t)
  | None => False
  end.

Record node_ok (n : nat) (s : StateDefinition) : Prop := {
  no_shape : shape_ok n s;
  no_initial : ∀ t, sd_Initial s = Some t → targets_ok (td_Targets t) (omap (λ id, byID v !! id) (td_Targets t));
  no_transitions : ∀ t, t ∈ sd_Transitions s → targets_ok (td_Targets t) (omap (λ id, byID v !! id) (td_Targets t))
}.

Lemma validateTransition_Ok t path b :
  validateTransition v t path b = Ok () → targets_ok (td_Targets t) (omap (λ id, byID v !! id) (td_Targets t)).
Proof. unfold validateTransition. intros H. inv_ok. by eapply validateTargetSet_Ok. Qed.

Lemma validateDefaultTarget_compound n s path i id :
  stateKindOf (sd_Kind s) = Some KindCompound → validateDefaultTarget v n s path i id = Ok () →
  ∃ x, byID v !! id = Some x ∧ isDefinitionDescendant v x (Some n) = true.
Proof.
  intros Hk H. unfold validateDefaultTarget in H. inv_ok.
  assert (isKind KindCompound s = true) as E.
  { unfold isKind. apply bool_decide_eq_true. destruct (sd_Kind s) as [|[[|[]|]|[|[]|]|]]; naive_solver. }
  rewrite E in *. simpl in *. destruct (byID v !! id) as [y|]; [|done]. exists y. split; [done|].
  by apply negb_false_iff.
Qed.

Lemma validateDefaultTarget_history n s q path i id x :
  stateKindOf (sd_Kind s) = Some KindHistory → validateDefaultTarget v n s path i id = Ok () →
  nodeParent v n = Some q → byID v !! id = Some x → isDefinitionDescendant v x (Some q) = true.
Proof.
  intros Hk H Hq Hx. unfold validateDefaultTarget in H. inv_ok.
  assert (isKind KindHistory s = true) as E.
  { unfold isKind. apply bool_decide_eq_true. destruct (sd_Kind s) as [|[[|[]|]|[|[]|]|]]; naive_solver. }
  rewrite Hx, E, Hq in *. inv_ok. by apply negb_false_iff.
Qed.

Lemma validateStateHead_kind s path b :
  validateStateHead s path b = Ok () → ∃ k, stateKindOf (sd_Kind s) = Some k.
Proof.
  unfold validateStateHead. intros H. apply result_bind_Ok in H as (u & H & _). apply fail_if_Ok, N.ltb_ge in H.
  destruct (sd_Kind s) as [|[[|[]|]|[|[]|]|]]; simpl; eauto; lia.
Qed.

Lemma validateInitial_Ok n s path b t :
  validateInitial v n s path b = Ok () → sd_Initial s = Some t →
  targets_ok (td_Targets t) (omap (λ id, byID v !! id) (td_Targets t))
  ∧ ∀ id, id ∈ td_Targets t → ∃ j, validateDefaultTarget v n s path j id = Ok ().
Proof.
  unfold validateInitial. intros H Ht. rewrite Ht in H. simpl in H.
  apply result_bind_Ok in H as ([] & H1%validateTransition_Ok & H). apply result_bind_Ok in H as ([] & _ & H).
  split; [done|]. by eapply checkEach_Ok.
Qed.

Lemma validateStateKind_shape n s path b :
  is_Some (stateKindOf (sd_Kind s)) → validateStateKind v n s path = Ok () → validateInitial v n s path b = Ok () →
  shape_ok n s.
Proof.
  intros [k Hk] H Hi. pose proof (λ t, validateInitial_Ok n s path b t Hi) as Hinit. clear Hi.
  unfold shape_ok, validateStateKind, defaultTargets in *. rewrite Hk in *.
  destruct k; inv_ok; rewrite ?negb_false_iff, ?nonEmpty_true, ?nonEmpty_false in *; try done.
  - destruct (sd_Initial s) as [t|]; [|done]. destruct (Hinit t eq_refl) as [_ Hd]. exists t. split_and!; [done..|].
    apply Forall_forall. intros id (j & Hj)%Hd. by eapply validateDefaultTarget_compound.
  - rewrite !orb_false_iff, nonEmpty_false in *. destruct_and?. split; [done|].
    destruct (nodeParent v n) as [q|] eqn:Hq; [|done]. destruct (sd_Initial s) as [t|] eqn:Ht; [|done].
    destruct (Hinit t eq_refl) as [Hok Hd]. exists q, t. split_and!; [done..|]. apply Forall_forall. intros id Hid.
    pose proof (to_resolved _ _ Hok) as Hres. rewrite Forall_forall in Hres.
    destruct (Hres id Hid) as [y Hy]. exists y. split; [done|]. destruct (Hd id Hid) as (j & Hj).
    by eapply validateDefaultTarget_history.
Qed.

Lemma validateStateSelf_node_ok n s b seen seen' :
  validateStateSelf v n s b seen = Ok seen' → node_ok n s.
Proof.
  unfold validateStateSelf. intros H. apply result_bind_Ok in H as ([] & Hhead%validateStateHead_kind & H).
  apply result_bind_Ok in H as (seen1 & _ & H). apply result_bind_Ok in H as ([] & Hkind & H).
  apply result_bind_Ok in H as ([] & Hinit & H). do 2 apply result_bind_Ok in H as (? & _ & H).
  apply result_bind_Ok in H as ([] & Htrans & _). split.
  - by eapply validateStateKind_shape.
  - intros t Ht. by eapply validateInitial_Ok.
  - intros t Ht. eapply checkEach_Ok in Htrans as (j & Hj); [|done]. by eapply validateTransition_Ok.
Qed.

(** ** Every state *)

Lemma validateState_unfold n s b seen :
  validateState v n s b seen =
    (seen ← validateStateSelf v n s b seen;
     forRange (λ _ x seen,
       match byID v !! sd_id x with
       | Some k => validateState v k x false seen
       | None => Err (Errorf "runtime error: invalid memory address or nil pointer dereference")
       end) 0 (sd_Children s) seen).
Proof. by destruct s. Qed.

(** Whatever [validateStateSelf] establishes holds at every state. *)
Lemma validateState_each (Q : nat → StateDefinition → Prop) s par i b seen seen' :
  (∀ n x b seen seen', validateStateSelf v n x b seen = Ok seen' → Q n x) →
  (∀ k x q, layout par i s !! k = Some (x, q) → byID v !! sd_id x = Some (i + k)) →
  validateState v i s b seen = Ok seen' →
  ∀ k x q, layout par i s !! k = Some (x, q) → Q (i + k) x.
Proof.
  intros HQ. revert par i b seen seen'. induction s as [s IH] using StateDefinition_nested_ind.
  intros par i b seen seen' Hid. rewrite validateState_unfold.
  intros (seen1 & Hself & H)%result_bind_Ok [|k] x q; rewrite layout_unfold in *; simpl.
  { intros [= <- <-]. rewrite Nat.add_0_r. by eapply HQ. }
  assert (∀ k x q, forest i (S i) (sd_Children s) !! k = Some (x, q) → byID v !! sd_id x = Some (S i + k)) as Hid'.
  { intros k' x' q' Hk'. rewrite Nat.add_succ_comm. by apply (Hid (S k') x' q'). }
  rewrite <- Nat.add_succ_comm. clear Hself Hid. revert Hid' k seen1 H. generalize 0%N as j. generalize (S i) as base.
  induction IH as [|y ys Hy _ IHys]; intros base j Hid k seen1; [done|]. simpl.
  intros (seen2 & H1 & H2)%result_bind_Ok Hk.
  assert (byID v !! sd_id y = Some base) as Ey.
  { rewrite <- (Nat.add_0_r base). apply (Hid 0 y (Some i)). by rewrite forest_cons, layout_unfold. }
  rewrite Ey in H1. apply forest_lookup in Hk as [[Hlt Hk]|[Hge Hk]].
  - eapply Hy; [|exact H1|exact Hk]. intros k' x' q' Hk'. apply (Hid k' x' q'). apply forest_lookup. left.
    split; [|done]. apply lookup_lt_Some in Hk'. by rewrite length_layout in Hk'.
  - replace (base + k) with (base + ssize y + (k - ssize y)) by lia. eapply IHys; [|exact H2|exact Hk].
    intros k' x' q' Hk'. rewrite <- Nat.add_assoc. apply (Hid _ x' q'). apply forest_lookup. right.
    split; [lia|]. by replace (ssize y + k' - ssize y) with k' by lia.
Qed.

Lemma validateState_node_ok s par i b seen seen' :
  (∀ k x q, layout par i s !! k = Some (x, q) → byID v !! sd_id x = Some (i + k)) →
  validateState v i s b seen = Ok seen' →
  ∀ k x q, layout par i s !! k = Some (x, q) → node_ok (i + k) x.
Proof. apply validateState_each. apply validateStateSelf_node_ok. Qed.

End targets.
