(* ===== verification/Accepted.v ===== *)
(** * Accepted definitions compile to well-formed charts

    [Compile] runs the validator and then the lowering; this file connects what
    the two establish.  [linked] says that an index and a chart come from the
    same tree.  The compiled tree satisfies [wf_tree]; if the chart moreover
    meets the three conditions of [supported], it satisfies [wf_chart], and with
    it everything proved of the interpreter. *)

From S2P Require Import Prelude Identifier Values Events Datamodel Chart Tree Legal Definitions Validate Layout Compile Indexed Validated.
From stdpp Require Import options.

Section accepted.
Context `{DM : DatamodelSession}.
Variable parseDuration : string → result Z.
Variable p : DatamodelProgram.

Record linked (r : StateDefinition) (v : stateIndex) (c : Chart) : Prop := {
  li_nodes : map entry_of (nodes v) = layout None 0 r;
  li_index : index_ok v;
  li_order : compiled_from parseDuration p (layout None 0 r) 0 (c_order c);
  li_byID : c_byID c = byID v;
  li_valid : ∀ k x q, layout None 0 r !! k = Some (x, q) → node_ok v k x
}.

Section link.
Variable r : StateDefinition.
Variable v : stateIndex.
Variable c : Chart.
Hypothesis Hlink : linked r v c.

Lemma nodes_lookup n : nodes v !! n ≫= (λ nd, Some (entry_of nd)) = layout None 0 r !! n.
Proof using Hlink. rewrite <- (li_nodes _ _ _ Hlink), list_lookup_fmap. by destruct (nodes v !! n). Qed.

Lemma nodeState_layout n : nodeState v n = fst <$> layout None 0 r !! n.
Proof using Hlink. rewrite <- nodes_lookup. unfold nodeState. by destruct (nodes v !! n). Qed.

Lemma nodeParent_layout n : nodeParent v n = layout None 0 r !! n ≫= snd.
Proof using Hlink. rewrite <- nodes_lookup. unfold nodeParent. by destruct (nodes v !! n). Qed.

Lemma length_nodes : length (nodes v) = length (c_order c).
Proof using Hlink.
  destruct (li_order _ _ _ Hlink) as [-> _]. by rewrite <- (li_nodes _ _ _ Hlink), length_map.
Qed.

Lemma layout_valid n : n < length (c_order c) → ∃ s q, layout None 0 r !! n = Some (s, q).
Proof using Hlink.
  destruct (li_order _ _ _ Hlink) as [-> _]. intros [[s q] H]%lookup_lt_is_Some. eauto.
Qed.

Lemma state_of_layout n s q :
  layout None 0 r !! n = Some (s, q) → ∃ cs, state_of c n = Some cs ∧ compiled_as parseDuration p n s q cs.
Proof using Hlink. apply (li_order _ _ _ Hlink). Qed.

Lemma state_of_None n : layout None 0 r !! n = None → state_of c n = None.
Proof using Hlink.
  unfold state_of. rewrite !lookup_ge_None. by destruct (li_order _ _ _ Hlink) as [-> _].
Qed.

Lemma parent_layout n : parent c n = layout None 0 r !! n ≫= snd.
Proof using Hlink.
  unfold parent. destruct (layout None 0 r !! n) as [[s q]|] eqn:E.
  - destruct (state_of_layout n s q E) as (cs & -> & path & self & Hself & ->). simpl.
    by apply compileStateSelf_shape in Hself as (_ & ? & _ & _).
  - by rewrite state_of_None.
Qed.

Lemma children_layout n s q : layout None 0 r !! n = Some (s, q) → children c n = starts (S n) (sd_Children s).
Proof using Hlink.
  intros H. unfold children. by destruct (state_of_layout n s q H) as (cs & -> & path & self & _ & ->).
Qed.

Lemma kind_layout n s q : layout None 0 r !! n = Some (s, q) → stateKindOf (sd_Kind s) = Some (kind c n).
Proof using Hlink.
  intros H. pose proof (no_shape _ _ _ (li_valid _ _ _ Hlink n s q H)) as Hs.
  unfold kind. destruct (state_of_layout n s q H) as (cs & -> & path & self & Hself & ->). simpl.
  apply compileStateSelf_shape in Hself as (_ & _ & _ & ->). unfold shape_ok in Hs.
  by destruct (stateKindOf (sd_Kind s)).
Qed.

Lemma initial_layout n s q :
  layout None 0 r !! n = Some (s, q) → t_target <$> initial c n = td_Targets <$> sd_Initial s.
Proof using Hlink.
  intros H. unfold initial. destruct (state_of_layout n s q H) as (cs & -> & path & self & Hself & ->). simpl.
  by apply compileStateSelf_transitions in Hself as [? _].
Qed.

Lemma transitions_layout n s q t :
  layout None 0 r !! n = Some (s, q) → t ∈ transitions c n →
  t_source t = n ∧ ∃ d, d ∈ sd_Transitions s ∧ t_target t = td_Targets d.
Proof using Hlink.
  intros H. unfold transitions. destruct (state_of_layout n s q H) as (cs & -> & path & self & Hself & ->). simpl.
  apply compileStateSelf_transitions in Hself as [_ Hts]. intros [i Hi]%list_elem_of_lookup_1.
  destruct (Forall2_lookup_r _ _ _ _ _ Hts Hi) as (d & Hd & Htd & Hsrc). split; [done|]. exists d.
  split; [by eapply list_elem_of_lookup_2 | done].
Qed.

Lemma linked_wf_tree : wf_tree c.
Proof using Hlink.
  pose proof parent_layout as Hpar. split.
  - intros s q. rewrite Hpar. destruct (layout None 0 r !! s) as [[x q']|] eqn:E; [|done]. simpl. intros ->.
    apply layout_parent in E as [(? & ? & ?)|(? & p' & [= <-] & ?)]; [done | lia].
  - intros s q. rewrite Hpar. destruct (layout None 0 r !! s) as [e|] eqn:E; [|done]. intros _.
    apply lookup_lt_Some in E. by destruct (li_order _ _ _ Hlink) as [-> _].
  - intros s (x & q & E)%layout_valid Hne. rewrite Hpar, E. simpl.
    apply layout_parent in E as [(-> & _)|(_ & p' & -> & _)]; [done | by eauto].
  - intros s x. rewrite Hpar. destruct (layout None 0 r !! s) as [[y q]|] eqn:E.
    + rewrite (children_layout s y q E).
      pose proof (layout_children r None 0 s y q x ltac:(done) E) as H. simpl in H. rewrite <- H.
      destruct (layout None 0 r !! x) as [[z qz]|]; simpl; [|naive_solver].
      split; [by intros (? & [= <- ->]) | intros ->; eauto].
    + unfold children. rewrite (state_of_None s E). split; [by intros ?%elem_of_nil|].
      destruct (layout None 0 r !! x) as [[z qz]|] eqn:Ex; [|done]. simpl. intros ->.
      apply layout_parent in Ex as Hx. destruct Hx as [(? & ? & ?)|(? & p' & [= <-] & Hlt)]; [done|].
      apply lookup_lt_Some in Ex. apply lookup_ge_None in E. lia.
  - intros id s. rewrite (li_byID _ _ _ Hlink). intros (nd & Hnd & _)%(li_index _ _ _ Hlink).
    rewrite <- length_nodes. by eapply lookup_lt_Some.
Qed.

(** ** The validator's navigation is the interpreter's *)

Lemma nodeParent_parent n : nodeParent v n = parent c n.
Proof using Hlink. by rewrite nodeParent_layout, parent_layout. Qed.

Lemma nodeKind_kind n : n < length (c_order c) → nodeKind v n = Some (kind c n).
Proof using Hlink.
  intros (s & q & H)%layout_valid. unfold nodeKind. rewrite nodeState_layout, H. simpl. by eapply kind_layout.
Qed.

Lemma nodeAncestors_ancestors n : nodeAncestors v n = ancestors c n.
Proof using Hlink.
  unfold nodeAncestors, ancestors. generalize (S n) as fuel. intros fuel. revert n.
  induction fuel as [|fuel IH]; intros n; [done|]. simpl. rewrite nodeParent_parent.
  destruct (parent c n); [by rewrite IH | done].
Qed.

Lemma descendant_strict x a : isDefinitionDescendant v x (Some a) = true ↔ strict c x a.
Proof using Hlink. unfold isDefinitionDescendant, strict. by rewrite nodeAncestors_ancestors, bool_decide_eq_true. Qed.

Lemma realChildren_nodes n s q :
  layout None 0 r !! n = Some (s, q) → realDefinitionChildren v s = realChildren c n.
Proof using Hlink.
  intros H. unfold realDefinitionChildren, realChildren. rewrite (children_layout n s q H).
  assert (omap (λ x, byID v !! sd_id x) (sd_Children s) = starts (S n) (sd_Children s)) as ->.
  { apply list_eq_Forall2. assert (∀ m y, sd_Children s !! m = Some y →
      ∃ j, starts (S n) (sd_Children s) !! m = Some j ∧ byID v !! sd_id y = Some j) as Hch.
    { intros m y Hm. destruct (layout_child r None 0 n s q m y H Hm) as (j & Hj & _ & Hl). exists j.
      split; [done|]. rewrite Nat.sub_0_r in Hl. apply (li_index _ _ _ Hlink).
      pose proof (nodes_lookup j) as Hn. rewrite Hl in Hn. destruct (nodes v !! j) as [nd|]; [|done].
      exists nd. unfold entry_of in Hn. injection Hn as Hn _. by rewrite Hn. }
    clear H. revert Hch. generalize (S n) as b. induction (sd_Children s) as [|y ys IH]; intros b Hch; simpl; [constructor|].
    destruct (Hch 0 y eq_refl) as (j & Hj & ->). simpl in Hj. injection Hj as ->. constructor; [done|].
    apply IH. intros m z Hm. apply (Hch (S m) z Hm). }
  assert (∀ j, j ∈ starts (S n) (sd_Children s) → j < length (c_order c)) as Hv.
  { intros j. rewrite <- (children_layout n s q H), (wf_children c linked_wf_tree).
    by apply (wf_parent_valid c linked_wf_tree). }
  induction (starts (S n) (sd_Children s)) as [|j l IH]; [done|]. rewrite !filter_cons.
  rewrite IH by (intros; apply Hv; by right). pose proof (nodeKind_kind j (Hv j ltac:(left))) as Hk.
  repeat case_decide; congruence.
Qed.

End link.
End accepted.

(** * From accepted to well-formed

    The target rules of the validator are stated on the atomic states a target
    list expands to ([collectDefaultAtoms]); the interpreter's correctness needs
    them on the targets themselves ([target_set]).  This file derives the second
    from the first, and an order on history states from the cycle check. *)

Section conditions.
Context `{DM : DatamodelSession}.
Variable c : Chart.

(** The three conditions that the validator does not check. *)
Definition solo (X : list nat) : Prop := Forall (λ h, kind c h = KindHistory → X = [h]) X.

Definition supported_state (s : nat) : Prop :=
  match initial c s with Some t => solo (resolve c (t_target t)) | None => True end
  ∧ Forall (λ t, solo (resolve c (t_target t))
      ∧ Forall (λ h, kind c h = KindHistory → outside c s h = true) (resolve c (t_target t))) (transitions c s).

#[global] Instance supported_state_dec s : Decision (supported_state s).
Proof. unfold supported_state, solo. destruct (initial c s); apply _. Defined.

Definition supported : bool :=
  bool_decide (kind c root = KindCompound)
  && bool_decide (Forall supported_state (seq 0 (length (c_order c)))).

(** ** An order on history states *)

Definition historyTargets (h : nat) : list nat :=
  match initial c h with
  | Some t => filter (λ x, kind c x = KindHistory) (resolve c (t_target t))
  | None => []
  end.

(** Chains of default transitions through history states, from [h], have at most
    [fuel] states. *)
Fixpoint shallower (fuel h : nat) : bool :=
  match fuel with
  | 0 => false
  | S fuel => forallb (shallower fuel) (historyTargets h)
  end.

Fixpoint least (P : nat → bool) (n : nat) : nat :=
  match n with
  | 0 => 0
  | S n => if P 0 then 0 else S (least (λ k, P (S k)) n)
  end.

Definition historyRank (h : nat) : nat := least (λ k, shallower k h) (length (c_order c)).

Lemma least_spec P n m : P m = true → m ≤ n → P (least P n) = true ∧ least P n ≤ m.
Proof.
  revert P m. induction n as [|n IH]; intros P m Hm Hle; simpl.
  { assert (m = 0) as -> by lia. done. }
  destruct (P 0) eqn:E; [split; [done | lia]|]. destruct m as [|m]; [congruence|].
  destruct (IH (λ k, P (S k)) m Hm ltac:(lia)). split; [done | lia].
Qed.

Lemma historyRank_spec h :
  shallower (length (c_order c)) h = true →
  historyRank h ≤ length (c_order c)
  ∧ ∀ x, x ∈ historyTargets h → historyRank x < historyRank h.
Proof.
  intros H. destruct (least_spec (λ k, shallower k h) (length (c_order c)) _ H ltac:(lia)) as [Hr Hle].
  fold (historyRank h) in *. split; [done|]. intros x Hx.
  destruct (historyRank h) as [|k] eqn:E; [done|]. simpl in Hr. rewrite forallb_forall in Hr.
  apply list_elem_of_In, Hr in Hx.
  destruct (least_spec (λ k, shallower k x) (length (c_order c)) k Hx ltac:(lia)). unfold historyRank. lia.
Qed.
End conditions.

(** ** Visiting *)

Lemma visitAll_spec {A} (f : A → gset nat → result (gset nat)) (P : A → nat → Prop) xs :
  (∀ x acc acc', x ∈ xs → f x acc = Ok acc' → acc ⊆ acc' ∧ ∃ a, a ∈ acc' ∧ P x a) →
  ∀ acc acc', visitAll f xs acc = Ok acc' → acc ⊆ acc' ∧ ∀ x, x ∈ xs → ∃ a, a ∈ acc' ∧ P x a.
Proof.
  induction xs as [|y ys IH]; intros Hf acc acc'; simpl.
  { intros [= ->]. split; [done|]. by intros ? ?%elem_of_nil. }
  intros (acc1 & H1 & H2)%result_bind_Ok. apply Hf in H1 as [Hs (a & Ha & HP)]; [|left].
  apply IH in H2 as [Hs2 Hall]; [|intros; eapply Hf; [by right | done]].
  split; [set_solver|]. intros x [->|Hx]%elem_of_cons; [exists a; split; [set_solver | done] | by apply Hall].
Qed.

Lemma visitAll_each {A} (f : A → gset nat → result (gset nat)) xs acc acc' :
  visitAll f xs acc = Ok acc' → ∀ x, x ∈ xs → ∃ a a', f x a = Ok a'.
Proof.
  revert acc. induction xs as [|y ys IH]; intros acc; simpl; [by intros _ ? ?%elem_of_nil|].
  intros (acc1 & H1 & H2)%result_bind_Ok x [->|Hx]%elem_of_cons; eauto.
Qed.

Section supported_facts.
Context `{DM : DatamodelSession}.
Variable parseDuration : string → result Z.
Variable p : DatamodelProgram.
Variable r : StateDefinition.
Variable v : stateIndex.
Variable c : Chart.
Hypothesis Hlink : linked parseDuration p r v c.

Let Htree : wf_tree c := linked_wf_tree _ _ _ _ _ Hlink.

Lemma resolve_nodes targets : resolve c targets = omap (λ id, byID v !! id) targets.
Proof using Hlink. unfold resolve. by rewrite (li_byID _ _ _ _ _ Hlink). Qed.

Lemma NoDup_resolve targets : NoDup targets → NoDup (resolve c targets).
Proof using Hlink.
  rewrite resolve_nodes. induction 1 as [|id ids Hid _ IH]; simpl; [constructor|].
  destruct (byID v !! id) as [n|] eqn:E; [|done]. constructor; [|done].
  intros (id' & Hin & E')%list_elem_of_omap. apply (li_index _ _ _ _ _ Hlink) in E as (nd & Hnd & <-), E' as (nd' & Hnd' & <-).
  by simplify_eq.
Qed.

(** The states a node can expand to. *)
Definition expands_to (n a : nat) : Prop :=
  match kind c n with
  | KindHistory => ∃ q, parent c n = Some q ∧ strict c a q
  | _ => under c a n
  end.

Lemma expands_inside n x a : strict c x n → expands_to x a → strict c a n.
Proof using Hlink.
  intros Hx. unfold expands_to. destruct (kind c x); try by intros H; eapply (under_strict_trans c Htree).
  intros (q & Hq & Ha). eapply (strict_under_trans c Htree); [exact Ha|]. by eapply (strict_above_child c Htree).
Qed.

Lemma expands_nonhistory n a : kind c n ≠ KindHistory → expands_to n a ↔ under c a n.
Proof. unfold expands_to. by destruct (kind c n). Qed.

(** What the index says of node [n], on the chart. *)
Lemma node_facts n s :
  nodeState v n = Some s →
  n < length (c_order c) ∧ stateKindOf (sd_Kind s) = Some (kind c n) ∧ node_ok v n s
  ∧ realDefinitionChildren v s = realChildren c n ∧ t_target <$> initial c n = td_Targets <$> sd_Initial s
  ∧ ∃ q, layout None 0 r !! n = Some (s, q).
Proof using Hlink.
  rewrite (nodeState_layout _ _ _ _ _ Hlink). destruct (layout None 0 r !! n) as [[s' q]|] eqn:E; [|done].
  intros [= ->]. split_and!.
  - apply lookup_lt_Some in E. by destruct (li_order _ _ _ _ _ Hlink) as [-> _].
  - by eapply kind_layout.
  - by eapply li_valid.
  - by eapply realChildren_nodes.
  - by eapply initial_layout.
  - by eauto.
Qed.

Lemma node_exists n : n < length (c_order c) → ∃ s, nodeState v n = Some s.
Proof using Hlink.
  intros (s & q & H)%(layout_valid _ _ _ _ _ Hlink). exists s. by rewrite (nodeState_layout _ _ _ _ _ Hlink), H.
Qed.

Lemma targets_in_strict a ids id x : targets_in v a ids → id ∈ ids → byID v !! id = Some x → strict c x a.
Proof using Hlink.
  unfold targets_in. rewrite Forall_forall. intros H Hid Hx. destruct (H id Hid) as (y & Hy & Hd). simplify_eq.
  by apply (descendant_strict _ _ _ _ _ Hlink).
Qed.

Lemma byID_valid id x : byID v !! id = Some x → x < length (c_order c).
Proof using Hlink. rewrite <- (li_byID _ _ _ _ _ Hlink). apply (wf_byID c Htree). Qed.

(** The default targets of a node that has some. *)
Lemma defaults_nonempty s t : sd_Initial s = Some t → td_Targets t ≠ [] → ∃ id, id ∈ defaultTargets s.
Proof.
  unfold defaultTargets. intros -> H. destruct (td_Targets t) as [|id l]; [done|]. exists id. left.
Qed.

(** An accepted node expands to at least one state of its own. *)
Lemma collectDefaultAtoms_region fuel vis n atoms atoms' :
  n < length (c_order c) → collectDefaultAtoms v fuel vis n atoms = Ok atoms' →
  atoms ⊆ atoms' ∧ ∃ a, a ∈ atoms' ∧ expands_to n a.
Proof using Hlink.
  revert vis n atoms atoms'. induction fuel as [|fuel IH]; intros vis n atoms atoms' Hn; simpl; [done|].
  case_decide; [done|]. destruct (node_exists n Hn) as [s Hs]. rewrite Hs.
  apply node_facts in Hs as (_ & Hk & Hok & Hreal & _ & _). pose proof (no_shape _ _ _ Hok) as Hshape.
  unfold shape_ok in Hshape. rewrite Hk in Hshape |- *.
  assert (∀ t a, sd_Initial s = Some t → td_Targets t ≠ [] → targets_in v a (td_Targets t) →
    visitAll (λ id atoms, match byID v !! id with
                | Some x => collectDefaultAtoms v fuel ({[n]} ∪ vis) x atoms
                | None => Err (Errorf ("state " +:+ quote (sd_id s) +:+ " has unresolved default target " +:+ quote id))
                end) (defaultTargets s) atoms = Ok atoms' →
    atoms ⊆ atoms' ∧ ∃ x, x ∈ atoms' ∧ strict c x a) as Hdef.
  { intros t a Ht Hne Hin Hv.
    apply (visitAll_spec _ (λ _ x, strict c x a)) in Hv as [Hsub Hall].
    - split; [done|]. destruct (defaults_nonempty s t Ht Hne) as [id Hid]. by apply (Hall id).
    - intros id acc acc' Hid. destruct (byID v !! id) as [x|] eqn:E; [|done].
      intros [Hs (y & Hy & Hr)]%IH; [|by eapply byID_valid]. split; [done|]. exists y. split; [done|].
      eapply expands_inside; [|exact Hr]. unfold defaultTargets in Hid. rewrite Ht in Hid. by eapply targets_in_strict. }
  unfold expands_to. destruct (kind c n) eqn:Ek.
  - intros [= <-]. split; [set_solver|]. exists n. split; [set_solver | apply under_refl].
  - destruct Hshape as (t & Ht & Hne & Hin). intros ([] & _ & Hv)%result_bind_Ok.
    destruct (Hdef t n Ht Hne Hin Hv) as [? (x & ? & ?)]. split; [done|]. exists x. split; [done | by right].
  - intros Hv. rewrite Hreal in *. apply (visitAll_spec _ (λ _ x, under c x n)) in Hv as [Hsub Hall].
    + split; [done|]. destruct (realChildren c n) as [|x l] eqn:E; [done|]. apply (Hall x). left.
    + intros x acc acc' [Hp Hx]%(elem_of_realChildren c Htree).
      intros [Hs (y & Hy & Hr)]%IH; [|by eapply (wf_parent_valid c Htree)]. split; [done|]. exists y. split; [done|].
      apply expands_nonhistory in Hr; [|done]. right. eapply (under_strict_trans c Htree); [done|].
      by apply (strict_parent c Htree).
  - intros [= <-]. split; [set_solver|]. exists n. split; [set_solver | apply under_refl].
  - destruct Hshape as (_ & q & t & Hq & Ht & Hne & Hin). intros ([] & _ & Hv)%result_bind_Ok.
    destruct (Hdef t q Ht Hne Hin Hv) as [? (x & ? & ?)]. split; [done|]. exists x. split; [done|]. exists q.
    split; [|done]. by rewrite <- (nodeParent_parent _ _ _ _ _ Hlink).
Qed.

(** ** Target lists *)

Lemma lca_swap x y : leastCommonDefinitionAncestor v x y = lca c y x.
Proof using Hlink.
  unfold leastCommonDefinitionAncestor, lca. by rewrite !(nodeAncestors_ancestors _ _ _ _ _ Hlink).
Qed.

Lemma parallel_lca x y :
  x < length (c_order c) → leastCommonDefinitionAncestor v x y ≫= nodeKind v = Some KindParallel →
  ∃ q, lca c y x = Some q ∧ kind c q = KindParallel.
Proof using Hlink.
  intros Hx. rewrite lca_swap. destruct (lca c y x) as [q|] eqn:E; [|done]. simpl. intros Hk. exists q. split; [done|].
  apply (lca_spec c Htree) in E as (_ & Hq & _).
  assert (q < length (c_order c)) as Hv.
  { destruct Hq as [->|Hq%(strict_lt c Htree)]; [done | lia]. }
  rewrite (nodeKind_kind _ _ _ _ _ Hlink q Hv) in Hk. congruence.
Qed.

Lemma orthogonal_sym x y : x < length (c_order c) → y < length (c_order c) → orthogonal c x y = true → orthogonal c y x = true.
Proof using Hlink.
  intros Hx Hy H. unfold orthogonal in H. destruct (lca c x y) as [q|] eqn:E; [|done].
  rewrite !andb_true_iff, !bool_decide_eq_true in H. destruct H as [[Hk H1] H2].
  apply (lca_spec c Htree) in E as (Hxq & Hyq & Hmin). destruct (lca_exists c Htree y x Hy Hx) as [q' E'].
  unfold orthogonal. rewrite E'. apply (lca_spec c Htree) in E' as (Hyq' & Hxq' & Hmin').
  assert (q = q') as <- by (apply (under_antisym c Htree); auto).
  by rewrite !andb_true_iff, !bool_decide_eq_true.
Qed.

Lemma targets_orthogonal ids x y :
  targets_ok v ids (omap (λ id, byID v !! id) ids) →
  x ∈ resolve c ids → y ∈ resolve c ids → x ≠ y → kind c x ≠ KindHistory → kind c y ≠ KindHistory →
  orthogonal c x y = true.
Proof using Hlink.
  intros Hok Hx Hy Hne Hkx Hky. pose proof (NoDup_resolve ids (to_NoDup _ _ _ Hok)) as Hnd.
  rewrite resolve_nodes in *.
  assert (∀ z, z ∈ omap (λ id, byID v !! id) ids → z < length (c_order c)) as Hval.
  { intros z (id & _ & Hz)%list_elem_of_omap. by eapply byID_valid. }
  assert (∀ a b, a ∈ omap (λ id, byID v !! id) ids → b ∈ omap (λ id, byID v !! id) ids → a ≠ b → ¬ under c a b) as Hun.
  { intros a b Ha Hb Hab [->|Hs]; [done|]. apply (descendant_strict _ _ _ _ _ Hlink) in Hs.
    pose proof (to_unrelated _ _ _ Hok Hnd a b Ha Hb Hab). congruence. }
  destruct (to_atoms _ _ _ Hok) as (atoms & Hv & Hpair); [intros E; rewrite E in Hx; by apply elem_of_nil in Hx|].
  apply (visitAll_spec _ expands_to) in Hv as [_ Hall].
  2: { intros n acc acc' Hn. apply collectDefaultAtoms_region. by apply Hval. }
  destruct (Hall x Hx) as (a & Ha & Hxa), (Hall y Hy) as (b & Hb & Hyb).
  apply expands_nonhistory in Hxa, Hyb; [|done..].
  assert (a ≠ b) as Hab.
  { intros <-. destruct (under_comparable c Htree a x y Hxa Hyb) as [H|H]; revert H; by apply Hun. }
  assert (∀ z w, under c z w → w < length (c_order c) → z < length (c_order c)) as Hdown.
  { intros z w [->|H] ?; [done|]. by eapply strict_valid. }
  pose proof (Hval x Hx). pose proof (Hval y Hy).
  destruct (Hpair a b Ha Hb Hab) as [Hp|Hp]; apply parallel_lca in Hp as (q & Hq & Hkq); try by eauto.
  - apply orthogonal_sym; [done..|]. eapply (orthogonal_lift c Htree y x b a q); eauto.
  - eapply (orthogonal_lift c Htree x y a b q); eauto.
Qed.

Lemma resolve_nonempty ids : targets_ok v ids (omap (λ id, byID v !! id) ids) → ids ≠ [] → resolve c ids ≠ [].
Proof using Hlink.
  intros Hok Hne. rewrite resolve_nodes. destruct ids as [|id ids]; [done|].
  pose proof (to_resolved _ _ _ Hok) as H. apply Forall_cons in H as [[x Hx] _]. simpl. by rewrite Hx.
Qed.

(** A non-empty accepted target list inside [a]. *)
Lemma target_set_intro a ids :
  targets_ok v ids (omap (λ id, byID v !! id) ids) → ids ≠ [] → solo c (resolve c ids) →
  (∀ x, x ∈ resolve c ids → strict c x a) → target_set c a (resolve c ids).
Proof using Hlink.
  intros Hok Hne Hsolo Hin. split_and!.
  - by apply resolve_nonempty.
  - apply NoDup_resolve. by apply (to_NoDup _ _ _ Hok).
  - by apply Forall_forall.
  - apply Forall_forall. intros x Hx. apply Forall_forall. intros y Hy. destruct (decide (x = y)); [by left|]. right.
    unfold solo in Hsolo. rewrite Forall_forall in Hsolo.
    assert (∀ h z, h ∈ resolve c ids → z ∈ resolve c ids → h ≠ z → kind c h ≠ KindHistory) as Hnh.
    { intros h z Hh Hz Hhz Hk. rewrite (Hsolo h Hh Hk) in Hz. by apply list_elem_of_singleton in Hz. }
    by apply (targets_orthogonal ids); eauto.
  - done.
Qed.

(** ** History chains *)

Lemma historyTargets_nodes h s :
  nodeState v h = Some s → historyTargets c h = filter (λ x, kind c x = KindHistory) (resolve c (defaultTargets s)).
Proof using Hlink.
  intros (_ & _ & _ & _ & Hi & _)%node_facts. unfold historyTargets, defaultTargets.
  destruct (initial c h), (sd_Initial s); try done.
  apply (inj Some) in Hi. by rewrite Hi.
Qed.

Lemma collectDefaultAtoms_shallower fuel vis h atoms atoms' :
  kind c h = KindHistory → h < length (c_order c) →
  collectDefaultAtoms v fuel vis h atoms = Ok atoms' → shallower c (pred fuel) h = true.
Proof using Hlink.
  revert vis h atoms atoms'. induction fuel as [|fuel IH]; intros vis h atoms atoms' Hk Hv; [done|]. simpl.
  case_decide; [done|]. destruct (node_exists h Hv) as [s Hs]. rewrite Hs. pose proof Hs as Hs'.
  apply node_facts in Hs as (_ & Ek & Hok & _ & _ & _). pose proof (no_shape _ _ _ Hok) as Hshape.
  unfold shape_ok in Hshape. rewrite Ek, Hk in Hshape |- *. destruct Hshape as (_ & q & t & _ & Ht & Hne & _).
  intros ([] & _ & Hvis)%result_bind_Ok.
  assert (∀ id x, id ∈ defaultTargets s → byID v !! id = Some x →
    ∃ a a', collectDefaultAtoms v fuel ({[h]} ∪ vis) x a = Ok a') as Heach.
  { intros id x Hid Hx. destruct (visitAll_each _ _ _ _ Hvis id Hid) as (a & a' & Ha). rewrite Hx in Ha. eauto. }
  destruct fuel as [|fuel].
  { destruct (defaults_nonempty s t Ht Hne) as [id Hid].
    pose proof (to_resolved _ _ _ (no_initial _ _ _ Hok t Ht)) as Hres. rewrite Forall_forall in Hres.
    destruct (Hres id) as [x Hx]; [unfold defaultTargets in Hid; by rewrite Ht in Hid|].
    by destruct (Heach id x Hid Hx) as (a & a' & Ha). }
  simpl. apply forallb_forall. intros x Hx%list_elem_of_In. rewrite (historyTargets_nodes h s Hs') in Hx.
  apply list_elem_of_filter in Hx as [Hkx Hx]. rewrite resolve_nodes in Hx.
  apply list_elem_of_omap in Hx as (id & Hid & Hx). destruct (Heach id x Hid Hx) as (a & a' & Ha).
  apply (IH ({[h]} ∪ vis) x a a'); [done | by eapply byID_valid | done].
Qed.

Lemma history_shallower h :
  kind c h = KindHistory → h < length (c_order c) → shallower c (length (c_order c)) h = true.
Proof using Hlink.
  intros Hk Hv. destruct (node_exists h Hv) as [s Hs]. pose proof (historyTargets_nodes h s Hs) as Hh.
  apply node_facts in Hs as (_ & Ek & Hok & _ & _ & _). pose proof (no_shape _ _ _ Hok) as Hshape.
  unfold shape_ok in Hshape. rewrite Ek, Hk in Hshape. destruct Hshape as (_ & q & t & _ & Ht & Hne & _).
  pose proof (no_initial _ _ _ Hok t Ht) as Hto. pose proof (resolve_nonempty _ Hto Hne) as Hrne.
  rewrite resolve_nodes in Hrne. destruct (to_atoms _ _ _ Hto Hrne) as (atoms & Hat & _).
  destruct (length (c_order c)) as [|n] eqn:En; [lia|]. simpl. rewrite Hh.
  apply forallb_forall. intros x Hx%list_elem_of_In. apply list_elem_of_filter in Hx as [Hkx Hx].
  unfold defaultTargets in Hx. rewrite Ht, resolve_nodes in Hx.
  destruct (visitAll_each _ _ _ _ Hat x Hx) as (a & a' & Ha).
  apply collectDefaultAtoms_shallower in Ha; [|done|].
  - unfold defaultAtomsFuel in Ha. by rewrite (length_nodes _ _ _ _ _ Hlink), En in Ha.
  - apply list_elem_of_omap in Hx as (id & _ & Hx). by eapply byID_valid.
Qed.

(** ** Well-formed states *)

Hypothesis Hsup : supported c = true.

Lemma supported_at s : s < length (c_order c) → supported_state c s.
Proof using Hsup.
  intros Hs. unfold supported in Hsup. apply andb_true_iff in Hsup as [_ H%bool_decide_eq_true].
  rewrite Forall_forall in H. apply H, elem_of_seq. lia.
Qed.

Lemma transition_targets_ok n t : n < length (c_order c) → t ∈ transitions c n → transition_targets c n (resolve c (t_target t)).
Proof using Hlink Hsup.
  intros Hn Ht. destruct (node_exists n Hn) as [s Hs]. apply node_facts in Hs as (_ & _ & Hok & _ & _ & q & Hl).
  destruct (supported_at n Hn) as [_ Hsup']. rewrite Forall_forall in Hsup'. destruct (Hsup' t Ht) as [Hsolo Hout].
  destruct (transitions_layout _ _ _ _ _ Hlink n s q t Hl Ht) as (_ & d & Hd & Htd). rewrite Htd in *.
  pose proof (no_transitions _ _ _ Hok d Hd) as Hto. unfold transition_targets.
  destruct (decide (td_Targets d = [])) as [->|Hne]; [by left|]. right.
  assert (∀ x, x ∈ resolve c (td_Targets d) → x < length (c_order c)) as Hval.
  { intros x. rewrite resolve_nodes. intros (id & _ & Hx)%list_elem_of_omap. by eapply byID_valid. }
  pose proof (NoDup_resolve _ (to_NoDup _ _ _ Hto)) as Hnd.
  destruct (decide (root ∈ resolve c (td_Targets d))) as [Hr|Hr].
  - left. apply list_elem_of_split in Hr as (l1 & l2 & Heq).
    assert (∀ x, x ∈ l1 ++ l2 → False) as Hnil.
    { intros x Hx. rewrite Heq in Hnd. apply NoDup_app in Hnd as (_ & Hd1 & [Hr2 _]%NoDup_cons).
      assert (x ≠ root) as Hxr.
      { intros ->. apply elem_of_app in Hx as [Hx|Hx]; [|done]. apply (Hd1 root Hx). left. }
      assert (x ∈ resolve c (td_Targets d)) as Hxin by (rewrite Heq; rewrite elem_of_app, elem_of_cons; apply elem_of_app in Hx; tauto).
      assert (root ∈ resolve c (td_Targets d)) as Hrin by (rewrite Heq, elem_of_app; right; left).
      pose proof (strict_root c Htree x (Hval x Hxin) Hxr) as Hst.
      apply (descendant_strict _ _ _ _ _ Hlink) in Hst. rewrite resolve_nodes in Hxin, Hrin.
      rewrite (to_unrelated _ _ _ Hto) in Hst; [done| | done..].
      rewrite <- resolve_nodes. apply NoDup_resolve, (to_NoDup _ _ _ Hto). }
    rewrite Heq. destruct l1 as [|x l1]; [|exfalso; apply (Hnil x); left]. destruct l2 as [|x l2]; [done|].
    exfalso. apply (Hnil x). left.
  - right. split; [|done]. apply target_set_intro; [done..|]. intros x Hx. apply (strict_root c Htree); [by apply Hval|].
    by intros ->.
Qed.

Lemma linked_wf_state n : n < length (c_order c) → wf_state c (historyRank c) n.
Proof using Hlink Hsup.
  intros Hn. destruct (node_exists n Hn) as [s Hs]. pose proof (node_facts n s Hs) as (_ & Hk & Hok & Hreal & Hi & q & Hl).
  unfold wf_state. split_and!.
  - rewrite (children_layout _ _ _ _ _ Hlink n s q Hl). apply starts_NoDup.
  - apply Forall_forall. intros t Ht. split; [|by apply transition_targets_ok].
    by destruct (transitions_layout _ _ _ _ _ Hlink n s q t Hl Ht).
  - pose proof (no_shape _ _ _ Hok) as Hshape. unfold shape_ok in Hshape. rewrite Hk in Hshape.
    destruct (supported_at n Hn) as [Hsolo _].
    assert (∀ a t, sd_Initial s = Some t → td_Targets t ≠ [] → targets_in v a (td_Targets t) →
      ∃ t', initial c n = Some t' ∧ target_set c a (resolve c (t_target t'))) as Hinit.
    { intros a t Ht Hne Hin. rewrite Ht in Hi. destruct (initial c n) as [t'|]; [|done].
      apply (inj Some) in Hi. exists t'. split; [done|]. rewrite Hi in *.
      apply target_set_intro; [by apply (no_initial _ _ _ Hok) | done..|].
      intros x Hx. rewrite resolve_nodes in Hx. apply list_elem_of_omap in Hx as (id & Hid & Hx).
      by eapply targets_in_strict. }
    destruct (kind c n) eqn:Ek.
    + rewrite (children_layout _ _ _ _ _ Hlink n s q Hl). by rewrite Hshape.
    + destruct Hshape as (t & Ht & Hne & Hin). by destruct (Hinit n t Ht Hne Hin) as (t' & -> & ?).
    + by rewrite <- Hreal.
    + rewrite (children_layout _ _ _ _ _ Hlink n s q Hl). by rewrite Hshape.
    + destruct Hshape as (Hch & q' & t & Hq & Ht & Hne & Hin). destruct (Hinit q' t Ht Hne Hin) as (t' & Ht' & Hset).
      destruct (historyRank_spec c n (history_shallower n Ek Hn)) as [Hle Hlt].
      rewrite (nodeParent_parent _ _ _ _ _ Hlink) in Hq. unfold historyTargets in Hlt. rewrite Ht' in Hlt. rewrite Ht', Hq.
      split_and!; [by rewrite (children_layout _ _ _ _ _ Hlink n s q Hl), Hch | done..|].
      apply Forall_forall. intros h Hh Hkh. apply Hlt, list_elem_of_filter. done.
Qed.

Lemma linked_wf_chart : wf_chart c (historyRank c).
Proof using Hlink Hsup.
  split; [done | apply linked_wf_state|].
  unfold supported in Hsup. by apply andb_true_iff in Hsup as [H%bool_decide_eq_true _].
Qed.

End supported_facts.
