(* ===== verification/Authoring.v ===== *)
(** * Authoring helpers (state.go, transition.go, executable.go, chart.go)

    Functional options edit the definition they are applied to; an option of
    type [func( *T )] is a function [T → T].  Copies made by the helpers are the
    clones of Definitions.v. *)

From S2P Require Import Prelude Identifier Values Events Datamodel Chart Tree Legal Interp Actions Steps Macrostep Examples Definitions.
From S2P Require Import Validate Compile Accepted.
From stdpp Require Import options.

Definition applyAll {A} (opts : list (A → A)) (a : A) : A := fold_left (λ a opt, opt a) opts a.

(** ** Transitions *)

Definition TransitionOption : Type := TransitionDefinition → TransitionDefinition.

Definition emptyTransition : TransitionDefinition := mkTransitionDefinition [] [] "" None [].

Definition cloneExecutableBlock (actions : list Executable) : ExecutableBlock := map cloneExecutable actions.

Definition Target (ids : list Identifier) : TransitionOption := λ t,
  mkTransitionDefinition (td_Events t) (td_Targets t ++ ids) (td_Type t) (td_Condition t) (td_Actions t).
Definition If (condition : Expression) : TransitionOption := λ t,
  mkTransitionDefinition (td_Events t) (td_Targets t) (td_Type t) (Some (cloneExpression condition)) (td_Actions t).
Definition Then (actions : list Executable) : TransitionOption := λ t,
  mkTransitionDefinition (td_Events t) (td_Targets t) (td_Type t) (td_Condition t)
    (td_Actions t ++ [cloneExecutableBlock actions]).
Definition AsInternal : TransitionOption := λ t,
  mkTransitionDefinition (td_Events t) (td_Targets t) TransitionInternal (td_Condition t) (td_Actions t).

(** ** States *)

Definition StateOption : Type := StateDefinition → StateDefinition.

Definition set_OnEntry (bs : list ExecutableBlock) (s : StateDefinition) : StateDefinition :=
  mkStateDefinition (sd_ID s) (sd_Kind s) (sd_History s) (sd_Initial s) bs (sd_OnExit s)
    (sd_Transitions s) (sd_Invokes s) (sd_Data s) (sd_DoneData s) (sd_Children s).
Definition set_OnExit (bs : list ExecutableBlock) (s : StateDefinition) : StateDefinition :=
  mkStateDefinition (sd_ID s) (sd_Kind s) (sd_History s) (sd_Initial s) (sd_OnEntry s) bs
    (sd_Transitions s) (sd_Invokes s) (sd_Data s) (sd_DoneData s) (sd_Children s).
Definition set_DoneData (d : option DoneDataDefinition) (s : StateDefinition) : StateDefinition :=
  mkStateDefinition (sd_ID s) (sd_Kind s) (sd_History s) (sd_Initial s) (sd_OnEntry s) (sd_OnExit s)
    (sd_Transitions s) (sd_Invokes s) (sd_Data s) d (sd_Children s).

Definition WithInitial (opts : list TransitionOption) : StateOption := λ s,
  set_Initial (Some (applyAll opts (default emptyTransition (sd_Initial s)))) s.
Definition Children (children : list StateDefinition) : StateOption := λ s,
  set_Children (sd_Children s ++ map cloneState children) s.
Definition OnEntry (actions : list Executable) : StateOption := λ s,
  set_OnEntry (sd_OnEntry s ++ [cloneExecutableBlock actions]) s.
Definition OnExit (actions : list Executable) : StateOption := λ s,
  set_OnExit (sd_OnExit s ++ [cloneExecutableBlock actions]) s.
Definition WithDone (content : Expression) : StateOption :=
  set_DoneData (Some (mkDoneData [] (Some (cloneExpression content)))).
Definition WithDoneParams (params : list ParamDefinition) : StateOption :=
  set_DoneData (Some (mkDoneData (cloneParams params) None)).

(** [strings.Fields] on ASCII text: the maximal runs of non-space bytes. *)
Definition isSpace (a : ascii) : bool :=
  let n := N_of_ascii a in ((n =? 32) || ((9 <=? n) && (n <=? 13)))%N.

Fixpoint Fields_go (cur : string) (s : string) : list string :=
  let flush := if decide (cur = "") then [] else [cur] in
  match s with
  | EmptyString => flush
  | String a s => if isSpace a then flush ++ Fields_go "" s else Fields_go (cur +:+ String a "") s
  end.
Definition parseEventDescriptors (events : string) : list Identifier := Fields_go "" events.

Definition On (events : string) (opts : list TransitionOption) : StateOption := λ s,
  let t := applyAll opts (mkTransitionDefinition (parseEventDescriptors events) [] "" None []) in
  set_Transitions (sd_Transitions s ++ [t]) s.
Definition Eventless (opts : list TransitionOption) : StateOption := λ s,
  set_Transitions (sd_Transitions s ++ [applyAll opts emptyTransition]) s.

Definition newStateDefinition (id : Identifier) (k : StateKind) (opts : list StateOption) : StateDefinition :=
  applyAll opts (mkStateDefinition (mkStateID id (bool_decide (id = ""))) (stateKindCode k) 0 None [] [] [] [] [] None []).

Definition Atomic (id : Identifier) (opts : list StateOption) : StateDefinition := newStateDefinition id KindAtomic opts.

Definition Compound (id initial : Identifier) (opts : list StateOption) : StateDefinition :=
  let s := newStateDefinition id KindCompound opts in
  if decide (initial = "") then s else
  let t := default emptyTransition (sd_Initial s) in
  set_Initial (Some (mkTransitionDefinition (td_Events t) (initial :: td_Targets t) (td_Type t) (td_Condition t) (td_Actions t))) s.

Definition Parallel (id : Identifier) (opts : list StateOption) : StateDefinition := newStateDefinition id KindParallel opts.
Definition Final (id : Identifier) (opts : list StateOption) : StateDefinition := newStateDefinition id KindFinal opts.

Definition History (id : Identifier) (k : HistoryKind) (defaultTarget : Identifier) (opts : list TransitionOption)
    : StateDefinition :=
  mkStateDefinition (mkStateID id (bool_decide (id = ""))) (stateKindCode KindHistory) (historyKindCode k)
    (Some (applyAll opts (mkTransitionDefinition [] [defaultTarget] "" None []))) [] [] [] [] [] None [].

(** ** Executable content *)

Definition raise (event : Identifier) (data : option Expression) : Executable :=
  NewRaiseExecutable (mkRaise event None (cloneExpression <$> data)).

Definition SendOption : Type := SendDefinition → SendDefinition.

Definition SendTarget (target : string) : SendOption := λ s,
  mkSend (sn_Event s) (sn_EventExpr s) target (sn_TargetExpr s) (sn_Type s) (sn_TypeExpr s) (sn_ID s) (sn_IDLocation s)
    (sn_Delay s) (sn_DelayExpr s) (sn_Params s) (sn_Content s).
Definition SendType (typ : string) : SendOption := λ s,
  mkSend (sn_Event s) (sn_EventExpr s) (sn_Target s) (sn_TargetExpr s) typ (sn_TypeExpr s) (sn_ID s) (sn_IDLocation s)
    (sn_Delay s) (sn_DelayExpr s) (sn_Params s) (sn_Content s).
Definition SendID_ (id : Identifier) : SendOption := λ s,
  mkSend (sn_Event s) (sn_EventExpr s) (sn_Target s) (sn_TargetExpr s) (sn_Type s) (sn_TypeExpr s) id (sn_IDLocation s)
    (sn_Delay s) (sn_DelayExpr s) (sn_Params s) (sn_Content s).
Definition SendContent (content : Expression) : SendOption := λ s,
  mkSend (sn_Event s) (sn_EventExpr s) (sn_Target s) (sn_TargetExpr s) (sn_Type s) (sn_TypeExpr s) (sn_ID s) (sn_IDLocation s)
    (sn_Delay s) (sn_DelayExpr s) (sn_Params s) (Some (cloneExpression content)).
Definition SendParams (params : list ParamDefinition) : SendOption := λ s,
  mkSend (sn_Event s) (sn_EventExpr s) (sn_Target s) (sn_TargetExpr s) (sn_Type s) (sn_TypeExpr s) (sn_ID s) (sn_IDLocation s)
    (sn_Delay s) (sn_DelayExpr s) (cloneParams params) (sn_Content s).

Definition send (event : Identifier) (opts : list SendOption) : Executable :=
  NewSendExecutable (applyAll opts (mkSend event None "" None "" None "" None "" None [] None)).
Definition CancelSend (sendID : Identifier) : Executable := NewCancelExecutable (mkCancel sendID None).
Definition LogValue (label : string) (e : Expression) : Executable :=
  NewLogExecutable (mkLog label None (Some (cloneExpression e))).

(** * Concrete definitions

    A compiler for the counter datamodel, and definitions written with the
    authoring helpers: a player with parallel regions, history and an
    invocation, and a malformed definition. *)

(** ** The counter datamodel's program *)

Definition counterExpression (e : Expression) : result CounterExpr :=
  if decide (xp_Kind e = "below") then
    match AsInt64 (xp_Data e) with Some n => Ok (CBelow n) | None => Err (Errorf "not a number") end
  else if decide (xp_Kind e = "incr") then Ok CIncr
  else if decide (xp_Kind e = "read") then Ok CRead
  else if decide (xp_Kind e = "literal") then Ok (CLiteral (xp_Data e))
  else Err (Errorf ("unknown expression kind " +:+ quote (xp_Kind e))).

Definition counterProgram : DatamodelProgram (DM := CounterSession) :=
  mkProgram (DM := CounterSession) "counter-1" counterExpression (λ _, Ok CIncr) (λ _, Ok CRead).

Definition counterModel : Datamodel (DM := CounterSession) :=
  mkDatamodel (DM := CounterSession) "counter" (λ _, Ok (Some counterProgram)).

(** [time.ParseDuration] restricted to one literal, a marshaller that writes the
    ID, and the identity as digest. *)
Definition oneSecond (s : string) : result Z :=
  if decide (s = "1s") then Ok 1000000000%Z else Err (Errorf "time: invalid duration").

Definition compileCounter (d : ChartDefinition) : result (compiledChart (DM := CounterSession)) :=
  Compile oneSecond (λ d, Ok (df_ID d)) (λ s, s) d (Some counterModel).

Definition chartDefinition (r : StateDefinition) : ChartDefinition :=
  mkDefinition "example" "" "counter" "" "" [] r.

Definition compiledOf (d : ChartDefinition) : compiledChart (DM := CounterSession) :=
  match compileCounter d with
  | Ok cc => cc
  | Err _ => mkCompiled (mkChart [] ∅ [] DataBindingEarly) "" d "" "" "" ∅
  end.

Definition compiles (d : ChartDefinition) : bool := match compileCounter d with Ok _ => true | Err _ => false end.

Lemma compiles_compiledOf d :
  compiles d = true → Compile oneSecond (λ d, Ok (df_ID d)) (λ s, s) d (Some counterModel) = Ok (compiledOf d).
Proof. fold (compileCounter d). unfold compiles, compiledOf. by destruct (compileCounter d). Qed.

Lemma rejected_error d :
  compiles d = false → ∃ e, Compile oneSecond (λ d, Ok (df_ID d)) (λ s, s) d (Some counterModel) = Err e.
Proof. fold (compileCounter d). unfold compiles. destruct (compileCounter d); [done | eauto]. Qed.

(** ** A player *)

Definition expr (k : Identifier) (v : Value) : Expression := mkExpression k v.
Definition incr : Executable := NewScriptExecutable (mkScript (expr "incr" NullValue)).

Definition helper : InvokeDefinition :=
  mkInvokeDefinition "" "helper" None "service" None "src" None [] None true [[incr]].

Definition playerRoot : StateDefinition :=
  Compound "root" "off" [Children [
    Compound "on" "both" [
      On "power" [Target ["off"]];
      On "stop" [Target ["done"]; Then [incr]];
      Children [
        History "memory" Deep "both" [];
        set_Invokes [helper] (Parallel "both" [Children [
          Compound "" "quiet" [Children [
            Atomic "quiet" [On "volume" [Target ["loud"]]];
            Atomic "loud" [On "volume" [Target ["quiet"]]]]];
          Compound "state.1" "" [Children [
            Atomic "dark" [On "light volume" [Target ["bright"]]];
            Atomic "bright" [On "light" [Target ["dark"]]]]]]])]];
    Atomic "off" [
      On "power" [Target ["memory"]];
      On "bright" [Target ["loud"; "bright"]; If (expr "below" (counter_value 3))]];
    Final "done" []]].

Definition playerDefinition : ChartDefinition := chartDefinition playerRoot.

Example player_compiles : compiles playerDefinition = true.
Proof. vm_compute. reflexivity. Qed.

(** The unnamed region gets the first free generated ID, since ["state.1"] is
    taken by its sibling. *)
Example player_states :
  States (cc_chart (compiledOf playerDefinition)) =
  ["root"; "on"; "memory"; "both"; "state.2"; "quiet"; "loud"; "state.1"; "dark"; "bright"; "off"; "done"].
Proof. vm_compute. reflexivity. Qed.

Example player_supported : supported (cc_chart (compiledOf playerDefinition)) = true.
Proof. vm_compute. reflexivity. Qed.

(** ** A malformed definition: a raise node without its payload *)

Definition brokenRoot : StateDefinition :=
  Compound "root" "a" [Children [
    Atomic "a" [OnEntry [mkExecutable ExecutableRaise None None None None None None None None None None]]]].

Definition errorOf {A} (r : result A) : string := match r with Ok _ => "" | Err e => msg e end.

Lemma broken_not_compiled : compiles (chartDefinition brokenRoot) = false.
Proof. vm_compute. reflexivity. Qed.

Example broken_rejected :
  errorOf (compileCounter (chartDefinition brokenRoot))
  = "statecharts: definition root.children[0].onEntry[0][0]: executable union contains 0 payloads; want exactly one".
Proof. vm_compute. reflexivity. Qed.

(** ** Running a compiled definition *)

Fixpoint feedChart (c : Chart (DM := CounterSession)) (ip : interpretation (DM := CounterSession)) (names : list Identifier)
    : option (interpretation (DM := CounterSession)) :=
  match names with
  | [] => Some ip
  | n :: names => '(ip, _) ← processNextExternal c plainEnv 20 (enqueue (ext n) ip); feedChart c ip names
  end.

Definition runChart (c : Chart (DM := CounterSession)) (names : list Identifier) : option (interpretation (DM := CounterSession)) :=
  ip ← start c plainEnv 20 (newInterpretation (0%Z : @Session CounterSession) 0);
  feedChart c ip names.

Lemma runChart_reachable c names ip : runChart c names = Some ip → reachable c plainEnv ip.
Proof.
  unfold runChart. intros (ip0 & H0%start_reachable & H)%bind_Some. revert ip0 H0 H.
  induction names as [|n names IH]; intros ip0 H0; simpl; [by intros [= <-]|].
  intros ([ip1 b] & H1%processNextExternal_steps & H)%bind_Some. eapply IH, H.
  eapply reachable_steps; [done|]. eapply rtc_l; [apply step_enqueue | exact H1].
Qed.

(** The state after a list of events; [None] only when the fuel is not enough. *)
Definition stateAfter (d : ChartDefinition) (names : list Identifier) : interpretation (DM := CounterSession) :=
  default (newInterpretation (0%Z : @Session CounterSession) 0) (runChart (cc_chart (compiledOf d)) names).

Definition runs (d : ChartDefinition) (names : list Identifier) : bool :=
  match runChart (cc_chart (compiledOf d)) names with Some _ => true | None => false end.

Lemma stateAfter_reachable d names : runs d names = true → reachable (cc_chart (compiledOf d)) plainEnv (stateAfter d names).
Proof.
  unfold runs, stateAfter. destruct (runChart _ names) as [ip|] eqn:E; [|done]. intros _. by eapply runChart_reachable.
Qed.

Definition activeIn (d : ChartDefinition) (names : list Identifier) : option (list Identifier) :=
  let c := cc_chart (compiledOf d) in activeStates c <$> runChart c names.

Example player_runs :
  activeIn playerDefinition ["power"; "light"; "power"; "power"]
  = Some ["on"; "both"; "state.2"; "quiet"; "state.1"; "bright"].
Proof. vm_compute. reflexivity. Qed.
