(* ===== verification/Normalize.v ===== *)
(** * Theorems: normalization (definition_validate.go: normalizeDefinition)

    Normalization reaches a fixed point in one pass, which is what makes the
    canonical bytes of a definition and of its normal form the same; the IDs it
    generates are fresh and it never changes an ID that was written. *)

From S2P Require Import Prelude Identifier Values Events Datamodel Chart Definitions Validate Layout Compile Authoring.
From stdpp Require Import options.

(** ** Predicates on every state of a tree *)

Inductive every (P : StateDefinition → Prop) : StateDefinition → Prop :=
| every_intro s : P s → Forall (every P) (sd_Children s) → every P s.

Lemma every_inv P s : every P s → P s ∧ Forall (every P) (sd_Children s).
Proof. by inversion 1. Qed.

Lemma every_impl (P Q : StateDefinition → Prop) s : (∀ x, P x → Q x) → every P s → every Q s.
Proof.
  intros HPQ. induction s as [s IH] using StateDefinition_nested_ind. intros [Hs Hch]%every_inv. constructor; [by apply HPQ|].
  rewrite Forall_forall in *. auto.
Qed.

(** ** Fresh names *)

Lemma nextFree_spec fuel name (reserved used : gset string) next :
  Inj (=) (=) name → used ⊆ reserved → size reserved ≤ size used + fuel →
  (∀ x, x ∈ used → ∃ m, (m ≤ next)%N ∧ x = name m) →
  name (nextFree fuel name reserved next) ∉ reserved.
Proof.
  intros Hinj. revert next used. induction fuel as [|fuel IH]; intros next used Hsub Hsize Hused; simpl.
  - assert (name (next + 1)%N ∉ used) as Hn by (intros (m & Hm & ?%(inj name))%Hused; lia).
    assert (used ≡ reserved) as Heq by (apply set_subseteq_size_equiv; [done | lia]). by rewrite <- Heq.
  - case_decide as E; [|done]. assert (name (next + 1)%N ∉ used) as Hn by (intros (m & Hm & ?%(inj name))%Hused; lia).
    apply (IH _ ({[name (next + 1)%N]} ∪ used)).
    + set_solver.
    + rewrite size_union by set_solver. rewrite size_singleton. lia.
    + intros x [->%elem_of_singleton|Hx]%elem_of_union; [exists (next + 1)%N; split; [lia | done]|].
      destruct (Hused x Hx) as (m & ? & ->). exists m. split; [lia | done].
Qed.

Lemma generate_fresh name st : Inj (=) (=) name → (generate name st).1 ∉ st.1.
Proof.
  intros Hinj. unfold generate. simpl. apply (nextFree_spec _ name st.1 ∅); [done | set_solver | | set_solver].
  rewrite size_empty. lia.
Qed.

#[global] Instance stateName_inj : Inj (=) (=) stateName.
Proof. intros a b H. unfold stateName in H. by apply string_app_inj_l, (inj itoa) in H. Qed.
#[global] Instance invokeName_inj : Inj (=) (=) invokeName.
Proof. intros a b H. unfold invokeName in H. by apply string_app_inj_l, (inj itoa) in H. Qed.

(** ** Generated state IDs *)

Lemma preorder_unfold s : preorder s = sd_id s :: concat (map preorder (sd_Children s)).
Proof. by destruct s. Qed.

(** The blanks of [l] replaced by the names of [G], in order. *)
Fixpoint fill (l G : list string) : list string :=
  match l with
  | [] => []
  | x :: l => if decide (x = "") then match G with [] => x :: fill l [] | g :: G => g :: fill l G end
              else x :: fill l G
  end.

Definition blanks (l : list string) : nat := length (filter (λ x, x = "") l).
Definition written (l : list string) : list string := filter (λ x, x ≠ "") l.

Lemma fill_app l l' G G' : length G = blanks l → fill (l ++ l') (G ++ G') = fill l G ++ fill l' G'.
Proof.
  revert G. induction l as [|x l IH]; intros G HG; unfold blanks in *; simpl in *.
  { by destruct G. }
  rewrite filter_cons in HG. case_decide; [|by rewrite IH]. destruct G as [|g G]; [done|]. simpl in *. by rewrite IH by lia.
Qed.

(** What a pass over states with IDs [l] did: the names [G] it generated. *)
Record assigned (l l' : list string) (st st' : gset string * N) : Prop := {
  as_names : ∃ G, l' = fill l G ∧ length G = blanks l ∧ NoDup G ∧ Forall (λ g, g ∉ st.1) G
               ∧ Forall (λ g, g ≠ "") G ∧ st'.1 = list_to_set G ∪ st.1
}.

Lemma assigned_nil st : assigned [] [] st st.
Proof. split. exists []. split_and!; [done..|constructor|done|done|set_solver]. Qed.

Lemma assigned_app l1 l1' l2 l2' st st1 st2 :
  assigned l1 l1' st st1 → assigned l2 l2' st1 st2 → assigned (l1 ++ l2) (l1' ++ l2') st st2.
Proof.
  intros [(G1 & -> & Hl1 & Hn1 & Hf1 & Hb1 & Hs1)] [(G2 & -> & Hl2 & Hn2 & Hf2 & Hb2 & Hs2)]. split. exists (G1 ++ G2).
  rewrite Forall_forall in Hf1, Hf2. split_and!.
  - by rewrite fill_app.
  - unfold blanks in *. rewrite filter_app, !length_app. lia.
  - apply NoDup_app. split_and!; [done| |done]. intros g Hg Hg2. apply (Hf2 g Hg2). rewrite Hs1. set_solver.
  - apply Forall_forall. intros g [Hg|Hg]%elem_of_app; [by apply Hf1|]. intros Hin. apply (Hf2 g Hg). rewrite Hs1. set_solver.
  - by apply Forall_app.
  - rewrite Hs2, Hs1. set_solver.
Qed.

Lemma assignStateID_assigned id path st r :
  assignStateID id path st = Ok r → assigned [sid_Value id] [sid_Value r.1] st r.2.
Proof.
  unfold assignStateID. case_decide as E.
  - destruct (sid_Generated id); [|done]. pose proof (generate_fresh stateName st _) as Hf.
    destruct (generate stateName st) as [g st'] eqn:Eg. intros [= <-]. simpl in *. split. exists [g].
    unfold generate in Eg. injection Eg as <- <-. simpl. rewrite E. unfold blanks. rewrite filter_cons_True by done.
    split_and!; [done | done | apply NoDup_singleton | by constructor | by constructor | set_solver].
  - intros [= <-]. split. exists []. simpl. rewrite decide_False by done. unfold blanks. rewrite filter_cons_False by done.
    split_and!; [done..|constructor|done|done|set_solver].
Qed.

Lemma assignGeneratedStateIDs_unfold s path st :
  assignGeneratedStateIDs s path st =
    (r ← assignStateID (sd_ID s) path st;
     r' ← mapRange (λ i x st, assignGeneratedStateIDs x (childPath path i) st) 0 (sd_Children s) r.2;
     Ok (set_ID r.1 (set_Children r'.1 s), r'.2)).
Proof. by destruct s. Qed.

Lemma assignGeneratedStateIDs_assigned s path st s' st' :
  assignGeneratedStateIDs s path st = Ok (s', st') → assigned (preorder s) (preorder s') st st'.
Proof.
  revert path st s' st'. induction s as [s IH] using StateDefinition_nested_ind. intros path st s' st'.
  rewrite assignGeneratedStateIDs_unfold. intros (r & Hr & H)%result_bind_Ok.
  apply result_bind_Ok in H as (r' & Hr' & [= <- <-]). apply assignStateID_assigned in Hr.
  rewrite !preorder_unfold. simpl. change (?x :: ?l) with ([x] ++ l). eapply assigned_app; [exact Hr|]. clear Hr.
  revert Hr'. generalize 0%N as i, (r.2) as st1. revert r'. clear r.
  induction IH as [|x xs Hx _ IHxs]; intros r' i st1; simpl; [intros [= <-]; apply assigned_nil|].
  intros (r1 & H1 & (r2 & H2 & [= <-])%result_bind_Ok)%result_bind_Ok. simpl.
  destruct r1 as [x' st2]. eapply assigned_app; [by eapply Hx | by eapply IHxs].
Qed.

Lemma written_collectReserved s reserved :
  list_to_set (written (preorder s)) ∪ reserved ⊆ collectReservedStateIDs s reserved.
Proof.
  revert reserved. induction s as [s IH] using StateDefinition_nested_ind. intros reserved. rewrite preorder_unfold.
  destruct s as [id k h ini en ex ts ivs da dn chs]. simpl in *. unfold sd_id at 1 2 3. simpl.
  assert (∀ R, list_to_set (written (concat (map preorder chs))) ∪ R ⊆ fold_left (λ r x, collectReservedStateIDs x r) chs R) as Hch.
  { induction IH as [|x xs Hx _ IHxs]; intros R; simpl; [unfold written; set_solver|].
    etrans; [|apply IHxs]. unfold written in *. rewrite filter_app, list_to_set_app_L. specialize (Hx R). set_solver. }
  unfold written in *. case_decide as E; [rewrite filter_cons_False by (rewrite E; naive_solver) | rewrite filter_cons_True by done].
  - apply Hch.
  - etrans; [|apply Hch]. rewrite list_to_set_cons. set_solver.
Qed.

Lemma NoDup_fill l G :
  NoDup (written l) → NoDup G → Forall (λ g, g ∉ written l) G → length G = blanks l → NoDup (fill l G)
  ∧ ∀ x, x ∈ fill l G → x ∈ written l ∨ x ∈ G.
Proof.
  revert G. unfold written, blanks. induction l as [|x l IH]; intros G Hw HG Hfr Hlen; simpl in *; [split; [constructor | by intros ? ?%elem_of_nil]|].
  rewrite filter_cons in Hlen. destruct (decide (x = "")) as [Ex|Ex].
  - rewrite filter_cons_False in Hw, Hfr |- * by naive_solver. destruct G as [|g G]; [done|]. simpl in *.
    apply NoDup_cons in HG as [Hg HG]. apply Forall_cons in Hfr as [Hgw Hfr]. destruct (IH G) as [H1 H2]; [done..|lia|]. split.
    + constructor; [|done]. intros [?|?]%H2; done.
    + intros y [->|Hy]%elem_of_cons; [right; left|]. destruct (H2 y Hy); [by left | right; by right].
  - rewrite filter_cons_True in Hw, Hfr |- * by done. apply NoDup_cons in Hw as [Hx Hw].
    destruct (IH G) as [H1 H2]; [done..| |done|].
    { eapply Forall_impl; [exact Hfr|]. intros g Hg Hin. apply Hg. by right. }
    split.
    + constructor; [|done]. intros [?|Hin]%H2; [done|]. rewrite Forall_forall in Hfr. apply (Hfr x Hin). left.
    + intros y [->|Hy]%elem_of_cons; [left; left|]. destruct (H2 y Hy); [left; by right | by right].
Qed.

Lemma fill_keeps l G : length G = blanks l → Forall2 (λ x y, x ≠ "" → y = x) l (fill l G).
Proof.
  revert G. unfold blanks. induction l as [|x l IH]; intros G; simpl; [constructor|].
  rewrite filter_cons. case_decide; simpl.
  - destruct G as [|g G]; [done|]. simpl. intros HG. constructor; [done | apply IH; lia].
  - intros HG. constructor; [done | by apply IH].
Qed.

Lemma fill_nonblank l G : length G = blanks l → Forall (λ g, g ≠ "") G → Forall (λ x, x ≠ "") (fill l G).
Proof.
  revert G. unfold blanks. induction l as [|x l IH]; intros G; simpl; [constructor|].
  rewrite filter_cons. case_decide; simpl.
  - destruct G as [|g G]; [done|]. simpl. intros HG [Hg HGs]%Forall_cons. constructor; [done | apply IH; [lia | done]].
  - intros HG HGs. constructor; [done | by apply IH].
Qed.

Lemma assignRoot_spec r path s' st' :
  assignGeneratedStateIDs r path (collectReservedStateIDs r ∅, 0%N) = Ok (s', st') →
  Forall2 (λ x y, x ≠ "" → y = x) (preorder r) (preorder s') ∧ Forall (λ x, x ≠ "") (preorder s')
  ∧ (NoDup (written (preorder r)) → NoDup (preorder s')).
Proof.
  intros [(G & -> & Hlen & HG & Hfr & Hb & _)]%assignGeneratedStateIDs_assigned. split_and!.
  - by apply fill_keeps.
  - by apply fill_nonblank.
  - intros Hw. apply NoDup_fill; [done..| |done]. eapply Forall_impl; [exact Hfr|]. intros g Hg Hin. apply Hg. simpl.
    apply (written_collectReserved r ∅), elem_of_union_l. by apply elem_of_list_to_set.
Qed.

(** ** The normal form *)

Definition identified (s : StateDefinition) : Prop :=
  sd_id s ≠ "" ∧ Forall (λ i, id_DefinitionID i ≠ "") (sd_Invokes s).
Definition typed (s : StateDefinition) : Prop :=
  (∀ t, sd_Initial s = Some t → td_Type t ≠ "") ∧ Forall (λ t, td_Type t ≠ "") (sd_Transitions s).
Definition defaulted (s : StateDefinition) : Prop := implicitInitial s = sd_Initial s.
Definition normal (s : StateDefinition) : Prop := identified s ∧ typed s ∧ defaulted s.

Lemma every_preorder (P : string → Prop) s : Forall P (preorder s) → every (λ x, P (sd_id x)) s.
Proof.
  induction s as [s IH] using StateDefinition_nested_ind. rewrite preorder_unfold, Forall_cons, Forall_concat. intros [Hs Hch].
  constructor; [done|]. apply (proj1 (Forall_map _ _ _)) in Hch. rewrite Forall_forall in IH, Hch |- *.
  intros x Hx. apply IH; [done | by apply Hch].
Qed.

(** *** Each pass leaves a normal tree alone *)

Lemma mapRange_id {A S} (f : N → A → S → result (A * S)) xs i st :
  Forall (λ x, ∀ i st, f i x st = Ok (x, st)) xs → mapRange f i xs st = Ok (xs, st).
Proof. intros H. revert i. induction H as [|x xs Hx _ IH]; intros i; simpl; [done|]. by rewrite Hx; simpl; rewrite IH. Qed.

Lemma mapAccum_id {A S} (f : A → S → A * S) xs st :
  Forall (λ x, ∀ st, f x st = (x, st)) xs → mapAccum f xs st = (xs, st).
Proof. induction 1 as [|x xs Hx _ IH]; simpl; [done|]. by rewrite Hx, IH. Qed.

Lemma assignGeneratedStateIDs_normal s path st :
  every (λ x, sd_id x ≠ "") s → assignGeneratedStateIDs s path st = Ok (s, st).
Proof.
  revert path st. induction s as [s IH] using StateDefinition_nested_ind. intros path st [Hs Hch]%every_inv.
  rewrite assignGeneratedStateIDs_unfold. unfold assignStateID. rewrite decide_False by done. simpl.
  rewrite (mapRange_id _ (sd_Children s)); [by destruct s|].
  rewrite Forall_forall in *. intros x Hx i st'. by apply IH; [|apply Hch].
Qed.

Lemma assignGeneratedInvokeDefinitionIDs_unfold s st :
  assignGeneratedInvokeDefinitionIDs s st =
    let '(invokes, st) := mapAccum assignInvokeDefinitionID (sd_Invokes s) st in
    let '(children, st) := mapAccum assignGeneratedInvokeDefinitionIDs (sd_Children s) st in
    (set_Invokes invokes (set_Children children s), st).
Proof. by destruct s. Qed.

Lemma assignGeneratedInvokeDefinitionIDs_normal s st :
  every identified s → assignGeneratedInvokeDefinitionIDs s st = (s, st).
Proof.
  revert st. induction s as [s IH] using StateDefinition_nested_ind. intros st [[_ Hs] Hch]%every_inv.
  rewrite assignGeneratedInvokeDefinitionIDs_unfold.
  rewrite (mapAccum_id _ (sd_Invokes s)).
  2: { eapply Forall_impl; [exact Hs|]. intros i Hi st'. unfold assignInvokeDefinitionID. by rewrite decide_False. }
  rewrite (mapAccum_id _ (sd_Children s)); [by destruct s|].
  rewrite Forall_forall in *. intros x Hx st'. by apply IH; [|apply Hch].
Qed.

Lemma normalizeImplicitInitials_normal s : every defaulted s → normalizeImplicitInitials s = s.
Proof.
  induction s as [s IH] using StateDefinition_nested_ind. intros [Hs Hch]%every_inv. unfold defaulted in Hs.
  destruct s as [id k h ini en ex ts ivs da dn chs]. simpl in *. rewrite Hs. unfold set_Initial, set_Children. simpl. f_equal.
  apply list_map_id_Forall. rewrite Forall_forall in *. auto.
Qed.

Lemma normalizeTransitionType_typed t : td_Type t ≠ "" → normalizeTransitionType t = t.
Proof. intros H. unfold normalizeTransitionType. by rewrite decide_False. Qed.
Lemma typed_normalizeTransitionType t : td_Type (normalizeTransitionType t) ≠ "".
Proof. unfold normalizeTransitionType. by case_decide. Qed.

Lemma normalizeTransitionTypes_normal s : every typed s → normalizeTransitionTypes s = s.
Proof.
  induction s as [s IH] using StateDefinition_nested_ind. intros [[Hi Ht] Hch]%every_inv.
  destruct s as [id k h ini en ex ts ivs da dn chs]. simpl in *. unfold set_Initial, set_Transitions, set_Children. simpl. f_equal.
  - destruct ini as [t|]; [|done]. simpl. f_equal. apply normalizeTransitionType_typed. by apply Hi.
  - apply list_map_id_Forall. eapply Forall_impl; [exact Ht|]. apply normalizeTransitionType_typed.
  - apply list_map_id_Forall. rewrite Forall_forall in *. auto.
Qed.

(** *** Each pass establishes its part of the normal form *)

Lemma mapAccum_Forall2 {A B S} (f : A → S → B * S) xs st :
  Forall2 (λ x y, ∃ st', y = (f x st').1) xs (mapAccum f xs st).1.
Proof.
  revert st. induction xs as [|x xs IH]; intros st; simpl; [constructor|].
  destruct (f x st) as [y st1] eqn:E. specialize (IH st1). destruct (mapAccum f xs st1) as [ys st2]. simpl in *.
  constructor; [exists st; by rewrite E | done].
Qed.

Lemma every_identified s st :
  every (λ x, sd_id x ≠ "") s → every identified (assignGeneratedInvokeDefinitionIDs s st).1.
Proof.
  revert st. induction s as [s IH] using StateDefinition_nested_ind. intros st [Hs Hch]%every_inv.
  rewrite assignGeneratedInvokeDefinitionIDs_unfold.
  pose proof (mapAccum_Forall2 assignInvokeDefinitionID (sd_Invokes s) st) as Hi.
  destruct (mapAccum assignInvokeDefinitionID (sd_Invokes s) st) as [ivs st1].
  pose proof (mapAccum_Forall2 assignGeneratedInvokeDefinitionIDs (sd_Children s) st1) as Hc.
  destruct (mapAccum assignGeneratedInvokeDefinitionIDs (sd_Children s) st1) as [chs st2]. simpl in *.
  constructor; simpl; [split; [done|]; simpl |].
  - clear -Hi. induction Hi as [|i i' l l' (st' & ->) _ IHl]; constructor; [|done].
    unfold assignInvokeDefinitionID. case_decide; [|done]. by destruct (generate invokeName st') as [g st''] eqn:E; injection E as <- _.
  - clear -IH Hch Hc. induction Hc as [|x x' l l' (st' & ->) _ IHl]; constructor.
    + apply Forall_cons in IH as [Hx _], Hch as [? _]. by apply Hx.
    + apply Forall_cons in IH as [_ ?], Hch as [_ ?]. by apply IHl.
Qed.

(** The candidates for an implicit default survive a pass that keeps kinds. *)
Lemma head_nonhistory_None f (l : list StateDefinition) :
  (∀ x, sd_Kind (f x) = sd_Kind x) →
  head (filter (λ x, isKind KindHistory x = false) l) = None →
  head (filter (λ x, isKind KindHistory x = false) (map f l)) = None.
Proof.
  intros Hf. induction l as [|x l IH]; [done|]. simpl. rewrite !filter_cons.
  assert (isKind KindHistory (f x) = isKind KindHistory x) as -> by (unfold isKind; by rewrite Hf).
  case_decide; [done | exact IH].
Qed.

Lemma implicitInitial_None f s ini' :
  (∀ x, sd_Kind (f x) = sd_Kind x) → (implicitInitial s = None → ini' = None) →
  (is_Some (implicitInitial s) → is_Some ini') →
  ∀ s', sd_Kind s' = sd_Kind s → sd_Initial s' = ini' → sd_Children s' = map f (sd_Children s) →
  defaulted s'.
Proof.
  intros Hf Hnone Hsome s' Hk Hi Hc. unfold defaulted, implicitInitial in *. rewrite Hi, Hc.
  assert (isKind KindCompound s' = isKind KindCompound s) as -> by (unfold isKind; by rewrite Hk).
  destruct ini' as [t|]; [done|]. destruct (sd_Initial s) as [t|].
  { destruct (Hsome ltac:(eauto)). done. }
  destruct (isKind KindCompound s); [|done].
  destruct (head (filter _ (sd_Children s))) as [x|] eqn:E; [destruct (Hsome ltac:(eauto)); done|].
  by rewrite head_nonhistory_None.
Qed.

Lemma every_defaulted s : every identified s → every (λ x, identified x ∧ defaulted x) (normalizeImplicitInitials s).
Proof.
  induction s as [s IH] using StateDefinition_nested_ind. intros [Hs Hch]%every_inv.
  assert (normalizeImplicitInitials s =
    set_Initial (implicitInitial s) (set_Children (map normalizeImplicitInitials (sd_Children s)) s)) as -> by (by destruct s).
  constructor; simpl.
  - split; [done|]. eapply (implicitInitial_None normalizeImplicitInitials s (implicitInitial s)); try done.
    by intros [].
  - apply Forall_map. rewrite Forall_forall in *. auto.
Qed.

Lemma every_normal s : every (λ x, identified x ∧ defaulted x) s → every normal (normalizeTransitionTypes s).
Proof.
  induction s as [s IH] using StateDefinition_nested_ind. intros [[Hid Hdef] Hch]%every_inv.
  assert (normalizeTransitionTypes s =
    set_Initial (normalizeTransitionType <$> sd_Initial s)
      (set_Transitions (normalizeTransitionType <$> sd_Transitions s)
        (set_Children (map normalizeTransitionTypes (sd_Children s)) s))) as -> by (by destruct s).
  constructor; simpl; [split_and!|].
  - done.
  - split; simpl.
    + intros t (t' & _ & ->)%fmap_Some. apply typed_normalizeTransitionType.
    + apply Forall_fmap, Forall_forall. intros t _. apply typed_normalizeTransitionType.
  - unfold defaulted in Hdef.
    eapply (implicitInitial_None normalizeTransitionTypes s (normalizeTransitionType <$> sd_Initial s));
      rewrite ?Hdef; [by intros [] | by destruct (sd_Initial s) | by destruct (sd_Initial s) as [t|]; [eexists | intros []] | done..].
  - apply Forall_map. rewrite Forall_forall in *. auto.
Qed.

Lemma normalizeRoot_normal r r' : normalizeRoot r = Ok r' → every normal r'.
Proof.
  unfold normalizeRoot. intros ([s st] & Hs & [= <-])%result_bind_Ok.
  apply assignRoot_spec in Hs as (_ & Hn & _). simpl. by apply every_normal, every_defaulted, every_identified, (every_preorder (λ x, x ≠ "")).
Qed.

Lemma normalizeRoot_id r : every normal r → normalizeRoot r = Ok r.
Proof.
  intros H. unfold normalizeRoot. rewrite assignGeneratedStateIDs_normal by (eapply every_impl; [|exact H]; by intros x [[? _] _]).
  simpl. rewrite assignGeneratedInvokeDefinitionIDs_normal by (eapply every_impl; [|exact H]; by intros x [? _]). simpl.
  rewrite normalizeImplicitInitials_normal by (eapply every_impl; [|exact H]; by intros x (_ & _ & ?)).
  by rewrite normalizeTransitionTypes_normal by (eapply every_impl; [|exact H]; by intros x (_ & ? & _)).
Qed.

Lemma validateHeader_binding d b :
  validateHeader d = Ok () → b = BindingEarly ∨ b = df_DataBinding d →
  validateHeader (mkDefinition (df_ID d) (df_Name d) (df_Datamodel d) (df_RevisionSalt d) b (df_Data d) (df_Root d)) = Ok ().
Proof.
  unfold validateHeader. simpl. intros H Hb. apply result_bind_Ok in H as ([] & -> & H). apply result_bind_Ok in H as ([] & -> & H).
  apply result_bind_Ok in H as ([] & -> & H). apply result_bind_Ok in H as ([] & -> & H). simpl.
  destruct Hb as [->| ->]; done.
Qed.

(** A normalized definition is its own normal form. *)
Lemma normalizeDefinition_fixed d n : normalizeDefinition d = Ok n → normalizeDefinition n = Ok n.
Proof.
  unfold normalizeDefinition. rewrite !cloneDefinition_id. intros Hd.
  apply result_bind_Ok in Hd as ([] & Hh & H). apply result_bind_Ok in H as (seen & Hs & H).
  apply result_bind_Ok in H as (r & Hr & H). apply result_bind_Ok in H as (v & Hv & H).
  apply result_bind_Ok in H as (seen' & Hval & [= <-]). simpl.
  assert (∀ r', validateHeader (mkDefinition (df_ID d) (df_Name d) (df_Datamodel d) (df_RevisionSalt d)
    (if decide (df_DataBinding d = "") then BindingEarly else df_DataBinding d) (df_Data d) r') = Ok ()) as Hh'.
  { intros r'. apply (validateHeader_binding d); [done|]. case_decide; auto. }
  rewrite Hh'. simpl. rewrite Hs. simpl. rewrite (normalizeRoot_id r) by (by eapply normalizeRoot_normal). simpl.
  rewrite Hv. simpl. rewrite Hval. simpl. by repeat case_decide.
Qed.

(** C33 (roundtrip): normalization is idempotent: the normalized form of an
    accepted definition is accepted and normalizes to itself, so it has the same
    canonical bytes.  Generated state and invoke IDs, implicit initial
    transitions and default types are stable once assigned. *)
Theorem normalizeDefinition_idempotent (jsonMarshal : ChartDefinition → result string) (d n : ChartDefinition) :
  normalizeDefinition d = Ok n →
  normalizeDefinition n = Ok n ∧ CanonicalBytes jsonMarshal n = CanonicalBytes jsonMarshal d.
Proof.
  intros Hd. pose proof (normalizeDefinition_fixed d n Hd) as Hn. split; [done|]. unfold CanonicalBytes. by rewrite Hd, Hn.
Qed.

(** Generated state IDs: every ID that was written is kept, no
    state is left without one, and when the written IDs are distinct all IDs are
    distinct, also when a written ID looks like a generated one. *)
Theorem generated_state_ids (r r' : StateDefinition) :
  normalizeRoot r = Ok r' →
  Forall2 (λ id id', id ≠ "" → id' = id) (preorder r) (preorder r')
  ∧ Forall (λ id, id ≠ "") (preorder r')
  ∧ (NoDup (written (preorder r)) → NoDup (preorder r')).
Proof.
  unfold normalizeRoot. intros ([s st] & Hs & [= <-])%result_bind_Ok. simpl.
  assert (∀ f, (∀ x, sd_id (f x) = sd_id x) → (∀ x, sd_Children (f x) = map f (sd_Children x)) →
    ∀ x, preorder (f x) = preorder x) as Hsame.
  { intros f Hf Hc x. induction x as [x IH] using StateDefinition_nested_ind. rewrite !preorder_unfold, Hf, Hc. f_equal. f_equal.
    rewrite map_map. apply map_ext_Forall. exact IH. }
  rewrite (Hsame normalizeTransitionTypes), (Hsame normalizeImplicitInitials) by (by intros []).
  assert (∀ x st, preorder (assignGeneratedInvokeDefinitionIDs x st).1 = preorder x) as Hinv.
  { intros x. induction x as [x IH] using StateDefinition_nested_ind. intros st'. rewrite assignGeneratedInvokeDefinitionIDs_unfold.
    destruct (mapAccum assignInvokeDefinitionID (sd_Invokes x) st') as [ivs st1].
    pose proof (mapAccum_Forall2 assignGeneratedInvokeDefinitionIDs (sd_Children x) st1) as Hc.
    destruct (mapAccum assignGeneratedInvokeDefinitionIDs (sd_Children x) st1) as [chs st2]. simpl in *.
    rewrite !preorder_unfold. change (sd_id (set_Invokes ivs (set_Children chs x))) with (sd_id x). simpl. f_equal. f_equal.
    clear -IH Hc. induction Hc as [|y y' l l' (st' & ->) _ IHl]; [done|]. simpl. apply Forall_cons in IH as [Hy IH].
    by rewrite Hy, IHl. }
  rewrite Hinv. by eapply assignRoot_spec.
Qed.

(** ** Witnesses *)

Definition playerNormal : ChartDefinition :=
  match normalizeDefinition playerDefinition with Ok n => n | Err _ => playerDefinition end.

Lemma playerNormal_ok : normalizeDefinition playerDefinition = Ok playerNormal.
Proof.
  unfold playerNormal. destruct (normalizeDefinition playerDefinition) as [n|e] eqn:E; [done|].
  assert (match normalizeDefinition playerDefinition with Ok _ => true | Err _ => false end = true) as H by (vm_compute; reflexivity).
  by rewrite E in H.
Qed.

Lemma normalizeDefinition_idempotent_witness :
  normalizeDefinition playerNormal = Ok playerNormal ∧ preorder (df_Root playerDefinition) ≠ preorder (df_Root playerNormal).
Proof.
  split.
  - exact (proj1 (normalizeDefinition_idempotent (λ d, Ok (df_ID d)) playerDefinition playerNormal playerNormal_ok)).
  - vm_compute. discriminate.
Defined.

(** Two states without an ID, and one whose ID is the first generated name. *)
Definition sparseRoot : StateDefinition :=
  Compound "" "state.1" [Children [Atomic "state.1" []; Atomic "" []]].

Definition sparseNormal : StateDefinition :=
  match normalizeRoot sparseRoot with Ok r => r | Err _ => sparseRoot end.

Lemma generated_state_ids_witness :
  preorder sparseNormal = ["state.2"; "state.1"; "state.3"] ∧ NoDup (preorder sparseNormal).
Proof.
  split; [vm_compute; reflexivity|].
  apply (generated_state_ids sparseRoot sparseNormal).
  - unfold sparseNormal. vm_compute. reflexivity.
  - apply (bool_decide_unpack _). vm_compute. exact I.
Defined.
