(* ===== verification/Artifact.v ===== *)
(** * Definition artifacts (definition_artifact.go, definition_canonical.go, chart.go)

    A [DefinitionArtifact] is what is stored of a compiled chart, so that the
    chart can be compiled again after a restart.  [decodeCanonicalDefinition]
    reads the canonical bytes back and accepts only bytes that are canonical.
    The JSON decoder is a parameter, as [json.Marshal] and SHA-256 are in
    [Compile]. *)

From S2P Require Import Prelude Identifier Values Events Datamodel Chart Definitions Validate Compile Examples Authoring Normalize.
From stdpp Require Import options.

(** ** Slices and big-endian numbers *)

(** [s[:k]] and [s[k:]]. *)
Fixpoint sliceTo (k : nat) (s : string) : string :=
  match k, s with S k, String a s => String a (sliceTo k s) | _, _ => "" end.
Fixpoint sliceFrom (k : nat) (s : string) : string :=
  match k, s with S k, String _ s => sliceFrom k s | _, _ => s end.

(** [binary.BigEndian.Uint32] of four bytes. *)
Fixpoint readBigEndian (acc : N) (s : string) : N :=
  match s with String a s => readBigEndian (acc * 256 + Ascii.N_of_ascii a)%N s | EmptyString => acc end.

Record DefinitionArtifact := mkArtifact {
  da_Revision : string;
  da_RevisionEnvelopeVersion : N;
  da_ChartID : Identifier;
  da_Datamodel : Identifier;
  da_CanonicalDefinition : string;
  da_ProgramFingerprint : string
}.

#[global] Instance DefinitionArtifact_eq_dec : EqDecision DefinitionArtifact.
Proof. solve_decision. Defined.

(** Strings are immutable here: the copy of the bytes is the bytes. *)
Definition artifactClone (a : DefinitionArtifact) : DefinitionArtifact :=
  mkArtifact (da_Revision a) (da_RevisionEnvelopeVersion a) (da_ChartID a) (da_Datamodel a)
    (da_CanonicalDefinition a) (da_ProgramFingerprint a).

Definition artifactEqual (a other : DefinitionArtifact) : bool :=
  bool_decide (da_Revision a = da_Revision other)
  && bool_decide (da_RevisionEnvelopeVersion a = da_RevisionEnvelopeVersion other)
  && bool_decide (da_ChartID a = da_ChartID other)
  && bool_decide (da_Datamodel a = da_Datamodel other)
  && bool_decide (da_CanonicalDefinition a = da_CanonicalDefinition other)
  && bool_decide (da_ProgramFingerprint a = da_ProgramFingerprint other).

Definition ErrInvalidDefinitionArtifact : string := "statecharts: invalid definition artifact".
Definition ErrDefinitionCollision : error := Errorf "statecharts: definition revision collision".
Definition ErrDefinitionNotFound : error := Errorf "statecharts: definition artifact not found".
Definition invalidArtifact (text : string) : error := Errorf (ErrInvalidDefinitionArtifact +:+ ": " +:+ text).

(** What follows the first value of a JSON stream. *)
Inductive trailing := EOF | TrailingValue | TrailingError (e : error).

Section artifact.
Context `{DM : DatamodelSession}.
Variable parseDuration : string → result Z.
Variable jsonMarshal : ChartDefinition → result string.
Variable sha256 : string → string.
(** [decoder.Decode] with unknown fields refused, and the attempt to decode once
    more. *)
Variable jsonDecode : string → result (ChartDefinition * trailing).

Definition headerSize : nat := String.length DefinitionCanonicalMagic + 4.

Definition decodeCanonicalDefinition (data : string) : result ChartDefinition :=
  _ ← fail_if (bool_decide (String.length data < headerSize)) (Errorf "canonical definition is truncated");
  _ ← fail_if (negb (bool_decide (sliceTo (String.length DefinitionCanonicalMagic) data = DefinitionCanonicalMagic)))
        (Errorf "canonical definition has invalid magic");
  let version := readBigEndian 0 (sliceTo 4 (sliceFrom (String.length DefinitionCanonicalMagic) data)) in
  _ ← fail_if (negb (bool_decide (version = DefinitionCanonicalVersion)))
        (Errorf ("canonical definition version " +:+ itoa version +:+ " is unsupported (want "
                 +:+ itoa DefinitionCanonicalVersion +:+ ")"));
  '(definition, rest) ← match jsonDecode (sliceFrom headerSize data) with
                        | Ok r => Ok r
                        | Err e => Err (Wrapf "decode canonical definition: " e)
                        end;
  _ ← match rest with
      | EOF => Ok ()
      | TrailingValue => Err (Errorf "decode canonical definition: trailing JSON value")
      | TrailingError e => Err (Wrapf "decode canonical definition: trailing data: " e)
      end;
  normalized ← normalizeDefinition definition;
  canonical ← CanonicalBytes jsonMarshal normalized;
  _ ← fail_if (negb (bool_decide (canonical = data))) (Errorf "definition bytes are not canonical");
  Ok normalized.

Definition validatedDefinition (a : DefinitionArtifact) : result ChartDefinition :=
  _ ← fail_if (negb (bool_decide (da_RevisionEnvelopeVersion a = RevisionEnvelopeVersion)))
        (invalidArtifact ("revision envelope version " +:+ itoa (da_RevisionEnvelopeVersion a) +:+ " is unsupported (want "
                          +:+ itoa RevisionEnvelopeVersion +:+ ")"));
  _ ← fail_if (bool_decide (da_ProgramFingerprint a = "")) (invalidArtifact "program fingerprint is empty");
  definition ← match decodeCanonicalDefinition (da_CanonicalDefinition a) with
               | Ok d => Ok d
               | Err e => Err (invalidArtifact (msg e))
               end;
  _ ← fail_if (negb (bool_decide (df_ID definition = da_ChartID a)))
        (invalidArtifact ("chart identity " +:+ quote (da_ChartID a) +:+ " does not match definition identity "
                          +:+ quote (df_ID definition)));
  _ ← fail_if (negb (bool_decide (df_Datamodel definition = da_Datamodel a)))
        (invalidArtifact ("datamodel " +:+ quote (da_Datamodel a) +:+ " does not match definition datamodel "
                          +:+ quote (df_Datamodel definition)));
  let want := deriveRevisionFromCanonical sha256 (da_CanonicalDefinition a) (da_Datamodel a) (da_ProgramFingerprint a) in
  _ ← fail_if (negb (bool_decide (da_Revision a = want)))
        (invalidArtifact ("revision " +:+ quote (da_Revision a) +:+ " does not match artifact content (want "
                          +:+ quote want +:+ ")"));
  Ok definition.

(** The method [Validate]. *)
Definition artifactValidate (a : DefinitionArtifact) : result unit := _ ← validatedDefinition a; Ok ().

(** The method [Compile]. *)
Definition artifactCompile (a : DefinitionArtifact) (model : option Datamodel) : result compiledChart :=
  definition ← validatedDefinition a;
  match model with
  | None => Err (Errorf "statecharts: compile definition artifact: nil datamodel")
  | Some m =>
      _ ← fail_if (negb (bool_decide (model_Name m = da_Datamodel a)))
            (Errorf ("statecharts: compile definition artifact: datamodel " +:+ quote (model_Name m)
                     +:+ " does not match artifact datamodel " +:+ quote (da_Datamodel a)));
      chart ← match Compile parseDuration jsonMarshal sha256 definition model with
              | Ok c => Ok c
              | Err e => Err (Wrapf "statecharts: compile definition artifact: " e)
              end;
      _ ← fail_if (negb (bool_decide (cc_fingerprint chart = da_ProgramFingerprint a))
                   || negb (bool_decide (cc_revision chart = da_Revision a)))
            (invalidArtifact ("recompilation produced revision " +:+ quote (cc_revision chart)
                              +:+ " with a different program fingerprint"));
      Ok chart
  end.

(** [Chart.DefinitionArtifact]. *)
Definition artifactOf (c : compiledChart) : DefinitionArtifact :=
  mkArtifact (cc_revision c) RevisionEnvelopeVersion (df_ID (cc_definition c)) (df_Datamodel (cc_definition c))
    (cc_canonical c) (cc_fingerprint c).

(** ** Lemmas *)

#[local] Arguments Compile : simpl never.

Lemma sliceTo_app s t : sliceTo (String.length s) (s +:+ t) = s.
Proof. induction s as [|a s IH]; [by destruct t|]. rewrite string_app_cons. simpl. by rewrite IH. Qed.

Lemma sliceFrom_app s t : sliceFrom (String.length s) (s +:+ t) = t.
Proof. induction s as [|a s IH]; [by destruct t|]. rewrite string_app_cons. exact IH. Qed.

(** What [Compile] puts into the fields of a chart that the artifact uses. *)
Lemma Compile_fields d m c :
  Compile parseDuration jsonMarshal sha256 d (Some m) = Ok c →
  normalizeDefinition d = Ok (cc_definition c)
  ∧ df_Datamodel (cc_definition c) = model_Name m
  ∧ cc_fingerprint c ≠ ""
  ∧ CanonicalBytes jsonMarshal (cc_definition c) = Ok (cc_canonical c)
  ∧ cc_revision c = deriveRevisionFromCanonical sha256 (cc_canonical c) (model_Name m) (cc_fingerprint c).
Proof.
  unfold Compile. intros H. apply result_bind_Ok in H as (n & Hn & H). apply result_bind_Ok in H as ([] & Hm & H).
  apply fail_if_Ok, negb_false_iff, bool_decide_eq_true in Hm. apply result_bind_Ok in H as ([p|] & Hp & H); [|done].
  apply result_bind_Ok in H as ([] & Hf & H). apply fail_if_Ok, bool_decide_eq_false in Hf.
  apply result_bind_Ok in H as (can & Hcan & H). apply result_bind_Ok in H as (gd & _ & H).
  apply result_bind_Ok in H as (b & _ & [= <-]). simpl. destruct (CanonicalBytes jsonMarshal n) as [x|]; simplify_eq/=. done.
Qed.

(** Compiling the normal form gives the same chart. *)
Lemma Compile_normal d n model :
  normalizeDefinition d = Ok n →
  Compile parseDuration jsonMarshal sha256 n model = Compile parseDuration jsonMarshal sha256 d model.
Proof. intros Hn. unfold Compile. destruct model; [|done]. by rewrite Hn, (normalizeDefinition_fixed d n Hn). Qed.

(** The decoder accepts canonical bytes, given that JSON can be read back. *)
Lemma decode_canonical n bytes :
  normalizeDefinition n = Ok n →
  (∀ body, jsonMarshal n = Ok body → jsonDecode body = Ok (n, EOF)) →
  CanonicalBytes jsonMarshal n = Ok bytes →
  decodeCanonicalDefinition bytes = Ok n.
Proof.
  intros Hn Hj Hb. pose proof Hb as Hb'. unfold CanonicalBytes in Hb'. rewrite Hn in Hb'. simpl in Hb'.
  apply result_bind_Ok in Hb' as (body & Hbody & [= Hbytes]).
  assert (headerSize ≤ String.length bytes) as Hlen.
  { rewrite <- Hbytes, !string_length_app. unfold headerSize. simpl. lia. }
  assert (sliceTo (String.length DefinitionCanonicalMagic) bytes = DefinitionCanonicalMagic) as Hmagic
    by (rewrite <- Hbytes; apply sliceTo_app).
  assert (sliceTo 4 (sliceFrom (String.length DefinitionCanonicalMagic) bytes) = bigEndian 4 DefinitionCanonicalVersion) as Hver
    by (rewrite <- Hbytes, sliceFrom_app; apply (sliceTo_app (bigEndian 4 DefinitionCanonicalVersion))).
  assert (sliceFrom headerSize bytes = body) as Hrest.
  { rewrite <- Hbytes, <- string_app_assoc. apply (sliceFrom_app (DefinitionCanonicalMagic +:+ bigEndian 4 DefinitionCanonicalVersion)). }
  unfold decodeCanonicalDefinition. rewrite Hmagic, Hver, Hrest, (Hj body Hbody), (bool_decide_false (String.length bytes < headerSize)) by lia.
  simpl. rewrite Hn. simpl. rewrite Hb. simpl. by rewrite bool_decide_true.
Qed.

(** C30 (roundtrip): an artifact brings its chart back.  When JSON can be read back
    for the normalized definition of a compiled chart, the chart's artifact is
    valid, holds that definition, and compiles with the same datamodel to the
    very same chart. *)
Theorem artifact_roundtrip (d : ChartDefinition) (m : Datamodel) (c : compiledChart) :
  Compile parseDuration jsonMarshal sha256 d (Some m) = Ok c →
  (∀ body, jsonMarshal (cc_definition c) = Ok body → jsonDecode body = Ok (cc_definition c, EOF)) →
  validatedDefinition (artifactOf c) = Ok (cc_definition c)
  ∧ artifactCompile (artifactOf c) (Some m) = Ok c.
Proof using Type.
  intros Hc Hj. pose proof (Compile_fields d m c Hc) as (Hn & Hd & Hf & Hb & Hr).
  assert (validatedDefinition (artifactOf c) = Ok (cc_definition c)) as Hv.
  { unfold validatedDefinition, artifactOf. simpl.
    rewrite (decode_canonical _ _ (normalizeDefinition_fixed d _ Hn) Hj Hb), (bool_decide_false (cc_fingerprint c = "")) by done. simpl.
    rewrite !bool_decide_true by (rewrite ?Hd; done). done. }
  split; [done|]. unfold artifactCompile. rewrite Hv. simpl. rewrite bool_decide_true by done. simpl.
  rewrite (Compile_normal d _ _ Hn), Hc. simpl. by rewrite !bool_decide_true by done.
Qed.
End artifact.

(** The player's chart; the decoder knows its definition. *)
Definition playerDecode (s : string) : result (ChartDefinition * trailing) := Ok (cc_definition (compiledOf playerDefinition), EOF).

Lemma artifact_roundtrip_witness :
  artifactCompile oneSecond (λ d, Ok (df_ID d)) (λ s, s) playerDecode (artifactOf (compiledOf playerDefinition)) (Some counterModel)
  = Ok (compiledOf playerDefinition).
Proof.
  apply (artifact_roundtrip oneSecond (λ d, Ok (df_ID d)) (λ s, s) playerDecode playerDefinition).
  - apply compiles_compiledOf. vm_compute. reflexivity.
  - intros body _. unfold playerDecode. reflexivity.
Defined.

(** ** Revision material (revision.go)

    The bytes that are hashed into a revision determine the canonical
    definition, the datamodel name and the program fingerprint they frame. *)

Lemma length_bigEndian k n : String.length (bigEndian k n) = k.
Proof. induction k as [|k IH]; [done|]. simpl. by rewrite IH. Qed.

Lemma ascii_of_N_mod_inj a b :
  Ascii.ascii_of_N (a mod 256) = Ascii.ascii_of_N (b mod 256) → (a mod 256 = b mod 256)%N.
Proof.
  intros H. apply (f_equal Ascii.N_of_ascii) in H.
  by rewrite !Ascii.N_ascii_embedding in H by (apply N.mod_lt; lia).
Qed.

(** The digits of two numbers below [256 ^ k] determine them. *)
Lemma bigEndian_mod k n m : bigEndian k n = bigEndian k m → (n mod 256 ^ N.of_nat k = m mod 256 ^ N.of_nat k)%N.
Proof.
  induction k as [|k IH]; intros H; [by rewrite !N.mod_1_r|]. simpl in H. injection H as H0 H%IH.
  apply ascii_of_N_mod_inj in H0. rewrite Nat2N.inj_succ, N.pow_succ_r', N.mul_comm.
  rewrite !N.Div0.mod_mul_r. congruence.
Qed.

Lemma bigEndian_inj k n m :
  (n < 256 ^ N.of_nat k)%N → (m < 256 ^ N.of_nat k)%N → bigEndian k n = bigEndian k m → n = m.
Proof. intros Hn Hm H%bigEndian_mod. by rewrite !N.mod_small in H. Qed.

Lemma string_app_length_inj (s t s' t' : string) :
  String.length s = String.length s' → s +:+ t = s' +:+ t' → s = s' ∧ t = t'.
Proof.
  revert s'. induction s as [|a s IH]; intros [|b s'] Hl H; try done.
  rewrite !string_app_cons in H. injection H as -> H. simpl in Hl. injection Hl as Hl. by destruct (IH s' Hl H) as [-> ->].
Qed.

Definition framable (s : string) : Prop := (N.of_nat (String.length s) < 2 ^ 64)%N.

Lemma revisionField_inj s t s' t' :
  framable s → framable s' → revisionField s +:+ t = revisionField s' +:+ t' → s = s' ∧ t = t'.
Proof.
  unfold framable, revisionField. rewrite !string_app_assoc. intros Hs Hs' H.
  apply string_app_length_inj in H as [Hlen H]; [|by rewrite !length_bigEndian].
  apply bigEndian_inj, Nat2N.inj in Hlen; [|done..]. by apply string_app_length_inj.
Qed.

(** The framing of revision material is unambiguous: two programs
    whose fields are shorter than [2 ^ 64] bytes have the same material exactly
    when they have the same canonical definition, datamodel name and program
    fingerprint, so distinct programs share a revision only by a collision of
    the digest. *)
Theorem revisionMaterial_injective (a b c a' b' c' : string) :
  framable a → framable b → framable c → framable a' → framable b' → framable c' →
  revisionMaterial a b c = revisionMaterial a' b' c' → a = a' ∧ b = b' ∧ c = c'.
Proof.
  intros Ha Hb Hc Ha' Hb' Hc' H. unfold revisionMaterial in H. do 2 apply string_app_inj_l in H.
  apply revisionField_inj in H as [-> H]; [|done..]. apply revisionField_inj in H as [-> H]; [|done..].
  rewrite <- (string_app_nil_r (revisionField c)), <- (string_app_nil_r (revisionField c')) in H.
  by apply revisionField_inj in H as [-> _].
Qed.

(** Moving a byte between two fields changes the material. *)
Lemma revisionMaterial_injective_witness : revisionMaterial "ab" "c" "f" ≠ revisionMaterial "a" "bc" "f".
Proof.
  intros H. destruct (revisionMaterial_injective "ab" "c" "f" "a" "bc" "f") as [E _];
    [unfold framable; simpl; lia..|exact H|discriminate E].
Defined.
