(* ===== verification/Content.v ===== *)
(** * Theorems: compiled executable content

    The validator checks the tagged union of every executable node, so the
    compiler never follows a nil payload; and what it admits inside [<finalize>]
    compiles to content that cannot raise, send or cancel. *)

From S2P Require Import Prelude Identifier Values Events Datamodel Chart Legal Interp Actions Effects Definitions Validate.
From S2P Require Import Layout Compile Indexed Validated Accepted Authoring Normalize.
From stdpp Require Import options.

(** ** Valid content *)

Definition valid_node (fin : bool) (e : Executable) : Prop := ∃ path, validateExecutable fin e path = Ok ().
Definition valid_blocks (fin : bool) (bs : list ExecutableBlock) : Prop := blocks_all (valid_node fin) bs.
Definition valid_params (ps : list ParamDefinition) : Prop :=
  Forall (λ q, is_Some (pd_Expr q) ∨ is_Some (pd_Location q)) ps.

(** The payload that the kind of a valid node selects is there, and what is
    inside it is valid. *)
Definition payload_ok (fin : bool) (e : Executable) : Prop :=
  (fin = true → forbiddenInFinalize (ex_Kind e) = false)
  ∧ (ex_Kind e = ExecutableRaise ∧ is_Some (ex_Raise e)
     ∨ (∃ s, ex_Kind e = ExecutableSend ∧ ex_Send e = Some s ∧ valid_params (sn_Params s))
     ∨ ex_Kind e = ExecutableCancel ∧ is_Some (ex_Cancel e)
     ∨ ex_Kind e = ExecutableLog ∧ is_Some (ex_Log e)
     ∨ ex_Kind e = ExecutableAssign ∧ is_Some (ex_Assign e)
     ∨ (∃ bs els, ex_Kind e = ExecutableChoose ∧ ex_Choose e = Some (mkChoose bs els)
         ∧ Forall (λ b, valid_blocks fin (cb_Actions b)) bs ∧ valid_blocks fin els)
     ∨ (∃ a i x bs, ex_Kind e = ExecutableForEach ∧ ex_ForEach e = Some (mkForEach a i x bs) ∧ valid_blocks fin bs)
     ∨ ex_Kind e = ExecutableScript ∧ is_Some (ex_Script e)
     ∨ ex_Kind e = ExecutableCall ∧ is_Some (ex_Call e)
     ∨ ex_Kind e = ExecutableExtension ∧ is_Some (ex_Extension e)).

Lemma validateBlocks_valid fin bs path :
  validateBlocks_with (validateExecutable fin) bs path = Ok () → valid_blocks fin bs.
Proof.
  unfold validateBlocks_with. intros H. apply Forall_forall. intros b Hb.
  eapply checkEach_Ok in H as (j & Hj); [|exact Hb]. unfold validateBlock in Hj.
  apply result_bind_Ok in Hj as ([] & _ & Hj). apply Forall_forall. intros e He.
  eapply checkEach_Ok in Hj as (k & Hk); [|exact He]. by eexists.
Qed.

Lemma validateParam_valid path i q seen seen' :
  validateParam path i q seen = Ok seen' → is_Some (pd_Expr q) ∨ is_Some (pd_Location q).
Proof.
  unfold validateParam. intros H. inv_ok.
  destruct (pd_Expr q), (pd_Location q); simpl in *; eauto. done.
Qed.

Lemma validateParams_valid ps path : validateParams ps path = Ok () → valid_params ps.
Proof.
  unfold validateParams. intros (seen & H & _)%result_bind_Ok. revert H. generalize 0%N as i, (∅ : gset string) as s0.
  induction ps as [|q ps IH]; intros i s0; simpl; [constructor|].
  intros (s1 & H1 & H2)%result_bind_Ok. constructor; [by eapply validateParam_valid | by eapply IH].
Qed.

Lemma validateSend_valid s path : validateSend s path = Ok () → valid_params (sn_Params s).
Proof. unfold validateSend. intros H. repeat apply result_bind_Ok in H as ([] & ? & H). by eapply validateParams_valid. Qed.

Lemma validateExecutable_payload fin e : valid_node fin e → payload_ok fin e.
Proof.
  intros [path H]. destruct e as [k rs sd cn lg asg ch fe sc ca ex]. simpl in H.
  apply result_bind_Ok in H as ([] & _ & H). apply result_bind_Ok in H as ([] & Hfin%fail_if_Ok & H).
  unfold payload_ok. simpl. split; [by intros ->|].
  repeat case_decide; [left | right; left | do 2 right; left | do 3 right; left | do 4 right; left | do 5 right; left
    | do 6 right; left | do 7 right; left | do 8 right; left | do 9 right | done].
  - by destruct rs; [eauto|].
  - destruct sd as [s|]; [|done]. exists s. split_and!; [done..|]. by eapply validateSend_valid.
  - by destruct cn; [eauto|].
  - by destruct lg; [eauto|].
  - by destruct asg; [eauto|].
  - destruct ch as [[bs els]|]; [|done]. exists bs, els. apply result_bind_Ok in H as ([] & _ & H).
    apply result_bind_Ok in H as ([] & Hb & He%validateBlocks_valid). split_and!; [done..| |done].
    apply Forall_forall. intros [cond acts] Hin. eapply checkEach_Ok in Hb as (j & Hj); [|exact Hin]. simpl in Hj.
    apply result_bind_Ok in Hj as ([] & _ & Hj%validateBlocks_valid). done.
  - destruct fe as [[a i x bs]|]; [|done]. apply result_bind_Ok in H as ([] & _ & H).
    apply result_bind_Ok in H as ([] & _ & H%validateBlocks_valid). by exists a, i, x, bs.
  - by destruct sc; [eauto|].
  - by destruct ca; [eauto|].
  - by destruct ex; [eauto|].
Qed.

(** ** Errors of the compiler *)

Definition compile_error (e : error) : Prop := e ≠ nilDereference.

Lemma definitionError_compile path m : compile_error (definitionError path m).
Proof. unfold compile_error, definitionError, nilDereference, Errorf. intros [=]. Qed.

Section errors.
Context `{DM : DatamodelSession}.

(** A computation that fails, if at all, with an error other than a nil
    dereference. *)
Definition sound {A} (r : result A) : Prop := ∀ e, r = Err e → compile_error e.

Lemma sound_Ok {A} (a : A) : sound (Ok a).
Proof. by intros e. Qed.
Lemma sound_bind {A B} (r : result A) (f : A → result B) : sound r → (∀ a, sound (f a)) → sound (r ≫= f).
Proof. intros Hr Hf e. destruct r as [a|e']; simpl; [apply Hf | intros [= <-]; by apply Hr]. Qed.
Lemma sound_at_path {A} path (r : result A) : sound (at_path path r).
Proof. intros e. destruct r; simpl; [done|]. intros [= <-]. apply definitionError_compile. Qed.
Lemma sound_definitionError {A} path m : sound (A := A) (Err (definitionError path m)).
Proof. intros e [= <-]. apply definitionError_compile. Qed.
Lemma sound_fmap {A B} (f : A → B) (r : result A) : sound r → sound (f <$> r).
Proof. intros Hr e. destruct r as [a|e']; simpl; [done|]. intros [= <-]. by apply Hr. Qed.
Lemma sound_fail_if b path m : sound (fail_if b (definitionError path m)).
Proof. unfold fail_if. destruct b; [apply sound_definitionError | apply sound_Ok]. Qed.
Lemma sound_collectEach {A B} (f : N → A → result B) i xs :
  Forall (λ x, ∀ i, sound (f i x)) xs → sound (collectEach f i xs).
Proof.
  intros H. revert i. induction H as [|x xs Hx _ IH]; intros i; simpl; [apply sound_Ok|].
  apply sound_bind; [done|]. intros y. apply sound_bind; [apply IH|]. intros ys. apply sound_Ok.
Qed.
End errors.

Create HintDb sound.
#[export] Hint Resolve sound_Ok sound_at_path sound_definitionError sound_fail_if : sound.

(** Follows the binds of a compile function down to its leaves. *)
Ltac soundness := repeat first [solve [auto with sound] | apply sound_fmap | apply sound_bind; [|intros ?]].

(** ** Errors of the validator *)

Lemma sound_checkEach {A} (f : N → A → result unit) i xs : Forall (λ x, ∀ i, sound (f i x)) xs → sound (checkEach f i xs).
Proof.
  intros H. revert i. induction H as [|x xs Hx _ IH]; intros i; simpl; [apply sound_Ok|].
  apply sound_bind; [done|]. intros _. apply IH.
Qed.
Lemma sound_checkEach_all {A} (f : N → A → result unit) i xs : (∀ i x, sound (f i x)) → sound (checkEach f i xs).
Proof. intros H. apply sound_checkEach, Forall_forall. auto. Qed.
Lemma sound_forRange {A S} (f : N → A → S → result S) i xs st :
  Forall (λ x, ∀ i st, sound (f i x st)) xs → sound (forRange f i xs st).
Proof.
  intros H. revert i st. induction H as [|x xs Hx _ IH]; intros i st; simpl; [apply sound_Ok|].
  apply sound_bind; [done|]. intros st'. apply IH.
Qed.
Lemma sound_forRange_all {A S} (f : N → A → S → result S) i xs st : (∀ i x st, sound (f i x st)) → sound (forRange f i xs st).
Proof. intros H. apply sound_forRange, Forall_forall. auto. Qed.
Lemma sound_mapRange {A B S} (f : N → A → S → result (B * S)) i xs st :
  Forall (λ x, ∀ i st, sound (f i x st)) xs → sound (mapRange f i xs st).
Proof.
  intros H. revert i st. induction H as [|x xs Hx _ IH]; intros i st; simpl; [apply sound_Ok|].
  apply sound_bind; [done|]. intros r. apply sound_bind; [apply IH|]. intros r'. apply sound_Ok.
Qed.
Lemma sound_whenSome {A} (o : option A) f : (∀ a, sound (f a)) → sound (whenSome o f).
Proof. intros H. destruct o; simpl; [apply H | apply sound_Ok]. Qed.
Lemma sound_if {A} (b : bool) (r r' : result A) : sound r → sound r' → sound (if b then r else r').
Proof. by destruct b. Qed.

(** The same through the loops and conditionals of the validator. *)
Ltac checks := repeat first
  [ solve [auto with sound] | apply sound_fmap | apply sound_bind; [|intros ?] | apply sound_whenSome; intros ?
  | apply sound_checkEach_all; intros ? ? | apply sound_forRange_all; intros ? ? ? | apply sound_if
  | match goal with
    | |- sound (match ?x with _ => _ end) => destruct x
    end ].

Lemma sound_validateExpression e path : sound (validateExpression e path).
Proof. unfold validateExpression. checks. Qed.
#[local] Hint Resolve sound_validateExpression : sound.
Lemma sound_validateParams ps path : sound (validateParams ps path).
Proof. unfold validateParams, validateParam. checks. Qed.
Lemma sound_validateFunctionRef r path : sound (validateFunctionRef r path).
Proof. unfold validateFunctionRef. checks. Qed.
#[local] Hint Resolve sound_validateParams sound_validateFunctionRef : sound.
Lemma sound_validateSend s path : sound (validateSend s path).
Proof. unfold validateSend. checks. Qed.
Lemma sound_validateRaise r path : sound (validateRaise r path).
Proof. unfold validateRaise. checks. Qed.
Lemma sound_validateCancel x path : sound (validateCancel x path).
Proof. unfold validateCancel. checks. Qed.
Lemma sound_validateLog l path : sound (validateLog l path).
Proof. unfold validateLog. checks. Qed.
Lemma sound_validateExtension x path : sound (validateExtension x path).
Proof. unfold validateExtension. checks. Qed.
#[local] Hint Resolve sound_validateSend sound_validateRaise sound_validateCancel sound_validateLog sound_validateExtension : sound.

Lemma sound_validateBlocks_with f bs path : blocks_all (λ e, ∀ path, sound (f e path)) bs → sound (validateBlocks_with f bs path).
Proof.
  intros H. unfold validateBlocks_with. apply sound_checkEach. eapply Forall_impl; [exact H|]. intros b Hb i.
  unfold validateBlock. apply sound_bind; [auto with sound|]. intros _. apply sound_checkEach.
  eapply Forall_impl; [exact Hb|]. auto.
Qed.

Lemma sound_validateExecutable fin e path : sound (validateExecutable fin e path).
Proof.
  revert path. induction e as [e [IHc IHf]] using Executable_nested_ind. intros path.
  destruct e as [k rs sd cn lg asg ch fe sc ca ex]. simpl in *.
  apply sound_bind; [auto with sound|]. intros _. apply sound_bind; [auto with sound|]. intros _.
  repeat case_decide; unfold mismatch; [destruct rs | destruct sd | destruct cn | destruct lg | destruct asg |
    destruct ch as [[bs els]|] | destruct fe as [[a i x bs]|] | destruct sc | destruct ca | destruct ex |]; soundness.
  - apply sound_checkEach. destruct IHc as [IHb _]. eapply Forall_impl; [exact IHb|]. intros [cond acts] Hb i.
    apply sound_bind; [auto with sound|]. intros _. by apply sound_validateBlocks_with.
  - destruct IHc as [_ IHe]. by apply sound_validateBlocks_with.
  - unfold validateForEachBindings. soundness. case_decide; soundness.
  - by apply sound_validateBlocks_with.
Qed.

Lemma sound_validateBlocks bs path fin : sound (validateBlocks bs path fin).
Proof. apply sound_validateBlocks_with. repeat (apply Forall_forall; intros ? ?). apply sound_validateExecutable. Qed.
#[local] Hint Resolve sound_validateBlocks : sound.

Lemma sound_validateDataDefinitions ds path seen : sound (validateDataDefinitions ds path seen).
Proof. unfold validateDataDefinitions, validateDatum. checks. Qed.
Lemma sound_validateInvoke iv path owner seen : sound (validateInvoke iv path owner seen).
Proof. unfold validateInvoke, registerInvokeIDs. checks. Qed.
Lemma sound_checkPairs f ns : (∀ x y, sound (f x y)) → sound (checkPairs f ns).
Proof. intros H. induction ns as [|x ns IH]; simpl; checks. Qed.
Lemma sound_validateTargetSet v ts path : sound (validateTargetSet v ts path).
Proof.
  unfold validateTargetSet, resolveTarget. apply sound_bind; [checks|]. intros r.
  apply sound_bind; [apply sound_checkPairs; intros; unfold unrelated; checks|]. intros _.
  checks. apply sound_checkPairs. intros. unfold together. checks.
Qed.
#[local] Hint Resolve sound_validateTargetSet : sound.
Lemma sound_validateTransition v t path b : sound (validateTransition v t path b).
Proof. unfold validateTransition. checks. Qed.
#[local] Hint Resolve sound_validateDataDefinitions sound_validateInvoke sound_validateTransition : sound.

Lemma sound_validateStateSelf v n s b seen : sound (validateStateSelf v n s b seen).
Proof.
  unfold validateStateSelf. apply sound_bind; [unfold validateStateHead; checks|]. intros _.
  apply sound_bind; [checks|]. intros seen1. apply sound_bind; [unfold validateStateKind, forbidChild; checks|]. intros _.
  apply sound_bind; [unfold validateInitial, validateDefaultTarget; checks|]. intros _.
  unfold validateDoneData. checks.
Qed.

Section content.
Context `{DM : DatamodelSession}.
Variable parseDuration : string → result Z.
Variable p : DatamodelProgram.

Lemma sound_add path e field : sound (add p path e field).
Proof. apply sound_at_path. Qed.
#[local] Hint Resolve sound_add : sound.

Lemma sound_compilePayload ps content path : valid_params ps → sound (compilePayload p ps content path).
Proof.
  intros Hps. unfold compilePayload. destruct content as [e|]; soundness.
  apply sound_collectEach. eapply Forall_impl; [exact Hps|].
  intros q Hq i. unfold compileParam. simpl in Hq.
  destruct (pd_Expr q) eqn:E1; [by soundness|].
  destruct (pd_Location q) eqn:E2; [by soundness|].
  exfalso. destruct Hq as [[? ?]|[? ?]]; congruence.
Qed.

Lemma sound_compileSend s path : valid_params (sn_Params s) → sound (compileSend parseDuration p s path).
Proof.
  intros Hs. unfold compileSend. soundness; [|by apply sound_compilePayload].
  destruct (nonBlank (sn_Delay s)); [|apply sound_Ok]. destruct (parseDuration (sn_Delay s)); soundness.
Qed.

Lemma sound_compileBlocks_with f fin bs path :
  blocks_all (λ e, ∀ path, valid_node fin e → sound (f e path)) bs → valid_blocks fin bs → sound (compileBlocks_with f bs path).
Proof.
  intros Hf Hv. unfold compileBlocks_with. apply sound_collectEach. apply Forall_forall. intros b Hb i.
  apply sound_collectEach. apply Forall_forall. intros e He j.
  unfold blocks_all, valid_blocks, blocks_all in *. rewrite Forall_forall in Hf, Hv. specialize (Hf b Hb). specialize (Hv b Hb).
  rewrite Forall_forall in Hf, Hv. apply (Hf e He); by apply Hv.
Qed.

(** The compiler never follows a nil payload of valid content. *)
Lemma sound_compileOperation fin e path : valid_node fin e → sound (compileOperation parseDuration p e path).
Proof.
  revert path. induction e as [e IH] using Executable_nested_ind. intros path Hv. pose proof (validateExecutable_payload fin e Hv) as [_ Hp].
  destruct e as [k rs sd cn lg asg ch fe sc ca ex]. unfold inner_all in IH. simpl in *.
  destruct Hp as [[-> [x ->]]|[(x & -> & -> & Hps)|[[-> [x ->]]|[[-> [x ->]]|[[-> [x ->]]|[(bs & els & -> & -> & Hbs & Hels)
    |[(a & i & x & bs & -> & -> & Hbs)|[[-> [x ->]]|[[-> [x ->]]|[-> [x ->]]]]]]]]]]]; simpl;
    first [by apply sound_compileSend | soundness].
  - destruct IH as [[IHb IHe] _]. simpl in *. apply sound_collectEach. rewrite Forall_forall in IHb, Hbs |- *.
    intros [cond acts] Hin j. soundness.
    eapply sound_compileBlocks_with; [by apply (IHb _ Hin) | by apply (Hbs _ Hin)].
  - destruct IH as [[IHb IHe] _]. by eapply sound_compileBlocks_with.
  - case_decide; soundness.
  - destruct IH as [_ IHb]. by eapply sound_compileBlocks_with.
Qed.

Lemma sound_compileBlocks fin bs path : valid_blocks fin bs → sound (compileBlocks parseDuration p bs path).
Proof.
  intros Hv. eapply sound_compileBlocks_with; [|exact Hv]. repeat (apply Forall_forall; intros ? ?).
  intros ? ?. by eapply sound_compileOperation.
Qed.

(** ** Finalize content *)

Lemma compileBlocks_with_finalizable f bs path ops :
  blocks_all (λ e, ∀ path o, valid_node true e → f e path = Ok o → finalizable o = true) bs → valid_blocks true bs →
  compileBlocks_with f bs path = Ok ops → forallb (forallb finalizable) ops = true.
Proof.
  unfold compileBlocks_with. intros Hf Hv H. apply collectEach_Ok in H.
  unfold blocks_all, valid_blocks, blocks_all in *. revert Hf Hv. induction H as [|b o bs ops (i & Hbo) _ IH]; simpl; [done|].
  intros [Hf Hfs]%Forall_cons [Hv Hvs]%Forall_cons. rewrite IH by done. rewrite andb_true_r.
  apply collectEach_Ok in Hbo. clear -Hf Hv Hbo. revert Hf Hv. induction Hbo as [|e x b o (j & Hx) _ IH]; simpl; [done|].
  intros [Hf Hfs]%Forall_cons [Hv Hvs]%Forall_cons. rewrite IH by done. by rewrite (Hf _ _ Hv Hx).
Qed.

Lemma compileOperation_finalizable e path o :
  valid_node true e → compileOperation parseDuration p e path = Ok o → finalizable o = true.
Proof.
  revert path o. induction e as [e IH] using Executable_nested_ind. intros path o Hv.
  pose proof (validateExecutable_payload true e Hv) as [Hfin Hp]. specialize (Hfin eq_refl).
  destruct e as [k rs sd cn lg asg ch fe sc ca ex]. unfold inner_all in IH. simpl in *.
  destruct Hp as [[-> [x ->]]|[(x & -> & -> & Hps)|[[-> [x ->]]|[[-> [x ->]]|[[-> [x ->]]|[(bs & els & -> & -> & Hbs & Hels)
    |[(a & i & x & bs & -> & -> & Hbs)|[[-> [x ->]]|[[-> [x ->]]|[-> [x ->]]]]]]]]]]]; simpl; try done.
  - intros H. inv_ok. done.
  - intros H. inv_ok. done.
  - destruct IH as [[IHb IHe] _]. simpl in *. intros (ys & Hys & (els' & He & [= <-])%result_bind_Ok)%result_bind_Ok. simpl.
    rewrite (compileBlocks_with_finalizable _ _ _ _ IHe Hels He), andb_true_r.
    apply collectEach_Ok in Hys. clear Hv. revert IHb Hbs. induction Hys as [|[cond acts] y bs ys (j & Hy) _ IHys]; simpl; [done|].
    intros [Hb Hbs]%Forall_cons [Hv1 Hvs]%Forall_cons. rewrite IHys by done. rewrite andb_true_r.
    apply result_bind_Ok in Hy as (h & _ & Hy). apply result_bind_Ok in Hy as (z & Hz & [= <-]). simpl.
    by eapply compileBlocks_with_finalizable.
  - destruct IH as [_ IHb]. intros H. apply result_bind_Ok in H as (h & _ & H). apply result_bind_Ok in H as (il & _ & H).
    apply result_bind_Ok in H as (xl & _ & H). apply result_bind_Ok in H as (z & Hz & [= <-]). simpl.
    by eapply compileBlocks_with_finalizable.
  - unfold orNil. intros H. destruct (at_path _ _); [|done]. by injection H as <-.
  - unfold orNil. intros H. destruct (at_path _ _); [|done]. by injection H as <-.
Qed.

Lemma compileBlocks_finalizable bs path ops :
  valid_blocks true bs → compileBlocks parseDuration p bs path = Ok ops → forallb (forallb finalizable) ops = true.
Proof.
  intros Hv. apply compileBlocks_with_finalizable; [|done]. repeat (apply Forall_forall; intros ? ?).
  intros ? ? ? ?. by eapply compileOperation_finalizable.
Qed.

End content.
