(* ===== verification/Compiled.v ===== *)
(** * Theorems: from definition to running chart

    Normalization is idempotent and assigns unique IDs; the compiled chart is
    the definition's tree in document order; every chart that [Compile] returns
    and that meets the three conditions of [supported] keeps a legal
    configuration at run time. *)

From S2P Require Import Prelude Identifier Values Events Datamodel Chart Tree Legal Interp Steps Macrostep Examples.
From S2P Require Import Definitions Validate Layout Compile Indexed Validated Accepted Authoring Normalize.
From stdpp Require Import options.

(** ** What a successful normalization and compilation are *)

Lemma normalizeDefinition_Ok d d' :
  normalizeDefinition d = Ok d' →
  ∃ v seen seen', collectStates (df_Root d') None "root" emptyIndex = Ok v
    ∧ validateState v 0 (df_Root d') true seen = Ok seen'.
Proof.
  unfold normalizeDefinition. intros H. apply result_bind_Ok in H as ([] & _ & H).
  apply result_bind_Ok in H as (seen & _ & H). apply result_bind_Ok in H as (r & _ & H).
  apply result_bind_Ok in H as (v & Hv & H). apply result_bind_Ok in H as (seen' & Hs & [= <-]). eauto.
Qed.

Lemma collected_index r v :
  collectStates r None "root" emptyIndex = Ok v →
  map entry_of (nodes v) = layout None 0 r ∧ index_ok v ∧ byID v = ids_map 0 (ids (layout None 0 r)) ∅.
Proof.
  intros [(ns & Hns & He) Hid Hix]%collectStates_collected. simpl in *. rewrite Hns. split_and!; [done | | done].
  apply Hix. intros id n. simpl. split; [done | by intros (nd & ? & ?)].
Qed.

Lemma index_lookup r v k x q :
  map entry_of (nodes v) = layout None 0 r → index_ok v → layout None 0 r !! k = Some (x, q) → byID v !! sd_id x = Some k.
Proof.
  intros <- Hix. rewrite list_lookup_fmap. destruct (nodes v !! k) as [nd|] eqn:E; [|done]. simpl.
  unfold entry_of. intros [= <- <-]. apply Hix. eauto.
Qed.

Section compile_facts.
Context `{DM : DatamodelSession}.
Variable parseDuration : string → result Z.
Variable jsonMarshal : ChartDefinition → result string.
Variable sha256 : string → string.

Lemma Compile_Ok d m cc :
  Compile parseDuration jsonMarshal sha256 d m = Ok cc →
  normalizeDefinition d = Ok (cc_definition cc)
  ∧ ∃ p b, compileDefinitionState parseDuration p (df_Root (cc_definition cc)) None "root" (mkBuilding [] ∅ ∅) = Ok b
    ∧ c_order (cc_chart cc) = bd_order b ∧ c_byID (cc_chart cc) = bd_byID b.
Proof.
  unfold Compile. destruct m as [m|]; [|done]. intros H. apply result_bind_Ok in H as (n & Hn & H).
  apply result_bind_Ok in H as ([] & _ & H). apply result_bind_Ok in H as ([p|] & _ & H); [|done].
  apply result_bind_Ok in H as ([] & _ & H). apply result_bind_Ok in H as (canonical & _ & H).
  apply result_bind_Ok in H as (data & _ & H). apply result_bind_Ok in H as (b & Hb & [= <-]). simpl. split; [done|].
  by exists p, b.
Qed.

Lemma Compile_linked d m cc :
  Compile parseDuration jsonMarshal sha256 d m = Ok cc →
  ∃ p v, linked parseDuration p (df_Root (cc_definition cc)) v (cc_chart cc).
Proof.
  intros (Hn & p & b & Hb & Ho & Hid)%Compile_Ok.
  apply normalizeDefinition_Ok in Hn as (v & seen & seen' & Hv & Hval).
  apply collected_index in Hv as (Hnodes & Hix & Hids). exists p, v.
  apply compile_layout in Hb as [(css & Hcss & Hfrom) Hmap]. simpl in *. subst css. split.
  - done.
  - done.
  - by rewrite Ho.
  - by rewrite Hid, Hmap, Hids.
  - intros k x q Hk. change k with (0 + k). eapply validateState_node_ok; [|done..].
    intros k' x' q' Hk'. by eapply index_lookup.
Qed.
End compile_facts.

(** ** Document order *)

Section index.
Context `{DM : DatamodelSession}.
Variable parseDuration : string → result Z.
Variable p : DatamodelProgram.
Variable r : StateDefinition.
Variable v : stateIndex.
Variable c : Chart.
Hypothesis Hlink : linked parseDuration p r v c.

Lemma linked_States : States c = map (λ nd, sd_id (nd_state nd)) (nodes v).
Proof using All.
  apply list_eq. intros n. unfold States. rewrite !list_lookup_fmap. pose proof (nodes_lookup _ _ _ _ _ Hlink n) as Hn.
  destruct (nodes v !! n) as [nd|]; simpl in *; symmetry in Hn.
  - destruct (state_of_layout _ _ _ _ _ Hlink _ _ _ Hn) as (cs & Hcs & path & self & Hself & ->).
    unfold state_of in Hcs. rewrite Hcs. simpl. by apply compileStateSelf_shape in Hself as [-> _].
  - apply (state_of_None _ _ _ _ _ Hlink) in Hn. unfold state_of in Hn. by rewrite Hn.
Qed.

Lemma linked_byID id n : c_byID c !! id = Some n ↔ States c !! n = Some id.
Proof using All.
  rewrite (li_byID _ _ _ _ _ Hlink), (li_index _ _ _ _ _ Hlink id n), linked_States, list_lookup_fmap_Some. naive_solver.
Qed.
End index.

Lemma ids_layout par i s : ids (layout par i s) = preorder s.
Proof.
  revert par i. induction s as [s IH] using StateDefinition_nested_ind. intros par i. rewrite layout_unfold.
  destruct s as [id k h ini en ex ts ivs da dn chs]. simpl in *. f_equal. generalize (S i) as b.
  induction IH as [|x xs Hx _ IHxs]; intros b; [done|]. rewrite ids_forest_cons, Hx. simpl. by rewrite IHxs.
Qed.

Section theorems.
Context `{DM : DatamodelSession}.
Variable parseDuration : string → result Z.
Variable jsonMarshal : ChartDefinition → result string.
Variable sha256 : string → string.

(** C15 (functional): the states of a compiled chart are those of the normalized
    definition in document order, each under its own ID: [States] is the
    pre-order of the tree without repetitions, [byID] finds exactly the state
    with an ID, and the parent and child links form a tree in which a parent
    precedes its children. *)
Theorem compile_document_order (d : ChartDefinition) (m : option Datamodel) (cc : compiledChart) :
  Compile parseDuration jsonMarshal sha256 d m = Ok cc →
  States (cc_chart cc) = preorder (df_Root (cc_definition cc))
  ∧ NoDup (States (cc_chart cc))
  ∧ (∀ id n, c_byID (cc_chart cc) !! id = Some n ↔ States (cc_chart cc) !! n = Some id)
  ∧ wf_tree (cc_chart cc).
Proof.
  intros (p & v & Hlink)%Compile_linked.
  pose proof (linked_States _ _ _ _ _ Hlink) as Hst. pose proof (linked_byID _ _ _ _ _ Hlink) as Hid.
  split_and!; [| |done|by eapply linked_wf_tree].
  - rewrite Hst, <- (ids_layout None 0), <- (li_nodes _ _ _ _ _ Hlink). unfold ids. by rewrite map_map.
  - apply NoDup_alt. intros i j x Hi Hj. apply Hid in Hi, Hj. congruence.
Qed.

(** What the validator accepts and [Compile] lowers is what the
    interpreter needs: a compiled chart whose root is compound, in which a
    history state is the only target of its transition and is targeted from
    outside of its parent, is well-formed. *)
Theorem compile_well_formed (d : ChartDefinition) (m : option Datamodel) (cc : compiledChart) :
  Compile parseDuration jsonMarshal sha256 d m = Ok cc → supported (cc_chart cc) = true →
  wf_chart (cc_chart cc) (historyRank (cc_chart cc)).
Proof. intros (p & v & Hlink)%Compile_linked Hsup. by eapply linked_wf_chart. Qed.

(** C1 (invariant): running a compiled chart: in every reachable state of the
    interpreter of a supported compiled chart the configuration is legal and the
    next iteration and the next external event are processed to the end. *)
Theorem compiled_chart_runs_legally (d : ChartDefinition) (m : option Datamodel) (cc : compiledChart)
    (env : environment) (ip : interpretation) :
  Compile parseDuration jsonMarshal sha256 d m = Ok cc → supported (cc_chart cc) = true →
  reachable (cc_chart cc) env ip →
  legal (cc_chart cc) (configuration ip)
  ∧ (∃ ip' b, stableIteration (cc_chart cc) env ip = Some (ip', b))
  ∧ ∀ ev queue, ∃ ip', takeExternal (cc_chart cc) env ev queue ip = Some ip'.
Proof.
  intros (p & v & Hlink)%Compile_linked Hsup Hr. pose proof (linked_wf_chart _ _ _ _ _ Hlink Hsup) as Hwf.
  pose proof (reachable_well_configured _ env _ Hwf ip Hr) as HW. split_and!; [by apply HW|..].
  - destruct (iteration_well_configured _ env _ Hwf ip HW) as (ip' & b & H & _). eauto.
  - intros ev queue. destruct (takeExternal_well_configured _ env _ Hwf ev queue ip HW) as (ip' & H & _). eauto.
Qed.

End theorems.

(** ** Witnesses *)

Lemma player_compiled :
  Compile oneSecond (λ d, Ok (df_ID d)) (λ s, s) playerDefinition (Some counterModel) = Ok (compiledOf playerDefinition).
Proof. apply compiles_compiledOf. vm_compute. reflexivity. Qed.

Lemma compile_document_order_witness :
  States (cc_chart (compiledOf playerDefinition)) = preorder (df_Root (cc_definition (compiledOf playerDefinition)))
  ∧ length (States (cc_chart (compiledOf playerDefinition))) = 12.
Proof.
  split; [|vm_compute; reflexivity].
  exact (proj1 (compile_document_order oneSecond (λ d, Ok (df_ID d)) (λ s, s) playerDefinition (Some counterModel)
    (compiledOf playerDefinition) player_compiled)).
Defined.

Lemma compile_well_formed_witness :
  wf_chart (cc_chart (compiledOf playerDefinition)) (historyRank (cc_chart (compiledOf playerDefinition))).
Proof.
  apply (compile_well_formed oneSecond (λ d, Ok (df_ID d)) (λ s, s) playerDefinition (Some counterModel)
    (compiledOf playerDefinition) player_compiled).
  vm_compute. reflexivity.
Defined.

Definition compiledPlayer0 : interpretation (DM := CounterSession) :=
  default (newInterpretation (0%Z : @Session CounterSession) 0)
    (enterInitial (cc_chart (compiledOf playerDefinition)) plainEnv (newInterpretation (0%Z : @Session CounterSession) 0)).

Lemma compiledPlayer0_reachable : reachable (cc_chart (compiledOf playerDefinition)) plainEnv compiledPlayer0.
Proof.
  exists compiledPlayer0. split; [|apply rtc_refl].
  apply (initial_entered (cc_chart (compiledOf playerDefinition)) plainEnv (0%Z : @Session CounterSession) 0).
  unfold compiledPlayer0. destruct (enterInitial _ plainEnv _) eqn:E; [done|]. exfalso.
  assert (is_Some (enterInitial (cc_chart (compiledOf playerDefinition)) plainEnv
    (newInterpretation (0%Z : @Session CounterSession) 0))) as [ip Hip].
  { apply (bool_decide_unpack _). vm_compute. exact I. }
  congruence.
Qed.

Lemma compiled_chart_runs_legally_witness :
  legal (cc_chart (compiledOf playerDefinition)) (configuration compiledPlayer0).
Proof.
  apply (compiled_chart_runs_legally oneSecond (λ d, Ok (df_ID d)) (λ s, s) playerDefinition (Some counterModel)
    (compiledOf playerDefinition) plainEnv compiledPlayer0 player_compiled).
  - vm_compute. reflexivity.
  - apply compiledPlayer0_reachable.
Defined.
