(* ===== verification/Safety.v ===== *)
(** * Theorems: compilation is free of nil dereferences, finalizers are quiet

    The whole of [Compile] is followed with the facts of Content.v: on any
    definition, valid or not, it returns a chart or an error and never reaches a
    nil node or payload; and the finalizers of the chart it returns have no
    external effect. *)

From S2P Require Import Prelude Identifier Values Events Datamodel Chart Tree Legal Interp Actions Effects Steps Macrostep Evolution Execution.
From S2P Require Import Definitions Validate Layout Compile Indexed Validated Accepted Authoring Normalize Content Compiled Examples.
From stdpp Require Import options.

(** ** The content of one accepted state *)

Record content_ok (s : StateDefinition) : Prop := {
  ct_onEntry : valid_blocks false (sd_OnEntry s);
  ct_onExit : valid_blocks false (sd_OnExit s);
  ct_initial : ∀ t, sd_Initial s = Some t → valid_blocks false (td_Actions t);
  ct_transitions : ∀ t, t ∈ sd_Transitions s → valid_blocks false (td_Actions t);
  ct_invokes : ∀ iv, iv ∈ sd_Invokes s → valid_params (id_Params iv) ∧ valid_blocks true (id_Finalize iv);
  ct_done : ∀ d, sd_DoneData s = Some d → valid_params (dn_Params d)
}.

Lemma forRange_each {A S} (f : N → A → S → result S) i xs st st' :
  forRange f i xs st = Ok st' → ∀ x, x ∈ xs → ∃ j st1 st2, f j x st1 = Ok st2.
Proof.
  revert i st. induction xs as [|y ys IH]; intros i st; simpl; [by intros _ ? ?%elem_of_nil|].
  intros (st1 & H1 & H2)%result_bind_Ok x [->|Hx]%elem_of_cons; [by eauto | by eapply IH].
Qed.

Lemma validateTransition_content v t path b : validateTransition v t path b = Ok () → valid_blocks false (td_Actions t).
Proof.
  unfold validateTransition. intros H. do 5 apply result_bind_Ok in H as ([] & _ & H).
  apply result_bind_Ok in H as ([] & H & _). by apply validateBlocks_valid in H.
Qed.

Lemma validateInvoke_content iv path owner seen seen' :
  validateInvoke iv path owner seen = Ok seen' → valid_params (id_Params iv) ∧ valid_blocks true (id_Finalize iv).
Proof.
  unfold validateInvoke. intros H. do 9 apply result_bind_Ok in H as (? & _ & H).
  apply result_bind_Ok in H as ([] & Hp & H). apply result_bind_Ok in H as ([] & _ & H).
  apply result_bind_Ok in H as ([] & Hb & _). split; [by eapply validateParams_valid | by eapply validateBlocks_valid].
Qed.

Lemma validateStateSelf_content v n s b seen seen' : validateStateSelf v n s b seen = Ok seen' → content_ok s.
Proof.
  unfold validateStateSelf. intros H. do 3 apply result_bind_Ok in H as (? & _ & H).
  apply result_bind_Ok in H as ([] & Hinit & H). apply result_bind_Ok in H as ([] & Hen & H).
  apply result_bind_Ok in H as ([] & Hex & H). apply result_bind_Ok in H as ([] & Hts & H).
  apply result_bind_Ok in H as (seen1 & Hiv & H). apply result_bind_Ok in H as ([] & Hdn & _). split.
  - by eapply validateBlocks_valid.
  - by eapply validateBlocks_valid.
  - intros t Ht. unfold validateInitial in Hinit. rewrite Ht in Hinit. simpl in Hinit.
    apply result_bind_Ok in Hinit as ([] & H1 & _). by eapply validateTransition_content.
  - intros t Ht. eapply checkEach_Ok in Hts as (j & Hj); [|exact Ht]. by eapply validateTransition_content.
  - intros iv Hin. eapply forRange_each in Hiv as (j & st1 & st2 & Hj); [|exact Hin]. by eapply validateInvoke_content.
  - intros d Hd. rewrite Hd in Hdn. simpl in Hdn. unfold validateDoneData in Hdn.
    apply result_bind_Ok in Hdn as ([] & _ & Hdn). apply result_bind_Ok in Hdn as ([] & Hp & _). by eapply validateParams_valid.
Qed.

(** A property of every entry of the layout is one of every state. *)
Lemma every_layout (P : StateDefinition → Prop) s par i :
  (∀ k x q, layout par i s !! k = Some (x, q) → P x) → every P s.
Proof.
  revert par i. induction s as [s IH] using StateDefinition_nested_ind. intros par i H. constructor.
  - apply (H 0 s par). by rewrite layout_unfold.
  - assert (∀ k x q, forest i (S i) (sd_Children s) !! k = Some (x, q) → P x) as Hf.
    { intros k x q Hk. apply (H (S k) x q). by rewrite layout_unfold. }
    clear H. revert Hf. generalize (S i) as b. induction IH as [|y ys Hy _ IHys]; intros b Hf; constructor.
    + apply (Hy (Some i) b). intros k x q Hk. apply (Hf k x q), forest_lookup. left. split; [|done].
      apply lookup_lt_Some in Hk. by rewrite length_layout in Hk.
    + apply (IHys (b + ssize y)). intros k x q Hk. apply (Hf (ssize y + k) x q), forest_lookup. right. split; [lia|].
      by replace (ssize y + k - ssize y) with k by lia.
Qed.

Lemma normalized_content_at d d' k x q :
  normalizeDefinition d = Ok d' → layout None 0 (df_Root d') !! k = Some (x, q) → content_ok x.
Proof.
  intros (v & seen & seen' & Hv & Hval)%normalizeDefinition_Ok Hk. apply collected_index in Hv as (Hn & Hix & _).
  eapply (validateState_each v (λ _, content_ok)) in Hval; [exact Hval | | |exact Hk].
  - intros. by eapply validateStateSelf_content.
  - intros k' x' q' Hk'. by eapply index_lookup.
Qed.

Lemma normalized_content d d' : normalizeDefinition d = Ok d' → every content_ok (df_Root d').
Proof. intros H. apply (every_layout _ _ None 0). intros k x q. by eapply normalized_content_at. Qed.

(** ** Errors of normalization *)

Lemma sound_validateState v s par i b seen :
  (∀ k x q, layout par i s !! k = Some (x, q) → byID v !! sd_id x = Some (i + k)) → sound (validateState v i s b seen).
Proof.
  revert par i b seen. induction s as [s IH] using StateDefinition_nested_ind. intros par i b seen Hid.
  rewrite validateState_unfold. apply sound_bind; [apply sound_validateStateSelf|]. intros seen1.
  assert (∀ k x q, forest i (S i) (sd_Children s) !! k = Some (x, q) → byID v !! sd_id x = Some (S i + k)) as Hid'.
  { intros k x q Hk. rewrite Nat.add_succ_comm. apply (Hid (S k) x q). by rewrite layout_unfold. }
  clear Hid. revert Hid' seen1. generalize 0%N as j. generalize (S i) as base.
  induction IH as [|y ys Hy _ IHys]; intros base j Hid seen1; simpl; [apply sound_Ok|].
  assert (byID v !! sd_id y = Some base) as ->.
  { rewrite <- (Nat.add_0_r base). apply (Hid 0 y (Some i)). by rewrite forest_cons, layout_unfold. }
  apply sound_bind.
  - apply (Hy (Some i)). intros k x q Hk. apply (Hid k x q), forest_lookup. left. split; [|done].
    apply lookup_lt_Some in Hk. by rewrite length_layout in Hk.
  - intros seen2. apply (IHys (base + ssize y)). intros k x q Hk. rewrite <- Nat.add_assoc. apply (Hid _ x q), forest_lookup.
    right. split; [lia|]. by replace (ssize y + k - ssize y) with k by lia.
Qed.

Lemma sound_collectStates s par path v : sound (collectStates s par path v).
Proof.
  revert par path v. induction s as [s IH] using StateDefinition_nested_ind. intros par path v. rewrite collectStates_unfold.
  apply sound_bind; [auto with sound|]. intros _.
  apply sound_bind; [destruct (byID v !! sd_id s); auto with sound|]. intros _.
  apply sound_forRange. eapply Forall_impl; [exact IH|]. auto.
Qed.

Lemma sound_assignGeneratedStateIDs s path st : sound (assignGeneratedStateIDs s path st).
Proof.
  revert path st. induction s as [s IH] using StateDefinition_nested_ind. intros path st. rewrite assignGeneratedStateIDs_unfold.
  apply sound_bind. { unfold assignStateID. case_decide; [|auto with sound]. destruct (sid_Generated _); [|auto with sound].
    destruct (generate stateName st). auto with sound. }
  intros r. apply sound_bind; [|auto with sound]. apply sound_mapRange. eapply Forall_impl; [exact IH|]. auto.
Qed.

Lemma sound_normalizeDefinition d : sound (normalizeDefinition d).
Proof.
  unfold normalizeDefinition. apply sound_bind.
  { unfold validateHeader. soundness. }
  intros _. apply sound_bind; [apply sound_validateDataDefinitions|]. intros seen.
  apply sound_bind. { unfold normalizeRoot. apply sound_bind; [apply sound_assignGeneratedStateIDs | auto with sound]. }
  intros r e. destruct (collectStates r None "root" emptyIndex) as [v|e'] eqn:Hv; simpl.
  - apply sound_bind; [|intros; apply sound_Ok]. apply (sound_validateState v r None 0).
    apply collected_index in Hv as (Hn & Hix & _). intros k x q Hk. by eapply index_lookup.
  - intros [= <-]. by eapply sound_collectStates.
Qed.

(** ** Errors of the lowering *)

Section lowering.
Context `{DM : DatamodelSession}.
Variable parseDuration : string → result Z.
Variable p : DatamodelProgram.

Lemma sound_compileData ds path : sound (compileData p ds path).
Proof.
  unfold compileData. apply sound_collectEach, Forall_forall. intros d _ i. unfold compileDatum. soundness.
  destruct (da_Expr d), (da_Content d); soundness.
Qed.

Lemma sound_compileDefinitionTransition t k i path :
  valid_blocks false (td_Actions t) → sound (compileDefinitionTransition parseDuration p t k i path).
Proof. intros H. unfold compileDefinitionTransition. soundness. by eapply sound_compileBlocks. Qed.

Lemma sound_compileStateSelf s q i path : content_ok s → sound (compileStateSelf parseDuration p s q i path).
Proof.
  intros [H1 H2 H3 H4 H5 H6]. unfold compileStateSelf. apply sound_bind; [by eapply sound_compileBlocks|]. intros en.
  apply sound_bind; [by eapply sound_compileBlocks|]. intros ex. apply sound_bind; [apply sound_compileData|]. intros da.
  apply sound_bind; [|intros dn; apply sound_bind; [|intros ini; apply sound_bind; [|intros ts; apply sound_bind; [|auto with sound]]]].
  - destruct (sd_DoneData s) as [d|]; [|auto with sound]. apply sound_fmap, sound_compilePayload. by apply H6.
  - destruct (sd_Initial s) as [t|]; [|auto with sound]. apply sound_fmap, sound_compileDefinitionTransition. by apply H3.
  - apply sound_collectEach, Forall_forall. intros t Ht k. apply sound_compileDefinitionTransition. by apply H4.
  - apply sound_collectEach, Forall_forall. intros iv Hiv k. destruct (H5 iv Hiv) as [Hp Hb].
    unfold compileDefinitionInvoke. soundness; [by apply sound_compilePayload | by eapply sound_compileBlocks].
Qed.

Lemma sound_compileDefinitionState s par path b : every content_ok s → sound (compileDefinitionState parseDuration p s par path b).
Proof.
  revert par path b. induction s as [s IH] using StateDefinition_nested_ind. intros par path b [Hs Hch]%every_inv.
  rewrite compileDefinitionState_unfold. apply sound_bind; [by apply sound_compileStateSelf|]. intros cs.
  apply sound_forRange. rewrite Forall_forall in *. intros x Hx i st. apply sound_bind; [|auto with sound]. by apply IH; [|apply Hch].
Qed.

(** The finalizers of a compiled state. *)
Lemma compileStateSelf_finalizers s q k path self iv :
  content_ok s → compileStateSelf parseDuration p s q k path = Ok self → iv ∈ st_invokes self →
  forallb (forallb finalizable) (iv_finalize iv) = true.
Proof.
  intros Hct. unfold compileStateSelf. intros H. do 6 apply result_bind_Ok in H as (? & _ & H).
  apply result_bind_Ok in H as (ivs & Hivs & [= <-]). simpl. intros [j Hj]%list_elem_of_lookup_1.
  apply collectEach_Ok in Hivs. destruct (Forall2_lookup_r _ _ _ _ _ Hivs Hj) as (d & Hd & i & Hi).
  destruct (ct_invokes s Hct d) as [_ Hfin]; [by eapply list_elem_of_lookup_2|].
  unfold compileDefinitionInvoke in Hi. do 4 apply result_bind_Ok in Hi as (? & _ & Hi).
  apply result_bind_Ok in Hi as (fin & Hf & [= <-]). simpl. by eapply compileBlocks_finalizable.
Qed.
End lowering.

Section theorems.
Context `{DM : DatamodelSession}.
Variable parseDuration : string → result Z.
Variable jsonMarshal : ChartDefinition → result string.
Variable sha256 : string → string.

(** C34 (safety): compiling a definition never dereferences a nil pointer: for
    every definition, however malformed its unions, IDs and targets, [Compile]
    returns a chart or a regular error.  In particular the validator's lookup of
    a child's node and the compiler's accesses to the payloads of executable
    nodes and parameters are always defined. *)
Theorem compile_never_dereferences_nil (d : ChartDefinition) (m : Datamodel) (e : error) :
  (∀ n e', model_Compile m n = Err e' → e' ≠ nilDereference) →
  Compile parseDuration jsonMarshal sha256 d (Some m) = Err e → e ≠ nilDereference.
Proof.
  intros Hm. revert e. change (sound (Compile parseDuration jsonMarshal sha256 d (Some m))). unfold Compile.
  intros e. destruct (normalizeDefinition d) as [n|e'] eqn:Hn; simpl; [|intros [= <-]; by eapply sound_normalizeDefinition].
  revert e. apply sound_bind; [auto with sound|]. intros _. apply sound_bind; [intros e; apply Hm|]. intros [pr|].
  2: { intros e [= <-]. discriminate. }
  apply sound_bind. { unfold fail_if. destruct (bool_decide _); [intros e [= <-]; discriminate | apply sound_Ok]. }
  intros _. apply sound_bind. { destruct (CanonicalBytes jsonMarshal n); [apply sound_Ok | intros ? [= <-]; discriminate]. }
  intros canonical. apply sound_bind; [apply sound_compileData|]. intros data.
  apply sound_bind; [|auto with sound]. apply sound_compileDefinitionState. by eapply normalized_content.
Qed.

(** The finalizers of a compiled chart are quiet: running the
    finalize content of any of its invocations, on any state of any interpreter,
    sends, schedules, cancels and raises nothing but [error.execution] events. *)
Theorem compiled_finalizers_quiet (d : ChartDefinition) (m : option Datamodel) (cc : compiledChart)
    (cs : compiledState) (iv : compiledInvoke) (env : environment) (ip : interpretation) :
  Compile parseDuration jsonMarshal sha256 d m = Ok cc →
  cs ∈ c_order (cc_chart cc) → iv ∈ st_invokes cs →
  quiet ip (runFinalizeBlocks (cc_chart cc) env (iv_finalize iv) ip).
Proof.
  intros Hc [n Hn]%list_elem_of_lookup_1 Hiv. apply (emits_quiet env), emits_runFinalizeBlocks.
  apply Compile_Ok in Hc as (Hnorm & p & b & Hb & Ho & _).
  apply compile_layout in Hb as [(css & Hcss & [Hlen Hfrom]) _]. simpl in *. rewrite Ho, Hcss in Hn. simpl in Hn.
  destruct (layout None 0 (df_Root (cc_definition cc)) !! n) as [[s q]|] eqn:E.
  2: { apply lookup_ge_None in E. apply lookup_lt_Some in Hn. lia. }
  destruct (Hfrom n s q E) as (cs' & Hcs' & path & self & Hself & ->). simplify_eq.
  eapply compileStateSelf_finalizers; [|exact Hself|exact Hiv]. by eapply normalized_content_at.
Qed.

End theorems.

(** ** Witnesses *)

Lemma compile_never_dereferences_nil_witness :
  ∃ e, Compile oneSecond (λ d, Ok (df_ID d)) (λ s, s) (chartDefinition brokenRoot) (Some counterModel) = Err e
    ∧ e ≠ nilDereference.
Proof.
  destruct (rejected_error (chartDefinition brokenRoot) broken_not_compiled) as [e E].
  exists e. split; [exact E|].
  apply (compile_never_dereferences_nil oneSecond (λ d, Ok (df_ID d)) (λ s, s) (chartDefinition brokenRoot) counterModel e).
  - intros n e'. discriminate.
  - exact E.
Defined.

Lemma elem_of_default {A} (l : list A) n (d : A) : bool_decide (n < length l) = true → default d (l !! n) ∈ l.
Proof.
  intros H%bool_decide_eq_true. apply lookup_lt_is_Some in H as [x Hx]. rewrite Hx. by eapply list_elem_of_lookup_2.
Qed.

(** The state ["both"] and its invocation. *)
Definition bothState : compiledState (DM := CounterSession) :=
  default (node "" KindAtomic Shallow None None [] []) (c_order (cc_chart (compiledOf playerDefinition)) !! 3).
Definition helperInvoke : compiledInvoke (DM := CounterSession) := default service (st_invokes bothState !! 0).

Lemma compiled_finalizers_quiet_witness :
  quiet compiledPlayer0 (runFinalizeBlocks (cc_chart (compiledOf playerDefinition)) plainEnv (iv_finalize helperInvoke) compiledPlayer0)
  ∧ length (iv_finalize helperInvoke) = 1.
Proof.
  split; [|vm_compute; reflexivity].
  apply (compiled_finalizers_quiet oneSecond (λ d, Ok (df_ID d)) (λ s, s) playerDefinition (Some counterModel)
    (compiledOf playerDefinition) bothState helperInvoke plainEnv compiledPlayer0 player_compiled).
  - apply elem_of_default. vm_compute. reflexivity.
  - apply elem_of_default. vm_compute. reflexivity.
Defined.
