(* ===== verification/Declared.v ===== *)
(** * The [<invoke>] elements of a compiled chart

    The validator rejects repeated definition IDs and repeated static IDs over
    the whole tree; the compiler keeps both, sets the owner, and indexes the
    elements by definition ID.  Together: a compiled chart meets [invokes_wf],
    and [invokesByDefinitionID] finds exactly its elements. *)

From S2P Require Import Prelude Identifier Values Events Datamodel Chart Tree Legal Interp Steps Macrostep Completion.
From S2P Require Import Definitions Validate Layout Compile Indexed Validated Accepted Normalize Compiled Safety.
From S2P Require Import Authoring Examples.
From stdpp Require Import options.

(** ** Keys registered in a map *)

(** [m'] is [m] with the keys [ks] added, all of them new. *)
Definition registers {A} (ks : list string) (m m' : gmap string A) : Prop :=
  NoDup ks ∧ (∀ k, k ∈ ks → m !! k = None) ∧ (∀ k, is_Some (m' !! k) ↔ is_Some (m !! k) ∨ k ∈ ks).

Lemma registers_nil {A} (m : gmap string A) : registers [] m m.
Proof. split_and!; [constructor | by intros k ?%elem_of_nil |]. intros k. rewrite elem_of_nil. naive_solver. Qed.

Lemma registers_one {A} (m : gmap string A) k a : m !! k = None → registers [k] m (<[k := a]> m).
Proof.
  intros Hk. split_and!; [apply NoDup_singleton | by intros k' ->%list_elem_of_singleton |].
  intros k'. rewrite lookup_insert_is_Some, list_elem_of_singleton. destruct (decide (k = k')); naive_solver.
Qed.

Lemma registers_app {A} ks ks' (m m' m'' : gmap string A) :
  registers ks m m' → registers ks' m' m'' → registers (ks ++ ks') m m''.
Proof.
  intros (N1 & F1 & D1) (N2 & F2 & D2). split_and!.
  - apply NoDup_app. split_and!; [done | | done]. intros k Hk Hk'. specialize (F2 k Hk').
    assert (is_Some (m' !! k)) as [x Hx] by (apply D1; by right). congruence.
  - intros k [Hk|Hk]%elem_of_app; [by apply F1|]. apply eq_None_not_Some. intros H.
    assert (is_Some (m' !! k)) as [x Hx] by (apply D1; by left). specialize (F2 k Hk). congruence.
  - intros k. rewrite D2, D1, elem_of_app. tauto.
Qed.

(** The definition IDs and the static IDs of a list of elements. *)
Definition definitionIDs (ivs : list InvokeDefinition) : list string := map id_DefinitionID ivs.
Definition staticIDs (ivs : list InvokeDefinition) : list string := filter (λ id, id ≠ "") (map id_ID ivs).

(** The validator went over the elements [ivs]. *)
Definition seen_after (ivs : list InvokeDefinition) (seen seen' : seenIDs) : Prop :=
  registers (definitionIDs ivs) (invokeDefinitionIDs seen) (invokeDefinitionIDs seen')
  ∧ registers (staticIDs ivs) (invokeIDs seen) (invokeIDs seen').

Lemma seen_after_nil seen seen' :
  invokeDefinitionIDs seen' = invokeDefinitionIDs seen → invokeIDs seen' = invokeIDs seen → seen_after [] seen seen'.
Proof. intros H1 H2. unfold seen_after. rewrite H1, H2. split; apply registers_nil. Qed.

Lemma seen_after_app ivs ivs' s1 s2 s3 : seen_after ivs s1 s2 → seen_after ivs' s2 s3 → seen_after (ivs ++ ivs') s1 s3.
Proof.
  intros [A1 B1] [A2 B2]. unfold seen_after, definitionIDs, staticIDs. rewrite !map_app, filter_app.
  split; by eapply registers_app.
Qed.

Lemma registerInvokeIDs_seen iv path owner seen seen' :
  registerInvokeIDs iv path owner seen = Ok seen' → seen_after [iv] seen seen'.
Proof.
  unfold registerInvokeIDs. intros H. apply result_bind_Ok in H as ([] & _ & H).
  apply result_bind_Ok in H as ([] & Hdup & H). destruct (invokeDefinitionIDs seen !! id_DefinitionID iv) eqn:Hd in Hdup; [done|].
  apply result_bind_Ok in H as ([] & _ & H). unfold seen_after, staticIDs. simpl. rewrite filter_cons, filter_nil.
  destruct (nonBlank (id_ID iv)) eqn:Hb.
  - apply result_bind_Ok in H as ([] & _ & H). simpl in H. destruct (invokeIDs seen !! id_ID iv) eqn:Hi in H; [done|].
    injection H as <-. simpl. split; [by apply registers_one|].
    rewrite decide_True; [by apply registers_one|]. intros E. unfold nonBlank in Hb. by rewrite E in Hb.
  - injection H as <-. simpl. split; [by apply registers_one|].
    rewrite decide_False; [by apply registers_nil|]. intros E. unfold nonBlank in Hb.
    apply negb_false_iff, bool_decide_eq_true in Hb. done.
Qed.

Lemma validateInvoke_seen iv path owner seen seen' :
  validateInvoke iv path owner seen = Ok seen' → seen_after [iv] seen seen'.
Proof.
  unfold validateInvoke. intros H. apply result_bind_Ok in H as (seen1 & H1 & H). inv_ok.
  by eapply registerInvokeIDs_seen.
Qed.

Lemma validateInvokes_seen path owner i ivs seen seen' :
  forRange (λ i iv seen, validateInvoke iv (index path i) owner seen) i ivs seen = Ok seen' → seen_after ivs seen seen'.
Proof.
  revert i seen. induction ivs as [|iv ivs IH]; intros i seen; simpl; [intros [= <-]; by apply seen_after_nil|].
  intros (seen1 & H1%validateInvoke_seen & H2%IH)%result_bind_Ok. by apply (seen_after_app [iv] ivs seen seen1).
Qed.

Lemma validateData_seen ds path i seen seen' :
  forRange (validateDatum path) i ds seen = Ok seen' →
  invokeDefinitionIDs seen' = invokeDefinitionIDs seen ∧ invokeIDs seen' = invokeIDs seen.
Proof.
  revert i seen. induction ds as [|d ds IH]; intros i seen; simpl; [by intros [= <-]|].
  intros (seen1 & H1 & [-> ->]%IH)%result_bind_Ok. unfold validateDatum in H1. cbv zeta in H1. inv_ok. done.
Qed.

Section validator.
Variable v : stateIndex.

Lemma validateStateSelf_seen n s b seen seen' :
  validateStateSelf v n s b seen = Ok seen' → seen_after (sd_Invokes s) seen seen'.
Proof.
  unfold validateStateSelf. intros H. apply result_bind_Ok in H as ([] & _ & H).
  apply result_bind_Ok in H as (seen1 & H1 & H). do 5 apply result_bind_Ok in H as ([] & _ & H).
  apply result_bind_Ok in H as (seen2 & H2%validateInvokes_seen & H). apply result_bind_Ok in H as ([] & _ & [= <-]).
  assert (invokeDefinitionIDs seen1 = invokeDefinitionIDs seen ∧ invokeIDs seen1 = invokeIDs seen) as [E1 E2].
  { destruct b; [by injection H1 as <- | by eapply validateData_seen]. }
  destruct H2 as [A B]. rewrite E1 in A. rewrite E2 in B. by split.
Qed.

(** The elements of a tree in document order. *)
Fixpoint treeInvokes (s : StateDefinition) : list InvokeDefinition :=
  sd_Invokes s ++ concat (map treeInvokes (sd_Children s)).

Lemma validateState_seen n s b seen seen' :
  validateState v n s b seen = Ok seen' → seen_after (treeInvokes s) seen seen'.
Proof.
  revert n b seen seen'. induction s as [s IH] using StateDefinition_nested_ind. intros n b seen seen'.
  rewrite validateState_unfold. intros (seen1 & H1%validateStateSelf_seen & H)%result_bind_Ok.
  destruct s as [id k h ini en ex ts ivs da dn chs]. simpl in *. eapply seen_after_app; [exact H1|].
  clear H1. revert H. generalize 0%N as j. revert seen1. induction IH as [|y ys Hy _ IHys]; intros seen1 j; simpl.
  { intros [= <-]. by apply seen_after_nil. }
  intros (seen2 & H1 & H2)%result_bind_Ok. destruct (byID v !! sd_id y) in H1; [|done].
  eapply seen_after_app; [by eapply Hy | by eapply IHys].
Qed.
End validator.

(** ** Lowering *)

Definition layoutInvokes (L : list (StateDefinition * option nat)) : list InvokeDefinition :=
  concat (map (λ e, sd_Invokes e.1) L).

Lemma layoutInvokes_tree par i s : layoutInvokes (layout par i s) = treeInvokes s.
Proof.
  revert par i. induction s as [s IH] using StateDefinition_nested_ind. intros par i. rewrite layout_unfold.
  destruct s as [id k h ini en ex ts ivs da dn chs]. simpl in *. unfold layoutInvokes. simpl. f_equal. generalize (S i) as b.
  induction IH as [|x xs Hx _ IHxs]; intros b; [done|]. rewrite forest_cons, map_app, concat_app. simpl.
  rewrite IHxs. f_equal. apply Hx.
Qed.

Section lowering.
Context `{DM : DatamodelSession}.

(** The compiled form of one element. *)
Definition lowered (k : nat) (d : InvokeDefinition) (iv : compiledInvoke) : Prop :=
  iv_definitionID iv = id_DefinitionID d ∧ iv_id iv = id_ID d ∧ iv_owner iv = k
  ∧ iv_staticType iv = canonicalInvokeType (id_Type d).

(** The index by definition ID. *)
Definition indexInvokes (ivs : list compiledInvoke) (m : gmap string compiledInvoke) : gmap string compiledInvoke :=
  fold_left (λ m iv, <[iv_definitionID iv := iv]> m) ivs m.

Lemma lookup_indexInvokes ivs m id iv :
  NoDup (map iv_definitionID ivs) → (∀ iv, iv ∈ ivs → m !! iv_definitionID iv = None) →
  indexInvokes ivs m !! id = Some iv ↔ m !! id = Some iv ∨ (iv ∈ ivs ∧ iv_definitionID iv = id).
Proof.
  revert m. induction ivs as [|x ivs IH]; intros m Hn Hm; simpl.
  { rewrite elem_of_nil. naive_solver. }
  simpl in Hn. apply NoDup_cons in Hn as [Hx Hn]. rewrite IH; [|done|].
  - rewrite lookup_insert_Some, elem_of_cons. pose proof (Hm x (list_elem_of_here _ _)) as Hmx. naive_solver.
  - intros y Hy. rewrite lookup_insert_ne; [by apply Hm; right|]. intros E. apply Hx. rewrite E.
    by apply list_elem_of_fmap_2.
Qed.

Lemma alter_add_child_invokes x i (css : list compiledState) :
  map st_invokes (alter (add_child x) i css) = map st_invokes css.
Proof.
  apply list_eq. intros k. rewrite !list_lookup_fmap. destruct (decide (i = k)) as [->|Hne].
  - rewrite list_lookup_alter_eq. by destruct (css !! k).
  - by rewrite list_lookup_alter_ne.
Qed.

Definition indexed_more (b b' : building) : Prop :=
  ∃ ivs, concat (map st_invokes (bd_order b')) = concat (map st_invokes (bd_order b)) ++ ivs
    ∧ bd_invokes b' = indexInvokes ivs (bd_invokes b).

Lemma indexed_more_trans b b' b'' : indexed_more b b' → indexed_more b' b'' → indexed_more b b''.
Proof.
  intros (i1 & A1 & B1) (i2 & A2 & B2). exists (i1 ++ i2). rewrite A2, A1, B2, B1, app_assoc.
  split; [done|]. unfold indexInvokes. by rewrite fold_left_app.
Qed.

Variable parseDuration : string → result Z.
Variable p : DatamodelProgram.

Lemma compileStateSelf_invokes s q k path self :
  compileStateSelf parseDuration p s q k path = Ok self → Forall2 (lowered k) (sd_Invokes s) (st_invokes self).
Proof.
  unfold compileStateSelf. intros H. do 6 apply result_bind_Ok in H as (? & _ & H).
  apply result_bind_Ok in H as (ivs & Hivs & [= <-]). simpl. apply collectEach_Ok in Hivs.
  eapply Forall2_impl; [exact Hivs|]. intros d iv (j & Hj). unfold compileDefinitionInvoke in Hj. inv_ok. done.
Qed.

Lemma compiled_from_invokes L b css : compiled_from parseDuration p L b css →
  Forall2 (λ d iv, ∃ k, lowered k d iv) (layoutInvokes L) (concat (map st_invokes css)).
Proof.
  revert b css. induction L as [|[s q] L IH]; intros b css [Hlen Hfrom].
  { destruct css; [constructor | done]. }
  destruct (Hfrom 0 s q eq_refl) as (cs & Hcs & path & self & Hself & ->). destruct css as [|cs' css]; [done|].
  simpl in Hcs. injection Hcs as ->. unfold layoutInvokes. simpl. apply Forall2_app.
  - eapply Forall2_impl; [by eapply compileStateSelf_invokes|]. eauto.
  - apply (IH (S b)). split; [by injection Hlen|]. intros k s' q' Hk. destruct (Hfrom (S k) s' q' Hk) as (cs & Hcs & Has).
    exists cs. split; [done|]. by rewrite Nat.add_succ_comm.
Qed.

Lemma compileDefinitionState_indexed s par path b b' :
  compileDefinitionState parseDuration p s par path b = Ok b' → indexed_more b b'.
Proof.
  revert par path b b'. induction s as [s IH] using StateDefinition_nested_ind. intros par path b b'.
  rewrite compileDefinitionState_unfold. intros (self & _ & H)%result_bind_Ok.
  eapply (indexed_more_trans _ (addState self b)).
  { exists (st_invokes self). unfold addState. simpl. rewrite map_app, concat_app. simpl. by rewrite app_nil_r. }
  revert H. generalize (addState self b) as b0. generalize 0%N as j. generalize (length (bd_order b)) as i. clear self b.
  induction IH as [|x xs Hx _ IHxs]; intros i j b0; simpl.
  { intros [= <-]. exists []. by rewrite app_nil_r. }
  intros (b2 & (b1 & H1%Hx & [= <-])%result_bind_Ok & H2%IHxs)%result_bind_Ok.
  eapply indexed_more_trans; [exact H1|]. eapply indexed_more_trans; [|exact H2].
  exists []. unfold appendChild. simpl. by rewrite alter_add_child_invokes, app_nil_r.
Qed.

End lowering.

(** ** Compiled charts *)

Lemma Forall2_map_eq {A B C} (P : A → B → Prop) (f : A → C) (g : B → C) l k :
  Forall2 P l k → (∀ x y, P x y → g y = f x) → map g k = map f l.
Proof. induction 1; intros Hfg; simpl; [done|]. f_equal; auto. Qed.

Section facts.
Context `{DM : DatamodelSession}.
Variable parseDuration : string → result Z.
Variable jsonMarshal : ChartDefinition → result string.
Variable sha256 : string → string.

Lemma canonicalInvokeType_idem t : canonicalInvokeType (canonicalInvokeType t) = canonicalInvokeType t.
Proof. unfold canonicalInvokeType. repeat case_decide; try done. Qed.

Lemma compiled_lowered d m cc : Compile parseDuration jsonMarshal sha256 d m = Ok cc →
  Forall2 (λ d iv, ∃ k, lowered k d iv) (treeInvokes (df_Root (cc_definition cc))) (chartInvokes (cc_chart cc)).
Proof.
  intros (p & v & Hlink)%Compile_linked. rewrite <- (layoutInvokes_tree None 0).
  eapply compiled_from_invokes, Hlink.
Qed.

Lemma compiled_owner d m cc s spec : Compile parseDuration jsonMarshal sha256 d m = Ok cc →
  spec ∈ invokes (cc_chart cc) s → iv_owner spec = s.
Proof.
  intros (p & v & Hlink)%Compile_linked. unfold invokes. destruct (state_of (cc_chart cc) s) as [cs|] eqn:Hcs; [|by intros ?%elem_of_nil].
  destruct (li_order _ _ _ _ _ Hlink) as [Hlen Hfrom]. unfold state_of in Hcs.
  destruct (layout None 0 (df_Root (cc_definition cc)) !! s) as [[x q]|] eqn:E.
  2: { apply lookup_ge_None in E. apply lookup_lt_Some in Hcs. lia. }
  destruct (Hfrom s x q E) as (cs' & Hcs' & path & self & Hself & ->). simplify_eq. simpl.
  apply compileStateSelf_invokes in Hself. intros [j Hj]%list_elem_of_lookup_1.
  destruct (Forall2_lookup_r _ _ _ _ _ Hself Hj) as (iv & _ & _ & _ & ? & _). done.
Qed.

Lemma compiled_seen d m cc : Compile parseDuration jsonMarshal sha256 d m = Ok cc →
  NoDup (map iv_definitionID (chartInvokes (cc_chart cc)))
  ∧ NoDup (filter (λ id, id ≠ "") (staticInvokeIDs (cc_chart cc))).
Proof.
  intros Hc. pose proof (compiled_lowered _ _ _ Hc) as Hl. apply Compile_Ok in Hc as [Hn _].
  apply normalizeDefinition_Ok in Hn as (v & seen & seen' & _ & [[H1 _] [H2 _]]%validateState_seen).
  unfold staticInvokeIDs. fold (chartInvokes (cc_chart cc)).
  rewrite (Forall2_map_eq _ id_DefinitionID iv_definitionID _ _ Hl) by (by intros x y (? & ? & _)).
  rewrite (Forall2_map_eq _ id_ID iv_id _ _ Hl) by (by intros x y (? & _ & ? & _)). done.
Qed.

Lemma compiled_root_invokes d m cc : Compile parseDuration jsonMarshal sha256 d m = Ok cc →
  kind (cc_chart cc) root = KindCompound → invokes (cc_chart cc) root = [].
Proof.
  intros Hc Hk. pose proof Hc as (p & v & Hlink)%Compile_linked. apply Compile_Ok in Hc as [Hn _].
  apply normalizeDefinition_Ok in Hn as (w & seen & seen' & _ & Hval).
  rewrite validateState_unfold in Hval. apply result_bind_Ok in Hval as (seen1 & Hself & _).
  unfold validateStateSelf in Hself. apply result_bind_Ok in Hself as ([] & Hhead & _).
  set (r := df_Root (cc_definition cc)) in *.
  destruct (li_order _ _ _ _ _ Hlink) as [_ Hfrom].
  destruct (Hfrom 0 r None) as (cs & Hcs & path & self & Hc & ->); [by rewrite layout_unfold|].
  unfold invokes, kind, state_of, root in *. rewrite Hcs in *. simpl in *.
  pose proof (compileStateSelf_shape _ _ _ _ _ _ _ Hc) as (_ & _ & _ & Hkind). rewrite Hkind in Hk.
  apply compileStateSelf_invokes in Hc.
  assert (sd_Invokes r = []) as E; [|rewrite E in Hc; by inversion Hc].
  unfold validateStateHead in Hhead. do 3 apply result_bind_Ok in Hhead as ([] & _ & Hhead).
  apply result_bind_Ok in Hhead as ([] & Hhead & _).
  assert (isKind KindCompound r = true) as HK. { unfold isKind. apply bool_decide_eq_true. destruct (sd_Kind r) as [|[[|[]|]|[|[]|]|]]; naive_solver. }
  rewrite HK in Hhead. simpl in Hhead. do 2 apply result_bind_Ok in Hhead as ([] & _ & Hhead).
  apply fail_if_Ok in Hhead. by apply nonEmpty_false.
Qed.

Lemma compiled_invokes_wf d m cc : Compile parseDuration jsonMarshal sha256 d m = Ok cc →
  kind (cc_chart cc) root = KindCompound → invokes_wf (cc_chart cc).
Proof.
  intros Hc Hk. destruct (compiled_seen _ _ _ Hc) as [H1 H2]. split; [by eapply compiled_root_invokes | | done | done |].
  - intros s spec. by eapply compiled_owner.
  - intros spec [j Hj]%list_elem_of_lookup_1. pose proof (compiled_lowered _ _ _ Hc) as Hl.
    destruct (Forall2_lookup_r _ _ _ _ _ Hl Hj) as (iv & _ & k & _ & _ & _ & ->). apply canonicalInvokeType_idem.
Qed.

(** [invokesByDefinitionID] finds exactly the elements of the chart. *)
Lemma compiled_invokes_index d m cc id spec : Compile parseDuration jsonMarshal sha256 d m = Ok cc →
  cc_invokes cc !! id = Some spec ↔ spec ∈ chartInvokes (cc_chart cc) ∧ iv_definitionID spec = id.
Proof.
  intros Hc. destruct (compiled_seen _ _ _ Hc) as [Hn _].
  assert (cc_invokes cc = indexInvokes (chartInvokes (cc_chart cc)) ∅) as ->.
  { clear Hn. unfold Compile in Hc. destruct m as [m|]; [|done]. do 2 apply result_bind_Ok in Hc as (? & _ & Hc).
    apply result_bind_Ok in Hc as ([p|] & _ & Hc); [|done]. do 3 apply result_bind_Ok in Hc as (? & _ & Hc).
    apply result_bind_Ok in Hc as (b & (ivs & E1 & E2)%compileDefinitionState_indexed & [= <-]).
    unfold chartInvokes. simpl in *. by rewrite E2, E1. }
  rewrite lookup_indexInvokes by done. rewrite lookup_empty. naive_solver.
Qed.
End facts.

Section theorems.
Context `{DM : DatamodelSession}.
Variable parseDuration : string → result Z.
Variable jsonMarshal : ChartDefinition → result string.
Variable sha256 : string → string.

(** C21 (invariant): the invocations of a running supported compiled chart: only active
    states run invocations or wait to start them, never both; a state runs each
    of its own [<invoke>] elements at most once; and [invokesByID] names exactly
    the running invocations, each under a non-empty ID of its own.  In
    particular leaving a state ends its invocations, whatever the datamodel, the
    processors and the invocation runner answer. *)
Theorem running_invocations_consistent (d : ChartDefinition) (m : option Datamodel) (cc : compiledChart)
    (env : environment) (ip : interpretation) :
  Compile parseDuration jsonMarshal sha256 d m = Ok cc → supported (cc_chart cc) = true →
  reachable (cc_chart cc) env ip →
  statesToInvoke ip ⊆ configuration ip
  ∧ (∀ s ris, activeInvokes ip !! s = Some ris →
       s ∈ configuration ip ∧ s ∉ statesToInvoke ip ∧ NoDup (map ri_spec ris)
       ∧ ∀ ri, ri ∈ ris → ri_state ri = s ∧ ri_spec ri ∈ invokes (cc_chart cc) s ∧ ri_id ri ≠ "")
  ∧ ∀ id ri, invokesByID ip !! id = Some ri ↔
       ri_id ri = id ∧ ∃ ris, activeInvokes ip !! ri_state ri = Some ris ∧ ri ∈ ris.
Proof.
  intros Hc Hsup Hr. pose proof Hc as (p & v & Hlink)%Compile_linked.
  pose proof (linked_wf_chart _ _ _ _ _ Hlink Hsup) as Hwf.
  pose proof (compiled_invokes_wf _ _ _ _ _ _ Hc (wf_root _ _ Hwf)) as Hiw.
  destruct (reachable_invocations_ok _ env Hiw _ Hwf ip Hr) as [HS HA HI]. split_and!; [done | | done].
  intros s ris E. destruct (HA s ris E) as (_ & Hs & Hw & Hsub & Hall). rewrite Forall_forall in Hall.
  split_and!; [done | done | by eapply submseteq_NoDup, Hsub; apply NoDup_invokes |].
  intros ri Hri. destruct (Hall ri Hri). done.
Qed.

End theorems.

(** ** Witness: the helper of the player runs while the player is on *)

Lemma running_invocations_consistent_witness :
  (∀ id ri, invokesByID (stateAfter playerDefinition ["power"]) !! id = Some ri →
     ri_state ri ∈ configuration (stateAfter playerDefinition ["power"]))
  ∧ map ri_id (default [] (activeInvokes (stateAfter playerDefinition ["power"]) !! 3)) = ["helper"].
Proof.
  split; [|vm_compute; reflexivity].
  destruct (running_invocations_consistent oneSecond (λ d, Ok (df_ID d)) (λ s, s) playerDefinition (Some counterModel)
    (compiledOf playerDefinition) plainEnv (stateAfter playerDefinition ["power"]) player_compiled) as (_ & HA & HI).
  - vm_compute. reflexivity.
  - apply stateAfter_reachable. vm_compute. reflexivity.
  - intros id ri (_ & ris & E & _)%HI. exact (proj1 (HA _ _ E)).
Defined.
