(* ===== verification/Snapshot.v ===== *)
(** * Snapshots (snapshot.go, event_codec.go)

    A [Snapshot] holds the durable part of an instance: [buildSnapshot] reads it
    off the interpreter, [restoreFrom] checks it against the chart and rebuilds
    an interpreter, [MarshalSnapshot] and [UnmarshalSnapshot] move it to and from
    the records that are written as JSON.  The bytes of the datamodel belong to
    the session ([SnapshotSession]); the JSON text of the wire records is not
    modelled, as for values: the bytes of an encoded event's data are the
    [ValueWire] they spell. *)

From S2P Require Import Prelude Identifier Values Events Datamodel Chart Interp Actions Steps Definitions Validate Compile.
From stdpp Require Import options.

(** ** Encoded events *)

Record EncodedEvent := mkEncoded {
  ee_Name : Identifier;
  ee_Type : EventType;
  ee_SendID : Identifier;
  ee_Origin : Identifier;
  ee_OriginType : Identifier;
  ee_InvokeID : Identifier;
  ee_DeliveryID : string;
  ee_Data : ValueWire
}.

Definition EncodeEvent (ev : Event) : result EncodedEvent :=
  match Wire (Data ev) with
  | Err e => Err (Wrapf "statecharts: encode Event.Data: " e)
  | Ok payload => Ok (mkEncoded (Name ev) (Type_ ev) (SendID ev) (Origin ev) (OriginType ev) (InvokeID ev)
                        (DeliveryID ev) payload)
  end.

Definition DecodeEvent (enc : EncodedEvent) : result Event :=
  match ValueFromWire (ee_Data enc) with
  | Err e => Err (Wrapf "statecharts: decode Event.Data: " e)
  | Ok data => Ok (mkEvent (ee_Name enc) (ee_Type enc) data (ee_SendID enc) (ee_Origin enc) (ee_OriginType enc)
                     (ee_InvokeID enc) (ee_DeliveryID enc))
  end.

(** ** Snapshots *)

Record PendingSend := mkPendingSend {
  pd_SendID : Identifier;
  pd_Target : Identifier;
  pd_Type : Identifier;
  pd_Event : Event;
  pd_FireAt : Z
}.

Record ActiveInvoke := mkActiveInvoke {
  ai_State : Identifier;
  ai_DefinitionID : Identifier;
  ai_ID : Identifier;
  ai_Type : Identifier;
  ai_Source : string
}.

Record Snapshot := mkSnapshot {
  sn_Version : Z;
  sn_Revision : string;
  sn_Datamodel : string;
  sn_ID : string;
  sn_Configuration : list Identifier;
  sn_HistoryValue : gmap string (list Identifier);
  sn_InternalQueue : list Event;
  sn_ExternalQueue : list Event;
  sn_Running : bool;
  sn_SendSeq : N;
  sn_InvokeSeq : N;
  sn_DispatchSeq : N;
  sn_DeliveryNamespace : string;
  sn_PendingSends : list PendingSend;
  sn_ActiveInvokes : list ActiveInvoke;
  sn_InitializedData : list Identifier
}.

Definition snapshotVersion : Z := 7.

(** The text of the error every rejected snapshot is wrapped in. *)
Definition ErrInvalidSnapshot : string := "statecharts: invalid snapshot".

(** ** What a session promises for snapshots *)

Class SnapshotSession `{DM : DatamodelSession} := {
  EncodeSnapshot : Session → result string;
  DecodeSnapshot : string → Session → result Session
}.

(** Decoding what a session encoded, in any fresh session, gives its state. *)
Class RestorableSession `{SS : SnapshotSession} : Prop :=
  decode_encode s bytes fresh : EncodeSnapshot s = Ok bytes → DecodeSnapshot bytes fresh = Ok s.

Section snapshot.
Context `{SS : SnapshotSession}.
Variable cc : compiledChart.

(** ** Taking a snapshot *)

(** The order of the pending sends of a snapshot. *)
Definition pendingOrder (a b : pendingSendRecord) : Prop :=
  (ps_fireAt a < ps_fireAt b)%Z
  ∨ (ps_fireAt a = ps_fireAt b
     ∧ (ps_order a < ps_order b ∨ (ps_order a = ps_order b ∧ string_le (ps_sendID a) (ps_sendID b)))).

#[global] Instance pendingOrder_dec : RelDecision pendingOrder.
Proof using Type. intros a b. unfold pendingOrder. apply _. Defined.

Definition pendingSendOf (rec : pendingSendRecord) : PendingSend :=
  mkPendingSend (ps_sendID rec) (ps_target rec) (ps_typ rec) (cloneEvent (ps_event rec)) (ps_fireAt rec).

Definition activeInvokeOf (ri : runningInvoke) : ActiveInvoke :=
  mkActiveInvoke (sid (cc_chart cc) (ri_state ri)) (iv_definitionID (ri_spec ri)) (ri_id ri) (ri_typ ri) (ri_source ri).

Definition invokeOrder (a b : ActiveInvoke) : Prop := string_le (ai_ID a) (ai_ID b).

#[global] Instance invokeOrder_dec : RelDecision invokeOrder.
Proof using Type. intros a b. unfold invokeOrder. apply _. Defined.

(** The recorded history with IDs for states. *)
Definition historyIDs (hist : gmap nat (list nat)) : gmap string (list Identifier) :=
  list_to_map (map (λ e, (sid (cc_chart cc) e.1, map (sid (cc_chart cc)) e.2)) (map_to_list hist)).

(** The states whose data is initialised, in document order. *)
Definition initializedIDs (ip : interpretation) : list Identifier :=
  omap (λ s, if decide (s ∈ initializedData ip) then st_id <$> state_of (cc_chart cc) s else None)
    (seq 0 (length (c_order (cc_chart cc)))).

(** All running invocations, state by state. *)
Definition runningInvokes (ip : interpretation) : list runningInvoke := concat (map snd (map_to_list (activeInvokes ip))).

Definition buildSnapshot (env : environment) (ip : interpretation) : result Snapshot :=
  match EncodeSnapshot (session ip) with
  | Err e => Err (Wrapf "statecharts: snapshot datamodel: " e)
  | Ok datamodel =>
      Ok (mkSnapshot snapshotVersion (cc_revision cc) datamodel (env_sessionID env) (activeStates (cc_chart cc) ip)
            (historyIDs (historyValue ip)) (cloneEvents (internalQueue ip)) (cloneEvents (externalQueue ip)) (running ip)
            (sendSeq ip) (invokeSeq ip) (dispatchSeq ip) (env_deliveryNamespace env)
            (map pendingSendOf (merge_sort pendingOrder (map_to_list (pending ip)).*2))
            (merge_sort invokeOrder (map activeInvokeOf (runningInvokes ip))) (initializedIDs ip))
  end.

(** ** Restoring *)

Definition validateSnapshotHeader (snap : Snapshot) : result unit :=
  _ ← fail_if (negb (bool_decide (sn_Version snap = snapshotVersion)))
        (Errorf (ErrInvalidSnapshot +:+ ": unsupported snapshot version " +:+ pretty (sn_Version snap)
                 +:+ " (want " +:+ pretty snapshotVersion +:+ ")"));
  fail_if (negb (bool_decide (sn_Revision snap = cc_revision cc)))
    (Errorf (ErrInvalidSnapshot +:+ ": chart revision mismatch")).

Definition restoreError (text : string) : error := Errorf ("statecharts: restore: " +:+ text).

(** [chart.byID[id]]; a missing state is an error. *)
Definition lookupState (text : string) (id : Identifier) : result nat :=
  match c_byID (cc_chart cc) !! id with Some s => Ok s | None => Err (restoreError text) end.

(** The set of the named states. *)
Fixpoint restoreSet (text : string → string) (ids : list Identifier) (acc : gset nat) : result (gset nat) :=
  match ids with
  | [] => Ok acc
  | id :: ids => s ← lookupState (text id) id; restoreSet text ids ({[s]} ∪ acc)
  end.

Fixpoint restoreList (text : string → string) (ids : list Identifier) : result (list nat) :=
  match ids with
  | [] => Ok []
  | id :: ids => s ← lookupState (text id) id; rest ← restoreList text ids; Ok (s :: rest)
  end.

(** The loop over [snap.HistoryValue]: Go does not fix its order, which only
    matters for the choice among several errors. *)
Fixpoint restoreHistory (entries : list (Identifier * list Identifier)) (acc : gmap nat (list nat))
    : result (gmap nat (list nat)) :=
  match entries with
  | [] => Ok acc
  | (histID, recordedIDs) :: entries =>
      h ← lookupState ("chart has no history state " +:+ quote histID) histID;
      recorded ← restoreList (λ rid, "chart has no state " +:+ quote rid +:+ " (from history " +:+ quote histID +:+ ")")
                   recordedIDs;
      restoreHistory entries (<[h := recorded]> acc)
  end.

(** The records of the pending sends are numbered anew, and not yet armed. *)
Definition restorePending (pds : list PendingSend) : gmap nat pendingSendRecord :=
  list_to_map (imap (λ i ps, (S i, mkPending (pd_SendID ps) (pd_Target ps) (pd_Type ps) (cloneEvent (pd_Event ps))
                                     (pd_FireAt ps) (S i) false)) pds).

(** The invocations rebuilt so far: per state, by ID, and the definition IDs
    met. *)
Record restoring := mkRestoring {
  rg_byState : gmap nat (list runningInvoke);
  rg_byID : gmap string runningInvoke;
  rg_definitions : gset string
}.

Definition restoreInvoke (configuration : gset nat) (ai : ActiveInvoke) (rg : restoring) : result restoring :=
  s ← lookupState ("chart has no state " +:+ quote (ai_State ai) +:+ " (from active invoke)") (ai_State ai);
  _ ← fail_if (negb (bool_decide (s ∈ configuration)))
        (restoreError ("active invoke references state " +:+ quote (ai_State ai) +:+ " not in Configuration"));
  match cc_invokes cc !! ai_DefinitionID ai with
  | None => Err (restoreError ("chart has no invoke definition " +:+ quote (ai_DefinitionID ai)))
  | Some spec =>
      _ ← fail_if (bool_decide (ai_ID ai = ""))
            (restoreError ("invoke definition " +:+ quote (ai_DefinitionID ai) +:+ " has an empty runtime ID"));
      _ ← fail_if (negb (bool_decide (iv_owner spec = s)))
            (restoreError ("invoke definition " +:+ quote (ai_DefinitionID ai) +:+ " belongs to state "
               +:+ quote (sid (cc_chart cc) (iv_owner spec)) +:+ ", not " +:+ quote (ai_State ai)));
      _ ← fail_if (bool_decide (ai_Type ai = ""))
            (restoreError ("invoke definition " +:+ quote (ai_DefinitionID ai) +:+ " has an empty handler type"));
      _ ← fail_if (negb (present (iv_typeExpr spec)) && negb (bool_decide (ai_Type ai = iv_staticType spec)))
            (restoreError ("invoke definition " +:+ quote (ai_DefinitionID ai) +:+ " handler type " +:+ quote (ai_Type ai)
               +:+ " does not match static type " +:+ quote (iv_staticType spec)));
      _ ← fail_if (bool_decide (ai_DefinitionID ai ∈ rg_definitions rg))
            (restoreError ("duplicate active invoke definition " +:+ quote (ai_DefinitionID ai)));
      _ ← fail_if (present (rg_byID rg !! ai_ID ai))
            (restoreError ("duplicate active invoke runtime ID " +:+ quote (ai_ID ai)));
      let ri := mkRunning (ai_ID ai) s spec (ai_Type ai) (ai_Source ai) (iv_finalize spec) (iv_autoForward spec) false in
      Ok (mkRestoring (<[s := default [] (rg_byState rg !! s) ++ [ri]]> (rg_byState rg)) (<[ai_ID ai := ri]> (rg_byID rg))
            ({[ai_DefinitionID ai]} ∪ rg_definitions rg))
  end.

Fixpoint restoreInvokes (configuration : gset nat) (ais : list ActiveInvoke) (rg : restoring) : result restoring :=
  match ais with
  | [] => Ok rg
  | ai :: ais => rg ← restoreInvoke configuration ai rg; restoreInvokes configuration ais rg
  end.

(** [restoreFrom] on the interpreter [ip]: the new interpreter, or an error
    (the caller then drops [ip]).  [deliveryNamespace] is treated with the
    identity of the instance below. *)
Definition restoreFrom (snap : Snapshot) (ip : interpretation) : result interpretation :=
  configuration ← restoreSet (λ id, "chart has no state " +:+ quote id +:+ " (from snapshot configuration)")
                    (sn_Configuration snap) ∅;
  historyValue ← restoreHistory (map_to_list (sn_HistoryValue snap)) ∅;
  initialized ← restoreSet (λ id, "chart has no initialized state " +:+ quote id) (sn_InitializedData snap) ∅;
  rg ← restoreInvokes configuration (sn_ActiveInvokes snap) (mkRestoring ∅ ∅ ∅);
  let k := control_of ip in
  let e := effects_of ip in
  Ok (mkInterpretation
        (mkControl configuration historyValue (sn_Running snap) (ctl_result_ k) (ctl_completed k) (ctl_lastEvent k)
           (ctl_hasLastEvent k) initialized (ctl_statesToInvoke k) (rg_byState rg) (rg_byID rg) (sn_InvokeSeq snap)
           (ctl_hookErr k) (ctl_macrostepTrace k))
        (mkEffects (eff_session e) (cloneEvents (sn_InternalQueue snap)) (cloneEvents (sn_ExternalQueue snap))
           (restorePending (sn_PendingSends snap)) (sn_SendSeq snap) (sn_DispatchSeq snap) (length (sn_PendingSends snap))
           (eff_now e) (eff_channels e) (eff_requests e) (eff_logs e) (eff_cancelled e) (eff_started e))).

(** What the options of the new instance and its surroundings fix: the explicit
    session ID and namespace, what the ID generator would return and the number
    of this incarnation. *)
Record instanceConfig := mkConfig {
  cfg_sessionID : string;
  cfg_deliveryNamespace : string;
  cfg_generatedID : string;
  cfg_incarnation : N
}.

Definition restoredSessionID (cfg : instanceConfig) (snap : Snapshot) : string :=
  if decide (cfg_sessionID cfg ≠ "") then cfg_sessionID cfg
  else if decide (sn_ID snap ≠ "") then sn_ID snap else cfg_generatedID cfg.

Definition restoredNamespace (cfg : instanceConfig) (snap : Snapshot) : string :=
  if decide (sn_DeliveryNamespace snap ≠ "") then sn_DeliveryNamespace snap
  else if decide (cfg_deliveryNamespace cfg ≠ "") then cfg_deliveryNamespace cfg
  else "incarnation-" +:+ itoa (cfg_incarnation cfg).

(** A restored instance: its session ID, its delivery namespace and its
    interpreter. *)
Record restoredInstance := mkRestored {
  rs_sessionID : string;
  rs_deliveryNamespace : string;
  rs_interpretation : interpretation
}.

Definition invalidSnapshot (prefix : string) (e : error) : error :=
  Wrapf (ErrInvalidSnapshot +:+ ": " +:+ prefix) e.

(** [fresh] is the state of the new session and [t] the clock's time. *)
Definition restoreInstanceForSession (cfg : instanceConfig) (fresh : Session) (t : Z) (snap : Snapshot)
    : result restoredInstance :=
  match restoreFrom snap (newInterpretation fresh t) with
  | Err e => Err (invalidSnapshot "" e)
  | Ok ip =>
      match DecodeSnapshot (sn_Datamodel snap) fresh with
      | Err e => Err (invalidSnapshot "decode datamodel: " e)
      | Ok s => Ok (mkRestored (restoredSessionID cfg snap) (restoredNamespace cfg snap) (set_session s ip))
      end
  end.

(** [factory] makes the new session; [None] is a nil session. *)
Definition restoreInstanceFromFactory (cfg : instanceConfig) (factory : result (option Session)) (t : Z) (snap : Snapshot)
    : result restoredInstance :=
  _ ← validateSnapshotHeader snap;
  match factory with
  | Err e => Err (Wrapf "statecharts: create datamodel session: " e)
  | Ok None => Err (Errorf "statecharts: create datamodel session: program returned nil session")
  | Ok (Some fresh) => restoreInstanceForSession cfg fresh t snap
  end.

End snapshot.

(** ** The JSON envelope *)

Record pendingSendWire := mkPendingWire {
  pw_SendID : Identifier;
  pw_Target : Identifier;
  pw_Type : Identifier;
  pw_Event : EncodedEvent;
  pw_FireAt : Z
}.

Record snapshotWire := mkSnapshotWire {
  sw_Version : Z;
  sw_Revision : string;
  sw_Datamodel : string;
  sw_ID : string;
  sw_Configuration : list Identifier;
  sw_HistoryValue : gmap string (list Identifier);
  sw_InternalQueue : list EncodedEvent;
  sw_ExternalQueue : list EncodedEvent;
  sw_Running : bool;
  sw_SendSeq : N;
  sw_InvokeSeq : N;
  sw_DispatchSeq : N;
  sw_DeliveryNamespace : string;
  sw_PendingSends : list pendingSendWire;
  sw_ActiveInvokes : list ActiveInvoke;
  sw_InitializedData : list Identifier
}.

Section each.
Context {A B : Type}.
Variable prefix : string.
Variable f : A → result B.

(** [for _, x := range xs { y, err := f(x); ...; ys = append(ys, y) }]. *)
Fixpoint codeEach (xs : list A) : result (list B) :=
  match xs with
  | [] => Ok []
  | x :: xs =>
      match f x with
      | Err e => Err (Wrapf prefix e)
      | Ok y => ys ← codeEach xs; Ok (y :: ys)
      end
  end.
End each.

Definition encodePending (ps : PendingSend) : result pendingSendWire :=
  enc ← EncodeEvent (pd_Event ps); Ok (mkPendingWire (pd_SendID ps) (pd_Target ps) (pd_Type ps) enc (pd_FireAt ps)).

Definition decodePending (pw : pendingSendWire) : result PendingSend :=
  ev ← DecodeEvent (pw_Event pw); Ok (mkPendingSend (pw_SendID pw) (pw_Target pw) (pw_Type pw) ev (pw_FireAt pw)).

Definition MarshalSnapshot (s : Snapshot) : result snapshotWire :=
  internal ← codeEach "statecharts: Snapshot: encode internal queue event: " EncodeEvent (sn_InternalQueue s);
  external ← codeEach "statecharts: Snapshot: encode external queue event: " EncodeEvent (sn_ExternalQueue s);
  pds ← codeEach "statecharts: Snapshot: encode pending send event: " encodePending (sn_PendingSends s);
  Ok (mkSnapshotWire (sn_Version s) (sn_Revision s) (sn_Datamodel s) (sn_ID s) (sn_Configuration s) (sn_HistoryValue s)
        internal external (sn_Running s) (sn_SendSeq s) (sn_InvokeSeq s) (sn_DispatchSeq s) (sn_DeliveryNamespace s)
        pds (sn_ActiveInvokes s) (sn_InitializedData s)).

Definition UnmarshalSnapshot (w : snapshotWire) : result Snapshot :=
  internal ← codeEach "statecharts: Snapshot: decode internal queue event: " DecodeEvent (sw_InternalQueue w);
  external ← codeEach "statecharts: Snapshot: decode external queue event: " DecodeEvent (sw_ExternalQueue w);
  pds ← codeEach "statecharts: Snapshot: decode pending send event: " decodePending (sw_PendingSends w);
  Ok (mkSnapshot (sw_Version w) (sw_Revision w) (sw_Datamodel w) (sw_ID w) (sw_Configuration w) (sw_HistoryValue w)
        internal external (sw_Running w) (sw_SendSeq w) (sw_InvokeSeq w) (sw_DispatchSeq w) (sw_DeliveryNamespace w)
        pds (sw_ActiveInvokes w) (sw_InitializedData w)).

(** ** The envelope keeps everything *)

Lemma DecodeEvent_EncodeEvent ev enc : EncodeEvent ev = Ok enc → DecodeEvent enc = Ok ev.
Proof.
  unfold EncodeEvent, DecodeEvent. destruct (Wire (Data ev)) as [w|e] eqn:E; [|done]. intros [= <-]. simpl.
  rewrite (ValueFromWire_Wire _ _ E). by destruct ev.
Qed.

Lemma codeEach_inverse {A B} p q (f : A → result B) (g : B → result A) xs ys :
  (∀ x y, f x = Ok y → g y = Ok x) → codeEach p f xs = Ok ys → codeEach q g ys = Ok xs.
Proof.
  intros Hfg. revert ys. induction xs as [|x xs IH]; intros ys; simpl; [by intros [= <-]|].
  destruct (f x) as [y|] eqn:E; [|done]. intros (ys' & Hys & [= <-])%result_bind_Ok. simpl.
  by rewrite (Hfg _ _ E), (IH _ Hys).
Qed.

Lemma decodePending_encodePending ps pw : encodePending ps = Ok pw → decodePending pw = Ok ps.
Proof.
  unfold encodePending, decodePending. intros (enc & H & [= <-])%result_bind_Ok. simpl.
  rewrite (DecodeEvent_EncodeEvent _ _ H). by destruct ps.
Qed.

(** A snapshot survives its JSON envelope: whatever
    [MarshalJSON] writes, [UnmarshalJSON] reads back as the same snapshot, with
    both queues and the pending sends in order. *)
Theorem snapshot_envelope_roundtrip (s : Snapshot) (w : snapshotWire) :
  MarshalSnapshot s = Ok w → UnmarshalSnapshot w = Ok s.
Proof.
  unfold MarshalSnapshot, UnmarshalSnapshot. intros H. apply result_bind_Ok in H as (i & Hi & H).
  apply result_bind_Ok in H as (x & Hx & H). apply result_bind_Ok in H as (pds & Hp & [= <-]). simpl.
  rewrite (codeEach_inverse _ _ _ _ _ _ DecodeEvent_EncodeEvent Hi). simpl.
  rewrite (codeEach_inverse _ _ _ _ _ _ DecodeEvent_EncodeEvent Hx). simpl.
  rewrite (codeEach_inverse _ _ _ _ _ _ decodePending_encodePending Hp). by destruct s.
Qed.

Definition sampleSnapshot : Snapshot :=
  mkSnapshot snapshotVersion "sha256:r" "state" "s1" ["on"; "quiet"] {["memory" := ["quiet"]]}
    [newEvent "tick" EventInternal (TextValue "a")] [newEvent "volume" EventExternal NullValue] true 3 1 7 "ns"
    [mkPendingSend "send.3" "" SCXMLEventProcessor (newEvent "late" EventExternal (NumValue "1e1")) 1000000000]
    [mkActiveInvoke "on" "invoke.1" "helper" "service" "src"] ["on"].

Lemma snapshot_envelope_roundtrip_witness :
  ∃ w, MarshalSnapshot sampleSnapshot = Ok w ∧ UnmarshalSnapshot w = Ok sampleSnapshot.
Proof.
  eexists. split; [|apply snapshot_envelope_roundtrip]; vm_compute; reflexivity.
Defined.
