(* ===== verification/Restored.v ===== *)
(** * Theorems: snapshots

    A snapshot of a reachable interpreter of a compiled chart is accepted by
    [Restore], and the restored interpreter is the original one up to what a
    snapshot leaves out: the channels of running invocations, the numbers of
    pending sends, the last event and the result.  A snapshot of the restored
    interpreter is the snapshot it was restored from. *)

From S2P Require Import Prelude Identifier Values Events Datamodel Chart Tree Legal Interp Actions Steps StepCorrect Macrostep Evolution Completion.
From S2P Require Import Definitions Validate Layout Compile Indexed Validated Accepted Compiled Declared Snapshot.
From S2P Require Import Authoring Examples.
From stdpp Require Import sorting options.

(** ** Go's string order *)

Lemma ascii_compare_trans_lt a b c : Ascii.compare a b = Lt → Ascii.compare b c = Lt → Ascii.compare a c = Lt.
Proof. unfold Ascii.compare. rewrite !N.compare_lt_iff. lia. Qed.

#[global] Instance string_le_trans : Transitive string_le.
Proof.
  unfold string_le, String.leb. intros a. induction a as [|x a IH]; intros [|y b] [|z c]; simpl; try done.
  destruct (Ascii.compare x y) eqn:E1; [|..|done];
    (destruct (Ascii.compare y z) eqn:E2; [|..|done]); intros H1 H2.
  - apply Ascii.compare_eq_iff in E1 as ->, E2 as ->.
    destruct (Ascii.compare z z) eqn:E; [by eapply IH | done |].
    unfold Ascii.compare in E. by rewrite N.compare_refl in E.
  - apply Ascii.compare_eq_iff in E1 as ->. by rewrite E2.
  - apply Ascii.compare_eq_iff in E2 as ->. by rewrite E1.
  - by rewrite (ascii_compare_trans_lt _ _ _ E1 E2).
Qed.

#[global] Instance string_le_total : Total string_le.
Proof. intros a b. apply String.leb_total. Qed.

#[global] Instance string_le_antisymm : AntiSymm (=) string_le.
Proof. intros a b. apply String.leb_antisym. Qed.

#[global] Instance pendingOrder_trans : Transitive pendingOrder.
Proof.
  unfold pendingOrder. intros a b c H1 H2.
  destruct H1 as [?|[E1 [?|[O1 S1]]]], H2 as [?|[E2 [?|[O2 S2]]]]; try (left; lia); right; (split; [lia|]); try (left; lia).
  right. split; [lia | by etrans].
Qed.

#[global] Instance pendingOrder_total : Total pendingOrder.
Proof.
  unfold pendingOrder. intros a b. destruct (string_le_total (ps_sendID a) (ps_sendID b));
    destruct (Z.lt_trichotomy (ps_fireAt a) (ps_fireAt b)) as [|[|]];
    destruct (lt_eq_lt_dec (ps_order a) (ps_order b)) as [[|]|]; naive_solver lia.
Qed.

#[global] Instance invokeOrder_trans : Transitive invokeOrder.
Proof. intros a b c. apply string_le_trans. Qed.
#[global] Instance invokeOrder_total : Total invokeOrder.
Proof. intros a b. apply string_le_total. Qed.

(** ** Lists kept per key *)

(** All elements of a map of lists. *)
Definition pooled {A} (m : gmap nat (list A)) : list A := concat (map snd (map_to_list m)).

Lemma elem_of_pooled {A} (m : gmap nat (list A)) x : x ∈ pooled m ↔ ∃ k l, m !! k = Some l ∧ x ∈ l.
Proof.
  unfold pooled. rewrite list_elem_of_In, in_concat. split.
  - intros (l & Hl & Hx). apply list_elem_of_In, (list_elem_of_fmap snd) in Hl as ([k l'] & -> & Hl).
    apply elem_of_map_to_list in Hl. exists k, l'. split; [done | by apply list_elem_of_In].
  - intros (k & l & Hk & Hx). exists l. split; [|by apply list_elem_of_In]. apply list_elem_of_In, (list_elem_of_fmap snd).
    exists (k, l). split; [done | by apply elem_of_map_to_list].
Qed.

Lemma pooled_insert_fresh {A} (m : gmap nat (list A)) k l : m !! k = None → pooled (<[k := l]> m) ≡ₚ l ++ pooled m.
Proof. intros Hk. unfold pooled. by rewrite (map_to_list_insert m k l Hk). Qed.

(** Appending to the list of a key. *)
Lemma pooled_append {A} (m : gmap nat (list A)) k x :
  pooled (<[k := default [] (m !! k) ++ [x]]> m) ≡ₚ pooled m ++ [x].
Proof.
  destruct (m !! k) as [l|] eqn:E; simpl.
  - rewrite <- (insert_delete_eq m), pooled_insert_fresh by apply lookup_delete_eq.
    rewrite <- (insert_id m k l E) at 2. rewrite <- (insert_delete_eq m), pooled_insert_fresh by apply lookup_delete_eq.
    solve_Permutation.
  - rewrite pooled_insert_fresh by done. apply Permutation_app_comm.
Qed.

(** The lists are recovered from the pool when each element knows its key. *)
Lemma pooled_by_key {A} (key : A → nat) (m : gmap nat (list A)) k :
  (∀ k l x, m !! k = Some l → x ∈ l → key x = k) → filter (λ x, key x = k) (pooled m) = default [] (m !! k).
Proof.
  intros Hkey. unfold pooled. rewrite <- (list_to_map_to_list m) at 2. pose proof (NoDup_fst_map_to_list m) as Hn.
  assert (∀ k l x, (k, l) ∈ map_to_list m → x ∈ l → key x = k) as H by (intros k' l x ?%elem_of_map_to_list; eauto).
  clear Hkey. induction (map_to_list m) as [|[k' l] e IH]; simpl; [by rewrite lookup_empty|].
  simpl in Hn. apply NoDup_cons in Hn as [Hk' Hn]. rewrite filter_app, IH; [|done|intros k0 l0 x0 H0; apply H; by right].
  destruct (decide (k' = k)) as [->|Hne].
  - rewrite lookup_insert_eq, (not_elem_of_list_to_map_1 e k Hk'). simpl. rewrite app_nil_r.
    assert (∀ x, x ∈ l → key x = k) as Hl by (intros x; apply (H k l); left). clear -Hl.
    induction l as [|x l IH]; [done|]. rewrite filter_cons, decide_True by (apply Hl; left).
    f_equal. apply IH. intros y ?. apply Hl. by right.
  - rewrite lookup_insert_ne by done.
    assert (∀ x, x ∈ l → key x ≠ k) as Hl by (intros x Hx; rewrite (H k' l x); [done | left | done]).
    assert (filter (λ x, key x = k) l = []) as ->; [|done]. clear -Hl.
    induction l as [|x l IH]; [done|]. rewrite filter_cons, decide_False by (apply Hl; left).
    apply IH. intros y ?. apply Hl. by right.
Qed.

Lemma NoDup_pooled {A} (key : A → nat) (m : gmap nat (list A)) :
  (∀ k l, m !! k = Some l → NoDup l ∧ ∀ x, x ∈ l → key x = k) → NoDup (pooled m).
Proof.
  intros H. unfold pooled. pose proof (NoDup_fst_map_to_list m) as Hn.
  assert (∀ k l, (k, l) ∈ map_to_list m → NoDup l ∧ ∀ x, x ∈ l → key x = k) as H' by (intros k l ?%elem_of_map_to_list; eauto).
  clear H. induction (map_to_list m) as [|[k l] e IH]; simpl; [constructor|].
  simpl in Hn. apply NoDup_cons in Hn as [Hk Hn]. destruct (H' k l) as [Hl Hkey]; [left|].
  apply NoDup_app. split_and!; [done | | apply IH; [done | intros k0 l0 H0; apply H'; by right]].
  intros x Hx (l' & Hl' & Hx')%list_elem_of_In%in_concat. apply list_elem_of_In, (list_elem_of_fmap snd) in Hl' as ([k' l''] & -> & He).
  apply Hk. apply (list_elem_of_fmap fst). exists (k', l''). split; [|done]. simpl.
  destruct (H' k' l'') as [_ Hkey']; [by right|]. rewrite <- (Hkey x Hx). apply Hkey'. by apply list_elem_of_In.
Qed.

(** ** Restoring what was taken *)

Section restore.
Context `{SS : SnapshotSession}.
Variable cc : compiledChart.
Abbreviation c := (cc_chart cc).
Hypothesis Hid : ∀ id n, c_byID c !! id = Some n ↔ States c !! n = Some id.

Lemma byID_sid s : s < length (c_order c) → c_byID c !! sid c s = Some s.
Proof using Hid.
  intros [cs Hcs]%lookup_lt_is_Some. apply Hid. unfold States, sid, state_of. by rewrite list_lookup_fmap, Hcs.
Qed.

Lemma sid_inj s s' : s < length (c_order c) → s' < length (c_order c) → sid c s = sid c s' → s = s'.
Proof using Hid. intros H%byID_sid H'%byID_sid E. rewrite E in H. congruence. Qed.

Lemma lookupState_sid text s : s < length (c_order c) → lookupState cc text (sid c s) = Ok s.
Proof using Hid. intros H. unfold lookupState. by rewrite byID_sid. Qed.

(** The IDs of the members of [X], read back. *)
Lemma restoreSet_ids text (X : gset nat) l acc :
  (∀ s, s ∈ l → s < length (c_order c)) →
  ∃ Y, restoreSet cc text (omap (λ s, if decide (s ∈ X) then st_id <$> state_of c s else None) l) acc = Ok Y
    ∧ ∀ s, s ∈ Y ↔ s ∈ acc ∨ (s ∈ X ∧ s ∈ l).
Proof using Hid.
  revert acc. induction l as [|s l IH]; intros acc Hl.
  { exists acc. split; [done|]. intros s. rewrite elem_of_nil. naive_solver. }
  assert (s < length (c_order c)) as Hs by (apply Hl; left). pose proof Hs as [cs Hcs]%lookup_lt_is_Some.
  assert (∀ s, s ∈ l → s < length (c_order c)) as Hl' by (intros ??; apply Hl; by right).
  pose proof (lookupState_sid (text (sid c s)) s Hs) as Hlook. unfold sid, state_of in Hlook. rewrite Hcs in Hlook. simpl in Hlook.
  simpl. unfold state_of. case_decide as HX.
  - rewrite Hcs. simpl. rewrite Hlook. simpl.
    destruct (IH ({[s]} ∪ acc) Hl') as (Y & HY & Hel). exists Y. split; [exact HY|].
    intros x. rewrite Hel. set_solver.
  - destruct (IH acc Hl') as (Y & HY & Hel). exists Y. split; [exact HY|]. intros x. rewrite Hel. set_solver.
Qed.

Lemma restoreList_sid text l : (∀ s, s ∈ l → s < length (c_order c)) → restoreList cc text (map (sid c) l) = Ok l.
Proof using Hid.
  induction l as [|s l IH]; intros Hl; [done|]. simpl. rewrite lookupState_sid by (apply Hl; left). simpl.
  rewrite IH; [done|]. intros ??. apply Hl. by right.
Qed.

(** A recorded history of states of the chart. *)
Definition history_valid (hist : gmap nat (list nat)) : Prop :=
  ∀ h r, hist !! h = Some r → h < length (c_order c) ∧ ∀ s, s ∈ r → s < length (c_order c).

Definition historyEntry (e : nat * list nat) : string * list Identifier := (sid c e.1, map (sid c) e.2).

Lemma restoreHistory_entries l acc :
  NoDup (map fst l) → (∀ h r, (h, r) ∈ l → h < length (c_order c) ∧ ∀ s, s ∈ r → s < length (c_order c)) →
  restoreHistory cc (map historyEntry l) acc = Ok (list_to_map l ∪ acc).
Proof using Hid.
  revert acc. induction l as [|[h r] l IH]; intros acc Hn Hv; simpl.
  { by rewrite (left_id_L ∅ (∪)). }
  simpl in Hn. apply NoDup_cons in Hn as [Hh Hn]. destruct (Hv h r) as [Hvh Hvr]; [left|].
  rewrite lookupState_sid by done. simpl. rewrite restoreList_sid by done. simpl.
  rewrite IH; [|done|intros h' r' H'; apply Hv; by right]. f_equal.
  rewrite <- insert_union_l, insert_union_r; [done|]. by apply not_elem_of_list_to_map_1.
Qed.

Lemma restoreHistory_ids hist : history_valid hist →
  restoreHistory cc (map_to_list (historyIDs cc hist)) ∅ = Ok hist.
Proof using Hid.
  intros Hv. unfold historyIDs. fold historyEntry.
  assert (NoDup (map historyEntry (map_to_list hist)).*1) as Hn.
  { rewrite <- list_fmap_compose. apply NoDup_fmap_2_strong.
    - intros [h r] [h' r'] H%elem_of_map_to_list H'%elem_of_map_to_list E. simpl in E.
      assert (h = h') as <- by (apply sid_inj; [exact (proj1 (Hv h r H)) | exact (proj1 (Hv h' r' H')) | done]). congruence.
    - apply NoDup_map_to_list. }
  pose proof (map_to_list_to_map (M := gmap string) _ Hn) as Hp.
  apply Permutation_map_inv in Hp as (l & -> & Hl).
  rewrite restoreHistory_entries.
  - rewrite (right_id_L ∅ (∪)). f_equal. rewrite <- (list_to_map_to_list hist). symmetry.
    apply list_to_map_proper; [apply NoDup_fst_map_to_list | done].
  - rewrite <- Hl. apply NoDup_fst_map_to_list.
  - intros h r H. rewrite <- Hl in H. apply elem_of_map_to_list in H. exact (Hv h r H).
Qed.

(** ** Invocations *)

(** A running invocation without its channel. *)
Definition detach (ri : runningInvoke) : runningInvoke :=
  mkRunning (ri_id ri) (ri_state ri) (ri_spec ri) (ri_typ ri) (ri_source ri) (ri_finalize ri) (ri_autoForward ri) false.

Lemma activeInvokeOf_detach ri : activeInvokeOf cc (detach ri) = activeInvokeOf cc ri.
Proof using Type. done. Qed.

Hypothesis Hiw : invokes_wf c.
Hypothesis Hix : ∀ id spec, cc_invokes cc !! id = Some spec ↔ spec ∈ chartInvokes c ∧ iv_definitionID spec = id.

(** An invocation that a snapshot with configuration [cfg] may list. *)
Definition restorable (cfg : gset nat) (ri : runningInvoke) : Prop :=
  running_ok c (ri_state ri) ri ∧ ri_state ri ∈ cfg ∧ ri_state ri < length (c_order c).

Lemma restoreInvoke_detach cfg ri rg :
  restorable cfg ri → rg_byID rg !! ri_id ri = None → iv_definitionID (ri_spec ri) ∉ rg_definitions rg →
  restoreInvoke cc cfg (activeInvokeOf cc ri) rg =
    Ok (mkRestoring (<[ri_state ri := default [] (rg_byState rg !! ri_state ri) ++ [detach ri]]> (rg_byState rg))
          (<[ri_id ri := detach ri]> (rg_byID rg)) ({[iv_definitionID (ri_spec ri)]} ∪ rg_definitions rg)).
Proof using Hid Hiw Hix.
  intros ([_ Hspec _ Hname [Htyp Hstatic] Hfin Hauto] & Hcfg & Hv) Hfresh Hdef.
  unfold restoreInvoke. simpl. rewrite lookupState_sid by done. simpl.
  rewrite (bool_decide_true (ri_state ri ∈ cfg)) by done. simpl.
  assert (cc_invokes cc !! iv_definitionID (ri_spec ri) = Some (ri_spec ri)) as ->.
  { apply Hix. split; [|done]. by eapply invokes_elem. }
  rewrite (bool_decide_false (ri_id ri = "")), (bool_decide_true (iv_owner (ri_spec ri) = ri_state ri)),
    (bool_decide_false (ri_typ ri = "")), (bool_decide_false (_ ∈ rg_definitions rg)), Hfresh by
    (done || by apply (iw_owner c Hiw)). simpl.
  assert (negb (present (iv_typeExpr (ri_spec ri))) && negb (bool_decide (ri_typ ri = iv_staticType (ri_spec ri))) = false) as ->.
  { destruct (iv_typeExpr (ri_spec ri)); [done|]. simpl. by rewrite bool_decide_true by auto. }
  simpl. unfold detach. by rewrite Hfin, Hauto.
Qed.

(** What the loop has rebuilt after the invocations [ris]. *)
Record rebuilt (ris : list runningInvoke) (rg rg' : restoring) : Prop := {
  rb_pool : pooled (rg_byState rg') ≡ₚ pooled (rg_byState rg) ++ map detach ris;
  rb_state : ∀ s, default [] (rg_byState rg' !! s)
    = default [] (rg_byState rg !! s) ++ map detach (filter (λ ri, ri_state ri = s) ris);
  rb_nonempty : (∀ s, rg_byState rg !! s ≠ Some []) → ∀ s, rg_byState rg' !! s ≠ Some [];
  rb_byID : ∀ id ri', rg_byID rg' !! id = Some ri' ↔
    rg_byID rg !! id = Some ri' ∨ ∃ ri, ri ∈ ris ∧ ri_id ri = id ∧ ri' = detach ri
}.

Lemma restoreInvokes_rebuilt cfg ris rg :
  Forall (restorable cfg) ris → NoDup (map ri_id ris) → NoDup (map (λ ri, iv_definitionID (ri_spec ri)) ris) →
  (∀ ri, ri ∈ ris → rg_byID rg !! ri_id ri = None ∧ iv_definitionID (ri_spec ri) ∉ rg_definitions rg) →
  ∃ rg', restoreInvokes cc cfg (map (activeInvokeOf cc) ris) rg = Ok rg' ∧ rebuilt ris rg rg'.
Proof using Hid Hiw Hix.
  intros Hall. revert rg. induction Hall as [|ri ris Hri _ IH]; intros rg Hn Hd Hfresh.
  { exists rg. split; [done|]. split; [by rewrite app_nil_r | intros s; by rewrite app_nil_r | done |].
    intros id ri'. split; [by left|]. intros [?|(ri & ?%elem_of_nil & _)]; done. }
  simpl in Hn, Hd. apply NoDup_cons in Hn as [Hni Hn], Hd as [Hnd Hd].
  destruct (Hfresh ri) as [F1 F2]; [left|]. cbn [map restoreInvokes]. rewrite restoreInvoke_detach by done. simpl.
  set (rg1 := mkRestoring _ _ _).
  destruct (IH rg1) as (rg' & Hrg' & [A B C D]); [done | done | |].
  { intros x Hx. destruct (Hfresh x) as [G1 G2]; [by right|]. unfold rg1. simpl. split.
    - rewrite lookup_insert_ne; [done|]. intros E. apply Hni. rewrite E. by apply list_elem_of_fmap_2.
    - rewrite not_elem_of_union, not_elem_of_singleton. split; [|done]. intros E. apply Hnd. rewrite <- E.
      by apply (list_elem_of_fmap_2 (λ ri, iv_definitionID (ri_spec ri))). }
  exists rg'. split; [exact Hrg'|]. split.
  - rewrite A. unfold rg1. simpl. rewrite pooled_append. by rewrite <- app_assoc.
  - intros s. rewrite B. unfold rg1. simpl. rewrite filter_cons. destruct (decide (ri_state ri = s)) as [<-|Hne].
    + rewrite lookup_insert_eq. simpl. by rewrite <- app_assoc.
    + by rewrite lookup_insert_ne.
  - intros H. apply C. unfold rg1. simpl. intros s. destruct (decide (ri_state ri = s)) as [<-|Hne].
    + rewrite lookup_insert_eq. intros [= E]. by destruct (default [] (rg_byState rg !! ri_state ri)).
    + by rewrite lookup_insert_ne.
  - intros id ri'. rewrite D. unfold rg1. simpl. rewrite lookup_insert_Some. split.
    + intros [[[<- <-]|[Hne ?]]|(x & Hx & ? & ?)]; [right; exists ri; split_and!; [left | done | done] | by left |].
      right. exists x. split_and!; [by right | done | done].
    + intros [H|(x & [->|Hx]%elem_of_cons & <- & ->)]; [left; right | by left; left | right; eauto].
      split; [|done]. intros <-. congruence.
Qed.

Section running.
Variable ip : interpretation.
Hypothesis Hok : invocations_ok c ip.

Lemma runningInvokes_spec ri : ri ∈ pooled (activeInvokes ip) ↔ invokesByID ip !! ri_id ri = Some ri.
Proof using Hok.
  destruct Hok as [_ HA HI]. rewrite elem_of_pooled, HI. split.
  - intros (s & ris & E & Hin). split; [done|]. exists ris. split; [|done].
    destruct (HA _ _ E) as (_ & _ & _ & _ & Hall). rewrite Forall_forall in Hall. by rewrite (ro_state _ _ _ (Hall ri Hin)).
  - intros (_ & ris & E & Hin). eauto.
Qed.

Lemma runningInvokes_state ri : ri ∈ pooled (activeInvokes ip) →
  ∃ ris, activeInvokes ip !! ri_state ri = Some ris ∧ ri ∈ ris ∧ running_ok c (ri_state ri) ri
    ∧ ri_state ri ∈ configuration ip ∧ NoDup (map ri_spec ris).
Proof using Hok Hiw.
  intros H%runningInvokes_spec. destruct Hok as [_ HA HI]. apply HI in H as (_ & ris & E & Hin).
  destruct (HA _ _ E) as (_ & ? & _ & Hsub & Hall). rewrite Forall_forall in Hall. exists ris.
  split_and!; [done | done | by apply Hall | done | by eapply submseteq_NoDup, Hsub; apply NoDup_invokes].
Qed.

Lemma NoDup_runningInvokes : NoDup (pooled (activeInvokes ip)).
Proof using Hok Hiw.
  apply (NoDup_pooled ri_state). intros s ris E. destruct Hok as [_ HA _]. destruct (HA _ _ E) as (_ & _ & _ & Hsub & Hall).
  rewrite Forall_forall in Hall. split; [|intros ri ?; by eapply ro_state, Hall].
  eapply (NoDup_fmap_1 ri_spec), submseteq_NoDup, Hsub. apply NoDup_invokes, Hiw.
Qed.

Lemma NoDup_running_ids : NoDup (map ri_id (pooled (activeInvokes ip))).
Proof using Hok Hiw.
  apply NoDup_fmap_2_strong; [|apply NoDup_runningInvokes].
  intros x y Hx%runningInvokes_spec Hy%runningInvokes_spec E. rewrite E in Hx. congruence.
Qed.

Lemma NoDup_running_definitions : NoDup (map (λ ri, iv_definitionID (ri_spec ri)) (pooled (activeInvokes ip))).
Proof using Hok Hiw.
  apply NoDup_fmap_2_strong; [|apply NoDup_runningInvokes].
  intros x y (rx & Ex & Hx & Rx & _ & Nx)%runningInvokes_state (ry & Ey & Hy & Ry & _ & _)%runningInvokes_state E.
  assert (ri_spec x = ri_spec y) as Hs.
  { apply (invoke_definition_inj c Hiw); [by eapply invokes_elem, Rx | by eapply invokes_elem, Ry | done]. }
  pose proof (iw_owner c Hiw _ _ (ro_spec _ _ _ Rx)) as Ox. pose proof (iw_owner c Hiw _ _ (ro_spec _ _ _ Ry)) as Oy.
  rewrite Hs in Ox. rewrite <- Ox, Oy in Ex. rewrite Ey in Ex. injection Ex as <-.
  by apply (NoDup_map_elem_inj ri_spec ry).
Qed.

(** The invocations of a snapshot are accepted and rebuilt. *)
Lemma restore_running :
  (∀ s, s ∈ configuration ip → s < length (c_order c)) →
  ∃ ris rg', ris ≡ₚ pooled (activeInvokes ip)
    ∧ merge_sort invokeOrder (map (activeInvokeOf cc) (pooled (activeInvokes ip))) = map (activeInvokeOf cc) ris
    ∧ restoreInvokes cc (configuration ip) (map (activeInvokeOf cc) ris) (mkRestoring ∅ ∅ ∅) = Ok rg'
    ∧ rebuilt ris (mkRestoring ∅ ∅ ∅) rg'.
Proof using Hok Hid Hiw Hix.
  intros Hv. set (all := pooled (activeInvokes ip)).
  pose proof (merge_sort_Permutation invokeOrder (map (activeInvokeOf cc) all)) as Hp.
  apply Permutation_map_inv in Hp as (ris & -> & Hris).
  destruct (restoreInvokes_rebuilt (configuration ip) ris (mkRestoring ∅ ∅ ∅)) as (rg' & H1 & H2).
  - apply Forall_forall. intros ri Hri. rewrite <- Hris in Hri.
    apply runningInvokes_state in Hri as (_ & _ & _ & Hr & Hc & _). split_and!; auto.
  - rewrite <- Hris. apply NoDup_running_ids.
  - rewrite <- Hris. apply NoDup_running_definitions.
  - simpl. intros ri _. split; [apply lookup_empty | set_solver].
  - exists ris, rg'. by rewrite Hris.
Qed.
End running.

(** ** Pending sends *)

(** The number a record gets when it is restored. *)
Definition renumber (i : nat) (rec : pendingSendRecord) : pendingSendRecord :=
  mkPending (ps_sendID rec) (ps_target rec) (ps_typ rec) (ps_event rec) (ps_fireAt rec) (S i) false.

Lemma restorePending_list l :
  restorePending (map pendingSendOf l) = list_to_map (imap (λ i rec, (S i, renumber i rec)) l).
Proof using Type.
  unfold restorePending. f_equal. rewrite imap_fmap. apply imap_ext. intros i rec _. simpl.
  unfold renumber. by rewrite !cloneEvent_id.
Qed.

Lemma imap_keys {A} (f : nat → A → nat * A) l n :
  (∀ i x, (f i x).1 = n + i) → map fst (imap f l) = seq n (length l).
Proof using Type.
  revert f n. induction l as [|x l IH]; intros f n Hf; [done|]. simpl. rewrite (IH _ (S n)).
  - f_equal. rewrite Hf. lia.
  - intros i y. simpl. rewrite Hf. lia.
Qed.

Lemma restorePending_elements l :
  (map_to_list (restorePending (map pendingSendOf l))).*2 ≡ₚ imap renumber l.
Proof using Type.
  rewrite restorePending_list, map_to_list_to_map.
  - by rewrite fmap_imap.
  - rewrite (imap_keys _ l 1); [apply NoDup_seq | done].
Qed.

Lemma renumber_sorted l : StronglySorted pendingOrder l → StronglySorted pendingOrder (imap renumber l).
Proof using Type.
  intros Hs. assert (∀ g : nat → nat, (∀ i, g i < g (S i)) → StronglySorted pendingOrder (imap (λ i, renumber (g i)) l)) as H;
    [|apply (H id); simpl; lia].
  induction Hs as [|x l Hs IH Hx]; intros g Hg; [constructor|]. simpl. constructor; [apply (IH (g ∘ S)); simpl; auto|].
  assert (∀ n m, n < m → g n < g m) as Hmono.
  { intros n m. induction 1; [done|]. etrans; [done | apply Hg]. }
  apply Forall_forall. intros y (i & r & -> & Hr)%elem_of_lookup_imap_1.
  rewrite Forall_forall in Hx. specialize (Hx r (list_elem_of_lookup_2 _ _ _ Hr)).
  assert (g 0 < g (S i)) by (apply Hmono; lia).
  unfold pendingOrder, renumber in *. simpl. destruct Hx as [?|[? _]]; [by left | right]. split; [done | left; lia].
Qed.

(** The records of a restored snapshot are taken in the order of the snapshot. *)
Lemma restorePending_sorted l : StronglySorted pendingOrder l →
  merge_sort pendingOrder (map_to_list (restorePending (map pendingSendOf l))).*2 = imap renumber l.
Proof using Type.
  intros Hs. apply (StronglySorted_unique_strong pendingOrder).
  - intros x y Hx Hy H1 H2. rewrite merge_sort_Permutation, restorePending_elements in Hx.
    apply elem_of_lookup_imap_1 in Hx as (i & r & -> & Hr). apply elem_of_lookup_imap_1 in Hy as (j & r' & -> & Hr').
    assert (i = j) as <- by (unfold pendingOrder, renumber in *; simpl in *; lia). congruence.
  - apply (StronglySorted_merge_sort _).
  - by apply renumber_sorted.
  - rewrite merge_sort_Permutation. apply restorePending_elements.
Qed.

Lemma pendingSendOf_renumber l : map pendingSendOf (imap renumber l) = map pendingSendOf l.
Proof using Type.
  apply list_eq. intros i. rewrite !list_lookup_fmap, list_lookup_imap. by destruct (l !! i).
Qed.

(** ** The restored interpreter *)

(** [ip'] is [ip] up to the channels of the invocations, the numbers of the
    pending sends and what a snapshot leaves out. *)
Record durable_eq (ip ip' : interpretation) : Prop := {
  de_configuration : configuration ip' = configuration ip;
  de_history : historyValue ip' = historyValue ip;
  de_running : running ip' = running ip;
  de_internal : internalQueue ip' = internalQueue ip;
  de_external : externalQueue ip' = externalQueue ip;
  de_sendSeq : sendSeq ip' = sendSeq ip;
  de_dispatchSeq : dispatchSeq ip' = dispatchSeq ip;
  de_invokeSeq : invokeSeq ip' = invokeSeq ip;
  de_session : session ip' = session ip;
  de_initialized : ∀ s, s < length (c_order c) → s ∈ initializedData ip' ↔ s ∈ initializedData ip;
  de_byID : ∀ id, invokesByID ip' !! id = detach <$> invokesByID ip !! id;
  de_byState : ∀ s, default [] (activeInvokes ip' !! s) ≡ₚ map detach (default [] (activeInvokes ip !! s));
  de_pool : pooled (activeInvokes ip') ≡ₚ map detach (pooled (activeInvokes ip));
  de_pending : merge_sort pendingOrder (map_to_list (pending ip')).*2
    = imap renumber (merge_sort pendingOrder (map_to_list (pending ip)).*2);
  de_nonempty : ∀ s, activeInvokes ip' !! s ≠ Some []
}.

Lemma rebuilt_byID ip ris rg' : invocations_ok c ip → ris ≡ₚ pooled (activeInvokes ip) →
  rebuilt ris (mkRestoring ∅ ∅ ∅) rg' → ∀ id, rg_byID rg' !! id = detach <$> invokesByID ip !! id.
Proof using Type.
  intros Hok Hris [_ _ _ HD] id. apply option_eq. intros ri'. rewrite HD. simpl. rewrite lookup_empty.
  destruct (invokesByID ip !! id) as [ri|] eqn:E; simpl.
  - pose proof E as (Hri & _)%(io_index _ _ _ _ _ Hok). split.
    + intros [?|(x & Hx & Hxi & ->)]; [done|]. rewrite Hris in Hx. apply (runningInvokes_spec ip Hok) in Hx.
      rewrite Hxi, E in Hx. congruence.
    + intros [= <-]. right. exists ri. split_and!; [|done|done]. rewrite Hris. apply (runningInvokes_spec ip Hok). by rewrite Hri.
  - split; [|done]. intros [?|(x & Hx & <- & _)]; [done|]. rewrite Hris in Hx. apply (runningInvokes_spec ip Hok) in Hx.
    congruence.
Qed.

Lemma rebuilt_byState ip ris rg' s : invocations_ok c ip → ris ≡ₚ pooled (activeInvokes ip) →
  rebuilt ris (mkRestoring ∅ ∅ ∅) rg' →
  default [] (rg_byState rg' !! s) ≡ₚ map detach (default [] (activeInvokes ip !! s)).
Proof using Type.
  intros Hok Hris [_ HB _ _]. rewrite HB. simpl. rewrite lookup_empty. simpl. apply Permutation_map.
  rewrite <- (pooled_by_key ri_state (activeInvokes ip)); [by rewrite Hris|].
  intros k l x E Hx. destruct (io_active _ _ _ _ _ Hok _ _ E) as (_ & _ & _ & _ & Hall).
  rewrite Forall_forall in Hall. by apply (ro_state _ _ _ (Hall x Hx)).
Qed.

Context `{RS : !RestorableSession}.

Lemma restore_built env ip cfg fresh t snap :
  (∀ s, s ∈ configuration ip → s < length (c_order c)) → history_valid (historyValue ip) → invocations_ok c ip →
  buildSnapshot cc env ip = Ok snap →
  ∃ rs, restoreInstanceFromFactory cc cfg (Ok (Some fresh)) t snap = Ok rs
    ∧ durable_eq ip (rs_interpretation rs)
    ∧ rs_sessionID rs = restoredSessionID cfg snap ∧ rs_deliveryNamespace rs = restoredNamespace cfg snap.
Proof using All.
  intros Hv Hh Hok. unfold buildSnapshot. destruct (EncodeSnapshot (session ip)) as [bytes|e] eqn:Henc; [|done].
  intros [= <-]. unfold restoreInstanceFromFactory, validateSnapshotHeader. simpl.
  rewrite !bool_decide_true by done. simpl. unfold restoreInstanceForSession, restoreFrom. simpl.
  destruct (restoreSet_ids (λ id, "chart has no state " +:+ quote id +:+ " (from snapshot configuration)")
    (configuration ip) (seq 0 (length (c_order c))) ∅) as (Y & HY & HelY); [intros s ?%elem_of_seq; lia|].
  fold (activeStates c ip) in HY. rewrite HY. simpl. rewrite restoreHistory_ids by done. simpl.
  destruct (restoreSet_ids (λ id, "chart has no initialized state " +:+ quote id)
    (initializedData ip) (seq 0 (length (c_order c))) ∅) as (Z & HZ & HelZ); [intros s ?%elem_of_seq; lia|].
  fold (initializedIDs cc ip) in HZ. rewrite HZ. simpl.
  assert (Y = configuration ip) as ->.
  { apply set_eq. intros s. rewrite HelY, elem_of_seq. split; [set_solver|]. intros Hs. right. split; [done|].
    specialize (Hv s Hs). lia. }
  destruct (restore_running ip Hok Hv) as (ris & rg' & Hris & Hsort & Hrest & Hreb).
  unfold runningInvokes. fold (pooled (activeInvokes ip)). rewrite Hsort, Hrest. simpl.
  rewrite (decode_encode _ _ fresh Henc). eexists. split; [done|]. split; [|done]. simpl.
  set (l := merge_sort pendingOrder (map_to_list (pending ip)).*2).
  assert (StronglySorted pendingOrder l) as Hl by apply (StronglySorted_merge_sort _).
  split; try done; try apply cloneEvents_id.
  - change (cloneEvents (cloneEvents (internalQueue ip)) = internalQueue ip). by rewrite !cloneEvents_id.
  - change (cloneEvents (cloneEvents (externalQueue ip)) = externalQueue ip). by rewrite !cloneEvents_id.
  - intros s Hs. change (s ∈ Z ↔ s ∈ initializedData ip). rewrite HelZ, elem_of_seq. split; [set_solver|].
    intros ?. right. split; [done | lia].
  - by eapply rebuilt_byID.
  - intros s. by eapply rebuilt_byState.
  - change (pooled (rg_byState rg') ≡ₚ map detach (pooled (activeInvokes ip))).
    rewrite (rb_pool _ _ _ Hreb). simpl. by rewrite Hris.
  - by apply restorePending_sorted.
  - apply (rb_nonempty _ _ _ Hreb). simpl. intros s. by rewrite lookup_empty.
Qed.

(** A snapshot only depends on what [durable_eq] keeps. *)
Lemma durable_snapshot env ip ip' : invocations_ok c ip → durable_eq ip ip' → buildSnapshot cc env ip' = buildSnapshot cc env ip.
Proof using All.
  intros Hok [Hc Hh Hr Hi He Hss Hd Hiv Hse Hini _ _ Hpool Hp _]. unfold buildSnapshot. rewrite Hse.
  destruct (EncodeSnapshot (session ip)) as [bytes|e]; [|done].
  assert (activeStates c ip' = activeStates c ip) as -> by (unfold activeStates; by rewrite Hc).
  assert (initializedIDs cc ip' = initializedIDs cc ip) as ->.
  { unfold initializedIDs. apply list_omap_ext, Forall_Forall2_diag, Forall_forall. intros s [_ Hs]%elem_of_seq.
    specialize (Hini s Hs). repeat case_decide; tauto. }
  assert (merge_sort invokeOrder (map (activeInvokeOf cc) (runningInvokes ip'))
          = merge_sort invokeOrder (map (activeInvokeOf cc) (runningInvokes ip))) as ->.
  { unfold runningInvokes. fold (pooled (activeInvokes ip)) (pooled (activeInvokes ip')).
    assert (map (activeInvokeOf cc) (pooled (activeInvokes ip')) ≡ₚ map (activeInvokeOf cc) (pooled (activeInvokes ip))) as Hperm.
    { rewrite Hpool, map_map. done. }
    apply (StronglySorted_unique_strong invokeOrder); [|apply (StronglySorted_merge_sort _)..|by rewrite !merge_sort_Permutation].
    intros x y Hx Hy H1 H2. rewrite merge_sort_Permutation in Hx, Hy. rewrite Hperm in Hx.
    apply list_elem_of_fmap in Hx as (ri & -> & Hri). apply list_elem_of_fmap in Hy as (ri' & -> & Hri').
    f_equal. apply (NoDup_map_elem_inj ri_id (pooled (activeInvokes ip))); [by apply NoDup_running_ids | done | done |].
    by apply (anti_symm string_le). }
  rewrite Hh, Hi, He, Hr, Hss, Hiv, Hd, Hp, pendingSendOf_renumber. done.
Qed.
End restore.

(** ** Theorems *)

Lemma history_ok_valid `{DM : DatamodelSession} (c : Chart) hist : wf_tree c → history_ok c hist →
  ∀ h r, hist !! h = Some r → h < length (c_order c) ∧ ∀ s, s ∈ r → s < length (c_order c).
Proof.
  intros Htree Hok h r Hr. destruct (Hok h r Hr) as (q & Hk & Hp & (_ & _ & Hs & _) & _). split.
  - by eapply wf_parent_valid.
  - intros s Hin. rewrite Forall_forall in Hs. eapply (strict_valid c Htree). by apply Hs.
Qed.

Section theorems.
Context `{SS : SnapshotSession}.
Context `{RS : !RestorableSession}.
Variable parseDuration : string → result Z.
Variable jsonMarshal : ChartDefinition → result string.
Variable sha256 : string → string.

(** What the reachable states of a compiled chart offer to [restore_built]. *)
Lemma reachable_restorable d m cc env ip :
  Compile parseDuration jsonMarshal sha256 d m = Ok cc → supported (cc_chart cc) = true →
  reachable (cc_chart cc) env ip →
  (∀ id n, c_byID (cc_chart cc) !! id = Some n ↔ States (cc_chart cc) !! n = Some id)
  ∧ invokes_wf (cc_chart cc) ∧ (∀ s, s ∈ configuration ip → s < length (c_order (cc_chart cc)))
  ∧ history_valid cc (historyValue ip) ∧ invocations_ok (cc_chart cc) ip.
Proof using Type.
  intros Hc Hsup Hr. pose proof Hc as (p & v & Hlink)%Compile_linked.
  pose proof (linked_wf_chart _ _ _ _ _ Hlink Hsup) as Hwf.
  pose proof (compiled_invokes_wf _ _ _ _ _ _ Hc (wf_root _ _ Hwf)) as Hiw.
  destruct (reachable_well_configured _ env _ Hwf ip Hr) as [HL HH]. split_and!.
  - by eapply linked_byID.
  - done.
  - intros s Hs. by apply (legal_valid _ _ HL).
  - exact (history_ok_valid _ _ (wf_is_tree _ _ Hwf) HH).
  - by eapply reachable_invocations_ok.
Qed.

(** C7 (refinement): a snapshot of a running instance can be restored: whatever
    reachable state of a supported compiled chart it is taken from, over a
    datamodel that decodes its own snapshots ([RestorableSession]), [Restore]
    accepts it, in any fresh session, and the restored interpreter has the same
    configuration, history, queues, counters, initialised data and datamodel
    state, the same running invocations (without their channels) under the same
    IDs, and the same pending sends in the same order.  The session ID is kept
    unless one is configured, and the delivery namespace is kept. *)
Theorem restore_accepts_snapshot (d : ChartDefinition) (m : option Datamodel) (cc : compiledChart)
    (env : environment) (ip : interpretation) (cfg : instanceConfig) (fresh : Session) (t : Z) (snap : Snapshot) :
  Compile parseDuration jsonMarshal sha256 d m = Ok cc → supported (cc_chart cc) = true →
  reachable (cc_chart cc) env ip → buildSnapshot cc env ip = Ok snap →
  ∃ rs, restoreInstanceFromFactory cc cfg (Ok (Some fresh)) t snap = Ok rs
    ∧ durable_eq cc ip (rs_interpretation rs)
    ∧ rs_sessionID rs = (if decide (cfg_sessionID cfg ≠ "") then cfg_sessionID cfg
                         else if decide (env_sessionID env ≠ "") then env_sessionID env else cfg_generatedID cfg)
    ∧ (env_deliveryNamespace env ≠ "" → rs_deliveryNamespace rs = env_deliveryNamespace env).
Proof using RS.
  intros Hc Hsup Hr Hsnap. destruct (reachable_restorable _ _ _ _ _ Hc Hsup Hr) as (Hid & Hiw & Hv & Hh & Hok).
  destruct (restore_built cc Hid Hiw (λ id spec, compiled_invokes_index _ _ _ _ _ _ id spec Hc) env ip cfg fresh t snap Hv Hh Hok Hsnap)
    as (rs & H1 & H2 & H3 & H4).
  unfold buildSnapshot in Hsnap. destruct (EncodeSnapshot (session ip)); [|done]. injection Hsnap as <-.
  exists rs. split_and!; [done | done | by rewrite H3 |]. intros Hns. rewrite H4. unfold restoredNamespace. simpl.
  by rewrite decide_True.
Qed.

(** Restoring is exact: a snapshot taken of the restored
    instance, before it processes anything, is the snapshot it was restored
    from. *)
Theorem snapshot_of_restored (d : ChartDefinition) (m : option Datamodel) (cc : compiledChart)
    (env : environment) (ip : interpretation) (cfg : instanceConfig) (fresh : Session) (t : Z) (snap : Snapshot)
    (rs : restoredInstance) :
  Compile parseDuration jsonMarshal sha256 d m = Ok cc → supported (cc_chart cc) = true →
  reachable (cc_chart cc) env ip → buildSnapshot cc env ip = Ok snap →
  restoreInstanceFromFactory cc cfg (Ok (Some fresh)) t snap = Ok rs →
  buildSnapshot cc env (rs_interpretation rs) = Ok snap.
Proof using RS.
  intros Hc Hsup Hr Hsnap Hrs. destruct (reachable_restorable _ _ _ _ _ Hc Hsup Hr) as (Hid & Hiw & Hv & Hh & Hok).
  pose proof (λ id spec, compiled_invokes_index _ _ _ _ _ _ id spec Hc) as Hix.
  destruct (restore_built cc Hid Hiw Hix env ip cfg fresh t snap Hv Hh Hok Hsnap) as (rs' & H1 & H2 & _).
  rewrite H1 in Hrs. injection Hrs as <-. rewrite <- Hsnap. by apply (durable_snapshot cc Hid Hiw Hix).
Qed.

End theorems.

(** ** Witnesses: the counter session *)

Fixpoint unary (n : nat) : string := match n with 0 => "" | S n => String "1" (unary n) end.

Lemma length_unary n : String.length (unary n) = n.
Proof. induction n; simpl; auto. Qed.

#[export] Instance CounterSnapshot : SnapshotSession (DM := CounterSession) := {
  EncodeSnapshot z := Ok (String (if decide (z < 0)%Z then "-" else "+")%char (unary (Z.abs_nat z)));
  DecodeSnapshot bytes _ :=
    match bytes with
    | String sign digits =>
        let n := Z.of_nat (String.length digits) in Ok (if decide (sign = "-"%char) then (- n)%Z else n)
    | EmptyString => Err (Errorf "counter: empty snapshot")
    end
}.

#[export] Instance CounterRestorable : RestorableSession (SS := CounterSnapshot).
Proof.
  intros z bytes fresh [= <-]. simpl. f_equal. rewrite length_unary, Nat2Z.inj_abs_nat.
  repeat case_decide; try done; lia.
Qed.

Definition plainConfig : instanceConfig := mkConfig "" "" "generated" 1.

(** The player after it was switched on: the helper runs. *)
Definition onPlayer : interpretation (DM := CounterSession) := stateAfter playerDefinition ["power"; "light"].

Definition onSnapshot : Snapshot :=
  match buildSnapshot (SS := CounterSnapshot) (compiledOf playerDefinition) plainEnv onPlayer with
  | Ok s => s | Err _ => sampleSnapshot
  end.

Lemma onSnapshot_built :
  buildSnapshot (SS := CounterSnapshot) (compiledOf playerDefinition) plainEnv onPlayer = Ok onSnapshot.
Proof. reflexivity. Qed.

Example onSnapshot_content :
  sn_Configuration onSnapshot = ["on"; "both"; "state.2"; "quiet"; "state.1"; "bright"]
  ∧ map ai_ID (sn_ActiveInvokes onSnapshot) = ["helper"].
Proof. vm_compute. done. Qed.

Lemma onPlayer_reachable : reachable (cc_chart (compiledOf playerDefinition)) plainEnv onPlayer.
Proof. apply stateAfter_reachable. vm_compute. reflexivity. Qed.

Lemma restore_accepts_snapshot_witness :
  ∃ rs, restoreInstanceFromFactory (SS := CounterSnapshot) (compiledOf playerDefinition) plainConfig
          (Ok (Some (0%Z : @Session CounterSession))) 5 onSnapshot = Ok rs
    ∧ configuration (rs_interpretation rs) = configuration onPlayer.
Proof.
  destruct (restore_accepts_snapshot (SS := CounterSnapshot) oneSecond (λ d, Ok (df_ID d)) (λ s, s) playerDefinition
    (Some counterModel) (compiledOf playerDefinition) plainEnv onPlayer plainConfig (0%Z : @Session CounterSession) 5 onSnapshot
    player_compiled player_supported onPlayer_reachable onSnapshot_built) as (rs & H & Hde & _).
  exists rs. split; [exact H | exact (de_configuration _ _ _ Hde)].
Defined.

Lemma snapshot_of_restored_witness :
  ∃ rs, restoreInstanceFromFactory (SS := CounterSnapshot) (compiledOf playerDefinition) plainConfig
          (Ok (Some (0%Z : @Session CounterSession))) 5 onSnapshot = Ok rs
    ∧ buildSnapshot (SS := CounterSnapshot) (compiledOf playerDefinition) plainEnv (rs_interpretation rs) = Ok onSnapshot.
Proof.
  destruct (restoreInstanceFromFactory (SS := CounterSnapshot) (compiledOf playerDefinition) plainConfig
    (Ok (Some (0%Z : @Session CounterSession))) 5 onSnapshot) as [rs|e] eqn:E.
  - exists rs. split; [reflexivity|].
    exact (snapshot_of_restored (SS := CounterSnapshot) oneSecond (λ d, Ok (df_ID d)) (λ s, s) playerDefinition
      (Some counterModel) (compiledOf playerDefinition) plainEnv onPlayer plainConfig (0%Z : @Session CounterSession) 5 onSnapshot rs
      player_compiled player_supported onPlayer_reachable onSnapshot_built E).
  - exfalso. assert (match restoreInstanceFromFactory (SS := CounterSnapshot) (compiledOf playerDefinition) plainConfig
      (Ok (Some (0%Z : @Session CounterSession))) 5 onSnapshot with Ok _ => true | Err _ => false end = true) as H
      by (vm_compute; reflexivity). rewrite E in H. discriminate H.
Defined.
