(* ===== verification/Typed.v ===== *)
(** * What any accepted snapshot gives (snapshot.go)

    A snapshot is data: it may come from an older run, another process or a
    damaged file.  Whatever it says, [restoreFrom] builds an interpreter whose
    state pointers are states of the chart and whose two invocation tables
    agree, or it fails. *)

From S2P Require Import Prelude Identifier Values Events Datamodel Chart Tree Legal Interp Actions Entry Steps Macrostep Evolution Examples Completion Definitions Validate Layout Compile Accepted Authoring Compiled Declared Snapshot Restored.
From stdpp Require Import options.

Section typed.
Context `{SS : SnapshotSession}.
Variable cc : compiledChart.
Abbreviation c := (cc_chart cc).

(** A running invocation that the chart declares, of an active state. *)
Record declared (active : gset nat) (ri : runningInvoke) : Prop := {
  dc_state : ri_state ri ∈ active;
  dc_spec : ri_spec ri ∈ invokes c (ri_state ri);
  dc_named : ri_id ri ≠ "";
  dc_typ : ri_typ ri ≠ "" ∧ (iv_typeExpr (ri_spec ri) = None → ri_typ ri = iv_staticType (ri_spec ri));
  dc_finalize : ri_finalize ri = iv_finalize (ri_spec ri);
  dc_autoForward : ri_autoForward ri = iv_autoForward (ri_spec ri);
  dc_channel : ri_incoming ri = false
}.

Record tables_ok (active : gset nat) (byState : gmap nat (list runningInvoke)) (byID : gmap string runningInvoke) : Prop := {
  tb_state : ∀ s ris, byState !! s = Some ris → ris ≠ [] ∧ ∀ ri, ri ∈ ris → ri_state ri = s;
  tb_index : ∀ id ri, byID !! id = Some ri ↔ ri_id ri = id ∧ ∃ ris, byState !! ri_state ri = Some ris ∧ ri ∈ ris;
  tb_declared : ∀ id ri, byID !! id = Some ri → declared active ri;
  tb_once : ∀ id id' ri ri', byID !! id = Some ri → byID !! id' = Some ri' →
    iv_definitionID (ri_spec ri) = iv_definitionID (ri_spec ri') → id = id'
}.

(** An interpreter all of whose references are to parts of the chart. *)
Record well_typed (ip : interpretation) : Prop := {
  wt_configuration : ∀ s, s ∈ configuration ip → s < length (c_order c);
  wt_history : history_valid cc (historyValue ip);
  wt_initialized : ∀ s, s ∈ initializedData ip → s < length (c_order c);
  wt_toInvoke : statesToInvoke ip = ∅;
  wt_pending : pending_ok ip;
  wt_channels : channels ip = ∅;
  wt_hookErr : hookErr ip = None;
  wt_completed : completed ip = false;
  wt_tables : tables_ok (configuration ip) (activeInvokes ip) (invokesByID ip)
}.

Lemma chartInvokes_owner spec : invokes_wf c → spec ∈ chartInvokes c → spec ∈ invokes c (iv_owner spec).
Proof.
  intros Hiw Hin. unfold chartInvokes in Hin. apply list_elem_of_In, in_concat in Hin as (l & Hl & Hin).
  apply in_map_iff in Hl as (cs & <- & Hcs). apply list_elem_of_In, list_elem_of_lookup in Hcs as [s Hs].
  assert (spec ∈ invokes c s) as H by (unfold invokes, state_of; rewrite Hs; by apply list_elem_of_In).
  by rewrite (iw_owner c Hiw _ _ H).
Qed.

Hypothesis Hid : ∀ id n, c_byID c !! id = Some n ↔ States c !! n = Some id.
Hypothesis Hiw : invokes_wf c.
Hypothesis Hix : ∀ id spec, cc_invokes cc !! id = Some spec ↔ spec ∈ chartInvokes c ∧ iv_definitionID spec = id.

Lemma lookupState_valid text id s : lookupState cc text id = Ok s → s < length (c_order c).
Proof using Hid.
  unfold lookupState. destruct (c_byID c !! id) as [n|] eqn:E; [|done]. intros [= <-]. apply Hid in E.
  apply lookup_lt_Some in E. unfold States in E. by rewrite length_map in E.
Qed.

Lemma restoreSet_valid text ids acc X : restoreSet cc text ids acc = Ok X →
  (∀ s, s ∈ acc → s < length (c_order c)) → ∀ s, s ∈ X → s < length (c_order c).
Proof using Hid.
  revert acc. induction ids as [|id ids IH]; intros acc; simpl; [by intros [= <-]|].
  intros (s & Hs%lookupState_valid & H)%result_bind_Ok Hacc. apply (IH _ H). intros x [->%elem_of_singleton|?]%elem_of_union; auto.
Qed.

Lemma restoreList_valid text ids l : restoreList cc text ids = Ok l → ∀ s, s ∈ l → s < length (c_order c).
Proof using Hid.
  revert l. induction ids as [|id ids IH]; intros l; simpl; [intros [= <-] s ?%elem_of_nil; done|].
  intros (s & Hs%lookupState_valid & (l' & Hl' & [= <-])%result_bind_Ok)%result_bind_Ok x [->|Hx]%elem_of_cons; [done|].
  by apply (IH l').
Qed.

Lemma restoreHistory_valid entries acc hist : restoreHistory cc entries acc = Ok hist →
  history_valid cc acc → history_valid cc hist.
Proof using Hid.
  revert acc. induction entries as [|[h ids] entries IH]; intros acc; simpl; [by intros [= <-]|].
  intros (n & Hn%lookupState_valid & (l & Hl & H)%result_bind_Ok)%result_bind_Ok Hacc. apply (IH _ H).
  intros k r [[<- <-]|[_ Hk]]%lookup_insert_Some; [|by apply Hacc]. split; [done|]. by eapply restoreList_valid.
Qed.

(** What the loop over the invocations keeps. *)
Definition restoring_ok (active : gset nat) (rg : restoring) : Prop :=
  tables_ok active (rg_byState rg) (rg_byID rg)
  ∧ ∀ id ri, rg_byID rg !! id = Some ri → iv_definitionID (ri_spec ri) ∈ rg_definitions rg.

Lemma tables_add active byState byID ri :
  tables_ok active byState byID → declared active ri → byID !! ri_id ri = None →
  (∀ id ri', byID !! id = Some ri' → iv_definitionID (ri_spec ri') ≠ iv_definitionID (ri_spec ri)) →
  tables_ok active (<[ri_state ri := default [] (byState !! ri_state ri) ++ [ri]]> byState) (<[ri_id ri := ri]> byID).
Proof using Type.
  intros [HS HI HD HO] Hri Hfresh Hdef. split.
  - intros s ris [[<- <-]|[_ E]]%lookup_insert_Some; [|by apply HS]. split; [by destruct (default [] _)|].
    intros x [Hx| ->%list_elem_of_singleton]%elem_of_app; [|done].
    destruct (byState !! ri_state ri) as [l|] eqn:E; [|by apply elem_of_nil in Hx]. by apply (HS _ _ E).
  - intros id x. rewrite lookup_insert_Some. split.
    + intros [[<- <-]|[Hne E]].
      * split; [done|]. eexists. rewrite lookup_insert_eq. split; [done|]. apply elem_of_app. right. by apply list_elem_of_singleton.
      * apply HI in E as (<- & ris & E & Hx). split; [done|]. destruct (decide (ri_state x = ri_state ri)) as [Es|Hs].
        -- eexists. rewrite Es, lookup_insert_eq. split; [done|]. rewrite <- Es, E. apply elem_of_app. by left.
        -- exists ris. by rewrite lookup_insert_ne by done.
    + intros (<- & ris & [[Es <-]|[Hs E]]%lookup_insert_Some & Hx).
      * apply elem_of_app in Hx as [Hx| ->%list_elem_of_singleton]; [|by left].
        destruct (byState !! ri_state ri) as [l|] eqn:E; [|by apply elem_of_nil in Hx].
        assert (byID !! ri_id x = Some x) as Hin by (apply HI; rewrite <- Es; eauto).
        right. split; [|done]. intros Ei. rewrite Ei in Hfresh. congruence.
      * assert (byID !! ri_id x = Some x) as Hin by (apply HI; eauto).
        right. split; [|done]. intros Ei. rewrite Ei in Hfresh. congruence.
  - intros id x [[_ <-]|[_ E]]%lookup_insert_Some; [done | by eapply HD].
  - intros id id' x x' [[<- <-]|[_ E]]%lookup_insert_Some [[<- <-]|[_ E']]%lookup_insert_Some Ed;
      [done | by destruct (Hdef _ _ E') | by destruct (Hdef _ _ E) | by eapply HO].
Qed.

Lemma restoreInvoke_ok active ai rg rg' :
  restoreInvoke cc active ai rg = Ok rg' → restoring_ok active rg → restoring_ok active rg'.
Proof using Hid Hix Hiw.
  unfold restoreInvoke. intros (s & _ & (_ & Hact%fail_if_Ok & H)%result_bind_Ok)%result_bind_Ok [HT HD].
  apply negb_false_iff, bool_decide_eq_true in Hact.
  destruct (cc_invokes cc !! ai_DefinitionID ai) as [spec|] eqn:Hspec; [|done].
  apply result_bind_Ok in H as (_ & Hnamed%fail_if_Ok%bool_decide_eq_false & H).
  apply result_bind_Ok in H as (_ & Howner%fail_if_Ok%negb_false_iff%bool_decide_eq_true & H).
  apply result_bind_Ok in H as (_ & Htyp%fail_if_Ok%bool_decide_eq_false & H).
  apply result_bind_Ok in H as (_ & Hstatic%fail_if_Ok & H).
  apply result_bind_Ok in H as (_ & Hdef%fail_if_Ok%bool_decide_eq_false & H).
  apply result_bind_Ok in H as (_ & Hfresh%fail_if_Ok & H). injection H as <-.
  apply Hix in Hspec as [Hspec Hsid].
  set (ri := mkRunning _ _ _ _ _ _ _ _). split; simpl.
  - apply (tables_add active _ _ ri); [done | | |].
    + split; simpl; try done; [subst s; by apply chartInvokes_owner|]. split; [done|]. intros Hn. rewrite Hn in Hstatic.
      by apply negb_false_iff, bool_decide_eq_true in Hstatic.
    + simpl. by destruct (rg_byID rg !! ai_ID ai).
    + simpl. intros id x E. apply HD in E. congruence.
  - intros id x [[_ <-]|[_ E%HD]]%lookup_insert_Some; simpl; [rewrite Hsid; set_solver | set_solver].
Qed.

Lemma restoreInvokes_ok active ais rg rg' :
  restoreInvokes cc active ais rg = Ok rg' → restoring_ok active rg → restoring_ok active rg'.
Proof using Hid Hix Hiw.
  revert rg. induction ais as [|ai ais IH]; intros rg; simpl; [by intros [= <-]|].
  intros (rg1 & H1 & H)%result_bind_Ok Hok. eapply IH; [done|]. by eapply restoreInvoke_ok.
Qed.

Lemma restorePending_ok pds n rec : restorePending pds !! n = Some rec → ps_order rec = n ∧ n ≤ length pds.
Proof using Type.
  unfold restorePending. intros H%elem_of_list_to_map_2. apply elem_of_lookup_imap in H as (i & x & [= -> ->] & Hi).
  simpl. split; [done|]. apply lookup_lt_Some in Hi. lia.
Qed.

Lemma restored_typed cfg factory t snap rs :
  restoreInstanceFromFactory cc cfg factory t snap = Ok rs → well_typed (rs_interpretation rs).
Proof using Hid Hix Hiw.
  unfold restoreInstanceFromFactory. intros (_ & _ & H)%result_bind_Ok. destruct factory as [[fresh|]|]; [|done..].
  unfold restoreInstanceForSession in H. destruct (restoreFrom cc snap _) as [ip|e] eqn:Hip; [|done].
  destruct (DecodeSnapshot _ _) as [s|e]; [|done]. injection H as <-. simpl.
  unfold restoreFrom in Hip. apply result_bind_Ok in Hip as (C & HC & Hip). apply result_bind_Ok in Hip as (Hi & HH & Hip).
  apply result_bind_Ok in Hip as (I & HI & Hip). apply result_bind_Ok in Hip as (rg & HR & [= <-]).
  split; try done.
  - apply (restoreSet_valid _ _ _ _ HC). set_solver.
  - apply (restoreHistory_valid _ _ _ HH). intros h r. by rewrite lookup_empty.
  - apply (restoreSet_valid _ _ _ _ HI). set_solver.
  - intros n rec. apply restorePending_ok.
  - apply (restoreInvokes_ok _ _ _ _ HR). split; simpl.
    + split; try (intros *; by rewrite lookup_empty). intros id ri. rewrite !lookup_empty. naive_solver.
    + intros *. by rewrite lookup_empty.
Qed.
End typed.

(** ** Theorem *)

Section theorem.
Context `{SS : SnapshotSession}.
Variable parseDuration : string → result Z.
Variable jsonMarshal : ChartDefinition → result string.
Variable sha256 : string → string.

(** C25 (type): restoring is type safe.  Whatever a snapshot contains, if
    [Restore] of a compiled chart accepts it then the restored interpreter only
    refers to parts of the chart: its active, recorded and initialised states
    exist; the table of pending sends is keyed by creation number; no state
    awaits invocations; the running invocations are declared by the chart for
    the active state that runs them, under a non-empty ID and handler type, no
    definition runs twice, none has a channel yet, and the table by state and
    the table by ID list the same invocations. *)
Theorem restored_well_typed (d : ChartDefinition) (m : option Datamodel) (cc : compiledChart) (cfg : instanceConfig)
    (factory : result (option Session)) (t : Z) (snap : Snapshot) (rs : restoredInstance) :
  Compile parseDuration jsonMarshal sha256 d m = Ok cc → supported (cc_chart cc) = true →
  restoreInstanceFromFactory cc cfg factory t snap = Ok rs → well_typed cc (rs_interpretation rs).
Proof.
  intros Hc Hsup. pose proof Hc as (p & v & Hlink)%Compile_linked.
  pose proof (linked_wf_chart _ _ _ _ _ Hlink Hsup) as Hwf. apply restored_typed.
  - by eapply linked_byID.
  - exact (compiled_invokes_wf _ _ _ _ _ _ Hc (wf_root _ _ Hwf)).
  - intros id spec. by eapply compiled_invokes_index.
Qed.
End theorem.

(** A snapshot that no run produced: both states of the player's switch at once,
    and the helper under another name. *)
Definition forgedSnapshot : Snapshot :=
  mkSnapshot snapshotVersion (sn_Revision onSnapshot) "+" "" ["off"; "on"; "both"] ∅ [] [] true 0 0 0 "" []
    [mkActiveInvoke "both" "invoke.1" "other" "service" "src"] [].

Lemma restored_well_typed_witness :
  ∃ rs, restoreInstanceFromFactory (SS := CounterSnapshot) (compiledOf playerDefinition) plainConfig
          (Ok (Some (0%Z : @Session CounterSession))) 5 forgedSnapshot = Ok rs
    ∧ well_typed (compiledOf playerDefinition) (rs_interpretation rs).
Proof.
  destruct (restoreInstanceFromFactory (SS := CounterSnapshot) (compiledOf playerDefinition) plainConfig
    (Ok (Some (0%Z : @Session CounterSession))) 5 forgedSnapshot) as [rs|e] eqn:E.
  - exists rs. split; [reflexivity|].
    exact (restored_well_typed (SS := CounterSnapshot) oneSecond (λ d, Ok (df_ID d)) (λ s, s) playerDefinition
      (Some counterModel) (compiledOf playerDefinition) plainConfig _ 5 forgedSnapshot rs player_compiled player_supported E).
  - exfalso. assert (match restoreInstanceFromFactory (SS := CounterSnapshot) (compiledOf playerDefinition) plainConfig
      (Ok (Some (0%Z : @Session CounterSession))) 5 forgedSnapshot with Ok _ => true | Err _ => false end = true) as H
      by (vm_compute; reflexivity). rewrite E in H. discriminate H.
Defined.
