(* ===== verification/Instance.v ===== *)
(** * The instance: one owner, one request at a time (instance.go, log.go)

    An [Instance] is the interpreter and the bookkeeping around it.  Its
    goroutine takes requests from the inbox one after the other; [handle] is the
    body of that loop, [boot] what runs before it.  The functions that run the
    interpreter may diverge with the chart; [None] is "not within [fuel]
    iterations", as for [runToStable].

    Hooks are modelled by the calls made to them: [in_calls] lists them in
    order, and what a hook answers may depend on the calls before.  The clock is
    [now] of the interpreter: the time of a request is set by the caller. *)

From S2P Require Import Prelude Identifier Values Events Datamodel Chart Interp Actions Steps Definitions Validate Compile Snapshot.
From stdpp Require Import options.

(** ** The durable log's entries *)

(** The source's kinds are strings; any other one is refused by replay. *)
Inductive EntryKind := KindSessionStarted | KindExternalEvent | KindTimerFired | KindOther (name : string).

#[global] Instance EntryKind_eq_dec : EqDecision EntryKind.
Proof. solve_decision. Defined.

Record LogEntry := mkEntry {
  le_SessionID : string;
  le_Seq : N;
  le_Kind : EntryKind;
  le_Timestamp : Z;
  le_Event : Event;
  le_SendID : Identifier;
  le_Target : Identifier;
  le_Type : Identifier
}.

(** ** Configuration *)

Inductive hookCall :=
| CallIngress (ev : Event)
| CallTimer (sendID target typ : Identifier) (ev : Event)
| CallCompletion.

(** What a handler factory gives: an error, or a handler that can or cannot be
    resumed. *)
Inductive handlerOutcome :=
| FactoryError (e : error)
| PlainHandler
| ResumableHandler.

(** The environment's own [env_startInvoke] and [env_timerFiredHook] are not
    used: the instance supplies both.  [rt_replay] gives the [ReplaySend] of the
    processors that are replay-aware, by their type. *)
Record runtime := mkRuntime {
  rt_env : environment;
  rt_factory : Identifier → bool;
  rt_makeHandler : list InvokeRequest → Identifier → handlerOutcome;
  rt_replay : Identifier → option (list SendRequest → SendRequest → option error);
  rt_ingressHook : option (list hookCall → Event → option error);
  rt_timerFiredHook : option (list hookCall → Identifier → Identifier → Identifier → Event → option error);
  rt_completionHook : option (list hookCall → option error)
}.

(** [replayGate.Send] while the gate is closed: [ReplaySend] of a processor that
    is replay-aware; any other one is not called, and the send succeeds. *)
Definition replayGateSend (rt : runtime) (calls : list SendRequest) (req : SendRequest) : option error :=
  match rt_replay rt (sr_Type req) with Some ReplaySend => ReplaySend calls req | None => None end.

Definition invokeHandlerUnavailableError (typ : Identifier) : error :=
  mk_error ("statecharts: no invoke handler registered for type " +:+ quote typ) false true.

Definition ErrInstanceStopped : error := Errorf "statecharts: instance stopped".

Section instance.
Context `{SS : SnapshotSession}.
Variable cc : compiledChart.
Variable rt : runtime.

Record Instance := mkInstance {
  in_ip : interpretation;
  in_restored : bool;
  in_err : option error;                    (* terminalErr *)
  in_config : list Identifier;              (* the published configuration *)
  in_calls : list hookCall;
  in_completionHookCalled : bool;
  in_completionHookErr : option error;
  in_completionPending : bool;
  in_suppressInvoke : bool;
  in_deferTimerActivation : bool;
  in_deferCompletionHook : bool;
  in_live : bool                            (* the replay gate is open *)
}.

Definition with_ip (ip : interpretation) (i : Instance) : Instance :=
  mkInstance ip (in_restored i) (in_err i) (in_config i) (in_calls i) (in_completionHookCalled i)
    (in_completionHookErr i) (in_completionPending i) (in_suppressInvoke i) (in_deferTimerActivation i)
    (in_deferCompletionHook i) (in_live i).
Definition with_err (e : option error) (i : Instance) : Instance :=
  mkInstance (in_ip i) (in_restored i) e (in_config i) (in_calls i) (in_completionHookCalled i)
    (in_completionHookErr i) (in_completionPending i) (in_suppressInvoke i) (in_deferTimerActivation i)
    (in_deferCompletionHook i) (in_live i).
Definition with_config (ids : list Identifier) (i : Instance) : Instance :=
  mkInstance (in_ip i) (in_restored i) (in_err i) ids (in_calls i) (in_completionHookCalled i)
    (in_completionHookErr i) (in_completionPending i) (in_suppressInvoke i) (in_deferTimerActivation i)
    (in_deferCompletionHook i) (in_live i).
Definition with_call (h : hookCall) (i : Instance) : Instance :=
  mkInstance (in_ip i) (in_restored i) (in_err i) (in_config i) (in_calls i ++ [h]) (in_completionHookCalled i)
    (in_completionHookErr i) (in_completionPending i) (in_suppressInvoke i) (in_deferTimerActivation i)
    (in_deferCompletionHook i) (in_live i).
Definition with_completion (called : bool) (e : option error) (pending : bool) (i : Instance) : Instance :=
  mkInstance (in_ip i) (in_restored i) (in_err i) (in_config i) (in_calls i) called e pending
    (in_suppressInvoke i) (in_deferTimerActivation i) (in_deferCompletionHook i) (in_live i).
Definition with_replay (suppress deferTimer deferCompletion live : bool) (i : Instance) : Instance :=
  mkInstance (in_ip i) (in_restored i) (in_err i) (in_config i) (in_calls i) (in_completionHookCalled i)
    (in_completionHookErr i) (in_completionPending i) suppress deferTimer deferCompletion live.

(** [newInstance] around the interpreter [ip]. *)
Definition newInstance (ip : interpretation) (restored : bool) : Instance :=
  mkInstance ip restored None [] [] false None false false false false true.

(** The identity of a new instance; [restoreInstanceForSession] has its own. *)
Definition newSessionID (cfg : instanceConfig) : string :=
  if decide (cfg_sessionID cfg = "") then cfg_generatedID cfg else cfg_sessionID cfg.
Definition newNamespace (cfg : instanceConfig) : string :=
  if decide (cfg_deliveryNamespace cfg ≠ "") then cfg_deliveryNamespace cfg else "incarnation-" +:+ itoa (cfg_incarnation cfg).

(** [t] is the clock's time. *)
Definition newInstanceFromFactory (factory : result (option Session)) (t : Z) : result Instance :=
  match factory with
  | Err e => Err (Wrapf "statecharts: create datamodel session: " e)
  | Ok None => Err (Errorf "statecharts: create datamodel session: program returned nil session")
  | Ok (Some fresh) => Ok (newInstance (newInterpretation fresh t) false)
  end.

(** [Prepare]: every static invocation type has a handler. *)
Definition Prepare : result unit :=
  checkEach (λ _ cs, checkEach (λ _ iv,
    fail_if (negb (present (iv_typeExpr iv)) && negb (rt_factory rt (canonicalInvokeType (iv_staticType iv))))
      (Errorf ("statecharts: invoke definition " +:+ quote (iv_definitionID iv) +:+ " requires handler type "
         +:+ quote (canonicalInvokeType (iv_staticType iv))))) 0 (st_invokes cs)) 0 (c_order (cc_chart cc)).

Definition NewInstance (factory : result (option Session)) (t : Z) : result Instance :=
  _ ← Prepare; newInstanceFromFactory factory t.

(** [startInvoke]; the [bool] is whether there is an incoming channel. *)
Definition startInvoke (suppress : bool) (startedBefore : list InvokeRequest) (request : InvokeRequest) : result bool :=
  if rt_factory rt (canonicalInvokeType (rq_Type request)) then
    if suppress then Ok false
    else match rt_makeHandler rt startedBefore (rq_Type request) with
         | FactoryError e => Err e
         | _ => Ok true
         end
  else Err (invokeHandlerUnavailableError (rq_Type request)).

(** The interpreter's surroundings at one moment. *)
Definition envOf (i : Instance) : environment :=
  let env := rt_env rt in
  mkEnvironment (env_sessionID env) (env_name env) (env_deliveryNamespace env) (env_processor env)
    (if in_live i then env_ioSend env else replayGateSend rt)
    (startInvoke (in_suppressInvoke i)) (env_parseDuration env)
    ((λ hook, hook (in_calls i)) <$> rt_timerFiredHook rt).

(** ** Draining the queues *)

Section drain.
Variable env : environment.

(** The loop over the external queue. *)
Fixpoint drainExternal (n fuel : nat) (ip : interpretation) : option interpretation :=
  if running ip && negb (bool_decide (externalQueue ip = [])) then
    match n with
    | 0 => None
    | S n =>
        '(ip, processed) ← processNextExternal (cc_chart cc) env fuel ip;
        if (processed : bool) then drainExternal n fuel ip else Some ip
    end
  else Some ip.

Definition drainInternalMacrostep (fuel : nat) (ip : interpretation) : option interpretation :=
  if negb (running ip) || bool_decide (internalQueue ip = []) then Some ip
  else runToStable (cc_chart cc) env fuel ip.

Definition drainQueuedEvents (fuel : nat) (ip : interpretation) : option interpretation :=
  ip ← drainExternal fuel fuel ip; drainInternalMacrostep fuel ip.
End drain.

Definition drainInstance (fuel : nat) (i : Instance) : option Instance :=
  ip ← drainQueuedEvents (envOf i) fuel (in_ip i); Some (with_ip ip i).

(** ** Timers *)

(** [handleTimerFire] and the call of the hook that it makes. *)
Definition instanceTimerFire (n : nat) (i : Instance) : Instance :=
  let j := with_ip (handleTimerFire (envOf i) n (in_ip i)) i in
  match pending (in_ip i) !! n, rt_timerFiredHook rt with
  | Some rec, Some _ => with_call (CallTimer (ps_sendID rec) (ps_target rec) (ps_typ rec) (ps_event rec)) j
  | _, _ => j
  end.

Definition takeTimerHookError (i : Instance) : Instance * option error :=
  match hookErr (in_ip i) with
  | None => (i, None)
  | Some err => (with_err (Some err) (with_ip (set_running false (set_hookErr None (in_ip i))) i), Some err)
  end.

(** By deadline, then by creation. *)
Definition timerOrder (a b : pendingSendRecord) : Prop :=
  (ps_fireAt a < ps_fireAt b)%Z ∨ (ps_fireAt a = ps_fireAt b ∧ ps_order a ≤ ps_order b).

#[global] Instance timerOrder_dec : RelDecision timerOrder.
Proof using Type. intros a b. unfold timerOrder. apply _. Defined.

(** A new timer for the record [rec]. *)
Definition armTimer (rec : pendingSendRecord) (ip : interpretation) : interpretation :=
  set_pending (<[ps_order rec := mkPending (ps_sendID rec) (ps_target rec) (ps_typ rec) (ps_event rec) (ps_fireAt rec)
                                   (ps_order rec) true]> (pending ip)) ip.

Fixpoint activateTimers (fuel : nat) (records : list pendingSendRecord) (i : Instance) : option (Instance * option error) :=
  match records with
  | [] => Some (i, None)
  | rec :: records =>
      if bool_decide (pending (in_ip i) !! ps_order rec = None) then activateTimers fuel records i
      else if decide (now (in_ip i) < ps_fireAt rec)%Z
      then activateTimers fuel records (with_ip (armTimer rec (in_ip i)) i)
      else
        let '(i, err) := takeTimerHookError (instanceTimerFire (ps_order rec) i) in
        match err with
        | Some e => Some (i, Some e)
        | None =>
            i ← drainInstance fuel i;
            if running (in_ip i) then activateTimers fuel records i else Some (i, None)
        end
  end.

(** [t] is the time of the clock the instance is switched to. *)
Definition activatePendingTimers (fuel : nat) (t : Z) (i : Instance) : option (Instance * option error) :=
  let i := with_ip (set_now t (in_ip i)) i in
  activateTimers fuel (merge_sort timerOrder (map_to_list (pending (in_ip i))).*2) i.

(** ** Resuming invocations after replay *)

(** [ri.cancel] and [ri.incoming] of the record both tables share. *)
Definition attach (ri : runningInvoke) : runningInvoke :=
  mkRunning (ri_id ri) (ri_state ri) (ri_spec ri) (ri_typ ri) (ri_source ri) (ri_finalize ri) (ri_autoForward ri) true.

Definition attachInvoke (id : Identifier) (ri : runningInvoke) (ip : interpretation) : interpretation :=
  let ip := openChannel (attach ri) ip in
  set_invokesByID (<[id := attach ri]> (invokesByID ip))
    (set_activeInvokes (alter (map (λ r, if decide (ri_id r = id) then attach r else r)) (ri_state ri) (activeInvokes ip)) ip).

Definition resumeFailure (id : Identifier) (e : error) (ip : interpretation) : interpretation :=
  enqueueInternal (mkEvent ErrEventCommunication EventPlatform (PlatformErrorValue ErrEventCommunication (Some e))
                     "" "" "" id "") ip.

(** What one ID is resolved to, before the internal queue is drained, and
    whether the invocation was resumed. *)
Definition resumeInvoke (env : environment) (id : Identifier) (ri : runningInvoke) (ip : interpretation) : interpretation * bool :=
  let ec := execContext (cc_chart cc) env ip in
  let unbound := mkExecContext zeroEvent false (ec_sessionID ec) (ec_name ec) (ec_active ec) (ec_finalizing ec) in
  let '(ip, request) := evaluateInvokeResumeRequest env ri unbound ip in
  match request with
  | None => (ip, false)
  | Some request =>
      if rt_factory rt (canonicalInvokeType (rq_Type request)) then
        match rt_makeHandler rt (started ip) (rq_Type request) with
        | FactoryError e => (resumeFailure id e ip, false)
        | PlainHandler =>
            (resumeFailure id (Errorf ("statecharts: Rehydrate: invoke " +:+ quote id +:+ " handler type "
                                       +:+ quote (rq_Type request) +:+ " cannot resume")) ip, false)
        | ResumableHandler => (attachInvoke id ri (set_started (started ip ++ [request]) ip), true)
        end
      else (reportError (invokeHandlerUnavailableError (rq_Type request)) ip, false)
  end.

(** The loop over the invocations that ran when it began. *)
Fixpoint resumeInvokes (env : environment) (fuel : nat) (ids : list Identifier) (ip : interpretation)
    : option interpretation :=
  match ids with
  | [] => Some ip
  | id :: ids =>
      match invokesByID ip !! id with
      | None => resumeInvokes env fuel ids ip
      | Some ri =>
          let '(ip, resumed) := resumeInvoke env id ri ip in
          ip ← (if (resumed : bool) then Some ip else drainInternalMacrostep env fuel ip);
          resumeInvokes env fuel ids ip
      end
  end.

Definition resumeInvokesAfterReplay (fuel : nat) (i : Instance) : option Instance :=
  ip ← resumeInvokes (envOf i) fuel (sortedInvokeIDs (invokesByID (in_ip i))) (in_ip i); Some (with_ip ip i).

Definition finishReplay (fuel : nat) (t : Z) (i : Instance) : option (Instance * option error) :=
  '(i, err) ← activatePendingTimers fuel t i;
  match err with
  | Some e => Some (i, Some e)
  | None =>
      if running (in_ip i) then i ← resumeInvokesAfterReplay fuel i; Some (i, None)
      else Some (i, None)
  end.

(** ** Completion *)

Definition finishNaturalCompletion (i : Instance) : Instance * option error :=
  if negb (completed (in_ip i)) then (i, None)
  else if in_deferCompletionHook i then
    (with_completion (in_completionHookCalled i) (in_completionHookErr i) true i, None)
  else if in_completionHookCalled i then (i, in_completionHookErr i)
  else
    let i := with_completion true (in_completionHookErr i) (in_completionPending i) i in
    match rt_completionHook rt with
    | None => (i, None)
    | Some hook =>
        let answer := hook (in_calls i) in
        let i := with_call CallCompletion i in
        match answer with
        | None => (i, in_completionHookErr i)
        | Some e =>
            let e := Wrapf "statecharts: completion hook: " e in
            (with_err (Some e) (with_completion true (Some e) (in_completionPending i) i), Some e)
        end
    end.

Definition publishConfig (i : Instance) : Instance := with_config (activeStates (cc_chart cc) (in_ip i)) i.

(** What follows every request: drain, exit when stopped, publish, complete. *)
Definition settle (fuel : nat) (i : Instance) : option (Instance * option error) :=
  i ← drainInstance fuel i;
  let i := if running (in_ip i) then i else with_ip (exitInterpreter (cc_chart cc) (envOf i) (in_ip i)) i in
  Some (finishNaturalCompletion (publishConfig i)).

(** ** Starting *)

(** [run] before the loop.  An error of a timer hook ends the instance. *)
Definition boot (fuel : nat) (i : Instance) : option Instance :=
  '(i, err) ← (if negb (in_restored i) then
                 ip ← start (cc_chart cc) (envOf i) fuel (in_ip i); Some (with_ip ip i, None)
               else if negb (in_deferTimerActivation i) then activatePendingTimers fuel (now (in_ip i)) i
               else Some (i, None));
  match err with
  | Some _ => Some (publishConfig (with_ip (exitInterpreter (cc_chart cc) (envOf i) (in_ip i)) i))
  | None => r ← settle fuel i; Some r.1
  end.

(** ** Requests *)

Inductive actorRequest :=
| reqSend (ev : Event)
| reqStop
| reqTimerFired (n : nat)
| reqSnapshot
| reqCheckpoint (save : Snapshot → option error)
| reqActiveInvokes
| reqReplayTimerFired (entry : LogEntry)
| reqFinishReplay (t : Z).

(** What is written to the channels of a request. *)
Record response := mkResponse {
  rp_err : option error;
  rp_snapshot : option (result Snapshot);
  rp_invokes : option bool
}.

Definition respond (err : option error) : response := mkResponse err None None.

(** [Send] puts every event on the external queue; [Deliver] keeps the type. *)
Definition Send (ev : Event) : actorRequest :=
  reqSend (cloneEvent (mkEvent (Name ev) EventExternal (Data ev) (SendID ev) (Origin ev) (OriginType ev) (InvokeID ev)
                         (DeliveryID ev))).
Definition Deliver (ev : Event) : actorRequest := reqSend (cloneEvent ev).

Definition stop (i : Instance) : Instance := with_ip (set_running false (in_ip i)) i.

(** An event of an invocation that is not running any more is dropped; the
    ingress hook is asked only while the replay gate is open. *)
Definition acceptEvent (ev : Event) (i : Instance) : Instance * option error :=
  if bool_decide (InvokeID ev ≠ "" ∧ invokesByID (in_ip i) !! InvokeID ev = None) then (i, None)
  else
    let '(i, answer) :=
      match rt_ingressHook rt with
      | Some hook => if in_live i then (with_call (CallIngress ev) i, hook (in_calls i) ev) else (i, None)
      | None => (i, None)
      end in
    match answer with
    | None => (with_ip (enqueue ev (in_ip i)) i, None)
    | Some e =>
        let e := Wrapf "statecharts: ingress hook: " e in (stop (with_err (Some e) i), Some e)
    end.

(** The switch of the loop: the new state and the error of the request. *)
Definition apply (fuel : nat) (req : actorRequest) (i : Instance) : option (Instance * option error) :=
  match req with
  | reqStop => Some (stop i, None)
  | reqSend ev => Some (acceptEvent ev i)
  | reqTimerFired n => Some (takeTimerHookError (instanceTimerFire n i))
  | reqSnapshot | reqActiveInvokes => Some (i, None)
  | reqCheckpoint save =>
      match buildSnapshot cc (rt_env rt) (in_ip i) with
      | Err e => Some (i, Some e)
      | Ok snap => match save snap with Some e => Some (i, Some e) | None => Some (stop i, None) end
      end
  | reqReplayTimerFired entry =>
      let '(ip, found) := replayTimerFire (envOf i) (le_SendID entry) (le_Target entry) (le_Type entry) (le_Event entry) (in_ip i) in
      Some (with_ip (if (found : bool) then ip
                     else dispatchNow (envOf i) (le_SendID entry) (le_Target entry) (le_Type entry) (le_Event entry) ip) i, None)
  | reqFinishReplay t => finishReplay fuel t i
  end.

(** One turn of the loop. *)
Definition handle (fuel : nat) (req : actorRequest) (i : Instance) : option (Instance * response) :=
  '(i, reqErr) ← apply fuel req i;
  '(i, completionErr) ← settle fuel i;
  let err := match reqErr with Some _ => reqErr | None => completionErr end in
  Some (i, match req with
           | reqSnapshot => mkResponse err (Some (buildSnapshot cc (rt_env rt) (in_ip i))) None
           | reqActiveInvokes => mkResponse err None (Some (bool_decide (invokesByID (in_ip i) ≠ ∅)))
           | _ => respond err
           end).

(** The loop, as long as the instance runs; afterwards nothing is accepted. *)
Fixpoint serve (fuel : nat) (reqs : list actorRequest) (i : Instance) : option (Instance * list response) :=
  match reqs with
  | [] => Some (i, [])
  | req :: reqs =>
      if running (in_ip i) then
        '(i, r) ← handle fuel req i;
        '(i, rs) ← serve fuel reqs i;
        Some (i, r :: rs)
      else Some (i, map (λ _, respond (Some ErrInstanceStopped)) (req :: reqs))
  end.

(** After the loop: a completion that a replay defers.  The instance waits to be
    released; [reqFinishReplay] releases it too, and everything else is refused. *)
Definition awaitDeferredCompletion (req : actorRequest) (i : Instance) : Instance * response :=
  match req with
  | reqFinishReplay _ =>
      if in_completionPending i then
        let '(i, err) := finishNaturalCompletion
                           (with_replay (in_suppressInvoke i) (in_deferTimerActivation i) false (in_live i) i) in
        (i, respond err)
      else (i, respond (Some ErrInstanceStopped))
  | reqSnapshot => (i, mkResponse (Some ErrInstanceStopped) (Some (Err ErrInstanceStopped)) None)
  | reqActiveInvokes => (i, mkResponse (Some ErrInstanceStopped) None (if in_completionPending i then Some false else None))
  | _ => (i, respond (Some ErrInstanceStopped))
  end.

(** ** What an invocation's goroutine delivers *)

(** [InvokeIO.Deliver]: the event is marked as the invocation's; nothing is
    delivered once the invocation is cancelled. *)
Definition invokeDeliver (cancelled : bool) (id : Identifier) (ev : Event) : option actorRequest :=
  if cancelled then None
  else let ev := cloneEvent ev in
       Some (Deliver (mkEvent (Name ev) EventExternal (Data ev) (SendID ev) (Origin ev) (OriginType ev) id (DeliveryID ev))).

(** What the end of the handler delivers: its result, its error or its panic. *)
Definition invokeEnd (cancelled : bool) (id : Identifier) (out : outcome Value) : option actorRequest :=
  if cancelled then None
  else
    let failed e := Some (Deliver (mkEvent ErrEventCommunication EventPlatform
                                     (PlatformErrorValue ErrEventCommunication (Some e)) "" "" "" id "")) in
    match out with
    | Returned data => Some (Deliver (mkEvent ("done.invoke." +:+ id) EventExternal (Clone data) "" "" "" id ""))
    | Failed e => failed e
    | Panicked m => failed (Errorf ("statecharts: invoke " +:+ quote id +:+ " panicked: " +:+ m))
    end.

(** [Stop] of a stopped instance is not an error. *)
Definition stopResult (err : option error) : option error :=
  if bool_decide (err = Some ErrInstanceStopped) then None else err.

(** [Result] of an instance whose loop has ended. *)
Definition Result (i : Instance) : result Value :=
  match in_err i with
  | Some e => Err e
  | None =>
      if completed (in_ip i) then Ok (Clone (result_value (in_ip i)))
      else Err (Errorf "statecharts: instance stopped without reaching a top-level final state")
  end.

End instance.
