(* ===== verification/Replay.v ===== *)
(** * Rehydration: a new instance from a log (replay.go)

    [rehydrate] follows [rehydrateInstanceFromFactory]: it loads the checkpoint
    if there is a usable one, starts an instance whose outside world is gated
    off, feeds it the entries of the log, and then goes live: pending timers are
    activated and invocations resumed.  The log and the snapshot store are given
    by what they answer. *)

From S2P Require Import Prelude Identifier Values Events Datamodel Chart Interp Actions Steps Definitions Validate Compile Snapshot Storage Instance.
From stdpp Require Import options.

Record Checkpoint := mkCheckpoint { ck_Snapshot : Snapshot; ck_Seq : N }.

(** What the store and the log answer: [Load] fails, finds invalid data or gives
    at most one checkpoint; [Read] gives entries from a sequence number on, and
    perhaps an error after them.  [rh_factory k] is the [k]-th new session,
    [rh_recover] what the outbox recovery of the processors returns, [rh_now]
    the time of the configured clock. *)
Inductive checkpointLoad := LoadFailed (e : error) | LoadInvalid | Loaded (cp : option Checkpoint).

Section replay.
Context `{SS : SnapshotSession}.
Variable cc : compiledChart.
Variable rt : runtime.

Record rehydration := mkRehydration {
  rh_load : checkpointLoad;
  rh_lastSeq : result N;
  rh_read : N → list LogEntry * option error;
  rh_factory : nat → result (option Session);
  rh_recover : option error;
  rh_now : Z
}.

(** [submit] and [awaitReply]. *)
Definition request (fuel : nat) (req : actorRequest) (i : Instance) : option (Instance * response) :=
  if running (in_ip i) then handle cc rt fuel req i else Some (awaitDeferredCompletion rt req i).

(** [replayTime.Set]. *)
Definition at_time (t : Z) (i : Instance) : Instance := with_ip (set_now t (in_ip i)) i.

Definition replayEntry (fuel : nat) (entry : LogEntry) (i : Instance) : option (Instance * option error) :=
  let i := at_time (le_Timestamp entry) i in
  match le_Kind entry with
  | KindSessionStarted => Some (i, None)
  | KindExternalEvent => '(i, r) ← request fuel (Deliver (le_Event entry)) i; Some (i, rp_err r)
  | KindTimerFired => '(i, r) ← request fuel (reqReplayTimerFired entry) i; Some (i, rp_err r)
  | KindOther name => Some (i, Some (Errorf ("unknown log entry kind " +:+ quote name)))
  end.

Definition failed (text : string) (e : error) : error := Wrapf ("statecharts: Rehydrate: " +:+ text) e.
Definition seqError (text : string) (entry : LogEntry) (tail : string) : error :=
  Errorf ("statecharts: Rehydrate: " +:+ text +:+ itoa (le_Seq entry) +:+ tail).

(** The loop over the entries after the first. *)
Fixpoint replayEntries (fuel : nat) (entries : list LogEntry) (readErr : option error) (i : Instance)
    : option (result Instance) :=
  match entries with
  | [] => Some (match readErr with Some e => Err (failed "read log: " e) | None => Ok i end)
  | entry :: entries =>
      if in_completionPending i then
        match le_Kind entry with
        | KindExternalEvent => replayEntries fuel entries readErr i
        | _ => Some (Err (seqError "non-external log entry seq " entry " appears after natural completion"))
        end
      else
        '(i, err) ← replayEntry fuel entry i;
        match err with
        | Some e => Some (Err (failed ("replay seq " +:+ itoa (le_Seq entry) +:+ ": ") e))
        | None => replayEntries fuel entries readErr i
        end
  end.

(** All entries: the first one was pulled before the instance was started. *)
Definition replayLog (fuel : nat) (entries : list LogEntry) (readErr : option error) (i : Instance)
    : option (result Instance) :=
  match entries with
  | [] => Some (Ok i)
  | first :: entries =>
      if in_completionPending i && negb (bool_decide (le_Kind first = KindSessionStarted))
      then Some (Err (seqError "log entry seq " first " appears after natural completion"))
      else
        '(i, err) ← replayEntry fuel first i;
        match err with
        | Some e => Some (Err (failed ("replay seq " +:+ itoa (le_Seq first) +:+ ": ") e))
        | None => replayEntries fuel entries readErr i
        end
  end.

(** The time the replay starts at. *)
Definition logicalNow (now : Z) (entries : list LogEntry) : Z :=
  match entries with
  | first :: _ => if decide (le_Timestamp first = zeroTime) then now else le_Timestamp first
  | [] => now
  end.

(** The log is read from [from] on; an error before the first entry is final. *)
Definition openLog (rh : rehydration) (from : N) : result (list LogEntry * option error) :=
  match rh_read rh from with
  | ([], Some e) => Err (failed "read log: " e)
  | r => Ok r
  end.

(** A checkpoint that may be used, given the last sequence number. *)
Definition usable (cp : option Checkpoint) (lastSeq : N) : option Checkpoint :=
  match cp with
  | Some cp =>
      if bool_decide (sn_Version (ck_Snapshot cp) = snapshotVersion)
         && bool_decide (sn_Revision (ck_Snapshot cp) = cc_revision cc) && bool_decide (ck_Seq cp ≤ lastSeq)%N
      then Some cp else None
  | None => None
  end.

(** A failed restore that is not the snapshot's fault is final: the session
    factory failed. *)
Definition factoryFailed (factory : result (option Session)) : bool :=
  match factory with Ok (Some _) => false | _ => true end.

(** The bootstrap: the entries to replay, the instance, not yet started, and
    whether the cache was missed. *)
Definition bootstrap (rh : rehydration) (cfg : instanceConfig)
    : result (list LogEntry * option error * Instance * bool * N) :=
  cp ← match rh_load rh with
       | LoadFailed e => Err (failed "load checkpoint: " e)
       | LoadInvalid => Ok None
       | Loaded cp => Ok cp
       end;
  lastSeq ← match rh_lastSeq rh with Ok n => Ok n | Err e => Err (failed "last sequence: " e) end;
  let cp := usable cp lastSeq in
  '(entries, readErr) ← openLog rh (match cp with Some cp => ck_Seq cp + 1 | None => 1 end)%N;
  let t := logicalNow (rh_now rh) entries in
  let fresh k t := match newInstanceFromFactory (rh_factory rh k) t with
                   | Ok i => Ok i
                   | Err e => Err (failed "create instance: " e)
                   end in
  match cp with
  | None => i ← fresh 0 t; Ok (entries, readErr, i, true, lastSeq)
  | Some cp =>
      match restoreInstanceFromFactory cc cfg (rh_factory rh 0) t (ck_Snapshot cp) with
      | Ok rs => Ok (entries, readErr, newInstance (rs_interpretation rs) true, false, lastSeq)
      | Err e =>
          if factoryFailed (rh_factory rh 0) then Err (failed "restore checkpoint: " e)
          else
            '(entries, readErr) ← openLog rh 1;
            let t := match entries with
                     | first :: _ => if decide (le_Timestamp first = zeroTime) then t else le_Timestamp first
                     | [] => t
                     end in
            i ← fresh 1 t; Ok (entries, readErr, i, true, lastSeq)
      end
  end.

(** The gate is closed, invocations are suppressed, timers and the completion
    hook are deferred. *)
Definition gated (i : Instance) : Instance := with_replay true true true false i.

(** [releaseDeferredCompletion true]. *)
Definition releaseCompletion (i : Instance) : Instance * option error :=
  finishNaturalCompletion rt (with_replay (in_suppressInvoke i) (in_deferTimerActivation i) false (in_live i) i).

(** After the last entry: the gate opens. *)
Definition goLive (fuel : nat) (rh : rehydration) (i : Instance) : option (result Instance) :=
  let i := with_replay false (in_deferTimerActivation i) (in_deferCompletionHook i) true i in
  match rh_recover rh with
  | Some e => Some (Err (failed "recover outbox: " e))
  | None =>
      if in_completionPending i then
        let '(i, err) := releaseCompletion i in
        Some (match err with Some e => Err (failed "complete: " e) | None => Ok i end)
      else
        let i := with_replay (in_suppressInvoke i) (in_deferTimerActivation i) false (in_live i) i in
        '(i', r) ← request fuel (reqFinishReplay (rh_now rh)) i;
        Some (match rp_err r with
              | None => Ok i'
              | Some e =>
                  if bool_decide (e = ErrInstanceStopped) && negb (present (in_err i')) then Ok i'
                  else Err (failed "finish replay: " e)
              end)
  end.

(** The refreshed checkpoint that a replay without a usable cache saves. *)
Definition refresh (fuel : nat) (cacheMiss : bool) (lastSeq : N) (i : Instance) : option (Instance * option Checkpoint) :=
  if cacheMiss && negb (in_completionPending i) then
    '(i, r) ← request fuel reqSnapshot i;
    Some (i, match rp_snapshot r with Some (Ok snap) => Some (mkCheckpoint snap lastSeq) | _ => None end)
  else Some (i, None).

Definition rehydrate (fuel : nat) (cfg : instanceConfig) (rh : rehydration) : option (result (Instance * option Checkpoint)) :=
  match Prepare cc rt with
  | Err e => Some (Err (failed "prepare environment: " e))
  | Ok _ =>
      match bootstrap rh cfg with
      | Err e => Some (Err e)
      | Ok (entries, readErr, i, cacheMiss, lastSeq) =>
          i ← boot cc rt fuel (gated i);
          match in_err i with
          | Some e => Some (Err (failed "start: " e))
          | None =>
              r ← replayLog fuel entries readErr i;
              match r with
              | Err e => Some (Err e)
              | Ok i =>
                  '(i, saved) ← refresh fuel cacheMiss lastSeq i;
                  r ← goLive fuel rh i;
                  Some (match r with Ok i => Ok (i, saved) | Err e => Err e end)
              end
          end
      end
  end.
End replay.
