(* ===== verification/Memory.v ===== *)
(** * The in-memory store (storagetest/memory.go, log.go)

    [MemoryStore] keeps definitions, actors, logs, the ingress and outbox tables
    and checkpoints behind one mutex, so that every method is one atomic step.
    A method that changes the store returns the new one; when it returns an
    error the store is as it was.  Go ranges over a map in no particular order:
    [range] is any enumeration of the actors.  [ctx] is the error of the
    caller's context. *)

From S2P Require Import Prelude Identifier Storage Values Events Datamodel Chart Interp Actions Steps Definitions Validate Compile.
From S2P Require Import Artifact Snapshot Instance Replay.
From stdpp Require Import options.

(** ** The outbox (log.go) *)

Inductive OutboundStatus := OutboundPending | OutboundResolved.

#[global] Instance OutboundStatus_eq_dec : EqDecision OutboundStatus.
Proof. solve_decision. Defined.

Record OutboundResult := mkOutboundResult { or_Error : string; or_Execution : bool; or_Synchronous : bool }.

#[global] Instance OutboundResult_eq_dec : EqDecision OutboundResult.
Proof. solve_decision. Defined.

Definition zeroResult : OutboundResult := mkOutboundResult "" false false.

Record OutboundMessage := mkOutbound {
  om_SessionID : string;
  om_DeliveryID : string;
  om_Request : SendRequest;
  om_Status : OutboundStatus;
  om_Result : OutboundResult
}.

Definition ErrOutboundCollision : error := Errorf "statecharts: outbound delivery ID collision".

(** ** Copies and comparisons *)

Definition cloneLogEntry (entry : LogEntry) : LogEntry :=
  let ev := le_Event entry in
  mkEntry (le_SessionID entry) (le_Seq entry) (le_Kind entry) (le_Timestamp entry)
    (mkEvent (Name ev) (Type_ ev) (Clone (Data ev)) (SendID ev) (Origin ev) (OriginType ev) (InvokeID ev) (DeliveryID ev))
    (le_SendID entry) (le_Target entry) (le_Type entry).

Definition withSeq (seq : N) (e : LogEntry) : LogEntry :=
  mkEntry (le_SessionID e) seq (le_Kind e) (le_Timestamp e) (le_Event e) (le_SendID e) (le_Target e) (le_Type e).

Definition cloneOutbound (m : OutboundMessage) : OutboundMessage :=
  let r := om_Request m in
  mkOutbound (om_SessionID m) (om_DeliveryID m)
    (mkSendRequest (sr_DeliveryID r) (sr_SendID r) (sr_EventSendID r) (sr_Target r) (sr_Type r) (sr_Event r) (Clone (sr_Data r)))
    (om_Status m) (om_Result m).

Definition cloneCheckpoint (cp : Checkpoint) : result Checkpoint :=
  wire ← MarshalSnapshot (ck_Snapshot cp);
  snapshot ← UnmarshalSnapshot wire;
  Ok (mkCheckpoint snapshot (ck_Seq cp)).

(** [reflect.DeepEqual] on events and messages whose values are canonical copies. *)
Definition eventEqual (a b : Event) : bool :=
  bool_decide (Name a = Name b) && bool_decide (Type_ a = Type_ b) && Equal (Data a) (Data b)
  && bool_decide (SendID a = SendID b) && bool_decide (Origin a = Origin b) && bool_decide (OriginType a = OriginType b)
  && bool_decide (InvokeID a = InvokeID b) && bool_decide (DeliveryID a = DeliveryID b).

Definition requestEqual (a b : SendRequest) : bool :=
  bool_decide (sr_DeliveryID a = sr_DeliveryID b) && bool_decide (sr_SendID a = sr_SendID b)
  && bool_decide (sr_EventSendID a = sr_EventSendID b) && bool_decide (sr_Target a = sr_Target b)
  && bool_decide (sr_Type a = sr_Type b) && bool_decide (sr_Event a = sr_Event b) && Equal (sr_Data a) (sr_Data b).

Definition outboundEqual (a b : OutboundMessage) : bool :=
  bool_decide (om_SessionID a = om_SessionID b) && bool_decide (om_DeliveryID a = om_DeliveryID b)
  && requestEqual (om_Request a) (om_Request b) && bool_decide (om_Status a = om_Status b)
  && bool_decide (om_Result a = om_Result b).

(** ** The store *)

Record MemoryStore := mkStore {
  ms_definitions : gmap string DefinitionArtifact;
  ms_actors : gmap string ActorMetadata;
  ms_logs : gmap string (list LogEntry);
  ms_ingress : gmap string (gset string);
  ms_outbounds : gmap string (gmap string OutboundMessage);
  ms_outboundOrder : gmap string (list string);
  ms_snapshots : gmap string Checkpoint
}.

Definition NewMemoryStore : MemoryStore := mkStore ∅ ∅ ∅ ∅ ∅ ∅ ∅.

Definition set_definitions x (s : MemoryStore) : MemoryStore :=
  mkStore x (ms_actors s) (ms_logs s) (ms_ingress s) (ms_outbounds s) (ms_outboundOrder s) (ms_snapshots s).
Definition set_actors x (s : MemoryStore) : MemoryStore :=
  mkStore (ms_definitions s) x (ms_logs s) (ms_ingress s) (ms_outbounds s) (ms_outboundOrder s) (ms_snapshots s).
Definition set_logs x (s : MemoryStore) : MemoryStore :=
  mkStore (ms_definitions s) (ms_actors s) x (ms_ingress s) (ms_outbounds s) (ms_outboundOrder s) (ms_snapshots s).
Definition set_ingress x (s : MemoryStore) : MemoryStore :=
  mkStore (ms_definitions s) (ms_actors s) (ms_logs s) x (ms_outbounds s) (ms_outboundOrder s) (ms_snapshots s).
Definition set_outbounds x y (s : MemoryStore) : MemoryStore :=
  mkStore (ms_definitions s) (ms_actors s) (ms_logs s) (ms_ingress s) x y (ms_snapshots s).
Definition set_snapshots x (s : MemoryStore) : MemoryStore :=
  mkStore (ms_definitions s) (ms_actors s) (ms_logs s) (ms_ingress s) (ms_outbounds s) (ms_outboundOrder s) x.

Definition logOf (s : MemoryStore) (sid : string) : list LogEntry := default [] (ms_logs s !! sid).

Inductive DefinitionPutResult := DefinitionStored | DefinitionUnchanged.
Inductive DefinitionDeleteResult := DefinitionDeleted | DefinitionReferenced | DefinitionNotFound.
Inductive ActorBeginResult := ActorStarted | ActorAlreadyActive.
Inductive ActorTerminalResult := ActorMarkedTerminal | ActorAlreadyTerminal | ActorNotFound.

Inductive beginFaultStage := faultAfterActorStaged | faultAfterStartStaged | faultBeforeBeginCommit.

(** [ctx.Err()]. *)
Definition checkContext (ctx : option error) : result unit := match ctx with Some e => Err e | None => Ok () end.

Section memory.
Variable jsonMarshal : ChartDefinition → result string.
Variable sha256 : string → string.
Variable jsonDecode : string → result (ChartDefinition * trailing).
Variable range : gmap string ActorMetadata → list ActorMetadata.
Variable beginFault : option (beginFaultStage → option error).

Abbreviation valid := (artifactValidate jsonMarshal sha256 jsonDecode).

(** *** Definitions *)

Definition PutDefinition (ctx : option error) (artifact : DefinitionArtifact) (s : MemoryStore)
    : result (MemoryStore * DefinitionPutResult) :=
  _ ← checkContext ctx;
  match ms_definitions s !! da_Revision artifact with
  | Some stored =>
      if artifactEqual stored artifact then _ ← valid stored; Ok (s, DefinitionUnchanged)
      else Err ErrDefinitionCollision
  | None =>
      _ ← valid artifact;
      Ok (set_definitions (<[da_Revision artifact := artifactClone artifact]> (ms_definitions s)) s, DefinitionStored)
  end.

Definition GetDefinition (ctx : option error) (revision : string) (s : MemoryStore) : result (option DefinitionArtifact) :=
  _ ← checkContext ctx;
  match ms_definitions s !! revision with
  | None => Ok None
  | Some artifact => _ ← valid (artifactClone artifact); Ok (Some (artifactClone artifact))
  end.

(** *** Actors *)

(** The first entry of the log must be the actor's only session start. *)
Definition startCount (entries : list LogEntry) : nat :=
  length (filter (λ e, le_Kind e = KindSessionStarted) entries).

Definition startMatches (actor : ActorMetadata) (entries : list LogEntry) (start : LogEntry) : bool :=
  bool_decide (startCount entries = 1) && bool_decide (le_Seq start = 1%N)
  && bool_decide (le_Kind start = KindSessionStarted) && bool_decide (le_SessionID start = am_SessionID actor)
  && bool_decide (le_Timestamp start = am_StartedAt actor) && eventEqual (le_Event start) zeroEvent
  && bool_decide (le_SendID start = "") && bool_decide (le_Target start = "") && bool_decide (le_Type start = "").

Definition validateStoredActorLocked (s : MemoryStore) (actor : ActorMetadata) : result unit :=
  _ ← metadataValidate actor;
  match logOf s (am_SessionID actor) with
  | [] => Err (invalidMetadata ("actor " +:+ quote (am_ActorID actor) +:+ " has no session-start record"))
  | start :: rest =>
      _ ← fail_if (negb (startMatches actor (start :: rest) start))
            (invalidMetadata ("actor " +:+ quote (am_ActorID actor) +:+ " has an inconsistent session-start record"));
      if decide (am_Lifecycle actor = ActorLifecycleActive) then
        match ms_definitions s !! am_Revision actor with
        | None => Err ErrDefinitionNotFound
        | Some artifact =>
            _ ← valid artifact;
            fail_if (negb (bool_decide (da_ChartID artifact = am_ChartID actor)))
              (invalidMetadata ("actor " +:+ quote (am_ActorID actor) +:+ " chart identity does not match revision"))
        end
      else Ok ()
  end.

(** The loop of [DeleteDefinitionIfUnreferenced]: whether an active actor pins
    the revision. *)
Fixpoint pinned (s : MemoryStore) (revision : string) (actors : list ActorMetadata) : result bool :=
  match actors with
  | [] => Ok false
  | actor :: actors =>
      if decide (am_Revision actor ≠ revision) then pinned s revision actors
      else
        _ ← validateStoredActorLocked s actor;
        if decide (am_Lifecycle actor = ActorLifecycleActive) then Ok true else pinned s revision actors
  end.

Definition DeleteDefinitionIfUnreferenced (ctx : option error) (revision : string) (s : MemoryStore)
    : result (MemoryStore * DefinitionDeleteResult) :=
  _ ← checkContext ctx;
  match ms_definitions s !! revision with
  | None => Ok (s, DefinitionNotFound)
  | Some _ =>
      referenced ← pinned s revision (range (ms_actors s));
      if (referenced : bool) then Ok (s, DefinitionReferenced)
      else Ok (set_definitions (delete revision (ms_definitions s)) s, DefinitionDeleted)
  end.

Definition failBegin (stage : beginFaultStage) : result unit :=
  match beginFault with
  | Some f => match f stage with Some e => Err e | None => Ok () end
  | None => Ok ()
  end.

(** The session-start entry of a new actor. *)
Definition startEntry (actor : ActorMetadata) : LogEntry :=
  mkEntry (am_SessionID actor) 1 KindSessionStarted (am_StartedAt actor) zeroEvent "" "" "".

Definition sameIdentity (a b : ActorMetadata) : bool :=
  bool_decide (am_ChartID a = am_ChartID b) && bool_decide (am_Revision a = am_Revision b)
  && bool_decide (am_SessionID a = am_SessionID b) && Bool.eqb (am_Durable a) (am_Durable b).

(** The retry of a begun actor; [stored] is returned with every later error. *)
Definition beginStored (stored metadata : ActorMetadata) (s : MemoryStore)
    : option ActorMetadata * result ActorBeginResult :=
  match validateStoredActorLocked s stored with
  | Err e => (None, Err e)
  | Ok _ =>
      (Some stored,
       if decide (am_Lifecycle stored = ActorLifecycleTerminal) then Err ErrActorTerminal
       else if negb (sameIdentity stored metadata) then Err ErrActorCollision
       else match ms_definitions s !! am_Revision stored with
            | None => Err ErrDefinitionNotFound
            | Some artifact => _ ← valid artifact; Ok ActorAlreadyActive
            end)
  end.

(** A new actor and its log. *)
Definition beginNew (metadata : ActorMetadata) (s : MemoryStore) : result (MemoryStore * ActorMetadata) :=
  match ms_definitions s !! am_Revision metadata with
  | None => Err ErrDefinitionNotFound
  | Some artifact =>
      _ ← valid artifact;
      _ ← fail_if (negb (bool_decide (da_ChartID artifact = am_ChartID metadata))) ErrActorCollision;
      _ ← fail_if (negb (bool_decide (logOf s (am_SessionID metadata) = []))) ErrActorCollision;
      _ ← failBegin faultAfterActorStaged;
      let stagedEntries := [startEntry metadata] in
      _ ← failBegin faultAfterStartStaged;
      _ ← failBegin faultBeforeBeginCommit;
      Ok (set_logs (<[am_SessionID metadata := stagedEntries]> (ms_logs s))
            (set_actors (<[am_ActorID metadata := metadata]> (ms_actors s)) s), metadata)
  end.

(** The store, the metadata that is returned, [None] for the zero one, and the
    result. *)
Definition BeginActor (ctx : option error) (metadata : ActorMetadata) (s : MemoryStore)
    : MemoryStore * (option ActorMetadata * result ActorBeginResult) :=
  match (_ ← checkContext ctx;
         _ ← validIdentifier "actor ID" (am_ActorID metadata);
         _ ← metadataValidate metadata;
         fail_if (negb (bool_decide (am_Lifecycle metadata = ActorLifecycleActive)))
           (invalidMetadata ("begin lifecycle is " +:+ quote (am_Lifecycle metadata) +:+ ", want "
                             +:+ quote ActorLifecycleActive))) with
  | Err e => (s, (None, Err e))
  | Ok _ =>
      match ms_actors s !! am_ActorID metadata with
      | Some stored => (s, beginStored stored metadata s)
      | None =>
          match beginNew metadata s with
          | Err e => (s, (None, Err e))
          | Ok (s, actor) => (s, (Some actor, Ok ActorStarted))
          end
      end
  end.

Definition GetActor (ctx : option error) (actorID : Identifier) (s : MemoryStore) : result (option ActorMetadata) :=
  _ ← checkContext ctx;
  match ms_actors s !! actorID with
  | None => Ok None
  | Some metadata => _ ← validateStoredActorLocked s metadata; Ok (Some metadata)
  end.

(** Whether a page of [query] after the ID [after] may hold [actor]. *)
Definition selected (query : ActorMetadataQuery) (after : Identifier) (actor : ActorMetadata) : bool :=
  negb (bool_decide (string_le (am_ActorID actor) after) || negb (HasPrefix (am_ActorID actor) (q_ActorIDPrefix query))
        || (negb (bool_decide (q_ChartID query = "")) && negb (bool_decide (am_ChartID actor = q_ChartID query)))
        || (negb (bool_decide (q_Revision query = "")) && negb (bool_decide (am_Revision actor = q_Revision query)))
        || (negb (bool_decide (q_Lifecycle query = "")) && negb (bool_decide (am_Lifecycle actor = q_Lifecycle query)))).

Fixpoint collectActors (s : MemoryStore) (query : ActorMetadataQuery) (after : Identifier) (actors : list ActorMetadata)
    : result (list ActorMetadata) :=
  match actors with
  | [] => Ok []
  | actor :: actors =>
      _ ← validateStoredActorLocked s actor;
      rest ← collectActors s query after actors;
      Ok (if selected query after actor then actor :: rest else rest)
  end.

(** By actor ID. *)
Definition actorOrder (a b : ActorMetadata) : Prop := string_le (am_ActorID a) (am_ActorID b).

#[global] Instance actorOrder_dec : RelDecision actorOrder.
Proof using Type. intros a b. unfold actorOrder. apply _. Defined.

Definition QueryActors (ctx : option error) (query : ActorMetadataQuery) (s : MemoryStore) : result ActorMetadataPage :=
  _ ← checkContext ctx;
  '(query, after) ← queryValidate query;
  collected ← collectActors s query after (range (ms_actors s));
  let result := merge_sort actorOrder collected in
  if decide (q_Limit query < Z.of_nat (length result))%Z then
    let result := take (Z.to_nat (q_Limit query)) result in
    match last result with
    | Some actor => Ok (mkPage result (ActorMetadataCursorFor (am_ActorID actor)))
    | None => Ok (mkPage result "")
    end
  else Ok (mkPage result "").

(** The zero metadata is [None] here. *)
Definition MarkActorTerminal (ctx : option error) (actorID : Identifier) (terminalAt : Z) (s : MemoryStore)
    : result (MemoryStore * (option ActorMetadata * ActorTerminalResult)) :=
  _ ← checkContext ctx;
  _ ← validIdentifier "actor ID" actorID;
  _ ← fail_if (bool_decide (terminalAt = zeroTime)) (invalidMetadata "terminal time is zero");
  match ms_actors s !! actorID with
  | None => Ok (s, (None, ActorNotFound))
  | Some m =>
      _ ← validateStoredActorLocked s m;
      if decide (am_Lifecycle m = ActorLifecycleTerminal) then Ok (s, (Some m, ActorAlreadyTerminal))
      else
        _ ← fail_if (bool_decide (terminalAt < am_StartedAt m)%Z) (invalidMetadata "terminal time precedes start time");
        let m := mkActor (am_ActorID m) (am_ChartID m) (am_Revision m) (am_SessionID m) (am_Durable m)
                   ActorLifecycleTerminal (am_StartedAt m) terminalAt in
        Ok (set_actors (<[actorID := m]> (ms_actors s)) s, (Some m, ActorMarkedTerminal))
  end.

(** The set of the revisions that active actors pin. *)
Fixpoint collectRevisions (s : MemoryStore) (actors : list ActorMetadata) (acc : gset string) : result (gset string) :=
  match actors with
  | [] => Ok acc
  | actor :: actors =>
      _ ← validateStoredActorLocked s actor;
      collectRevisions s actors
        (if decide (am_Lifecycle actor = ActorLifecycleActive) then {[am_Revision actor]} ∪ acc else acc)
  end.

Definition ReferencedRevisions (ctx : option error) (s : MemoryStore) : result (list string) :=
  _ ← checkContext ctx;
  revisions ← collectRevisions s (range (ms_actors s)) ∅;
  Ok (merge_sort string_le (elements revisions)).

(** *** The log *)

Definition appendLocked (entry : LogEntry) (s : MemoryStore) : MemoryStore * N :=
  let entries := logOf s (le_SessionID entry) in
  let seq := (N.of_nat (length entries) + 1)%N in
  (set_logs (<[le_SessionID entry := entries ++ [withSeq seq (cloneLogEntry entry)]]> (ms_logs s)) s, seq).

Definition Append (ctx : option error) (entry : LogEntry) (s : MemoryStore) : result (MemoryStore * N) :=
  _ ← checkContext ctx; Ok (appendLocked entry s).

(** The entries that are yielded, and the error after them. *)
Definition Read (ctx : option error) (sid : string) (from : N) (s : MemoryStore) : list LogEntry * option error :=
  match ctx with
  | Some e => ([], Some e)
  | None => (map cloneLogEntry (filter (λ e, from ≤ le_Seq e)%N (logOf s sid)), None)
  end.

Definition LastSeq (ctx : option error) (sid : string) (s : MemoryStore) : result N :=
  _ ← checkContext ctx;
  Ok (match last (logOf s sid) with Some e => le_Seq e | None => 0%N end).

Definition AppendIngress (ctx : option error) (entry : LogEntry) (deliveryID : string) (s : MemoryStore)
    : result (MemoryStore * (N * bool)) :=
  _ ← checkContext ctx;
  _ ← fail_if (existsb (λ actor, bool_decide (am_SessionID actor = le_SessionID entry)
                                 && bool_decide (am_Lifecycle actor = ActorLifecycleTerminal)) (range (ms_actors s)))
        ErrActorTerminal;
  let deliveries := default ∅ (ms_ingress s !! le_SessionID entry) in
  let s := set_ingress (<[le_SessionID entry := deliveries]> (ms_ingress s)) s in
  if decide (deliveryID ∈ deliveries) then Ok (s, (0%N, false))
  else
    let '(s, seq) := appendLocked entry s in
    Ok (set_ingress (<[le_SessionID entry := {[deliveryID]} ∪ deliveries]> (ms_ingress s)) s, (seq, true)).

(** *** The outbox *)

Definition StoreOutbound (ctx : option error) (message : OutboundMessage) (s : MemoryStore) : result MemoryStore :=
  _ ← checkContext ctx;
  let message := cloneOutbound message in
  let messages := default ∅ (ms_outbounds s !! om_SessionID message) in
  match messages !! om_DeliveryID message with
  | Some existing => if outboundEqual existing message then Ok s else Err ErrOutboundCollision
  | None =>
      Ok (set_outbounds
            (<[om_SessionID message := <[om_DeliveryID message := message]> messages]> (ms_outbounds s))
            (<[om_SessionID message := default [] (ms_outboundOrder s !! om_SessionID message) ++ [om_DeliveryID message]]>
               (ms_outboundOrder s)) s)
  end.

Definition ResolveOutbound (ctx : option error) (sid deliveryID : string) (result : OutboundResult) (s : MemoryStore)
    : Prelude.result MemoryStore :=
  _ ← checkContext ctx;
  let messages := default ∅ (ms_outbounds s !! sid) in
  match messages !! deliveryID with
  | None => Err (Errorf ("storagetest: outbound " +:+ quote deliveryID +:+ " not found"))
  | Some m =>
      let m := mkOutbound (om_SessionID m) (om_DeliveryID m) (om_Request m) OutboundResolved result in
      Ok (set_outbounds (<[sid := <[deliveryID := m]> messages]> (ms_outbounds s)) (ms_outboundOrder s) s)
  end.

(** Every listed message is in the table (Stored.v), so the default is not used. *)
Definition Outbounds (ctx : option error) (sid : string) (s : MemoryStore) : result (list OutboundMessage) :=
  _ ← checkContext ctx;
  let messages := default ∅ (ms_outbounds s !! sid) in
  Ok (map (λ id, cloneOutbound (default (mkOutbound "" "" (mkSendRequest "" "" "" "" "" "" NullValue) OutboundPending zeroResult)
                                  (messages !! id))) (default [] (ms_outboundOrder s !! sid))).

(** *** Checkpoints *)

Definition Save (ctx : option error) (sid : string) (cp : Checkpoint) (s : MemoryStore) : result MemoryStore :=
  _ ← checkContext ctx;
  clone ← cloneCheckpoint cp;
  Ok (set_snapshots (<[sid := clone]> (ms_snapshots s)) s).

Definition Load (ctx : option error) (sid : string) (s : MemoryStore) : result (option Checkpoint) :=
  _ ← checkContext ctx;
  match ms_snapshots s !! sid with
  | None => Ok None
  | Some cp => clone ← cloneCheckpoint cp; Ok (Some clone)
  end.
End memory.
