(* ===== verification/Stored.v ===== *)
(** * Theorems: the in-memory store (storagetest/memory.go)

    A store is used through its methods; [store_step] is one successful call.
    Whatever the calls were, the tables of the store agree with each other, the
    log only grows, a delivery is recorded once, and a directory that is read
    page by page shows every actor once. *)

From S2P Require Import Prelude Identifier Storage Values Events Datamodel Chart Interp Actions Steps Definitions Validate Compile Artifact.
From S2P Require Import Snapshot Restored Instance Replay Memory.
From stdpp Require Import options.

Lemma filter_none {A} (P : A → Prop) `{∀ x, Decision (P x)} l : Forall (λ x, ¬ P x) l → filter P l = [].
Proof. induction 1 as [|x l Hx _ IH]; [done|]. by rewrite filter_cons_False. Qed.

Lemma list_filter_all {A} (P : A → Prop) `{∀ x, Decision (P x)} l : Forall P l → filter P l = l.
Proof. induction 1 as [|x l Hx _ IH]; [done|]. by rewrite filter_cons_True, IH. Qed.

Section stored.
Variable jsonMarshal : ChartDefinition → result string.
Variable sha256 : string → string.
Variable jsonDecode : string → result (ChartDefinition * trailing).
Variable range : gmap string ActorMetadata → list ActorMetadata.
Variable beginFault : option (beginFaultStage → option error).

(** Ranging over a map visits every entry once. *)
Hypothesis Hrange : ∀ m, range m ≡ₚ (map_to_list m).*2.

Abbreviation valid := (artifactValidate jsonMarshal sha256 jsonDecode).
Abbreviation validateStored := (validateStoredActorLocked jsonMarshal sha256 jsonDecode).
Implicit Types s : MemoryStore.

(** ** One call

    Callers append no session start: that entry is [BeginActor]'s. *)
Inductive store_step : MemoryStore → MemoryStore → Prop :=
| step_put ctx a s s' r : PutDefinition jsonMarshal sha256 jsonDecode ctx a s = Ok (s', r) → store_step s s'
| step_delete ctx rev s s' r :
    DeleteDefinitionIfUnreferenced jsonMarshal sha256 jsonDecode range ctx rev s = Ok (s', r) → store_step s s'
| step_begin ctx m s : store_step s (BeginActor jsonMarshal sha256 jsonDecode beginFault ctx m s).1
| step_terminal ctx id t s s' r : MarkActorTerminal jsonMarshal sha256 jsonDecode ctx id t s = Ok (s', r) → store_step s s'
| step_append ctx e s s' n : le_Kind e ≠ KindSessionStarted → Append ctx e s = Ok (s', n) → store_step s s'
| step_ingress ctx e d s s' r : le_Kind e ≠ KindSessionStarted → AppendIngress range ctx e d s = Ok (s', r) → store_step s s'
| step_store ctx m s s' : StoreOutbound ctx m s = Ok s' → store_step s s'
| step_resolve ctx sid d r s s' : ResolveOutbound ctx sid d r s = Ok s' → store_step s s'
| step_save ctx sid cp s s' : Save ctx sid cp s = Ok s' → store_step s s'.

Definition reachable_store : MemoryStore → Prop := rtc store_step NewMemoryStore.

Lemma elem_of_range m a : a ∈ range m ↔ ∃ k, m !! k = Some a.
Proof using Hrange.
  rewrite Hrange, list_elem_of_fmap. split.
  - intros ([k a'] & -> & H%elem_of_map_to_list). by exists k.
  - intros [k H]. exists (k, a). split; [done|]. by apply elem_of_map_to_list.
Qed.

(** ** What validation of a stored actor means *)

Lemma startMatches_cons a start rest extra :
  Forall (λ e, le_Kind e ≠ KindSessionStarted) extra →
  startMatches a (start :: rest ++ extra) start = startMatches a (start :: rest) start.
Proof using Type.
  intros H. unfold startMatches, startCount. rewrite app_comm_cons, filter_app.
  rewrite (filter_none _ extra) by done. by rewrite app_nil_r.
Qed.

(** Validation survives a longer log and other definitions. *)
Lemma validateStored_mono s s' a extra :
  validateStored s a = Ok () →
  logOf s' (am_SessionID a) = logOf s (am_SessionID a) ++ extra →
  Forall (λ e, le_Kind e ≠ KindSessionStarted) extra →
  (am_Lifecycle a = ActorLifecycleActive → ∀ d, ms_definitions s !! am_Revision a = Some d → ms_definitions s' !! am_Revision a = Some d) →
  validateStored s' a = Ok ().
Proof using Type.
  unfold validateStoredActorLocked. intros H Hl Hx Hd. apply result_bind_Ok in H as ([] & -> & H). simpl. rewrite Hl.
  destruct (logOf s (am_SessionID a)) as [|start rest]; [done|]. simpl.
  rewrite startMatches_cons by done. apply result_bind_Ok in H as ([] & -> & H). simpl.
  case_decide as Hact; [|done]. destruct (ms_definitions s !! am_Revision a) as [d|]; [|done]. by rewrite (Hd Hact d eq_refl).
Qed.

Lemma validateStored_log s a : validateStored s a = Ok () → logOf s (am_SessionID a) ≠ [].
Proof using Type.
  unfold validateStoredActorLocked. intros H. apply result_bind_Ok in H as ([] & _ & H). by destruct (logOf s (am_SessionID a)).
Qed.

Lemma validateStored_definition s a : validateStored s a = Ok () → am_Lifecycle a = ActorLifecycleActive →
  ∃ d, ms_definitions s !! am_Revision a = Some d ∧ valid d = Ok () ∧ da_ChartID d = am_ChartID a.
Proof using Type.
  unfold validateStoredActorLocked. intros H Ha. apply result_bind_Ok in H as ([] & _ & H).
  destruct (logOf s (am_SessionID a)) as [|start rest]; [done|]. apply result_bind_Ok in H as ([] & _ & H).
  rewrite decide_True in H by done. destruct (ms_definitions s !! am_Revision a) as [d|]; [|done].
  apply result_bind_Ok in H as ([] & Hd & H%fail_if_Ok). apply negb_false_iff, bool_decide_eq_true in H. eauto.
Qed.

(** ** Consistency *)

Record consistent s : Prop := {
  co_actor k a : ms_actors s !! k = Some a → am_ActorID a = k ∧ validateStored s a = Ok ();
  co_session k k' a a' : ms_actors s !! k = Some a → ms_actors s !! k' = Some a' → am_SessionID a = am_SessionID a' → k = k';
  co_definition r d : ms_definitions s !! r = Some d → da_Revision d = r ∧ valid d = Ok ();
  co_seq sid : map le_Seq (logOf s sid) = map N.of_nat (seq 1 (length (logOf s sid)));
  co_entry sid : Forall (λ e, le_SessionID e = sid) (logOf s sid);
  co_order sid : NoDup (default [] (ms_outboundOrder s !! sid));
  co_listed sid id : id ∈ default [] (ms_outboundOrder s !! sid) ↔ is_Some (default ∅ (ms_outbounds s !! sid) !! id);
  co_message sid id m : default ∅ (ms_outbounds s !! sid) !! id = Some m → om_SessionID m = sid ∧ om_DeliveryID m = id
}.

Lemma consistent_new : consistent NewMemoryStore.
Proof using Type.
  split; unfold logOf; simpl; intros *; rewrite ?lookup_empty; simpl; try done; rewrite ?lookup_empty.
  - constructor.
  - split; [by intros ?%elem_of_nil | by intros []].
Qed.

(** Calls that leave the actors, the log and the outbox alone. *)
Lemma consistent_definitions s ds : consistent s →
  (∀ r d, ds !! r = Some d → da_Revision d = r ∧ valid d = Ok ()) →
  (∀ k a d, ms_actors s !! k = Some a → am_Lifecycle a = ActorLifecycleActive → ms_definitions s !! am_Revision a = Some d →
     ds !! am_Revision a = Some d) →
  consistent (set_definitions ds s).
Proof using Type.
  intros H Hds Hkeep. split; try apply H; [|done]. intros k a Ha. destruct (co_actor s H k a Ha) as [Hk Hv]. split; [done|].
  apply (validateStored_mono s _ a []); [done | by rewrite app_nil_r | constructor | by eauto].
Qed.

Lemma PutDefinition_consistent ctx a s s' r :
  consistent s → PutDefinition jsonMarshal sha256 jsonDecode ctx a s = Ok (s', r) → consistent s'.
Proof using Type.
  intros H. unfold PutDefinition. intros ([] & _ & E)%result_bind_Ok.
  destruct (ms_definitions s !! da_Revision a) as [d|] eqn:Ed.
  - destruct (artifactEqual d a); [|done]. by apply result_bind_Ok in E as ([] & _ & [= <- <-]).
  - apply result_bind_Ok in E as ([] & Hv & [= <- <-]). apply consistent_definitions; [done|..].
    + intros r d [[<- <-]|[_ Hd]]%lookup_insert_Some; [by destruct a | by apply (co_definition s H)].
    + intros k b d _ _ Hd. apply lookup_insert_Some. right. split; [|done]. congruence.
Qed.

Lemma pinned_false s rev actors : pinned jsonMarshal sha256 jsonDecode s rev actors = Ok false →
  ∀ a, a ∈ actors → am_Lifecycle a = ActorLifecycleActive → am_Revision a ≠ rev.
Proof using Type.
  induction actors as [|b l IH]; simpl; intros H a Ha Hact; [by apply elem_of_nil in Ha|].
  apply elem_of_cons in Ha as [->|Ha]; case_decide as Hr; eauto.
  - apply result_bind_Ok in H as ([] & _ & H). by rewrite decide_True in H.
  - apply result_bind_Ok in H as ([] & _ & H). case_decide; [done|]. eauto.
Qed.

Lemma DeleteDefinition_consistent ctx rev s s' r : consistent s →
  DeleteDefinitionIfUnreferenced jsonMarshal sha256 jsonDecode range ctx rev s = Ok (s', r) → consistent s'.
Proof using Hrange.
  intros H. unfold DeleteDefinitionIfUnreferenced. intros ([] & _ & E)%result_bind_Ok.
  destruct (ms_definitions s !! rev) as [d|] eqn:Ed; [|by injection E as <- <-].
  apply result_bind_Ok in E as ([|] & Hp & E); injection E as <- <-; [done|]. apply consistent_definitions; [done|..].
  - intros r d0 [_ Hd]%lookup_delete_Some. by apply (co_definition s H).
  - intros k a d' Ha Hact Hd'. apply lookup_delete_Some. split; [|done]. intros Hr.
    apply (pinned_false _ _ _ Hp a); [apply elem_of_range; eauto | done | done].
Qed.

(** An entry that is no session start, at the end of a log. *)
Lemma appendLocked_log e s sid :
  logOf (appendLocked e s).1 sid =
    logOf s sid ++ (if decide (le_SessionID e = sid) then [withSeq (N.of_nat (length (logOf s sid)) + 1) (cloneLogEntry e)] else []).
Proof using Type.
  unfold logOf, appendLocked. simpl. case_decide as E.
  - subst sid. by rewrite lookup_insert_eq.
  - by rewrite lookup_insert_ne, app_nil_r.
Qed.

Lemma appendLocked_consistent e s : consistent s → le_Kind e ≠ KindSessionStarted → consistent (appendLocked e s).1.
Proof using Type.
  intros H He. pose proof (appendLocked_log e s) as Hlog. split; try apply H.
  - intros k a Ha. destruct (co_actor s H k a Ha) as [Hk Hv]. split; [done|].
    eapply (validateStored_mono s); [done | apply Hlog | | done]. case_decide; repeat constructor. exact He.
  - intros sid. rewrite Hlog. case_decide; [|rewrite app_nil_r; apply H]. rewrite map_app, length_app, (co_seq s H), seq_app, map_app.
    simpl. do 2 f_equal. lia.
  - intros sid. rewrite Hlog. apply Forall_app. split; [apply H|]. case_decide; by repeat constructor.
Qed.

Lemma consistent_ingress x s : consistent (set_ingress x s) ↔ consistent s.
Proof using Type. split; intros H; split; apply H. Qed.

Lemma AppendIngress_consistent ctx e d s s' r :
  consistent s → le_Kind e ≠ KindSessionStarted → AppendIngress range ctx e d s = Ok (s', r) → consistent s'.
Proof using Type.
  intros H He. unfold AppendIngress. intros ([] & _ & E)%result_bind_Ok. apply result_bind_Ok in E as ([] & _ & E).
  case_decide; [injection E as <- <-; by apply consistent_ingress|].
  destruct (appendLocked e _) as [s1 n] eqn:E1. injection E as <- <-. apply consistent_ingress.
  change s1 with (s1, n).1. rewrite <- E1. apply appendLocked_consistent; [by apply consistent_ingress | done].
Qed.

(** *** A new actor *)

Lemma beginNew_Ok m s s' a : beginNew jsonMarshal sha256 jsonDecode beginFault m s = Ok (s', a) →
  a = m ∧ logOf s (am_SessionID m) = []
  ∧ (∃ d, ms_definitions s !! am_Revision m = Some d ∧ valid d = Ok () ∧ da_ChartID d = am_ChartID m)
  ∧ s' = set_logs (<[am_SessionID m := [startEntry m]]> (ms_logs s)) (set_actors (<[am_ActorID m := m]> (ms_actors s)) s).
Proof using Type.
  unfold beginNew. destruct (ms_definitions s !! am_Revision m) as [d|]; [|done]. intros ([] & Hd & H)%result_bind_Ok.
  apply result_bind_Ok in H as ([] & Hc & H). apply result_bind_Ok in H as ([] & Hl & H). apply result_bind_Ok in H as ([] & _ & H).
  apply result_bind_Ok in H as ([] & _ & H). apply result_bind_Ok in H as ([] & _ & H). injection H as <- <-.
  apply fail_if_Ok, negb_false_iff, bool_decide_eq_true in Hc, Hl. eauto 10.
Qed.

(** The log of a new actor's session is its start entry; others stay. *)
Lemma beginNew_log m s sid :
  logOf (set_logs (<[am_SessionID m := [startEntry m]]> (ms_logs s)) (set_actors (<[am_ActorID m := m]> (ms_actors s)) s)) sid
  = if decide (sid = am_SessionID m) then [startEntry m] else logOf s sid.
Proof using Type. unfold logOf. simpl. case_decide as E; [subst; by rewrite lookup_insert_eq | by rewrite lookup_insert_ne]. Qed.

Lemma beginNew_consistent m s s' a : consistent s → metadataValidate m = Ok () → ms_actors s !! am_ActorID m = None →
  beginNew jsonMarshal sha256 jsonDecode beginFault m s = Ok (s', a) → consistent s'.
Proof using Type.
  intros H Hm Hnew (-> & Hl & (d & Hd & Hv & Hc) & ->)%beginNew_Ok. pose proof (beginNew_log m s) as Hlog.
  set (s' := set_logs _ _) in *. assert (ms_actors s' = <[am_ActorID m := m]> (ms_actors s)) as Ea by done.
  assert (∀ k b, ms_actors s !! k = Some b → am_SessionID b ≠ am_SessionID m) as Hother.
  { intros k b Hb E. apply (validateStored_log s b); [by apply (co_actor s H k)|]. by rewrite E. }
  split; try apply H.
  - intros k b. rewrite Ea. intros [[<- <-]|[_ Hb]]%lookup_insert_Some.
    + split; [done|]. unfold validateStoredActorLocked. rewrite Hm, Hlog, decide_True by done. cbn [mbind result_bind].
      replace (startMatches m [startEntry m] (startEntry m)) with true.
      2: { unfold startMatches, startCount. simpl. by rewrite !bool_decide_true. }
      cbn [negb fail_if mbind result_bind]. change (ms_definitions s') with (ms_definitions s). rewrite Hd, Hv.
      case_decide; [|done]. cbn [mbind result_bind]. by rewrite bool_decide_true.
    + destruct (co_actor s H k b Hb) as [Hk Hvb]. split; [done|]. apply (validateStored_mono s _ b []); [done| |constructor|done].
      rewrite Hlog, decide_False, app_nil_r by (by eapply Hother). done.
  - intros k k' b b'. rewrite Ea. intros [[<- <-]|[_ Hb]]%lookup_insert_Some [[<- <-]|[_ Hb']]%lookup_insert_Some E; [done|..].
    + by destruct (Hother k' b' Hb').
    + by destruct (Hother k b Hb).
    + by eapply (co_session s H).
  - intros sid. rewrite Hlog. case_decide; [done|apply H].
  - intros sid. rewrite Hlog. case_decide; [subst; by repeat constructor|apply H].
Qed.

Lemma BeginActor_consistent ctx m s : consistent s → consistent (BeginActor jsonMarshal sha256 jsonDecode beginFault ctx m s).1.
Proof using Type.
  intros H. unfold BeginActor. destruct (_ ≫= _) as [u|e] eqn:E; [|done].
  apply result_bind_Ok in E as ([] & _ & E). apply result_bind_Ok in E as ([] & _ & E). apply result_bind_Ok in E as ([] & Hm & _).
  destruct (ms_actors s !! am_ActorID m) as [stored|] eqn:Ea; [done|].
  destruct (beginNew _ _ _ _ m s) as [[s' a]|e] eqn:Eb; [|done]. by eapply beginNew_consistent.
Qed.

(** *** A terminal actor *)

Lemma metadataValidate_terminal m t : metadataValidate m = Ok () → t ≠ zeroTime → (am_StartedAt m ≤ t)%Z →
  metadataValidate (mkActor (am_ActorID m) (am_ChartID m) (am_Revision m) (am_SessionID m) (am_Durable m)
                      ActorLifecycleTerminal (am_StartedAt m) t) = Ok ().
Proof using Type.
  unfold metadataValidate. intros H Ht Hle. simpl. do 6 (apply result_bind_Ok in H as ([] & -> & H); simpl).
  rewrite (bool_decide_false (t = zeroTime)) by done. simpl. by rewrite bool_decide_false by lia.
Qed.

Lemma MarkActorTerminal_consistent ctx id t s s' r :
  consistent s → MarkActorTerminal jsonMarshal sha256 jsonDecode ctx id t s = Ok (s', r) → consistent s'.
Proof using Type.
  intros H. unfold MarkActorTerminal. intros ([] & _ & E)%result_bind_Ok. apply result_bind_Ok in E as ([] & _ & E).
  apply result_bind_Ok in E as ([] & Ht%fail_if_Ok%bool_decide_eq_false & E).
  destruct (ms_actors s !! id) as [m|] eqn:Em; [|by injection E as <- <-].
  apply result_bind_Ok in E as ([] & Hv & E). case_decide as Hterm; [by injection E as <- <-|].
  apply result_bind_Ok in E as ([] & Hle%fail_if_Ok%bool_decide_eq_false & E). injection E as <- <-.
  destruct (co_actor s H id m Em) as [Hid _]. set (m' := mkActor _ _ _ _ _ _ _ _). split; try apply H.
  - intros k b. unfold set_actors at 1. simpl. intros [[<- <-]|[_ Hb]]%lookup_insert_Some.
    + split; [done|]. unfold validateStoredActorLocked in *. apply result_bind_Ok in Hv as ([] & Hm & Hv).
      assert (metadataValidate m' = Ok ()) as -> by (apply metadataValidate_terminal; [done|done|lia]). simpl.
      change (logOf (set_actors _ s) (am_SessionID m)) with (logOf s (am_SessionID m)).
      destruct (logOf s (am_SessionID m)) as [|start rest]; [done|]. apply result_bind_Ok in Hv as ([] & Hs & Hv).
      change (startMatches m' (start :: rest) start) with (startMatches m (start :: rest) start). by rewrite Hs.
    + destruct (co_actor s H k b Hb) as [Hk Hvb]. split; [done|].
      apply (validateStored_mono s _ b []); [done | by rewrite app_nil_r | constructor | done].
  - intros k k' b b'. unfold set_actors. simpl.
    intros [[<- <-]|[_ Hb]]%lookup_insert_Some [[<- <-]|[_ Hb']]%lookup_insert_Some E; [done|..];
      by eapply (co_session s H); first [exact Em|exact Hb|exact Hb'|exact E|idtac].
Qed.

(** *** The outbox *)

Lemma StoreOutbound_consistent ctx m s s' : consistent s → StoreOutbound ctx m s = Ok s' → consistent s'.
Proof using Type.
  intros H. unfold StoreOutbound. intros ([] & _ & E)%result_bind_Ok. set (sid := om_SessionID (cloneOutbound m)) in *.
  set (id := om_DeliveryID (cloneOutbound m)) in *. destruct (default ∅ (ms_outbounds s !! sid) !! id) as [x|] eqn:Ex.
  { destruct (outboundEqual x _); [|done]. by injection E as <-. }
  injection E as <-. split; try apply H; simpl.
  - intros sid'. destruct (decide (sid = sid')) as [<-|]; [|rewrite lookup_insert_ne by done; apply H]. rewrite lookup_insert_eq. simpl.
    apply NoDup_app. split_and!; [apply H| |apply NoDup_singleton]. intros x Hx ->%list_elem_of_singleton.
    apply (co_listed s H) in Hx. rewrite Ex in Hx. by destruct Hx.
  - intros sid' id'. destruct (decide (sid = sid')) as [<-|]; [|rewrite !lookup_insert_ne by done; apply H]. rewrite !lookup_insert_eq. simpl.
    rewrite elem_of_app, list_elem_of_singleton, (co_listed s H), lookup_insert_is_Some. destruct (decide (id = id')); naive_solver.
  - intros sid' id' x. destruct (decide (sid = sid')) as [<-|]; [|rewrite lookup_insert_ne by done; apply H]. rewrite lookup_insert_eq. simpl.
    intros [[<- <-]|[_ Hx]]%lookup_insert_Some; [done | by apply H].
Qed.

Lemma ResolveOutbound_consistent ctx sid id r s s' : consistent s → ResolveOutbound ctx sid id r s = Ok s' → consistent s'.
Proof using Type.
  intros H. unfold ResolveOutbound. intros ([] & _ & E)%result_bind_Ok.
  destruct (default ∅ (ms_outbounds s !! sid) !! id) as [x|] eqn:Ex; [|done]. injection E as <-. split; try apply H; simpl.
  - intros sid' id'. destruct (decide (sid = sid')) as [<-|]; [|rewrite lookup_insert_ne by done; apply H]. rewrite lookup_insert_eq. simpl.
    rewrite (co_listed s H), lookup_insert_is_Some. destruct (decide (id = id')) as [<-|]; [rewrite Ex|]; naive_solver.
  - intros sid' id' y. destruct (decide (sid = sid')) as [<-|]; [|rewrite lookup_insert_ne by done; apply H]. rewrite lookup_insert_eq. simpl.
    intros [[<- <-]|[_ Hy]]%lookup_insert_Some; [simpl; by apply H | by apply H].
Qed.

Lemma store_step_consistent s s' : store_step s s' → consistent s → consistent s'.
Proof using Hrange.
  intros Hstep Hc. destruct Hstep.
  - by eapply PutDefinition_consistent.
  - by eapply DeleteDefinition_consistent.
  - by apply BeginActor_consistent.
  - by eapply MarkActorTerminal_consistent.
  - unfold Append in *. inv_ok. by apply appendLocked_consistent.
  - by eapply AppendIngress_consistent.
  - by eapply StoreOutbound_consistent.
  - by eapply ResolveOutbound_consistent.
  - unfold Save in *. inv_ok. split; apply Hc.
Qed.

Lemma reachable_consistent s : reachable_store s → consistent s.
Proof using Hrange.
  unfold reachable_store. generalize consistent_new. generalize NewMemoryStore. intros s0 H0 Hr. revert H0.
  induction Hr; eauto using store_step_consistent.
Qed.

(** ** The tables agree *)

Lemma cloneLogEntry_id e : cloneLogEntry e = e.
Proof using Type. unfold cloneLogEntry. rewrite Clone_id. by destruct e as [? ? ? ? [] ? ? ?]. Qed.

Lemma cloneOutbound_id m : cloneOutbound m = m.
Proof using Type. unfold cloneOutbound. rewrite Clone_id. by destruct m as [? ? [] ? ?]. Qed.

Lemma seqs_positive s sid : consistent s → Forall (λ e, 1 ≤ le_Seq e)%N (logOf s sid).
Proof using Type.
  intros H. apply Forall_forall. intros e He.
  assert (le_Seq e ∈ map le_Seq (logOf s sid)) as Hs by (by apply (list_elem_of_fmap_2 le_Seq)).
  rewrite (co_seq s H sid) in Hs. apply list_elem_of_fmap in Hs as (n & -> & Hn%elem_of_seq). lia.
Qed.

Lemma LastSeq_length s sid : consistent s → LastSeq None sid s = Ok (N.of_nat (length (logOf s sid))).
Proof using Type.
  intros H. unfold LastSeq. simpl. f_equal. pose proof (co_seq s H sid) as Hs.
  destruct (logOf s sid) as [|e l _] using rev_ind; [done|]. rewrite last_snoc. rewrite length_app, map_app, seq_app, map_app in Hs.
  simpl in Hs. apply app_inj_tail in Hs as [_ Hs]. rewrite Hs, length_app. simpl. lia.
Qed.

Lemma Outbounds_ids s sid : consistent s → ∃ ms, Outbounds None sid s = Ok ms
  ∧ map om_DeliveryID ms = default [] (ms_outboundOrder s !! sid) ∧ Forall (λ m, om_SessionID m = sid) ms.
Proof using Type.
  intros H. eexists. split; [reflexivity|]. rewrite map_map, Forall_map.
  assert (∀ id, id ∈ default [] (ms_outboundOrder s !! sid) → ∃ m, default ∅ (ms_outbounds s !! sid) !! id = Some m
    ∧ om_SessionID m = sid ∧ om_DeliveryID m = id) as Hid.
  { intros id [m Hm]%(co_listed s H). exists m. split; [done|]. by apply (co_message s H). }
  split.
  - etransitivity; [|apply map_id]. apply map_ext_in. intros id Hin%list_elem_of_In. destruct (Hid id Hin) as (m & -> & _ & <-). done.
  - apply Forall_forall. intros id Hin. destruct (Hid id Hin) as (m & -> & <- & _). done.
Qed.

(** The order of a session's outbox. *)
Abbreviation outboxOrder s sid := (default [] (ms_outboundOrder s !! sid)).

Lemma StoreOutbound_order ctx m s s' : consistent s → StoreOutbound ctx m s = Ok s' →
  (∀ sid, outboxOrder s sid `prefix_of` outboxOrder s' sid)
  ∧ outboxOrder s' (om_SessionID m) = outboxOrder s (om_SessionID m) ++
      (if decide (om_DeliveryID m ∈ outboxOrder s (om_SessionID m)) then [] else [om_DeliveryID m]).
Proof using Type.
  intros H. unfold StoreOutbound. rewrite cloneOutbound_id. intros ([] & _ & E)%result_bind_Ok.
  pose proof (co_listed s H (om_SessionID m) (om_DeliveryID m)) as Hl. destruct (default ∅ (ms_outbounds s !! om_SessionID m) !! om_DeliveryID m) as [x|].
  - destruct (outboundEqual x m); [|done]. injection E as <-. split; [done|]. rewrite decide_True, app_nil_r; [done|]. apply Hl. by eexists.
  - injection E as <-. split; simpl.
    + intros sid. destruct (decide (om_SessionID m = sid)) as [<-|]; [rewrite lookup_insert_eq; by apply prefix_app_r | by rewrite lookup_insert_ne].
    + rewrite lookup_insert_eq. simpl. rewrite decide_False; [done|]. intros Hin. apply Hl in Hin. by destruct Hin.
Qed.

Lemma store_step_order s s' : store_step s s' → consistent s → ∀ sid, outboxOrder s sid `prefix_of` outboxOrder s' sid.
Proof using Type.
  assert (∀ s s', ms_outboundOrder s' = ms_outboundOrder s → ∀ sid, outboxOrder s sid `prefix_of` outboxOrder s' sid) as Hsame by (intros ? ? -> ?; done).
  intros Hstep H. destruct Hstep as [ctx a s s' r E|ctx rev s s' r E|ctx m s|ctx id t s s' r E|ctx e s s' n He E|ctx e d s s' r He E
    |ctx m s s' E|ctx sid d r s s' E|ctx sid cp s s' E].
  - unfold PutDefinition in E. inv_ok. case_match; [destruct (artifactEqual _ _); [|done]|]; inv_ok; by apply Hsame.
  - unfold DeleteDefinitionIfUnreferenced in E. inv_ok. case_match; inv_ok; [|by apply Hsame]. case_match; inv_ok; by apply Hsame.
  - apply Hsame. unfold BeginActor. destruct (_ ≫= _); [|done]. destruct (ms_actors s !! am_ActorID m); [done|].
    destruct (beginNew _ _ _ _ m s) as [[s' b]|] eqn:E; [|done]. by apply beginNew_Ok in E as (_ & _ & _ & ->).
  - unfold MarkActorTerminal in E. inv_ok. destruct (ms_actors s !! id); [|inv_ok; by apply Hsame]. inv_ok. case_decide; inv_ok; by apply Hsame.
  - unfold Append in E. inv_ok. by apply Hsame.
  - unfold AppendIngress in E. apply result_bind_Ok in E as ([] & _ & E). apply result_bind_Ok in E as ([] & _ & E).
    case_decide; injection E as <- _; by apply Hsame.
  - by apply (StoreOutbound_order ctx m).
  - unfold ResolveOutbound in E. inv_ok. case_match; inv_ok. by apply Hsame.
  - unfold Save in E. inv_ok. by apply Hsame.
Qed.

Lemma store_steps_order s s' : rtc store_step s s' → consistent s → ∀ sid, outboxOrder s sid `prefix_of` outboxOrder s' sid.
Proof using Hrange.
  induction 1 as [|s1 s2 s3 H12 _ IH]; intros Hc sid; [done|]. etrans; [by apply store_step_order|]. apply IH. by eapply store_step_consistent.
Qed.

(** C27 (invariant): the store stays consistent.  After any calls of its methods
    by callers that leave session starts to [BeginActor],
    every stored actor is returned by [GetActor] under its ID, no two actors
    share a session, the definition an active actor is pinned to is there, valid
    and of its chart, whatever was deleted; every log is read back whole with
    the sequence numbers 1, 2, 3 and so on and [LastSeq] the last of them; the
    outbox of a session lists exactly its stored messages, each once; and once
    [StoreOutbound] has stored a message, whatever calls follow, its delivery is
    listed behind those that were stored before it. *)
Theorem store_consistent s : reachable_store s →
  (∀ id a, ms_actors s !! id = Some a →
     am_ActorID a = id ∧ GetActor jsonMarshal sha256 jsonDecode None id s = Ok (Some a))
  ∧ (∀ id id' a a', ms_actors s !! id = Some a → ms_actors s !! id' = Some a' → am_SessionID a = am_SessionID a' → id = id')
  ∧ (∀ id a, ms_actors s !! id = Some a → am_Lifecycle a = ActorLifecycleActive →
     ∃ d, GetDefinition jsonMarshal sha256 jsonDecode None (am_Revision a) s = Ok (Some d)
          ∧ da_Revision d = am_Revision a ∧ da_ChartID d = am_ChartID a)
  ∧ (∀ sid, Read None sid 1 s = (logOf s sid, None)
     ∧ map le_Seq (logOf s sid) = map N.of_nat (seq 1 (length (logOf s sid)))
     ∧ LastSeq None sid s = Ok (N.of_nat (length (logOf s sid))))
  ∧ (∀ sid, ∃ ms, Outbounds None sid s = Ok ms ∧ NoDup (map om_DeliveryID ms) ∧ Forall (λ m, om_SessionID m = sid) ms
     ∧ ∀ d m, default ∅ (ms_outbounds s !! sid) !! d = Some m ↔ m ∈ ms ∧ om_DeliveryID m = d)
  ∧ (∀ ctx m s' s'', StoreOutbound ctx m s = Ok s' → rtc store_step s' s'' →
     ∃ before after, Outbounds None (om_SessionID m) s = Ok before ∧ Outbounds None (om_SessionID m) s'' = Ok after
       ∧ (map om_DeliveryID before ++ (if decide (om_DeliveryID m ∈ map om_DeliveryID before) then [] else [om_DeliveryID m]))
           `prefix_of` map om_DeliveryID after).
Proof using Hrange.
  intros H%reachable_consistent. split_and!.
  - intros id a Ha. destruct (co_actor s H id a Ha) as [Hid Hv]. split; [done|]. unfold GetActor. simpl. by rewrite Ha, Hv.
  - apply (co_session s H).
  - intros id a Ha Hact. destruct (co_actor s H id a Ha) as [_ Hv].
    destruct (validateStored_definition s a Hv Hact) as (d & Hd & Hvd & Hc). exists d. split; [|split; [by apply (co_definition s H)|done]].
    unfold GetDefinition. simpl. rewrite Hd. replace (artifactClone d) with d by (by destruct d). by rewrite Hvd.
  - intros sid. split_and!; [|apply H|by apply LastSeq_length]. unfold Read.
    rewrite (list_filter_all _ (logOf s sid)) by (by apply seqs_positive). f_equal.
    etransitivity; [|apply map_id]. apply map_ext. exact cloneLogEntry_id.
  - intros sid. destruct (Outbounds_ids s sid H) as (ms & Hms & Hid & Hsid). exists ms. rewrite Hid. split_and!; [done|apply H|done|].
    intros d m. split.
    + intros Hm. split; [|by apply (co_message s H sid)]. unfold Outbounds in Hms. simpl in Hms. injection Hms as <-. apply list_elem_of_fmap.
      exists d. rewrite Hm, cloneOutbound_id. split; [done|]. apply (co_listed s H). by eexists.
    + intros [Hm Hd]. unfold Outbounds in Hms. simpl in Hms. injection Hms as <-. apply list_elem_of_fmap in Hm as (k & Em & Hk).
      apply (co_listed s H) in Hk as [x Hx]. rewrite Hx in Em. simpl in Em. rewrite cloneOutbound_id in Em. rewrite <- Em in Hx.
      destruct (co_message s H sid k m Hx) as [_ E]. rewrite <- Hd, E. exact Hx.
  - intros ctx m s' s'' Hs Hr. destruct (Outbounds_ids s (om_SessionID m) H) as (before & Hb & Eb & _).
    assert (consistent s') as H' by by eapply StoreOutbound_consistent.
    assert (consistent s'') as H'' by (clear - H' Hr Hrange; induction Hr; eauto using store_step_consistent).
    destruct (Outbounds_ids s'' (om_SessionID m) H'') as (after & Ha & Ea & _). exists before, after. rewrite Eb, Ea. split_and!; [done..|].
    rewrite <- (proj2 (StoreOutbound_order ctx m s s' H Hs)). by apply store_steps_order.
Qed.

(** ** What a call keeps *)

Abbreviation deliveries s sid := (default ∅ (ms_ingress s !! sid)).

(** The log grows at its end, recorded deliveries stay recorded, terminal actors
    stay as they are. *)
Record grows s s' : Prop := {
  gr_log sid : logOf s sid `prefix_of` logOf s' sid;
  gr_ingress sid : deliveries s sid ⊆ deliveries s' sid;
  gr_terminal id a : ms_actors s !! id = Some a → am_Lifecycle a = ActorLifecycleTerminal → ms_actors s' !! id = Some a
}.

#[local] Instance grows_preorder : PreOrder grows.
Proof using Type.
  split; [by split|]. intros s1 s2 s3 [L1 I1 T1] [L2 I2 T2]. split; [intros sid; by transitivity (logOf s2 sid) | intros sid; by transitivity (deliveries s2 sid) | eauto].
Qed.

(** A call that changes none of the three tables. *)
Lemma grows_same s s' : ms_logs s' = ms_logs s → ms_ingress s' = ms_ingress s → ms_actors s' = ms_actors s → grows s s'.
Proof using Type. intros Hl Hi Ha. split; intros *; unfold logOf; rewrite ?Hl, ?Hi, ?Ha; by try intros ?. Qed.

Lemma appendLocked_grows e s : grows s (appendLocked e s).1.
Proof using Type. split; [|done|done]. intros sid. rewrite appendLocked_log. by apply prefix_app_r. Qed.

Lemma set_ingress_grows x s : (∀ sid, deliveries s sid ⊆ default ∅ (x !! sid)) → grows s (set_ingress x s).
Proof using Type. intros H. by split. Qed.

(** [AppendIngress], by whether the delivery was known. *)
Lemma AppendIngress_Ok ctx e d s s' r : AppendIngress range ctx e d s = Ok (s', r) →
  (∀ sid, logOf s' sid = if r.2 then logOf (appendLocked e s).1 sid else logOf s sid)
  ∧ r = (if decide (d ∈ deliveries s (le_SessionID e)) then (0%N, false) else ((appendLocked e s).2, true))
  ∧ d ∈ deliveries s' (le_SessionID e) ∧ (∀ sid, deliveries s sid ⊆ deliveries s' sid) ∧ ms_actors s' = ms_actors s.
Proof using Type.
  clear Hrange jsonMarshal sha256 jsonDecode beginFault. unfold AppendIngress. intros ([] & _ & E)%result_bind_Ok. apply result_bind_Ok in E as ([] & _ & E).
  case_decide as Hd; injection E as <- <-; simpl; split_and!; try done; rewrite ?insert_insert_eq, ?lookup_insert_eq; try done.
  - intros sid. destruct (decide (le_SessionID e = sid)) as [<-|]; [by rewrite lookup_insert_eq | by rewrite lookup_insert_ne].
  - simpl. set_solver.
  - intros sid. destruct (decide (le_SessionID e = sid)) as [<-|]; [rewrite lookup_insert_eq; simpl; set_solver | by rewrite lookup_insert_ne].
Qed.

Lemma store_step_grows s s' : store_step s s' → grows s s'.
Proof using Type.
  intros Hstep. destruct Hstep as [ctx a s s' r E|ctx rev s s' r E|ctx m s|ctx id t s s' r E|ctx e s s' n He E|ctx e d s s' r He E
    |ctx m s s' E|ctx sid d r s s' E|ctx sid cp s s' E].
  - unfold PutDefinition in E. inv_ok. case_match; [destruct (artifactEqual _ _); [|done]|]; inv_ok; by apply grows_same.
  - unfold DeleteDefinitionIfUnreferenced in E. inv_ok. case_match; inv_ok; [|by apply grows_same]. case_match; inv_ok; by apply grows_same.
  - unfold BeginActor. destruct (_ ≫= _); [|done]. destruct (ms_actors s !! am_ActorID m) as [b|] eqn:Hb; [done|].
    destruct (beginNew _ _ _ _ m s) as [[s' b]|] eqn:E; [|done]. apply beginNew_Ok in E as (-> & Hl & _ & ->). split; [|done|].
    + intros sid. simpl. rewrite beginNew_log. case_decide; [subst; rewrite Hl; apply prefix_nil | done].
    + intros id b Hid _. simpl. apply lookup_insert_Some. right. split; [congruence|done].
  - unfold MarkActorTerminal in E. inv_ok. destruct (ms_actors s !! id) as [m|] eqn:Hm; [|inv_ok; by apply grows_same].
    inv_ok. case_decide; inv_ok; [by apply grows_same|]. split; [done|done|]. intros k b Hb Ht. simpl. apply lookup_insert_Some. right.
    split; [|done]. congruence.
  - unfold Append in E. inv_ok. apply appendLocked_grows.
  - apply AppendIngress_Ok in E as (Hl & _ & _ & Hi & Ha). split; [|done|by rewrite Ha].
    intros sid. rewrite Hl. destruct r.2; [apply appendLocked_grows | done].
  - unfold StoreOutbound in E. inv_ok. case_match; [case_match; inv_ok|inv_ok]; by apply grows_same.
  - unfold ResolveOutbound in E. inv_ok. case_match; inv_ok. by apply grows_same.
  - unfold Save in E. inv_ok. by apply grows_same.
Qed.

Lemma store_steps_grow s s' : rtc store_step s s' → grows s s'.
Proof using Type. induction 1; [done|]. etrans; [by eapply store_step_grows|done]. Qed.

(** C29 (safety): a delivery is recorded once.  When [AppendIngress] has appended
    the entry of a delivery, the entry is the last one of the session's log; it
    stays where it is, whatever calls follow, and no later call with the same
    delivery ID for that session changes any log. *)
Theorem delivery_recorded_once ctx e d s s1 n s2 : AppendIngress range ctx e d s = Ok (s1, (n, true)) → rtc store_step s1 s2 →
  logOf s1 (le_SessionID e) = logOf s (le_SessionID e) ++ [withSeq n e]
  ∧ logOf s1 (le_SessionID e) `prefix_of` logOf s2 (le_SessionID e)
  ∧ ∀ ctx' e' s3 r, le_SessionID e' = le_SessionID e → AppendIngress range ctx' e' d s2 = Ok (s3, r) →
      r = (0%N, false) ∧ ∀ sid, logOf s3 sid = logOf s2 sid.
Proof using Type.
  intros E Hsteps%store_steps_grow. apply AppendIngress_Ok in E as (Hl & Hr & Hd & _ & _). split_and!.
  - rewrite Hl. cbn [snd]. rewrite appendLocked_log, decide_True, cloneLogEntry_id by done. f_equal. f_equal. f_equal.
    case_decide; [done|]. by injection Hr as ->.
  - apply (gr_log _ _ Hsteps).
  - intros ctx' e' s3 r He (Hl' & Hr' & _)%AppendIngress_Ok. rewrite He, decide_True in Hr' by (by apply (gr_ingress _ _ Hsteps)).
    subst r. split; [done|]. exact Hl'.
Qed.

(** Terminal is final.  Once an actor is terminal its metadata never
    changes again, every later [AppendIngress] for its session is refused with
    [ErrActorTerminal], and so is every attempt to begin it again, which returns
    the stored metadata. *)
Theorem terminal_is_final id a s s' : reachable_store s → ms_actors s !! id = Some a → am_Lifecycle a = ActorLifecycleTerminal →
  rtc store_step s s' →
  ms_actors s' !! id = Some a
  ∧ (∀ e d, le_SessionID e = am_SessionID a → AppendIngress range None e d s' = Err ErrActorTerminal)
  ∧ (∀ m, am_ActorID m = id → metadataValidate m = Ok () → am_Lifecycle m = ActorLifecycleActive →
       BeginActor jsonMarshal sha256 jsonDecode beginFault None m s' = (s', (Some a, Err ErrActorTerminal))).
Proof using Hrange.
  intros Hs Ha Ht Hsteps. assert (consistent s') as Hc by (apply reachable_consistent; unfold reachable_store in *; by transitivity s).
  pose proof (gr_terminal _ _ (store_steps_grow _ _ Hsteps) id a Ha Ht) as Ha'. split_and!; [done|..].
  - intros e d He. unfold AppendIngress. simpl. replace (existsb _ _) with true; [done|]. symmetry. apply existsb_exists.
    exists a. split; [apply list_elem_of_In, elem_of_range; eauto|]. by rewrite !bool_decide_true.
  - intros m <- Hm Hact. unfold BeginActor. simpl. destruct (validIdentifier _ (am_ActorID m)) as [[]|err] eqn:E.
    2: { unfold metadataValidate in Hm. by rewrite E in Hm. }
    simpl. rewrite Hm, bool_decide_true by done. simpl. rewrite Ha'. unfold beginStored.
    destruct (co_actor _ Hc _ _ Ha') as [_ ->]. by rewrite decide_True.
Qed.
End stored.

(** * The directory, page by page

    [QueryActors] returns one page of the matching actors and a cursor.  Reading
    page after page with the returned cursors shows the whole directory: every
    matching actor once, in the order of the IDs. *)

(** ** Sorted lists *)

#[global] Instance actorOrder_trans : Transitive actorOrder.
Proof. intros a b c. apply string_le_trans. Qed.
#[global] Instance actorOrder_total : Total actorOrder.
Proof. intros a b. apply string_le_total. Qed.

Lemma StronglySorted_filter {A} (R : relation A) (P : A → Prop) `{∀ x, Decision (P x)} l :
  StronglySorted R l → StronglySorted R (filter P l).
Proof.
  induction 1 as [|x l Hl IH Hx]; [constructor|]. rewrite filter_cons. case_decide; [|done]. constructor; [done|].
  apply Forall_forall. intros y [_ Hy]%list_elem_of_filter. by apply (proj1 (Forall_forall _ _) Hx).
Qed.

(** The elements after [x] in a list without duplicates of IDs. *)
Lemma filter_after (l1 l2 : list ActorMetadata) x :
  StronglySorted actorOrder (l1 ++ x :: l2) → NoDup (am_ActorID <$> l1 ++ x :: l2) →
  filter (λ a, ¬ string_le (am_ActorID a) (am_ActorID x)) (l1 ++ x :: l2) = l2.
Proof.
  intros Hs Hn. rewrite filter_app, filter_none, filter_cons_False, list_filter_all; [done|..].
  - apply Forall_forall. intros a Ha Hle. rewrite fmap_app, fmap_cons in Hn. apply NoDup_app in Hn as (_ & _ & Hn).
    apply NoDup_cons in Hn as [Hx _]. apply Hx. replace (am_ActorID x) with (am_ActorID a); [by apply list_elem_of_fmap_2|].
    apply (anti_symm string_le); [done|]. apply StronglySorted_app_1_r in Hs. inversion Hs as [|? ? _ Hall]; simplify_eq.
    by apply (proj1 (Forall_forall _ _) Hall).
  - intros Hx. apply Hx. by destruct (string_le_total (am_ActorID x) (am_ActorID x)).
  - apply Forall_forall. intros a Ha Hna. apply Hna. apply (StronglySorted_app_1_elem_of _ _ _ a x Hs Ha). by left.
Qed.

(** ** The directory *)

(** The filters of a query; an empty one accepts everything. *)
Definition wanted (q : ActorMetadataQuery) (a : ActorMetadata) : Prop :=
  HasPrefix (am_ActorID a) (q_ActorIDPrefix q) = true
  ∧ (q_ChartID q = "" ∨ am_ChartID a = q_ChartID q)
  ∧ (q_Revision q = "" ∨ am_Revision a = q_Revision q)
  ∧ (q_Lifecycle q = "" ∨ am_Lifecycle a = q_Lifecycle q).

#[global] Instance wanted_dec q a : Decision (wanted q a).
Proof. unfold wanted. apply _. Defined.

(** All matching actors of the store by ID. *)
Definition directory (q : ActorMetadataQuery) (s : MemoryStore) : list ActorMetadata :=
  merge_sort actorOrder (filter (wanted q) (map_to_list (ms_actors s)).*2).

Lemma selected_true q after a : selected q after a = true ↔ ¬ string_le (am_ActorID a) after ∧ wanted q a.
Proof.
  unfold selected, wanted. rewrite negb_true_iff, !orb_false_iff, negb_false_iff, bool_decide_eq_false.
  rewrite !andb_false_iff, !negb_false_iff, !bool_decide_eq_true. tauto.
Qed.

Lemma directory_elem q s a : a ∈ directory q s ↔ wanted q a ∧ ∃ id, ms_actors s !! id = Some a.
Proof.
  unfold directory. rewrite merge_sort_Permutation, list_elem_of_filter, list_elem_of_fmap. split.
  - intros (Hw & [id b] & -> & Hb%elem_of_map_to_list). eauto.
  - intros (Hw & id & Hb). split; [done|]. exists (id, a). split; [done|]. by apply elem_of_map_to_list.
Qed.

Lemma directory_sorted q s : StronglySorted actorOrder (directory q s).
Proof. apply StronglySorted_merge_sort; apply _. Qed.

(** ** Cursors *)

Definition withAfter (after : string) (q : ActorMetadataQuery) : ActorMetadataQuery :=
  mkQuery after (q_Limit q) (q_ActorIDPrefix q) (q_ChartID q) (q_Revision q) (q_Lifecycle q).

Lemma queryValidate_limit q q' after : queryValidate q = Ok (q', after) →
  (0 < q_Limit q' ≤ MaxActorMetadataPageLimit)%Z ∧ (∀ a, wanted q' a ↔ wanted q a).
Proof.
  unfold queryValidate. intros H. apply result_bind_Ok in H as ([] & Hlim & H). apply result_bind_Ok in H as ([] & _ & H).
  apply result_bind_Ok in H as ([] & _ & H). apply fail_if_Ok, orb_false_iff in Hlim as [H1 H2].
  apply bool_decide_eq_false in H1, H2. unfold MaxActorMetadataPageLimit, DefaultActorMetadataPageLimit in *.
  assert (q' = mkQuery (q_After q) (if decide (q_Limit q = 0)%Z then 50 else q_Limit q)%Z (q_ActorIDPrefix q) (q_ChartID q)
    (q_Revision q) (q_Lifecycle q)) as ->.
  { case_decide; [by injection H as <- <-|]. repeat case_match; by simplify_eq. }
  split; [|done]. simpl. destruct (decide (q_Limit q = 0)%Z); lia.
Qed.

(** The returned cursor is accepted and continues after the actor it names. *)
Lemma queryValidate_cursor q q' after id : queryValidate q = Ok (q', after) → is_Ok (NewIdentifier id) →
  queryValidate (withAfter (ActorMetadataCursorFor id) q) = Ok (withAfter (ActorMetadataCursorFor id) q', id).
Proof.
  intros H [id' Hid]. pose proof (NewIdentifier_id _ _ Hid) as ->. unfold queryValidate in *. cbn [withAfter q_After q_Limit q_ActorIDPrefix q_ChartID q_Revision q_Lifecycle].
  apply result_bind_Ok in H as ([] & -> & H). apply result_bind_Ok in H as ([] & -> & H). apply result_bind_Ok in H as ([] & -> & H).
  cbn [mbind result_bind]. rewrite decide_False.
  2: { unfold ActorMetadataCursorFor. destruct id as [|b [|c id]]; discriminate. }
  unfold ActorMetadataCursorFor at 1. rewrite DecodeString_EncodeToString. destruct id as [|b id]; [discriminate Hid|].
  rewrite decide_True, Hid by done. do 2 f_equal. unfold withAfter. case_decide; [by injection H as <- <-|].
  repeat case_match; by simplify_eq.
Qed.

Section paging.
Variable jsonMarshal : ChartDefinition → result string.
Variable sha256 : string → string.
Variable jsonDecode : string → result (ChartDefinition * trailing).
Variable range : gmap string ActorMetadata → list ActorMetadata.
Variable beginFault : option (beginFaultStage → option error).
Hypothesis Hrange : ∀ m, range m ≡ₚ (map_to_list m).*2.

Abbreviation stored := (consistent jsonMarshal sha256 jsonDecode).
Abbreviation QueryActors := (QueryActors jsonMarshal sha256 jsonDecode range).

(** Actors have different IDs. *)
Lemma NoDup_values s : stored s → NoDup (am_ActorID <$> (map_to_list (ms_actors s)).*2).
Proof using Type.
  intros H. rewrite <- list_fmap_compose. replace ((am_ActorID ∘ snd) <$> map_to_list (ms_actors s)) with (map_to_list (ms_actors s)).*1;
    [apply NoDup_fst_map_to_list|].
  apply list_fmap_ext. intros i [k a] Hi. apply list_elem_of_lookup_2, elem_of_map_to_list in Hi. simpl.
  by destruct (co_actor _ _ _ _ H k a Hi).
Qed.

Lemma directory_NoDup q s : stored s → NoDup (am_ActorID <$> directory q s).
Proof using Type.
  intros H. unfold directory. rewrite merge_sort_Permutation. eapply sublist_NoDup; [apply (NoDup_values s H)|].
  apply fmap_sublist, sublist_filter.
Qed.


(** ** One page *)

Lemma collectActors_stored q after s l : (∀ a, a ∈ l → validateStoredActorLocked jsonMarshal sha256 jsonDecode s a = Ok ()) →
  collectActors jsonMarshal sha256 jsonDecode s q after l = Ok (filter (λ a, selected q after a = true) l).
Proof using Type.
  induction l as [|a l IH]; intros H; [done|]. cbn [collectActors]. rewrite (H a) by (by left). simpl.
  rewrite IH by (intros b Hb; apply H; by right). simpl. rewrite filter_cons.
  by destruct (selected q after a).
Qed.

(** What follows [after] in the directory. *)
Abbreviation following q s after := (filter (λ a, ¬ string_le (am_ActorID a) after) (directory q s)).

Lemma following_NoDup q s after : stored s → NoDup (am_ActorID <$> following q s after).
Proof using Type. intros H. eapply sublist_NoDup; [by apply directory_NoDup|apply fmap_sublist, sublist_filter]. Qed.

Lemma collected_following q after s : stored s →
  ∃ l, collectActors jsonMarshal sha256 jsonDecode s q after (range (ms_actors s)) = Ok l ∧ merge_sort actorOrder l = following q s after.
Proof using Hrange.
  intros H. eexists. split.
  { apply collectActors_stored. intros a [id Ha]%(elem_of_range range Hrange). by apply (co_actor _ _ _ _ H id a). }
  apply (StronglySorted_unique_strong actorOrder).
  - intros a b Ha Hb Hab Hba. rewrite merge_sort_Permutation in Ha. apply list_elem_of_filter in Ha as [_ [id Ha]%(elem_of_range range Hrange)].
    apply list_elem_of_filter in Hb as [_ (_ & id' & Hb)%directory_elem].
    destruct (co_actor _ _ _ _ H id a Ha) as [Hid _], (co_actor _ _ _ _ H id' b Hb) as [Hid' _].
    assert (id = id') as -> by (subst; by apply (anti_symm string_le)). congruence.
  - apply StronglySorted_merge_sort; apply _.
  - apply StronglySorted_filter, directory_sorted.
  - rewrite merge_sort_Permutation. unfold directory. rewrite (merge_sort_Permutation actorOrder), list_filter_filter, Hrange.
    apply Permutation_refl', list_filter_iff. intros a. by rewrite selected_true.
Qed.

(** The page after [after]: at most [limit] actors, with a cursor when there are
    more. *)
Lemma QueryActors_page q q' after s : stored s → queryValidate q = Ok (q', after) → (0 < q_Limit q')%Z →
  QueryActors None q s =
    Ok (let l := following q' s after in
        let k := Z.to_nat (q_Limit q') in
        mkPage (take k l)
          (if decide (k < length l) then match last (take k l) with Some a => ActorMetadataCursorFor (am_ActorID a) | None => "" end
           else "")).
Proof using Hrange.
  intros H Hq Hpos. unfold Memory.QueryActors. simpl. rewrite Hq. simpl. destruct (collected_following q' after s H) as (l & -> & Hl). simpl.
  rewrite Hl. case_decide as Hlen.
  - rewrite decide_True by lia. by destruct (last (take _ _)).
  - rewrite decide_False by lia. by rewrite take_ge by lia.
Qed.

(** ** All pages *)

(** A client that follows the cursors, for at most [fuel] pages. *)
Fixpoint traverse (fuel : nat) (q : ActorMetadataQuery) (s : MemoryStore) : option (result (list (list ActorMetadata))) :=
  match fuel with
  | 0 => None
  | S fuel =>
      match QueryActors None q s with
      | Err e => Some (Err e)
      | Ok page =>
          if decide (pg_Next page = "") then Some (Ok [pg_Actors page])
          else
            rest ← traverse fuel (withAfter (pg_Next page) q) s;
            Some (match rest with Ok pages => Ok (pg_Actors page :: pages) | Err e => Err e end)
      end
  end.

Lemma following_next q s after x l1 l2 : stored s → following q s after = l1 ++ x :: l2 → following q s (am_ActorID x) = l2.
Proof using Type.
  intros H Hl. pose proof (following_NoDup q s after H) as Hn. pose proof (StronglySorted_filter _ (λ a, ¬ string_le (am_ActorID a) after) _ (directory_sorted q s)) as Hs.
  assert (¬ string_le (am_ActorID x) after) as Hx.
  { assert (x ∈ following q s after) as [? _]%list_elem_of_filter; [|done]. rewrite Hl. apply elem_of_app. right. by left. }
  rewrite Hl in Hn, Hs. rewrite <- (filter_after l1 l2 x Hs Hn), <- Hl, list_filter_filter. apply list_filter_iff. intros a. split; [|tauto].
  intros Ha. split; [done|]. intros Hle. apply Ha. destruct (string_le_total (am_ActorID x) after) as [?|Hax]; [done|].
  by eapply string_le_trans.
Qed.

Lemma traverse_following fuel q q' after s : stored s → queryValidate q = Ok (q', after) → length (following q' s after) < fuel →
  ∃ pages, traverse fuel q s = Some (Ok pages) ∧ concat pages = following q' s after
    ∧ Forall (λ p, length p ≤ Z.to_nat (q_Limit q')) pages.
Proof using Hrange.
  intros H. revert q q' after. induction fuel as [|fuel IH]; intros q q' after Hq Hlen; [lia|]. cbn [traverse].
  pose proof (queryValidate_limit _ _ _ Hq) as [Hlim _]. rewrite (QueryActors_page q q' after s H Hq) by lia. cbv zeta. cbn [pg_Next pg_Actors].
  set (l := following q' s after) in *. set (k := Z.to_nat (q_Limit q')). destruct (decide (k < length l)) as [Hk|Hk].
  2: { rewrite decide_True by done. exists [take k l]. rewrite take_ge by lia. simpl. rewrite app_nil_r.
       split_and!; [done..|]. repeat constructor. lia. }
  destruct (take k l) as [|x l1 _] eqn:Et using rev_ind.
  { apply (f_equal length) in Et. rewrite length_take in Et. simpl in Et. lia. }
  rewrite last_snoc. rewrite <- (take_drop k l), Et, <- app_assoc in Hlen. rewrite !length_app in Hlen. simpl in Hlen.
  assert (l = l1 ++ x :: drop k l) as Hl by (rewrite <- (take_drop k l) at 1; by rewrite Et, <- app_assoc).
  assert (x ∈ directory q' s) as (_ & id & Hid)%directory_elem.
  { assert (x ∈ l) as [_ ?]%list_elem_of_filter; [|done]. rewrite Hl. apply elem_of_app. right. by left. }
  destruct (co_actor _ _ _ _ H id x Hid) as [_ Hv]. assert (is_Ok (NewIdentifier (am_ActorID x))) as Hok.
  { unfold validateStoredActorLocked, metadataValidate, validIdentifier in Hv. destruct (NewIdentifier (am_ActorID x)); [by eexists|done]. }
  pose proof (queryValidate_cursor q q' after (am_ActorID x) Hq Hok) as Hq2. rewrite decide_False.
  2: { unfold ActorMetadataCursorFor. destruct (am_ActorID x) as [|b [|c r]]; discriminate. }
  destruct (IH _ _ _ Hq2) as (pages & Hp & Hc & Hb).
  { change (directory (withAfter _ q') s) with (directory q' s). rewrite (following_next q' s after x l1 (drop k l) H Hl). lia. }
  change (directory (withAfter _ q') s) with (directory q' s) in Hc. rewrite (following_next q' s after x l1 (drop k l) H Hl) in Hc.
  exists ((l1 ++ [x]) :: pages). rewrite Hp. simpl. split_and!; [done|rewrite Hc, <- app_assoc; by rewrite Hl at 2|].
  constructor; [|done]. rewrite <- Et, length_take. lia.
Qed.

(** C37 (functional): paging shows the whole directory.  For every query that is
    accepted without a cursor, following the returned cursors ends after at most
    one page more than there are actors; the pages together are all matching
    actors of the store in the order of their IDs, none missing and none twice,
    and no page is longer than the limit. *)
Theorem pages_cover_directory (q q' : ActorMetadataQuery) (s : MemoryStore) :
  reachable_store jsonMarshal sha256 jsonDecode range beginFault s → queryValidate q = Ok (q', "") →
  ∃ pages, traverse (S (size (ms_actors s))) q s = Some (Ok pages)
    ∧ concat pages = directory q s
    ∧ NoDup (am_ActorID <$> concat pages)
    ∧ Forall (λ p, length p ≤ Z.to_nat (q_Limit q')) pages.
Proof using Hrange.
  intros H%reachable_consistent Hq; [|done]. pose proof (queryValidate_limit _ _ _ Hq) as [_ Hw].
  assert (directory q' s = directory q s) as Hd by (unfold directory; f_equal; by apply list_filter_iff).
  assert (following q' s "" = directory q s) as Hf.
  { rewrite Hd. apply list_filter_all, Forall_forall. intros a (_ & id & Ha)%directory_elem Hle. destruct (co_actor _ _ _ _ H id a Ha) as [_ Hv].
    unfold validateStoredActorLocked, metadataValidate, validIdentifier in Hv. destruct (am_ActorID a); [done|]. by unfold string_le in Hle. }
  destruct (traverse_following (S (size (ms_actors s))) q q' "" s H Hq) as (pages & Hp & Hc & Hb).
  { rewrite Hf. unfold directory. rewrite merge_sort_Permutation. pose proof (length_filter (wanted q) (map_to_list (ms_actors s)).*2) as Hl.
    rewrite length_fmap, length_map_to_list in Hl. lia. }
  exists pages. rewrite Hf in Hc. split_and!; [done|done| |done]. rewrite Hc. by apply directory_NoDup.
Qed.
End paging.
