(* ===== verification/Outbox.v ===== *)
(** * The durable outbox (actors/durability.go)

    A durable actor sends through processors that write the intent to storage
    before they call the transport, and record the outcome after it.  A replay
    answers sends from these records; recovery hands the sends without an
    outcome to the transport again.  Storage is the interface [OutboxStore] with
    the laws [OutboxLaws]; the in-memory store implements it. *)

From S2P Require Import Prelude Identifier Storage Values Events Datamodel Chart Interp Definitions Validate Compile Artifact.
From S2P Require Import Snapshot Instance Replay Memory Stored.
From stdpp Require Import options.

(** ** What the outbox asks of storage (log.go, DurableLog) *)

Class OutboxStore (L : Type) := {
  ob_store : OutboundMessage → L → result L;
  ob_resolve : string → string → OutboundResult → L → result L;
  ob_list : string → L → result (list OutboundMessage)
}.

(** A message with its outcome, and a list in which that of [d] is recorded. *)
Definition resolveMessage (r : OutboundResult) (m : OutboundMessage) : OutboundMessage :=
  mkOutbound (om_SessionID m) (om_DeliveryID m) (om_Request m) OutboundResolved r.
Definition resolveIn (d : string) (r : OutboundResult) (ms : list OutboundMessage) : list OutboundMessage :=
  map (λ m, if decide (om_DeliveryID m = d) then resolveMessage r m else m) ms.

Abbreviation ids ms := (map om_DeliveryID ms).

(** Every call may fail, and then changes nothing; [messages] is what the storage
    holds for a session, in the order stored. *)
Class OutboxLaws (L : Type) `{OutboxStore L} (ok : L → Prop) (messages : string → L → list OutboundMessage) : Prop := {
  ob_messages l sid : ok l → NoDup (ids (messages sid l)) ∧ Forall (λ m, om_SessionID m = sid) (messages sid l);
  ob_list_read l sid ms : ok l → ob_list sid l = Ok ms → ms = messages sid l;
  ob_store_new l m l' : ok l → om_DeliveryID m ∉ ids (messages (om_SessionID m) l) → ob_store m l = Ok l' →
    ok l' ∧ messages (om_SessionID m) l' = messages (om_SessionID m) l ++ [m];
  ob_store_known l m l' : ok l → om_DeliveryID m ∈ ids (messages (om_SessionID m) l) → ob_store m l = Ok l' →
    ok l' ∧ messages (om_SessionID m) l' = messages (om_SessionID m) l ∧ ∃ x, x ∈ messages (om_SessionID m) l ∧ outboundEqual x m = true;
  ob_resolve_known l sid d r l' : ok l → d ∈ ids (messages sid l) → ob_resolve sid d r l = Ok l' →
    ok l' ∧ messages sid l' = resolveIn d r (messages sid l);
  ob_resolve_unknown l sid d r : ok l → d ∉ ids (messages sid l) → ∃ e, ob_resolve sid d r l = Err e
}.

(** A storage whose calls do not fail where they have work to do. *)
Record dependable {L : Type} `{OutboxStore L} (ok : L → Prop) (messages : string → L → list OutboundMessage) : Prop := {
  dp_store l m : ok l → om_DeliveryID m ∉ ids (messages (om_SessionID m) l) → is_Ok (ob_store m l);
  dp_resolve l sid d r : ok l → d ∈ ids (messages sid l) → is_Ok (ob_resolve sid d r l);
  dp_list l sid : ok l → is_Ok (ob_list sid l)
}.

Definition ErrDurableIOProcessorUnavailable : error := Errorf "actors: durable outbox requires an unavailable IOProcessor".

(** [errors.Join]. *)
Definition joinErrors (a : option error) (b : error) : error :=
  match a with
  | None => b
  | Some a => mk_error (msg a +:+ String (Ascii.ascii_of_N 10) (msg b)) (isSendExecution a || isSendExecution b)
                (isHandlerUnavailable a || isHandlerUnavailable b)
  end.

(** ** Processors *)

Section outbox.
Context `{OS : OutboxStore L}.
Variable sid : string.
(** What the transport of a type answers, given the calls made so far, and
    whether it acknowledges later. *)
Variable transport : Identifier → list SendRequest → SendRequest → option error.
Variable acknowledges : Identifier → bool.
(** Whether there is a dispatcher to report to. *)
Variable dispatches : bool.

(** The storage, the table of messages of every processor, the calls of the
    transports and the reported events. *)
Record outboxWorld := mkWorld {
  ow_store : L;
  ow_tables : gmap string (gmap string OutboundMessage);
  ow_calls : list SendRequest;
  ow_reports : list Event
}.

Definition tableOf (typ : Identifier) (w : outboxWorld) : gmap string OutboundMessage := default ∅ (ow_tables w !! typ).

Definition set_message (typ : Identifier) (d : string) (m : OutboundMessage) (w : outboxWorld) : outboxWorld :=
  mkWorld (ow_store w) (<[typ := <[d := m]> (tableOf typ w)]> (ow_tables w)) (ow_calls w) (ow_reports w).
Definition set_store (l : L) (w : outboxWorld) : outboxWorld := mkWorld l (ow_tables w) (ow_calls w) (ow_reports w).

(** The table of a new processor: the messages of its type. *)
Definition newDurableProcessor (typ : Identifier) (messages : list OutboundMessage) (w : outboxWorld) : outboxWorld :=
  mkWorld (ow_store w)
    (<[typ := foldl (λ t m, if decide (sr_Type (om_Request m) = typ) then <[om_DeliveryID m := m]> t else t) ∅ messages]>
       (ow_tables w)) (ow_calls w) (ow_reports w).

Definition newDurableRecovery (types : list Identifier) (messages : list OutboundMessage) (w : outboxWorld) : outboxWorld :=
  foldl (λ w typ, newDurableProcessor typ messages w) w types.

Definition outcomeOf (err : option error) (synchronous : bool) : OutboundResult :=
  match err with
  | Some e => mkOutboundResult (msg e) (isSendExecution e) synchronous
  | None => mkOutboundResult "" false synchronous
  end.

Definition reportEvent (req : SendRequest) (r : OutboundResult) : Event :=
  let name := if or_Execution r then ErrEventExecution else ErrEventCommunication in
  mkEvent name EventPlatform (PlatformErrorValue name (Some (Errorf (or_Error r)))) (sr_SendID req) "" "" ""
    (sr_DeliveryID req +:+ ":result").

Definition report (req : SendRequest) (r : OutboundResult) (w : outboxWorld) : outboxWorld :=
  if dispatches then mkWorld (ow_store w) (ow_tables w) (ow_calls w) (ow_reports w ++ [reportEvent req r]) else w.

Definition zeroMessage : OutboundMessage :=
  mkOutbound "" "" (mkSendRequest "" "" "" "" "" "" NullValue) OutboundPending zeroResult.

Definition complete (typ : Identifier) (req : SendRequest) (err : option error) (synchronous reporting : bool) (w : outboxWorld)
    : outboxWorld :=
  let r := outcomeOf err synchronous in
  match ob_resolve sid (sr_DeliveryID req) r (ow_store w) with
  | Err _ => w
  | Ok l =>
      let m := default zeroMessage (tableOf typ w !! sr_DeliveryID req) in
      let w := set_message typ (sr_DeliveryID req) (resolveMessage r m) (set_store l w) in
      if reporting && present err then report req r w else w
  end.

(** The transport is called. *)
Definition callTransport (typ : Identifier) (req : SendRequest) (w : outboxWorld) : outboxWorld * option error :=
  (mkWorld (ow_store w) (ow_tables w) (ow_calls w ++ [req]) (ow_reports w), transport typ (ow_calls w) req).

Definition cloneRequest (r : SendRequest) : SendRequest :=
  mkSendRequest (sr_DeliveryID r) (sr_SendID r) (sr_EventSendID r) (sr_Target r) (sr_Type r) (sr_Event r) (Clone (sr_Data r)).

Definition intentOf (req : SendRequest) : OutboundMessage := mkOutbound sid (sr_DeliveryID req) req OutboundPending zeroResult.

(** [Send]. *)
Definition outboxSend (typ : Identifier) (req : SendRequest) (w : outboxWorld) : outboxWorld * option error :=
  let req := cloneRequest req in
  let m := intentOf req in
  match ob_store m (ow_store w) with
  | Err e => (w, Some e)
  | Ok l =>
      let w := set_message typ (sr_DeliveryID req) m (set_store l w) in
      let '(w, err) := callTransport typ req w in
      if acknowledges typ then
        match err with
        | Some e => (complete typ req (Some e) true false w, Some e)
        | None => (w, None)
        end
      else (complete typ req err true false w, err)
  end.

(** The callback of an acknowledging transport. *)
Definition acknowledge (typ : Identifier) (req : SendRequest) (err : option error) (w : outboxWorld) : outboxWorld :=
  complete typ req err false true w.

Definition recordedError (text : string) (execution : bool) : error := mk_error text execution false.

Definition ReplaySend (typ : Identifier) (req : SendRequest) (w : outboxWorld) : option error :=
  match tableOf typ w !! sr_DeliveryID req with
  | None => None
  | Some m =>
      if decide (om_Status m = OutboundPending) then None
      else if negb (or_Synchronous (om_Result m)) || bool_decide (or_Error (om_Result m) = "") then None
      else Some (recordedError (or_Error (om_Result m)) (or_Execution (om_Result m)))
  end.

Definition recoverSend (typ : Identifier) (req : SendRequest) (w : outboxWorld) : outboxWorld :=
  let '(w, err) := callTransport typ req w in
  if acknowledges typ then
    match err with Some e => complete typ req (Some e) false true w | None => w end
  else complete typ req err false (present err) w.

(** One message of the recovery. *)
Definition recoverOne (w : outboxWorld) (err : option error) (m : OutboundMessage) : outboxWorld * option error :=
  let typ := sr_Type (om_Request m) in
  match ow_tables w !! typ with
  | None => (w, Some (joinErrors err ErrDurableIOProcessorUnavailable))
  | Some _ =>
      match om_Status m with
      | OutboundResolved =>
          (if negb (bool_decide (or_Error (om_Result m) = "")) && negb (or_Synchronous (om_Result m))
           then report (om_Request m) (om_Result m) w else w, err)
      | OutboundPending => (recoverSend typ (om_Request m) w, err)
      end
  end.

(** The recovery that the processors of an actor share: its messages, whether
    [once] has run, and the error it left. *)
Record durableRecovery := mkRecovery { rc_messages : list OutboundMessage; rc_done : bool; rc_err : option error }.

Definition recoverAll (messages : list OutboundMessage) (w : outboxWorld) (err : option error) : outboxWorld * option error :=
  foldl (λ '(w, err) m, recoverOne w err m) (w, err) messages.

(** [Recover]: the work is done by the first call only. *)
Definition Recover (rc : durableRecovery) (w : outboxWorld) : outboxWorld * durableRecovery * option error :=
  if rc_done rc then (w, rc, rc_err rc)
  else
    let '(w, err) := recoverAll (rc_messages rc) w (rc_err rc) in
    (w, mkRecovery (rc_messages rc) true err, err).

(** [Rehydrate] calls [Recover] on the gate of every processor, until one fails. *)
Fixpoint recoverGates (gates : nat) (rc : durableRecovery) (w : outboxWorld) : outboxWorld * durableRecovery * option error :=
  match gates with
  | 0 => (w, rc, None)
  | S gates =>
      let '(w, rc, err) := Recover rc w in
      match err with Some e => (w, rc, Some e) | None => recoverGates gates rc w end
  end.

(** ** One send *)

Context {ok : L → Prop} {messages : string → L → list OutboundMessage} `{OL : !OutboxLaws L ok messages}.

(** The world is well: its storage is, and holds [ms]. *)
Definition holds (ms : list OutboundMessage) (w : outboxWorld) : Prop := ok (ow_store w) ∧ messages sid (ow_store w) = ms.

Lemma cloneRequest_id r : cloneRequest r = r.
Proof using Type. unfold cloneRequest. rewrite Clone_id. by destruct r. Qed.

Lemma resolveIn_unknown d r ms : d ∉ ids ms → resolveIn d r ms = ms.
Proof using Type.
  intros H. etransitivity; [|apply map_id]. apply map_ext_in. intros m Hm%list_elem_of_In. rewrite decide_False; [done|].
  intros <-. apply H. by apply (list_elem_of_fmap_2 om_DeliveryID).
Qed.

Lemma resolveIn_ids d r ms : ids (resolveIn d r ms) = ids ms.
Proof using Type. unfold resolveIn. rewrite map_map. apply map_ext. intros m. by case_decide. Qed.

(** [complete] records the outcome of a stored message, or the storage fails. *)
Lemma complete_known typ req err sync rep ms w : holds ms w → sr_DeliveryID req ∈ ids ms →
  let w' := complete typ req err sync rep w in
  (holds (resolveIn (sr_DeliveryID req) (outcomeOf err sync) ms) w' ∨ (holds ms w' ∧ ¬ dependable ok messages))
  ∧ ow_calls w' = ow_calls w ∧ (∀ t, is_Some (ow_tables w !! t) → is_Some (ow_tables w' !! t)).
Proof using OL.
  intros [Hok Hl] Hd. rewrite <- Hl in Hd. unfold complete.
  destruct (ob_resolve sid (sr_DeliveryID req) (outcomeOf err sync) (ow_store w)) as [l|e] eqn:El.
  - destruct (ob_resolve_known _ _ _ _ _ Hok Hd El) as [Hok' Hl']. rewrite Hl in Hl'. unfold report, set_message, set_store.
    destruct (rep && present err), dispatches; simpl; (split; [by left|]); (split; [done|]);
      intros t Ht; apply lookup_insert_is_Some'; auto.
  - split_and!; [right; split; [done|] | done | done]. intros [_ Hdep _]. destruct (Hdep _ _ _ (outcomeOf err sync) Hok Hd) as [l' E]. by rewrite El in E.
Qed.

(** What a send leaves in the storage: its message, with the outcome that [Send]
    has returned or, if that was none, the one that was acknowledged.  The outcome
    is missing where none is known yet, or where the storage has failed. *)
Definition recorded (req : SendRequest) (answer : option error) (m : OutboundMessage) : Prop :=
  om_DeliveryID m = sr_DeliveryID req ∧ om_Request m = req
  ∧ match om_Status m with
    | OutboundPending => answer = None ∨ ¬ dependable ok messages
    | OutboundResolved =>
        match answer with
        | Some e => om_Result m = outcomeOf (Some e) true
        | None => om_Result m = outcomeOf None true ∨ or_Synchronous (om_Result m) = false
        end
    end.

(** The trace of a send: it is recorded, or the storage has refused the intent. *)
Definition traced (ms : list OutboundMessage) (sent : SendRequest * option error) : Prop :=
  (∃ m, m ∈ ms ∧ recorded sent.1 sent.2 m) ∨ (sr_DeliveryID sent.1 ∉ ids ms ∧ is_Some sent.2 ∧ ¬ dependable ok messages).

(** Another message and another outcome change no trace. *)
Lemma traced_resolve d r ms x : sr_DeliveryID x.1 ≠ d → traced ms x → traced (resolveIn d r ms) x.
Proof using Type.
  intros Hne [(m & Hm & Hrec)|(Hd & Ha)]; [left | right; by rewrite resolveIn_ids]. exists m. split; [|done].
  apply list_elem_of_fmap. exists m. split; [|done]. rewrite decide_False; [done|]. destruct Hrec as [-> _]. done.
Qed.

Lemma traced_app m ms x : sr_DeliveryID x.1 ≠ om_DeliveryID m → traced ms x → traced (ms ++ [m]) x.
Proof using Type.
  intros Hne [(y & Hy & Hrec)|(Hd & Ha)]; [left | right].
  - exists y. split; [apply elem_of_app; by left|done].
  - split; [|done]. rewrite map_app, elem_of_app. intros [?|?%list_elem_of_singleton]; done.
Qed.

Lemma outboxSend_traced typ req ms w w' answer : holds ms w → sr_DeliveryID req ∉ ids ms → outboxSend typ req w = (w', answer) →
  ∃ ms', holds ms' w' ∧ traced ms' (req, answer) ∧ (∀ d, d ∈ ids ms' → d ∈ ids ms ∨ d = sr_DeliveryID req)
    ∧ ∀ x, sr_DeliveryID x.1 ≠ sr_DeliveryID req → traced ms x → traced ms' x.
Proof using OL.
  intros [Hok Hl] Hd. unfold outboxSend. rewrite cloneRequest_id. set (i := intentOf req).
  assert (om_DeliveryID i ∉ ids (messages (om_SessionID i) (ow_store w))) as Hnew by (rewrite <- Hl in Hd; exact Hd).
  destruct (ob_store i (ow_store w)) as [l|e] eqn:El.
  2: { intros [= <- <-]. exists ms. split_and!; [done| |by left|done]. right. split_and!; [done|by eexists|].
       intros [Hdep _ _]. destruct (Hdep _ i Hok Hnew) as [l E]. by rewrite El in E. }
  destruct (ob_store_new _ _ _ Hok Hnew El) as [Hok' Hl']. change (om_SessionID i) with sid in Hl'. rewrite Hl in Hl'. unfold callTransport.
  set (w1 := mkWorld _ _ (_ ++ [req]) _). assert (holds (ms ++ [i]) w1) as Hw1 by done.
  assert (∀ d, d ∈ ids (ms ++ [i]) → d ∈ ids ms ∨ d = sr_DeliveryID req) as Hids.
  { intros d. rewrite map_app, elem_of_app. intros [?|?%list_elem_of_singleton]; auto. }
  assert (∀ x, sr_DeliveryID x.1 ≠ sr_DeliveryID req → traced ms x → traced (ms ++ [i]) x) as Hold by (intros x Hx; by apply traced_app).
  assert (sr_DeliveryID req ∈ ids (ms ++ [i])) as Hin by (rewrite map_app; apply elem_of_app; right; by left).
  assert (∀ err, (err = None → True) → ∀ w2, w2 = complete typ req err true false w1 → ∃ ms', holds ms' w2 ∧ traced ms' (req, err)
    ∧ (∀ d, d ∈ ids ms' → d ∈ ids ms ∨ d = sr_DeliveryID req) ∧ ∀ x, sr_DeliveryID x.1 ≠ sr_DeliveryID req → traced ms x → traced ms' x) as Hcomp.
  { intros err _ w2 ->. destruct (complete_known typ req err true false _ w1 Hw1 Hin) as ([Hh|[Hh Hnd]] & _).
    - eexists. split; [exact Hh|]. rewrite resolveIn_ids. split_and!; [left|done|intros x Hx Ht; by apply traced_resolve, Hold].
      exists (resolveMessage (outcomeOf err true) i). split; [|split_and!; [done..|]; simpl; by destruct err; auto].
      apply list_elem_of_fmap. exists i. rewrite decide_True by done. split; [done|]. apply elem_of_app. right. by left.
    - exists (ms ++ [i]). split_and!; [done| |done|done]. left. exists i. split; [apply elem_of_app; right; by left|]. split_and!; [done..|]. by right. }
  set (err := transport _ _ _). destruct (acknowledges typ); [destruct err as [e|] eqn:Ee|]; intros [= <- <-].
  - by apply (Hcomp (Some e)).
  - exists (ms ++ [i]). split_and!; [done| |done|done]. left. exists i. split; [apply elem_of_app; right; by left|]. split_and!; [done..|]. by left.
  - by apply (Hcomp err).
Qed.

Lemma acknowledge_traced typ req err ms w : holds ms w → traced ms (req, None) →
  ∃ ms', holds ms' (acknowledge typ req err w) ∧ ids ms' = ids ms ∧ traced ms' (req, None)
    ∧ ∀ x, sr_DeliveryID x.1 ≠ sr_DeliveryID req → traced ms x → traced ms' x.
Proof using OL.
  intros Hw [(m & Hm & Hid & Hreq & Hrec)|(_ & [? ?] & _)]; [|done]. cbn [fst snd] in *.
  assert (sr_DeliveryID req ∈ ids ms) as Hd by (rewrite <- Hid; by apply (list_elem_of_fmap_2 om_DeliveryID)). unfold acknowledge.
  destruct (complete_known typ req err false true ms w Hw Hd) as ([Hh|[Hh Hnd]] & _).
  - eexists. split; [exact Hh|]. rewrite resolveIn_ids. split_and!; [done| |intros x Hx; by apply traced_resolve]. left.
    exists (resolveMessage (outcomeOf err false) m). split; [|split_and!; [done..|]; cbn; right; by destruct err].
    apply list_elem_of_fmap. exists m. by rewrite decide_True.
  - exists ms. split_and!; [done..| |done]. left. exists m. done.
Qed.

(** ** Replaying sends *)

(** The traffic of a session: requests, each through the processor of its type,
    with what [Send] answered, and acknowledgements of requests that were accepted
    by transports that acknowledge, in any order. *)
Inductive traffic (w : outboxWorld) : list (SendRequest * option error) → outboxWorld → Prop :=
| traffic_none : traffic w [] w
| traffic_send sent w1 req w2 answer :
    traffic w sent w1 → outboxSend (sr_Type req) req w1 = (w2, answer) → traffic w (sent ++ [(req, answer)]) w2
| traffic_ack sent w1 req err :
    traffic w sent w1 → (req, None) ∈ sent → acknowledges (sr_Type req) = true → traffic w sent (acknowledge (sr_Type req) req err w1).

Abbreviation sentIDs sent := (map (λ x : SendRequest * option error, sr_DeliveryID x.1) sent).

Lemma traffic_traced w sent w' : ok (ow_store w) → traffic w sent w' → NoDup (sentIDs sent) →
  (∀ x, x ∈ sent → sr_DeliveryID x.1 ∉ ids (messages sid (ow_store w))) →
  ∃ ms, holds ms w' ∧ (∀ d, d ∈ ids ms → d ∈ ids (messages sid (ow_store w)) ∨ d ∈ sentIDs sent) ∧ Forall (traced ms) sent.
Proof using OL.
  intros Hok Ht. induction Ht as [|sent w1 req w2 answer _ IH E|sent w1 req err _ IH Hin _]; intros Hn Hf.
  { exists (messages sid (ow_store w)). split_and!; [done|by left|constructor]. }
  - rewrite map_app in Hn. apply NoDup_app in Hn as (Hn & Hnew & _).
    assert (∀ x, x ∈ sent → sr_DeliveryID x.1 ≠ sr_DeliveryID req) as Hne.
    { intros x Hx Eq. apply (Hnew (sr_DeliveryID x.1)); [by apply (list_elem_of_fmap_2 (λ x, sr_DeliveryID x.1))|]. simpl. rewrite Eq. by left. }
    destruct IH as (ms & Hh & Hids & Hall); [done|intros x Hx; apply Hf, elem_of_app; by left|].
    destruct (outboxSend_traced (sr_Type req) req ms w1 w2 answer Hh) as (ms' & Hh' & Hreq & Hids' & Hold); [|done|].
    + intros [Hd|Hd]%Hids; [by apply (Hf (req, answer)); [apply elem_of_app; right; by left|]|]. apply (Hnew _ Hd). by left.
    + exists ms'. split_and!; [done| |].
      * intros d [[?|?]%Hids| ->]%Hids'; [by left|right; rewrite map_app; apply elem_of_app; by left|]. right. rewrite map_app. apply elem_of_app. right. by left.
      * apply Forall_app. split; [|constructor; [exact Hreq|constructor]]. apply Forall_forall. intros x Hx. apply Hold; [by apply Hne|]. by apply (proj1 (Forall_forall _ _) Hall).
  - destruct (IH Hn Hf) as (ms & Hh & Hids & Hall). pose proof (proj1 (Forall_forall _ _) Hall _ Hin) as Hreq.
    destruct (acknowledge_traced (sr_Type req) req err ms w1 Hh Hreq) as (ms' & Hh' & Eids & Hreq' & Hold).
    exists ms'. split_and!; [done|by rewrite Eids|]. apply Forall_forall. intros x Hx.
    destruct (decide (sr_DeliveryID x.1 = sr_DeliveryID req)) as [Eq|Hne]; [|apply Hold; [done|by apply (proj1 (Forall_forall _ _) Hall)]].
    apply list_elem_of_lookup in Hx as [k1 H1]. apply list_elem_of_lookup in Hin as [k2 H2].
    assert (k1 = k2) as <-; [|rewrite H1 in H2; by injection H2 as ->]. eapply NoDup_lookup; [exact Hn| |]; rewrite list_lookup_fmap; [by rewrite H1|]. rewrite H2. simpl. by rewrite Eq.
Qed.

(** The tables of a new process. *)
Lemma newDurableRecovery_table types ms w typ : typ ∈ types →
  tableOf typ (newDurableRecovery types ms w) = tableOf typ (newDurableProcessor typ ms w).
Proof using Type.
  unfold newDurableRecovery. revert w. induction types as [|t types IH] using rev_ind; intros w Hin; [by apply elem_of_nil in Hin|].
  rewrite foldl_snoc. unfold tableOf at 1. simpl. destruct (decide (t = typ)) as [->|Hne].
  - rewrite lookup_insert_eq. unfold tableOf. simpl. by rewrite lookup_insert_eq.
  - rewrite lookup_insert_ne by done. apply IH. apply elem_of_app in Hin as [?|Hin]; [done|]. by apply list_elem_of_singleton in Hin.
Qed.

Lemma newDurableProcessor_lookup typ ms w m : NoDup (ids ms) → m ∈ ms → sr_Type (om_Request m) = typ →
  tableOf typ (newDurableProcessor typ ms w) !! om_DeliveryID m = Some m.
Proof using Type.
  intros Hn Hm Ht. unfold tableOf. simpl. rewrite lookup_insert_eq. simpl. generalize (∅ : gmap string OutboundMessage).
  revert Hn Hm. induction ms as [|x ms IH] using rev_ind; intros Hn Hm t0; [by apply elem_of_nil in Hm|].
  rewrite map_app in Hn. apply NoDup_app in Hn as (Hn & Hx & _). rewrite foldl_snoc. apply elem_of_app in Hm as [Hm|Hm].
  - case_decide; [|by apply IH]. rewrite lookup_insert_ne; [by apply IH|]. intros E. apply (Hx (om_DeliveryID m)); [by apply (list_elem_of_fmap_2 om_DeliveryID)|].
    rewrite <- E. by left.
  - apply list_elem_of_singleton in Hm as ->. rewrite decide_True by done. apply lookup_insert_eq.
Qed.

(** The replay's answer is the recorded one: same text, same class. *)
Definition sameAnswer (live replayed : option error) : Prop :=
  match live, replayed with
  | None, None => True
  | Some e, Some e' => msg e' = msg e ∧ isSendExecution e' = isSendExecution e
  | _, _ => False
  end.

Definition hasText (answer : option error) : Prop := match answer with Some e => msg e ≠ "" | None => True end.

(** An outcome of the delivery is stored. *)
Definition resolvedIn (ms : list OutboundMessage) (d : string) : Prop := ∃ m, m ∈ ms ∧ om_DeliveryID m = d ∧ om_Status m = OutboundResolved.

Lemma ReplaySend_listed typ req ms types w m : NoDup (ids ms) → m ∈ ms → om_DeliveryID m = sr_DeliveryID req → sr_Type (om_Request m) = typ → typ ∈ types →
  ReplaySend typ req (newDurableRecovery types ms w) =
    match om_Status m with
    | OutboundPending => None
    | OutboundResolved =>
        if negb (or_Synchronous (om_Result m)) || bool_decide (or_Error (om_Result m) = "") then None
        else Some (recordedError (or_Error (om_Result m)) (or_Execution (om_Result m)))
    end.
Proof using Type.
  intros Hn Hm Hid Ht Htyp. unfold ReplaySend. rewrite newDurableRecovery_table, <- Hid by done.
  rewrite (newDurableProcessor_lookup _ ms w m Hn Hm) by done. by destruct (om_Status m).
Qed.

Lemma newDurableProcessor_unlisted typ ms w d : d ∉ ids ms → tableOf typ (newDurableProcessor typ ms w) !! d = None.
Proof using Type.
  intros Hd. unfold tableOf. simpl. rewrite lookup_insert_eq. simpl. revert Hd. induction ms as [|x ms IH] using rev_ind; intros Hd; [done|].
  rewrite map_app, elem_of_app in Hd. rewrite foldl_snoc. case_decide; [|apply IH; intros Hin; apply Hd; by left]. rewrite lookup_insert_ne; [apply IH; intros Hin; apply Hd; by left|].
  intros <-. apply Hd. right. by left.
Qed.

(** What a rebuilt processor answers to a traced send. *)
Lemma ReplaySend_traced x ms types w : NoDup (ids ms) → traced ms x → hasText x.2 → sr_Type x.1 ∈ types →
  let replayed := ReplaySend (sr_Type x.1) x.1 (newDurableRecovery types ms w) in
  (x.2 = None ∨ resolvedIn ms (sr_DeliveryID x.1) → sameAnswer x.2 replayed)
  ∧ (¬ resolvedIn ms (sr_DeliveryID x.1) → replayed = None)
  ∧ (dependable ok messages → sameAnswer x.2 replayed).
Proof using Type.
  destruct x as [req answer]. unfold traced. cbn [fst snd]. intros Hn [(m & Hm & Hid & Hreq & Hrec)|(Hd & [e ->] & Hnd)] Htext Htyp.
  - rewrite (ReplaySend_listed _ req ms types w m Hn Hm Hid) by (by rewrite ?Hreq).
    assert (om_Status m = OutboundPending → ¬ resolvedIn ms (sr_DeliveryID req)) as Hpend.
    { intros Hs (y & Hy & Ey & Hsy). rewrite <- Hid in Ey. apply list_elem_of_lookup in Hy as [k1 H1]. apply list_elem_of_lookup in Hm as [k2 H2].
      assert (k1 = k2) as <- by (eapply NoDup_lookup; [exact Hn| |]; rewrite list_lookup_fmap; [by rewrite H1|rewrite H2; simpl; by rewrite Ey]). congruence. }
    destruct (om_Status m) eqn:Es.
    + split_and!; [intros [->|?]; [done|by destruct Hpend]|done|]. intros Hdep. destruct Hrec as [->|?]; [done|by destruct (H Hdep)].
    + assert (sameAnswer answer (if negb (or_Synchronous (om_Result m)) || bool_decide (or_Error (om_Result m) = "") then None
        else Some (recordedError (or_Error (om_Result m)) (or_Execution (om_Result m))))) as Hsame.
      { destruct answer as [e|]; [rewrite Hrec; simpl; by rewrite bool_decide_false|]. destruct Hrec as [->| ->]; done. }
      split_and!; [done| |done]. intros H. destruct H. by exists m.
  - assert (ReplaySend (sr_Type req) req (newDurableRecovery types ms w) = None) as ->.
    { unfold ReplaySend. by rewrite newDurableRecovery_table, newDurableProcessor_unlisted. }
    split_and!; [|done|by intros ?%Hnd]. intros [?|(y & Hy & Ey & _)]; [done|]. destruct Hd. rewrite <- Ey. by apply (list_elem_of_fmap_2 om_DeliveryID).
Qed.


(** ** Recovery *)

Abbreviation isPending m := (om_Status m = OutboundPending).

Lemma elem_resolveIn d r ms m : m ∈ resolveIn d r ms → isPending m → m ∈ ms ∧ om_DeliveryID m ≠ d.
Proof using Type.
  intros (x & -> & Hx)%list_elem_of_fmap Hp. by case_decide.
Qed.

(** Sending again what has no outcome. *)
Lemma recoverSend_step req ms w typ : holds ms w → sr_DeliveryID req ∈ ids ms →
  ∃ ms', holds ms' (recoverSend typ req w) ∧ ow_calls (recoverSend typ req w) = ow_calls w ++ [req] ∧ ids ms' = ids ms
    ∧ (∀ t, is_Some (ow_tables w !! t) → is_Some (ow_tables (recoverSend typ req w) !! t))
    ∧ (acknowledges typ = false → dependable ok messages → ∃ r, ms' = resolveIn (sr_DeliveryID req) r ms).
Proof using OL.
  intros Hw Hd. unfold recoverSend, callTransport. set (w1 := mkWorld _ _ _ _). assert (holds ms w1) as Hw1 by exact Hw.
  destruct (acknowledges typ); [destruct (transport _ _ _) as [e|]|].
  - destruct (complete_known typ req (Some e) false true ms w1 Hw1 Hd) as ([Hh|[Hh _]] & Hc & Ht).
    + eexists. split; [exact Hh|]. rewrite resolveIn_ids. by split_and!.
    + exists ms. by split_and!.
  - exists ms. by split_and!.
  - set (err := transport _ _ _). destruct (complete_known typ req err false (present err) ms w1 Hw1 Hd) as ([Hh|[Hh Hnd]] & Hc & Ht).
    + eexists. split; [exact Hh|]. rewrite resolveIn_ids. split_and!; eauto.
    + exists ms. by split_and!; [..|intros _ ?%Hnd].
Qed.

Lemma report_same req r ms w : holds ms w →
  holds ms (report req r w) ∧ ow_calls (report req r w) = ow_calls w ∧ ow_tables (report req r w) = ow_tables w.
Proof using Type. intros Hw. unfold report. by destruct dispatches. Qed.

Lemma Recover_loop todo cur w err : holds cur w → (∀ m, m ∈ todo → om_DeliveryID m ∈ ids cur ∧ sr_DeliveryID (om_Request m) = om_DeliveryID m) →
  (∀ m, m ∈ todo → is_Some (ow_tables w !! sr_Type (om_Request m))) →
  ∃ cur' w', recoverAll todo w err = (w', err) ∧ holds cur' w'
    ∧ ow_calls w' = ow_calls w ++ map om_Request (filter (λ m : OutboundMessage, isPending m) todo) ∧ ids cur' = ids cur
    ∧ ((∀ t, acknowledges t = false) → dependable ok messages →
       (∀ m, m ∈ cur → isPending m → ∃ x, x ∈ todo ∧ isPending x ∧ om_DeliveryID x = om_DeliveryID m) → ∀ m, m ∈ cur' → ¬ isPending m).
Proof using OL.
  unfold recoverAll. revert cur w. induction todo as [|x todo IH]; intros cur w Hw Hin Htab.
  { exists cur, w. simpl. rewrite app_nil_r. split_and!; [done..|]. intros _ _ Hp m Hm Hpm.
    by destruct (Hp m Hm Hpm) as (? & ?%elem_of_nil & _). }
  destruct (Hin x (list_elem_of_here _ _)) as [Hx Hrq]. destruct (Htab x (list_elem_of_here _ _)) as [tx Ex].
  cbn [foldl]. unfold recoverOne at 2. rewrite Ex. rewrite filter_cons. destruct (om_Status x) eqn:Es.
  - rewrite decide_True by done. destruct (recoverSend_step (om_Request x) cur w (sr_Type (om_Request x)) Hw) as (cur1 & Hw1 & Hc1 & Hids1 & Ht1 & Hr1);
      [by rewrite Hrq|].
    destruct (IH cur1 _ Hw1) as (cur' & w' & -> & Hw' & Hc' & Hids' & Hp').
    + intros m Hm. rewrite Hids1. apply Hin. by right.
    + intros m Hm. apply Ht1, Htab. by right.
    + exists cur', w'. split; [done|]. split; [done|]. rewrite Hc', Hc1, <- app_assoc. split; [done|]. split; [congruence|].
      intros Hack Hdep Hp. apply (Hp' Hack Hdep). intros m Hm Hpm. destruct (Hr1 (Hack _) Hdep) as [r ->].
      apply elem_resolveIn in Hm as [Hm Hne]; [|done]. destruct (Hp m Hm Hpm) as (y & Hy & Hpy & Eid).
      apply elem_of_cons in Hy as [->|Hy]; [|eauto]. exfalso. apply Hne. by rewrite Hrq.
  - rewrite decide_False by done.
    set (w1 := if negb (bool_decide (or_Error (om_Result x) = "")) && negb (or_Synchronous (om_Result x))
               then report (om_Request x) (om_Result x) w else w).
    assert (holds cur w1 ∧ ow_calls w1 = ow_calls w ∧ ow_tables w1 = ow_tables w) as (Hw1 & Hc1 & Ht1).
    { unfold w1. destruct (negb _ && negb _); [by apply report_same|done]. }
    destruct (IH cur w1 Hw1) as (cur' & w' & -> & Hw' & Hc' & Hids' & Hp').
    + intros m Hm. apply Hin. by right.
    + intros m Hm. rewrite Ht1. apply Htab. by right.
    + exists cur', w'. split_and!; [done..|by rewrite Hc', Hc1|done|]. intros Hack Hdep Hp. apply (Hp' Hack Hdep). intros m Hm Hpm.
      destruct (Hp m Hm Hpm) as (y & Hy & Hpy & Eid). apply elem_of_cons in Hy as [->|Hy]; [congruence|eauto].
Qed.

Lemma recoverGates_done gates rc w : rc_done rc = true → rc_err rc = None → recoverGates gates rc w = (w, rc, None).
Proof using Type. intros Hd He. induction gates as [|n IH]; simpl; [done|]. unfold Recover. by rewrite Hd, He, IH. Qed.

(** C31 (liveness): recovery finishes what was begun, once.  When every type of the
    outbox has a processor, [Rehydrate] calls [Recover] on the gates of all
    processors without an error, and however many there are, exactly the requests
    without an outcome are handed to the transports, each once, in the order in
    which they were stored, and no others; no message is lost or added; and when
    the transports answer at once and the storage does not fail, no message is left
    without an outcome. *)
Theorem recovery_finishes_outbox (gates : nat) (ms : list OutboundMessage) (w : outboxWorld) :
  ok (ow_store w) → messages sid (ow_store w) = ms →
  Forall (λ m, sr_DeliveryID (om_Request m) = om_DeliveryID m) ms →
  Forall (λ m, is_Some (ow_tables w !! sr_Type (om_Request m))) ms →
  ∃ w' rc, recoverGates (S gates) (mkRecovery ms false None) w = (w', rc, None)
    ∧ ow_calls w' = ow_calls w ++ map om_Request (filter (λ m : OutboundMessage, om_Status m = OutboundPending) ms)
    ∧ ids (messages sid (ow_store w')) = ids ms
    ∧ ((∀ typ, acknowledges typ = false) → dependable ok messages → Forall (λ m, om_Status m = OutboundResolved) (messages sid (ow_store w'))).
Proof using OL.
  intros Hok Hl Hreq Htab. destruct (Recover_loop ms ms w None) as (ms' & w' & E & [_ Hl'] & Hc & Hids & Hp); [done|..].
  - intros m Hm. split; [by apply (list_elem_of_fmap_2 om_DeliveryID)|]. by apply (proj1 (Forall_forall _ _) Hreq).
  - intros m Hm. by apply (proj1 (Forall_forall _ _) Htab).
  - exists w', (mkRecovery ms true None). rewrite Hl'. split_and!; [|done..|].
    + cbn [recoverGates]. unfold Recover. cbn [rc_done rc_messages rc_err]. rewrite E. by apply recoverGates_done.
    + intros Hack Hdep. apply Forall_forall. intros m Hm.
      destruct (om_Status m) eqn:Es; [|done]. exfalso. apply (Hp Hack Hdep) with m; [|done..]. intros x Hx Hpx. by exists x.
Qed.
End outbox.

(** ** The in-memory store is such a storage *)

#[global] Instance MemoryOutbox : OutboxStore MemoryStore := {|
  ob_store := StoreOutbound None;
  ob_resolve := ResolveOutbound None;
  ob_list := Outbounds None
|}.

Section memory_outbox.
Variable jsonMarshal : ChartDefinition → result string.
Variable sha256 : string → string.
Variable jsonDecode : string → result (ChartDefinition * trailing).

Abbreviation stored := (consistent jsonMarshal sha256 jsonDecode).
Abbreviation order s sid := (default [] (ms_outboundOrder s !! sid)).
Abbreviation table s sid := (default ∅ (ms_outbounds s !! sid)).

Lemma Outbounds_order s sid ms : stored s → Outbounds None sid s = Ok ms → ids ms = order s sid.
Proof using Type. intros H E. destruct (Outbounds_ids _ _ _ s sid H) as (ms' & E' & Hid & _). rewrite E in E'. by injection E' as <-. Qed.

(** Entries of the table and of the list. *)
Lemma Outbounds_table s sid ms d : stored s → Outbounds None sid s = Ok ms → d ∈ ids ms → ∃ m, m ∈ ms ∧ table s sid !! d = Some m ∧ om_DeliveryID m = d.
Proof using Type.
  intros H E Hd. rewrite (Outbounds_order s sid ms H E) in Hd. pose proof Hd as Hd'. apply (co_listed _ _ _ s H) in Hd as [m Hm].
  exists m. split; [|split; [done|by apply (co_message _ _ _ s H sid d)]]. unfold Outbounds in E. simpl in E. injection E as <-.
  apply list_elem_of_fmap. exists d. split; [|done]. by rewrite Hm, cloneOutbound_id.
Qed.

(** What the store holds for a session. *)
Definition memoryMessages (sid : string) (s : MemoryStore) : list OutboundMessage :=
  match Outbounds None sid s with Ok ms => ms | Err _ => [] end.

Lemma Outbounds_messages s sid : Outbounds None sid s = Ok (memoryMessages sid s).
Proof using Type. reflexivity. Qed.

Lemma StoreOutbound_new s m : stored s → om_DeliveryID m ∉ ids (memoryMessages (om_SessionID m) s) →
  ∃ s', StoreOutbound None m s = Ok s' ∧ Outbounds None (om_SessionID m) s' = Ok (memoryMessages (om_SessionID m) s ++ [m]).
Proof using Type.
  intros H Hd. pose proof (Outbounds_messages s (om_SessionID m)) as E. rewrite (Outbounds_order s _ _ H E) in Hd.
  assert (table s (om_SessionID m) !! om_DeliveryID m = None) as Hnone.
  { apply eq_None_not_Some. intros Hs. apply Hd. by apply (co_listed _ _ _ s H). }
  unfold StoreOutbound. simpl. rewrite cloneOutbound_id, Hnone. eexists. split; [done|]. unfold Outbounds. simpl. rewrite !lookup_insert_eq. simpl. f_equal.
  rewrite map_app. unfold memoryMessages. simpl. f_equal.
  - apply map_ext_in. intros d Hin%list_elem_of_In. rewrite lookup_insert_ne; [done|]. intros <-. by apply Hd.
  - simpl. by rewrite lookup_insert_eq, cloneOutbound_id.
Qed.

Lemma ResolveOutbound_known s sid d r : stored s → d ∈ ids (memoryMessages sid s) →
  ∃ s', ResolveOutbound None sid d r s = Ok s' ∧ Outbounds None sid s' = Ok (resolveIn d r (memoryMessages sid s)).
Proof using Type.
  intros H Hd. pose proof (Outbounds_messages s sid) as E. destruct (Outbounds_table s _ _ _ H E Hd) as (x & Hx & Ht & Hid).
  unfold ResolveOutbound. simpl. rewrite Ht. eexists. split; [done|]. unfold memoryMessages, Outbounds. simpl. rewrite lookup_insert_eq. simpl. f_equal.
  unfold resolveIn. rewrite map_map. apply map_ext_in. intros k Hk%list_elem_of_In.
  apply (co_listed _ _ _ s H) in Hk as [y Hy]. destruct (co_message _ _ _ s H sid k y Hy) as [_ Hky]. rewrite Hy. simpl. rewrite !cloneOutbound_id.
  destruct (decide (om_DeliveryID y = d)) as [Ey|Hne].
  - assert (k = d) as -> by congruence. rewrite Ht in Hy. injection Hy as ->. by rewrite lookup_insert_eq.
  - rewrite lookup_insert_ne, Hy by congruence. done.
Qed.

#[local] Opaque memoryMessages.

#[global] Instance MemoryOutbox_laws : OutboxLaws MemoryStore stored memoryMessages.
Proof using Type.
  split.
  - intros s sid H. pose proof (Outbounds_messages s sid) as E. destruct (Outbounds_ids _ _ _ s sid H) as (ms & E' & Hid & Hs).
    rewrite E in E'. injection E' as ->. split; [rewrite Hid; apply H|done].
  - intros s sid ms H E. change (Outbounds None sid s = Ok ms) in E. rewrite Outbounds_messages in E. by injection E as ->.
  - intros s m s' H Hd Es. destruct (StoreOutbound_new s m H Hd) as (s1 & E1 & E2). change (StoreOutbound None m s = Ok s') in Es.
    rewrite Es in E1. injection E1 as <-. split; [by eapply StoreOutbound_consistent|]. rewrite Outbounds_messages in E2. by injection E2 as ->.
  - intros s m s' H Hd Es. pose proof (Outbounds_messages s (om_SessionID m)) as E. destruct (Outbounds_table s _ _ _ H E Hd) as (x & Hx & Ht & _).
    simpl in Es. unfold StoreOutbound in Es. simpl in Es. rewrite cloneOutbound_id, Ht in Es. destruct (outboundEqual x m) eqn:Eq; [|done].
    injection Es as <-. split_and!; [done|done|by exists x].
  - intros s sid d r s' H Hd Es. destruct (ResolveOutbound_known s sid d r H Hd) as (s1 & E1 & E2). change (ResolveOutbound None sid d r s = Ok s') in Es.
    rewrite Es in E1. injection E1 as <-. split; [by eapply ResolveOutbound_consistent|]. rewrite Outbounds_messages in E2. by injection E2 as ->.
  - intros s sid d r H Hd. pose proof (Outbounds_messages s sid) as E. rewrite (Outbounds_order s _ _ H E) in Hd. simpl. unfold ResolveOutbound. simpl.
    destruct (table s sid !! d) as [m|] eqn:Em; [|eauto]. destruct Hd. by apply (co_listed _ _ _ s H).
Qed.

Lemma MemoryOutbox_dependable : dependable stored memoryMessages.
Proof using Type.
  split.
  - intros s m H Hd. destruct (StoreOutbound_new s m H Hd) as (s' & E & _). by exists s'.
  - intros s sid d r H Hd. destruct (ResolveOutbound_known s sid d r H Hd) as (s' & E & _). by exists s'.
  - intros s sid _. eexists. reflexivity.
Qed.
End memory_outbox.
