(* ===== verification/Lifetime.v ===== *)
(** * The lifetime of an instance (instance.go)

    What holds of an instance between two requests, whatever requests it has
    served, whatever its hooks, processors and handlers answered, and however
    often it has been checkpointed and restored. *)

From S2P Require Import Prelude Identifier Values Events Datamodel Chart Tree Legal Interp Actions Effects Entry EntryCorrect EntryConsistent EntryTotal Domain LegalStep Steps StepCorrect Macrostep Evolution Examples Execution Completion Definitions Validate Layout Compile Accepted Authoring Compiled Declared Snapshot Restored Typed Instance.
From stdpp Require Import options.

Section lifetime.
Context `{SS : SnapshotSession}.
Variable cc : compiledChart.
Abbreviation c := (cc_chart cc).

(** ** Invariants of the interpreter *)

(** While the instance runs, and until it has left its states. *)
Record healthy (ip : interpretation) : Prop := {
  hl_configured : well_configured c ip;
  hl_invocations : invocations_ok c ip;
  hl_pending : pending_ok ip;
  hl_channels : channels_bounded ip
}.

(** Once it has left its states. *)
Record exited (ip : interpretation) : Prop := {
  ex_configuration : configuration ip = ∅;
  ex_history : history_ok c (historyValue ip);
  ex_invocations : invocations_ok c ip;
  ex_pending : pending ip = ∅;
  ex_channels : channels_bounded ip
}.

Lemma evolves_effects_ok env ip ip' : evolves env ip ip' →
  pending_ok ip ∧ channels_bounded ip → pending_ok ip' ∧ channels_bounded ip'.
Proof.
  intros Hev. induction Hev as [|ip ip1 ip' Hm _ IH]; [done|]. intros [H1 H2]. apply IH.
  split; [by eapply move_pending_ok | by eapply move_channels_bounded].
Qed.

(** Content and the like: the control part is kept. *)
Lemma healthy_kept env ip ip' : control_of ip' = control_of ip → evolves env ip ip' → healthy ip → healthy ip'.
Proof.
  intros Hk Hev [H1 H2 H3 H4]. destruct (evolves_effects_ok _ _ _ Hev (conj H3 H4)). split; [| |done..].
  - eapply well_configured_core, H1. symmetry. by apply core_control.
  - eapply invocations_ok_part, H2. by apply part_control.
Qed.

Lemma running_kept ip ip' : control_of ip' = control_of ip → running ip' = running ip.
Proof. unfold running. by intros ->. Qed.

Lemma healthy_running b ip : healthy ip → healthy (set_running b ip).
Proof. intros [H1 H2 H3 H4]. by split. Qed.

Lemma exitInterpreter_running env ip : running (exitInterpreter c env ip) = running ip.
Proof. destruct (exitInterpreter_flags c env ip) as [[= ? _] _]. done. Qed.

Lemma exitAll_core env l ip : (∀ x, x ∈ l → x < length (c_order c)) →
  core (foldl (λ ip s, exitState c env s ip) ip l) = (configuration ip ∖ list_to_set l, historyValue ip).
Proof. intros H. by rewrite core_exitAll. Qed.

Lemma exitInterpreter_exited env ip :
  (∀ x, x ∈ configuration ip → x < length (c_order c)) → history_ok c (historyValue ip) →
  invocations_ok c ip → pending_ok ip → channels_bounded ip → exited (exitInterpreter c env ip).
Proof using Type.
  intros Hv Hh Hok Hp Hch.
  pose proof (exitAll_core env (sort_desc (configuration ip)) ip) as Hcore.
  specialize (Hcore ltac:(intros x Hx%elem_of_sort_desc; auto)). unfold core in Hcore. injection Hcore as HC HV.
  pose proof (exitAll_ok c env (sort_desc (configuration ip)) ip Hok) as Hinv.
  assert (evolves env ip (exitInterpreter c env ip)) as Hev by apply moving_exitInterpreter.
  destruct (evolves_effects_ok _ _ _ Hev (conj Hp Hch)) as [_ Hch'].
  split; [|by rewrite <- HV in Hh | exact Hinv | done | done].
  etrans; [exact HC|]. apply set_eq. intros x. rewrite elem_of_difference, elem_of_list_to_set, elem_of_sort_desc. set_solver.
Qed.

Hypothesis Hiw : invokes_wf c.
Variable hrank : nat → nat.
Hypothesis Hwf : wf_chart c hrank.

Lemma step_healthy env ip ip' : step c env ip ip' → healthy ip → healthy ip'.
Proof using Hwf Hiw.
  intros Hs [H1 H2 H3 H4]. destruct (evolves_effects_ok env ip ip') as [H3' H4']; [by apply (step_evolves c) | done |].
  split; [by eapply step_well_configured | by eapply step_invocations | done | done].
Qed.

Lemma steps_healthy env ip ip' : rtc (step c env) ip ip' → healthy ip → healthy ip'.
Proof using Hwf Hiw. intros Hs. induction Hs as [|ip ip1 ip' Hs _ IH]; [done|]. intros H. by eapply IH, step_healthy. Qed.

Lemma healthy_exits env ip : healthy ip → exited (exitInterpreter c env ip).
Proof using Hwf Hiw.
  intros [[HL HH] H2 H3 H4]. apply exitInterpreter_exited; [|done..]. intros x Hx. by apply (legal_valid _ _ HL).
Qed.

Lemma exited_exits env ip : exited ip → exited (exitInterpreter c env ip).
Proof using Hwf Hiw.
  intros [H1 H2 H3 H4 H5]. apply exitInterpreter_exited; [|done | done | |done]; [rewrite H1; set_solver|].
  intros n rec. by rewrite H4, lookup_empty.
Qed.

(** ** Draining *)

Lemma drainExternal_steps env n fuel ip ip' : drainExternal cc env n fuel ip = Some ip' → rtc (step c env) ip ip'.
Proof using Type.
  revert ip. induction n as [|n IH]; intros ip; simpl;
    (destruct (running ip && negb (bool_decide (externalQueue ip = []))); [|intros [= <-]; apply rtc_refl]); [done|].
  intros ([ip1 b] & H1%processNextExternal_steps & H)%bind_Some. etrans; [exact H1|].
  destruct b; [by apply IH | injection H as <-; apply rtc_refl].
Qed.

Lemma drainInternal_steps env fuel ip ip' : drainInternalMacrostep cc env fuel ip = Some ip' → rtc (step c env) ip ip'.
Proof using Type.
  unfold drainInternalMacrostep. destruct (_ || _); [intros [= <-]; apply rtc_refl | apply runToStable_steps].
Qed.

Lemma drain_steps env fuel ip ip' : drainQueuedEvents cc env fuel ip = Some ip' → rtc (step c env) ip ip'.
Proof using Type.
  unfold drainQueuedEvents. intros (ip1 & H1%drainExternal_steps & H2%drainInternal_steps)%bind_Some. by etrans.
Qed.

Lemma processNextExternal_settled env fuel ip ip' b :
  processNextExternal c env fuel ip = Some (ip', b) → running ip = true → externalQueue ip ≠ [] →
  b = true ∧ (running ip' = true → internalQueue ip' = [] ∧ statesToInvoke ip' = ∅).
Proof using Type.
  unfold processNextExternal. intros H Hr Hq. rewrite Hr in H. destruct (externalQueue ip) as [|ev queue]; [done|].
  apply bind_Some in H as (ip1 & _ & H). apply bind_Some in H as (ip2 & H & [= <- <-]). split; [done|].
  by eapply runToStable_settled.
Qed.

(** The external queue is worked off. *)
Lemma drainExternal_empty env n fuel ip ip' : drainExternal cc env n fuel ip = Some ip' → running ip' = true →
  externalQueue ip' = []
  ∧ (statesToInvoke ip = ∅ → statesToInvoke ip' = ∅) ∧ (internalQueue ip = [] → internalQueue ip' = []).
Proof using Type.
  revert ip. induction n as [|n IH]; intros ip; simpl.
  - destruct (running ip && _) eqn:E; [done|]. intros [= <-] Hr. rewrite Hr in E. simpl in E.
    apply negb_false_iff, bool_decide_eq_true in E. done.
  - destruct (running ip && _) eqn:E.
    + apply andb_true_iff in E as [Hr Hq%negb_true_iff%bool_decide_eq_false].
      intros ([ip1 b] & H1 & H)%bind_Some Hr'. destruct (processNextExternal_settled _ _ _ _ _ H1 Hr Hq) as [-> Hs].
      assert (running ip1 = true) as Hr1.
      { destruct (running ip1) eqn:Hr1; [done|]. destruct n; simpl in H; rewrite Hr1 in H; simpl in H; congruence. }
      destruct (Hs Hr1) as [Hi Hv]. destruct (IH _ H Hr') as (? & ? & ?). auto.
    + intros [= <-] Hr. rewrite Hr in E. simpl in E. apply negb_false_iff, bool_decide_eq_true in E. done.
Qed.

(** What a drained interpreter that still runs has left to do. *)
Lemma drain_settled env fuel ip ip' : drainQueuedEvents cc env fuel ip = Some ip' → running ip' = true →
  internalQueue ip' = [] ∧ (statesToInvoke ip = ∅ → statesToInvoke ip' = ∅)
  ∧ (internalQueue ip = [] → externalQueue ip' = []).
Proof using Type.
  unfold drainQueuedEvents. intros (ip1 & H1 & H2)%bind_Some Hr. unfold drainInternalMacrostep in H2.
  destruct (running ip1) eqn:Hr1; simpl in H2; [|injection H2 as <-; congruence].
  destruct (drainExternal_empty _ _ _ _ _ H1 Hr1) as (He & Hv & Hi). case_bool_decide as Hq.
  - injection H2 as <-. auto.
  - destruct (runToStable_settled _ _ _ _ _ H2 Hr) as [H3 H4]. split_and!; [done | done | intros; tauto].
Qed.

(** ** What every request leaves behind *)

Section requests.
Variable rt : runtime.

(** Between two requests: the interpreter is healthy, or has left its states;
    nothing is waiting in the internal queue and no invocation is due; the
    published configuration is the current one. *)
Record settled (i : Instance) : Prop := {
  sd_running : running (in_ip i) = true →
    healthy (in_ip i) ∧ internalQueue (in_ip i) = [] ∧ statesToInvoke (in_ip i) = ∅;
  sd_stopped : running (in_ip i) = false → exited (in_ip i);
  sd_published : in_config i = activeStates c (in_ip i)
}.

(** During a request. *)
Definition busy (ip : interpretation) : Prop := healthy ip ∧ (running ip = true → statesToInvoke ip = ∅).
Definition handling (i : Instance) : Prop := busy (in_ip i) ∨ (running (in_ip i) = false ∧ exited (in_ip i)).

Lemma drain_stopped env fuel ip ip' : running ip = false → drainQueuedEvents cc env fuel ip = Some ip' → ip' = ip.
Proof using Type.
  intros Hr. unfold drainQueuedEvents. destruct fuel; simpl; rewrite Hr; simpl; unfold drainInternalMacrostep;
    rewrite Hr; simpl; congruence.
Qed.

Lemma drain_handling fuel i j : drainInstance cc rt fuel i = Some j → handling i → handling j.
Proof using Hwf Hiw.
  unfold drainInstance. intros (ip & H & [= <-])%bind_Some [[Hh Hv]|[Hr Hex]]; simpl.
  - left. simpl. split; [eapply steps_healthy, Hh; by eapply drain_steps|]. intros Hr.
    destruct (running (in_ip i)) eqn:Hr0; [by apply (drain_settled _ _ _ _ H Hr), Hv|].
    apply drain_stopped in H as ->; [congruence | done].
  - right. apply drain_stopped in H as ->; done.
Qed.

Lemma finishNaturalCompletion_frame i : 
  in_ip (finishNaturalCompletion rt i).1 = in_ip i ∧ in_config (finishNaturalCompletion rt i).1 = in_config i.
Proof using Type.
  unfold finishNaturalCompletion. destruct (completed (in_ip i)); [|done]. simpl.
  destruct (in_deferCompletionHook i); [done|]. destruct (in_completionHookCalled i); [done|].
  destruct (rt_completionHook rt) as [hook|]; [|done]. simpl. by destruct (hook _).
Qed.

Lemma published_settled i : (running (in_ip i) = true → healthy (in_ip i) ∧ internalQueue (in_ip i) = [] ∧ statesToInvoke (in_ip i) = ∅) →
  (running (in_ip i) = false → exited (in_ip i)) → settled (publishConfig cc i).
Proof using Type. intros H1 H2. by split. Qed.

Lemma settled_frame i j : in_ip j = in_ip i → in_config j = in_config i → settled i → settled j.
Proof using Type. intros E1 E2 [H1 H2 H3]. split; rewrite ?E1; auto. by rewrite E2. Qed.

Lemma settle_settled fuel i j e : settle cc rt fuel i = Some (j, e) → handling i → settled j.
Proof using Hwf Hiw.
  unfold settle. intros (i1 & H1 & [= Hj])%bind_Some Hi. pose proof (drain_handling _ _ _ H1 Hi) as Hi1.
  set (i2 := if running (in_ip i1) then i1 else with_ip (exitInterpreter c (envOf rt i1) (in_ip i1)) i1) in Hj.
  destruct (finishNaturalCompletion_frame (publishConfig cc i2)) as [F1 F2]. rewrite Hj in F1, F2.
  apply (settled_frame (publishConfig cc i2) j F1 F2). apply published_settled; unfold i2; destruct (running (in_ip i1)) eqn:Hr; simpl.
  - intros _. destruct Hi1 as [[Hh Hv]|[Hr' _]]; [|congruence]. split_and!; [done | | by apply Hv].
    unfold drainInstance in H1. apply bind_Some in H1 as (ip & H1 & [= <-]). by apply (drain_settled _ _ _ _ H1 Hr).
  - rewrite exitInterpreter_running. congruence.
  - congruence.
  - intros _. destruct Hi1 as [[Hh _]|[_ Hex]]; [by apply healthy_exits | by apply exited_exits].
Qed.

(** ** The requests *)

Lemma busy_kept env ip ip' : control_of ip' = control_of ip → evolves env ip ip' → busy ip → busy ip'.
Proof using Type.
  intros Hk Hev [Hh Hv]. split; [by eapply healthy_kept|]. rewrite (running_kept _ _ Hk).
  unfold statesToInvoke. by rewrite Hk.
Qed.

Lemma busy_drain env fuel ip ip' : drainQueuedEvents cc env fuel ip = Some ip' → busy ip → busy ip'.
Proof using Hwf Hiw.
  intros H [Hh Hv]. split; [eapply steps_healthy, Hh; by eapply drain_steps|]. intros Hr.
  destruct (running ip) eqn:Hr0; [by apply (drain_settled _ _ _ _ H Hr), Hv|].
  apply drain_stopped in H as ->; [congruence | done].
Qed.

Lemma busy_drainInternal env fuel ip ip' : drainInternalMacrostep cc env fuel ip = Some ip' → busy ip → busy ip'.
Proof using Hwf Hiw.
  intros H [Hh Hv]. split; [eapply steps_healthy, Hh; by eapply drainInternal_steps|]. intros Hr.
  unfold drainInternalMacrostep in H. destruct (_ || _) eqn:E; [injection H as <-; auto|].
  by apply (runToStable_settled _ _ _ _ _ H Hr).
Qed.

Lemma busy_timerFire env n ip : busy ip → busy (handleTimerFire env n ip).
Proof using Type.
  intros Hb. unfold handleTimerFire. destruct (pending ip !! n) as [rec|]; [|done].
  assert (busy (fireTimer env n ip)) as Hf by (eapply busy_kept, Hb; [apply fireTimer_keeps | apply moving_fireTimer]).
  destruct (env_timerFiredHook env) as [hook|]; [|done]. destruct (hook _ _ _ _); [|done].
  destruct Hb as [[H1 H2 H3 H4] _]. split; [by split | done].
Qed.

Lemma busy_stop e ip : busy ip → busy (set_running false (set_hookErr e ip)).
Proof using Type. intros [[H1 H2 H3 H4] _]. split; [by split | done]. Qed.

Lemma busy_takeTimerHookError i : busy (in_ip i) → busy (in_ip (takeTimerHookError i).1).
Proof using Type.
  intros Hb. unfold takeTimerHookError. destruct (hookErr (in_ip i)); [|done]. by apply (busy_stop None).
Qed.

Lemma timerFire_ip n i : in_ip (instanceTimerFire rt n i) = handleTimerFire (envOf rt i) n (in_ip i).
Proof using Type. unfold instanceTimerFire. destruct (pending (in_ip i) !! n), (rt_timerFiredHook rt); done. Qed.

Lemma busy_instanceTimerFire n i : busy (in_ip i) → busy (in_ip (takeTimerHookError (instanceTimerFire rt n i)).1).
Proof using Type. intros Hb. apply busy_takeTimerHookError. rewrite timerFire_ip. by apply busy_timerFire. Qed.

Lemma busy_armTimer rec ip : is_Some (pending ip !! ps_order rec) → busy ip → busy (armTimer rec ip).
Proof using Type.
  intros [rec' Hrec] [[H1 H2 H3 H4] Hv]. split; [split; try done|done].
  intros n r. unfold armTimer, pending at 1. simpl. intros [[<- <-]|[_ Hn]]%lookup_insert_Some; [|by apply H3].
  split; [done|]. apply (H3 _ _ Hrec).
Qed.

Lemma activateTimers_busy fuel records i j e : activateTimers cc rt fuel records i = Some (j, e) →
  busy (in_ip i) → busy (in_ip j).
Proof using Hwf Hiw.
  revert i. induction records as [|rec records IH]; intros i; simpl; [by intros [= <- _]|].
  case_bool_decide as Hp; [apply IH|]. case_decide.
  - intros H1 Hb. eapply IH; [exact H1|]. simpl. apply busy_armTimer; [|done]. destruct (pending _ !! _); [eauto | done].
  - intros H1 Hb. pose proof (busy_instanceTimerFire (ps_order rec) i Hb) as Hb1.
    destruct (takeTimerHookError (instanceTimerFire rt (ps_order rec) i)) as [i1 [e1|]]; simpl in Hb1.
    { by injection H1 as <- _. }
    apply bind_Some in H1 as (i2 & H2 & H1). unfold drainInstance in H2. apply bind_Some in H2 as (ip & H2 & [= <-]).
    pose proof (busy_drain _ _ _ _ H2 Hb1) as Hb2. simpl in H1. destruct (running ip); [|by injection H1 as <- _].
    by eapply IH.
Qed.

Lemma attachInvoke_ok id ri ip : invokesByID ip !! id = Some ri → invocations_ok c ip → invocations_ok c (attachInvoke id ri ip).
Proof using Type.
  intros Hri [HS HA HI]. set (g := λ r : runningInvoke, if decide (ri_id r = id) then attach r else r).
  assert (∀ r, ri_id (g r) = ri_id r ∧ ri_state (g r) = ri_state r ∧ ri_spec (g r) = ri_spec r) as Hg
    by (intros r; unfold g; by case_decide).
  assert (∀ s r, running_ok c s r → running_ok c s (g r)) as Hgo.
  { intros s r [A B C D E F G]. unfold g. case_decide; by split. }
  change (invocations_consistent c (configuration ip) (statesToInvoke ip)
    (alter (map g) (ri_state ri) (activeInvokes ip)) (<[id := attach ri]> (invokesByID ip))).
  pose proof Hri as (Eid & ris & Es & Hin)%HI. split; [done| |].
  - intros s l [(<- & l0 & El & ->)|[Hne El]]%lookup_alter_Some; [|by apply HA].
    destruct (HA _ _ El) as (Hn & Hc & Ht & Hsub & Hall). split_and!; [by destruct l0 | done | done | |].
    + rewrite map_map. erewrite map_ext; [exact Hsub|]. intros r. by apply Hg.
    + apply Forall_map. eapply Forall_impl; [exact Hall|]. intros r. apply Hgo.
  - intros id' x. rewrite lookup_insert_Some. split.
    + intros [[<- <-]|[Hne E]].
      * split; [done|]. exists (map g ris). split; [by rewrite (lookup_alter_Some (map g)); left; eauto|].
        apply list_elem_of_fmap. exists ri. split; [|done]. unfold g. by rewrite decide_True.
      * pose proof E as (Ex & l & El & Hx)%HI. split; [done|].
        assert (g x = x) as Hgx by (unfold g; rewrite decide_False by congruence; done).
        destruct (decide (ri_state ri = ri_state x)) as [Est|Hst].
        -- exists (map g l). split; [apply (lookup_alter_Some (map g)); left; eauto|].
           apply list_elem_of_fmap. exists x. by rewrite Hgx.
        -- exists l. split; [|done]. apply (lookup_alter_Some (map g)). by right.
    + intros (Ex & l & [(Est & l0 & El & ->)|[Hst El]]%(lookup_alter_Some (map g)) & Hx).
      * apply list_elem_of_fmap in Hx as (y & -> & Hy). destruct (Hg y) as (G1 & G2 & _). rewrite G1 in Ex. rewrite G2 in El.
        assert (invokesByID ip !! id' = Some y) as Hy' by (apply HI; eauto). unfold g. case_decide as Hyi.
        -- left. assert (id' = id) as -> by congruence. split; [done|]. by rewrite Hri in Hy'; injection Hy' as ->.
        -- right. split; [congruence | done].
      * right. assert (invokesByID ip !! id' = Some x) as Hx' by (apply HI; eauto). split; [|done].
        intros <-. rewrite Hri in Hx'. by injection Hx' as <-.
Qed.

Lemma attachInvoke_busy (env : environment) id ri ip : invokesByID ip !! id = Some ri → busy ip → busy (attachInvoke id ri ip).
Proof using Type.
  intros Hri [[H1 H2 H3 H4] Hv]. split; [|done]. split; [done | by apply attachInvoke_ok | done |].
  apply (move_channels_bounded env ip (openChannel (attach ri) ip)); [apply move_open | done].
Qed.

Lemma resumeRequest_busy env ri ec ip : busy ip →
  busy (evaluateInvokeResumeRequest env ri ec ip).1
  ∧ invokesByID (evaluateInvokeResumeRequest env ri ec ip).1 = invokesByID ip.
Proof using Type.
  intros Hb. unfold evaluateInvokeResumeRequest. set (m := act_bind _ _).
  assert (act_keeps m) as Hk by (apply act_keeps_bind; [apply evaluatePayload_keeps | done]).
  assert (act_emits env false m) as He
    by (apply act_emits_bind; [by apply emits_evaluatePayload | intros; apply act_emits_ret]).
  assert (control_of (orReport m ip).1 = control_of ip) as Hc.
  { specialize (Hk ip). unfold orReport. by destruct (m ip) as [ip' [a|e]]. }
  split; [|unfold invokesByID; by rewrite Hc]. eapply busy_kept, Hb; [done | by apply moving_orReport].
Qed.

Lemma busy_internal (env : environment) ev ip : busy ip → busy (enqueueInternal ev ip).
Proof using Type. apply (busy_kept env); [done | apply evolves_internal]. Qed.

Lemma resumeInvoke_busy env id ri ip : invokesByID ip !! id = Some ri → busy ip → busy (resumeInvoke cc rt env id ri ip).1.
Proof using Type.
  intros Hri Hb. unfold resumeInvoke. set (ec := mkExecContext _ _ _ _ _ _).
  destruct (resumeRequest_busy env ri ec ip Hb) as [Hb1 Hid1].
  destruct (evaluateInvokeResumeRequest env ri ec ip) as [ip1 [rq|]]; simpl in *; [|done].
  destruct (rt_factory rt _); [|by apply (busy_internal env)].
  destruct (rt_makeHandler rt _ _); [by apply (busy_internal env).. |]. apply (attachInvoke_busy env).
  - change (invokesByID ip1 !! id = Some ri). by rewrite Hid1.
  - eapply (busy_kept env), Hb1; [done | apply rtc_once, move_started].
Qed.

Lemma resumeInvokes_busy env fuel ids ip ip' : resumeInvokes cc rt env fuel ids ip = Some ip' → busy ip → busy ip'.
Proof using Hwf Hiw.
  revert ip. induction ids as [|id ids IH]; intros ip; simpl; [by intros [= <-]|].
  destruct (invokesByID ip !! id) as [ri|] eqn:Hri; [|apply IH].
  intros H Hb. pose proof (resumeInvoke_busy env id ri ip Hri Hb) as Hb1.
  destruct (resumeInvoke cc rt env id ri ip) as [ip0 b]. simpl in Hb1. apply bind_Some in H as (ip1 & H1 & H).
  eapply IH; [exact H|]. destruct b; [by injection H1 as <- | by eapply busy_drainInternal].
Qed.

Lemma activatePendingTimers_busy fuel t i j e : activatePendingTimers cc rt fuel t i = Some (j, e) →
  busy (in_ip i) → busy (in_ip j).
Proof using Hwf Hiw.
  unfold activatePendingTimers. intros H Hb. eapply activateTimers_busy; [exact H|].
  destruct Hb as [[H1 H2 H3 H4] Hv]. split; [by split | done].
Qed.

Lemma finishReplay_busy fuel t i j e : finishReplay cc rt fuel t i = Some (j, e) → busy (in_ip i) → busy (in_ip j).
Proof using Hwf Hiw.
  unfold finishReplay. intros ([i1 e1] & H1 & H)%bind_Some Hb.
  pose proof (activatePendingTimers_busy _ _ _ _ _ H1 Hb) as Hb1. destruct e1; [by injection H as <- _|].
  destruct (running (in_ip i1)); [|by injection H as <- _]. apply bind_Some in H as (i2 & H2 & [= <- _]).
  unfold resumeInvokesAfterReplay in H2. apply bind_Some in H2 as (ip & H2 & [= <-]). by eapply resumeInvokes_busy.
Qed.

Lemma acceptEvent_busy ev i : busy (in_ip i) → busy (in_ip (acceptEvent rt ev i).1).
Proof using Type.
  intros Hb. unfold acceptEvent. case_bool_decide; [done|].
  assert (busy (enqueue ev (in_ip i))) as He.
  { unfold enqueue. case_decide; [|by apply (busy_internal (rt_env rt))].
    eapply (busy_kept (rt_env rt)), Hb; [done|]. by apply emits_evolves, emits_one, prim_external. }
  assert (busy (set_running false (in_ip i))) as Hs by (destruct Hb as [Hh _]; split; [by apply healthy_running | done]).
  destruct (rt_ingressHook rt) as [hook|]; [|done]. destruct (in_live i); simpl; [|done]. by destruct (hook _ ev).
Qed.

Lemma apply_busy fuel req i j e : apply cc rt fuel req i = Some (j, e) → busy (in_ip i) → busy (in_ip j).
Proof using Hwf Hiw.
  intros H Hb. assert (busy (in_ip (stop i))) as Hs
    by (destruct Hb as [Hh _]; split; [by apply healthy_running | done]).
  destruct req as [ev| |n| |save| |entry|t]; simpl in H.
  - injection H as H. pose proof (acceptEvent_busy ev i Hb) as H'. by rewrite H in H'.
  - by injection H as <- _.
  - injection H as H. pose proof (busy_instanceTimerFire n i Hb) as H'. by rewrite H in H'.
  - by injection H as <- _.
  - destruct (buildSnapshot _ _ _) as [snap|]; [|by injection H as <- _]. destruct (save snap); by injection H as <- _.
  - by injection H as <- _.
  - destruct (replayTimerFire _ _ _ _ _ _) as [ip found] eqn:Hr. injection H as <- _. simpl.
    assert (busy ip) as Hip.
    { replace ip with (replayTimerFire (envOf rt i) (le_SendID entry) (le_Target entry) (le_Type entry) (le_Event entry) (in_ip i)).1
        by (by rewrite Hr). unfold replayTimerFire. destruct (timerMatch _ _ _ _ _) as [rec|]; [|done]. simpl.
      eapply (busy_kept (envOf rt i)), Hb; [by rewrite dispatchNow_keeps|].
      eapply rtc_l; [apply (move_fire _ (ps_order rec)) | apply moving_dispatchNow]. }
    destruct found; [done|]. eapply (busy_kept (envOf rt i)), Hip; [apply dispatchNow_keeps | apply moving_dispatchNow].
  - by eapply finishReplay_busy.
Qed.

Lemma handle_settled fuel req i j r : handle cc rt fuel req i = Some (j, r) → running (in_ip i) = true →
  settled i → settled j.
Proof using Hwf Hiw.
  unfold handle. intros ([i1 e1] & H1 & H)%bind_Some Hr [Hs _ _]. destruct (Hs Hr) as (Hh & _ & Hv).
  apply bind_Some in H as ([i2 e2] & H2 & [= <- _]). eapply settle_settled; [exact H2|]. left.
  eapply apply_busy; [exact H1|]. by split.
Qed.

(** ** Starting *)

Lemma activateTimers_error fuel records i j e : activateTimers cc rt fuel records i = Some (j, Some e) →
  running (in_ip j) = false.
Proof using Type.
  revert i. induction records as [|rec records IH]; intros i; simpl; [done|].
  case_bool_decide; [apply IH|]. case_decide; [apply IH|].
  destruct (takeTimerHookError _) as [i1 [e1|]] eqn:Ht.
  - intros [= <- _]. unfold takeTimerHookError in Ht. destruct (hookErr _); [|done]. by injection Ht as <- _.
  - intros (i2 & _ & Hrest)%bind_Some. destruct (running (in_ip i2)); [by eapply IH | done].
Qed.

Lemma reachable_healthy env ip : reachable c env ip → healthy ip.
Proof using Hwf Hiw.
  intros Hr. split; [by eapply reachable_well_configured | by eapply reachable_invocations_ok | by eapply reachable_pending_ok |].
  eapply (reachable_invariant c env channels_bounded), Hr; [|apply move_channels_bounded].
  intros s t id q. unfold channels. simpl. by rewrite lookup_empty.
Qed.

Lemma boot_new fuel s t a b d l i :
  boot cc rt fuel (with_replay a b d l (newInstance (newInterpretation s t) false)) = Some i → settled i.
Proof using Hwf Hiw.
  unfold boot. simpl. intros ([i0 e0] & (ip & Hst & [= <- <-])%bind_Some & ([i1 e1] & H1 & [= <-])%bind_Some)%bind_Some.
  eapply settle_settled; [exact H1|]. left. split; [eapply reachable_healthy; by eapply start_reachable|].
  unfold start in Hst. apply bind_Some in Hst as (ip0 & _ & Hst). intros Hr. by apply (runToStable_settled _ _ _ _ _ Hst Hr).
Qed.

Lemma boot_restored fuel ip a b d l i : busy ip ∨ (running ip = false ∧ exited ip) →
  boot cc rt fuel (with_replay a b d l (newInstance ip true)) = Some i → settled i.
Proof using Hwf Hiw.
  intros Hip. unfold boot. simpl. set (i0 := with_replay a b d l (newInstance ip true)).
  intros ([i1 err] & H0 & Hend)%bind_Some. destruct err as [e|].
  - destruct b; [done|]. simpl in H0. injection Hend as <-. pose proof (activateTimers_error _ _ _ _ _ H0) as Hr.
    apply published_settled; simpl; [rewrite exitInterpreter_running; congruence|]. intros _.
    destruct Hip as [Hb|[_ Hex]].
    + apply healthy_exits. by eapply (activatePendingTimers_busy _ _ i0).
    + unfold activatePendingTimers in H0. simpl in H0.
      assert (map_to_list (pending (set_now (now ip) ip)) = []) as E by (change (map_to_list (pending ip) = []); by rewrite (ex_pending _ Hex)).
      rewrite E in H0. discriminate H0.
  - apply bind_Some in Hend as ([i2 e2] & H2 & [= <-]). eapply settle_settled; [exact H2|].
    destruct b; simpl in H0; [by injection H0 as <-|]. destruct Hip as [Hb|[Hr Hex]].
    + left. by eapply (activatePendingTimers_busy _ _ i0).
    + right. unfold activatePendingTimers in H0. simpl in H0.
      assert (map_to_list (pending (set_now (now ip) ip)) = []) as E by (change (map_to_list (pending ip) = []); by rewrite (ex_pending _ Hex)).
      rewrite E in H0. injection H0 as <-. split; [done|]. destruct Hex as [A B C D F]. by split.
Qed.
End requests.

(** ** Restoring *)

Hypothesis Hid : ∀ id n, c_byID c !! id = Some n ↔ States c !! n = Some id.
Hypothesis Hix : ∀ id spec, cc_invokes cc !! id = Some spec ↔ spec ∈ chartInvokes c ∧ iv_definitionID spec = id.
Context `{RS : !RestorableSession}.

Lemma durable_invocations ip ip' : durable_eq cc ip ip' → well_typed cc ip' → invocations_ok c ip → invocations_ok c ip'.
Proof using All.
  intros Hde Hty [HS HA HI]. split.
  - rewrite (wt_toInvoke _ _ Hty). set_solver.
  - intros s ris' E. pose proof (de_byState _ _ _ Hde s) as Hp. rewrite E in Hp. simpl in Hp.
    assert (ris' ≠ []) as Hn by (intros ->; by apply (de_nonempty _ _ _ Hde s)).
    destruct (activeInvokes ip !! s) as [ris|] eqn:E0; simpl in Hp; [|by apply Permutation_nil_r in Hp].
    destruct (HA _ _ E0) as (_ & Hc & _ & Hsub & Hall). rewrite (de_configuration _ _ _ Hde), (wt_toInvoke _ _ Hty).
    split_and!; [done | done | set_solver | by rewrite Hp, map_map |].
    rewrite Hp. apply Forall_map. eapply Forall_impl; [exact Hall|]. intros r [A B C D F G H]. by split.
  - apply (tb_index _ _ _ _ (wt_tables _ _ Hty)).
Qed.

Lemma restored_busy env i snap cfg factory t rs : settled i → buildSnapshot cc env (in_ip i) = Ok snap →
  restoreInstanceFromFactory cc cfg factory t snap = Ok rs →
  busy (rs_interpretation rs) ∨ (running (rs_interpretation rs) = false ∧ exited (rs_interpretation rs)).
Proof using All.
  intros [Hrun Hstop _] Hsnap Hrs. pose proof (restored_typed cc Hid Hiw Hix _ _ _ _ _ Hrs) as Hty.
  assert (∃ fresh, factory = Ok (Some fresh)) as [fresh ->].
  { unfold restoreInstanceFromFactory in Hrs. apply result_bind_Ok in Hrs as (_ & _ & Hrs). destruct factory as [[f|]|]; [eauto | done..]. }
  assert (channels_bounded (rs_interpretation rs)) as Hch by (intros id q; rewrite (wt_channels _ _ Hty); by rewrite lookup_empty).
  destruct (running (in_ip i)) eqn:Hr.
  - left. destruct (Hrun eq_refl) as ([[HL HH] Hok _ _] & _).
    destruct (restore_built cc Hid Hiw Hix env (in_ip i) cfg fresh t snap) as (rs' & E & Hde & _); [|exact (history_ok_valid _ _ (wf_is_tree _ _ Hwf) HH) | done | done |].
    { intros x Hx. by apply (legal_valid _ _ HL). }
    rewrite E in Hrs. injection Hrs as ->. split; [|by rewrite (wt_toInvoke _ _ Hty)].
    split; [|by eapply durable_invocations | apply Hty | done]. unfold well_configured.
    by rewrite (de_configuration _ _ _ Hde), (de_history _ _ _ Hde).
  - right. destruct (Hstop eq_refl) as [HC HH Hok HP _].
    destruct (restore_built cc Hid Hiw Hix env (in_ip i) cfg fresh t snap) as (rs' & E & Hde & _); [|exact (history_ok_valid _ _ (wf_is_tree _ _ Hwf) HH) | done | done |].
    { rewrite HC. set_solver. }
    rewrite E in Hrs. injection Hrs as ->. split; [by rewrite (de_running _ _ _ Hde)|].
    split; [by rewrite (de_configuration _ _ _ Hde) | by rewrite (de_history _ _ _ Hde) | by eapply durable_invocations | | done].
    pose proof (de_pending _ _ _ Hde) as Hp. rewrite HP, map_to_list_empty in Hp. simpl in Hp.
    apply map_to_list_empty_iff. destruct (map_to_list (pending (rs_interpretation rs))) as [|[k r] m] eqn:Em; [done|].
    pose proof (merge_sort_Permutation pendingOrder (((k, r) :: m).*2)) as Hperm. rewrite Hp in Hperm.
    by apply Permutation_nil_l in Hperm.
Qed.

(** ** Whole lifetimes *)

(** An instance of the chart, from its creation on: it is started; it serves
    requests while it runs; time passes, its handlers read their channels, the
    driver of a replay changes its mode; it is snapshotted, and another
    instance, with another configuration, is restored and started from that. *)
Inductive life : runtime → Instance → Prop :=
| life_new rt s t fuel suppress deferTimers deferCompletion live i :
    boot cc rt fuel (with_replay suppress deferTimers deferCompletion live
                       (newInstance (newInterpretation s t) false)) = Some i → life rt i
| life_request rt i fuel req i' r :
    life rt i → running (in_ip i) = true → handle cc rt fuel req i = Some (i', r) → life rt i'
| life_time rt i t : life rt i → life rt (with_ip (set_now t (in_ip i)) i)
| life_receive rt i id : life rt i → life rt (with_ip (receive id (in_ip i)) i)
| life_mode rt i suppress deferTimers deferCompletion live :
    life rt i → life rt (with_replay suppress deferTimers deferCompletion live i)
| life_restored rt i snap cfg factory t rs rt' fuel suppress deferTimers deferCompletion live i' :
    life rt i → buildSnapshot cc (rt_env rt) (in_ip i) = Ok snap →
    restoreInstanceFromFactory cc cfg factory t snap = Ok rs →
    boot cc rt' fuel (with_replay suppress deferTimers deferCompletion live
                        (newInstance (rs_interpretation rs) true)) = Some i' → life rt' i'.

Lemma settled_receive i id : settled i → settled (with_ip (receive id (in_ip i)) i).
Proof using Type.
  intros [H1 H2 H3]. assert (channels_bounded (in_ip i) → channels_bounded (receive id (in_ip i))) as Hch.
  { apply (move_channels_bounded (mkEnvironment "" "" "" (λ _, true) (λ _ _, None) (λ _ _, Ok true) (λ _, Ok 0%Z) None)), move_receive. }
  split; [| |done]; simpl.
  - intros Hr. destruct (H1 Hr) as ([A B C D] & ? & ?). split_and!; [split; auto | done | done].
  - intros Hr. destruct (H2 Hr) as [A B C D E]. by split; auto.
Qed.

Lemma life_settled rt i : life rt i → settled i.
Proof using All.
  induction 1 as [rt s t fuel a b d l i Hb | rt i fuel req i' r _ IH Hr Hh | rt i t _ IH | rt i id _ IH | rt i a b d l _ IH
    | rt i snap cfg factory t rs rt' fuel a b d l i' _ IH Hsnap Hrs Hb].
  - by eapply boot_new.
  - by eapply handle_settled.
  - destruct IH as [H1 H2 H3]. split; [| |done]; simpl.
    + intros Hr. destruct (H1 Hr) as ([A B C D] & ? & ?). split_and!; [by split | done | done].
    + intros Hr. destruct (H2 Hr) as [A B C D E]. by split.
  - by apply settled_receive.
  - by eapply settled_frame, IH.
  - eapply boot_restored; [|exact Hb]. by eapply restored_busy.
Qed.
End lifetime.

(** ** Progress *)

Section progress.
Context `{SS : SnapshotSession}.
Variable cc : compiledChart.
Abbreviation c := (cc_chart cc).

(** One iteration of [runToStable]'s loop after which the loop goes on: it took
    a transition, an internal event, or invocations whose start failed. *)
Definition iterates (env : environment) (ip ip' : interpretation) : Prop :=
  running ip = true ∧ stableIteration c env ip = Some (ip', true).

(** The next external event, taken and run to stability. *)
Inductive drains (env : environment) (ip : interpretation) : interpretation → Prop :=
| drains_event ev queue ip1 fuel ip2 :
    running ip = true → externalQueue ip = ev :: queue → takeExternal c env ev queue ip = Some ip1 →
    runToStable c env fuel ip1 = Some ip2 → drains env ip ip2.

(** [runToStable] from [ip] goes on for [n] iterations. *)
Definition restless (env : environment) (n : nat) (ip : interpretation) : Prop := ∃ ip', nsteps (iterates env) n ip ip'.

(** [drainInternalMacrostep] from [ip] goes on for [n] iterations. *)
Definition restlessInternal (env : environment) (n : nat) (ip : interpretation) : Prop :=
  running ip = true ∧ internalQueue ip ≠ [] ∧ restless env n ip.

(** Draining the queues from [ip] is endless up to [n]: [n] external events are
    processed and there is another one; or, after some of them, the next one is
    not stable within [n] iterations; or, after all, the internal queue is not. *)
Inductive overworked (env : environment) (n : nat) (ip : interpretation) : Prop :=
| over_events ip' : nsteps (drains env) n ip ip' → running ip' = true → externalQueue ip' ≠ [] → overworked env n ip
| over_event ip' ev queue ip1 :
    rtc (drains env) ip ip' → running ip' = true → externalQueue ip' = ev :: queue → takeExternal c env ev queue ip' = Some ip1 →
    restless env n ip1 → overworked env n ip
| over_internal ip' :
    rtc (drains env) ip ip' → (running ip' = true → externalQueue ip' = []) → restlessInternal env n ip' → overworked env n ip.

(** The moments of [activatePendingTimers] at which a timer has fired and the
    queues are drained. *)
Inductive firing (rt : runtime) (fuel : nat) : list pendingSendRecord → Instance → Instance → Prop :=
| firing_cancelled rec records i j :
    pending (in_ip i) !! ps_order rec = None → firing rt fuel records i j → firing rt fuel (rec :: records) i j
| firing_armed rec records i j :
    pending (in_ip i) !! ps_order rec ≠ None → (now (in_ip i) < ps_fireAt rec)%Z →
    firing rt fuel records (with_ip (armTimer rec (in_ip i)) i) j → firing rt fuel (rec :: records) i j
| firing_due rec records i j :
    pending (in_ip i) !! ps_order rec ≠ None → (ps_fireAt rec ≤ now (in_ip i))%Z →
    takeTimerHookError (instanceTimerFire rt (ps_order rec) i) = (j, None) → firing rt fuel (rec :: records) i j
| firing_later rec records i i1 i2 j :
    pending (in_ip i) !! ps_order rec ≠ None → (ps_fireAt rec ≤ now (in_ip i))%Z →
    takeTimerHookError (instanceTimerFire rt (ps_order rec) i) = (i1, None) →
    drainInstance cc rt fuel i1 = Some i2 → running (in_ip i2) = true → firing rt fuel records i2 j →
    firing rt fuel (rec :: records) i j.

(** The moments of [resumeInvokesAfterReplay] at which an invocation has not
    been resumed and the internal queue is drained. *)
Inductive resuming (rt : runtime) (env : environment) (fuel : nat) : list Identifier → interpretation → interpretation → Prop :=
| resuming_gone id ids ip ip' :
    invokesByID ip !! id = None → resuming rt env fuel ids ip ip' → resuming rt env fuel (id :: ids) ip ip'
| resuming_failed id ids ip ri ip' :
    invokesByID ip !! id = Some ri → resumeInvoke cc rt env id ri ip = (ip', false) → resuming rt env fuel (id :: ids) ip ip'
| resuming_next id ids ip ri ip1 resumed ip2 ip' :
    invokesByID ip !! id = Some ri → resumeInvoke cc rt env id ri ip = (ip1, resumed) →
    (if (resumed : bool) then ip2 = ip1 else drainInternalMacrostep cc env fuel ip1 = Some ip2) →
    resuming rt env fuel ids ip2 ip' → resuming rt env fuel (id :: ids) ip ip'.

(** The chart works on [req] without end, up to [n]: at one of the moments at
    which the request drains the queues, draining is endless. *)
Inductive occupied (rt : runtime) (n : nat) (i : Instance) : actorRequest → Prop :=
| occupied_settle req j e : apply cc rt n req i = Some (j, e) → overworked (envOf rt j) n (in_ip j) → occupied rt n i req
| occupied_timer t j :
    let i0 := with_ip (set_now t (in_ip i)) i in
    firing rt n (merge_sort timerOrder (map_to_list (pending (in_ip i0))).*2) i0 j →
    overworked (envOf rt j) n (in_ip j) → occupied rt n i (reqFinishReplay t)
| occupied_resume t j ip' :
    activatePendingTimers cc rt n t i = Some (j, None) → running (in_ip j) = true →
    resuming rt (envOf rt j) n (sortedInvokeIDs (invokesByID (in_ip j))) (in_ip j) ip' →
    restlessInternal (envOf rt j) n ip' → occupied rt n i (reqFinishReplay t).

Variable hrank : nat → nat.
Hypothesis Hwf : wf_chart c hrank.
Hypothesis Hiw : invokes_wf c.

Lemma runToStable_progress env fuel ip : healthy cc ip → runToStable c env fuel ip = None → restless env fuel ip.
Proof using Hwf Hiw.
  revert ip. induction fuel as [|fuel IH]; intros ip Hh; simpl; (destruct (running ip) eqn:Hr; [|done]).
  { intros _. exists ip. constructor. }
  destruct (iteration_well_configured c env hrank Hwf ip (hl_configured _ _ Hh)) as (ip1 & b & Hit & _). rewrite Hit. simpl.
  destruct b; [|done]. intros H.
  destruct (IH ip1) as (ip' & H'); [eapply step_healthy, Hh; [done.. | by eapply step_iterate] | done |].
  exists ip'. by econstructor.
Qed.

Lemma drains_healthy env ip ip' : drains env ip ip' → healthy cc ip → healthy cc ip'.
Proof using Hwf Hiw.
  intros [ev queue ip1 fuel ip2 Hr Hq Ht Hrun] Hh. eapply steps_healthy; [done.. | |].
  - by eapply runToStable_steps.
  - eapply step_healthy, Hh; [done..|]. by eapply step_external.
Qed.

(** What [drainExternal] did within its bound, whether or not it ended. *)
Lemma drainExternal_progress env fuel n ip : healthy cc ip →
  match drainExternal cc env n fuel ip with
  | Some ip' => rtc (drains env) ip ip' ∧ healthy cc ip' ∧ (running ip' = true → externalQueue ip' = [])
  | None => (∃ ip', nsteps (drains env) n ip ip' ∧ running ip' = true ∧ externalQueue ip' ≠ [])
      ∨ ∃ ip' ev queue ip1, rtc (drains env) ip ip' ∧ running ip' = true ∧ externalQueue ip' = ev :: queue
          ∧ takeExternal c env ev queue ip' = Some ip1 ∧ restless env fuel ip1
  end.
Proof using Hwf Hiw.
  revert ip. induction n as [|n IH]; intros ip Hh; simpl;
    (destruct (running ip && _) eqn:E; [apply andb_true_iff in E as [Hr Hq%negb_true_iff%bool_decide_eq_false]|]).
  1: { left. exists ip. split; [constructor | done]. }
  2: unfold processNextExternal; rewrite Hr; destruct (externalQueue ip) as [|ev queue] eqn:Hx; [done|];
     destruct (takeExternal_well_configured c env hrank Hwf ev queue ip (hl_configured _ _ Hh)) as (ip1 & Ht & _); rewrite Ht; simpl;
     assert (healthy cc ip1) as Hh1 by (eapply step_healthy, Hh; [done.. | by eapply step_external]);
     destruct (runToStable c env fuel ip1) as [ip2|] eqn:Hrun; simpl.
  1,4: split_and!; [apply rtc_refl | done |]; intros Hr; rewrite Hr in E; simpl in E; by apply negb_false_iff, bool_decide_eq_true in E.
  2: { right. exists ip, ev, queue, ip1. split_and!; [apply rtc_refl | done.. |]. by apply runToStable_progress. }
  assert (drains env ip ip2) as Hd by (by econstructor). specialize (IH ip2 (drains_healthy _ _ _ Hd Hh)).
  destruct (drainExternal cc env n fuel ip2) as [ip'|].
  - destruct IH as (H1 & H2). split; [by eapply rtc_l | done].
  - destruct IH as [(ip' & H1 & H2)|(ip' & ev' & queue' & ip3 & H1 & H2)].
    + left. exists ip'. split; [by econstructor | done].
    + right. exists ip', ev', queue', ip3. split; [by eapply rtc_l | done].
Qed.

Lemma drainInternal_progress env fuel ip : healthy cc ip → drainInternalMacrostep cc env fuel ip = None → restlessInternal env fuel ip.
Proof using Hwf Hiw.
  unfold drainInternalMacrostep. intros Hh. destruct (_ || _) eqn:E; [done|]. intros Hnone.
  apply orb_false_iff in E as [Hr%negb_false_iff Hq%bool_decide_eq_false]. split_and!; [done..|]. by apply runToStable_progress.
Qed.

Lemma drain_progress env fuel ip : healthy cc ip → drainQueuedEvents cc env fuel ip = None → overworked env fuel ip.
Proof using Hwf Hiw.
  intros Hh. unfold drainQueuedEvents. pose proof (drainExternal_progress env fuel fuel ip Hh) as Hx.
  destruct (drainExternal cc env fuel fuel ip) as [ip1|]; simpl.
  - destruct Hx as (Hd & Hh1 & Hq). intros Hn. by eapply over_internal, drainInternal_progress.
  - intros _. destruct Hx as [(ip' & ? & ? & ?)|(ip' & ev & queue & ip1 & ? & ? & ? & ? & ?)]; [by eapply over_events|by eapply over_event].
Qed.

Variable rt : runtime.

Lemma drainInstance_progress fuel i : busy cc (in_ip i) → drainInstance cc rt fuel i = None →
  overworked (envOf rt i) fuel (in_ip i).
Proof using Hwf Hiw.
  intros [Hh _]. unfold drainInstance. destruct (drainQueuedEvents _ _ _ _) as [ip|] eqn:E; [done|].
  intros _. by eapply drain_progress.
Qed.

Lemma activateTimers_progress fuel records i : busy cc (in_ip i) → activateTimers cc rt fuel records i = None →
  ∃ j, firing rt fuel records i j ∧ overworked (envOf rt j) fuel (in_ip j).
Proof using Hwf Hiw.
  revert i. induction records as [|rec records IH]; intros i Hb; simpl; [done|].
  case_bool_decide as Hp; [intros (j & ? & ?)%IH; [|done]; exists j; split; [by apply firing_cancelled | done]|]. case_decide as Hd.
  - intros (j & ? & ?)%IH; [exists j; split; [by apply firing_armed | done]|].
    simpl. apply busy_armTimer; [|done]. destruct (pending _ !! _); [eauto | done].
  - pose proof (busy_instanceTimerFire cc rt (ps_order rec) i Hb) as Hb1. assert (ps_fireAt rec ≤ now (in_ip i))%Z by lia.
    destruct (takeTimerHookError _) as [i1 [e|]] eqn:Ht; simpl in Hb1; [done|].
    destruct (drainInstance cc rt fuel i1) as [i2|] eqn:Hdr; simpl.
    2: { intros _. exists i1. split; [by apply firing_due | by apply drainInstance_progress]. }
    destruct (running (in_ip i2)) eqn:Hr2; [|done]. intros (j & ? & ?)%IH; [exists j; split; [by eapply firing_later | done]|].
    unfold drainInstance in Hdr. apply bind_Some in Hdr as (ip & Hdr & [= <-]). by eapply busy_drain.
Qed.

Lemma resumeInvokes_progress env fuel ids ip : busy cc ip → resumeInvokes cc rt env fuel ids ip = None →
  ∃ ip', resuming rt env fuel ids ip ip' ∧ restlessInternal env fuel ip'.
Proof using Hwf Hiw.
  revert ip. induction ids as [|id ids IH]; intros ip Hb; simpl; [done|].
  destruct (invokesByID ip !! id) as [ri|] eqn:Hri; [|intros (j & ? & ?)%IH; [exists j; split; [by apply resuming_gone | done] | done]].
  pose proof (resumeInvoke_busy cc rt env id ri ip Hri Hb) as Hb1.
  destruct (resumeInvoke cc rt env id ri ip) as [ip0 b] eqn:Hres. simpl in Hb1. destruct b; simpl.
  - intros (j & ? & ?)%IH; [|done]. exists j. split; [by eapply (resuming_next _ _ _ _ _ _ _ _ true) | done].
  - destruct (drainInternalMacrostep _ _ _ _) as [ip2|] eqn:Hd; simpl.
    + intros (j & ? & ?)%IH; [|by eapply busy_drainInternal]. exists j. split; [by eapply (resuming_next _ _ _ _ _ _ _ _ false) | done].
    + intros _. exists ip0. split; [by eapply resuming_failed|]. apply drainInternal_progress; [apply Hb1 | exact Hd].
Qed.

Lemma apply_progress fuel req i : busy cc (in_ip i) → apply cc rt fuel req i = None → occupied rt fuel i req.
Proof using Hwf Hiw.
  intros Hb. destruct req as [ev| |n| |save| |entry|t]; simpl; try done.
  - destruct (buildSnapshot _ _ _) as [snap|]; [|done]. by destruct (save snap).
  - by destruct (replayTimerFire _ _ _ _ _ _).
  - unfold finishReplay. destruct (activatePendingTimers cc rt fuel t i) as [[i1 e]|] eqn:Ha; simpl.
    + pose proof (activatePendingTimers_busy cc Hiw hrank Hwf rt _ _ _ _ _ Ha Hb) as Hb1. destruct e; [done|].
      destruct (running (in_ip i1)) eqn:Hr; [|done]. unfold resumeInvokesAfterReplay.
      destruct (resumeInvokes _ _ _ _ _ _) eqn:Hres; [done|]. intros _.
      apply resumeInvokes_progress in Hres as (ip' & ? & ?); [|done]. by eapply occupied_resume.
    + intros _. apply activateTimers_progress in Ha as (j & ? & ?); [by eapply occupied_timer|].
      destruct Hb as [[H1 H2 H3 H4] Hv]. split; [by split | done].
Qed.

(** A request is answered unless the chart works on it for [fuel] steps. *)
Lemma handle_progress fuel req i : settled cc i → running (in_ip i) = true →
  (∃ i' r, handle cc rt fuel req i = Some (i', r)) ∨ occupied rt fuel i req.
Proof using Hwf Hiw.
  intros [Hs _ _] Hr. destruct (Hs Hr) as (Hh & _ & Hv). assert (busy cc (in_ip i)) as Hb by (by split).
  unfold handle. destruct (apply cc rt fuel req i) as [[i1 e1]|] eqn:Ha; simpl; [|right; by eapply apply_progress].
  pose proof (apply_busy cc Hiw hrank Hwf rt _ _ _ _ _ Ha Hb) as Hb1. unfold settle.
  destruct (drainInstance cc rt fuel i1) as [i2|] eqn:Hd; simpl.
  2: { right. eapply occupied_settle; [done|]. by apply drainInstance_progress. }
  left. destruct (finishNaturalCompletion _ _) as [i3 e3]. simpl. eauto.
Qed.

(** A stopped interpreter has nothing to drain. *)
Lemma overworked_running env n ip : overworked env (S n) ip → running ip = true.
Proof using Type.
  assert (∀ ip ip', drains env ip ip' → running ip = true) as Hd by (by intros ? ? []).
  intros [ip' Hs _ _|ip' ev queue ip1 Hs Hr _ _ _|ip' Hs _ [Hr _]].
  - inversion Hs; subst. by eapply Hd.
  - inversion Hs; subst; [done | by eapply Hd].
  - inversion Hs; subst; [done | by eapply Hd].
Qed.
End progress.
