(* ===== verification/Lives.v ===== *)
(** * Theorems about instances (instance.go, snapshot.go) *)

From S2P Require Import Prelude Identifier Values Events Datamodel Chart Tree Legal Interp Actions Effects Entry EntryCorrect EntryConsistent EntryTotal Domain LegalStep Steps StepCorrect Macrostep Evolution Examples Execution Completion Definitions Validate Layout Compile Accepted Authoring Compiled Declared Snapshot Restored Typed Instance Lifetime.
From stdpp Require Import options.

Section theorems.
Context `{SS : SnapshotSession}.
Variable parseDuration : string → result Z.
Variable jsonMarshal : ChartDefinition → result string.
Variable sha256 : string → string.

Lemma serve_life cc rt fuel reqs i j rs : serve cc rt fuel reqs i = Some (j, rs) → life cc rt i → life cc rt j.
Proof.
  revert i rs. induction reqs as [|req reqs IH]; intros i rs; simpl; [by intros [= <- _]|].
  destruct (running (in_ip i)) eqn:Hr; [|by intros [= <- _]].
  intros ([i1 r1] & H1 & ([i2 rs2] & H2 & [= <- _])%bind_Some)%bind_Some Hl. eapply IH; [exact H2|]. by eapply life_request.
Qed.

(** What compilation gives to the lemmas of Lifetime.v. *)
Lemma compiled_life_ok d m cc :
  Compile parseDuration jsonMarshal sha256 d m = Ok cc → supported (cc_chart cc) = true →
  (∃ hrank, wf_chart (cc_chart cc) hrank) ∧ invokes_wf (cc_chart cc)
  ∧ (∀ id n, c_byID (cc_chart cc) !! id = Some n ↔ States (cc_chart cc) !! n = Some id)
  ∧ ∀ id spec, cc_invokes cc !! id = Some spec ↔ spec ∈ chartInvokes (cc_chart cc) ∧ iv_definitionID spec = id.
Proof.
  intros Hc Hsup. pose proof Hc as (p & v & Hlink)%Compile_linked.
  pose proof (linked_wf_chart _ _ _ _ _ Hlink Hsup) as Hwf. split_and!; [eauto | | by eapply linked_byID |].
  - exact (compiled_invokes_wf _ _ _ _ _ _ Hc (wf_root _ _ Hwf)).
  - intros id spec. by eapply compiled_invokes_index.
Qed.

Lemma compiled_life_settled `{RS : !RestorableSession} d m cc rt i :
  Compile parseDuration jsonMarshal sha256 d m = Ok cc → supported (cc_chart cc) = true → life cc rt i → settled cc i.
Proof.
  intros Hc Hsup Hl. destruct (compiled_life_ok _ _ _ Hc Hsup) as ((hrank & Hwf) & Hiw & Hid & Hix).
  by eapply (life_settled cc Hiw hrank Hwf Hid Hix).
Qed.

(** An interpreter without active states runs no invocation. *)
Lemma no_invocations c ip : invocations_ok c ip → configuration ip = ∅ → invokesByID ip = ∅.
Proof.
  intros [_ HA HI] HC. apply map_empty. intros id. destruct (invokesByID ip !! id) as [ri|] eqn:E; [|done].
  apply HI in E as (_ & ris & E & _). apply HA in E as (_ & Hs & _). rewrite HC in Hs. set_solver.
Qed.

Lemma activeStates_empty c (ip : interpretation) : configuration ip = ∅ → activeStates c ip = [].
Proof.
  intros HC. unfold activeStates. rewrite HC. induction (seq 0 (length (c_order c))) as [|s l IH]; [done|]. simpl.
  by rewrite decide_False by set_solver.
Qed.

(** C2 (invariant): an instance of a supported compiled chart is in order
    between any two requests of its life, whatever it was sent, whatever its
    processors, handlers and hooks answered, and however often it was
    snapshotted and restored in between.  [Configuration()] is the current
    configuration.  While it runs, that configuration is legal, its internal
    queue is empty, no invocation is due, and the invocations that run belong to
    active states.  Once it has stopped, no state is active, no timer is pending
    and no invocation runs. *)
Theorem lifetime_invariant `{RS : !RestorableSession} (d : ChartDefinition) (m : option Datamodel) (cc : compiledChart)
    (rt : runtime) (i : Instance) :
  Compile parseDuration jsonMarshal sha256 d m = Ok cc → supported (cc_chart cc) = true → life cc rt i →
  in_config i = activeStates (cc_chart cc) (in_ip i)
  ∧ (running (in_ip i) = true →
       legal (cc_chart cc) (configuration (in_ip i)) ∧ internalQueue (in_ip i) = [] ∧ statesToInvoke (in_ip i) = ∅
       ∧ ∀ id ri, invokesByID (in_ip i) !! id = Some ri →
           ri_id ri = id ∧ ri_state ri ∈ configuration (in_ip i) ∧ ri_spec ri ∈ invokes (cc_chart cc) (ri_state ri))
  ∧ (running (in_ip i) = false →
       configuration (in_ip i) = ∅ ∧ pending (in_ip i) = ∅ ∧ invokesByID (in_ip i) = ∅ ∧ in_config i = []).
Proof.
  intros Hc Hsup [Hrun Hstop Hpub]%(compiled_life_settled _ _ _ _ _ Hc Hsup). split_and!; [done | |].
  - intros [[[HL _] [_ HA HI] _ _] [Hq Hv]]%Hrun. split_and!; [done.. |]. intros id ri (Hid & ris & E & Hin)%HI.
    destruct (HA _ _ E) as (_ & Hs & _ & _ & Hall). rewrite Forall_forall in Hall. split_and!; [done | done | by apply (ro_spec _ _ _ (Hall ri Hin))].
  - intros [HC _ Hok HP _]%Hstop. split_and!; [done | done | by eapply no_invocations |]. by rewrite Hpub, activeStates_empty.
Qed.



End theorems.

(** ** Witnesses: the life of a player *)

Definition plainRuntime : runtime := mkRuntime plainEnv (λ _, true) (λ _ _, PlainHandler) (λ _, None) None None None.

(** A new instance of the definition, started and sent the given events. *)
Definition alive (d : ChartDefinition) (rt : runtime) (names : list Identifier) : option (Instance (DM := CounterSession)) :=
  i ← boot (compiledOf d) rt 50 (newInstance (newInterpretation (0%Z : @Session CounterSession) 0) false);
  fst <$> serve (SS := CounterSnapshot) (compiledOf d) rt 50 (map (λ n, Send (ext n)) names) i.

Definition aliveAfter (d : ChartDefinition) (rt : runtime) (names : list Identifier) : Instance (DM := CounterSession) :=
  default (newInstance (newInterpretation (0%Z : @Session CounterSession) 0) false) (alive d rt names).

Definition lives (d : ChartDefinition) (rt : runtime) (names : list Identifier) : bool :=
  match alive d rt names with Some _ => true | None => false end.

Lemma aliveAfter_life d rt names : lives d rt names = true →
  life (SS := CounterSnapshot) (compiledOf d) rt (aliveAfter d rt names).
Proof.
  unfold lives, aliveAfter. destruct (alive d rt names) as [i|] eqn:E; [|done]. intros _. unfold alive in E.
  apply bind_Some in E as (i0 & H0 & E). apply fmap_Some in E as ([j rs] & H1 & ->). simpl.
  eapply serve_life; [exact H1|]. exact (life_new _ rt (0%Z : @Session CounterSession) 0 50 false false false true i0 H0).
Qed.

Definition onInstance : Instance (DM := CounterSession) := aliveAfter playerDefinition plainRuntime ["power"].

Lemma onInstance_life : life (SS := CounterSnapshot) (compiledOf playerDefinition) plainRuntime onInstance.
Proof. apply aliveAfter_life. vm_compute. reflexivity. Qed.

Lemma lifetime_invariant_witness :
  legal (cc_chart (compiledOf playerDefinition)) (configuration (in_ip onInstance))
  ∧ in_config onInstance = ["on"; "both"; "state.2"; "quiet"; "state.1"; "dark"].
Proof.
  split; [|vm_compute; reflexivity].
  destruct (lifetime_invariant (SS := CounterSnapshot) oneSecond (λ d, Ok (df_ID d)) (λ s, s) playerDefinition (Some counterModel)
    (compiledOf playerDefinition) plainRuntime onInstance player_compiled player_supported onInstance_life) as (_ & H & _).
  apply H. vm_compute. reflexivity.
Defined.



