(* ===== verification/Hooks.v ===== *)
(** * Hooks (instance.go)

    A durable runtime hangs on three hooks: the ingress hook and the timer hook
    record an input before it is applied, the completion hook records the end.
    The order of these calls and of their effects is what recovery relies on. *)

From S2P Require Import Prelude Identifier Values Events Datamodel Chart Interp Actions Entry Steps StepCorrect Macrostep Evolution Examples Completion Definitions Validate Compile Authoring Snapshot Restored Instance Replay Lifetime Lives.
From stdpp Require Import options.

Section hooks.
Context `{SS : SnapshotSession}.
Variable cc : compiledChart.
Abbreviation c := (cc_chart cc).

(** No error of the timer hook is left behind, and a completed interpreter does
    not run. *)
Definition orderly (ip : interpretation) : Prop := hookErr ip = None ∧ (running ip = true → completed ip = false).

Lemma ends_orderly ip ip' : ends ip ip' → orderly ip → orderly ip'.
Proof.
  intros [E [F|F]] [H1 H2]; (split; [congruence|]); unfold flags in F; injection F as F1 F2; rewrite F1, F2; [done|].
  done.
Qed.

Lemma orderly_stopped ip : orderly ip → orderly (set_running false ip).
Proof. intros [H _]. split; [exact H | done]. Qed.

Lemma ends_drainExternal env n fuel ip ip' : drainExternal cc env n fuel ip = Some ip' → ends ip ip'.
Proof.
  revert ip. induction n as [|n IH]; intros ip; simpl;
    (destruct (running ip && negb (bool_decide (externalQueue ip = []))); [|by intros [= <-]]); [done|].
  intros ([ip1 b] & H1%ends_processNextExternal & Hend)%bind_Some. etrans; [exact H1|].
  destruct b; [by apply IH | by injection Hend as <-].
Qed.

Lemma ends_drainInternal env fuel ip ip' : drainInternalMacrostep cc env fuel ip = Some ip' → ends ip ip'.
Proof. unfold drainInternalMacrostep. destruct (_ || _); [by intros [= <-] | apply ends_runToStable]. Qed.

Lemma ends_drain env fuel ip ip' : drainQueuedEvents cc env fuel ip = Some ip' → ends ip ip'.
Proof.
  unfold drainQueuedEvents. intros (ip1 & H1%ends_drainExternal & H2%ends_drainInternal)%bind_Some. by etrans.
Qed.

(** ** The completion hook *)

Definition isCompletion (h : hookCall) : bool := match h with CallCompletion => true | _ => false end.
Definition completions (i : Instance) : nat := length (filter (λ h, isCompletion h = true) (in_calls i)).

(** The bookkeeping of the completion hook. *)
Definition hooks (i : Instance) : bool * nat * bool := (in_completionHookCalled i, completions i, in_deferCompletionHook i).

Lemma completions_call h i : isCompletion h = false → completions (with_call h i) = completions i.
Proof. intros H. unfold completions. simpl. rewrite filter_app, filter_cons, H. simpl. by rewrite app_nil_r. Qed.

Record hooks_ok (i : Instance) : Prop := {
  ho_orderly : orderly (in_ip i);
  ho_once : completions i ≤ 1;
  ho_called : in_completionHookCalled i = true ∨ completions i ≠ 0 → completed (in_ip i) = true
}.

(** The hook has not been called, and the interpreter is orderly. *)
Definition uncalled (i : Instance) : Prop :=
  orderly (in_ip i) ∧ in_completionHookCalled i = false ∧ completions i = 0.

(** During a request. *)
Record hooks_unchanged (i j : Instance) : Prop := {
  hu_orderly : orderly (in_ip i) → orderly (in_ip j);
  hu_hooks : hooks j = hooks i
}.

#[local] Instance hooks_unchanged_refl : Reflexive hooks_unchanged.
Proof. by intros i. Qed.
#[local] Instance hooks_unchanged_trans : Transitive hooks_unchanged.
Proof. intros i j k [A B] [C D]. split; [auto | congruence]. Qed.

Lemma hooks_with_ip ip i : ends (in_ip i) ip → hooks_unchanged i (with_ip ip i).
Proof. intros H. split; [by apply ends_orderly | done]. Qed.

Variable rt : runtime.

Lemma drainInstance_hooks fuel i j : drainInstance cc rt fuel i = Some j → hooks_unchanged i j.
Proof. unfold drainInstance. intros (ip & H%ends_drain & [= <-])%bind_Some. by apply hooks_with_ip. Qed.

Lemma timerFire_hooks n i : hooks_unchanged i (takeTimerHookError (instanceTimerFire rt n i)).1.
Proof.
  set (j := instanceTimerFire rt n i).
  assert (hooks j = hooks i) as Hh.
  { unfold j, instanceTimerFire. destruct (pending (in_ip i) !! n) as [rec|]; [|done].
    destruct (rt_timerFiredHook rt); [|done]. unfold hooks. by rewrite completions_call. }
  assert (in_ip j = handleTimerFire (envOf rt i) n (in_ip i)) as Hip by apply timerFire_ip.
  unfold takeTimerHookError. destruct (hookErr (in_ip j)) as [e|] eqn:He; simpl; [by split|].
  split; [|done]. intros [H1 H2]. split; [done|]. rewrite Hip in *. clear Hip Hh. unfold handleTimerFire in *.
  destruct (pending (in_ip i) !! n) as [rec|]; [|done].
  assert (ends (in_ip i) (fireTimer (envOf rt i) n (in_ip i))) as Hf by apply ends_keeps, fireTimer_keeps.
  destruct (env_timerFiredHook _) as [hook|]; [destruct (hook _ _ _ _); [done|]|]; by apply (ends_orderly _ _ Hf).
Qed.

Lemma activateTimers_hooks fuel records i j e : activateTimers cc rt fuel records i = Some (j, e) → hooks_unchanged i j.
Proof.
  revert i. induction records as [|rec records IH]; intros i; simpl; [by intros [= <- _]|].
  case_bool_decide; [apply IH|]. case_decide; [intros Hj%IH; etrans; [|exact Hj]; apply hooks_with_ip; split; auto|].
  pose proof (timerFire_hooks (ps_order rec) i) as Hf. destruct (takeTimerHookError _) as [i1 [e1|]]; simpl in Hf; [by intros [= <- _]|].
  intros (i2 & H2%drainInstance_hooks & Hend)%bind_Some. etrans; [exact Hf|]. etrans; [exact H2|].
  destruct (running (in_ip i2)); [by apply IH in Hend | by injection Hend as <- _].
Qed.

Lemma ends_resumeInvoke env id ri ip : ends ip (resumeInvoke cc rt env id ri ip).1.
Proof.
  unfold resumeInvoke, evaluateInvokeResumeRequest. set (m := act_bind _ _).
  assert (act_keeps m) as Hk by (apply act_keeps_bind; [apply evaluatePayload_keeps | done]).
  pose proof (ends_orReport m ip Hk) as H. destruct (orReport m ip) as [ip1 [rq|]]; simpl in *; [|done].
  etrans; [exact H|]. destruct (rt_factory rt _); [|split; auto]. destruct (rt_makeHandler rt _ _); split; auto.
Qed.

Lemma ends_resumeInvokes env fuel ids ip ip' : resumeInvokes cc rt env fuel ids ip = Some ip' → ends ip ip'.
Proof.
  revert ip. induction ids as [|id ids IH]; intros ip; simpl; [by intros [= <-]|].
  destruct (invokesByID ip !! id) as [ri|]; [|apply IH]. pose proof (ends_resumeInvoke env id ri ip) as Hres.
  destruct (resumeInvoke cc rt env id ri ip) as [ip0 b]. simpl in Hres. intros (ip1 & H1 & Hend)%bind_Some.
  etrans; [exact Hres|]. etrans; [|by eapply IH]. destruct b; [by injection H1 as <- | by eapply ends_drainInternal].
Qed.

Lemma finishReplay_hooks fuel t i j e : finishReplay cc rt fuel t i = Some (j, e) → hooks_unchanged i j.
Proof.
  unfold finishReplay. intros ([i1 e1] & H1%activateTimers_hooks & Hend)%bind_Some.
  transitivity i1; [by destruct H1|]. destruct e1; [by injection Hend as <- _|].
  destruct (running (in_ip i1)); [|by injection Hend as <- _]. apply bind_Some in Hend as (i2 & H2 & [= <- _]).
  unfold resumeInvokesAfterReplay in H2. apply bind_Some in H2 as (ip & H2%ends_resumeInvokes & [= <-]).
  by apply hooks_with_ip.
Qed.

Lemma ends_dispatchNow env s t y ev ip : ends ip (dispatchNow env s t y ev ip).
Proof. apply ends_keeps, dispatchNow_keeps. Qed.

Lemma acceptEvent_hooks ev i : hooks_unchanged i (acceptEvent rt ev i).1.
Proof.
  unfold acceptEvent. case_bool_decide; [done|].
  assert (ends (in_ip i) (enqueue ev (in_ip i))) as He by (unfold enqueue; case_decide; split; auto).
  destruct (rt_ingressHook rt) as [hook|]; [|by apply hooks_with_ip]. destruct (in_live i); [|by apply hooks_with_ip].
  assert (hooks (with_call (CallIngress ev) i) = hooks i) as Hc by (unfold hooks; by rewrite completions_call).
  simpl. destruct (hook _ ev); simpl; (split; [|exact Hc]); [apply orderly_stopped | by apply ends_orderly].
Qed.

Lemma apply_hooks fuel req i j e : apply cc rt fuel req i = Some (j, e) → hooks_unchanged i j.
Proof.
  assert (hooks_unchanged i (stop i)) as Hs by (split; [apply orderly_stopped | done]).
  destruct req as [ev| |n| |save| |entry|t]; simpl.
  - intros [= H]. pose proof (acceptEvent_hooks ev i) as Ha. by rewrite H in Ha.
  - by intros [= <- _].
  - intros [= H]. pose proof (timerFire_hooks n i) as Ha. by rewrite H in Ha.
  - by intros [= <- _].
  - destruct (buildSnapshot _ _ _) as [snap|]; [destruct (save snap)|]; by intros [= <- _].
  - by intros [= <- _].
  - destruct (replayTimerFire _ _ _ _ _ _) as [ip found] eqn:Hr. intros [= <- _]. apply hooks_with_ip.
    assert (ends (in_ip i) ip) as Hip.
    { replace ip with (replayTimerFire (envOf rt i) (le_SendID entry) (le_Target entry) (le_Type entry) (le_Event entry) (in_ip i)).1
        by (by rewrite Hr). unfold replayTimerFire. destruct (timerMatch _ _ _ _ _) as [rec|]; [|done]. simpl.
      exact (ends_dispatchNow (envOf rt i) _ _ _ _ (set_pending (delete (ps_order rec) (pending (in_ip i))) (in_ip i))). }
    destruct found; [done|]. etrans; [exact Hip | apply ends_dispatchNow].
  - apply finishReplay_hooks.
Qed.

Lemma uncalled_unchanged i j : hooks_unchanged i j → uncalled i → uncalled j.
Proof. intros [H1 [= E1 E2 E3]] (Ho & Hf & Hc). split_and!; [auto | congruence | congruence]. Qed.

Lemma finish_hooks i : uncalled i → 
  hooks_ok (finishNaturalCompletion rt i).1
  ∧ (∀ hook, rt_completionHook rt = Some hook → in_deferCompletionHook i = false →
       completions (finishNaturalCompletion rt i).1 = if completed (in_ip i) then 1 else 0).
Proof.
  intros (Ho & Hf & Hc). unfold finishNaturalCompletion. destruct (completed (in_ip i)) eqn:Hd; simpl.
  2: { split; [|done]. split; [done | lia |]. intros [H|H]; congruence. }
  destruct (in_deferCompletionHook i).
  { split; [|done]. split; [done | unfold completions in *; simpl; lia | done]. }
  rewrite Hf. assert (∀ b e p, completions (with_call CallCompletion (with_completion b e p i)) = 1) as H1.
  { intros b e p. unfold completions in *. simpl. rewrite filter_app, length_app, Hc. done. }
  destruct (rt_completionHook rt) as [hook|]; simpl.
  2: { split; [|done]. split; [done | unfold completions in *; simpl; lia | done]. }
  specialize (H1 true (in_completionHookErr i) (in_completionPending i)).
  destruct (hook _); simpl; (split; [split; [done | | done] | intros ? _ _]).
  all: unfold completions in *; simpl in *; lia.
Qed.

Lemma settle_hooks fuel i j e : settle cc rt fuel i = Some (j, e) → uncalled i →
  hooks_ok j ∧ ∀ hook, rt_completionHook rt = Some hook → in_deferCompletionHook i = false →
    completions j = if completed (in_ip j) then 1 else 0.
Proof.
  unfold settle. intros (i1 & H1%drainInstance_hooks & [= Hj])%bind_Some Hu. set (i2 := if running (in_ip i1) then i1 else _) in Hj.
  assert (hooks_unchanged i (publishConfig cc i2)) as H2.
  { etrans; [exact H1|]. unfold i2. destruct (running (in_ip i1)); [by split|].
    destruct (hooks_with_ip (exitInterpreter c (envOf rt i1) (in_ip i1)) i1) as [A B]; [apply ends_exitInterpreter | by split]. }
  destruct (finish_hooks (publishConfig cc i2)) as [F1 F2]; [by eapply uncalled_unchanged|].
  destruct (finishNaturalCompletion_frame rt (publishConfig cc i2)) as [F _]. rewrite Hj in *. simpl in F.
  split; [done|]. intros hook Hhook Hd. rewrite F. apply (F2 hook Hhook).
  transitivity (hooks (publishConfig cc i2)).2; [done|]. by rewrite (hu_hooks _ _ H2).
Qed.

Lemma running_uncalled i : hooks_ok i → running (in_ip i) = true → uncalled i.
Proof.
  intros [[H1 H2] H3 H4] Hr. specialize (H2 Hr). split_and!; [done | |].
  - destruct (in_completionHookCalled i); [|done]. rewrite H4 in H2; [done | by left].
  - destruct (completions i) eqn:E; [done|]. rewrite H4 in H2; [done | by right].
Qed.

Lemma handle_hooks fuel req i j r : handle cc rt fuel req i = Some (j, r) → running (in_ip i) = true → hooks_ok i →
  hooks_ok j ∧ ∀ hook, rt_completionHook rt = Some hook → in_deferCompletionHook i = false →
    completions j = if completed (in_ip j) then 1 else 0.
Proof.
  unfold handle. intros ([i1 e1] & H1%apply_hooks & Hend)%bind_Some Hr Hi.
  apply bind_Some in Hend as ([i2 e2] & H2 & [= <- _]).
  destruct (settle_hooks _ _ _ _ H2) as [F1 F2]; [by eapply uncalled_unchanged, running_uncalled|].
  split; [done|]. intros hook Hhook Hd. apply (F2 hook Hhook).
  transitivity (hooks i1).2; [done|]. by rewrite (hu_hooks _ _ H1).
Qed.

Lemma uncalled_ok i : uncalled i → hooks_ok i.
Proof. intros (H1 & H2 & H3). split; [done | lia |]. intros [?|?]; congruence. Qed.

Lemma boot_hooks fuel i j : boot cc rt fuel i = Some j → uncalled i → (in_restored i = false → completed (in_ip i) = false) →
  hooks_ok j.
Proof.
  unfold boot. intros ([i1 err] & H0 & Hend)%bind_Some Hu Hnew.
  assert (uncalled i1) as Hu1.
  { destruct (in_restored i); simpl in H0.
    - destruct (in_deferTimerActivation i); simpl in H0; [by injection H0 as <- _|].
      apply activateTimers_hooks in H0. eapply uncalled_unchanged; [exact H0|]. by destruct Hu.
    - apply bind_Some in H0 as (ip & H0 & [= <- _]). unfold start in H0. apply bind_Some in H0 as (ip0 & Hin & H0).
      apply ends_runToStable in H0. destruct Hu as ([Hh _] & Hu). split; [|exact Hu]. simpl. apply (ends_orderly _ _ H0).
      apply ends_enterInitial in Hin as [E1 E2]. split; [congruence|]. unfold flags in E2. rewrite Hnew in E2 by done.
      destruct E2 as [[= _ ->]|[= -> ->]]; done. }
  destruct err; simpl in Hend.
  - injection Hend as <-. apply uncalled_ok. destruct Hu1 as [H1 H2]. split; [|exact H2]. simpl.
    eapply ends_orderly, H1. apply ends_exitInterpreter.
  - apply bind_Some in Hend as ([i2 e2] & H2 & [= <-]). by eapply settle_hooks.
Qed.

(** ** The hook is called *)

(** A completed instance has called the hook, or keeps the call for later. *)
Definition accounted (i : Instance) : Prop :=
  completed (in_ip i) = true →
  completions i = 1 ∨ (in_completionPending i = true ∧ in_completionHookCalled i = false ∧ completions i = 0).

Section accounted.
Variable hook : list hookCall → option error.
Hypothesis Hhook : rt_completionHook rt = Some hook.

Lemma settle_accounted fuel i j e : settle cc rt fuel i = Some (j, e) → uncalled i → accounted j.
Proof using Hhook.
  intros Hs Hu. destruct (in_deferCompletionHook i) eqn:Hd.
  2: { intros Hc. left. destruct (settle_hooks fuel i j e Hs Hu) as [_ H]. rewrite (H hook Hhook Hd). by rewrite Hc. }
  unfold settle in Hs. apply bind_Some in Hs as (i1 & H1%drainInstance_hooks & [= Hj]). set (i2 := if running (in_ip i1) then i1 else _) in Hj.
  assert (hooks i2 = hooks i) as Hh by (rewrite <- (hu_hooks _ _ H1); unfold i2; by destruct (running (in_ip i1))).
  destruct Hu as (_ & Hf & Hn). unfold hooks in Hh. injection Hh as E1 E2 E3. unfold finishNaturalCompletion in Hj. cbn in Hj. intros Hc.
  destruct (completed (in_ip i2)) eqn:Hc2; cbn in Hj.
  2: { injection Hj as <- _. cbn in Hc. congruence. }
  rewrite E3, Hd in Hj. injection Hj as <- _. right. cbn. split_and!; [done|congruence|]. unfold completions in *. cbn. congruence.
Qed.

Lemma timerFire_completed n i : completed (in_ip (takeTimerHookError (instanceTimerFire rt n i)).1) = completed (in_ip i).
Proof using Type.
  assert (completed (in_ip (instanceTimerFire rt n i)) = completed (in_ip i)) as H.
  { rewrite timerFire_ip. unfold handleTimerFire. destruct (pending (in_ip i) !! n) as [rec|]; [|done].
    assert (completed (fireTimer (envOf rt i) n (in_ip i)) = completed (in_ip i)) as Hk by (unfold completed; by rewrite fireTimer_keeps).
    destruct (env_timerFiredHook _) as [h|]; [by destruct (h _ _ _ _)|done]. }
  unfold takeTimerHookError. by destruct (hookErr (in_ip (instanceTimerFire rt n i))).
Qed.

(** A timer's hook fails before the chart completes. *)
Lemma activateTimers_uncompleted fuel records i j e : activateTimers cc rt fuel records i = Some (j, Some e) →
  orderly (in_ip i) → completed (in_ip i) = false → completed (in_ip j) = false.
Proof using Type.
  revert i. induction records as [|rec records IH]; intros i; simpl; [done|]. case_bool_decide; [apply IH|].
  case_decide; [intros Hx Ho Hc; by eapply IH; [exact Hx|..]|].
  pose proof (timerFire_completed (ps_order rec) i) as Hf. pose proof (timerFire_hooks (ps_order rec) i) as [Hof _].
  destruct (takeTimerHookError _) as [i1 [e1|]]; simpl in Hf, Hof; [intros [= <- _] _; congruence|].
  intros (i2 & H2%drainInstance_hooks & Hend)%bind_Some Ho Hc. destruct (running (in_ip i2)) eqn:Hr; [|done].
  assert (orderly (in_ip i2)) as Ho2 by apply H2, Hof, Ho. eapply IH; [exact Hend|done|]. by apply Ho2.
Qed.

Lemma boot_accounted fuel i j : boot cc rt fuel i = Some j → uncalled i → completed (in_ip i) = false → accounted j.
Proof using Hhook.
  intros Hb Hu Hc. unfold boot in Hb. apply bind_Some in Hb as ([i1 err] & H0 & Hend).
  assert (uncalled i1) as Hu1.
  { destruct (in_restored i); simpl in H0.
    - destruct (in_deferTimerActivation i); simpl in H0; [by injection H0 as <- _|].
      apply activateTimers_hooks in H0. eapply uncalled_unchanged; [exact H0|]. by destruct Hu.
    - apply bind_Some in H0 as (ip & H0 & [= <- _]). unfold start in H0. apply bind_Some in H0 as (ip0 & Hin & H0).
      apply ends_runToStable in H0. destruct Hu as ([Hh _] & Hu). split; [|exact Hu]. simpl. apply (ends_orderly _ _ H0).
      apply ends_enterInitial in Hin as [E1 E2]. split; [congruence|]. unfold flags in E2. rewrite Hc in E2.
      destruct E2 as [[= _ ->]|[= -> ->]]; done. }
  destruct err as [e|]; simpl in Hend.
  - injection Hend as <-. intros Hc'. exfalso. cbn in Hc'.
    destruct (exitInterpreter_flags c (envOf rt i1) (in_ip i1)) as [E _]. unfold flags in E. injection E as _ E2. rewrite E2 in Hc'.
    destruct (in_restored i); simpl in H0; [|by apply bind_Some in H0 as (? & _ & ?)].
    destruct (in_deferTimerActivation i); simpl in H0; [done|]. destruct Hu as [Ho _].
    apply activateTimers_uncompleted in H0; [congruence|exact Ho|exact Hc].
  - apply bind_Some in Hend as ([i2 e2] & H2 & [= <-]). by eapply settle_accounted.
Qed.

Lemma handle_accounted fuel req i j r : handle cc rt fuel req i = Some (j, r) → running (in_ip i) = true → hooks_ok i → accounted j.
Proof using Hhook.
  unfold handle. intros ([i1 e1] & H1%apply_hooks & Hend)%bind_Some Hr Hi. apply bind_Some in Hend as ([i2 e2] & H2 & [= <- _]).
  eapply settle_accounted; [exact H2|]. by eapply uncalled_unchanged, running_uncalled.
Qed.

(** [releaseDeferredCompletion] calls a hook that was kept for later. *)
Lemma release_calls i : completed (in_ip i) = true → in_completionHookCalled i = false → completions i = 0 →
  completions (releaseCompletion rt i).1 = 1.
Proof using Hhook.
  intros Hc Hf Hn. unfold releaseCompletion, finishNaturalCompletion. cbn. rewrite Hc, Hf, Hhook. cbn.
  destruct (hook _); unfold completions in *; cbn; rewrite filter_app, length_app, Hn; done.
Qed.
End accounted.
End hooks.

Section lives.
Context `{SS : SnapshotSession}.
Variable cc : compiledChart.
Abbreviation c := (cc_chart cc).

Lemma restored_orderly cfg factory t snap rs :
  restoreInstanceFromFactory cc cfg factory t snap = Ok rs → orderly (rs_interpretation rs).
Proof.
  unfold restoreInstanceFromFactory. intros (_ & _ & H)%result_bind_Ok. destruct factory as [[fresh|]|]; [|done..].
  unfold restoreInstanceForSession in H. destruct (restoreFrom cc snap _) as [ip|e] eqn:Hip; [|done].
  destruct (DecodeSnapshot _ _) as [s|e]; [|done]. injection H as <-. unfold restoreFrom in Hip.
  do 4 apply result_bind_Ok in Hip as (? & _ & Hip). injection Hip as <-. done.
Qed.

Lemma life_hooks rt i : life cc rt i → hooks_ok i.
Proof.
  induction 1 as [rt s t fuel a b d l i Hb | rt i fuel req i' r _ IH Hr Hh | rt i t _ IH | rt i id _ IH | rt i a b d l _ IH
    | rt i snap cfg factory t rs rt' fuel a b d l i' _ IH Hsnap Hrs Hb].
  - eapply boot_hooks; [exact Hb | done | done].
  - by eapply handle_hooks.
  - destruct IH. by split.
  - destruct IH. by split.
  - destruct IH. by split.
  - eapply boot_hooks; [exact Hb | | done]. split; [by eapply restored_orderly | done].
Qed.

Lemma restored_incomplete cfg factory t snap rs :
  restoreInstanceFromFactory cc cfg factory t snap = Ok rs → completed (rs_interpretation rs) = false.
Proof.
  unfold restoreInstanceFromFactory. intros (_ & _ & H)%result_bind_Ok. destruct factory as [[fresh|]|]; [|done..].
  unfold restoreInstanceForSession in H. destruct (restoreFrom cc snap _) as [ip|e] eqn:Hip; [|done].
  destruct (DecodeSnapshot _ _) as [s|e]; [|done]. injection H as <-. unfold restoreFrom in Hip.
  do 4 apply result_bind_Ok in Hip as (? & _ & Hip). by injection Hip as <-.
Qed.

Lemma life_accounted rt i hook : life cc rt i → rt_completionHook rt = Some hook → accounted i.
Proof.
  intros Hl. revert hook. induction Hl as [rt s t fuel a b d l i Hb | rt i fuel req i' r Hl _ Hr Hh | rt i t _ IH | rt i id _ IH | rt i a b d l _ IH
    | rt i snap cfg factory t rs rt' fuel a b d l i' _ IH Hsnap Hrs Hb]; intros hook Hhook.
  - by eapply (boot_accounted _ _ hook Hhook _ _ _ Hb).
  - eapply (handle_accounted _ _ hook Hhook _ _ _ _ _ Hh); [done|by apply (life_hooks rt)].
  - exact (IH hook Hhook).
  - exact (IH hook Hhook).
  - exact (IH hook Hhook).
  - eapply (boot_accounted _ _ hook Hhook _ _ _ Hb); [|by eapply restored_incomplete]. split; [by eapply restored_orderly | done].
Qed.

(** C20 (safety): the completion hook runs exactly once, and only for a natural
    completion.  In the whole life of an instance it is called at most once; if
    it has been called, a top-level final state was reached and the instance
    runs no more.  And whenever an instance with a hook has completed, at its
    start, in a request or in a timer that fired when it was restored, the hook has
    been called by the time its caller gets an answer; or a replay defers it, and
    then [releaseDeferredCompletion] calls it once. *)
Theorem completion_hook_once (rt : runtime) (i : Instance) :
  life cc rt i →
  completions i ≤ 1
  ∧ (completions i ≠ 0 → completed (in_ip i) = true ∧ running (in_ip i) = false)
  ∧ ∀ hook, rt_completionHook rt = Some hook → completed (in_ip i) = true →
      completions i = 1 ∨ (in_completionPending i = true ∧ completions i = 0 ∧ completions (releaseCompletion rt i).1 = 1).
Proof.
  intros Hl. pose proof (life_hooks _ _ Hl) as Hi. destruct Hi as [[Ho Hrun] Honce Hcalled]. split_and!; [done | |].
  - intros Hn. assert (completed (in_ip i) = true) as Hd by auto. split; [done|].
    destruct (running (in_ip i)) eqn:Hr; [|done]. specialize (Hrun eq_refl). congruence.
  - intros hook Hhook Hc. destruct (life_accounted rt i hook Hl Hhook Hc) as [?|(Hp & Hf & Hn)]; [by left|right].
    split_and!; [done..|]. by eapply release_calls.
Qed.

(** C22 (error): an input that was not recorded is not applied.  When the ingress
    hook rejects an event, or the timer hook the firing of a timer, the request
    reports that error, the instance stops with it, and the interpreter is left
    exactly as it was, except that it exits its states: the event is in no
    queue, and the timer has dispatched nothing. *)
Theorem unrecorded_input_not_applied (rt : runtime) (i : Instance) (fuel : nat) :
  life cc rt i → running (in_ip i) = true →
  (∀ ev hook e, rt_ingressHook rt = Some hook → in_live i = true →
     (InvokeID ev = "" ∨ is_Some (invokesByID (in_ip i) !! InvokeID ev)) → hook (in_calls i) ev = Some e →
     ∃ i', handle cc rt fuel (reqSend ev) i = Some (i', respond (Some (Wrapf "statecharts: ingress hook: " e)))
       ∧ in_ip i' = exitInterpreter c (envOf rt (with_call (CallIngress ev) i)) (set_running false (in_ip i))
       ∧ in_err i' = Some (Wrapf "statecharts: ingress hook: " e) ∧ in_calls i' = in_calls i ++ [CallIngress ev])
  ∧ (∀ n rec hook e, rt_timerFiredHook rt = Some hook → pending (in_ip i) !! n = Some rec →
       hook (in_calls i) (ps_sendID rec) (ps_target rec) (ps_typ rec) (ps_event rec) = Some e →
       let call := CallTimer (ps_sendID rec) (ps_target rec) (ps_typ rec) (ps_event rec) in
       ∃ i', handle cc rt fuel (reqTimerFired n) i = Some (i', respond (Some e))
         ∧ in_ip i' = exitInterpreter c (envOf rt (with_call call i)) (set_running false (in_ip i))
         ∧ in_err i' = Some e ∧ in_calls i' = in_calls i ++ [call]).
Proof.
  intros Hl Hr. destruct (ho_orderly _ (life_hooks _ _ Hl)) as [Hh Hc]. specialize (Hc Hr).
  assert (∀ j, running (in_ip j) = false → completed (in_ip j) = false →
    settle cc rt fuel j = Some (publishConfig cc (with_ip (exitInterpreter c (envOf rt j) (in_ip j)) j), None)) as Hset.
  { intros j Hj Hcj. unfold settle, drainInstance, drainQueuedEvents.
    assert (drainExternal cc (envOf rt j) fuel fuel (in_ip j) = Some (in_ip j)) as -> by (destruct fuel; simpl; by rewrite Hj).
    simpl. unfold drainInternalMacrostep. rewrite Hj. simpl. rewrite Hj.
    destruct (exitInterpreter_flags c (envOf rt j) (in_ip j)) as [E _]. unfold flags in E. injection E as _ E2.
    unfold finishNaturalCompletion. simpl. change (envOf rt (with_ip (in_ip j) j)) with (envOf rt j). by rewrite E2, Hcj. }
  split.
  - intros ev hook e Hhook Hlive Hown Hans. unfold handle, apply, acceptEvent. rewrite bool_decide_false.
    2: { intros [H1 H2]. destruct Hown as [?|[? ?]]; congruence. }
    rewrite Hhook, Hlive, Hans. simpl. rewrite Hset by done. simpl. eexists. split_and!; done.
  - intros n rec hook e Hhook Hrec Hans call. unfold handle, apply, instanceTimerFire. rewrite Hrec, Hhook.
    unfold handleTimerFire. rewrite Hrec. simpl. rewrite Hhook. simpl. rewrite Hans. unfold takeTimerHookError. simpl.
    rewrite Hset by done. simpl. eexists. split_and!; [done | | done | done]. simpl.
    f_equal. destruct (in_ip i) as [[] ?]. unfold hookErr in Hh. simpl in Hh. by rewrite Hh.
Qed.
End lives.

(** ** Witnesses: a player whose "light" events cannot be recorded *)

Definition hookedRuntime : runtime :=
  mkRuntime plainEnv (λ _, true) (λ _ _, PlainHandler) (λ _, None)
    (Some (λ _ ev, if decide (Name ev = "light") then Some (Errorf "disk full") else None)) None (Some (λ _, None)).

Definition hookedInstance : Instance (DM := CounterSession) := aliveAfter playerDefinition hookedRuntime ["power"].

Lemma hookedInstance_life : life (SS := CounterSnapshot) (compiledOf playerDefinition) hookedRuntime hookedInstance.
Proof. apply aliveAfter_life. vm_compute. reflexivity. Qed.

(** The player stopped by an event; and a chart that has completed when it starts. *)
Definition stoppedInstance : Instance (DM := CounterSession) := aliveAfter playerDefinition hookedRuntime ["power"; "stop"].

Lemma stoppedInstance_life : life (SS := CounterSnapshot) (compiledOf playerDefinition) hookedRuntime stoppedInstance.
Proof. apply aliveAfter_life. vm_compute. reflexivity. Qed.

Definition instantDefinition : ChartDefinition := chartDefinition (Compound "root" "over" [Children [Final "over" []]]).

Lemma instant_life : life (SS := CounterSnapshot) (compiledOf instantDefinition) hookedRuntime (aliveAfter instantDefinition hookedRuntime []).
Proof. apply aliveAfter_life. vm_compute. reflexivity. Qed.

Lemma completion_hook_once_witness :
  completions stoppedInstance = 1 ∧ completions (aliveAfter instantDefinition hookedRuntime []) = 1.
Proof.
  split.
  - destruct (completion_hook_once (SS := CounterSnapshot) (compiledOf playerDefinition) hookedRuntime stoppedInstance stoppedInstance_life)
      as (_ & _ & H).
    destruct (H (λ _, None) eq_refl) as [E|(Hp & _)]; [vm_compute; reflexivity|exact E|]. exfalso. vm_compute in Hp. discriminate Hp.
  - destruct (completion_hook_once (SS := CounterSnapshot) (compiledOf instantDefinition) hookedRuntime _ instant_life) as (_ & _ & H).
    destruct (H (λ _, None) eq_refl) as [E|(Hp & _)]; [vm_compute; reflexivity|exact E|]. exfalso. vm_compute in Hp. discriminate Hp.
Defined.

Lemma unrecorded_input_not_applied_witness :
  ∃ i', handle (SS := CounterSnapshot) (compiledOf playerDefinition) hookedRuntime 50 (reqSend (ext "light")) hookedInstance
    = Some (i', respond (Some (Wrapf "statecharts: ingress hook: " (Errorf "disk full"))))
    ∧ running (in_ip i') = false.
Proof.
  destruct (unrecorded_input_not_applied (SS := CounterSnapshot) (compiledOf playerDefinition) hookedRuntime hookedInstance 50
    hookedInstance_life) as [H _]; [vm_compute; reflexivity|].
  destruct (H (ext "light") (λ _ ev, if decide (Name ev = "light") then Some (Errorf "disk full") else None) (Errorf "disk full"))
    as (i' & Hi & Hip & _); [reflexivity | vm_compute; reflexivity | left; reflexivity | vm_compute; reflexivity |].
  exists i'. split; [exact Hi|]. rewrite Hip. rewrite exitInterpreter_running. reflexivity.
Defined.
