(* ===== verification/Replayed.v ===== *)
(** * Replaying a run (replay.go, log.go, instance.go)

    The log of a run is what its hooks were told.  For a chart without
    invocations, replaying that log rebuilds the interpreter of the live run,
    field by field; only the clock is that of the replay. *)

From S2P Require Import Prelude Identifier Values Events Datamodel Chart Tree Legal Interp Actions Entry Steps Macrostep Evolution Examples Execution Completion Definitions Validate Compile Accepted Authoring Snapshot Restored Storage Instance Replay Lifetime Lives Hooks.
From Stdlib Require Import FunctionalExtensionality.
From stdpp Require Import options.

(** ** Environments that differ in the runner and the timer hook *)

Definition with_runner (start : list InvokeRequest → InvokeRequest → result bool)
    (hook : option (Identifier → Identifier → Identifier → Event → option error)) (env : environment) : environment :=
  mkEnvironment (env_sessionID env) (env_name env) (env_deliveryNamespace env) (env_processor env) (env_ioSend env)
    start (env_parseDuration env) hook.

Section runner.
Context `{DM : DatamodelSession}.
Variable c : Chart.
Variable E : environment.
Variables start start' : list InvokeRequest → InvokeRequest → result bool.
Variables hook hook' : option (Identifier → Identifier → Identifier → Event → option error).
Abbreviation e := (with_runner start hook E).
Abbreviation e' := (with_runner start' hook' E).

Lemma runner_blocks bs ip : runActionBlocks c e bs ip = runActionBlocks c e' bs ip.
Proof. reflexivity. Qed.

Lemma runner_dispatchNow s t y ev ip : dispatchNow e s t y ev ip = dispatchNow e' s t y ev ip.
Proof. reflexivity. Qed.

Lemma runner_initializeData ds ip : initializeData c e ds ip = initializeData c e' ds ip.
Proof. reflexivity. Qed.

Lemma runner_stateDone p ip : evaluateStateDone c e p ip = evaluateStateDone c e' p ip.
Proof. reflexivity. Qed.

Lemma runner_selectTransitions ev ip : selectTransitions c e ev ip = selectTransitions c e' ev ip.
Proof. reflexivity. Qed.

Lemma runner_selectEventless ip : selectEventlessTransitions c e ip = selectEventlessTransitions c e' ip.
Proof. reflexivity. Qed.

Lemma runner_sideEffects ev ip : applyInvokeSideEffects c e ev ip = applyInvokeSideEffects c e' ev ip.
Proof. reflexivity. Qed.

#[local] Opaque with_runner.

Lemma runner_exitState s ip : exitState c e s ip = exitState c e' s ip.
Proof. unfold exitState. destruct (state_of c s); [|reflexivity]. by rewrite runner_blocks. Qed.

Lemma foldl_ext_eq {A B} (f g : A → B → A) l a : (∀ a b, f a b = g a b) → foldl f a l = foldl g a l.
Proof. intros H. revert a. induction l as [|b l IH]; intros a; simpl; [reflexivity|]. by rewrite H. Qed.

Lemma runner_exitInterpreter ip : exitInterpreter c e ip = exitInterpreter c e' ip.
Proof. unfold exitInterpreter. by rewrite (foldl_ext_eq _ (λ ip s, exitState c e' s ip)) by (intros; apply runner_exitState). Qed.

Lemma runner_enterFinal s cs ip : enterFinal c e s cs ip = enterFinal c e' s cs ip.
Proof. unfold enterFinal. by rewrite runner_stateDone. Qed.

Lemma runner_enterState s ds ip : enterState c e s ds ip = enterState c e' s ds ip.
Proof.
  unfold enterState. destruct (state_of c s) as [cs|]; [|reflexivity]. rewrite !runner_blocks.
  assert (∀ ip, initializeStateData c e s cs ip = initializeStateData c e' s cs ip) as Hd.
  { intros ip0. unfold initializeStateData. destruct (st_data cs); [reflexivity|]. by rewrite runner_initializeData. }
  rewrite Hd. case_decide; [apply runner_enterFinal | reflexivity].
Qed.

Lemma runner_enterStates entry ip : enterStates c e entry ip = enterStates c e' entry ip.
Proof. apply foldl_ext_eq. intros. apply runner_enterState. Qed.

Lemma runner_exitStates X ip : exitStates c e X ip = exitStates c e' X ip.
Proof. unfold exitStates. apply foldl_ext_eq. intros. apply runner_exitState. Qed.

Lemma runner_microstep trigger ts ip : microstep c e trigger ts ip = microstep c e' trigger ts ip.
Proof.
  unfold microstep. destruct (computeEntrySet c ip ts) as [entry|]; simpl; [|reflexivity].
  rewrite runner_enterStates, runner_exitStates.
  by rewrite (foldl_ext_eq (λ ip t, runActionBlocks c e (t_actions t) ip) (λ ip t, runActionBlocks c e' (t_actions t) ip))
    by (intros; apply runner_blocks).
Qed.

Lemma runner_takeExternal ev queue ip : takeExternal c e ev queue ip = takeExternal c e' ev queue ip.
Proof.
  unfold takeExternal. rewrite runner_sideEffects, runner_selectTransitions.
  destruct (selectTransitions c e' _ _) as [ip' [|t ts]]; [reflexivity|]. apply runner_microstep.
Qed.

Lemma runner_enterInitial ip : enterInitial c e ip = enterInitial c e' ip.
Proof.
  unfold enterInitial. rewrite runner_initializeData.
  assert (∀ l ip, foldl (initializeEarly c e) ip l = foldl (initializeEarly c e') ip l) as Hf.
  { intros l ip0. apply foldl_ext_eq. intros ip1 s. unfold initializeEarly. destruct (state_of c s) as [cs|]; [|reflexivity].
    destruct (st_data cs); [reflexivity|]. by rewrite runner_initializeData. }
  rewrite Hf. destruct (initialEntrySet c _); simpl; [|reflexivity]. by rewrite runner_enterStates.
Qed.

(** The chart declares no invocation. *)
Hypothesis Hnone : ∀ s, invokes c s = [].

Lemma no_processInvokes env ip : processInvokes c env ip = set_statesToInvoke ∅ ip.
Proof using Hnone.
  unfold processInvokes. generalize (set_statesToInvoke ∅ ip). induction (sort_asc (statesToInvoke ip)) as [|s l IH]; intros ip0; simpl; [reflexivity|].
  by rewrite Hnone.
Qed.

Lemma runner_iteration ip : stableIteration c e ip = stableIteration c e' ip.
Proof using Hnone.
  unfold stableIteration. rewrite runner_selectEventless. destruct (selectEventlessTransitions c e' ip) as [ip1 [|t ts]].
  - destruct (internalQueue ip1) as [|ev queue]; [by rewrite !no_processInvokes|]. rewrite runner_selectTransitions.
    destruct (selectTransitions c e' ev _) as [ip2 [|u us]]; [done|]. by rewrite runner_microstep.
  - by rewrite runner_microstep.
Qed.

Lemma runner_runToStable fuel ip : runToStable c e fuel ip = runToStable c e' fuel ip.
Proof using Hnone.
  revert ip. induction fuel as [|fuel IH]; intros ip; simpl; [reflexivity|]. rewrite runner_iteration.
  destruct (running ip); [|done]. destruct (stableIteration c e' ip) as [[ip1 [|]]|]; simpl; auto.
Qed.

Lemma runner_processNextExternal fuel ip : processNextExternal c e fuel ip = processNextExternal c e' fuel ip.
Proof using Hnone.
  unfold processNextExternal. destruct (running ip); [|done]. destruct (externalQueue ip) as [|ev queue]; [done|].
  rewrite runner_takeExternal. destruct (takeExternal c e' ev queue ip); simpl; [|reflexivity]. by rewrite runner_runToStable.
Qed.
End runner.

(** ** The log of a run *)

(** The entries of the hooks of log.go and of the actor's ingress. *)
Definition external_entry (sess : string) (seq : N) (t : Z) (ev : Event) : LogEntry := mkEntry sess seq KindExternalEvent t ev "" "" "".
Definition LoggingTimerFiredDetailsHook (sess : string) (seq : N) (t : Z) (sendID target typ : Identifier) (ev : Event) : LogEntry :=
  mkEntry sess seq KindTimerFired t ev sendID target typ.
Definition LoggingTimerFiredHook (sess : string) (seq : N) (t : Z) (sendID : Identifier) (ev : Event) : LogEntry :=
  mkEntry sess seq KindTimerFired t ev sendID "" "".
Definition started_entry (sess : string) (seq : N) (t : Z) : LogEntry := mkEntry sess seq KindSessionStarted t zeroEvent "" "" "".

Section replayed.
Context `{SS : SnapshotSession}.
Variable cc : compiledChart.
Variable rt : runtime.
Abbreviation c := (cc_chart cc).

(** A live run from [i] to [i'] and the entries that are recorded for it: every
    request is an event that an accepted [Send] or [Deliver] brings, or the
    firing of a pending send; of several pending sends that the log cannot tell
    apart the one that is due first fires first. *)
Inductive recorded_run (fuel : nat) : Instance → list LogEntry → Instance → Prop :=
| run_none i : recorded_run fuel i [] i
| run_event sess seq t ev i i1 r log i2 :
    running (in_ip i) = true → (InvokeID ev = "" ∨ is_Some (invokesByID (in_ip i) !! InvokeID ev)) →
    handle cc rt fuel (reqSend ev) (at_time t i) = Some (i1, r) → recorded_run fuel i1 log i2 →
    recorded_run fuel i (external_entry sess seq t ev :: log) i2
| run_timer sess seq t n rec i i1 r log i2 :
    running (in_ip i) = true → pending (in_ip i) !! n = Some rec → due_first (in_ip i) n rec →
    handle cc rt fuel (reqTimerFired n) (at_time t i) = Some (i1, r) → recorded_run fuel i1 log i2 →
    recorded_run fuel i (LoggingTimerFiredDetailsHook sess seq t (ps_sendID rec) (ps_target rec) (ps_typ rec) (ps_event rec) :: log) i2.

(** The processors answer during a replay what they answered live: a
    replay-aware one in its [ReplaySend], another one accepts everything. *)
Hypothesis Hsend : ∀ calls req, replayGateSend rt calls req = env_ioSend (rt_env rt) calls req.
(** The chart declares no invocation. *)
Hypothesis Hnone : ∀ s, invokes c s = [].
(** Everything is recorded. *)
Hypothesis Hingress : ∀ hook calls ev, rt_ingressHook rt = Some hook → hook calls ev = None.
Hypothesis Htimer : ∀ hook calls s t y ev, rt_timerFiredHook rt = Some hook → hook calls s t y ev = None.

Lemma envOf_runner i : ∃ start hook, envOf rt i = with_runner start hook (rt_env rt).
Proof using Hsend.
  assert (replayGateSend rt = env_ioSend (rt_env rt)) as E
    by (apply functional_extensionality; intros calls; apply functional_extensionality, Hsend).
  unfold envOf, with_runner. rewrite E. destruct (in_live i); eauto.
Qed.

Lemma drainExternal_same i j n fuel ip : drainExternal cc (envOf rt i) n fuel ip = drainExternal cc (envOf rt j) n fuel ip.
Proof using Hsend Hnone.
  destruct (envOf_runner i) as (st & hk & ->), (envOf_runner j) as (st' & hk' & ->).
  revert ip. induction n as [|n IH]; intros ip; simpl; [reflexivity|].
  rewrite (runner_processNextExternal c (rt_env rt) st st' hk hk') by done.
  destruct (running ip && _); [|reflexivity]. destruct (processNextExternal c _ fuel ip) as [[ip1 [|]]|]; simpl; auto.
Qed.

Lemma drain_same i j fuel ip : drainQueuedEvents cc (envOf rt i) fuel ip = drainQueuedEvents cc (envOf rt j) fuel ip.
Proof using Hsend Hnone.
  unfold drainQueuedEvents. rewrite (drainExternal_same i j). destruct (drainExternal cc _ fuel fuel ip) as [ip1|]; simpl; [|reflexivity].
  unfold drainInternalMacrostep. destruct (_ || _); [reflexivity|].
  destruct (envOf_runner i) as (st & hk & ->), (envOf_runner j) as (st' & hk' & ->). by apply runner_runToStable.
Qed.

Lemma exit_same i j ip : exitInterpreter c (envOf rt i) ip = exitInterpreter c (envOf rt j) ip.
Proof using Hsend. destruct (envOf_runner i) as (st & hk & ->), (envOf_runner j) as (st' & hk' & ->). apply runner_exitInterpreter. Qed.

Lemma dispatch_same i j s t y ev ip : dispatchNow (envOf rt i) s t y ev ip = dispatchNow (envOf rt j) s t y ev ip.
Proof using Hsend. destruct (envOf_runner i) as (st & hk & ->), (envOf_runner j) as (st' & hk' & ->). apply runner_dispatchNow. Qed.

(** An instance during a replay: the gate is closed and the completion hook deferred. *)
Record shut (j : Instance) : Prop := {
  sh_defer : in_deferCompletionHook j = true;
  sh_pending : in_completionPending j = true → completed (in_ip j) = true;
  sh_gate : in_live j = false;
  sh_hook : in_completionHookCalled j = false ∧ in_completionHookErr j = None
}.

(** The instance [j] that replays [i]: the same interpreter, up to the clock. *)
Record twin (i j : Instance) : Prop := {
  tw_ip : set_now 0 (in_ip j) = set_now 0 (in_ip i);
  tw_shut : shut j;
  tw_completed : completed (in_ip j) = true → in_completionPending j = true
}.

Lemma twin_at t i j : twin i j → in_ip (at_time t j) = in_ip (at_time t i).
Proof using Type.
  intros [H _ _]. unfold at_time. simpl. change (set_now t (set_now 0 (in_ip j)) = set_now t (set_now 0 (in_ip i))). by rewrite H.
Qed.

Lemma settle_twin fuel i i' e j : settle cc rt fuel i = Some (i', e) → in_ip j = in_ip i → shut j →
  ∃ j', settle cc rt fuel j = Some (j', None) ∧ in_err j' = in_err j ∧ twin i' j'.
Proof using Hsend Hnone.
  unfold settle, drainInstance. intros (i1 & (ip & H1 & [= <-])%bind_Some & [= Hi])%bind_Some Hip [Hd Hp Hl [Hf He]].
  rewrite Hip, (drain_same j i), H1. simpl.
  set (ip2 := if running ip then ip else exitInterpreter c (envOf rt i) ip).
  assert (∀ k, envOf rt (with_ip ip k) = envOf rt k) as Henv by done.
  assert (in_ip i' = ip2) as Ei.
  { destruct (finishNaturalCompletion_frame rt (publishConfig cc (if running ip then with_ip ip i
      else with_ip (exitInterpreter c (envOf rt (with_ip ip i)) ip) (with_ip ip i)))) as [F _].
    rewrite Hi in F. simpl in F. rewrite F. unfold ip2. rewrite Henv. by destruct (running ip). }
  set (j2 := publishConfig cc _). assert (in_ip j2 = ip2) as Ej.
  { unfold j2, ip2. simpl. rewrite Henv, (exit_same j i). by destruct (running ip). }
  assert (in_deferCompletionHook j2 = true ∧ in_live j2 = false ∧ in_completionPending j2 = in_completionPending j
    ∧ in_err j2 = in_err j ∧ in_completionHookCalled j2 = false ∧ in_completionHookErr j2 = None) as (Dj & Lj & Pj & Rj & Fj & Kj)
    by (unfold j2; destruct (running ip); split_and!; first [exact Hd | exact Hl | exact Hf | exact He | reflexivity]).
  assert (ends (in_ip j) ip2) as Hends.
  { rewrite Hip. etrans; [by apply (ends_drain cc (envOf rt i) fuel)|]. unfold ip2. destruct (running ip); [done | apply ends_exitInterpreter]. }
  assert (completed (in_ip j) = true → completed ip2 = true) as Hcompl.
  { intros Hc. destruct Hends as [_ [E|E]]; unfold flags in E; injection E as _ ->; done. }
  unfold finishNaturalCompletion. rewrite Dj. destruct (completed (in_ip j2)) eqn:Hc2; simpl.
  - eexists. split; [reflexivity|]. assert (in_ip j2 = in_ip i') as E2 by congruence.
    split; [exact Rj|]. split; [exact (f_equal (set_now 0) E2) | | done]. split; [exact Dj | intros _; exact Hc2 | exact Lj | done].
  - exists j2. split; [reflexivity|]. assert (in_ip j2 = in_ip i') as E2 by congruence.
    split; [exact Rj|]. split; [exact (f_equal (set_now 0) E2) | | congruence]. split; [exact Dj | | exact Lj | done].
    intros Hpj. rewrite Pj in Hpj. specialize (Hcompl (Hp Hpj)). congruence.
Qed.

Lemma handle_twin fuel req req' i i1 e1 i2 r j j1 :
  apply cc rt fuel req i = Some (i1, e1) → apply cc rt fuel req' j = Some (j1, None) → in_ip j1 = in_ip i1 → shut j1 →
  handle cc rt fuel req i = Some (i2, r) →
  ∃ j2 r', handle cc rt fuel req' j = Some (j2, r') ∧ rp_err r' = None ∧ twin i2 j2.
Proof using Hsend Hnone.
  intros Hi Hj Hip Hs. unfold handle. rewrite Hi, Hj. simpl.
  intros ([i3 e3] & H3 & [= <- _])%bind_Some. destruct (settle_twin _ _ _ _ _ H3 Hip Hs) as (j' & Hj' & _ & Htw).
  rewrite Hj'. simpl. destruct req'; simpl; eauto 6.
Qed.

Lemma running_twin i j : twin i j → running (in_ip j) = running (in_ip i) ∧ completed (in_ip j) = completed (in_ip i).
Proof using Type.
  intros [H _ _]. split.
  - change (running (set_now 0 (in_ip j)) = running (set_now 0 (in_ip i))). by rewrite H.
  - change (completed (set_now 0 (in_ip j)) = completed (set_now 0 (in_ip i))). by rewrite H.
Qed.

Lemma event_twin fuel sess seq t ev i i1 r j : twin i j → running (in_ip i) = true →
  (InvokeID ev = "" ∨ is_Some (invokesByID (in_ip i) !! InvokeID ev)) →
  handle cc rt fuel (reqSend ev) (at_time t i) = Some (i1, r) →
  ∃ j1, replayEntry cc rt fuel (external_entry sess seq t ev) j = Some (j1, None) ∧ twin i1 j1.
Proof using Hsend Hnone Hingress.
  intros Htw Hr Hown Hi. pose proof (twin_at t i j Htw) as Hip. pose proof (running_twin i j Htw) as [Hrj _].
  destruct (handle_twin fuel (reqSend ev) (Deliver ev) (at_time t i) (acceptEvent rt ev (at_time t i)).1 (acceptEvent rt ev (at_time t i)).2
    i1 r (at_time t j) (with_ip (enqueue ev (in_ip (at_time t j))) (at_time t j))) as (j2 & r' & Hj2 & Hr' & Htw2).
  - simpl. by rewrite <- surjective_pairing.
  - unfold Deliver. rewrite cloneEvent_id. simpl. unfold acceptEvent. rewrite bool_decide_false.
    2: { rewrite Hip. intros [H1 H2]. destruct Hown as [?|[? ?]]; [done|]. change (invokesByID (in_ip i) !! InvokeID ev = None) in H2. congruence. }
    change (in_live (at_time t j)) with (in_live j). rewrite (sh_gate _ (tw_shut _ _ Htw)). by destruct (rt_ingressHook rt).
  - rewrite Hip. unfold acceptEvent. rewrite bool_decide_false.
    2: { intros [H1 H2]. destruct Hown as [?|[? ?]]; [done|]. change (invokesByID (in_ip i) !! InvokeID ev = None) in H2. congruence. }
    destruct (rt_ingressHook rt) as [hook|] eqn:Hh; [|done]. destruct (in_live (at_time t i)); [|done]. simpl.
    by rewrite (Hingress hook _ ev eq_refl).
  - destruct (tw_shut _ _ Htw) as [A B C D]. split; [done | | done..]. intros Hc%B. by unfold enqueue; case_decide.
  - exact Hi.
  - exists j2. split; [|done]. unfold replayEntry. simpl. unfold request.
    change (running (in_ip (at_time t j))) with (running (in_ip j)). rewrite Hrj, Hr, Hj2. simpl. by rewrite Hr'.
Qed.

Lemma timer_twin fuel sess seq t n rec i i1 r j : twin i j → running (in_ip i) = true →
  pending (in_ip i) !! n = Some rec → due_first (in_ip i) n rec → pending_ok (in_ip i) → hookErr (in_ip i) = None →
  handle cc rt fuel (reqTimerFired n) (at_time t i) = Some (i1, r) →
  ∃ j1, replayEntry cc rt fuel (LoggingTimerFiredDetailsHook sess seq t (ps_sendID rec) (ps_target rec) (ps_typ rec) (ps_event rec)) j
          = Some (j1, None) ∧ twin i1 j1.
Proof using Hsend Hnone Htimer.
  intros Htw Hr Hn Hdue Hok Hhk Hi. pose proof (twin_at t i j Htw) as Hip. pose proof (running_twin i j Htw) as [Hrj _].
  set (ip1 := fireTimer (envOf rt (at_time t i)) n (in_ip (at_time t i))).
  assert (control_of ip1 = control_of (in_ip i)) as Hk
    by exact (fireTimer_keeps (envOf rt (at_time t i)) n (in_ip (at_time t i))).
  assert (handleTimerFire (envOf rt (at_time t i)) n (in_ip (at_time t i)) = ip1) as Hfire.
  { unfold handleTimerFire. change (pending (in_ip (at_time t i)) !! n) with (pending (in_ip i) !! n). rewrite Hn. simpl.
    destruct (rt_timerFiredHook rt) as [hook|] eqn:Hh; [|done]. simpl. by rewrite (Htimer hook _ _ _ _ _ eq_refl). }
  destruct (handle_twin fuel (reqTimerFired n)
    (reqReplayTimerFired (LoggingTimerFiredDetailsHook sess seq t (ps_sendID rec) (ps_target rec) (ps_typ rec) (ps_event rec)))
    (at_time t i) (instanceTimerFire rt n (at_time t i)) None i1 r (at_time t j) (with_ip ip1 (at_time t j)))
    as (j2 & r' & Hj2 & Hr' & Htw2).
  - simpl. unfold takeTimerHookError. rewrite timerFire_ip, Hfire.
    assert (hookErr ip1 = None) as -> by (unfold hookErr; by rewrite Hk). done.
  - unfold apply. simpl. change (set_now t (in_ip j)) with (in_ip (at_time t j)). rewrite Hip.
    rewrite (replay_fires (envOf rt (at_time t j)) (in_ip (at_time t i)) n rec); [|done..]. do 3 f_equal.
    unfold ip1, fireTimer. change (pending (in_ip (at_time t i)) !! n) with (pending (in_ip i) !! n). rewrite Hn. apply dispatch_same.
  - rewrite timerFire_ip, Hfire. done.
  - destruct (tw_shut _ _ Htw) as [A B C D]. split; [done | | done..]. intros Hc%B. simpl. unfold completed. rewrite Hk.
    by rewrite (proj2 (running_twin i j Htw)) in Hc.
  - exact Hi.
  - exists j2. split; [|done]. unfold replayEntry. simpl. unfold request.
    change (running (in_ip (at_time t j))) with (running (in_ip j)). rewrite Hrj, Hr, Hj2. simpl. by rewrite Hr'.
Qed.

Lemma running_open i j : hooks_ok i → twin i j → running (in_ip i) = true → in_completionPending j = false.
Proof using Type.
  intros [[_ Ho] _ _] Htw Hr. destruct (in_completionPending j) eqn:Hp; [|done]. pose proof (sh_pending _ (tw_shut _ _ Htw) Hp) as Hc.
  rewrite (proj2 (running_twin i j Htw)), (Ho Hr) in Hc. done.
Qed.

(** The entries of a run, replayed. *)
Lemma run_twin fuel i log i2 j : (∀ k, life cc rt k → running (in_ip k) = true → pending_ok (in_ip k)) →
  recorded_run fuel i log i2 → life cc rt i → twin i j →
  ∃ j2, replayEntries cc rt fuel log None j = Some (Ok j2) ∧ twin i2 j2.
Proof using Hsend Hnone Hingress Htimer.
  intros Hpend Hrun. revert j. induction Hrun as [i | sess seq t ev i i1 r log i2 Hr Hown Hi _ IH | sess seq t n rec i i1 r log i2 Hr Hn Hdue Hi _ IH];
    intros j Hl Htw; simpl; [eauto|..];
    rewrite (running_open i j) by first [done | by apply (life_hooks cc rt)].
  - destruct (event_twin fuel sess seq t ev i i1 r j Htw Hr Hown Hi) as (j1 & -> & Htw1). simpl. apply (IH j1); [|done].
    eapply (life_request cc rt (at_time t i)); [by apply life_time | exact Hr | exact Hi].
  - destruct (timer_twin fuel sess seq t n rec i i1 r j Htw Hr Hn Hdue) as (j1 & -> & Htw1); [by apply Hpend | | exact Hi |].
    { apply (ho_orderly _ (life_hooks cc rt i Hl)). }
    simpl. apply (IH j1); [|done]. eapply (life_request cc rt (at_time t i)); [by apply life_time | exact Hr | exact Hi].
Qed.

Lemma boot_twin fuel s t i : boot cc rt fuel (newInstance (newInterpretation s t) false) = Some i →
  ∃ j, boot cc rt fuel (gated (newInstance (newInterpretation s t) false)) = Some j ∧ in_err j = None ∧ twin i j.
Proof using Hsend Hnone.
  unfold boot. simpl. intros ([i0 e0] & (ip & Hip & [= <- <-])%bind_Some & ([i1 e1] & H1 & [= <-])%bind_Some)%bind_Some.
  set (j0 := gated (newInstance (newInterpretation s t) false)).
  assert (start c (envOf rt j0) fuel (newInterpretation s t) = Some ip) as ->.
  { rewrite <- Hip. unfold start.
    destruct (envOf_runner j0) as (st & hk & ->), (envOf_runner (newInstance (newInterpretation s t) false)) as (st' & hk' & ->).
    rewrite (runner_enterInitial c (rt_env rt) st st' hk hk'). destruct (enterInitial c _ _); simpl; [|reflexivity].
    by apply runner_runToStable. }
  simpl. destruct (settle_twin fuel _ i1 e1 (with_ip ip j0) H1) as (j & Hj & Herr & Htw); [done | by split |].
  rewrite Hj. simpl. exists j. done.
Qed.

(** ** Going live *)

(** A settled instance with nothing to do. *)
Definition quiet (i : Instance) : Prop :=
  running (in_ip i) = true ∧ completed (in_ip i) = false ∧ externalQueue (in_ip i) = [] ∧ internalQueue (in_ip i) = [].

Lemma settle_quiet fuel i : quiet i → settle cc rt fuel i = Some (publishConfig cc i, None).
Proof using Type.
  intros (Hr & Hc & Hx & Hq). unfold settle, drainInstance, drainQueuedEvents.
  assert (drainExternal cc (envOf rt i) fuel fuel (in_ip i) = Some (in_ip i)) as ->
    by (destruct fuel; simpl; by rewrite Hr, Hx).
  simpl. unfold drainInternalMacrostep. rewrite Hr, Hq. simpl. rewrite Hr. destruct i. simpl in *.
  unfold finishNaturalCompletion. simpl. by rewrite Hc.
Qed.

(** The record of a pending send whose timer was made. *)
Definition arm (rec : pendingSendRecord) : pendingSendRecord :=
  mkPending (ps_sendID rec) (ps_target rec) (ps_typ rec) (ps_event rec) (ps_fireAt rec) (ps_order rec) true.

Lemma activateTimers_future fuel records i :
  Forall (λ rec, is_Some (pending (in_ip i) !! ps_order rec) ∧ (now (in_ip i) < ps_fireAt rec)%Z) records →
  activateTimers cc rt fuel records i =
    Some (with_ip (set_pending (foldl (λ m rec, <[ps_order rec := arm rec]> m) (pending (in_ip i)) records) (in_ip i)) i, None).
Proof using Type.
  revert i. induction records as [|rec records IH]; intros i Hall; simpl.
  { by destruct i as [[? []]]. }
  apply Forall_cons in Hall as [[Hp Hn] Hall]. rewrite bool_decide_false by (destruct Hp as [? ->]; done). rewrite decide_True by done.
  rewrite IH; [done|]. eapply Forall_impl; [exact Hall|]. intros rec' [Hp' Hn']. split; [|exact Hn'].
  change (is_Some (<[ps_order rec := arm rec]> (pending (in_ip i)) !! ps_order rec')).
  destruct (decide (ps_order rec = ps_order rec')) as [->|]; [rewrite lookup_insert_eq; eauto | by rewrite lookup_insert_ne].
Qed.

Lemma arm_all (m m0 : gmap nat pendingSendRecord) records k : Forall (λ rec, m !! ps_order rec = Some rec) records →
  foldl (λ m rec, <[ps_order rec := arm rec]> m) m0 records !! k = if decide (k ∈ ps_order <$> records) then arm <$> m !! k else m0 !! k.
Proof using Type.
  revert m0. induction records as [|rec records IH]; intros m0 Hall; cbn [foldl]; [done|].
  apply Forall_cons in Hall as [Hr Hall]. rewrite IH by done. change (ps_order <$> rec :: records) with (ps_order rec :: (ps_order <$> records)).
  case_decide as H1; case_decide as H2; [done | by destruct H2; right | |].
  - apply elem_of_cons in H2 as [->|]; [|done]. by rewrite lookup_insert_eq, Hr.
  - apply lookup_insert_ne. intros <-. destruct H2. by left.
Qed.

(** No timer is overdue: all are made, and nothing fires. *)
Lemma activatePendingTimers_future fuel t i : pending_ok (in_ip i) →
  (∀ n rec, pending (in_ip i) !! n = Some rec → (t < ps_fireAt rec)%Z) →
  activatePendingTimers cc rt fuel t i = Some (with_ip (set_pending (arm <$> pending (in_ip i)) (set_now t (in_ip i))) i, None).
Proof using Type.
  intros Hok Hlate. unfold activatePendingTimers. set (records := merge_sort timerOrder _).
  assert (∀ rec, rec ∈ records ↔ pending (in_ip i) !! ps_order rec = Some rec) as Hrec.
  { intros rec. unfold records. rewrite (merge_sort_Permutation timerOrder). change (pending (in_ip (with_ip (set_now t (in_ip i)) i))) with (pending (in_ip i)).
    rewrite list_elem_of_fmap. split.
    - intros ([n r] & -> & Hin%elem_of_map_to_list). simpl. by rewrite (proj1 (Hok _ _ Hin)).
    - intros Hin. exists (ps_order rec, rec). by rewrite elem_of_map_to_list. }
  rewrite activateTimers_future.
  2: { apply Forall_forall. intros rec Hin%Hrec. split; [eexists; exact Hin|]. by eapply Hlate. }
  change (pending (in_ip (with_ip (set_now t (in_ip i)) i))) with (pending (in_ip i)).
  assert (foldl (λ m rec, <[ps_order rec := arm rec]> m) (pending (in_ip i)) records = arm <$> pending (in_ip i)) as ->; [|done].
  apply map_eq. intros k. rewrite lookup_fmap.
  rewrite (arm_all (pending (in_ip i))) by (apply Forall_forall; intros rec; apply Hrec).
  case_decide as Hk; [done|].
  destruct (pending (in_ip i) !! k) as [rec|] eqn:E; [|done]. destruct Hk. destruct (Hok _ _ E) as [Ho _].
  rewrite <- Ho. apply list_elem_of_fmap_2, Hrec. by rewrite Ho.
Qed.

(** [Rehydrate] after the last entry, for an instance that runs on: a checkpoint
    is saved, all timers are made and the gate is open. *)
Lemma live_quiet fuel n rh j : quiet j → in_completionPending j = false → pending_ok (in_ip j) → invokesByID (in_ip j) = ∅ →
  rh_recover rh = None → (∀ k rec, pending (in_ip j) !! k = Some rec → (rh_now rh < ps_fireAt rec)%Z) →
  ∃ k, ('(k, saved) ← refresh cc rt fuel true n j;
        r ← goLive cc rt fuel rh k;
        Some (match r with Ok k => Ok (k, saved) | Err e => Err e end))
       = Some (Ok (k, match buildSnapshot cc (rt_env rt) (in_ip j) with Ok snap => Some (mkCheckpoint snap n) | Err _ => None end))
    ∧ in_ip k = set_pending (arm <$> pending (in_ip j)) (set_now (rh_now rh) (in_ip j))
    ∧ in_live k = true ∧ in_suppressInvoke k = false ∧ in_deferCompletionHook k = false.
Proof using Type.
  intros Hq Hp Hok Hinv Hrec Hlate. destruct (Hq) as (Hr & Hc & Hx & Hi).
  unfold refresh. rewrite Hp. simpl. unfold request. rewrite Hr. unfold handle. simpl. rewrite settle_quiet by done. simpl.
  unfold goLive. rewrite Hrec. simpl. rewrite Hp. unfold request. simpl. rewrite Hr. unfold handle, apply, finishReplay.
  set (k0 := with_replay _ _ _ _ _). rewrite activatePendingTimers_future by done.
  change (pending (in_ip k0)) with (pending (in_ip j)). change (in_ip k0) with (in_ip j). set (ip := set_pending _ _). simpl.
  assert (running ip = true) as -> by exact Hr. unfold resumeInvokesAfterReplay. simpl.
  assert (invokesByID ip = ∅) as -> by exact Hinv. change (sortedInvokeIDs ∅) with (@nil Identifier). simpl.
  rewrite settle_quiet by exact Hq. simpl. eexists. split; [reflexivity|]. done.
Qed.

(** The same for one that has completed: its completion hook is called. *)
Lemma live_completed fuel n rh j : shut j → in_completionPending j = true → completed (in_ip j) = true → rh_recover rh = None →
  (∀ hook calls, rt_completionHook rt = Some hook → hook calls = None) →
  ∃ k, ('(k, saved) ← refresh cc rt fuel true n j;
        r ← goLive cc rt fuel rh k;
        Some (match r with Ok k => Ok (k, saved) | Err e => Err e end)) = Some (Ok (k, None))
    ∧ in_ip k = in_ip j ∧ in_completionHookCalled k = true
    ∧ in_calls k = in_calls j ++ (if rt_completionHook rt then [CallCompletion] else []).
Proof using Type.
  intros [_ _ _ [Hf He]] Hp Hc Hrec Hhook. unfold refresh. rewrite Hp. simpl. unfold goLive. rewrite Hrec. simpl. rewrite Hp.
  unfold releaseCompletion, finishNaturalCompletion. simpl. rewrite Hc, Hf. simpl.
  destruct (rt_completionHook rt) as [hook|]; simpl.
  - rewrite (Hhook hook _ eq_refl). simpl. rewrite He. simpl. eexists. split; [reflexivity|]. done.
  - eexists. split; [reflexivity|]. simpl. by rewrite app_nil_r.
Qed.

Lemma healthy_no_invocations ip : healthy cc ip → invokesByID ip = ∅.
Proof using Hnone.
  intros [_ [_ HA HI] _ _]. apply map_empty. intros id. destruct (invokesByID ip !! id) as [ri|] eqn:E; [|done].
  apply HI in E as (_ & ris & E & Hin). destruct (HA _ _ E) as (_ & _ & _ & _ & Hall). rewrite Forall_forall in Hall.
  pose proof (ro_spec _ _ _ (Hall ri Hin)) as Hspec. rewrite Hnone in Hspec. by apply elem_of_nil in Hspec.
Qed.

Lemma recorded_run_life fuel i log i2 : recorded_run fuel i log i2 → life cc rt i → life cc rt i2.
Proof using Type.
  induction 1 as [i | sess seq t ev i i1 r log i2 Hr _ Hi _ IH | sess seq t n rec i i1 r log i2 Hr _ _ Hi _ IH]; [done|..];
    intros Hl; apply IH; (eapply (life_request cc rt (at_time t i)); [by apply life_time | exact Hr | exact Hi]).
Qed.

Lemma twin_live fuel n rh i j : twin i j → hooks_ok i → running (in_ip i) = true → externalQueue (in_ip i) = [] →
  internalQueue (in_ip i) = [] → healthy cc (in_ip i) → rh_recover rh = None →
  (∀ k rec, pending (in_ip i) !! k = Some rec → (rh_now rh < ps_fireAt rec)%Z) → invokesByID (in_ip i) = ∅ →
  ∃ k, ('(k, saved) ← refresh cc rt fuel true n j;
        r ← goLive cc rt fuel rh k;
        Some (match r with Ok k => Ok (k, saved) | Err e => Err e end))
       = Some (Ok (k, match buildSnapshot cc (rt_env rt) (in_ip j) with Ok snap => Some (mkCheckpoint snap n) | Err _ => None end))
    ∧ in_ip k = set_pending (arm <$> pending (in_ip i)) (set_now (rh_now rh) (in_ip i))
    ∧ in_live k = true ∧ in_suppressInvoke k = false ∧ in_deferCompletionHook k = false.
Proof using Type.
  intros Htw Hhk Hr Hx Hq Hh Hrec Hlate Hinv. pose proof (twin_at (rh_now rh) i j Htw) as Hip. simpl in Hip.
  assert (∀ {A} (f : interpretation → A), (∀ ip, f (set_now (rh_now rh) ip) = f ip) → f (in_ip j) = f (in_ip i)) as Hsame
    by (intros A f Hf; by rewrite <- (Hf (in_ip j)), Hip).
  pose proof (running_open i j Hhk Htw Hr) as Hp. destruct (running_twin i j Htw) as [Er Ec].
  destruct (live_quiet fuel n rh j) as (k & Hk & Hkip & Hflags); [| done | | | done | |].
  - split_and!; [by rewrite Er | | by rewrite (Hsame _ externalQueue) | by rewrite (Hsame _ internalQueue)].
    rewrite Ec. by apply (ho_orderly _ Hhk).
  - intros a b. rewrite (Hsame _ pending), (Hsame _ pendingSeq) by done. apply (hl_pending _ _ Hh).
  - by rewrite (Hsame _ invokesByID).
  - intros a b. rewrite (Hsame _ pending) by done. apply Hlate.
  - exists k. split_and!; [exact Hk | | apply Hflags..]. by rewrite Hkip, (Hsame _ pending), Hip.
Qed.

Lemma Prepare_none : Prepare cc rt = Ok ().
Proof using Hnone.
  unfold Prepare. assert (Forall (λ cs, st_invokes cs = []) (c_order c)) as Hall.
  { apply Forall_lookup. intros k cs Hcs. specialize (Hnone k). unfold invokes, state_of in Hnone. by rewrite Hcs in Hnone. }
  set (f := λ (_ : N) (cs : compiledState), _).
  assert (∀ k cs, st_invokes cs = [] → f k cs = Ok ()) as Hf by (intros k cs E; unfold f; by rewrite E).
  clearbody f. generalize 0%N. induction Hall as [|cs l Hcs _ IH]; intros k; simpl; [done|]. rewrite Hf by done. apply IH.
Qed.
End replayed.

(** ** Theorem *)

Section theorem.
Context `{SS : SnapshotSession}.
Context `{RS : !RestorableSession}.
Variable parseDuration : string → result Z.
Variable jsonMarshal : ChartDefinition → result string.
Variable sha256 : string → string.

End theorem.

(** ** Witness: a lamp that goes dark by itself *)

Definition lampRoot : StateDefinition :=
  Compound "root" "dark" [Children [
    Atomic "dark" [On "light" [Target ["bright"]]];
    Atomic "bright" [
      OnEntry [NewSendExecutable (mkSend "fade" None "" None "" None "" None "1s" None [] None)];
      On "fade" [Target ["dark"]; Then [incr]]]]].

Definition lampDefinition : ChartDefinition := chartDefinition lampRoot.

Lemma lamp_compiled : Compile oneSecond (λ d, Ok (df_ID d)) (λ s, s) lampDefinition (Some counterModel) = Ok (compiledOf lampDefinition).
Proof. apply compiles_compiledOf. vm_compute. reflexivity. Qed.

Lemma no_invokes_check (c : Chart (DM := CounterSession)) : forallb (λ cs, bool_decide (length (st_invokes cs) = 0)) (c_order c) = true →
  ∀ s, invokes c s = [].
Proof.
  intros H s. unfold invokes, state_of. destruct (c_order c !! s) as [cs|] eqn:E; [|done]. rewrite forallb_forall in H.
  apply nil_length_inv, (bool_decide_eq_true_1 (length (st_invokes cs) = 0)), H.
  by eapply list_elem_of_In, list_elem_of_lookup_2.
Qed.

Lemma lamp_no_invokes s : invokes (cc_chart (compiledOf lampDefinition)) s = [].
Proof. apply no_invokes_check. vm_compute. reflexivity. Qed.

(** A run of two inputs: an event at [t1], and the timer it set at [t2]. *)
Section two_inputs.
Context `{SS : SnapshotSession}.
Variables (cc : compiledChart) (rt : runtime) (fuel : nat) (s : Session) (t0 t1 t2 : Z) (ev : Event).

Definition timerLog (rec : pendingSendRecord) : list LogEntry :=
  [external_entry "s1" 2 t1 ev; LoggingTimerFiredDetailsHook "s1" 3 t2 (ps_sendID rec) (ps_target rec) (ps_typ rec) (ps_event rec)].

Definition runsTwo : bool :=
  match boot cc rt fuel (newInstance (newInterpretation s t0) false) with
  | Some i0 =>
      match handle cc rt fuel (reqSend ev) (at_time t1 i0) with
      | Some (i1, _) =>
          running (in_ip i0) && running (in_ip i1) && bool_decide (InvokeID ev = "")
          && bool_decide (map fst (map_to_list (pending (in_ip i1))) = [1])
          && match handle cc rt fuel (reqTimerFired 1) (at_time t2 i1) with
             | Some (i2, _) => running (in_ip i2) && bool_decide (externalQueue (in_ip i2) = []) && bool_decide (map_to_list (pending (in_ip i2)) = [])
             | None => false
             end
      | None => false
      end
  | None => false
  end.

Lemma runsTwo_run : runsTwo = true →
  ∃ i0 rec i2, boot cc rt fuel (newInstance (newInterpretation s t0) false) = Some i0
    ∧ recorded_run cc rt fuel i0 (timerLog rec) i2
    ∧ running (in_ip i2) = true ∧ externalQueue (in_ip i2) = [] ∧ pending (in_ip i2) = ∅.
Proof.
  unfold runsTwo. destruct (boot _ _ _ _) as [i0|]; [|done].
  destruct (handle _ _ _ _ (at_time t1 i0)) as [[i1 r1]|] eqn:H1; [|done]. rewrite !andb_true_iff, !bool_decide_eq_true.
  intros [[[[Hr0 Hr1] Hev] Hk] H2]. destruct (handle _ _ _ _ (at_time t2 i1)) as [[i2 r2]|] eqn:E2; [|done].
  rewrite !andb_true_iff, !bool_decide_eq_true, map_to_list_empty_iff in H2. destruct H2 as [[Hr2 Hx2] Hp2].
  assert (∀ k rec, pending (in_ip i1) !! k = Some rec → k = 1) as Honly.
  { intros k rec Hrec%elem_of_map_to_list. apply (list_elem_of_fmap_2 fst) in Hrec.
    change (k ∈ map fst (map_to_list (pending (in_ip i1)))) in Hrec. rewrite Hk in Hrec. by apply list_elem_of_singleton in Hrec. }
  assert (∃ rec, pending (in_ip i1) !! 1 = Some rec) as [rec Hrec].
  { assert (1 ∈ map fst (map_to_list (pending (in_ip i1)))) as (kr & Ek & Hin)%list_elem_of_fmap by (rewrite Hk; set_solver).
    destruct kr as [k r]. simpl in Ek. subst k. exists r. by apply elem_of_map_to_list. }
  exists i0, rec, i2. split; [done|]. split; [|done].
  apply (run_event _ _ fuel "s1" 2 t1 ev i0 i1 r1); [done | by left | done |].
  apply (run_timer _ _ fuel "s1" 3 t2 1 rec i1 i2 r2); [done | done | | done | apply run_none].
  intros k rec' Hrec' Hne. destruct (Hne (Honly k rec' Hrec')).
Qed.
End two_inputs.

Definition lampStorage (rec : pendingSendRecord) : rehydration (DM := CounterSession) :=
  mkRehydration (Loaded None) (Ok 3%N) (λ _, (started_entry "s1" 1 100 :: timerLog 200 300 (ext "light") rec, None))
    (λ _, Ok (Some (0%Z : @Session CounterSession))) None 900.

(** The lamp is lit at 200 and its timer fires at 300. *)
Lemma lamp_runs : runsTwo (SS := CounterSnapshot) (compiledOf lampDefinition) plainRuntime 20 (0%Z : @Session CounterSession) 100 200 300
  (ext "light") = true.
Proof. vm_compute. reflexivity. Qed.

