(* ===== verification/Stores.v ===== *)
(** * Examples: a store in use

    The calls of a small program: it stores the player's definition, begins two
    actors, records a delivery and marks one actor terminal.  The theorems about
    the store are applied to what it leaves. *)

From S2P Require Import Prelude Identifier Storage Values Events Datamodel Chart Interp Definitions Validate Compile.
From S2P Require Import Examples Authoring Artifact Snapshot Instance Replay Memory Stored Outbox Replayed.
From stdpp Require Import options.

Definition marshalID (d : ChartDefinition) : result string := Ok (df_ID d).
Definition noHash (s : string) : string := s.
Definition valuesOf (m : gmap string ActorMetadata) : list ActorMetadata := (map_to_list m).*2.

Abbreviation step := (store_step marshalID noHash playerDecode valuesOf None).
Abbreviation reachable_player := (reachable_store marshalID noHash playerDecode valuesOf None).

(** The store after a call. *)
Definition after {A} (r : result (MemoryStore * A)) (s : MemoryStore) : MemoryStore :=
  match r with Ok (s', _) => s' | Err _ => s end.

Lemma after_steps {A} (r : result (MemoryStore * A)) s : (∀ s' x, r = Ok (s', x) → step s s') → rtc step s (after r s).
Proof. intros H. destruct r as [[s' x]|e]; [by eapply rtc_once, H | reflexivity]. Qed.

Definition playerArtifact : DefinitionArtifact := artifactOf (compiledOf playerDefinition).

Definition playerActor (id sid : string) : ActorMetadata :=
  mkActor id (da_ChartID playerArtifact) (da_Revision playerArtifact) sid true ActorLifecycleActive 100 0.

Definition beginPlayer (id sid : string) (s : MemoryStore) : MemoryStore :=
  (BeginActor marshalID noHash playerDecode None None (playerActor id sid) s).1.

Definition store1 : MemoryStore := after (PutDefinition marshalID noHash playerDecode None playerArtifact NewMemoryStore) NewMemoryStore.
Definition store2 : MemoryStore := beginPlayer "kitchen" "s2" (beginPlayer "hall" "s1" store1).
Definition powerEntry : LogEntry := external_entry "s1" 0 200 (ext "power").
Definition store3 : MemoryStore := after (AppendIngress valuesOf None powerEntry "d1" store2) store2.
Definition store4 : MemoryStore := after (MarkActorTerminal marshalID noHash playerDecode None "kitchen" 300 store3) store3.

Lemma valuesOf_range m : valuesOf m ≡ₚ (map_to_list m).*2.
Proof. done. Qed.

Lemma begin_steps id sid s : rtc step s (beginPlayer id sid s).
Proof. apply rtc_once. apply step_begin. Qed.

Lemma store1_reachable : reachable_player store1.
Proof. apply after_steps. intros s' x H. by eapply step_put. Qed.

(** The stores are not computed in what follows, but for the examples. *)
#[local] Opaque store1 beginPlayer.

Lemma store2_reachable : reachable_player store2.
Proof.
  unfold reachable_store. etransitivity; [exact store1_reachable|]. etransitivity; [apply (begin_steps "hall" "s1")|].
  apply (begin_steps "kitchen" "s2").
Qed.

Lemma store3_steps : rtc step store2 store3.
Proof. apply after_steps. intros s' x H. eapply step_ingress; [|exact H]. done. Qed.

#[local] Opaque store2 store3.

Lemma store4_steps : rtc step store3 store4.
Proof. apply after_steps. intros s' x H. by eapply step_terminal. Qed.

Lemma store4_reachable : reachable_player store4.
Proof. unfold reachable_store. etransitivity; [exact store2_reachable|]. etransitivity; [exact store3_steps|exact store4_steps]. Qed.

#[local] Transparent store1 beginPlayer store2 store3.

(** What is left: two actors, one of them terminal, and two entries for "hall". *)
Example store4_actors :
  map (λ a, (am_ActorID a, am_Lifecycle a)) (merge_sort actorOrder (valuesOf (ms_actors store4))) = [("hall", "active"); ("kitchen", "terminal")].
Proof. vm_compute. reflexivity. Qed.

Lemma store_consistent_witness :
  Read None "s1" 1 store4 = (logOf store4 "s1", None) ∧ map le_Kind (logOf store4 "s1") = [KindSessionStarted; KindExternalEvent].
Proof.
  split; [|vm_compute; reflexivity].
  exact (proj1 (proj1 (proj2 (proj2 (proj2 (store_consistent marshalID noHash playerDecode valuesOf None valuesOf_range store4 store4_reachable)))) "s1")).
Defined.

Definition appended (r : result (MemoryStore * (N * bool))) : bool := match r with Ok (_, (_, b)) => b | Err _ => false end.

Lemma appended_Ok r s : appended r = true → ∃ n, r = Ok (after r s, (n, true)).
Proof. destruct r as [[s' [n []]]|e]; [intros _; by exists n|done..]. Qed.

Lemma delivery_recorded_once_witness :
  ∃ n, logOf store3 "s1" = logOf store2 "s1" ++ [withSeq n powerEntry] ∧ logOf store3 "s1" `prefix_of` logOf store4 "s1".
Proof.
  destruct (appended_Ok (AppendIngress valuesOf None powerEntry "d1" store2) store2) as [n Hn]; [vm_compute; reflexivity|].
  exists n. destruct (delivery_recorded_once marshalID noHash playerDecode valuesOf None None powerEntry "d1" store2 store3 n store4 Hn store4_steps)
    as (H1 & H2 & _).
  split; [exact H1|exact H2].
Defined.

Lemma terminal_is_final_witness :
  ∃ a, ms_actors store4 !! "kitchen" = Some a
  ∧ AppendIngress valuesOf None (external_entry "s2" 0 400 (ext "power")) "d2" store4 = Err ErrActorTerminal.
Proof.
  assert (bool_decide ((λ a, (am_Lifecycle a, am_SessionID a)) <$> ms_actors store4 !! "kitchen" = Some (ActorLifecycleTerminal, "s2")) = true)
    as H by (vm_compute; reflexivity).
  apply bool_decide_eq_true, fmap_Some in H as (a & Ha & E). injection E as Ht Hs. exists a. split; [exact Ha|].
  apply (terminal_is_final marshalID noHash playerDecode valuesOf None valuesOf_range "kitchen" a store4 store4 store4_reachable Ha (eq_sym Ht));
    [reflexivity|]. simpl. exact Hs.
Defined.

(** Pages of one actor each. *)
Definition pageQuery : ActorMetadataQuery := mkQuery "" 1 "" "" "" "".

Lemma pages_cover_directory_witness :
  ∃ pages, traverse marshalID noHash playerDecode valuesOf (S (size (ms_actors store4))) pageQuery store4 = Some (Ok pages)
    ∧ concat pages = directory pageQuery store4
    ∧ map am_ActorID (directory pageQuery store4) = ["hall"; "kitchen"].
Proof.
  destruct (pages_cover_directory marshalID noHash playerDecode valuesOf None valuesOf_range pageQuery pageQuery store4 store4_reachable)
    as (pages & Hp & Hc & _); [vm_compute; reflexivity|].
  exists pages. split; [exact Hp|]. split; [exact Hc|]. vm_compute. reflexivity.
Defined.

(** ** An outbox on this store *)

(** The transports refuse one target; that of ["http"] acknowledges later. *)
Definition someTransport (typ : Identifier) (calls : list SendRequest) (req : SendRequest) : option error :=
  if decide (sr_Target req = "nowhere") then Some (Errorf "connection refused") else None.
Definition atOnce (typ : Identifier) : bool := false.
Definition laterHTTP (typ : Identifier) : bool := bool_decide (typ = "http").

Definition requestTo (typ : Identifier) (d target : string) : SendRequest := mkSendRequest d ("send." +:+ d) "" target typ "report" NullValue.
Definition reportTo : string → string → SendRequest := requestTo SCXMLEventProcessor.

Definition world4 : outboxWorld := mkWorld store4 ∅ [] [].
Definition sendFrom (req : SendRequest) (w : outboxWorld) : outboxWorld * option error := outboxSend "s1" someTransport laterHTTP true (sr_Type req) req w.

(** Three sends; the third one is accepted and fails later. *)
Definition posted : SendRequest := requestTo "http" "ns:3" "far".
Definition world41 := sendFrom (reportTo "ns:1" "peer") world4.
Definition world42 := sendFrom (reportTo "ns:2" "nowhere") world41.1.
Definition world43 := sendFrom posted world42.1.
Definition world44 : outboxWorld := acknowledge "s1" true "http" posted (Some (Errorf "timeout")) world43.1.
Definition threeSends : list (SendRequest * option error) :=
  [(reportTo "ns:1" "peer", world41.2); (reportTo "ns:2" "nowhere", world42.2); (posted, world43.2)].

Lemma threeSends_traffic : traffic "s1" someTransport laterHTTP true world4 threeSends world44.
Proof.
  assert (world43.2 = None) as E3 by (vm_compute; reflexivity).
  apply (traffic_ack _ _ _ _ _ threeSends world43.1 posted (Some (Errorf "timeout"))); [|rewrite <- E3; apply list_elem_of_further, list_elem_of_further, list_elem_of_here|vm_compute; reflexivity].
  apply (traffic_send _ _ _ _ _ [_; _] world42.1); [|apply surjective_pairing].
  apply (traffic_send _ _ _ _ _ [_] world41.1); [|apply surjective_pairing].
  apply (traffic_send _ _ _ _ _ [] world4); [apply traffic_none|apply surjective_pairing].
Qed.

Lemma store4_consistent : consistent marshalID noHash playerDecode store4.
Proof. apply (reachable_consistent marshalID noHash playerDecode valuesOf None valuesOf_range). exact store4_reachable. Qed.

Definition listed44 : list OutboundMessage := memoryMessages "s1" (ow_store world44).
Example listed44_outcomes : map (λ m, (om_DeliveryID m, om_Status m, or_Error (om_Result m))) listed44 =
  [("ns:1", OutboundResolved, ""); ("ns:2", OutboundResolved, "connection refused"); ("ns:3", OutboundResolved, "timeout")].
Proof. vm_compute. reflexivity. Qed.


(** A crash between the intent and the call. *)
Definition intent : OutboundMessage := intentOf "s1" (reportTo "ns:1" "peer").
Definition store5 : MemoryStore := match StoreOutbound None intent store4 with Ok s => s | Err _ => store4 end.
Definition world5 : outboxWorld := newDurableRecovery [SCXMLEventProcessor] [intent] (mkWorld store5 ∅ [] []).

(** Both processors of the actor are asked to recover. *)
Lemma recovery_finishes_outbox_witness :
  ∃ w' rc, recoverGates "s1" someTransport atOnce true 2 (mkRecovery [intent] false None) world5 = (w', rc, None)
    ∧ ow_calls w' = [reportTo "ns:1" "peer"] ∧ Forall (λ m, om_Status m = OutboundResolved) (memoryMessages "s1" (ow_store w')).
Proof.
  assert (consistent marshalID noHash playerDecode store5) as Hc.
  { unfold store5. destruct (StoreOutbound None intent store4) as [s'|e] eqn:E; [|exact store4_consistent].
    exact (StoreOutbound_consistent _ _ _ None intent store4 s' store4_consistent E). }
  destruct (recovery_finishes_outbox "s1" someTransport atOnce true (ok := consistent marshalID noHash playerDecode) (messages := memoryMessages) 1 [intent] world5)
    as (w' & rc & Hr & Hcalls & _ & Hres).
  - exact Hc.
  - vm_compute. reflexivity.
  - repeat constructor.
  - constructor; [|constructor]. vm_compute. eexists. reflexivity.
  - exists w', rc. split; [exact Hr|]. split; [exact Hcalls|]. apply Hres; [done|]. apply MemoryOutbox_dependable.
Defined.
