(* ===== verification/Findings.v ===== *)
(** * Accepted definitions that reach an illegal configuration

    Each of the three conditions of [supported] is needed: for each there is a
    definition that the validator accepts and the compiler lowers, and a short
    list of events after which the configuration is not legal. *)

From S2P Require Import Prelude Identifier Values Events Datamodel Chart Tree Legal Interp Actions Steps Examples Definitions Validate.
From S2P Require Import Compile Accepted Authoring Snapshot Restored Instance Replay Lives Replayed.
From stdpp Require Import options.

(** The configuration of a definition's chart after a list of events. *)
Definition configurationAfter (d : ChartDefinition) (names : list Identifier) : gset nat :=
  match runChart (cc_chart (compiledOf d)) names with Some ip => configuration ip | None => ∅ end.

Lemma list_check (x : nat) (l : list nat) : bool_decide (x ∈ l) = true → x ∈ l.
Proof. apply bool_decide_eq_true. Qed.
Lemma set_check (x : nat) (X : gset nat) : bool_decide (x ∈ X) = true → x ∈ X.
Proof. apply bool_decide_eq_true. Qed.

(** Two children of one compound state cannot both be active. *)
Lemma illegal_compound (c : Chart (DM := CounterSession)) (cfg : gset nat) (s x y : nat) :
  kind c s = KindCompound → bool_decide (x ∈ realChildren c s) = true → bool_decide (y ∈ realChildren c s) = true →
  bool_decide (x ∈ cfg) = true → bool_decide (y ∈ cfg) = true → x ≠ y → ¬ legal c cfg.
Proof.
  intros Hk Hx Hy Hxc Hyc Hne HL. apply Hne.
  apply (legal_unique _ _ HL s x y); auto using list_check, set_check.
Qed.

(** A region of a parallel root is always active. *)
Lemma illegal_root (c : Chart (DM := CounterSession)) (cfg : gset nat) (x : nat) :
  kind c root = KindParallel → bool_decide (x ∈ realChildren c root) = true → bool_decide (x ∈ cfg) = false → ¬ legal c cfg.
Proof.
  intros Hk Hx Hc%bool_decide_eq_false HL. apply Hc.
  apply (legal_parallel _ _ HL root x); [by left | done | by apply list_check].
Qed.

(** ** A parallel root

    The domain of a transition of a region is the root, so all regions are
    exited; the ancestors that are re-entered stop below the root, so only the
    region of the target is entered again. *)
Definition parallelRoot : ChartDefinition :=
  chartDefinition (Parallel "root" [Children [
    Compound "left" "a" [On "reset" [Target ["b"]]; Children [Atomic "a" []; Atomic "b" []]];
    Compound "right" "c" [Children [Atomic "c" []]]]]).

Example parallelRoot_start : activeIn parallelRoot [] = Some ["left"; "a"; "right"; "c"].
Proof. vm_compute. reflexivity. Qed.
Example parallelRoot_reset : activeIn parallelRoot ["reset"] = Some ["left"; "b"].
Proof. vm_compute. reflexivity. Qed.

(** A definition with a parallel root is accepted, and an external
    transition of one of its regions leaves the other regions inactive: the
    configuration that is reached is not legal. *)
Lemma parallel_root_loses_region :
  compiles parallelRoot = true
  ∧ ¬ legal (cc_chart (compiledOf parallelRoot)) (configurationAfter parallelRoot ["reset"]).
Proof.
  split; [|apply (illegal_root _ _ 4)]; vm_compute; reflexivity.
Qed.

(** ** A history state next to another target

    The targets are checked with the default of the history state; what the
    history recorded can be incompatible with the other target. *)
Definition mixedTargets : ChartDefinition :=
  chartDefinition (Compound "root" "off" [Children [
    Compound "work" "plain" [
      On "leave" [Target ["off"]];
      Children [
        History "memory" Deep "l2" [];
        Atomic "plain" [];
        Parallel "regions" [Children [
          Compound "left" "l1" [Children [Atomic "l1" []; Atomic "l2" []]];
          Compound "right" "r1" [Children [Atomic "r1" []; Atomic "r2" []]]]]]];
    Atomic "off" [On "go" [Target ["plain"]]; On "back" [Target ["memory"; "r2"]]]]]).

Example mixedTargets_back : activeIn mixedTargets ["go"; "leave"; "back"]
  = Some ["work"; "plain"; "regions"; "left"; "l1"; "right"; "r2"].
Proof. vm_compute. reflexivity. Qed.

(** A definition in which one transition targets a history state and
    another state is accepted, and after the history recorded a configuration
    incompatible with the other target, both children of a compound state are
    entered: the configuration that is reached is not legal. *)
Lemma history_with_other_target_enters_both :
  compiles mixedTargets = true
  ∧ ¬ legal (cc_chart (compiledOf mixedTargets)) (configurationAfter mixedTargets ["go"; "leave"; "back"]).
Proof.
  split; [vm_compute; reflexivity|].
  apply (illegal_compound _ _ 1 3 4); [vm_compute; reflexivity..|lia].
Qed.

(** ** A history state targeted from inside of its parent

    The domain is computed from the history's default target, while the default
    entry adds every ancestor up to the history's parent: a parallel state on
    the way, still active, has its other regions entered by default again. *)
Definition innerHistory : ChartDefinition :=
  chartDefinition (Compound "root" "work" [Children [
    Compound "work" "regions" [Children [
      History "memory" Deep "l2" [];
      Parallel "regions" [Children [
        Compound "left" "l1" [Children [Atomic "l1" [On "jump" [Target ["memory"]]]; Atomic "l2" []]];
        Compound "right" "r1" [Children [Atomic "r1" [On "next" [Target ["r2"]]]; Atomic "r2" []]]]]]]]]).

Example innerHistory_jump : activeIn innerHistory ["next"; "jump"]
  = Some ["work"; "regions"; "left"; "l2"; "right"; "r1"; "r2"].
Proof. vm_compute. reflexivity. Qed.

(** A definition in which a transition targets a history state from
    inside of the history's parent is accepted, and taking it enters the default
    child of a region that is still active: the configuration that is reached is
    not legal. *)
Lemma inner_history_enters_active_region :
  compiles innerHistory = true
  ∧ ¬ legal (cc_chart (compiledOf innerHistory)) (configurationAfter innerHistory ["next"; "jump"]).
Proof.
  split; [vm_compute; reflexivity|].
  apply (illegal_compound _ _ 7 8 9); [vm_compute; reflexivity..|lia].
Qed.

(** Each condition of [supported] is needed.  Three definitions that
    the validator accepts and the compiler lowers reach a configuration that is
    not legal: one with a parallel root, where a transition of one region leaves
    the other regions inactive; one with a transition that targets a history
    state and another state, where the recorded configuration is incompatible
    with the other target; and one with a transition to a history state from
    inside of the history's parent, where a region that is still active is
    entered by default again. *)
Theorem unsupported_charts_misbehave :
  (compiles parallelRoot = true
   ∧ ¬ legal (cc_chart (compiledOf parallelRoot)) (configurationAfter parallelRoot ["reset"]))
  ∧ (compiles mixedTargets = true
     ∧ ¬ legal (cc_chart (compiledOf mixedTargets)) (configurationAfter mixedTargets ["go"; "leave"; "back"]))
  ∧ (compiles innerHistory = true
     ∧ ¬ legal (cc_chart (compiledOf innerHistory)) (configurationAfter innerHistory ["next"; "jump"])).
Proof.
  split; [exact parallel_root_loses_region|]. split; [exact history_with_other_target_enters_both|].
  exact inner_history_enters_active_region.
Qed.

(** * Where instances and replay fall short

    Four charts whose runs, computed here, differ from what the comments of
    instance.go and log.go promise: an event that waits for an unrelated
    request, a replay that renumbers deliveries, one that takes another path
    than the run it replays, and one that starts an invocation twice. *)

Abbreviation instance := (Instance (DM := CounterSession)).

Definition fresh (t : Z) : instance := newInstance (newInterpretation (0%Z : @Session CounterSession) t) false.

Definition served (d : ChartDefinition) (rt : runtime) (reqs : list actorRequest) (start : instance) : option instance :=
  i ← boot (compiledOf d) rt 20 start; fst <$> serve (SS := CounterSnapshot) (compiledOf d) rt 20 reqs i.

Definition delayed (event : Identifier) (target : string) : Executable :=
  NewSendExecutable (mkSend event None target None "" None "" None "1s" None [] None).

(** ** An event left in the external queue

    The timer's event goes to the internal queue; the transition it takes sends
    an event to its own session. *)

Definition pingRoot : StateDefinition :=
  Compound "root" "wait" [Children [
    Atomic "wait" [OnEntry [delayed "ping" "#_internal"]; On "ping" [Target ["next"]; Then [send "pong" []]]];
    Atomic "next" [On "pong" [Target ["answered"]]];
    Atomic "answered" []]].

Definition pingDefinition : ChartDefinition := chartDefinition pingRoot.

(** The configuration and the names in the external queue. *)
Definition waiting (i : option instance) : option (list Identifier * list Identifier) :=
  (λ i, (in_config i, map Name (externalQueue (in_ip i)))) <$> i.

(** An event can be left waiting.  [drainQueuedEvents] works off the
    external queue before it runs the internal macrostep.  When a timer puts its
    event on the internal queue and the resulting transition sends an event to
    its own session, the request is answered, and the instance waits, with that
    event unprocessed in its external queue; it is taken only when some other
    request arrives. *)
Theorem delayed_internal_send_strands_event :
  compiles pingDefinition = true
  ∧ waiting (served pingDefinition plainRuntime [reqTimerFired 1] (fresh 0)) = Some (["next"], ["pong"])
  ∧ waiting (served pingDefinition plainRuntime [reqTimerFired 1; reqActiveInvokes] (fresh 0)) = Some (["answered"], []).
Proof. vm_compute. done. Qed.

(** ** Delivery IDs of a replay

    A message to the helper, then one to a peer. *)

Definition talkRoot : StateDefinition :=
  Compound "root" "idle" [Children [
    set_Invokes [helper] (Atomic "idle" [
      On "talk" [Then [send "hello" [SendTarget "#_helper"]; send "report" [SendTarget "peer"]]]])]].

Definition talkDefinition : ChartDefinition := chartDefinition talkRoot.

Definition delivered (i : option instance) : option (list (Identifier * string)) :=
  (λ i, map (λ r, (sr_Event r, sr_DeliveryID r)) (requests (in_ip i))) <$> i.

(** ** A handler that cannot be made *)

Definition callRoot : StateDefinition :=
  Compound "root" "calling" [Children [
    set_Invokes [helper] (Atomic "calling" [On "error.communication" [Target ["failed"]]]);
    Atomic "failed" [On "retry" [Target ["idle"]]];
    Atomic "idle" []]].

Definition callDefinition : ChartDefinition := chartDefinition callRoot.

Definition failingRuntime : runtime :=
  mkRuntime plainEnv (λ _, true) (λ _ _, FactoryError (Errorf "connection refused")) (λ _, None) None None None.

(** The log of the live run: it started, and was sent "retry". *)
Definition callStorage : rehydration (DM := CounterSession) :=
  mkRehydration (Loaded None) (Ok 2%N) (λ _, ([started_entry "s1" 1 100; external_entry "s1" 2 200 (ext "retry")], None))
    (λ _, Ok (Some (0%Z : @Session CounterSession))) None 900.

(** ** An invocation started while going live

    The timer of the first state is overdue when the session is rehydrated. *)

Definition overdueRoot : StateDefinition :=
  Compound "root" "wait" [Children [
    Atomic "wait" [OnEntry [delayed "tick" ""]; On "tick" [Target ["calling"]]];
    set_Invokes [helper] (Atomic "calling" [])]].

Definition overdueDefinition : ChartDefinition := chartDefinition overdueRoot.

Definition resumableRuntime : runtime :=
  mkRuntime plainEnv (λ _, true) (λ _ _, ResumableHandler) (λ _, None) None None None.

Definition overdueStorage : rehydration (DM := CounterSession) :=
  mkRehydration (Loaded None) (Ok 1%N) (λ _, ([started_entry "s1" 1 100], None))
    (λ _, Ok (Some (0%Z : @Session CounterSession))) None 900000000000.

(** The configuration and the handlers started by a rehydration. *)
Definition rehydrated (d : ChartDefinition) (rt : runtime) (rh : rehydration) : option (list Identifier * list Identifier) :=
  match rehydrate (SS := CounterSnapshot) (compiledOf d) rt 20 plainConfig rh with
  | Some (Ok (i, _)) => Some (in_config i, map rq_ID (started (in_ip i)))
  | _ => None
  end.

(** Replay and run can differ when there are invocations, which is why the
    replay theorem is about charts without them.  A message to a running
    invocation takes a delivery number during a replay and none live, so the
    messages after it have other delivery IDs; the error of a handler that
    cannot be made is not replayed, so that the rehydrated session is in another
    state than the run whose complete log it read; and a timer that is overdue
    when the session goes live can start an invocation that is then resumed a
    second time. *)
Theorem replay_differs_with_invocations :
  compiles talkDefinition && compiles callDefinition && compiles overdueDefinition = true
  ∧ (delivered (served talkDefinition plainRuntime [reqSend (ext "talk")] (fresh 0)) = Some [("report", "ns:1")]
   ∧ delivered (served talkDefinition plainRuntime [reqSend (ext "talk")] (gated (fresh 0)))
     = Some [("hello", "ns:1"); ("report", "ns:2")])
  ∧ (in_config <$> served callDefinition failingRuntime [reqSend (ext "retry")] (fresh 100) = Some ["idle"]
     ∧ fst <$> rehydrated callDefinition failingRuntime callStorage = Some ["failed"])
  ∧ rehydrated overdueDefinition resumableRuntime overdueStorage = Some (["calling"], ["helper"; "helper"]).
Proof. vm_compute. done. Qed.
