(* ===== verification/Threads.v ===== *)
(** * Threads: concurrent code as sequences of atomic actions

    The actor system is entered from many goroutines.  A call is a [thread]: a
    sequence of atomic actions on the shared state, each the body of a critical
    section or a single load or store, whose result decides how the thread goes
    on.  An action without a result ([None]) is not enabled: the mutex is held,
    or a call that never returns was made.  [run] executes a thread alone;
    [pool_step] interleaves the threads of a pool.

    [wp] is the proof rule for pools: a thread relies on what the other threads
    guarantee and keeps a shared invariant; what it needs between two of its
    actions has to be stable under the others ([stable]). *)

From S2P Require Import Prelude.
From stdpp Require Import options.

Inductive thread (St : Type) (A : Type) : Type :=
| Return (a : A)
| Atomic {B : Type} (f : St → option (St * B)) (k : B → thread St A).
Arguments Return {St A} a.
Arguments Atomic {St A B} f k.

#[global] Instance thread_ret {St} : MRet (thread St) := @Return St.
#[global] Instance thread_bind {St} : MBind (thread St) := λ A B g,
  fix go t := match t with Return a => g a | Atomic f k => Atomic f (λ b, go (k b)) end.

Section threads.
Context {St : Type}.

(** The single actions. *)
Definition atomic {A} (f : St → option (St * A)) : thread St A := Atomic f Return.
Definition reads {A} (f : St → A) : thread St A := atomic (λ s, Some (s, f s)).
Definition writes (f : St → St) : thread St () := atomic (λ s, Some (f s, ())).
Definition updates {A} (f : St → St * A) : thread St A := atomic (λ s, Some (f s)).
(** A pointer that the code follows: the thread does not get past a missing one. *)
Definition follows {A} (f : St → option A) : thread St A := atomic (λ s, a ← f s; Some (s, a)).
Definition stuck {A} : thread St A := atomic (λ _, None).

(** A loop over a list, and one that ends with the first result. *)
Fixpoint each {A} (xs : list A) (f : A → thread St ()) : thread St () :=
  match xs with [] => mret () | x :: xs => f x ≫= λ _, each xs f end.
Fixpoint first {A B} (xs : list A) (f : A → thread St (option B)) : thread St (option B) :=
  match xs with
  | [] => mret None
  | x :: xs => f x ≫= λ r, match r with Some b => mret (Some b) | None => first xs f end
  end.

Fixpoint run {A} (t : thread St A) (s : St) : option (St * A) :=
  match t with
  | Return a => Some (s, a)
  | Atomic f k => match f s with Some (s', b) => run (k b) s' | None => None end
  end.

Lemma run_bind {A B} (t : thread St A) (g : A → thread St B) s :
  run (t ≫= g) s = match run t s with Some (s', a) => run (g a) s' | None => None end.
Proof. revert s. induction t as [a|C f k IH]; intros s; [done|]. cbn. destruct (f s) as [[s' b]|]; [apply IH|done]. Qed.

Lemma run_bind_Some {A B} (t : thread St A) (g : A → thread St B) s s2 b :
  run (t ≫= g) s = Some (s2, b) ↔ ∃ s1 a, run t s = Some (s1, a) ∧ run (g a) s1 = Some (s2, b).
Proof. rewrite run_bind. destruct (run t s) as [[s1 a]|]; naive_solver. Qed.

(** ** Postconditions of a thread that runs alone *)

(** From every state in [P], a run ends, if it does, with [Q]. *)
Definition post {A} (P : St → Prop) (t : thread St A) (Q : A → St → Prop) : Prop :=
  ∀ s s' a, P s → run t s = Some (s', a) → Q a s'.

Lemma post_return {A} (P : St → Prop) (a : A) Q : (∀ s, P s → Q a s) → post P (Return a) Q.
Proof. intros H s s' a' Hs [= <- <-]. auto. Qed.

Lemma post_bind {A B} P (t : thread St A) M (g : A → thread St B) Q :
  post P t M → (∀ a, post (M a) (g a) Q) → post P (t ≫= g) Q.
Proof. intros Ht Hg s s' b Hs (s1 & a & H1 & H2)%run_bind_Some. eapply Hg; [|done]. by eapply Ht. Qed.

Lemma post_atomic {A B} P (f : St → option (St * A)) (k : A → thread St B) M Q :
  (∀ s s' a, P s → f s = Some (s', a) → M a s') → (∀ a, post (M a) (k a) Q) → post P (Atomic f k) Q.
Proof. intros Hf Hk s s' b Hs H. cbn in H. destruct (f s) as [[s1 a]|] eqn:E; [|done]. eapply Hk; [|done]. by eapply Hf. Qed.

Lemma post_weaken {A} (P P' : St → Prop) (t : thread St A) (Q Q' : A → St → Prop) :
  post P' t Q' → (∀ s, P s → P' s) → (∀ a s, Q' a s → Q a s) → post P t Q.
Proof. intros H HP HQ s s' a Hs Hr. eapply HQ, H; eauto. Qed.

(** A predicate of states is kept by a thread. *)
Definition keeps {A} (P : St → Prop) (t : thread St A) : Prop := post P t (λ _, P).

Lemma keeps_bind {A B} P (t : thread St A) (g : A → thread St B) : keeps P t → (∀ a, keeps P (g a)) → keeps P (t ≫= g).
Proof. intros Ht Hg. by eapply post_bind. Qed.
Lemma keeps_atomic {A B} P (f : St → option (St * A)) (k : A → thread St B) :
  (∀ s s' a, P s → f s = Some (s', a) → P s') → (∀ a, keeps P (k a)) → keeps P (Atomic f k).
Proof. intros Hf Hk. by apply (post_atomic P f k (λ _, P)). Qed.
Lemma keeps_each {A} P (xs : list A) f : (∀ x, keeps P (f x)) → keeps P (each xs f).
Proof. intros H. induction xs as [|x xs IH]; [by apply post_return|]. by apply keeps_bind. Qed.
Lemma keeps_first {A B} P (xs : list A) (f : A → thread St (option B)) : (∀ x, keeps P (f x)) → keeps P (first xs f).
Proof.
  intros H. induction xs as [|x xs IH]; [by apply post_return|]. apply keeps_bind; [done|]. intros [b|]; [by apply post_return|done].
Qed.

(** ** Pools *)

Abbreviation pool A := (gmap nat (thread St A)).

(** A thread of the pool acts, or a call, one of [calls], is made by a new
    goroutine; a finished thread stays in the pool. *)
Inductive pool_step {A} (calls : nat → thread St A → Prop) : St * pool A → St * pool A → Prop :=
| pool_call i t s ts : ts !! i = None → calls i t → pool_step calls (s, ts) (s, <[i := t]> ts)
| pool_act i B (f : St → option (St * B)) k s s' b ts :
    ts !! i = Some (Atomic f k) → f s = Some (s', b) → pool_step calls (s, ts) (s', <[i := k b]> ts).

Definition pool_reachable {A} (calls : nat → thread St A → Prop) (s : St) (c : St * pool A) : Prop :=
  rtc (pool_step calls) (s, ∅) c.

(** A call that can run alone does so, whatever the pool has done before. *)
Lemma run_steps {A} (calls : nat → thread St A → Prop) i t (s s' : St) a (ts : pool A) :
  run t s = Some (s', a) → rtc (pool_step calls) (s, <[i := t]> ts) (s', <[i := Return a]> ts).
Proof.
  revert s. induction t as [x|B f k IH]; intros s; cbn; [intros [= <- <-]; reflexivity|]. destruct (f s) as [[s1 b]|] eqn:E; [|done].
  intros H. eapply rtc_l; [apply (pool_act calls i B f k s s1 b); [apply lookup_insert_eq|done]|]. rewrite insert_insert_eq. by apply IH.
Qed.
Lemma run_reachable {A} (calls : nat → thread St A → Prop) i t (s0 s s' : St) a (ts : pool A) :
  pool_reachable calls s0 (s, ts) → ts !! i = None → calls i t → run t s = Some (s', a) → pool_reachable calls s0 (s', <[i := Return a]> ts).
Proof. intros Hr Hi Hc Ht. eapply rtc_trans; [exact Hr|]. eapply rtc_l; [by apply (pool_call calls i t)|]. by apply run_steps. Qed.

(** ** What every action does *)

(** Every action of a thread moves the state along [R], whatever it reads. *)
Fixpoint always {A} (R : St → St → Prop) (t : thread St A) : Prop :=
  match t with
  | Return _ => True
  | Atomic f k => (∀ s s' b, f s = Some (s', b) → R s s') ∧ ∀ b, always R (k b)
  end.

Lemma always_bind {A B} R (t : thread St A) (g : A → thread St B) : always R t → (∀ a, always R (g a)) → always R (t ≫= g).
Proof. intros Ht Hg. induction t as [a|C f k IH]; [apply Hg|]. destruct Ht as [Hf Hk]. split; [done|]. intros b. by apply IH. Qed.
Lemma always_mono {A} (R R' : St → St → Prop) (t : thread St A) : (∀ s s', R s s' → R' s s') → always R t → always R' t.
Proof. intros HR. induction t as [a|C f k IH]; [done|]. intros [Hf Hk]. split; [|auto]. intros s s' b H. by eapply HR, Hf. Qed.
Lemma always_atomic {A} R (f : St → option (St * A)) : (∀ s s' a, f s = Some (s', a) → R s s') → always R (atomic f).
Proof. by intros H. Qed.
Lemma always_stuck {A} R : always R (stuck : thread St A).
Proof. by split. Qed.
Lemma always_writes (R : St → St → Prop) f : (∀ s, R s (f s)) → always R (writes f).
Proof. intros H. apply always_atomic. by intros s s' a [= <- <-]. Qed.
Lemma always_updates {A} (R : St → St → Prop) (f : St → St * A) : (∀ s, R s (f s).1) → always R (updates f).
Proof. intros H. apply always_atomic. intros s s' a [= E]. specialize (H s). by rewrite E in H. Qed.
Lemma always_reads {A} (R : St → St → Prop) `{!Reflexive R} (f : St → A) : always R (reads f).
Proof. apply always_atomic. intros s s' a [= <- <-]. reflexivity. Qed.
Lemma always_follows {A} (R : St → St → Prop) `{!Reflexive R} (f : St → option A) : always R (follows f).
Proof. apply always_atomic. intros s s' a H. destruct (f s); [|done]. injection H as <- <-. reflexivity. Qed.
Lemma always_each {A} R (xs : list A) f : (∀ x, always R (f x)) → always R (each xs f).
Proof. intros H. induction xs as [|x xs IH]; [done|]. by apply always_bind. Qed.
Lemma always_first {A B} R (xs : list A) (f : A → thread St (option B)) : (∀ x, always R (f x)) → always R (first xs f).
Proof. intros H. induction xs as [|x xs IH]; [done|]. apply always_bind; [done|]. by intros [b|]. Qed.

Lemma always_run {A} (R : St → St → Prop) `{!PreOrder R} (t : thread St A) s s' a : always R t → run t s = Some (s', a) → R s s'.
Proof.
  revert s. induction t as [x|B f k IH]; intros s; [intros _ [= <- <-]; reflexivity|]. intros [Hf Hk] H. cbn in H.
  destruct (f s) as [[s1 b]|] eqn:E; [|done]. etrans; [by eapply Hf | by eapply IH].
Qed.

(** A predicate that every action keeps holds of every reachable state. *)
Lemma pool_always {A} (calls : nat → thread St A → Prop) (P : St → Prop) (R : St → St → Prop) s c :
  (∀ s s', R s s' → P s → P s') → (∀ i t, calls i t → always R t) → P s → pool_reachable calls s c → P c.1.
Proof.
  intros HR Hcalls Hs Hr. enough (P c.1 ∧ ∀ i t, c.2 !! i = Some t → always R t) as [? _] by done. revert c Hr.
  apply (rtc_ind_r (λ c, P c.1 ∧ ∀ i t, c.2 !! i = Some t → always R t) (s, ∅)).
  { split; [done|]. intros i t H. cbn in H. by rewrite lookup_empty in H. }
  intros c1 c2 _ Hstep [HP Hts]. destruct Hstep as [i t s1 ts Hnew Hcall|i B f k s1 s2 b ts Hi Hf]; cbn in *.
  - split; [done|]. intros j t' [[<- <-]|[_ Hl]]%lookup_insert_Some; [by eapply Hcalls | by eapply Hts].
  - destruct (Hts i _ Hi) as [Hact Hk]. split; [eapply HR; [by eapply Hact|done]|].
    intros j t' [[<- <-]|[_ Hl]]%lookup_insert_Some; [apply Hk | by eapply Hts].
Qed.

(** ** Rely and guarantee *)

Section rely.
Variable I : St → Prop.
Variable G : nat → St → St → Prop.

Definition rely (i : nat) (s s' : St) : Prop := ∃ j, j ≠ i ∧ G j s s'.

Definition stable (i : nat) (P : St → Prop) : Prop := ∀ s s', I s → I s' → P s → rely i s s' → P s'.

(** What holds of a thread when it has just acted: before its next action some
    stable [P] holds, from which the action keeps the invariant and the
    guarantee. *)
Fixpoint wp {A} (i : nat) (t : thread St A) (Q : A → St → Prop) (s : St) : Prop :=
  match t with
  | Return a => Q a s
  | Atomic f k =>
      ∃ P : St → Prop, P s ∧ stable i P ∧
        ∀ s1 s2 b, I s1 → P s1 → f s1 = Some (s2, b) → I s2 ∧ G i s1 s2 ∧ wp i (k b) Q s2
  end.

Lemma wp_mono {A} i (t : thread St A) (Q Q' : A → St → Prop) s : wp i t Q s → (∀ a s, Q a s → Q' a s) → wp i t Q' s.
Proof using Type.
  intros H HQ. revert s H. induction t as [a|B f k IH]; intros s H; [by apply HQ|].
  destruct H as (P & Hs & Hst & H). exists P. split_and!; [done|done|]. intros s1 s2 b H1 H2 H3.
  destruct (H s1 s2 b H1 H2 H3) as (? & ? & ?). auto.
Qed.

Lemma wp_bind {A B} i (t : thread St A) (g : A → thread St B) Q s :
  wp i t (λ a, wp i (g a) Q) s → wp i (t ≫= g) Q s.
Proof using Type.
  revert s. induction t as [a|C f k IH]; intros s H; [done|]. destruct H as (P & Hs & Hst & H). exists P. split_and!; [done|done|].
  intros s1 s2 b H1 H2 H3. destruct (H s1 s2 b H1 H2 H3) as (? & ? & ?). split_and!; [done|done|]. by apply IH.
Qed.

(** An action that needs no knowledge, and one that needs some. *)
Lemma wp_free {A B} i (f : St → option (St * B)) (k : B → thread St A) Q s :
  (∀ s1 s2 b, I s1 → f s1 = Some (s2, b) → I s2 ∧ G i s1 s2 ∧ wp i (k b) Q s2) → wp i (Atomic f k) Q s.
Proof using Type. intros H. exists (λ _, True). split_and!; [done|done|]. auto. Qed.

Lemma wp_act {A B} i (P : St → Prop) (f : St → option (St * B)) (k : B → thread St A) Q s :
  stable i P → P s →
  (∀ s1 s2 b, I s1 → P s1 → f s1 = Some (s2, b) → I s2 ∧ G i s1 s2 ∧ wp i (k b) Q s2) → wp i (Atomic f k) Q s.
Proof using Type. intros ?? H. by exists P. Qed.

(** A waiting thread keeps its [wp] while the others act, and a finished one its
    postcondition, if that is stable. *)
Lemma wp_wait {A} i (t : thread St A) Q s s' :
  (∀ a, stable i (Q a)) → I s → I s' → wp i t Q s → rely i s s' → wp i t Q s'.
Proof using Type.
  intros HQ Hs Hs' H Hr. destruct t as [a|B f k]; [by apply (HQ a s s')|]. destruct H as (P & HP & Hst & H). exists P. split_and!; [by apply (Hst s s')|done|done].
Qed.

(** The invariant of a pool whose calls are all correct on their own, with what
    their answers say. *)
Definition pool_ok {A} (Q : A → St → Prop) (c : St * pool A) : Prop := I c.1 ∧ ∀ i t, c.2 !! i = Some t → wp i t Q c.1.

Theorem pool_sound {A} (calls : nat → thread St A → Prop) (Q : A → St → Prop) s c :
  (∀ i a, stable i (Q a)) → (∀ i t s, calls i t → I s → wp i t Q s) → I s → pool_reachable calls s c → pool_ok Q c.
Proof using Type.
  intros HQ Hcalls Hs Hr. revert c Hr. apply (rtc_ind_r (pool_ok Q) (s, ∅)).
  { split; [done|]. intros i t H. cbn in H. by rewrite lookup_empty in H. }
  intros c1 c2 _ Hstep [Hi Hts]. destruct Hstep as [i t s1 ts Hnew Hcall|i B f k s1 s2 b ts Hi' Hf]; cbn in *.
  - split; [done|]. cbn. intros j t' [[<- <-]|[Hj Hl]]%lookup_insert_Some; [by apply Hcalls|by apply Hts].
  - destruct (Hts i (Atomic f k) Hi') as (P & HP & Hst & Hact). destruct (Hact s1 s2 b Hi HP Hf) as (Hi2 & Hg & Hk).
    split; [done|]. cbn. intros j t' [[<- <-]|[Hj Hl]]%lookup_insert_Some; [done|].
    apply (wp_wait j t' Q s1); [done|done|done|by apply Hts|]. by exists i.
Qed.
End rely.
End threads.

Arguments atomic {St A} f.
Arguments stuck {St A}.

(** Splits a goal about a thread along its structure. *)
Ltac keeps_step :=
  match goal with
  | |- keeps _ (mbind _ _) => apply keeps_bind; [|intros ?]
  | |- keeps _ (mret _) => apply post_return; done
  | |- keeps _ (Return _) => apply post_return; done
  | |- keeps _ (each _ _) => apply keeps_each; intros ?
  | |- keeps _ (first _ _) => apply keeps_first; intros ?
  | |- keeps _ (match ?x with _ => _ end) => destruct x eqn:?
  end.
Ltac always_step :=
  match goal with
  | |- always _ (mbind _ _) => apply always_bind; [|intros ?]
  | |- always _ (mret _) => exact I
  | |- always _ (Return _) => exact I
  | |- always _ stuck => apply always_stuck
  | |- always _ (reads _) => apply always_reads; apply _
  | |- always _ (follows _) => apply always_follows; apply _
  | |- always _ (each _ _) => apply always_each; intros ?
  | |- always _ (first _ _) => apply always_first; intros ?
  | |- always _ (match ?x with _ => _ end) => destruct x eqn:?
  end.
