(* ===== verification/Observation.v ===== *)
(** * Observations: bounded streams of diagnostics (actors/observation.go)

    A system publishes diagnostics to its subscribers without ever waiting for
    them: every subscriber has a buffered channel, and what does not fit is
    counted and reported with the next observation that does.  Every function
    runs under [observationsMu], so it is one action. *)

From S2P Require Import Prelude Identifier Values Events Interp Instance.
From stdpp Require Import options.

(** ** Macrostep traces (macrostep_trace.go)

    Microsteps and transition references are those of the interpreter. *)

Record MacrostepTrace := mkMacrostepTrace {
  ma_Sequence : N;
  ma_Timestamp : Z;
  ma_Trigger : option Event;
  ma_Before : list Identifier;
  ma_Microsteps : list MicrostepTrace;
  ma_After : list Identifier;
  ma_Terminal : bool;
  ma_TerminalError : string
}.

Definition cloneTraceEvent (event : option Event) : option Event := cloneEvent <$> event.

Definition cloneMicrostep (step : MicrostepTrace) : MicrostepTrace :=
  mkMicrostepTrace (cloneTraceEvent (mt_Trigger step)) (mt_Transitions step) (mt_Exited step) (mt_Entered step).

Definition cloneMacrostepTrace (trace : MacrostepTrace) : MacrostepTrace :=
  mkMacrostepTrace (ma_Sequence trace) (ma_Timestamp trace) (cloneTraceEvent (ma_Trigger trace)) (ma_Before trace)
    (map cloneMicrostep (ma_Microsteps trace)) (ma_After trace) (ma_Terminal trace) (ma_TerminalError trace).

(** ** The directory's view of an actor (actors/inspection.go) *)

Record ActorInfo := mkInfo {
  ai_ID : Identifier;
  ai_Address : Identifier;
  ai_Node : string;
  ai_Kind : Identifier;
  ai_Revision : string;
  ai_SessionID : string;
  ai_Durable : bool;
  ai_Adopted : bool;
  ai_Lifecycle : string;
  ai_Residency : string;
  ai_StartedAt : Z;
  ai_TerminalAt : Z;
  ai_LastActiveAt : Z
}.

(** ** Observations *)

Definition DefaultObservationBuffer : Z := 256.
Definition MaxObservationBuffer : Z := 4096.

(** Strings in the source. *)
Inductive ObservationKind :=
  ObservationActorDiscovered | ObservationActorTerminal | ObservationResidencyChanged
| ObservationDefinitionPublished | ObservationMacrostep.

Record DefinitionPublication := mkPublication {
  dp_ChartID : Identifier;
  dp_PreviousRevision : string;
  dp_Revision : string
}.

Record Observation := mkObservation {
  ob_Sequence : N;
  ob_Timestamp : Z;
  ob_Kind : ObservationKind;
  ob_Dropped : N;
  ob_Actor : option ActorInfo;
  ob_Definition : option DefinitionPublication;
  ob_Macrostep : option MacrostepTrace
}.

(** An observation before it is published. *)
Definition observation (kind : ObservationKind) (actor : option ActorInfo) (definition : option DefinitionPublication)
    (trace : option MacrostepTrace) : Observation := mkObservation 0 0 kind 0 actor definition trace.

(** The method [Clone]. *)
Definition cloneObservation (o : Observation) : Observation :=
  mkObservation (ob_Sequence o) (ob_Timestamp o) (ob_Kind o) (ob_Dropped o) (ob_Actor o) (ob_Definition o)
    (cloneMacrostepTrace <$> ob_Macrostep o).

(** The channel of a subscriber: its capacity, what waits in it, and what its
    reader has taken out. *)
Record observationSubscriber := mkSubscriber {
  su_capacity : nat;
  su_buffer : list Observation;
  su_received : list Observation;
  su_dropped : N;
  su_since : N
}.

(** The fields of [System] under [observationsMu]; [oz_closed] has the channels
    that were closed, which can still be drained. *)
Record observers := mkObservers {
  oz_observations : gmap N observationSubscriber;
  oz_closed : gmap N observationSubscriber;
  oz_observationID : N;
  oz_observationSeq : N;
  oz_observerCount : Z
}.

Definition noObservers : observers := mkObservers ∅ ∅ 0 0 0.

Definition ErrSystemStopped : error := Errorf "actors: system is stopped".

(** [x++] on a [uint64]. *)
Definition incr64 (x : N) : N := ((x + 1) mod 2 ^ 64)%N.

Definition SubscribeObservations (stopped : bool) (buffer : Z) (o : observers) : observers * result N :=
  let buffer := if decide (buffer = 0)%Z then DefaultObservationBuffer else buffer in
  if bool_decide (buffer < 1)%Z || bool_decide (MaxObservationBuffer < buffer)%Z
  then (o, Err (Errorf ("actors: observation buffer must be between 1 and " +:+ pretty MaxObservationBuffer)))
  else if stopped then (o, Err ErrSystemStopped)
  else
    let id := incr64 (oz_observationID o) in
    (mkObservers (<[id := mkSubscriber (Z.to_nat buffer) [] [] 0 (oz_observationSeq o)]> (oz_observations o)) (oz_closed o) id
       (oz_observationSeq o) (oz_observerCount o + 1), Ok id).

(** [Close]; [once] makes a second call do nothing, as does a missing entry. *)
Definition closeSubscription (id : N) (o : observers) : observers :=
  match oz_observations o !! id with
  | Some sub => mkObservers (delete id (oz_observations o)) (<[id := sub]> (oz_closed o)) (oz_observationID o) (oz_observationSeq o)
                  (oz_observerCount o - 1)
  | None => o
  end.

Definition closeObservationSubscriptions (o : observers) : observers :=
  mkObservers ∅ (oz_observations o ∪ oz_closed o) (oz_observationID o) (oz_observationSeq o) 0.

(** The [select] with a [default] case: the send succeeds if there is room. *)
Definition offer (seq : N) (t : Z) (o : Observation) (sub : observationSubscriber) : observationSubscriber :=
  let o := cloneObservation (mkObservation seq t (ob_Kind o) (ob_Dropped o) (ob_Actor o) (ob_Definition o) (ob_Macrostep o)) in
  let copy := mkObservation (ob_Sequence o) (ob_Timestamp o) (ob_Kind o) (su_dropped sub) (ob_Actor o) (ob_Definition o) (ob_Macrostep o) in
  if decide (length (su_buffer sub) < su_capacity sub)
  then mkSubscriber (su_capacity sub) (su_buffer sub ++ [copy]) (su_received sub) 0 (su_since sub)
  else mkSubscriber (su_capacity sub) (su_buffer sub) (su_received sub) (incr64 (su_dropped sub)) (su_since sub).

Definition publishObservation (t : Z) (o : Observation) (oz : observers) : observers :=
  if decide (oz_observerCount oz = 0)%Z then oz
  else if decide (oz_observations oz = ∅) then oz
  else
    let seq := incr64 (oz_observationSeq oz) in
    mkObservers (offer seq t o <$> oz_observations oz) (oz_closed oz) (oz_observationID oz) seq (oz_observerCount oz).

(** The reader takes the oldest observation out of the channel. *)
Definition takeOldest (sub : observationSubscriber) : option observationSubscriber :=
  match su_buffer sub with
  | [] => None
  | o :: rest => Some (mkSubscriber (su_capacity sub) rest (su_received sub ++ [o]) (su_dropped sub) (su_since sub))
  end.

Definition receive (id : N) (oz : observers) : option observers :=
  match oz_observations oz !! id with
  | Some sub => sub ← takeOldest sub; Some (mkObservers (<[id := sub]> (oz_observations oz)) (oz_closed oz) (oz_observationID oz) (oz_observationSeq oz) (oz_observerCount oz))
  | None =>
      sub ← oz_closed oz !! id; sub ← takeOldest sub;
      Some (mkObservers (oz_observations oz) (<[id := sub]> (oz_closed oz)) (oz_observationID oz) (oz_observationSeq oz) (oz_observerCount oz))
  end.

(** ** What a reader can rely on *)

(** The next ID is not in use, which takes 2^64 subscriptions to go wrong. *)
Definition fresh_id (oz : observers) : Prop := oz_observations oz !! incr64 (oz_observationID oz) = None.

(** Everything that can happen to the subscribers. *)
Inductive observe_step : observers → observers → Prop :=
| observe_subscribe stopped buffer o : fresh_id o → observe_step o (SubscribeObservations stopped buffer o).1
| observe_close id o : observe_step o (closeSubscription id o)
| observe_closeAll o : observe_step o (closeObservationSubscriptions o)
| observe_publish t x o : observe_step o (publishObservation t x o)
| observe_receive id o o' : receive id o = Some o' → observe_step o o'.

(** All that was ever put into the channel. *)
Definition stream (sub : observationSubscriber) : list Observation := su_received sub ++ su_buffer sub.

(** The observations follow each other, [from] on, when those that each counts
    as dropped are added. *)
Fixpoint contiguous (from : N) (os : list Observation) (to : N) : Prop :=
  match os with
  | [] => from = to
  | o :: os => ob_Sequence o = ((from + ob_Dropped o + 1) mod 2 ^ 64)%N ∧ contiguous (ob_Sequence o) os to
  end.

(** A subscriber's stream up to sequence number [seq]. *)
Definition accounted (seq : N) (sub : observationSubscriber) : Prop :=
  length (su_buffer sub) ≤ su_capacity sub ∧ (1 ≤ Z.of_nat (su_capacity sub) ≤ MaxObservationBuffer)%Z ∧
  ∃ last, contiguous (su_since sub) (stream sub) last ∧ seq = ((last + su_dropped sub) mod 2 ^ 64)%N.

Definition observers_ok (oz : observers) : Prop :=
  oz_observerCount oz = Z.of_nat (size (oz_observations oz)) ∧ (oz_observationSeq oz < 2 ^ 64)%N ∧
  (∀ id sub, oz_observations oz !! id = Some sub → accounted (oz_observationSeq oz) sub) ∧
  (∀ id sub, oz_closed oz !! id = Some sub → ∃ seq, accounted seq sub).

#[local] Opaque N.pow.

Lemma contiguous_app from os o to to' : contiguous from os to → ob_Sequence o = ((to + ob_Dropped o + 1) mod 2 ^ 64)%N → ob_Sequence o = to' →
  contiguous from (os ++ [o]) to'.
Proof. revert from. induction os as [|x os IH]; intros from; simpl; [by intros -> ? <-|]. intros [? ?] ??. auto. Qed.

Lemma incr64_lt x : (incr64 x < 2 ^ 64)%N.
Proof. unfold incr64. apply N.mod_lt. by apply N.pow_nonzero. Qed.

Lemma incr64_add a b : incr64 ((a + b) mod 2 ^ 64) = ((a + incr64 b) mod 2 ^ 64)%N.
Proof.
  unfold incr64. assert (2 ^ 64 ≠ 0)%N by by apply N.pow_nonzero. rewrite N.Div0.add_mod_idemp_l, N.Div0.add_mod_idemp_r. f_equal. lia.
Qed.

Lemma offer_accounted t x seq sub : (seq < 2 ^ 64)%N → accounted seq sub → accounted (incr64 seq) (offer (incr64 seq) t x sub).
Proof.
  intros Hlt (Hb & Hc & last & Hl & Hseq). unfold offer, accounted, stream in *. case_decide as Hroom; simpl.
  - split_and!; [rewrite length_app; simpl; lia|lia|lia|]. exists (incr64 seq). split; [|by rewrite N.add_0_r, N.mod_small by apply incr64_lt].
    rewrite app_assoc. eapply contiguous_app; [done| |done]. simpl. rewrite Hseq, incr64_add. unfold incr64. rewrite N.Div0.add_mod_idemp_r. f_equal. lia.
  - split_and!; [lia|lia|lia|]. exists last. split; [done|]. by rewrite Hseq, incr64_add.
Qed.

Lemma takeOldest_accounted seq sub sub' : takeOldest sub = Some sub' → accounted seq sub → accounted seq sub'.
Proof.
  unfold takeOldest, accounted, stream. destruct (su_buffer sub) as [|o rest] eqn:E; [done|]. intros [= <-]. simpl. intros (Hb & Hc & last & Hl & Hseq).
  split_and!; [lia|lia|lia|]. exists last. split; [|done]. by rewrite <-app_assoc.
Qed.

Lemma observe_step_ok o o' : observe_step o o' → observers_ok o → observers_ok o'.
Proof.
  intros Hstep (Hcount & Hlt & Hsubs & Hclosed). destruct Hstep as [stopped buffer o Hfresh|id o|o|t x o|id o o' Hr].
  - unfold SubscribeObservations. set (b := if decide (buffer = 0)%Z then _ else _). destruct (_ || _) eqn:Eb; [done|]. destruct stopped; [done|].
    apply orb_false_iff in Eb as [H1%bool_decide_eq_false H2%bool_decide_eq_false]. split_and!; simpl.
    + rewrite map_size_insert_None by done. lia.
    + done.
    + intros id sub [[<- <-]|[? ?]]%lookup_insert_Some; [|by eapply Hsubs]. split_and!; simpl; [lia|lia|lia|].
      exists (oz_observationSeq o). split; [done|]. by rewrite N.add_0_r, N.mod_small.
    + done.
  - unfold closeSubscription. destruct (oz_observations o !! id) as [sub|] eqn:E; [|done]. split_and!; simpl.
    + rewrite map_size_delete_Some by done. assert (size (oz_observations o) ≠ 0); [|lia]. apply map_size_non_empty_iff. intros He. by rewrite He, lookup_empty in E.
    + done.
    + intros id' sub' [? ?]%lookup_delete_Some. by eapply Hsubs.
    + intros id' sub' [[<- <-]|[? ?]]%lookup_insert_Some; [eauto|by eapply Hclosed].
  - split_and!; simpl; [by rewrite map_size_empty|done|by intros ??; rewrite lookup_empty|].
    intros id sub [?|[? ?]]%lookup_union_Some_raw; [eauto|by eapply Hclosed].
  - unfold publishObservation. do 2 (case_decide; [done|]). split_and!; simpl; [by rewrite map_size_fmap|apply incr64_lt| |done].
    intros id sub. rewrite lookup_fmap. intros Hsub. destruct (oz_observations o !! id) as [sub'|] eqn:E; [|done]. simpl in Hsub. injection Hsub as <-.
    by apply offer_accounted, (Hsubs id).
  - unfold receive in Hr. destruct (oz_observations o !! id) as [sub|] eqn:E.
    + destruct (takeOldest sub) as [sub'|] eqn:Et; [|done]. injection Hr as <-. split_and!; simpl; [by rewrite map_size_insert_Some by eauto|done| |done].
      intros id' sub'' [[<- <-]|[? ?]]%lookup_insert_Some; [by eapply takeOldest_accounted, Hsubs|by eapply Hsubs].
    + destruct (oz_closed o !! id) as [sub|] eqn:Ec; [|done]. simpl in Hr. destruct (takeOldest sub) as [sub'|] eqn:Et; [|done]. injection Hr as <-.
      split_and!; simpl; [done|done|done|]. intros id' sub'' [[<- <-]|[? ?]]%lookup_insert_Some; [|by eapply Hclosed].
      destruct (Hclosed id sub Ec) as [seq Hseq]. exists seq. by eapply takeOldest_accounted.
Qed.

(** Publishing reaches every open subscriber, whatever their buffers hold. *)
Lemma publish_offers t x oz id sub : observers_ok oz → oz_observations oz !! id = Some sub →
  oz_observations (publishObservation t x oz) !! id = Some (offer (incr64 (oz_observationSeq oz)) t x sub).
Proof.
  intros (Hcount & _) Hsub. assert (oz_observations oz ≠ ∅) as Hne by (intros He; by rewrite He, lookup_empty in Hsub).
  unfold publishObservation. rewrite decide_False. 2:{ rewrite Hcount. apply map_size_non_empty_iff in Hne. lia. }
  rewrite decide_False by done. simpl. by rewrite lookup_fmap, Hsub.
Qed.

(** C32 (invariant): whatever subscriptions, closings, publications and reads
    happen, in any order, every subscriber's channel stays within its capacity
    (at most [MaxObservationBuffer]), and the sequence numbers of what was put
    into it follow each other without a gap that the [Dropped] counters do not
    account for, up to the last publication; [observerCount] is the number of
    open subscriptions. *)
Theorem observations_accounted oz : rtc observe_step noObservers oz →
  oz_observerCount oz = Z.of_nat (size (oz_observations oz)) ∧
  ∀ id sub, oz_observations oz !! id = Some sub →
    length (su_buffer sub) ≤ su_capacity sub ∧ (1 ≤ Z.of_nat (su_capacity sub) ≤ MaxObservationBuffer)%Z ∧
    ∃ last, contiguous (su_since sub) (su_received sub ++ su_buffer sub) last ∧
      oz_observationSeq oz = ((last + su_dropped sub) mod 2 ^ 64)%N.
Proof.
  intros Hr. assert (observers_ok oz) as (Hc & _ & Hsubs & _); [|split; [done|exact Hsubs]].
  revert oz Hr. apply (rtc_ind_r observers_ok noObservers).
  - split_and!; [done|done|..]; intros id sub H; cbn in H; by rewrite lookup_empty in H.
  - intros o o' _ Hstep Hok. by eapply observe_step_ok.
Qed.

(** A subscriber with a buffer of one, three publications. *)
Definition someone : Observation := observation ObservationActorDiscovered None None None.
Definition watched : observers :=
  publishObservation 3 someone (publishObservation 2 someone (publishObservation 1 someone (SubscribeObservations false 1 noObservers).1)).
Lemma observations_accounted_witness :
  oz_observationSeq watched = 3%N ∧ oz_observerCount watched = Z.of_nat (size (oz_observations watched)).
Proof.
  split; [vm_compute; reflexivity|]. apply (observations_accounted watched).
  eapply rtc_l; [apply (observe_subscribe false 1); vm_compute; reflexivity|].
  do 2 (eapply rtc_l; [apply observe_publish|]). eapply rtc_l; [apply observe_publish|]. apply rtc_refl.
Defined.
