(* ===== verification/Routing.v ===== *)
(** * Routing keys (actors/router.go)

    Actors are addressed by their ID or by "ID@node"; an [Identifier] never
    contains an "@", so the two can be told apart. *)

From S2P Require Import Prelude Identifier.
From stdpp Require Import options.

Definition at_sign : Ascii.ascii := "@"%char.

Definition routingKey (actorID : Identifier) (node : string) : Identifier :=
  if decide (node = "") then actorID else actorID +:+ String at_sign node.

(** The text before the first [c] and the text after it: [strings.IndexByte] and
    the two slices around the index. *)
Fixpoint cut (c : Ascii.ascii) (s : string) : option (string * string) :=
  match s with
  | EmptyString => None
  | String a s => if decide (a = c) then Some ("", s) else '(before, after) ← cut c s; Some (String a before, after)
  end.

Definition splitRoutingKey (key : Identifier) : option (Identifier * string) :=
  match cut at_sign key with
  | None => None
  | Some (actorID, node) =>
      if bool_decide (actorID = "") || bool_decide (node = "") || ContainsByte at_sign node then None
      else Some (actorID, node)
  end.

(** ** Lemmas *)

Lemma cut_app c s t : ContainsByte c s = false → cut c (s +:+ String c t) = Some (s, t).
Proof.
  induction s as [|a s IH]; intros H.
  - change (cut c (String c t) = Some ("", t)). simpl. by rewrite decide_True.
  - simpl in H. apply orb_false_iff in H as [Ha%bool_decide_eq_false Hs]. rewrite string_app_cons. simpl. rewrite decide_False by done. by rewrite IH.
Qed.

Lemma cut_Some c s before after : cut c s = Some (before, after) → s = before +:+ String c after ∧ ContainsByte c before = false.
Proof.
  revert before. induction s as [|a s IH]; intros before H; [done|]. simpl in H. case_decide as Ha.
  - injection H as <- <-. by subst.
  - destruct (cut c s) as [[b' a']|] eqn:E; [|done]. simpl in H. injection H as <- <-. destruct (IH b' eq_refl) as [-> Hb].
    split; [by rewrite string_app_cons|]. simpl. by rewrite (bool_decide_eq_false_2 _ Ha).
Qed.

Lemma ContainsByte_app_cons c s t : ContainsByte c (s +:+ String c t) = true.
Proof.
  induction s as [|a s IH].
  - change (ContainsByte c (String c t) = true). simpl. by rewrite bool_decide_true.
  - rewrite string_app_cons. simpl. rewrite IH. apply orb_true_r.
Qed.

Lemma routingKey_empty id : routingKey id "" = id.
Proof. done. Qed.

Lemma splitRoutingKey_key id node : id ≠ "" → node ≠ "" → ContainsByte at_sign id = false → ContainsByte at_sign node = false →
  splitRoutingKey (routingKey id node) = Some (id, node).
Proof.
  intros Hid Hnode H1 H2. unfold routingKey, splitRoutingKey. rewrite decide_False by done. rewrite cut_app by done.
  by rewrite !bool_decide_eq_false_2, H2 by done.
Qed.

Lemma splitRoutingKey_Some key id node : splitRoutingKey key = Some (id, node) →
  key = routingKey id node ∧ id ≠ "" ∧ node ≠ "" ∧ ContainsByte at_sign id = false ∧ ContainsByte at_sign node = false.
Proof.
  unfold splitRoutingKey. destruct (cut at_sign key) as [[i n]|] eqn:E; [|done]. destruct (_ || _) eqn:Eb; [done|]. intros [= -> ->].
  apply orb_false_iff in Eb as [[H1%bool_decide_eq_false H2%bool_decide_eq_false]%orb_false_iff H3]. apply cut_Some in E as [-> Hb].
  split_and!; [|done..]. unfold routingKey. by rewrite decide_False.
Qed.

Lemma ContainsByte_Split c d s : c ≠ d → ContainsByte c s = existsb (ContainsByte c) (Split d s).
Proof.
  intros Hne. induction s as [|a s IH]; [done|]. simpl. case_decide as Ha.
  - subst a. rewrite (bool_decide_eq_false_2 (d = c)) by done. exact IH.
  - rewrite IH. pose proof (Split_nonempty d s). destruct (Split d s) as [|h t]; [done|]. simpl. by rewrite orb_assoc.
Qed.

Lemma segment_no_at seg : all_bytes segmentByte seg = true → ContainsByte at_sign seg = false.
Proof.
  induction seg as [|a s IH]; [done|]. simpl. intros [Ha Hs]%andb_true_iff. rewrite IH by done. rewrite bool_decide_eq_false_2; [done|].
  intros ->. by vm_compute in Ha.
Qed.

Lemma segments_no_at segs : validSegments segs = true → existsb (ContainsByte at_sign) segs = false.
Proof.
  induction segs as [|seg segs IH]; [done|]. intros H.
  assert (ContainsByte at_sign seg = false ∧ validSegments segs = true) as [H1 H2].
  { destruct segs as [|s segs].
    - split; [|done]. simpl in H. apply orb_true_iff in H as [[->%bool_decide_eq_true| ->%bool_decide_eq_true]%orb_true_iff|H]; [done..|].
      apply andb_true_iff in H as [_ H]. by apply segment_no_at.
    - cbn [validSegments] in H. apply andb_true_iff in H as [Hs H]. split; [|exact H]. apply andb_true_iff in Hs as [_ Hs]. by apply segment_no_at. }
  simpl. rewrite H1. simpl. by apply IH.
Qed.

Lemma TrimPrefix_app s p : TrimPrefix s p = s ∨ s = p +:+ TrimPrefix s p.
Proof. unfold TrimPrefix. destruct (strip_prefix s p) as [r|] eqn:E; [|by left]. right. by apply strip_prefix_Some in E. Qed.

(** A valid identifier is not empty and has no "@". *)
Lemma NewIdentifier_no_at s : is_Ok (NewIdentifier s) → s ≠ "" ∧ ContainsByte at_sign s = false.
Proof.
  intros [i H]. unfold NewIdentifier in H. case_decide as Hne; [done|]. split; [done|]. case_decide as Hc; [done|].
  assert (ContainsByte at_sign (TrimPrefix s "#") = false) as Hb.
  { case_decide as Hs; [by rewrite Hs|]. destruct (validSegments _) eqn:E; [|done]. rewrite (ContainsByte_Split _ "."%char) by done.
    by apply segments_no_at. }
  destruct (TrimPrefix_app s "#") as [<-|Hs]; [done|]. rewrite Hs. by change (ContainsByte at_sign (TrimPrefix s "#") = false).
Qed.
