(* ===== verification/ActorStore.v ===== *)
(** * What an actor system asks of its storage (actors/system.go, [Storage];
      log.go and storage.go for the interfaces it joins)

    [ActorStorage] has the operations, [ActorStorageLaws] what the system relies
    on; [MemoryStorage] is the in-memory store.  An operation that fails leaves
    the storage as it is, except that [BeginActor] may return metadata with its
    error. *)

From S2P Require Import Prelude Identifier Storage Values Events Datamodel Chart Interp Definitions Validate Compile Artifact.
From S2P Require Import Snapshot Instance Replay Memory Stored Outbox.
From stdpp Require Import options.

Class ActorStorage (L : Type) := {
  #[global] st_outbox :: OutboxStore L;
  st_PutDefinition : option error → DefinitionArtifact → L → result (L * DefinitionPutResult);
  st_GetDefinition : option error → string → L → result (option DefinitionArtifact);
  st_DeleteDefinition : option error → string → L → result (L * DefinitionDeleteResult);
  st_BeginActor : option error → ActorMetadata → L → L * (option ActorMetadata * result ActorBeginResult);
  st_GetActor : option error → Identifier → L → result (option ActorMetadata);
  st_MarkActorTerminal : option error → Identifier → Z → L → result (L * (option ActorMetadata * ActorTerminalResult));
  st_QueryActors : option error → ActorMetadataQuery → L → result ActorMetadataPage;
  st_Append : option error → LogEntry → L → result (L * N);
  st_AppendIngress : option error → LogEntry → string → L → result (L * (N * bool));
  st_Read : option error → string → N → L → list LogEntry * option error;
  st_LastSeq : option error → string → L → result N;
  st_Outbounds : option error → string → L → result (list OutboundMessage);
  st_Save : option error → string → Checkpoint → L → result L;
  st_Load : option error → string → L → result (option Checkpoint)
}.

(** The zero [ActorMetadata], which an operation without a result returns. *)
Definition zeroMetadata : ActorMetadata := mkActor "" "" "" "" false "" zeroTime zeroTime.

(** The in-memory store. *)
Section memory_storage.
Variable jsonMarshal : ChartDefinition → result string.
Variable sha256 : string → string.
Variable jsonDecode : string → result (ChartDefinition * trailing).
Variable range : gmap string ActorMetadata → list ActorMetadata.

Definition MemoryStorage : ActorStorage MemoryStore := {|
  st_outbox := MemoryOutbox;
  st_PutDefinition := PutDefinition jsonMarshal sha256 jsonDecode;
  st_GetDefinition := GetDefinition jsonMarshal sha256 jsonDecode;
  st_DeleteDefinition := DeleteDefinitionIfUnreferenced jsonMarshal sha256 jsonDecode range;
  st_BeginActor := BeginActor jsonMarshal sha256 jsonDecode None;
  st_GetActor := GetActor jsonMarshal sha256 jsonDecode;
  st_MarkActorTerminal := MarkActorTerminal jsonMarshal sha256 jsonDecode;
  st_QueryActors := QueryActors jsonMarshal sha256 jsonDecode range;
  st_Append := Append;
  st_AppendIngress := AppendIngress range;
  st_Read := Read;
  st_LastSeq := LastSeq;
  st_Outbounds := Outbounds;
  st_Save := Save;
  st_Load := Load
|}.
End memory_storage.

(** ** What the system relies on *)

(** What can be said about a storage: the metadata and the definitions it has,
    and the deliveries recorded for a session. *)
Class StorageView (L : Type) := {
  sv_actors : L → gmap Identifier ActorMetadata;
  sv_definitions : L → gmap string DefinitionArtifact;
  sv_recorded : L → string → string → Prop
}.

Section views.
Context {L : Type} `{SV : !StorageView L}.

(** Nothing but logs, snapshots and outboxes differ. *)
Record sameView (st st' : L) : Prop := {
  same_actors : sv_actors st' = sv_actors st;
  same_definitions : sv_definitions st' = sv_definitions st;
  same_recorded sid d : sv_recorded st' sid d ↔ sv_recorded st sid d
}.

#[global] Instance sameView_preorder : PreOrder sameView.
Proof.
  split; [done|]. intros x y z [A1 D1 R1] [A2 D2 R2]. split; [congruence..|]. intros. by rewrite R2.
Qed.

(** A stored definition of a chart's revision. *)
Definition hasDefinition (st : L) (kind : Identifier) (revision : string) : Prop :=
  ∃ a, sv_definitions st !! revision = Some a ∧ da_ChartID a = kind.

(** An actor that can still execute a chart's revision. *)
Definition activeActor (st : L) (name kind : Identifier) (revision : string) : Prop :=
  ∃ m, sv_actors st !! name = Some m ∧ am_ChartID m = kind ∧ am_Revision m = revision ∧ am_Lifecycle m = ActorLifecycleActive.

(** Two states of one actor's metadata: only its end differs. *)
Definition sameIdentityAs (m m' : ActorMetadata) : Prop :=
  am_ChartID m' = am_ChartID m ∧ am_Revision m' = am_Revision m ∧ am_SessionID m' = am_SessionID m.
End views.

(** The contract of the storage interfaces, as far as the system uses it; [ok]
    is an invariant of the implementation. *)
Class ActorStorageLaws (L : Type) `{!ActorStorage L, !StorageView L} (ok : L → Prop) : Prop := {
  law_put ctx a st st' r : ok st → st_PutDefinition ctx a st = Ok (st', r) →
    ok st' ∧ sv_actors st' = sv_actors st ∧ (∀ sid d, sv_recorded st' sid d ↔ sv_recorded st sid d) ∧
    ∀ kind revision, hasDefinition st' kind revision → hasDefinition st kind revision ∨ kind = da_ChartID a;
  law_get_definition ctx revision st a : ok st → st_GetDefinition ctx revision st = Ok (Some a) → da_Revision a = revision;
  law_delete ctx revision st st' r : ok st → st_DeleteDefinition ctx revision st = Ok (st', r) →
    ok st' ∧ sv_actors st' = sv_actors st ∧ (∀ sid d, sv_recorded st' sid d ↔ sv_recorded st sid d) ∧
    (∀ kind rev, hasDefinition st' kind rev → hasDefinition st kind rev) ∧
    (r ≠ DefinitionReferenced → sv_definitions st' !! revision = None ∧ ∀ name kind, ¬ activeActor st' name kind revision);
  law_begin ctx m st st' r : ok st → st_BeginActor ctx m st = (st', r) →
    ok st' ∧ sv_definitions st' = sv_definitions st ∧ (∀ sid d, sv_recorded st' sid d ↔ sv_recorded st sid d) ∧
    (∀ n, n ≠ am_ActorID m → sv_actors st' !! n = sv_actors st !! n) ∧
    (∀ m0, sv_actors st !! am_ActorID m = Some m0 → sv_actors st' !! am_ActorID m = Some m0) ∧
    (∀ m0, sv_actors st' !! am_ActorID m = Some m0 →
       sv_actors st !! am_ActorID m = Some m0 ∨ hasDefinition st (am_ChartID m0) (am_Revision m0)) ∧
    (∀ begun, r.2 = Ok begun → sv_actors st' !! am_ActorID m = r.1 ∧ is_Some r.1);
  law_get ctx n st m : ok st → st_GetActor ctx n st = Ok (Some m) → sv_actors st !! n = Some m;
  law_terminal ctx n t st st' r : ok st → st_MarkActorTerminal ctx n t st = Ok (st', r) →
    ok st' ∧ sv_definitions st' = sv_definitions st ∧ (∀ sid d, sv_recorded st' sid d ↔ sv_recorded st sid d) ∧
    (∀ n', n' ≠ n → sv_actors st' !! n' = sv_actors st !! n') ∧
    (∀ m', sv_actors st' !! n = Some m' → ∃ m, sv_actors st !! n = Some m ∧ sameIdentityAs m m' ∧
       (am_Lifecycle m' = ActorLifecycleActive → am_Lifecycle m = ActorLifecycleActive)) ∧
    (is_Some (sv_actors st !! n) → is_Some (sv_actors st' !! n));
  law_append ctx e st st' n : ok st → le_Kind e ≠ KindSessionStarted → st_Append ctx e st = Ok (st', n) → ok st' ∧ sameView st st';
  law_ingress ctx e d st st' n appended : ok st → le_Kind e ≠ KindSessionStarted → st_AppendIngress ctx e d st = Ok (st', (n, appended)) →
    ok st' ∧ sv_actors st' = sv_actors st ∧ sv_definitions st' = sv_definitions st ∧
    (∀ sid d', sv_recorded st' sid d' ↔ sv_recorded st sid d' ∨ (sid = le_SessionID e ∧ d' = d)) ∧
    (appended = true → ¬ sv_recorded st (le_SessionID e) d);
  law_save ctx sid cp st st' : ok st → st_Save ctx sid cp st = Ok st' → ok st' ∧ sameView st st';
  law_store m st st' : ok st → ob_store m st = Ok st' → ok st' ∧ sameView st st';
  law_resolve sid d r st st' : ok st → ob_resolve sid d r st = Ok st' → ok st' ∧ sameView st st';
  law_sessions st n n' m m' : ok st → sv_actors st !! n = Some m → sv_actors st !! n' = Some m' →
    am_SessionID m = am_SessionID m' → n = n'
}.

(** ** The in-memory store keeps the contract *)

#[global] Instance MemoryView : StorageView MemoryStore := {|
  sv_actors := ms_actors;
  sv_definitions := ms_definitions;
  sv_recorded s sid d := d ∈ default ∅ (ms_ingress s !! sid)
|}.

Section memory_laws.
Variable jsonMarshal : ChartDefinition → result string.
Variable sha256 : string → string.
Variable jsonDecode : string → result (ChartDefinition * trailing).
Variable range : gmap string ActorMetadata → list ActorMetadata.
Hypothesis Hrange : ∀ m, range m ≡ₚ (map_to_list m).*2.

#[local] Abbreviation ok := (consistent jsonMarshal sha256 jsonDecode).
#[local] Instance storage_ : ActorStorage MemoryStore := MemoryStorage jsonMarshal sha256 jsonDecode range.

Lemma memory_put ctx a st st' r : PutDefinition jsonMarshal sha256 jsonDecode ctx a st = Ok (st', r) →
  ms_actors st' = ms_actors st ∧ ms_ingress st' = ms_ingress st ∧
  ∀ kind revision, hasDefinition st' kind revision → hasDefinition st kind revision ∨ kind = da_ChartID a.
Proof using Type.
  unfold PutDefinition. intros ([] & _ & E)%result_bind_Ok. destruct (ms_definitions st !! da_Revision a) as [d|].
  - destruct (artifactEqual d a); [|done]. apply result_bind_Ok in E as ([] & _ & [= <- <-]). auto.
  - apply result_bind_Ok in E as ([] & _ & [= <- <-]). split_and!; [done..|].
    intros kind revision (x & Hx & Hk). cbn in Hx. apply lookup_insert_Some in Hx as [[<- <-]|[_ Hx]]; [by right|left; by exists x].
Qed.

Lemma memory_delete ctx revision st st' r : ok st → DeleteDefinitionIfUnreferenced jsonMarshal sha256 jsonDecode range ctx revision st = Ok (st', r) →
  ms_actors st' = ms_actors st ∧ ms_ingress st' = ms_ingress st ∧
  (∀ kind rev, hasDefinition st' kind rev → hasDefinition st kind rev) ∧
  (r ≠ DefinitionReferenced → ms_definitions st' !! revision = None ∧ ∀ name kind, ¬ activeActor st' name kind revision).
Proof using Hrange.
  intros Hok. unfold DeleteDefinitionIfUnreferenced. intros ([] & _ & E)%result_bind_Ok. destruct (ms_definitions st !! revision) as [d|] eqn:Ed.
  - apply result_bind_Ok in E as ([|] & Hp & E); injection E as <- <-; [done|]. split_and!; [done..| |].
    + intros kind rev (x & Hx & Hk). cbn in Hx. apply lookup_delete_Some in Hx as [_ Hx]. by exists x.
    + intros _. split; [apply lookup_delete_eq|]. intros name kind (m & Hm & _ & Hr & Ha).
      eapply (pinned_false _ _ _ _ _ _ Hp m); [apply (elem_of_range _ Hrange); by exists name|done|done].
  - injection E as <- <-. split_and!; [done..|]. intros _. split; [done|]. intros name kind (m & Hm & _ & Hr & Ha).
    destruct (co_actor _ _ _ st Hok name m Hm) as [_ Hv]. destruct (validateStored_definition _ _ _ st m Hv Ha) as (x & Hx & _). by rewrite Hr, Ed in Hx.
Qed.

Lemma memory_begin ctx m st st' r : ok st → BeginActor jsonMarshal sha256 jsonDecode None ctx m st = (st', r) →
  ms_definitions st' = ms_definitions st ∧ ms_ingress st' = ms_ingress st ∧
  (∀ n, n ≠ am_ActorID m → ms_actors st' !! n = ms_actors st !! n) ∧
  (∀ m0, ms_actors st !! am_ActorID m = Some m0 → ms_actors st' !! am_ActorID m = Some m0) ∧
  (∀ m0, ms_actors st' !! am_ActorID m = Some m0 → ms_actors st !! am_ActorID m = Some m0 ∨ hasDefinition st (am_ChartID m0) (am_Revision m0)) ∧
  (∀ begun, r.2 = Ok begun → ms_actors st' !! am_ActorID m = r.1 ∧ is_Some r.1).
Proof using Type.
  intros Hok. unfold BeginActor. destruct (_ ≫= _) as [u|e] eqn:E0; [|by intros [= <- <-]; split_and!; auto; intros ? [=]].
  destruct (ms_actors st !! am_ActorID m) as [stored|] eqn:Ea.
  - intros [= <- <-]. rewrite Ea. split_and!; auto. intros begun. unfold beginStored. destruct (validateStoredActorLocked _ _ _ st stored); [|done]. eauto.
  - destruct (beginNew _ _ _ _ m st) as [[s1 a]|e] eqn:Eb; [|by intros [= <- <-]; rewrite Ea; split_and!; auto; intros ? [=]].
    intros [= <- <-]. apply beginNew_Ok in Eb as (-> & _ & (d & Hd & _ & Hc) & ->). simpl. split_and!; [done|done|..].
    + intros n Hn. by rewrite lookup_insert_ne.
    + done.
    + intros m0. rewrite lookup_insert_eq. intros [= <-]. right. by exists d.
    + intros _ _. rewrite lookup_insert_eq. eauto.
Qed.

Lemma memory_terminal ctx n t st st' r : MarkActorTerminal jsonMarshal sha256 jsonDecode ctx n t st = Ok (st', r) →
  ms_definitions st' = ms_definitions st ∧ ms_ingress st' = ms_ingress st ∧
  (∀ n', n' ≠ n → ms_actors st' !! n' = ms_actors st !! n') ∧
  (∀ m', ms_actors st' !! n = Some m' → ∃ m, ms_actors st !! n = Some m ∧ sameIdentityAs m m' ∧
     (am_Lifecycle m' = ActorLifecycleActive → am_Lifecycle m = ActorLifecycleActive)) ∧
  (is_Some (ms_actors st !! n) → is_Some (ms_actors st' !! n)).
Proof using Type.
  unfold MarkActorTerminal. intros H. do 3 (apply result_bind_Ok in H as ([] & _ & H)). destruct (ms_actors st !! n) as [m|] eqn:Em.
  - apply result_bind_Ok in H as ([] & _ & H). case_decide.
    + injection H as <- <-. split_and!; [done..| |by rewrite Em]. intros m' Hm'. rewrite Em in Hm'. injection Hm' as <-. by exists m.
    + apply result_bind_Ok in H as ([] & _ & H). injection H as <- <-. simpl. split_and!; [done..| | |by rewrite lookup_insert_eq].
      * intros n' Hn. by rewrite lookup_insert_ne.
      * rewrite lookup_insert_eq. intros m' [= <-]. exists m. by split_and!.
  - injection H as <- <-. rewrite Em. by split_and!.
Qed.

#[global] Instance MemoryStorage_laws : ActorStorageLaws MemoryStore ok.
Proof using Hrange.
  split; cbn.
  - intros ctx a st st' r Hok H. split; [by eapply PutDefinition_consistent|]. destruct (memory_put ctx a st st' r H) as (? & Hi & ?).
    split_and!; [done| |done]. by rewrite Hi.
  - intros ctx revision st a Hok. unfold GetDefinition. intros ([] & _ & H)%result_bind_Ok. destruct (ms_definitions st !! revision) as [d|] eqn:E; [|done].
    apply result_bind_Ok in H as ([] & _ & [= <-]). by destruct (co_definition _ _ _ st Hok revision d E) as [<- _].
  - intros ctx revision st st' r Hok H. split; [by eapply DeleteDefinition_consistent|]. destruct (memory_delete ctx revision st st' r Hok H) as (? & Hi & ? & ?).
    split_and!; [done| |done..]. by rewrite Hi.
  - intros ctx m st st' r Hok H. split; [replace st' with (st', r).1 by done; rewrite <- H; by apply BeginActor_consistent|].
    destruct (memory_begin ctx m st st' r Hok H) as (? & Hi & ? & ? & ? & ?). split_and!; [done| |done..]. by rewrite Hi.
  - intros ctx n st m Hok. unfold GetActor. intros ([] & _ & H)%result_bind_Ok. destruct (ms_actors st !! n); [|done]. by apply result_bind_Ok in H as ([] & _ & [= <-]).
  - intros ctx n t st st' r Hok H. split; [by eapply MarkActorTerminal_consistent|]. destruct (memory_terminal ctx n t st st' r H) as (? & Hi & ? & ? & ?).
    split_and!; [done| |done..]. by rewrite Hi.
  - intros ctx e st st' n Hok He. unfold Append. intros ([] & _ & [= <- <-])%result_bind_Ok.
    change (set_logs _ st) with (appendLocked e st).1. split; [by apply appendLocked_consistent|done].
  - intros ctx e d st st' n appended Hok He H. split; [by eapply AppendIngress_consistent|]. unfold AppendIngress in H.
    apply result_bind_Ok in H as ([] & _ & H). apply result_bind_Ok in H as ([] & _ & H). case_decide as Hd; injection H as <- <- <-; simpl.
    + split_and!; [done..| |done]. intros sid d'. destruct (decide (le_SessionID e = sid)) as [<-|]; [rewrite lookup_insert_eq|rewrite lookup_insert_ne by done]; simpl; naive_solver.
    + split_and!; [done..| |done]. intros sid d'. destruct (decide (le_SessionID e = sid)) as [<-|]; [rewrite lookup_insert_eq|rewrite !lookup_insert_ne by done]; simpl; set_solver.
  - intros ctx sid cp st st' Hok. unfold Save. intros H. inv_ok. split; [split; apply Hok|done].
  - intros m st st' Hok H. change (StoreOutbound None m st = Ok st') in H. split; [by eapply StoreOutbound_consistent|]. unfold StoreOutbound in H. simpl in H.
    destruct (default ∅ _ !! _) as [x|]; [destruct (outboundEqual x _); [|done]|]; by injection H as <-.
  - intros sid d r st st' Hok H. change (ResolveOutbound None sid d r st = Ok st') in H. split; [by eapply ResolveOutbound_consistent|]. unfold ResolveOutbound in H. simpl in H.
    destruct (default ∅ _ !! _) as [x|]; [|done]. by injection H as <-.
  - intros st n n' m m' Hok. apply (co_session _ _ _ st Hok).
Qed.
End memory_laws.
