(* ===== verification/System.v ===== *)
(** * The actor system: its state and what happens to it in one piece
      (actors/system.go, actors/router.go, actors/inspection.go)

    A [System] keeps compiled charts by kind and revision, a table of named
    actors, a queue of deliveries between them and a storage for the durable
    ones.  This file has its state and the functions that run under one of its
    mutexes or on atomics; Actors.v composes them into the operations.

    An [Instance] of statecharts is a pointer: [sy_heap] has what the pointers
    refer to.  What the system knows of an instance is the class [Instances]:
    its requests run as a [proc], which calls back into the system through the
    hooks and processors it was given ([hostCall]) and goes on with the answer. *)

From S2P Require Import Prelude Identifier Storage Values Events Datamodel Chart Interp Definitions Validate Compile Artifact.
From S2P Require Import Snapshot Instance Replay Memory Outbox Threads Observation Routing ActorStore.
From stdpp Require Import options.

(** ** Instances, as seen from the system *)

(** The hooks and processors that [activateLocked] gives to an instance, and the
    storage it rehydrates from and saves to. *)
Inductive hostCall :=
| HostIngress (ev : Event)
| HostTimer (sendID target typ : Identifier) (ev : Event)
| HostCompletion
| HostSend (req : SendRequest)
| HostRecover
| HostSave (cp : Checkpoint)
| HostMacrostep (trace : MacrostepTrace).

(** A request to an instance: it ends, calls the host, or does not return. *)
Inductive proc (A : Type) : Type :=
| Finish (a : A)
| Ask (c : hostCall) (k : option error → proc A)
| Diverge.
Arguments Finish {A} a.
Arguments Ask {A} c k.
Arguments Diverge {A}.

(** What [Rehydrate] reads: the checkpoint, the last sequence number, the log
    from a sequence number on, and the recorded answers of sends. *)
Record rehydrateSource := mkSource {
  rs_Load : result (option Checkpoint);
  rs_LastSeq : result N;
  rs_Read : N → list LogEntry * option error;
  rs_ReplaySend : SendRequest → option error
}.

Class Instances `{DM : DatamodelSession} (Inst : Type) := {
  inst_activity : Type;
  inst_Start : compiledChart → string → string → option error → proc (result Inst);
  inst_Rehydrate : compiledChart → string → string → option error → rehydrateSource → proc (result Inst);
  inst_Deliver : option error → Event → Inst → proc (Inst * option error);
  inst_Own : inst_activity → Inst → proc Inst;
  inst_Done : Inst → bool;
  inst_HasActiveInvokes : option error → Inst → result bool;
  inst_Checkpoint : option error → Inst → result (Snapshot * Inst);
  inst_Stop : option error → Inst → Inst * option error
}.

(** ** Residency *)

Definition ResidencyPagedOut : string := "paged out".
Definition ResidencyHydrating : string := "hydrating".
Definition ResidencyResident : string := "resident".

Record ResidencyChange := mkChange { rc_ActorID : Identifier; rc_State : string }.

Definition residencyPagedOutCode : N := 0.
Definition residencyHydratingCode : N := 1.
Definition residencyResidentCode : N := 2.

Definition residencyCode (state : string) : N :=
  if decide (state = ResidencyHydrating) then residencyHydratingCode
  else if decide (state = ResidencyResident) then residencyResidentCode
  else residencyPagedOutCode.
Definition residencyState (code : N) : string :=
  if decide (code = residencyHydratingCode) then ResidencyHydrating
  else if decide (code = residencyResidentCode) then ResidencyResident
  else ResidencyPagedOut.

(** ** Times *)

(** The Unix epoch, in nanoseconds after Go's zero time. *)
Definition unixEpoch : Z := 62135596800 * 10 ^ 9.
(** An [int64] from an integer. *)
Definition wrap64 (z : Z) : Z := ((z + 2 ^ 63) mod 2 ^ 64 - 2 ^ 63)%Z.
Definition UnixNano (t : Z) : Z := wrap64 (t - unixEpoch).
(** [time.Unix(0, n)]. *)
Definition timeUnix (n : Z) : Z := n + unixEpoch.
(** [t.Sub(u)] saturates. *)
Definition timeSub (t u : Z) : Z := Z.max (- 2 ^ 63) (Z.min (2 ^ 63 - 1) (t - u)).

(** ** Errors *)

Definition ErrKindNotRegistered : error := Errorf "actors: kind is not registered".
Definition ErrDurabilityUnsupported : error := Errorf "actors: durable spawn requires WithStorage".
Definition ErrKindMismatch : error := Errorf "actors: name was spawned under a different kind".
Definition ErrDurabilityMismatch : error := Errorf "actors: name's durability is fixed by its first Spawn".
Definition ErrResidencyExhausted : error := Errorf "actors: residency limit reached and no evictable actor available".
Definition ErrUnknownActor : error := Errorf "actors: unknown actor".
Definition ErrInvalidActorID : error := Errorf "actors: invalid actor ID".
Definition ErrCurrentDefinition : error := Errorf "actors: cannot collect the current definition".
Definition errDispatchQueueFull : error := Errorf "actors: peer dispatch queue is full".
Definition unsupportedPeerTypeError (typ : Identifier) : error :=
  mk_error ("actors: routing IOProcessor does not support send type " +:+ quote typ) true false.

(** [errors.Is]: an error is its text here, and one that wraps [target] ends
    with its text. *)
Definition errorsIs (e target : error) : bool := HasSuffix (msg e) (msg target).

(** ** State *)

Record chartRegistry `{DM : DatamodelSession} := mkRegistry {
  cr_datamodel : Datamodel;
  cr_current : string;
  cr_revisions : gmap string compiledChart
}.

(** One actor; [ae_instance] is the pointer to its live instance. *)
Record actorEntry := mkActorEntry {
  ae_name : Identifier;
  ae_kind : Identifier;
  ae_revision : string;
  ae_sessionID : string;
  ae_startedAt : Z;
  ae_durable : bool;
  ae_initialized : bool;
  ae_terminal : bool;
  ae_discovered : bool;
  ae_observedEnd : bool;
  ae_terminalAt : Z;
  ae_residency : N;
  ae_startLive : bool;
  ae_instance : option nat;
  ae_lastActive : Z
}.

Definition en_kind (x : Identifier) (r : actorEntry) : actorEntry :=
  mkActorEntry (ae_name r) x (ae_revision r) (ae_sessionID r) (ae_startedAt r) (ae_durable r) (ae_initialized r)
    (ae_terminal r) (ae_discovered r) (ae_observedEnd r) (ae_terminalAt r) (ae_residency r) (ae_startLive r)
    (ae_instance r) (ae_lastActive r).
Definition en_revision (x : string) (r : actorEntry) : actorEntry :=
  mkActorEntry (ae_name r) (ae_kind r) x (ae_sessionID r) (ae_startedAt r) (ae_durable r) (ae_initialized r)
    (ae_terminal r) (ae_discovered r) (ae_observedEnd r) (ae_terminalAt r) (ae_residency r) (ae_startLive r)
    (ae_instance r) (ae_lastActive r).
Definition en_sessionID (x : string) (r : actorEntry) : actorEntry :=
  mkActorEntry (ae_name r) (ae_kind r) (ae_revision r) x (ae_startedAt r) (ae_durable r) (ae_initialized r)
    (ae_terminal r) (ae_discovered r) (ae_observedEnd r) (ae_terminalAt r) (ae_residency r) (ae_startLive r)
    (ae_instance r) (ae_lastActive r).
Definition en_startedAt (x : Z) (r : actorEntry) : actorEntry :=
  mkActorEntry (ae_name r) (ae_kind r) (ae_revision r) (ae_sessionID r) x (ae_durable r) (ae_initialized r)
    (ae_terminal r) (ae_discovered r) (ae_observedEnd r) (ae_terminalAt r) (ae_residency r) (ae_startLive r)
    (ae_instance r) (ae_lastActive r).
Definition en_initialized (x : bool) (r : actorEntry) : actorEntry :=
  mkActorEntry (ae_name r) (ae_kind r) (ae_revision r) (ae_sessionID r) (ae_startedAt r) (ae_durable r) x
    (ae_terminal r) (ae_discovered r) (ae_observedEnd r) (ae_terminalAt r) (ae_residency r) (ae_startLive r)
    (ae_instance r) (ae_lastActive r).
Definition en_terminal (x : bool) (r : actorEntry) : actorEntry :=
  mkActorEntry (ae_name r) (ae_kind r) (ae_revision r) (ae_sessionID r) (ae_startedAt r) (ae_durable r)
    (ae_initialized r) x (ae_discovered r) (ae_observedEnd r) (ae_terminalAt r) (ae_residency r)
    (ae_startLive r) (ae_instance r) (ae_lastActive r).
Definition en_discovered (x : bool) (r : actorEntry) : actorEntry :=
  mkActorEntry (ae_name r) (ae_kind r) (ae_revision r) (ae_sessionID r) (ae_startedAt r) (ae_durable r)
    (ae_initialized r) (ae_terminal r) x (ae_observedEnd r) (ae_terminalAt r) (ae_residency r) (ae_startLive r)
    (ae_instance r) (ae_lastActive r).
Definition en_observedEnd (x : bool) (r : actorEntry) : actorEntry :=
  mkActorEntry (ae_name r) (ae_kind r) (ae_revision r) (ae_sessionID r) (ae_startedAt r) (ae_durable r)
    (ae_initialized r) (ae_terminal r) (ae_discovered r) x (ae_terminalAt r) (ae_residency r) (ae_startLive r)
    (ae_instance r) (ae_lastActive r).
Definition en_terminalAt (x : Z) (r : actorEntry) : actorEntry :=
  mkActorEntry (ae_name r) (ae_kind r) (ae_revision r) (ae_sessionID r) (ae_startedAt r) (ae_durable r)
    (ae_initialized r) (ae_terminal r) (ae_discovered r) (ae_observedEnd r) x (ae_residency r) (ae_startLive r)
    (ae_instance r) (ae_lastActive r).
Definition en_residency (x : N) (r : actorEntry) : actorEntry :=
  mkActorEntry (ae_name r) (ae_kind r) (ae_revision r) (ae_sessionID r) (ae_startedAt r) (ae_durable r)
    (ae_initialized r) (ae_terminal r) (ae_discovered r) (ae_observedEnd r) (ae_terminalAt r) x
    (ae_startLive r) (ae_instance r) (ae_lastActive r).
Definition en_startLive (x : bool) (r : actorEntry) : actorEntry :=
  mkActorEntry (ae_name r) (ae_kind r) (ae_revision r) (ae_sessionID r) (ae_startedAt r) (ae_durable r)
    (ae_initialized r) (ae_terminal r) (ae_discovered r) (ae_observedEnd r) (ae_terminalAt r) (ae_residency r) x
    (ae_instance r) (ae_lastActive r).
Definition en_instance (x : option nat) (r : actorEntry) : actorEntry :=
  mkActorEntry (ae_name r) (ae_kind r) (ae_revision r) (ae_sessionID r) (ae_startedAt r) (ae_durable r)
    (ae_initialized r) (ae_terminal r) (ae_discovered r) (ae_observedEnd r) (ae_terminalAt r) (ae_residency r)
    (ae_startLive r) x (ae_lastActive r).
Definition en_lastActive (x : Z) (r : actorEntry) : actorEntry :=
  mkActorEntry (ae_name r) (ae_kind r) (ae_revision r) (ae_sessionID r) (ae_startedAt r) (ae_durable r)
    (ae_initialized r) (ae_terminal r) (ae_discovered r) (ae_observedEnd r) (ae_terminalAt r) (ae_residency r)
    (ae_startLive r) (ae_instance r) x.

(** The per-activation data that closures capture: whom the instance belongs to
    and the tables of its durable processors. *)
Record activation := mkActivation {
  av_name : Identifier;
  av_session : string;
  av_durable : bool;
  av_tables : gmap string (gmap string OutboundMessage);
  av_messages : list OutboundMessage;
  av_recovery : option (option error)
}.

(** What a peer is told about the sender ([actorRouteContext]). *)
Record actorRoute := mkRoute { ro_address : Identifier; ro_activation : nat; ro_sendID : Identifier }.

(** The closures in the dispatch queue: [deliverAsync] for an instance that
    waits for no answer, a delivery that completes a durable send, and an event
    for an actor from its own outbox. *)
Inductive job :=
| JobDeliver (target : Identifier) (ev : Event) (origin : nat) (sendID : Identifier)
| JobAck (act : nat) (typ : Identifier) (req : SendRequest) (target : Identifier) (ev : Event)
| JobIngress (name : Identifier) (ev : Event).

(** Calls out of the system. *)
Inductive externalCall :=
| CallResidency (change : ResidencyChange)
| CallSweepError (name : Identifier) (e : error)
| CallProcessor (act : nat) (typ : Identifier) (req : SendRequest)
| CallPeer (route : actorRoute) (req : SendRequest).

(** A call of [Stop] that waits for its goroutines: the entries they have not
    got to, those they are at work on, and the errors recorded. *)
Record stopCall := mkStop { sc_ctx : option error; sc_waiting : list Identifier; sc_running : list Identifier; sc_errs : list error }.

(** Mutexes that are held over several actions, and an instance's turn. *)
Inductive lock :=
| LEntry (name : Identifier)
| LPublish (kind : Identifier)
| LAdmission
| LInstance (act : nat)
| LWorker.

#[global] Instance lock_eq_dec : EqDecision lock.
Proof. solve_decision. Defined.
#[global] Instance lock_countable : Countable lock.
Proof.
  refine (inj_countable'
    (λ l, match l with LEntry n => inl (inl n) | LPublish k => inl (inr k) | LAdmission => inr (inl ()) | LInstance a => inr (inr (inl a))
          | LWorker => inr (inr (inr ())) end)
    (λ x, match x with inl (inl n) => LEntry n | inl (inr k) => LPublish k | inr (inl _) => LAdmission | inr (inr (inl a)) => LInstance a
          | inr (inr (inr _)) => LWorker end) _).
  by intros [].
Defined.

Section system.
Context `{DM : DatamodelSession} {L : Type} {Inst : Type}.

(** [sy_activating] and [sy_delivered] are not in the source: the names whose
    activation, by a goroutine, has passed the test of [stopped], and the session and delivery ID
    of every identified event that a call of [deliver] hands to a durable instance.
    What an activation replays from the log is not in it. *)
Record System := mkSystem {
  sy_charts : gmap Identifier chartRegistry;
  sy_table : gmap Identifier actorEntry;
  sy_actorIDs : list Identifier;
  sy_actorIDsDirty : bool;
  sy_storage : option L;
  sy_stopped : bool;
  sy_observers : observers;
  sy_dispatchQueue : list job;
  sy_dispatchRunning : bool;
  sy_dispatchClosed : bool;
  sy_dispatchDone : bool;
  sy_sweep : option Z;
  sy_now : Z;
  sy_heap : gmap nat Inst;
  sy_activations : gmap nat activation;
  sy_nextActivation : nat;
  sy_reapers : list (Identifier * nat);
  sy_stops : gmap nat stopCall;
  sy_locks : gmap lock nat;
  sy_activating : gmap Identifier nat;
  sy_calls : list externalCall;
  sy_delivered : list (string * string)
}.

Definition sys_charts (x : gmap Identifier chartRegistry) (r : System) : System :=
  mkSystem x (sy_table r) (sy_actorIDs r) (sy_actorIDsDirty r) (sy_storage r) (sy_stopped r) (sy_observers r)
    (sy_dispatchQueue r) (sy_dispatchRunning r) (sy_dispatchClosed r) (sy_dispatchDone r) (sy_sweep r)
    (sy_now r) (sy_heap r) (sy_activations r) (sy_nextActivation r) (sy_reapers r) (sy_stops r) (sy_locks r)
    (sy_activating r) (sy_calls r) (sy_delivered r).
Definition sys_table (x : gmap Identifier actorEntry) (r : System) : System :=
  mkSystem (sy_charts r) x (sy_actorIDs r) (sy_actorIDsDirty r) (sy_storage r) (sy_stopped r) (sy_observers r)
    (sy_dispatchQueue r) (sy_dispatchRunning r) (sy_dispatchClosed r) (sy_dispatchDone r) (sy_sweep r)
    (sy_now r) (sy_heap r) (sy_activations r) (sy_nextActivation r) (sy_reapers r) (sy_stops r) (sy_locks r)
    (sy_activating r) (sy_calls r) (sy_delivered r).
Definition sys_actorIDs (x : list Identifier) (r : System) : System :=
  mkSystem (sy_charts r) (sy_table r) x (sy_actorIDsDirty r) (sy_storage r) (sy_stopped r) (sy_observers r)
    (sy_dispatchQueue r) (sy_dispatchRunning r) (sy_dispatchClosed r) (sy_dispatchDone r) (sy_sweep r)
    (sy_now r) (sy_heap r) (sy_activations r) (sy_nextActivation r) (sy_reapers r) (sy_stops r) (sy_locks r)
    (sy_activating r) (sy_calls r) (sy_delivered r).
Definition sys_actorIDsDirty (x : bool) (r : System) : System :=
  mkSystem (sy_charts r) (sy_table r) (sy_actorIDs r) x (sy_storage r) (sy_stopped r) (sy_observers r)
    (sy_dispatchQueue r) (sy_dispatchRunning r) (sy_dispatchClosed r) (sy_dispatchDone r) (sy_sweep r)
    (sy_now r) (sy_heap r) (sy_activations r) (sy_nextActivation r) (sy_reapers r) (sy_stops r) (sy_locks r)
    (sy_activating r) (sy_calls r) (sy_delivered r).
Definition sys_storage (x : option L) (r : System) : System :=
  mkSystem (sy_charts r) (sy_table r) (sy_actorIDs r) (sy_actorIDsDirty r) x (sy_stopped r) (sy_observers r)
    (sy_dispatchQueue r) (sy_dispatchRunning r) (sy_dispatchClosed r) (sy_dispatchDone r) (sy_sweep r)
    (sy_now r) (sy_heap r) (sy_activations r) (sy_nextActivation r) (sy_reapers r) (sy_stops r) (sy_locks r)
    (sy_activating r) (sy_calls r) (sy_delivered r).
Definition sys_stopped (x : bool) (r : System) : System :=
  mkSystem (sy_charts r) (sy_table r) (sy_actorIDs r) (sy_actorIDsDirty r) (sy_storage r) x (sy_observers r)
    (sy_dispatchQueue r) (sy_dispatchRunning r) (sy_dispatchClosed r) (sy_dispatchDone r) (sy_sweep r)
    (sy_now r) (sy_heap r) (sy_activations r) (sy_nextActivation r) (sy_reapers r) (sy_stops r) (sy_locks r)
    (sy_activating r) (sy_calls r) (sy_delivered r).
Definition sys_observers (x : observers) (r : System) : System :=
  mkSystem (sy_charts r) (sy_table r) (sy_actorIDs r) (sy_actorIDsDirty r) (sy_storage r) (sy_stopped r) x
    (sy_dispatchQueue r) (sy_dispatchRunning r) (sy_dispatchClosed r) (sy_dispatchDone r) (sy_sweep r)
    (sy_now r) (sy_heap r) (sy_activations r) (sy_nextActivation r) (sy_reapers r) (sy_stops r) (sy_locks r)
    (sy_activating r) (sy_calls r) (sy_delivered r).
Definition sys_dispatchQueue (x : list job) (r : System) : System :=
  mkSystem (sy_charts r) (sy_table r) (sy_actorIDs r) (sy_actorIDsDirty r) (sy_storage r) (sy_stopped r)
    (sy_observers r) x (sy_dispatchRunning r) (sy_dispatchClosed r) (sy_dispatchDone r) (sy_sweep r) (sy_now r)
    (sy_heap r) (sy_activations r) (sy_nextActivation r) (sy_reapers r) (sy_stops r) (sy_locks r)
    (sy_activating r) (sy_calls r) (sy_delivered r).
Definition sys_dispatchRunning (x : bool) (r : System) : System :=
  mkSystem (sy_charts r) (sy_table r) (sy_actorIDs r) (sy_actorIDsDirty r) (sy_storage r) (sy_stopped r)
    (sy_observers r) (sy_dispatchQueue r) x (sy_dispatchClosed r) (sy_dispatchDone r) (sy_sweep r) (sy_now r)
    (sy_heap r) (sy_activations r) (sy_nextActivation r) (sy_reapers r) (sy_stops r) (sy_locks r)
    (sy_activating r) (sy_calls r) (sy_delivered r).
Definition sys_dispatchClosed (x : bool) (r : System) : System :=
  mkSystem (sy_charts r) (sy_table r) (sy_actorIDs r) (sy_actorIDsDirty r) (sy_storage r) (sy_stopped r)
    (sy_observers r) (sy_dispatchQueue r) (sy_dispatchRunning r) x (sy_dispatchDone r) (sy_sweep r) (sy_now r)
    (sy_heap r) (sy_activations r) (sy_nextActivation r) (sy_reapers r) (sy_stops r) (sy_locks r)
    (sy_activating r) (sy_calls r) (sy_delivered r).
Definition sys_dispatchDone (x : bool) (r : System) : System :=
  mkSystem (sy_charts r) (sy_table r) (sy_actorIDs r) (sy_actorIDsDirty r) (sy_storage r) (sy_stopped r)
    (sy_observers r) (sy_dispatchQueue r) (sy_dispatchRunning r) (sy_dispatchClosed r) x (sy_sweep r)
    (sy_now r) (sy_heap r) (sy_activations r) (sy_nextActivation r) (sy_reapers r) (sy_stops r) (sy_locks r)
    (sy_activating r) (sy_calls r) (sy_delivered r).
Definition sys_sweep (x : option Z) (r : System) : System :=
  mkSystem (sy_charts r) (sy_table r) (sy_actorIDs r) (sy_actorIDsDirty r) (sy_storage r) (sy_stopped r)
    (sy_observers r) (sy_dispatchQueue r) (sy_dispatchRunning r) (sy_dispatchClosed r) (sy_dispatchDone r) x
    (sy_now r) (sy_heap r) (sy_activations r) (sy_nextActivation r) (sy_reapers r) (sy_stops r) (sy_locks r)
    (sy_activating r) (sy_calls r) (sy_delivered r).
Definition sys_now (x : Z) (r : System) : System :=
  mkSystem (sy_charts r) (sy_table r) (sy_actorIDs r) (sy_actorIDsDirty r) (sy_storage r) (sy_stopped r)
    (sy_observers r) (sy_dispatchQueue r) (sy_dispatchRunning r) (sy_dispatchClosed r) (sy_dispatchDone r)
    (sy_sweep r) x (sy_heap r) (sy_activations r) (sy_nextActivation r) (sy_reapers r) (sy_stops r)
    (sy_locks r) (sy_activating r) (sy_calls r) (sy_delivered r).
Definition sys_heap (x : gmap nat Inst) (r : System) : System :=
  mkSystem (sy_charts r) (sy_table r) (sy_actorIDs r) (sy_actorIDsDirty r) (sy_storage r) (sy_stopped r)
    (sy_observers r) (sy_dispatchQueue r) (sy_dispatchRunning r) (sy_dispatchClosed r) (sy_dispatchDone r)
    (sy_sweep r) (sy_now r) x (sy_activations r) (sy_nextActivation r) (sy_reapers r) (sy_stops r) (sy_locks r)
    (sy_activating r) (sy_calls r) (sy_delivered r).
Definition sys_activations (x : gmap nat activation) (r : System) : System :=
  mkSystem (sy_charts r) (sy_table r) (sy_actorIDs r) (sy_actorIDsDirty r) (sy_storage r) (sy_stopped r)
    (sy_observers r) (sy_dispatchQueue r) (sy_dispatchRunning r) (sy_dispatchClosed r) (sy_dispatchDone r)
    (sy_sweep r) (sy_now r) (sy_heap r) x (sy_nextActivation r) (sy_reapers r) (sy_stops r) (sy_locks r)
    (sy_activating r) (sy_calls r) (sy_delivered r).
Definition sys_nextActivation (x : nat) (r : System) : System :=
  mkSystem (sy_charts r) (sy_table r) (sy_actorIDs r) (sy_actorIDsDirty r) (sy_storage r) (sy_stopped r)
    (sy_observers r) (sy_dispatchQueue r) (sy_dispatchRunning r) (sy_dispatchClosed r) (sy_dispatchDone r)
    (sy_sweep r) (sy_now r) (sy_heap r) (sy_activations r) x (sy_reapers r) (sy_stops r) (sy_locks r)
    (sy_activating r) (sy_calls r) (sy_delivered r).
Definition sys_reapers (x : list (Identifier * nat)) (r : System) : System :=
  mkSystem (sy_charts r) (sy_table r) (sy_actorIDs r) (sy_actorIDsDirty r) (sy_storage r) (sy_stopped r)
    (sy_observers r) (sy_dispatchQueue r) (sy_dispatchRunning r) (sy_dispatchClosed r) (sy_dispatchDone r)
    (sy_sweep r) (sy_now r) (sy_heap r) (sy_activations r) (sy_nextActivation r) x (sy_stops r) (sy_locks r)
    (sy_activating r) (sy_calls r) (sy_delivered r).
Definition sys_stops (x : gmap nat stopCall) (r : System) : System :=
  mkSystem (sy_charts r) (sy_table r) (sy_actorIDs r) (sy_actorIDsDirty r) (sy_storage r) (sy_stopped r)
    (sy_observers r) (sy_dispatchQueue r) (sy_dispatchRunning r) (sy_dispatchClosed r) (sy_dispatchDone r)
    (sy_sweep r) (sy_now r) (sy_heap r) (sy_activations r) (sy_nextActivation r) (sy_reapers r) x (sy_locks r)
    (sy_activating r) (sy_calls r) (sy_delivered r).
Definition sys_locks (x : gmap lock nat) (r : System) : System :=
  mkSystem (sy_charts r) (sy_table r) (sy_actorIDs r) (sy_actorIDsDirty r) (sy_storage r) (sy_stopped r)
    (sy_observers r) (sy_dispatchQueue r) (sy_dispatchRunning r) (sy_dispatchClosed r) (sy_dispatchDone r)
    (sy_sweep r) (sy_now r) (sy_heap r) (sy_activations r) (sy_nextActivation r) (sy_reapers r) (sy_stops r) x
    (sy_activating r) (sy_calls r) (sy_delivered r).
Definition sys_activating (x : gmap Identifier nat) (r : System) : System :=
  mkSystem (sy_charts r) (sy_table r) (sy_actorIDs r) (sy_actorIDsDirty r) (sy_storage r) (sy_stopped r)
    (sy_observers r) (sy_dispatchQueue r) (sy_dispatchRunning r) (sy_dispatchClosed r) (sy_dispatchDone r)
    (sy_sweep r) (sy_now r) (sy_heap r) (sy_activations r) (sy_nextActivation r) (sy_reapers r) (sy_stops r)
    (sy_locks r) x (sy_calls r) (sy_delivered r).
Definition sys_calls (x : list externalCall) (r : System) : System :=
  mkSystem (sy_charts r) (sy_table r) (sy_actorIDs r) (sy_actorIDsDirty r) (sy_storage r) (sy_stopped r)
    (sy_observers r) (sy_dispatchQueue r) (sy_dispatchRunning r) (sy_dispatchClosed r) (sy_dispatchDone r)
    (sy_sweep r) (sy_now r) (sy_heap r) (sy_activations r) (sy_nextActivation r) (sy_reapers r) (sy_stops r)
    (sy_locks r) (sy_activating r) x (sy_delivered r).
Definition sys_delivered (x : list (string * string)) (r : System) : System :=
  mkSystem (sy_charts r) (sy_table r) (sy_actorIDs r) (sy_actorIDsDirty r) (sy_storage r) (sy_stopped r)
    (sy_observers r) (sy_dispatchQueue r) (sy_dispatchRunning r) (sy_dispatchClosed r) (sy_dispatchDone r)
    (sy_sweep r) (sy_now r) (sy_heap r) (sy_activations r) (sy_nextActivation r) (sy_reapers r) (sy_stops r)
    (sy_locks r) (sy_activating r) (sy_calls r) x.

(** ** Configuration *)

(** A processor of another package: what it answers, given every call out of
    the system so far, and whether it acknowledges ([AcknowledgingIOProcessor]). *)
Record processor := mkProcessor { pr_Send : list externalCall → SendRequest → option error; pr_acks : bool }.
Record scxmlPeer := mkPeer { pe_Send : list externalCall → actorRoute → SendRequest → option error; pe_acks : bool }.

(** A factory gives a processor per activation, or nil. *)
Record systemConfig := mkConfig {
  cf_nodeName : string;
  cf_idleTimeout : Z;
  cf_residencyLimit : option (nat → bool);
  cf_dispatchLimit : Z;
  cf_onSweepError : bool;
  cf_onResidency : bool;
  cf_scxmlPeer : option scxmlPeer;
  cf_processors : list (Identifier * (nat → option processor));
  cf_invokeHandlers : list Identifier
}.

Definition defaultSystemConfig : systemConfig := mkConfig "" (5 * 60 * 10 ^ 9) None 1024 false false None [] [].

Definition WithResidencyLimit (limit : nat → bool) (c : systemConfig) : systemConfig :=
  mkConfig (cf_nodeName c) (cf_idleTimeout c) (Some limit) (cf_dispatchLimit c) (cf_onSweepError c) (cf_onResidency c)
    (cf_scxmlPeer c) (cf_processors c) (cf_invokeHandlers c).
Definition WithMaxResident (n : Z) : systemConfig → systemConfig := WithResidencyLimit (λ resident, bool_decide (n ≤ Z.of_nat resident)%Z).

(** These two panic: [None]. *)
Definition WithIOProcessor (typ : Identifier) (factory : option (nat → option processor)) (c : systemConfig) : option systemConfig :=
  match factory with
  | Some factory =>
      if decide (typ = "" ∨ typ = SCXMLEventProcessor ∨ typ = SCXMLEventProcessorAlias) then None
      else if decide (typ ∈ (cf_processors c).*1) then None
      else Some (mkConfig (cf_nodeName c) (cf_idleTimeout c) (cf_residencyLimit c) (cf_dispatchLimit c) (cf_onSweepError c)
                   (cf_onResidency c) (cf_scxmlPeer c) (cf_processors c ++ [(typ, factory)]) (cf_invokeHandlers c))
  | None => None
  end.
Definition WithInvokeHandler (typ : Identifier) (factory : bool) (c : systemConfig) : option systemConfig :=
  let typ := if decide (typ = "scxml") then SCXMLInvokeType else typ in
  if decide (typ = "" ∨ factory = false) then None
  else if decide (typ ∈ cf_invokeHandlers c) then None
  else Some (mkConfig (cf_nodeName c) (cf_idleTimeout c) (cf_residencyLimit c) (cf_dispatchLimit c) (cf_onSweepError c)
               (cf_onResidency c) (cf_scxmlPeer c) (cf_processors c) (cf_invokeHandlers c ++ [typ])).

Context `{AS : !ActorStorage L} `{IN : !Instances Inst}.
Variable cfg : systemConfig.

(** [NewSystem]; the storage comes from [WithStorage]. *)
Definition armed (now : Z) : option Z := if decide (cf_idleTimeout cfg ≤ 0)%Z then None else Some (now + cf_idleTimeout cfg)%Z.
Definition NewSystem (storage : option L) (now : Z) : System :=
  mkSystem ∅ ∅ [] false storage false noObservers [] false false false (armed now) now ∅ ∅ 0 [] ∅ ∅ ∅ [] [].

(** The configuration that [chart.Prepare(s.invokeHandlerOptions()...)] builds:
    the defaults and the invocation handlers. *)
Definition invokeHandlerOptions : runtime :=
  mkRuntime (mkEnvironment "" "" "" (λ _, false) (λ _ _, None) (λ _ _, Ok false) (λ _, Ok 0%Z) None)
    (λ typ, bool_decide (typ ∈ cf_invokeHandlers cfg)) (λ _ _, PlainHandler) (λ _, None) None None None.
Definition prepareChart (chart : compiledChart) : result unit := Prepare chart invokeHandlerOptions.

(** ** Charts *)

Definition chartFor (kind : Identifier) (s : System) : option compiledChart :=
  registry ← sy_charts s !! kind; cr_revisions registry !! cr_current registry.
Definition chartForRevision (kind : Identifier) (revision : string) (s : System) : option compiledChart :=
  registry ← sy_charts s !! kind; cr_revisions registry !! revision.

(** The copies that the source makes are not shared here. *)
Definition CurrentDefinition (kind : Identifier) (s : System) : option (ChartDefinition * string) :=
  registry ← sy_charts s !! kind;
  chart ← cr_revisions registry !! cr_current registry;
  Some (cc_definition chart, cr_current registry).
Definition SystemDefinition (kind : Identifier) (revision : string) (s : System) : option ChartDefinition :=
  cc_definition <$> chartForRevision kind revision s.

(** [registry.revisions[revision] = chart]. *)
Definition retain (kind : Identifier) (revision : string) (chart : compiledChart) (s : System) : System :=
  sys_charts (alter (λ r, mkRegistry _ (cr_datamodel r) (cr_current r) (<[revision := chart]> (cr_revisions r))) kind (sy_charts s)) s.

(** ** Actors *)

Definition updateEntry (name : Identifier) (f : actorEntry → actorEntry) (s : System) : System :=
  sys_table (alter f name (sy_table s)) s.

(** [resolve]: the entry of an initialized actor. *)
Definition resolve (name : Identifier) (s : System) : option actorEntry :=
  e ← sy_table s !! name; if ae_initialized e then Some e else None.
Definition ActorRevision (actorID : Identifier) (s : System) : option string := ae_revision <$> resolve actorID s.
Definition address (name : Identifier) : Identifier := routingKey name (cf_nodeName cfg).

(** The stable ID of a target, if it is one of this system. *)
Definition resolveTarget (target : Identifier) (s : System) : option Identifier :=
  match resolve target s with
  | Some _ => Some target
  | None =>
      '(actorID, node) ← splitRoutingKey target;
      if decide (node = cf_nodeName cfg) then _ ← resolve actorID s; Some actorID else None
  end.

Definition instanceOf (name : Identifier) (s : System) : option nat := sy_table s !! name ≫= ae_instance.
Definition IsResident (target : Identifier) (s : System) : bool :=
  match resolveTarget target s with Some name => present (instanceOf name s) | None => false end.

(** [instanceFinished] of the instance that a pointer refers to. *)
Definition instanceFinished (act : nat) (s : System) : bool :=
  match sy_heap s !! act with Some inst => inst_Done inst | None => false end.

Definition residents (s : System) : gset Identifier := dom (filter (λ '(_, e), is_Some (ae_instance e)) (sy_table s)).
Definition residentCount (s : System) : nat := size (residents s).

(** *** The directory's view *)

Definition infoForEntry (e : actorEntry) : ActorInfo :=
  let lifecycle := if ae_terminal e then ActorLifecycleTerminal else ActorLifecycleActive in
  let terminal := if ae_terminal e && negb (bool_decide (ae_terminalAt e = 0)%Z) then timeUnix (ae_terminalAt e) else zeroTime in
  let active := if decide (ae_lastActive e = 0)%Z then zeroTime else timeUnix (ae_lastActive e) in
  mkInfo (ae_name e) (address (ae_name e)) (cf_nodeName cfg) (ae_kind e) (ae_revision e) (ae_sessionID e) (ae_durable e) true lifecycle
    (residencyState (ae_residency e)) (ae_startedAt e) terminal active.
Definition infoForMetadata (m : ActorMetadata) : ActorInfo :=
  mkInfo (am_ActorID m) (address (am_ActorID m)) (cf_nodeName cfg) (am_ChartID m) (am_Revision m) (am_SessionID m) true false (am_Lifecycle m)
    ResidencyPagedOut (am_StartedAt m) (am_TerminalAt m) zeroTime.

(** *** Notifications *)

Definition publish (o : Observation) (s : System) : System := sys_observers (publishObservation (sy_now s) o (sy_observers s)) s.

(** Publishes an observation about an actor, if anyone observes. *)
Definition observeActor (kind : ObservationKind) (name : Identifier) (trace : option MacrostepTrace) (s : System) : System :=
  if decide (oz_observerCount (sy_observers s) = 0)%Z then s
  else publish (observation kind (infoForEntry <$> sy_table s !! name) None trace) s.

Definition notifyDiscovered (name : Identifier) (s : System) : System :=
  match sy_table s !! name with
  | Some e => if ae_discovered e then s
              else observeActor ObservationActorDiscovered name None (updateEntry name (en_discovered true) s)
  | None => s
  end.
Definition notifyTerminal (name : Identifier) (s : System) : System :=
  match sy_table s !! name with
  | Some e => if ae_observedEnd e then s
              else observeActor ObservationActorTerminal name None (updateEntry name (en_observedEnd true) s)
  | None => s
  end.
Definition notifyResidency (name : Identifier) (state : string) (s : System) : System :=
  let s := observeActor ObservationResidencyChanged name None (updateEntry name (en_residency (residencyCode state)) s) in
  if cf_onResidency cfg then sys_calls (sy_calls s ++ [CallResidency (mkChange name state)]) s else s.

(** ** The dispatch queue *)

Definition enqueueDispatch (j : job) (s : System) : System * option error :=
  if sy_stopped s || sy_dispatchClosed s then (s, Some ErrSystemStopped)
  else if decide (cf_dispatchLimit cfg ≤ Z.of_nat (length (sy_dispatchQueue s)))%Z then (s, Some errDispatchQueueFull)
  else (sys_dispatchQueue (sy_dispatchQueue s ++ [j]) (sys_dispatchRunning true s), None).

(** [closeDispatcher]. *)
Definition closeDispatcher (s : System) : System := sys_dispatchClosed true s.

(** ** Routing (router.go) *)

(** The event that a request becomes. *)
Definition peerEvent (self : Identifier) (req : SendRequest) : Event :=
  mkEvent (sr_Event req) EventExternal (Clone (sr_Data req)) (sr_EventSendID req) self SCXMLEventProcessorAlias "" (sr_DeliveryID req).

Definition callPeer (peer : scxmlPeer) (act : nat) (self : Identifier) (req : SendRequest) (s : System) : System * option error :=
  let route := mkRoute self act (sr_SendID req) in
  (sys_calls (sy_calls s ++ [CallPeer route req]) s, pe_Send peer (sy_calls s) route req).

(** [routingProcessor.Send] of the instance [act] with address [self]. *)
Definition routingSend (act : nat) (self : Identifier) (req : SendRequest) (s : System) : System * option error :=
  if decide (sr_Type req ≠ SCXMLEventProcessor) then (s, Some (unsupportedPeerTypeError (sr_Type req)))
  else
    match resolveTarget (sr_Target req) s with
    | None =>
        match cf_scxmlPeer cfg with
        | Some peer => callPeer peer act self req s
        | None => (s, Some (Errorf ("actors: unknown actor " +:+ quote (sr_Target req))))
        end
    | Some target => enqueueDispatch (JobDeliver target (peerEvent self req) act (sr_SendID req)) s
    end.

(** [SendWithAck]: the third component is whether [complete(nil)] was called
    before it returned. *)
Definition routingSendWithAck (act : nat) (self : Identifier) (req : SendRequest) (s : System) : System * option error * bool :=
  let localType := bool_decide (sr_Type req = SCXMLEventProcessor) in
  let plain := let '(s, err) := routingSend act self req s in (s, err, negb (present err)) in
  match resolveTarget (sr_Target req) s with
  | None =>
      match cf_scxmlPeer cfg with
      | Some peer => if localType && pe_acks peer then (callPeer peer act self req s, false) else plain
      | None => plain
      end
  | Some target =>
      if localType then (enqueueDispatch (JobAck act (sr_Type req) req target (peerEvent self req)) s, false) else plain
  end.

(** ** Processors of an activation *)

(** The processor of a type that the factory made for this activation. *)
Definition customProcessor (act : nat) (typ : Identifier) : option processor :=
  '(_, factory) ← list_find (λ p, p.1 = typ) (cf_processors cfg) ≫= λ '(_, p), Some p; factory act.

Definition noProcessor (typ : Identifier) : error := mk_error ("statecharts: no IOProcessor registered for type " +:+ quote typ) true false.

Definition customSend (act : nat) (typ : Identifier) (req : SendRequest) (s : System) : System * option error :=
  match customProcessor act typ with
  | Some p => (sys_calls (sy_calls s ++ [CallProcessor act typ req]) s, pr_Send p (sy_calls s) req)
  | None => (s, Some (noProcessor typ))
  end.

(** The call that a durable processor makes on the one it wraps, and whether
    that one acknowledges. *)
Definition transportSend (act : nat) (self typ : Identifier) (req : SendRequest) (s : System) : System * option error * bool :=
  if decide (typ = SCXMLEventProcessor) then routingSendWithAck act self req s else (customSend act typ req s, false).
Definition transportAcks (act : nat) (typ : Identifier) : bool :=
  bool_decide (typ = SCXMLEventProcessor) || match customProcessor act typ with Some p => pr_acks p | None => false end.

Definition setTables (act : nat) (tables : gmap string (gmap string OutboundMessage)) (s : System) : System :=
  sys_activations (alter (λ a, mkActivation (av_name a) (av_session a) (av_durable a) tables (av_messages a) (av_recovery a)) act
                     (sy_activations s)) s.

(** An operation of the outbox of [act] that calls the transport at most once:
    the storage and the tables it leaves, then the call, then the reports, which
    [actorIngressDispatcher] queues. *)
Definition onOutbox {A} (act : nat) (a : activation) (call : System → System) (op : outboxWorld → outboxWorld * A) (s : System) : option (System * A) :=
  st ← sy_storage s;
  let '(w, r) := op (mkWorld st (av_tables a) [] []) in
  let s := setTables act (ow_tables w) (sys_storage (Some (ow_store w)) s) in
  let s := match ow_calls w with [] => s | _ => call s end in
  Some (foldl (λ s ev, (enqueueDispatch (JobIngress (av_name a) ev) s).1) s (ow_reports w), r).

(** [durableProcessor.Send]. *)
Definition durableSend (act : nat) (a : activation) (req : SendRequest) (s : System) : option (System * option error) :=
  let typ := sr_Type req in
  let self := address (av_name a) in
  let '(_, answer, completed) := transportSend act self typ req s in
  onOutbox act a (λ s, (transportSend act self typ req s).1.1)
    (λ w, let '(w, err) := outboxSend (av_session a) (λ _ _ _, answer) (transportAcks act) true typ req w in
          (if completed && negb (bool_decide (ow_calls w = [])) then acknowledge (av_session a) true typ req None w else w, err)) s.

(** [complete], as the callback of an acknowledging transport calls it. *)
Definition completeSend (act : nat) (a : activation) (typ : Identifier) (req : SendRequest) (err : option error) (s : System) : option System :=
  fst <$> onOutbox act a id (λ w, (acknowledge (av_session a) true typ req err w, ())) s.

(** One message of [Recover], and all of them. *)
Definition recoverMessage (act : nat) (m : OutboundMessage) (s : System) (err : option error) : option (System * option error) :=
  a ← sy_activations s !! act;
  let typ := sr_Type (om_Request m) in
  let self := address (av_name a) in
  let '(_, answer, completed) := transportSend act self typ (om_Request m) s in
  onOutbox act a (λ s, (transportSend act self typ (om_Request m) s).1.1)
    (λ w, let '(w, err) := recoverOne (av_session a) (λ _ _ _, answer) (transportAcks act) true w err m in
          (if completed && negb (bool_decide (ow_calls w = [])) then acknowledge (av_session a) true typ (om_Request m) None w else w, err)) s.

Fixpoint recoverMessages (act : nat) (ms : list OutboundMessage) (s : System) (err : option error) : option (System * option error) :=
  match ms with
  | [] => Some (s, err)
  | m :: ms => '(s, err) ← recoverMessage act m s err; recoverMessages act ms s err
  end.

Definition recover (act : nat) (a : activation) (s : System) : option (System * option error) :=
  match av_recovery a with
  | Some err => Some (s, err)
  | None =>
      '(s, err) ← recoverMessages act (av_messages a) s None;
      Some (sys_activations (alter (λ a, mkActivation (av_name a) (av_session a) (av_durable a) (av_tables a) (av_messages a) (Some err)) act
                               (sy_activations s)) s, err)
  end.

(** ** The hooks of an activation *)

(** A storage operation that changes it; without a storage the source would
    dereference nil. *)
Definition onStorage {A} (f : L → result (L * A)) (s : System) : option (System * result A) :=
  st ← sy_storage s;
  Some (match f st with Ok (st, a) => (sys_storage (Some st) s, Ok a) | Err e => (s, Err e) end).

Definition errOf {A} (text : string) (r : result A) : option error :=
  match r with Ok _ => None | Err e => Some (Wrapf text e) end.

Definition ingressHook (a : activation) (ev : Event) (s : System) : option (System * option error) :=
  let s := updateEntry (av_name a) (en_lastActive (UnixNano (sy_now s))) s in
  if negb (av_durable a) || negb (bool_decide (DeliveryID ev = "")) then Some (s, None)
  else
    '(s, r) ← onStorage (st_Append None (mkEntry (av_session a) 0 KindExternalEvent (sy_now s) ev "" "" "")) s;
    Some (s, errOf ("actors: append " +:+ quote (av_name a) +:+ ": ") r).

(** [LoggingTimerFiredDetailsHook]; ephemeral instances have no such hook. *)
Definition timerFiredHook (a : activation) (sendID target typ : Identifier) (ev : Event) (s : System) : option (System * option error) :=
  if av_durable a then
    '(s, r) ← onStorage (st_Append None (mkEntry (av_session a) 0 KindTimerFired (sy_now s) ev sendID target typ)) s;
    Some (s, match r with Ok _ => None | Err e => Some e end)
  else Some (s, None).

(** The goroutine that [reapTerminalWhenDone] starts. *)
Definition reapTerminalWhenDone (name : Identifier) (s : System) : System :=
  match instanceOf name s with
  | Some act => sys_reapers (sy_reapers s ++ [(name, act)]) s
  | None => s
  end.

Definition markTerminal (name : Identifier) (at_ : Z) (s : System) : System :=
  reapTerminalWhenDone name (notifyTerminal name (updateEntry name (λ e, en_terminal true (en_terminalAt (UnixNano at_) e)) s)).

Definition sameActor (e : actorEntry) (m : ActorMetadata) : bool :=
  bool_decide (am_ActorID m = ae_name e) && bool_decide (am_ChartID m = ae_kind e) && bool_decide (am_Revision m = ae_revision e)
  && bool_decide (am_SessionID m = ae_sessionID e) && bool_decide (am_Lifecycle m = ActorLifecycleTerminal).

(** What the system does when an instance calls it, but for [HostCompletion];
    [None] is a nil dereference. *)
Definition perform (act : nat) (c : hostCall) (s : System) : option (System * option error) :=
  a ← sy_activations s !! act;
  match c with
  | HostIngress ev => ingressHook a ev s
  | HostTimer sendID target typ ev => timerFiredHook a sendID target typ ev s
  | HostCompletion => None
  | HostSend req =>
      if av_durable a then durableSend act a req s
      else Some (if decide (sr_Type req = SCXMLEventProcessor) then routingSend act (address (av_name a)) req s
                 else customSend act (sr_Type req) req s)
  | HostRecover => recover act a s
  | HostSave cp =>
      '(s, r) ← onStorage (λ st, st ← st_Save None (av_session a) cp st; Ok (st, ())) s;
      Some (s, match r with Ok _ => None | Err e => Some e end)
  | HostMacrostep trace => Some (observeActor ObservationMacrostep (av_name a) (Some trace) s, None)
  end.

End system.
