(* ===== verification/Actors.v ===== *)
(** * The operations of the actor system (actors/system.go)

    Each operation is a [thread] over [System]: its actions are the critical
    sections of [chartsMu], [tableMu], [dispatchMu] and [observationsMu], single
    loads and stores of atomics, storage calls, and the calls that an instance
    makes back into the system.  The mutexes that are held longer ([entry.mu],
    [publishMu], [admissionMu]) are in [sy_locks] with the goroutine that holds
    them; [i] is that goroutine.  An instance takes one request at a time: while
    one runs, [LInstance] is held.

    [ctx] is what [ctx.Err()] returns, [None] while the context is alive. *)

From S2P Require Import Prelude Identifier Storage Values Events Datamodel Chart Interp Steps Definitions Validate Compile Artifact.
From S2P Require Import Snapshot Instance Replay Memory Outbox Threads Observation Routing ActorStore System.
From stdpp Require Import options.

Section actors.
Context `{DM : DatamodelSession} {L : Type} `{AS : !ActorStorage L} {Inst : Type} `{IN : !Instances Inst}.
Variable cfg : systemConfig.
Variable parseDuration : string → result Z.
Variable jsonMarshal : ChartDefinition → result string.
Variable sha256 : string → string.
Variable jsonDecode : string → result (ChartDefinition * trailing).
(** The order in which a range loop visits the table. *)
Variable range : gset Identifier → list Identifier.

#[local] Abbreviation System := (@System DM L Inst).
#[local] Abbreviation thread := (Threads.thread System).
#[local] Abbreviation names s := (range (dom (sy_table s))).

(** ** Mutexes *)

Definition acquire (i : nat) (l : lock) : thread () :=
  atomic (λ s, match sy_locks s !! l with None => Some (sys_locks (<[l := i]> (sy_locks s)) s, ()) | Some _ => None end).
Definition release (l : lock) : thread () := writes (λ s, sys_locks (delete l (sy_locks s)) s).
Definition tryAcquire (i : nat) (l : lock) : thread bool :=
  updates (λ s, match sy_locks s !! l with None => (sys_locks (<[l := i]> (sy_locks s)) s, true) | Some _ => (s, false) end).

(** A body between [Lock] and the deferred [Unlock]. *)
Definition locked {A} (i : nat) (l : lock) (body : thread A) : thread A :=
  acquire i l ≫= λ _, body ≫= λ a, release l ≫= λ _, mret a.

Definition entryOf (name : Identifier) : thread actorEntry := follows (λ s, sy_table s !! name).

(** ** Requests to instances *)

(** The completion hook: the end of a durable actor is stored first. *)
Definition completionHook (act : nat) : thread (option error) :=
  a ← follows (λ s, sy_activations s !! act);
  e ← entryOf (av_name a);
  now ← reads sy_now;
  let name := quote (ae_name e) in
  let finish (at_ : Z) := writes (markTerminal cfg (av_name a) at_) ≫= λ _, mret None in
  if negb (ae_durable e) then finish now
  else
    let terminalAt := if decide (now < ae_startedAt e)%Z then ae_startedAt e else now in
    r ← atomic (onStorage (st_MarkActorTerminal None (ae_name e) terminalAt));
    match r with
    | Err err => mret (Some (Wrapf ("actors: mark " +:+ name +:+ " terminal: ") err))
    | Ok (_, ActorNotFound) =>
        mret (Some (Wrapf ("actors: mark " +:+ name +:+ " terminal: actor metadata was not found: ") (Errorf ErrInvalidActorMetadata)))
    | Ok (m, _) =>
        let m := default zeroMetadata m in
        if sameActor e m then finish (am_TerminalAt m)
        else mret (Some (Wrapf ("actors: mark " +:+ name +:+ " terminal returned inconsistent metadata: ") (Errorf ErrInvalidActorMetadata)))
    end.

Definition host (act : nat) (c : hostCall) : thread (option error) :=
  match c with HostCompletion => completionHook act | _ => atomic (perform cfg act c) end.

Fixpoint runProc {A} (act : nat) (p : proc A) : thread A :=
  match p with
  | Finish a => mret a
  | Ask c k => host act c ≫= λ err, runProc act (k err)
  | Diverge => stuck
  end.

(** A request that the instance's goroutine serves: its turn is taken, the
    request runs, and what it leaves is stored. *)
Definition request {A} (i act : nat) (p : Inst → proc (Inst * A)) : thread A :=
  locked i (LInstance act)
    (inst ← follows (λ s, sy_heap s !! act);
     '(inst, a) ← runProc act (p inst);
     _ ← writes (λ s, sys_heap (<[act := inst]> (sy_heap s)) s);
     mret a).

(** A request that is served in one piece, once the instance is idle. *)
Definition quick {A} (act : nat) (f : Inst → System → option (System * A)) : thread A :=
  atomic (λ s, match sy_locks s !! LInstance act with
               | Some _ => None
               | None => inst ← sy_heap s !! act; f inst s
               end).

Definition Deliver (i act : nat) (ctx : option error) (ev : Event) : thread (option error) := request i act (inst_Deliver ctx ev).

(** What an instance does by itself: timers that fire, invocations that answer. *)
Definition ownActivity (i act : nat) (input : inst_activity) : thread () :=
  request i act (λ inst, (fix go p := match p with Finish x => Finish (x, ()) | Ask c k => Ask c (λ e, go (k e)) | Diverge => Diverge end)
                           (inst_Own input inst)).

Definition HasActiveInvokes (act : nat) (ctx : option error) : thread (result bool) :=
  quick act (λ inst s, Some (s, inst_HasActiveInvokes ctx inst)).

Definition Stop_ (act : nat) (ctx : option error) : thread (option error) :=
  quick act (λ inst s, let '(inst, err) := inst_Stop ctx inst in Some (sys_heap (<[act := inst]> (sy_heap s)) s, err)).

(** [Instance.Checkpoint] with the callback of [evictLocked]. *)
Definition Checkpoint_ (act : nat) (ctx : option error) (name : Identifier) (sid : string) : thread (option error) :=
  quick act (λ inst s,
    match inst_Checkpoint ctx inst with
    | Err e => Some (s, Some e)
    | Ok (snap, inst) =>
        st ← sy_storage s;
        Some (match st_LastSeq ctx sid st with
              | Err e => (s, Some (Wrapf ("actors: last seq " +:+ quote name +:+ ": ") e))
              | Ok seq =>
                  match st_Save ctx sid (mkCheckpoint snap seq) st with
                  | Err e => (s, Some (Wrapf ("actors: save checkpoint " +:+ quote name +:+ ": ") e))
                  | Ok st => (sys_heap (<[act := inst]> (sy_heap s)) (sys_storage (Some st) s), None)
                  end
              end)
    end).

(** ** Eviction *)

(** [entry.instance.Store(nil)] and the notification. *)
Definition pageOut (name : Identifier) : thread () :=
  writes (updateEntry name (en_instance None)) ≫= λ _, writes (notifyResidency cfg name ResidencyPagedOut).

(** [evictLocked]; the caller holds [entry.mu]. *)
Definition evictLocked (ctx : option error) (name : Identifier) : thread (option error) :=
  e ← entryOf name;
  match ae_instance e with
  | None => mret None
  | Some act =>
      finished ← reads (instanceFinished act);
      if (finished : bool) then
        _ ← Stop_ act ctx;
        _ ← pageOut name;
        mret None
      else
        err ← Checkpoint_ act ctx name (ae_sessionID e);
        match err with
        | Some err => mret (Some (Wrapf ("actors: checkpoint " +:+ quote name +:+ ": ") err))
        | None => _ ← pageOut name; mret None
        end
  end.

Definition reapOne (i : nat) (name : Identifier) : thread () :=
  got ← tryAcquire i (LEntry name);
  if (got : bool) then
    e ← entryOf name;
    _ ← match ae_instance e with
        | None => mret ()
        | Some act =>
            finished ← reads (instanceFinished act);
            if (finished : bool) then evictLocked None name ≫= λ _, mret () else mret ()
        end;
    release (LEntry name)
  else mret ().

Definition reapFinished (i : nat) : thread () :=
  entries ← reads (λ s, names s);
  each entries (reapOne i).

(** By [lastActive]. *)
Definition idleOrder (a b : Identifier * Z) : Prop := (a.2 ≤ b.2)%Z.
#[global] Instance idleOrder_dec : RelDecision idleOrder.
Proof using Type. intros a b. unfold idleOrder. apply _. Defined.

(** Durable residents other than [exclude], least recently active first. *)
Definition candidates (exclude : Identifier) (s : System) : list Identifier :=
  (merge_sort idleOrder
     (omap (λ name,
        e ← sy_table s !! name;
        if bool_decide (name = exclude) || negb (ae_durable e) || negb (present (ae_instance e)) then None
        else Some (name, ae_lastActive e)) (names s))).*1.

(** Whether a candidate can be the victim: if so, it stays locked. *)
Definition tryVictim (i : nat) (ctx : option error) (name : Identifier) : thread (option Identifier) :=
  got ← tryAcquire i (LEntry name);
  if (got : bool) then
    e ← entryOf name;
    match ae_instance e with
    | None => release (LEntry name) ≫= λ _, mret None
    | Some act =>
        r ← HasActiveInvokes act ctx;
        match r with
        | Ok false => mret (Some name)
        | _ => release (LEntry name) ≫= λ _, mret None
        end
    end
  else mret None.

Definition pickEvictionVictim (i : nat) (ctx : option error) (exclude : Identifier) : thread (option Identifier) :=
  cs ← reads (candidates exclude);
  first cs (tryVictim i ctx).

(** The loop of [admit]: each round but the last evicts a resident, so the number
    of residents bounds them. *)
Fixpoint makeRoom (fuel i : nat) (ctx : option error) (limit : nat → bool) (exclude : Identifier) : thread (option error) :=
  match fuel with
  | 0 => stuck
  | S fuel =>
      resident ← reads residentCount;
      if negb (limit resident) then mret None
      else
        victim ← pickEvictionVictim i ctx exclude;
        match victim with
        | None =>
            resident ← reads residentCount;
            mret (Some (Wrapf ("actors: residency limit reached (resident=" +:+ pretty resident +:+ "): ") ErrResidencyExhausted))
        | Some victim =>
            err ← evictLocked ctx victim;
            _ ← release (LEntry victim);
            match err with
            | Some err => mret (Some (Wrapf ("actors: evict " +:+ quote victim +:+ " to make room: ") err))
            | None => makeRoom fuel i ctx limit exclude
            end
        end
  end.

Definition admit_ (i : nat) (ctx : option error) (exclude : Identifier) : thread (option error) :=
  _ ← reapFinished i;
  match cf_residencyLimit cfg with
  | None => mret None
  | Some limit =>
      resident ← reads residentCount;
      makeRoom (S resident) i ctx limit exclude
  end.

(** ** Activation *)

Definition deliveryNamespace (sid : string) (chart : compiledChart) : string :=
  itoa (N.of_nat (String.length sid)) +:+ ":" +:+ sid +:+ ":" +:+ cc_revision chart.

(** The types of the processors of every actor, the routing one first. *)
Definition processorTypes : list Identifier := SCXMLEventProcessor :: (cf_processors cfg).*1.

(** The outbox that a durable activation recovers: the messages of this session
    and revision, all of a type that has a processor. *)
Definition loadOutbox (ctx : option error) (name : Identifier) (sid namespace : string) (st : L) : result (list OutboundMessage) :=
  stored ← match st_Outbounds ctx sid st with
           | Ok ms => Ok ms
           | Err e => Err (Wrapf ("actors: load outbox for " +:+ quote name +:+ ": ") e)
           end;
  let outbounds := filter (λ m, HasPrefix (om_DeliveryID m) (namespace +:+ ":") = true) stored in
  match list_find (λ m, om_Status m = OutboundPending ∧ sr_Type (om_Request m) ∉ processorTypes) outbounds with
  | Some (_, m) =>
      Err (Wrapf ("actors: activate " +:+ quote name +:+ ": pending delivery " +:+ quote (om_DeliveryID m) +:+ " requires IOProcessor "
                  +:+ quote (sr_Type (om_Request m)) +:+ ": ") ErrDurableIOProcessorUnavailable)
  | None => Ok outbounds
  end.

(** The factories are called in order; the routing processor is never nil. *)
Definition nilProcessor (act : nat) : option Identifier :=
  fst <$> (list_find (λ p, p.2 act = None) (cf_processors cfg) ≫= λ '(_, p), Some p).

(** The table of every processor type, filled from the recovered messages. *)
Definition initialTables (st : L) (messages : list OutboundMessage) : gmap string (gmap string OutboundMessage) :=
  ow_tables (newDurableRecovery processorTypes messages (mkWorld st ∅ [] [])).

(** What [Rehydrate] is given to read. *)
Definition sourceOf (ctx : option error) (sid : string) (tables : gmap string (gmap string OutboundMessage)) (st : L) : rehydrateSource :=
  mkSource (st_Load ctx sid st) (st_LastSeq ctx sid st) (λ from, st_Read ctx sid from st)
    (λ req, ReplaySend (sr_Type req) req (mkWorld st tables [] [])).

(** The new activation, its processors made. *)
Definition openActivation (ctx : option error) (e : actorEntry) (chart : compiledChart) (s : System) : option (System * result (nat * rehydrateSource)) :=
  let act := sy_nextActivation s in
  let s := sys_nextActivation (S act) s in
  let sid := ae_sessionID e in
  let nilError typ := Errorf ("actors: activate " +:+ quote (ae_name e) +:+ ": IOProcessor factory for " +:+ quote typ +:+ " returned nil") in
  let opened messages tables := sys_activations (<[act := mkActivation (ae_name e) sid (ae_durable e) tables messages None]> (sy_activations s)) s in
  if ae_durable e then
    st ← sy_storage s;
    Some (match loadOutbox ctx (ae_name e) sid (deliveryNamespace sid chart) st with
          | Err err => (s, Err err)
          | Ok messages =>
              match nilProcessor act with
              | Some typ => (s, Err (nilError typ))
              | None => let tables := initialTables st messages in (opened messages tables, Ok (act, sourceOf ctx sid tables st))
              end
          end)
  else
    Some (match nilProcessor act with
          | Some typ => (s, Err (nilError typ))
          | None => (opened [] ∅, Ok (act, mkSource (Ok None) (Ok 0%N) (λ _, ([], None)) (λ _, None)))
          end).

(** The instance is started, or rehydrated; ephemeral actors have the default
    delivery namespace. *)
Definition startInstance (ctx : option error) (e : actorEntry) (chart : compiledChart) (startLive : bool) (source : rehydrateSource) : proc (result Inst) :=
  if ae_durable e then
    if startLive then inst_Start chart (ae_sessionID e) (deliveryNamespace (ae_sessionID e) chart) ctx
    else inst_Rehydrate chart (ae_sessionID e) (deliveryNamespace (ae_sessionID e) chart) ctx source
  else inst_Start chart (ae_sessionID e) "" ctx.

Definition activateError (name : Identifier) (e : error) : error := Wrapf ("actors: activate " +:+ quote name +:+ ": ") e.

(** The instance is published, unless the actor has completed already. *)
Definition publishInstance (name : Identifier) (act : nat) : thread () :=
  e ← entryOf name;
  if ae_terminal e then
    _ ← Stop_ act None;
    writes (notifyResidency cfg name ResidencyPagedOut)
  else
    _ ← writes (updateEntry name (en_instance (Some act)));
    _ ← writes (λ s, updateEntry name (en_lastActive (UnixNano (sy_now s))) s);
    writes (notifyResidency cfg name ResidencyResident).

(** From the admission to the published instance. *)
Definition hydrate (i : nat) (ctx : option error) (name : Identifier) (startLive : bool) : thread (option error) :=
  err ← admit_ i ctx name;
  match err with
  | Some err => mret (Some err)
  | None =>
      e ← entryOf name;
      found ← reads (chartForRevision (ae_kind e) (ae_revision e));
      match found with
      | None =>
          mret (Some (Wrapf ("actors: activate " +:+ quote name +:+ ": kind " +:+ quote (ae_kind e) +:+ " revision " +:+ quote (ae_revision e)
                             +:+ " is not retained: ") ErrDefinitionNotFound))
      | Some chart =>
          match prepareChart cfg chart with
          | Err err => mret (Some (activateError name err))
          | Ok _ =>
              opened ← atomic (openActivation ctx e chart);
              match opened with
              | Err err => mret (Some err)
              | Ok (act, source) =>
                  r ← locked i (LInstance act)
                        (r ← runProc act (startInstance ctx e chart startLive source);
                         match r with
                         | Err err => mret (Some (activateError name err))
                         | Ok inst => writes (λ s, sys_heap (<[act := inst]> (sy_heap s)) s) ≫= λ _, mret None
                         end);
                  match r with
                  | Some err => mret (Some err)
                  | None => publishInstance name act ≫= λ _, mret None
                  end
              end
          end
      end
  end.

(** The test of [stopped]; [sy_activating] notes that it was passed. *)
Definition passStopped (i : nat) (name : Identifier) : thread bool :=
  updates (λ s, if sy_stopped s then (s, false) else (sys_activating (<[name := i]> (sy_activating s)) s, true)).

(** [startLive] is read and reset, and the residency announced. *)
Definition beginHydrating (name : Identifier) : thread bool :=
  e ← entryOf name;
  _ ← writes (λ s, notifyResidency cfg name ResidencyHydrating (updateEntry name (en_startLive false) s));
  mret (ae_startLive e).

(** The part of [activateLocked] under [admissionMu]. *)
Definition activateAdmitted (i : nat) (ctx : option error) (name : Identifier) : thread (option error) :=
  e ← entryOf name;
  if present (ae_instance e) then mret None
  else
    passed ← passStopped i name;
    if negb passed then mret (Some (activateError name ErrSystemStopped))
    else
      startLive ← beginHydrating name;
      err ← hydrate i ctx name startLive;
      _ ← match err with Some _ => writes (notifyResidency cfg name ResidencyPagedOut) | None => mret () end;
      _ ← writes (λ s, sys_activating (delete name (sy_activating s)) s);
      mret err.

(** [activateLocked]; the caller holds [entry.mu]. *)
Definition activateLocked (i : nat) (ctx : option error) (name : Identifier) : thread (option error) :=
  e ← entryOf name;
  if ae_terminal e then mret (Some ErrActorTerminal)
  else if present (ae_instance e) then mret None
  else locked i LAdmission (activateAdmitted i ctx name).


(** ** Charts *)

(** A chart given to [Register]; only those that [Compile] built have a datamodel
    and a program. *)
Record registration := mkRegistration { rg_chart : compiledChart; rg_datamodel : option Datamodel; rg_program : bool }.

(** [PutDefinition], if there is a storage. *)
Definition storeArtifact (ctx : option error) (chart : compiledChart) : thread (result unit) :=
  updates (λ s, match sy_storage s with
                | None => (s, Ok ())
                | Some st =>
                    match st_PutDefinition ctx (artifactOf chart) st with
                    | Ok (st, _) => (sys_storage (Some st) s, Ok ())
                    | Err e => (s, Err e)
                    end
                end).

Definition chartID (chart : compiledChart) : Identifier := df_ID (cc_definition chart).

Definition storeError (what : string) (chart : compiledChart) (e : error) : error :=
  Wrapf ("actors: " +:+ what +:+ ": store chart " +:+ quote (chartID chart) +:+ " revision " +:+ quote (cc_revision chart) +:+ ": ") e.

Definition Register (registered : option registration) : thread (option error) :=
  match registered with
  | None => mret (Some (Errorf "actors: Register: nil chart"))
  | Some (mkRegistration chart model program) =>
      let kind := chartID chart in
      match model with
      | Some model =>
          if negb program then mret (Some (Errorf ("actors: Register: chart " +:+ quote kind +:+ " has no datamodel program")))
          else
            match prepareChart cfg chart with
            | Err e => mret (Some (Wrapf ("actors: Register: chart " +:+ quote kind +:+ ": ") e))
            | Ok _ =>
                r ← storeArtifact None chart;
                match r with
                | Err e => mret (Some (storeError "Register" chart e))
                | Ok _ =>
                    updates (λ s, match sy_charts s !! kind with
                                  | Some _ => (s, Some (Errorf ("actors: Register: chart " +:+ quote kind +:+ " is already registered")))
                                  | None => (sys_charts (<[kind := mkRegistry _ model (cc_revision chart) {[cc_revision chart := chart]}]> (sy_charts s)) s, None)
                                  end)
                end
            end
      | None => mret (Some (Errorf ("actors: Register: chart " +:+ quote kind +:+ " has no datamodel program")))
      end
  end.

(** The last section of [Publish]: the revision is retained and becomes current. *)
Definition install (kind : Identifier) (chart : compiledChart) (s : System) : option (System * result string) :=
  registry ← sy_charts s !! kind;
  let current revisions := sys_charts (<[kind := mkRegistry _ (cr_datamodel registry) (cc_revision chart) revisions]> (sy_charts s)) s in
  Some (match cr_revisions registry !! cc_revision chart with
        | Some retained =>
            if artifactEqual (artifactOf retained) (artifactOf chart) then (current (cr_revisions registry), Ok (cr_current registry))
            else (s, Err ErrDefinitionCollision)
        | None => (current (<[cc_revision chart := chart]> (cr_revisions registry)), Ok (cr_current registry))
        end).

Definition announcePublication (kind : Identifier) (previous revision : string) (s : System) : System :=
  if bool_decide (previous = revision) || bool_decide (oz_observerCount (sy_observers s) = 0)%Z then s
  else publish (observation ObservationDefinitionPublished None (Some (mkPublication kind previous revision)) None) s.

(** Registries are never replaced, so the one found first is the one installed
    into. *)
Definition Publish (i : nat) (ctx : option error) (definition : ChartDefinition) : thread (result string) :=
  match Validate definition with
  | Err e => mret (Err (Wrapf "actors: Publish: " e))
  | Ok _ =>
      let kind := df_ID definition in
      found ← reads (λ s, sy_charts s !! kind);
      match found with
      | None => mret (Err (Wrapf ("actors: Publish: chart " +:+ quote kind +:+ " was never Registered: ") ErrKindNotRegistered))
      | Some registry =>
          locked i (LPublish kind)
            (match Compile parseDuration jsonMarshal sha256 definition (Some (cr_datamodel registry)) with
             | Err e => mret (Err (Wrapf ("actors: Publish chart " +:+ quote kind +:+ ": ") e))
             | Ok chart =>
                 match prepareChart cfg chart with
                 | Err e => mret (Err (Wrapf ("actors: Publish chart " +:+ quote kind +:+ ": ") e))
                 | Ok _ =>
                     r ← storeArtifact ctx chart;
                     match r with
                     | Err e => mret (Err (storeError "Publish" chart e))
                     | Ok _ =>
                         r ← atomic (install kind chart);
                         match r with
                         | Err e => mret (Err e)
                         | Ok previous =>
                             _ ← writes (announcePublication kind previous (cc_revision chart));
                             mret (Ok (cc_revision chart))
                         end
                     end
                 end
             end)
      end
  end.

(** The part of [resolveRevision] under [publishMu]. *)
Definition loadRevision (ctx : option error) (kind : Identifier) (model : Datamodel) (revision : string) : thread (result compiledChart) :=
  found ← reads (chartForRevision kind revision);
  match found with
  | Some chart => mret (Ok chart)
  | None =>
      stored ← reads (λ s, match sy_storage s with
                           | None => Err ErrDefinitionNotFound
                           | Some st => st_GetDefinition ctx revision st
                           end);
      match stored with
      | Err e => mret (Err e)
      | Ok None => mret (Err ErrDefinitionNotFound)
      | Ok (Some artifact) =>
          if negb (bool_decide (da_ChartID artifact = kind))
          then mret (Err (invalidMetadata ("actor chart " +:+ quote kind +:+ " does not match revision chart " +:+ quote (da_ChartID artifact))))
          else
            match artifactCompile parseDuration jsonMarshal sha256 jsonDecode artifact (Some model) with
            | Err e => mret (Err e)
            | Ok chart =>
                match prepareChart cfg chart with
                | Err e => mret (Err e)
                | Ok _ =>
                    updates (λ s, match chartForRevision kind revision s with
                                  | Some retained => (s, if artifactEqual (artifactOf retained) artifact then Ok retained else Err ErrDefinitionCollision)
                                  | None => (retain kind revision chart s, Ok chart)
                                  end)
                end
            end
      end
  end.

Definition resolveRevision (i : nat) (ctx : option error) (kind : Identifier) (revision : string) : thread (result compiledChart) :=
  found ← reads (λ s, sy_charts s !! kind);
  match found with
  | None => mret (Err (Wrapf ("actors: chart " +:+ quote kind +:+ " was never Registered: ") ErrKindNotRegistered))
  | Some registry =>
      match cr_revisions registry !! revision with
      | Some chart => mret (Ok chart)
      | None => locked i (LPublish kind) (loadRevision ctx kind (cr_datamodel registry) revision)
      end
  end.

(** An actor of this process that can still execute the revision. *)
Definition referencedLocally (revision : string) (s : System) : bool :=
  existsb (λ name, match sy_table s !! name with
                   | Some e => ae_initialized e && bool_decide (ae_revision e = revision) && negb (ae_terminal e)
                   | None => false
                   end) (names s).

Definition collectError (kind : Identifier) (revision : string) : error :=
  Wrapf ("actors: CollectDefinition chart " +:+ quote kind +:+ " revision " +:+ quote revision +:+ ": ") ErrCurrentDefinition.

(** Whether there is anything to collect. *)
Definition collectible (ctx : option error) (kind : Identifier) (revision : string) (retained : bool) : thread (result bool) :=
  if retained then mret (Ok true)
  else
    reads (λ s, match sy_storage s with
                | None => Ok false
                | Some st =>
                    match st_GetDefinition ctx revision st with
                    | Err e => Err (Wrapf ("actors: CollectDefinition: inspect revision " +:+ quote revision +:+ ": ") e)
                    | Ok (Some artifact) => Ok (bool_decide (da_ChartID artifact = kind))
                    | Ok None => Ok false
                    end
                end).

Definition deleteStored (ctx : option error) (revision : string) : thread (result DefinitionDeleteResult) :=
  updates (λ s, match sy_storage s with
                | None => (s, Ok DefinitionDeleted)
                | Some st =>
                    match st_DeleteDefinition ctx revision st with
                    | Ok (st, r) => (sys_storage (Some st) s, Ok r)
                    | Err e => (s, Err (Wrapf ("actors: CollectDefinition: delete revision " +:+ quote revision +:+ ": ") e))
                    end
                end).

(** [delete(registry.revisions, revision)], unless it has become current. *)
Definition dropRevision (kind : Identifier) (revision : string) (result_ : DefinitionDeleteResult) : thread (result DefinitionDeleteResult) :=
  updates (λ s, match sy_charts s !! kind with
                | Some registry =>
                    if decide (cr_current registry = revision) then (s, Err (collectError kind revision))
                    else (sys_charts (<[kind := mkRegistry _ (cr_datamodel registry) (cr_current registry) (delete revision (cr_revisions registry))]>
                                        (sy_charts s)) s, Ok result_)
                | None => (s, Err (collectError kind revision))
                end).

(** What [CollectDefinition] does while it holds [publishMu]. *)
Definition collectLocked (ctx : option error) (kind : Identifier) (revision : string) : thread (result DefinitionDeleteResult) :=
  found ← follows (λ s, sy_charts s !! kind);
  if decide (cr_current found = revision) then mret (Err (collectError kind revision))
  else
    go ← collectible ctx kind revision (present (cr_revisions found !! revision));
    match go with
    | Err e => mret (Err e)
    | Ok false => mret (Ok DefinitionNotFound)
    | Ok true =>
        referenced ← reads (referencedLocally revision);
        if (referenced : bool) then mret (Ok DefinitionReferenced)
        else
          r ← deleteStored ctx revision;
          match r with
          | Err e => mret (Err e)
          | Ok DefinitionReferenced => mret (Ok DefinitionReferenced)
          | Ok r => dropRevision kind revision r
          end
    end.

Definition CollectDefinition (i : nat) (ctx : option error) (kind : Identifier) (revision : string) : thread (result DefinitionDeleteResult) :=
  found ← reads (λ s, sy_charts s !! kind);
  match found with
  | None => mret (Err (Wrapf ("actors: CollectDefinition: chart " +:+ quote kind +:+ " was never Registered: ") ErrKindNotRegistered))
  | Some _ => locked i (LPublish kind) (collectLocked ctx kind revision)
  end.


(** ** Spawn *)

Definition durabilityError (name : Identifier) (durable : bool) : error :=
  Wrapf ("actors: " +:+ quote name +:+ " durability is fixed at its first Spawn (durable=" +:+ (if durable then "true" else "false") +:+ "): ")
    ErrDurabilityMismatch.
Definition kindError (name kind want : Identifier) : error :=
  Wrapf ("actors: " +:+ quote name +:+ " was spawned as kind " +:+ quote kind +:+ ", not " +:+ quote want +:+ ": ") ErrKindMismatch.
Definition spawnError (name : Identifier) (e : error) : error := Wrapf ("actors: Spawn " +:+ quote name +:+ ": ") e.

Definition newEntry (name kind : Identifier) (revision : string) (durable : bool) (now : Z) : actorEntry :=
  if durable then mkActorEntry name kind "" "" zeroTime true false false false false 0 residencyPagedOutCode false None 0
  else mkActorEntry name kind revision name now false true false false false 0 residencyPagedOutCode false None 0.

(** One critical section of [tableMu]. *)
Definition entryFor (name kind : Identifier) (revision : string) (durable : bool) (s : System) : System * option error :=
  if sy_stopped s then (s, Some (Wrapf "actors: Spawn: " ErrSystemStopped))
  else
    match sy_table s !! name with
    | Some e =>
        if negb (ae_initialized e) then
          (s, if Bool.eqb (ae_durable e) durable then None else Some (durabilityError name (ae_durable e)))
        else if negb (bool_decide (ae_kind e = kind)) then (s, Some (kindError name (ae_kind e) kind))
        else (s, if Bool.eqb (ae_durable e) durable then None else Some (durabilityError name (ae_durable e)))
    | None =>
        let s := sys_table (<[name := newEntry name kind revision durable (sy_now s)]> (sy_table s)) s in
        let s := sys_actorIDsDirty true (sys_actorIDs (sy_actorIDs s ++ [name]) s) in
        (if durable then s else notifyDiscovered cfg name s, None)
    end.

Definition prepareDurableEntry (name kind : Identifier) (s : System) : option (System * option error) :=
  e ← sy_table s !! name;
  Some (if ae_initialized e then (s, if decide (ae_kind e = kind) then None else Some (kindError name (ae_kind e) kind))
        else (updateEntry name (en_kind kind) s, None)).

Definition validateSpawnMetadata (m : ActorMetadata) (name kind : Identifier) : result unit :=
  _ ← fail_if (negb (bool_decide (am_ActorID m = name)))
        (invalidMetadata ("storage returned actor ID " +:+ quote (am_ActorID m) +:+ " for " +:+ quote name));
  _ ← fail_if (negb (bool_decide (am_ChartID m = kind))) (kindError name (am_ChartID m) kind);
  _ ← fail_if (negb (am_Durable m)) ErrDurabilityMismatch;
  _ ← fail_if (bool_decide (am_Lifecycle m = ActorLifecycleTerminal)) ErrActorTerminal;
  metadataValidate m.

(** The actor's metadata is checked and its revision resolved. *)
Definition adopt (i : nat) (ctx : option error) (name kind : Identifier) (m : ActorMetadata) (startLive : bool) : thread (result (ActorMetadata * bool)) :=
  match validateSpawnMetadata m name kind with
  | Err e => mret (Err e)
  | Ok _ =>
      r ← resolveRevision i ctx kind (am_Revision m);
      match r with
      | Err e => mret (Err e)
      | Ok _ => mret (Ok (m, startLive))
      end
  end.

(** [BeginActor]; a collision is looked up again. *)
Definition beginActor (ctx : option error) (candidate : ActorMetadata) : thread (result (ActorMetadata * ActorBeginResult)) :=
  '(m, r) ← atomic (λ s, st ← sy_storage s; let '(st, r) := st_BeginActor ctx candidate st in Some (sys_storage (Some st) s, r));
  match r with
  | Ok r => mret (Ok (default zeroMetadata m, r))
  | Err e =>
      if negb (errorsIs e ErrActorCollision) then mret (Err e)
      else
        found ← follows (λ s, st_GetActor ctx (am_ActorID candidate) <$> sy_storage s);
        match found with
        | Err e => mret (Err e)
        | Ok None => mret (Err ErrActorCollision)
        | Ok (Some m) => mret (Ok (m, ActorAlreadyActive))
        end
  end.

Definition selectDurableActor (i : nat) (ctx : option error) (name kind : Identifier) (current : compiledChart) : thread (result (ActorMetadata * bool)) :=
  found ← follows (λ s, st_GetActor ctx name <$> sy_storage s);
  match found with
  | Err e => mret (Err e)
  | Ok (Some m) => adopt i ctx name kind m false
  | Ok None =>
      now ← reads sy_now;
      r ← beginActor ctx (mkActor name kind (cc_revision current) name true ActorLifecycleActive now zeroTime);
      match r with
      | Err e => mret (Err e)
      | Ok (m, begun) => adopt i ctx name kind m (match begun with ActorStarted => true | ActorAlreadyActive => false end)
      end
  end.

Definition pinDurableEntry (name : Identifier) (m : ActorMetadata) (startLive : bool) (s : System) : option (System * option error) :=
  e ← sy_table s !! name;
  Some (if ae_initialized e then
          if bool_decide (ae_revision e = am_Revision m) && bool_decide (ae_sessionID e = am_SessionID m)
          then (updateEntry name (en_startLive false) s, None)
          else (s, Some ErrActorCollision)
        else
          (notifyDiscovered cfg name
             (updateEntry name (λ e, en_startLive startLive (en_initialized true (en_startedAt (am_StartedAt m)
                                       (en_sessionID (am_SessionID m) (en_revision (am_Revision m) e))))) s), None)).

(** The selection of the current revision and the table insertion, under
    [publishMu]. *)
Definition spawnEntry (name kind : Identifier) (durable : bool) : thread (result compiledChart) :=
  registry ← follows (λ s, sy_charts s !! kind);
  match cr_revisions registry !! cr_current registry with
  | None => mret (Err (Wrapf ("actors: Spawn: current revision for kind " +:+ quote kind +:+ " is not retained: ") ErrDefinitionNotFound))
  | Some chart =>
      unsupported ← reads (λ s, durable && negb (present (sy_storage s)));
      if (unsupported : bool) then mret (Err (Wrapf "actors: Spawn: " ErrDurabilityUnsupported))
      else
        err ← updates (entryFor name kind (cc_revision chart) durable);
        mret (match err with Some e => Err e | None => Ok chart end)
  end.

(** The durable part of [Spawn], with [entry.mu] held. *)
Definition pinDurable (i : nat) (ctx : option error) (name kind : Identifier) (current : compiledChart) : thread (option error) :=
  err ← atomic (prepareDurableEntry name kind);
  match err with
  | Some e => mret (Some e)
  | None =>
      r ← selectDurableActor i ctx name kind current;
      match r with
      | Err e => mret (Some (spawnError name e))
      | Ok (m, startLive) =>
          err ← atomic (pinDurableEntry name m startLive);
          mret (spawnError name <$> err)
      end
  end.

Definition spawnLocked (i : nat) (ctx : option error) (name kind : Identifier) (durable : bool) (chart : compiledChart) : thread (option error) :=
  e ← entryOf name;
  if ae_terminal e then mret (Some (spawnError name ErrActorTerminal))
  else
    err ← (if durable then pinDurable i ctx name kind chart else mret None);
    match err with
    | Some e => mret (Some e)
    | None => activateLocked i ctx name
    end.

Definition Spawn (i : nat) (ctx : option error) (name kind : Identifier) (durable : bool) : thread (option error) :=
  stopped ← reads sy_stopped;
  if (stopped : bool) then mret (Some (Wrapf "actors: Spawn: " ErrSystemStopped))
  else
    match NewIdentifier name with
    | Err e => mret (Some (Wrapf ("actors: Spawn: " +:+ quote name +:+ ": " +:+ msg e +:+ ": ") ErrInvalidActorID))
    | Ok _ =>
        found ← reads (λ s, sy_charts s !! kind);
        match found with
        | None => mret (Some (Wrapf ("actors: Spawn: kind " +:+ quote kind +:+ " was never Registered: ") ErrKindNotRegistered))
        | Some _ =>
            r ← locked i (LPublish kind) (spawnEntry name kind durable);
            match r with
            | Err e => mret (Some e)
            | Ok chart => locked i (LEntry name) (spawnLocked i ctx name kind durable chart)
            end
        end
    end.

(** ** Delivery *)

Definition terminalError (target : Identifier) : error := Wrapf ("actors: " +:+ quote target +:+ ": ") ErrActorTerminal.

(** Activates the actor and gives its instance. *)
Definition reactivate (i : nat) (ctx : option error) (target name : Identifier) : thread (result nat) :=
  err ← activateLocked i ctx name;
  match err with
  | Some e => mret (Err e)
  | None =>
      e ← entryOf name;
      if ae_terminal e then mret (Err (terminalError target))
      else match ae_instance e with Some act => mret (Ok act) | None => stuck end
  end.

(** The live instance: a finished one is evicted first. *)
Definition acquireInstance (i : nat) (ctx : option error) (target name : Identifier) : thread (result nat) :=
  e ← entryOf name;
  live ← match ae_instance e with
         | None => mret None
         | Some act =>
             finished ← reads (instanceFinished act);
             if (finished : bool) then evictLocked None name ≫= λ _, mret None else mret (Some act)
         end;
  match live with
  | Some act => mret (Ok act)
  | None =>
      if negb (ae_durable e)
      then mret (Err (Errorf ("actors: " +:+ quote target +:+ " is not resident (non-durable actors are never paged back in)")))
      else reactivate i ctx target name
  end.

(** The write-ahead record of an identified event: [None] if it is a duplicate. *)
Definition recordIngress (i : nat) (ctx : option error) (target name : Identifier) (sid : string) (ev : Event) (act : nat)
    : thread (result (option nat)) :=
  r ← atomic (λ s, onStorage (st_AppendIngress ctx (mkEntry sid 0 KindExternalEvent (sy_now s) ev "" "" "") (DeliveryID ev)) s);
  match r with
  | Err e => mret (Err (Wrapf ("actors: append " +:+ quote name +:+ ": ") e))
  | Ok (_, false) => mret (Ok None)
  | Ok (_, true) =>
      e ← entryOf name;
      finished ← reads (instanceFinished act);
      if ae_terminal e || finished then
        _ ← evictLocked None name;
        e ← entryOf name;
        if ae_terminal e then mret (Err (terminalError target))
        else
          r ← reactivate i ctx target name;
          mret (match r with Ok act => Ok (Some act) | Err e => Err e end)
      else mret (Ok (Some act))
  end.

(** [inst.Deliver], and the eviction of an instance that it finished. *)
Definition applyEvent (i : nat) (ctx : option error) (name : Identifier) (ev : Event) (act : nat) : thread (option error) :=
  err ← Deliver i act ctx ev;
  finished ← reads (instanceFinished act);
  _ ← (if (finished : bool) then evictLocked None name ≫= λ _, mret () else mret ());
  mret err.

Definition deliverLocked (i : nat) (ctx : option error) (target name : Identifier) (ev : Event) : thread (option error) :=
  e ← entryOf name;
  if ae_terminal e then mret (Some (terminalError target))
  else
    r ← acquireInstance i ctx target name;
    match r with
    | Err e => mret (Some e)
    | Ok act =>
        if ae_durable e && negb (bool_decide (DeliveryID ev = "")) then
          r ← recordIngress i ctx target name (ae_sessionID e) ev act;
          match r with
          | Err e => mret (Some e)
          | Ok None => mret None
          | Ok (Some act) =>
              _ ← writes (λ s, sys_delivered (sy_delivered s ++ [(ae_sessionID e, DeliveryID ev)]) s);
              applyEvent i ctx name ev act
          end
        else applyEvent i ctx name ev act
    end.

Definition deliver (i : nat) (ctx : option error) (target : Identifier) (ev : Event) : thread (option error) :=
  stopped ← reads sy_stopped;
  if (stopped : bool) then mret (Some (Wrapf ("actors: " +:+ quote target +:+ ": ") ErrSystemStopped))
  else
    found ← reads (resolveTarget cfg target);
    match found with
    | None => mret (Some (Wrapf ("actors: unknown actor " +:+ quote target +:+ ": ") ErrUnknownActor))
    | Some name => locked i (LEntry name) (deliverLocked i ctx target name ev)
    end.

Definition Tell := deliver.

Definition failureEvent (sendID target : Identifier) (cause : error) : Event :=
  mkEvent ErrEventCommunication EventPlatform
    (PlatformErrorValue ErrEventCommunication (Some (Wrapf ("actors: deliver to " +:+ quote target +:+ " failed: ") cause))) sendID "" "" "" "".

(** The origin is the sending instance. *)
Definition reportDeliveryFailure (i origin : nat) (sendID target : Identifier) (cause : error) : thread () :=
  Deliver i origin None (failureEvent sendID target cause) ≫= λ _, mret ().

Definition deliverAsync (i : nat) (target : Identifier) (ev : Event) (origin : nat) (sendID : Identifier) : thread () :=
  err ← deliver i None target ev;
  match err with
  | Some e => reportDeliveryFailure i origin sendID target e
  | None => mret ()
  end.

(** ** The dispatcher *)

Definition runJob (i : nat) (j : job) : thread () :=
  match j with
  | JobDeliver target ev origin sendID => deliverAsync i target ev origin sendID
  | JobAck act typ req target ev =>
      err ← deliver i None target ev;
      atomic (λ s, a ← sy_activations s !! act; s ← completeSend cfg act a typ req err s; Some (s, ()))
  | JobIngress name ev => deliver i None name ev ≫= λ _, mret ()
  end.

(** One round of [runDispatcher]: the oldest job is taken and run; the single
    worker is the lock [LWorker]. *)
Definition dispatchNext (i : nat) : thread () :=
  locked i LWorker
    (j ← atomic (λ s, match sy_dispatchQueue s with
                      | j :: rest => if sy_dispatchRunning s then Some (sys_dispatchQueue rest s, j) else None
                      | [] => None
                      end);
     runJob i j).

(** Its end. *)
Definition dispatcherExit (i : nat) : thread () :=
  locked i LWorker
    (atomic (λ s, match sy_dispatchQueue s with
                  | [] => if sy_dispatchClosed s && sy_dispatchRunning s then Some (sys_dispatchDone true s, ()) else None
                  | _ => None
                  end)).

(** The goroutine of [reapTerminalWhenDone]. *)
Definition reapTerminal (i : nat) (name : Identifier) (act : nat) : thread () :=
  _ ← atomic (λ s, if decide ((name, act) ∈ sy_reapers s) then
                     if instanceFinished act s then Some (sys_reapers (filter (λ x, x ≠ (name, act)) (sy_reapers s)) s, ()) else None
                   else None);
  locked i (LEntry name)
    (e ← entryOf name;
     if decide (ae_instance e = Some act) then evictLocked None name ≫= λ _, mret () else mret ()).

(** ** The idle sweep *)

Definition armSweep : thread () :=
  writes (λ s, if sy_stopped s || bool_decide (cf_idleTimeout cfg ≤ 0)%Z then s else sys_sweep (Some (sy_now s + cf_idleTimeout cfg)%Z) s).

Definition idleActors (s : System) : list Identifier :=
  List.filter (λ name, match sy_table s !! name with
                       | Some e => ae_durable e && present (ae_instance e)
                                   && bool_decide (cf_idleTimeout cfg ≤ timeSub (sy_now s) (timeUnix (ae_lastActive e)))%Z
                       | None => false
                       end) (names s).

Definition sweepError (name : Identifier) (e : error) : thread () :=
  if cf_onSweepError cfg then writes (λ s, sys_calls (sy_calls s ++ [CallSweepError name e]) s) else mret ().

Definition sweepOne (i : nat) (name : Identifier) : thread () :=
  got ← tryAcquire i (LEntry name);
  if (got : bool) then
    e ← entryOf name;
    _ ← match ae_instance e with
        | None => mret ()
        | Some act =>
            r ← HasActiveInvokes act None;
            match r with
            | Err e => sweepError name e
            | Ok true => mret ()
            | Ok false =>
                err ← evictLocked None name;
                match err with Some e => sweepError name e | None => mret () end
            end
        end;
    release (LEntry name)
  else mret ().

(** [runSweep], when its timer fires. *)
Definition runSweep (i : nat) : thread () :=
  _ ← atomic (λ s, match sy_sweep s with Some due => if decide (due ≤ sy_now s)%Z then Some (sys_sweep None s, ()) else None | None => None end);
  stopped ← reads sy_stopped;
  if (stopped : bool) then mret ()
  else
    _ ← reapFinished i;
    idle ← reads idleActors;
    _ ← each idle (sweepOne i);
    armSweep.

(** ** Stop *)

(** [CompareAndSwap] and the snapshot of the table, in one critical section; a
    goroutine is started for every entry.  The result is whether this call is
    the first. *)
Definition beginStop (i : nat) (ctx : option error) : thread bool :=
  updates (λ s, (sys_stops (<[i := mkStop ctx (names s) [] []]> (sy_stops s)) (sys_stopped true s), negb (sy_stopped s))).

Definition updateStop (k : nat) (f : stopCall → stopCall) (s : System) : System := sys_stops (alter f k (sy_stops s)) s.

(** The goroutine of the entry [name] of the stop call [k]. *)
Definition stopEntry (i k : nat) (name : Identifier) : thread () :=
  ctx ← atomic (λ s, c ← sy_stops s !! k;
                     if decide (name ∈ sc_waiting c)
                     then Some (updateStop k (λ c, mkStop (sc_ctx c) (filter (λ n, n ≠ name) (sc_waiting c)) (name :: sc_running c) (sc_errs c)) s, sc_ctx c)
                     else None);
  err ← locked i (LEntry name)
          (e ← entryOf name;
           match ae_instance e with
           | None => mret None
           | Some act =>
               if ae_durable e then evictLocked ctx name
               else
                 err ← Stop_ act ctx;
                 match err with
                 | Some err => mret (Some err)
                 | None => pageOut name ≫= λ _, mret None
                 end
           end);
  writes (updateStop k (λ c, mkStop (sc_ctx c) (sc_waiting c) (filter (λ n, n ≠ name) (sc_running c)) (sc_errs c ++ match err with Some e => [e] | None => [] end))).

(** The two waits of [Stop]: each ends when its work is done or, if [expires],
    with the context's error.  The errors recorded by the goroutines are read
    when they are done, or when they are given up. *)
Definition awaitEntries (i : nat) (expires : option error) : thread (list error) :=
  atomic (λ s, c ← sy_stops s !! i;
               match sc_waiting c, sc_running c with
               | [], [] => Some (s, sc_errs c)
               | _, _ => e ← expires; Some (s, sc_errs c ++ [e])
               end).
Definition awaitDispatcher (expires : option error) : thread (list error) :=
  atomic (λ s, if negb (sy_dispatchRunning s) || sy_dispatchDone s then Some (s, []) else e ← expires; Some (s, [e])).

(** The errors that [errors.Join] joins; an empty list is nil. *)
Definition Stop (i : nat) (ctx expires : option error) : thread (list error) :=
  firstStop ← beginStop i ctx;
  _ ← (if (firstStop : bool) then
         _ ← writes (λ s, sys_observers (closeObservationSubscriptions (sy_observers s)) s);
         _ ← writes closeDispatcher;
         writes (sys_sweep None)
       else mret ());
  errs ← awaitEntries i expires;
  errs' ← awaitDispatcher expires;
  mret (errs ++ errs').

(** ** Subscriptions and the clock *)

Definition Subscribe (buffer : Z) : thread (result N) :=
  updates (λ s, let '(o, r) := SubscribeObservations (sy_stopped s) buffer (sy_observers s) in (sys_observers o s, r)).
Definition CloseSubscription (id : N) : thread () := writes (λ s, sys_observers (closeSubscription id (sy_observers s)) s).
Definition Receive (id : N) : thread () := atomic (λ s, o ← receive id (sy_observers s); Some (sys_observers o s, ())).
Definition Tick (d : N) : thread () := writes (λ s, sys_now (sy_now s + Z.of_N d)%Z s).

End actors.
