(* ===== verification/ActorCore.v ===== *)
(** * The actor system: what its goroutines guarantee to each other

    [core] is the part of a [System] that the concurrency of its operations is
    about: charts, identities and instances of actors, storage, locks.  [Inv] is
    the invariant of the system and [Guar] what one action of goroutine [i] may
    do; both are about cores, so an action that leaves the core alone (a
    notification, a queued job, a clock tick) keeps them without further proof. *)

From S2P Require Import Prelude Identifier Storage Values Events Datamodel Chart Interp Steps Definitions Validate Compile Artifact.
From S2P Require Import Snapshot Instance Replay Memory Outbox Threads Observation Routing ActorStore System.
From stdpp Require Import options.

(** What an entry says about its actor's identity and life. *)
Record entryCore := mkEntryCore {
  ec_kind : Identifier;
  ec_revision : string;
  ec_sessionID : string;
  ec_durable : bool;
  ec_initialized : bool;
  ec_terminal : bool;
  ec_instance : option nat
}.

Definition coreOf (e : actorEntry) : entryCore :=
  mkEntryCore (ae_kind e) (ae_revision e) (ae_sessionID e) (ae_durable e) (ae_initialized e) (ae_terminal e) (ae_instance e).

Section core.
Context `{DM : DatamodelSession} {L : Type} {Inst : Type}.

Record sysCore := mkCore {
  co_charts : gmap Identifier chartRegistry;
  co_table : gmap Identifier entryCore;
  co_storage : option L;
  co_stopped : bool;
  co_locks : gmap lock nat;
  co_activating : gmap Identifier nat;
  co_stops : gmap nat stopCall;
  co_delivered : list (string * string)
}.

Definition core (s : @System DM L Inst) : sysCore :=
  mkCore (sy_charts s) (coreOf <$> sy_table s) (sy_storage s) (sy_stopped s) (sy_locks s) (sy_activating s) (sy_stops s) (sy_delivered s).

Definition residentsOf (t : gmap Identifier entryCore) : gset Identifier := dom (filter (λ '(_, e), is_Some (ec_instance e)) t).

Lemma residents_core s : residents s = residentsOf (co_table (core s)).
Proof.
  unfold residents, residentsOf. apply set_eq. intros n. rewrite !elem_of_dom. unfold is_Some at 1 4. setoid_rewrite map_lookup_filter_Some.
  cbn. setoid_rewrite lookup_fmap_Some. split.
  - intros (e & He & Hi). exists (coreOf e). eauto.
  - intros (x & (e & <- & He) & Hi). eauto.
Qed.

Definition instanceIn (n : Identifier) (c : sysCore) : option nat := co_table c !! n ≫= ec_instance.

Lemma instanceOf_core n s : instanceOf n s = instanceIn n (core s).
Proof. unfold instanceOf, instanceIn. cbn. rewrite lookup_fmap. by destruct (sy_table s !! n). Qed.

(** A chart's revision is retained. *)
Definition retained (kind : Identifier) (revision : string) (c : sysCore) : Prop :=
  ∃ r, co_charts c !! kind = Some r ∧ is_Some (cr_revisions r !! revision).

Context `{AS : !ActorStorage L} `{SV : !StorageView L} (ok : L → Prop) `{AL : !ActorStorageLaws L ok}.
Variable cfg : systemConfig.

(** The limit of [WithMaxResident n]. *)
Definition limits (n : Z) : Prop := cf_residencyLimit cfg = Some (λ resident, bool_decide (n ≤ Z.of_nat resident)%Z).

(** No live instance, and none to come from an activation under way. *)
Definition settled (c : sysCore) (n : Identifier) : Prop := instanceIn n c = None ∧ co_activating c !! n = None.

(** An actor that can still execute its revision: it has been pinned and has not
    completed, here or, if it is durable, in storage. *)
Definition live (c : sysCore) (n : Identifier) (e : entryCore) : Prop :=
  ec_initialized e = true ∧ ec_terminal e = false ∧
  (ec_durable e = true → ∃ st, co_storage c = Some st ∧ activeActor st n (ec_kind e) (ec_revision e)).

Record Inv (c : sysCore) : Prop := {
  inv_names n : is_Some (co_table c !! n) → is_Ok (NewIdentifier n);
  inv_activating n j : co_activating c !! n = Some j → co_locks c !! LEntry n = Some j;
  inv_current k r : co_charts c !! k = Some r → is_Some (cr_revisions r !! cr_current r);
  inv_keyed k r revision chart : co_charts c !! k = Some r → cr_revisions r !! revision = Some chart → cc_revision chart = revision;
  inv_pinned n e : co_table c !! n = Some e → live c n e → retained (ec_kind e) (ec_revision e) c;
  inv_storage st : co_storage c = Some st → ok st;
  inv_stored n e : co_table c !! n = Some e → ec_initialized e = true → ec_durable e = true →
    ∃ st m, co_storage c = Some st ∧ sv_actors st !! n = Some m ∧ am_SessionID m = ec_sessionID e;
  inv_stops k x : co_stops c !! k = Some x → co_stopped c = true ∧
    (sc_errs x = [] → ∀ n, is_Some (co_table c !! n) → settled c n ∨ n ∈ sc_waiting x ∨ n ∈ sc_running x);
  inv_residents n : limits n → (Z.of_nat (size (residentsOf (co_table c))) ≤ Z.max 0 n)%Z;
  inv_delivered : NoDup (co_delivered c);
  inv_recorded sid d : (sid, d) ∈ co_delivered c → ∃ st, co_storage c = Some st ∧ sv_recorded st sid d
}.

(** How an entry may change: its identity is fixed once it is initialized. *)
Record frozen (i : nat) (c : sysCore) (n : Identifier) (e e' : entryCore) : Prop := {
  fr_durable : ec_durable e' = ec_durable e;
  fr_initialized : ec_initialized e = true →
    ec_initialized e' = true ∧ ec_kind e' = ec_kind e ∧ ec_revision e' = ec_revision e ∧ ec_sessionID e' = ec_sessionID e;
  fr_terminal : ec_terminal e = true → ec_terminal e' = true;
  fr_kind : ec_kind e' ≠ ec_kind e → co_locks c !! LEntry n = Some i;
  fr_pinned : ec_initialized e' ≠ ec_initialized e → co_locks c !! LEntry n = Some i ∧ ec_durable e = true;
  fr_instance : ec_instance e' ≠ ec_instance e → co_locks c !! LEntry n = Some i;
  fr_resident : is_Some (ec_instance e') → ec_instance e' = ec_instance e ∨ (co_locks c !! LAdmission = Some i ∧ co_activating c !! n = Some i)
}.

Record storageStep (i : nat) (c : sysCore) (st st' : L) : Prop := {
  ss_definition k r : hasDefinition st' k r → hasDefinition st k r ∨ co_locks c !! LPublish k = Some i;
  ss_active n k r : activeActor st' n k r → activeActor st n k r ∨ (sv_actors st !! n = None ∧ hasDefinition st k r);
  ss_recorded sid d : sv_recorded st sid d → sv_recorded st' sid d;
  ss_identity n m : sv_actors st !! n = Some m → ∃ m', sv_actors st' !! n = Some m' ∧ sameIdentityAs m m'
}.

(** Nothing between two registries that one goroutine may not do alone. *)
Definition sameCharts (i : nat) (c c' : sysCore) : Prop :=
  ∀ k r, co_charts c !! k = Some r → ∃ r', co_charts c' !! k = Some r' ∧ cr_datamodel r' = cr_datamodel r ∧
    (co_locks c !! LPublish k = Some i ∨ r' = r).

Record Guar (i : nat) (c c' : sysCore) : Prop := {
  gu_locks l j : j ≠ i → co_locks c !! l = Some j ↔ co_locks c' !! l = Some j;
  gu_stopped : co_stopped c = true → co_stopped c' = true;
  gu_table n e : co_table c !! n = Some e → ∃ e', co_table c' !! n = Some e' ∧ frozen i c n e e';
  gu_new n e' : co_table c !! n = None → co_table c' !! n = Some e' → co_stopped c = false ∧ ec_instance e' = None ∧ ec_terminal e' = false ∧
    (ec_initialized e' = true → ec_durable e' = false ∧ co_locks c !! LPublish (ec_kind e') = Some i);
  gu_activating n j : co_activating c' !! n = Some j → co_activating c !! n = Some j ∨ (co_stopped c = false ∧ co_locks c !! LEntry n = Some i);
  gu_own n j : j ≠ i → co_activating c !! n = Some j → co_activating c' !! n = Some j;
  gu_charts : sameCharts i c c';
  gu_dropped k revision : retained k revision c → retained k revision c' ∨
    (co_locks c !! LPublish k = Some i ∧ ∀ st n, co_storage c = Some st → ¬ activeActor st n k revision);
  gu_storage st : co_storage c = Some st → ∃ st', co_storage c' = Some st' ∧ storageStep i c st st';
  gu_no_storage : co_storage c = None → co_storage c' = None;
  gu_delivered sid d : (sid, d) ∈ co_delivered c' → (sid, d) ∈ co_delivered c ∨
    ∃ n e, co_locks c !! LEntry n = Some i ∧ co_table c !! n = Some e ∧ ec_initialized e = true ∧ ec_durable e = true ∧ ec_sessionID e = sid
}.

(** ** Actions that keep the invariant and the guarantee *)

Lemma frozen_refl i c n e : frozen i c n e e.
Proof using Type. by split; auto. Qed.
Lemma storageStep_refl i c st : storageStep i c st st.
Proof using Type. split; eauto. intros n m Hm. exists m. by repeat split. Qed.
Lemma sameView_step i c st st' : sameView st st' → storageStep i c st st'.
Proof using Type.
  intros [Ha Hd Hr]. split.
  - unfold hasDefinition. rewrite Hd. auto.
  - unfold activeActor. rewrite Ha. auto.
  - intros sid d. by rewrite Hr.
  - intros n m. rewrite Ha. exists m. by repeat split.
Qed.
#[local] Hint Resolve frozen_refl storageStep_refl : core.

(** The parts of [Guar] that an action does not touch. *)
Ltac guar_rest :=
  split; cbn; try solve [done | by eauto | by intros; congruence | intros ?? H; eexists; split_and!; [exact H|done|by right] ].

Lemma Guar_refl i c : Guar i c c.
Proof using Type. guar_rest. Qed.

(** A lock is taken, or given back. *)
Lemma step_acquire i l c : Inv c → co_locks c !! l = None →
  let c' := mkCore (co_charts c) (co_table c) (co_storage c) (co_stopped c) (<[l := i]> (co_locks c)) (co_activating c) (co_stops c) (co_delivered c) in
  Inv c' ∧ Guar i c c'.
Proof using Type.
  intros HI Hl. split.
  - split; cbn; try apply HI. intros n j Hn. apply (inv_activating c HI) in Hn. rewrite lookup_insert_ne; [done|]. congruence.
  - guar_rest. intros l' j Hj. rewrite lookup_insert_Some. split; [|naive_solver]. intros ?. right. split; [congruence|done].
Qed.

Lemma step_release i l c : Inv c → co_locks c !! l = Some i → (∀ n, l = LEntry n → co_activating c !! n = None) →
  let c' := mkCore (co_charts c) (co_table c) (co_storage c) (co_stopped c) (delete l (co_locks c)) (co_activating c) (co_stops c) (co_delivered c) in
  Inv c' ∧ Guar i c c'.
Proof using Type.
  intros HI Hl Hn. split.
  - split; cbn; try apply HI. intros n j Hj. rewrite lookup_delete_ne; [by apply (inv_activating c HI)|]. intros ->. by rewrite (Hn n) in Hj.
  - guar_rest. intros l' j Hj. rewrite lookup_delete_Some. split; [|naive_solver]. intros H. split; [|done]. congruence.
Qed.

(** The table with one entry changed. *)
Definition setEntry (n : Identifier) (e : entryCore) (c : sysCore) : sysCore :=
  mkCore (co_charts c) (<[n := e]> (co_table c)) (co_storage c) (co_stopped c) (co_locks c) (co_activating c) (co_stops c) (co_delivered c).

Lemma instanceIn_setEntry n e c m : instanceIn m (setEntry n e c) = if decide (n = m) then ec_instance e else instanceIn m c.
Proof using Type. unfold instanceIn. cbn. case_decide as E; [subst; by rewrite lookup_insert_eq|by rewrite lookup_insert_ne]. Qed.

Lemma elem_residents t n : n ∈ residentsOf t ↔ ∃ e, t !! n = Some e ∧ is_Some (ec_instance e).
Proof using Type. unfold residentsOf. rewrite elem_of_dom. unfold is_Some at 1. setoid_rewrite map_lookup_filter_Some. naive_solver. Qed.

(** Fewer residents than before. *)
Lemma residents_mono t t' : (∀ n e', t' !! n = Some e' → is_Some (ec_instance e') → ∃ e, t !! n = Some e ∧ is_Some (ec_instance e)) →
  size (residentsOf t') ≤ size (residentsOf t).
Proof using Type. intros H. apply subseteq_size. intros n. rewrite !elem_residents. naive_solver. Qed.

(** An entry keeps its identity, and no instance appears. *)
Lemma step_entry i n e e' c : Inv c → co_table c !! n = Some e → frozen i c n e e' → ec_initialized e' = ec_initialized e →
  ec_kind e' = ec_kind e ∨ ec_initialized e = false → (ec_instance e' = ec_instance e ∨ ec_instance e' = None) →
  Inv (setEntry n e' c) ∧ Guar i c (setEntry n e' c).
Proof using Type.
  intros HI He Hf Hinit Hkind Hinst. assert (∀ m, instanceIn m (setEntry n e' c) = instanceIn m c ∨ instanceIn m (setEntry n e' c) = None) as Hin.
  { intros m. rewrite instanceIn_setEntry. case_decide as E; [subst m|by left]. unfold instanceIn. rewrite He. cbn. naive_solver. }
  split.
  - split; cbn; try apply HI.
    + intros m [<-|Hm]%lookup_insert_is_Some'; [apply (inv_names c HI); by rewrite He|by apply (inv_names c HI)].
    + intros m x [[<- <-]|[Hm Hx]]%lookup_insert_Some Hl; [|by apply (inv_pinned c HI m x)].
      destruct Hl as (H1 & H2 & H3). rewrite Hinit in H1. destruct (fr_initialized _ _ _ _ _ Hf H1) as (_ & -> & -> & _).
      apply (inv_pinned c HI n e He). split_and!; [done|destruct (ec_terminal e) eqn:Et; [|done]; by rewrite (fr_terminal _ _ _ _ _ Hf Et) in H2|].
      rewrite <- (fr_durable _ _ _ _ _ Hf). intros Hd. destruct (H3 Hd) as (st & ? & ?). exists st. split; [done|].
      by destruct (fr_initialized _ _ _ _ _ Hf H1) as (_ & <- & <- & _).
    + intros m x [[<- <-]|[Hm Hx]]%lookup_insert_Some H1 H2; [|by apply (inv_stored c HI m x)]. rewrite Hinit in H1.
      destruct (fr_initialized _ _ _ _ _ Hf H1) as (_ & _ & _ & ->). rewrite (fr_durable _ _ _ _ _ Hf) in H2. by apply (inv_stored c HI n e).
    + intros k x Hk. destruct (inv_stops c HI k x Hk) as [Hs Hset]. split; [done|]. intros Herr m Hm.
      assert (is_Some (co_table c !! m)) as Hm'. { apply lookup_insert_is_Some' in Hm as [<-|?]; [by eexists|done]. }
      destruct (Hset Herr m Hm') as [[H1 H2]|?]; [|by right]. left. split; [|done]. destruct (Hin m) as [->| ->]; done.
    + intros k Hk. etransitivity; [|by apply (inv_residents c HI k)]. apply inj_le, residents_mono.
      intros m x [[<- <-]|[Hm Hx]]%lookup_insert_Some Hx'; [|eauto]. exists e. split; [done|]. destruct Hinst as [<-|E]; [done|]. rewrite E in Hx'. by destruct Hx'.
  - guar_rest.
    + intros m x Hx. destruct (decide (n = m)) as [<-|Hne]; [|exists x; rewrite lookup_insert_ne by done; auto].
      rewrite He in Hx. injection Hx as <-. exists e'. by rewrite lookup_insert_eq.
    + intros m x Hm Hx. rewrite lookup_insert_Some in Hx. destruct Hx as [[<- _]|[_ Hx]]; congruence.
Qed.

(** An activation that has room and the locks publishes its instance. *)
Lemma step_publish i n e act c : Inv c → co_table c !! n = Some e → co_locks c !! LEntry n = Some i → co_locks c !! LAdmission = Some i →
  co_activating c !! n = Some i → (∀ k, limits k → (Z.of_nat (size (residentsOf (co_table c))) < k)%Z) →
  let e' := mkEntryCore (ec_kind e) (ec_revision e) (ec_sessionID e) (ec_durable e) (ec_initialized e) (ec_terminal e) (Some act) in
  Inv (setEntry n e' c) ∧ Guar i c (setEntry n e' c).
Proof using Type.
  intros HI He Hl Ha Hact Hroom e'. split.
  - split; cbn; try apply HI.
    + intros m [<-|Hm]%lookup_insert_is_Some'; [apply (inv_names c HI); by rewrite He|by apply (inv_names c HI)].
    + intros m x [[<- <-]|[Hm Hx]]%lookup_insert_Some Hlive; [by apply (inv_pinned c HI n e)|by apply (inv_pinned c HI m x)].
    + intros m x [[<- <-]|[Hm Hx]]%lookup_insert_Some; [by apply (inv_stored c HI n e)|by apply (inv_stored c HI m x)].
    + intros k x Hk. destruct (inv_stops c HI k x Hk) as [Hs Hset]. split; [done|]. intros Herr m Hm.
      assert (is_Some (co_table c !! m)) as Hm'. { apply lookup_insert_is_Some' in Hm as [<-|?]; [by eexists|done]. }
      destruct (Hset Herr m Hm') as [[H1 H2]|?]; [|by right]. left. split; [|done]. rewrite instanceIn_setEntry. case_decide; [congruence|done].
    + intros k Hk. assert (residentsOf (<[n:=e']> (co_table c)) ⊆ {[n]} ∪ residentsOf (co_table c)) as Hsub.
      { intros m. rewrite elem_of_union, elem_of_singleton, !elem_residents. intros (x & [[<- _]|[_ Hx]]%lookup_insert_Some & ?); eauto. }
      apply subseteq_size in Hsub. pose proof (size_union_alt (C:=gset Identifier) {[n]} (residentsOf (co_table c))) as Hu.
      assert (size ({[n]} ∪ residentsOf (co_table c)) ≤ S (size (residentsOf (co_table c)))).
      { rewrite Hu, size_singleton. assert (size (residentsOf (co_table c) ∖ {[n]}) ≤ size (residentsOf (co_table c))); [|lia]. apply subseteq_size. by intros x [? _]%elem_of_difference. }
      specialize (Hroom k Hk). lia.
  - guar_rest.
    + intros m x Hx. destruct (decide (n = m)) as [<-|Hne]; [|exists x; rewrite lookup_insert_ne by done; auto].
      rewrite He in Hx. injection Hx as <-. exists e'. rewrite lookup_insert_eq. split; [done|]. by split; cbn; auto.
    + intros m x Hm Hx. rewrite lookup_insert_Some in Hx. destruct Hx as [[<- _]|[_ Hx]]; congruence.
Qed.

(** The ghost of an activation under way. *)
Lemma step_begin_activating i n c : Inv c → co_stopped c = false → co_locks c !! LEntry n = Some i →
  let c' := mkCore (co_charts c) (co_table c) (co_storage c) (co_stopped c) (co_locks c) (<[n := i]> (co_activating c)) (co_stops c) (co_delivered c) in
  Inv c' ∧ Guar i c c'.
Proof using Type.
  intros HI Hs Hl. split.
  - split; cbn; try apply HI.
    + intros m j [[<- <-]|[_ Hm]]%lookup_insert_Some; [done|by apply (inv_activating c HI)].
    + intros k x Hk. destruct (inv_stops c HI k x Hk) as [H _]. congruence.
  - guar_rest.
    + intros m j [[<- <-]|[_ Hm]]%lookup_insert_Some; auto.
    + intros m j Hj Hm. rewrite lookup_insert_ne; [done|]. intros <-. apply (inv_activating c HI) in Hm. congruence.
Qed.

Lemma step_end_activating i n c : Inv c → co_locks c !! LEntry n = Some i →
  let c' := mkCore (co_charts c) (co_table c) (co_storage c) (co_stopped c) (co_locks c) (delete n (co_activating c)) (co_stops c) (co_delivered c) in
  Inv c' ∧ Guar i c c'.
Proof using Type.
  intros HI Hl. split.
  - split; cbn; try apply HI.
    + intros m j [_ Hm]%lookup_delete_Some. by apply (inv_activating c HI).
    + intros k x Hk. destruct (inv_stops c HI k x Hk) as [Hs Hset]. split; [done|]. intros Herr m Hm. destruct (Hset Herr m Hm) as [[H1 H2]|?]; [|by right].
      left. split; [done|]. cbn. apply lookup_delete_None. auto.
  - guar_rest.
    + intros m j [_ Hm]%lookup_delete_Some. auto.
    + intros m j Hj Hm. apply lookup_delete_Some. split; [|done]. intros <-. apply (inv_activating c HI) in Hm. congruence.
Qed.

(** A new entry: an ephemeral actor pinned to the current revision, or a durable
    one that is not initialized. *)
Lemma step_new_entry i n e c : Inv c → is_Ok (NewIdentifier n) → co_stopped c = false → co_table c !! n = None → ec_instance e = None → ec_terminal e = false →
  (ec_initialized e = true → ec_durable e = false ∧ co_locks c !! LPublish (ec_kind e) = Some i ∧ retained (ec_kind e) (ec_revision e) c) →
  Inv (setEntry n e c) ∧ Guar i c (setEntry n e c).
Proof using Type.
  intros HI Hname Hs Hn Hinst Hterm Hinit. split.
  - split; cbn; try apply HI.
    + intros m [<-|Hm]%lookup_insert_is_Some'; [done|by apply (inv_names c HI)].
    + intros m x [[<- <-]|[Hm Hx]]%lookup_insert_Some Hl; [|by apply (inv_pinned c HI m x)]. destruct Hl as [Hi _]. by destruct (Hinit Hi) as (_ & _ & ?).
    + intros m x [[<- <-]|[Hm Hx]]%lookup_insert_Some Hi Hd; [|by apply (inv_stored c HI m x)]. destruct (Hinit Hi) as (? & _ & _). congruence.
    + intros k x Hk. destruct (inv_stops c HI k x Hk). congruence.
    + intros k Hk. etransitivity; [|by apply (inv_residents c HI k)]. apply inj_le, residents_mono.
      intros m x [[<- <-]|[Hm Hx]]%lookup_insert_Some Hx'; [|eauto]. rewrite Hinst in Hx'. by destruct Hx'.
  - guar_rest.
    + intros m x Hx. exists x. rewrite lookup_insert_ne by congruence. auto.
    + intros m x Hm [[<- <-]|[_ Hx]]%lookup_insert_Some; [|congruence]. split_and!; [done..|]. intros Hi. by destruct (Hinit Hi) as (? & ? & _).
Qed.

(** A durable entry is pinned to what storage says, its revision retained. *)
Lemma step_pin i n e e' st m c : Inv c → co_table c !! n = Some e → co_locks c !! LEntry n = Some i →
  ec_initialized e = false → ec_durable e = true → co_storage c = Some st → sv_actors st !! n = Some m → ec_sessionID e' = am_SessionID m →
  ec_durable e' = true → ec_initialized e' = true → ec_terminal e' = ec_terminal e → ec_instance e' = ec_instance e →
  (activeActor st n (ec_kind e') (ec_revision e') → retained (ec_kind e') (ec_revision e') c) →
  Inv (setEntry n e' c) ∧ Guar i c (setEntry n e' c).
Proof using Type.
  intros HI He Hl Hi Hd Hst Hm Hsid Hd' Hi' Ht Hinst Hret. split.
  - split; cbn; try apply HI.
    + intros k [<-|Hk]%lookup_insert_is_Some'; [apply (inv_names c HI); by rewrite He|by apply (inv_names c HI)].
    + intros k x [[<- <-]|[Hk Hx]]%lookup_insert_Some Hlive; [|by apply (inv_pinned c HI k x)].
      apply Hret. destruct Hlive as (_ & _ & H). destruct (H Hd') as (st' & Hst' & ?). cbn in Hst'. rewrite Hst in Hst'. by injection Hst' as <-.
    + intros k x [[<- <-]|[Hk Hx]]%lookup_insert_Some Hxi Hxd; [|by apply (inv_stored c HI k x)]. by exists st, m.
    + intros k x Hk. destruct (inv_stops c HI k x Hk) as [Hs Hset]. split; [done|]. intros Herr k' Hk'.
      assert (is_Some (co_table c !! k')) as Hm'. { apply lookup_insert_is_Some' in Hk' as [<-|?]; [by eexists|done]. }
      destruct (Hset Herr k' Hm') as [[H1 H2]|?]; [|by right]. left. split; [|done]. rewrite instanceIn_setEntry. case_decide as E; [subst k'|done].
      rewrite Hinst. unfold instanceIn in H1. by rewrite He in H1.
    + intros k Hk. etransitivity; [|by apply (inv_residents c HI k)]. apply inj_le, residents_mono.
      intros k' x [[<- <-]|[? ?]]%lookup_insert_Some Hx; [|eauto]. exists e. by rewrite <- Hinst.
  - guar_rest.
    + intros k x Hx. destruct (decide (n = k)) as [<-|Hne]; [|exists x; rewrite lookup_insert_ne by done; auto].
      rewrite He in Hx. injection Hx as <-. exists e'. rewrite lookup_insert_eq. split; [done|]. split; try congruence; auto.
    + intros k x Hk Hx. rewrite lookup_insert_Some in Hx. destruct Hx as [[<- _]|[_ Hx]]; congruence.
Qed.

(** Storage moves on, and perhaps an entry becomes terminal. *)
Definition setStorage (st : L) (c : sysCore) : sysCore :=
  mkCore (co_charts c) (co_table c) (Some st) (co_stopped c) (co_locks c) (co_activating c) (co_stops c) (co_delivered c).

Lemma step_storage i st st' c : Inv c → co_storage c = Some st → ok st' → storageStep i c st st' →
  Inv (setStorage st' c) ∧ Guar i c (setStorage st' c).
Proof using Type.
  intros HI Hst Hok [Hdef Hact Hrec Hid]. split.
  - split; cbn; try apply HI.
    + intros n e He (H1 & H2 & H3). apply (inv_pinned c HI n e He). split_and!; [done..|]. intros Hd. exists st. split; [done|].
      destruct (H3 Hd) as (st1 & [= <-] & Ha). destruct (Hact _ _ _ Ha) as [?|[Hnone _]]; [done|].
      destruct (inv_stored c HI n e He H1 Hd) as (st2 & m & E & Hm & _). congruence.
    + by intros ? [= <-].
    + intros n e He H1 H2. destruct (inv_stored c HI n e He H1 H2) as (st2 & m & E & Hm & Hsid). rewrite Hst in E. injection E as <-.
      destruct (Hid n m Hm) as (m' & Hm' & _ & _ & Hs). exists st', m'. split_and!; [done..|congruence].
    + intros sid d Hin. destruct (inv_recorded c HI sid d Hin) as (st2 & E & ?). rewrite Hst in E. injection E as <-. eauto.
  - guar_rest. intros st2 E. rewrite Hst in E. injection E as <-. exists st'. by split.
Qed.

Definition terminated (e : entryCore) : entryCore :=
  mkEntryCore (ec_kind e) (ec_revision e) (ec_sessionID e) (ec_durable e) (ec_initialized e) true (ec_instance e).

Lemma frozen_terminated i c n e : frozen i c n e (terminated e).
Proof using Type. split; cbn; auto. all: congruence. Qed.

Lemma step_terminate i n e c : Inv c → co_table c !! n = Some e → Inv (setEntry n (terminated e) c) ∧ Guar i c (setEntry n (terminated e) c).
Proof using Type. intros HI He. apply (step_entry i n e); auto using frozen_terminated. Qed.

(** *** Charts *)

Definition setCharts (x : gmap Identifier chartRegistry) (c : sysCore) : sysCore :=
  mkCore x (co_table c) (co_storage c) (co_stopped c) (co_locks c) (co_activating c) (co_stops c) (co_delivered c).

(** A registry changes under its lock; what is retained may only shrink where no
    actor needs it. *)
Lemma step_registry i k r r' c : Inv c → co_charts c !! k = Some r → co_locks c !! LPublish k = Some i →
  cr_datamodel r' = cr_datamodel r → is_Some (cr_revisions r' !! cr_current r') →
  (∀ revision chart, cr_revisions r' !! revision = Some chart → cc_revision chart = revision) →
  (∀ revision, is_Some (cr_revisions r !! revision) → is_Some (cr_revisions r' !! revision) ∨
     ((∀ st n, co_storage c = Some st → ¬ activeActor st n k revision) ∧
      ∀ n e, co_table c !! n = Some e → ec_kind e = k → ec_revision e = revision → ec_durable e = false → ec_initialized e = true → ec_terminal e = true)) →
  Inv (setCharts (<[k := r']> (co_charts c)) c) ∧ Guar i c (setCharts (<[k := r']> (co_charts c)) c).
Proof using Type.
  intros HI Hk Hl Hdm Hcur Hkey Hkeep.
  assert (∀ k' revision, retained k' revision c → retained k' revision (setCharts (<[k := r']> (co_charts c)) c) ∨
            (k' = k ∧ ¬ is_Some (cr_revisions r' !! revision) ∧ is_Some (cr_revisions r !! revision))) as Hret.
  { intros k' revision (x & Hx & Hs). unfold retained. cbn. destruct (decide (k = k')) as [<-|Hne].
    - rewrite Hk in Hx. injection Hx as <-. setoid_rewrite lookup_insert_eq. destruct (cr_revisions r' !! revision) as [ch|] eqn:E.
      + left. exists r'. split; [done|]. by rewrite E.
      + right. split_and!; [done|by intros []|done].
    - left. exists x. by rewrite lookup_insert_ne. }
  split.
  - split; cbn; try apply HI.
    + intros k' x [[<- <-]|[_ Hx]]%lookup_insert_Some; [done|by apply (inv_current c HI k')].
    + intros k' x revision chart [[<- <-]|[_ Hx]]%lookup_insert_Some; [apply Hkey|by apply (inv_keyed c HI k' x)].
    + intros n e He Hlive. assert (live c n e) as Hlive' by done. destruct (Hret _ _ (inv_pinned c HI n e He Hlive')) as [?|(Ek & Hno & Hsome)]; [done|].
      destruct (Hkeep _ Hsome) as [?|[H1 H2]]; [done|]. destruct Hlive as (Hi & Ht & Hd). destruct (ec_durable e) eqn:Ed.
      * destruct (Hd eq_refl) as (st & Hst & Ha). rewrite Ek in Ha. by destruct (H1 st n Hst).
      * rewrite (H2 n e) in Ht; done.
  - guar_rest.
    + intros k' x Hx. destruct (decide (k = k')) as [<-|Hne]; cbn; [|exists x; rewrite lookup_insert_ne by done; auto].
      rewrite Hk in Hx. injection Hx as <-. exists r'. rewrite lookup_insert_eq. auto.
    + intros k' revision Hr. destruct (Hret k' revision Hr) as [?|(-> & Hno & Hsome)]; [by left|]. right. split; [done|].
      destruct (Hkeep _ Hsome) as [?|[H1 _]]; done.
Qed.

(** *** Deliveries *)

Lemma step_delivered i n e st sid d c : Inv c → co_locks c !! LEntry n = Some i → co_table c !! n = Some e → ec_initialized e = true →
  ec_durable e = true → ec_sessionID e = sid → co_storage c = Some st → sv_recorded st sid d → (sid, d) ∉ co_delivered c →
  let c' := mkCore (co_charts c) (co_table c) (co_storage c) (co_stopped c) (co_locks c) (co_activating c) (co_stops c) (co_delivered c ++ [(sid, d)]) in
  Inv c' ∧ Guar i c c'.
Proof using Type.
  intros HI Hl He Hi Hd Hsid Hst Hrec Hnew. split.
  - split; cbn; try apply HI.
    + apply NoDup_app. split_and!; [apply HI| |apply NoDup_singleton]. intros x Hx ->%list_elem_of_singleton. done.
    + intros sid' d' [Hin|[= -> ->]%list_elem_of_singleton]%elem_of_app; [by apply (inv_recorded c HI)|eauto].
  - guar_rest. intros sid' d' [Hin|[= -> ->]%list_elem_of_singleton]%elem_of_app; [by left|]. right. exists n, e. by split_and!.
Qed.

(** *** Stop *)

Lemma step_stops i x c : Inv c → co_stopped c = true →
  (∀ k y, x !! k = Some y → sc_errs y = [] → ∀ n, is_Some (co_table c !! n) → settled c n ∨ n ∈ sc_waiting y ∨ n ∈ sc_running y) →
  let c' := mkCore (co_charts c) (co_table c) (co_storage c) (co_stopped c) (co_locks c) (co_activating c) x (co_delivered c) in
  Inv c' ∧ Guar i c c'.
Proof using Type. intros HI Hs Hx. split; [|by guar_rest]. split; cbn; try apply HI. intros k y Hy. split; [done|]. by apply (Hx k). Qed.

Lemma step_begin_stop i k y c : Inv c → (∀ n, is_Some (co_table c !! n) → n ∈ sc_waiting y) →
  let c' := mkCore (co_charts c) (co_table c) (co_storage c) true (co_locks c) (co_activating c) (<[k := y]> (co_stops c)) (co_delivered c) in
  Inv c' ∧ Guar i c c'.
Proof using Type.
  intros HI Hy. split; [|by guar_rest]. split; cbn; try apply HI. intros k' z [[<- <-]|[_ Hz]]%lookup_insert_Some; (split; [done|]).
  - intros _ n Hn. right. left. auto.
  - apply (inv_stops c HI k' z Hz).
Qed.

End core.
