(* ===== verification/ActorCalm.v ===== *)
(** * The actor system: actions that leave everybody's knowledge alone

    Most of what a goroutine does while it holds a lock, running an instance,
    evicting one, notifying, changes nothing that a goroutine may rely on:
    identities, charts, activations under way.  [calm] says so.  A goroutine's
    knowledge is [own i X P]: it holds the locks [X], and [P].  The rules here
    let any such knowledge pass through the calm operations of Actors.v. *)

From S2P Require Import Prelude Identifier Storage Values Events Datamodel Chart Interp Steps Definitions Validate Compile Artifact.
From S2P Require Import Snapshot Instance Replay Memory Outbox Threads Observation Routing ActorStore System Actors ActorCore.
From stdpp Require Import options.

Section calm.
Context `{DM : DatamodelSession} {L : Type} `{AS : !ActorStorage L} `{SV : !StorageView L} (ok : L → Prop) `{AL : !ActorStorageLaws L ok}.
Context {Inst : Type} `{IN : !Instances Inst}.
Variable cfg : systemConfig.

#[local] Abbreviation System := (@System DM L Inst).
#[local] Abbreviation thread := (Threads.thread System).
#[local] Abbreviation sysCore := (@sysCore DM L).
#[local] Abbreviation Inv := (Inv ok cfg).

(** The invariant and the guarantee, of systems. *)
Definition I (s : System) : Prop := Inv (core s).
Definition G (i : nat) (s s' : System) : Prop := Guar i (core s) (core s').
#[local] Abbreviation wp := (Threads.wp I G).

(** ** Calm transitions *)

Record quietEntry (e e' : entryCore) : Prop := {
  qe_kind : ec_kind e' = ec_kind e;
  qe_revision : ec_revision e' = ec_revision e;
  qe_sessionID : ec_sessionID e' = ec_sessionID e;
  qe_durable : ec_durable e' = ec_durable e;
  qe_initialized : ec_initialized e' = ec_initialized e;
  qe_terminal : ec_terminal e = true → ec_terminal e' = true;
  qe_instance : ec_instance e' = ec_instance e ∨ ec_instance e' = None
}.

Record calmStorage (st st' : L) : Prop := {
  cs_definitions : sv_definitions st' = sv_definitions st;
  cs_active n k r : activeActor st' n k r → activeActor st n k r;
  cs_recorded sid d : sv_recorded st' sid d ↔ sv_recorded st sid d;
  cs_identity n m : sv_actors st !! n = Some m → ∃ m', sv_actors st' !! n = Some m' ∧ sameIdentityAs m m'
}.

Record calm (c c' : sysCore) : Prop := {
  ca_charts : co_charts c' = co_charts c;
  ca_activating : co_activating c' = co_activating c;
  ca_stopped : co_stopped c' = co_stopped c;
  ca_stops : co_stops c' = co_stops c;
  ca_delivered : co_delivered c' = co_delivered c;
  ca_table n : option_Forall2 quietEntry (co_table c !! n) (co_table c' !! n);
  ca_storage : option_Forall2 calmStorage (co_storage c) (co_storage c')
}.

#[global] Instance quietEntry_preorder : PreOrder quietEntry.
Proof using Type.
  split; [by split; auto|]. intros x y z [] []. split; try congruence; auto. naive_solver congruence.
Qed.
#[global] Instance calmStorage_preorder : PreOrder calmStorage.
Proof using Type.
  split.
  - intros st. split; [done|done|done|]. intros n m Hm. exists m. by repeat split.
  - intros x y z [D1 A1 R1 I1] [D2 A2 R2 I2]. split; [congruence|auto|intros; by rewrite R2|]. intros n m Hm. destruct (I1 n m Hm) as (m1 & Hm1 & ? & ? & ?).
    destruct (I2 n m1 Hm1) as (m2 & Hm2 & ? & ? & ?). exists m2. split; [done|]. repeat split; congruence.
Qed.
#[global] Instance calm_preorder : PreOrder calm.
Proof using Type.
  split.
  - intros c. split; [done..| |]; [intros n; destruct (co_table c !! n)|destruct (co_storage c)]; constructor; reflexivity.
  - intros x y z [? ? ? ? ? T1 S1] [? ? ? ? ? T2 S2]. split; [congruence..| |].
    + intros n. specialize (T1 n). specialize (T2 n). destruct T1 as [a b Hab|]; inversion T2; subst; constructor; by etransitivity.
    + destruct S1 as [a b Hab|]; inversion S2; subst; constructor; by etransitivity.
Qed.

Lemma sameView_calm st st' : sameView st st' → calmStorage st st'.
Proof using Type.
  intros [Ha Hd Hr]. split; [done| |done|].
  - unfold activeActor. by rewrite Ha.
  - intros n m. rewrite Ha. exists m. by repeat split.
Qed.

Lemma calmStorage_step i c st st' : calmStorage st st' → storageStep i c st st'.
Proof using Type.
  intros [Hd Ha Hr Hi]. split; [|auto| |done].
  - unfold hasDefinition. rewrite Hd. auto.
  - intros sid d. by rewrite Hr.
Qed.

(** ** Knowledge *)

Definition own (i : nat) (X : gset lock) (P : sysCore → Prop) (c : sysCore) : Prop :=
  (∀ l, l ∈ X → co_locks c !! l = Some i) ∧ P c.

Class Calm (P : sysCore → Prop) : Prop := calm_keeps c c' : calm c c' → P c → P c'.
Class Stable (i : nat) (X : gset lock) (P : sysCore → Prop) : Prop :=
  stable_keeps j c c' : j ≠ i → Inv c → Inv c' → Guar j c c' → own i X P c → P c'.

Lemma own_locks i j X P c c' : j ≠ i → Guar j c c' → own i X P c → ∀ l, l ∈ X → co_locks c' !! l = Some i.
Proof using Type. intros Hj HG [H _] l Hl. apply (gu_locks _ _ _ HG l i); [congruence|auto]. Qed.

Lemma own_stable i X P : Stable i X P → stable I G i (λ s, own i X P (core s)).
Proof using Type.
  intros HP s s' Hs Hs' Hown (j & Hj & HG). split; [by apply (own_locks i j X P (core s))|]. by apply (HP j (core s)).
Qed.

(** More locks do no harm. *)
Lemma Stable_more i X Y P : X ⊆ Y → Stable i X P → Stable i Y P.
Proof using Type. intros Hsub HP j c c' ???? [Hl ?]. apply (HP j c c'); [done..|]. split; [|done]. auto. Qed.

#[global] Instance Stable_and i X P P' : Stable i X P → Stable i X P' → Stable i X (λ c, P c ∧ P' c).
Proof using Type. intros H H' j c c' ???? [Hl [??]]. split; [apply (H j c)|apply (H' j c)]; try done; by split. Qed.
#[global] Instance Calm_and P P' : Calm P → Calm P' → Calm (λ c, P c ∧ P' c).
Proof using Type. intros H H' c c' Hc [??]. split; [by apply (H c)|by apply (H' c)]. Qed.
#[global] Instance Stable_true i X : Stable i X (λ _, True).
Proof using Type. done. Qed.
#[global] Instance Calm_true : Calm (λ _, True).
Proof using Type. done. Qed.

(** ** The rules *)

(** An action with its effect on the core. *)
Definition action_ok (i : nat) (s s' : System) : Prop := I s' ∧ G i s s'.

Lemma wp_own {A B} i X P (f : System → option (System * B)) (k : B → thread A) Q s : Stable i X P → own i X P (core s) →
  (∀ s1 s2 b, I s1 → own i X P (core s1) → f s1 = Some (s2, b) → action_ok i s1 s2 ∧ wp i (k b) Q s2) → wp i (Atomic f k) Q s.
Proof using Type.
  intros HP Hs H. apply (wp_act I G i (λ s, own i X P (core s))); [by apply own_stable|done|].
  intros s1 s2 b H1 H2 H3. by destruct (H s1 s2 b H1 H2 H3) as [[? ?] ?].
Qed.

(** An action that does not change the core at all. *)
Lemma quiet_ok i s s' : I s → core s' = core s → action_ok i s s'.
Proof using Type. intros Hs E. unfold action_ok, I, G. rewrite E. split; [done|apply Guar_refl]. Qed.

Lemma wp_quiet {A B} i X P (f : System → option (System * B)) (k : B → thread A) Q s : Stable i X P → own i X P (core s) →
  (∀ s1 s2 b, f s1 = Some (s2, b) → core s2 = core s1) →
  (∀ s1 s2 b, I s1 → own i X P (core s1) → f s1 = Some (s2, b) → core s2 = core s1 → wp i (k b) Q s2) → wp i (Atomic f k) Q s.
Proof using Type.
  intros HP Hs Hq Hk. apply (wp_own i X P); [done|done|]. intros s1 s2 b H1 H2 H3. pose proof (Hq s1 s2 b H3) as E.
  split; [by apply quiet_ok|]. by eapply Hk.
Qed.

(** An action that only reads. *)
Lemma wp_reads {A B} i X P (f : System → B) (k : B → thread A) Q s : Stable i X P → own i X P (core s) →
  (∀ s, I s → own i X P (core s) → wp i (k (f s)) Q s) → wp i (reads f ≫= k) Q s.
Proof using Type.
  intros HP Hs Hk. apply (wp_quiet i X P); [done|done|by intros ??? [= <- <-]|]. intros s1 s2 b H1 H2 [= <- <-] _. by apply Hk.
Qed.

Lemma wp_follows {A B} i X P (f : System → option B) (k : B → thread A) Q s : Stable i X P → own i X P (core s) →
  (∀ s b, I s → own i X P (core s) → f s = Some b → wp i (k b) Q s) → wp i (follows f ≫= k) Q s.
Proof using Type.
  intros HP Hs Hk. apply (wp_quiet i X P); [done|done|..].
  - intros s1 s2 b H. destruct (f s1); [|done]. by injection H as <- <-.
  - intros s1 s2 b H1 H2 H3 _. destruct (f s1) as [x|] eqn:E; [|done]. injection H3 as <- <-. by apply Hk.
Qed.

Lemma wp_writes_quiet {A} i X P (f : System → System) (k : () → thread A) Q s : Stable i X P → own i X P (core s) →
  (∀ s, core (f s) = core s) → (∀ s, I s → own i X P (core s) → wp i (k ()) Q s) → wp i (writes f ≫= k) Q s.
Proof using Type.
  intros HP Hs Hq Hk. apply (wp_quiet i X P); [done|done|by intros ??? [= <- <-]|]. intros s1 s2 [] H1 H2 [= <-] E. apply Hk.
  - unfold I. by rewrite Hq.
  - by rewrite Hq.
Qed.

(** A calm action that keeps the locks. *)
Lemma wp_calm {A B} i X P (f : System → option (System * B)) (k : B → thread A) Q s : Stable i X P → Calm P → own i X P (core s) →
  (∀ s1 s2 b, I s1 → own i X P (core s1) → f s1 = Some (s2, b) →
     action_ok i s1 s2 ∧ calm (core s1) (core s2) ∧ co_locks (core s2) = co_locks (core s1)) →
  (∀ s1 s2 b, I s2 → own i X P (core s2) → f s1 = Some (s2, b) → wp i (k b) Q s2) → wp i (Atomic f k) Q s.
Proof using Type.
  intros HP HC Hs Hact Hk. apply (wp_own i X P); [done|done|]. intros s1 s2 b H1 H2 H3. destruct (Hact s1 s2 b H1 H2 H3) as (Hok & Hc & Hl).
  split; [done|]. eapply Hk; [apply Hok| |done]. destruct H2 as [Hx Hp]. split; [by rewrite Hl|]. by eapply calm_keeps.
Qed.

(** ** Locks *)

Lemma wp_acquire {A} i X P l (k : () → thread A) Q s : Stable i X P → Calm P → own i X P (core s) →
  (∀ s, I s → l ∉ X → own i ({[l]} ∪ X) P (core s) → (∀ n, l = LEntry n → co_activating (core s) !! n = None) → wp i (k ()) Q s) →
  wp i (acquire i l ≫= k) Q s.
Proof using Type.
  intros HP HC Hs Hk. apply (wp_own i X P); [done|done|]. intros s1 s2 b H1 H2 H3. cbv beta in H3.
  destruct (sy_locks s1 !! l) as [j|] eqn:E; [done|]. injection H3 as <- <-.
  assert (action_ok i s1 (sys_locks (<[l:=i]> (sy_locks s1)) s1)) as Hok by (apply (step_acquire ok cfg i l (core s1)); done).
  split; [done|]. destruct H2 as [Hx Hp]. apply Hk; [apply Hok|..].
  - intros Hin. apply Hx in Hin. cbn in Hin. congruence.
  - split; [|by apply (calm_keeps (core s1)); [split; try done; apply calm_preorder|]].
    intros l' [->%elem_of_singleton|Hl']%elem_of_union; cbn; [apply lookup_insert_eq|].
    destruct (decide (l = l')) as [->|]; [apply lookup_insert_eq|]. rewrite lookup_insert_ne by done. by apply Hx.
  - intros n ->. cbn. apply eq_None_not_Some. intros [j Hj]. apply (inv_activating _ _ _ H1) in Hj. cbn in Hj. congruence.
Qed.

Lemma wp_release {A} i X P l (k : () → thread A) Q s : Stable i X P → Calm P → l ∉ X → own i ({[l]} ∪ X) P (core s) →
  (∀ c n, own i ({[l]} ∪ X) P c → l = LEntry n → co_activating c !! n = None) →
  (∀ s, I s → own i X P (core s) → wp i (k ()) Q s) → wp i (release l ≫= k) Q s.
Proof using Type.
  intros HP HC Hl Hs Hn Hk. apply (wp_own i ({[l]} ∪ X) P); [eapply Stable_more; [|done]; by apply union_subseteq_r|done|].
  intros s1 s2 b H1 H2 [= <- <-]. assert (co_locks (core s1) !! l = Some i) as Hown. { apply H2. apply elem_of_union. left. by apply elem_of_singleton. }
  assert (action_ok i s1 (sys_locks (delete l (sy_locks s1)) s1)) as Hok by (apply (step_release ok cfg i l (core s1)); eauto).
  split; [done|]. apply Hk; [apply Hok|]. destruct H2 as [Hx Hp]. split.
  - intros l' Hl'. cbn. rewrite lookup_delete_ne by congruence. apply Hx. apply elem_of_union. by right.
  - by apply (calm_keeps (core s1)); [split; try done; apply calm_preorder|].
Qed.

(** ** Functions that leave the core alone *)

Lemma core_updateEntry n f (s : System) : (∀ e, coreOf (f e) = coreOf e) → core (updateEntry n f s) = core s.
Proof using Type.
  intros Hf. unfold core, updateEntry. cbn. f_equal. apply map_eq. intros m. rewrite !lookup_fmap. destruct (decide (n = m)) as [<-|Hne].
  - rewrite lookup_alter_eq. destruct (sy_table s !! n); [|done]. cbn. by rewrite Hf.
  - by rewrite lookup_alter_ne.
Qed.

Lemma core_observeActor kind n t (s : System) : core (observeActor cfg kind n t s) = core s.
Proof using Type. unfold observeActor. by case_decide. Qed.
Lemma core_notifyDiscovered n (s : System) : core (notifyDiscovered cfg n s) = core s.
Proof using Type.
  unfold notifyDiscovered. destruct (sy_table s !! n) as [e|]; [|done]. destruct (ae_discovered e); [done|]. by rewrite core_observeActor, core_updateEntry.
Qed.
Lemma core_notifyTerminal n (s : System) : core (notifyTerminal cfg n s) = core s.
Proof using Type.
  unfold notifyTerminal. destruct (sy_table s !! n) as [e|]; [|done]. destruct (ae_observedEnd e); [done|]. by rewrite core_observeActor, core_updateEntry.
Qed.
Lemma core_calls x (s : System) : core (sys_calls x s) = core s.
Proof using Type. done. Qed.
Lemma core_notifyResidency n state (s : System) : core (notifyResidency cfg n state s) = core s.
Proof using Type.
  unfold notifyResidency. destruct (cf_onResidency cfg); rewrite ?core_calls, core_observeActor, core_updateEntry; done.
Qed.
Lemma core_enqueueDispatch j (s : System) : core (enqueueDispatch cfg j s).1 = core s.
Proof using Type. unfold enqueueDispatch. destruct (_ || _); [done|]. by case_decide. Qed.
Lemma core_routingSend act self req (s : System) : core (routingSend cfg act self req s).1 = core s.
Proof using Type.
  unfold routingSend. case_decide; [done|]. destruct (resolveTarget cfg (sr_Target req) s); [apply core_enqueueDispatch|]. by destruct (cf_scxmlPeer cfg).
Qed.
Lemma core_routingSendWithAck act self req (s : System) : core (routingSendWithAck cfg act self req s).1.1 = core s.
Proof using Type.
  unfold routingSendWithAck. pose proof (core_routingSend act self req s) as H. destruct (routingSend cfg act self req s) as [s1 err]. cbn in H.
  destruct (resolveTarget cfg (sr_Target req) s); [|destruct (cf_scxmlPeer cfg); [|done]]; case_match; try done. apply core_enqueueDispatch.
Qed.
Lemma core_customSend act typ req (s : System) : core (customSend cfg act typ req s).1 = core s.
Proof using Type. unfold customSend. by destruct (customProcessor cfg act typ). Qed.
Lemma core_transportSend act self typ req (s : System) : core (transportSend cfg act self typ req s).1.1 = core s.
Proof using Type.
  unfold transportSend. case_decide; [apply core_routingSendWithAck|]. cbn. apply core_customSend.
Qed.
Lemma core_setTables act x (s : System) : core (setTables act x s) = core s.
Proof using Type. done. Qed.
Lemma core_reports n evs (s : System) : core (foldl (λ s ev, (enqueueDispatch cfg (JobIngress n ev) s).1) s evs) = core s.
Proof using Type. revert s. induction evs as [|ev evs IH]; intros s; [done|]. cbn. by rewrite IH, core_enqueueDispatch. Qed.

(** ** Functions that move storage on, out of sight *)

Definition viewStep (st st' : L) : Prop := ok st → ok st' ∧ sameView st st'.
#[global] Instance viewStep_preorder : PreOrder viewStep.
Proof using Type.
  split; [by intros st ?|]. intros x y z H1 H2 Hx. destruct (H1 Hx) as [Hy ?]. destruct (H2 Hy). split; [done|]. by etransitivity.
Qed.

Definition onlyStorage (s s' : System) : Prop :=
  option_Forall2 viewStep (sy_storage s) (sy_storage s') ∧
  core s' = mkCore (co_charts (core s)) (co_table (core s)) (sy_storage s') (co_stopped (core s)) (co_locks (core s)) (co_activating (core s))
              (co_stops (core s)) (co_delivered (core s)).

#[global] Instance onlyStorage_preorder : PreOrder onlyStorage.
Proof using Type.
  split.
  - intros s. split; [|done]. destruct (sy_storage s); constructor; reflexivity.
  - intros x y z [H1 E1] [H2 E2]. split; [|by rewrite E2, E1]. destruct H1 as [a b Hab|]; inversion H2; subst; constructor; by etransitivity.
Qed.

Lemma onlyStorage_quiet (s s' : System) : core s' = core s → onlyStorage s s'.
Proof using Type.
  intros E. assert (sy_storage s' = sy_storage s) as Es by by injection E. split; [|by rewrite E, Es]. rewrite Es. destruct (sy_storage s); constructor; reflexivity.
Qed.

Lemma onlyStorage_ok i (s s' : System) : I s → onlyStorage s s' → action_ok i s s' ∧ calm (core s) (core s') ∧ co_locks (core s') = co_locks (core s).
Proof using AL.
  intros Hs [H E]. unfold action_ok, I, G. rewrite E. destruct (sy_storage s) as [st|] eqn:Es.
  - inversion H as [? st' Hv|]; subst. assert (ok st) as Hok by (apply (inv_storage _ _ _ Hs); done). destruct (Hv Hok) as [Hok' Hsv].
    split; [apply (step_storage ok cfg i st st' (core s)); auto using sameView_step|]. split; [|done]. split; try done; cbn.
    rewrite Es. constructor. by apply sameView_calm.
  - inversion H; subst. assert (mkCore (co_charts (core s)) (co_table (core s)) None (co_stopped (core s)) (co_locks (core s)) (co_activating (core s))
              (co_stops (core s)) (co_delivered (core s)) = core s) as ->. { unfold core. cbn. by rewrite Es. }
    split; [split; [done|apply Guar_refl]|]. split; [reflexivity|done].
Qed.

Lemma complete_view sid typ req err sync rep w : viewStep (ow_store w) (ow_store (complete sid true typ req err sync rep w)).
Proof using AL.
  unfold complete. destruct (ob_resolve _ _ _ _) as [l|e] eqn:E; [|reflexivity].
  assert (viewStep (ow_store w) l) as Hv by (intros Hok; by apply (law_resolve _ _ _ _ _ Hok E)). by destruct (rep && present err).
Qed.
Lemma outboxSend_view sid f acks typ req w : viewStep (ow_store w) (ow_store (outboxSend sid f acks true typ req w).1).
Proof using AL.
  unfold outboxSend. destruct (ob_store _ _) as [l|e] eqn:E; [|reflexivity]. cbn. set (w1 := mkWorld _ _ _ _).
  assert (viewStep (ow_store w) (ow_store w1)) as Hv by (intros Hok; by apply (law_store _ _ _ Hok E)).
  destruct (acks typ); [destruct (f _ _ _); [|done]|]; (etransitivity; [exact Hv|apply complete_view]).
Qed.
Lemma recoverOne_view sid f acks w err m : viewStep (ow_store w) (ow_store (recoverOne sid f acks true w err m).1).
Proof using AL.
  unfold recoverOne. destruct (ow_tables w !! _); [|reflexivity]. destruct (om_Status m); cbn.
  - unfold recoverSend. cbn. set (w1 := mkWorld _ _ _ _). change (ow_store w) with (ow_store w1).
    destruct (acks _); [destruct (f _ _ _); [|reflexivity]|]; apply complete_view.
  - by destruct (_ && _).
Qed.

Lemma onOutbox_only {A} act a call (op : outboxWorld → outboxWorld * A) s s' r : (∀ s, core (call s) = core s) →
  (∀ w, viewStep (ow_store w) (ow_store (op w).1)) → onOutbox cfg act a call op s = Some (s', r) → onlyStorage s s'.
Proof using Type.
  intros Hcall Hop. unfold onOutbox. destruct (sy_storage s) as [st|] eqn:Es; [|done]. cbn. specialize (Hop (mkWorld st (av_tables a) [] [])).
  destruct (op _) as [w r0]. cbn in Hop. intros [= <- <-]. apply (transitivity (y := sys_storage (Some (ow_store w)) s)).
  - split; [|done]. rewrite Es. by constructor.
  - apply onlyStorage_quiet. rewrite core_reports. by destruct (ow_calls w); rewrite ?Hcall, core_setTables.
Qed.

Lemma onStorage_only {A} (f : L → result (L * A)) s s' r : (∀ st st' a, f st = Ok (st', a) → viewStep st st') →
  onStorage f s = Some (s', r) → onlyStorage s s'.
Proof using Type.
  intros Hf. unfold onStorage. destruct (sy_storage s) as [st|] eqn:Es; [|done]. cbn. destruct (f st) as [[st' a]|e] eqn:E; intros [= <- <-]; [|reflexivity].
  split; [|done]. rewrite Es. constructor. by eapply Hf.
Qed.

Lemma append_only sid kind t ev x y z s s' r : kind ≠ KindSessionStarted →
  onStorage (st_Append None (mkEntry sid 0 kind t ev x y z)) s = Some (s', r) → onlyStorage s s'.
Proof using AL. intros Hk. apply onStorage_only. intros st st' n E Hok. eapply law_append; [exact Hok| |exact E]. exact Hk. Qed.

Lemma recoverMessage_only act m s err s' r : recoverMessage cfg act m s err = Some (s', r) → onlyStorage s s'.
Proof using AL.
  unfold recoverMessage. destruct (sy_activations s !! act) as [a|]; [|done]. cbn [mbind option_bind].
  destruct (transportSend cfg act (address cfg (av_name a)) (sr_Type (om_Request m)) (om_Request m) s) as [[s0 answer] completed].
  apply onOutbox_only; [intros; apply core_transportSend|]. intros w.
  pose proof (recoverOne_view (av_session a) (λ _ _ _, answer) (transportAcks cfg act) w err m) as Hv.
  destruct (recoverOne _ _ _ _ w err m) as [w1 err1]. cbn in *. destruct (_ && _); [|done]. etransitivity; [exact Hv|apply complete_view].
Qed.

Lemma recoverMessages_only act ms s err s' r : recoverMessages cfg act ms s err = Some (s', r) → onlyStorage s s'.
Proof using AL.
  revert s err. induction ms as [|m ms IH]; intros s err; cbn; [by intros [= <- <-]|]. destruct (recoverMessage cfg act m s err) as [[s1 err1]|] eqn:E; [|done].
  cbn. intros H. etransitivity; [by eapply recoverMessage_only|by eapply IH].
Qed.

Lemma perform_only act c s s' r : perform cfg act c s = Some (s', r) → onlyStorage s s'.
Proof using AL.
  unfold perform. destruct (sy_activations s !! act) as [a|]; [|done]. cbn [mbind option_bind]. destruct c as [ev|sendID target typ ev| |req| |cp|trace].
  - unfold ingressHook. set (s1 := updateEntry _ _ s). assert (onlyStorage s s1) as H1 by by apply onlyStorage_quiet, core_updateEntry.
    destruct (_ || _); [by intros [= <- <-]|]. destruct (onStorage _ s1) as [[s2 r2]|] eqn:E; [|done]. intros [= <- <-].
    etransitivity; [exact H1|]. eapply append_only; [|exact E]. done.
  - unfold timerFiredHook. destruct (av_durable a); [|by intros [= <- <-]]. destruct (onStorage _ s) as [[s2 r2]|] eqn:E; [|done]. intros [= <- <-]. eapply append_only; [|exact E]. done.
  - done.
  - destruct (av_durable a).
    + unfold durableSend. destruct (transportSend cfg act (address cfg (av_name a)) (sr_Type req) req s) as [[s0 answer] completed].
      apply onOutbox_only; [intros; apply core_transportSend|]. intros w.
      pose proof (outboxSend_view (av_session a) (λ _ _ _, answer) (transportAcks cfg act) (sr_Type req) req w) as Hv.
      destruct (outboxSend _ _ _ _ _ _ w) as [w1 err1]. cbn in *. destruct (_ && _); [|done]. etransitivity; [exact Hv|apply complete_view].
    + intros [= H]. apply onlyStorage_quiet. case_decide.
      * rewrite <- (core_routingSend act (address cfg (av_name a)) req s). by rewrite H.
      * rewrite <- (core_customSend act (sr_Type req) req s). by rewrite H.
  - unfold recover. destruct (av_recovery a); [by intros [= <- <-]|]. destruct (recoverMessages cfg act (av_messages a) s None) as [[s1 err1]|] eqn:E; [|done].
    cbn. intros [= <- <-]. etransitivity; [by eapply recoverMessages_only|]. by apply onlyStorage_quiet.
  - destruct (onStorage _ s) as [[s1 r1]|] eqn:E; [|done]. cbn. intros [= <- <-]. eapply onStorage_only; [|exact E].
    intros st st' u Hst Hok. cbv beta in Hst. apply result_bind_Ok in Hst as (st1 & Hst & [= <- _]). eapply law_save; [exact Hok|exact Hst].
  - intros [= <- <-]. apply onlyStorage_quiet, core_observeActor.
Qed.

(** ** Instances at work *)

Lemma core_alterEntry n f g (s : System) : (∀ e, coreOf (f e) = g (coreOf e)) →
  core (updateEntry n f s) = match co_table (core s) !! n with Some e => setEntry n (g e) (core s) | None => core s end.
Proof using Type.
  intros Hf. assert (coreOf <$> alter f n (sy_table s) = alter g n (coreOf <$> sy_table s)) as Ha.
  { apply map_eq. intros m. rewrite lookup_fmap. destruct (decide (n = m)) as [<-|Hne].
    - rewrite !lookup_alter_eq, lookup_fmap. destruct (sy_table s !! n); [|done]. cbn. by rewrite Hf.
    - by rewrite !lookup_alter_ne, lookup_fmap by done. }
  cbn. destruct ((coreOf <$> sy_table s) !! n) as [e|] eqn:E; unfold core, updateEntry, setEntry; cbn; rewrite Ha; f_equal; apply map_eq; intros m;
    (destruct (decide (n = m)) as [<-|Hne]; [rewrite lookup_alter_eq, E, ?lookup_insert_eq; done|by rewrite lookup_alter_ne, ?lookup_insert_ne by done]).
Qed.

Lemma core_markTerminal n t (s : System) :
  core (markTerminal cfg n t s) = match co_table (core s) !! n with Some e => setEntry n (terminated e) (core s) | None => core s end.
Proof using Type.
  unfold markTerminal, reapTerminalWhenDone. set (s1 := notifyTerminal cfg n _).
  assert (core s1 = core (updateEntry n (λ e, en_terminal true (en_terminalAt (UnixNano t) e)) s)) as E by apply core_notifyTerminal.
  assert (∀ x, core (sys_reapers x s1) = core s1) as Er by done. destruct (instanceOf n s1); rewrite ?Er, E; by apply core_alterEntry.
Qed.

Lemma calm_setEntry n e e' c : co_table c !! n = Some e → quietEntry e e' → calm c (setEntry n e' c).
Proof using Type.
  intros He Hq. split; try done. cbn. intros m. destruct (decide (n = m)) as [<-|Hne]; [|by rewrite lookup_insert_ne].
  rewrite He, lookup_insert_eq. by constructor.
Qed.

Section passing.
Context (i : nat) (X : gset lock) (P : sysCore → Prop) `{!Stable i X P} `{!Calm P}.

(** A goroutine that knows [P], whatever it gets. *)
Abbreviation knows s := (own i X P (core s)).

Lemma wp_markTerminal {A} n t (k : () → thread A) Q s : knows s → (∀ s, I s → knows s → wp i (k ()) Q s) →
  wp i (writes (markTerminal cfg n t) ≫= k) Q s.
Proof using All.
  intros Hs Hk. apply (wp_calm i X P); [done|done|done|..].
  - intros s1 s2 b H1 H2 [= <- <-]. unfold action_ok, I, G. rewrite core_markTerminal. destruct (co_table (core s1) !! n) as [e|] eqn:E.
    + split; [by apply (step_terminate ok cfg)|]. split; [|done]. apply (calm_setEntry n e); [done|]. by split; auto.
    + split; [split; [done|apply Guar_refl]|]. by split.
  - intros s1 s2 [] H1 H2 [= <-]. by apply Hk.
Qed.

Lemma wp_host act c Q s : knows s → (∀ r s, I s → knows s → Q r s) → wp i (host cfg act c) Q s.
Proof using All.
  intros Hs HQ. assert (wp i (atomic (perform cfg act c)) Q s) as Hp.
  { apply (wp_calm i X P); [done|done|done|..]; intros s1 s2 b H1 H2 H3; [|by apply HQ]. apply onlyStorage_ok; [done|by eapply perform_only]. }
  destruct c; try exact Hp. clear Hp. unfold host, completionHook. apply (wp_follows i X P); [done|done|]. intros s1 a H1 K1 _.
  apply (wp_follows i X P); [done|done|]. intros s2 e H2 K2 _. apply (wp_reads i X P); [done|done|]. intros s3 H3 K3. cbv zeta.
  destruct (negb (ae_durable e)); [apply wp_markTerminal; [done|]; intros; by apply HQ|].
  apply (wp_calm i X P); [done|done|done|..].
  - intros s4 s5 b H4 K4 H. unfold onStorage in H. destruct (sy_storage s4) as [st|] eqn:Es; [|done]. cbn in H.
    destruct (st_MarkActorTerminal _ _ _ _) as [[st' r]|err] eqn:E; injection H as <- <-.
    + assert (ok st) as Hok by (by apply (inv_storage _ _ _ H4)). pose proof (law_terminal _ _ _ _ _ _ Hok E) as (Hok' & Hd & Hr & Hn & Hm & Hsome).
      assert (calmStorage st st') as Hc.
      { split; [done| |done|].
        - intros n k0 r0 (m' & Hm' & Hk & Hrev & Ha). destruct (decide (n = ae_name e)) as [->|Hne]; [|rewrite Hn in Hm' by done; by exists m'].
          destruct (Hm m' Hm') as (m & ? & (? & ? & ?) & ?). exists m. split_and!; [done|congruence|congruence|auto].
        - intros n m Hm0. destruct (decide (n = ae_name e)) as [->|Hne]; [|exists m; rewrite Hn by done; by repeat split].
          destruct Hsome as [m' Hm']; [by eexists|]. exists m'. split; [done|]. destruct (Hm m' Hm') as (m1 & E1 & ? & _). rewrite Hm0 in E1. by injection E1 as <-. }
      split; [apply (step_storage ok cfg i st st' (core s4)); auto using calmStorage_step|]. split; [|done]. split; try done. cbn. rewrite Es. by constructor.
    + split; [by apply quiet_ok|]. by split.
  - intros s4 s5 r H5 K5 _. destruct r as [[m []]|err]; [..|by apply HQ].
    1,2: destruct (sameActor e (default zeroMetadata m)); [apply wp_markTerminal; [done|]; intros; by apply HQ|by apply HQ]. by apply HQ.
Qed.

Lemma wp_runProc {A} act (p : proc A) Q s : knows s → I s → (∀ a s, I s → knows s → Q a s) → wp i (runProc cfg act p) Q s.
Proof using All.
  intros Hs HI HQ. revert s Hs HI. induction p as [a|c k IH|]; intros s Hs HI; cbn [runProc].
  - by apply HQ.
  - apply wp_bind. apply wp_host; [done|]. intros r s1 H1 K1. by apply IH.
  - apply (wp_own i X P); [done|done|]. by intros s1 s2 b _ _ [=].
Qed.

(** A request that is served in one piece. *)
Lemma wp_quick {A B} act (f : Inst → System → option (System * B)) (k : B → thread A) Q s : knows s →
  (∀ inst s s' b, f inst s = Some (s', b) → onlyStorage s s') → (∀ b s, I s → knows s → wp i (k b) Q s) → wp i (quick act f ≫= k) Q s.
Proof using All.
  intros Hs Hf Hk. assert (∀ s1 s2 b, match sy_locks s1 !! LInstance act with Some _ => None | None => inst ← sy_heap s1 !! act; f inst s1 end = Some (s2, b) →
    onlyStorage s1 s2) as Ho.
  { intros s1 s2 b H. destruct (sy_locks s1 !! LInstance act); [done|]. destruct (sy_heap s1 !! act) as [inst|]; [|done]. by eapply Hf. }
  apply (wp_calm i X P); [done|done|done|..]; intros s1 s2 b H1 H2 H3; [by apply onlyStorage_ok; eauto|by apply Hk].
Qed.

Lemma wp_HasActiveInvokes {A} act ctx (k : result bool → thread A) Q s : knows s →
  (∀ b s, I s → knows s → wp i (k b) Q s) → wp i (HasActiveInvokes act ctx ≫= k) Q s.
Proof using All. intros Hs Hk. apply wp_quick; [done| |done]. by intros inst s1 s2 b [= <- <-]. Qed.
Lemma wp_Stop_ {A} act ctx (k : option error → thread A) Q s : knows s →
  (∀ b s, I s → knows s → wp i (k b) Q s) → wp i (Stop_ act ctx ≫= k) Q s.
Proof using All.
  intros Hs Hk. apply wp_quick; [done| |done]. intros inst s1 s2 b H. destruct (inst_Stop ctx inst). injection H as <- <-. by apply onlyStorage_quiet.
Qed.
Lemma wp_Checkpoint_ {A} act ctx n sid (k : option error → thread A) Q s : knows s →
  (∀ b s, I s → knows s → wp i (k b) Q s) → wp i (Checkpoint_ act ctx n sid ≫= k) Q s.
Proof using All.
  intros Hs Hk. apply wp_quick; [done| |done]. intros inst s1 s2 b H. destruct (inst_Checkpoint ctx inst) as [[snap inst']|e]; [|by injection H as <- <-].
  destruct (sy_storage s1) as [st|] eqn:Es; [|done]. cbn in H. destruct (st_LastSeq ctx sid st) as [seq|e]; [|by injection H as <- <-].
  destruct (st_Save _ _ _ _) as [st'|e] eqn:E; [|by injection H as <- <-]. injection H as <- <-. split; [|done]. cbn. rewrite Es. constructor.
  intros Hok. eapply law_save; [exact Hok|exact E].
Qed.
End passing.

(** ** Knowledge about one actor *)

Definition notActivating (n : Identifier) (c : sysCore) : Prop := co_activating c !! n = None.
Definition notResident (n : Identifier) (c : sysCore) : Prop := instanceIn n c = None.

#[global] Instance notActivating_calm n : Calm (notActivating n).
Proof using Type. intros c c' Hc. unfold notActivating. by rewrite (ca_activating _ _ Hc). Qed.
#[global] Instance notResident_calm n : Calm (notResident n).
Proof using Type.
  intros c c' Hc. unfold notResident, instanceIn. destruct (ca_table _ _ Hc n) as [e e' Hq|]; [|done]. cbn. by destruct (qe_instance _ _ Hq) as [-> | ->].
Qed.

Lemma notActivating_stable i X n : LEntry n ∈ X → Stable i X (notActivating n).
Proof using Type.
  intros Hn j c c' Hj _ _ HG [Hl H]. unfold notActivating in *. destruct (co_activating c' !! n) as [x|] eqn:E; [|done].
  apply (gu_activating _ _ _ HG) in E as [E|[_ E]]; [congruence|]. rewrite (Hl _ Hn) in E. congruence.
Qed.
Lemma notResident_stable i X n : LEntry n ∈ X → Stable i X (notResident n).
Proof using Type.
  intros Hn j c c' Hj _ _ HG [Hl H]. unfold notResident, instanceIn in *. destruct (co_table c' !! n) as [e'|] eqn:E'; [|done].
  destruct (co_table c !! n) as [e|] eqn:E; cbn in *.
  - destruct (gu_table _ _ _ HG n e E) as (x & Hx & Hf). rewrite E' in Hx. injection Hx as <-. destruct (decide (ec_instance e' = ec_instance e)) as [->|Hne]; [done|].
    apply (fr_instance _ _ _ _ _ Hf) in Hne. rewrite (Hl _ Hn) in Hne. congruence.
  - by destruct (gu_new _ _ _ HG n e' E E') as (_ & ? & _).
Qed.

(** The table of entries, all that [entryOf] reads. *)
Lemma entryOf_core n (s : System) e : sy_table s !! n = Some e → co_table (core s) !! n = Some (coreOf e).
Proof using Type. intros He. cbn. by rewrite lookup_fmap, He. Qed.

Section evicting.
Context (i : nat) (X : gset lock) (P : sysCore → Prop) `{!Stable i X P} `{!Calm P}.
#[local] Abbreviation knows s := (own i X P (core s)).

#[local] Instance more_locks l : Stable i ({[l]} ∪ X) P.
Proof using Stable0. eapply Stable_more; [|done]. by apply union_subseteq_r. Qed.

Lemma wp_pageOut n Q s : LEntry n ∈ X → knows s → (∀ s, I s → knows s → notResident n (core s) → Q () s) → wp i (pageOut cfg n) Q s.
Proof using All.
  intros Hn Hs HQ. unfold pageOut. apply (wp_own i X P); [done|done|]. intros s1 s2 b H1 K1 [= <- <-].
  set (f := en_instance None). assert (core (updateEntry n f s1) = match co_table (core s1) !! n with
    Some e => setEntry n (mkEntryCore (ec_kind e) (ec_revision e) (ec_sessionID e) (ec_durable e) (ec_initialized e) (ec_terminal e) None) (core s1) | None => core s1 end) as E.
  { by apply core_alterEntry. }
  assert (action_ok i s1 (updateEntry n f s1) ∧ calm (core s1) (core (updateEntry n f s1)) ∧ notResident n (core (updateEntry n f s1)) ∧
          co_locks (core (updateEntry n f s1)) = co_locks (core s1)) as (Hok & Hc & Hr & Hlk).
  { unfold action_ok, I, G. rewrite E. destruct (co_table (core s1) !! n) as [e|] eqn:He.
    - set (e' := mkEntryCore _ _ _ _ _ _ _). assert (frozen i (core s1) n e e') as Hf.
      { split; cbn; auto; try congruence; first [by intros []|intros _; by apply K1]. }
      destruct (step_entry ok cfg i n e e' (core s1)) as [? ?]; [done|done|done|done|by left|by right|]. split_and!; [done|done|..].
      + apply (calm_setEntry n e); [done|]. by split; auto.
      + unfold notResident. rewrite instanceIn_setEntry. by rewrite decide_True.
      + done.
    - split_and!; [done|apply Guar_refl|reflexivity| |done]. unfold notResident, instanceIn. by rewrite He. }
  split; [done|]. pose proof (notResident_stable i X n Hn) as HS.
  apply (wp_writes_quiet i X (λ c, P c ∧ notResident n c)).
  - apply _.
  - destruct K1 as [Hl Hp]. split; [by rewrite Hlk|]. split; [by eapply calm_keeps|done].
  - intros s3. apply core_notifyResidency.
  - intros s3 H3 [Hl [Hp Hres]]. by apply HQ.
Qed.

Lemma wp_evictLocked ctx n Q s : LEntry n ∈ X → knows s → (∀ r s, I s → knows s → (r = None → notResident n (core s)) → Q r s) →
  wp i (evictLocked cfg ctx n) Q s.
Proof using All.
  intros Hn Hs HQ. unfold evictLocked. pose proof (notResident_stable i X n Hn) as HS. apply (wp_follows i X P); [done|done|]. intros s1 e H1 K1 He.
  destruct (ae_instance e) as [act|] eqn:Ei.
  - apply (wp_reads i X P); [done|done|]. intros s2 H2 K2. destruct (instanceFinished act s2).
    + apply (wp_Stop_ i X P); [done|]. intros r s3 H3 K3. apply wp_bind, wp_pageOut; [done|done|]. intros s4 H4 K4 Hr. by apply HQ.
    + apply (wp_Checkpoint_ i X P); [done|]. intros [err|] s3 H3 K3; [by apply HQ|]. apply wp_bind, wp_pageOut; [done|done|]. intros s4 H4 K4 Hr. by apply HQ.
  - apply HQ; [done|done|]. intros _. unfold notResident. rewrite <- instanceOf_core. unfold instanceOf. by rewrite He.
Qed.

Lemma wp_tryAcquire {A} l (k : bool → thread A) Q s : knows s →
  (∀ s, I s → l ∉ X → own i ({[l]} ∪ X) P (core s) → (∀ n, l = LEntry n → notActivating n (core s)) → wp i (k true) Q s) →
  (∀ s, I s → knows s → wp i (k false) Q s) → wp i (tryAcquire i l ≫= k) Q s.
Proof using All.
  intros Hs Ht Hf. apply (wp_own i X P); [done|done|]. intros s1 s2 b H1 H2 H3. injection H3 as H3. destruct (sy_locks s1 !! l) as [j|] eqn:E.
  { injection H3 as <- <-. split; [by apply quiet_ok|by apply Hf]. }
  injection H3 as <- <-. assert (action_ok i s1 (sys_locks (<[l:=i]> (sy_locks s1)) s1)) as Hok by (apply (step_acquire ok cfg i l (core s1)); done).
  split; [done|]. destruct H2 as [Hx Hp]. apply Ht; [apply Hok|..].
  - intros Hin. apply Hx in Hin. cbn in Hin. congruence.
  - split; [|by apply (calm_keeps (core s1)); [split; try done; apply calm_preorder|]].
    intros l' [->%elem_of_singleton|Hl']%elem_of_union; cbn; [apply lookup_insert_eq|].
    destruct (decide (l = l')) as [->|]; [apply lookup_insert_eq|]. rewrite lookup_insert_ne by done. by apply Hx.
  - intros n ->. unfold notActivating. cbn. apply eq_None_not_Some. intros [j Hj]. apply (inv_activating _ _ _ H1) in Hj. cbn in Hj. congruence.
Qed.
End evicting.

(** ** Critical sections *)

(** While [entry.mu] of an actor is held by a goroutine that does not activate
    it, nobody does. *)
Definition freeLock (l : lock) (c : sysCore) : Prop := match l with LEntry n => notActivating n c | _ => True end.

#[global] Instance freeLock_calm l : Calm (freeLock l).
Proof using Type. destruct l; try apply _. all: done. Qed.
Lemma freeLock_stable i X l : l ∈ X → Stable i X (freeLock l).
Proof using Type. intros Hl. destruct l; try apply _; [by apply notActivating_stable|done..]. Qed.

Section sections.
Context (i : nat) (X : gset lock) (P : sysCore → Prop) `{!Stable i X P} `{!Calm P}.
#[local] Abbreviation knows s := (own i X P (core s)).

(** The knowledge inside a critical section. *)
Definition inside (l : lock) (P : sysCore → Prop) (c : sysCore) : Prop := P c ∧ freeLock l c.
#[global] Instance inside_calm l P0 : Calm P0 → Calm (inside l P0).
Proof using Type. intros H. unfold inside. apply _. Qed.
#[global] Instance inside_stable l X0 P0 : Stable i X0 P0 → Stable i ({[l]} ∪ X0) (inside l P0).
Proof using Type.
  intros H. unfold inside. apply Stable_and; [eapply Stable_more; [|exact H]; by apply union_subseteq_r|].
  apply freeLock_stable, elem_of_union. left. by apply elem_of_singleton.
Qed.

Lemma wp_enter {A} l (k : () → thread A) Q s : knows s →
  (∀ s, I s → l ∉ X → own i ({[l]} ∪ X) (inside l P) (core s) → wp i (k ()) Q s) → wp i (acquire i l ≫= k) Q s.
Proof using All.
  intros Hs Hk. apply (wp_acquire i X P); [done|done|done|]. intros s1 H1 Hl [Hx Hp] Hn. apply Hk; [done|done|]. split; [done|]. split; [done|].
  destruct l; try done. by apply Hn.
Qed.
Lemma wp_try {A} l (k : bool → thread A) Q s : knows s →
  (∀ s, I s → l ∉ X → own i ({[l]} ∪ X) (inside l P) (core s) → wp i (k true) Q s) →
  (∀ s, I s → knows s → wp i (k false) Q s) → wp i (tryAcquire i l ≫= k) Q s.
Proof using All.
  intros Hs Ht Hf. apply (wp_tryAcquire i X P); [done| |done]. intros s1 H1 Hl [Hx Hp] Hn. apply Ht; [done|done|]. split; [done|]. split; [done|].
  destruct l; try done. by apply Hn.
Qed.
Lemma wp_leave {A} l (k : () → thread A) Q s : l ∉ X → own i ({[l]} ∪ X) (inside l P) (core s) →
  (∀ s, I s → knows s → wp i (k ()) Q s) → wp i (release l ≫= k) Q s.
Proof using All.
  intros Hl Hs Hk. apply (wp_own i ({[l]} ∪ X) (inside l P)); [apply _|done|]. intros s1 s2 b H1 [Hx [Hp Hf]] [= <- <-].
  assert (co_locks (core s1) !! l = Some i) as Hown. { apply Hx. apply elem_of_union. left. by apply elem_of_singleton. }
  assert (action_ok i s1 (sys_locks (delete l (sy_locks s1)) s1)) as Hok.
  { apply (step_release ok cfg i l (core s1)); [done|done|]. intros n ->. exact Hf. }
  split; [done|]. apply Hk; [apply Hok|]. split; [|by apply (calm_keeps (core s1)); [split; try done; apply calm_preorder|]].
  intros l' Hl'. cbn. rewrite lookup_delete_ne by congruence. apply Hx. apply elem_of_union. by right.
Qed.
End sections.

(** [locked], with what its body finds out. *)
Lemma wp_locked {A} i X P l (body : thread A) (P' : A → sysCore → Prop) Q s :
  Stable i X P → Calm P → (∀ a, Stable i X (P' a)) → (∀ a, Calm (P' a)) → own i X P (core s) →
  (∀ s, I s → l ∉ X → own i ({[l]} ∪ X) (inside l P) (core s) → wp i body (λ a s, I s ∧ own i ({[l]} ∪ X) (inside l (P' a)) (core s)) s) →
  (∀ a s, I s → own i X (P' a) (core s) → Q a s) → wp i (locked i l body) Q s.
Proof using All.
  intros HP HC HP' HC' Hs Hbody HQ. unfold locked. apply (wp_enter i X P); [done|]. intros s1 H1 Hl K1. apply wp_bind.
  eapply wp_mono; [by apply Hbody|]. intros a s2 [H2 K2]. apply (wp_leave i X (P' a)); [done|done|]. intros s3 H3 K3. by apply HQ.
Qed.

Section operations.
Context (i : nat) (X : gset lock) (P : sysCore → Prop) `{!Stable i X P} `{!Calm P}.
#[local] Abbreviation knows s := (own i X P (core s)).

Lemma wp_request {A} act (p : Inst → proc (Inst * A)) Q s : knows s → (∀ a s, I s → knows s → Q a s) → wp i (request cfg i act p) Q s.
Proof using All.
  intros Hs HQ. unfold request. apply (wp_locked i X P (LInstance act) _ (λ _, P)); [done|done|done|done|done| |done].
  intros s1 H1 Hl K1. set (X' := {[LInstance act]} ∪ X) in *. set (P1 := inside (LInstance act) P) in *.
  assert (Stable i X' P1) by apply _. apply (wp_follows i X' P1); [done|done|]. intros s2 inst H2 K2 _. apply wp_bind.
  apply (wp_runProc i X' P1); [done|done|]. intros [inst' a] s3 H3 K3. apply (wp_writes_quiet i X' P1); [done|done|done|]. intros s4 H4 K4. by split.
Qed.
End operations.
End calm.
