(* ===== verification/ActorSafe.v ===== *)
(** * The actor system: every operation keeps the invariant

    One lemma per operation of Actors.v: from what a goroutine knows before, to
    what it knows after, whatever the other goroutines do meanwhile. *)

From S2P Require Import Prelude Identifier Storage Values Events Datamodel Chart Interp Steps Definitions Validate Compile Artifact Snapshot.
From S2P Require Import Instance Replay Memory Outbox Threads Observation Routing ActorStore System Actors ActorCore ActorCalm.
From stdpp Require Import options.

Section safe.
Context `{DM : DatamodelSession} {L : Type} `{AS : !ActorStorage L} `{SV : !StorageView L} (ok : L → Prop) `{AL : !ActorStorageLaws L ok}.
Context {Inst : Type} `{IN : !Instances Inst}.
Variable cfg : systemConfig.
Variable range : gset Identifier → list Identifier.

#[local] Abbreviation System := (@System DM L Inst).
#[local] Abbreviation thread := (Threads.thread System).
#[local] Abbreviation sysCore := (@sysCore DM L).
#[local] Abbreviation I := (ActorCalm.I ok cfg (Inst:=Inst)).
#[local] Abbreviation G := (ActorCalm.G (Inst:=Inst)).
#[local] Abbreviation wp := (Threads.wp I G).
#[local] Abbreviation Stable := (ActorCalm.Stable ok cfg).
#[local] Abbreviation room := (λ c, ∀ k, limits cfg k → (Z.of_nat (size (residentsOf (co_table c))) < k)%Z).

(** Room for one more resident is kept by the holder of [admissionMu]. *)
Lemma room_calm : Calm (room : sysCore → Prop).
Proof using Type.
  intros c c' Hc H k Hk. eapply Z.le_lt_trans; [|by apply (H k)]. apply inj_le, residents_mono. intros n e' He' Hi.
  pose proof (ca_table _ _ Hc n) as Ht. rewrite He' in Ht. inversion Ht as [e ? Hq E1 E2|]; subst. exists e. split; [done|].
  destruct (qe_instance _ _ Hq) as [<-|E]; [done|]. rewrite E in Hi. by destruct Hi.
Qed.
Lemma room_stable i X : LAdmission ∈ X → Stable i X room.
Proof using Type.
  intros Hin j c c' Hj _ _ HG [Hl H] k Hk. eapply Z.le_lt_trans; [|by apply (H k)]. apply inj_le, residents_mono. intros n e' He' Hi.
  destruct (co_table c !! n) as [e|] eqn:E.
  - exists e. split; [done|]. destruct (gu_table _ _ _ HG n e E) as (x & Hx & Hf). rewrite He' in Hx. injection Hx as <-.
    destruct (fr_resident _ _ _ _ _ Hf Hi) as [<-|[Hadm _]]; [done|]. rewrite (Hl _ Hin) in Hadm. congruence.
  - destruct (gu_new _ _ _ HG n e' E He') as (_ & E' & _). rewrite E' in Hi. by destruct Hi.
Qed.

Section admission.
Context (i : nat) (X : gset lock) (P : sysCore → Prop) `{!Stable i X P} `{!Calm P}.
#[local] Abbreviation knows s := (own i X P (core s)).

Lemma entry_lock n (Y : gset lock) : LEntry n ∈ {[LEntry n]} ∪ Y.
Proof using Type. apply elem_of_union. left. by apply elem_of_singleton. Qed.

Lemma wp_reapOne n Q s : knows s → (∀ s, I s → knows s → Q () s) → wp i (reapOne cfg i n) Q s.
Proof using All.
  intros Hs HQ. unfold reapOne. apply (wp_try ok cfg i X P); [done| |by intros; apply HQ].
  intros s1 H1 Hn K1. apply (wp_follows ok cfg i ({[LEntry n]} ∪ X) (inside (LEntry n) P)); [apply _|done|]. intros s2 e H2 K2 He.
  apply wp_bind. assert (∀ s, I s → own i ({[LEntry n]} ∪ X) (inside (LEntry n) P) (core s) → wp i (release (LEntry n)) Q s) as Hleave.
  { intros s3 H3 K3. apply (wp_leave ok cfg i X P (LEntry n) Return); [done|done|]. intros s4 H4 K4. by apply HQ. }
  destruct (ae_instance e) as [act|]; [|by apply Hleave]. apply (wp_reads ok cfg i ({[LEntry n]} ∪ X) (inside (LEntry n) P)); [apply _|done|]. intros s3 H3 K3.
  destruct (instanceFinished act s3); [|by apply Hleave]. apply wp_bind.
  apply (wp_evictLocked ok cfg i ({[LEntry n]} ∪ X) (inside (LEntry n) P)); [apply entry_lock|done|]. intros r s4 H4 K4 _. by apply Hleave.
Qed.

Lemma wp_each_knows {A} (f : A → thread ()) xs Q s : (∀ x Q s, knows s → (∀ s, I s → knows s → Q () s) → wp i (f x) Q s) →
  I s → knows s → (∀ s, I s → knows s → Q () s) → wp i (each xs f) Q s.
Proof using Type.
  intros Hf. revert s. induction xs as [|x xs IH]; intros s Hi Hs HQ; [by apply HQ|]. cbn [each]. apply wp_bind, Hf; [done|]. intros s1 H1 K1. by apply IH.
Qed.

Lemma wp_reapFinished Q s : knows s → (∀ s, I s → knows s → Q () s) → wp i (reapFinished cfg range i) Q s.
Proof using All.
  intros Hs HQ. unfold reapFinished. apply (wp_reads ok cfg i X P); [done|done|]. intros s1 H1 K1. apply wp_each_knows; [|done|done|done].
  intros x Q' s' K' HQ'. by apply wp_reapOne.
Qed.

(** A victim that was picked is locked. *)
Definition picked (r : option Identifier) (s : System) : Prop :=
  match r with
  | Some v => LEntry v ∉ X ∧ own i ({[LEntry v]} ∪ X) (inside (LEntry v) P) (core s)
  | None => knows s
  end.

Lemma wp_tryVictim ctx n Q s : knows s → (∀ r s, I s → picked r s → Q r s) → wp i (tryVictim i ctx n) Q s.
Proof using All.
  intros Hs HQ. unfold tryVictim. apply (wp_try ok cfg i X P); [done| |by intros; apply HQ].
  intros s1 H1 Hn K1. apply (wp_follows ok cfg i ({[LEntry n]} ∪ X) (inside (LEntry n) P)); [apply _|done|]. intros s2 e H2 K2 He.
  assert (∀ s, I s → own i ({[LEntry n]} ∪ X) (inside (LEntry n) P) (core s) → wp i (release (LEntry n) ≫= λ _, mret None) Q s) as Hleave.
  { intros s3 H3 K3. apply (wp_leave ok cfg i X P); [done|done|]. intros s4 H4 K4. by apply HQ. }
  destruct (ae_instance e) as [act|]; [|by apply Hleave]. apply (wp_HasActiveInvokes ok cfg i ({[LEntry n]} ∪ X) (inside (LEntry n) P)); [done|].
  intros [[]|err] s3 H3 K3; [by apply Hleave|by apply HQ|by apply Hleave].
Qed.

Lemma wp_pickEvictionVictim ctx exclude Q s : knows s → (∀ r s, I s → picked r s → Q r s) → wp i (pickEvictionVictim range i ctx exclude) Q s.
Proof using All.
  intros Hs HQ. unfold pickEvictionVictim. apply (wp_reads ok cfg i X P); [done|done|]. intros s1 H1 K1. generalize (candidates range exclude s1). intros cs. revert s1 H1 K1.
  induction cs as [|n cs IH]; intros s1 H1 K1; cbn [first]; [by apply HQ|]. apply wp_bind, wp_tryVictim; [done|]. intros [v|] s2 H2 K2; [by apply HQ|by apply IH].
Qed.

Lemma wp_makeRoom fuel ctx limit exclude (R : nat → Prop) Q s : (∀ k, limit k = false → R k) → LAdmission ∈ X →
  (∀ k (s : System), R k → residentCount s = k → room (core s)) → I s → knows s →
  (∀ r s, I s → knows s → (r = None → room (core s)) → Q r s) → wp i (makeRoom cfg range fuel i ctx limit exclude) Q s.
Proof using All.
  intros HR Hadm Hroom. revert s. induction fuel as [|fuel IH]; intros s Hi Hs HQ; cbn [makeRoom].
  { apply (wp_own ok cfg i X P); [done|done|]. by intros s1 s2 b _ _ [=]. }
  apply (wp_reads ok cfg i X P); [done|done|]. intros s1 H1 K1. destruct (negb (limit (residentCount s1))) eqn:El.
  { apply negb_true_iff in El. apply HQ; [done|done|]. intros _. eapply Hroom; [by apply HR|done]. }
  apply wp_bind, wp_pickEvictionVictim; [done|]. intros [v|] s2 H2 K2.
  - destruct K2 as [Hv K2]. apply wp_bind. apply (wp_evictLocked ok cfg i ({[LEntry v]} ∪ X) (inside (LEntry v) P)); [apply entry_lock|done|]. intros r s3 H3 K3 _.
    apply (wp_leave ok cfg i X P); [done|done|]. intros s4 H4 K4. destruct r as [err|]; [by apply HQ|]. by apply IH.
  - apply (wp_reads ok cfg i X P); [done|done|]. intros s3 H3 K3. by apply HQ.
Qed.

Lemma wp_admit ctx exclude Q s : LAdmission ∈ X → knows s → (∀ r s, I s → knows s → (r = None → room (core s)) → Q r s) →
  wp i (admit_ cfg range i ctx exclude) Q s.
Proof using All.
  intros Hadm Hs HQ. unfold admit_. apply wp_bind, wp_reapFinished; [done|]. intros s1 H1 K1. destruct (cf_residencyLimit cfg) as [limit|] eqn:El.
  - apply (wp_reads ok cfg i X P); [done|done|]. intros s2 H2 K2.
    apply (wp_makeRoom _ ctx limit exclude (λ k, limit k = false)); [done|done| |done|done|done].
    intros k s3 Hk E k' Hk'. unfold limits in Hk'. rewrite El in Hk'. injection Hk' as ->. apply bool_decide_eq_false in Hk.
    rewrite <- residents_core. change (Z.of_nat (residentCount s3) < k')%Z. lia.
  - apply HQ; [done|done|]. intros _ k Hk. unfold limits in Hk. congruence.
Qed.
End admission.

(** ** Activation *)

(** Knowledge that an activation does not disturb: it is not about instances. *)
Record sameActorEntry (e e' : entryCore) : Prop := {
  sa_kind : ec_kind e' = ec_kind e;
  sa_revision : ec_revision e' = ec_revision e;
  sa_sessionID : ec_sessionID e' = ec_sessionID e;
  sa_durable : ec_durable e' = ec_durable e;
  sa_initialized : ec_initialized e' = ec_initialized e;
  sa_terminal : ec_terminal e' = ec_terminal e
}.
Record deaf (c c' : sysCore) : Prop := {
  de_charts : co_charts c' = co_charts c;
  de_storage : co_storage c' = co_storage c;
  de_stopped : co_stopped c' = co_stopped c;
  de_stops : co_stops c' = co_stops c;
  de_delivered : co_delivered c' = co_delivered c;
  de_table n : option_Forall2 sameActorEntry (co_table c !! n) (co_table c' !! n)
}.
Class Deaf (P : sysCore → Prop) : Prop := deaf_keeps c c' : deaf c c' → P c → P c'.

#[global] Instance sameActorEntry_refl : Reflexive sameActorEntry.
Proof using Type. by split. Qed.
#[global] Instance Deaf_and P P' : Deaf P → Deaf P' → Deaf (λ c, P c ∧ P' c).
Proof using Type. intros H H' c c' Hc [??]. split; [by apply (H c)|by apply (H' c)]. Qed.
#[global] Instance Deaf_true : Deaf (λ _, True).
Proof using Type. done. Qed.

Definition activatingBy (i : nat) (n : Identifier) (c : sysCore) : Prop := co_activating c !! n = Some i.
#[global] Instance activatingBy_calm i n : Calm (activatingBy i n).
Proof using Type. intros c c' Hc. unfold activatingBy. by rewrite (ca_activating _ _ Hc). Qed.
#[global] Instance activatingBy_stable i X n : Stable i X (activatingBy i n).
Proof using Type. intros j c c' Hj _ _ HG [_ H]. apply (gu_own _ _ _ HG); [congruence|done]. Qed.

Section activation.
Context (i : nat) (X : gset lock) (P : sysCore → Prop) `{!Stable i X P} `{!Calm P} `{!Deaf P}.
Context (n : Identifier) (Hn : LEntry n ∈ X).

#[local] Abbreviation XA := ({[LAdmission]} ∪ X).
(** Under way, and with room. *)
#[local] Abbreviation P2 := (λ c, P c ∧ activatingBy i n c).
#[local] Abbreviation P3 := (λ c, P2 c ∧ room c).

#[local] Instance P2_stable : Stable i XA P2.
Proof using Stable0. apply Stable_and; [|apply _]. eapply Stable_more; [|done]. by apply union_subseteq_r. Qed.
#[local] Instance P3_stable : Stable i XA P3.
Proof using Stable0. apply Stable_and; [apply _|]. apply room_stable, elem_of_union. left. by apply elem_of_singleton. Qed.
#[local] Instance P2_calm : Calm P2.
Proof using Calm0. apply _. Qed.
#[local] Instance P3_calm : Calm P3.
Proof using Calm0. pose proof room_calm. apply _. Qed.

Lemma admission_held (c : sysCore) Q' : own i XA Q' c → co_locks c !! LAdmission = Some i ∧ co_locks c !! LEntry n = Some i.
Proof using Hn. intros [H _]. split; apply H, elem_of_union; [left; by apply elem_of_singleton|by right]. Qed.

Lemma wp_publishInstance act Q s : I s → own i XA P3 (core s) → (∀ s, I s → own i XA P2 (core s) → Q () s) → wp i (publishInstance cfg n act) Q s.
Proof using All.
  intros Hi Hs HQ. unfold publishInstance. apply (wp_follows ok cfg i XA P3); [apply _|done|]. intros s1 e H1 K1 He. destruct (ae_terminal e).
  { apply (wp_Stop_ ok cfg i XA P3); [done|]. intros r s2 H2 K2. apply (wp_writes_quiet ok cfg i XA P3 _ Return); [apply _|done|intros; apply core_notifyResidency|].
    intros s3 H3 [Hl [K3 _]]. by apply HQ. }
  apply (wp_own ok cfg i XA P3); [apply _|done|]. intros s2 s3 [] H2 K2 [= <-]. destruct (admission_held _ _ K2) as [Hadm Hent]. destruct K2 as [Hl [[Hp Hact] Hroom]].
  set (e2 := λ e, mkEntryCore (ec_kind e) (ec_revision e) (ec_sessionID e) (ec_durable e) (ec_initialized e) (ec_terminal e) (Some act)).
  assert (core (updateEntry n (en_instance (Some act)) s2) = match co_table (core s2) !! n with Some e => setEntry n (e2 e) (core s2) | None => core s2 end) as E
    by by apply core_alterEntry.
  assert (action_ok ok cfg i s2 (updateEntry n (en_instance (Some act)) s2) ∧ own i XA P2 (core (updateEntry n (en_instance (Some act)) s2))) as [Hok Hown].
  { unfold action_ok, ActorCalm.I, ActorCalm.G. rewrite E. destruct (co_table (core s2) !! n) as [e0|] eqn:E0; [|by split; [split; [done|apply Guar_refl]|]].
    split; [by apply (step_publish ok cfg i n e0 act (core s2))|]. split; [done|]. split; [|done]. apply (deaf_keeps (core s2)); [|done]. split; try done. cbn. intros m.
    destruct (decide (n = m)) as [<-|Hne]; [|rewrite lookup_insert_ne by done; destruct (_ !! m); by constructor]. rewrite lookup_insert_eq. cbn in E0. rewrite E0. by constructor. }
  split; [done|]. apply (wp_writes_quiet ok cfg i XA P2); [apply _|done|intros; by apply core_updateEntry|]. intros s4 H4 K4.
  apply (wp_writes_quiet ok cfg i XA P2 _ Return); [apply _|done|intros; apply core_notifyResidency|]. intros s5 H5 K5. by apply HQ.
Qed.

Lemma core_openActivation ctx e chart (s s' : System) r : openActivation cfg ctx e chart s = Some (s', r) → core s' = core s.
Proof using Type.
  unfold openActivation. destruct (ae_durable e).
  - change (sy_storage (sys_nextActivation _ s)) with (sy_storage s). destruct (sy_storage s) as [st|]; [|done]. cbn. destruct (loadOutbox _ _ _ _ _ st); [|by intros [= <- <-]].
    destruct (nilProcessor cfg _); by intros [= <- <-].
  - destruct (nilProcessor cfg _); by intros [= <- <-].
Qed.

Lemma wp_hydrate ctx startLive Q s : own i XA P2 (core s) → (∀ r s, I s → own i XA P2 (core s) → Q r s) → wp i (hydrate cfg range i ctx n startLive) Q s.
Proof using All.
  intros Hs HQ. unfold hydrate. apply wp_bind. apply (wp_admit i XA P2); [apply elem_of_union; left; by apply elem_of_singleton|done|].
  intros [err|] s1 H1 K1 Hroom; [by apply HQ|]. assert (own i XA P3 (core s1)) as K1'. { destruct K1 as [? ?]. split; [done|]. split; [done|by apply Hroom]. }
  clear K1 Hroom. assert (∀ s : System, own i XA P3 (core s) → own i XA P2 (core s)) as Hdown by (intros s0 [? [? _]]; by split).
  apply (wp_follows ok cfg i XA P3); [apply _|done|]. intros s2 e H2 K2 He. apply (wp_reads ok cfg i XA P3); [apply _|done|]. intros s3 H3 K3.
  destruct (chartForRevision (ae_kind e) (ae_revision e) s3) as [chart|]; [|by apply HQ, Hdown]. destruct (prepareChart cfg chart); [|by apply HQ, Hdown].
  apply (wp_quiet ok cfg i XA P3); [apply _|done|intros s4 s5 r H; by eapply core_openActivation|]. intros s4 s5 r H4 K4 Hopen E5. rewrite <- E5 in K4.
  assert (I s5) as H5 by (unfold ActorCalm.I; rewrite E5; exact H4). destruct r as [[act source]|err]; [|by apply HQ, Hdown].
  apply wp_bind. apply (wp_locked ok cfg i XA P3 (LInstance act) _ (λ _, P3)); [apply _|apply _|intros; apply _|intros; apply _|done|..].
  - intros s6 H6 Hl K6. set (XI := {[LInstance act]} ∪ XA) in *. assert (Stable i XI (inside (LInstance act) P3)) as HSI by apply _.
    apply wp_bind. apply (wp_runProc ok cfg i XI (inside (LInstance act) P3)); [done|done|]. intros [inst|err] s7 H7 K7; [|by split].
    apply (wp_writes_quiet ok cfg i XI (inside (LInstance act) P3)); [done|done|done|]. intros s8 H8 K8. by split.
  - intros [err|] s6 H6 K6; [by apply HQ, Hdown|]. apply wp_bind. apply wp_publishInstance; [done|done|]. intros s7 H7 K7. by apply HQ.
Qed.

Lemma wp_activateLocked ctx Q s : I s → own i X (λ c, P c ∧ notActivating n c) (core s) →
  (∀ r s, I s → own i X (λ c, P c ∧ notActivating n c) (core s) → Q r s) → wp i (activateLocked cfg range i ctx n) Q s.
Proof using All.
  intros Hi Hs HQ. unfold activateLocked. pose proof (notActivating_stable ok cfg i X n Hn) as HSn. set (P1 := λ c, P c ∧ notActivating n c) in *.
  assert (Stable i X P1) as HS1 by apply _. assert (Calm P1) as HC1 by apply _.
  apply (wp_follows ok cfg i X P1); [done|done|]. intros s1 e H1 K1 He. destruct (ae_terminal e); [by apply HQ|]. destruct (present (ae_instance e)); [by apply HQ|].
  apply (wp_locked ok cfg i X P1 LAdmission _ (λ _, P1)); [done|done|done|done|done| |done]. intros s2 H2 Hl K2. unfold activateAdmitted.
  assert (Stable i XA (inside LAdmission P1)) as HSA by apply _.
  apply (wp_follows ok cfg i XA (inside LAdmission P1)); [done|done|]. intros s3 e3 H3 K3 He3. destruct (present (ae_instance e3)); [by split|].
  apply (wp_own ok cfg i XA (inside LAdmission P1)); [done|done|]. intros s4 s5 passed H4 K4 Hp. cbv beta in Hp. injection Hp as Hp.
  destruct (sy_stopped s4) eqn:Estop; injection Hp as <- <-; [split; [by apply quiet_ok|by split]|].
  destruct K4 as [Hlocks [[HP Hna] Hfree]]. set (s5 := sys_activating _ s4).
  assert (action_ok ok cfg i s4 s5) as Hok. { apply (step_begin_activating ok cfg i n (core s4)); [done|done|]. apply Hlocks, elem_of_union. by right. }
  split; [done|]. assert (own i XA P2 (core s5)) as K5.
  { split; [done|]. split; [|apply lookup_insert_eq]. apply (deaf_keeps (core s4)); [|done]. by split. }
  destruct Hok as [H5 _]. clearbody s5. clear s4 HP Hna Hlocks Hfree Estop H4.
  cbn [negb]. unfold beginHydrating. apply wp_bind. apply (wp_follows ok cfg i XA P2); [apply _|done|]. intros s6 e6 H6 K6 _.
  apply (wp_writes_quiet ok cfg i XA P2); [apply _|done|intros; by rewrite core_notifyResidency, core_updateEntry|]. intros s7 H7 K7.
  apply wp_bind. apply wp_hydrate; [done|]. intros err s8 H8 K8.
  assert (∀ s, I s → own i XA P2 (core s) → wp i (writes (λ s : System, sys_activating (delete n (sy_activating s)) s) ≫= λ _, mret err)
            (λ a s, I s ∧ own i XA (inside LAdmission P1) (core s)) s) as Hend.
  { clear s H8 K8 HQ Hi Hs. intros s H8 K8. apply (wp_own ok cfg i XA P2); [apply _|done|]. intros s9 s10 [] H9 K9 [= <-]. destruct (admission_held _ _ K9) as [_ Hent].
    assert (action_ok ok cfg i s9 (sys_activating (delete n (sy_activating s9)) s9)) as Hok by (by apply (step_end_activating ok cfg i n (core s9))).
    split; [done|]. split; [apply Hok|]. destruct K9 as [Hlocks [HP _]]. split; [done|]. split; [|done]. split; [|apply lookup_delete_eq].
    apply (deaf_keeps (core s9)); [|done]. by split. }
  destruct err as [err|]; [|by apply Hend]. apply (wp_writes_quiet ok cfg i XA P2); [apply _|done|intros; apply core_notifyResidency|]. intros s9 H9 K9. by apply Hend.
Qed.
End activation.
End safe.

(** * The actor system: delivery, definitions, spawning and stopping are safe

    The operations of Actors.v that clients call, each with what its goroutine
    knows at the points that matter: an identified event is recorded and not yet
    applied, a revision is still retained, an entry is at rest. *)

Section ops.
Context `{DM : DatamodelSession} {L : Type} `{AS : !ActorStorage L} `{SV : !StorageView L} (ok : L → Prop) `{AL : !ActorStorageLaws L ok}.
Context {Inst : Type} `{IN : !Instances Inst}.
Variable cfg : systemConfig.
Variable range : gset Identifier → list Identifier.

#[local] Abbreviation System := (@System DM L Inst).
#[local] Abbreviation thread := (Threads.thread System).
#[local] Abbreviation sysCore := (@sysCore DM L).
#[local] Abbreviation I := (ActorCalm.I ok cfg (Inst:=Inst)).
#[local] Abbreviation G := (ActorCalm.G (Inst:=Inst)).
#[local] Abbreviation wp := (Threads.wp I G).
#[local] Abbreviation Stable := (ActorCalm.Stable ok cfg).

(** ** Knowledge about identities *)

(** The actor [n] is pinned. *)
Definition pinned (n : Identifier) (c : sysCore) : Prop := ∃ e, co_table c !! n = Some e ∧ ec_initialized e = true.
(** It is durable and runs the session [sid]. *)
Definition session (n : Identifier) (sid : string) (c : sysCore) : Prop :=
  ∃ e, co_table c !! n = Some e ∧ ec_initialized e = true ∧ ec_durable e = true ∧ ec_sessionID e = sid.
(** A delivery of [sid] is recorded and has not been handed to an instance. *)
Definition fresh (n : Identifier) (sid d : string) (c : sysCore) : Prop :=
  session n sid c ∧ (∃ st, co_storage c = Some st ∧ sv_recorded st sid d) ∧ (sid, d) ∉ co_delivered c.

#[global] Instance pinned_stable i X n : Stable i X (pinned n).
Proof using Type.
  intros j c c' Hj _ _ HG [_ (e & He & Hi)]. destruct (gu_table _ _ _ HG n e He) as (e' & He' & Hf). exists e'. split; [done|].
  by destruct (fr_initialized _ _ _ _ _ Hf Hi).
Qed.
#[global] Instance session_stable i X n sid : Stable i X (session n sid).
Proof using Type.
  intros j c c' Hj _ _ HG [_ (e & He & Hi & Hd & Hs)]. destruct (gu_table _ _ _ HG n e He) as (e' & He' & Hf). exists e'.
  destruct (fr_initialized _ _ _ _ _ Hf Hi) as (? & _ & _ & ?). rewrite (fr_durable _ _ _ _ _ Hf). split_and!; congruence.
Qed.
#[global] Instance pinned_calm n : Calm (pinned n : sysCore → Prop).
Proof using Type.
  intros c c' Hc (e & He & Hi). pose proof (ca_table _ _ Hc n) as Ht. rewrite He in Ht. inversion Ht as [? e' Hq E1 E2|]; subst. exists e'. split; [done|].
  by rewrite (qe_initialized _ _ Hq).
Qed.
#[global] Instance session_calm n sid : Calm (session n sid : sysCore → Prop).
Proof using Type.
  intros c c' Hc (e & He & Hi & Hd & Hs). pose proof (ca_table _ _ Hc n) as Ht. rewrite He in Ht. inversion Ht as [? e' [] E1 E2|]; subst. exists e'.
  split_and!; congruence.
Qed.
#[global] Instance session_deaf n sid : Deaf (session n sid : sysCore → Prop).
Proof using Type.
  intros c c' Hc (e & He & Hi & Hd & Hs). pose proof (de_table _ _ Hc n) as Ht. rewrite He in Ht. inversion Ht as [? e' [] E1 E2|]; subst. exists e'.
  split_and!; congruence.
Qed.

Lemma fresh_stable i X n sid d : LEntry n ∈ X → Stable i X (fresh n sid d).
Proof using AL.
  intros Hn j c c' Hj HI HI' HG [Hl (Hs & (st & Hst & Hr) & Hnew)]. split_and!.
  - by apply (session_stable i X n sid j c c').
  - destruct (gu_storage _ _ _ HG st Hst) as (st' & Hst' & Hss). exists st'. split; [done|]. by apply (ss_recorded _ _ _ _ Hss).
  - intros Hin. destruct (gu_delivered _ _ _ HG sid d Hin) as [?|(n' & e' & Hl' & He' & Hi' & Hd' & Hsid')]; [done|].
    destruct Hs as (e & He & Hi & Hd & Hsid). destruct (inv_stored _ _ c HI n e He Hi Hd) as (st1 & m & E1 & Hm & Em).
    destruct (inv_stored _ _ c HI n' e' He' Hi' Hd') as (st2 & m' & E2 & Hm' & Em'). rewrite E1 in E2. injection E2 as <-.
    assert (n = n') as <- by (apply (law_sessions st1 n n' m m'); [by apply (inv_storage _ _ c HI)|done|done|congruence]).
    rewrite (Hl _ Hn) in Hl'. congruence.
Qed.
#[global] Instance fresh_calm n sid d : Calm (fresh n sid d : sysCore → Prop).
Proof using Type.
  intros c c' Hc (Hs & (st & Hst & Hr) & Hnew). split_and!; [by apply (session_calm n sid c)| |by rewrite (ca_delivered _ _ Hc)].
  pose proof (ca_storage _ _ Hc) as H. rewrite Hst in H. inversion H as [? st' Hq E1 E2|]; subst. exists st'. split; [done|]. by apply (cs_recorded _ _ Hq).
Qed.
#[global] Instance fresh_deaf n sid d : Deaf (fresh n sid d : sysCore → Prop).
Proof using Type.
  intros c c' Hc (Hs & (st & Hst & Hr) & Hnew). split_and!; [by apply (session_deaf n sid c)| |by rewrite (de_delivered _ _ Hc)].
  exists st. by rewrite (de_storage _ _ Hc).
Qed.

(** ** Delivery *)

Section delivery.
Context (i : nat) (X : gset lock) (P : sysCore → Prop) `{!Stable i X P} `{!Calm P} `{!Deaf P}.
Context (n : Identifier) (Hn : LEntry n ∈ X).
#[local] Abbreviation P1 := (λ c, P c ∧ notActivating n c).
#[local] Abbreviation knows s := (own i X P1 (core s)).
#[local] Instance P1_stable : Stable i X P1.
Proof using Stable0 Hn. pose proof (notActivating_stable ok cfg i X n Hn). apply _. Qed.

Lemma wp_reactivate ctx target Q s : I s → knows s → (∀ r s, I s → knows s → Q r s) → wp i (reactivate cfg range i ctx target n) Q s.
Proof using All.
  intros Hi Hs HQ. unfold reactivate. apply wp_bind. apply (wp_activateLocked ok cfg range i X P); [done|done|done|]. intros [err|] s1 H1 K1; [by apply HQ|].
  apply (wp_follows ok cfg i X P1); [apply _|done|]. intros s2 e H2 K2 _. destruct (ae_terminal e); [by apply HQ|].
  destruct (ae_instance e); [by apply HQ|]. apply (wp_own ok cfg i X P1); [apply _|done|]. by intros s3 s4 b _ _ [=].
Qed.

Lemma wp_acquireInstance ctx target Q s : I s → knows s → (∀ r s, I s → knows s → Q r s) → wp i (acquireInstance cfg range i ctx target n) Q s.
Proof using All.
  intros Hi Hs HQ. unfold acquireInstance. apply (wp_follows ok cfg i X P1); [apply _|done|]. intros s1 e H1 K1 _. apply wp_bind.
  assert (∀ s, I s → knows s → wp i (if negb (ae_durable e) then mret (Err (Errorf ("actors: " +:+ quote target +:+ " is not resident (non-durable actors are never paged back in)")))
            else reactivate cfg range i ctx target n) Q s) as Hrest.
  { intros s2 H2 K2. destruct (negb (ae_durable e)); [by apply HQ|]. by apply wp_reactivate. }
  destruct (ae_instance e) as [act|]; [|by apply Hrest]. apply (wp_reads ok cfg i X P1); [apply _|done|]. intros s2 H2 K2.
  destruct (instanceFinished act s2); [|by apply HQ]. apply wp_bind. apply (wp_evictLocked ok cfg i X P1); [done|done|]. intros r s3 H3 K3 _. by apply Hrest.
Qed.

Lemma wp_applyEvent ctx ev act Q s : I s → knows s → (∀ r s, I s → knows s → Q r s) → wp i (applyEvent cfg i ctx n ev act) Q s.
Proof using All.
  intros Hi Hs HQ. unfold applyEvent, Deliver. apply wp_bind. apply (wp_request ok cfg i X P1); [done|]. intros err s1 H1 K1.
  apply (wp_reads ok cfg i X P1); [apply _|done|]. intros s2 H2 K2. apply wp_bind. destruct (instanceFinished act s2); [|by apply HQ].
  apply wp_bind. apply (wp_evictLocked ok cfg i X P1); [done|done|]. intros r s3 H3 K3 _. by apply HQ.
Qed.

End delivery.

(** *** Identified events *)

#[local] Abbreviation calmly := ((λ _, True) : sysCore → Prop).

Section one_actor.
Context (i : nat) (X : gset lock) (n : Identifier) (Hn : LEntry n ∈ X).
#[local] Abbreviation with_ P := (λ c : sysCore, P c ∧ notActivating n c).

(** The record: if it is new, nobody has applied the event. *)
Lemma wp_append ctx sid ev (k : result (N * bool) → thread (result (option nat))) Q s : own i X (with_ (session n sid)) (core s) →
  (∀ r s, I s → match r with Ok (_, true) => own i X (with_ (fresh n sid (DeliveryID ev))) (core s) | _ => own i X (with_ calmly) (core s) end → wp i (k r) Q s) →
  wp i (atomic (λ s, onStorage (st_AppendIngress ctx (mkEntry sid 0 KindExternalEvent (sy_now s) ev "" "" "") (DeliveryID ev)) s) ≫= k) Q s.
Proof using Hn AL IN.
  intros Hs HQ. pose proof (notActivating_stable ok cfg i X n Hn) as HSn. set (d := DeliveryID ev) in *.
  apply (wp_own ok cfg i X (with_ (session n sid))); [apply _|done|]. intros s1 s2 r H1 [Hl [Hss Hna]] Happ. unfold onStorage in Happ.
  destruct (sy_storage s1) as [st|] eqn:Es; [|done]. cbn [mbind option_bind] in Happ.
  destruct (st_AppendIngress _ _ _ _) as [[st' [seq appended]]|err] eqn:E; injection Happ as <- <-.
  - assert (ok st) as Hok by (by apply (inv_storage _ _ _ H1)).
    pose proof (λ H, law_ingress _ _ _ _ _ _ _ Hok H E) as (Hok' & Ha & Hd & Hr & Hnew); [done|]. cbn in Hr, Hnew.
    assert (action_ok ok cfg i s1 (sys_storage (Some st') s1)) as Hact.
    { apply (step_storage ok cfg i st st' (core s1)); [done|done|done|]. split.
      - unfold hasDefinition. rewrite Hd. auto.
      - unfold activeActor. rewrite Ha. auto.
      - intros sid' d' ?. apply Hr. by left.
      - intros m x Hx. exists x. rewrite Ha. by repeat split. }
    split; [done|]. apply HQ; [apply Hact|]. destruct appended; (split; [done|]); (split; [|done]); [|done]. split_and!; [done| |].
    + exists st'. split; [done|]. apply Hr. by right.
    + intros Hin. destruct (inv_recorded _ _ _ H1 sid d Hin) as (st1 & E1 & Hrec). cbn in E1. rewrite Es in E1. injection E1 as <-. by apply Hnew.
  - split; [by apply quiet_ok|]. apply HQ; [done|]. by split.
Qed.

Lemma wp_recordIngress ctx target sid ev act Q s : I s → own i X (with_ (session n sid)) (core s) →
  (∀ r s, I s → match r with Ok (Some _) => own i X (with_ (fresh n sid (DeliveryID ev))) (core s) | _ => own i X (with_ calmly) (core s) end → Q r s) →
  wp i (recordIngress cfg range i ctx target n sid ev act) Q s.
Proof using Hn AL IN.
  intros Hi Hs HQ. unfold recordIngress. pose proof (notActivating_stable ok cfg i X n Hn) as HSn. pose proof (fresh_stable i X n sid (DeliveryID ev) Hn) as HSf.
  set (d := DeliveryID ev) in *. set (PF := with_ (fresh n sid d)) in *. assert (Stable i X PF) as HS2 by apply _.
  assert (∀ (s : System), own i X PF (core s) → own i X (with_ calmly) (core s)) as Hdown by (intros s0 [? [_ ?]]; by split).
  apply wp_append; [done|]. fold d PF. intros [[seq []]|err] s2 H2 K2; [|by apply HQ..].
  apply (wp_follows ok cfg i X PF); [done|done|]. intros s3 e H3 K3 _. apply (wp_reads ok cfg i X PF); [done|done|]. intros s4 H4 K4.
  destruct (_ || _); [|by apply HQ]. apply wp_bind. apply (wp_evictLocked ok cfg i X PF); [done|done|]. intros _ s5 H5 K5 _.
  apply (wp_follows ok cfg i X PF); [done|done|]. intros s6 e6 H6 K6 _. destruct (ae_terminal e6); [by apply HQ, Hdown|]. apply wp_bind.
  apply (wp_reactivate i X (fresh n sid d)); [done|done|done|]. intros [act'|err] s7 H7 K7; [by apply HQ|by apply HQ, Hdown].
Qed.

Lemma wp_deliverLocked ctx target ev Q s : I s → own i X (with_ (pinned n)) (core s) →
  (∀ r s, I s → own i X (with_ calmly) (core s) → Q r s) → wp i (deliverLocked cfg range i ctx target n ev) Q s.
Proof using Hn AL IN.
  intros Hi Hs HQ. unfold deliverLocked. pose proof (notActivating_stable ok cfg i X n Hn) as HSn.
  apply (wp_follows ok cfg i X (with_ (pinned n))); [apply _|done|]. intros s1 e H1 K1 He. destruct (ae_terminal e).
  { apply HQ; [done|]. destruct K1 as [? [_ ?]]. by split. }
  destruct (ae_durable e && negb (bool_decide (DeliveryID ev = ""))) eqn:Eid.
  2: { apply wp_bind. apply (wp_acquireInstance i X calmly); [done|done|by destruct K1 as [? [_ ?]]; split|]. intros [act|err] s2 H2 K2; [|by apply HQ].
       by apply (wp_applyEvent i X calmly). }
  apply andb_true_iff in Eid as [Ed _]. assert (own i X (with_ (session n (ae_sessionID e))) (core s1)) as K1'.
  { destruct K1 as [Hl [(e' & He' & Hinit) Hna]]. split; [done|]. split; [|done]. rewrite (entryOf_core n s1 e He) in He'. injection He' as <-.
    exists (coreOf e). split_and!; [by apply entryOf_core|done..]. }
  clear K1. apply wp_bind. apply (wp_acquireInstance i X (session n (ae_sessionID e))); [done|done|done|]. intros [act|err] s2 H2 K2.
  2: { apply HQ; [done|]. destruct K2 as [? [_ ?]]. by split. }
  apply wp_bind. apply wp_recordIngress; [done|done|]. intros [[act'|]|err] s3 H3 K3; [|by apply HQ..].
  pose proof (fresh_stable i X n (ae_sessionID e) (DeliveryID ev) Hn) as HSf.
  apply (wp_own ok cfg i X (with_ (fresh n (ae_sessionID e) (DeliveryID ev)))); [apply _|done|]. intros s4 s5 [] H4 [Hl [(Hss & (st & Hst & Hrec) & Hnew) Hna]] [= <-].
  destruct Hss as (x & Hx & Hxi & Hxd & Hxs).
  assert (action_ok ok cfg i s4 (sys_delivered (sy_delivered s4 ++ [(ae_sessionID e, DeliveryID ev)]) s4)) as Hact.
  { apply (step_delivered ok cfg i n x st (ae_sessionID e) (DeliveryID ev) (core s4)); auto. }
  split; [done|]. apply (wp_applyEvent i X calmly); [done|apply Hact|by split|done].
Qed.
End one_actor.

Section identified.
Context (i : nat) (X : gset lock).

Lemma wp_deliver ctx target ev Q s : own i X calmly (core s) →
  (∀ r s, I s → own i X calmly (core s) → Q r s) → wp i (deliver cfg range i ctx target ev) Q s.
Proof using AL IN.
  intros Hs HQ. unfold deliver. apply (wp_reads ok cfg i X calmly); [apply _|done|]. intros s1 H1 K1. destruct (sy_stopped s1); [by apply HQ|].
  apply (wp_reads ok cfg i X calmly); [apply _|done|]. intros s2 H2 K2. destruct (resolveTarget cfg target s2) as [n|] eqn:E; [|by apply HQ].
  assert (pinned n (core s2)) as Hpin.
  { unfold resolveTarget in E. assert (∀ m e, resolve m s2 = Some e → pinned m (core s2)) as Hres.
    { intros m e. unfold resolve. destruct (sy_table s2 !! m) as [x|] eqn:Ex; [|done]. cbn. destruct (ae_initialized x) eqn:Ei; [|done]. intros _.
      exists (coreOf x). by split; [apply entryOf_core|]. }
    destruct (resolve target s2) as [e|] eqn:Er; [injection E as <-; eauto|]. destruct (splitRoutingKey target) as [[a b]|]; [|done]. cbn in E.
    case_decide; [|done]. destruct (resolve a s2) eqn:Ea; [|done]. injection E as <-. eauto. }
  apply (wp_locked ok cfg i X (pinned n) (LEntry n) _ (λ _, calmly)); [apply _|apply _|intros; apply _|intros; apply _|by destruct K2; split| |done].
  intros s3 H3 Hl K3. apply (wp_deliverLocked i ({[LEntry n]} ∪ X)); [apply entry_lock|done|done|]. intros r s4 H4 K4. by split.
Qed.

Lemma wp_runJob j Q s : own i X calmly (core s) → (∀ s, I s → own i X calmly (core s) → Q () s) → wp i (runJob cfg range i j) Q s.
Proof using AL IN.
  intros Hs HQ. destruct j as [target ev origin sendID|act typ req target ev|n ev]; cbn [runJob].
  - unfold deliverAsync. apply wp_bind, wp_deliver; [done|]. intros [e|] s1 H1 K1; [|by apply HQ]. unfold reportDeliveryFailure, Deliver. apply wp_bind.
    apply (wp_request ok cfg i X calmly); [done|]. intros r s2 H2 K2. by apply HQ.
  - apply wp_bind, wp_deliver; [done|]. intros err s1 H1 K1.
    apply (wp_calm ok cfg i X calmly); [apply _|apply _|done|..]; intros s2 s3 [] H2 K2 H; [|by apply HQ]. apply (onlyStorage_ok ok cfg); [done|].
    destruct (sy_activations s2 !! act) as [a|]; [|done]. cbn in H. destruct (completeSend cfg act a typ req err s2) as [s4|] eqn:E; [|done]. injection H as <-.
    unfold completeSend in E. apply fmap_Some in E as ([s5 []] & E & ->). eapply (onOutbox_only ok cfg); [|..|exact E]; [done|]. intros w. cbn. unfold acknowledge. apply (complete_view ok).
  - apply wp_bind, wp_deliver; [done|]. intros r s1 H1 K1. by apply HQ.
Qed.
End identified.

(** ** Goroutines of the system *)

(** A call that starts with nothing. *)
Definition safe {A} (i : nat) (t : thread A) : Prop := ∀ s, I s → wp i t (λ _ _, True) s.
#[local] Abbreviation start := (own _ ∅ calmly (core _)).
Lemma start_ok i (s : System) : own i ∅ calmly (core s).
Proof using Type. split; [|done]. by intros l ?%elem_of_empty. Qed.
#[local] Hint Resolve start_ok : core.

(** A body under one mutex, which needs to know nothing else. *)
Lemma wp_locked_plain {A} i X l (body : thread A) Q s : own i X calmly (core s) →
  (∀ s Q, I s → own i ({[l]} ∪ X) (inside l calmly) (core s) → (∀ a s, I s → own i ({[l]} ∪ X) (inside l calmly) (core s) → Q a s) → wp i body Q s) →
  (∀ a s, I s → own i X calmly (core s) → Q a s) → wp i (locked i l body) Q s.
Proof using AL IN.
  intros Hs Hbody HQ. apply (wp_locked ok cfg i X calmly l _ (λ _, calmly)); [apply _|apply _|intros; apply _|intros; apply _|done| |done].
  intros s1 H1 _ K1. apply Hbody; [done|done|]. intros a s2 H2 K2. by split.
Qed.

Lemma Deliver_safe i act ctx ev : safe i (Deliver cfg i act ctx ev).
Proof using AL IN. intros s Hs. apply (wp_request ok cfg i ∅ calmly); auto. Qed.
Lemma ownActivity_safe i act input : safe i (ownActivity cfg i act input).
Proof using AL IN. intros s Hs. apply (wp_request ok cfg i ∅ calmly); auto. Qed.
Lemma deliver_safe i ctx target ev : safe i (deliver cfg range i ctx target ev).
Proof using AL IN. intros s Hs. by apply (wp_deliver i ∅). Qed.

Lemma dispatchNext_safe i : safe i (dispatchNext cfg range i).
Proof using AL IN.
  intros s Hs. unfold dispatchNext. apply (wp_locked_plain i ∅); [done| |done]. intros s1 Q H1 K1 HQ. set (X := {[LWorker]} ∪ ∅) in *.
  assert (∀ (s : System), own i X calmly (core s) → own i X (inside LWorker calmly) (core s)) as Hup by (intros s0 [? _]; by split).
  apply (wp_quiet ok cfg i X (inside LWorker calmly)); [apply _|done|..].
  - intros s2 s3 j H. destruct (sy_dispatchQueue s2); [done|]. destruct (sy_dispatchRunning s2); [|done]. by injection H as <- <-.
  - intros s2 s3 j H2 K2 _ E. apply (wp_runJob i X); [rewrite E; by destruct K2; split|]. intros s4 H4 K4. by apply HQ, Hup.
Qed.

Lemma dispatcherExit_safe i : safe i (dispatcherExit i).
Proof using AL IN.
  intros s Hs. unfold dispatcherExit. apply (wp_locked_plain i ∅); [done| |done]. intros s1 Q H1 K1 HQ.
  apply (wp_quiet ok cfg i ({[LWorker]} ∪ ∅) (inside LWorker calmly)); [apply _|done|..].
  - intros s2 s3 j H. destruct (sy_dispatchQueue s2); [|done]. destruct (_ && _); [|done]. by injection H as <- <-.
  - intros s2 s3 j H2 K2 H E. apply HQ; [by unfold ActorCalm.I; rewrite E|by rewrite E].
Qed.

Lemma reapTerminal_safe i n act : safe i (reapTerminal cfg i n act).
Proof using AL IN.
  intros s Hs. unfold reapTerminal. apply (wp_quiet ok cfg i ∅ calmly); [apply _|done|..].
  { intros s1 s2 [] H. case_decide; [|done]. destruct (instanceFinished act s1); [|done]. by injection H as <-. }
  intros s1 s2 [] H1 _ _ E. apply (wp_locked_plain i ∅); [done| |done]. intros s3 Q H3 K3 HQ.
  apply (wp_follows ok cfg i ({[LEntry n]} ∪ ∅) (inside (LEntry n) calmly)); [apply _|done|]. intros s4 e H4 K4 _. case_decide; [|by apply HQ]. apply wp_bind.
  apply (wp_evictLocked ok cfg i ({[LEntry n]} ∪ ∅) (inside (LEntry n) calmly)); [apply entry_lock|done|]. intros r s5 H5 K5 _. by apply HQ.
Qed.

Lemma wp_sweepError {A} i X P n e (k : () → thread A) Q s : Stable i X P → I s → own i X P (core s) →
  (∀ s, I s → own i X P (core s) → wp i (k ()) Q s) → wp i (sweepError cfg n e ≫= k) Q s.
Proof using AL IN. intros HS Hi Hs HQ. unfold sweepError. destruct (cf_onSweepError cfg); [|by apply HQ]. by apply (wp_writes_quiet ok cfg i X P). Qed.

Lemma wp_sweepOne i X P n Q s : Stable i X P → Calm P → own i X P (core s) →
  (∀ s, I s → own i X P (core s) → Q () s) → wp i (sweepOne cfg i n) Q s.
Proof using AL IN.
  intros HS HC Hs HQ. unfold sweepOne. apply (wp_try ok cfg i X P); [done| |by intros; apply HQ]. intros s1 H1 Hl K1.
  set (X' := {[LEntry n]} ∪ X) in *. set (P' := inside (LEntry n) P) in *. assert (Stable i X' P') as HS' by apply _.
  assert (∀ s, I s → own i X' P' (core s) → wp i (release (LEntry n)) Q s) as Hleave.
  { intros s2 H2 K2. apply (wp_leave ok cfg i X P (LEntry n) Return); [done|done|]. intros s3 H3 K3. by apply HQ. }
  assert (∀ e s, I s → own i X' P' (core s) → wp i (sweepError cfg n e ≫= λ _, release (LEntry n)) Q s) as Herr by (intros; by apply (wp_sweepError i X' P')).
  apply (wp_follows ok cfg i X' P'); [done|done|]. intros s2 e H2 K2 _. apply wp_bind. destruct (ae_instance e) as [act|]; [|by apply Hleave].
  apply (wp_HasActiveInvokes ok cfg i X' P'); [done|]. intros [[]|err] s3 H3 K3; [by apply Hleave| |].
  - apply wp_bind. apply (wp_evictLocked ok cfg i X' P'); [apply entry_lock|done|]. intros [err|] s4 H4 K4 _; [|by apply Hleave].
    specialize (Herr err s4 H4 K4). unfold sweepError in *. by destruct (cf_onSweepError cfg).
  - specialize (Herr err s3 H3 K3). unfold sweepError in *. by destruct (cf_onSweepError cfg).
Qed.

Lemma runSweep_safe i : safe i (runSweep cfg range i).
Proof using AL IN.
  intros s Hs. unfold runSweep. apply (wp_quiet ok cfg i ∅ calmly); [apply _|done|..].
  { intros s1 s2 [] H. destruct (sy_sweep s1); [|done]. case_decide; [|done]. by injection H as <-. }
  intros s1 s2 [] H1 _ _ E. apply (wp_reads ok cfg i ∅ calmly); [apply _|done|]. intros s3 H3 _. destruct (sy_stopped s3); [done|]. apply wp_bind.
  apply (wp_reapFinished ok cfg range i ∅ calmly); [done|]. intros s4 H4 _. apply (wp_reads ok cfg i ∅ calmly); [apply _|done|]. intros s5 H5 _. apply wp_bind.
  apply (wp_each_knows ok cfg i ∅ calmly); [|done|done|].
  - intros n Q s6 K6 HQ. by apply (wp_sweepOne i ∅ calmly).
  - intros s6 H6 _. unfold armSweep. apply (wp_writes_quiet ok cfg i ∅ calmly _ Return); [apply _|done|by intros s7; destruct (_ || _)|done].
Qed.

(** Operations that have no part in any of this. *)
Lemma Subscribe_safe i buffer : safe i (Subscribe buffer).
Proof using AL IN.
  intros s Hs. apply (wp_quiet ok cfg i ∅ calmly); [apply _|done| |done]. intros s1 s2 r H. injection H as H. destruct (SubscribeObservations _ _ _). by injection H as <- <-.
Qed.
Lemma CloseSubscription_safe i id : safe i (CloseSubscription id).
Proof using AL IN. intros s Hs. by apply (wp_writes_quiet ok cfg i ∅ calmly _ Return); [apply _|done|..]. Qed.
Lemma Receive_safe i id : safe i (Receive id).
Proof using AL IN.
  intros s Hs. apply (wp_quiet ok cfg i ∅ calmly); [apply _|done| |done]. intros s1 s2 [] H. destruct (receive id (sy_observers s1)); [|done]. by injection H as <-.
Qed.
Lemma Tick_safe i d : safe i (Tick d).
Proof using AL IN. intros s Hs. by apply (wp_writes_quiet ok cfg i ∅ calmly _ Return); [apply _|done|..]. Qed.

(** ** Stopping *)

Hypothesis Hrange : ∀ X, range X ≡ₚ elements X.

Definition stopped (c : sysCore) : Prop := co_stopped c = true.
(** The system is stopped and the actor [n] at rest: it stays so. *)
Definition atRest (n : Identifier) (c : sysCore) : Prop := stopped c ∧ settled c n.
(** All actors are. *)
Definition halted (c : sysCore) : Prop := stopped c ∧ ∀ n, is_Some (co_table c !! n) → settled c n.

#[global] Instance stopped_stable i X : Stable i X stopped.
Proof using Type. intros j c c' _ _ _ HG [_ H]. by apply (gu_stopped _ _ _ HG). Qed.
#[global] Instance stopped_calm : Calm stopped.
Proof using Type. intros c c' Hc. unfold stopped. by rewrite (ca_stopped _ _ Hc). Qed.

Lemma settled_step j c c' n : Guar j c c' → stopped c → settled c n → settled c' n.
Proof using Type.
  unfold stopped. intros HG Hs [Hi Ha]. assert (co_activating c' !! n = None) as Ha'.
  { destruct (co_activating c' !! n) eqn:E; [|done]. apply (gu_activating _ _ _ HG) in E as [?|[? _]]; congruence. }
  split; [|done]. unfold instanceIn in *. destruct (co_table c !! n) as [e|] eqn:E.
  - destruct (gu_table _ _ _ HG n e E) as (e' & -> & Hf). cbn in *. destruct (ec_instance e') eqn:Ei; [|done].
    destruct (fr_resident _ _ _ _ _ Hf) as [?|[_ ?]]; [by rewrite Ei|congruence..].
  - destruct (co_table c' !! n) as [e'|] eqn:E'; [|done]. destruct (gu_new _ _ _ HG n e' E E') as [? _]. congruence.
Qed.
#[global] Instance atRest_stable i X n : Stable i X (atRest n).
Proof using Type. intros j c c' _ _ _ HG [_ [Hs Hn]]. split; [by apply (gu_stopped _ _ _ HG)|by apply (settled_step j c)]. Qed.
#[global] Instance halted_stable i X : Stable i X halted.
Proof using Type.
  intros j c c' _ _ _ HG [_ [Hs Hn]]. split; [by apply (gu_stopped _ _ _ HG)|]. intros n [e' He']. apply (settled_step j c); [done..|].
  destruct (co_table c !! n) as [e|] eqn:E; [apply Hn; by rewrite E|]. destruct (gu_new _ _ _ HG n e' E He') as [? _]. unfold stopped in Hs. congruence.
Qed.
#[global] Instance atRest_calm n : Calm (atRest n).
Proof using Type.
  intros c c' Hc [Hs [Hi Ha]]. split; [by apply (stopped_calm c)|]. split; [|by rewrite (ca_activating _ _ Hc)]. by apply (notResident_calm n c).
Qed.

(** The body of an entry's goroutine: without an error, the entry is at rest. *)
Definition stopBody (n : Identifier) (ctx : option error) : thread (option error) :=
  e ← entryOf n;
  match ae_instance e with
  | None => mret None
  | Some act =>
      if ae_durable e then evictLocked cfg ctx n
      else
        err ← Stop_ act ctx;
        match err with
        | Some err => mret (Some err)
        | None => pageOut cfg n ≫= λ _, mret None
        end
  end.

Lemma wp_stopBody i X n ctx Q s : LEntry n ∈ X → I s → own i X (λ c, stopped c ∧ notActivating n c) (core s) →
  (∀ r s, I s → own i X (λ c, stopped c ∧ notActivating n c) (core s) → (r = None → notResident n (core s)) → Q r s) → wp i (stopBody n ctx) Q s.
Proof using AL IN.
  intros Hn Hi Hs HQ. unfold stopBody. pose proof (notActivating_stable ok cfg i X n Hn) as HSn. set (P := λ c, stopped c ∧ notActivating n c) in *.
  assert (Stable i X P) as HS by apply _. apply (wp_follows ok cfg i X P); [done|done|]. intros s1 e H1 K1 He. destruct (ae_instance e) as [act|] eqn:Ei.
  - destruct (ae_durable e); [by apply (wp_evictLocked ok cfg i X P)|]. apply (wp_Stop_ ok cfg i X P); [done|]. intros [err|] s2 H2 K2; [by apply HQ|].
    apply wp_bind. apply (wp_pageOut ok cfg i X P); [done|done|]. intros s3 H3 K3 Hr. by apply HQ.
  - apply HQ; [done|done|]. intros _. unfold notResident. rewrite <- instanceOf_core. unfold instanceOf. by rewrite He.
Qed.

(** A change of one stop call that loses no entry. *)
Lemma updateStop_ok i k f (s : System) : I s → stopped (core s) →
  (∀ y, sy_stops s !! k = Some y → sc_errs (f y) = [] → sc_errs y = [] ∧ ∀ n, n ∈ sc_waiting y ∨ n ∈ sc_running y →
     settled (core s) n ∨ n ∈ sc_waiting (f y) ∨ n ∈ sc_running (f y)) → action_ok ok cfg i s (updateStop k f s).
Proof using Type.
  intros Hs Hst Hf. apply (step_stops ok cfg i (alter f k (sy_stops s)) (core s)); [done|done|]. intros k' y Hy Herr n Hn.
  destruct (decide (k = k')) as [<-|Hne].
  - rewrite lookup_alter_eq in Hy. destruct (sy_stops s !! k) as [y0|] eqn:E; [|done]. injection Hy as <-. destruct (Hf y0 eq_refl Herr) as [Herr0 Hin].
    destruct (inv_stops _ _ _ Hs k y0 E) as [_ H]. destruct (H Herr0 n Hn) as [?|?]; [by left|]. by apply Hin.
  - rewrite lookup_alter_ne in Hy by done. destruct (inv_stops _ _ _ Hs k' y Hy) as [_ H]. by apply H.
Qed.

Lemma stopEntry_safe i k n : safe i (stopEntry cfg i k n).
Proof using AL IN.
  intros s Hs. unfold stopEntry. apply (wp_own ok cfg i ∅ calmly); [apply _|done|]. intros s1 s2 ctx H1 _ H.
  destruct (sy_stops s1 !! k) as [c|] eqn:Ek; [|done]. cbn in H. case_decide as Hin; [|done]. injection H as <- <-.
  destruct (inv_stops _ _ _ H1 k c Ek) as [Hstop _]. set (f := λ c : stopCall, _).
  assert (action_ok ok cfg i s1 (updateStop k f s1)) as Hok.
  { apply updateStop_ok; [done|done|]. intros y Hy Herr. split; [done|]. intros m Hm. right. cbn. destruct (decide (m = n)) as [->|Hne]; [right; by left|].
    destruct Hm; [left; by apply list_elem_of_filter|right; by right]. }
  split; [done|]. apply wp_bind. change (wp i (locked i (LEntry n) (stopBody n (sc_ctx c))) (λ err, wp i (writes (updateStop k (λ c, mkStop (sc_ctx c) (sc_waiting c)
    (filter (λ m, m ≠ n) (sc_running c)) (sc_errs c ++ match err with Some e => [e] | None => [] end)))) (λ _ _, True)) (updateStop k f s1)).
  apply (wp_locked ok cfg i ∅ stopped (LEntry n) _ (λ r c, stopped c ∧ (if r is None then atRest n c else True))); [apply _|apply _|..].
  - intros [|]; apply _.
  - intros [|]; apply _.
  - split; [by intros l ?%elem_of_empty|done].
  - intros s3 H3 _ K3. apply (wp_stopBody i ({[LEntry n]} ∪ ∅)); [apply entry_lock|done|done|]. intros r s4 H4 [Hl [Hst Hna]] Hr. split; [done|]. split; [done|].
    split; [|done]. split; [done|]. destruct r; [done|]. split; [done|]. split; [by apply Hr|done].
  - intros err s3 H3 K3. apply (wp_own ok cfg i ∅ (λ c, stopped c ∧ (if err is None then atRest n c else True))); [destruct err; apply _|done|].
    intros s4 s5 [] H4 [_ [Hst Hr]] [= <-]. split; [|done]. apply updateStop_ok; [done|done|]. cbn. intros y Hy [He1 He2]%app_nil. split; [done|].
    destruct err; [done|]. intros m [Hm|Hm]; [by right; left|]. destruct (decide (m = n)) as [->|Hne]; [left; by destruct Hr|]. right. right. by apply list_elem_of_filter.
Qed.

Lemma wp_Stop i ctx expires s : I s → wp i (Stop range i ctx expires) (λ errs s, errs = [] → halted (core s)) s.
Proof using Hrange AL IN.
  intros Hs. unfold Stop, beginStop. apply (wp_own ok cfg i ∅ calmly); [apply _|done|]. intros s1 s2 b H1 _ [= <- <-]. set (s2 := sys_stops _ _).
  assert (action_ok ok cfg i s1 s2) as Hok.
  { apply (step_begin_stop ok cfg i i (mkStop ctx (range (dom (sy_table s1))) [] []) (core s1)); [done|]. intros n Hn. cbn in *. rewrite Hrange.
    apply elem_of_elements, elem_of_dom. by rewrite lookup_fmap, fmap_is_Some in Hn. }
  split; [done|]. destruct Hok as [H2 _]. generalize (negb (sy_stopped s1)). clearbody s2. intros first. apply wp_bind.
  assert (∀ s, I s → wp i (awaitEntries i expires ≫= λ errs, awaitDispatcher expires ≫= λ errs', mret (errs ++ errs')) (λ errs s, errs = [] → halted (core s)) s) as Hrest.
  { clear s s1 s2 Hs H1 H2. intros s Hs. apply (wp_own ok cfg i ∅ calmly); [apply _|done|]. intros s1 s2 errs H1 _ Haw.
    assert (s2 = s1 ∧ (errs = [] → halted (core s1))) as [-> Hh].
    { destruct (sy_stops s1 !! i) as [c|] eqn:Ec; [|done]. cbn in Haw. destruct (inv_stops _ _ _ H1 i c Ec) as [Hst Hset].
      destruct (sc_waiting c) eqn:Ew, (sc_running c) eqn:Er; [injection Haw as <- <-|destruct expires as [x|]; [|done]; cbn in Haw; injection Haw as <- <-..].
      - split; [done|]. intros He. split; [done|]. intros n Hn.
        by destruct (Hset He n Hn) as [?|[?%elem_of_nil|?%elem_of_nil]].
      - split; [done|]. by intros [_ ?]%app_nil.
      - split; [done|]. by intros [_ ?]%app_nil.
      - split; [done|]. by intros [_ ?]%app_nil. }
    split; [by apply quiet_ok|]. apply (wp_quiet ok cfg i ∅ (λ c, errs = [] → halted c)).
    - intros j c c' Hj Hc Hc' HG [Hl H] He. apply (halted_stable i ∅ j c c'); [done..|]. split; auto.
    - split; [by intros l ?%elem_of_empty|done].
    - intros s3 s4 b H. destruct (_ || _); [by injection H as <- <-|]. destruct expires; [|done]. by injection H as <- <-.
    - intros s3 s4 b H3 [_ K3] _ E [He _]%app_nil. rewrite E. by apply K3. }
  destruct first; [|by apply Hrest].
  do 2 (apply (wp_writes_quiet ok cfg i ∅ calmly); [apply _|done|done|]; intros ? ? _). apply (wp_writes_quiet ok cfg i ∅ calmly _ Return); [apply _|done|done|].
  intros s5 H5 _. by apply Hrest.
Qed.

End ops.
