(* ===== verification/ActorPins.v ===== *)
(** * The actor system: a pinned revision stays

    [Publish], [CollectDefinition] and [Spawn]: revisions are retained before an
    actor is pinned to them, and only dropped when no actor can execute them. *)

From S2P Require Import Prelude Identifier Storage Values Events Datamodel Chart Interp Steps Definitions Validate Compile Artifact.
From S2P Require Import Snapshot Instance Replay Memory Outbox Threads Observation Routing ActorStore System Actors ActorCore ActorCalm ActorSafe.
From stdpp Require Import options.

Section pins.
Context `{DM : DatamodelSession} {L : Type} `{AS : !ActorStorage L} `{SV : !StorageView L} (ok : L → Prop) `{AL : !ActorStorageLaws L ok}.
Context {Inst : Type} `{IN : !Instances Inst}.
Variable cfg : systemConfig.
Variable parseDuration : string → result Z.
Variable jsonMarshal : ChartDefinition → result string.
Variable sha256 : string → string.
Variable jsonDecode : string → result (ChartDefinition * trailing).
Variable range : gset Identifier → list Identifier.
Hypothesis Hrange : ∀ X, range X ≡ₚ elements X.

#[local] Abbreviation System := (@System DM L Inst).
#[local] Abbreviation thread := (Threads.thread System).
#[local] Abbreviation sysCore := (@sysCore DM L).
#[local] Abbreviation I := (ActorCalm.I ok cfg (Inst:=Inst)).
#[local] Abbreviation G := (ActorCalm.G (Inst:=Inst)).
#[local] Abbreviation wp := (Threads.wp I G).
#[local] Abbreviation Stable := (ActorCalm.Stable ok cfg).


#[local] Abbreviation calmly := ((λ _, True) : sysCore → Prop).
#[local] Abbreviation safe := (ActorSafe.safe ok cfg (Inst:=Inst)).

(** ** Charts *)

Lemma Compile_ID d model c : Compile parseDuration jsonMarshal sha256 d (Some model) = Ok c → df_ID (cc_definition c) = df_ID d.
Proof using Type.
  intros H. destruct (Compile_fields parseDuration jsonMarshal sha256 d model c H) as (Hn & _). unfold normalizeDefinition in Hn.
  repeat (apply result_bind_Ok in Hn as (? & _ & Hn)). by injection Hn as <-.
Qed.

Lemma artifactCompile_revision a model c : artifactCompile parseDuration jsonMarshal sha256 jsonDecode a (Some model) = Ok c → cc_revision c = da_Revision a.
Proof using Type.
  unfold artifactCompile. intros (d & _ & H)%result_bind_Ok. apply result_bind_Ok in H as (u & _ & H). apply result_bind_Ok in H as (c' & _ & H).
  apply result_bind_Ok in H as (u' & Hf & [= <-]). unfold fail_if in Hf. destruct (_ || _) eqn:E; [done|]. apply orb_false_iff in E as [_ E].
  by apply negb_false_iff, bool_decide_eq_true in E.
Qed.

(** What is in a registry whose lock is held does not change. *)
Definition registryIs (k : Identifier) (r : chartRegistry) (c : sysCore) : Prop := co_charts c !! k = Some r.
Lemma registryIs_stable i X k r : LPublish k ∈ X → Stable i X (registryIs k r).
Proof using Type.
  intros Hk j c c' Hj _ _ HG [Hl H]. destruct (gu_charts _ _ _ HG k r H) as (r' & Hr' & _ & [E| ->]); [|done]. rewrite (Hl _ Hk) in E. congruence.
Qed.
#[global] Instance registryIs_calm k r : Calm (registryIs k r).
Proof using Type. intros c c' Hc. unfold registryIs. by rewrite (ca_charts _ _ Hc). Qed.

(** The registry of a kind that was registered, whatever it has. *)
Definition registered (k : Identifier) (model : Datamodel) (c : sysCore) : Prop := ∃ r, co_charts c !! k = Some r ∧ cr_datamodel r = model.
#[global] Instance registered_stable i X k model : Stable i X (registered k model).
Proof using Type.
  intros j c c' Hj _ _ HG [Hl (r & H & Hm)]. destruct (gu_charts _ _ _ HG k r H) as (r' & Hr' & Hd & _). exists r'. split; [done|]. congruence.
Qed.
#[global] Instance registered_calm k model : Calm (registered k model).
Proof using Type. intros c c' Hc. unfold registered. by rewrite (ca_charts _ _ Hc). Qed.

(** ** Publish *)

Section publishing.
Context (i : nat) (X : gset lock) (k : Identifier) (Hk : LPublish k ∈ X).

Lemma wp_storeArtifact {A} ctx chart (K : result unit → thread A) Q s : df_ID (cc_definition chart) = k →
  own i X calmly (core s) → (∀ r s, I s → own i X calmly (core s) → wp i (K r) Q s) → wp i (storeArtifact ctx chart ≫= K) Q s.
Proof using Hk AL.
  intros Hid Hs HQ. unfold storeArtifact. apply (wp_own ok cfg i X calmly); [apply _|done|]. intros s1 s2 r H1 K1 H. injection H as H.
  destruct (sy_storage s1) as [st|] eqn:Es; [|injection H as <- <-; by split; [apply quiet_ok|apply HQ]].
  destruct (st_PutDefinition _ _ _) as [[st' put]|e] eqn:E; injection H as <- <-; [|by split; [apply quiet_ok|apply HQ]].
  assert (ok st) as Hok by (by apply (inv_storage _ _ _ H1)). pose proof (law_put _ _ _ _ _ Hok E) as (Hok' & Ha & Hr & Hd).
  assert (action_ok ok cfg i s1 (sys_storage (Some st') s1)) as Hact.
  { apply (step_storage ok cfg i st st' (core s1)); [done|done|done|]. split.
    - intros k' r Hdef. destruct (Hd k' r Hdef) as [?| ->]; [by left|]. right. change (co_locks (core s1) !! LPublish (df_ID (cc_definition chart)) = Some i). rewrite Hid. by apply K1.
    - unfold activeActor. rewrite Ha. auto.
    - intros sid d. by rewrite Hr.
    - intros n m Hm. exists m. rewrite Ha. by repeat split. }
  split; [done|]. apply HQ; [apply Hact|]. by destruct K1; split.
Qed.

Lemma wp_install {A} chart (K : result string → thread A) Q s : own i X calmly (core s) →
  (∀ r s, I s → own i X calmly (core s) → wp i (K r) Q s) → wp i (atomic (install k chart) ≫= K) Q s.
Proof using Hk AL.
  intros Hs HQ. apply (wp_own ok cfg i X calmly); [apply _|done|]. intros s1 s2 r H1 K1 H. unfold install in H.
  destruct (sy_charts s1 !! k) as [reg|] eqn:Ek; [|done]. cbn [mbind option_bind] in H.
  assert (∀ revs, (∀ rev c, revs !! rev = Some c → cc_revision c = rev) → is_Some (revs !! cc_revision chart) → (∀ rev, is_Some (cr_revisions reg !! rev) → is_Some (revs !! rev)) →
    let s2 := sys_charts (<[k := mkRegistry _ (cr_datamodel reg) (cc_revision chart) revs]> (sy_charts s1)) s1 in action_ok ok cfg i s1 s2) as Hstep.
  { intros revs Hkey Hcur Hkeep. apply (step_registry ok cfg i k reg (mkRegistry _ (cr_datamodel reg) (cc_revision chart) revs) (core s1));
      [done|done|by apply K1|done|done|done|auto]. }
  assert (∀ rev c, cr_revisions reg !! rev = Some c → cc_revision c = rev) as Hkeyed by (intros rev c; by apply (inv_keyed _ _ _ H1 k reg)).
  destruct (cr_revisions reg !! cc_revision chart) as [old|] eqn:Er.
  - destruct (artifactEqual _ _); injection H as <- <-; [|by split; [apply quiet_ok|apply HQ]].
    assert (action_ok ok cfg i s1 (sys_charts (<[k := mkRegistry _ (cr_datamodel reg) (cc_revision chart) (cr_revisions reg)]> (sy_charts s1)) s1)) as Hact by (apply Hstep; eauto).
    split; [done|]. apply HQ; [apply Hact|]. by destruct K1; split.
  - injection H as <- <-. set (s2 := sys_charts _ _). assert (action_ok ok cfg i s1 s2) as Hact.
    { apply Hstep; [|by rewrite lookup_insert_eq|intros rev ?; rewrite lookup_insert_is_Some'; auto]. intros rev c [[<- <-]|[_ ?]]%lookup_insert_Some; auto. }
    split; [done|]. apply HQ; [apply Hact|]. by destruct K1; split.
Qed.
End publishing.

Lemma Publish_safe i ctx d : safe i (Publish cfg parseDuration jsonMarshal sha256 i ctx d).
Proof using AL IN.
  intros s Hs. unfold Publish. destruct (Validate d); [|done]. apply (wp_reads ok cfg i ∅ calmly); [apply _|apply start_ok|]. intros s1 H1 _.
  destruct (sy_charts s1 !! df_ID d) as [reg|]; [|done]. apply (wp_locked_plain ok cfg i ∅); [apply start_ok| |done]. intros s2 Q H2 K2 HQ.
  destruct (Compile _ _ _ _ _) as [chart|e] eqn:Ec; [|by apply HQ]. destruct (prepareChart cfg chart); [|by apply HQ]. apply Compile_ID in Ec.
  set (X := {[LPublish (df_ID d)]} ∪ ∅) in *. assert (LPublish (df_ID d) ∈ X) as Hin by (apply elem_of_union; left; by apply elem_of_singleton).
  assert (∀ (s : System), own i X calmly (core s) → own i X (inside (LPublish (df_ID d)) calmly) (core s)) as Hup by (intros s0 [? _]; by split).
  apply (wp_storeArtifact i X (df_ID d)); [done|done|by destruct K2; split|]. intros [[]|e] s3 H3 K3; [|by apply HQ, Hup].
  apply (wp_install i X (df_ID d)); [done|done|]. intros [previous|e] s4 H4 K4; [|by apply HQ, Hup].
  apply (wp_writes_quiet ok cfg i X calmly); [apply _|done| |intros s5 H5 K5; by apply HQ, Hup]. intros s5. unfold announcePublication. by destruct (_ || _).
Qed.

(** ** CollectDefinition *)

(** No ephemeral actor of [k] executes the revision. *)
Definition unreferenced (k : Identifier) (revision : string) (c : sysCore) : Prop :=
  ∀ n e, co_table c !! n = Some e → ec_kind e = k → ec_revision e = revision → ec_durable e = false → ec_initialized e = true → ec_terminal e = true.
(** No durable one does, and none can be begun. *)
Definition deleted (k : Identifier) (revision : string) (c : sysCore) : Prop :=
  ∀ st, co_storage c = Some st → ¬ hasDefinition st k revision ∧ ∀ n, ¬ activeActor st n k revision.

Lemma unreferenced_stable i X k revision : LPublish k ∈ X → Stable i X (unreferenced k revision).
Proof using Type.
  intros Hk j c c' Hj _ _ HG [Hl H] n e' He' Ek Er Ed Ei. destruct (co_table c !! n) as [e|] eqn:E.
  - destruct (gu_table _ _ _ HG n e E) as (x & Hx & Hf). rewrite He' in Hx. injection Hx as <-. rewrite (fr_durable _ _ _ _ _ Hf) in Ed.
    destruct (ec_initialized e) eqn:Ei0.
    + destruct (fr_initialized _ _ _ _ _ Hf Ei0) as (_ & E1 & E2 & _). apply (fr_terminal _ _ _ _ _ Hf), (H n e); congruence.
    + destruct (fr_pinned _ _ _ _ _ Hf) as [_ ?]; congruence.
  - destruct (gu_new _ _ _ HG n e' E He') as (_ & _ & _ & Hnew). destruct (Hnew Ei) as [_ Hlock]. rewrite Ek, (Hl _ Hk) in Hlock. congruence.
Qed.
Lemma deleted_stable i X k revision : LPublish k ∈ X → Stable i X (deleted k revision).
Proof using Type.
  intros Hk j c c' Hj _ _ HG [Hl H] st' Hst'. destruct (co_storage c) as [st|] eqn:E; [|by rewrite (gu_no_storage _ _ _ HG E) in Hst'].
  destruct (gu_storage _ _ _ HG st E) as (st1 & E1 & Hss). rewrite Hst' in E1. injection E1 as <-. destruct (H st E) as [Hd Ha]. split.
  - intros Hd'. destruct (ss_definition _ _ _ _ Hss _ _ Hd') as [?|Hlock]; [done|]. rewrite (Hl _ Hk) in Hlock. congruence.
  - intros n Hn. destruct (ss_active _ _ _ _ Hss _ _ _ Hn) as [?|[_ ?]]; [by eapply Ha|done].
Qed.

Section collecting.
Context (i : nat) (X : gset lock) (k : Identifier) (Hk : LPublish k ∈ X) (revision : string).
#[local] Abbreviation P0 reg := (λ c, registryIs k reg c ∧ unreferenced k revision c).
#[local] Abbreviation P1 reg := (λ c, P0 reg c ∧ deleted k revision c).

#[local] Instance P0_stable reg : Stable i X (P0 reg).
Proof using Hk. pose proof (registryIs_stable i X k reg Hk). pose proof (unreferenced_stable i X k revision Hk). apply _. Qed.
#[local] Instance P1_stable reg : Stable i X (P1 reg).
Proof using Hk. pose proof (deleted_stable i X k revision Hk). apply _. Qed.

Lemma referenced_knows (s : System) : referencedLocally range revision s = false → unreferenced k revision (core s).
Proof using Hrange.
  intros H n e He _ Hr _ Hi. cbn in He. rewrite lookup_fmap in He. destruct (sy_table s !! n) as [x|] eqn:Ex; [|done]. injection He as <-.
  destruct (ec_terminal (coreOf x)) eqn:Et; [done|]. exfalso. unfold referencedLocally in H. apply not_true_iff_false in H. apply H, existsb_exists. exists n. split.
  - apply list_elem_of_In. rewrite Hrange. apply elem_of_elements, elem_of_dom. by rewrite Ex.
  - rewrite Ex. cbn in Hr, Hi, Et. rewrite Hi, Et, bool_decide_eq_true_2 by done. done.
Qed.

(** [DeleteDefinitionIfUnreferenced] of the storage. *)
Lemma wp_deleteStored {A} ctx reg (K : result DefinitionDeleteResult → thread A) Q s : own i X (P0 reg) (core s) →
  (∀ r s, I s → own i X (P0 reg) (core s) → (match r with Ok r => r ≠ DefinitionReferenced | Err _ => False end → deleted k revision (core s)) → wp i (K r) Q s) →
  wp i (deleteStored ctx revision ≫= K) Q s.
Proof using Hk AL.
  intros Hs HQ. unfold deleteStored. apply (wp_own ok cfg i X (P0 reg)); [apply _|done|]. intros s1 s2 r H1 K1 H. injection H as H.
  destruct (sy_storage s1) as [st|] eqn:Es.
  - assert (ok st) as Hok by (by apply (inv_storage _ _ _ H1)). destruct (st_DeleteDefinition _ _ _) as [[st' del]|e] eqn:E; injection H as <- <-.
    + pose proof (law_delete _ _ _ _ _ Hok E) as (Hok' & Ha & Hr & Hd & Hdel).
      assert (action_ok ok cfg i s1 (sys_storage (Some st') s1)) as Hact.
      { apply (step_storage ok cfg i st st' (core s1)); [done|done|done|]. split.
        - intros k' r Hdef. left. by apply Hd.
        - unfold activeActor. rewrite Ha. auto.
        - intros sid d. by rewrite Hr.
        - intros n m Hm. exists m. rewrite Ha. by repeat split. }
      split; [done|]. apply HQ; [apply Hact|done|]. intros Hne st1 [= <-]. destruct (Hdel Hne) as [Hnone Hact']. split; [|intros n; apply Hact'].
      intros (a & Ha' & _). congruence.
    + split; [by apply quiet_ok|]. by apply HQ.
  - injection H as <- <-. split; [by apply quiet_ok|]. apply HQ; [done|done|]. intros _ st Hst. cbn in Hst. congruence.
Qed.

Lemma wp_dropRevision reg r Q s : cr_current reg ≠ revision → own i X (P1 reg) (core s) →
  (∀ r s, I s → own i X calmly (core s) → Q r s) → wp i (dropRevision k revision r) Q s.
Proof using Hk AL.
  intros Hcur Hs HQ. unfold dropRevision. apply (wp_own ok cfg i X (P1 reg)); [apply _|done|]. intros s1 s2 res H1 K1 H. injection H as H.
  destruct K1 as [Hl [[Hreg Hun] Hdel]]. unfold registryIs in Hreg. cbn in Hreg. rewrite Hreg in H. rewrite decide_False in H by done. injection H as <- <-.
  set (reg' := mkRegistry _ _ _ _). assert (action_ok ok cfg i s1 (sys_charts (<[k := reg']> (sy_charts s1)) s1)) as Hact.
  { apply (step_registry ok cfg i k reg reg' (core s1)); [done|done|by apply Hl|done|..].
    - cbn. rewrite lookup_delete_ne by done. by apply (inv_current _ _ _ H1 k reg).
    - intros rev c. cbn. intros [_ Hc]%lookup_delete_Some. by apply (inv_keyed _ _ _ H1 k reg).
    - intros rev Hrev. cbn. destruct (decide (revision = rev)) as [<-|Hne]; [|rewrite lookup_delete_ne by done; auto]. right. split.
      + intros st n Hst. by apply (Hdel st Hst).
      + intros n e He Ek Er Ed Ei. by apply (Hun n e). }
  split; [done|]. apply HQ; [apply Hact|]. by split.
Qed.

Lemma wp_collectLocked ctx Q s : own i X calmly (core s) → (∀ r s, I s → own i X calmly (core s) → Q r s) →
  wp i (collectLocked range ctx k revision) Q s.
Proof using Hk AL IN Hrange.
  intros Hs HQ. unfold collectLocked. apply (wp_follows ok cfg i X calmly); [apply _|done|]. intros s1 reg H1 K1 Hreg.
  case_decide as Hcur; [by apply HQ|]. pose proof (registryIs_stable i X k reg Hk) as HSr.
  assert (∀ P (s : System), own i X P (core s) → own i X calmly (core s)) as Hdown by (intros P s0 [? _]; by split).
  assert (own i X (registryIs k reg) (core s1)) as K1' by (by destruct K1; split).
  apply wp_bind. assert (∀ s go, I s → own i X (registryIs k reg) (core s) → wp i (match go with
    | Ok true => referenced ← reads (referencedLocally range revision);
        if (referenced : bool) then mret (Ok DefinitionReferenced)
        else r ← deleteStored ctx revision; match r with Err e => mret (Err e) | Ok DefinitionReferenced => mret (Ok DefinitionReferenced) | Ok r => dropRevision k revision r end
    | Ok false => mret (Ok DefinitionNotFound) | Err e => mret (Err e) end) Q s) as Hgo.
  { intros s2 [[]|e] H2 K2; [|by apply HQ; eauto..]. apply (wp_reads ok cfg i X (registryIs k reg)); [done|done|]. intros s3 H3 K3.
    destruct (referencedLocally range revision s3) eqn:Er; [by apply HQ; eauto|]. apply (wp_deleteStored ctx reg).
    { destruct K3. split; [done|]. split; [done|]. by apply referenced_knows. }
    intros [r|e] s4 H4 K4 Hdel; [|by apply HQ; eauto]. assert (∀ r', r' ≠ DefinitionReferenced → r = r' → wp i (dropRevision k revision r') Q s4) as Hdrop.
    { intros r' Hne ->. apply (wp_dropRevision reg); [done| |done]. destruct K4. split; [done|]. split; [done|]. by apply Hdel. }
    destruct r; [by apply Hdrop|by apply HQ; eauto|by apply Hdrop]. }
  unfold collectible. destruct (present (cr_revisions reg !! revision)); [by apply (Hgo s1 (Ok true))|].
  apply (wp_reads ok cfg i X (registryIs k reg)); [done|done|]. intros s2 H2 K2. by apply Hgo.
Qed.
End collecting.

Lemma CollectDefinition_safe i ctx k revision : safe i (CollectDefinition range i ctx k revision).
Proof using AL IN Hrange.
  intros s Hs. unfold CollectDefinition. apply (wp_reads ok cfg i ∅ calmly); [apply _|apply start_ok|]. intros s1 H1 _.
  destruct (sy_charts s1 !! k); [|done]. apply (wp_locked_plain ok cfg i ∅); [apply start_ok| |done]. intros s2 Q H2 K2 HQ.
  apply (wp_collectLocked i ({[LPublish k]} ∪ ∅)); [apply elem_of_union; left; by apply elem_of_singleton|by destruct K2; split|].
  intros r s3 H3 [? _]. apply HQ; [done|]. by split.
Qed.

(** ** Spawn *)

(** What a spawning goroutine knows of the entry, and of the actor's metadata. *)
Definition durableIs (n : Identifier) (d : bool) (c : sysCore) : Prop := ∃ e, co_table c !! n = Some e ∧ ec_durable e = d.
Definition named (n k : Identifier) (c : sysCore) : Prop := ∃ e, co_table c !! n = Some e ∧ ec_durable e = true ∧ ec_kind e = k.
Definition stored (n : Identifier) (m : ActorMetadata) (c : sysCore) : Prop :=
  ∃ st m', co_storage c = Some st ∧ sv_actors st !! n = Some m' ∧ sameIdentityAs m m'.
(** The revision is retained, as long as the actor has not completed. *)
Definition kept (n : Identifier) (m : ActorMetadata) (k : Identifier) (revision : string) (c : sysCore) : Prop :=
  ∃ st m', co_storage c = Some st ∧ sv_actors st !! n = Some m' ∧ sameIdentityAs m m' ∧ (activeActor st n k revision → retained k revision c).

#[global] Instance durableIs_stable i X n d : Stable i X (durableIs n d).
Proof using Type.
  intros j c c' _ _ _ HG [_ (e & He & Hd)]. destruct (gu_table _ _ _ HG n e He) as (e' & He' & Hf). exists e'. by rewrite (fr_durable _ _ _ _ _ Hf).
Qed.
Lemma calm_entry (c c' : sysCore) n e : calm c c' → co_table c !! n = Some e → ∃ e', co_table c' !! n = Some e' ∧ quietEntry e e'.
Proof using Type. intros Hc He. pose proof (ca_table _ _ Hc n) as Ht. rewrite He in Ht. inversion Ht; subst. eauto. Qed.
Lemma calm_stored (c c' : sysCore) st : calm c c' → co_storage c = Some st → ∃ st', co_storage c' = Some st' ∧ calmStorage st st'.
Proof using Type. intros Hc Hst. pose proof (ca_storage _ _ Hc) as H. rewrite Hst in H. inversion H; subst. eauto. Qed.
#[global] Instance durableIs_calm n d : Calm (durableIs n d).
Proof using Type. intros c c' Hc (e & He & Hd). destruct (calm_entry c c' n e Hc He) as (e' & He' & []). exists e'. split; congruence. Qed.
Lemma named_stable i X n k : LEntry n ∈ X → Stable i X (named n k).
Proof using Type.
  intros Hn j c c' Hj _ _ HG [Hl (e & He & Hd & Hk)]. destruct (gu_table _ _ _ HG n e He) as (e' & He' & Hf). exists e'. split_and!; [done|by rewrite (fr_durable _ _ _ _ _ Hf)|].
  destruct (decide (ec_kind e' = ec_kind e)) as [?|Hne]; [congruence|]. apply (fr_kind _ _ _ _ _ Hf) in Hne. rewrite (Hl _ Hn) in Hne. congruence.
Qed.
#[global] Instance named_calm n k : Calm (named n k).
Proof using Type. intros c c' Hc (e & He & Hd & Hk). destruct (calm_entry c c' n e Hc He) as (e' & He' & []). exists e'. split_and!; congruence. Qed.

Lemma sameIdentityAs_trans m m1 m2 : sameIdentityAs m m1 → sameIdentityAs m1 m2 → sameIdentityAs m m2.
Proof using Type. intros (?&?&?) (?&?&?). repeat split; congruence. Qed.
#[global] Instance stored_stable i X n m : Stable i X (stored n m).
Proof using Type.
  intros j c c' _ _ _ HG [_ (st & m1 & Hst & Hm1 & Hid)]. destruct (gu_storage _ _ _ HG st Hst) as (st' & Hst' & Hss).
  destruct (ss_identity _ _ _ _ Hss n m1 Hm1) as (m2 & Hm2 & Hid2). exists st', m2. eauto using sameIdentityAs_trans.
Qed.
#[global] Instance kept_stable i X n m k revision : Stable i X (kept n m k revision).
Proof using Type.
  intros j c c' _ _ _ HG [_ (st & m1 & Hst & Hm1 & Hid & Hret)]. destruct (gu_storage _ _ _ HG st Hst) as (st' & Hst' & Hss).
  destruct (ss_identity _ _ _ _ Hss n m1 Hm1) as (m2 & Hm2 & Hid2). exists st', m2. split_and!; eauto using sameIdentityAs_trans.
  intros Ha. destruct (ss_active _ _ _ _ Hss _ _ _ Ha) as [Ha0|[E _]]; [|congruence]. destruct (gu_dropped _ _ _ HG k revision (Hret Ha0)) as [?|[_ Hno]]; [done|].
  by destruct (Hno st n Hst).
Qed.
#[global] Instance stored_calm n m : Calm (stored n m).
Proof using Type.
  intros c c' Hc (st & m1 & Hst & Hm1 & Hid). destruct (calm_stored c c' st Hc Hst) as (st' & Hst' & Hcs).
  destruct (cs_identity _ _ Hcs n m1 Hm1) as (m2 & Hm2 & Hid2). exists st', m2. eauto using sameIdentityAs_trans.
Qed.
#[global] Instance kept_calm n m k revision : Calm (kept n m k revision).
Proof using Type.
  intros c c' Hc (st & m1 & Hst & Hm1 & Hid & Hret). destruct (calm_stored c c' st Hc Hst) as (st' & Hst' & Hcs).
  destruct (cs_identity _ _ Hcs n m1 Hm1) as (m2 & Hm2 & Hid2). exists st', m2. split_and!; eauto using sameIdentityAs_trans.
  intros Ha. unfold retained. rewrite (ca_charts _ _ Hc). apply Hret. by apply (cs_active _ _ Hcs).
Qed.
Lemma stored_kept n m k revision (c : sysCore) : stored n m c → retained k revision c → kept n m k revision c.
Proof using Type. intros (st & m' & ? & ? & ?) ?. by exists st, m'. Qed.

(** *** Resolving a revision *)

Section resolving.
Context (i : nat) (X : gset lock) (n k : Identifier) (Hn : LEntry n ∈ X) (m : ActorMetadata) (revision : string).
#[local] Abbreviation W := (λ c, named n k c ∧ notActivating n c).
#[local] Abbreviation WS := (λ c, W c ∧ stored n m c).
#[local] Abbreviation WK := (λ c, W c ∧ kept n m k revision c).
#[local] Instance W_stable : Stable i X W.
Proof using Hn. pose proof (named_stable i X n k Hn). pose proof (notActivating_stable ok cfg i X n Hn). apply _. Qed.

(** What is known when the revision has been resolved. *)
Definition resolved {A} (r : result A) (c : sysCore) : Prop := if r is Ok _ then WK c else W c.

Lemma retained_chart chart (s : System) : chartForRevision k revision s = Some chart → retained k revision (core s).
Proof using Type.
  unfold chartForRevision. destruct (sy_charts s !! k) as [r|] eqn:E; [|done]. cbn. intros H. exists r. split; [done|by rewrite H].
Qed.

(** The revision is put into the registry. *)
Lemma retain_ok chart reg (s : System) : I s → co_locks (core s) !! LPublish k = Some i → sy_charts s !! k = Some reg → cc_revision chart = revision →
  action_ok ok cfg i s (retain k revision chart s) ∧ retained k revision (core (retain k revision chart s)).
Proof using Type.
  intros Hs Hl Hreg Hrev. set (reg' := mkRegistry _ (cr_datamodel reg) (cr_current reg) (<[revision := chart]> (cr_revisions reg))).
  assert (core (retain k revision chart s) = setCharts (<[k := reg']> (sy_charts s)) (core s)) as E.
  { unfold retain, core, setCharts. cbn. f_equal. apply map_eq. intros k'. destruct (decide (k = k')) as [<-|Hne].
    - by rewrite lookup_alter_eq, lookup_insert_eq, Hreg.
    - by rewrite lookup_alter_ne, lookup_insert_ne. }
  unfold action_ok, ActorCalm.I, ActorCalm.G. rewrite E. split.
  - apply (step_registry ok cfg i k reg reg' (core s)); [done|done|done|done|..].
    + cbn. rewrite lookup_insert_is_Some'. right. by apply (inv_current _ _ _ Hs k reg).
    + cbn. intros rev c [[<- <-]|[_ ?]]%lookup_insert_Some; [done|]. by apply (inv_keyed _ _ _ Hs k reg).
    + intros rev Hr. left. cbn. rewrite lookup_insert_is_Some'. auto.
  - exists reg'. cbn. by rewrite !lookup_insert_eq.
Qed.

Lemma wp_loadRevision ctx model Q s : LPublish k ∈ X → I s → own i X (λ c, WS c ∧ registered k model c) (core s) →
  (∀ r s, I s → own i X (resolved r) (core s) → Q r s) → wp i (loadRevision cfg parseDuration jsonMarshal sha256 jsonDecode ctx k model revision) Q s.
Proof using Hn AL IN.
  intros Hk Hi Hs HQ. unfold loadRevision. set (P := λ c, WS c ∧ registered k model c) in *. assert (Stable i X P) as HS by apply _.
  assert (∀ (s : System) e, own i X P (core s) → own i X (resolved (A:=compiledChart) (Err e)) (core s)) as Herr by (intros s0 e [? [[? ?] ?]]; by split).
  assert (∀ (s : System) c, own i X WS (core s) → retained k revision (core s) → own i X (resolved (A:=compiledChart) (Ok c)) (core s)) as Hok.
  { intros s0 c [? [? ?]] ?. split; [done|]. split; [done|]. by apply stored_kept. }
  assert (∀ (s : System), own i X P (core s) → own i X WS (core s)) as Hdown by (intros s0 [? [? ?]]; by split).
  apply (wp_reads ok cfg i X P); [done|done|]. intros s1 H1 K1. destruct (chartForRevision k revision s1) as [chart|] eqn:E1.
  { apply HQ; [done|]. apply Hok; [by apply Hdown|]. by apply (retained_chart chart). }
  apply (wp_reads ok cfg i X P); [done|done|]. intros s2 H2 K2. destruct (sy_storage s2) as [st|] eqn:Es; [|by apply HQ, Herr].
  destruct (st_GetDefinition ctx revision st) as [[a|]|e] eqn:Eg; [|by apply HQ, Herr..].
  assert (da_Revision a = revision) as Hrev by (eapply law_get_definition; [by apply (inv_storage _ _ _ H2)|exact Eg]).
  destruct (negb _); [by apply HQ, Herr|]. destruct (artifactCompile _ _ _ _ a (Some model)) as [chart|e] eqn:Ec; [|by apply HQ, Herr].
  apply artifactCompile_revision in Ec. destruct (prepareChart cfg chart); [|by apply HQ, Herr].
  apply (wp_own ok cfg i X P); [done|done|]. intros s3 s4 r H3 K3 H. injection H as H. destruct (chartForRevision k revision s3) as [c|] eqn:E3.
  - injection H as <- <-. split; [by apply quiet_ok|]. apply HQ; [done|]. destruct (artifactEqual _ _); [|by apply Herr]. apply Hok; [by apply Hdown|]. by apply (retained_chart c).
  - injection H as <- <-. assert (registered k model (core s3)) as (reg & Hreg & _) by apply K3.
    destruct (retain_ok chart reg s3) as [Hact Hret]; [done|by apply K3|done|congruence|]. split; [done|]. apply HQ; [apply Hact|]. apply Hok; [|done]. by apply Hdown in K3.
Qed.
End resolving.

Lemma wp_resolveRevision i X n k m revision ctx Q s : LEntry n ∈ X → I s → own i X (λ c, (named n k c ∧ notActivating n c) ∧ stored n m c) (core s) →
  (∀ r s, I s → own i X (resolved n k m revision r) (core s) → Q r s) →
  wp i (resolveRevision cfg parseDuration jsonMarshal sha256 jsonDecode i ctx k revision) Q s.
Proof using AL IN.
  intros Hn Hi Hs HQ. unfold resolveRevision. pose proof (W_stable i X n k Hn) as HSW. set (P := λ c, (named n k c ∧ notActivating n c) ∧ stored n m c) in *.
  assert (Stable i X P) as HS by apply _. apply (wp_reads ok cfg i X P); [done|done|]. intros s1 H1 K1. destruct (sy_charts s1 !! k) as [reg|] eqn:Ereg.
  2: { apply HQ; [done|]. by destruct K1 as [? [? ?]]. }
  destruct (cr_revisions reg !! revision) as [chart|] eqn:Er.
  { apply HQ; [done|]. destruct K1 as [? [? ?]]. split; [done|]. split; [done|]. apply stored_kept; [done|]. exists reg. by rewrite Er. }
  apply (wp_locked ok cfg i X (λ c, P c ∧ registered k (cr_datamodel reg) c) (LPublish k) _ (resolved n k m revision)); [apply _|apply _|..|done].
  - intros [|]; apply _.
  - intros [|]; apply _.
  - destruct K1. split; [done|]. split; [done|]. by exists reg.
  - intros s2 H2 Hl [Hlocks [K2 _]]. apply (wp_loadRevision i ({[LPublish k]} ∪ X) n k) with (m:=m); [apply elem_of_union; by right|apply elem_of_union; left; by apply elem_of_singleton|done|done|].
    intros r s3 H3 [? ?]. split; [done|]. split; [done|]. by split.
Qed.

(** *** A durable actor is selected *)

Section selecting.
Context (i : nat) (X : gset lock) (n k : Identifier) (Hn : LEntry n ∈ X).
#[local] Abbreviation W := (λ c, named n k c ∧ notActivating n c).
#[local] Abbreviation WS m := (λ c, W c ∧ stored n m c).
#[local] Existing Instance W_stable.

Lemma got_stored ctx m st (s : System) : I s → sy_storage s = Some st → st_GetActor ctx n st = Ok (Some m) → stored n m (core s).
Proof using AL.
  intros Hs Es E. exists st, m. split_and!; [done| |by repeat split]. eapply law_get; [|exact E]. by apply (inv_storage _ _ _ Hs).
Qed.

Lemma wp_adopt ctx m startLive Q s : I s → own i X (WS m) (core s) →
  (∀ r s, I s → match r with Ok (m, _) => own i X (resolved n k m (am_Revision m) r) (core s) | Err _ => own i X W (core s) end → Q r s) →
  wp i (adopt cfg parseDuration jsonMarshal sha256 jsonDecode i ctx n k m startLive) Q s.
Proof using Hn AL IN.
  intros Hi Hs HQ. unfold adopt. destruct (validateSpawnMetadata m n k); [|apply HQ; [done|]; by destruct Hs as [? [? _]]].
  apply wp_bind. apply (wp_resolveRevision i X n k m (am_Revision m)); [done|done|done|]. intros [c|e] s1 H1 K1; by apply HQ.
Qed.

(** [BeginActor]: the metadata it returns is stored. *)
Lemma wp_begin {A} ctx candidate (K : option ActorMetadata * result ActorBeginResult → thread A) Q s : am_ActorID candidate = n →
  own i X W (core s) → (∀ r s, I s → own i X W (core s) → (is_Some r.1 → ∀ b, r.2 = Ok b → stored n (default zeroMetadata r.1) (core s)) →
     (∀ b, r.2 = Ok b → is_Some r.1) → wp i (K r) Q s) →
  wp i (atomic (λ s, st ← sy_storage s; let '(st, r) := st_BeginActor ctx candidate st in Some (sys_storage (Some st) s, r)) ≫= K) Q s.
Proof using Hn AL IN.
  intros Hid Hs HQ. apply (wp_own ok cfg i X W); [apply W_stable; exact Hn|done|]. intros s1 s2 r H1 K1 H. destruct (sy_storage s1) as [st|] eqn:Es; [|done].
  cbn in H. destruct (st_BeginActor ctx candidate st) as [st' r'] eqn:E. injection H as <- <-.
  assert (ok st) as Hok by (by apply (inv_storage _ _ _ H1)). pose proof (law_begin _ _ _ _ _ Hok E) as (Hok' & Hd & Hr & Hother & Hold & Hnew & Hres). rewrite Hid in *.
  assert (action_ok ok cfg i s1 (sys_storage (Some st') s1)) as Hact.
  { apply (step_storage ok cfg i st st' (core s1)); [done|done|done|]. split.
    - unfold hasDefinition. rewrite Hd. auto.
    - intros n' k' r0 (m & Hm & Hk & Hrev & Ha). destruct (decide (n' = n)) as [->|Hne]; [|rewrite Hother in Hm by done; left; by exists m].
      destruct (sv_actors st !! n) as [m0|] eqn:E0.
      + left. pose proof (Hold m0 eq_refl) as Hm'. rewrite Hm in Hm'. injection Hm' as <-. by exists m.
      + right. split; [done|]. destruct (Hnew m Hm) as [?|Hdef]; [congruence|]. by rewrite <- Hk, <- Hrev.
    - intros sid d. by rewrite Hr.
    - intros n' m Hm. exists m. split; [|by repeat split]. destruct (decide (n' = n)) as [->|Hne]; [by apply Hold|by rewrite Hother]. }
  split; [done|]. apply HQ; [apply Hact|done|..].
  - intros [m Hm] b Hb. destruct (Hres b Hb) as [E1 _]. exists st', m. rewrite Hm in *. split_and!; [done|done|by repeat split].
  - intros b Hb. by destruct (Hres b Hb).
Qed.

Lemma wp_beginActor ctx candidate Q s : am_ActorID candidate = n → I s → own i X W (core s) →
  (∀ r s, I s → own i X W (core s) → (∀ m b, r = Ok (m, b) → stored n m (core s)) → Q r s) → wp i (beginActor ctx candidate) Q s.
Proof using Hn AL IN.
  intros Hid Hi Hs HQ. unfold beginActor. apply wp_begin; [done|done|]. intros [om [b|e]] s1 H1 K1 Hst Hsome.
  - apply HQ; [done|done|]. intros m b' [= <- <-]. by apply (Hst (Hsome b eq_refl) b).
  - destruct (negb _); [by apply HQ|]. pose proof (W_stable i X n k Hn) as HSW. apply (wp_follows ok cfg i X W); [done|done|].
    intros s2 found H2 K2 Hf. rewrite Hid in Hf. destruct (sy_storage s2) as [st|] eqn:Es; [|done]. injection Hf as <-.
    destruct (st_GetActor ctx n st) as [[m|]|e'] eqn:E; [|by apply HQ..]. apply HQ; [done|done|]. intros m' b [= <- <-]. by eapply got_stored.
Qed.

Lemma wp_selectDurableActor ctx current Q s : I s → own i X W (core s) →
  (∀ r s, I s → match r with Ok (m, _) => own i X (resolved n k m (am_Revision m) r) (core s) | Err _ => own i X W (core s) end → Q r s) →
  wp i (selectDurableActor cfg parseDuration jsonMarshal sha256 jsonDecode i ctx n k current) Q s.
Proof using Hn AL IN.
  intros Hi Hs HQ. unfold selectDurableActor. pose proof (W_stable i X n k Hn) as HSW. apply (wp_follows ok cfg i X W); [done|done|].
  intros s1 found H1 K1 Hf. destruct (sy_storage s1) as [st|] eqn:Es; [|done]. injection Hf as <-. destruct (st_GetActor ctx n st) as [[m|]|e] eqn:E; [..|by apply HQ].
  - apply wp_adopt; [done| |done]. destruct K1. split; [done|]. split; [done|]. by eapply got_stored.
  - apply (wp_reads ok cfg i X W); [done|done|]. intros s2 H2 K2. apply wp_bind, wp_beginActor; [done|done|done|]. intros [[m b]|e] s3 H3 K3 Hst; [|by apply HQ].
    apply wp_adopt; [done| |done]. destruct K3. split; [done|]. split; [done|]. by apply (Hst m b).
Qed.

(** The entry is pinned to the metadata. *)
Lemma wp_pinDurableEntry m startLive Q s : own i X (λ c, W c ∧ kept n m k (am_Revision m) c) (core s) →
  (∀ r s, I s → own i X (notActivating n) (core s) → Q r s) → wp i (atomic (pinDurableEntry cfg n m startLive)) Q s.
Proof using Hn AL IN.
  intros Hs HQ. pose proof (W_stable i X n k Hn) as HSW. apply (wp_own ok cfg i X (λ c, W c ∧ kept n m k (am_Revision m) c)); [apply _|done|].
  intros s1 s2 r H1 [Hl [[(x & Hx & Hxd & Hxk) Hna] (st & m' & Hst & Hm' & (E1 & E2 & E3) & Hret)]] H. unfold pinDurableEntry in H.
  destruct (sy_table s1 !! n) as [e|] eqn:He; [|done]. cbn [mbind option_bind] in H. pose proof (entryOf_core n s1 e He) as Hec.
  rewrite Hx in Hec. injection Hec as ->. destruct (ae_initialized e) eqn:Ei.
  - assert (core s2 = core s1) as E. { destruct (_ && _); injection H as <- <-; [by apply core_updateEntry|done]. }
    split; [by apply quiet_ok|]. apply HQ; [by unfold ActorCalm.I; rewrite E|]. by rewrite E.
  - injection H as <- <-. set (f := λ e, en_startLive _ _). set (g := λ e, mkEntryCore (ec_kind e) (am_Revision m) (am_SessionID m) (ec_durable e) true (ec_terminal e) (ec_instance e)).
    assert (core (notifyDiscovered cfg n (updateEntry n f s1)) = setEntry n (g (coreOf e)) (core s1)) as E.
    { rewrite core_notifyDiscovered, (core_alterEntry n f g) by done. by rewrite Hx. }
    assert (action_ok ok cfg i s1 (notifyDiscovered cfg n (updateEntry n f s1))) as Hact.
    { unfold action_ok, ActorCalm.I, ActorCalm.G. rewrite E. apply (step_pin ok cfg i n (coreOf e) (g (coreOf e)) st m' (core s1)); try done; [by apply Hl|].
      cbn in *. by rewrite Hxk. }
    split; [done|]. apply HQ; [apply Hact|]. rewrite E. by split.
Qed.

(** [prepareDurableEntry] fixes the kind. *)
Lemma wp_prepareDurableEntry {A} (K : option error → thread A) Q s : own i X (λ c, durableIs n true c ∧ notActivating n c) (core s) →
  (∀ r s, I s → own i X (notActivating n) (core s) → (r = None → named n k (core s)) → wp i (K r) Q s) → wp i (atomic (prepareDurableEntry n k) ≫= K) Q s.
Proof using Hn AL IN.
  intros Hs HQ. pose proof (notActivating_stable ok cfg i X n Hn) as HSn. apply (wp_own ok cfg i X (λ c, durableIs n true c ∧ notActivating n c)); [apply _|done|].
  intros s1 s2 r H1 [Hl [(x & Hx & Hxd) Hna]] H. unfold prepareDurableEntry in H. destruct (sy_table s1 !! n) as [e|] eqn:He; [|done]. cbn [mbind option_bind] in H.
  pose proof (entryOf_core n s1 e He) as Hec. rewrite Hx in Hec. injection Hec as ->. destruct (ae_initialized e) eqn:Ei.
  - injection H as <- <-. split; [by apply quiet_ok|]. apply HQ; [done|done|]. case_decide as Ek; [|done]. intros _. by exists (coreOf e).
  - injection H as <- <-. set (g := λ e, mkEntryCore k (ec_revision e) (ec_sessionID e) (ec_durable e) (ec_initialized e) (ec_terminal e) (ec_instance e)).
    assert (core (updateEntry n (en_kind k) s1) = setEntry n (g (coreOf e)) (core s1)) as E by (rewrite (core_alterEntry n (en_kind k) g) by done; by rewrite Hx).
    assert (action_ok ok cfg i s1 (updateEntry n (en_kind k) s1)) as Hact.
    { unfold action_ok, ActorCalm.I, ActorCalm.G. rewrite E. apply (step_entry ok cfg i n (coreOf e) (g (coreOf e)) (core s1)); [done|done| |done|by right|by left].
      split; cbn; try done; [congruence|intros _; by apply Hl|auto]. }
    split; [done|]. apply HQ; [apply Hact|by rewrite E; split|]. intros _. rewrite E. exists (g (coreOf e)). cbn. by rewrite lookup_insert_eq.
Qed.

Lemma wp_pinDurable ctx current Q s : own i X (λ c, durableIs n true c ∧ notActivating n c) (core s) →
  (∀ r s, I s → own i X (notActivating n) (core s) → Q r s) → wp i (pinDurable cfg parseDuration jsonMarshal sha256 jsonDecode i ctx n k current) Q s.
Proof using Hn AL IN.
  intros Hs HQ. unfold pinDurable. apply wp_prepareDurableEntry; [done|]. intros [e|] s1 H1 K1 Hname; [by apply HQ|]. apply wp_bind, wp_selectDurableActor; [done| |].
  { destruct K1. split; [done|]. split; [by apply Hname|done]. }
  intros [[m startLive]|e] s2 H2 K2; [|apply HQ; [done|]; by destruct K2 as [? [_ ?]]]. apply wp_bind, (wp_pinDurableEntry m); [done|]. intros r s3 H3 K3. by apply HQ.
Qed.
End selecting.

(** *** The entry of the table *)

Definition retains (k : Identifier) (revision : string) (c : sysCore) : Prop := retained k revision c.
Lemma retains_stable i X k revision : LPublish k ∈ X → Stable i X (retains k revision).
Proof using Type.
  intros Hk j c c' Hj _ _ HG [Hl H]. destruct (gu_dropped _ _ _ HG k revision H) as [?|[E _]]; [done|]. rewrite (Hl _ Hk) in E. congruence.
Qed.

Lemma wp_entryFor {A} i X n k revision durable (K : option error → thread A) Q s : LPublish k ∈ X → is_Ok (NewIdentifier n) → own i X (retains k revision) (core s) →
  (∀ r s, I s → own i X calmly (core s) → (r = None → durableIs n durable (core s)) → wp i (K r) Q s) → wp i (updates (entryFor cfg n k revision durable) ≫= K) Q s.
Proof using AL IN.
  intros Hk Hname Hs HQ. pose proof (retains_stable i X k revision Hk) as HS. apply (wp_own ok cfg i X (retains k revision)); [done|done|]. intros s1 s2 r H1 [Hl Hret] H.
  injection H as H. unfold entryFor in H. assert (∀ r, (r = None → durableIs n durable (core s1)) → action_ok ok cfg i s1 s1 ∧ wp i (K r) Q s1) as Hsame.
  { intros r' Hr'. split; [by apply quiet_ok|]. by apply HQ. }
  destruct (sy_stopped s1) eqn:Estop; [injection H as <- <-; by apply Hsame|]. destruct (sy_table s1 !! n) as [e|] eqn:He.
  - assert (Bool.eqb (ae_durable e) durable = true → durableIs n durable (core s1)) as Hd.
    { intros ?%eqb_prop. exists (coreOf e). by split; [apply entryOf_core|]. }
    destruct (negb (ae_initialized e)); [|destruct (negb _)]; injection H as <- <-; apply Hsame; try done; (destruct (Bool.eqb _ _); [by intros _; apply Hd|done]).
  - set (e := newEntry n k revision durable (sy_now s1)) in *. set (s3 := sys_actorIDsDirty _ _) in H.
    assert (core s3 = setEntry n (coreOf e) (core s1)) as E3. { unfold s3, core, setEntry. cbn. by rewrite fmap_insert. }
    assert (core (if durable then s3 else notifyDiscovered cfg n s3) = setEntry n (coreOf e) (core s1)) as E by (destruct durable; by rewrite ?core_notifyDiscovered).
    injection H as <- <-. assert (action_ok ok cfg i s1 (if durable then s3 else notifyDiscovered cfg n s3)) as Hact.
    { unfold action_ok, ActorCalm.I, ActorCalm.G. rewrite E. apply (step_new_entry ok cfg i n (coreOf e) (core s1)); [done|done|done| |by destruct durable..|].
      - cbn. by rewrite lookup_fmap, He.
      - destruct durable; [done|]. intros _. split_and!; [done|by apply Hl|done]. }
    split; [done|]. apply HQ; [apply Hact|rewrite E; by split|]. intros _. rewrite E. exists (coreOf e). cbn. rewrite lookup_insert_eq. by destruct durable.
Qed.

Lemma wp_spawnEntry i X n k durable Q s : LPublish k ∈ X → is_Ok (NewIdentifier n) → own i X calmly (core s) →
  (∀ r s, I s → own i X calmly (core s) → (is_Ok r → durableIs n durable (core s)) → Q r s) → wp i (spawnEntry cfg n k durable) Q s.
Proof using AL IN.
  intros Hk Hname Hs HQ. unfold spawnEntry. apply (wp_follows ok cfg i X calmly); [apply _|done|]. intros s1 reg H1 K1 Hreg.
  assert (∀ e (s : System), I s → own i X calmly (core s) → Q (Err e) s) as Herr by (intros; apply HQ; [done|done|by intros []]).
  destruct (cr_revisions reg !! cr_current reg) as [chart|] eqn:Er; [|by apply Herr].
  assert (own i X (retains k (cc_revision chart)) (core s1)) as K1'.
  { destruct K1. split; [done|]. exists reg. split; [done|]. rewrite (inv_keyed _ _ _ H1 k reg (cr_current reg) chart) by done. by rewrite Er. }
  pose proof (retains_stable i X k (cc_revision chart) Hk) as HS. apply (wp_reads ok cfg i X (retains k (cc_revision chart))); [done|done|]. intros s2 H2 K2.
  destruct (_ && _); [apply Herr; [done|]; by destruct K2|]. apply (wp_entryFor i X n k (cc_revision chart)); [done|done|done|]. intros [e|] s3 H3 K3 Hd; [by apply Herr|].
  apply HQ; [done|done|]. intros _. by apply Hd.
Qed.

Lemma wp_spawnLocked i X ctx n k durable chart Q s : LEntry n ∈ X → I s → own i X (λ c, durableIs n durable c ∧ notActivating n c) (core s) →
  (∀ r s, I s → own i X (notActivating n) (core s) → Q r s) →
  wp i (spawnLocked cfg parseDuration jsonMarshal sha256 jsonDecode range i ctx n k durable chart) Q s.
Proof using AL IN.
  intros Hn Hi Hs HQ. unfold spawnLocked. pose proof (notActivating_stable ok cfg i X n Hn) as HSn.
  apply (wp_follows ok cfg i X (λ c, durableIs n durable c ∧ notActivating n c)); [apply _|done|]. intros s1 e H1 K1 _.
  destruct (ae_terminal e); [apply HQ; [done|]; by destruct K1 as [? [_ ?]]|]. apply wp_bind.
  assert (∀ r (s : System), I s → own i X (notActivating n) (core s) → wp i (match r with Some e => mret (Some e) | None => activateLocked cfg range i ctx n end) Q s) as Hrest.
  { intros [err|] s2 H2 K2; [by apply HQ|]. apply (wp_activateLocked ok cfg range i X calmly); [done|done|by destruct K2|]. intros r s3 H3 [? [_ ?]]. apply HQ; [done|by split]. }
  destruct durable; [|apply (Hrest None s1); [done|]; by destruct K1 as [? [_ ?]]]. apply (wp_pinDurable i X n k Hn); [done|]. intros r s2 H2 K2. by apply Hrest.
Qed.

Lemma Spawn_safe i ctx n k durable : safe i (Spawn cfg parseDuration jsonMarshal sha256 jsonDecode range i ctx n k durable).
Proof using AL IN.
  intros s Hs. unfold Spawn. apply (wp_reads ok cfg i ∅ calmly); [apply _|apply start_ok|]. intros s1 H1 _. destruct (sy_stopped s1); [done|].
  destruct (NewIdentifier n) eqn:Ename; [|done]. apply (wp_reads ok cfg i ∅ calmly); [apply _|apply start_ok|]. intros s2 H2 _. destruct (sy_charts s2 !! k); [|done]. apply wp_bind.
  apply (wp_locked ok cfg i ∅ calmly (LPublish k) _ (λ r c, if r is Ok _ then durableIs n durable c else True)); [apply _|apply _|intros []; apply _|intros []; apply _|apply start_ok|..].
  - intros s3 H3 _ [Hl _]. apply (wp_spawnEntry i ({[LPublish k]} ∪ ∅)); [apply elem_of_union; left; by apply elem_of_singleton|by eexists|by split|].
    intros r s4 H4 [Hl' _] Hr. split; [done|]. split; [done|]. split; [|done]. destruct r; [by apply Hr; eexists|done].
  - intros [chart|e] s3 H3 K3; [|done]. apply (wp_locked ok cfg i ∅ (durableIs n durable) (LEntry n) _ (λ _, calmly)); [apply _|apply _|intros; apply _|intros; apply _|done| |done].
    intros s4 H4 _ K4. apply (wp_spawnLocked i ({[LEntry n]} ∪ ∅)); [apply entry_lock|done|done|]. intros r s5 H5 [? ?]. by split.
Qed.

End pins.
