(* ===== verification/Directory.v ===== *)
(** * The directory of an actor system (actors/inspection.go)

    Queries that show actors, their definitions and their durable history
    without activating anyone.  [QueryActors] merges the table of the process
    with the metadata in storage, page by page; the others look up one actor.

    The local part of a query is one critical section of [tableMu]; every lookup
    of an entry and every call of the storage is an action of its own. *)

From S2P Require Import Prelude Identifier Storage Values Events Datamodel Chart Interp Steps Definitions Validate Compile Artifact.
From S2P Require Import Snapshot Restored Instance Replay Memory Stored Outbox Threads Observation Routing ActorStore System Actors ActorCore ActorCalm ActorSafe.
From stdpp Require Import options.

(** ** Queries and pages *)

Definition DefaultActorPageLimit : Z := 50.
Definition MaxActorPageLimit : Z := 200.

(** [Durable] is a pointer. *)
Record ActorQuery := mkActorQuery {
  aq_After : string;
  aq_Limit : Z;
  aq_IDPrefix : string;
  aq_Kind : Identifier;
  aq_Revision : string;
  aq_Durable : option bool;
  aq_Lifecycle : string;
  aq_Residency : string
}.

Record ActorPage := mkActorPage { ap_Actors : list ActorInfo; ap_Next : string }.

(** The filters that storage knows, with a cursor and a limit. *)
Definition metadataQuery (after : string) (limit : Z) (prefix : string) (q : ActorQuery) : ActorMetadataQuery :=
  mkQuery after limit prefix (aq_Kind q) (aq_Revision q) (aq_Lifecycle q).

Definition normalizeActorQuery (q : ActorQuery) : result (ActorQuery * Identifier) :=
  let q := mkActorQuery (aq_After q) (if decide (aq_Limit q = 0)%Z then DefaultActorPageLimit else aq_Limit q) (aq_IDPrefix q) (aq_Kind q)
             (aq_Revision q) (aq_Durable q) (aq_Lifecycle q) (aq_Residency q) in
  _ ← fail_if (bool_decide (aq_Limit q < 1)%Z || bool_decide (MaxActorPageLimit < aq_Limit q)%Z)
        (Errorf ("actors: query limit must be between 1 and " +:+ pretty MaxActorPageLimit));
  '(_, after) ← queryValidate (metadataQuery (aq_After q) (aq_Limit q) "" q);
  _ ← fail_if (negb (bool_decide (aq_Residency q = "")) && negb (bool_decide (aq_Residency q = ResidencyPagedOut))
               && negb (bool_decide (aq_Residency q = ResidencyHydrating)) && negb (bool_decide (aq_Residency q = ResidencyResident)))
        (Errorf ("actors: unknown residency " +:+ quote (aq_Residency q)));
  Ok (q, after).

Definition actorMatches (i : ActorInfo) (q : ActorQuery) : bool :=
  HasPrefix (ai_ID i) (aq_IDPrefix q)
  && (bool_decide (aq_Kind q = "") || bool_decide (ai_Kind i = aq_Kind q))
  && (bool_decide (aq_Revision q = "") || bool_decide (ai_Revision i = aq_Revision q))
  && match aq_Durable q with None => true | Some d => Bool.eqb (ai_Durable i) d end
  && (bool_decide (aq_Lifecycle q = "") || bool_decide (ai_Lifecycle i = aq_Lifecycle q))
  && (bool_decide (aq_Residency q = "") || bool_decide (ai_Residency i = aq_Residency q)).

(** [sort.Search(len(xs), f)]: the binary search of the Go library, between [i]
    and [j]; the distance bounds its steps. *)
Fixpoint search {A} (fuel i j : nat) (f : A → bool) (xs : list A) : nat :=
  match fuel with
  | 0 => i
  | S fuel =>
      if decide (i < j) then
        let h := (i + j) / 2 in
        match xs !! h with
        | Some x => if f x then search fuel i h f xs else search fuel (S h) j f xs
        | None => i
        end
      else i
  end.
Definition sortSearch {A} (f : A → bool) (xs : list A) : nat := search (S (length xs)) 0 (length xs) f xs.

(** The keys of a map, collected and sorted. *)
Definition sortedIDs {A} (merged : gmap Identifier A) : list Identifier := merge_sort string_le (elements (dom merged)).

(** The page that is made of what was merged. *)
Definition pageOf (limit : nat) (merged : gmap Identifier ActorInfo) : ActorPage :=
  let ids := sortedIDs merged in
  let shown := take limit ids in
  mkActorPage (omap (λ id, merged !! id) shown)
    (if decide (limit < length ids) then match last shown with Some id => ActorMetadataCursorFor id | None => "" end else "").

(** ** Other results *)

Record ActorDefinition := mkActorDefinition {
  ad_Pinned : ChartDefinition;
  ad_PinnedRevision : string;
  ad_Current : option (ChartDefinition * string)
}.

Record ActorHistoryQuery := mkHistoryQuery { hq_After : N; hq_Limit : Z; hq_Tail : bool }.
Record ActorHistoryPage := mkHistoryPage { hp_Entries : list LogEntry; hp_Next : N }.

Definition ErrHistoryUnavailable : error := Errorf "actors: durable history unavailable".
Definition ErrInvalidHistoryQuery : string := "actors: invalid history query".
Definition maxUint64 : N := 2 ^ 64 - 1.

(** The loop over [Read]: it stops at the entry after the page. *)
Fixpoint takeHistory (limit : nat) (entries : list LogEntry) (err : option error) (page : list LogEntry) : result ActorHistoryPage :=
  match entries with
  | [] => match err with Some e => Err e | None => Ok (mkHistoryPage page 0) end
  | entry :: entries =>
      let page' := page ++ [cloneLogEntry entry] in
      if decide (limit < length page') then
        let page' := take limit page' in
        Ok (mkHistoryPage page' (match last page' with Some e => le_Seq e | None => 0%N end))
      else takeHistory limit entries err page'
  end.

Section directory.
Context `{DM : DatamodelSession} {L : Type} `{AS : !ActorStorage L} {Inst : Type} `{IN : !Instances Inst}.
Variable cfg : systemConfig.
Variable jsonMarshal : ChartDefinition → result string.
Variable sha256 : string → string.
Variable jsonDecode : string → result (ChartDefinition * trailing).
(** What [Instance.Inspect] shows. *)
Context {InstanceInspection : Type}.
Variable inst_Inspect : option error → Inst → result InstanceInspection.

#[local] Abbreviation System := (@System DM L Inst).
#[local] Abbreviation thread := (Threads.thread System).

(** A call that only reads the storage, if there is one. *)
Definition asks {A} (f : L → A) (s : System) : option A := f <$> sy_storage s.

(** ** QueryActors *)

Definition sortActorIDs (s : System) : System :=
  if sy_actorIDsDirty s then sys_actorIDsDirty false (sys_actorIDs (merge_sort string_le (sy_actorIDs s)) s) else s.

(** The loop over the IDs; [None] is a nil dereference. *)
Fixpoint collectLocal (ctx : option error) (q : ActorQuery) (s : System) (ids : list Identifier) (infos : list ActorInfo)
    : option (result (list ActorInfo)) :=
  match ids with
  | [] => Some (Ok infos)
  | id :: ids =>
      match ctx with
      | Some err => Some (Err err)
      | None =>
          e ← sy_table s !! id;
          if ae_initialized e && actorMatches (infoForEntry cfg e) q then
            let infos := infos ++ [infoForEntry cfg e] in
            if decide (length infos = S (Z.to_nat (aq_Limit q))) then Some (Ok infos) else collectLocal ctx q s ids infos
          else collectLocal ctx q s ids infos
      end
  end.

Definition localInfosAfter (ctx : option error) (after : Identifier) (q : ActorQuery) : thread (result (list ActorInfo)) :=
  atomic (λ s,
    let s := sortActorIDs s in
    let start := sortSearch (λ id, negb (bool_decide (string_le id after))) (sy_actorIDs s) in
    r ← collectLocal ctx q s (drop start (sy_actorIDs s)) [];
    Some (s, r)).

Definition mergeInfos (local : list ActorInfo) : gmap Identifier ActorInfo := foldl (λ merged info, <[ai_ID info := info]> merged) ∅ local.

(** The view of stored metadata: an entry of the process is more recent. *)
Definition infoOf (m : ActorMetadata) (s : System) : ActorInfo :=
  match resolve (am_ActorID m) s with Some e => infoForEntry cfg e | None => infoForMetadata cfg m end.

Fixpoint absorb (q : ActorQuery) (ms : list ActorMetadata) (merged : gmap Identifier ActorInfo) : thread (gmap Identifier ActorInfo) :=
  match ms with
  | [] => mret merged
  | m :: ms =>
      info ← reads (infoOf m);
      absorb q ms (if actorMatches info q then <[am_ActorID m := info]> merged else merged)
  end.

(** Whether nothing that is still in storage can be on the page. *)
Definition scanned (limit : nat) (page : ActorMetadataPage) (merged : gmap Identifier ActorInfo) : bool :=
  bool_decide (pg_Next page = "")
  || match sortedIDs merged !! limit, last (pg_Actors page) with
     | Some id, Some m => bool_decide (string_le id (am_ActorID m))
     | _, _ => false
     end.

(** The loop over the pages of the storage. *)
Fixpoint scanStorage (fuel : nat) (ctx : option error) (q : ActorQuery) (cursor : string) (merged : gmap Identifier ActorInfo)
    : thread (result (gmap Identifier ActorInfo)) :=
  match fuel with
  | 0 => stuck
  | S fuel =>
      match ctx with
      | Some err => mret (Err err)
      | None =>
          r ← follows (asks (st_QueryActors ctx (metadataQuery cursor MaxActorPageLimit (aq_IDPrefix q) q)));
          match r with
          | Err err => mret (Err err)
          | Ok page =>
              merged ← absorb q (pg_Actors page) merged;
              if scanned (Z.to_nat (aq_Limit q)) page merged then mret (Ok merged)
              else scanStorage fuel ctx q (pg_Next page) merged
          end
      end
  end.

(** Storage-only actors are durable and paged out. *)
Definition wantsStorage (q : ActorQuery) (s : System) : bool :=
  present (sy_storage s) && match aq_Durable q with None => true | Some d => d end
  && negb (bool_decide (aq_Residency q = ResidencyResident)) && negb (bool_decide (aq_Residency q = ResidencyHydrating)).

Definition querySystemActors (fuel : nat) (ctx : option error) (query : ActorQuery) : thread (result ActorPage) :=
  match ctx with
  | Some err => mret (Err err)
  | None =>
      match normalizeActorQuery query with
      | Err err => mret (Err err)
      | Ok (q, after) =>
          local ← localInfosAfter ctx after q;
          match local with
          | Err err => mret (Err err)
          | Ok local =>
              relevant ← reads (wantsStorage q);
              merged ← (if (relevant : bool) then scanStorage fuel ctx q (aq_After q) (mergeInfos local) else mret (Ok (mergeInfos local)));
              mret (match merged with Ok merged => Ok (pageOf (Z.to_nat (aq_Limit q)) merged) | Err err => Err err end)
          end
      end
  end.

(** ** One actor *)

(** The view of an initialized entry, and of one that was found before. *)
Definition entryInfo (id : Identifier) (s : System) : option ActorInfo := infoForEntry cfg <$> resolve id s.
Definition anyInfo (id : Identifier) (s : System) : option ActorInfo := infoForEntry cfg <$> sy_table s !! id.

Definition unknownActor (id : Identifier) : error := Wrapf ("actors: inspect " +:+ quote id +:+ ": ") ErrUnknownActor.

Definition actorMetadata (ctx : option error) (id : Identifier) : thread (result ActorInfo) :=
  match ctx with
  | Some err => mret (Err err)
  | None =>
      found ← reads (entryInfo id);
      match found with
      | Some info => mret (Ok info)
      | None =>
          stored ← reads (asks (st_GetActor ctx id));
          mret (match stored with
                | Some (Err err) => Err err
                | Some (Ok (Some m)) => Ok (infoForMetadata cfg m)
                | Some (Ok None) | None => Err (unknownActor id)
                end)
      end
  end.

(** The metadata is returned with an error of the instance. *)
Definition InspectActor (ctx : option error) (id : Identifier) : thread (result ActorInfo * option (result InstanceInspection)) :=
  found ← reads (entryInfo id);
  match found with
  | Some info =>
      let metadataOnly : thread (result ActorInfo * option (result InstanceInspection)) :=
        (info ← follows (anyInfo id); mret (Ok info, None)) in
      inst ← reads (instanceOf id);
      match inst with
      | Some act =>
          if decide (ai_Residency info = ResidencyResident) then
            r ← quick act (λ inst s, Some (s, inst_Inspect ctx inst));
            match r with
            | Ok inspection => mret (Ok info, Some (Ok inspection))
            | Err err => if errorsIs err ErrInstanceStopped then metadataOnly else mret (Ok info, Some (Err err))
            end
          else metadataOnly
      | None => metadataOnly
      end
  | None => info ← actorMetadata ctx id; mret (info, None)
  end.

(** The definition of the revision that an actor is pinned to. *)
Definition pinnedDefinition (ctx : option error) (info : ActorInfo) : thread (result ChartDefinition) :=
  if ai_Durable info then
    stored ← reads (asks (st_GetDefinition ctx (ai_Revision info)));
    mret (match stored with
          | None | Some (Ok None) => Err ErrDefinitionNotFound
          | Some (Err err) => Err err
          | Some (Ok (Some a)) =>
              if decide (da_ChartID a = ai_Kind info) then validatedDefinition jsonMarshal sha256 jsonDecode a
              else Err (invalidArtifact ("pinned artifact chart " +:+ quote (da_ChartID a) +:+ " does not match actor chart " +:+ quote (ai_Kind info)))
          end)
  else
    found ← reads (SystemDefinition (ai_Kind info) (ai_Revision info));
    mret (match found with Some d => Ok d | None => Err ErrDefinitionNotFound end).

Definition InspectActorDefinition (ctx : option error) (id : Identifier) : thread (result ActorDefinition) :=
  info ← actorMetadata ctx id;
  match info with
  | Err err => mret (Err err)
  | Ok info =>
      pinned ← pinnedDefinition ctx info;
      match pinned with
      | Err err => mret (Err err)
      | Ok pinned =>
          current ← reads (CurrentDefinition (ai_Kind info));
          mret (Ok (mkActorDefinition pinned (ai_Revision info) current))
      end
  end.

(** Where to read from: after the cursor, or the last entries. *)
Definition historyStart (ctx : option error) (query : ActorHistoryQuery) (limit : Z) (sid : string) (st : L) : result N :=
  if hq_Tail query then
    last ← st_LastSeq ctx sid st;
    Ok (if decide (Z.to_N limit < last)%N then last - Z.to_N limit + 1 else 1)%N
  else Ok (hq_After query + 1)%N.

Definition QueryActorHistory (ctx : option error) (id : Identifier) (query : ActorHistoryQuery) : thread (result ActorHistoryPage) :=
  let invalid text := Err (Errorf (ErrInvalidHistoryQuery +:+ ": " +:+ text)) in
  if hq_Tail query && negb (bool_decide (hq_After query = 0%N)) then mret (invalid "Tail and After are mutually exclusive") else
  if decide (hq_After query = maxUint64) then mret (invalid "After has no successor") else
  let limit := if decide (hq_Limit query = 0)%Z then DefaultActorPageLimit else hq_Limit query in
  if bool_decide (limit < 1)%Z || bool_decide (MaxActorPageLimit < limit)%Z then
    mret (Err (Errorf ("actors: history limit must be between 1 and " +:+ pretty MaxActorPageLimit)))
  else
    info ← actorMetadata ctx id;
    match info with
    | Err err => mret (Err err)
    | Ok info =>
        stored ← reads (λ s : System, present (sy_storage s));
        if negb (ai_Durable info) || negb stored then mret (Err ErrHistoryUnavailable)
        else
          from ← follows (asks (historyStart ctx query limit (ai_SessionID info)));
          match from with
          | Err err => mret (Err err)
          | Ok from =>
              entries ← follows (asks (st_Read ctx (ai_SessionID info) from));
              mret (takeHistory (Z.to_nat limit) entries.1 entries.2 [])
          end
    end.

End directory.

(** ** Sorted keys *)

Section sorted_keys.

Lemma string_le_refl (x : string) : string_le x x.
Proof. by destruct (string_le_total x x). Qed.

(** The order of two sorted lists decides their first [n] elements, when the
    second has nothing more below them. *)
Lemma take_agree (n : nat) (l l' : list string) :
  StronglySorted string_le l → StronglySorted string_le l' → NoDup l → NoDup l' → l ⊆ l' →
  (∀ x, x ∈ l' → x ∉ l → n ≤ length (filter (λ y, ¬ string_le x y) l)) → take n l = take n l'.
Proof.
  revert l l'. induction n as [|n IH]; intros l l' S S' N N' Hsub Hx; [done|]. destruct l' as [|x l'].
  { destruct l as [|y l]; [done|]. exfalso. apply (not_elem_of_nil y), Hsub. by left. }
  apply StronglySorted_inv in S' as [S' Hmin]. rewrite Forall_forall in Hmin. apply NoDup_cons in N' as [Nx N'].
  destruct l as [|y l].
  { specialize (Hx x ltac:(by left) (not_elem_of_nil x)). simpl in Hx. lia. }
  apply StronglySorted_inv in S as [S Hy]. rewrite Forall_forall in Hy. apply NoDup_cons in N as [Ny N].
  destruct (decide (y = x)) as [->|Hne].
  - simpl. f_equal. apply IH; [done..| |].
    + intros z Hz. assert (z ∈ x :: l') as [->|?]%elem_of_cons by (apply Hsub; by right); done.
    + intros z Hz Hzl. specialize (Hx z ltac:(by right)). rewrite not_elem_of_cons in Hx.
      assert (z ≠ x) as Hzx by (intros ->; done). specialize (Hx (conj Hzx Hzl)). rewrite filter_cons in Hx.
      case_decide; simpl in Hx; lia.
  - exfalso. assert (y ∈ l') as Hyl. { assert (y ∈ x :: l') as [?|?]%elem_of_cons by (apply Hsub; by left); done. }
    assert (x ∉ y :: l) as Hxl.
    { rewrite not_elem_of_cons. split; [done|]. intros Hin. apply Hne, (anti_symm string_le); [by apply Hy | by apply Hmin]. }
    specialize (Hx x ltac:(by left) Hxl). rewrite filter_none in Hx; [simpl in Hx; lia|]. apply Forall_forall.
    intros z Hz Hnz. apply Hnz. assert (z ∈ x :: l') as [->|?]%elem_of_cons by (by apply Hsub); [apply string_le_refl | by apply Hmin].
Qed.

Context {A : Type}.
Implicit Types m : gmap Identifier A.

Lemma elem_of_sortedIDs m id : id ∈ sortedIDs m ↔ is_Some (m !! id).
Proof. unfold sortedIDs. by rewrite merge_sort_Permutation, elem_of_elements, elem_of_dom. Qed.
Lemma sortedIDs_sorted m : StronglySorted string_le (sortedIDs m).
Proof. apply StronglySorted_merge_sort; apply _. Qed.
Lemma sortedIDs_NoDup m : NoDup (sortedIDs m).
Proof. unfold sortedIDs. rewrite merge_sort_Permutation. apply NoDup_elements. Qed.

(** The number of keys below one. *)
Definition below (id : Identifier) m : nat := length (filter (λ y, ¬ string_le id y) (sortedIDs m)).

Lemma below_mono id m m' : m ⊆ m' → below id m ≤ below id m'.
Proof.
  intros Hs. unfold below. apply submseteq_length, NoDup_submseteq.
  - apply NoDup_filter, sortedIDs_NoDup.
  - intros y. rewrite !list_elem_of_filter, !elem_of_sortedIDs. intros [H [a Ha]]. split; [done|]. exists a. by eapply lookup_weaken.
Qed.

(** When the key at [k] is not above, more than [k] keys are below. *)
Lemma below_lookup id x k m : sortedIDs m !! k = Some x → string_le x id → x ≠ id → k < below id m.
Proof.
  intros Hk Hle Hne. unfold below. pose proof (sortedIDs_sorted m) as Hs. revert Hk Hs. generalize (sortedIDs m) as l. intros l Hk Hs.
  rewrite <- (take_drop (S k) l), filter_app, length_app. rewrite (list_filter_all _ (take (S k) l)).
  - rewrite length_take. apply lookup_lt_Some in Hk. lia.
  - apply Forall_forall. intros y Hy Hidy. apply Hne. apply (anti_symm string_le); [done|]. etrans; [exact Hidy|].
    rewrite (take_S_r _ _ x) in Hy by done. apply elem_of_app in Hy as [Hy|Hy]; [|apply list_elem_of_singleton in Hy as ->; apply string_le_refl].
    rewrite <- (take_drop k l) in Hs. apply (StronglySorted_app_1_elem_of _ _ _ y x Hs Hy). rewrite (drop_S _ x) by done. by left.
Qed.
End sorted_keys.

(** A part of a map shows the same page as the map, when every key that is
    missing has more than [limit] keys below. *)
Lemma pageOf_agree (limit : nat) (m m' : gmap Identifier ActorInfo) :
  m ⊆ m' → (∀ id, is_Some (m' !! id) → m !! id = None → limit < below id m) → pageOf limit m = pageOf limit m'.
Proof.
  intros Hs Hb. assert (take (S limit) (sortedIDs m) = take (S limit) (sortedIDs m')) as E.
  { apply take_agree; try apply sortedIDs_sorted; try apply sortedIDs_NoDup.
    - intros id. rewrite !elem_of_sortedIDs. intros [x Hx]. exists x. by eapply lookup_weaken.
    - intros id. rewrite !elem_of_sortedIDs. intros Hx Hn. apply (Hb id Hx). by apply eq_None_not_Some. }
  assert (take limit (sortedIDs m) = take limit (sortedIDs m')) as E'.
  { apply (f_equal (take limit)) in E. by rewrite !take_take, !Nat.min_l in E by lia. }
  unfold pageOf. rewrite E'. f_equal.
  - apply list_omap_ext, Forall_Forall2_diag, Forall_forall. rewrite <- E'. intros id Hid. assert (id ∈ sortedIDs m) as [x Hx]%elem_of_sortedIDs.
    { rewrite <- (take_drop limit). apply elem_of_app. by left. }
    rewrite Hx. symmetry. by eapply lookup_weaken.
  - apply (f_equal length) in E. rewrite !length_take in E. do 2 case_decide; try done; lia.
Qed.

(** ** The binary search *)

Lemma search_split {A} (f : A → bool) (l1 l2 : list A) fuel i j :
  Forall (λ x, f x = false) l1 → Forall (λ x, f x = true) l2 → i ≤ length l1 → length l1 ≤ j → j ≤ length (l1 ++ l2) → j - i < fuel →
  search fuel i j f (l1 ++ l2) = length l1.
Proof.
  intros H1 H2. revert i j. induction fuel as [|fuel IH]; intros i j Hi Hj Hl Hf; [lia|]. cbn [search]. case_decide as Hij; [|lia].
  assert (i ≤ (i + j) / 2 < j) as [Hh1 Hh2] by (split; [apply Nat.div_le_lower_bound | apply Nat.Div0.div_lt_upper_bound]; lia).
  destruct (lookup_lt_is_Some_2 (l1 ++ l2) ((i + j) / 2)) as [x Hx]; [lia|]. rewrite Hx. apply lookup_app_Some in Hx as [Hx|[Hge Hx]].
  - rewrite (proj1 (Forall_lookup _ _) H1 _ _ Hx). apply lookup_lt_Some in Hx. apply IH; lia.
  - rewrite (proj1 (Forall_lookup _ _) H2 _ _ Hx). apply IH; lia.
Qed.

Lemma sortSearch_after (after : string) (l : list string) : StronglySorted string_le l →
  drop (sortSearch (λ id, negb (bool_decide (string_le id after))) l) l = filter (λ id, ¬ string_le id after) l.
Proof.
  intros Hs. assert (∃ l1 l2, l = l1 ++ l2 ∧ Forall (λ id, string_le id after) l1 ∧ Forall (λ id, ¬ string_le id after) l2) as (l1 & l2 & -> & H1 & H2).
  { induction Hs as [|x l Hl (l1 & l2 & -> & H1 & H2) Hx]; [by exists [], []|]. destruct (decide (string_le x after)) as [Hle|Hn].
    - exists (x :: l1), l2. split_and!; [done| by constructor |done].
    - exists [], (x :: l1 ++ l2). split_and!; [done..|]. constructor; [done|]. eapply Forall_impl; [exact Hx|]. intros y Hxy Hy. apply Hn. by etrans. }
  unfold sortSearch. rewrite search_split.
  - rewrite drop_app_length, filter_app, (filter_none _ l1), (list_filter_all _ l2); [done|done|].
    eapply Forall_impl; [exact H1|]. intros y Hy Hn. done.
  - eapply Forall_impl; [exact H1|]. intros y Hy. by rewrite bool_decide_true.
  - eapply Forall_impl; [exact H2|]. intros y Hy. by rewrite bool_decide_false.
  - lia.
  - rewrite length_app. lia.
  - done.
  - lia.
Qed.

(** ** What a query should show *)

(** What a directory asks of a storage: metadata is stored under its ID, and a
    page has the first actors after the cursor that the query wants, by ID. *)
Definition storedAfter (q : ActorMetadataQuery) (after : Identifier) (actors : gmap Identifier ActorMetadata) : list ActorMetadata :=
  filter (λ a, ¬ string_le (am_ActorID a) after) (merge_sort actorOrder (filter (wanted q) (map_to_list actors).*2)).

Definition storedPage (q : ActorMetadataQuery) (l : list ActorMetadata) : ActorMetadataPage :=
  let k := Z.to_nat (q_Limit q) in
  mkPage (take k l)
    (if decide (k < length l) then match last (take k l) with Some a => ActorMetadataCursorFor (am_ActorID a) | None => "" end else "").

Class DirectoryLaws (L : Type) `{!ActorStorage L, !StorageView L} (ok : L → Prop) : Prop := {
  law_named st n m : ok st → sv_actors st !! n = Some m → am_ActorID m = n ∧ is_Ok (NewIdentifier n);
  law_query st q q' after : ok st → queryValidate q = Ok (q', after) →
    st_QueryActors None q st = Ok (storedPage q' (storedAfter q' after (sv_actors st)))
}.

(** The in-memory store keeps them. *)
Lemma memory_directory jsonMarshal sha256 jsonDecode range : (∀ m, range m ≡ₚ (map_to_list m).*2) →
  DirectoryLaws MemoryStore (ActorStorage0 := MemoryStorage jsonMarshal sha256 jsonDecode range) (consistent jsonMarshal sha256 jsonDecode).
Proof.
  intros Hrange. split.
  - intros st n m Hok Hm. destruct (co_actor _ _ _ _ Hok n m Hm) as [<- Hv]. split; [done|].
    unfold validateStoredActorLocked, metadataValidate, validIdentifier in Hv. destruct (NewIdentifier (am_ActorID m)); [by eexists|done].
  - intros st q q' after Hok Hq. pose proof (queryValidate_limit _ _ _ Hq) as [Hlim _].
    apply (QueryActors_page jsonMarshal sha256 jsonDecode range Hrange q q' after st Hok Hq). lia.
Qed.

Section view.
Context `{DM : DatamodelSession} {L : Type} `{AS : !ActorStorage L} `{SV : !StorageView L} {Inst : Type} `{IN : !Instances Inst}.
Variable cfg : systemConfig.
#[local] Abbreviation System := (@System DM L Inst).

(** What is known about every actor: the entry of the process if it has one that
    is initialized, and the metadata otherwise. *)
Definition visible (s : System) : gmap Identifier ActorInfo :=
  (infoForEntry cfg <$> filter (λ '(_, e), ae_initialized e = true) (sy_table s))
  ∪ (infoForMetadata cfg <$> default ∅ (sv_actors <$> sy_storage s)).

(** The actors after a cursor that match all filters. *)
Definition matching (q : ActorQuery) (after : Identifier) (s : System) : gmap Identifier ActorInfo :=
  filter (λ '(id, info), ¬ string_le id after ∧ actorMatches info q = true) (visible s).

(** The IDs of the table are listed, in order unless they are marked as dirty, and
    an entry is found under its name. *)
Record listed (s : System) : Prop := {
  li_ids : sy_actorIDs s ≡ₚ elements (dom (sy_table s));
  li_sorted : sy_actorIDsDirty s = false → StronglySorted string_le (sy_actorIDs s);
  li_named n e : sy_table s !! n = Some e → ae_name e = n
}.
End view.

(** ** The local part *)

Section local.
Context `{DM : DatamodelSession} {L : Type} `{AS : !ActorStorage L} `{SV : !StorageView L} {Inst : Type} `{IN : !Instances Inst}.
Variable cfg : systemConfig.
#[local] Abbreviation System := (@System DM L Inst).

Lemma matching_Some q after (s : System) id info :
  matching cfg q after s !! id = Some info ↔ visible cfg s !! id = Some info ∧ ¬ string_le id after ∧ actorMatches info q = true.
Proof. unfold matching. by rewrite map_lookup_filter_Some. Qed.

Lemma visible_entry (s : System) id e : sy_table s !! id = Some e → ae_initialized e = true → visible cfg s !! id = Some (infoForEntry cfg e).
Proof.
  intros He Hi. unfold visible. apply lookup_union_Some_l. rewrite lookup_fmap. apply fmap_Some. exists e. split; [|done].
  by apply map_lookup_filter_Some.
Qed.

Lemma visible_stored (s : System) st id m : sy_storage s = Some st → sv_actors st !! id = Some m → am_ActorID m = id →
  visible cfg s !! id = Some (infoOf cfg m s).
Proof.
  intros Es Hm <-. unfold infoOf, resolve. destruct (sy_table s !! am_ActorID m) as [e|] eqn:Ee; cbn.
  - destruct (ae_initialized e) eqn:Ei; [by apply visible_entry|]. unfold visible. rewrite lookup_union_r, lookup_fmap, Es; [cbn; by rewrite Hm|].
    rewrite lookup_fmap, fmap_None. apply map_lookup_filter_None_2. right. intros x Hx. rewrite Ee in Hx. injection Hx as <-. congruence.
  - unfold visible. rewrite lookup_union_r, lookup_fmap, Es; [cbn; by rewrite Hm|]. rewrite lookup_fmap, fmap_None.
    apply map_lookup_filter_None_2. by left.
Qed.

Lemma visible_cases (s : System) id info : visible cfg s !! id = Some info →
  (∃ e, sy_table s !! id = Some e ∧ ae_initialized e = true ∧ info = infoForEntry cfg e)
  ∨ ∃ st m, sy_storage s = Some st ∧ sv_actors st !! id = Some m ∧ resolve id s = None ∧ info = infoForMetadata cfg m.
Proof.
  unfold visible. intros [H|[Hn H]]%lookup_union_Some_raw.
  - left. rewrite lookup_fmap in H. apply fmap_Some in H as (e & He & ->). apply map_lookup_filter_Some in He as [He Hi]. eauto.
  - right. rewrite lookup_fmap in H. apply fmap_Some in H as (m & Hm & ->). destruct (sy_storage s) as [st|]; cbn in Hm; [|by rewrite lookup_empty in Hm].
    exists st, m. split_and!; [done..| |done]. unfold resolve. destruct (sy_table s !! id) as [e|] eqn:Ee; [|done]. cbn.
    destruct (ae_initialized e) eqn:Ei; [|done]. rewrite lookup_fmap, fmap_None in Hn.
    assert (filter (λ '(_, e), ae_initialized e = true) (sy_table s) !! id = Some e) as Hx by by apply map_lookup_filter_Some. congruence.
Qed.

(** What the loop over the IDs shows of one. *)
Definition localInfo (q : ActorQuery) (s : System) (id : Identifier) : option ActorInfo :=
  e ← sy_table s !! id; if ae_initialized e && actorMatches (infoForEntry cfg e) q then Some (infoForEntry cfg e) else None.

Lemma collectLocal_take q (s : System) ids infos :
  Forall (λ id, is_Some (sy_table s !! id)) ids → length infos ≤ Z.to_nat (aq_Limit q) →
  collectLocal cfg None q s ids infos = Some (Ok (take (S (Z.to_nat (aq_Limit q))) (infos ++ omap (localInfo q s) ids))).
Proof.
  intros Hids. revert infos. induction Hids as [|id ids [e He] _ IH]; intros infos Hlen; cbn [collectLocal omap list_omap].
  { by rewrite app_nil_r, take_ge by lia. }
  unfold localInfo at 1. rewrite He. cbn [mbind option_bind]. destruct (ae_initialized e && actorMatches (infoForEntry cfg e) q); [|by apply IH].
  case_decide as Hd.
  - rewrite (cons_middle _ infos (omap _ ids)), (app_assoc infos), take_app_le, take_ge by lia. done.
  - rewrite IH, <- app_assoc; [done|]. rewrite length_app in *. simpl in *. lia.
Qed.

Lemma sortActorIDs_listed (s : System) : listed s → listed (sortActorIDs s).
Proof.
  intros [H1 H2 H3]. unfold sortActorIDs. destruct (sy_actorIDsDirty s) eqn:Ed; [|by split; rewrite ?Ed].
  split; cbn; [by rewrite merge_sort_Permutation| |done]. intros _. apply StronglySorted_merge_sort; apply _.
Qed.
Lemma sortActorIDs_sorted (s : System) : listed s → StronglySorted string_le (sy_actorIDs (sortActorIDs s)).
Proof. intros H. apply sortActorIDs_listed in H. apply H. unfold sortActorIDs. by destruct (sy_actorIDsDirty s) eqn:E. Qed.

(** The view does not depend on the order of the IDs. *)
Lemma sortActorIDs_table (s : System) : sy_table (sortActorIDs s) = sy_table s ∧ sy_storage (sortActorIDs s) = sy_storage s.
Proof. unfold sortActorIDs. by destruct (sy_actorIDsDirty s). Qed.
Lemma visible_sortActorIDs (s : System) : visible cfg (sortActorIDs s) = visible cfg s.
Proof. unfold visible. by destruct (sortActorIDs_table s) as [-> ->]. Qed.

(** The IDs after a cursor, and what is shown of them. *)
Definition idsAfter (after : Identifier) (s : System) : list Identifier := filter (λ id, ¬ string_le id after) (sy_actorIDs (sortActorIDs s)).

Lemma run_localInfosAfter q after (s : System) : listed s →
  run (localInfosAfter cfg None after q) s
  = Some (sortActorIDs s, Ok (take (S (Z.to_nat (aq_Limit q))) (omap (localInfo q (sortActorIDs s)) (idsAfter after s)))).
Proof.
  intros Hl. unfold localInfosAfter, run, atomic. pose proof (sortActorIDs_listed s Hl) as [Hids _ _]. pose proof (sortActorIDs_sorted s Hl) as Hs.
  rewrite sortSearch_after by done. rewrite collectLocal_take; [done| |simpl; lia].
  apply Forall_forall. intros id [_ Hid]%list_elem_of_filter. rewrite Hids in Hid. by apply elem_of_elements, elem_of_dom in Hid.
Qed.
End local.

(** ** Merging *)

Lemma below_ge {A} (id : Identifier) (l : list Identifier) (m : gmap Identifier A) :
  NoDup l → (∀ y, y ∈ l → is_Some (m !! y) ∧ ¬ string_le id y) → length l ≤ below id m.
Proof.
  intros Hn Hl. apply submseteq_length, NoDup_submseteq; [done|]. intros y Hy. destruct (Hl y Hy).
  rewrite list_elem_of_filter, elem_of_sortedIDs. done.
Qed.

Lemma mergeInfos_snoc l x : mergeInfos (l ++ [x]) = <[ai_ID x := x]> (mergeInfos l).
Proof. unfold mergeInfos. by rewrite foldl_app. Qed.

Lemma mergeInfos_lookup l id info : NoDup (ai_ID <$> l) → mergeInfos l !! id = Some info ↔ info ∈ l ∧ ai_ID info = id.
Proof.
  induction l as [|x l IH] using rev_ind; intros Hn.
  { unfold mergeInfos. simpl. rewrite lookup_empty. split; [done|]. by intros [?%elem_of_nil _]. }
  rewrite fmap_app in Hn. apply NoDup_app in Hn as (Hl & Hx & _). rewrite mergeInfos_snoc, lookup_insert_Some, IH, elem_of_app, list_elem_of_singleton by done.
  split; [naive_solver|]. intros [[Hin| ->] <-]; [right|by left]. split; [|done]. intros E. apply (Hx (ai_ID info)); [by apply list_elem_of_fmap_2|].
  rewrite <- E. by left.
Qed.

Section merge.
Context `{DM : DatamodelSession} {L : Type} `{AS : !ActorStorage L} `{SV : !StorageView L} (ok : L → Prop) `{DL : !DirectoryLaws L ok}.
Context {Inst : Type} `{IN : !Instances Inst}.
Variable cfg : systemConfig.
#[local] Abbreviation System := (@System DM L Inst).
Variables (q : ActorQuery) (after : Identifier).
#[local] Abbreviation limit := (Z.to_nat (aq_Limit q)).

(** What has been merged: nothing wrong, and of the entries of the process all
    that can be on the page. *)
Record partial (s : System) (merged : gmap Identifier ActorInfo) : Prop := {
  pa_sub : merged ⊆ matching cfg q after s;
  pa_local id e : sy_table s !! id = Some e → ae_initialized e = true → is_Some (matching cfg q after s !! id) → merged !! id = None →
    limit < below id merged
}.

Lemma partial_mono s m m' : partial s m → m ⊆ m' → m' ⊆ matching cfg q after s → partial s m'.
Proof.
  intros [Hs Hl] Hm Hsub. split; [done|]. intros id e He Hi Hx Hn. eapply Nat.lt_le_trans; [|by apply below_mono]. eapply Hl; [done..|].
  destruct (m !! id) as [x|] eqn:E; [|done]. rewrite (lookup_weaken _ _ _ _ E Hm) in Hn. done.
Qed.

(** The infos of the listed IDs are in the order of the IDs. *)
Lemma localInfo_ID (s : System) id info : listed s → localInfo cfg q s id = Some info → ai_ID info = id.
Proof.
  intros Hl. unfold localInfo. destruct (sy_table s !! id) as [e|] eqn:E; [|done]. cbn. destruct (_ && _); [|done]. intros [= <-]. by apply (li_named s Hl).
Qed.
Lemma localInfos_IDs (s : System) (ids : list Identifier) : listed s → ai_ID <$> omap (localInfo cfg q s) ids = filter (λ id, is_Some (localInfo cfg q s id)) ids.
Proof.
  intros Hl. induction ids as [|id ids IH]; [done|]. cbn [omap list_omap]. rewrite filter_cons. destruct (localInfo cfg q s id) as [info|] eqn:E.
  - rewrite decide_True by done. cbn [fmap list_fmap]. rewrite (localInfo_ID s id info Hl E). f_equal. exact IH.
  - rewrite decide_False by (by intros []). exact IH.
Qed.

Lemma local_partial s : listed s → StronglySorted string_le (sy_actorIDs s) →
  partial s (mergeInfos (take (S limit) (omap (localInfo cfg q s) (filter (λ id, ¬ string_le id after) (sy_actorIDs s))))).
Proof.
  intros Hl Hsort. set (ids := filter _ (sy_actorIDs s)). set (full := omap _ ids).
  assert (StronglySorted string_le (ai_ID <$> full)) as Hs by (unfold full; rewrite localInfos_IDs by done; by do 2 apply StronglySorted_filter).
  assert (NoDup (ai_ID <$> full)) as Hn.
  { unfold full. rewrite localInfos_IDs by done. do 2 apply NoDup_filter. rewrite (li_ids s Hl). apply NoDup_elements. }
  assert (NoDup (ai_ID <$> take (S limit) full)) as Hnt by (eapply sublist_NoDup; [exact Hn | apply fmap_sublist, sublist_take]).
  split.
  - apply map_subseteq_spec. intros id info (Hin & <-)%mergeInfos_lookup; [|done].
    assert (info ∈ full) as (id & Hid & Hi)%list_elem_of_omap by (rewrite <- (take_drop (S limit) full); apply elem_of_app; by left).
    pose proof (localInfo_ID s id info Hl Hi) as ->. apply list_elem_of_filter in Hid as [Ha _].
    unfold localInfo in Hi. destruct (sy_table s !! id) as [e|] eqn:E; [|done]. cbn in Hi. destruct (ae_initialized e) eqn:Ei; [|done]. cbn in Hi.
    destruct (actorMatches _ q) eqn:Em; [|done]. injection Hi as <-. apply matching_Some. split; [by apply visible_entry|done].
  - intros id e He Hi [info Hm] Hnone. apply matching_Some in Hm as (Hv & Ha & Hm). rewrite (visible_entry cfg s id e He Hi) in Hv. injection Hv as <-.
    assert (id ∈ ai_ID <$> full) as Hid.
    { unfold full. rewrite localInfos_IDs by done. apply list_elem_of_filter. split; [unfold localInfo; rewrite He; cbn; by rewrite Hi, Hm|].
      apply list_elem_of_filter. split; [done|]. rewrite (li_ids s Hl). apply elem_of_elements, elem_of_dom. by eexists. }
    rewrite <- (take_drop (S limit) full), fmap_app in Hid, Hs, Hn. apply elem_of_app in Hid as [Hid|Hid].
    { exfalso. apply list_elem_of_fmap in Hid as (x & -> & Hx). eapply eq_None_not_Some; [exact Hnone|]. exists x. by apply mergeInfos_lookup. }
    apply NoDup_app in Hn as (_ & Hdis & _).
    assert (length (ai_ID <$> take (S limit) full) = S limit) as Hlen.
    { rewrite length_fmap, length_take. apply Nat.min_l. destruct (decide (S limit ≤ length full)); [done|]. rewrite drop_ge in Hid by lia. by apply elem_of_nil in Hid. }
    unfold lt. eapply Nat.le_trans; [by apply Nat.eq_le_incl, (eq_sym Hlen)|]. apply below_ge; [done|]. intros y Hy. split.
    + apply list_elem_of_fmap in Hy as (x & -> & Hx). exists x. by apply mergeInfos_lookup.
    + intros Hle. apply (Hdis y Hy). replace y with id; [done|]. apply (anti_symm string_le); [done|]. by apply (StronglySorted_app_1_elem_of _ _ _ y id Hs).
Qed.

(** ** The pages of the storage *)

(** The filters that the storage is asked for. *)
Definition storageFilter : ActorMetadataQuery := metadataQuery "" MaxActorPageLimit (aq_IDPrefix q) q.

Lemma metadataQuery_valid cursor cur q' : queryValidate (metadataQuery cursor MaxActorPageLimit (aq_IDPrefix q) q) = Ok (q', cur) →
  q' = metadataQuery cursor MaxActorPageLimit (aq_IDPrefix q) q.
Proof.
  unfold queryValidate. intros H. do 3 apply result_bind_Ok in H as ([] & _ & H). case_decide; [by injection H as <- <-|]. repeat case_match; by simplify_eq.
Qed.

(** A page is merged. *)
Definition absorbed (s : System) : gmap Identifier ActorInfo → list ActorMetadata → gmap Identifier ActorInfo :=
  foldl (λ merged m, let info := infoOf cfg m s in if actorMatches info q then <[am_ActorID m := info]> merged else merged).

Lemma run_absorb s ms merged : run (absorb cfg q ms merged) s = Some (s, absorbed s merged ms).
Proof. revert merged. induction ms as [|m ms IH]; intros merged; [done|]. cbn [absorb]. rewrite run_bind. cbn [run reads atomic]. by rewrite IH. Qed.

Lemma absorbed_spec s ms merged : merged ⊆ matching cfg q after s →
  (∀ m, m ∈ ms → actorMatches (infoOf cfg m s) q = true → matching cfg q after s !! am_ActorID m = Some (infoOf cfg m s)) →
  merged ⊆ absorbed s merged ms ∧ absorbed s merged ms ⊆ matching cfg q after s
  ∧ ∀ m, m ∈ ms → actorMatches (infoOf cfg m s) q = true → is_Some (absorbed s merged ms !! am_ActorID m).
Proof.
  revert merged. induction ms as [|m ms IH]; intros merged Hsub Hms; [split_and!; [done..|]; by intros m ?%elem_of_nil|].
  set (merged' := if actorMatches (infoOf cfg m s) q then <[am_ActorID m := infoOf cfg m s]> merged else merged).
  change (absorbed s merged (m :: ms)) with (absorbed s merged' ms). assert (merged ⊆ merged' ∧ merged' ⊆ matching cfg q after s) as [H1 H2].
  { unfold merged'. destruct (actorMatches (infoOf cfg m s) q) eqn:Em; [|done]. specialize (Hms m ltac:(by left) Em). split.
    - apply map_subseteq_spec. intros id info Hi. destruct (decide (id = am_ActorID m)) as [->|]; [|by rewrite lookup_insert_ne].
      rewrite lookup_insert_eq. rewrite (lookup_weaken _ _ _ _ Hi Hsub) in Hms. by injection Hms as ->.
    - apply map_subseteq_spec. intros id info [[<- <-]|[_ Hi]]%lookup_insert_Some; [done | by eapply lookup_weaken]. }
  destruct (IH merged' H2) as (H3 & H4 & H5); [intros x Hx; apply Hms; by right|]. split_and!; [by etrans|done|].
  intros x [->|Hx]%elem_of_cons Hm; [|by apply H5]. eapply lookup_weaken_is_Some; [|exact H3]. unfold merged'. rewrite Hm, lookup_insert_eq. by eexists.
Qed.
(** One storage, which does not change while the query runs alone. *)
Section stored.
Variables (s : System) (st : L).
Hypothesis Hst : sy_storage s = Some st.
Hypothesis Hok : ok st.
#[local] Abbreviation stored cur := (storedAfter storageFilter cur (sv_actors st)).

Lemma stored_NoDup cur : NoDup (am_ActorID <$> stored cur).
Proof using DL Hok.
  eapply sublist_NoDup; [|apply fmap_sublist, sublist_filter]. rewrite merge_sort_Permutation.
  eapply sublist_NoDup; [|apply fmap_sublist, sublist_filter]. rewrite <- list_fmap_compose.
  replace ((am_ActorID ∘ snd) <$> map_to_list (sv_actors st)) with (map_to_list (sv_actors st)).*1; [apply NoDup_fst_map_to_list|].
  apply list_fmap_ext. intros i [k a] Hi. apply list_elem_of_lookup_2, elem_of_map_to_list in Hi. symmetry. by apply (law_named st k a Hok).
Qed.
Lemma stored_sorted cur : StronglySorted actorOrder (stored cur).
Proof using Type. apply StronglySorted_filter, StronglySorted_merge_sort; apply _. Qed.

Lemma elem_of_stored cur m : m ∈ stored cur ↔ ¬ string_le (am_ActorID m) cur ∧ wanted storageFilter m ∧ sv_actors st !! am_ActorID m = Some m.
Proof using DL Hok.
  unfold storedAfter. rewrite list_elem_of_filter, merge_sort_Permutation, list_elem_of_filter, list_elem_of_fmap. split.
  - intros (H1 & H2 & [k a] & -> & Ha%elem_of_map_to_list). pose proof (law_named st k a Hok Ha) as [<- _]. done.
  - intros (H1 & H2 & Ha). split_and!; [done..|]. exists (am_ActorID m, m). split; [done|]. by apply elem_of_map_to_list.
Qed.

Lemma stored_next cur x l1 l2 : stored cur = l1 ++ x :: l2 → stored (am_ActorID x) = l2.
Proof using DL Hok.
  intros Hl. pose proof (stored_NoDup cur) as Hn. pose proof (stored_sorted cur) as Hs.
  assert (x ∈ stored cur) as (Hx & _ & _)%elem_of_stored. { rewrite Hl. apply elem_of_app. right. by left. }
  rewrite Hl in Hn, Hs. rewrite <- (filter_after l1 l2 x Hs Hn), <- Hl. unfold storedAfter. rewrite list_filter_filter. apply list_filter_iff.
  intros a. split; [|tauto]. intros Ha. split; [done|]. intros Hle. apply Ha. destruct (string_le_total (am_ActorID x) cur) as [?|Hax]; [done|]. by etrans.
Qed.

(** The infos of stored actors are the visible ones. *)
Lemma stored_matching m : m ∈ stored after → actorMatches (infoOf cfg m s) q = true → matching cfg q after s !! am_ActorID m = Some (infoOf cfg m s).
Proof using DL Hok Hst.
  intros (Ha & _ & Hm)%elem_of_stored Hq. apply matching_Some. split; [|done]. by apply (visible_stored cfg s st).
Qed.

(** Nothing that is still in storage can be on the page. *)
Definition fullScan (merged : gmap Identifier ActorInfo) : Prop :=
  ∀ m, m ∈ stored after → actorMatches (infoOf cfg m s) q = true → merged !! am_ActorID m = None → limit < below (am_ActorID m) merged.

(** All of [done] is merged, and the rest of the list is above a key that is at
    [limit] or higher. *)
Lemma scanned_complete merged done rest page :
  stored after = done ++ rest → (∀ m, m ∈ done → actorMatches (infoOf cfg m s) q = true → is_Some (merged !! am_ActorID m)) →
  (pg_Next page = "" → rest = []) → (∀ m, last (pg_Actors page) = Some m → m ∈ done) → scanned limit page merged = true → fullScan merged.
Proof using DL Hok.
  intros Hl Hdone Hend Hlast [Hs|Hs]%orb_true_iff m Hm Hq Hn.
  - apply bool_decide_eq_true in Hs. rewrite Hl, (Hend Hs), app_nil_r in Hm. destruct (Hdone m Hm Hq). congruence.
  - destruct (sortedIDs merged !! limit) as [id|] eqn:Eid; [|done]. destruct (last (pg_Actors page)) as [x|] eqn:Ex; [|done]. apply bool_decide_eq_true in Hs.
    pose proof (Hlast x eq_refl) as Hx. rewrite Hl in Hm. apply elem_of_app in Hm as [Hm|Hm]; [destruct (Hdone m Hm Hq); congruence|].
    pose proof (stored_sorted after) as Hsort. pose proof (stored_NoDup after) as Hnd. rewrite Hl in Hsort, Hnd. rewrite fmap_app in Hnd. apply NoDup_app in Hnd as (_ & Hdis & _).
    assert (string_le (am_ActorID x) (am_ActorID m)) as Hxm by by apply (StronglySorted_app_1_elem_of _ _ _ x m Hsort).
    eapply below_lookup; [exact Eid | by etrans|]. intros ->. apply (Hdis (am_ActorID x)); [by apply list_elem_of_fmap_2|].
    replace (am_ActorID x) with (am_ActorID m) by (by apply (anti_symm string_le)). by apply list_elem_of_fmap_2.
Qed.

Lemma run_scanStorage fuel cursor cur q' merged done :
  queryValidate (metadataQuery cursor MaxActorPageLimit (aq_IDPrefix q) q) = Ok (q', cur) →
  stored after = done ++ stored cur → partial s merged →
  (∀ m, m ∈ done → actorMatches (infoOf cfg m s) q = true → is_Some (merged !! am_ActorID m)) → length (stored cur) < fuel →
  ∃ merged', run (scanStorage cfg fuel None q cursor merged) s = Some (s, Ok merged') ∧ partial s merged' ∧ fullScan merged'.
Proof using DL Hok Hst.
  revert cursor cur q' merged done. induction fuel as [|fuel IH]; intros cursor cur q' merged done Hq Hl Hp Hdone Hlen; [lia|].
  pose proof (metadataQuery_valid _ _ _ Hq) as ->. cbn [scanStorage]. rewrite run_bind. cbn [run follows atomic]. unfold asks. rewrite Hst. cbn [fmap option_fmap option_map mbind option_bind].
  rewrite (law_query st _ _ _ Hok Hq). change (storedAfter (metadataQuery cursor _ _ q) cur (sv_actors st)) with (stored cur).
  set (rest := stored cur) in *. set (page := storedPage _ rest). change (pg_Actors page) with (take 200 rest). rewrite run_bind, run_absorb.
  destruct (absorbed_spec s (take 200 rest) merged (pa_sub _ _ Hp)) as (H1 & H2 & H3).
  { intros m Hm. apply stored_matching. rewrite Hl. apply elem_of_app. right. rewrite <- (take_drop 200 rest). apply elem_of_app. by left. }
  set (merged' := absorbed s merged (take 200 rest)) in *. pose proof (partial_mono _ _ _ Hp H1 H2) as Hp'.
  assert (∀ m, m ∈ done ++ take 200 rest → actorMatches (infoOf cfg m s) q = true → is_Some (merged' !! am_ActorID m)) as Hdone'.
  { intros m [Hm|Hm]%elem_of_app Hmq; [|by apply H3]. eapply lookup_weaken_is_Some; [by apply Hdone|done]. }
  assert (stored after = (done ++ take 200 rest) ++ drop 200 rest) as Hl' by (by rewrite <- app_assoc, take_drop).
  destruct (decide (200 < length rest)) as [Hmore|Hfew].
  - destruct (take 200 rest) as [|x l1 _] eqn:Et using rev_ind; [apply (f_equal length) in Et; rewrite length_take, Nat.min_l in Et by lia; discriminate|].
    assert (pg_Next page = ActorMetadataCursorFor (am_ActorID x)) as Enext.
    { unfold page, storedPage. cbn [pg_Next q_Limit metadataQuery]. change (Z.to_nat MaxActorPageLimit) with 200. rewrite decide_True, Et, last_snoc by done. done. }
    destruct (scanned limit page merged') eqn:Esc.
    { exists merged'. split_and!; [done..|]. apply (scanned_complete merged' (done ++ l1 ++ [x]) (drop 200 rest) page); [done|done| | |done].
      - rewrite Enext. unfold ActorMetadataCursorFor. destruct (am_ActorID x) as [|b [|c r]]; discriminate.
      - intros m. change (pg_Actors page) with (take 200 rest). rewrite Et, last_snoc. intros [= <-]. apply elem_of_app. right. apply elem_of_app. right. by left. }
    assert (rest = l1 ++ x :: drop 200 rest) as Hrest by (rewrite <- (take_drop 200 rest) at 1; by rewrite Et, <- app_assoc).
    assert (stored (am_ActorID x) = drop 200 rest) as Hnext by (by apply (stored_next cur x l1)).
    assert (x ∈ rest) as (_ & _ & Hx)%elem_of_stored by (rewrite Hrest; apply elem_of_app; right; by left).
    pose proof (law_named st _ _ Hok Hx) as [_ Hid]. pose proof (queryValidate_cursor _ _ _ (am_ActorID x) Hq Hid) as Hq2.
    rewrite Enext. apply (IH _ (am_ActorID x) _ merged' (done ++ l1 ++ [x]) Hq2); [by rewrite Hnext|done|done|].
    rewrite Hnext, length_drop. lia.
  - assert (pg_Next page = "") as Enext.
    { unfold page, storedPage. cbn [pg_Next q_Limit metadataQuery]. change (Z.to_nat MaxActorPageLimit) with 200. by rewrite decide_False. }
    assert (scanned limit page merged' = true) as Esc by (unfold scanned; by rewrite Enext, bool_decide_true).
    rewrite Esc. exists merged'. split_and!; [done..|]. apply (scanned_complete merged' (done ++ take 200 rest) (drop 200 rest) page); [done|done| | |done].
    + intros _. apply drop_ge. lia.
    + intros m Hm. apply elem_of_app. right. change (pg_Actors page) with (take 200 rest) in Hm. by eapply last_Some_elem_of.
Qed.

(** A view of metadata that matches was wanted from the storage. *)
Lemma matches_wanted m : actorMatches (infoForMetadata cfg m) q = true → wanted storageFilter m.
Proof using Type.
  unfold actorMatches, wanted. cbn. rewrite !andb_true_iff, !orb_true_iff, !bool_decide_eq_true. naive_solver.
Qed.

Lemma complete_page merged : partial s merged → fullScan merged → pageOf limit merged = pageOf limit (matching cfg q after s).
Proof using DL Hok Hst.
  intros Hp Hc. apply pageOf_agree; [apply Hp|]. intros id [info Hm] Hn. pose proof Hm as Hmatch. apply matching_Some in Hm as (Hv & Ha & Hq).
  apply visible_cases in Hv as [(e & He & Hi & ->)|(st' & m & Hs' & Hm & Hr & ->)]; [by eapply pa_local|].
  rewrite Hst in Hs'. injection Hs' as <-. pose proof (law_named st id m Hok Hm) as [<- _]. apply Hc; [|by unfold infoOf; rewrite Hr|done].
  apply elem_of_stored. split_and!; [done|by apply matches_wanted|done].
Qed.
End stored.
End merge.

(** ** A query that runs alone *)

(** The limit and the prefix do not matter for the validity of a cursor. *)
Lemma queryValidate_again cursor limit prefix q q' after : queryValidate (metadataQuery cursor limit "" q) = Ok (q', after) →
  ∃ q2, queryValidate (metadataQuery cursor MaxActorPageLimit prefix q) = Ok (q2, after).
Proof.
  unfold queryValidate. cbn [metadataQuery q_After q_Limit q_ActorIDPrefix q_ChartID q_Revision q_Lifecycle]. intros H.
  apply result_bind_Ok in H as ([] & _ & H). apply result_bind_Ok in H as ([] & -> & H). apply result_bind_Ok in H as ([] & -> & H).
  cbn -[Z.lt]. case_decide; [injection H as _ <-; by eexists|]. repeat case_match; simplify_eq; by eexists.
Qed.

Lemma normalizeActorQuery_Ok query q after : normalizeActorQuery query = Ok (q, after) →
  (1 ≤ aq_Limit q ≤ MaxActorPageLimit)%Z ∧ ∃ q2, queryValidate (metadataQuery (aq_After q) MaxActorPageLimit (aq_IDPrefix q) q) = Ok (q2, after).
Proof.
  unfold normalizeActorQuery. set (n := mkActorQuery _ _ _ _ _ _ _ _). intros ([] & Hlim & H)%result_bind_Ok.
  apply result_bind_Ok in H as ([q' a] & Hv & H). apply result_bind_Ok in H as ([] & _ & [= <- <-]).
  apply fail_if_Ok, orb_false_iff in Hlim as [H1%bool_decide_eq_false H2%bool_decide_eq_false]. split; [lia|]. by apply (queryValidate_again _ _ _ _ _ _ Hv).
Qed.

Section query.
Context `{DM : DatamodelSession} {L : Type} `{AS : !ActorStorage L} `{SV : !StorageView L} (ok : L → Prop) `{DL : !DirectoryLaws L ok}.
Context {Inst : Type} `{IN : !Instances Inst}.
Variable cfg : systemConfig.
#[local] Abbreviation System := (@System DM L Inst).

(** When storage is not asked, nothing in it matches. *)
Lemma skipped_page q after (s : System) merged : wantsStorage q s = false → partial cfg q after s merged →
  pageOf (Z.to_nat (aq_Limit q)) merged = pageOf (Z.to_nat (aq_Limit q)) (matching cfg q after s).
Proof using Type.
  intros Hw Hp. apply pageOf_agree; [apply Hp|]. intros id [info Hm] Hn. pose proof Hm as Hmatch. apply matching_Some in Hm as (Hv & Ha & Hq).
  apply visible_cases in Hv as [(e & He & Hi & ->)|(st & m & Hs & Hm & Hr & ->)]; [by eapply pa_local|]. exfalso.
  unfold wantsStorage in Hw. rewrite Hs in Hw. unfold actorMatches in Hq. cbn in Hw, Hq. rewrite !andb_true_iff in Hq. destruct Hq as [[[_ Hd] _] Hres].
  apply orb_true_iff in Hres. rewrite !bool_decide_eq_true in Hres.
  rewrite (bool_decide_false (aq_Residency q = ResidencyResident)), (bool_decide_false (aq_Residency q = ResidencyHydrating)) in Hw
    by (destruct Hres as [->|<-]; discriminate).
  by destruct (aq_Durable q) as [[]|].
Qed.

Lemma length_storedAfter f after (actors : gmap Identifier ActorMetadata) : length (storedAfter f after actors) ≤ size actors.
Proof using Type.
  unfold storedAfter. etrans; [apply length_filter|]. rewrite merge_sort_Permutation. etrans; [apply length_filter|]. by rewrite length_fmap, length_map_to_list.
Qed.

(** A query that runs alone ends, and shows the first actors after the cursor that
    match, out of all that are visible. *)
Lemma run_querySystemActors fuel query q after (s : System) : listed s →
  (∀ st, sy_storage s = Some st → ok st ∧ size (sv_actors st) < fuel) → normalizeActorQuery query = Ok (q, after) →
  run (querySystemActors cfg fuel None query) s = Some (sortActorIDs s, Ok (pageOf (Z.to_nat (aq_Limit q)) (matching cfg q after s))).
Proof using DL.
  intros Hl Hst Hq. unfold querySystemActors. rewrite Hq, run_bind, run_localInfosAfter by done.
  set (s1 := sortActorIDs s). assert (matching cfg q after s = matching cfg q after s1) as -> by (unfold matching, s1; by rewrite visible_sortActorIDs).
  pose proof (local_partial cfg q after s1 (sortActorIDs_listed s Hl) (sortActorIDs_sorted s Hl)) as Hp.
  change (filter _ (sy_actorIDs s1)) with (idsAfter after s) in Hp. set (merged := mergeInfos _) in *. rewrite run_bind. cbn [run reads atomic].
  destruct (wantsStorage q s1) eqn:Hw; [|by rewrite run_bind; cbn [run mret thread_ret]; rewrite (skipped_page _ _ _ _ Hw Hp)].
  assert (∃ st, sy_storage s1 = Some st ∧ ok st ∧ size (sv_actors st) < fuel) as (st & Es & Hok & Hsize).
  { unfold wantsStorage in Hw. destruct (sy_storage s1) as [st|] eqn:Es; [|done]. exists st. split; [done|]. apply Hst. by destruct (sortActorIDs_table s) as [_ <-]. }
  apply normalizeActorQuery_Ok in Hq as [_ [q2 Hv]].
  destruct (run_scanStorage ok cfg q after s1 st Es Hok fuel (aq_After q) after q2 merged []) as (merged' & Hrun & Hp' & Hc); [done|done|done|by intros m ?%elem_of_nil| |].
  { eapply Nat.le_lt_trans; [apply length_storedAfter|done]. }
  rewrite run_bind, Hrun. cbn [run mret thread_ret]. by rewrite (complete_page ok cfg q after s1 st Es Hok merged' Hp' Hc).
Qed.

(** ** History *)

(** A page of the log: the first entries, and a cursor when there are more. *)
Definition historyPage (limit : nat) (entries : list LogEntry) : ActorHistoryPage :=
  mkHistoryPage (take limit entries)
    (if decide (limit < length entries) then match last (take limit entries) with Some e => le_Seq e | None => 0%N end else 0%N).

Lemma takeHistory_page limit entries page : length page ≤ limit →
  takeHistory limit entries None page = Ok (historyPage limit (page ++ map cloneLogEntry entries)).
Proof using Type.
  revert page. induction entries as [|e entries IH]; intros page Hlen; cbn [takeHistory map].
  { unfold historyPage. rewrite app_nil_r, take_ge, decide_False by lia. done. }
  rewrite (cons_middle _ page (map _ _)), (app_assoc page [_] (map _ _)). case_decide as Hd; [|apply IH; lia]. rewrite length_app in Hd. simpl in Hd. unfold historyPage.
  rewrite (decide_True (P := limit < _)) by (rewrite !length_app; simpl; lia). rewrite (take_app_le (page ++ _)) by (rewrite length_app; simpl; lia). done.
Qed.
End query.

(** ** The list of the IDs is kept by every operation *)

Section listing.
Context `{DM : DatamodelSession} {L : Type} `{AS : !ActorStorage L} {Inst : Type} `{IN : !Instances Inst}.
Variable cfg : systemConfig.
Variable parseDuration : string → result Z.
Variable jsonMarshal : ChartDefinition → result string.
Variable sha256 : string → string.
Variable jsonDecode : string → result (ChartDefinition * trailing).
Variable range : gset Identifier → list Identifier.
#[local] Abbreviation System := (@System DM L Inst).
#[local] Abbreviation thread := (Threads.thread System).

(** What [listed] is about. *)
Definition listing (s : System) : list Identifier * bool * gmap Identifier Identifier := (sy_actorIDs s, sy_actorIDsDirty s, ae_name <$> sy_table s).

Definition relists (s s' : System) : Prop := listed s → listed s'.
#[export] Instance relists_preorder : PreOrder relists.
Proof using Type. split; [by intros s H|]. intros x y z H1 H2 H. auto. Qed.

Lemma listing_relists s s' : listing s' = listing s → relists s s'.
Proof using Type.
  intros [= E1 E2 E3] [H1 H2 H3]. assert (dom (sy_table s') = dom (sy_table s)) as Ed by (rewrite <- (dom_fmap_L ae_name (sy_table s)), <- E3; by rewrite dom_fmap_L).
  split; [by rewrite E1, Ed|by rewrite E1, E2|]. intros n e He. apply (f_equal (lookup n)) in E3. rewrite !lookup_fmap, He in E3. cbn in E3.
  destruct (sy_table s !! n) as [x|] eqn:E; [|done]. injection E3 as ->. by apply H3.
Qed.

Lemma listing_updateEntry n f (s : System) : (∀ e, ae_name (f e) = ae_name e) → listing (updateEntry n f s) = listing s.
Proof using Type.
  intros Hf. unfold listing, updateEntry. cbn. f_equal. apply map_eq. intros m. rewrite !lookup_fmap. destruct (decide (n = m)) as [<-|Hne].
  - rewrite lookup_alter_eq. destruct (sy_table s !! n); [|done]. cbn. by rewrite Hf.
  - by rewrite lookup_alter_ne.
Qed.

Lemma listing_observeActor kind n t (s : System) : listing (observeActor cfg kind n t s) = listing s.
Proof using Type. unfold observeActor. by case_decide. Qed.
Lemma listing_notifyDiscovered n (s : System) : listing (notifyDiscovered cfg n s) = listing s.
Proof using Type.
  unfold notifyDiscovered. destruct (sy_table s !! n) as [e|]; [|done]. destruct (ae_discovered e); [done|]. by rewrite listing_observeActor, listing_updateEntry.
Qed.
Lemma listing_notifyTerminal n (s : System) : listing (notifyTerminal cfg n s) = listing s.
Proof using Type.
  unfold notifyTerminal. destruct (sy_table s !! n) as [e|]; [|done]. destruct (ae_observedEnd e); [done|]. by rewrite listing_observeActor, listing_updateEntry.
Qed.
Lemma listing_calls x (s : System) : listing (sys_calls x s) = listing s.
Proof using Type. done. Qed.
Lemma listing_notifyResidency n state (s : System) : listing (notifyResidency cfg n state s) = listing s.
Proof using Type. unfold notifyResidency. destruct (cf_onResidency cfg); rewrite ?listing_calls, listing_observeActor, listing_updateEntry; done. Qed.
Lemma listing_enqueueDispatch j (s : System) : listing (enqueueDispatch cfg j s).1 = listing s.
Proof using Type. unfold enqueueDispatch. destruct (_ || _); [done|]. by case_decide. Qed.
Lemma listing_routingSend act self req (s : System) : listing (routingSend cfg act self req s).1 = listing s.
Proof using Type.
  unfold routingSend. case_decide; [done|]. destruct (resolveTarget cfg (sr_Target req) s); [apply listing_enqueueDispatch|]. by destruct (cf_scxmlPeer cfg).
Qed.
Lemma listing_routingSendWithAck act self req (s : System) : listing (routingSendWithAck cfg act self req s).1.1 = listing s.
Proof using Type.
  unfold routingSendWithAck. pose proof (listing_routingSend act self req s) as H. destruct (routingSend cfg act self req s) as [s1 err]. cbn in H.
  destruct (resolveTarget cfg (sr_Target req) s); [|destruct (cf_scxmlPeer cfg); [|done]]; case_match; try done. apply listing_enqueueDispatch.
Qed.
Lemma listing_customSend act typ req (s : System) : listing (customSend cfg act typ req s).1 = listing s.
Proof using Type. unfold customSend. by destruct (customProcessor cfg act typ). Qed.
Lemma listing_transportSend act self typ req (s : System) : listing (transportSend cfg act self typ req s).1.1 = listing s.
Proof using Type. unfold transportSend. case_decide; [apply listing_routingSendWithAck|]. cbn. apply listing_customSend. Qed.
Lemma listing_reports n evs (s : System) : listing (foldl (λ s ev, (enqueueDispatch cfg (JobIngress n ev) s).1) s evs) = listing s.
Proof using Type. revert s. induction evs as [|ev evs IH]; intros s; [done|]. cbn. by rewrite IH, listing_enqueueDispatch. Qed.

Lemma listing_onOutbox {A} act a call (op : outboxWorld → outboxWorld * A) (s s' : System) r :
  (∀ s, listing (call s) = listing s) → onOutbox cfg act a call op s = Some (s', r) → listing s' = listing s.
Proof using Type.
  intros Hc. unfold onOutbox. destruct (sy_storage s) as [st|]; [|done]. cbn. destruct (op _) as [w x]. intros [= <- _].
  rewrite listing_reports. by destruct (ow_calls w); [|rewrite Hc].
Qed.

Lemma listing_recoverMessage act m (s s' : System) err err' : recoverMessage cfg act m s err = Some (s', err') → listing s' = listing s.
Proof using Type.
  unfold recoverMessage. destruct (sy_activations s !! act) as [a|]; [|done]. cbn. destruct (transportSend _ _ _ _ _ _) as [[? ?] ?].
  apply listing_onOutbox. intros. apply listing_transportSend.
Qed.
Lemma listing_recoverMessages act ms (s s' : System) err err' : recoverMessages cfg act ms s err = Some (s', err') → listing s' = listing s.
Proof using Type.
  revert s err. induction ms as [|m ms IH]; intros s err; cbn; [by intros [= <- _]|]. destruct (recoverMessage cfg act m s err) as [[s1 e1]|] eqn:E; [|done].
  cbn. intros ->%IH. by eapply listing_recoverMessage.
Qed.

Lemma listing_onStorage {A} (f : L → result (L * A)) (s s' : System) r : onStorage f s = Some (s', r) → listing s' = listing s.
Proof using Type. unfold onStorage. destruct (sy_storage s); [|done]. cbn. destruct (f _) as [[? ?]|]; by intros [= <- _]. Qed.

Lemma listing_markTerminal n t (s : System) : listing (markTerminal cfg n t s) = listing s.
Proof using Type.
  unfold markTerminal, reapTerminalWhenDone. set (s1 := notifyTerminal _ _ _).
  assert (listing s1 = listing s) as <- by (unfold s1; rewrite listing_notifyTerminal; by apply listing_updateEntry). by destruct (instanceOf n s1).
Qed.

Lemma listing_ingressHook a ev (s s' : System) r : ingressHook a ev s = Some (s', r) → listing s' = listing s.
Proof using Type.
  unfold ingressHook. set (s1 := updateEntry _ _ s). assert (listing s1 = listing s) as <- by by apply listing_updateEntry.
  destruct (_ || _); [by intros [= <- _]|]. destruct (onStorage _ s1) as [[s2 x]|] eqn:E; [|done]. intros [= <- _]. by eapply listing_onStorage.
Qed.
Lemma listing_timerFiredHook a sendID target typ ev (s s' : System) r : timerFiredHook a sendID target typ ev s = Some (s', r) → listing s' = listing s.
Proof using Type.
  unfold timerFiredHook. destruct (av_durable a); [|by intros [= <- _]]. destruct (onStorage _ s) as [[s2 x]|] eqn:E; [|done]. intros [= <- _]. by eapply listing_onStorage.
Qed.
Lemma listing_durableSend act a req (s s' : System) r : durableSend cfg act a req s = Some (s', r) → listing s' = listing s.
Proof using Type.
  unfold durableSend. destruct (transportSend _ _ _ _ _ _) as [[? ?] ?]. apply listing_onOutbox. intros. apply listing_transportSend.
Qed.
Lemma listing_recover act a (s s' : System) r : recover cfg act a s = Some (s', r) → listing s' = listing s.
Proof using Type.
  unfold recover. destruct (av_recovery a); [by intros [= <- _]|]. destruct (recoverMessages _ _ _ _ _) as [[s1 e1]|] eqn:E; [|done]. intros [= <- _].
  by eapply listing_recoverMessages in E.
Qed.

Lemma listing_perform act c (s s' : System) r : perform cfg act c s = Some (s', r) → listing s' = listing s.
Proof using Type.
  unfold perform. destruct (sy_activations s !! act) as [a|]; [|done]. cbn. destruct c as [ev|sendID target typ ev| |req| |cp|trace].
  - apply listing_ingressHook.
  - apply listing_timerFiredHook.
  - done.
  - destruct (av_durable a); [apply listing_durableSend|]. intros [= E]. case_decide; [rewrite <- (listing_routingSend act (address cfg (av_name a)) req s)|rewrite <- (listing_customSend act (sr_Type req) req s)];
      by rewrite E.
  - apply listing_recover.
  - destruct (onStorage _ s) as [[s1 x]|] eqn:E; [|done]. intros [= <- _]. by eapply listing_onStorage.
  - intros [= <- _]. apply listing_observeActor.
Qed.

(** The list of the IDs grows with the table. *)
Lemma entryFor_relists n kind revision durable (s : System) : relists s (entryFor cfg n kind revision durable s).1.
Proof using Type.
  intros Hl. unfold entryFor. destruct (sy_stopped s); [done|]. destruct (sy_table s !! n) as [e|] eqn:E; [by repeat case_match|]. cbn.
  set (s1 := sys_actorIDsDirty true _). assert (listed s1) as H1.
  { split; cbn; [|done|].
    - rewrite (li_ids s Hl), dom_insert_L, elements_union_singleton, Permutation_app_comm; [done|]. by apply not_elem_of_dom.
    - intros m x [[<- <-]|[_ Hx]]%lookup_insert_Some; [by destruct durable | by apply (li_named s Hl)]. }
  destruct durable; [exact H1|]. by apply (listing_relists s1); [apply listing_notifyDiscovered|].
Qed.

(** *** Every action of every operation *)

#[local] Abbreviation lists t := (always relists t).

(** An action that leaves the listing alone. *)
Lemma lists_atomic {A} (f : System → option (System * A)) : (∀ s s' a, f s = Some (s', a) → listing s' = listing s) → lists (atomic f).
Proof using Type. intros H. apply always_atomic. intros s s' a E. apply listing_relists. by eapply H. Qed.
Lemma lists_writes (f : System → System) : (∀ s, listing (f s) = listing s) → lists (writes f).
Proof using Type. intros H. apply always_writes. intros s. by apply listing_relists. Qed.
Lemma lists_updates {A} (f : System → System * A) : (∀ s, listing (f s).1 = listing s) → lists (updates f).
Proof using Type. intros H. apply always_updates. intros s. by apply listing_relists. Qed.

#[local] Hint Rewrite @listing_notifyResidency @listing_notifyDiscovered @listing_notifyTerminal @listing_observeActor @listing_markTerminal
  @listing_enqueueDispatch @listing_calls : listing.
#[local] Hint Rewrite @listing_updateEntry using (intros; reflexivity) : listing.

Ltac same_listing :=
  intros; cbn in *; repeat first [ progress simplify_eq/= | done
    | match goal with H : mbind _ ?o = Some _ |- _ => destruct o eqn:?; [|discriminate H]; cbn in H end | case_match | progress autorewrite with listing ].
Ltac lists_leaf :=
  first [ apply lists_atomic; intros ? ? ?; solve [apply listing_onStorage] | apply lists_writes; solve [same_listing]
        | apply lists_updates; solve [same_listing] | apply lists_atomic; solve [same_listing] ].
Ltac lists_simple := repeat first [ solve [auto with lists] | always_step | lists_leaf ].

Lemma lists_acquire i l : lists (acquire i l).
Proof using Type. unfold acquire. lists_simple. Qed.
Lemma lists_release l : lists (release l).
Proof using Type. unfold release. lists_simple. Qed.
Lemma lists_tryAcquire i l : lists (tryAcquire i l).
Proof using Type. unfold tryAcquire. lists_simple. Qed.
#[local] Hint Resolve lists_acquire lists_release lists_tryAcquire : lists.
Lemma lists_locked {A} i l (body : thread A) : lists body → lists (locked i l body).
Proof using Type. intros H. unfold locked. lists_simple. Qed.
Lemma lists_quick {A} act (f : Inst → System → option (System * A)) :
  (∀ inst s s' a, f inst s = Some (s', a) → listing s' = listing s) → lists (quick act f).
Proof using Type.
  intros H. apply lists_atomic. intros s s' a. destruct (sy_locks s !! LInstance act); [done|]. destruct (sy_heap s !! act) as [inst|]; [|done]. apply H.
Qed.
Ltac lists := repeat first [ solve [auto with lists] | always_step | apply lists_locked | lists_leaf ].

Lemma lists_completionHook act : lists (completionHook cfg act).
Proof using Type. unfold completionHook, entryOf. lists. Qed.
#[local] Hint Resolve lists_completionHook : lists.
Lemma lists_host act c : lists (host cfg act c).
Proof using Type. unfold host. destruct c; try (apply lists_atomic; intros s s' a; apply listing_perform). auto with lists. Qed.
#[local] Hint Resolve lists_host : lists.
Lemma lists_runProc {A} act (p : proc A) : lists (runProc cfg act p).
Proof using Type. induction p as [a|c k IH|]; cbn [runProc]; lists. Qed.
#[local] Hint Resolve lists_runProc : lists.
Lemma lists_request {A} i act (p : Inst → proc (Inst * A)) : lists (request cfg i act p).
Proof using Type. unfold request. apply lists_locked. lists. Qed.
#[local] Hint Resolve lists_request : lists.
Lemma lists_Deliver i act ctx ev : lists (Deliver cfg i act ctx ev).
Proof using Type. unfold Deliver. lists. Qed.
Lemma lists_ownActivity i act input : lists (ownActivity cfg i act input).
Proof using Type. unfold ownActivity. lists. Qed.
Lemma lists_HasActiveInvokes act ctx : lists (HasActiveInvokes act ctx).
Proof using Type. apply lists_quick. by intros inst s s' a [= <- _]. Qed.
Lemma lists_Stop_ act ctx : lists (Stop_ act ctx).
Proof using Type. apply lists_quick. intros inst s s' a. destruct (inst_Stop ctx inst). by intros [= <- _]. Qed.
Lemma lists_Checkpoint_ act ctx n sid : lists (Checkpoint_ act ctx n sid).
Proof using Type. apply lists_quick. same_listing. Qed.
#[local] Hint Resolve lists_Deliver lists_ownActivity lists_HasActiveInvokes lists_Stop_ lists_Checkpoint_ : lists.

Lemma lists_pageOut n : lists (pageOut cfg n).
Proof using Type. unfold pageOut. lists. Qed.
#[local] Hint Resolve lists_pageOut : lists.
Lemma lists_evictLocked ctx n : lists (evictLocked cfg ctx n).
Proof using Type. unfold evictLocked, entryOf. lists. Qed.
#[local] Hint Resolve lists_evictLocked : lists.
Lemma lists_reapOne i n : lists (reapOne cfg i n).
Proof using Type. unfold reapOne, entryOf. lists. Qed.
#[local] Hint Resolve lists_reapOne : lists.
Lemma lists_reapFinished i : lists (reapFinished cfg range i).
Proof using Type. unfold reapFinished. lists. Qed.
Lemma lists_tryVictim i ctx n : lists (tryVictim i ctx n).
Proof using Type. unfold tryVictim, entryOf. lists. Qed.
#[local] Hint Resolve lists_reapFinished lists_tryVictim : lists.
Lemma lists_pickEvictionVictim i ctx n : lists (pickEvictionVictim range i ctx n).
Proof using Type. unfold pickEvictionVictim. lists. Qed.
#[local] Hint Resolve lists_pickEvictionVictim : lists.
Lemma lists_makeRoom fuel i ctx limit n : lists (makeRoom cfg range fuel i ctx limit n).
Proof using Type. induction fuel as [|fuel IH]; cbn [makeRoom]; lists. Qed.
#[local] Hint Resolve lists_makeRoom : lists.
Lemma lists_admit i ctx n : lists (admit_ cfg range i ctx n).
Proof using Type. unfold admit_. lists. Qed.
Lemma lists_publishInstance n act : lists (publishInstance cfg n act).
Proof using Type. unfold publishInstance, entryOf. lists. Qed.
#[local] Hint Resolve lists_admit lists_publishInstance : lists.
Lemma lists_openActivation ctx e chart : lists (atomic (openActivation cfg ctx e chart)).
Proof using Type. apply lists_atomic. unfold openActivation. same_listing. Qed.
#[local] Hint Resolve lists_openActivation : lists.
Lemma lists_hydrate i ctx n live : lists (hydrate cfg range i ctx n live).
Proof using Type. unfold hydrate, entryOf. lists. Qed.
Lemma lists_passStopped i n : lists (passStopped i n).
Proof using Type. unfold passStopped. lists. Qed.
Lemma lists_beginHydrating n : lists (beginHydrating cfg n).
Proof using Type. unfold beginHydrating, entryOf. lists. Qed.
#[local] Hint Resolve lists_hydrate lists_passStopped lists_beginHydrating : lists.
Lemma lists_activateAdmitted i ctx n : lists (activateAdmitted cfg range i ctx n).
Proof using Type. unfold activateAdmitted, entryOf. lists. Qed.
#[local] Hint Resolve lists_activateAdmitted : lists.
Lemma lists_activateLocked i ctx n : lists (activateLocked cfg range i ctx n).
Proof using Type. unfold activateLocked, entryOf. lists. Qed.
#[local] Hint Resolve lists_activateLocked : lists.

Lemma lists_storeArtifact ctx chart : lists (storeArtifact ctx chart).
Proof using Type. unfold storeArtifact. lists. Qed.
Lemma lists_announce kind previous revision : lists (writes (announcePublication kind previous revision)).
Proof using Type. apply lists_writes. intros s. unfold announcePublication. by destruct (_ || _). Qed.
Lemma lists_install kind chart : lists (atomic (install kind chart)).
Proof using Type. apply lists_atomic. unfold install. same_listing. Qed.
#[local] Hint Resolve lists_storeArtifact lists_announce lists_install : lists.
Lemma lists_Register registered : lists (Register cfg registered).
Proof using Type. unfold Register. lists. Qed.
Lemma lists_Publish i ctx d : lists (Publish cfg parseDuration jsonMarshal sha256 i ctx d).
Proof using Type. unfold Publish. lists. Qed.
Lemma lists_loadRevision ctx kind model revision : lists (loadRevision cfg parseDuration jsonMarshal sha256 jsonDecode ctx kind model revision).
Proof using Type. unfold loadRevision. lists. Qed.
#[local] Hint Resolve lists_loadRevision : lists.
Lemma lists_resolveRevision i ctx kind revision : lists (resolveRevision cfg parseDuration jsonMarshal sha256 jsonDecode i ctx kind revision).
Proof using Type. unfold resolveRevision. lists. Qed.
#[local] Hint Resolve lists_resolveRevision : lists.
Lemma lists_CollectDefinition i ctx kind revision : lists (CollectDefinition range i ctx kind revision).
Proof using Type. unfold CollectDefinition, collectLocked, collectible, deleteStored, dropRevision. lists. Qed.

Lemma lists_adopt i ctx n kind m live : lists (adopt cfg parseDuration jsonMarshal sha256 jsonDecode i ctx n kind m live).
Proof using Type. unfold adopt. lists. Qed.
Lemma lists_beginActor ctx candidate : lists (beginActor ctx candidate).
Proof using Type. unfold beginActor. lists. Qed.
#[local] Hint Resolve lists_adopt lists_beginActor : lists.
Lemma lists_selectDurableActor i ctx n kind current : lists (selectDurableActor cfg parseDuration jsonMarshal sha256 jsonDecode i ctx n kind current).
Proof using Type. unfold selectDurableActor. lists. Qed.
#[local] Hint Resolve lists_selectDurableActor : lists.
Lemma lists_spawnEntry n kind durable : lists (spawnEntry cfg n kind durable).
Proof using Type. unfold spawnEntry. lists. apply always_updates. intros s. apply entryFor_relists. Qed.
Lemma lists_pinDurable i ctx n kind current : lists (pinDurable cfg parseDuration jsonMarshal sha256 jsonDecode i ctx n kind current).
Proof using Type. unfold pinDurable, prepareDurableEntry, pinDurableEntry. lists. Qed.
#[local] Hint Resolve lists_spawnEntry lists_pinDurable : lists.
Lemma lists_Spawn i ctx n kind durable : lists (Spawn cfg parseDuration jsonMarshal sha256 jsonDecode range i ctx n kind durable).
Proof using Type. unfold Spawn, spawnLocked, entryOf. lists. Qed.

Lemma lists_reactivate i ctx target n : lists (reactivate cfg range i ctx target n).
Proof using Type. unfold reactivate, entryOf. lists. Qed.
#[local] Hint Resolve lists_reactivate : lists.
Lemma lists_acquireInstance i ctx target n : lists (acquireInstance cfg range i ctx target n).
Proof using Type. unfold acquireInstance, entryOf. lists. Qed.
Lemma lists_recordIngress i ctx target n sid ev act : lists (recordIngress cfg range i ctx target n sid ev act).
Proof using Type. unfold recordIngress, entryOf. lists. Qed.
Lemma lists_applyEvent i ctx n ev act : lists (applyEvent cfg i ctx n ev act).
Proof using Type. unfold applyEvent. lists. Qed.
#[local] Hint Resolve lists_acquireInstance lists_recordIngress lists_applyEvent : lists.
Lemma lists_deliver i ctx target ev : lists (deliver cfg range i ctx target ev).
Proof using Type. unfold deliver, deliverLocked, entryOf. lists. Qed.
#[local] Hint Resolve lists_deliver : lists.
Lemma lists_runJob i j : lists (runJob cfg range i j).
Proof using Type.
  unfold runJob, deliverAsync, reportDeliveryFailure. lists. apply lists_atomic. intros s s' u H. destruct (sy_activations s !! _) as [x|]; [|done]. cbn in H.
  destruct (completeSend cfg _ x _ _ _ s) as [s1|] eqn:E; [|done]. injection H as <- _. unfold completeSend in E. apply fmap_Some in E as ([s2 r] & E & ->).
  by eapply listing_onOutbox in E.
Qed.
#[local] Hint Resolve lists_runJob : lists.
Lemma lists_dispatchNext i : lists (dispatchNext cfg range i).
Proof using Type. unfold dispatchNext. lists. Qed.
Lemma lists_dispatcherExit i : lists (dispatcherExit i).
Proof using Type. unfold dispatcherExit. lists. Qed.
Lemma lists_reapTerminal i n act : lists (reapTerminal cfg i n act).
Proof using Type. unfold reapTerminal, entryOf. lists. Qed.
Lemma lists_sweepOne i n : lists (sweepOne cfg i n).
Proof using Type. unfold sweepOne, sweepError, entryOf. lists. Qed.
#[local] Hint Resolve lists_sweepOne : lists.
Lemma lists_runSweep i : lists (runSweep cfg range i).
Proof using Type. unfold runSweep, armSweep. lists. Qed.
Lemma lists_stopEntry i k n : lists (stopEntry cfg i k n).
Proof using Type. unfold stopEntry, entryOf. lists. Qed.
Lemma lists_Stop i ctx expires : lists (Stop range i ctx expires).
Proof using Type. unfold Stop, beginStop, awaitEntries, awaitDispatcher. lists. Qed.
Lemma lists_subscriptions buffer id d : lists (Subscribe buffer) ∧ lists (CloseSubscription id) ∧ lists (Receive id) ∧ lists (Tick d).
Proof using Type. unfold Subscribe, CloseSubscription, Receive, Tick. split_and!; lists. Qed.

(** *** The queries themselves *)

Context {InstanceInspection : Type}.
Variable inst_Inspect : option error → Inst → result InstanceInspection.

(** A query leaves the system as it is, but for the order of the listed IDs. *)
Definition unobserved (s s' : System) : Prop := s' = s ∨ s' = sortActorIDs s.
#[local] Instance unobserved_refl : Reflexive unobserved.
Proof using Type. intros s. by left. Qed.

Lemma unobserved_relists s s' : unobserved s s' → relists s s'.
Proof using Type. intros [-> | ->] H; [done | by apply sortActorIDs_listed]. Qed.

Lemma localInfosAfter_unobserved ctx after q : always unobserved (localInfosAfter cfg ctx after q).
Proof using Type.
  apply always_atomic. intros s s' a (r & _ & [= <- _])%bind_Some. by right.
Qed.
Lemma absorb_unobserved q ms merged : always unobserved (absorb cfg q ms merged).
Proof using Type. revert merged. induction ms as [|m ms IH]; intros merged; cbn [absorb]; repeat always_step; apply IH. Qed.
Lemma scanStorage_unobserved fuel ctx q cursor merged : always unobserved (scanStorage cfg fuel ctx q cursor merged).
Proof using Type.
  revert cursor merged. induction fuel as [|fuel IH]; intros cursor merged; cbn [scanStorage]; repeat always_step; [apply absorb_unobserved | apply IH].
Qed.
#[local] Hint Resolve localInfosAfter_unobserved scanStorage_unobserved : lists.
Lemma querySystemActors_unobserved fuel ctx query : always unobserved (querySystemActors cfg fuel ctx query).
Proof using Type. unfold querySystemActors. repeat first [solve [auto with lists] | always_step]. Qed.
Lemma actorMetadata_unobserved ctx id : always unobserved (actorMetadata cfg ctx id).
Proof using Type. unfold actorMetadata. repeat always_step. Qed.
#[local] Hint Resolve actorMetadata_unobserved : lists.
Lemma InspectActor_unobserved ctx id : always unobserved (InspectActor cfg inst_Inspect ctx id).
Proof using Type.
  unfold InspectActor. repeat first [solve [auto with lists] | always_step]. apply always_atomic. intros s s' r.
  destruct (sy_locks s !! _); [done|]. destruct (sy_heap s !! _); [|done]. cbn. intros [= <- _]. by left.
Qed.
Lemma InspectActorDefinition_unobserved ctx id : always unobserved (InspectActorDefinition cfg jsonMarshal sha256 jsonDecode ctx id).
Proof using Type. unfold InspectActorDefinition, pinnedDefinition. repeat first [solve [auto with lists] | always_step]. Qed.
Lemma QueryActorHistory_unobserved ctx id query : always unobserved (QueryActorHistory cfg ctx id query).
Proof using Type. unfold QueryActorHistory. repeat first [solve [auto with lists] | always_step]. Qed.
End listing.

(** ** What a page shows *)

(** A page of a directory: actors of it in the order of their IDs, no more than
    the limit, each once; what is missing comes later, and then the cursor names
    the last one that is shown. *)
Record shows (limit : nat) (directory : gmap Identifier ActorInfo) (page : ActorPage) : Prop := {
  sh_bound : length (ap_Actors page) ≤ limit;
  sh_sorted : StronglySorted string_le (ai_ID <$> ap_Actors page);
  sh_once : NoDup (ai_ID <$> ap_Actors page);
  sh_sound info : info ∈ ap_Actors page → directory !! ai_ID info = Some info;
  sh_complete id info : directory !! id = Some info → info ∈ ap_Actors page
    ∨ ∃ x, last (ap_Actors page) = Some x ∧ ap_Next page = ActorMetadataCursorFor (ai_ID x) ∧ string_le (ai_ID x) id;
  sh_end : ap_Next page ≠ "" → ∃ id, is_Some (directory !! id) ∧ id ∉ ai_ID <$> ap_Actors page
}.

(** The infos of sorted keys. *)
Lemma infos_IDs (m : gmap Identifier ActorInfo) ids : (∀ id info, m !! id = Some info → ai_ID info = id) → Forall (λ id, is_Some (m !! id)) ids →
  ai_ID <$> omap (λ id, m !! id) ids = ids.
Proof.
  intros Hk. induction 1 as [|id ids [info Hi] _ IH]; [done|]. cbn [omap list_omap]. rewrite Hi. cbn [fmap list_fmap]. by rewrite (Hk id info Hi), IH.
Qed.

Lemma pageOf_shows limit (m : gmap Identifier ActorInfo) : 0 < limit → (∀ id info, m !! id = Some info → ai_ID info = id) → shows limit m (pageOf limit m).
Proof.
  intros Hlim Hk. set (ids := sortedIDs m). assert (Forall (λ id, is_Some (m !! id)) (take limit ids)) as Hall.
  { apply Forall_forall. intros id Hid. apply elem_of_sortedIDs. fold ids. rewrite <- (take_drop limit ids). apply elem_of_app. by left. }
  pose proof (infos_IDs m (take limit ids) Hk Hall) as E. pose proof (sortedIDs_sorted m) as Hs. pose proof (sortedIDs_NoDup m) as Hn. fold ids in Hs, Hn.
  rewrite <- (take_drop limit ids) in Hs, Hn. set (shown := omap (λ id, m !! id) (take limit ids)) in *.
  assert (∀ info, info ∈ shown → m !! ai_ID info = Some info) as Hsound. { intros info (id & _ & Hi)%list_elem_of_omap. by rewrite (Hk id info Hi). }
  assert (∀ x, last (take limit ids) = Some x → ∃ y, last shown = Some y ∧ ai_ID y = x) as Hlast.
  { intros x Hx. rewrite <- E, fmap_last in Hx. apply fmap_Some in Hx as (y & Hy & ->). eauto. }
  split; cbn [pageOf ap_Actors ap_Next]; fold ids; fold shown.
  - rewrite <- (length_fmap ai_ID shown), E, length_take. lia.
  - rewrite E. by apply StronglySorted_app_1_l in Hs.
  - rewrite E. by apply NoDup_app in Hn as (? & _ & _).
  - exact Hsound.
  - intros id info Hi. assert (id ∈ ids) as Hid by (apply elem_of_sortedIDs; by eexists). rewrite <- (take_drop limit ids) in Hid.
    apply elem_of_app in Hid as [Hid|Hid]; [left; apply list_elem_of_omap; eauto|]. right.
    assert (limit < length ids) as Hlt. { destruct (decide (limit < length ids)); [done|]. rewrite drop_ge in Hid by lia. by apply elem_of_nil in Hid. }
    rewrite decide_True by done. destruct (last (take limit ids)) as [x|] eqn:Ex.
    2: { apply last_None in Ex. apply (f_equal length) in Ex. rewrite length_take in Ex. simpl in Ex. lia. }
    destruct (Hlast x eq_refl) as (y & Hy & <-). exists y. split_and!; [done..|]. apply (StronglySorted_app_1_elem_of _ _ _ _ _ Hs); [|done].
    by apply last_Some_elem_of.
  - case_decide as Hd; [|done]. intros _. destruct (ids !! limit) as [id|] eqn:El; [|apply lookup_ge_None in El; lia]. exists id.
    split; [apply elem_of_sortedIDs; by eapply list_elem_of_lookup_2|]. rewrite E. apply NoDup_app in Hn as (_ & Hdis & _). intros Hin. apply (Hdis id Hin).
    rewrite (drop_S _ id) by done. by left.
Qed.

Section keyed.
Context `{DM : DatamodelSession} {L : Type} `{AS : !ActorStorage L} `{SV : !StorageView L} (ok : L → Prop) `{DL : !DirectoryLaws L ok}.
Context {Inst : Type} `{IN : !Instances Inst}.
Variable cfg : systemConfig.
#[local] Abbreviation System := (@System DM L Inst).

Lemma matching_keyed q after (s : System) id info : listed s → (∀ st, sy_storage s = Some st → ok st) →
  matching cfg q after s !! id = Some info → ai_ID info = id.
Proof using DL.
  intros Hl Hst (Hv & _)%matching_Some. apply visible_cases in Hv as [(e & He & _ & ->)|(st & m & Es & Hm & _ & ->)]; [by apply (li_named s Hl)|].
  by apply (law_named st id m (Hst st Es)).
Qed.

(** An operation that only looks at the system keeps its invariant. *)
Lemma core_unobserved (s s' : System) : unobserved s s' → core s' = core s.
Proof using Type. intros [-> | ->]; [done|]. unfold sortActorIDs. by destruct (sy_actorIDsDirty s). Qed.
End keyed.

Lemma unobserved_safe `{DM : DatamodelSession} {L : Type} `{AS : !ActorStorage L} `{SV : !StorageView L} (ok : L → Prop) `{AL : !ActorStorageLaws L ok}
    {Inst : Type} `{IN : !Instances Inst} cfg {A} i (t : thread (@System DM L Inst) A) : always unobserved t → ActorSafe.safe ok cfg i t.
Proof.
  induction t as [a|B f k IH]; intros Ht s Hs; [done|]. destruct Ht as [Hf Hk]. apply wp_free. intros s1 s2 b H1 H2.
  pose proof (core_unobserved s1 s2 (Hf _ _ _ H2)) as E. destruct (quiet_ok ok cfg i s1 s2 H1 E) as [? ?]. split_and!; [done..|]. by apply IH.
Qed.
