(* ===== verification/ActorSystem.v ===== *)
(** * The actor system as a whole

    [operation] has the calls that clients make and the goroutines that the
    system runs by itself; [reachable] is what they can do together, in every
    interleaving of their atomic actions, to a system on which some charts were
    registered. *)

From S2P Require Import Prelude Identifier Storage Values Events Datamodel Chart Interp Steps Definitions Validate Compile Artifact.
From S2P Require Import Snapshot Instance Replay Memory Outbox Threads Observation Routing ActorStore System Actors ActorCore ActorCalm ActorSafe ActorPins Directory.
From stdpp Require Import options.

Section actor_system.
Context `{DM : DatamodelSession} {L : Type} `{AS : !ActorStorage L} `{SV : !StorageView L} (ok : L → Prop) `{AL : !ActorStorageLaws L ok}.
Context {Inst : Type} `{IN : !Instances Inst}.
Variable cfg : systemConfig.
Variable parseDuration : string → result Z.
Variable jsonMarshal : ChartDefinition → result string.
Variable sha256 : string → string.
Variable jsonDecode : string → result (ChartDefinition * trailing).
Variable range : gset Identifier → list Identifier.
Hypothesis Hrange : ∀ X, range X ≡ₚ elements X.

#[local] Abbreviation System := (@System DM L Inst).
#[local] Abbreviation thread := (Threads.thread System).

(** Calls of clients, then the goroutines and timers of the system: the
    dispatcher, the reapers, the sweep, the goroutines of [Stop], what instances
    do by themselves, and time. *)
Inductive operation :=
| OpSpawn (ctx : option error) (name kind : Identifier) (durable : bool)
| OpPublish (ctx : option error) (definition : ChartDefinition)
| OpCollect (ctx : option error) (kind : Identifier) (revision : string)
| OpTell (ctx : option error) (target : Identifier) (ev : Event)
| OpQuery (fuel : nat) (ctx : option error) (query : ActorQuery)
| OpDefinition (ctx : option error) (id : Identifier)
| OpHistory (ctx : option error) (id : Identifier) (query : ActorHistoryQuery)
| OpStop (ctx expires : option error)
| OpSubscribe (buffer : Z)
| OpClose (id : N)
| OpReceive (id : N)
| OpDispatch
| OpDispatcherExit
| OpReap (name : Identifier) (act : nat)
| OpSweep
| OpStopEntry (call : nat) (name : Identifier)
| OpActivity (act : nat) (input : inst_activity)
| OpTick (d : N).

Inductive answer :=
| AnsError (err : option error)
| AnsPublished (r : result string)
| AnsCollected (r : result DefinitionDeleteResult)
| AnsStopped (errs : list error)
| AnsPage (r : result ActorPage)
| AnsDefinition (r : result ActorDefinition)
| AnsHistory (r : result ActorHistoryPage)
| AnsSubscribed (r : result N)
| AnsDone.

Definition goroutine (i : nat) (op : operation) : thread answer :=
  match op with
  | OpSpawn ctx name kind durable => Spawn cfg parseDuration jsonMarshal sha256 jsonDecode range i ctx name kind durable ≫= λ err, mret (AnsError err)
  | OpPublish ctx d => Publish cfg parseDuration jsonMarshal sha256 i ctx d ≫= λ r, mret (AnsPublished r)
  | OpCollect ctx kind revision => CollectDefinition range i ctx kind revision ≫= λ r, mret (AnsCollected r)
  | OpTell ctx target ev => Tell cfg range i ctx target ev ≫= λ err, mret (AnsError err)
  | OpQuery fuel ctx query => querySystemActors cfg fuel ctx query ≫= λ r, mret (AnsPage r)
  | OpDefinition ctx id => InspectActorDefinition cfg jsonMarshal sha256 jsonDecode ctx id ≫= λ r, mret (AnsDefinition r)
  | OpHistory ctx id query => QueryActorHistory cfg ctx id query ≫= λ r, mret (AnsHistory r)
  | OpStop ctx expires => Stop range i ctx expires ≫= λ errs, mret (AnsStopped errs)
  | OpSubscribe buffer => Subscribe buffer ≫= λ r, mret (AnsSubscribed r)
  | OpClose id => CloseSubscription id ≫= λ _, mret AnsDone
  | OpReceive id => Receive id ≫= λ _, mret AnsDone
  | OpDispatch => dispatchNext cfg range i ≫= λ _, mret AnsDone
  | OpDispatcherExit => dispatcherExit i ≫= λ _, mret AnsDone
  | OpReap name act => reapTerminal cfg i name act ≫= λ _, mret AnsDone
  | OpSweep => runSweep cfg range i ≫= λ _, mret AnsDone
  | OpStopEntry k name => stopEntry cfg i k name ≫= λ _, mret AnsDone
  | OpActivity act input => ownActivity cfg i act input ≫= λ _, mret AnsDone
  | OpTick d => Tick d ≫= λ _, mret AnsDone
  end.

Definition calls (i : nat) (t : thread answer) : Prop := ∃ op, t = goroutine i op.

(** A system before its actors: charts are registered one after the other.  The
    storage may have served another system before. *)
Inductive configured : System → Prop :=
| configured_new storage now : (∀ st, storage = Some st → ok st) → configured (NewSystem cfg storage now)
| configured_register s registered s' err : configured s → run (Register cfg registered) s = Some (s', err) → configured s'.

Definition reachable (c : System * gmap nat (thread answer)) : Prop := ∃ s, configured s ∧ pool_reachable calls s c.

(** ** The invariant *)

(** Nothing runs on a system that is only configured. *)
Record idle (s : System) : Prop := {
  id_table : sy_table s = ∅;
  id_activating : sy_activating s = ∅;
  id_stops : sy_stops s = ∅;
  id_delivered : sy_delivered s = [];
  id_storage st : sy_storage s = Some st → ok st;
  id_current k r : sy_charts s !! k = Some r → is_Some (cr_revisions r !! cr_current r);
  id_keyed k r revision chart : sy_charts s !! k = Some r → cr_revisions r !! revision = Some chart → cc_revision chart = revision
}.

Lemma storeArtifact_idle {A} ctx chart (k : result unit → thread A) s s' a : idle s → run (storeArtifact ctx chart ≫= k) s = Some (s', a) →
  ∃ s1 r, idle s1 ∧ run (k r) s1 = Some (s', a).
Proof using AL.
  intros Hs H. cbn in H. destruct (sy_storage s) as [st|] eqn:Es; [|by exists s, (Ok ())].
  destruct (st_PutDefinition _ _ _) as [[st' put]|e] eqn:E; [|by exists s, (Err e)]. exists (sys_storage (Some st') s), (Ok ()). split; [|done].
  split; try apply Hs. cbn. intros ? [= <-]. by apply (law_put _ _ _ _ _ (id_storage s Hs st Es) E).
Qed.

Lemma configured_idle s : configured s → idle s.
Proof using AL.
  induction 1 as [storage now Hst|s registered s' err _ IH H].
  { split; try done; cbn; intros *; by rewrite lookup_empty. }
  unfold Register in H. destruct registered as [[chart model program]|]; [|by injection H as <- _]. destruct model as [model|]; [|by injection H as <- _].
  destruct program; [|by injection H as <- _]. cbn [negb] in H. destruct (prepareChart cfg chart); [|by injection H as <- _].
  apply storeArtifact_idle in H as (s1 & r & H1 & H); [|done]. destruct r as [[]|e]; [|by injection H as <- _]. cbn in H.
  destruct (sy_charts s1 !! chartID chart) eqn:E; injection H as <- _; [done|]. split; try apply H1; cbn.
  - intros k r [[<- <-]|[_ Hr]]%lookup_insert_Some; [eexists; apply lookup_singleton_eq|by apply (id_current s1 H1 k)].
  - intros k r revision c [[<- <-]|[_ Hr]]%lookup_insert_Some; [intros Hc; change (({[cc_revision chart := chart]} : gmap string compiledChart) !! revision = Some c) in Hc; by apply lookup_singleton_Some in Hc as [<- <-]|by apply (id_keyed s1 H1 k)].
Qed.

Lemma idle_inv s : idle s → ActorCalm.I ok cfg s.
Proof using Type.
  intros [Ht Ha Hs Hap Hst Hc Hk]. unfold ActorCalm.I. assert (co_table (core s) = ∅) as Et by (cbn; by rewrite Ht, fmap_empty). split; try done.
  - intros n. rewrite Et, lookup_empty. by intros [].
  - intros n j. cbn. by rewrite Ha, lookup_empty.
  - intros n e. by rewrite Et, lookup_empty.
  - intros n e. by rewrite Et, lookup_empty.
  - intros k x. cbn. by rewrite Hs, lookup_empty.
  - intros n _. rewrite Et. unfold residentsOf. rewrite map_filter_empty, dom_empty_L, size_empty. lia.
  - cbn. rewrite Hap. apply NoDup_nil_2.
  - intros sid d. cbn. rewrite Hap. by intros ?%elem_of_nil.
Qed.

(** What an answer says from then on. *)
Definition promise (a : answer) (s : System) : Prop := match a with AnsStopped [] => halted (core s) | _ => True end.

Lemma promise_stable i a : stable (ActorCalm.I ok cfg) ActorCalm.G i (promise a).
Proof using Type.
  destruct a as [| | |[|]| | | | |]; try done. intros s s' Hs Hs' Hh (j & Hj & HG). apply (halted_stable ok cfg i ∅ j (core s)); [done..|]. split; [|done].
  by intros l ?%elem_of_empty.
Qed.

Lemma safe_answer {A} i (t : thread A) (g : A → answer) s : ActorSafe.safe ok cfg i t → (∀ a s, promise (g a) s) → ActorCalm.I ok cfg s →
  wp (ActorCalm.I ok cfg) ActorCalm.G i (t ≫= λ a, mret (g a)) promise s.
Proof using Type. intros Ht Hg Hs. apply wp_bind. eapply wp_mono; [by apply Ht|]. intros a s' _. apply Hg. Qed.

Lemma goroutine_safe i op s : ActorCalm.I ok cfg s → wp (ActorCalm.I ok cfg) ActorCalm.G i (goroutine i op) promise s.
Proof using Hrange AL IN.
  intros Hs. destruct op; cbn [goroutine].
  - apply safe_answer; [apply Spawn_safe; apply _|done|done].
  - apply safe_answer; [apply Publish_safe; apply _|done|done].
  - apply safe_answer; [apply CollectDefinition_safe; first [exact Hrange|apply _]|done|done].
  - apply safe_answer; [apply deliver_safe; apply _|done|done].
  - apply safe_answer; [apply unobserved_safe; first [apply querySystemActors_unobserved | apply _]|done|done].
  - apply safe_answer; [apply unobserved_safe; first [apply InspectActorDefinition_unobserved | apply _]|done|done].
  - apply safe_answer; [apply unobserved_safe; first [apply QueryActorHistory_unobserved | apply _]|done|done].
  - apply wp_bind. eapply wp_mono; [apply (wp_Stop ok cfg range Hrange); exact Hs|]. intros [|e errs] s' H; [by apply H|done].
  - apply safe_answer; [apply Subscribe_safe; apply _|done|done].
  - apply safe_answer; [apply CloseSubscription_safe; apply _|done|done].
  - apply safe_answer; [apply Receive_safe; apply _|done|done].
  - apply safe_answer; [apply dispatchNext_safe; apply _|done|done].
  - apply safe_answer; [apply dispatcherExit_safe; apply _|done|done].
  - apply safe_answer; [apply reapTerminal_safe; apply _|done|done].
  - apply safe_answer; [apply runSweep_safe; apply _|done|done].
  - apply safe_answer; [apply stopEntry_safe; apply _|done|done].
  - apply safe_answer; [apply ownActivity_safe; apply _|done|done].
  - apply safe_answer; [apply Tick_safe; apply _|done|done].
Qed.

Lemma reachable_ok c : reachable c → pool_ok (ActorCalm.I ok cfg) ActorCalm.G promise c.
Proof using Hrange AL IN.
  intros (s & Hs & Hr). eapply (pool_sound _ _ calls promise s); [exact promise_stable| |by apply idle_inv, configured_idle|exact Hr].
  intros i t s1 (op & ->) H1. by apply goroutine_safe.
Qed.

(** ** What holds of every reachable system *)

(** C4 (safety): once a call of [Stop] has returned without an error, the system is
    stopped and no actor is resident, whatever else is still going on. *)
Theorem stop_evicts_everything (s : System) (ts : gmap nat (thread answer)) (i : nat) :
  reachable (s, ts) → ts !! i = Some (Return (AnsStopped [])) → sy_stopped s = true ∧ residents s = ∅.
Proof using Hrange AL IN.
  intros Hr Hi. destruct (reachable_ok _ Hr) as [_ Hts]. pose proof (Hts i _ Hi) as [Hst Hh]. split; [done|]. rewrite residents_core.
  apply set_eq. intros n. rewrite elem_residents. split; [|by intros ?%elem_of_empty]. intros (e & He & Hs). destruct (Hh n) as [Hn _]; [by eexists|].
  assert (ec_instance e = None) as E by (change (instanceIn n (core s) = None) in Hn; unfold instanceIn in Hn; by rewrite He in Hn). rewrite E in Hs. by destruct Hs.
Qed.

(** C8 (bounds): with [WithMaxResident n] there are never more than [n] resident
    actors. *)
Theorem residents_bounded (n : Z) (s : System) (ts : gmap nat (thread answer)) :
  reachable (s, ts) → cfg = WithMaxResident n cfg → (Z.of_nat (residentCount s) ≤ Z.max 0 n)%Z.
Proof using Hrange AL IN.
  intros Hr Hcfg. destruct (reachable_ok _ Hr) as [HI _]. unfold residentCount. rewrite residents_core. apply (inv_residents _ _ _ HI).
  unfold limits. by rewrite Hcfg at 1.
Qed.

(** C3 (invariant): the revision that an actor is pinned to is retained until the
    actor has completed: neither [Publish] nor [CollectDefinition] takes it away. *)
Theorem pinned_revision_retained (s : System) (ts : gmap nat (thread answer)) (n : Identifier) (e : actorEntry) :
  reachable (s, ts) → resolve n s = Some e → ae_terminal e = false →
  (ae_durable e = true → ∃ st, sy_storage s = Some st ∧ activeActor st n (ae_kind e) (ae_revision e)) →
  is_Some (chartForRevision (ae_kind e) (ae_revision e) s).
Proof using Hrange AL IN.
  intros Hr He Ht Hd. destruct (reachable_ok _ Hr) as [HI _]. unfold resolve in He. destruct (sy_table s !! n) as [x|] eqn:Ex; [|done]. cbn in He.
  destruct (ae_initialized x) eqn:Ei; [|done]. injection He as ->. destruct (inv_pinned _ _ _ HI n (coreOf e)) as (r & Hk & Hs); [by apply entryOf_core|done|].
  unfold chartForRevision. cbn in Hk. rewrite Hk. exact Hs.
Qed.

(** C5 (safety): of all calls of [deliver], by [Tell], the dispatcher and others, in any interleaving, at most one
    hands an identified event (a session and a delivery ID) to the instance of a
    durable session, and only after the event's record is in the log; the other
    calls find the record and stop.  This counts the hand-overs that [deliver]
    makes itself.  The event also reaches an instance whose activation replays
    the log; the two together can be more than one, as the first schedule of
    [actor_schedules_go_wrong] shows. *)
Theorem deliver_hands_over_once (s : System) (ts : gmap nat (thread answer)) :
  reachable (s, ts) → NoDup (sy_delivered s) ∧ ∀ sid d, (sid, d) ∈ sy_delivered s → ∃ st, sy_storage s = Some st ∧ sv_recorded st sid d.
Proof using Hrange AL IN.
  intros Hr. destruct (reachable_ok _ Hr) as [HI _]. split; [apply (inv_delivered _ _ _ HI)|]. apply (inv_recorded _ _ _ HI).
Qed.

(** The name of an actor is an identifier, so it has no "@". *)
Lemma resolve_name (s : System) (ts : gmap nat (thread answer)) (n : Identifier) :
  reachable (s, ts) → is_Some (resolve n s) → n ≠ "" ∧ ContainsByte at_sign n = false.
Proof using Hrange AL IN.
  intros Hr [e He]. destruct (reachable_ok _ Hr) as [HI _]. apply NewIdentifier_no_at, (inv_names _ _ _ HI). cbn. rewrite lookup_fmap, fmap_is_Some.
  unfold resolve in He. by destruct (sy_table s !! n); eexists.
Qed.

(** C38 (functional): when the node's name has no at sign, a target names the actor [n] exactly when [n] is an initialized
    actor of the system and the target is [n] or its routing address. *)
Theorem targets_resolve (s : System) (ts : gmap nat (thread answer)) (target n : Identifier) :
  reachable (s, ts) → ContainsByte at_sign (cf_nodeName cfg) = false →
  resolveTarget cfg target s = Some n ↔ is_Some (resolve n s) ∧ (target = n ∨ target = address cfg n).
Proof using Hrange AL IN.
  intros Hr Hnode. assert (∀ m, is_Some (resolve m s) → m ≠ "" ∧ ContainsByte at_sign m = false) as Hname by (intros m; by apply (resolve_name s ts)).
  unfold resolveTarget. split.
  - destruct (resolve target s) as [e|] eqn:E; [intros [= <-]; split; [by rewrite E|by left]|]. destruct (splitRoutingKey target) as [[m node]|] eqn:Es; [|done]. cbn.
    case_decide as En; [|done]. destruct (resolve m s) as [e|] eqn:Em; [|done]. intros [= <-]. split; [by rewrite Em|]. right.
    apply splitRoutingKey_Some in Es as (-> & _). unfold address. by rewrite En.
  - intros [Hn [->| ->]]; [by destruct Hn as [e ->]|]. unfold address. destruct (decide (cf_nodeName cfg = "")) as [En|En].
    { rewrite En, routingKey_empty. by destruct Hn as [e ->]. }
    destruct (Hname n Hn) as [Hne Hat]. destruct (resolve (routingKey n (cf_nodeName cfg)) s) as [e|] eqn:E.
    { destruct (Hname (routingKey n (cf_nodeName cfg))) as [_ H]; [by rewrite E|]. unfold routingKey in H. rewrite decide_False in H by done. exfalso.
      apply not_true_iff_false in H. apply H, ContainsByte_app_cons. }
    rewrite splitRoutingKey_key by done. cbn. rewrite decide_True by done. by destruct Hn as [e ->].
Qed.

(** ** The directory *)

Lemma goroutine_lists i op : always relists (goroutine i op).
Proof using Type.
  assert (∀ A (t : thread A) (g : A → answer), always unobserved t → always relists (t ≫= λ a, mret (g a) : thread answer)) as Hun.
  { intros A t g Ht. apply always_bind; [|done]. eapply always_mono; [exact unobserved_relists|done]. }
  destruct op; cbn [goroutine]; try (apply Hun; first [apply querySystemActors_unobserved | apply InspectActorDefinition_unobserved | apply QueryActorHistory_unobserved]);
    (apply always_bind; [|done]).
  - apply lists_Spawn.
  - apply lists_Publish.
  - apply lists_CollectDefinition.
  - apply lists_deliver.
  - apply lists_Stop.
  - by apply (lists_subscriptions buffer 0 0).
  - by apply (lists_subscriptions 0 id 0).
  - by apply (lists_subscriptions 0 id 0).
  - apply lists_dispatchNext.
  - apply lists_dispatcherExit.
  - apply lists_reapTerminal.
  - apply lists_runSweep.
  - apply lists_stopEntry.
  - apply lists_ownActivity.
  - by apply (lists_subscriptions 0 0 d).
Qed.

(** The IDs of the table are listed in every reachable system. *)
Lemma reachable_listed c : reachable c → listed c.1.
Proof using Type.
  intros (s & Hs & Hr). eapply (pool_always calls listed relists s); [by intros s1 s2 H| |clear Hr|exact Hr].
  - intros i t (op & ->). apply goroutine_lists.
  - induction Hs as [storage now _|s registered s' err _ IH H]; [by split; cbn; [rewrite dom_empty_L|intros _; constructor|intros n e; rewrite lookup_empty]|].
    exact (always_run relists _ _ _ _ (lists_Register cfg registered) H IH).
Qed.

(** C9 (refinement): the directory shows every actor.  In every reachable system,
    with whatever operations under way, a call of [QueryActors] that is not
    disturbed ends and changes nothing but the order of a cached list.  Its page
    has the first actors after the cursor, in the order of their IDs, that match
    the query out of all actors of the process and of the storage, an entry of
    the process standing for its metadata; the page is within the limit, and has a
    cursor, the last actor shown, exactly when actors are missing. *)
Theorem directory_page_complete `{DL : !DirectoryLaws L ok} (s : System) (ts : gmap nat (thread answer)) (fuel : nat) (query q : ActorQuery) (after : Identifier) :
  reachable (s, ts) → normalizeActorQuery query = Ok (q, after) → (∀ st, sy_storage s = Some st → size (sv_actors st) < fuel) →
  ∃ page, run (querySystemActors cfg fuel None query) s = Some (sortActorIDs s, Ok page)
    ∧ shows (Z.to_nat (aq_Limit q)) (matching cfg q after s) page.
Proof using Hrange AL IN.
  intros Hr Hq Hfuel. destruct (reachable_ok _ Hr) as [HI _]. pose proof (reachable_listed _ Hr) as Hl.
  assert (∀ st, sy_storage s = Some st → ok st) as Hst by exact (inv_storage _ _ _ HI).
  eexists. split; [apply (run_querySystemActors ok); [exact Hl | by intros st Es; split; [apply Hst | apply Hfuel] | exact Hq]|].
  apply pageOf_shows; [apply normalizeActorQuery_Ok in Hq as [? _]; lia|]. intros id info. by apply (matching_keyed ok).
Qed.

End actor_system.
