(* ===== verification/Bridge.v ===== *)
(** * Bridges between systems (actors/bridge.go)

    A [Bridge] is the peer through which the actors of one system reach those of
    another.  [bridgeSend] checks a request against the target system and makes
    the work that a dispatcher does later; [runBridgeJob] is that work on the
    target system, and returns what it tells the source system.  Whoever gets an
    event through a bridge can answer to its origin through the bridge that leads
    back. *)

From S2P Require Import Prelude Identifier Storage Values Events Datamodel Chart Interp Steps Definitions Validate Compile Artifact.
From S2P Require Import Snapshot Instance Replay Memory Outbox Threads Observation Routing ActorStore System Actors ActorCore ActorSystem.
From stdpp Require Import options.

(** Of the target a bridge uses the configuration, and the state at the time of a
    call, which is an argument of [bridgeSend]. *)
Record Bridge := mkBridge { br_targetNode : Identifier; br_sourceNode : Identifier; br_target : option systemConfig }.

Definition NewBridge (targetNode : Identifier) (target : option systemConfig) (sourceNode : Identifier) : Bridge :=
  mkBridge targetNode sourceNode target.
Definition SetTarget (target : option systemConfig) (b : Bridge) : Bridge := mkBridge (br_targetNode b) (br_sourceNode b) target.

(** The closure that is queued: the delivery, and whom its outcome is told. *)
Record bridgeJob := mkBridgeJob {
  bj_name : Identifier;
  bj_event : Event;
  bj_acks : bool;
  bj_route : option actorRoute;
  bj_target : Identifier
}.

(** Whose dispatcher gets the closure. *)
Inductive bridgeQueue := SourceQueue | TargetQueue.

(** What the closure does after the delivery: nothing, a call of [complete], or
    [reportDeliveryFailure] to the sending actor. *)
Inductive bridgeOutcome :=
| NoOutcome
| Completed (err : option error)
| ReportFailure (route : actorRoute) (target : Identifier) (err : error).

(** The node that requests have to name. *)
Definition bridgeNode (b : Bridge) (target : systemConfig) : string :=
  if decide (cf_nodeName target ≠ "") then cf_nodeName target else br_targetNode b.

(** The sender's address; without a route there is none. *)
Definition bridgeOrigin (b : Bridge) (route : option (systemConfig * actorRoute)) : Identifier :=
  let sender := match route with Some (_, r) => ro_address r | None => "" end in
  let named := match route with Some (source, _) => negb (bool_decide (cf_nodeName source = "")) | None => false end in
  if named then sender
  else if decide (sender ≠ "") then routingKey sender (br_sourceNode b)
  else br_sourceNode b.

Definition bridgeEvent (b : Bridge) (route : option (systemConfig * actorRoute)) (req : SendRequest) : Event :=
  mkEvent (sr_Event req) EventExternal (Clone (sr_Data req)) (sr_EventSendID req) (bridgeOrigin b route) SCXMLEventProcessorAlias "" (sr_DeliveryID req).

Section bridge.
Context `{DM : DatamodelSession} {L : Type} `{AS : !ActorStorage L} {Inst : Type} `{IN : !Instances Inst}.
#[local] Abbreviation System := (@System DM L Inst).
#[local] Abbreviation thread := (Threads.thread System).

(** [Bridge.send] up to the queue, for a target system in the state [s]: the
    closure and the dispatcher it is offered to ([enqueueDispatch]).  [acks] is
    whether the caller waits for [complete], and [route] the sender with its
    system, if the context has one. *)
Definition bridgeSend (b : Bridge) (route : option (systemConfig * actorRoute)) (acks : bool) (s : System) (req : SendRequest)
    : result (bridgeQueue * bridgeJob) :=
  if decide (sr_Type req ≠ SCXMLEventProcessor) then Err (unsupportedPeerTypeError (sr_Type req))
  else
    match br_target b with
    | None => Err (Errorf ("actors: Bridge: unknown actor " +:+ quote (sr_Target req) +:+ " (no target system configured)"))
    | Some target =>
        let node := bridgeNode b target in
        let misaddressed := Errorf ("actors: Bridge: " +:+ quote (sr_Target req) +:+ " is not addressed to target node " +:+ quote node) in
        match splitRoutingKey (sr_Target req) with
        | None => Err misaddressed
        | Some (name, targetNode) =>
            if decide (targetNode ≠ node) then Err misaddressed
            else
              match resolveTarget target name s with
              | None => Err (Errorf ("actors: Bridge: unknown actor " +:+ quote name +:+ " in target system"))
              | Some _ =>
                  Ok (if present route then SourceQueue else TargetQueue,
                      mkBridgeJob name (bridgeEvent b route req) acks (snd <$> route) (sr_Target req))
              end
        end
    end.

(** The closure, on the goroutine [i]. *)
Definition runBridgeJob (cfg : systemConfig) (range : gset Identifier → list Identifier) (i : nat) (j : bridgeJob) : thread bridgeOutcome :=
  err ← deliver cfg range i None (bj_name j) (bj_event j);
  mret (if bj_acks j then Completed err
        else match err, bj_route j with Some e, Some r => ReportFailure r (bj_target j) e | _, _ => NoOutcome end).

(** ** What is accepted *)

(** A request is accepted exactly when it names an actor of the target system and
    the node of the bridge. *)
Lemma bridgeSend_Ok b route acks s req q j : bridgeSend b route acks s req = Ok (q, j) ↔
  sr_Type req = SCXMLEventProcessor ∧ ∃ target, br_target b = Some target
  ∧ splitRoutingKey (sr_Target req) = Some (bj_name j, bridgeNode b target) ∧ is_Some (resolveTarget target (bj_name j) s)
  ∧ q = (if present route then SourceQueue else TargetQueue) ∧ j = mkBridgeJob (bj_name j) (bridgeEvent b route req) acks (snd <$> route) (sr_Target req).
Proof using Type.
  unfold bridgeSend. case_decide as Ht; [by split; [|intros [? _]]|].
  destruct (br_target b) as [target|]; [|by split; [|intros (_ & ? & ? & _)]].
  destruct (splitRoutingKey (sr_Target req)) as [[name node]|]; [|by split; [|intros (_ & ? & _ & ? & _)]].
  case_decide as Hn; [split; [done|]; intros (_ & x & [= <-] & [= _ ->] & _); by destruct Hn|]. subst node.
  destruct (resolveTarget target name s) as [n|] eqn:E.
  - split; [intros [= <- <-]; eauto 10|]. intros (_ & x & [= <-] & [= ->] & _ & -> & Hj). by rewrite Hj.
  - split; [done|]. intros (_ & x & [= <-] & [= ->] & [? H] & _). by rewrite E in H.
Qed.

(** An actor without a "@" in its name is found under its name alone. *)
Lemma resolveTarget_bare cfg (n : Identifier) (s : System) : ContainsByte at_sign n = false → is_Some (resolveTarget cfg n s) ↔ is_Some (resolve n s).
Proof using Type.
  intros Hn. unfold resolveTarget. destruct (resolve n s) as [e|]; [by split; eauto|]. destruct (splitRoutingKey n) as [[id node]|] eqn:E; [|by split; intros [? ?]].
  apply splitRoutingKey_Some in E as (-> & _ & Hne & _). unfold routingKey in Hn. rewrite decide_False in Hn by done. by rewrite ContainsByte_app_cons in Hn.
Qed.

End bridge.

(** ** Answers *)

Section answers.
Context `{DM : DatamodelSession} {L : Type} `{AS : !ActorStorage L} `{SV : !StorageView L} (ok : L → Prop) `{AL : !ActorStorageLaws L ok}.
Context {Inst : Type} `{IN : !Instances Inst}.
Variable parseDuration : string → result Z.
Variable jsonMarshal : ChartDefinition → result string.
Variable sha256 : string → string.
Variable jsonDecode : string → result (ChartDefinition * trailing).
Variable range : gset Identifier → list Identifier.
Hypothesis Hrange : ∀ X, range X ≡ₚ elements X.
#[local] Abbreviation System := (@System DM L Inst).

(** The bridge [back] leads to the system [source], from which [b] leads away: a
    system without a node name is called by both as the bridges are told. *)
Definition leadsBack (b back : Bridge) (source : systemConfig) : Prop :=
  br_target back = Some source
  ∧ ContainsByte at_sign (cf_nodeName source) = false
  ∧ (cf_nodeName source = "" → br_targetNode back = br_sourceNode b ∧ br_sourceNode b ≠ "" ∧ ContainsByte at_sign (br_sourceNode b) = false).

(** The origin of an event is the sender's name at the node that the bridge back
    serves. *)
Lemma bridgeOrigin_splits b back source n act sendID : leadsBack b back source → n ≠ "" → ContainsByte at_sign n = false →
  splitRoutingKey (bridgeOrigin b (Some (source, mkRoute (address source n) act sendID))) = Some (n, bridgeNode back source).
Proof using Type.
  intros (_ & Hat & Hnode) Hne Hn. unfold bridgeOrigin, bridgeNode, address. cbn [ro_address]. destruct (decide (cf_nodeName source = "")) as [E|E].
  - destruct (Hnode E) as (Eb & Hs & Hs'). rewrite bool_decide_eq_true_2 by done. rewrite E, routingKey_empty. cbn [negb].
    rewrite decide_True, decide_False by auto. rewrite Eb. by apply splitRoutingKey_key.
  - rewrite bool_decide_eq_false_2 by done. cbn [negb]. rewrite decide_True by done. by apply splitRoutingKey_key.
Qed.

End answers.
