(* ===== verification/ActorRuns.v ===== *)
(** * The actor system: single operations, run alone

    What an operation does when nothing interferes: which actor is evicted, how
    often the loop of [admit] goes round, which revision [Publish] selects and
    what [CollectDefinition] leaves. *)

From S2P Require Import Prelude Identifier Storage Values Events Datamodel Chart Interp Steps Definitions Validate Compile Artifact.
From S2P Require Import Snapshot Instance Replay Memory Outbox Threads Observation Routing ActorStore System Actors ActorCore ActorCalm.
From stdpp Require Import options.

Section runs.
Context `{DM : DatamodelSession} {L : Type} `{AS : !ActorStorage L} {Inst : Type} `{IN : !Instances Inst}.
Variable cfg : systemConfig.
Variable parseDuration : string → result Z.
Variable jsonMarshal : ChartDefinition → result string.
Variable sha256 : string → string.
Variable jsonDecode : string → result (ChartDefinition * trailing).
Variable range : gset Identifier → list Identifier.

#[local] Abbreviation System := (@System DM L Inst).
#[local] Abbreviation thread := (Threads.thread System).

(** ** Eviction *)

(** An actor that [tryVictim] takes: nobody holds it and no invocation is active. *)
Definition evictable (ctx : option error) (s : System) (n : Identifier) : Prop :=
  sy_locks s !! LEntry n = None ∧ ∃ act inst, instanceOf n s = Some act ∧ sy_heap s !! act = Some inst ∧ inst_HasActiveInvokes ctx inst = Ok false.

Lemma run_tryVictim i ctx n s s' r : run (tryVictim i ctx n) s = Some (s', r) →
  match r with
  | Some v => v = n ∧ evictable ctx s n ∧ s' = sys_locks (<[LEntry n := i]> (sy_locks s)) s
  | None => ¬ evictable ctx s n ∧ s' = s
  end.
Proof using Type.
  unfold tryVictim. intros H. apply run_bind_Some in H as (s1 & got & H1 & H). cbn in H1. destruct (sy_locks s !! LEntry n) as [j|] eqn:El.
  { injection H1 as <- <-. injection H as <- <-. split; [|done]. intros [? _]. congruence. }
  injection H1 as <- <-. set (s1 := sys_locks _ s) in *. apply run_bind_Some in H as (s2 & e & H2 & H). cbn in H2.
  destruct (sy_table s !! n) as [e0|] eqn:Ee; [|done]. cbn in H2. injection H2 as <- <-.
  assert (sys_locks (delete (LEntry n) (sy_locks s1)) s1 = s) as Eback. { unfold s1, sys_locks. cbn. rewrite delete_insert_id by done. by destruct s. }
  assert (∀ s', run (release (LEntry n) ≫= λ _, mret None) s1 = Some (s', r) → ¬ evictable ctx s n → match r with
    | Some v => v = n ∧ evictable ctx s n ∧ s' = s1 | None => ¬ evictable ctx s n ∧ s' = s end) as Hrel.
  { intros s3 H3 Hne. change (Some (sys_locks (delete (LEntry n) (sy_locks s1)) s1, None) = Some (s3, r)) in H3. rewrite Eback in H3. by injection H3 as <- <-. }
  destruct (ae_instance e0) as [act|] eqn:Ei; [|apply Hrel; [done|]; intros (_ & act & inst & Hi & _); unfold instanceOf in Hi; rewrite Ee in Hi; cbn in Hi; congruence].
  apply run_bind_Some in H as (s3 & b & H3 & H). unfold HasActiveInvokes, quick, atomic, run in H3. change (sy_locks s1) with (<[LEntry n:=i]> (sy_locks s)) in H3.
  rewrite lookup_insert_ne in H3 by done. destruct (sy_locks s !! LInstance act); [done|]. change (sy_heap s1) with (sy_heap s) in H3.
  destruct (sy_heap s !! act) as [inst|] eqn:Eh; [|done]. cbn in H3. injection H3 as <- <-.
  assert (inst_HasActiveInvokes ctx inst ≠ Ok false → ¬ evictable ctx s n) as Hno.
  { intros Hb (_ & act' & inst' & Hi & Hh & Hf). unfold instanceOf in Hi. rewrite Ee in Hi. cbn in Hi. rewrite Ei in Hi. injection Hi as <-. rewrite Eh in Hh. by injection Hh as <-. }
  destruct (inst_HasActiveInvokes ctx inst) as [[]|err] eqn:Ef; [apply Hrel; [done|by apply Hno]| |apply Hrel; [done|by apply Hno]].
  injection H as <- <-. split_and!; [done| |done]. split; [done|]. exists act, inst. split_and!; [|done|done]. unfold instanceOf. by rewrite Ee.
Qed.

Lemma run_first_victim i ctx cs s s' r : run (first cs (tryVictim i ctx)) s = Some (s', r) →
  match r with
  | Some v => evictable ctx s v ∧ s' = sys_locks (<[LEntry v := i]> (sy_locks s)) s ∧ ∃ before after, cs = before ++ v :: after ∧ Forall (λ n, ¬ evictable ctx s n) before
  | None => s' = s
  end.
Proof using Type.
  induction cs as [|n cs IH]; intros H; [by injection H as <- <-|]. cbn [first] in H. apply run_bind_Some in H as (s1 & v & H1 & H).
  apply run_tryVictim in H1. destruct v as [v|].
  - destruct H1 as (-> & He & ->). injection H as <- <-. split_and!; [done|done|]. by exists [], cs.
  - destruct H1 as [Hn ->]. specialize (IH H). destruct r as [v|]; [|done]. destruct IH as (He & Hs & before & after & -> & Hb). split_and!; [done|done|].
    exists (n :: before), after. split; [done|]. by constructor.
Qed.

(** What makes an actor a candidate. *)
Definition candidate (exclude : Identifier) (s : System) (n : Identifier) (at_ : Z) : Prop :=
  n ≠ exclude ∧ ∃ e, sy_table s !! n = Some e ∧ ae_durable e = true ∧ is_Some (ae_instance e) ∧ ae_lastActive e = at_.

#[local] Instance idleOrder_total : Total idleOrder.
Proof using Type. intros a b. unfold idleOrder. lia. Qed.
#[local] Instance idleOrder_trans : Transitive idleOrder.
Proof using Type. intros a b c. unfold idleOrder. lia. Qed.

Definition candidateEntries (exclude : Identifier) (s : System) : list (Identifier * Z) :=
  merge_sort idleOrder
    (omap (λ n, e ← sy_table s !! n;
       if bool_decide (n = exclude) || negb (ae_durable e) || negb (present (ae_instance e)) then None else Some (n, ae_lastActive e)) (range (dom (sy_table s)))).

Lemma candidateEntries_spec exclude s n at_ : (∀ X, range X ≡ₚ elements X) → (n, at_) ∈ candidateEntries exclude s ↔ candidate exclude s n at_.
Proof using Type.
  intros Hrange. unfold candidateEntries, candidate. rewrite merge_sort_Permutation, list_elem_of_omap. split.
  - intros (m & _ & H). destruct (sy_table s !! m) as [e|] eqn:E; [|done]. cbn in H. destruct (_ || _) eqn:Eb; [done|]. injection H as -> <-.
    apply orb_false_iff in Eb as [[H1%bool_decide_eq_false H2%negb_false_iff]%orb_false_iff H3%negb_false_iff]. split; [done|]. exists e. split_and!; [done|done| |done].
    by destruct (ae_instance e).
  - intros (Hne & e & He & Hd & [act Hi] & <-). exists n. split; [rewrite Hrange; apply elem_of_elements, elem_of_dom; by rewrite He|]. rewrite He. cbn.
    by rewrite bool_decide_eq_false_2, Hd, Hi by done.
Qed.

(** The actor that is evicted to make room for [exclude] is another
    one, durable and resident, with no invocation active; and every candidate that was
    used less recently is busy or locked. *)
Theorem victim_least_recent (i : nat) (ctx : option error) (exclude : Identifier) (s s' : System) (v : Identifier) :
  (∀ X, range X ≡ₚ elements X) → run (pickEvictionVictim range i ctx exclude) s = Some (s', Some v) →
  evictable ctx s v ∧ ∃ used, candidate exclude s v used ∧ ∀ n earlier, candidate exclude s n earlier → (earlier < used)%Z → ¬ evictable ctx s n.
Proof using Type.
  intros Hrange H. unfold pickEvictionVictim in H. apply run_bind_Some in H as (s1 & cs & H1 & H). injection H1 as <- <-.
  apply run_first_victim in H as (He & _ & before & after & Hcs & Hb). split; [done|]. change (candidates range exclude s) with (candidateEntries exclude s).*1 in Hcs.
  apply fmap_app_inv in Hcs as (b & a & -> & Ha & Eb). destruct a as [|[v' used] a]; [done|]. injection Ha as <- Ha.
  assert (StronglySorted idleOrder (b ++ (v, used) :: a)) as Hsort by (rewrite <- Eb; apply (StronglySorted_merge_sort _)).
  exists used. split; [apply candidateEntries_spec; [done|]; rewrite Eb; apply elem_of_app; right; by left|].
  intros n earlier Hc Hlt. apply candidateEntries_spec in Hc; [|done]. rewrite Eb in Hc. apply elem_of_app in Hc as [Hin|Hin].
  - rewrite Forall_forall in Hb. apply Hb. apply (list_elem_of_fmap_2 fst _ _ Hin).
  - exfalso. apply elem_of_cons in Hin as [[= -> ->]|Hin]; [lia|]. apply StronglySorted_app in Hsort as (_ & _ & Hs). apply StronglySorted_inv in Hs as [_ Hs].
    rewrite Forall_forall in Hs. specialize (Hs _ Hin). unfold idleOrder in Hs. cbn in Hs. lia.
Qed.

(** ** The loop of [admit] *)

Lemma elem_of_residents n (s : System) : n ∈ residents s ↔ ∃ e, sy_table s !! n = Some e ∧ is_Some (ae_instance e).
Proof using Type. unfold residents. rewrite elem_of_dom. unfold is_Some at 1. setoid_rewrite map_lookup_filter_Some. done. Qed.

Lemma run_pageOut n (s s' : System) u : run (pageOut cfg n) s = Some (s', u) → residents s' = residents s ∖ {[n]}.
Proof using Type.
  intros H. injection H as <- _. set (s1 := updateEntry n (en_instance None) s). rewrite residents_core, core_notifyResidency, <- residents_core.
  apply set_eq. intros m. rewrite elem_of_difference, elem_of_singleton, !elem_of_residents. unfold s1, updateEntry. cbn. destruct (decide (n = m)) as [<-|Hne].
  - rewrite lookup_alter_eq. split; [|by intros [_ []]]. intros (e & He & Hi). apply fmap_Some in He as (e0 & _ & ->). by destruct Hi.
  - rewrite lookup_alter_ne by done. split; [intros H; split; [exact H|congruence]|by intros [H _]].
Qed.

Lemma run_quick_table {A} act (f : Inst → System → option (System * A)) s s' a :
  (∀ inst s s' a, f inst s = Some (s', a) → sy_table s' = sy_table s) → run (quick act f) s = Some (s', a) → sy_table s' = sy_table s.
Proof using Type.
  intros Hf H. unfold quick, atomic, run in H. destruct (sy_locks s !! LInstance act); [done|]. destruct (sy_heap s !! act) as [inst|]; [|done]. cbn in H.
  destruct (f inst s) as [[s1 b]|] eqn:E; [|done]. injection H as <- <-. by eapply Hf.
Qed.

Lemma run_evictLocked ctx n (s s' : System) : run (evictLocked cfg ctx n) s = Some (s', None) → residents s' = residents s ∖ {[n]}.
Proof using Type.
  unfold evictLocked. intros (s1 & e & H1 & H)%run_bind_Some. cbn in H1. destruct (sy_table s !! n) as [e0|] eqn:Ee; [|done]. injection H1 as <- <-.
  destruct (ae_instance e0) as [act|] eqn:Ei.
  - apply run_bind_Some in H as (s2 & fin & H2 & H). injection H2 as <- <-.
    assert (∀ s1 : System, sy_table s1 = sy_table s → run (pageOut cfg n ≫= λ _, mret (None : option error)) s1 = Some (s', None) → residents s' = residents s ∖ {[n]}) as Hpage.
    { intros s2 Et H2. apply run_bind_Some in H2 as (s3 & [] & H3 & [= <-]). apply run_pageOut in H3 as ->. unfold residents. by rewrite Et. }
    destruct (instanceFinished act s).
    + apply run_bind_Some in H as (s2 & err & H2 & H). apply (Hpage s2); [|done]. eapply run_quick_table; [|exact H2]. intros inst s3 s4 x Hx. cbv beta in Hx. destruct (inst_Stop ctx inst). by simplify_eq.
    + apply run_bind_Some in H as (s2 & err & H2 & H). destruct err as [err|]; [done|]. apply (Hpage s2); [|done]. eapply run_quick_table; [|exact H2]. intros inst s3 s4 x Hx.
      cbv beta in Hx. destruct (inst_Checkpoint ctx inst) as [[snap inst']|]; [|by injection Hx as <- _]. destruct (sy_storage s3) as [st|]; [|done]. cbn in Hx.
      destruct (st_LastSeq _ _ _); [|by injection Hx as <- _]. destruct (st_Save _ _ _ _); by injection Hx as <- _.
  - injection H as <-. apply set_eq. intros m. rewrite elem_of_difference, elem_of_singleton. split; [|naive_solver]. intros Hm. split; [done|]. intros ->.
    apply elem_of_residents in Hm as (x & Hx & [act Ha]). congruence.
Qed.

(** The loop of [admit] goes round at most once more than there
    are residents: more fuel than that changes nothing. *)
Theorem admit_terminates (extra i : nat) (ctx : option error) (limit : nat → bool) (exclude : Identifier) (s : System) (fuel : nat) :
  residentCount s < fuel →
  run (makeRoom cfg range (fuel + extra) i ctx limit exclude) s = run (makeRoom cfg range fuel i ctx limit exclude) s.
Proof using Type.
  revert s. induction fuel as [|fuel IH]; intros s Hs; [lia|]. cbn [makeRoom Nat.add]. rewrite !run_bind. cbn [run reads atomic].
  destruct (negb (limit (residentCount s))); [done|]. rewrite !run_bind. destruct (run (pickEvictionVictim range i ctx exclude) s) as [[s1 [v|]]|] eqn:Ev; [|done..].
  unfold pickEvictionVictim in Ev. apply run_bind_Some in Ev as (s0 & cs & H0 & Ev). injection H0 as <- <-. apply run_first_victim in Ev as (He & -> & _).
  set (s1 := sys_locks _ s). rewrite !run_bind. destruct (run (evictLocked cfg ctx v) s1) as [[s2 err]|] eqn:Eev; [|done]. rewrite !run_bind. cbn [run release writes atomic].
  destruct err as [err|]; [done|]. apply IH. apply run_evictLocked in Eev. destruct He as (_ & act & inst & Hi & _).
  assert (v ∈ residents s) as Hv.
  { apply elem_of_residents. unfold instanceOf in Hi. destruct (sy_table s !! v) as [e|] eqn:Ee; [|done]. exists e. split; [done|]. by eexists. }
  assert (residents (sys_locks (delete (LEntry v) (sy_locks s2)) s2) = residents s ∖ {[v]}) as E by exact Eev. unfold residentCount in *. rewrite E.
  rewrite size_difference by by apply singleton_subseteq_l. rewrite size_singleton. assert (size (residents s) ≠ 0); [|lia].
  intros Hz. apply size_empty_inv in Hz. by apply Hz in Hv.
Qed.

(** ** Definitions *)

(** What a run of [Publish] leaves of the charts. *)
Definition published (kind : Identifier) (s s' : System) (r : result string) : Prop :=
  match r with
  | Err _ => sy_charts s' = sy_charts s
  | Ok revision =>
      chartFor kind s' = chartForRevision kind revision s' ∧ is_Some (chartFor kind s') ∧
      (∀ k revision, is_Some (chartForRevision k revision s) → chartForRevision k revision s' = chartForRevision k revision s) ∧
      ∀ k, k ≠ kind → sy_charts s' !! k = sy_charts s !! k
  end.

Lemma run_locked {A} i l (body : thread A) (s s' : System) a : run (locked i l body) s = Some (s', a) →
  ∃ s1, run body (sys_locks (<[l := i]> (sy_locks s)) s) = Some (s1, a) ∧ s' = sys_locks (delete l (sy_locks s1)) s1.
Proof using Type.
  unfold locked. intros (s1 & [] & H1 & H)%run_bind_Some. unfold acquire, atomic, run in H1. destruct (sy_locks s !! l); [done|]. injection H1 as <-.
  apply run_bind_Some in H as (s2 & b & H2 & H). injection H as <- <-. eauto.
Qed.

Lemma run_storeArtifact ctx chart (s s' : System) r : run (storeArtifact ctx chart) s = Some (s', r) → sy_charts s' = sy_charts s.
Proof using Type.
  intros H. cbn in H. destruct (sy_storage s) as [st|]; [|by injection H as <- _]. destruct (st_PutDefinition _ _ _) as [[st' x]|]; by injection H as <- _.
Qed.

Lemma install_published kind chart (s s' : System) r : install kind chart s = Some (s', r) →
  match r with Ok _ => published kind s s' (Ok (cc_revision chart)) | Err e => published kind s s' (Err e) end.
Proof using Type.
  unfold install. destruct (sy_charts s !! kind) as [reg|] eqn:Ek; [|done]. cbn [mbind option_bind].
  assert (∀ revs s', is_Some (revs !! cc_revision chart) → (∀ rev, is_Some (cr_revisions reg !! rev) → revs !! rev = cr_revisions reg !! rev) →
    sy_charts s' = <[kind := mkRegistry _ (cr_datamodel reg) (cc_revision chart) revs]> (sy_charts s) → published kind s s' (Ok (cc_revision chart))) as Hp.
  { intros revs s1 Hs Hk Ec. unfold published, chartFor, chartForRevision. rewrite Ec, lookup_insert_eq. cbn. split_and!; [done|done| |intros k Hne; by rewrite lookup_insert_ne].
    intros k rev Hr. destruct (decide (kind = k)) as [<-|Hne]; [|by rewrite lookup_insert_ne]. rewrite lookup_insert_eq, Ek in *. cbn in *. by apply Hk. }
  destruct (cr_revisions reg !! cc_revision chart) as [old|] eqn:Er.
  - destruct (artifactEqual _ _); intros [= <- <-]; [|done]. apply (Hp (cr_revisions reg)); [by rewrite Er|done|done].
  - intros [= <- <-]. apply (Hp (<[cc_revision chart := chart]> (cr_revisions reg))); [by rewrite lookup_insert_eq| |done].
    intros rev Hr. rewrite lookup_insert_ne; [done|]. intros <-. rewrite Er in Hr. by destruct Hr.
Qed.

(** [Publish] makes the revision it returns current and keeps every
    revision that was retained; if it fails, for whatever reason, the charts are as
    they were. *)
Theorem publish_selects (i : nat) (ctx : option error) (d : ChartDefinition) (s s' : System) (r : result string) :
  run (Publish cfg parseDuration jsonMarshal sha256 i ctx d) s = Some (s', r) → published (df_ID d) s s' r.
Proof using Type.
  unfold Publish. destruct (Validate d); [|by intros [= <- <-]]. intros (s0 & found & H0 & H)%run_bind_Some. injection H0 as <- <-.
  destruct (sy_charts s !! df_ID d) as [reg|]; [|by injection H as <- <-]. apply run_locked in H as (s1 & H & ->). set (s0 := sys_locks _ s) in H.
  enough (published (df_ID d) s0 s1 r) as Hp by exact Hp. destruct (Compile _ _ _ _ _) as [chart|e]; [|by injection H as <- <-]. destruct (prepareChart cfg chart); [|by injection H as <- <-].
  apply run_bind_Some in H as (s2 & r2 & H2 & H). apply run_storeArtifact in H2. assert (∀ r, published (df_ID d) s2 s1 r → published (df_ID d) s0 s1 r) as Hback.
  { unfold published, chartForRevision. by rewrite H2. }
  apply Hback. destruct r2 as [[]|e]; [|by injection H as <- <-]. apply run_bind_Some in H as (s3 & r3 & H3 & H).
  cbn in H3. destruct (install (df_ID d) chart s2) as [[s4 r4]|] eqn:E; [|done]. injection H3 as <- <-. apply install_published in E.
  destruct r4 as [previous|e]; [|by injection H as <- <-]. cbn in H. injection H as <- <-. unfold announcePublication. by destruct (_ || _).
Qed.

(** What a run of [CollectDefinition] may do to the charts. *)
Definition dropped (kind : Identifier) (revision : string) (s s' : System) (r : result DefinitionDeleteResult) : Prop :=
  sy_charts s' = sy_charts s ∨
  (∃ x, r = Ok x ∧ x ≠ DefinitionReferenced) ∧ ∃ reg, sy_charts s !! kind = Some reg ∧ cr_current reg ≠ revision ∧
    sy_charts s' = <[kind := mkRegistry _ (cr_datamodel reg) (cr_current reg) (delete revision (cr_revisions reg))]> (sy_charts s).

Lemma run_dropRevision kind revision x (s s0 s' : System) r : x ≠ DefinitionReferenced → sy_charts s = sy_charts s0 →
  run (dropRevision kind revision x) s = Some (s', r) → dropped kind revision s0 s' r.
Proof using Type.
  intros Hx E H. cbn in H. unfold dropped. rewrite <- E. destruct (sy_charts s !! kind) as [reg|]; [|injection H as <- _; by left].
  case_decide; injection H as <- <-; [by left|]. right. split; [eauto|]. by exists reg.
Qed.

Lemma run_deleteStored ctx revision (s s' : System) r : run (deleteStored ctx revision) s = Some (s', r) → sy_charts s' = sy_charts s.
Proof using Type.
  intros H. cbn in H. destruct (sy_storage s) as [st|]; [|by injection H as <- _]. destruct (st_DeleteDefinition _ _ _) as [[st' x]|]; by injection H as <- _.
Qed.

Lemma run_collectLocked ctx kind revision (s s' : System) r :
  run (collectLocked range ctx kind revision) s = Some (s', r) → dropped kind revision s s' r.
Proof using Type.
  unfold collectLocked. intros (s1 & reg & H1 & H)%run_bind_Some. cbn in H1. destruct (sy_charts s !! kind) as [reg'|]; [|done]. injection H1 as <- <-.
  case_decide; [injection H as <- _; by left|]. apply run_bind_Some in H as (s2 & go & H2 & H).
  assert (s2 = s) as ->. { unfold collectible in H2. destruct (present _); by injection H2 as <- _. }
  destruct go as [[]|e]; [|injection H as <- <-; by left..]. apply run_bind_Some in H as (s3 & referenced & H3 & H). injection H3 as <- <-.
  destruct (referencedLocally range revision s); [injection H as <- <-; by left|]. apply run_bind_Some in H as (s3 & del & H3 & H). apply run_deleteStored in H3.
  destruct del as [[]|e]; [by apply (run_dropRevision _ _ DefinitionDeleted s3)|injection H as <- <-; by left|by apply (run_dropRevision _ _ DefinitionNotFound s3)|injection H as <- <-; by left].
Qed.

(** [CollectDefinition] drops the revision only if it says that it was
    deleted or not stored; it never drops the current one, nor any other. *)
Theorem collect_keeps_charts (i : nat) (ctx : option error) (kind : Identifier) (revision : string) (s s' : System) (r : result DefinitionDeleteResult) :
  run (CollectDefinition range i ctx kind revision) s = Some (s', r) →
  (match r with Ok DefinitionReferenced | Err _ => True | _ => False end → sy_charts s' = sy_charts s) ∧
  (∀ k rev, (k, rev) ≠ (kind, revision) → chartForRevision k rev s' = chartForRevision k rev s) ∧
  (∀ k, is_Some (chartFor k s) → chartFor k s' = chartFor k s).
Proof using Type.
  intros H. assert (dropped kind revision s s' r) as Hd.
  { unfold CollectDefinition in H. apply run_bind_Some in H as (s0 & found & H0 & H). injection H0 as <- <-. destruct (sy_charts s !! kind); [|injection H as <- _; by left].
    apply run_locked in H as (s1 & H & ->). by apply run_collectLocked in H. }
  unfold chartForRevision, chartFor. destruct Hd as [E|[(x & -> & Hx) (reg & Hreg & Hcur & E)]]; rewrite E; [done|]. split_and!; [by destruct x|..].
  - intros k rev Hne. destruct (decide (kind = k)) as [<-|]; [|by rewrite lookup_insert_ne]. rewrite lookup_insert_eq, Hreg. cbn. rewrite lookup_delete_ne; [done|]. congruence.
  - intros k Hk. destruct (decide (kind = k)) as [<-|]; [|by rewrite lookup_insert_ne]. rewrite lookup_insert_eq, Hreg. cbn. by rewrite lookup_delete_ne.
Qed.

End runs.
