(* ===== verification/ActorTrials.v ===== *)
(** * Examples: an actor system at work

    The systems here run [recorder] instances, which keep the events they get:
    ["end"] completes one, ["crash"] ends it without completing, ["ask"] makes it
    send ["asked"] to the target in the event's data, and ["hold"] keeps an
    invocation active.  Charts are two revisions of a lamp; the storage is the
    in-memory store.  [play] executes a schedule; the theorems of ActorSystem.v
    are applied to what schedules leave. *)

From S2P Require Import Prelude Identifier Storage Values Events Datamodel Chart Interp Steps Definitions Validate Compile Examples Authoring.
From S2P Require Import Artifact Snapshot Instance Replay Memory Stored Outbox Stores Threads Observation Routing ActorStore System Actors ActorCore Directory ActorSystem Bridge ActorRuns.
From stdpp Require Import options.

(** ** Instances *)

Record recorder := mkRecorder { rd_sid : string; rd_seen : list Event; rd_done : bool }.

Definition recordEvent (ev : Event) (r : recorder) : proc (recorder * option error) :=
  let seen done := mkRecorder (rd_sid r) (rd_seen r ++ [ev]) done in
  if decide (Name ev = "end") then Ask HostCompletion (λ err, Finish (seen true, err))
  else if decide (Name ev = "crash") then Finish (seen true, None)
  else if decide (Name ev = "ask") then
    let request := mkSendRequest ("out." +:+ pretty (length (rd_seen r))) "" "" (default "" (AsString (Data ev))) SCXMLEventProcessor "asked" NullValue in
    Ask (HostSend request) (λ err, Finish (seen false, err))
  else Finish (seen false, None).

Definition recorderSnapshot (r : recorder) : Snapshot :=
  mkSnapshot snapshotVersion "" "" (rd_sid r) [] ∅ [] (rd_seen r) true 0 0 0 "" [] [] [].

#[export] Instance recorders : Instances (DM := CounterSession) recorder := {|
  inst_activity := Event;
  inst_Start chart sid namespace ctx := match ctx with Some e => Finish (Err e) | None => Finish (Ok (mkRecorder sid [] false)) end;
  inst_Rehydrate chart sid namespace ctx source :=
    match rs_Load source with
    | Err e => Finish (Err e)
    | Ok cp =>
        let '(seen, from) := match cp with Some cp => (sn_ExternalQueue (ck_Snapshot cp), (ck_Seq cp + 1)%N) | None => ([], 0%N) end in
        let entries := List.filter (λ e, match le_Kind e with KindExternalEvent => true | _ => false end) (rs_Read source from).1 in
        Finish (Ok (mkRecorder sid (seen ++ map le_Event entries) false))
    end;
  inst_Deliver ctx ev r :=
    if rd_done r then Finish (r, Some (Errorf "recorder: stopped"))
    else Ask (HostIngress ev) (λ err, match err with Some e => Finish (r, Some e) | None => recordEvent ev r end);
  inst_Own ev r := Finish (mkRecorder (rd_sid r) (rd_seen r ++ [ev]) (bool_decide (Name ev = "crash") || rd_done r));
  inst_Done r := rd_done r;
  inst_HasActiveInvokes ctx r := Ok (existsb (λ ev, bool_decide (Name ev = "hold")) (rd_seen r));
  inst_Checkpoint ctx r := Ok (recorderSnapshot r, mkRecorder (rd_sid r) (rd_seen r) true);
  inst_Stop ctx r := (mkRecorder (rd_sid r) (rd_seen r) true, None)
|}.

(** ** Charts and storage *)

Definition lamp (salt : string) : ChartDefinition :=
  mkDefinition "lamp" "" "counter" salt "" []
    (Compound "root" "off" [Children [Authoring.Atomic "off" [On "power" [Target ["on"]]]; Authoring.Atomic "on" [On "power" [Target ["off"]]]]]).

Definition lampMarshal (d : ChartDefinition) : result string := Ok (df_RevisionSalt d).
Definition lampDecode (s : string) : result (ChartDefinition * trailing) :=
  d ← normalizeDefinition (lamp s); Ok (d, EOF).
Definition lampChart (salt : string) : compiledChart (DM := CounterSession) :=
  match Compile oneSecond lampMarshal noHash (lamp salt) (Some counterModel) with Ok c => c | Err _ => compiledOf (lamp salt) end.

#[export] Instance lampStorage : ActorStorage MemoryStore := MemoryStorage lampMarshal noHash lampDecode valuesOf.
Abbreviation lampOk := (consistent lampMarshal noHash lampDecode).
#[export] Instance lampLaws : ActorStorageLaws MemoryStore lampOk := MemoryStorage_laws lampMarshal noHash lampDecode valuesOf valuesOf_range.
#[export] Instance lampDirectory : DirectoryLaws MemoryStore lampOk := memory_directory lampMarshal noHash lampDecode valuesOf valuesOf_range.

Definition byName (X : gset Identifier) : list Identifier := elements X.
Lemma byName_range X : byName X ≡ₚ elements X.
Proof. done. Qed.

(** ** Schedules *)

Abbreviation lampSystem := (@System CounterSession MemoryStore recorder).

(** A new goroutine, or an old one, takes at most so many actions. *)
Inductive move := Begin (i : nat) (op : operation (Inst := recorder)) (steps : nat) | Continue (i steps : nat).

Section play.
Variable cfg : systemConfig.
#[local] Abbreviation start_ := (goroutine cfg oneSecond lampMarshal noHash lampDecode byName (Inst := recorder)).
#[local] Abbreviation pool := (gmap nat (thread lampSystem answer)).
#[local] Abbreviation lampCalls := (calls cfg oneSecond lampMarshal noHash lampDecode byName (Inst := recorder)).
Definition lampReachable : lampSystem * pool → Prop := reachable lampOk cfg oneSecond lampMarshal noHash lampDecode byName.

Fixpoint drive (steps : nat) (t : thread lampSystem answer) (s : lampSystem) : lampSystem * thread lampSystem answer :=
  match steps, t with
  | S steps, Threads.Atomic f k => match f s with Some (s, b) => drive steps (k b) s | None => (s, t) end
  | _, _ => (s, t)
  end.

Definition moved (m : move) (c : lampSystem * pool) : lampSystem * pool :=
  match m with
  | Begin i op steps =>
      match c.2 !! i with
      | Some _ => c
      | None => let '(s, t) := drive steps (start_ i op) c.1 in (s, <[i := t]> c.2)
      end
  | Continue i steps =>
      match c.2 !! i with
      | Some t => let '(s, t) := drive steps t c.1 in (s, <[i := t]> c.2)
      | None => c
      end
  end.

Definition play (ms : list move) (s : lampSystem) : lampSystem * pool := foldl (λ c m, moved m c) (s, ∅) ms.

Lemma drive_steps steps i t s (ts : pool) :
  rtc (pool_step lampCalls) (s, <[i := t]> ts) ((drive steps t s).1, <[i := (drive steps t s).2]> ts).
Proof using Type.
  revert t s. induction steps as [|steps IH]; intros t s; [destruct t; reflexivity|]. destruct t as [a|B f k]; [reflexivity|]. cbn. destruct (f s) as [[s1 b]|] eqn:E; [|reflexivity].
  eapply rtc_l; [apply (pool_act _ i B f k s s1 b); [apply lookup_insert_eq|done]|]. rewrite insert_insert_eq. apply IH.
Qed.

Lemma play_reachable ms s : configured lampOk cfg s → lampReachable ((play ms s).1, (play ms s).2).
Proof using Type.
  intros Hs. rewrite <- surjective_pairing. exists s. split; [done|]. unfold play, pool_reachable.
  enough (∀ c, rtc (pool_step lampCalls) (s, ∅) c → rtc (pool_step lampCalls) (s, ∅) (foldl (λ c m, moved m c) c ms)) as H by by apply H.
  induction ms as [|m ms IH]; intros c Hc; [done|]. cbn [foldl]. apply IH. eapply rtc_trans; [exact Hc|].
  destruct c as [s1 ts]. unfold moved. destruct m as [i op steps|i steps]; cbn [fst snd]; destruct (ts !! i) as [t|] eqn:E; try reflexivity.
  - eapply rtc_l; [apply (pool_call lampCalls i (start_ i op)); [done|by exists op]|]. pose proof (drive_steps steps i (start_ i op) s1 ts) as H.
    destruct (drive steps (start_ i op) s1) as [s2 t]. exact H.
  - pose proof (drive_steps steps i t s1 ts) as H. rewrite (insert_id _ _ _ E) in H. destruct (drive steps t s1) as [s2 t']. exact H.
Qed.

(** What a call has answered. *)
Definition answerOf (i : nat) (c : lampSystem * pool) : option answer :=
  match c.2 !! i with Some (Return a) => Some a | _ => None end.
Lemma answerOf_Some i c a : answerOf i c = Some a → c.2 !! i = Some (Return a).
Proof using Type. unfold answerOf. destruct (c.2 !! i) as [[b|B f k]|]; [|done..]. by intros [= ->]. Qed.

(** A system with the first revision of the lamp registered. *)
Definition lampRegistration : registration := mkRegistration (lampChart "1") (Some counterModel) true.
Definition registered (storage : option MemoryStore) (now : Z) : lampSystem :=
  match run (Register cfg (Some lampRegistration)) (NewSystem cfg storage now) with Some (s, _) => s | None => NewSystem cfg storage now end.
Lemma registered_configured storage now : (∀ st, storage = Some st → lampOk st) → configured lampOk cfg (registered storage now).
Proof using Type.
  intros H. unfold registered. destruct (run _ _) as [[s err]|] eqn:E; [|by constructor]. eapply configured_register; [by constructor|exact E].
Qed.
End play.

Definition noon : Z := unixEpoch + 10 ^ 18.
Definition many : nat := 1000.
Definition fullSpeed (i : nat) (op : operation (Inst := recorder)) : move := Begin i op many.
Definition lampStart (cfg : systemConfig) : lampSystem := registered cfg (Some NewMemoryStore) noon.
Lemma lampStart_configured cfg : configured lampOk cfg (lampStart cfg).
Proof. unfold lampStart. apply (registered_configured cfg (Some NewMemoryStore) noon). intros st [= <-]. apply consistent_new. Qed.

(** ** Schedules and what they leave *)

Definition told (name d : string) : Event := mkEvent name EventExternal NullValue "" "" "" "" d.
Definition asks (target : string) : Event := mkEvent "ask" EventExternal (TextValue target) "" "" "" "" "".

(** Two durable actors; a delivery that is repeated; then [Stop], whose goroutines
    run while another delivery is under way. *)
Definition busyDay : list move := [
  fullSpeed 1 (OpSpawn None "hall" "lamp" true);
  fullSpeed 2 (OpSpawn None "porch" "lamp" false);
  fullSpeed 3 (OpTell None "hall" (told "power" "d1"));
  fullSpeed 4 (OpTell None "hall" (told "power" "d1"));
  Begin 5 (OpTell None "hall" (told "power" "d2")) 7;
  fullSpeed 6 (OpStop None None);
  fullSpeed 7 (OpStopEntry 6 "hall");
  fullSpeed 8 (OpStopEntry 6 "porch");
  Continue 5 many;
  Continue 7 many;
  Continue 6 many ].

Definition afterBusyDay := play defaultSystemConfig busyDay (lampStart defaultSystemConfig).
Lemma afterBusyDay_reachable : lampReachable defaultSystemConfig (afterBusyDay.1, afterBusyDay.2).
Proof. apply (play_reachable defaultSystemConfig busyDay), lampStart_configured. Qed.

Example busy_answers : map (λ i, answerOf i afterBusyDay) (seq 1 8) =
  [Some (AnsError None); Some (AnsError None); Some (AnsError None); Some (AnsError None); Some (AnsError None); Some (AnsStopped []); Some AnsDone; Some AnsDone].
Proof. vm_compute. reflexivity. Qed.

Lemma stop_evicts_everything_witness :
  answerOf 6 afterBusyDay = Some (AnsStopped []) ∧ sy_stopped afterBusyDay.1 = true ∧ residents afterBusyDay.1 = ∅.
Proof.
  split; [vm_compute; reflexivity|]. apply (stop_evicts_everything lampOk defaultSystemConfig oneSecond lampMarshal noHash lampDecode byName byName_range afterBusyDay.1 afterBusyDay.2 6).
  - exact afterBusyDay_reachable.
  - apply answerOf_Some. vm_compute. reflexivity.
Defined.

(** The first two deliveries are one; both of its successors are in the log. *)
Lemma deliver_hands_over_once_witness : sy_delivered afterBusyDay.1 = [("hall", "d1"); ("hall", "d2")] ∧ NoDup (sy_delivered afterBusyDay.1).
Proof.
  split; [vm_compute; reflexivity|].
  apply (deliver_hands_over_once lampOk defaultSystemConfig oneSecond lampMarshal noHash lampDecode byName byName_range afterBusyDay.1 afterBusyDay.2).
  exact afterBusyDay_reachable.
Defined.

(** One resident at most: the second actor makes the system page the first out,
    and a delivery to the first brings it back. *)
Definition tight : systemConfig := WithMaxResident 1 defaultSystemConfig.
Definition twoRooms : list move := [
  fullSpeed 1 (OpSpawn None "hall" "lamp" true);
  fullSpeed 2 (OpSpawn None "porch" "lamp" true);
  fullSpeed 3 (OpTell None "hall" (told "power" "d1")) ].
Definition afterTwoRooms := play tight twoRooms (lampStart tight).

Lemma residents_bounded_witness :
  map (λ i, answerOf i afterTwoRooms) (seq 1 3) = [Some (AnsError None); Some (AnsError None); Some (AnsError None)]
  ∧ (Z.of_nat (residentCount afterTwoRooms.1) ≤ Z.max 0 1)%Z.
Proof.
  split; [vm_compute; reflexivity|].
  apply (residents_bounded lampOk tight oneSecond lampMarshal noHash lampDecode byName byName_range 1 afterTwoRooms.1 afterTwoRooms.2).
  - apply (play_reachable tight twoRooms), lampStart_configured.
  - reflexivity.
Defined.

Example two_rooms_resident : elements (residents afterTwoRooms.1) = ["hall"].
Proof. vm_compute. reflexivity. Qed.

(** The lamp is published again while "hall" runs its first revision. *)
Definition firstRevision : string := cc_revision (lampChart "1").
Definition newLamp : list move := [
  fullSpeed 1 (OpSpawn None "hall" "lamp" true);
  fullSpeed 2 (OpPublish None (lamp "2"));
  fullSpeed 3 (OpCollect None "lamp" firstRevision);
  fullSpeed 4 (OpSpawn None "porch" "lamp" true) ].
Definition afterNewLamp := play defaultSystemConfig newLamp (lampStart defaultSystemConfig).

Example new_lamp_answers : map (λ i, answerOf i afterNewLamp) (seq 1 4) =
  [Some (AnsError None); Some (AnsPublished (Ok (cc_revision (lampChart "2")))); Some (AnsCollected (Ok DefinitionReferenced)); Some (AnsError None)].
Proof. vm_compute. reflexivity. Qed.
Example new_lamp_revisions :
  (ActorRevision "hall" afterNewLamp.1, ActorRevision "porch" afterNewLamp.1) = (Some firstRevision, Some (cc_revision (lampChart "2"))).
Proof. vm_compute. reflexivity. Qed.

(** An entry of the table, or the one that [Spawn] would make. *)
Definition entryNamed (n : Identifier) (s : lampSystem) : actorEntry := default (newEntry n "" "" true 0) (sy_table s !! n).

Lemma pinned_revision_retained_witness :
  resolve "hall" afterNewLamp.1 = Some (entryNamed "hall" afterNewLamp.1)
  ∧ is_Some (chartForRevision (ae_kind (entryNamed "hall" afterNewLamp.1)) (ae_revision (entryNamed "hall" afterNewLamp.1)) afterNewLamp.1).
Proof.
  split; [vm_compute; reflexivity|].
  apply (pinned_revision_retained lampOk defaultSystemConfig oneSecond lampMarshal noHash lampDecode byName byName_range afterNewLamp.1 afterNewLamp.2 "hall").
  - apply (play_reachable defaultSystemConfig newLamp), lampStart_configured.
  - vm_compute. reflexivity.
  - vm_compute. reflexivity.
  - intros _. eexists. split; [vm_compute; reflexivity|]. eexists. split; [vm_compute; reflexivity|]. vm_compute. done.
Defined.

(** ** Single operations *)

(** An operation on a system, alone. *)
Definition alone {A} (t : thread lampSystem A) (s : lampSystem) : lampSystem * option A :=
  match run t s with Some (s', a) => (s', Some a) | None => (s, None) end.
Lemma alone_run {A} (t : thread lampSystem A) s a : (alone t s).2 = Some a → run t s = Some ((alone t s).1, a).
Proof. unfold alone. destruct (run t s) as [[s' b]|]; [|done]. by intros [= ->]. Qed.

Lemma present_Some {A} (o : option A) : present o = true → is_Some o.
Proof. by destruct o. Qed.

Abbreviation publishNew := (Publish defaultSystemConfig oneSecond lampMarshal noHash 1 None (lamp "2") (Inst := recorder) (L := MemoryStore)).
Lemma publish_selects_witness :
  published "lamp" (lampStart defaultSystemConfig) (alone publishNew (lampStart defaultSystemConfig)).1 (Ok (cc_revision (lampChart "2"))).
Proof.
  refine (publish_selects defaultSystemConfig oneSecond lampMarshal noHash 1 None (lamp "2") _ _ _ (alone_run publishNew _ _ _)). vm_compute. reflexivity.
Defined.

(** Nobody runs the first revision when it is collected. *)
Definition published2 : lampSystem := (alone publishNew (lampStart defaultSystemConfig)).1.
Abbreviation collectOld := (CollectDefinition byName 1 None "lamp" firstRevision (Inst := recorder) (L := MemoryStore)).
Lemma collect_keeps_charts_witness :
  (alone collectOld published2).2 = Some (Ok DefinitionDeleted)
  ∧ present (chartForRevision "lamp" firstRevision (alone collectOld published2).1) = false
  ∧ chartFor "lamp" (alone collectOld published2).1 = chartFor "lamp" published2.
Proof.
  split; [vm_compute; reflexivity|]. split; [vm_compute; reflexivity|].
  unshelve eapply (collect_keeps_charts byName 1 None "lamp" firstRevision published2 (alone collectOld published2).1 (Ok DefinitionDeleted) (alone_run collectOld published2 _ _)).
  - vm_compute. reflexivity.
  - apply present_Some. vm_compute. reflexivity.
Defined.

(** Three actors: the one used least recently holds an invocation. *)
Definition threeRooms : list move := [
  fullSpeed 1 (OpSpawn None "hall" "lamp" true);
  fullSpeed 2 (OpTick 10); fullSpeed 3 (OpSpawn None "porch" "lamp" true);
  fullSpeed 4 (OpTick 10); fullSpeed 5 (OpSpawn None "attic" "lamp" true);
  fullSpeed 6 (OpActivity 0 (told "hold" "")) ].
Definition afterThreeRooms : lampSystem := (play defaultSystemConfig threeRooms (lampStart defaultSystemConfig)).1.
Abbreviation pickOne := (pickEvictionVictim byName 9 None "cellar" (Inst := recorder) (L := MemoryStore)).
Lemma victim_least_recent_witness : (alone pickOne afterThreeRooms).2 = Some (Some "porch") ∧ evictable None afterThreeRooms "porch".
Proof.
  split; [vm_compute; reflexivity|].
  refine (proj1 (victim_least_recent byName 9 None "cellar" afterThreeRooms (alone pickOne afterThreeRooms).1 "porch" byName_range (alone_run pickOne _ _ _))). vm_compute. reflexivity.
Defined.

(** A process that starts over the storage of three actors adopts one and spawns an
    ephemeral one; the other two are known to the storage alone.  The directory
    shows the four on two pages. *)
Lemma threeRooms_storage st : sy_storage afterThreeRooms = Some st → lampOk st.
Proof.
  assert (lampReachable defaultSystemConfig (afterThreeRooms, (play defaultSystemConfig threeRooms (lampStart defaultSystemConfig)).2)) as Hr
    by apply (play_reachable defaultSystemConfig threeRooms), lampStart_configured.
  apply (reachable_ok lampOk _ _ _ _ _ _ byName_range) in Hr as [HI _]. exact (inv_storage _ _ _ HI st).
Qed.
Definition nextProcess : lampSystem := registered defaultSystemConfig (sy_storage afterThreeRooms) noon.
Definition fourRooms : list move := [
  fullSpeed 1 (OpSpawn None "hall" "lamp" true);
  fullSpeed 2 (OpSpawn None "cellar" "lamp" false) ].
Definition afterFourRooms := play defaultSystemConfig fourRooms nextProcess.
Definition twoRoomsAfter (cursor : string) : ActorQuery := mkActorQuery cursor 2 "" "" "" None "" "".
Abbreviation directoryPage query := (querySystemActors defaultSystemConfig 10 None query (Inst := recorder) (L := MemoryStore)).
Definition pageIDs (query : ActorQuery) : option (list Identifier * string) :=
  match (alone (directoryPage query) afterFourRooms.1).2 with Some (Ok page) => Some (ai_ID <$> ap_Actors page, ap_Next page) | _ => None end.
Example four_rooms_paged :
  pageIDs (twoRoomsAfter "") = Some (["attic"; "cellar"], ActorMetadataCursorFor "cellar")
  ∧ pageIDs (twoRoomsAfter (ActorMetadataCursorFor "cellar")) = Some (["hall"; "porch"], "")
  ∧ dom (sy_table afterFourRooms.1) = {["hall"; "cellar"]}.
Proof. split_and!; [vm_compute; reflexivity..|]. apply (bool_decide_eq_true_1 _). vm_compute. reflexivity. Qed.

Lemma directory_page_complete_witness : ∃ page,
  run (directoryPage (twoRoomsAfter (ActorMetadataCursorFor "cellar"))) afterFourRooms.1 = Some (sortActorIDs afterFourRooms.1, Ok page)
  ∧ shows 2 (matching defaultSystemConfig (twoRoomsAfter (ActorMetadataCursorFor "cellar")) "cellar" afterFourRooms.1) page.
Proof.
  apply (directory_page_complete lampOk defaultSystemConfig oneSecond lampMarshal noHash lampDecode byName byName_range afterFourRooms.1 afterFourRooms.2 10
    (twoRoomsAfter (ActorMetadataCursorFor "cellar")) (twoRoomsAfter (ActorMetadataCursorFor "cellar")) "cellar").
  - apply (play_reachable defaultSystemConfig fourRooms), registered_configured, threeRooms_storage.
  - vm_compute. reflexivity.
  - assert (match sy_storage afterFourRooms.1 with Some st => size (sv_actors st) <? 10 | None => true end = true) as H by (vm_compute; reflexivity).
    intros st Es. rewrite Es in H. by apply Nat.ltb_lt.
Defined.

Definition atMostOne (resident : nat) : bool := bool_decide (1 ≤ resident).
Abbreviation makeRoomTwice fuel := (makeRoom defaultSystemConfig byName fuel 9 None atMostOne "cellar" (Inst := recorder) (L := MemoryStore)).
Lemma admit_terminates_witness :
  residentCount afterThreeRooms = 3 ∧ run (makeRoomTwice (4 + 96)) afterThreeRooms = run (makeRoomTwice 4) afterThreeRooms.
Proof.
  split; [vm_compute; reflexivity|]. apply (admit_terminates defaultSystemConfig byName 96 9 None atMostOne "cellar" afterThreeRooms 4).
  assert (residentCount afterThreeRooms = 3) as -> by (vm_compute; reflexivity). lia.
Defined.
Example make_room_result : msg <$> ((alone (makeRoomTwice 4) afterThreeRooms).2 ≫= id) =
  Some "actors: residency limit reached (resident=1): actors: residency limit reached and no evictable actor available".
Proof. vm_compute. reflexivity. Qed.

(** A system with a node name. *)
Definition home : systemConfig := mkConfig "home" 0 None 16 false false None [] [].
Definition homeDay : list move := [fullSpeed 1 (OpSpawn None "hall" "lamp" true)].
Definition afterHomeDay := play home homeDay (lampStart home).
Lemma targets_resolve_witness : address home "hall" = "hall@home" ∧ resolveTarget home "hall@home" afterHomeDay.1 = Some "hall".
Proof.
  split; [vm_compute; reflexivity|].
  apply (targets_resolve lampOk home oneSecond lampMarshal noHash lampDecode byName byName_range afterHomeDay.1 afterHomeDay.2 "hall@home" "hall").
  - apply (play_reachable home homeDay), lampStart_configured.
  - vm_compute. reflexivity.
  - split; [apply present_Some; vm_compute; reflexivity|]. right. vm_compute. reflexivity.
Defined.

(** A bridge from a garden without a node name to the house, and one back: the
    porch writes to the hall, and the hall's answer gets to the porch. *)
Definition toHouse : Bridge := NewBridge "house" (Some home) "garden".
Definition toGarden : Bridge := SetTarget (Some defaultSystemConfig) (NewBridge "garden" None "house").
Definition letter (target : Identifier) : SendRequest := mkSendRequest "out.1" "" "" target SCXMLEventProcessor "letter" NullValue.
Definition porchRoute : option (systemConfig * actorRoute) := Some (defaultSystemConfig, mkRoute (address defaultSystemConfig "porch") 1 "").
Example letter_sent : match bridgeSend toHouse porchRoute false afterHomeDay.1 (letter "hall@home") with
  | Ok (q, j) => bj_name j = "hall" ∧ Origin (bj_event j) = "porch@garden" | Err _ => False end.
Proof. vm_compute. done. Qed.
Example letter_misaddressed : match bridgeSend toHouse porchRoute false afterHomeDay.1 (letter "hall@house") with
  | Ok _ => False | Err e => msg e = "actors: Bridge: " +:+ quote "hall@house" +:+ " is not addressed to target node " +:+ quote "home" end.
Proof. vm_compute. done. Qed.

(** ** What the code does that it does not mean to *)

(** The events of the instance that an actor has now, and of its deliveries those
    that storage has as failed. *)
Definition seenBy (n : Identifier) (s : lampSystem) : list Identifier :=
  match instanceOf n s ≫= λ act, sy_heap s !! act with Some r => map Name (rd_seen r) | None => [] end.
Definition failedSends (n : Identifier) (s : lampSystem) : list (OutboundStatus * string) :=
  match sy_storage s with
  | Some st => map (λ m, (om_Status m, or_Error (om_Result m))) (map_to_list (default ∅ (ms_outbounds st !! n))).*2
  | None => []
  end.

(** A delivery is about to be recorded when the instance fails on its own, say in
    a timer's hook. *)
Definition unlucky : list move := [
  fullSpeed 1 (OpSpawn None "hall" "lamp" true);
  Begin 2 (OpTell None "hall" (told "power" "d1")) 6;
  fullSpeed 3 (OpActivity 0 (told "crash" ""));
  Continue 2 many ].
Definition afterUnlucky := play defaultSystemConfig unlucky (lampStart defaultSystemConfig).

(** A message between durable actors is in the dispatch queue when [Stop] is
    called. *)
Definition lastMessage : list move := [
  fullSpeed 1 (OpSpawn None "hall" "lamp" true);
  fullSpeed 2 (OpSpawn None "porch" "lamp" true);
  fullSpeed 3 (OpTell None "hall" (asks "porch"));
  fullSpeed 4 (OpStop None None);
  fullSpeed 5 OpDispatch ].
Definition afterLastMessage := play defaultSystemConfig lastMessage (lampStart defaultSystemConfig).

(** Two schedules go wrong.  [deliver] can apply an identified event twice:
    when the instance has finished without completing between the lookup and
    [AppendIngress], the new activation replays the entry that was just appended,
    and the event is then delivered to it again, though it was handed over once.
    And work that the dispatcher has accepted is not delivered once [Stop] has
    begun: its job still runs, but [deliver] refuses it, and the durable send is
    resolved as failed in storage, so that no later activation sends it again. *)
Theorem actor_schedules_go_wrong :
  (lampReachable defaultSystemConfig (afterUnlucky.1, afterUnlucky.2)
   ∧ answerOf 2 afterUnlucky = Some (AnsError None)
   ∧ sy_delivered afterUnlucky.1 = [("hall", "d1")]
   ∧ seenBy "hall" afterUnlucky.1 = ["power"; "power"])
  ∧ (lampReachable defaultSystemConfig (afterLastMessage.1, afterLastMessage.2)
     ∧ map (λ i, answerOf i afterLastMessage) [3; 5] = [Some (AnsError None); Some AnsDone]
     ∧ sy_dispatchQueue afterLastMessage.1 = []
     ∧ seenBy "porch" afterLastMessage.1 = []
     ∧ failedSends "hall" afterLastMessage.1 = [(OutboundResolved, msg (Wrapf ("actors: " +:+ quote "porch" +:+ ": ") ErrSystemStopped))]).
Proof.
  split; (split; [apply play_reachable, lampStart_configured|]); vm_compute; done.
Qed.
