(* ===== verification/JSONTree.v ===== *)
(** * JSON documents and trees (encoding/json, as syntax/json uses it)

    A document is the sequence of tokens that a [json.Decoder] delivers for a
    valid UTF-8 text: white space, commas and colons are gone, and a text that is
    not JSON ends in a [TokError].  The decoder delivers only closing delimiters
    that match, so one token stands for both.  A tree is what [Decode] makes of a document
    when it decodes into an [any] with [UseNumber]; its limit of 10,000 nested
    levels is not modelled, so documents are taken to stay within it.  Structs are written and read
    by their field tags: [object] and [decStruct]. *)

From S2P Require Import Prelude Identifier Values Datamodel Chart Definitions Validate Compile.
From stdpp Require Import options.

(** ** Tokens *)

Inductive token :=
| TokNull
| TokBool (b : bool)
| TokString (s : string)
| TokNumber (s : string)
| TokOpenObject
| TokOpenArray
| TokClose
| TokError (e : error).

#[global] Instance token_eq_dec : EqDecision token.
Proof. solve_decision. Defined.

Definition document : Type := list token.

Definition ioEOF : error := Errorf "EOF".
Definition ioUnexpectedEOF : error := Errorf "unexpected EOF".

(** [Decoder.Token]. *)
Definition Token (ts : document) : result (token * document) :=
  match ts with
  | [] => Err ioEOF
  | TokError e :: _ => Err e
  | t :: ts => Ok (t, ts)
  end.

(** [Decoder.More]: it looks at the next byte only. *)
Definition More (ts : document) : bool :=
  match ts with
  | [] | TokClose :: _ => false
  | _ => true
  end.

(** ** From tokens to trees *)

(** [m[k] = j]. *)
Fixpoint putKey {A} (k : string) (j : A) (m : list (string * A)) : list (string * A) :=
  match m with
  | [] => [(k, j)]
  | (k', j') :: m => if decide (k = k') then (k, j) :: m else (k', j') :: putKey k j m
  end.

Definition badToken : error := Errorf "invalid character".

(** [Decode] into an [any]; what is left of the stream is returned too.  Every
    step takes a token, so the length of the document is enough [fuel]. *)
Fixpoint decodeAny (fuel : nat) (ts : document) {struct fuel} : result (JSON * document) :=
  match fuel with
  | 0 => Err ioUnexpectedEOF
  | S fuel =>
      match ts with
      | [] => Err ioUnexpectedEOF
      | TokNull :: ts => Ok (JNil, ts)
      | TokBool b :: ts => Ok (JBool b, ts)
      | TokString s :: ts => Ok (JString s, ts)
      | TokNumber s :: ts => Ok (JNumber s, ts)
      | TokOpenArray :: ts => r ← decodeItems fuel ts; Ok (JList r.1, r.2)
      | TokOpenObject :: ts => r ← decodeFields fuel [] ts; Ok (JMap r.1, r.2)
      | TokError e :: _ => Err e
      | TokClose :: _ => Err badToken
      end
  end
with decodeItems (fuel : nat) (ts : document) {struct fuel} : result (list JSON * document) :=
  match fuel with
  | 0 => Err ioUnexpectedEOF
  | S fuel =>
      match ts with
      | TokClose :: ts => Ok ([], ts)
      | ts => r ← decodeAny fuel ts; r' ← decodeItems fuel r.2; Ok (r.1 :: r'.1, r'.2)
      end
  end
with decodeFields (fuel : nat) (m : list (string * JSON)) (ts : document) {struct fuel}
    : result (list (string * JSON) * document) :=
  match fuel with
  | 0 => Err ioUnexpectedEOF
  | S fuel =>
      match ts with
      | TokClose :: ts => Ok (m, ts)
      | TokString k :: ts => r ← decodeAny fuel ts; decodeFields fuel (putKey k r.1 m) r.2
      | TokError e :: _ => Err e
      | [] => Err ioUnexpectedEOF
      | _ => Err badToken
      end
  end.

(** [Decode] on what a decoder has left. *)
Definition Decode (ts : document) : result (JSON * document) :=
  match ts with [] => Err ioEOF | _ => decodeAny (S (length ts)) ts end.

(** ** From trees to tokens *)

(** What [json.Marshal] writes; white space of [MarshalIndent] is no token.  The
    constructors that no decoder produces are never written either. *)
Fixpoint tokens (j : JSON) : document :=
  match j with
  | JNil => [TokNull]
  | JBool b => [TokBool b]
  | JString s => [TokString s]
  | JNumber s => [TokNumber s]
  | JInt z => [TokNumber (pretty z)]
  | JUint n => [TokNumber (pretty n)]
  | JList l => TokOpenArray :: flat_map tokens l ++ [TokClose]
  | JMap m => TokOpenObject :: flat_map (λ '(k, j), TokString k :: tokens j) m ++ [TokClose]
  | JOther => []
  end.

(** ** Structs, written by their tags *)

Definition field : Type := string * result (option JSON).

(** A field without [omitempty]. *)
Definition always (name : string) (r : result JSON) : field := (name, Some <$> r).
(** The [omitempty] fields: a nil pointer, an empty string, [false], an empty slice. *)
Definition omitNil {A} (name : string) (f : A → result JSON) (o : option A) : field :=
  (name, match o with Some a => Some <$> f a | None => Ok None end).
Definition omitBlank (name s : string) : field := (name, Ok (if decide (s = "") then None else Some (JString s))).
Definition omitFalse (name : string) (b : bool) : field := (name, Ok (if b then Some (JBool b) else None)).
Definition marshalList {A} (f : A → result JSON) (l : list A) : result JSON := JList <$> result_list f l.
Definition omitEmpty {A} (name : string) (f : A → result JSON) (l : list A) : field :=
  (name, match l with [] => Ok None | _ => Some <$> marshalList f l end).

Fixpoint fields (fs : list field) : result (list (string * JSON)) :=
  match fs with
  | [] => Ok []
  | (name, r) :: fs =>
      o ← r; m ← fields fs;
      Ok (match o with Some j => (name, j) :: m | None => m end)
  end.

Definition object (fs : list field) : result JSON := JMap <$> fields fs.

(** ** Structs, read by their tags

    [null] leaves a variable as it is, that is at its zero value.  The decoder
    also takes keys that differ from a tag in case; no such key is left when a
    struct is decoded here. *)

Definition unmarshalTypeError (value type : string) : error :=
  Errorf ("json: cannot unmarshal " +:+ value +:+ " into Go value of type " +:+ type).

Definition jsonKind (j : JSON) : string :=
  match j with
  | JNil => "null" | JBool _ => "bool" | JString _ => "string" | JList _ => "array" | JMap _ => "object"
  | JNumber _ | JInt _ | JUint _ | JOther => "number"
  end.

Section withField.
Context {B : Type} (f : JSON → B) (absent : B).
(** [if value, ok := m[name]; ok { f(value) } else { absent }]. *)
Fixpoint withField (name : string) (m : list (string * JSON)) : B :=
  match m with
  | [] => absent
  | (k, j) :: m => if decide (name = k) then f j else withField name m
  end.
End withField.

Definition decString (j : JSON) : result string :=
  match j with JString s => Ok s | JNil => Ok "" | _ => Err (unmarshalTypeError (jsonKind j) "string") end.
Definition decBool (j : JSON) : result bool :=
  match j with JBool b => Ok b | JNil => Ok false | _ => Err (unmarshalTypeError (jsonKind j) "bool") end.
Definition decPtr {A} (f : JSON → result A) (j : JSON) : result (option A) :=
  match j with JNil => Ok None | _ => Some <$> f j end.
Definition decList {A} (f : JSON → result A) (j : JSON) : result (list A) :=
  match j with JList l => result_list f l | JNil => Ok [] | _ => Err (unmarshalTypeError (jsonKind j) "slice") end.

(** [DisallowUnknownFields]. *)
Definition knownFields (names : list string) {A} (m : list (string * A)) : result unit :=
  match filter (λ k, k ∉ names) m.*1 with
  | [] => Ok ()
  | k :: _ => Err (Errorf ("json: unknown field " +:+ quote k))
  end.

Definition decStruct {A} (names : list string) (zero : A) (f : list (string * JSON) → result A) (j : JSON) : result A :=
  match j with
  | JMap m => _ ← knownFields names m; f m
  | JNil => Ok zero
  | _ => Err (unmarshalTypeError (jsonKind j) "struct")
  end.

(** ** Values inside a document (value.go: marshalWire, unmarshalWire) *)

Definition optionalJSON {A} (name : string) (f : A → JSON) (o : option A) : list (string * JSON) :=
  match o with Some a => [(name, f a)] | None => [] end.

(** [json.Marshal] of a [ValueWire]. *)
Fixpoint wireJSON (w : ValueWire) : JSON :=
  let 'mkWire version kind b s n l m t p := w in
  JMap (("version", JNumber (pretty version)) :: ("kind", JString kind)
    :: optionalJSON "bool" JBool b ++ optionalJSON "string" JString s ++ optionalJSON "number" JString n
    ++ optionalJSON "list" (λ l, JList (map wireJSON l)) l
    ++ optionalJSON "map" (λ m, JMap (map (λ '(k, w), (k, wireJSON w)) m)) m
    ++ optionalJSON "tag" JString t
    ++ match p with Some p => [("payload", wireJSON p)] | None => [] end).

Definition marshalValue (v : Value) : result JSON :=
  match Wire v with
  | Ok w => Ok (wireJSON w)
  | Err e => Err (Wrapf "json: error calling MarshalJSON for type statecharts.Value: " e)
  end.

(** The [version] of a [ValueWire]: the only number in a document. *)
Definition decInt (j : JSON) : result Z :=
  match j with
  | JNumber s =>
      let wrong := Errorf ("json: cannot unmarshal number " +:+ s +:+ " into Go struct field ValueWire.version of type int") in
      match bigSetString s with
      | Some z => if IsInt64 z then Ok z else Err wrong
      | None => Err wrong
      end
  | JNil => Ok 0%Z
  | _ => Err (unmarshalTypeError (jsonKind j) "int")
  end.

Section decMap.
Context {A : Type} (f : JSON → result A).
Fixpoint decEntries (m : list (string * JSON)) : result (list (string * A)) :=
  match m with
  | [] => Ok []
  | (k, j) :: m => a ← f j; r ← decEntries m; Ok ((k, a) :: r)
  end.
Definition decMap (j : JSON) : result (list (string * A)) :=
  match j with
  | JMap m => decEntries m
  | JNil => Ok []
  | _ => Err (unmarshalTypeError (jsonKind j) "map")
  end.
End decMap.

Definition zeroWire : ValueWire := mkWire 0 "" None None None None None None None.

Definition wireFields : list string := ["version"; "kind"; "bool"; "string"; "number"; "list"; "map"; "tag"; "payload"].

Fixpoint decWire (j : JSON) : result ValueWire :=
  decStruct wireFields zeroWire (λ m,
    version ← withField decInt (Ok 0%Z) "version" m;
    kind ← withField decString (Ok "") "kind" m;
    b ← withField (decPtr decBool) (Ok None) "bool" m;
    s ← withField (decPtr decString) (Ok None) "string" m;
    n ← withField (decPtr decString) (Ok None) "number" m;
    l ← withField (decPtr (decList decWire)) (Ok None) "list" m;
    mp ← withField (decPtr (decMap decWire)) (Ok None) "map" m;
    t ← withField (decPtr decString) (Ok None) "tag" m;
    p ← withField (decPtr decWire) (Ok None) "payload" m;
    Ok (mkWire version kind b s n l mp t p)) j.

(** [Value.UnmarshalJSON]. *)
Definition decValue (j : JSON) : result Value :=
  match decWire j with
  | Ok w => ValueFromWire w
  | Err e => Err (Wrapf "statecharts: decode Value wire: " e)
  end.
