(* ===== verification/JSONSyntax.v ===== *)
(** * The JSON surface syntax of definitions (syntax/json/codec.go)

    [Marshal] validates a definition, copies it into wire structs and writes
    them; [Unmarshal] reads a document three times: once for duplicate fields and
    nulls, once as a tree whose shape is inspected field by field, once into the
    wire structs, which become a definition that is validated.  Every error names
    the path of what it is about. *)

From S2P Require Import Prelude Identifier Values Events Datamodel Chart Definitions Validate Compile JSONTree.
From stdpp Require Import options.

(** ** Errors *)

(** [Error.Error]. *)
Definition jsonError (path : string) (e : error) : error :=
  Errorf ("statecharts JSON " +:+ path +:+ ": " +:+ msg e).
Definition pathError {A} (path m : string) : result A := Err (jsonError path (Errorf m)).
(** [if err != nil { return &Error{Path: path, Err: err} }]. *)
Definition orPath {A} (path : string) (r : result A) : result A :=
  match r with Ok a => Ok a | Err e => Err (jsonError path e) end.

(** A [DefinitionError] keeps its path: its text is the path and the rest after
    a fixed prefix. *)
Definition wrapDefinitionError (e : error) : error :=
  match strip_prefix (msg e) "statecharts: definition " with
  | Some rest => Errorf ("statecharts JSON " +:+ rest)
  | None => jsonError "definition" e
  end.

Definition validated (d : ChartDefinition) : result unit :=
  match Validate d with Ok u => Ok u | Err e => Err (wrapDefinitionError e) end.

(** ** Wire structs

    The nested forms reuse the records of Definitions.v at the wire node. *)

Inductive executableWire := mkExecutableWire {
  ew_Kind : ExecutableKind;
  ew_Raise : option RaiseDefinition;
  ew_Send : option SendDefinition;
  ew_Cancel : option CancelDefinition;
  ew_Log : option LogDefinition;
  ew_Assign : option AssignDefinition;
  ew_Choose : option (Choose executableWire);
  ew_ForEach : option (ForEach executableWire);
  ew_Script : option ScriptDefinition;
  ew_Call : option CallDefinition;
  ew_Extension : option ExtensionDefinition
}.

Abbreviation chooseWire := (Choose executableWire).
Abbreviation chooseBranchWire := (ChooseBranch executableWire).
Abbreviation forEachWire := (ForEach executableWire).
Abbreviation executableBlockWire := (list executableWire).

Record doneDataWire := mkDoneDataWire { dw_Params : list ParamDefinition; dw_Content : option Expression }.

Record invokeWire := mkInvokeWire {
  iw_DefinitionID : Identifier;
  iw_ID : Identifier;
  iw_IDLocation : option Expression;
  iw_Type : string;
  iw_TypeExpr : option Expression;
  iw_Src : string;
  iw_SrcExpr : option Expression;
  iw_Params : list ParamDefinition;
  iw_Content : option Expression;
  iw_AutoForward : bool;
  iw_Finalize : list executableBlockWire
}.

Record transitionWire := mkTransitionWire {
  tw_Events : list Identifier;
  tw_Targets : list Identifier;
  tw_Type : string;
  tw_Condition : option Expression;
  tw_Actions : list executableBlockWire
}.

Inductive stateWire := mkStateWire {
  sw_ID : StateDefinitionID;
  sw_Kind : string;
  sw_History : string;
  sw_Initial : option transitionWire;
  sw_OnEntry : list executableBlockWire;
  sw_OnExit : list executableBlockWire;
  sw_Transitions : list transitionWire;
  sw_Invokes : list invokeWire;
  sw_Data : list DataDefinition;
  sw_DoneData : option doneDataWire;
  sw_Children : list stateWire
}.

Record definitionWire := mkDefinitionWire {
  xw_ID : Identifier;
  xw_Name : string;
  xw_Datamodel : Identifier;
  xw_RevisionSalt : string;
  xw_DataBinding : string;
  xw_Data : list DataDefinition;
  xw_Root : stateWire
}.

(** ** From definitions to wire structs *)

Definition optionally {A B} (f : A → result B) (o : option A) : result (option B) :=
  match o with Some a => Some <$> f a | None => Ok None end.

Section encodeBlocks.
Variable encodeExecutable : Executable → result executableWire.
Definition encodeBlocks_with (blocks : list ExecutableBlock) : result (list executableBlockWire) :=
  result_list (result_list encodeExecutable) blocks.
End encodeBlocks.

Fixpoint encodeExecutable (e : Executable) : result executableWire :=
  let 'mkExecutable k raise send cancel log assign choose foreach script call extension := e in
  choose ← optionally (λ '(mkChoose branches otherwise),
    branches ← result_list (λ '(mkBranch condition actions),
      actions ← encodeBlocks_with encodeExecutable actions; Ok (mkBranch condition actions)) branches;
    otherwise ← encodeBlocks_with encodeExecutable otherwise;
    Ok (mkChoose branches otherwise)) choose;
  foreach ← optionally (λ '(mkForEach array item idx actions),
    actions ← encodeBlocks_with encodeExecutable actions; Ok (mkForEach array item idx actions)) foreach;
  Ok (mkExecutableWire k raise send cancel log assign choose foreach script call extension).

Definition encodeBlocks : list ExecutableBlock → result (list executableBlockWire) := encodeBlocks_with encodeExecutable.

Definition encodeInvoke (i : InvokeDefinition) : result invokeWire :=
  finalize ← encodeBlocks (id_Finalize i);
  Ok (mkInvokeWire (id_DefinitionID i) (id_ID i) (id_IDLocation i) (id_Type i) (id_TypeExpr i) (id_Src i)
        (id_SrcExpr i) (id_Params i) (id_Content i) (id_AutoForward i) finalize).

Definition encodeTransition (t : TransitionDefinition) : result transitionWire :=
  actions ← encodeBlocks (td_Actions t);
  Ok (mkTransitionWire (td_Events t) (td_Targets t) (td_Type t) (td_Condition t) actions).

(** [StateKind.String] and [HistoryKind.String] on any [uint8]. *)
Definition kindString (k : N) : string :=
  match stateKindOf k with Some k => stateKindString k | None => "unknown" end.
Definition historyString (h : N) : string := if decide (h = historyKindCode Deep) then "deep" else "shallow".

Fixpoint encodeState (s : StateDefinition) : result stateWire :=
  initial ← optionally encodeTransition (sd_Initial s);
  onEntry ← encodeBlocks (sd_OnEntry s);
  onExit ← encodeBlocks (sd_OnExit s);
  transitions ← result_list encodeTransition (sd_Transitions s);
  invokes ← result_list encodeInvoke (sd_Invokes s);
  children ← result_list encodeState (sd_Children s);
  Ok (mkStateWire (sd_ID s) (kindString (sd_Kind s))
        (if isKind KindHistory s then historyString (sd_History s) else "")
        initial onEntry onExit transitions invokes (sd_Data s)
        ((λ d, mkDoneDataWire (dn_Params d) (dn_Content d)) <$> sd_DoneData s) children).

Definition encodeDefinition (d : ChartDefinition) : result definitionWire :=
  _ ← validated d;
  root ← encodeState (df_Root d);
  Ok (mkDefinitionWire (df_ID d) (df_Name d) (df_Datamodel d) (df_RevisionSalt d) (df_DataBinding d) (df_Data d) root).

(** ** From wire structs to definitions *)

Definition parseStateKind (value path : string) : result N :=
  if decide (value = "atomic") then Ok (stateKindCode KindAtomic)
  else if decide (value = "compound") then Ok (stateKindCode KindCompound)
  else if decide (value = "parallel") then Ok (stateKindCode KindParallel)
  else if decide (value = "final") then Ok (stateKindCode KindFinal)
  else if decide (value = "history") then Ok (stateKindCode KindHistory)
  else pathError path ("unknown state kind " +:+ quote value).

Definition parseHistoryKind (value : string) (kind : N) (path : string) : result N :=
  if decide (kind = stateKindCode KindHistory) then
    if decide (value = "" ∨ value = "shallow") then Ok (historyKindCode Shallow)
    else if decide (value = "deep") then Ok (historyKindCode Deep)
    else pathError path ("unknown history kind " +:+ quote value)
  else if decide (value = "") then Ok (historyKindCode Shallow)
  else pathError path "history is only valid on history states".

Section decodeBlocks.
Variable decodeExecutable : executableWire → string → result Executable.
Definition decodeBlocks_with (blocks : list executableBlockWire) (path : string) : result (list ExecutableBlock) :=
  collectEach (λ i block, collectEach (λ j w, decodeExecutable w (index (index path i) j)) 0 block) 0 blocks.
End decodeBlocks.

Fixpoint decodeExecutable (w : executableWire) (path : string) {struct w} : result Executable :=
  let 'mkExecutableWire k raise send cancel log assign choose foreach script call extension := w in
  choose ← optionally (λ '(mkChoose branches otherwise),
    branches ← collectEach (λ i '(mkBranch condition actions),
      actions ← decodeBlocks_with decodeExecutable actions (index (path +:+ ".choose.branches") i +:+ ".actions");
      Ok (mkBranch condition actions)) 0 branches;
    otherwise ← decodeBlocks_with decodeExecutable otherwise (path +:+ ".choose.else");
    Ok (mkChoose branches otherwise)) choose;
  foreach ← optionally (λ '(mkForEach array item idx actions),
    actions ← decodeBlocks_with decodeExecutable actions (path +:+ ".foreach.actions");
    Ok (mkForEach array item idx actions)) foreach;
  Ok (mkExecutable k raise send cancel log assign choose foreach script call extension).

Definition decodeBlocks : list executableBlockWire → string → result (list ExecutableBlock) := decodeBlocks_with decodeExecutable.

Definition decodeInvoke (w : invokeWire) (path : string) : result InvokeDefinition :=
  finalize ← decodeBlocks (iw_Finalize w) (path +:+ ".finalize");
  Ok (mkInvokeDefinition (iw_DefinitionID w) (iw_ID w) (iw_IDLocation w) (iw_Type w) (iw_TypeExpr w) (iw_Src w)
        (iw_SrcExpr w) (iw_Params w) (iw_Content w) (iw_AutoForward w) finalize).

Definition decodeTransition (w : transitionWire) (path : string) : result TransitionDefinition :=
  actions ← decodeBlocks (tw_Actions w) (path +:+ ".actions");
  Ok (mkTransitionDefinition (tw_Events w) (tw_Targets w) (tw_Type w) (tw_Condition w) actions).

Fixpoint decodeState (w : stateWire) (path : string) {struct w} : result StateDefinition :=
  kind ← parseStateKind (sw_Kind w) (path +:+ ".kind");
  history ← parseHistoryKind (sw_History w) kind (path +:+ ".history");
  initial ← optionally (λ t, decodeTransition t (path +:+ ".initial")) (sw_Initial w);
  onEntry ← decodeBlocks (sw_OnEntry w) (path +:+ ".onEntry");
  onExit ← decodeBlocks (sw_OnExit w) (path +:+ ".onExit");
  transitions ← collectEach (λ i t, decodeTransition t (index (path +:+ ".transitions") i)) 0 (sw_Transitions w);
  invokes ← collectEach (λ i v, decodeInvoke v (index (path +:+ ".invokes") i)) 0 (sw_Invokes w);
  children ← collectEach (λ i c, decodeState c (index (path +:+ ".children") i)) 0 (sw_Children w);
  Ok (mkStateDefinition (sw_ID w) kind history initial onEntry onExit transitions invokes (sw_Data w)
        ((λ d, mkDoneData (dw_Params d) (dw_Content d)) <$> sw_DoneData w) children).

Definition decodeDefinition (w : definitionWire) (path : string) : result ChartDefinition :=
  root ← decodeState (xw_Root w) (path +:+ ".root");
  Ok (mkDefinition (xw_ID w) (xw_Name w) (xw_Datamodel w) (xw_RevisionSalt w) (xw_DataBinding w) (xw_Data w) root).

(** ** Wire structs, written by their tags *)

Definition text (s : string) : result JSON := Ok (JString s).

Definition marshalExpression (e : Expression) : result JSON :=
  object [always "kind" (text (xp_Kind e)); always "data" (marshalValue (xp_Data e))].

Definition marshalParam (q : ParamDefinition) : result JSON :=
  object [always "name" (text (pd_Name q)); omitNil "expr" marshalExpression (pd_Expr q);
          omitNil "location" marshalExpression (pd_Location q)].

Definition marshalFunction (r : FunctionRef) : result JSON :=
  object [always "name" (text (fr_Name r)); always "version" (text (fr_Version r));
          omitEmpty "args" marshalExpression (fr_Args r)].

Definition marshalDatum (d : DataDefinition) : result JSON :=
  object [always "id" (text (da_ID d)); omitBlank "source" (da_Source d);
          omitNil "expr" marshalExpression (da_Expr d); omitNil "content" marshalExpression (da_Content d)].

Definition marshalRaise (r : RaiseDefinition) : result JSON :=
  object [omitBlank "event" (rd_Event r); omitNil "eventExpr" marshalExpression (rd_EventExpr r);
          omitNil "data" marshalExpression (rd_Data r)].

Definition marshalSend (s : SendDefinition) : result JSON :=
  object [omitBlank "event" (sn_Event s); omitNil "eventExpr" marshalExpression (sn_EventExpr s);
          omitBlank "target" (sn_Target s); omitNil "targetExpr" marshalExpression (sn_TargetExpr s);
          omitBlank "type" (sn_Type s); omitNil "typeExpr" marshalExpression (sn_TypeExpr s);
          omitBlank "id" (sn_ID s); omitNil "idLocation" marshalExpression (sn_IDLocation s);
          omitBlank "delay" (sn_Delay s); omitNil "delayExpr" marshalExpression (sn_DelayExpr s);
          omitEmpty "params" marshalParam (sn_Params s); omitNil "content" marshalExpression (sn_Content s)].

Definition marshalCancel (c : CancelDefinition) : result JSON :=
  object [omitBlank "sendID" (cn_SendID c); omitNil "sendIDExpr" marshalExpression (cn_SendIDExpr c)].

Definition marshalLog (l : LogDefinition) : result JSON :=
  object [omitBlank "label" (lg_Label l); omitNil "labelExpr" marshalExpression (lg_LabelExpr l);
          omitNil "expr" marshalExpression (lg_Expr l)].

Definition marshalAssign (a : AssignDefinition) : result JSON :=
  object [always "location" (marshalExpression (as_Location a)); always "expr" (marshalExpression (as_Expr a))].

Definition marshalScript (s : ScriptDefinition) : result JSON := object [always "expr" (marshalExpression (sc_Expr s))].

Definition marshalCall (c : CallDefinition) : result JSON := object [always "function" (marshalFunction (cl_Function c))].

Definition marshalExtension (x : ExtensionDefinition) : result JSON :=
  object [always "namespace" (text (xt_Namespace x)); always "name" (text (xt_Name x));
          always "data" (marshalValue (xt_Data x))].

Section marshalBlocks.
Variable marshalExecutable : executableWire → result JSON.

Definition marshalBlock : executableBlockWire → result JSON := marshalList marshalExecutable.

Definition marshalBranch (b : chooseBranchWire) : result JSON :=
  let 'mkBranch condition actions := b in
  object [always "condition" (marshalExpression condition); omitEmpty "actions" marshalBlock actions].

Definition marshalChoose (c : chooseWire) : result JSON :=
  let 'mkChoose branches otherwise := c in
  object [always "branches" (marshalList marshalBranch branches); omitEmpty "else" marshalBlock otherwise].

Definition marshalForEach (f : forEachWire) : result JSON :=
  let 'mkForEach array item idx actions := f in
  object [always "array" (marshalExpression array); always "item" (text item); omitBlank "index" idx;
          omitEmpty "actions" marshalBlock actions].
End marshalBlocks.

Fixpoint marshalExecutable (w : executableWire) : result JSON :=
  let 'mkExecutableWire k raise send cancel log assign choose foreach script call extension := w in
  object [always "kind" (text k); omitNil "raise" marshalRaise raise; omitNil "send" marshalSend send;
          omitNil "cancel" marshalCancel cancel; omitNil "log" marshalLog log; omitNil "assign" marshalAssign assign;
          omitNil "choose" (marshalChoose marshalExecutable) choose;
          omitNil "foreach" (marshalForEach marshalExecutable) foreach;
          omitNil "script" marshalScript script; omitNil "call" marshalCall call;
          omitNil "extension" marshalExtension extension].

Definition omitBlocks (name : string) : list executableBlockWire → field := omitEmpty name (marshalBlock marshalExecutable).

Definition marshalDoneData (d : doneDataWire) : result JSON :=
  object [omitEmpty "params" marshalParam (dw_Params d); omitNil "content" marshalExpression (dw_Content d)].

Definition marshalInvoke (w : invokeWire) : result JSON :=
  object [omitBlank "definitionId" (iw_DefinitionID w); omitBlank "id" (iw_ID w);
          omitNil "idLocation" marshalExpression (iw_IDLocation w);
          omitBlank "type" (iw_Type w); omitNil "typeExpr" marshalExpression (iw_TypeExpr w);
          omitBlank "src" (iw_Src w); omitNil "srcExpr" marshalExpression (iw_SrcExpr w);
          omitEmpty "params" marshalParam (iw_Params w); omitNil "content" marshalExpression (iw_Content w);
          omitFalse "autoForward" (iw_AutoForward w); omitBlocks "finalize" (iw_Finalize w)].

Definition marshalTransition (w : transitionWire) : result JSON :=
  object [omitEmpty "events" text (tw_Events w); omitEmpty "targets" text (tw_Targets w); omitBlank "type" (tw_Type w);
          omitNil "condition" marshalExpression (tw_Condition w); omitBlocks "actions" (tw_Actions w)].

Definition marshalStateID (id : StateDefinitionID) : result JSON :=
  object [omitBlank "value" (sid_Value id); omitFalse "generated" (sid_Generated id)].

Fixpoint marshalState (w : stateWire) : result JSON :=
  let 'mkStateWire id kind history initial onEntry onExit transitions invokes data doneData children := w in
  object [always "id" (marshalStateID id); always "kind" (text kind); omitBlank "history" history;
          omitNil "initial" marshalTransition initial; omitBlocks "onEntry" onEntry; omitBlocks "onExit" onExit;
          omitEmpty "transitions" marshalTransition transitions; omitEmpty "invokes" marshalInvoke invokes;
          omitEmpty "data" marshalDatum data; omitNil "doneData" marshalDoneData doneData;
          omitEmpty "children" marshalState children].

Definition marshalDefinition (w : definitionWire) : result JSON :=
  object [always "id" (text (xw_ID w)); omitBlank "name" (xw_Name w); always "datamodel" (text (xw_Datamodel w));
          omitBlank "revisionSalt" (xw_RevisionSalt w); omitBlank "dataBinding" (xw_DataBinding w);
          omitEmpty "data" marshalDatum (xw_Data w); always "root" (marshalState (xw_Root w))].

(** ** Wire structs, read by their tags *)

Abbreviation readString name m := (withField decString (Ok "") name m).
Abbreviation readBool name m := (withField decBool (Ok false) name m).
Abbreviation readPtr f name m := (withField (decPtr f) (Ok None) name m).
Abbreviation readList f name m := (withField (decList f) (Ok []) name m).

Definition zeroExpression : Expression := mkExpression "" NullValue.

Definition decExpression : JSON → result Expression :=
  decStruct ["kind"; "data"] zeroExpression (λ m,
    kind ← readString "kind" m; data ← withField decValue (Ok NullValue) "data" m; Ok (mkExpression kind data)).

Abbreviation readExpr name m := (readPtr decExpression name m).

Definition decParam : JSON → result ParamDefinition :=
  decStruct ["name"; "expr"; "location"] (mkParamDefinition "" None None) (λ m,
    name ← readString "name" m; expr ← readExpr "expr" m; location ← readExpr "location" m;
    Ok (mkParamDefinition name expr location)).

Definition decFunction : JSON → result FunctionRef :=
  decStruct ["name"; "version"; "args"] (mkFunctionRef "" "" []) (λ m,
    name ← readString "name" m; version ← readString "version" m; args ← readList decExpression "args" m;
    Ok (mkFunctionRef name version args)).

Definition decDatum : JSON → result DataDefinition :=
  decStruct ["id"; "source"; "expr"; "content"] (mkDataDefinition "" "" None None) (λ m,
    id ← readString "id" m; source ← readString "source" m; expr ← readExpr "expr" m; content ← readExpr "content" m;
    Ok (mkDataDefinition id source expr content)).

Definition decRaise : JSON → result RaiseDefinition :=
  decStruct ["event"; "eventExpr"; "data"] (mkRaise "" None None) (λ m,
    event ← readString "event" m; eventExpr ← readExpr "eventExpr" m; data ← readExpr "data" m;
    Ok (mkRaise event eventExpr data)).

Definition sendFields : list string :=
  ["event"; "eventExpr"; "target"; "targetExpr"; "type"; "typeExpr"; "id"; "idLocation"; "delay"; "delayExpr"; "params"; "content"].

Definition decSend : JSON → result SendDefinition :=
  decStruct sendFields (mkSend "" None "" None "" None "" None "" None [] None) (λ m,
    event ← readString "event" m; eventExpr ← readExpr "eventExpr" m;
    target ← readString "target" m; targetExpr ← readExpr "targetExpr" m;
    type ← readString "type" m; typeExpr ← readExpr "typeExpr" m;
    id ← readString "id" m; idLocation ← readExpr "idLocation" m;
    delay ← readString "delay" m; delayExpr ← readExpr "delayExpr" m;
    params ← readList decParam "params" m; content ← readExpr "content" m;
    Ok (mkSend event eventExpr target targetExpr type typeExpr id idLocation delay delayExpr params content)).

Definition decCancel : JSON → result CancelDefinition :=
  decStruct ["sendID"; "sendIDExpr"] (mkCancel "" None) (λ m,
    sendID ← readString "sendID" m; sendIDExpr ← readExpr "sendIDExpr" m; Ok (mkCancel sendID sendIDExpr)).

Definition decLog : JSON → result LogDefinition :=
  decStruct ["label"; "labelExpr"; "expr"] (mkLog "" None None) (λ m,
    label ← readString "label" m; labelExpr ← readExpr "labelExpr" m; expr ← readExpr "expr" m;
    Ok (mkLog label labelExpr expr)).

Definition decAssign : JSON → result AssignDefinition :=
  decStruct ["location"; "expr"] (mkAssign zeroExpression zeroExpression) (λ m,
    location ← withField decExpression (Ok zeroExpression) "location" m;
    expr ← withField decExpression (Ok zeroExpression) "expr" m; Ok (mkAssign location expr)).

Definition decScript : JSON → result ScriptDefinition :=
  decStruct ["expr"] (mkScript zeroExpression) (λ m,
    expr ← withField decExpression (Ok zeroExpression) "expr" m; Ok (mkScript expr)).

Definition decCall : JSON → result CallDefinition :=
  decStruct ["function"] (mkCall (mkFunctionRef "" "" [])) (λ m,
    function ← withField decFunction (Ok (mkFunctionRef "" "" [])) "function" m; Ok (mkCall function)).

Definition decExtension : JSON → result ExtensionDefinition :=
  decStruct ["namespace"; "name"; "data"] (mkExtension "" "" NullValue) (λ m,
    namespace ← readString "namespace" m; name ← readString "name" m;
    data ← withField decValue (Ok NullValue) "data" m; Ok (mkExtension namespace name data)).

Section decBlocks.
Variable decExecutable : JSON → result executableWire.

Definition decBranch : JSON → result chooseBranchWire :=
  decStruct ["condition"; "actions"] (mkBranch zeroExpression []) (λ m,
    condition ← withField decExpression (Ok zeroExpression) "condition" m;
    actions ← readList (decList decExecutable) "actions" m; Ok (mkBranch condition actions)).

Definition decChoose : JSON → result chooseWire :=
  decStruct ["branches"; "else"] (mkChoose [] []) (λ m,
    branches ← readList decBranch "branches" m;
    otherwise ← readList (decList decExecutable) "else" m; Ok (mkChoose branches otherwise)).

Definition decForEach : JSON → result forEachWire :=
  decStruct ["array"; "item"; "index"; "actions"] (mkForEach zeroExpression "" "" []) (λ m,
    array ← withField decExpression (Ok zeroExpression) "array" m;
    item ← readString "item" m; idx ← readString "index" m;
    actions ← readList (decList decExecutable) "actions" m; Ok (mkForEach array item idx actions)).
End decBlocks.

Definition payloads : list string :=
  ["raise"; "send"; "cancel"; "log"; "assign"; "choose"; "foreach"; "script"; "call"; "extension"].

Fixpoint decExecutable (j : JSON) : result executableWire :=
  decStruct ("kind" :: payloads) (mkExecutableWire "" None None None None None None None None None None) (λ m,
    kind ← readString "kind" m;
    raise ← readPtr decRaise "raise" m; send ← readPtr decSend "send" m; cancel ← readPtr decCancel "cancel" m;
    log ← readPtr decLog "log" m; assign ← readPtr decAssign "assign" m;
    choose ← readPtr (decChoose decExecutable) "choose" m; foreach ← readPtr (decForEach decExecutable) "foreach" m;
    script ← readPtr decScript "script" m; call ← readPtr decCall "call" m;
    extension ← readPtr decExtension "extension" m;
    Ok (mkExecutableWire kind raise send cancel log assign choose foreach script call extension)) j.

Abbreviation readBlocks name m := (readList (decList decExecutable) name m).

Definition decDoneData : JSON → result doneDataWire :=
  decStruct ["params"; "content"] (mkDoneDataWire [] None) (λ m,
    params ← readList decParam "params" m; content ← readExpr "content" m; Ok (mkDoneDataWire params content)).

Definition invokeFields : list string :=
  ["definitionId"; "id"; "idLocation"; "type"; "typeExpr"; "src"; "srcExpr"; "params"; "content"; "autoForward"; "finalize"].

Definition decInvoke : JSON → result invokeWire :=
  decStruct invokeFields (mkInvokeWire "" "" None "" None "" None [] None false []) (λ m,
    definitionID ← readString "definitionId" m; id ← readString "id" m; idLocation ← readExpr "idLocation" m;
    type ← readString "type" m; typeExpr ← readExpr "typeExpr" m; src ← readString "src" m; srcExpr ← readExpr "srcExpr" m;
    params ← readList decParam "params" m; content ← readExpr "content" m; autoForward ← readBool "autoForward" m;
    finalize ← readBlocks "finalize" m;
    Ok (mkInvokeWire definitionID id idLocation type typeExpr src srcExpr params content autoForward finalize)).

Definition decTransition : JSON → result transitionWire :=
  decStruct ["events"; "targets"; "type"; "condition"; "actions"] (mkTransitionWire [] [] "" None []) (λ m,
    events ← readList decString "events" m; targets ← readList decString "targets" m; type ← readString "type" m;
    condition ← readExpr "condition" m; actions ← readBlocks "actions" m;
    Ok (mkTransitionWire events targets type condition actions)).

Definition decStateID : JSON → result StateDefinitionID :=
  decStruct ["value"; "generated"] (mkStateID "" false) (λ m,
    value ← readString "value" m; generated ← readBool "generated" m; Ok (mkStateID value generated)).

Definition stateFields : list string :=
  ["id"; "kind"; "history"; "initial"; "onEntry"; "onExit"; "transitions"; "invokes"; "data"; "doneData"; "children"].

Definition zeroState : stateWire := mkStateWire (mkStateID "" false) "" "" None [] [] [] [] [] None [].

Fixpoint decState (j : JSON) : result stateWire :=
  decStruct stateFields zeroState (λ m,
    id ← withField decStateID (Ok (mkStateID "" false)) "id" m; kind ← readString "kind" m; history ← readString "history" m;
    initial ← readPtr decTransition "initial" m; onEntry ← readBlocks "onEntry" m; onExit ← readBlocks "onExit" m;
    transitions ← readList decTransition "transitions" m; invokes ← readList decInvoke "invokes" m;
    data ← readList decDatum "data" m; doneData ← readPtr decDoneData "doneData" m;
    children ← readList decState "children" m;
    Ok (mkStateWire id kind history initial onEntry onExit transitions invokes data doneData children)) j.

Definition definitionFields : list string := ["id"; "name"; "datamodel"; "revisionSalt"; "dataBinding"; "data"; "root"].

Definition decDefinition : JSON → result definitionWire :=
  decStruct definitionFields (mkDefinitionWire "" "" "" "" "" [] zeroState) (λ m,
    id ← readString "id" m; name ← readString "name" m; datamodel ← readString "datamodel" m;
    revisionSalt ← readString "revisionSalt" m; dataBinding ← readString "dataBinding" m;
    data ← readList decDatum "data" m; root ← withField decState (Ok zeroState) "root" m;
    Ok (mkDefinitionWire id name datamodel revisionSalt dataBinding data root)).
