(* ===== verification/JSONInspect.v ===== *)
(** * Reading definitions strictly (syntax/json/codec.go)

    The checks that [Unmarshal] makes before it decodes: no nulls and no repeated
    fields in the document, and in the tree only known fields of the right types,
    each error with the path of the offending node; then [Marshal] and
    [Unmarshal] themselves. *)

From S2P Require Import Prelude Identifier Values Events Datamodel Chart Steps Definitions Validate Compile JSONTree JSONSyntax.
From stdpp Require Import options.

(** ** The document: nulls and repeated fields *)

(** The recursion of [inspectJSONValue], with the two loops of its switch; every
    call takes a token.  A closing delimiter cannot be the first token of a value:
    the decoder reports it as an error. *)
Fixpoint inspectJSONValue (fuel : nat) (ts : document) (path : string) {struct fuel} : result document :=
  match fuel with
  | 0 => Err (jsonError path ioEOF)
  | S fuel =>
      r ← orPath path (Token ts);
      match r.1 with
      | TokNull => pathError path "null is not valid; omit an optional field instead"
      | TokOpenObject => inspectJSONFields fuel ∅ r.2 path
      | TokOpenArray => inspectJSONItems fuel 0 r.2 path
      | TokClose => pathError path "unexpected JSON delimiter"
      | _ => Ok r.2
      end
  end
with inspectJSONFields (fuel : nat) (seen : gset string) (ts : document) (path : string) {struct fuel} : result document :=
  match fuel with
  | 0 => Err (jsonError path ioEOF)
  | S fuel =>
      if More ts then
        r ← orPath path (Token ts);
        match r.1 with
        | TokString key =>
            let fieldPath := path +:+ "." +:+ key in
            if decide (key ∈ seen) then pathError fieldPath ("duplicate field " +:+ quote key) else
            ts ← inspectJSONValue fuel r.2 fieldPath;
            inspectJSONFields fuel ({[key]} ∪ seen) ts path
        | _ => pathError path "object field name must be a string"
        end
      else r ← orPath path (Token ts); Ok r.2
  end
with inspectJSONItems (fuel : nat) (i : N) (ts : document) (path : string) {struct fuel} : result document :=
  match fuel with
  | 0 => Err (jsonError path ioEOF)
  | S fuel =>
      if More ts then
        ts ← inspectJSONValue fuel ts (index path i);
        inspectJSONItems fuel (i + 1) ts path
      else r ← orPath path (Token ts); Ok r.2
  end.

(** [decoder.Token()] returns [io.EOF] at the end of the document only. *)
Definition inspectJSONDocument (data : document) (path : string) : result unit :=
  ts ← inspectJSONValue (S (length data)) data path;
  match ts with
  | [] => Ok ()
  | _ =>
      match Token ts with
      | Ok _ => pathError path "trailing JSON value"
      | Err e => Err (jsonError path (Wrapf "trailing data: " e))
      end
  end.

(** ** The tree *)

(** A nil [any] is [JNil], as is a field that is not there. *)
Abbreviation get := (withField id JNil).

(** [m, err := asObject(value, path); if err != nil { return err }; return f(m)],
    and the same for [array]. *)
Definition withObject (value : JSON) (path : string) (f : list (string * JSON) → result unit) : result unit :=
  match value with JMap m => f m | _ => pathError path "must be an object" end.
Definition withArray (value : JSON) (path : string) (f : list JSON → result unit) : result unit :=
  match value with JList l => f l | _ => pathError path "must be an array" end.

Definition checkAllowed (m : list (string * JSON)) (path : string) (allowed : list string) : result unit :=
  match filter (λ k, k ∉ allowed) (merge_sort string_le m.*1) with
  | [] => Ok ()
  | k :: _ => pathError (path +:+ "." +:+ k) ("unknown field " +:+ quote k)
  end.

Definition inspectStringFields (m : list (string * JSON)) (path : string) (names : list string) : result unit :=
  checkEach (λ _ name, withField (λ j,
    match j with JString _ => Ok () | _ => pathError (path +:+ "." +:+ name) "must be a string" end) (Ok ()) name m) 0 names.

Definition inspectBoolFields (m : list (string * JSON)) (path : string) (names : list string) : result unit :=
  checkEach (λ _ name, withField (λ j,
    match j with JBool _ => Ok () | _ => pathError (path +:+ "." +:+ name) "must be a boolean" end) (Ok ()) name m) 0 names.

Definition inspectStringListField (m : list (string * JSON)) (name path : string) : result unit :=
  withField (λ j,
    withArray j (path +:+ "." +:+ name) (checkEach (λ i item,
      match item with JString _ => Ok () | _ => pathError (index (path +:+ "." +:+ name) i) "must be a string" end) 0))
    (Ok ()) name m.

Section inspectors.
Variable inspect : JSON → string → result unit.

Definition inspectOptional (m : list (string * JSON)) (name path : string) : result unit :=
  withField (λ j, match j with JNil => Ok () | _ => inspect j (path +:+ "." +:+ name) end) (Ok ()) name m.

Definition inspectListField (m : list (string * JSON)) (name path : string) : result unit :=
  withField (λ j,
    match j with
    | JNil => Ok ()
    | _ =>
        withArray j (path +:+ "." +:+ name) (checkEach (λ i item, inspect item (index (path +:+ "." +:+ name) i)) 0)
    end) (Ok ()) name m.

(** [inspectBlocksField], for the inspector of the nodes in the blocks. *)
Definition inspectBlocksField_with (m : list (string * JSON)) (name path : string) : result unit :=
  withField (λ j,
    match j with
    | JNil => Ok ()
    | _ =>
        withArray j (path +:+ "." +:+ name) (checkEach (λ i block,
          withArray block (index (path +:+ "." +:+ name) i)
            (checkEach (λ k item, inspect item (index (index (path +:+ "." +:+ name) i) k)) 0)) 0)
    end) (Ok ()) name m.
End inspectors.

Definition inspectStateID (value : JSON) (path : string) : result unit :=
  withObject value path (λ m,
  _ ← checkAllowed m path ["value"; "generated"];
  _ ← inspectStringFields m path ["value"];
  inspectBoolFields m path ["generated"]).

(** The entries of a map are checked in the order of their keys: [entryOrder]. *)
Definition entryOrder (a b : string * result unit) : Prop := string_le a.1 b.1.
#[global] Instance entryOrder_dec a b : Decision (entryOrder a b) := decide (string_le a.1 b.1).

Fixpoint firstError (rs : list (string * result unit)) : result unit :=
  match rs with [] => Ok () | (_, r) :: rs => _ ← r; firstError rs end.

Fixpoint inspectValue (value : JSON) (path : string) {struct value} : result unit :=
  withObject value path (λ m,
  _ ← checkAllowed m path ["version"; "kind"; "bool"; "string"; "number"; "list"; "map"; "tag"; "payload"];
  _ ← withField (λ j, match j with JNumber _ => Ok () | _ => pathError (path +:+ ".version") "must be a number" end)
        (Ok ()) "version" m;
  _ ← inspectStringFields m path ["kind"; "string"; "number"; "tag"];
  _ ← inspectBoolFields m path ["bool"];
  _ ← withField (λ j,
        withArray j (path +:+ ".list") (checkEach (λ i item, inspectValue item (index (path +:+ ".list") i)) 0)) (Ok ()) "list" m;
  _ ← withField (λ j,
        withObject j (path +:+ ".map") (λ entries,
        firstError (merge_sort entryOrder
          (map (λ '(k, v), (k, inspectValue v (path +:+ ".map[" +:+ quote k +:+ "]"))) entries)))) (Ok ()) "map" m;
  _ ← withField (λ j, inspectValue j (path +:+ ".payload")) (Ok ()) "payload" m;
  match decValue value with Ok _ => Ok () | Err e => pathError path (msg e) end).

Definition inspectExpression (value : JSON) (path : string) : result unit :=
  withObject value path (λ m,
  _ ← checkAllowed m path ["kind"; "data"];
  _ ← inspectStringFields m path ["kind"];
  inspectValue (get "data" m) (path +:+ ".data")).

(** A list of objects, absent or present, each with known, string and expression
    fields: the common part of [inspectDataList] and [inspectParams]. *)
Definition inspectItems (value : JSON) (path : string) (allowed strings : list string) (exprs : string * string)
    : result unit :=
  match value with
  | JNil => Ok ()
  | _ =>
      withArray value path (checkEach (λ i item,
        let itemPath := index path i in
        withObject item itemPath (λ m,
        _ ← checkAllowed m itemPath allowed;
        _ ← inspectStringFields m itemPath strings;
        _ ← inspectOptional inspectExpression m exprs.1 itemPath;
        inspectOptional inspectExpression m exprs.2 itemPath)) 0)
  end.

Definition inspectDataList (value : JSON) (path : string) : result unit :=
  inspectItems value path ["id"; "source"; "expr"; "content"] ["id"; "source"] ("expr", "content").
Definition inspectParams (value : JSON) (path : string) : result unit :=
  inspectItems value path ["name"; "expr"; "location"] ["name"] ("expr", "location").

Definition inspectExpressionFields (value : JSON) (path : string) (allowed exprs strings : list string) : result unit :=
  withObject value path (λ m,
  _ ← checkAllowed m path allowed;
  _ ← inspectStringFields m path strings;
  _ ← checkEach (λ _ name, inspectOptional inspectExpression m name path) 0 exprs;
  withField (λ params, inspectParams params (path +:+ ".params")) (Ok ()) "params" m).

Definition inspectCall (value : JSON) (path : string) : result unit :=
  withObject value path (λ m,
  _ ← checkAllowed m path ["function"];
  withObject (get "function" m) (path +:+ ".function") (λ function,
  _ ← checkAllowed function (path +:+ ".function") ["name"; "version"; "args"];
  _ ← inspectStringFields function (path +:+ ".function") ["name"; "version"];
  withField (λ args,
    withArray args (path +:+ ".function.args") (checkEach (λ i item, inspectExpression item (index (path +:+ ".function.args") i)) 0)) (Ok ()) "args" function)).

Definition inspectExtension (value : JSON) (path : string) : result unit :=
  withObject value path (λ m,
  _ ← checkAllowed m path ["namespace"; "name"; "data"];
  _ ← inspectStringFields m path ["namespace"; "name"];
  inspectValue (get "data" m) (path +:+ ".data")).

Section nested.
Variable inspectExecutable : JSON → string → result unit.

Definition inspectBranch (item : JSON) (branchPath : string) : result unit :=
  withObject item branchPath (λ branch,
  _ ← checkAllowed branch branchPath ["condition"; "actions"];
  _ ← inspectExpression (get "condition" branch) (branchPath +:+ ".condition");
  inspectBlocksField_with inspectExecutable branch "actions" branchPath).

Definition inspectChoose (value : JSON) (path : string) : result unit :=
  withObject value path (λ m,
  _ ← checkAllowed m path ["branches"; "else"];
  _ ← withField (λ branches,
        withArray branches (path +:+ ".branches") (checkEach (λ i item, inspectBranch item (index (path +:+ ".branches") i)) 0)) (Ok ()) "branches" m;
  inspectBlocksField_with inspectExecutable m "else" path).

Definition inspectForEach (value : JSON) (path : string) : result unit :=
  withObject value path (λ m,
  _ ← checkAllowed m path ["array"; "item"; "index"; "actions"];
  _ ← inspectStringFields m path ["item"; "index"];
  _ ← inspectExpression (get "array" m) (path +:+ ".array");
  inspectBlocksField_with inspectExecutable m "actions" path).

(** The switch of [inspectExecutable]. *)
Definition inspectPayload (kind : string) (payload : JSON) (path : string) : result unit :=
  if decide (kind = "raise") then
    inspectExpressionFields payload (path +:+ ".raise") ["event"; "eventExpr"; "data"] ["eventExpr"; "data"] ["event"]
  else if decide (kind = "send") then
    inspectExpressionFields payload (path +:+ ".send")
      ["event"; "eventExpr"; "target"; "targetExpr"; "type"; "typeExpr"; "id"; "idLocation"; "delay"; "delayExpr"; "params"; "content"]
      ["eventExpr"; "targetExpr"; "typeExpr"; "idLocation"; "delayExpr"; "content"]
      ["event"; "target"; "type"; "id"; "delay"]
  else if decide (kind = "cancel") then
    inspectExpressionFields payload (path +:+ ".cancel") ["sendID"; "sendIDExpr"] ["sendIDExpr"] ["sendID"]
  else if decide (kind = "log") then
    inspectExpressionFields payload (path +:+ ".log") ["label"; "labelExpr"; "expr"] ["labelExpr"; "expr"] ["label"]
  else if decide (kind = "assign") then
    inspectExpressionFields payload (path +:+ ".assign") ["location"; "expr"] ["location"; "expr"] []
  else if decide (kind = "script") then inspectExpressionFields payload (path +:+ ".script") ["expr"] ["expr"] []
  else if decide (kind = "choose") then inspectChoose payload (path +:+ ".choose")
  else if decide (kind = "foreach") then inspectForEach payload (path +:+ ".foreach")
  else if decide (kind = "call") then inspectCall payload (path +:+ ".call")
  else if decide (kind = "extension") then inspectExtension payload (path +:+ ".extension")
  else Ok ().
End nested.

(** The payloads that an object has, in the order of the list. *)
Definition presentPayloads (m : list (string * JSON)) : list string :=
  filter (λ p, withField (λ _, true) false p m = true) payloads.

Fixpoint inspectExecutable (value : JSON) (path : string) {struct value} : result unit :=
  withObject value path (λ m,
  _ ← checkAllowed m path ("kind" :: payloads);
  kind ← match get "kind" m with JString kind => Ok kind | _ => pathError (path +:+ ".kind") "must be a string" end;
  _ ← fail_if (bool_decide (kind ∉ payloads))
        (jsonError (path +:+ ".kind") (Errorf ("unknown executable kind " +:+ quote kind)));
  _ ← fail_if (bool_decide (presentPayloads m ≠ [kind]))
        (jsonError path (Errorf ("executable kind " +:+ quote kind +:+ " requires exactly its matching payload")));
  withField (λ payload, inspectPayload inspectExecutable kind payload path) (Ok ()) kind m).

Definition inspectBlocksField : list (string * JSON) → string → string → result unit :=
  inspectBlocksField_with inspectExecutable.

Definition inspectTransition (value : JSON) (path : string) : result unit :=
  withObject value path (λ m,
  _ ← checkAllowed m path ["events"; "targets"; "type"; "condition"; "actions"];
  _ ← inspectStringListField m "events" path;
  _ ← inspectStringListField m "targets" path;
  _ ← inspectStringFields m path ["type"];
  _ ← inspectOptional inspectExpression m "condition" path;
  inspectBlocksField m "actions" path).

Definition inspectInvoke (value : JSON) (path : string) : result unit :=
  withObject value path (λ m,
  _ ← checkAllowed m path ["definitionId"; "id"; "idLocation"; "type"; "typeExpr"; "src"; "srcExpr"; "params"; "content"; "autoForward"; "finalize"];
  _ ← inspectStringFields m path ["definitionId"; "id"; "type"; "src"];
  _ ← inspectBoolFields m path ["autoForward"];
  _ ← checkEach (λ _ name, inspectOptional inspectExpression m name path) 0 ["idLocation"; "typeExpr"; "srcExpr"; "content"];
  _ ← inspectParams (get "params" m) (path +:+ ".params");
  inspectBlocksField m "finalize" path).

Definition inspectDoneData (value : JSON) (path : string) : result unit :=
  withObject value path (λ m,
  _ ← checkAllowed m path ["params"; "content"];
  _ ← inspectParams (get "params" m) (path +:+ ".params");
  inspectOptional inspectExpression m "content" path).

(** The kind and history checks of [inspectState]; an absent kind is [""]. *)
Definition inspectKinds (m : list (string * JSON)) (path : string) : result unit :=
  let kind := match get "kind" m with JString k => k | _ => "" end in
  parsed ← parseStateKind kind (path +:+ ".kind");
  withField (λ history,
    match history with
    | JString h => _ ← parseHistoryKind h parsed (path +:+ ".history"); Ok ()
    | _ => pathError (path +:+ ".history") "must be a string"
    end) (Ok ()) "history" m.

Fixpoint inspectState (value : JSON) (path : string) {struct value} : result unit :=
  withObject value path (λ m,
  _ ← checkAllowed m path ["id"; "kind"; "history"; "initial"; "onEntry"; "onExit"; "transitions"; "invokes"; "data"; "doneData"; "children"];
  _ ← inspectStateID (get "id" m) (path +:+ ".id");
  _ ← inspectStringFields m path ["kind"; "history"];
  _ ← inspectKinds m path;
  _ ← inspectOptional inspectTransition m "initial" path;
  _ ← inspectBlocksField m "onEntry" path;
  _ ← inspectBlocksField m "onExit" path;
  _ ← inspectListField inspectTransition m "transitions" path;
  _ ← inspectListField inspectInvoke m "invokes" path;
  _ ← inspectDataList (get "data" m) (path +:+ ".data");
  _ ← inspectOptional inspectDoneData m "doneData" path;
  inspectListField inspectState m "children" path).

Definition inspectDefinition (value : JSON) (path : string) : result unit :=
  withObject value path (λ m,
  _ ← checkAllowed m path ["id"; "name"; "datamodel"; "revisionSalt"; "dataBinding"; "data"; "root"];
  _ ← inspectStringFields m path ["id"; "name"; "datamodel"; "revisionSalt"; "dataBinding"];
  _ ← inspectDataList (get "data" m) (path +:+ ".data");
  inspectState (get "root" m) (path +:+ ".root")).

(** ** Marshal and Unmarshal *)

(** [Marshal], and [MarshalIndent], whose document is the same. *)
Definition Marshal (d : ChartDefinition) : result document :=
  wire ← encodeDefinition d;
  tokens <$> orPath "definition" (marshalDefinition wire).

(** [decoder.Decode(&struct{}{}); err != io.EOF]. *)
Definition atEOF (rest : document) : result unit :=
  match rest with
  | [] => Ok ()
  | _ =>
      match Decode rest with
      | Ok (JMap _, _) | Ok (JNil, _) => pathError "definition" "trailing JSON value"
      | Ok (j, _) => Err (jsonError "definition" (Wrapf "trailing data: " (unmarshalTypeError (jsonKind j) "struct {}")))
      | Err e => Err (jsonError "definition" (Wrapf "trailing data: " e))
      end
  end.

(** The strict decoder reads the same document as the first one. *)
Definition Unmarshal (data : document) : result ChartDefinition :=
  _ ← inspectJSONDocument data "definition";
  raw ← orPath "definition" (Decode data);
  _ ← atEOF raw.2;
  _ ← inspectDefinition raw.1 "definition";
  wire ← orPath "definition" (decDefinition raw.1);
  d ← decodeDefinition wire "definition";
  _ ← validated d;
  Ok d.
