(* ===== verification/JSONDocument.v ===== *)
(** * JSON documents: what is written is read back

    A [clean] tree has no nulls and no repeated keys.  The document of a clean
    tree passes [inspectJSONDocument] and is decoded to the tree; conversely a
    document that passes is decoded to a clean tree. *)

From S2P Require Import Prelude Identifier Values Events Datamodel Chart Definitions Validate Compile Validated JSONTree JSONSyntax JSONInspect.
From stdpp Require Import options.

Section json_ind.
Variable P : JSON → Prop.
Hypothesis leaf : ∀ j, (∀ l, j ≠ JList l) → (∀ m, j ≠ JMap m) → P j.
Hypothesis list_step : ∀ l, Forall P l → P (JList l).
Hypothesis map_step : ∀ m, Forall (λ kj, P kj.2) m → P (JMap m).

Fixpoint JSON_nested_ind (j : JSON) : P j.
Proof using leaf list_step map_step.
  destruct j as [| | | | | |l|m|]; try (by apply leaf).
  - apply list_step. revert l. fix go 1. intros [|j l]; constructor; [apply JSON_nested_ind | apply go].
  - apply map_step. revert m. fix go 1. intros [|[k j] m]; constructor; [apply JSON_nested_ind | apply go].
Defined.
End json_ind.

Fixpoint clean (j : JSON) : bool :=
  match j with
  | JBool _ | JString _ | JNumber _ => true
  | JList l => forallb clean l
  | JMap m => bool_decide (NoDup m.*1) && forallb (λ kj, clean kj.2) m
  | _ => false
  end.

Lemma clean_list l : clean (JList l) = true ↔ Forall (λ j, clean j = true) l.
Proof. simpl. rewrite Forall_forall, forallb_forall. setoid_rewrite list_elem_of_In. done. Qed.
Lemma clean_map m : clean (JMap m) = true ↔ NoDup m.*1 ∧ Forall (λ kj, clean kj.2 = true) m.
Proof. simpl. rewrite andb_true_iff, bool_decide_eq_true, Forall_forall, forallb_forall. setoid_rewrite list_elem_of_In. done. Qed.

(** ** Tokens of clean trees *)

Lemma tokens_head j : clean j = true →
  ∃ t ts, tokens j = t :: ts ∧ (∀ rest, More (t :: rest) = true) ∧ (∀ rest, Token (t :: rest) = Ok (t, rest)).
Proof. destruct j; intros H; try done; simpl; eauto 10. Qed.

Abbreviation fieldTokens := (flat_map (λ '(k, j), TokString k :: tokens j)).

Lemma decodeItems_more f ts : More ts = true → decodeItems (S f) ts = (r ← decodeAny f ts; r' ← decodeItems f r.2; Ok (r.1 :: r'.1, r'.2)).
Proof. by destruct ts as [|[] ts]. Qed.

Lemma putKey_fresh {A} k (j : A) (m : list (string * A)) : k ∉ m.*1 → putKey k j m = m ++ [(k, j)].
Proof.
  induction m as [|[k' j'] m IH]; [done|]. simpl. intros Hk. rewrite not_elem_of_cons in Hk. destruct Hk as [Hne Hk].
  rewrite decide_False by done. by rewrite IH.
Qed.

Lemma NoDup_keys_snoc {A} (k : string) (j : A) m m' : NoDup (m ++ (k, j) :: m').*1 → k ∉ m.*1 ∧ NoDup ((m ++ [(k, j)]) ++ m').*1.
Proof.
  intros H. split; [|by rewrite <- app_assoc]. rewrite fmap_app in H. apply NoDup_app in H as (_ & H & _).
  intros Hk. apply (H k Hk). simpl. by left.
Qed.

Lemma decodeAny_tokens j fuel rest : clean j = true → length (tokens j) ≤ fuel → decodeAny fuel (tokens j ++ rest) = Ok (j, rest).
Proof.
  revert fuel rest. induction j as [j Hl Hm|l IH|m IH] using JSON_nested_ind; intros fuel rest Hc Hf.
  - destruct j; try done; destruct fuel; [simpl in Hf; lia|done| simpl in Hf; lia|done| simpl in Hf; lia|done|..]; naive_solver.
  - apply clean_list in Hc. simpl in Hf. rewrite length_app in Hf. simpl in Hf. destruct fuel as [|fuel]; [lia|].
    assert (∀ fuel, length (flat_map tokens l) < fuel → decodeItems fuel (flat_map tokens l ++ TokClose :: rest) = Ok (l, rest)) as Hitems.
    { clear Hf fuel. induction IH as [|j l Hj _ IHl]; intros fuel Hf; [by destruct fuel; [simpl in Hf; lia|]|].
      apply Forall_cons in Hc as [Hj1 Hl1]. specialize (IHl Hl1). simpl in Hf. rewrite length_app in Hf. destruct fuel as [|fuel]; [lia|].
      simpl flat_map. rewrite <- app_assoc. destruct (tokens_head j Hj1) as (t & ts & Et & Hmore & _).
      rewrite decodeItems_more by (rewrite Et; apply Hmore). rewrite (Hj fuel) by (done || lia). simpl.
      rewrite IHl; [done|]. rewrite Et in Hf. simpl in Hf. lia. }
    simpl. rewrite <- app_assoc. simpl. rewrite Hitems by lia. done.
  - apply clean_map in Hc as [Hnd Hc]. simpl in Hf. rewrite length_app in Hf. simpl in Hf. destruct fuel as [|fuel]; [lia|].
    assert (∀ fuel m0, length (fieldTokens m) < fuel → NoDup (m0 ++ m).*1 →
      decodeFields fuel m0 (fieldTokens m ++ TokClose :: rest) = Ok (m0 ++ m, rest)) as Hfields.
    { clear Hf fuel Hnd. induction IH as [|[k j] m Hj _ IHm]; intros fuel m0 Hf Hnd.
      { destruct fuel; [simpl in Hf; lia|]. simpl. by rewrite app_nil_r. }
      apply Forall_cons in Hc as [Hj1 Hm1]. specialize (IHm Hm1). simpl in Hf. rewrite length_app in Hf. destruct fuel as [|fuel]; [lia|].
      simpl flat_map. rewrite <- app_comm_cons, <- app_assoc. simpl decodeFields. simpl in Hj. rewrite (Hj fuel) by (done || lia). simpl.
      apply NoDup_keys_snoc in Hnd as [Hk Hnd]. rewrite putKey_fresh by done. rewrite IHm; [by rewrite <- app_assoc|lia|done]. }
    simpl. rewrite <- app_assoc. simpl. rewrite Hfields by (done || lia). done.
Qed.

Lemma Decode_tokens j : clean j = true → Decode (tokens j) = Ok (j, []).
Proof.
  intros Hc. pose proof (decodeAny_tokens j (S (length (tokens j))) [] Hc ltac:(lia)) as H. rewrite app_nil_r in H.
  unfold Decode. destruct (tokens_head j Hc) as (t & ts & Et & _). by destruct (tokens j).
Qed.

Lemma inspectJSON_tokens j fuel rest path : clean j = true → length (tokens j) ≤ fuel →
  inspectJSONValue fuel (tokens j ++ rest) path = Ok rest.
Proof.
  revert fuel rest path. induction j as [j Hl Hm|l IH|m IH] using JSON_nested_ind; intros fuel rest path Hc Hf.
  - destruct j; try done; destruct fuel; [simpl in Hf; lia|done| simpl in Hf; lia|done| simpl in Hf; lia|done|..]; naive_solver.
  - apply clean_list in Hc. simpl in Hf. rewrite length_app in Hf. simpl in Hf. destruct fuel as [|fuel]; [lia|].
    assert (∀ fuel i, length (flat_map tokens l) < fuel → inspectJSONItems fuel i (flat_map tokens l ++ TokClose :: rest) path = Ok rest) as Hitems.
    { clear Hf fuel. induction IH as [|j l Hj _ IHl]; intros fuel i Hf; [by destruct fuel; [simpl in Hf; lia|]|].
      apply Forall_cons in Hc as [Hj1 Hl1]. specialize (IHl Hl1). simpl in Hf. rewrite length_app in Hf. destruct fuel as [|fuel]; [lia|].
      simpl flat_map. rewrite <- app_assoc. destruct (tokens_head j Hj1) as (t & ts & Et & Hmore & _).
      simpl inspectJSONItems. assert (More (tokens j ++ flat_map tokens l ++ TokClose :: rest) = true) as -> by (rewrite Et; apply Hmore).
      rewrite (Hj fuel) by (done || lia). simpl. apply IHl. rewrite Et in Hf. simpl in Hf. lia. }
    simpl. rewrite <- app_assoc. simpl. by apply Hitems; lia.
  - apply clean_map in Hc as [Hnd Hc]. simpl in Hf. rewrite length_app in Hf. simpl in Hf. destruct fuel as [|fuel]; [lia|].
    assert (∀ fuel (seen : gset string), length (fieldTokens m) < fuel → (∀ k, k ∈ m.*1 → k ∉ seen) →
      inspectJSONFields fuel seen (fieldTokens m ++ TokClose :: rest) path = Ok rest) as Hfields.
    { clear Hf fuel. induction IH as [|[k j] m Hj _ IHm]; intros fuel seen Hf Hseen; [by destruct fuel; [simpl in Hf; lia|]|].
      apply Forall_cons in Hc as [Hj1 Hm1]. apply NoDup_cons in Hnd as [Hk Hnd]. specialize (IHm Hnd Hm1).
      simpl in Hf. rewrite length_app in Hf. destruct fuel as [|fuel]; [lia|].
      simpl flat_map. rewrite <- app_comm_cons, <- app_assoc. simpl. rewrite decide_False by (apply Hseen; by left).
      simpl in Hj. rewrite (Hj fuel) by (done || lia). simpl. apply IHm; [lia|]. intros k' Hk'.
      rewrite not_elem_of_union, not_elem_of_singleton. split; [by intros ->|]. apply Hseen. by right. }
    simpl. rewrite <- app_assoc. simpl. apply Hfields; [lia|]. set_solver.
Qed.

Lemma inspectJSONDocument_tokens j path : clean j = true → inspectJSONDocument (tokens j) path = Ok ().
Proof.
  intros Hc. unfold inspectJSONDocument. rewrite <- (app_nil_r (tokens j)) at 2.
  rewrite inspectJSON_tokens by (done || lia). done.
Qed.

(** ** Documents that pass *)

Lemma Token_Ok ts t rest : Token ts = Ok (t, rest) → ts = t :: rest ∧ ∀ e, t ≠ TokError e.
Proof. destruct ts as [|t' ts]; [done|]. destruct t'; simpl; intros [= <- <-]; done. Qed.
Lemma orPath_Ok {A} path (r : result A) a : orPath path r = Ok a → r = Ok a.
Proof. by destruct r. Qed.
Lemma not_more ts t rest : More ts = false → Token ts = Ok (t, rest) → ts = TokClose :: rest.
Proof. destruct ts as [|[] ts]; simpl; intros H E; try done. by injection E as <- <-. Qed.

Definition inspected_value (fuel : nat) : Prop :=
  ∀ ts path rest, inspectJSONValue fuel ts path = Ok rest → ∃ j, clean j = true ∧ ts = tokens j ++ rest.
Definition inspected_fields (fuel : nat) : Prop :=
  ∀ seen ts path rest, inspectJSONFields fuel seen ts path = Ok rest →
  ∃ m, NoDup m.*1 ∧ (∀ k, k ∈ m.*1 → k ∉ seen) ∧ Forall (λ kj, clean kj.2 = true) m ∧ ts = fieldTokens m ++ TokClose :: rest.
Definition inspected_items (fuel : nat) : Prop :=
  ∀ i ts path rest, inspectJSONItems fuel i ts path = Ok rest →
  ∃ l, Forall (λ j, clean j = true) l ∧ ts = flat_map tokens l ++ TokClose :: rest.

Lemma inspected_value_step fuel : inspected_fields fuel → inspected_items fuel → inspected_value (S fuel).
Proof.
  intros Hf Hi ts path rest. simpl. intros ([t ts'] & [-> Ht]%orPath_Ok%Token_Ok & H)%result_bind_Ok. simpl in H.
  destruct t; try discriminate H.
  - injection H as <-. by exists (JBool b).
  - injection H as <-. by exists (JString s).
  - injection H as <-. by exists (JNumber s).
  - apply Hf in H as (m & Hnd & _ & Hc & ->). exists (JMap m). split; [by apply clean_map|]. simpl. by rewrite <- app_assoc.
  - apply Hi in H as (l & Hc & ->). exists (JList l). split; [by apply clean_list|]. simpl. by rewrite <- app_assoc.
  - exfalso. by apply (Ht e).
Qed.

Lemma inspected_fields_step fuel : inspected_value fuel → inspected_fields fuel → inspected_fields (S fuel).
Proof.
  intros Hv Hf seen ts path rest. simpl. destruct (More ts) eqn:Em.
  - intros ([t ts'] & [-> _]%orPath_Ok%Token_Ok & H)%result_bind_Ok. simpl in H. destruct t as [| |key| | | | |]; try discriminate H.
    case_decide as Hk; [discriminate H|]. apply result_bind_Ok in H as (ts1 & (j & Hj & ->)%Hv & (m & Hnd & Hs & Hc & ->)%Hf).
    exists ((key, j) :: m). simpl. split_and!.
    + apply NoDup_cons. split; [|done]. intros Hin. apply (Hs key Hin). set_solver.
    + intros k [->|Hin]%elem_of_cons; [done|]. specialize (Hs k Hin). set_solver.
    + by constructor.
    + by rewrite <- app_assoc.
  - intros ([t ts'] & Ht%orPath_Ok & [= <-])%result_bind_Ok. apply not_more in Ht; [|done]. exists []. simpl.
    split_and!; [constructor|by intros k ?%elem_of_nil|constructor|done].
Qed.

Lemma inspected_items_step fuel : inspected_value fuel → inspected_items fuel → inspected_items (S fuel).
Proof.
  intros Hv Hi i ts path rest. simpl. destruct (More ts) eqn:Em.
  - intros (ts1 & (j & Hj & ->)%Hv & (l & Hc & ->)%Hi)%result_bind_Ok. exists (j :: l). split; [by constructor|]. simpl. by rewrite <- app_assoc.
  - intros ([t ts'] & Ht%orPath_Ok & [= <-])%result_bind_Ok. apply not_more in Ht; [|done]. by exists [].
Qed.

Lemma inspected_all fuel : inspected_value fuel ∧ inspected_fields fuel ∧ inspected_items fuel.
Proof.
  induction fuel as [|fuel (Hv & Hf & Hi)]; [by split_and!; intros ?|].
  split_and!; [by apply inspected_value_step|by apply inspected_fields_step|by apply inspected_items_step].
Qed.

(** Only the document of a clean tree passes. *)
Lemma inspected_document doc path : inspectJSONDocument doc path = Ok () → ∃ j, clean j = true ∧ doc = tokens j.
Proof.
  unfold inspectJSONDocument. intros (ts & Hts & H)%result_bind_Ok. apply inspected_all in Hts as (j & Hj & ->). exists j. split; [done|].
  destruct ts as [|t ts]; [by rewrite app_nil_r|]. by destruct t.
Qed.

(** * JSON structs: fields that are written are found, accepted and read back

    [spells] relates what is written of a piece of syntax, the check that
    [Unmarshal] makes of it and what the strict decoder reads.  The lemmas here
    reduce it for a struct to its fields. *)

Create HintDb json.

(** [r] is the tree of [a]: it is clean, passes the inspection and decodes to [a]. *)
Definition spells {A} (inspect : JSON → string → result unit) (dec : JSON → result A) (a : A) (r : result JSON) : Prop :=
  ∃ j, r = Ok j ∧ clean j = true ∧ dec j = Ok a ∧ ∀ path, inspect j path = Ok ().

(** What the object [m] has as [name], if anything, passes the inspection. *)
Definition passes (inspect : JSON → string → result unit) (name : string) (m : list (string * JSON)) : Prop :=
  ∀ j, assoc name m = Some j → j ≠ JNil ∧ ∀ path, inspect j path = Ok ().

Definition onSome {A} (P : A → Prop) (o : option A) : Prop := match o with Some a => P a | None => True end.

Definition fieldOK (f : field) : Prop := ∃ o, f.2 = Ok o ∧ onSome (λ j, clean j = true) o.

Lemma clean_not_nil j : clean j = true → j ≠ JNil.
Proof. by intros H ->. Qed.

(** ** Association lists *)

Lemma withField_assoc {B} (f : JSON → B) d n m : withField f d n m = match assoc n m with Some j => f j | None => d end.
Proof. induction m as [|[k j] m IH]; [done|]. simpl. by case_decide. Qed.

Lemma assoc_fresh {A} n (m : list (string * A)) : n ∉ m.*1 → assoc n m = None.
Proof.
  induction m as [|[k j] m IH]; [done|]. simpl. rewrite not_elem_of_cons. intros [Hne Hn].
  by rewrite decide_False, IH.
Qed.

(** ** Objects *)

Lemma object_spec fs :
  Forall fieldOK fs → NoDup fs.*1 →
  ∃ m, object fs = Ok (JMap m) ∧ clean (JMap m) = true ∧ (∀ k, k ∈ m.*1 → k ∈ fs.*1)
       ∧ Forall (λ f, f.2 = Ok (assoc f.1 m)) fs.
Proof.
  unfold object. induction 1 as [|[n r] fs (o & Er & Ho) _ IH]; intros Hnd.
  { exists []. split_and!; [done..|set_solver|constructor]. }
  apply NoDup_cons in Hnd as [Hn Hnd]. destruct (IH Hnd) as (m & Em & Hc & Hk & Hget). simpl in *. rewrite Er. simpl.
  destruct (fields fs) as [m'|] eqn:E; [|done]. simpl in *. injection Em as ->. apply clean_map in Hc as [Hnm Hc].
  assert (n ∉ m.*1) as Hfresh by (intros Hin; by apply Hn, Hk).
  destruct o as [j|].
  - exists ((n, j) :: m). split_and!; [done| |set_solver|].
    + apply clean_map. split; [by apply NoDup_cons|by constructor].
    + constructor; [simpl; by rewrite decide_True|]. rewrite Forall_forall in *. intros [n' r'] Hin.
      rewrite (Hget _ Hin). simpl. rewrite decide_False; [done|]. intros ->. apply Hn. apply (list_elem_of_fmap_2 fst) in Hin. done.
  - exists m. split_and!; [done|by apply clean_map|set_solver|]. constructor; [|done]. simpl. by rewrite assoc_fresh.
Qed.

Lemma filter_nil {A} (P : A → Prop) `{∀ x, Decision (P x)} l : (∀ x, x ∈ l → ¬ P x) → filter P l = [].
Proof.
  induction l as [|x l IH]; intros Hl; [done|]. rewrite filter_cons, decide_False by (apply Hl; by left).
  apply IH. intros y Hy. apply Hl. by right.
Qed.

Lemma knownFields_Ok names (m : list (string * JSON)) : (∀ k, k ∈ m.*1 → k ∈ names) → knownFields names m = Ok ().
Proof. intros H. unfold knownFields. rewrite filter_nil; [done|]. intros k Hk Hn. by apply Hn, H. Qed.

Lemma checkAllowed_Ok m path allowed : (∀ k, k ∈ m.*1 → k ∈ allowed) → checkAllowed m path allowed = Ok ().
Proof.
  intros H. unfold checkAllowed. rewrite filter_nil; [done|]. intros k Hk Hn. rewrite merge_sort_Permutation in Hk. by apply Hn, H.
Qed.

(** ** Lists *)

Definition inspectArray (inspect : JSON → string → result unit) (j : JSON) (path : string) : result unit :=
  withArray j path (checkEach (λ i item, inspect item (index path i)) 0).

Lemma checkEach_all {A} (f : N → A → result unit) i xs : Forall (λ x, ∀ i, f i x = Ok ()) xs → checkEach f i xs = Ok ().
Proof. intros H. revert i. induction H as [|x xs Hx _ IH]; intros i; [done|]. simpl. rewrite Hx. apply IH. Qed.

Section lists.
Context {A : Type} (inspect : JSON → string → result unit) (dec : JSON → result A) (mar : A → result JSON).

Lemma list_spells l : Forall (λ a, spells inspect dec a (mar a)) l → spells (inspectArray inspect) (decList dec) l (marshalList mar l).
Proof.
  intros H. assert (∃ js, result_list mar l = Ok js ∧ Forall (λ j, clean j = true) js ∧ result_list dec js = Ok l
    ∧ Forall (λ j, ∀ path, inspect j path = Ok ()) js) as (js & E1 & Hc & E2 & Hi).
  { induction H as [|a l (j & Ej & Hc & Ed & Hi) _ (js & E1 & Hcs & E2 & His)]; [by exists []|].
    exists (j :: js). simpl. rewrite Ej. simpl. rewrite E1. simpl. rewrite Ed. simpl. rewrite E2. split_and!; [done|by constructor|done|by constructor]. }
  exists (JList js). unfold marshalList. rewrite E1. split_and!; [done|by apply clean_list|done|].
  intros path. unfold inspectArray. simpl. apply checkEach_all. eapply Forall_impl; [exact Hi|]. auto.
Qed.
End lists.

(** ** One field: it can be written, and what the object has is accepted and read *)

Definition inspectText (j : JSON) (path : string) : result unit :=
  match j with JString _ => Ok () | _ => pathError path "must be a string" end.
Definition inspectBoolean (j : JSON) (path : string) : result unit :=
  match j with JBool _ => Ok () | _ => pathError path "must be a boolean" end.

Lemma text_spells s : spells inspectText decString s (text s).
Proof. exists (JString s). done. Qed.

Section field.
Context {A : Type} (inspect : JSON → string → result unit) (dec : JSON → result A) (mar : A → result JSON) (n : string).

Lemma fieldOK_always a r : spells inspect dec a r → fieldOK (always n r).
Proof. intros (j & -> & Hc & _). by exists (Some j). Qed.
Lemma fieldOK_omitNil o : onSome (λ a, spells inspect dec a (mar a)) o → fieldOK (omitNil n mar o).
Proof. destruct o as [a|]; [|by exists None]. intros (j & E & Hc & _). exists (Some j). simpl. by rewrite E. Qed.
Lemma fieldOK_omitEmpty l : Forall (λ a, spells inspect dec a (mar a)) l → fieldOK (omitEmpty n mar l).
Proof.
  intros H. apply list_spells in H as (j & E & Hc & _). destruct l; [by exists None|]. exists (Some j).
  unfold omitEmpty. simpl snd. rewrite E. done.
Qed.

Lemma read_always a r m :
  spells inspect dec a r → (always n r).2 = Ok (assoc n m) →
  (∀ d, withField dec d n m = Ok a) ∧ passes inspect n m ∧ ∀ path, inspect (get n m) path = Ok ().
Proof.
  intros (j & -> & Hc & Hd & Hi) E. simpl in E. injection E as E. setoid_rewrite withField_assoc. rewrite <- E. split_and!; [done| |done].
  intros j' Ej. rewrite <- E in Ej. injection Ej as <-. split; [by apply clean_not_nil|done].
Qed.

Lemma read_omitNil o m :
  onSome (λ a, spells inspect dec a (mar a)) o → (omitNil n mar o).2 = Ok (assoc n m) →
  withField (decPtr dec) (Ok None) n m = Ok o ∧ passes inspect n m.
Proof.
  rewrite withField_assoc. unfold passes. destruct o as [a|]; simpl.
  - intros (j & -> & Hc & Hd & Hi) [= <-]. pose proof (clean_not_nil j Hc) as Hj. split; [destruct j; simpl; by rewrite ?Hd|]. naive_solver.
  - intros _ [= <-]. done.
Qed.

Lemma read_omitEmpty l m :
  Forall (λ a, spells inspect dec a (mar a)) l → (omitEmpty n mar l).2 = Ok (assoc n m) →
  withField (decList dec) (Ok []) n m = Ok l ∧ passes (inspectArray inspect) n m.
Proof.
  intros H E. apply list_spells in H as (j & Ej & Hc & Hd & Hi). rewrite withField_assoc. unfold passes, omitEmpty in *. simpl in E.
  destruct l as [|a l]; [injection E as <-; by split|]. rewrite Ej in E. simpl in E. injection E as <-. split; [done|].
  intros j' [= <-]. split; [by apply clean_not_nil|done].
Qed.
End field.

Lemma fieldOK_text n s : fieldOK (always n (text s)).
Proof. by exists (Some (JString s)). Qed.
Lemma fieldOK_omitBlank n s : fieldOK (omitBlank n s).
Proof. unfold omitBlank, fieldOK. simpl. case_decide; eexists; split; done. Qed.
Lemma fieldOK_omitFalse n b : fieldOK (omitFalse n b).
Proof. destruct b; eexists; split; done. Qed.
#[export] Hint Resolve fieldOK_text fieldOK_omitBlank fieldOK_omitFalse : json.

Lemma read_text n s m :
  (always n (text s)).2 = Ok (assoc n m) → (∀ d, withField decString d n m = Ok s) ∧ passes inspectText n m.
Proof. intros E. destruct (read_always _ _ n s _ m (text_spells s) E) as (? & ? & _). done. Qed.
Lemma read_omitBlank n s m :
  (omitBlank n s).2 = Ok (assoc n m) → withField decString (Ok "") n m = Ok s ∧ passes inspectText n m.
Proof. rewrite withField_assoc. unfold passes. simpl. case_decide; intros [= <-]; naive_solver. Qed.
Lemma read_omitFalse n b m :
  (omitFalse n b).2 = Ok (assoc n m) → withField decBool (Ok false) n m = Ok b ∧ passes inspectBoolean n m.
Proof. rewrite withField_assoc. unfold passes. destruct b; simpl; intros [= <-]; naive_solver. Qed.

(** ** The inspectors of fields *)

Lemma inspectStringFields_Ok m path names : Forall (λ n, passes inspectText n m) names → inspectStringFields m path names = Ok ().
Proof.
  intros H. apply checkEach_all. eapply Forall_impl; [exact H|]. intros n Hn _. rewrite withField_assoc.
  destruct (assoc n m) as [j|] eqn:E; [|done]. destruct (Hn j E) as [_ Hj]. apply (Hj (path +:+ "." +:+ n)).
Qed.
Lemma inspectBoolFields_Ok m path names : Forall (λ n, passes inspectBoolean n m) names → inspectBoolFields m path names = Ok ().
Proof.
  intros H. apply checkEach_all. eapply Forall_impl; [exact H|]. intros n Hn _. rewrite withField_assoc.
  destruct (assoc n m) as [j|] eqn:E; [|done]. destruct (Hn j E) as [_ Hj]. apply (Hj (path +:+ "." +:+ n)).
Qed.
Lemma inspectOptional_Ok inspect m n path : passes inspect n m → inspectOptional inspect m n path = Ok ().
Proof.
  intros Hn. unfold inspectOptional. rewrite withField_assoc. destruct (assoc n m) as [j|] eqn:E; [|done].
  destruct (Hn j E) as [_ Hj]. by destruct j.
Qed.
Lemma inspectOptionals_Ok inspect m path names :
  Forall (λ n, passes inspect n m) names → checkEach (λ _ name, inspectOptional inspect m name path) 0 names = Ok ().
Proof. intros H. apply checkEach_all. eapply Forall_impl; [exact H|]. intros n Hn _. by apply inspectOptional_Ok. Qed.
Lemma inspectListField_Ok inspect m n path : passes (inspectArray inspect) n m → inspectListField inspect m n path = Ok ().
Proof.
  intros Hn. unfold inspectListField. rewrite withField_assoc. destruct (assoc n m) as [j|] eqn:E; [|done].
  destruct (Hn j E) as [_ Hj]. specialize (Hj (path +:+ "." +:+ n)). by destruct j.
Qed.
Lemma inspectStringListField_Ok m n path : passes (inspectArray inspectText) n m → inspectStringListField m n path = Ok ().
Proof.
  intros Hn. unfold inspectStringListField. rewrite withField_assoc. destruct (assoc n m) as [j|] eqn:E; [|done].
  destruct (Hn j E) as [_ Hj]. apply (Hj (path +:+ "." +:+ n)).
Qed.
Lemma inspectBlocks_Ok inspect m n path :
  passes (inspectArray (inspectArray inspect)) n m → inspectBlocksField_with inspect m n path = Ok ().
Proof.
  intros Hn. unfold inspectBlocksField_with. rewrite withField_assoc. destruct (assoc n m) as [j|] eqn:E; [|done].
  destruct (Hn j E) as [_ Hj]. specialize (Hj (path +:+ "." +:+ n)). by destruct j.
Qed.
#[export] Hint Resolve inspectStringFields_Ok inspectBoolFields_Ok inspectOptional_Ok inspectOptionals_Ok inspectListField_Ok
  inspectStringListField_Ok inspectBlocks_Ok : json.
