(* ===== verification/JSONRoundtrip.v ===== *)
(** * Definitions survive the JSON surface syntax

    What [Marshal] writes of a valid definition is accepted by every check of
    [Unmarshal] and read back as the same definition. *)

From S2P Require Import Prelude Identifier Values Events Datamodel Chart Definitions Validate Layout Compile Indexed Validated Normalize Content.
From S2P Require Import JSONTree JSONSyntax JSONInspect JSONDocument.
From stdpp Require Import options.

(** ** Tactics: one struct *)

Lemma seq_Ok (r k : result unit) : r = Ok () → k = Ok () → (_ ← r; k) = Ok ().
Proof. by intros -> ->. Qed.

Ltac split_fields := repeat match goal with H : Forall _ (_ :: _) |- _ => apply Forall_cons in H as [? H] end.

(** The facts about the fields of an object, from what is known of their contents. *)
Ltac read_fields :=
  repeat match goal with
  | H : (omitBlank ?n ?s).2 = _ |- _ => apply (read_omitBlank n s) in H as [? ?]
  | H : (omitFalse ?n ?b).2 = _ |- _ => apply (read_omitFalse n b) in H as [? ?]
  | H : (always ?n (text ?s)).2 = _ |- _ => apply (read_text n s) in H as [? ?]
  | H : (always ?n ?r).2 = _, Hs : spells ?i ?d ?a ?r |- _ => apply (read_always i d n a r _ Hs) in H as (? & ? & ?)
  | H : (omitNil ?n ?mar ?o).2 = _, Hs : onSome (λ a, spells ?i ?d a (?mar a)) ?o |- _ =>
      apply (read_omitNil i d mar n o _ Hs) in H as [? ?]
  | H : (omitEmpty ?n ?mar ?l).2 = _, Hs : Forall (λ a, spells ?i ?d a (?mar a)) ?l |- _ =>
      apply (read_omitEmpty i d mar n l _ Hs) in H as [? ?]
  end.

Ltac decode_fields :=
  repeat match goal with
  | H : ∀ d, withField ?f d ?n ?m = Ok _ |- context [withField ?f _ ?n ?m] => rewrite H; cbn [mbind result_bind]
  | H : withField ?f ?d ?n ?m = Ok _ |- context [withField ?f ?d ?n ?m] => rewrite H; cbn [mbind result_bind]
  end.

Ltac spell_object :=
  match goal with |- spells _ _ _ (object ?fs) =>
    let m := fresh "m" in
    destruct (object_spec fs) as (m & ? & ? & ? & ?);
      [repeat constructor; eauto using fieldOK_always, fieldOK_omitNil, fieldOK_omitEmpty with json
      |apply (bool_decide_eq_true_1 _); vm_compute; reflexivity
      |split_fields; read_fields; exists (JMap m); split; [done|split; [done|split]]]
  end.

Ltac known := match goal with H : ∀ k, k ∈ _.*1 → k ∈ _ |- _ => exact H end.
Ltac check_fields :=
  repeat (apply seq_Ok; [solve [apply checkAllowed_Ok; known | eauto with json | auto 20 with json]|]); eauto with json.

(** ** Values *)

(** A Go map has every key once. *)
Fixpoint distinctKeys (v : Value) : bool :=
  match v with
  | ListOf l => forallb distinctKeys l
  | MapOf m => bool_decide (NoDup m.*1) && forallb (λ kv, distinctKeys kv.2) m
  | TaggedOf _ p => distinctKeys p
  | _ => true
  end.

Definition okValue (v : Value) : Prop := is_Ok (Wire v) ∧ distinctKeys v = true.

(** The wire form of [v] in a document. *)
Definition wired (w : ValueWire) : Prop :=
  clean (wireJSON w) = true ∧ decWire (wireJSON w) = Ok w ∧ ∀ path, inspectValue (wireJSON w) path = Ok ().

Lemma firstError_Ok rs : Forall (λ r, r.2 = Ok ()) rs → firstError rs = Ok ().
Proof. induction 1 as [|[k r] rs Hr _ IH]; [done|]. simpl in *. by rewrite Hr. Qed.

Lemma inspect_decValue w v path :
  ValueFromWire w = Ok v → decWire (wireJSON w) = Ok w →
  match decValue (wireJSON w) with Ok _ => Ok () | Err e => pathError path (msg e) end = Ok ().
Proof. intros Hv Hw. unfold decValue. rewrite Hw. by rewrite Hv. Qed.

Lemma decList_wired ws : Forall wired ws → result_list decWire (map wireJSON ws) = Ok ws.
Proof. induction 1 as [|w ws (_ & Hw & _) _ IH]; [done|]. simpl. rewrite Hw. simpl. by rewrite IH. Qed.
Lemma decEntries_wired ws : Forall (λ kw : string * ValueWire, wired kw.2) ws →
  decEntries decWire (map (λ '(k, w), (k, wireJSON w)) ws) = Ok ws.
Proof. induction 1 as [|[k w] ws (_ & Hw & _) _ IH]; [done|]. simpl in *. rewrite Hw. simpl. by rewrite IH. Qed.

Lemma wired_list ws v :
  Wire v = Ok (mkWire ValueWireVersion "list" None None None (Some ws) None None None) → Forall wired ws →
  wired (mkWire ValueWireVersion "list" None None None (Some ws) None None None).
Proof.
  intros Hv Hws. pose proof (decList_wired ws Hws) as Hl. set (w := mkWire _ _ _ _ _ _ _ _ _) in *.
  assert (decWire (wireJSON w) = Ok w) as Hw.
  { transitivity (l ← Some <$> result_list decWire (map wireJSON ws); Ok (mkWire ValueWireVersion "list" None None None l None None None));
      [reflexivity|by rewrite Hl]. }
  split_and!; [|done|intros path].
  - change (forallb clean (map wireJSON ws) && true = true). rewrite andb_true_r. apply (clean_list (map wireJSON ws)).
    rewrite Forall_fmap. eapply Forall_impl; [exact Hws|]. by intros x [].
  - transitivity (_ ← checkEach (λ i item, inspectValue item (index (path +:+ ".list") i)) 0 (map wireJSON ws);
      match decValue (wireJSON w) with Ok _ => Ok () | Err e => pathError path (msg e) end); [reflexivity|].
    apply seq_Ok; [|by eapply inspect_decValue; [apply ValueFromWire_Wire|]]. apply checkEach_all. rewrite Forall_fmap.
    eapply Forall_impl; [exact Hws|]. intros x (_ & _ & Hx) i. apply Hx.
Qed.

Lemma keys_map {A B} (f : A → B) (m : list (string * A)) : (map (λ '(k, a), (k, f a)) m).*1 = m.*1.
Proof. induction m as [|[k a] m IH]; [done|]. simpl. f_equal. exact IH. Qed.

Lemma wired_map ws v :
  Wire v = Ok (mkWire ValueWireVersion "map" None None None None (Some ws) None None) → NoDup ws.*1 →
  Forall (λ kw : string * ValueWire, wired kw.2) ws →
  wired (mkWire ValueWireVersion "map" None None None None (Some ws) None None).
Proof.
  intros Hv Hnd Hws. pose proof (decEntries_wired ws Hws) as Hl. set (w := mkWire _ _ _ _ _ _ _ _ _) in *.
  set (entries := map (λ '(k, w), (k, wireJSON w)) ws) in *.
  assert (decWire (wireJSON w) = Ok w) as Hw.
  { transitivity (l ← Some <$> decEntries decWire entries; Ok (mkWire ValueWireVersion "map" None None None None l None None));
      [reflexivity|by rewrite Hl]. }
  split_and!; [|done|intros path].
  - change (clean (JMap entries) && true = true). rewrite andb_true_r. apply clean_map. split; [by unfold entries; rewrite keys_map|].
    unfold entries. rewrite Forall_fmap. eapply Forall_impl; [exact Hws|]. by intros [k x] [].
  - transitivity (_ ← firstError (merge_sort entryOrder
        (map (λ '(k, v), (k, inspectValue v (path +:+ ".map[" +:+ quote k +:+ "]"))) entries));
      match decValue (wireJSON w) with Ok _ => Ok () | Err e => pathError path (msg e) end); [reflexivity|].
    apply seq_Ok; [|by eapply inspect_decValue; [apply ValueFromWire_Wire|]]. apply firstError_Ok.
    rewrite merge_sort_Permutation. unfold entries. rewrite !Forall_fmap. eapply Forall_impl; [exact Hws|].
    intros [k x] (_ & _ & Hx). apply Hx.
Qed.

Lemma wired_tagged tag p v :
  Wire v = Ok (mkWire ValueWireVersion "tagged" None None None None None (Some tag) (Some p)) → wired p →
  wired (mkWire ValueWireVersion "tagged" None None None None None (Some tag) (Some p)).
Proof.
  intros Hv (Hc & Hp & Hi). set (w := mkWire _ _ _ _ _ _ _ _ _) in *.
  assert (decWire (wireJSON w) = Ok w) as Hw.
  { transitivity (l ← decPtr decWire (wireJSON p); Ok (mkWire ValueWireVersion "tagged" None None None None None (Some tag) l));
      [reflexivity|]. destruct p. simpl in *. by rewrite Hp. }
  split_and!; [|done|intros path].
  - change (clean (wireJSON p) && true = true). by rewrite andb_true_r.
  - transitivity (_ ← inspectValue (wireJSON p) (path +:+ ".payload");
      match decValue (wireJSON w) with Ok _ => Ok () | Err e => pathError path (msg e) end); [reflexivity|].
    apply seq_Ok; [apply Hi|by eapply inspect_decValue; [apply ValueFromWire_Wire|]].
Qed.

Lemma result_assoc_keys {A B} (f : A → result B) m ws : result_assoc f m = Ok ws → ws.*1 = m.*1.
Proof.
  revert ws. induction m as [|[k a] m IH]; intros ws; simpl; [by intros [= <-]|]. destruct (ValidString k); [|done].
  intros (b & _ & (r & Hr & [= <-])%result_bind_Ok)%result_bind_Ok. simpl. f_equal. by apply IH.
Qed.

Lemma Wire_wired v w : Wire v = Ok w → distinctKeys v = true → wired w.
Proof.
  revert w. induction v as [|b|s|s|l IH|m IH|tag p IH] using Value_nested_ind; intros w E Hd; pose proof E as E0; simpl in E.
  - injection E as <-. split_and!; reflexivity.
  - injection E as <-. split_and!; reflexivity.
  - destruct (ValidString s); [|done]. injection E as <-. split_and!; [reflexivity..|intros path].
    eapply (inspect_decValue (mkWire ValueWireVersion "string" None (Some s) None None None None None)); [by apply ValueFromWire_Wire|reflexivity].
  - case_decide; [|done]. injection E as <-. split_and!; [reflexivity..|intros path].
    eapply (inspect_decValue (mkWire ValueWireVersion "number" None None (Some s) None None None None)); [by apply ValueFromWire_Wire|reflexivity].
  - apply result_bind_Ok in E as (ws & Hws & [= <-]). eapply wired_list; [exact E0|].
    simpl in Hd. clear E0. revert ws Hws. induction IH as [|x l Hx _ IHl]; intros ws; simpl; [intros [= <-]; constructor|].
    intros (y & Hy & (r & Hr & [= <-])%result_bind_Ok)%result_bind_Ok. simpl in Hd. apply andb_true_iff in Hd as [Hd1 Hd2].
    constructor; [by apply Hx|by apply IHl].
  - apply result_bind_Ok in E as (ws & Hws & [= <-]). simpl in Hd. apply andb_true_iff in Hd as [Hnd%bool_decide_eq_true_1 Hd].
    eapply wired_map; [exact E0|by rewrite (result_assoc_keys _ _ _ Hws)|].
    clear E0 Hnd. revert ws Hws. induction IH as [|[k x] l Hx _ IHl]; intros ws; simpl; [intros [= <-]; constructor|].
    destruct (ValidString k); [|done].
    intros (y & Hy & (r & Hr & [= <-])%result_bind_Ok)%result_bind_Ok. simpl in Hd. apply andb_true_iff in Hd as [Hd1 Hd2].
    constructor; [by apply Hx|by apply IHl].
  - case_decide; [done|]. destruct (ValidString tag); [|done]. apply result_bind_Ok in E as (ws & Hws & [= <-]).
    eapply wired_tagged; [exact E0|]. by apply IH.
Qed.

Lemma value_spells v : okValue v → spells inspectValue decValue v (marshalValue v).
Proof.
  intros [[w Hw] Hd]. destruct (Wire_wired v w Hw Hd) as (Hc & Hdec & Hi). exists (wireJSON w). unfold marshalValue, decValue.
  rewrite Hw, Hdec. split_and!; [done..|by apply ValueFromWire_Wire|done].
Qed.

(** ** The values of a definition *)

Definition optValues {A} (f : A → list Value) (o : option A) : list Value := match o with Some a => f a | None => [] end.
Definition expressionValues (e : Expression) : list Value := [xp_Data e].
Abbreviation exprValues := (optValues expressionValues).
Definition paramValues (q : ParamDefinition) : list Value := exprValues (pd_Expr q) ++ exprValues (pd_Location q).
Definition functionValues (r : FunctionRef) : list Value := flat_map expressionValues (fr_Args r).
Definition datumValues (d : DataDefinition) : list Value := exprValues (da_Expr d) ++ exprValues (da_Content d).
Definition raiseValues (r : RaiseDefinition) : list Value := exprValues (rd_EventExpr r) ++ exprValues (rd_Data r).
Definition sendValues (s : SendDefinition) : list Value :=
  exprValues (sn_EventExpr s) ++ exprValues (sn_TargetExpr s) ++ exprValues (sn_TypeExpr s) ++ exprValues (sn_IDLocation s)
  ++ exprValues (sn_DelayExpr s) ++ flat_map paramValues (sn_Params s) ++ exprValues (sn_Content s).
Definition cancelValues (c : CancelDefinition) : list Value := exprValues (cn_SendIDExpr c).
Definition logValues (l : LogDefinition) : list Value := exprValues (lg_LabelExpr l) ++ exprValues (lg_Expr l).
Definition assignValues (a : AssignDefinition) : list Value := expressionValues (as_Location a) ++ expressionValues (as_Expr a).
Definition scriptValues (s : ScriptDefinition) : list Value := expressionValues (sc_Expr s).
Definition callValues (c : CallDefinition) : list Value := functionValues (cl_Function c).
Definition extensionValues (x : ExtensionDefinition) : list Value := [xt_Data x].

Fixpoint executableValues (e : Executable) : list Value :=
  let 'mkExecutable _ raise send cancel log assign choose foreach script call extension := e in
  optValues raiseValues raise ++ optValues sendValues send ++ optValues cancelValues cancel ++ optValues logValues log
  ++ optValues assignValues assign
  ++ optValues (λ '(mkChoose branches otherwise),
       flat_map (λ '(mkBranch condition actions), expressionValues condition ++ flat_map (flat_map executableValues) actions) branches
       ++ flat_map (flat_map executableValues) otherwise) choose
  ++ optValues (λ '(mkForEach array _ _ actions), expressionValues array ++ flat_map (flat_map executableValues) actions) foreach
  ++ optValues scriptValues script ++ optValues callValues call ++ optValues extensionValues extension.

Abbreviation blocksValues := (flat_map (flat_map executableValues)).

Definition transitionValues (t : TransitionDefinition) : list Value := exprValues (td_Condition t) ++ blocksValues (td_Actions t).
Definition invokeValues (i : InvokeDefinition) : list Value :=
  exprValues (id_IDLocation i) ++ exprValues (id_TypeExpr i) ++ exprValues (id_SrcExpr i) ++ flat_map paramValues (id_Params i)
  ++ exprValues (id_Content i) ++ blocksValues (id_Finalize i).
Definition doneDataValues (d : DoneDataDefinition) : list Value := flat_map paramValues (dn_Params d) ++ exprValues (dn_Content d).

(** Of one state, without its children; and of all of them. *)
Definition ownValues (s : StateDefinition) : list Value :=
  optValues transitionValues (sd_Initial s) ++ blocksValues (sd_OnEntry s) ++ blocksValues (sd_OnExit s)
  ++ flat_map transitionValues (sd_Transitions s) ++ flat_map invokeValues (sd_Invokes s)
  ++ flat_map datumValues (sd_Data s) ++ optValues doneDataValues (sd_DoneData s).
Fixpoint stateValues (s : StateDefinition) : list Value := ownValues s ++ flat_map stateValues (sd_Children s).
Definition definitionValues (d : ChartDefinition) : list Value := flat_map datumValues (df_Data d) ++ stateValues (df_Root d).

Lemma Forall_flat_map {A B} (P : B → Prop) (f : A → list B) l : Forall P (flat_map f l) ↔ Forall (λ a, Forall P (f a)) l.
Proof. induction l as [|a l IH]; simpl; [by split; constructor|]. by rewrite Forall_app, IH, Forall_cons. Qed.

Lemma onSome_values {A} (Q : A → Prop) (f : A → list Value) o :
  (∀ a, Forall okValue (f a) → Q a) → Forall okValue (optValues f o) → onSome Q o.
Proof. destruct o as [a|]; simpl; auto. Qed.
Lemma Forall_values {A} (Q : A → Prop) (f : A → list Value) l :
  (∀ a, Forall okValue (f a) → Q a) → Forall okValue (flat_map f l) → Forall Q l.
Proof. intros H. rewrite Forall_flat_map. intros Hl. eapply Forall_impl; [exact Hl|exact H]. Qed.

(** ** Structs without blocks *)

Ltac decode_struct dec x :=
  unfold dec, decStruct; rewrite knownFields_Ok by known; cbn [mbind result_bind]; decode_fields; by destruct x.

Lemma expression_spells e : Forall okValue (expressionValues e) → spells inspectExpression decExpression e (marshalExpression e).
Proof.
  intros Hv. apply Forall_cons in Hv as [Hv _]. apply value_spells in Hv. unfold marshalExpression. spell_object.
  - decode_struct decExpression e.
  - intros path. unfold inspectExpression, withObject. check_fields.
Qed.

Abbreviation spellsExpr := (λ e, spells inspectExpression decExpression e (marshalExpression e)).

(** The body of the loops of [inspectDataList] and [inspectParams]. *)
Definition inspectItem (allowed strings : list string) (exprs : string * string) (item : JSON) (itemPath : string) : result unit :=
  withObject item itemPath (λ m,
    _ ← checkAllowed m itemPath allowed;
    _ ← inspectStringFields m itemPath strings;
    _ ← inspectOptional inspectExpression m exprs.1 itemPath;
    inspectOptional inspectExpression m exprs.2 itemPath).
Abbreviation inspectParam := (inspectItem ["name"; "expr"; "location"] ["name"] ("expr", "location")).
Abbreviation inspectDatum := (inspectItem ["id"; "source"; "expr"; "content"] ["id"; "source"] ("expr", "content")).

Lemma inspectItems_Ok allowed strings exprs n m path :
  passes (inspectArray (inspectItem allowed strings exprs)) n m → inspectItems (get n m) path allowed strings exprs = Ok ().
Proof.
  intros Hn. unfold inspectItems. rewrite withField_assoc. destruct (assoc n m) as [j|] eqn:E; [|done].
  destruct (Hn j E) as [_ Hj]. specialize (Hj path). by destruct j.
Qed.
Lemma inspectParams_Ok n m path : passes (inspectArray inspectParam) n m → inspectParams (get n m) path = Ok ().
Proof. apply inspectItems_Ok. Qed.
Lemma inspectDataList_Ok n m path : passes (inspectArray inspectDatum) n m → inspectDataList (get n m) path = Ok ().
Proof. apply inspectItems_Ok. Qed.
#[export] Hint Resolve inspectParams_Ok inspectDataList_Ok : json.

Lemma exprs_spell o : Forall okValue (exprValues o) → onSome spellsExpr o.
Proof. apply onSome_values, expression_spells. Qed.

(** Splits what is known of values along the fields they come from. *)
Ltac split_values :=
  repeat match goal with
  | H : Forall okValue (_ ++ _) |- _ => apply Forall_app in H as [? ?]
  | H : Forall okValue (exprValues _) |- _ => apply exprs_spell in H
  | H : Forall okValue (expressionValues _) |- _ => apply expression_spells in H
  | H : Forall okValue (flat_map expressionValues _) |- _ => apply (Forall_values _ _ _ expression_spells) in H
  end.

Lemma param_spells q : Forall okValue (paramValues q) → spells inspectParam decParam q (marshalParam q).
Proof.
  unfold paramValues. intros Hv. split_values. unfold marshalParam. spell_object.
  - decode_struct decParam q.
  - intros path. unfold inspectItem, withObject. check_fields.
Qed.
Lemma datum_spells d : Forall okValue (datumValues d) → spells inspectDatum decDatum d (marshalDatum d).
Proof.
  unfold datumValues. intros Hv. split_values. unfold marshalDatum. spell_object.
  - decode_struct decDatum d.
  - intros path. unfold inspectItem, withObject. check_fields.
Qed.
#[export] Hint Resolve Forall_nil_2 Forall_cons_2 : json.

Lemma params_spell l :
  Forall okValue (flat_map paramValues l) → Forall (λ q, spells inspectParam decParam q (marshalParam q)) l.
Proof. apply Forall_values, param_spells. Qed.
Lemma data_spell l :
  Forall okValue (flat_map datumValues l) → Forall (λ d, spells inspectDatum decDatum d (marshalDatum d)) l.
Proof. apply Forall_values, datum_spells. Qed.

(** ** Payloads of executable nodes *)

(** The field "params", of the objects that may have one. *)
Lemma paramsField_Ok m path :
  passes (inspectArray inspectParam) "params" m → withField (λ params, inspectParams params path) (Ok ()) "params" m = Ok ().
Proof.
  intros H. pose proof (inspectParams_Ok "params" m path H) as Hp. rewrite withField_assoc in Hp. rewrite withField_assoc. by destruct (assoc "params" m).
Qed.
Lemma noParams_Ok (names : list string) m path :
  (∀ k, k ∈ m.*1 → k ∈ names) → bool_decide ("params" ∉ names) = true →
  withField (λ params, inspectParams params path) (Ok ()) "params" m = Ok ().
Proof.
  intros Hk Hn%bool_decide_eq_true_1. rewrite withField_assoc, assoc_fresh; [done|]. intros H. by apply Hn, Hk.
Qed.

Ltac check_payload :=
  intros path; unfold inspectExpressionFields, withObject; check_fields;
  first [apply paramsField_Ok; assumption | eapply noParams_Ok; [known|vm_compute; reflexivity]].

Abbreviation inspectRaise := (λ j p, inspectExpressionFields j p ["event"; "eventExpr"; "data"] ["eventExpr"; "data"] ["event"]).
Abbreviation inspectSend := (λ j p, inspectExpressionFields j p
      ["event"; "eventExpr"; "target"; "targetExpr"; "type"; "typeExpr"; "id"; "idLocation"; "delay"; "delayExpr"; "params"; "content"]
      ["eventExpr"; "targetExpr"; "typeExpr"; "idLocation"; "delayExpr"; "content"]
      ["event"; "target"; "type"; "id"; "delay"]).
Abbreviation inspectCancel := (λ j p, inspectExpressionFields j p ["sendID"; "sendIDExpr"] ["sendIDExpr"] ["sendID"]).
Abbreviation inspectLog := (λ j p, inspectExpressionFields j p ["label"; "labelExpr"; "expr"] ["labelExpr"; "expr"] ["label"]).
Abbreviation inspectAssign := (λ j p, inspectExpressionFields j p ["location"; "expr"] ["location"; "expr"] []).
Abbreviation inspectScript := (λ j p, inspectExpressionFields j p ["expr"] ["expr"] []).

Lemma raise_spells r : Forall okValue (raiseValues r) → spells inspectRaise decRaise r (marshalRaise r).
Proof. unfold raiseValues. intros Hv. split_values. unfold marshalRaise. spell_object; [decode_struct decRaise r|check_payload]. Qed.
Lemma cancel_spells c : Forall okValue (cancelValues c) → spells inspectCancel decCancel c (marshalCancel c).
Proof. unfold cancelValues. intros Hv. split_values. unfold marshalCancel. spell_object; [decode_struct decCancel c|check_payload]. Qed.
Lemma log_spells l : Forall okValue (logValues l) → spells inspectLog decLog l (marshalLog l).
Proof. unfold logValues. intros Hv. split_values. unfold marshalLog. spell_object; [decode_struct decLog l|check_payload]. Qed.
Lemma assign_spells a : Forall okValue (assignValues a) → spells inspectAssign decAssign a (marshalAssign a).
Proof. unfold assignValues. intros Hv. split_values. unfold marshalAssign. spell_object; [decode_struct decAssign a|check_payload]. Qed.
Lemma script_spells s : Forall okValue (scriptValues s) → spells inspectScript decScript s (marshalScript s).
Proof. unfold scriptValues. intros Hv. split_values. unfold marshalScript. spell_object; [decode_struct decScript s|check_payload]. Qed.
Lemma send_spells s : Forall okValue (sendValues s) → spells inspectSend decSend s (marshalSend s).
Proof.
  unfold sendValues. intros Hv. split_values.
  match goal with H : Forall okValue (flat_map paramValues _) |- _ => apply params_spell in H end.
  unfold marshalSend. spell_object; [decode_struct decSend s|check_payload].
Qed.

(** The object inside a "call". *)
Definition inspectFunction (value : JSON) (path : string) : result unit :=
  withObject value path (λ function,
    _ ← checkAllowed function path ["name"; "version"; "args"];
    _ ← inspectStringFields function path ["name"; "version"];
    withField (λ args, inspectArray inspectExpression args (path +:+ ".args")) (Ok ()) "args" function).

Lemma passes_Ok inspect n m path : passes inspect n m → withField (λ j, inspect j path) (Ok ()) n m = Ok ().
Proof. intros H. rewrite withField_assoc. destruct (assoc n m) as [j|] eqn:E; [|done]. by apply (H j E). Qed.
#[export] Hint Resolve passes_Ok : json.

Lemma function_spells r : Forall okValue (functionValues r) → spells inspectFunction decFunction r (marshalFunction r).
Proof.
  unfold functionValues. intros Hv. split_values. unfold marshalFunction. spell_object.
  - decode_struct decFunction r.
  - intros path. unfold inspectFunction, withObject. check_fields.
Qed.

Lemma inspectCall_function m path :
  inspectCall (JMap m) path = (_ ← checkAllowed m path ["function"]; inspectFunction (get "function" m) (path +:+ ".function")).
Proof. unfold inspectCall, inspectFunction, inspectArray. simpl. by rewrite string_app_assoc. Qed.
Lemma call_spells c : Forall okValue (callValues c) → spells inspectCall decCall c (marshalCall c).
Proof.
  unfold callValues. intros Hv. apply function_spells in Hv. unfold marshalCall. spell_object; [decode_struct decCall c|].
  intros path. rewrite inspectCall_function. check_fields.
Qed.
Lemma extension_spells x : Forall okValue (extensionValues x) → spells inspectExtension decExtension x (marshalExtension x).
Proof.
  intros Hv. apply Forall_cons in Hv as [Hv _]. apply value_spells in Hv. unfold marshalExtension.
  spell_object; [decode_struct decExtension x|]. intros path. unfold inspectExtension, withObject. check_fields.
Qed.

(** ** Executable content *)

(** The tag of a node is that of its only payload. *)
Definition tagged_node (inner : Executable → Prop) (e : Executable) : Prop :=
  (∃ v, e = NewRaiseExecutable v) ∨ (∃ v, e = NewSendExecutable v) ∨ (∃ v, e = NewCancelExecutable v)
  ∨ (∃ v, e = NewLogExecutable v) ∨ (∃ v, e = NewAssignExecutable v)
  ∨ (∃ bs els, e = NewChooseExecutable (mkChoose bs els)
       ∧ Forall (λ b, Forall (Forall inner) (cb_Actions b)) bs ∧ Forall (Forall inner) els)
  ∨ (∃ a i x bs, e = NewForEachExecutable (mkForEach a i x bs) ∧ Forall (Forall inner) bs)
  ∨ (∃ v, e = NewScriptExecutable v) ∨ (∃ v, e = NewCallExecutable v) ∨ (∃ v, e = NewExtensionExecutable v).

Definition spelled (e : Executable) : Prop :=
  ∃ w, encodeExecutable e = Ok w ∧ (∀ path, decodeExecutable w path = Ok e)
       ∧ spells inspectExecutable decExecutable w (marshalExecutable w).

Abbreviation spellsBlock := (λ b, spells (inspectArray inspectExecutable) (decList decExecutable) b (marshalBlock marshalExecutable b)).

(** Loops that encode one by one, and decode the same way. *)
Lemma loop_spells {A B} (enc : A → result B) (dec : B → string → result A) (Q : B → Prop) l :
  Forall (λ a, ∃ b, enc a = Ok b ∧ (∀ path, dec b path = Ok a) ∧ Q b) l →
  ∃ bs, result_list enc l = Ok bs ∧ (∀ (p : N → string) i, collectEach (λ i b, dec b (p i)) i bs = Ok l) ∧ Forall Q bs.
Proof.
  induction 1 as [|a l (b & Hb & Hd & HQ) _ (bs & E1 & E2 & E3)]; [by exists []|].
  exists (b :: bs). simpl. rewrite Hb. simpl. rewrite E1. split_and!; [done| |by constructor].
  intros p i. rewrite Hd. simpl. by rewrite E2.
Qed.

Lemma blocks_spell bs :
  Forall (Forall spelled) bs →
  ∃ ws, encodeBlocks_with encodeExecutable bs = Ok ws ∧ (∀ path, decodeBlocks_with decodeExecutable ws path = Ok bs)
        ∧ Forall spellsBlock ws.
Proof.
  intros H.
  destruct (loop_spells (result_list encodeExecutable)
    (λ ws path, collectEach (λ j w, decodeExecutable w (index path j)) 0 ws) spellsBlock bs) as (ws & E1 & E2 & E3).
  - eapply Forall_impl; [exact H|]. intros b Hb.
    destruct (loop_spells encodeExecutable decodeExecutable (λ w, spells inspectExecutable decExecutable w (marshalExecutable w)) b Hb)
      as (w & F1 & F2 & F3). exists w. split_and!; [done|intros path; apply F2|]. by apply list_spells.
  - exists ws. split_and!; [done| |done]. intros path. apply (E2 (index path)).
Qed.

Lemma branch_spells c ws :
  Forall okValue (expressionValues c) → Forall spellsBlock ws →
  spells (inspectBranch inspectExecutable) (decBranch decExecutable) (mkBranch c ws) (marshalBranch marshalExecutable (mkBranch c ws)).
Proof.
  intros Hv Hw. apply expression_spells in Hv. unfold marshalBranch. spell_object.
  - unfold decBranch, decStruct; rewrite knownFields_Ok by known; cbn [mbind result_bind]; decode_fields. done.
  - intros path. unfold inspectBranch, withObject. check_fields.
Qed.
Lemma choose_spells brs ws :
  Forall (λ b, spells (inspectBranch inspectExecutable) (decBranch decExecutable) b (marshalBranch marshalExecutable b)) brs →
  Forall spellsBlock ws →
  spells (inspectChoose inspectExecutable) (decChoose decExecutable) (mkChoose brs ws) (marshalChoose marshalExecutable (mkChoose brs ws)).
Proof.
  intros Hb%list_spells Hw. unfold marshalChoose. spell_object.
  - unfold decChoose, decStruct; rewrite knownFields_Ok by known; cbn [mbind result_bind]; decode_fields. done.
  - intros path. unfold inspectChoose, withObject. apply seq_Ok; [apply checkAllowed_Ok; known|].
    apply seq_Ok; [by apply (passes_Ok (inspectArray (inspectBranch inspectExecutable)) "branches" _ (path +:+ ".branches"))|].
    check_fields.
Qed.
Lemma forEach_spells a i x ws :
  Forall okValue (expressionValues a) → Forall spellsBlock ws →
  spells (inspectForEach inspectExecutable) (decForEach decExecutable) (mkForEach a i x ws)
    (marshalForEach marshalExecutable (mkForEach a i x ws)).
Proof.
  intros Hv Hw. apply expression_spells in Hv. unfold marshalForEach. spell_object.
  - unfold decForEach, decStruct; rewrite knownFields_Ok by known; cbn [mbind result_bind]; decode_fields. done.
  - intros path. unfold inspectForEach, withObject. check_fields.
Qed.

(** A node with one payload has two fields. *)
Definition noField (n : string) : field := (n, Ok None).
Lemma node_object i k (r : result JSON) j :
  payloads !! i = Some k → r = Ok j →
  object (always "kind" (text k) :: map noField (take i payloads) ++ (k, Some <$> r) :: map noField (drop (S i) payloads))
  = Ok (JMap [("kind", JString k); (k, j)]).
Proof.
  intros _ ->. assert (∀ ns fs, fields (map noField ns ++ fs) = fields fs) as Hno.
  { intros ns fs. induction ns as [|n ns IH]; [done|]. simpl. rewrite IH. by destruct (fields fs). }
  unfold object. simpl. rewrite Hno. simpl. pose proof (Hno (drop (S i) payloads) []) as H. rewrite app_nil_r in H. simpl in H.
  by rewrite H.
Qed.

(** The node is read and inspected through the field that its tag selects.  [F] is
    the wire node of the payload, the [i]-th of [payloads]. *)
Ltac payload_case i H F :=
  match type of H with spells _ ?dec ?w ?r =>
    destruct H as (j & Ej & Hc & Hd & Hi); exists (F (Some w));
    match goal with |- context [mkExecutableWire ?k] =>
      split_and!; [try reflexivity|try reflexivity|exists (JMap [("kind", JString k); (k, j)]); split_and!;
        [exact (node_object i k r j eq_refl Ej)
        |change (clean j && true = true); by rewrite Hc
        |transitivity (p ← decPtr dec j; Ok (F p)); [reflexivity|unfold decPtr; rewrite Hd; by destruct j]
        |intros path; exact (Hi (path +:+ "." +:+ k))]]
    end
  end.

Lemma raise_spelled v : Forall okValue (raiseValues v) → spelled (NewRaiseExecutable v).
Proof. intros H%raise_spells. payload_case 0 H (λ p, mkExecutableWire "raise" p None None None None None None None None None). Qed.
Lemma send_spelled v : Forall okValue (sendValues v) → spelled (NewSendExecutable v).
Proof. intros H%send_spells. payload_case 1 H (λ p, mkExecutableWire "send" None p None None None None None None None None). Qed.
Lemma cancel_spelled v : Forall okValue (cancelValues v) → spelled (NewCancelExecutable v).
Proof. intros H%cancel_spells. payload_case 2 H (λ p, mkExecutableWire "cancel" None None p None None None None None None None). Qed.
Lemma log_spelled v : Forall okValue (logValues v) → spelled (NewLogExecutable v).
Proof. intros H%log_spells. payload_case 3 H (λ p, mkExecutableWire "log" None None None p None None None None None None). Qed.
Lemma assign_spelled v : Forall okValue (assignValues v) → spelled (NewAssignExecutable v).
Proof. intros H%assign_spells. payload_case 4 H (λ p, mkExecutableWire "assign" None None None None p None None None None None). Qed.
Lemma script_spelled v : Forall okValue (scriptValues v) → spelled (NewScriptExecutable v).
Proof. intros H%script_spells. payload_case 7 H (λ p, mkExecutableWire "script" None None None None None None None p None None). Qed.
Lemma call_spelled v : Forall okValue (callValues v) → spelled (NewCallExecutable v).
Proof. intros H%call_spells. payload_case 8 H (λ p, mkExecutableWire "call" None None None None None None None None p None). Qed.
Lemma extension_spelled v : Forall okValue (extensionValues v) → spelled (NewExtensionExecutable v).
Proof. intros H%extension_spells. payload_case 9 H (λ p, mkExecutableWire "extension" None None None None None None None None None p). Qed.

Lemma branches_spell bs :
  Forall (λ b, Forall okValue (expressionValues (cb_Condition b)) ∧ Forall (Forall spelled) (cb_Actions b)) bs →
  ∃ ws, result_list (λ '(mkBranch condition actions),
          actions ← encodeBlocks_with encodeExecutable actions; Ok (mkBranch condition actions)) bs = Ok ws
        ∧ (∀ path, collectEach (λ i '(mkBranch condition actions),
             actions ← decodeBlocks_with decodeExecutable actions (index (path +:+ ".choose.branches") i +:+ ".actions");
             Ok (mkBranch condition actions)) 0 ws = Ok bs)
        ∧ Forall (λ b, spells (inspectBranch inspectExecutable) (decBranch decExecutable) b (marshalBranch marshalExecutable b)) ws.
Proof.
  intros H. destruct (loop_spells (λ '(mkBranch condition actions),
      actions ← encodeBlocks_with encodeExecutable actions; Ok (mkBranch condition actions))
    (λ '(mkBranch condition actions) path,
      actions ← decodeBlocks_with decodeExecutable actions (path +:+ ".actions"); Ok (mkBranch condition actions))
    (λ b, spells (inspectBranch inspectExecutable) (decBranch decExecutable) b (marshalBranch marshalExecutable b)) bs) as (ws & E1 & E2 & E3).
  - eapply Forall_impl; [exact H|]. intros [c acts] [Hc Hacts]. simpl in *. destruct (blocks_spell acts Hacts) as (ws & E1 & E2 & E3).
    exists (mkBranch c ws). rewrite E1. split_and!; [done|intros path; by rewrite E2|]. by apply branch_spells.
  - exists ws. split_and!; [exact E1| |exact E3]. intros path. pose proof (E2 (index (path +:+ ".choose.branches")) 0%N) as E.
    etransitivity; [|exact E]. clear. generalize 0%N as i. induction ws as [|[c acts] ws IH]; intros i; [done|]. simpl. by rewrite IH.
Qed.

Lemma choose_spelled bs els :
  Forall (λ b, Forall okValue (expressionValues (cb_Condition b)) ∧ Forall (Forall spelled) (cb_Actions b)) bs →
  Forall (Forall spelled) els → spelled (NewChooseExecutable (mkChoose bs els)).
Proof.
  intros Hbs Hels. destruct (branches_spell bs Hbs) as (ws & E1 & E2 & E3). destruct (blocks_spell els Hels) as (ws' & F1 & F2 & F3).
  pose proof (choose_spells ws ws' E3 F3) as H.
  payload_case 5 H (λ p, mkExecutableWire "choose" None None None None None p None None None None).
  - simpl. rewrite E1. simpl. by rewrite F1.
  - intros path. simpl. rewrite E2. simpl. by rewrite F2.
Qed.

Lemma forEach_spelled a i x bs :
  Forall okValue (expressionValues a) → Forall (Forall spelled) bs → spelled (NewForEachExecutable (mkForEach a i x bs)).
Proof.
  intros Ha Hbs. destruct (blocks_spell bs Hbs) as (ws & E1 & E2 & E3). pose proof (forEach_spells a i x ws Ha E3) as H.
  payload_case 6 H (λ p, mkExecutableWire "foreach" None None None None None None p None None None).
  - simpl. by rewrite E1.
  - intros path. simpl. by rewrite E2.
Qed.

Lemma valid_tagged fin e : valid_node fin e → tagged_node (valid_node fin) e.
Proof.
  intros Hv. destruct (validateExecutable_payload fin e Hv) as [_ Hp]. destruct Hv as [path Hv].
  destruct e as [k rs sd cn lg asg ch fe sc ca ex]. simpl in Hv. apply result_bind_Ok in Hv as ([] & Hn%fail_if_Ok & _).
  apply negb_false_iff, bool_decide_eq_true_1 in Hn. unfold payload_ok, payloadCount in *. simpl in *.
  unfold tagged_node, NewRaiseExecutable, NewSendExecutable, NewCancelExecutable, NewLogExecutable, NewAssignExecutable,
    NewChooseExecutable, NewForEachExecutable, NewScriptExecutable, NewCallExecutable, NewExtensionExecutable.
  destruct Hp as [(-> & ? & ->) | [(? & -> & -> & _) | [(-> & ? & ->) | [(-> & ? & ->) | [(-> & ? & ->) | [(? & ? & -> & -> & ?) | [(? & ? & ? & ? & -> & -> & ?) | [(-> & ? & ->) | [(-> & ? & ->) | (-> & ? & ->) ] ] ] ] ] ] ] ] ];
    simpl in Hn; repeat match goal with o : option _ |- _ => destruct o; simpl in Hn; [lia|] end; naive_solver.
Qed.

Lemma blocks_of_nodes fin bs :
  Forall (Forall (λ e, valid_node fin e → Forall okValue (executableValues e) → spelled e)) bs →
  Forall (Forall (valid_node fin)) bs → Forall okValue (blocksValues bs) → Forall (Forall spelled) bs.
Proof.
  rewrite Forall_flat_map. intros H1 H2 H3. rewrite Forall_forall in *. intros b Hb. specialize (H1 b Hb). specialize (H2 b Hb).
  specialize (H3 b Hb). rewrite Forall_flat_map in H3. rewrite Forall_forall in *. auto.
Qed.

Lemma executable_spelled fin e : valid_node fin e → Forall okValue (executableValues e) → spelled e.
Proof.
  induction e as [e [IHc IHf]] using Executable_nested_ind. intros Hv%valid_tagged Hok.
  destruct Hv as [ [v ->] | [ [v ->] | [ [v ->] | [ [v ->] | [ [v ->] | [ (bs & els & -> & Hbs & Hels) | [ (a & i & x & bs & -> & Hbs)
    | [ [v ->] | [ [v ->] | [v ->] ] ] ] ] ] ] ] ] ]; simpl in *; rewrite ?app_nil_r in Hok.
  - by apply raise_spelled.
  - by apply send_spelled.
  - by apply cancel_spelled.
  - by apply log_spelled.
  - by apply assign_spelled.
  - destruct IHc as [IHb IHe]. apply Forall_app in Hok as [Hob Hoe]. apply choose_spelled; [|by eapply blocks_of_nodes].
    rewrite Forall_flat_map in Hob. rewrite Forall_forall in *. intros [c acts] Hin. specialize (IHb _ Hin). specialize (Hbs _ Hin).
    specialize (Hob _ Hin). simpl in *. apply (Forall_app _ (expressionValues c)) in Hob as [? ?]. split; [done|]. by eapply blocks_of_nodes.
  - apply (Forall_app _ (expressionValues a)) in Hok as [Ha Hob]. apply forEach_spelled; [done|]. by eapply blocks_of_nodes.
  - by apply script_spelled.
  - by apply call_spelled.
  - by apply extension_spelled.
Qed.

Lemma valid_blocks_spell fin bs :
  valid_blocks fin bs → Forall okValue (blocksValues bs) →
  ∃ ws, encodeBlocks bs = Ok ws ∧ (∀ path, decodeBlocks ws path = Ok bs) ∧ Forall spellsBlock ws.
Proof.
  intros Hv Hok. apply blocks_spell. apply (blocks_of_nodes fin); [|done|done].
  apply Forall_forall. intros b _. apply Forall_forall. intros e _. apply executable_spelled.
Qed.

(** ** Transitions, invocations and states *)

Lemma transition_spells t :
  valid_blocks false (td_Actions t) → Forall okValue (transitionValues t) →
  ∃ w, encodeTransition t = Ok w ∧ (∀ path, decodeTransition w path = Ok t)
       ∧ spells inspectTransition decTransition w (marshalTransition w).
Proof.
  unfold transitionValues. intros Hb Hok. apply Forall_app in Hok as [Hc Hok].
  destruct (valid_blocks_spell false _ Hb Hok) as (ws & E1 & E2 & E3). apply exprs_spell in Hc.
  exists (mkTransitionWire (td_Events t) (td_Targets t) (td_Type t) (td_Condition t) ws). unfold encodeTransition, decodeTransition.
  rewrite E1. split_and!; [done|intros path; simpl; rewrite E2; by destruct t|].
  pose proof (Forall_true _ (td_Events t) text_spells) as He. pose proof (Forall_true _ (td_Targets t) text_spells) as Ht.
  unfold marshalTransition, omitBlocks. cbn [tw_Events tw_Targets tw_Type tw_Condition tw_Actions]. spell_object.
  - unfold decTransition, decStruct. rewrite knownFields_Ok by known. cbn [mbind result_bind]. decode_fields. done.
  - intros path. unfold inspectTransition, withObject, inspectBlocksField. check_fields.
Qed.

Lemma invoke_spells i :
  valid_blocks true (id_Finalize i) → Forall okValue (invokeValues i) →
  ∃ w, encodeInvoke i = Ok w ∧ (∀ path, decodeInvoke w path = Ok i) ∧ spells inspectInvoke decInvoke w (marshalInvoke w).
Proof.
  unfold invokeValues. intros Hb Hok. split_values.
  match goal with H : Forall okValue (blocksValues _) |- _ => destruct (valid_blocks_spell true _ Hb H) as (ws & E1 & E2 & E3) end.
  match goal with H : Forall okValue (flat_map paramValues _) |- _ => apply params_spell in H end.
  eexists. unfold encodeInvoke, decodeInvoke. rewrite E1.
  split_and!; [reflexivity|intros path; simpl; rewrite E2; by destruct i|]. unfold marshalInvoke, omitBlocks.
  cbn [iw_DefinitionID iw_ID iw_IDLocation iw_Type iw_TypeExpr iw_Src iw_SrcExpr iw_Params iw_Content iw_AutoForward iw_Finalize]. spell_object.
  - unfold decInvoke, decStruct. rewrite knownFields_Ok by known. cbn [mbind result_bind]. decode_fields. done.
  - intros path. unfold inspectInvoke, withObject, inspectBlocksField. check_fields.
Qed.

Definition doneDataOf (d : DoneDataDefinition) : doneDataWire := mkDoneDataWire (dn_Params d) (dn_Content d).
Lemma doneData_spells d :
  Forall okValue (doneDataValues d) → spells inspectDoneData decDoneData (doneDataOf d) (marshalDoneData (doneDataOf d)).
Proof.
  unfold doneDataValues. intros Hok. split_values.
  match goal with H : Forall okValue (flat_map paramValues _) |- _ => apply params_spell in H end.
  unfold marshalDoneData. cbn [dw_Params dw_Content doneDataOf]. spell_object.
  - unfold decDoneData, decStruct. rewrite knownFields_Ok by known. cbn [mbind result_bind]. decode_fields. done.
  - intros path. unfold inspectDoneData, withObject. check_fields.
Qed.

Lemma stateID_spells id : spells inspectStateID decStateID id (marshalStateID id).
Proof.
  unfold marshalStateID. spell_object; [decode_struct decStateID id|].
  intros path. unfold inspectStateID, withObject. check_fields.
Qed.

(** What validation establishes of one state, as far as its syntax is concerned. *)
Definition shaped (s : StateDefinition) : Prop :=
  (sd_Kind s ≤ 4)%N
  ∧ (if isKind KindHistory s then (sd_History s ≤ 1)%N else sd_History s = historyKindCode Shallow)
  ∧ onSome (λ t, valid_blocks false (td_Actions t)) (sd_Initial s)
  ∧ valid_blocks false (sd_OnEntry s) ∧ valid_blocks false (sd_OnExit s)
  ∧ Forall (λ t, valid_blocks false (td_Actions t)) (sd_Transitions s)
  ∧ Forall (λ i, valid_blocks true (id_Finalize i)) (sd_Invokes s).

Lemma kindString_parse k path : (k ≤ 4)%N → parseStateKind (kindString k) path = Ok k.
Proof.
  intros H. assert (k = 0 ∨ k = 1 ∨ k = 2 ∨ k = 3 ∨ k = 4)%N as Hk by lia.
  destruct Hk as [-> | [-> | [-> | [-> | ->] ] ] ]; reflexivity.
Qed.

Definition historyText (s : StateDefinition) : string := if isKind KindHistory s then historyString (sd_History s) else "".

Lemma historyText_parse s path :
  (if isKind KindHistory s then (sd_History s ≤ 1)%N else sd_History s = historyKindCode Shallow) →
  parseHistoryKind (historyText s) (sd_Kind s) path = Ok (sd_History s).
Proof.
  unfold historyText, isKind, parseHistoryKind. case_bool_decide as Hk.
  - rewrite decide_True by done. intros H. assert (sd_History s = 0 ∨ sd_History s = 1)%N as Hh by lia.
    by destruct Hh as [-> | ->].
  - rewrite !decide_False by done. simpl. by intros ->.
Qed.

Lemma inspectKinds_Ok m s path :
  (∀ d, withField decString d "kind" m = Ok (kindString (sd_Kind s))) →
  withField decString (Ok "") "history" m = Ok (historyText s) → passes inspectText "kind" m → passes inspectText "history" m →
  (sd_Kind s ≤ 4)%N →
  (if isKind KindHistory s then (sd_History s ≤ 1)%N else sd_History s = historyKindCode Shallow) →
  inspectKinds m path = Ok ().
Proof.
  intros Hk Hh Pk Ph H4 Hhist. unfold inspectKinds. specialize (Hk (Err ioEOF)).
  rewrite withField_assoc in Hk, Hh. rewrite withField_assoc.
  destruct (assoc "kind" m) as [j|] eqn:E; [|done]. destruct (Pk j E) as [_ Pj]. specialize (Pj path). destruct j; try done.
  simpl in *. injection Hk as ->. rewrite kindString_parse by done. simpl. rewrite withField_assoc.
  destruct (assoc "history" m) as [j|] eqn:Eh; [|done]. destruct (Ph j Eh) as [_ Pj']. specialize (Pj' path). destruct j; try done.
  simpl in *. injection Hh as ->. by rewrite historyText_parse.
Qed.

Definition spelledState (s : StateDefinition) : Prop :=
  ∃ w, encodeState s = Ok w ∧ (∀ path, decodeState w path = Ok s) ∧ spells inspectState decState w (marshalState w).

Lemma encodeState_unfold s :
  encodeState s =
  (initial ← optionally encodeTransition (sd_Initial s);
   onEntry ← encodeBlocks (sd_OnEntry s);
   onExit ← encodeBlocks (sd_OnExit s);
   transitions ← result_list encodeTransition (sd_Transitions s);
   invokes ← result_list encodeInvoke (sd_Invokes s);
   children ← result_list encodeState (sd_Children s);
   Ok (mkStateWire (sd_ID s) (kindString (sd_Kind s)) (historyText s) initial onEntry onExit transitions invokes (sd_Data s)
         (doneDataOf <$> sd_DoneData s) children)).
Proof. by destruct s. Qed.

Abbreviation spellsTransition := (λ w, spells inspectTransition decTransition w (marshalTransition w)).

Lemma initial_spells o :
  onSome (λ t, valid_blocks false (td_Actions t)) o → Forall okValue (optValues transitionValues o) →
  ∃ ow, optionally encodeTransition o = Ok ow ∧ (∀ path, optionally (λ t, decodeTransition t path) ow = Ok o) ∧ onSome spellsTransition ow.
Proof.
  destruct o as [t|]; simpl; [|by exists None]. intros Hb Hok. destruct (transition_spells t Hb Hok) as (w & E1 & E2 & E3).
  exists (Some w). rewrite E1. split_and!; [done|intros path; simpl; by rewrite E2|done].
Qed.

Lemma doneDatas_spell o :
  Forall okValue (optValues doneDataValues o) →
  onSome (λ w, spells inspectDoneData decDoneData w (marshalDoneData w)) (doneDataOf <$> o).
Proof. destruct o as [d|]; [|done]. apply doneData_spells. Qed.

Lemma Forall_both {A} (P Q R : A → Prop) l : (∀ a, P a → Q a → R a) → Forall P l → Forall Q l → Forall R l.
Proof. intros H HP HQ. rewrite Forall_forall in *. auto. Qed.

Lemma state_wire_spells s initial onEntry onExit transitions invokes children :
  shaped s → onSome spellsTransition initial → Forall spellsBlock onEntry → Forall spellsBlock onExit →
  Forall spellsTransition transitions → Forall (λ w, spells inspectInvoke decInvoke w (marshalInvoke w)) invokes →
  Forall okValue (flat_map datumValues (sd_Data s)) → Forall okValue (optValues doneDataValues (sd_DoneData s)) →
  Forall (λ w, spells inspectState decState w (marshalState w)) children →
  let w := mkStateWire (sd_ID s) (kindString (sd_Kind s)) (historyText s) initial onEntry onExit transitions invokes (sd_Data s)
             (doneDataOf <$> sd_DoneData s) children in
  spells inspectState decState w (marshalState w).
Proof.
  intros (Hk & Hh & _) Hi Hen Hex Ht Hinv Hd%data_spell Hdd%doneDatas_spell Hch w. pose proof (stateID_spells (sd_ID s)) as Hid.
  cbn [w marshalState]. unfold omitBlocks. spell_object.
  - cbn [decState]. unfold decStruct. rewrite knownFields_Ok by known. cbn [mbind result_bind]. decode_fields. done.
  - intros path. cbn [inspectState]. unfold withObject, inspectBlocksField.
    do 3 (apply seq_Ok; [solve [apply checkAllowed_Ok; known | auto 20 with json]|]).
    apply seq_Ok; [by eapply inspectKinds_Ok|]. check_fields.
Qed.

Lemma state_spells s : every shaped s → Forall okValue (stateValues s) → spelledState s.
Proof.
  induction s as [s IH] using StateDefinition_nested_ind. intros [Hs Hch]%every_inv Hok.
  assert (Forall okValue (ownValues s ++ flat_map stateValues (sd_Children s))) as Hv by (by destruct s).
  apply Forall_app in Hv as [Hown Hchv]. unfold ownValues in Hown.
  apply Forall_app in Hown as [Vi Hown]. apply Forall_app in Hown as [Ven Hown]. apply Forall_app in Hown as [Vex Hown].
  apply Forall_app in Hown as [Vt Hown]. apply Forall_app in Hown as [Vinv Hown]. apply Forall_app in Hown as [Vd Vdd].
  apply Forall_flat_map in Vt, Vinv, Hchv.
  pose proof Hs as (_ & _ & Si & Sen & Sex & St & Sinv).
  destruct (initial_spells _ Si Vi) as (wi & I1 & I2 & I3).
  destruct (valid_blocks_spell _ _ Sen Ven) as (wen & En1 & En2 & En3).
  destruct (valid_blocks_spell _ _ Sex Vex) as (wex & Ex1 & Ex2 & Ex3).
  destruct (loop_spells encodeTransition decodeTransition spellsTransition (sd_Transitions s)) as (wt & T1 & T2 & T3).
  { apply (Forall_both _ _ _ _ transition_spells St Vt). }
  destruct (loop_spells encodeInvoke decodeInvoke (λ w, spells inspectInvoke decInvoke w (marshalInvoke w)) (sd_Invokes s)) as (wv & V1 & V2 & V3).
  { apply (Forall_both _ _ _ _ invoke_spells Sinv Vinv). }
  destruct (loop_spells encodeState decodeState (λ w, spells inspectState decState w (marshalState w)) (sd_Children s)) as (wc & C1 & C2 & C3).
  { rewrite Forall_forall in *. intros x Hx. apply (IH x Hx); auto. }
  exists (mkStateWire (sd_ID s) (kindString (sd_Kind s)) (historyText s) wi wen wex wt wv (sd_Data s) (doneDataOf <$> sd_DoneData s) wc).
  split_and!.
  - rewrite encodeState_unfold, I1. simpl. rewrite En1. simpl. rewrite Ex1. simpl. rewrite T1. simpl. rewrite V1. simpl. by rewrite C1.
  - intros path. destruct Hs as (Hk & Hh & _). cbn [decodeState sw_Kind sw_History sw_Initial sw_OnEntry sw_OnExit sw_Transitions sw_Invokes sw_Data sw_DoneData sw_Children sw_ID].
    rewrite kindString_parse by done. cbn [mbind result_bind]. rewrite historyText_parse by done. cbn [mbind result_bind].
    rewrite I2. cbn [mbind result_bind]. rewrite En2. cbn [mbind result_bind]. rewrite Ex2. cbn [mbind result_bind].
    rewrite T2. cbn [mbind result_bind]. rewrite V2. cbn [mbind result_bind]. rewrite C2. cbn [mbind result_bind].
    destruct s as [? ? ? ? ? ? ? ? ? dd ?]. simpl. by destruct dd as [ [] | ].
  - by apply state_wire_spells.
Qed.

(** * What validation says about the syntax of a definition

    [Validate] checks a normalized copy.  Normalization changes neither the
    content of a state nor its values, so what was checked holds of the
    definition itself: every node is tagged rightly, and every value can be
    written. *)

Abbreviation writable := (Forall (λ v, is_Ok (Wire v))).

(** ** Values of valid content *)

Lemma validateExpression_writable e path : validateExpression e path = Ok () → writable (expressionValues e).
Proof. unfold validateExpression. intros H. inv_ok. repeat constructor. eexists. by eapply at_path_Ok. Qed.
#[local] Hint Resolve validateExpression_writable : json.

Lemma whenSome_writable {A} (f : A → list Value) (o : option A) (check : A → result unit) :
  (∀ a, check a = Ok () → writable (f a)) → whenSome o check = Ok () → writable (optValues f o).
Proof. destruct o; simpl; [auto|constructor]. Qed.

Lemma checkEach_writable {A} (f : A → list Value) (check : N → A → result unit) i xs :
  (∀ i a, check i a = Ok () → writable (f a)) → checkEach check i xs = Ok () → writable (flat_map f xs).
Proof.
  intros Hf. revert i. induction xs as [|x xs IH]; intros i; simpl; [constructor|].
  intros ([] & Hx & H)%result_bind_Ok. apply Forall_app. split; [by eapply Hf | by eapply IH].
Qed.

Lemma forRange_writable {A S} (f : A → list Value) (check : N → A → S → result S) i xs s s' :
  (∀ i a s s', check i a s = Ok s' → writable (f a)) → forRange check i xs s = Ok s' → writable (flat_map f xs).
Proof.
  intros Hf. revert i s. induction xs as [|x xs IH]; intros i s; simpl; [constructor|].
  intros (s1 & Hx & H)%result_bind_Ok. apply Forall_app. split; [by eapply Hf | by eapply IH].
Qed.

(** The steps of a check, down to the expressions. *)
Ltac writable_step :=
  match goal with
  | |- Forall _ (_ ++ _) => apply Forall_app; split
  | H : whenSome ?o _ = Ok () |- Forall _ (optValues _ ?o) => eapply whenSome_writable; [|exact H]; simpl; eauto with json
  | H : whenSome ?o _ = Ok ?u |- Forall _ (optValues _ ?o) => destruct u
  end.
Ltac writables := inv_ok; repeat writable_step; eauto with json.

Lemma validateParam_writable path i q seen seen' : validateParam path i q seen = Ok seen' → writable (paramValues q).
Proof. unfold validateParam, paramValues. intros H. writables. Qed.
Lemma validateParams_writable ps path : validateParams ps path = Ok () → writable (flat_map paramValues ps).
Proof. unfold validateParams. intros (s & H & _)%result_bind_Ok. eapply forRange_writable; [|exact H]. intros. by eapply validateParam_writable. Qed.
#[local] Hint Resolve validateParams_writable : json.

Lemma validateRaise_writable r path : validateRaise r path = Ok () → writable (raiseValues r).
Proof. unfold validateRaise, raiseValues. intros H. writables. Qed.
Lemma validateSend_writable s path : validateSend s path = Ok () → writable (sendValues s).
Proof. unfold validateSend, sendValues. intros H. writables. Qed.
Lemma validateCancel_writable c path : validateCancel c path = Ok () → writable (cancelValues c).
Proof. unfold validateCancel, cancelValues. intros H. writables. Qed.
Lemma validateLog_writable l path : validateLog l path = Ok () → writable (logValues l).
Proof. unfold validateLog, logValues. intros H. writables. Qed.
Lemma validateExtension_writable x path : validateExtension x path = Ok () → writable (extensionValues x).
Proof. unfold validateExtension. intros H. inv_ok. repeat constructor. eexists. by eapply at_path_Ok. Qed.
Lemma validateFunctionRef_writable r path : validateFunctionRef r path = Ok () → writable (functionValues r).
Proof.
  unfold validateFunctionRef. intros H. inv_ok. eapply checkEach_writable; [|eassumption]. simpl. intros. by eapply validateExpression_writable.
Qed.
Lemma validateDatum_writable path i d seen seen' : validateDatum path i d seen = Ok seen' → writable (datumValues d).
Proof. unfold validateDatum, datumValues. intros H. writables. Qed.
Lemma validateDoneData_writable d path : validateDoneData d path = Ok () → writable (doneDataValues d).
Proof. unfold validateDoneData, doneDataValues. intros H. writables. Qed.

Lemma validateBlocks_writable (check : Executable → string → result unit) bs path :
  Forall (Forall (λ e, ∀ path, check e path = Ok () → writable (executableValues e))) bs →
  validateBlocks_with check bs path = Ok () → writable (blocksValues bs).
Proof.
  intros Hf H. apply Forall_flat_map. rewrite Forall_forall in *. intros b Hb. specialize (Hf b Hb).
  unfold validateBlocks_with in H. eapply checkEach_Ok in H as (i & H); [|exact Hb]. unfold validateBlock in H.
  apply result_bind_Ok in H as (_ & _ & H). apply Forall_flat_map, Forall_forall. intros e He.
  eapply checkEach_Ok in H as (j & Hj); [|exact He]. rewrite Forall_forall in Hf. by eapply Hf.
Qed.

Lemma validateExecutable_writable fin e path : validateExecutable fin e path = Ok () → writable (executableValues e).
Proof.
  revert path. induction e as [e [IHc IHf]] using Executable_nested_ind. intros path Hv.
  pose proof (valid_tagged fin e (ex_intro _ path Hv)) as Ht. destruct e as [k rs sd cn lg asg ch fe sc ca ex]. simpl in Hv.
  apply result_bind_Ok in Hv as (_ & _ & Hv). apply result_bind_Ok in Hv as (_ & _ & Hv).
  destruct Ht as [ (v & Ht) | [ (v & Ht) | [ (v & Ht) | [ (v & Ht) | [ (v & Ht) | [ (bs & els & Ht & _) | [ (a & i & x & bs & Ht & _) | [ (v & Ht) | [ (v & Ht) | (v & Ht) ] ] ] ] ] ] ] ] ];
    injection Ht as -> -> -> -> -> -> -> -> -> -> ->;
    simpl in Hv |- *; rewrite ?app_nil_r.
  - by eapply validateRaise_writable.
  - by eapply validateSend_writable.
  - by eapply validateCancel_writable.
  - by eapply validateLog_writable.
  - apply result_bind_Ok in Hv as ([] & H1 & H2). apply (Forall_app _ (expressionValues _)). eauto with json.
  - apply result_bind_Ok in Hv as (_ & _ & Hv). apply result_bind_Ok in Hv as ([] & Hb & He). destruct IHc as [IHb IHe].
    apply Forall_app. split; [|exact (validateBlocks_writable _ _ _ IHe He)]. apply Forall_flat_map, Forall_forall. intros [c acts] Hin.
    eapply checkEach_Ok in Hb as (j & Hj); [|exact Hin]. simpl in Hj. apply result_bind_Ok in Hj as ([] & Hc & Ha).
    rewrite Forall_forall in IHb. specialize (IHb _ Hin).
    apply (Forall_app _ (expressionValues c)). split; [by eapply validateExpression_writable | exact (validateBlocks_writable _ _ _ IHb Ha)].
  - apply result_bind_Ok in Hv as ([] & Hc & Hv). apply result_bind_Ok in Hv as (_ & _ & Ha).
    apply (Forall_app _ (expressionValues a)). split; [by eapply validateExpression_writable | exact (validateBlocks_writable _ _ _ IHf Ha)].
  - by eapply validateExpression_writable.
  - by eapply validateFunctionRef_writable.
  - by eapply validateExtension_writable.
Qed.

Lemma valid_writable fin bs : valid_blocks fin bs → writable (blocksValues bs).
Proof.
  intros H. apply Forall_flat_map. eapply Forall_impl; [exact H|]. intros b Hb. apply Forall_flat_map.
  eapply Forall_impl; [exact Hb|]. intros e [path He]. by eapply validateExecutable_writable.
Qed.

(** ** Valid states *)

Lemma validateTransition_shaped v t path b :
  validateTransition v t path b = Ok () → valid_blocks false (td_Actions t) ∧ writable (transitionValues t).
Proof.
  unfold validateTransition, transitionValues, validateBlocks. intros H. inv_ok.
  match goal with H : validateBlocks_with _ _ _ = Ok _ |- _ => apply validateBlocks_valid in H as Hb end.
  split; [done|]. apply Forall_app. split; [writables|by eapply valid_writable].
Qed.

Lemma validateInvoke_shaped i path owner seen seen' :
  validateInvoke i path owner seen = Ok seen' → valid_blocks true (id_Finalize i) ∧ writable (invokeValues i).
Proof.
  unfold validateInvoke, invokeValues, validateBlocks. intros H. inv_ok.
  match goal with H : validateBlocks_with _ _ _ = Ok _ |- _ => apply validateBlocks_valid in H as Hb end.
  split; [done|]. pose proof (valid_writable _ _ Hb). writables.
Qed.

Definition wellWritten (s : StateDefinition) : Prop := shaped s ∧ writable (ownValues s).

Lemma checkEach_Forall {A} (P : A → Prop) (f : N → A → result unit) i xs :
  (∀ i x, f i x = Ok () → P x) → checkEach f i xs = Ok () → Forall P xs.
Proof.
  intros Hf. revert i. induction xs as [|x xs IH]; intros i; simpl; [constructor|].
  intros ([] & Hx & H)%result_bind_Ok. constructor; [by eapply Hf | by eapply IH].
Qed.
Lemma forRange_Forall {A S} (P : A → Prop) (f : N → A → S → result S) i xs s s' :
  (∀ i x s s', f i x s = Ok s' → P x) → forRange f i xs s = Ok s' → Forall P xs.
Proof.
  intros Hf. revert i s. induction xs as [|x xs IH]; intros i s; simpl; [constructor|].
  intros (s1 & Hx & H)%result_bind_Ok. constructor; [by eapply Hf | by eapply IH].
Qed.

Lemma validateStateHead_shape s path b :
  validateStateHead s path b = Ok () →
  (sd_Kind s ≤ 4)%N ∧ (if isKind KindHistory s then (sd_History s ≤ 1)%N else sd_History s = historyKindCode Shallow)
  ∧ (b = true → sd_Data s = []).
Proof.
  unfold validateStateHead. intros ([] & H1%fail_if_Ok & H)%result_bind_Ok.
  apply result_bind_Ok in H as ([] & H2%fail_if_Ok & H). apply result_bind_Ok in H as ([] & H3%fail_if_Ok & H).
  apply result_bind_Ok in H as (_ & _ & H). apply result_bind_Ok in H as (_ & _ & H).
  apply result_bind_Ok in H as ([] & H4%fail_if_Ok & _). split_and!.
  - by apply N.ltb_ge in H1.
  - destruct (isKind KindHistory s); simpl in *; [by apply N.ltb_ge in H2|]. by apply negb_false_iff, bool_decide_eq_true_1 in H3.
  - intros ->. by destruct (sd_Data s).
Qed.

Lemma validateStateSelf_wellWritten v n s b seen seen' : validateStateSelf v n s b seen = Ok seen' → wellWritten s.
Proof.
  unfold validateStateSelf. intros ([] & Hhead & H)%result_bind_Ok. apply result_bind_Ok in H as (seen1 & Hdata & H).
  apply result_bind_Ok in H as (_ & _ & H). apply result_bind_Ok in H as ([] & Hi & H). apply result_bind_Ok in H as ([] & Hen & H).
  apply result_bind_Ok in H as ([] & Hex & H). apply result_bind_Ok in H as ([] & Ht & H). apply result_bind_Ok in H as (seen2 & Hv & H).
  apply result_bind_Ok in H as ([] & Hdd & _). apply validateStateHead_shape in Hhead as (Hk & Hh & Hroot).
  unfold validateBlocks in Hen, Hex. apply validateBlocks_valid in Hen, Hex.
  assert (onSome (λ t, valid_blocks false (td_Actions t) ∧ writable (transitionValues t)) (sd_Initial s)) as Hini.
  { unfold validateInitial in Hi. destruct (sd_Initial s) as [t|]; [|done]. simpl in Hi. apply result_bind_Ok in Hi as ([] & Hi & _).
    by eapply validateTransition_shaped. }
  apply (checkEach_Forall (λ t, valid_blocks false (td_Actions t) ∧ writable (transitionValues t))) in Ht;
    [|intros; by eapply validateTransition_shaped].
  apply (forRange_Forall (λ i, valid_blocks true (id_Finalize i) ∧ writable (invokeValues i))) in Hv;
    [|intros; by eapply validateInvoke_shaped].
  apply Forall_and in Ht as [Ht1 Ht2], Hv as [Hv1 Hv2]. split.
  - unfold shaped. split_and!; try done. by destruct (sd_Initial s); [apply Hini|].
  - unfold ownValues. rewrite !Forall_app, !Forall_flat_map. split_and!; try done.
    + destruct (sd_Initial s); [apply Hini|constructor].
    + apply Forall_flat_map. by eapply valid_writable.
    + apply Forall_flat_map. by eapply valid_writable.
    + destruct b; [by rewrite Hroot|]. apply Forall_flat_map. unfold validateDataDefinitions in Hdata.
      eapply forRange_writable; [|exact Hdata]. intros. by eapply validateDatum_writable.
    + eapply whenSome_writable; [|exact Hdd]. intros d. apply validateDoneData_writable.
Qed.

Lemma validateState_every v (Q : StateDefinition → Prop) s n b seen seen' :
  (∀ n x b seen seen', validateStateSelf v n x b seen = Ok seen' → Q x) → validateState v n s b seen = Ok seen' → every Q s.
Proof.
  intros HQ. revert n b seen seen'. induction s as [s IH] using StateDefinition_nested_ind. intros n b seen seen'.
  rewrite validateState_unfold. intros (seen1 & Hself & H)%result_bind_Ok. constructor; [by eapply HQ|].
  clear Hself. revert H. generalize 0%N as i. revert seen1. induction IH as [|x xs Hx _ IHxs]; intros seen1 i; simpl; [constructor|].
  intros (seen2 & H1 & H2)%result_bind_Ok. destruct (byID v !! sd_id x); [|done]. constructor; [by eapply Hx | by eapply IHxs].
Qed.

(** ** Normalization keeps what is written *)

Definition initialActions (s : StateDefinition) : list ExecutableBlock :=
  match sd_Initial s with Some t => td_Actions t | None => [] end.

Definition parts (s : StateDefinition) : N * N * list (list ExecutableBlock) * list (list ExecutableBlock) * list Value :=
  (sd_Kind s, sd_History s, initialActions s :: sd_OnEntry s :: sd_OnExit s :: (td_Actions <$> sd_Transitions s),
   id_Finalize <$> sd_Invokes s, ownValues s).

Fixpoint outline (s : StateDefinition) := parts s :: flat_map outline (sd_Children s).

Lemma outline_unfold s : outline s = parts s :: flat_map outline (sd_Children s).
Proof. by destruct s. Qed.

Definition partsOK (p : N * N * list (list ExecutableBlock) * list (list ExecutableBlock) * list Value) : Prop :=
  let '(k, h, blocks, finalizers, values) := p in
  (k ≤ 4)%N ∧ (if bool_decide (k = stateKindCode KindHistory) then (h ≤ 1)%N else h = historyKindCode Shallow)
  ∧ Forall (valid_blocks false) blocks ∧ Forall (valid_blocks true) finalizers ∧ writable values.

Lemma wellWritten_parts s : wellWritten s ↔ partsOK (parts s).
Proof.
  unfold wellWritten, shaped, partsOK, parts, isKind, initialActions. rewrite !Forall_cons, !Forall_fmap.
  destruct (sd_Initial s); simpl; [tauto|]. assert (valid_blocks false []) by constructor. tauto.
Qed.

Lemma every_outline P s : every (λ x, P (parts x)) s ↔ Forall P (outline s).
Proof.
  induction s as [s IH] using StateDefinition_nested_ind. rewrite outline_unfold, Forall_cons, Forall_flat_map. split.
  - intros [Hs Hch]%every_inv. split; [done|]. rewrite Forall_forall in *. intros x Hx. by apply IH, Hch.
  - intros [Hs Hch]. constructor; [done|]. rewrite Forall_forall in *. intros x Hx. by apply IH, Hch.
Qed.

Lemma outline_states s s' xs :
  parts s' = parts s → sd_Children s' = xs → flat_map outline xs = flat_map outline (sd_Children s) → outline s' = outline s.
Proof. intros Hp <- Hx. by rewrite !outline_unfold, Hp, Hx. Qed.

Lemma flat_map_Forall2 {A B C} (f : A → list C) (g : B → list C) l l' : Forall2 (λ x y, g y = f x) l l' → flat_map g l' = flat_map f l.
Proof. induction 1 as [|x y l l' Hx _ IH]; [done|]. simpl. by rewrite Hx, IH. Qed.

Lemma outline_stateIDs s path st s' st' : assignGeneratedStateIDs s path st = Ok (s', st') → outline s' = outline s.
Proof.
  revert path st s' st'. induction s as [s IH] using StateDefinition_nested_ind. intros path st s' st'.
  rewrite assignGeneratedStateIDs_unfold. intros (r & _ & H)%result_bind_Ok. apply result_bind_Ok in H as (r' & Hr' & [= <- <-]).
  eapply (outline_states s _ r'.1); [by destruct s|done|]. apply flat_map_Forall2. revert Hr'. generalize 0%N as i, (r.2) as st1.
  revert r'. induction IH as [|x xs Hx _ IHxs]; intros r' i st1; simpl; [intros [= <-]; constructor|].
  intros ([x' st2] & H1 & (r2 & H2 & [= <-])%result_bind_Ok)%result_bind_Ok. constructor; [by eapply Hx|by eapply IHxs].
Qed.

Lemma invokeValues_definitionID i st :
  invokeValues (assignInvokeDefinitionID i st).1 = invokeValues i ∧ id_Finalize (assignInvokeDefinitionID i st).1 = id_Finalize i.
Proof. unfold assignInvokeDefinitionID. case_decide; [|done]. by destruct (generate invokeName st). Qed.

Lemma outline_invokeIDs s st : outline (assignGeneratedInvokeDefinitionIDs s st).1 = outline s.
Proof.
  revert st. induction s as [s IH] using StateDefinition_nested_ind. intros st. rewrite assignGeneratedInvokeDefinitionIDs_unfold.
  pose proof (mapAccum_Forall2 assignInvokeDefinitionID (sd_Invokes s) st) as Hi.
  destruct (mapAccum assignInvokeDefinitionID (sd_Invokes s) st) as [ivs st1].
  pose proof (mapAccum_Forall2 assignGeneratedInvokeDefinitionIDs (sd_Children s) st1) as Hc.
  destruct (mapAccum assignGeneratedInvokeDefinitionIDs (sd_Children s) st1) as [chs st2]. cbn [fst] in *.
  eapply (outline_states s _ chs); [|done|].
  - assert (id_Finalize <$> ivs = id_Finalize <$> sd_Invokes s) as E1.
    { clear -Hi. induction Hi as [|i i' l l' (st' & ->) _ IHl]; [done|]. rewrite !fmap_cons, IHl. f_equal. apply invokeValues_definitionID. }
    assert (flat_map invokeValues ivs = flat_map invokeValues (sd_Invokes s)) as E2.
    { apply flat_map_Forall2. eapply Forall2_impl; [exact Hi|]. intros i i' (st' & ->). apply invokeValues_definitionID. }
    unfold parts, ownValues. simpl. by rewrite E1, E2.
  - apply flat_map_Forall2. rewrite Forall_forall in IH. eapply Forall2_same_length_lookup_2; [by eapply Forall2_length|].
    intros k x y Hx Hy. destruct (Forall2_lookup_lr _ _ _ _ _ _ Hc Hx Hy) as (st' & ->). apply IH. by eapply list_elem_of_lookup_2.
Qed.

Lemma outline_map (f : StateDefinition → StateDefinition) s :
  (∀ s, parts (f s) = parts s) → (∀ s, sd_Children (f s) = map f (sd_Children s)) → outline (f s) = outline s.
Proof.
  intros Hp Hc. induction s as [s IH] using StateDefinition_nested_ind. eapply outline_states; [apply Hp|apply Hc|].
  induction IH as [|x xs Hx _ IHxs]; [done|]. simpl. by rewrite Hx, IHxs.
Qed.

Lemma outline_implicitInitials s : outline (normalizeImplicitInitials s) = outline s.
Proof.
  apply outline_map; [|by intros []]. clear s. intros s. assert (normalizeImplicitInitials s =
    set_Initial (implicitInitial s) (set_Children (map normalizeImplicitInitials (sd_Children s)) s)) as -> by (by destruct s).
  unfold parts, initialActions, ownValues. simpl. unfold implicitInitial. destruct (sd_Initial s); [done|].
  destruct (isKind KindCompound s); [|done]. by destruct (head _).
Qed.

Lemma normalizeTransitionType_content t :
  td_Actions (normalizeTransitionType t) = td_Actions t ∧ transitionValues (normalizeTransitionType t) = transitionValues t.
Proof. unfold normalizeTransitionType. by case_decide. Qed.

Lemma outline_transitionTypes s : outline (normalizeTransitionTypes s) = outline s.
Proof.
  apply outline_map; [|by intros []]. clear s. intros [id k h ini en ex ts ivs da dn chs].
  assert (td_Actions <$> (normalizeTransitionType <$> ts) = td_Actions <$> ts) as E1.
  { induction ts as [|t ts IH]; [done|]. rewrite !fmap_cons, IH. f_equal. apply normalizeTransitionType_content. }
  assert (flat_map transitionValues (normalizeTransitionType <$> ts) = flat_map transitionValues ts) as E2.
  { clear E1. induction ts as [|t ts IH]; [done|]. simpl. f_equal; [apply normalizeTransitionType_content|exact IH]. }
  unfold parts, initialActions, ownValues. cbn [normalizeTransitionTypes set_Initial set_Transitions set_Children sd_ID sd_Kind sd_History
    sd_Initial sd_OnEntry sd_OnExit sd_Transitions sd_Invokes sd_Data sd_DoneData sd_Children].
  rewrite E1, E2. destruct ini as [t|]; [|done]. simpl. by destruct (normalizeTransitionType_content t) as [-> ->].
Qed.

Lemma outline_normalizeRoot r r' : normalizeRoot r = Ok r' → outline r' = outline r.
Proof.
  unfold normalizeRoot. intros ([r1 st] & H & [= <-])%result_bind_Ok. simpl.
  by rewrite outline_transitionTypes, outline_implicitInitials, outline_invokeIDs, (outline_stateIDs _ _ _ _ _ H).
Qed.

(** ** Valid definitions *)

Lemma stateValues_every s : every wellWritten s → writable (stateValues s).
Proof.
  induction s as [s IH] using StateDefinition_nested_ind. intros [Hs Hch]%every_inv.
  assert (stateValues s = ownValues s ++ flat_map stateValues (sd_Children s)) as -> by (by destruct s).
  apply Forall_app. split; [apply Hs|]. apply Forall_flat_map. rewrite Forall_forall in *. auto.
Qed.

Lemma Validate_wellWritten d :
  Validate d = Ok () → every shaped (df_Root d) ∧ writable (definitionValues d).
Proof.
  unfold Validate, normalizeDefinition. rewrite cloneDefinition_id. intros (n & H & _)%result_bind_Ok.
  apply result_bind_Ok in H as (_ & _ & H). apply result_bind_Ok in H as (seen & Hdata & H).
  apply result_bind_Ok in H as (r & Hr & H). apply result_bind_Ok in H as (v & _ & H). apply result_bind_Ok in H as (seen' & Hv & _).
  eapply (validateState_every v wellWritten) in Hv; [|intros; by eapply validateStateSelf_wellWritten].
  assert (every wellWritten (df_Root d)) as Hw.
  { eapply every_impl; [intros x; apply wellWritten_parts|]. apply every_outline. rewrite <- (outline_normalizeRoot _ _ Hr).
    apply every_outline. eapply every_impl; [|exact Hv]. intros x. apply wellWritten_parts. }
  split; [eapply every_impl; [|exact Hw]; by intros x []|].
  apply Forall_app. split; [|by apply stateValues_every].
  eapply forRange_writable; [|exact Hdata]. intros. by eapply validateDatum_writable.
Qed.

Lemma definition_spells d :
  every shaped (df_Root d) → Forall okValue (definitionValues d) →
  ∃ r, encodeState (df_Root d) = Ok r ∧ (∀ path, decodeState r path = Ok (df_Root d)) ∧
  let w := mkDefinitionWire (df_ID d) (df_Name d) (df_Datamodel d) (df_RevisionSalt d) (df_DataBinding d) (df_Data d) r in
  spells inspectDefinition decDefinition w (marshalDefinition w).
Proof.
  intros Hs Hok. apply Forall_app in Hok as [Hd Hr]. destruct (state_spells _ Hs Hr) as (r & E1 & E2 & Hsp). apply data_spell in Hd.
  exists r. split_and!; [done..|]. unfold marshalDefinition. cbn [xw_ID xw_Name xw_Datamodel xw_RevisionSalt xw_DataBinding xw_Data xw_Root].
  spell_object.
  - unfold decDefinition, decStruct. rewrite knownFields_Ok by known. cbn [mbind result_bind]. decode_fields. done.
  - intros path. unfold inspectDefinition, withObject. check_fields.
Qed.
