(* ===== verification/JSONAccepted.v ===== *)
(** * Inspected documents decode

    The converse of JSONRoundtrip.v: a tree that passes the inspection of
    [Unmarshal] is decoded without an error, and a clean one to a definition in
    whose values no key occurs twice.  So the only error that can follow the
    inspection is the one of validation. *)

From S2P Require Import Prelude Identifier Values Events Datamodel Chart Definitions Validate Compile Validated Content.
From S2P Require Import JSONTree JSONSyntax JSONInspect JSONDocument JSONRoundtrip.
From stdpp Require Import options.

(** If [j] passes the inspection it decodes, to something of which [Q] holds if
    [j] is clean. *)
Definition acceptedAt {A} (inspect : JSON → string → result unit) (dec : JSON → result A) (Q : A → Prop) (j : JSON) : Prop :=
  ∀ path, inspect j path = Ok () → ∃ a, dec j = Ok a ∧ (clean j = true → Q a).
Definition accepted {A} (inspect : JSON → string → result unit) (dec : JSON → result A) (Q : A → Prop) : Prop :=
  ∀ j, acceptedAt inspect dec Q j.

(** ** Sizes, for the nested forms *)

Fixpoint jsize (j : JSON) : nat :=
  match j with
  | JList l => S (list_sum (map jsize l))
  | JMap m => S (list_sum (map (λ kj, jsize kj.2) m))
  | _ => 1
  end.

Lemma jsize_ind (P : JSON → Prop) : (∀ j, (∀ j', jsize j' < jsize j → P j') → P j) → ∀ j, P j.
Proof. apply (well_founded_induction (well_founded_ltof _ jsize)). Qed.

Lemma jsize_item x l : x ∈ l → jsize x < jsize (JList l).
Proof. induction l as [|y l IH]; [by intros ?%elem_of_nil|]. intros [->|Hx]%elem_of_cons; simpl; [lia|]. apply IH in Hx. simpl in Hx. lia. Qed.
Lemma jsize_field n m j : assoc n m = Some j → jsize j < jsize (JMap m).
Proof.
  induction m as [|[k x] m IH]; [done|]. simpl. case_decide; [intros [= ->]; lia|]. intros Hj%IH. simpl in Hj. lia.
Qed.

Lemma clean_field n m j : clean (JMap m) = true → assoc n m = Some j → clean j = true.
Proof.
  intros [_ Hc]%clean_map. induction Hc as [|[k x] m Hx _ IH]; [done|]. simpl in *. case_decide; [by intros [= <-]|done].
Qed.

(** ** Fields *)

Lemma nil_or_not j : j = JNil ∨ j ≠ JNil.
Proof. destruct j; [by left|by right..]. Qed.

Lemma filter_nil_inv {A} (P : A → Prop) `{∀ x, Decision (P x)} l x : filter P l = [] → x ∈ l → ¬ P x.
Proof. intros E Hx HP. assert (x ∈ filter P l) as Hin by (by apply list_elem_of_filter). rewrite E in Hin. by apply elem_of_nil in Hin. Qed.

Lemma checkAllowed_inv m path allowed : checkAllowed m path allowed = Ok () → knownFields allowed m = Ok ().
Proof.
  unfold checkAllowed. destruct (filter _ (merge_sort _ _)) eqn:E; [|done]. intros _. apply knownFields_Ok. intros k Hk.
  destruct (decide (k ∈ allowed)) as [|Hn]; [done|]. exfalso. eapply (filter_nil_inv _ _ k) in E; [by apply E|].
  by rewrite merge_sort_Permutation.
Qed.

Lemma stringField_inv m path names n :
  inspectStringFields m path names = Ok () → n ∈ names → ∃ s, withField decString (Ok "") n m = Ok s.
Proof.
  intros H Hn. eapply checkEach_Ok in H as (i & H); [|exact Hn]. rewrite withField_assoc in H. rewrite withField_assoc. destruct (assoc n m) as [j|]; [|eauto].
  destruct j; try done. by eexists.
Qed.
Lemma boolField_inv m path names n :
  inspectBoolFields m path names = Ok () → n ∈ names → ∃ b, withField decBool (Ok false) n m = Ok b.
Proof.
  intros H Hn. eapply checkEach_Ok in H as (i & H); [|exact Hn]. rewrite withField_assoc in H. rewrite withField_assoc. destruct (assoc n m) as [j|]; [|eauto].
  destruct j; try done. by eexists.
Qed.

Section fields.
Context {A : Type} (inspect : JSON → string → result unit) (dec : JSON → result A) (Q : A → Prop) (n : string) (m : list (string * JSON)).
Hypothesis Hat : ∀ j, assoc n m = Some j → acceptedAt inspect dec Q j.

Lemma optional_inv path :
  inspectOptional inspect m n path = Ok () →
  ∃ o, withField (decPtr dec) (Ok None) n m = Ok o ∧ (clean (JMap m) = true → onSome Q o).
Proof using Hat.
  unfold inspectOptional. rewrite !withField_assoc. destruct (assoc n m) as [j|] eqn:E; [|by exists None].
  destruct (nil_or_not j) as [->|Hj]; [by exists None|]. intros H. destruct (Hat j eq_refl (path +:+ "." +:+ n)) as (a & Ha & HQ).
  { by destruct j. }
  exists (Some a). split; [destruct j; simpl; by rewrite ?Ha|]. intros Hc. by eapply HQ, clean_field.
Qed.

Lemma required_inv d path :
  inspect (get n m) path = Ok () → inspect JNil path ≠ Ok () →
  ∃ a, withField dec d n m = Ok a ∧ (clean (JMap m) = true → Q a).
Proof using Hat.
  rewrite !withField_assoc. destruct (assoc n m) as [j|] eqn:E; [|done]. intros H _.
  destruct (Hat j eq_refl path H) as (a & Ha & HQ). exists a. split; [done|]. intros Hc. by eapply HQ, clean_field.
Qed.

Lemma field_inv d path :
  withField (λ j, inspect j path) (Ok ()) n m = Ok () → (clean (JMap m) = true → Q d) →
  ∃ a, withField dec (Ok d) n m = Ok a ∧ (clean (JMap m) = true → Q a).
Proof using Hat.
  rewrite !withField_assoc. destruct (assoc n m) as [j|] eqn:E; [|by eauto]. intros H _.
  destruct (Hat j eq_refl path H) as (a & Ha & HQ). exists a. split; [done|]. intros Hc. by eapply HQ, clean_field.
Qed.
End fields.

Section lists.
Context {A : Type} (inspect : JSON → string → result unit) (dec : JSON → result A) (Q : A → Prop).

Lemma accepted_array j :
  (∀ x l, j = JList l → x ∈ l → acceptedAt inspect dec Q x) → acceptedAt (inspectArray inspect) (decList dec) (Forall Q) j.
Proof.
  intros Hat path. destruct j as [| | | | | |l| |]; try done. intros H. specialize (λ x, Hat x l eq_refl). unfold inspectArray in H. simpl in H.
  assert (∃ xs, result_list dec l = Ok xs ∧ (Forall (λ j, clean j = true) l → Forall Q xs)) as (xs & E & HQ).
  { revert H. generalize 0%N as i. induction l as [|x l IH]; intros i; simpl; [intros _; exists []; by split|].
    intros ([] & Hx & Hl)%result_bind_Ok. destruct (Hat x ltac:(by left) _ Hx) as (a & Ha & HQa).
    destruct (IH (λ y Hy, Hat y ltac:(by right)) _ Hl) as (xs & Hxs & HQs). exists (a :: xs). rewrite Ha. simpl. rewrite Hxs.
    split; [done|]. intros [? ?]%Forall_cons. constructor; auto. }
  exists xs. split; [done|]. intros Hc%clean_list. auto.
Qed.

Lemma listField_inv n m path :
  (∀ j, assoc n m = Some j → acceptedAt (inspectArray inspect) (decList dec) (Forall Q) j) →
  inspectListField inspect m n path = Ok () →
  ∃ l, withField (decList dec) (Ok []) n m = Ok l ∧ (clean (JMap m) = true → Forall Q l).
Proof.
  unfold inspectListField. rewrite !withField_assoc. intros Hat. destruct (assoc n m) as [j|] eqn:E; [|exists []; by split].
  destruct (nil_or_not j) as [->|Hj]; [exists []; by split|]. intros H.
  destruct (Hat j eq_refl (path +:+ "." +:+ n)) as (a & Ha & HQ); [by destruct j|]. exists a. split; [done|].
  intros Hc. by eapply HQ, clean_field.
Qed.
End lists.

(** ** Values *)

Fixpoint distinctWire (w : ValueWire) : bool :=
  let 'mkWire _ _ _ _ _ l m _ p := w in
  match l with Some l => forallb distinctWire l | None => true end
  && match m with Some m => bool_decide (NoDup m.*1) && forallb (λ kw, distinctWire kw.2) m | None => true end
  && match p with Some p => distinctWire p | None => true end.

Lemma result_list_distinct (l : list ValueWire) vs :
  Forall (λ w, ∀ v, ValueFromWire w = Ok v → distinctWire w = true → distinctKeys v = true) l →
  result_list ValueFromWire l = Ok vs → forallb distinctWire l = true → forallb distinctKeys vs = true.
Proof.
  intros H. revert vs. induction H as [|w l Hw _ IH]; intros vs; simpl; [by intros [= <-]|].
  intros (v & Hv & (r & Hr & [= <-])%result_bind_Ok)%result_bind_Ok [? ?]%andb_true_iff. simpl. rewrite (Hw v), (IH r); done.
Qed.
Lemma result_assoc_distinct (m : list (string * ValueWire)) vs :
  Forall (λ kw, ∀ v, ValueFromWire kw.2 = Ok v → distinctWire kw.2 = true → distinctKeys v = true) m →
  result_assoc ValueFromWire m = Ok vs → forallb (λ kw, distinctWire kw.2) m = true → forallb (λ kv, distinctKeys kv.2) vs = true.
Proof.
  intros H. revert vs. induction H as [|[k w] l Hw _ IH]; intros vs; simpl; [by intros [= <-]|]. destruct (ValidString k); [|done].
  intros (v & Hv & (r & Hr & [= <-])%result_bind_Ok)%result_bind_Ok [? ?]%andb_true_iff. simpl in *. rewrite (Hw v), (IH r); done.
Qed.

Lemma fmap_Ok {A B} (f : A → B) r b : f <$> r = Ok b → ∃ a, r = Ok a ∧ b = f a.
Proof. destruct r as [a|]; [|done]. intros [= <-]. by exists a. Qed.

Lemma ValueFromWire_distinct w v : ValueFromWire w = Ok v → distinctWire w = true → distinctKeys v = true.
Proof.
  revert v. induction w as [ver k b s n l m t p IHl IHm IHp] using ValueWire_nested_ind. intros v Hv Hd. simpl in Hd.
  apply andb_true_iff in Hd as [Hd Hdp]. apply andb_true_iff in Hd as [Hdl Hdm]. simpl in Hv. case_bool_decide; [done|].
  repeat case_decide; repeat case_match; try discriminate Hv; simpl in *; try (injection Hv as <-; done).
  all: match type of Hv with
  | StringValue _ = _ => unfold StringValue in Hv; destruct (ValidString _); [|done]; by injection Hv as <-
  | NumberValue _ = _ => unfold NumberValue in Hv; apply result_bind_Ok in Hv as (c & _ & Hv); by injection Hv as <-
  | ListOf <$> _ = _ => apply fmap_Ok in Hv as (vs & Hvs & ->); by eapply result_list_distinct
  | MapOf <$> _ = _ => apply fmap_Ok in Hv as (vs & Hvs & ->); simpl; apply andb_true_iff in Hdm as [Hn Hdm];
      rewrite (result_assoc_keys _ _ _ Hvs), Hn; by eapply result_assoc_distinct
  | TaggedOf _ <$> _ = _ => apply fmap_Ok in Hv as (v' & Hv' & ->); simpl in *; by apply IHp
  end.
Qed.

Lemma decList_distinct l ws :
  (∀ j w, j ∈ l → decWire j = Ok w → clean j = true → distinctWire w = true) →
  result_list decWire l = Ok ws → forallb clean l = true → forallb distinctWire ws = true.
Proof.
  revert ws. induction l as [|j l IH]; intros ws Hat; simpl; [by intros [= <-]|].
  intros (w & Hw & (r & Hr & [= <-])%result_bind_Ok)%result_bind_Ok [? ?]%andb_true_iff. simpl.
  rewrite (Hat j w) by (by left || done). apply IH; [|done|done]. intros j' w' Hj'. apply Hat. by right.
Qed.
Lemma decEntries_distinct m ws :
  (∀ kj w, kj ∈ m → decWire kj.2 = Ok w → clean kj.2 = true → distinctWire w = true) →
  decEntries decWire m = Ok ws → forallb (λ kj, clean kj.2) m = true →
  ws.*1 = m.*1 ∧ forallb (λ kw, distinctWire kw.2) ws = true.
Proof.
  revert ws. induction m as [|[k j] m IH]; intros ws Hat; simpl; [by intros [= <-]|].
  intros (w & Hw & (r & Hr & [= <-])%result_bind_Ok)%result_bind_Ok [? ?]%andb_true_iff. simpl in *.
  destruct (IH r) as [E Hd]; [intros kj w' Hj; apply Hat; by right|done|done|]. split; [by f_equal|].
  rewrite (Hat (k, j) w); [done|by left|done|done].
Qed.

Lemma jsize_entry kj m : kj ∈ m → jsize kj.2 < jsize (JMap m).
Proof. induction m as [|y m IH]; [by intros ?%elem_of_nil|]. intros [->|Hx]%elem_of_cons; simpl; [lia|]. apply IH in Hx. simpl in Hx. lia. Qed.

(** A pointer field of a clean object. *)
Lemma ptr_inv {A} (dec : JSON → result A) n m o :
  withField (decPtr dec) (Ok None) n m = Ok o → clean (JMap m) = true →
  o = None ∨ ∃ j a, assoc n m = Some j ∧ clean j = true ∧ dec j = Ok a ∧ o = Some a.
Proof.
  rewrite withField_assoc. intros H Hc. destruct (assoc n m) as [j|] eqn:E; [|left; by injection H].
  pose proof (clean_field n m j Hc E) as Hj. right. destruct (dec j) as [a|] eqn:Ea.
  - exists j, a. destruct j; simpl in H; rewrite ?Ea in H; try done; by injection H as <-.
  - destruct j; simpl in H; rewrite ?Ea in H; done.
Qed.

Lemma decWire_distinct j w : decWire j = Ok w → clean j = true → distinctWire w = true.
Proof.
  revert w. induction j as [j IH] using jsize_ind. intros w. destruct j as [| | | | | | |m|]; try done.
  intros H Hc. unfold decWire in H. fold decWire in H. simpl in H. apply result_bind_Ok in H as (_ & _ & H).
  apply result_bind_Ok in H as (ver & _ & H). apply result_bind_Ok in H as (k & _ & H). apply result_bind_Ok in H as (b & _ & H).
  apply result_bind_Ok in H as (s & _ & H). apply result_bind_Ok in H as (n & _ & H). apply result_bind_Ok in H as (l & Hl & H).
  apply result_bind_Ok in H as (mp & Hm & H). apply result_bind_Ok in H as (t & _ & H). apply result_bind_Ok in H as (p & Hp & H).
  injection H as <-. apply ptr_inv in Hl, Hm, Hp; [|done..]. simpl. rewrite !andb_true_iff. split_and!.
  - destruct Hl as [->|(j & ws & Ej & Hj & Hd & ->)]; [done|]. destruct j as [| | | | | |js| |]; try done. eapply decList_distinct; [|exact Hd|exact Hj].
    intros j w Hin. apply IH. apply jsize_item in Hin. apply jsize_field in Ej. lia.
  - destruct Hm as [->|(j & ws & Ej & Hj & Hd & ->)]; [done|]. destruct j as [| | | | | | |js|]; try done. apply andb_true_iff in Hj as [Hn Hj].
    destruct (decEntries_distinct js ws) as [E Hds]; [|exact Hd|exact Hj|rewrite E; by rewrite Hn].
    intros kj w Hin. apply IH. apply jsize_entry in Hin. apply jsize_field in Ej. lia.
  - destruct Hp as [->|(j & w & Ej & Hj & Hd & ->)]; [done|]. eapply IH; [|exact Hd|exact Hj]. by eapply jsize_field.
Qed.

Lemma value_accepted : accepted inspectValue decValue (λ v, distinctKeys v = true).
Proof.
  intros j path H. destruct j as [| | | | | | |m|]; try done. unfold inspectValue in H. fold inspectValue in H. simpl in H.
  do 7 apply result_bind_Ok in H as (_ & _ & H). destruct (decValue (JMap m)) as [v|] eqn:E; [|done]. exists v. split; [done|].
  intros Hc. unfold decValue in E. destruct (decWire (JMap m)) as [w|] eqn:Ew; [|done].
  eapply ValueFromWire_distinct; [exact E|]. by eapply decWire_distinct.
Qed.

Abbreviation distinct := (Forall (λ v, distinctKeys v = true)).

Lemma distinct_opt {A} (f : A → list Value) o : onSome (λ a, distinct (f a)) o → distinct (optValues f o).
Proof. destruct o; simpl; [done|constructor]. Qed.
Lemma distinct_list {A} (f : A → list Value) l : Forall (λ a, distinct (f a)) l → distinct (flat_map f l).
Proof. apply Forall_flat_map. Qed.
#[export] Hint Resolve distinct_opt distinct_list : json.

(** ** Structs *)

(** The facts that the checks of a struct establish, field by field. *)
Ltac each_name names k :=
  match names with
  | ?n :: ?rest => k n; each_name rest k
  | [] => idtac
  end.
Ltac is_member := apply (bool_decide_eq_true_1 _); vm_compute; reflexivity.

Ltac recover_fields :=
  repeat match goal with
  | H : checkAllowed _ _ _ = Ok _ |- _ => apply checkAllowed_inv in H
  | H : inspectStringFields ?m ?p ?names = Ok _ |- _ =>
      each_name names ltac:(fun n => let E := fresh in destruct (stringField_inv m p names n H) as [? E]; [is_member|]); clear H
  | H : inspectBoolFields ?m ?p ?names = Ok _ |- _ =>
      each_name names ltac:(fun n => let E := fresh in destruct (boolField_inv m p names n H) as [? E]; [is_member|]); clear H
  end.

Ltac open_struct := intros [| | | | | | |m|] path H; try discriminate H; simpl in H;
  repeat match goal with H : mbind _ _ = Ok _ |- _ => apply result_bind_Ok in H as ([] & ? & H) end.

Ltac known_fields :=
  match goal with H : knownFields ?a ?m = Ok _ |- context [knownFields ?b ?m] => change (knownFields b m) with (knownFields a m); rewrite H end.

(** The decoder, once every field is known to decode. *)
Ltac decode_all dec :=
  eexists; split; [unfold dec, decStruct; known_fields;
    cbn [mbind result_bind]; decode_fields; reflexivity|intros Hclean].

Lemma expression_accepted : accepted inspectExpression decExpression (λ e, distinct (expressionValues e)).
Proof.
  open_struct. recover_fields. destruct (required_inv inspectValue decValue _ "data" m (λ j _, value_accepted j) (Ok NullValue) _ H) as (v & E & HQ); [done|].
  decode_all decExpression. repeat constructor. auto.
Qed.

Abbreviation optionalExpr m n := (optional_inv inspectExpression decExpression _ n m (λ j _, expression_accepted j)).
Ltac recover_exprs :=
  repeat match goal with
  | H : inspectOptional inspectExpression ?m ?n ?p = Ok _ |- _ => destruct (optionalExpr m n p H) as (? & ? & ?); clear H
  end.

Lemma item_accepted_param : accepted inspectParam decParam (λ q, distinct (paramValues q)).
Proof.
  open_struct. recover_fields. recover_exprs. decode_all decParam. apply Forall_app. simpl. auto with json.
Qed.
Lemma item_accepted_datum : accepted inspectDatum decDatum (λ q, distinct (datumValues q)).
Proof.
  open_struct. recover_fields. recover_exprs. decode_all decDatum. apply Forall_app. simpl. auto with json.
Qed.

Lemma items_inv {A} (dec : JSON → result A) (Q : A → Prop) allowed strings exprs n m path :
  accepted (inspectItem allowed strings exprs) dec Q →
  inspectItems (get n m) path allowed strings exprs = Ok () →
  ∃ l, withField (decList dec) (Ok []) n m = Ok l ∧ (clean (JMap m) = true → Forall Q l).
Proof.
  intros Hacc. rewrite !withField_assoc. destruct (assoc n m) as [j|] eqn:E; [|intros _; exists []; by split]. unfold id.
  destruct (nil_or_not j) as [->|Hj]; [intros _; exists []; by split|]. intros H.
  destruct (accepted_array _ dec Q j (λ x l _ _, Hacc x) path) as (a & Ha & HQ); [by destruct j|]. exists a. split; [done|].
  intros Hc. by eapply HQ, clean_field.
Qed.
Abbreviation paramsInv m n := (items_inv decParam _ ["name"; "expr"; "location"] ["name"] ("expr", "location") n m _ item_accepted_param).
Abbreviation dataInv m n := (items_inv decDatum _ ["id"; "source"; "expr"; "content"] ["id"; "source"] ("expr", "content") n m _ item_accepted_datum).

Lemma paramsField_inv m path :
  withField (λ params, inspectParams params path) (Ok ()) "params" m = Ok () → inspectParams (get "params" m) path = Ok ().
Proof. rewrite !withField_assoc. by destruct (assoc "params" m). Qed.

Ltac open_payload :=
  open_struct; recover_fields; recover_exprs;
  match goal with H : withField (λ params, inspectParams params _) _ _ _ = Ok _ |- _ => apply paramsField_inv in H end.

Lemma raise_accepted : accepted inspectRaise decRaise (λ r, distinct (raiseValues r)).
Proof. open_payload. decode_all decRaise. apply Forall_app. simpl. auto with json. Qed.
Lemma send_accepted : accepted inspectSend decSend (λ s, distinct (sendValues s)).
Proof.
  open_payload. destruct (paramsInv m "params" H) as (ps & ? & ?). decode_all decSend.
  unfold sendValues. rewrite !Forall_app. simpl. auto 10 with json.
Qed.
Lemma cancel_accepted : accepted inspectCancel decCancel (λ c, distinct (cancelValues c)).
Proof. open_payload. decode_all decCancel. unfold cancelValues. simpl. auto with json. Qed.
Lemma log_accepted : accepted inspectLog decLog (λ l, distinct (logValues l)).
Proof. open_payload. decode_all decLog. apply Forall_app. simpl. auto with json. Qed.

(** The expressions of an "assign" and a "script" are required, but inspected as if
    they were optional: an absent one decodes to the zero expression. *)
Lemma optionalAsZero n m path :
  inspectOptional inspectExpression m n path = Ok () →
  ∃ e, withField decExpression (Ok zeroExpression) n m = Ok e ∧ (clean (JMap m) = true → distinct (expressionValues e)).
Proof.
  unfold inspectOptional. rewrite !withField_assoc. destruct (assoc n m) as [j|] eqn:E; [|intros _; exists zeroExpression; by repeat constructor].
  destruct (nil_or_not j) as [->|Hj]; [intros _; exists zeroExpression; by repeat constructor|]. intros H.
  destruct (expression_accepted j (path +:+ "." +:+ n)) as (e & He & HQ); [by destruct j|]. exists e. split; [done|].
  intros Hc. by eapply HQ, clean_field.
Qed.

Ltac recover_required :=
  repeat match goal with
  | H : inspectOptional inspectExpression ?m ?n ?p = Ok _ |- _ => destruct (optionalAsZero n m p H) as (? & ? & ?); clear H
  end.

Lemma assign_accepted : accepted inspectAssign decAssign (λ a, distinct (assignValues a)).
Proof. open_struct. recover_fields. recover_required. decode_all decAssign. apply (Forall_app _ (expressionValues _)). simpl. auto. Qed.
Lemma script_accepted : accepted inspectScript decScript (λ s, distinct (scriptValues s)).
Proof. open_struct. recover_fields. recover_required. decode_all decScript. auto. Qed.

Lemma function_accepted : accepted inspectFunction decFunction (λ r, distinct (functionValues r)).
Proof.
  open_struct. recover_fields.
  destruct (field_inv (inspectArray inspectExpression) (decList decExpression) (Forall (λ e, distinct (expressionValues e))) "args" m
    (λ j _, accepted_array _ _ _ j (λ x l _ _, expression_accepted x)) [] _ H) as (args & ? & ?); [by constructor|].
  decode_all decFunction. unfold functionValues. simpl. auto with json.
Qed.
Lemma call_accepted : accepted inspectCall decCall (λ c, distinct (callValues c)).
Proof.
  intros [| | | | | | |m|] path H; try discriminate H. rewrite inspectCall_function in H. apply result_bind_Ok in H as ([] & Hk & H). recover_fields.
  destruct (required_inv inspectFunction decFunction _ "function" m (λ j _, function_accepted j) (Ok (mkFunctionRef "" "" [])) _ H) as (f & ? & ?); [done|].
  decode_all decCall. auto.
Qed.
Lemma extension_accepted : accepted inspectExtension decExtension (λ x, distinct (extensionValues x)).
Proof.
  open_struct. recover_fields. destruct (required_inv inspectValue decValue _ "data" m (λ j _, value_accepted j) (Ok NullValue) _ H) as (v & ? & ?); [done|].
  decode_all decExtension. repeat constructor. auto.
Qed.

(** ** Executable nodes *)

(** The wire node decodes to a node whose values are distinct. *)
Definition soundNode (w : executableWire) : Prop := ∃ e, (∀ path, decodeExecutable w path = Ok e) ∧ distinct (executableValues e).
Abbreviation acceptedNode := (acceptedAt inspectExecutable decExecutable soundNode).
Abbreviation soundBlocks := (Forall (Forall soundNode)).

Lemma collectEach_sound {A B} (dec : A → string → result B) (f : B → list Value) ws :
  Forall (λ w, ∃ b, (∀ path, dec w path = Ok b) ∧ distinct (f b)) ws →
  ∃ bs, (∀ (p : N → string) i, collectEach (λ i w, dec w (p i)) i ws = Ok bs) ∧ distinct (flat_map f bs).
Proof.
  induction 1 as [|w ws (b & Hb & Hd) _ (bs & Hbs & Hds)]; [exists []; by split|]. exists (b :: bs). split.
  - intros p i. simpl. rewrite Hb. simpl. by rewrite Hbs.
  - simpl. by apply Forall_app.
Qed.

Lemma blocks_sound ws : soundBlocks ws → ∃ bs, (∀ path, decodeBlocks ws path = Ok bs) ∧ distinct (blocksValues bs).
Proof.
  intros H. destruct (collectEach_sound (λ ws path, collectEach (λ j w, decodeExecutable w (index path j)) 0 ws) (flat_map executableValues) ws)
    as (bs & E & Hd).
  - eapply Forall_impl; [exact H|]. intros b Hb. destruct (collectEach_sound decodeExecutable executableValues b Hb) as (es & Ees & Hd).
    exists es. split; [|done]. intros path. apply Ees.
  - exists bs. split; [|done]. intros path. apply (E (index path)).
Qed.

Lemma blocks_inv n m path :
  (∀ j, jsize j < jsize (JMap m) → acceptedNode j) → inspectBlocksField_with inspectExecutable m n path = Ok () →
  ∃ ws, withField (decList (decList decExecutable)) (Ok []) n m = Ok ws ∧ (clean (JMap m) = true → soundBlocks ws).
Proof.
  intros Hat H. apply (listField_inv (inspectArray inspectExecutable) (decList decExecutable) (Forall soundNode) n m path); [|exact H].
  intros j Hj%jsize_field. apply accepted_array. intros x l -> Hx%jsize_item. apply accepted_array. intros y l' -> Hy%jsize_item. apply Hat. lia.
Qed.

Lemma branch_accepted j :
  (∀ x, jsize x < jsize j → acceptedNode x) →
  acceptedAt (inspectBranch inspectExecutable) (decBranch decExecutable)
    (λ b, distinct (expressionValues (cb_Condition b)) ∧ soundBlocks (cb_Actions b)) j.
Proof.
  intros Hat. revert j Hat. intros [| | | | | | |m|] Hat path H; try discriminate H. simpl in H.
  apply result_bind_Ok in H as ([] & Hk & H). apply result_bind_Ok in H as ([] & Hc & H). recover_fields.
  destruct (required_inv inspectExpression decExpression _ "condition" m (λ j _, expression_accepted j) (Ok zeroExpression) _ Hc) as (c & ? & ?); [done|].
  destruct (blocks_inv _ _ _ Hat H) as (ws & ? & ?). decode_all decBranch. simpl. auto.
Qed.

Definition soundChoose (c : chooseWire) : Prop :=
  Forall (λ b, distinct (expressionValues (cb_Condition b)) ∧ soundBlocks (cb_Actions b)) (ch_Branches c) ∧ soundBlocks (ch_Else c).
Lemma choose_accepted j :
  (∀ x, jsize x < jsize j → acceptedNode x) →
  acceptedAt (inspectChoose inspectExecutable) (decChoose decExecutable) soundChoose j.
Proof.
  intros Hat. revert j Hat. intros [| | | | | | |m|] Hat path H; try discriminate H. simpl in H.
  apply result_bind_Ok in H as ([] & Hk & H). apply result_bind_Ok in H as ([] & Hb & H). recover_fields.
  destruct (field_inv (inspectArray (inspectBranch inspectExecutable)) (decList (decBranch decExecutable))
    (Forall (λ b, distinct (expressionValues (cb_Condition b)) ∧ soundBlocks (cb_Actions b))) "branches" m) with ([] : list chooseBranchWire) (path +:+ ".branches") as (bs & ? & ?);
    [|exact Hb|by constructor|].
  { intros j Hj%jsize_field. apply accepted_array. intros x l -> Hx%jsize_item. apply branch_accepted. intros y Hy. apply Hat. lia. }
  destruct (blocks_inv _ _ _ Hat H) as (ws & ? & ?). decode_all decChoose. split; simpl; auto.
Qed.

Definition soundForEach (f : forEachWire) : Prop := distinct (expressionValues (fe_Array f)) ∧ soundBlocks (fe_Actions f).
Lemma forEach_accepted j :
  (∀ x, jsize x < jsize j → acceptedNode x) →
  acceptedAt (inspectForEach inspectExecutable) (decForEach decExecutable) soundForEach j.
Proof.
  intros Hat. revert j Hat. intros [| | | | | | |m|] Hat path H; try discriminate H. simpl in H.
  apply result_bind_Ok in H as ([] & Hk & H). apply result_bind_Ok in H as ([] & Hs & H). apply result_bind_Ok in H as ([] & Hc & H). recover_fields.
  destruct (required_inv inspectExpression decExpression _ "array" m (λ j _, expression_accepted j) (Ok zeroExpression) _ Hc) as (c & ? & ?); [done|].
  destruct (blocks_inv _ _ _ Hat H) as (ws & ? & ?). decode_all decForEach. split; simpl; auto.
Qed.

(** Absent payloads, and the one that is there. *)
Lemma payload_absent {A} (dec : JSON → result A) m k n :
  presentPayloads m = [k] → n ∈ payloads → n ≠ k → withField (decPtr dec) (Ok None) n m = Ok None.
Proof.
  intros Hp Hn Hne. rewrite withField_assoc. destruct (assoc n m) as [j|] eqn:E; [|done].
  assert (n ∈ presentPayloads m) as Hin by (apply list_elem_of_filter; rewrite withField_assoc, E; done).
  rewrite Hp in Hin. by apply list_elem_of_singleton in Hin.
Qed.
Lemma payload_present {A} inspect (dec : JSON → result A) Q m k path :
  presentPayloads m = [k] → (∀ j, assoc k m = Some j → acceptedAt inspect dec Q j) → inspect JNil path ≠ Ok () →
  withField (λ j, inspect j path) (Ok ()) k m = Ok () →
  ∃ a, withField (decPtr dec) (Ok None) k m = Ok (Some a) ∧ (clean (JMap m) = true → Q a).
Proof.
  intros Hp Hat Hnil. rewrite !withField_assoc. destruct (assoc k m) as [j|] eqn:E.
  - intros H. destruct (Hat j eq_refl path H) as (a & Ha & HQ). exists a.
    destruct (nil_or_not j) as [->|Hj]; [done|]. split; [by destruct j; simpl; rewrite ?Ha|]. intros Hc. by eapply HQ, clean_field.
  - assert (k ∈ presentPayloads m) as Hin by (rewrite Hp; by left). apply list_elem_of_filter in Hin as [Hin _].
    by rewrite withField_assoc, E in Hin.
Qed.

(** One case of the switch: [F] is the wire node of the payload. *)
Ltac payload_field k inspect dec acc F :=
  match goal with Hp : presentPayloads ?m = [k], H : withField _ (Ok ()) k ?m = Ok () |- _ =>
    destruct (payload_present inspect dec _ m k _ Hp acc ltac:(discriminate) H) as (v & Ev & HQ);
    let rest := eval vm_compute in (filter (λ n, n ≠ k) payloads) in
    exists (F (Some v)); split;
      [unfold decStruct; known_fields; cbn [mbind result_bind];
       repeat match goal with
       | |- context [withField (decPtr ?d) (Ok None) ?n m] =>
           first [rewrite Ev | rewrite (payload_absent d m k n Hp) by (is_member || done)]; cbn [mbind result_bind]
       | E : withField decString _ "kind" m = _ |- _ => rewrite E; cbn [mbind result_bind]
       end; reflexivity
      |intros Hc; specialize (HQ Hc)]
  end.

Lemma branches_sound bs :
  Forall (λ b, distinct (expressionValues (cb_Condition b)) ∧ soundBlocks (cb_Actions b)) bs →
  ∃ ds, (∀ path, collectEach (λ i '(mkBranch condition actions),
           actions ← decodeBlocks_with decodeExecutable actions (index (path +:+ ".choose.branches") i +:+ ".actions");
           Ok (mkBranch condition actions)) 0 bs = Ok ds)
        ∧ distinct (flat_map (λ '(mkBranch condition actions), expressionValues condition ++ blocksValues actions) ds).
Proof.
  intros H. destruct (collectEach_sound (λ '(mkBranch condition actions) path,
      actions ← decodeBlocks_with decodeExecutable actions (path +:+ ".actions"); Ok (mkBranch condition actions))
    (λ '(mkBranch condition actions), expressionValues condition ++ blocksValues actions) bs) as (ds & E & Hd).
  - eapply Forall_impl; [exact H|]. intros [c ws] [Hc (acts & Ea & Hda)%blocks_sound]. exists (mkBranch c acts). split.
    + intros path. unfold decodeBlocks in Ea. by rewrite Ea.
    + apply (Forall_app _ (expressionValues c)). by split.
  - exists ds. split; [|done]. intros path. etransitivity; [|exact (E (index (path +:+ ".choose.branches")) 0%N)]. clear.
    generalize 0%N as i. induction bs as [|[c acts] bs IH]; intros i; [done|]. simpl. by rewrite IH.
Qed.

Lemma soundChoose_node c : soundChoose c → soundNode (mkExecutableWire "choose" None None None None None (Some c) None None None None).
Proof.
  destruct c as [bs els]. intros [Hbs Hels]. destruct (branches_sound bs Hbs) as (ds & Eds & Hds), (blocks_sound els Hels) as (es & Ees & Hes).
  exists (NewChooseExecutable (mkChoose ds es)). split.
  - intros path. simpl. rewrite Eds. simpl. unfold decodeBlocks in Ees. by rewrite Ees.
  - simpl. rewrite app_nil_r. by apply Forall_app.
Qed.
Lemma soundForEach_node f : soundForEach f → soundNode (mkExecutableWire "foreach" None None None None None None (Some f) None None None).
Proof.
  destruct f as [a i x ws]. intros [Ha Hws]. destruct (blocks_sound ws Hws) as (es & Ees & Hes).
  exists (NewForEachExecutable (mkForEach a i x es)). split.
  - intros path. simpl. unfold decodeBlocks in Ees. by rewrite Ees.
  - simpl. rewrite app_nil_r. apply (Forall_app _ (expressionValues a)). by split.
Qed.

Lemma executable_accepted : accepted inspectExecutable decExecutable soundNode.
Proof.
  intros j. induction j as [j IH] using jsize_ind. destruct j as [| | | | | | |m|]; intros path H; try discriminate H.
  cbn [inspectExecutable] in H. unfold withObject in H. apply result_bind_Ok in H as ([] & Hk & H). apply result_bind_Ok in H as (k & Hkind & H).
  apply result_bind_Ok in H as ([] & Hin%fail_if_Ok & H). apply result_bind_Ok in H as ([] & Hp%fail_if_Ok & H).
  apply bool_decide_eq_false, dec_stable in Hin. apply bool_decide_eq_false, dec_stable in Hp. recover_fields.
  assert (withField decString (Ok "") "kind" m = Ok k) as Ekind.
  { rewrite withField_assoc in Hkind. rewrite withField_assoc. destruct (assoc "kind" m) as [ []|]; try done. }
  cbn [decExecutable]. unfold payloads in Hin.
  repeat (apply elem_of_cons in Hin as [->|Hin]); [..|by apply elem_of_nil in Hin]; clear Hkind; cbn in H.
  - payload_field "raise" constr:(inspectRaise) constr:(decRaise) (λ j (_ : assoc "raise" m = Some j), raise_accepted j)
      (λ p, mkExecutableWire "raise" p None None None None None None None None None).
    exists (NewRaiseExecutable v). split; [done|]. simpl. by rewrite ?app_nil_r.
  - payload_field "send" constr:(inspectSend) constr:(decSend) (λ j (_ : assoc "send" m = Some j), send_accepted j)
      (λ p, mkExecutableWire "send" None p None None None None None None None None).
    exists (NewSendExecutable v). split; [done|]. simpl. by rewrite ?app_nil_r.
  - payload_field "cancel" constr:(inspectCancel) constr:(decCancel) (λ j (_ : assoc "cancel" m = Some j), cancel_accepted j)
      (λ p, mkExecutableWire "cancel" None None p None None None None None None None).
    exists (NewCancelExecutable v). split; [done|]. simpl. by rewrite ?app_nil_r.
  - payload_field "log" constr:(inspectLog) constr:(decLog) (λ j (_ : assoc "log" m = Some j), log_accepted j)
      (λ p, mkExecutableWire "log" None None None p None None None None None None).
    exists (NewLogExecutable v). split; [done|]. simpl. by rewrite ?app_nil_r.
  - payload_field "assign" constr:(inspectAssign) constr:(decAssign) (λ j (_ : assoc "assign" m = Some j), assign_accepted j)
      (λ p, mkExecutableWire "assign" None None None None p None None None None None).
    exists (NewAssignExecutable v). split; [done|]. simpl. by rewrite ?app_nil_r.
  - payload_field "choose" constr:(inspectChoose inspectExecutable) constr:(decChoose decExecutable) (λ j (E : assoc "choose" m = Some j), choose_accepted j (λ x Hx, IH x (Nat.lt_trans _ _ _ Hx (jsize_field _ _ _ E))))
      (λ p, mkExecutableWire "choose" None None None None None p None None None None).
    by apply soundChoose_node.
  - payload_field "foreach" constr:(inspectForEach inspectExecutable) constr:(decForEach decExecutable) (λ j (E : assoc "foreach" m = Some j), forEach_accepted j (λ x Hx, IH x (Nat.lt_trans _ _ _ Hx (jsize_field _ _ _ E))))
      (λ p, mkExecutableWire "foreach" None None None None None None p None None None).
    by apply soundForEach_node.
  - payload_field "script" constr:(inspectScript) constr:(decScript) (λ j (_ : assoc "script" m = Some j), script_accepted j)
      (λ p, mkExecutableWire "script" None None None None None None None p None None).
    exists (NewScriptExecutable v). split; [done|]. simpl. by rewrite ?app_nil_r.
  - payload_field "call" constr:(inspectCall) constr:(decCall) (λ j (_ : assoc "call" m = Some j), call_accepted j)
      (λ p, mkExecutableWire "call" None None None None None None None None p None).
    exists (NewCallExecutable v). split; [done|]. simpl. by rewrite ?app_nil_r.
  - payload_field "extension" constr:(inspectExtension) constr:(decExtension) (λ j (_ : assoc "extension" m = Some j), extension_accepted j)
      (λ p, mkExecutableWire "extension" None None None None None None None None None p).
    exists (NewExtensionExecutable v). split; [done|]. simpl. by rewrite ?app_nil_r.
Qed.

(** ** Transitions, invocations and states *)

Lemma blocksField_inv n m path :
  inspectBlocksField m n path = Ok () →
  ∃ ws, withField (decList (decList decExecutable)) (Ok []) n m = Ok ws ∧ (clean (JMap m) = true → soundBlocks ws).
Proof. apply blocks_inv. intros j _. apply executable_accepted. Qed.

Lemma stringListField_inv n m path :
  inspectStringListField m n path = Ok () → ∃ l, withField (decList decString) (Ok []) n m = Ok l.
Proof.
  intros H. destruct (field_inv (inspectArray inspectText) (decList decString) (Forall (λ _, True)) n m) with ([] : list string) (path +:+ "." +:+ n) as (l & ? & _);
    [|exact H|by constructor|by exists l].
  intros j _. apply accepted_array. intros x l _ _ p Hx. destruct x; try done. by eexists.
Qed.

Ltac recover_lists :=
  repeat match goal with
  | H : inspectBlocksField ?m ?n ?p = Ok _ |- _ => destruct (blocksField_inv n m p H) as (? & ? & ?); clear H
  | H : inspectStringListField ?m ?n ?p = Ok _ |- _ => destruct (stringListField_inv n m p H) as (? & ?); clear H
  | H : inspectParams (get ?n ?m) _ = Ok _ |- _ => destruct (paramsInv m n H) as (? & ? & ?); clear H
  | H : inspectDataList (get ?n ?m) _ = Ok _ |- _ => destruct (dataInv m n H) as (? & ? & ?); clear H
  end.

Definition soundTransition (w : transitionWire) : Prop :=
  ∃ t, (∀ path, decodeTransition w path = Ok t) ∧ distinct (transitionValues t).
Lemma transition_accepted : accepted inspectTransition decTransition soundTransition.
Proof.
  open_struct. recover_fields. recover_exprs. recover_lists. decode_all decTransition.
  match goal with H : clean _ = true → soundBlocks _ |- _ => destruct (blocks_sound _ (H Hclean)) as (bs & E & Hd) end.
  eexists. split; [intros p; unfold decodeTransition; simpl; rewrite E; reflexivity|]. apply Forall_app. simpl. auto with json.
Qed.

Definition soundInvoke (w : invokeWire) : Prop := ∃ i, (∀ path, decodeInvoke w path = Ok i) ∧ distinct (invokeValues i).
Lemma invoke_accepted : accepted inspectInvoke decInvoke soundInvoke.
Proof.
  open_struct. recover_fields. recover_exprs. recover_lists. decode_all decInvoke.
  match goal with H : clean _ = true → soundBlocks _ |- _ => destruct (blocks_sound _ (H Hclean)) as (bs & E & Hd) end.
  eexists. split; [intros p; unfold decodeInvoke; simpl; rewrite E; reflexivity|]. unfold invokeValues. rewrite !Forall_app. simpl. auto 10 with json.
Qed.

Lemma doneData_accepted :
  accepted inspectDoneData decDoneData (λ w, distinct (doneDataValues (mkDoneData (dw_Params w) (dw_Content w)))).
Proof. open_struct. recover_fields. recover_exprs. recover_lists. decode_all decDoneData. apply Forall_app. simpl. auto with json. Qed.

Lemma stateID_accepted : accepted inspectStateID decStateID (λ _, True).
Proof. open_struct. recover_fields. by decode_all decStateID. Qed.

(** The kinds of an inspected state parse, on any path. *)
Lemma parseStateKind_path k p k' p' : parseStateKind k p = Ok k' → parseStateKind k p' = Ok k'.
Proof. unfold parseStateKind. by repeat case_decide. Qed.
Lemma parseHistoryKind_path h k p h' p' : parseHistoryKind h k p = Ok h' → parseHistoryKind h k p' = Ok h'.
Proof. unfold parseHistoryKind. by repeat case_decide. Qed.

Lemma inspectKinds_inv m path kind history :
  inspectKinds m path = Ok () → withField decString (Ok "") "kind" m = Ok kind → withField decString (Ok "") "history" m = Ok history →
  ∃ k h, (∀ p, parseStateKind kind p = Ok k) ∧ ∀ p, parseHistoryKind history k p = Ok h.
Proof.
  unfold inspectKinds. intros (k & Hk & H)%result_bind_Ok Ek Eh. rewrite withField_assoc in Ek. rewrite withField_assoc in Eh. rewrite withField_assoc in H.
  assert (parseStateKind kind (path +:+ ".kind") = Ok k) as Hk'.
  { rewrite withField_assoc in Hk. destruct (assoc "kind" m) as [ []|]; simplify_eq/=; done. }
  destruct (assoc "history" m) as [ []|] eqn:E; simplify_eq/=.
  - apply result_bind_Ok in H as (h & Hh & _). exists k, h. split; intros p; [by eapply parseStateKind_path|by eapply parseHistoryKind_path].
  - exists k, (historyKindCode Shallow). split; intros p; [by eapply parseStateKind_path|].
    unfold parseHistoryKind. case_decide; [by rewrite decide_True by auto|done].
Qed.

Definition soundState (w : stateWire) : Prop := ∃ s, (∀ path, decodeState w path = Ok s) ∧ distinct (stateValues s).

Lemma initial_sound o : onSome soundTransition o →
  ∃ ot, (∀ path, optionally (λ t, decodeTransition t path) o = Ok ot) ∧ distinct (optValues transitionValues ot).
Proof.
  destruct o as [w|]; simpl; [|by exists None]. intros (t & Et & Hd). exists (Some t). split; [|done]. intros path. by rewrite Et.
Qed.

Lemma decodeState_sound id kind history initial onEntry onExit transitions invokes data doneData children k h :
  (∀ p, parseStateKind kind p = Ok k) → (∀ p, parseHistoryKind history k p = Ok h) → onSome soundTransition initial →
  soundBlocks onEntry → soundBlocks onExit → Forall soundTransition transitions → Forall soundInvoke invokes →
  Forall (λ d, distinct (datumValues d)) data →
  onSome (λ w, distinct (doneDataValues (mkDoneData (dw_Params w) (dw_Content w)))) doneData → Forall soundState children →
  soundState (mkStateWire id kind history initial onEntry onExit transitions invokes data doneData children).
Proof.
  intros Hk Hh (ini & Ei & Di)%initial_sound (en & Een & Den)%blocks_sound (ex & Eex & Dex)%blocks_sound Ht Hv Hd Hdd Hch.
  destruct (collectEach_sound decodeTransition transitionValues _ Ht) as (ts & Et & Dt).
  destruct (collectEach_sound decodeInvoke invokeValues _ Hv) as (ivs & Ev & Dv).
  destruct (collectEach_sound decodeState stateValues _ Hch) as (chs & Ec & Dc).
  eexists. split.
  - intros path. cbn [decodeState sw_Kind sw_History sw_Initial sw_OnEntry sw_OnExit sw_Transitions sw_Invokes sw_Data sw_DoneData sw_Children sw_ID].
    rewrite Hk. cbn [mbind result_bind]. rewrite Hh. cbn [mbind result_bind]. rewrite Ei. cbn [mbind result_bind].
    rewrite Een. cbn [mbind result_bind]. rewrite Eex. cbn [mbind result_bind]. rewrite Et. cbn [mbind result_bind].
    rewrite Ev. cbn [mbind result_bind]. rewrite Ec. reflexivity.
  - cbn [stateValues]. unfold ownValues. rewrite !Forall_app. simpl. split_and!; auto with json. by destruct doneData.
Qed.

Lemma state_accepted : accepted inspectState decState soundState.
Proof.
  intros j. induction j as [j IH] using jsize_ind. destruct j as [| | | | | | |m|]; intros path H; try discriminate H.
  cbn [inspectState] in H. unfold withObject in H.
  repeat match goal with H : mbind _ _ = Ok _ |- _ => apply result_bind_Ok in H as ([] & ? & H) end. recover_fields. recover_lists.
  match goal with H : inspectStateID _ _ = Ok _ |- _ =>
    destruct (required_inv inspectStateID decStateID _ "id" m (λ j _, stateID_accepted j) (Ok (mkStateID "" false)) _ H) as (id & ? & _); [done|] end.
  match goal with H : inspectOptional inspectTransition _ _ _ = Ok _ |- _ =>
    destruct (optional_inv inspectTransition decTransition _ "initial" m (λ j _, transition_accepted j) _ H) as (ini & ? & ?) end.
  match goal with H : inspectOptional inspectDoneData _ _ _ = Ok _ |- _ =>
    destruct (optional_inv inspectDoneData decDoneData _ "doneData" m (λ j _, doneData_accepted j) _ H) as (dd & ? & ?) end.
  match goal with H : inspectListField inspectTransition _ _ _ = Ok _ |- _ =>
    destruct (listField_inv inspectTransition decTransition soundTransition _ _ _ (λ j _, accepted_array _ _ _ j (λ x l _ _, transition_accepted x)) H) as (ts & ? & ?) end.
  match goal with H : inspectListField inspectInvoke _ _ _ = Ok _ |- _ =>
    destruct (listField_inv inspectInvoke decInvoke soundInvoke _ _ _ (λ j _, accepted_array _ _ _ j (λ x l _ _, invoke_accepted x)) H) as (ivs & ? & ?) end.
  destruct (listField_inv inspectState decState soundState "children" m path) as (chs & ? & ?); [|exact H|].
  { intros j Hj%jsize_field. apply accepted_array. intros y l -> Hy%jsize_item. apply IH. lia. }
  match goal with H : inspectKinds _ _ = Ok _, H1 : withField decString _ "kind" m = Ok _, H2 : withField decString _ "history" m = Ok _ |- _ =>
    destruct (inspectKinds_inv _ _ _ _ H H1 H2) as (k & h & ? & ?) end.
  cbn [decState]. eexists. split; [unfold decStruct; known_fields; cbn [mbind result_bind]; decode_fields; reflexivity|intros Hclean].
  eapply decodeState_sound; eauto.
Qed.

Lemma definition_accepted :
  accepted inspectDefinition decDefinition (λ w, ∃ d, (∀ path, decodeDefinition w path = Ok d) ∧ distinct (definitionValues d)).
Proof.
  open_struct. recover_fields. recover_lists.
  destruct (required_inv inspectState decState _ "root" m (λ j _, state_accepted j) (Ok zeroState) _ H) as (r & ? & Hr); [done|].
  decode_all decDefinition. destruct (Hr Hclean) as (s & Es & Ds).
  eexists. split; [intros p; unfold decodeDefinition; simpl; rewrite Es; reflexivity|]. apply Forall_app. simpl. auto with json.
Qed.
