(* ===== verification/JSONCodec.v ===== *)
(** * Theorems: the JSON surface syntax

    [json_roundtrip]: what is written is read back.  [unmarshal_errors]: after the
    inspections nothing but validation can fail, and every error has a path.
    [unmarshal_canonical]: what is read is valid, and can be written again. *)

From S2P Require Import Prelude Identifier Values Events Datamodel Chart Definitions Validate Compile Authoring.
From S2P Require Import JSONTree JSONSyntax JSONInspect JSONDocument JSONRoundtrip JSONAccepted.
From stdpp Require Import options.

Lemma marshal_unmarshal (d : ChartDefinition) :
  Validate d = Ok () → Forall (λ v, distinctKeys v = true) (definitionValues d) →
  ∃ doc, Marshal d = Ok doc ∧ Unmarshal doc = Ok d.
Proof.
  intros Hv Hk. destruct (Validate_wellWritten d Hv) as [Hs Hw].
  destruct (definition_spells d Hs) as (r & E1 & E2 & j & Ej & Hc & Hd & Hi); [by apply Forall_and|].
  assert (validated d = Ok ()) as Hval by (unfold validated; by rewrite Hv).
  exists (tokens j). unfold Marshal, encodeDefinition. rewrite Hval. simpl. rewrite E1. simpl. rewrite Ej. split; [done|].
  unfold Unmarshal. rewrite inspectJSONDocument_tokens by done. simpl. rewrite Decode_tokens by done. simpl.
  rewrite Hi. simpl. rewrite Hd. simpl. unfold decodeDefinition. simpl. rewrite E2. simpl. destruct d. simpl in *. by rewrite Hval.
Qed.

(** Unmarshal in one step, after the inspections. *)
Lemma unmarshal_inspected doc :
  inspectJSONDocument doc "definition" = Ok () →
  ∃ j, clean j = true ∧ Decode doc = Ok (j, []) ∧
  (inspectDefinition j "definition" = Ok () →
   ∃ w d, decDefinition j = Ok w ∧ (∀ path, decodeDefinition w path = Ok d)
     ∧ Unmarshal doc = (_ ← validated d; Ok d) ∧ Forall (λ v, distinctKeys v = true) (definitionValues d)).
Proof.
  intros H. pose proof H as (j & Hc & ->)%inspected_document. exists j. split_and!; [done|by apply Decode_tokens|]. intros Hi.
  destruct (definition_accepted j _ Hi) as (w & Ew & Hw). destruct (Hw Hc) as (d & Ed & Hd). exists w, d. split_and!; [done..| |done].
  unfold Unmarshal. rewrite H. simpl. rewrite Decode_tokens by done. simpl. rewrite Hi. simpl. rewrite Ew. simpl. by rewrite Ed.
Qed.

Lemma unmarshal_valid doc d :
  Unmarshal doc = Ok d → Validate d = Ok () ∧ Forall (λ v, distinctKeys v = true) (definitionValues d).
Proof.
  intros H. pose proof H as ([] & Hdoc & H')%result_bind_Ok. destruct (unmarshal_inspected doc Hdoc) as (j & Hc & Ej & Hj).
  rewrite Ej in H'. simpl in H'. apply result_bind_Ok in H' as ([] & Hi & _). destruct (Hj Hi) as (_ & d' & _ & _ & E & Hd). rewrite E in H.
  apply result_bind_Ok in H as ([] & Hv & [= <-]). split; [|done]. unfold validated in Hv. by destruct (Validate d') as [ []|].
Qed.

(** C10 (roundtrip): a valid definition can be written in the JSON surface syntax, and
    the document passes every check of [Unmarshal] and is read back as the same
    definition.  (In the maps of its values no key occurs twice, as in Go.) *)
Theorem json_roundtrip (d : ChartDefinition) :
  Validate d = Ok () → Forall (λ v, distinctKeys v = true) (definitionValues d) →
  ∃ doc, Marshal d = Ok doc ∧ Unmarshal doc = Ok d.
Proof. apply marshal_unmarshal. Qed.

(** C23 (error): every error of [Unmarshal] comes from one of the two inspections, or
    is the error of [Validate] for the definition that was read: no document that
    passes the inspections makes a decoder fail. *)
Theorem unmarshal_errors (doc : document) (e : error) :
  Unmarshal doc = Err e →
  inspectJSONDocument doc "definition" = Err e
  ∨ ∃ raw, Decode doc = Ok (raw, [])
    ∧ (inspectDefinition raw "definition" = Err e
       ∨ ∃ w d e', decDefinition raw = Ok w ∧ decodeDefinition w "definition" = Ok d
           ∧ Validate d = Err e' ∧ e = wrapDefinitionError e').
Proof.
  intros H. destruct (inspectJSONDocument doc "definition") as [ []|e0] eqn:Hdoc.
  - right. destruct (unmarshal_inspected doc Hdoc) as (j & Hc & Ej & Hj). exists j. split; [done|].
    destruct (inspectDefinition j "definition") as [ []|e1] eqn:Hi.
    + right. destruct (Hj eq_refl) as (w & d & Ew & Ed & E & _). rewrite E in H. unfold validated in H.
      destruct (Validate d) as [u|e'] eqn:Hv; [done|]. exists w, d, e'. split_and!; [done..|]. by injection H.
    + left. f_equal. unfold Unmarshal in H. rewrite Hdoc in H. simpl in H. rewrite Ej in H. simpl in H. rewrite Hi in H. by injection H.
  - left. unfold Unmarshal in H. rewrite Hdoc in H. simpl in H. by injection H as ->.
Qed.

(** Whatever document is read, the definition is valid, and writing
    it gives a document in canonical form that is read as the same definition. *)
Theorem unmarshal_canonical (doc : document) (d : ChartDefinition) :
  Unmarshal doc = Ok d → Validate d = Ok () ∧ ∃ canonical, Marshal d = Ok canonical ∧ Unmarshal canonical = Ok d.
Proof. intros [Hv Hd]%unmarshal_valid. split; [done|]. by apply marshal_unmarshal. Qed.

(** ** A definition with every kind of content *)

Definition constant (v : Value) : Expression := mkExpression "constant" v.
Definition options : Value := MapOf [("limit", NumValue "3"); ("names", ListOf [TextValue "a"; NullValue]); ("tag", TaggedOf "unit" (BoolValue true))].

Definition surfaceRoot : StateDefinition :=
  mkStateDefinition (mkStateID "root" false) 1 0 (Some (mkTransitionDefinition [] ["idle"] "" None [])) [] []
    [mkTransitionDefinition ["stop"] ["end"] "internal" (Some (constant (BoolValue true))) [[NewLogExecutable (mkLog "stopping" None None)]]]
    [] [] None
    [mkStateDefinition (mkStateID "idle" false) 0 0 None
       [[NewAssignExecutable (mkAssign (constant (TextValue "x")) (constant options));
         NewChooseExecutable (mkChoose
           [mkBranch (constant (BoolValue false)) [[NewRaiseExecutable (mkRaise "again" None None)]]]
           [[NewForEachExecutable (mkForEach (constant (ListOf [NumValue "1"])) "item" "" [[NewCancelExecutable (mkCancel "timer" None)]])]])]]
       [[NewCallExecutable (mkCall (mkFunctionRef "trace" "1" [constant NullValue]))]] []
       [mkInvokeDefinition "" "worker" None "task" None "" None [mkParamDefinition "depth" (Some (constant (NumValue "2"))) None] None true
          [[NewScriptExecutable (mkScript (constant (TextValue "done")))]]]
       [mkDataDefinition "count" "" (Some (constant (NumValue "0"))) None] None [];
     mkStateDefinition (mkStateID "memory" true) 4 1 (Some (mkTransitionDefinition [] ["idle"] "" None [])) [] [] [] [] [] None [];
     mkStateDefinition (mkStateID "end" false) 3 0 None [] [] [] [] [] (Some (mkDoneData [] (Some (constant options)))) []].

Definition surfaceDefinition : ChartDefinition := mkDefinition "surface" "Surface" "counter" "" "late" [] surfaceRoot.

Lemma json_roundtrip_witness : ∃ doc, Marshal surfaceDefinition = Ok doc ∧ Unmarshal doc = Ok surfaceDefinition.
Proof. apply (json_roundtrip surfaceDefinition); [vm_compute; reflexivity|vm_compute; repeat constructor]. Defined.

(** ["label"] is not a field of a transition. *)
Definition unknownField : document :=
  [TokOpenObject; TokString "id"; TokString "x"; TokString "datamodel"; TokString "counter"; TokString "root"; TokOpenObject;
   TokString "id"; TokOpenObject; TokString "value"; TokString "a"; TokClose; TokString "kind"; TokString "atomic";
   TokString "transitions"; TokOpenArray; TokOpenObject; TokString "label"; TokString "t"; TokClose; TokClose; TokClose; TokClose].

Definition unknownFieldError : error :=
  jsonError "definition.root.transitions[0].label" (Errorf ("unknown field " +:+ quote "label")).

Lemma unmarshal_errors_witness :
  inspectJSONDocument unknownField "definition" = Err unknownFieldError
  ∨ ∃ raw, Decode unknownField = Ok (raw, [])
    ∧ (inspectDefinition raw "definition" = Err unknownFieldError
       ∨ ∃ w d e', decDefinition raw = Ok w ∧ decodeDefinition w "definition" = Ok d
           ∧ Validate d = Err e' ∧ unknownFieldError = wrapDefinitionError e').
Proof. apply (unmarshal_errors unknownField unknownFieldError). vm_compute. reflexivity. Defined.

(** A document with its fields in another order than [Marshal] writes them. *)
Definition reordered : document :=
  [TokOpenObject; TokString "root"; TokOpenObject; TokString "kind"; TokString "atomic";
   TokString "id"; TokOpenObject; TokString "value"; TokString "a"; TokClose; TokClose;
   TokString "datamodel"; TokString "counter"; TokString "id"; TokString "x"; TokClose].
Definition reorderedDefinition : ChartDefinition :=
  mkDefinition "x" "" "counter" "" "" [] (mkStateDefinition (mkStateID "a" false) 0 0 None [] [] [] [] [] None []).

Lemma unmarshal_canonical_witness :
  Unmarshal reordered = Ok reorderedDefinition
  ∧ Validate reorderedDefinition = Ok ()
  ∧ ∃ canonical, Marshal reorderedDefinition = Ok canonical ∧ Unmarshal canonical = Ok reorderedDefinition.
Proof. split; [vm_compute; reflexivity|]. apply (unmarshal_canonical reordered reorderedDefinition). vm_compute. reflexivity. Defined.

Example reordered_rewritten :
  Marshal reorderedDefinition = Ok [TokOpenObject; TokString "id"; TokString "x"; TokString "datamodel"; TokString "counter";
    TokString "root"; TokOpenObject; TokString "id"; TokOpenObject; TokString "value"; TokString "a"; TokClose;
    TokString "kind"; TokString "atomic"; TokClose; TokClose].
Proof. vm_compute. reflexivity. Qed.
