(* ===== verification/GoModel.v ===== *)
(** * The Go datamodel (go_model.go)

    The default datamodel is a registry of named host callbacks over an
    application type [D].  [GoModel.Compile] walks a definition, checks every
    expression against the registry and the declared data, and records a handle
    for each one; a session holds the application's [D] and one canonical value
    for each declared datum.

    The host callbacks, the factory and the codecs are the application's: they
    are fields of the model, arbitrary functions that may fail, panic, change
    [D] and call back through their context.  [json.Marshal] on the wire form of
    a value and on the envelope of a snapshot is a parameter, as is SHA-256.
    A pointer is an option; the address of a [goProgramOwner] is a number. *)

From S2P Require Import Prelude Identifier Values Events Datamodel Chart Interp Actions Steps Definitions Validate Compile Snapshot.
From stdpp Require Import options.

(** ** Kinds *)

Definition goLiteralKind : Identifier := "go.literal".
Definition goDataKind : Identifier := "go.data".
Definition goConditionKind : Identifier := "go.condition".
Definition goScriptKind : Identifier := "go.script".
Definition goValueKind : Identifier := "go.value".
Definition goLocationKind : Identifier := "go.location".

Definition registrationKey (n : Identifier) (v : string) : string := n +:+ zeroByte +:+ v.

(** ** References as values *)

(** [s, _ := StringValue(text)]: the zero [Value] when the text is refused. *)
Definition stringOrZero (text : string) : Value :=
  match StringValue text with Ok v => v | Err _ => NullValue end.

(** [m[key]] of a Go map: the zero [Value] when the key is absent. *)
Definition entry (key : string) (m : list (string * Value)) : Value := default NullValue (assoc key m).

Definition encodeExpression (e : Expression) : result Value :=
  MapValue [("kind", stringOrZero (xp_Kind e)); ("data", xp_Data e)].

Definition decodeExpression (v : Value) : result Expression :=
  match AsMap v with
  | None => Err (Errorf "expression must be a map")
  | Some m =>
      match AsString (entry "kind" m) with
      | Some k =>
          if decide (k = "") then Err (Errorf "expression kind required")
          else Ok (mkExpression k (Clone (entry "data" m)))
      | None => Err (Errorf "expression kind required")
      end
  end.

Definition encodeGoRef (ref : FunctionRef) : result Value :=
  args ← result_mapM encodeExpression (fr_Args ref);
  MapValue [("name", stringOrZero (fr_Name ref)); ("version", stringOrZero (fr_Version ref)); ("args", ListValue args)].

Definition decodeGoRef (v : Value) : result FunctionRef :=
  match AsMap v with
  | None => Err (Errorf "function reference must be a map")
  | Some m =>
      match AsString (entry "name" m), AsString (entry "version" m), AsList (entry "args" m) with
      | Some n, Some ver, Some args =>
          if decide (n = "" ∨ ver = "") then Err (Errorf "invalid function reference")
          else exprs ← result_mapM decodeExpression args; Ok (mkFunctionRef n ver exprs)
      | _, _, _ => Err (Errorf "invalid function reference")
      end
  end.

(** [v, _ := encodeGoRef(ref)]. *)
Definition encodedGoRef (ref : FunctionRef) : Value :=
  match encodeGoRef ref with Ok v => v | Err _ => NullValue end.

Definition refExpression (kind name : Identifier) (version : string) (args : list Expression) : Expression :=
  mkExpression kind (encodedGoRef (mkFunctionRef name version (cloneExpression <$> args))).

(** [GoConditionRef], [GoActionRef], [GoValueRef] and [GoLocationRef] are pairs
    of a name and a version that differ in what they can build. *)
Record GoConditionRef := mkConditionRef { cr_name : Identifier; cr_version : string }.
Record GoActionRef := mkActionRef { ar_name : Identifier; ar_version : string }.
Record GoValueRef := mkValueRef { vr_name : Identifier; vr_version : string }.
Record GoLocationRef := mkLocationRef { lr_name : Identifier; lr_version : string }.

Definition If (r : GoConditionRef) (args : list Expression) : Expression :=
  refExpression goConditionKind (cr_name r) (cr_version r) args.
Definition actionExpression (r : GoActionRef) (args : list Expression) : Expression :=
  refExpression goScriptKind (ar_name r) (ar_version r) args.
Definition actionFunction (r : GoActionRef) (args : list Expression) : FunctionRef :=
  mkFunctionRef (ar_name r) (ar_version r) (cloneExpression <$> args).
Definition Do (r : GoActionRef) (args : list Expression) : Executable :=
  NewScriptExecutable (mkScript (actionExpression r args)).
Definition Call (r : GoActionRef) (args : list Expression) : Executable :=
  NewCallExecutable (mkCall (actionFunction r args)).
Definition Get (r : GoValueRef) (args : list Expression) : Expression :=
  refExpression goValueKind (vr_name r) (vr_version r) args.
Definition At (r : GoLocationRef) (args : list Expression) : Expression :=
  refExpression goLocationKind (lr_name r) (lr_version r) args.

Definition GoLiteral (v : Value) : Expression := mkExpression goLiteralKind (Clone v).
Definition GoData (id : Identifier) : Expression := mkExpression goDataKind (stringOrZero id).

(** The number of constructors of a value, the measure of the recursion of
    [raw]: the arguments of a reference are inside of its data. *)
Fixpoint vsize (v : Value) : nat :=
  match v with
  | ListOf l => S (list_sum (map vsize l))
  | MapOf m => S (list_sum (map (λ '(_, x), vsize x) m))
  | TaggedOf _ p => S (vsize p)
  | _ => 1
  end.

(** ** Keys *)

Section keys.
Variable wireText : ValueWire → string.

Definition MarshalBinary (v : Value) : result string := w ← Wire v; Ok (wireText w).

(** [b, _ := v.MarshalBinary()]: no bytes when it fails. *)
Definition marshaled (v : Value) : string :=
  match MarshalBinary v with Ok b => b | Err _ => "" end.

Definition valueKeyInternal (e : Expression) : string :=
  itoa (N.of_nat (String.length (xp_Kind e))) +:+ ":" +:+ xp_Kind e +:+ marshaled (xp_Data e).

Definition functionKeyInternal (function : FunctionRef) : string := marshaled (encodedGoRef function).
End keys.

Section go_model.
Context {D : Type}.

(** ** Callbacks, codecs and registrations *)

Definition GoCondition : Type := D → ExecContext → list Value → D * list effect * outcome bool.
Definition GoAction : Type := D → ExecContext → list Value → D * list effect * outcome unit.
Definition GoValue : Type := D → ExecContext → list Value → D * list effect * outcome Value.
Definition GoLocation : Type := D → ExecContext → Value → list Value → D * list effect * outcome unit.

Record GoSnapshotCodec := mkSnapshotCodec {
  codec_Encode : option (D → outcome string);
  codec_Decode : option (string → outcome (option D))
}.

Record GoInspectionCodec := mkInspectionCodec { inspection_Encode : option (D → outcome Value) }.

Record goRegistration := mkRegistration {
  reg_kind : Identifier;
  reg_cond : option GoCondition;
  reg_act : option GoAction;
  reg_get : option GoValue;
  reg_set : option GoLocation
}.

Definition zeroRegistration : goRegistration := mkRegistration "" None None None None.

Record GoModel := mkGoModel {
  gm_factory : option (outcome (option D));
  gm_codec : GoSnapshotCodec;
  gm_inspectionCodec : GoInspectionCodec;
  gm_registrations : gmap string goRegistration
}.

Definition WithGoSnapshotCodec (c : GoSnapshotCodec) (m : GoModel) : GoModel :=
  mkGoModel (gm_factory m) c (gm_inspectionCodec m) (gm_registrations m).
Definition WithGoInspectionCodec (c : GoInspectionCodec) (m : GoModel) : GoModel :=
  mkGoModel (gm_factory m) (gm_codec m) c (gm_registrations m).

Section new_model.
(** [json.Marshal] and [json.Unmarshal] on [D], and the decoder with
    [UseNumber] into an [any]. *)
Variable marshalD : D → result string.
Variable unmarshalD : string → result D.
Variable shape : string → result JSON.

Definition returned {A} (r : result A) : outcome A := match r with Ok a => Returned a | Err e => Failed e end.

Definition jsonSnapshotCodec : GoSnapshotCodec :=
  mkSnapshotCodec (Some (λ d, returned (marshalD d))) (Some (λ b, returned (Some <$> unmarshalD b))).

Definition jsonInspectionCodec : GoInspectionCodec :=
  mkInspectionCodec (Some (λ d, returned (encoded ← marshalD d; shaped ← shape encoded; ValueFromJSON shaped))).

(** A nil option is skipped. *)
Definition NewGoModel (factory : option (outcome (option D))) (options : list (option (GoModel → GoModel))) : GoModel :=
  foldl (λ m o, match o with Some f => f m | None => m end)
    (mkGoModel factory jsonSnapshotCodec jsonInspectionCodec ∅) options.
End new_model.

Definition GoName : Identifier := "go".

Definition nilCallback (r : goRegistration) : bool :=
  bool_decide (reg_kind r = goConditionKind) && negb (present (reg_cond r))
  || bool_decide (reg_kind r = goScriptKind) && negb (present (reg_act r))
  || bool_decide (reg_kind r = goValueKind) && negb (present (reg_get r))
  || bool_decide (reg_kind r = goLocationKind) && (negb (present (reg_get r)) || negb (present (reg_set r))).

(** [register]: the model afterwards, or the error and the model unchanged. *)
Definition register (n : Identifier) (v : string) (r : goRegistration) (m : GoModel) : result GoModel :=
  _ ← match validatePlainIdentifier n with
      | Ok _ => Ok ()
      | Err e => Err (Wrapf ("statecharts: invalid Go function name " +:+ quote n +:+ ": ") e)
      end;
  _ ← fail_if (bool_decide (v = ""))
        (Errorf ("statecharts: Go function " +:+ quote n +:+ " requires a non-empty version"));
  _ ← match validateUTF8 v with
      | Ok _ => Ok ()
      | Err e => Err (Wrapf ("statecharts: invalid version for Go function " +:+ quote n +:+ ": ") e)
      end;
  _ ← fail_if (nilCallback r)
        (Errorf ("statecharts: nil Go callback for " +:+ quote n +:+ " version " +:+ quote v));
  let k := registrationKey n v in
  _ ← fail_if (present (gm_registrations m !! k))
        (Errorf ("statecharts: duplicate Go function " +:+ quote n +:+ " version " +:+ quote v));
  Ok (mkGoModel (gm_factory m) (gm_codec m) (gm_inspectionCodec m) (<[k := r]> (gm_registrations m))).

(** The typed registrations return a reference, also with an error. *)
Definition Condition (n : Identifier) (v : string) (fn : option GoCondition) (m : GoModel) : GoConditionRef * result GoModel :=
  (mkConditionRef n v, register n v (mkRegistration goConditionKind fn None None None) m).
Definition Script (n : Identifier) (v : string) (fn : option GoAction) (m : GoModel) : GoActionRef * result GoModel :=
  (mkActionRef n v, register n v (mkRegistration goScriptKind None fn None None) m).
Definition Action (n : Identifier) (v : string) (fn : option GoAction) (m : GoModel) : GoActionRef * result GoModel :=
  Script n v fn m.
Definition ValueFn (n : Identifier) (v : string) (fn : option GoValue) (m : GoModel) : GoValueRef * result GoModel :=
  (mkValueRef n v, register n v (mkRegistration goValueKind None None fn None) m).
Definition Location (n : Identifier) (v : string) (get : option GoValue) (set : option GoLocation) (m : GoModel)
    : GoLocationRef * result GoModel :=
  (mkLocationRef n v, register n v (mkRegistration goLocationKind None None get set) m).

(** ** Compiled expressions and programs *)

Inductive goCompiled := mkGoCompiled {
  co_owner : nat;
  co_kind : Identifier;
  co_reg : goRegistration;
  co_args : list goCompiled;
  co_literal : Value;
  co_dataID : Identifier
}.

Record goProgram := mkGoProgram {
  gp_owner : nat;
  gp_factory : outcome (option D);
  gp_codec : GoSnapshotCodec;
  gp_inspectionCodec : GoInspectionCodec;
  gp_fingerprint : string;
  gp_compiled : gmap string goCompiled;
  gp_functions : gmap string goCompiled;
  gp_declarations : list Identifier;
  gp_dataLocations : gmap string goCompiled
}.

(** The state of one compilation: the parts of the program under construction,
    the declared IDs and the registrations used. *)
Record goCompile := mkGoCompile {
  gc_declarations : gset string;
  gc_used : gmap string Identifier;
  gc_compiled : gmap string goCompiled;
  gc_functions : gmap string goCompiled;
  gc_declared : list Identifier;
  gc_dataLocations : gmap string goCompiled
}.

Inductive goCategory := catValue | catBoolean | catLocation | catReadableLocation | catScript.

(** ** Declarations *)

Section compile.
Variable wireText : ValueWire → string.
Variable registry : gmap string goRegistration.
Variable owner : nat.

Definition goAdd (c : goCompile) (id : Identifier) : goCompile :=
  if decide (id ∈ gc_declarations c) then c
  else mkGoCompile ({[id]} ∪ gc_declarations c) (gc_used c) (gc_compiled c) (gc_functions c) (gc_declared c ++ [id])
         (<[id := mkGoCompiled owner goDataKind zeroRegistration [] NullValue id]> (gc_dataLocations c)).

Definition collectDataIDs (ds : list DataDefinition) (c : goCompile) : goCompile := foldl (λ c d, goAdd c (da_ID d)) c ds.

Fixpoint collectStateDataIDs (s : StateDefinition) (c : goCompile) : goCompile :=
  foldl (λ c x, collectStateDataIDs x c) (collectDataIDs (sd_Data s) c) (sd_Children s).

(** ** The compilation monad *)

Definition goM (A : Type) : Type := goCompile → result (A * goCompile).
Definition goRet {A} (a : A) : goM A := λ c, Ok (a, c).
Definition goFail {A} (e : error) : goM A := λ _, Err e.
Definition goBind {A B} (m : goM A) (f : A → goM B) : goM B := λ c, '(a, c) ← m c; f a c.

Notation "x ←ᵍ m ; k" := (goBind m (λ x, k)) (at level 100, m at level 99, k at level 200, right associativity).

Section each.
Context {A : Type} (f : A → goM unit).
(** [for _, x := range xs { if err := f(x); err != nil { return err } }]. *)
Fixpoint goEach (xs : list A) : goM unit :=
  match xs with
  | [] => goRet ()
  | x :: xs => _ ←ᵍ f x; goEach xs
  end.
End each.

Definition goWhen {A} (o : option A) (f : A → goM unit) : goM unit :=
  match o with Some a => f a | None => goRet () end.

(** A dereference of a pointer that may be nil. *)
Definition goDeref {A} (o : option A) (f : A → goM unit) : goM unit :=
  match o with Some a => f a | None => goFail nilDereference end.

Definition markUsed (key kind : string) : goM unit := λ c,
  Ok ((), mkGoCompile (gc_declarations c) (<[key := kind]> (gc_used c)) (gc_compiled c) (gc_functions c)
            (gc_declared c) (gc_dataLocations c)).
Definition storeCompiled (key : string) (x : goCompiled) : goM unit := λ c,
  Ok ((), mkGoCompile (gc_declarations c) (gc_used c) (<[key := x]> (gc_compiled c)) (gc_functions c)
            (gc_declared c) (gc_dataLocations c)).
Definition storeFunction (key : string) (x : goCompiled) : goM unit := λ c,
  Ok ((), mkGoCompile (gc_declarations c) (gc_used c) (gc_compiled c) (<[key := x]> (gc_functions c))
            (gc_declared c) (gc_dataLocations c)).
Definition isDeclared (id : Identifier) : goM bool := λ c, Ok (bool_decide (id ∈ gc_declarations c), c).

(** ** Expressions *)

Definition validIn (cat : goCategory) (k : Identifier) : bool :=
  match cat with
  | catValue => bool_decide (k = goLiteralKind) || bool_decide (k = goDataKind) || bool_decide (k = goValueKind)
                || bool_decide (k = goLocationKind)
  | catBoolean => bool_decide (k = goConditionKind)
  | catLocation | catReadableLocation => bool_decide (k = goDataKind) || bool_decide (k = goLocationKind)
  | catScript => bool_decide (k = goScriptKind)
  end.

Section expression.
Variable raw : Expression → goM goCompiled.

Definition expression_with (e : Expression) (cat : goCategory) : goM goCompiled :=
  x ←ᵍ raw e;
  if validIn cat (co_kind x) then
    _ ←ᵍ storeCompiled (valueKeyInternal wireText e) x;
    goRet x
  else goFail (Errorf ("statecharts: Go expression kind " +:+ quote (co_kind x) +:+ " is invalid in requested context")).

(** The loop over the arguments of a reference. *)
Fixpoint compileArgs (i : N) (args : list Expression) : goM (list goCompiled) :=
  match args with
  | [] => goRet []
  | a :: args =>
      x ←ᵍ (λ c, match expression_with a catValue c with
                 | Ok r => Ok r
                 | Err e => Err (Wrapf ("statecharts: argument " +:+ itoa i +:+ ": ") e)
                 end);
      xs ←ᵍ compileArgs (i + 1) args;
      goRet (x :: xs)
  end.
End expression.

Definition outOfFuel : error := Errorf "out of fuel".

Fixpoint raw (fuel : nat) (e : Expression) : goM goCompiled :=
  match fuel with
  | 0 => goFail outOfFuel
  | S fuel =>
      let k := xp_Kind e in
      if decide (k = goLiteralKind) then
        goRet (mkGoCompiled owner k zeroRegistration [] (Clone (xp_Data e)) "")
      else if decide (k = goDataKind) then
        match AsString (xp_Data e) with
        | None => goFail (Errorf ("statecharts: unknown Go data ID " +:+ quote ""))
        | Some id =>
            ok ←ᵍ isDeclared id;
            if (ok : bool) then goRet (mkGoCompiled owner k zeroRegistration [] NullValue id)
            else goFail (Errorf ("statecharts: unknown Go data ID " +:+ quote id))
        end
      else
        match decodeGoRef (xp_Data e) with
        | Err err => goFail (Wrapf ("statecharts: compile " +:+ quote k +:+ ": ") err)
        | Ok ref =>
            match registry !! registrationKey (fr_Name ref) (fr_Version ref) with
            | None => goFail (Errorf ("statecharts: unknown Go function " +:+ quote (fr_Name ref)
                                +:+ " version " +:+ quote (fr_Version ref)))
            | Some r =>
                if negb (bool_decide (reg_kind r = k)) then
                  goFail (Errorf ("statecharts: Go function " +:+ quote (fr_Name ref) +:+ " version "
                    +:+ quote (fr_Version ref) +:+ " has wrong kind " +:+ quote (reg_kind r) +:+ ", want " +:+ quote k))
                else if nilCallback r then
                  goFail (Errorf ("statecharts: Go function " +:+ quote (fr_Name ref) +:+ " has nil callback"))
                else
                  _ ←ᵍ markUsed (registrationKey (fr_Name ref) (fr_Version ref)) (reg_kind r);
                  args ←ᵍ compileArgs (raw fuel) 0 (fr_Args ref);
                  goRet (mkGoCompiled owner k r args NullValue "")
            end
        end
  end.

(** Enough fuel: the nesting of references is bounded by the size of the data. *)
Definition rawFuel (e : Expression) : nat := S (vsize (xp_Data e)).

Definition goExpression (e : Expression) (cat : goCategory) : goM goCompiled :=
  expression_with (raw (rawFuel e)) e cat.

(** [if _, err := c.expression(e, cat); err != nil { return err }]. *)
Definition checkExpression (cat : goCategory) (e : Expression) : goM unit := _ ←ᵍ goExpression e cat; goRet ().

(** ** The walk over a definition *)

Definition valueExpressions (es : list (option Expression)) : goM unit :=
  goEach (λ e, goWhen e (checkExpression catValue)) es.
Definition locationExpression (e : option Expression) : goM unit := goWhen e (checkExpression catLocation).

Definition goParam (q : ParamDefinition) : goM unit :=
  _ ←ᵍ valueExpressions [pd_Expr q];
  goWhen (pd_Location q) (checkExpression catReadableLocation).
Definition goParams : list ParamDefinition → goM unit := goEach goParam.

Definition goDatum (d : DataDefinition) : goM unit :=
  if negb (bool_decide (da_Source d = ""))
  then goFail (Errorf ("statecharts: Go data source " +:+ quote (da_Source d) +:+ " is unsupported"))
  else goWhen (match da_Expr d with Some e => Some e | None => da_Content d end) (checkExpression catValue).
Definition goData : list DataDefinition → goM unit := goEach goDatum.

Definition goSend (s : SendDefinition) : goM unit :=
  _ ←ᵍ valueExpressions [sn_EventExpr s; sn_TargetExpr s; sn_TypeExpr s; sn_DelayExpr s; sn_Content s];
  _ ←ᵍ locationExpression (sn_IDLocation s);
  goParams (sn_Params s).

Definition goCall (f : FunctionRef) : goM unit :=
  x ←ᵍ goExpression (mkExpression goScriptKind (encodedGoRef f)) catScript;
  storeFunction (functionKeyInternal wireText f) x.

(** The item and the index of a [<foreach>]. *)
Definition goBindings (item index : Identifier) : goM unit :=
  ok ←ᵍ isDeclared item;
  if negb ok then goFail (Errorf ("statecharts: unknown foreach item data ID " +:+ quote item)) else
  _ ←ᵍ checkExpression catLocation (GoData item);
  if decide (index = "") then goRet () else
  ok ←ᵍ isDeclared index;
  if negb ok then goFail (Errorf ("statecharts: unknown foreach index data ID " +:+ quote index)) else
  checkExpression catLocation (GoData index).

Definition goBlocks_with (f : Executable → goM unit) (bs : list ExecutableBlock) : goM unit := goEach (goEach f) bs.

(** One node of a block; other kinds are left to the chart compiler. *)
Fixpoint goExecutable (e : Executable) : goM unit :=
  let 'mkExecutable k raise send cancel log assign choose foreach script call extension := e in
  if decide (k = ExecutableRaise) then goDeref raise (λ r, valueExpressions [rd_EventExpr r; rd_Data r])
  else if decide (k = ExecutableSend) then goDeref send goSend
  else if decide (k = ExecutableCancel) then goDeref cancel (λ x, valueExpressions [cn_SendIDExpr x])
  else if decide (k = ExecutableLog) then goDeref log (λ l, valueExpressions [lg_LabelExpr l; lg_Expr l])
  else if decide (k = ExecutableAssign) then
    goDeref assign (λ a, _ ←ᵍ checkExpression catLocation (as_Location a); checkExpression catValue (as_Expr a))
  else if decide (k = ExecutableScript) then goDeref script (λ s, checkExpression catScript (sc_Expr s))
  else if decide (k = ExecutableCall) then goDeref call (λ x, goCall (cl_Function x))
  else if decide (k = ExecutableForEach) then
    match foreach with
    | Some (mkForEach array item index actions) =>
        _ ←ᵍ checkExpression catValue array;
        _ ←ᵍ goBindings item index;
        goBlocks_with goExecutable actions
    | None => goFail nilDereference
    end
  else if decide (k = ExecutableChoose) then
    match choose with
    | Some (mkChoose branches otherwise) =>
        _ ←ᵍ goEach (λ '(mkBranch cond actions),
               _ ←ᵍ checkExpression catBoolean cond; goBlocks_with goExecutable actions) branches;
        goBlocks_with goExecutable otherwise
    | None => goFail nilDereference
    end
  else goRet ().

Definition goBlocks : list ExecutableBlock → goM unit := goBlocks_with goExecutable.

Definition goTransition (t : TransitionDefinition) : goM unit :=
  _ ←ᵍ goWhen (td_Condition t) (checkExpression catBoolean);
  goBlocks (td_Actions t).

Definition goInvoke (v : InvokeDefinition) : goM unit :=
  _ ←ᵍ valueExpressions [id_TypeExpr v; id_SrcExpr v; id_Content v];
  _ ←ᵍ locationExpression (id_IDLocation v);
  _ ←ᵍ goParams (id_Params v);
  goBlocks (id_Finalize v).

Definition goDoneData (d : DoneDataDefinition) : goM unit :=
  _ ←ᵍ goParams (dn_Params d);
  valueExpressions [dn_Content d].

(** What is compiled of a state before its children. *)
Definition goStateSelf (s : StateDefinition) : goM unit :=
  _ ←ᵍ goData (sd_Data s);
  _ ←ᵍ goWhen (sd_Initial s) goTransition;
  _ ←ᵍ goEach (λ b, goBlocks [b]) (sd_OnEntry s ++ sd_OnExit s);
  _ ←ᵍ goEach goTransition (sd_Transitions s);
  _ ←ᵍ goEach goInvoke (sd_Invokes s);
  goWhen (sd_DoneData s) goDoneData.

Fixpoint goState (s : StateDefinition) : goM unit :=
  _ ←ᵍ goStateSelf s;
  goEach goState (sd_Children s).

Definition goDefinition (d : ChartDefinition) : goM unit :=
  _ ←ᵍ goData (df_Data d);
  goState (df_Root d).

End compile.

(** ** The fingerprint *)

Definition usedKeys (used : gmap string Identifier) : list string :=
  merge_sort string_le (map (λ '(k, kind), k +:+ zeroByte +:+ kind) (map_to_list used)).

Definition framed (k : string) : string := itoa (N.of_nat (String.length k)) +:+ ":" +:+ k.

(** What is written to the digest. *)
Definition fingerprintMaterial (used : gmap string Identifier) : string :=
  "statecharts/go-model/v2" +:+ zeroByte +:+ foldr (λ k s, framed k +:+ s) "" (usedKeys used).

(** ** Compile *)

Section program.
Variable wireText : ValueWire → string.
Variable sum256 : string → string.

Definition emptyCompile : goCompile := mkGoCompile ∅ ∅ ∅ ∅ [] ∅.

Definition collectIDs (owner : nat) (def : ChartDefinition) : goCompile :=
  collectStateDataIDs owner (df_Root def) (collectDataIDs owner (df_Data def) emptyCompile).

(** [owner] is the address of the program's new [goProgramOwner]. *)
Definition GoCompile (owner : nat) (m : GoModel) (def : ChartDefinition) : result goProgram :=
  _ ← Validate def;
  _ ← fail_if (negb (bool_decide (df_Datamodel def = GoName)))
        (Errorf ("statecharts: definition datamodel " +:+ quote (df_Datamodel def) +:+ " is not " +:+ quote GoName));
  match gm_factory m with
  | Some factory =>
      _ ← fail_if (negb (present (codec_Encode (gm_codec m))) || negb (present (codec_Decode (gm_codec m)))
                   || negb (present (inspection_Encode (gm_inspectionCodec m))))
            (Errorf "statecharts: Go model requires non-nil factory, snapshot codec, and inspection codec");
      '(_, c) ← goDefinition wireText (gm_registrations m) owner def (collectIDs owner def);
      Ok (mkGoProgram owner factory (gm_codec m) (gm_inspectionCodec m) (sum256 (fingerprintMaterial (gc_used c)))
            (gc_compiled c) (gc_functions c) (gc_declared c) (gc_dataLocations c))
  | None => Err (Errorf "statecharts: Go model requires non-nil factory, snapshot codec, and inspection codec")
  end.

Definition goResolveExpression (p : goProgram) (e : Expression) : result goCompiled :=
  match gp_compiled p !! valueKeyInternal wireText e with
  | Some x => Ok x
  | None => Err (Errorf "statecharts: expression was not compiled by this Go program")
  end.

Definition goResolveFunction (p : goProgram) (f : FunctionRef) : result goCompiled :=
  match gp_functions p !! functionKeyInternal wireText f with
  | Some x => Ok x
  | None => Err (Errorf "statecharts: function reference was not compiled by this Go program")
  end.

Definition goResolveDataLocation (p : goProgram) (id : Identifier) : result goCompiled :=
  match gp_dataLocations p !! id with
  | Some x => Ok x
  | None => Err (Errorf ("statecharts: data ID " +:+ quote id +:+ " was not declared in this Go program"))
  end.
End program.

(** ** Sessions *)

Record goSession := mkGoSession {
  gs_owner : nat;
  gs_data : D;
  gs_codec : GoSnapshotCodec;
  gs_inspectionCodec : GoInspectionCodec;
  gs_values : gmap string Value
}.

Definition set_data (d : D) (s : goSession) : goSession :=
  mkGoSession (gs_owner s) d (gs_codec s) (gs_inspectionCodec s) (gs_values s).
Definition set_values (vs : gmap string Value) (s : goSession) : goSession :=
  mkGoSession (gs_owner s) (gs_data s) (gs_codec s) (gs_inspectionCodec s) vs.

(** The zero value for every declared ID. *)
Definition declaredValues (ids : list Identifier) : gmap string Value := foldl (λ vs id, <[id := NullValue]> vs) ∅ ids.

(** [recoverGo], [recoverGoSnapshotCodec] and [recoverGoInspectionCodec]. *)
Definition recovered {A} (what : string) (o : outcome A) : outcome A :=
  match o with
  | Panicked m => Failed (Errorf ("statecharts: Go " +:+ what +:+ " panicked: " +:+ m))
  | o => o
  end.

(** What a caller sees of a call whose panics are recovered. *)
Definition asResult {A} (o : outcome A) : result A :=
  match o with Returned a => Ok a | Failed e => Err e | Panicked m => Err (Errorf m) end.

(** A call of a codec; calling a nil function panics. *)
Definition codecCall {A B} (fn : option (A → outcome B)) (a : A) : outcome B :=
  match fn with Some f => f a | None => Panicked (msg nilDereference) end.

Definition NewSession (p : goProgram) : result goSession :=
  d ← asResult (recovered "callback" (gp_factory p));
  match d with
  | Some d => Ok (mkGoSession (gp_owner p) d (gp_codec p) (gp_inspectionCodec p) (declaredValues (gp_declarations p)))
  | None => Err (Errorf "statecharts: Go model factory returned nil")
  end.

(** An operation on a session, with the calls it makes on its context. *)
Definition goS (A : Type) : Type := goSession → goSession * list effect * outcome A.
Definition sRet {A} (a : A) : goS A := λ s, (s, [], Returned a).
Definition sFail {A} (e : error) : goS A := λ s, (s, [], Failed e).
Definition sBind {A B} (m : goS A) (f : A → goS B) : goS B := λ s,
  match m s with
  | (s, eff, Returned a) => let '(s, eff', o) := f a s in (s, eff ++ eff', o)
  | (s, eff, Failed e) => (s, eff, Failed e)
  | (s, eff, Panicked m) => (s, eff, Panicked m)
  end.
Definition sLift {A} (r : result A) : goS A := λ s, (s, [], returned r).

Notation "x ←ˢ m ; k" := (sBind m (λ x, k)) (at level 100, m at level 99, k at level 200, right associativity).

(** A call of a host callback; calling a nil function panics. *)
Definition callHost {A B} (fn : option B) (call : B → D → D * list effect * outcome A) : goS A := λ s,
  match fn with
  | Some f => let '(d, eff, o) := call f (gs_data s) in (set_data d s, eff, o)
  | None => (s, [], Panicked (msg nilDereference))
  end.

(** [defer recoverGo(&err)]. *)
Definition recoverGo {A} (m : goS A) : goS A := λ s,
  let '(s, eff, o) := m s in (s, eff, recovered "callback" o).

(** A handle of another datamodel, or a nil one, is [None]. *)
Definition asCompiled (e : option goCompiled) (owner : nat) : result goCompiled :=
  match e with
  | None => Err (Errorf "statecharts: compiled Go expression type mismatch")
  | Some x =>
      if decide (co_owner x = owner) then Ok x
      else Err (Errorf "statecharts: compiled Go expression belongs to another program")
  end.

Definition sAsCompiled (e : option goCompiled) : goS goCompiled := λ s, sLift (asCompiled e (gs_owner s)) s.

Section arguments.
Variable eval : goCompiled → goS Value.
Fixpoint arguments_with (xs : list goCompiled) : goS (list Value) :=
  match xs with
  | [] => sRet []
  | x :: xs => v ←ˢ eval x; vs ←ˢ arguments_with xs; sRet (v :: vs)
  end.
End arguments.

Fixpoint eval (ec : ExecContext) (x : goCompiled) : goS Value :=
  let 'mkGoCompiled _ k r args literal dataID := x in
  if decide (k = goLiteralKind) then sRet (Clone literal)
  else if decide (k = goDataKind) then λ s, (s, [], Returned (Clone (default NullValue (gs_values s !! dataID))))
  else if decide (k = goValueKind ∨ k = goLocationKind) then
    a ←ˢ arguments_with (eval ec) args;
    callHost (reg_get r) (λ f d, f d ec a)
  else sFail (Errorf ("statecharts: expression kind " +:+ quote k +:+ " is not readable")).

Definition arguments (ec : ExecContext) (x : goCompiled) : goS (list Value) := arguments_with (eval ec) (co_args x).

Definition goEvaluateBoolean (ec : ExecContext) (e : option goCompiled) : goS bool :=
  recoverGo (
    x ←ˢ sAsCompiled e;
    if decide (co_kind x = goConditionKind) then
      a ←ˢ arguments ec x;
      callHost (reg_cond (co_reg x)) (λ f d, f d ec a)
    else sFail (Errorf ("statecharts: boolean expression has kind " +:+ quote (co_kind x)))).

Definition goEvaluateValue (ec : ExecContext) (e : option goCompiled) : goS Value :=
  recoverGo (x ←ˢ sAsCompiled e; v ←ˢ eval ec x; sRet (Clone v)).

Definition goAssign (ec : ExecContext) (e : option goCompiled) (v : Value) : goS unit :=
  recoverGo (
    x ←ˢ sAsCompiled e;
    if decide (co_kind x = goDataKind) then
      λ s, (set_values (<[co_dataID x := Clone v]> (gs_values s)) s, [], Returned ())
    else if decide (co_kind x = goLocationKind) then
      a ←ˢ arguments ec x;
      callHost (reg_set (co_reg x)) (λ f d, f d ec (Clone v) a)
    else sFail (Errorf "statecharts: location expression type mismatch")).

Definition goExecute (ec : ExecContext) (e : option goCompiled) : goS unit :=
  recoverGo (
    x ←ˢ sAsCompiled e;
    if decide (co_kind x = goScriptKind) then
      a ←ˢ arguments ec x;
      callHost (reg_act (co_reg x)) (λ f d, f d ec a)
    else sFail (Errorf ("statecharts: script expression has kind " +:+ quote (co_kind x)))).

#[local] Instance GoDatamodelSession : DatamodelSession := {
  CompiledExpression := option goCompiled;
  Session := goSession;
  EvaluateBoolean := goEvaluateBoolean;
  EvaluateValue := goEvaluateValue;
  Assign := goAssign;
  Execute := goExecute
}.

(** [ForEach]: the bindings are assigned, then the body runs.  The body is the
    interpreter's and works on the same session; [None] is a nil function.  The
    interpreter's [forEachModel] is this loop with the actions of the chart as its
    body, for any datamodel. *)
Section for_each.
Variables (ec : ExecContext) (b : IterationBindings) (body : goS unit).

Fixpoint goForEachItems (i : Z) (items : list Value) : goS unit :=
  match items with
  | [] => sRet ()
  | item :: items =>
      _ ←ˢ goAssign ec (bind_Item b) item;
      _ ←ˢ match bind_Index b with
           | Some index => goAssign ec index (default NullValue (Int64Value i))
           | None => sRet ()
           end;
      _ ←ˢ body;
      goForEachItems (i + 1)%Z items
  end.
End for_each.

Definition goForEach (ec : ExecContext) (e : option goCompiled) (b : IterationBindings) (body : option (goS unit)) : goS unit :=
  recoverGo (
    match body with
    | None => sFail (Errorf "statecharts: nil foreach body")
    | Some body =>
        x ←ˢ sAsCompiled e;
        v ←ˢ eval ec x;
        match AsList v with
        | None => sFail (Errorf ("statecharts: foreach array is " +:+ kind_text (Kind v) +:+ ", want list"))
        | Some items => goForEachItems ec b body 0 items
        end
    end).

(** A program and the model, as the chart compiler sees them. *)
Definition programOf (wireText : ValueWire → string) (p : goProgram) : DatamodelProgram :=
  mkProgram (gp_fingerprint p)
    (λ e, Some <$> goResolveExpression wireText p e)
    (λ f, Some <$> goResolveFunction wireText p f)
    (λ id, Some <$> goResolveDataLocation p id).

Definition goDatamodel (wireText : ValueWire → string) (sum256 : string → string) (owner : nat) (m : GoModel) : Datamodel :=
  mkDatamodel GoName (λ d, p ← GoCompile wireText sum256 owner m d; Ok (Some (programOf wireText p))).

(** ** Inspection and snapshots *)

Definition GoInspectionValueTag : string := "statecharts.go-datamodel/v1".

Definition Inspect (s : goSession) : result Value :=
  data ← asResult (recovered "inspection codec"
           (match codecCall (inspection_Encode (gs_inspectionCodec s)) (gs_data s) with
            | Failed e => Failed (Wrapf "statecharts: inspect Go data: " e)
            | o => o
            end));
  variables ← MapValue (map (λ '(id, v), (id, Clone v)) (map_to_list (gs_values s)));
  payload ← MapValue [("data", Clone data); ("variables", variables)];
  TaggedValue GoInspectionValueTag payload.

(** [goSnapshot] as it is written: its values in their wire form. *)
Record goSnapshot := mkGoSnapshot {
  snap_Version : Z;
  snap_Data : string;
  snap_Values : option (gmap string ValueWire)
}.

Definition lookupResult {A} (m : gmap string (result A)) : result (gmap string A) :=
  pairs ← result_mapM (λ '(k, r), v ← r; Ok (k, v)) (map_to_list m); Ok (list_to_map pairs).

Section snapshots.
Variable marshalSnapshot : goSnapshot → string.
Variable unmarshalSnapshot : string → result goSnapshot.

Definition goEncodeSnapshot (s : goSession) : result string :=
  d ← asResult (recovered "snapshot codec" (codecCall (codec_Encode (gs_codec s)) (gs_data s)));
  wires ← lookupResult (Wire ∘ Clone <$> gs_values s);
  Ok (marshalSnapshot (mkGoSnapshot 1 d (Some wires))).

Definition goDecodeSnapshot (b : string) (s : goSession) : result goSession :=
  env ← unmarshalSnapshot b;
  values ← match snap_Values env with
           | Some ws => Some <$> lookupResult (ValueFromWire <$> ws)
           | None => Ok None
           end;
  _ ← fail_if (negb (bool_decide (snap_Version env = 1%Z)))
        (Errorf ("statecharts: unsupported Go snapshot version " +:+ pretty (snap_Version env)));
  match values with
  | None => Err (Errorf "statecharts: incomplete Go snapshot")
  | Some values =>
      d ← asResult (recovered "snapshot codec" (codecCall (codec_Decode (gs_codec s)) (snap_Data env)));
      match d with
      | None => Err (Errorf "statecharts: snapshot codec returned nil")
      | Some d =>
          _ ← fail_if (negb (bool_decide (size values = size (gs_values s))))
                (Errorf "statecharts: snapshot data declarations mismatch");
          match map_to_list (filter (λ '(id, _), gs_values s !! id = None) values) with
          | (id, _) :: _ => Err (Errorf ("statecharts: snapshot contains unknown data ID " +:+ quote id))
          | [] => Ok (set_values (Clone <$> values) (set_data d s))
          end
      end
  end.

#[local] Instance GoSnapshotSession : SnapshotSession (DM := GoDatamodelSession) := {
  EncodeSnapshot := goEncodeSnapshot;
  DecodeSnapshot := goDecodeSnapshot
}.
End snapshots.

Definition Close (s : goSession) : result unit := Ok ().

End go_model.

Arguments GoModel : clear implicits.
Arguments goProgram : clear implicits.
Arguments goCompiled : clear implicits.
Arguments goRegistration : clear implicits.
Arguments goSession : clear implicits.
Arguments goCompile : clear implicits.
Arguments GoSnapshotCodec : clear implicits.
Arguments GoInspectionCodec : clear implicits.
Arguments GoDatamodelSession : clear implicits.
