(* ===== verification/GoProgram.v ===== *)
(** * Theorems: what the Go datamodel compiles, the chart compiler resolves

    [GoModel.Compile] and the chart compiler walk a definition independently:
    the first records a handle for every expression, the second asks for one.
    The state of the walk only grows, every expression that was checked has a
    handle from then on, and the declared IDs are collected before; so every
    request of the chart compiler is answered. *)

From S2P Require Import Prelude Identifier Values Events Datamodel Chart Interp Actions Steps Definitions Validate Layout Compile.
From S2P Require Import Indexed Validated Accepted Authoring Normalize Content Compiled Safety Snapshot Restored GoModel.
From stdpp Require Import options.

#[local] Existing Instance GoDatamodelSession.

(** ** Definitions without extensions, whose delays can be read *)

Section portable.
Variable parseDuration : string → result Z.

Definition delayParses (s : SendDefinition) : bool :=
  if nonBlank (sn_Delay s) then match parseDuration (sn_Delay s) with Ok _ => true | Err _ => false end else true.

Fixpoint portable (e : Executable) : bool :=
  let 'mkExecutable k raise send cancel log assign choose foreach script call extension := e in
  negb (bool_decide (k = ExecutableExtension))
  && match send with Some s => delayParses s | None => true end
  && match choose with
     | Some (mkChoose branches otherwise) =>
         forallb (λ '(mkBranch _ actions), forallb (forallb portable) actions) branches && forallb (forallb portable) otherwise
     | None => true
     end
  && match foreach with Some (mkForEach _ _ _ actions) => forallb (forallb portable) actions | None => true end.

Definition portableBlocks (bs : list ExecutableBlock) : bool := forallb (forallb portable) bs.

Definition portableSelf (s : StateDefinition) : bool :=
  portableBlocks (sd_OnEntry s) && portableBlocks (sd_OnExit s)
  && match sd_Initial s with Some t => portableBlocks (td_Actions t) | None => true end
  && forallb (λ t, portableBlocks (td_Actions t)) (sd_Transitions s)
  && forallb (λ v, portableBlocks (id_Finalize v)) (sd_Invokes s).

Fixpoint portableState (s : StateDefinition) : bool := portableSelf s && forallb portableState (sd_Children s).
End portable.

(** ** Computations that succeed *)

Lemma is_Ok_Ok {A} (a : A) : is_Ok (Ok a).
Proof. by eexists. Qed.
Lemma is_Ok_bind {A B} (r : result A) (f : A → result B) : is_Ok r → (∀ a, is_Ok (f a)) → is_Ok (r ≫= f).
Proof. intros [a ->] H. apply H. Qed.
Lemma is_Ok_fmap {A B} (f : A → B) (r : result A) : is_Ok r → is_Ok (f <$> r).
Proof. intros [a ->]. by eexists. Qed.
Lemma is_Ok_at_path {A} path (r : result A) : is_Ok r → is_Ok (at_path path r).
Proof. intros [a ->]. by eexists. Qed.
Lemma is_Ok_collectEach {A B} (f : N → A → result B) i xs : Forall (λ x, ∀ i, is_Ok (f i x)) xs → is_Ok (collectEach f i xs).
Proof.
  intros H. revert i. induction H as [|x xs Hx _ IH]; intros i; simpl; [apply is_Ok_Ok|].
  apply is_Ok_bind; [done|]. intros y. apply is_Ok_bind; [done|]. intros ys. apply is_Ok_Ok.
Qed.
Lemma is_Ok_forRange {A S} (f : N → A → S → result S) i xs st :
  Forall (λ x, ∀ i st, is_Ok (f i x st)) xs → is_Ok (forRange f i xs st).
Proof.
  intros H. revert i st. induction H as [|x xs Hx _ IH]; intros i st; simpl; [apply is_Ok_Ok|].
  apply is_Ok_bind; [done|]. intros y. apply IH.
Qed.

Create HintDb succeeds.
#[export] Hint Resolve is_Ok_Ok : succeeds.
Ltac succeeds :=
  repeat first
    [ solve [auto with succeeds]
    | match goal with
      | |- is_Ok (at_path _ _) => apply is_Ok_at_path
      | |- is_Ok (_ <$> _) => apply is_Ok_fmap
      | |- is_Ok (_ ≫= _) => apply is_Ok_bind; [|intros ?]
      end ].

(** ** Relations along a walk

    [extends R m]: whenever [m] succeeds, the states before and after it are
    related by [R]. *)

Section extends.
Context {D : Type}.

Lemma goBind_Ok {A B} (m : goM (D := D) A) (f : A → goM B) c b c'' :
  goBind m f c = Ok (b, c'') ↔ ∃ a c', m c = Ok (a, c') ∧ f a c' = Ok (b, c'').
Proof.
  unfold goBind. rewrite result_bind_Ok. split; [intros ([a c'] & H & H') | intros (a & c' & H & H')]; [by eauto|].
  by exists (a, c').
Qed.

Definition extends (R : relation (goCompile D)) {A} (m : goM (D := D) A) : Prop := ∀ c a c', m c = Ok (a, c') → R c c'.

Context (R : relation (goCompile D)) `{!PreOrder R}.

Lemma extends_ret {A} (a : A) : extends R (goRet a).
Proof using All. by intros c b c' [= <- <-]. Qed.
Lemma extends_fail {A} e : extends R (goFail (A := A) e).
Proof. by intros c b c'. Qed.
Lemma extends_bind {A B} (m : goM A) (f : A → goM B) : extends R m → (∀ a, extends R (f a)) → extends R (goBind m f).
Proof using All.
  intros Hm Hf c b c'' (a & c' & H1 & H2)%goBind_Ok. etrans; [by eapply Hm | by eapply Hf].
Qed.
Lemma extends_each {A} (f : A → goM unit) xs : (∀ x, x ∈ xs → extends R (f x)) → extends R (goEach f xs).
Proof using All.
  induction xs as [|x xs IH]; intros Hf; simpl; [apply extends_ret|].
  apply extends_bind; [apply Hf; left|]. intros _. apply IH. intros y Hy. apply Hf. by right.
Qed.
Lemma extends_when {A} (o : option A) f : (∀ a, extends R (f a)) → extends R (goWhen o f).
Proof using All. destruct o; simpl; [auto | intros; apply extends_ret]. Qed.
Lemma extends_deref {A} (o : option A) f : (∀ a, extends R (f a)) → extends R (goDeref o f).
Proof. destruct o; simpl; [auto | intros; apply extends_fail]. Qed.
Lemma extends_isDeclared id : extends R (isDeclared id).
Proof using All. by intros c b c' [= <- <-]. Qed.
End extends.

Create HintDb grow.
#[export] Hint Resolve extends_ret extends_fail extends_isDeclared : grow.

(** Follows the binds of a walk down to its leaves. *)
Ltac growth :=
  repeat first
    [ solve [typeclasses eauto with grow typeclass_instances core]
    | match goal with
      | |- extends _ (goBind _ _) => apply extends_bind; [apply _| |intros ?]
      | |- extends _ (goWhen _ _) => apply extends_when; [apply _|intros ?]
      | |- extends _ (goDeref _ _) => apply extends_deref; intros ?
      | |- extends _ (goEach _ _) => apply extends_each; [apply _|intros ? ?]
      | |- extends _ (if ?b then _ else _) => destruct b
      end ].

(** A relation is one along every walk when the compilation of an expression and
    of a call respect it. *)
Class WalkRelation {D} (wireText : ValueWire → string) (registry : gmap string (goRegistration D)) (owner : nat)
    (R : relation (goCompile D)) : Prop := {
  walk_preorder :: PreOrder R;
  walk_expression e cat : extends R (goExpression wireText registry owner e cat);
  walk_call f : extends R (goCall wireText registry owner f)
}.
#[export] Hint Resolve walk_expression walk_call : grow.

Section walk.
Context {D : Type} {wireText : ValueWire → string} {registry : gmap string (goRegistration D)} {owner : nat}.
Context {R : relation (goCompile D)} `{!WalkRelation wireText registry owner R}.

Lemma extends_check cat e : extends R (checkExpression wireText registry owner cat e).
Proof using All. unfold checkExpression. growth. Qed.
#[local] Hint Resolve extends_check : grow.

Lemma extends_values es : extends R (valueExpressions wireText registry owner es).
Proof using All. unfold valueExpressions. growth. Qed.
#[local] Hint Resolve extends_values : grow.

Lemma extends_params qs : extends R (goParams wireText registry owner qs).
Proof using All. unfold goParams, goParam. growth. Qed.
Lemma extends_data ds : extends R (goData wireText registry owner ds).
Proof using All. unfold goData, goDatum. growth. Qed.
Lemma extends_location e : extends R (locationExpression wireText registry owner e).
Proof using All. unfold locationExpression. growth. Qed.
#[local] Hint Resolve extends_params extends_data extends_location : grow.

Lemma extends_bindings item index : extends R (goBindings wireText registry owner item index).
Proof using All. unfold goBindings. growth. Qed.
#[local] Hint Resolve extends_bindings : grow.

Lemma extends_blocks_with (f : Executable → goM (D := D) unit) bs :
  blocks_all (λ e, extends R (f e)) bs → extends R (goBlocks_with f bs).
Proof using All.
  unfold blocks_all. rewrite Forall_forall. intros H. apply extends_each; [apply _|]. intros b Hb. specialize (H b Hb).
  rewrite Forall_forall in H. by apply extends_each; [apply _|].
Qed.

Lemma extends_executable e : extends R (goExecutable wireText registry owner e).
Proof using All.
  induction e as [e [IHc IHf]] using Executable_nested_ind. destruct e as [k r s c l a ch f sc ca ex]. simpl in *.
  unfold goSend. growth.
  - destruct f as [[]|]; [|growth]. growth. by apply extends_blocks_with.
  - destruct ch as [[bs els]|]; [|growth]. destruct IHc as [Hb He]. simpl in *. rewrite Forall_forall in Hb. growth.
    + match goal with x : ChooseBranch _ |- _ => destruct x as [cond acts] end. growth.
      match goal with H : _ ∈ _ |- _ => apply Hb in H end. by apply extends_blocks_with.
    + by apply extends_blocks_with.
Qed.

Lemma extends_nested bs : extends R (goBlocks_with (goExecutable wireText registry owner) bs).
Proof using All. apply extends_blocks_with. repeat (apply Forall_forall; intros). apply extends_executable. Qed.
Lemma extends_blocks bs : extends R (goBlocks wireText registry owner bs).
Proof using All. apply extends_nested. Qed.
#[local] Hint Resolve extends_executable extends_blocks : grow.

Lemma extends_transition t : extends R (goTransition wireText registry owner t).
Proof using All. unfold goTransition. growth. Qed.
Lemma extends_invoke v : extends R (goInvoke wireText registry owner v).
Proof using All. unfold goInvoke. growth. Qed.
Lemma extends_doneData d : extends R (goDoneData wireText registry owner d).
Proof using All. unfold goDoneData. growth. Qed.
#[local] Hint Resolve extends_transition extends_invoke extends_doneData : grow.

Lemma extends_stateSelf s : extends R (goStateSelf wireText registry owner s).
Proof using All. unfold goStateSelf. growth. Qed.
#[local] Hint Resolve extends_stateSelf : grow.

Lemma extends_state s : extends R (goState wireText registry owner s).
Proof using All.
  induction s as [s IH] using StateDefinition_nested_ind. destruct s. simpl in *. rewrite Forall_forall in IH. growth.
Qed.

Lemma extends_definition d : extends R (goDefinition wireText registry owner d).
Proof using All. unfold goDefinition. apply extends_bind; [apply _ | apply extends_data|]. intros _. apply extends_state. Qed.
End walk.
#[export] Hint Resolve extends_check extends_values extends_params extends_data extends_location extends_bindings
  extends_executable extends_nested extends_blocks extends_transition extends_invoke extends_doneData extends_stateSelf extends_state : grow.

(** ** The state of a walk grows *)

Section growth.
Context {D : Type}.

Record grows (c c' : goCompile D) : Prop := {
  gr_compiled k : is_Some (gc_compiled c !! k) → is_Some (gc_compiled c' !! k);
  gr_functions k : is_Some (gc_functions c !! k) → is_Some (gc_functions c' !! k);
  gr_declarations : gc_declarations c' = gc_declarations c;
  gr_declared : gc_declared c' = gc_declared c;
  gr_dataLocations : gc_dataLocations c' = gc_dataLocations c
}.

#[export] Instance grows_preorder : PreOrder grows.
Proof.
  split; [by split|]. intros x y z [] []. split; [by auto..| | |]; congruence.
Qed.

Lemma is_Some_insert_other {A} (m : gmap string A) k x j : is_Some (m !! j) → is_Some (<[k := x]> m !! j).
Proof. intros H. destruct (decide (k = j)) as [->|]; [rewrite lookup_insert_eq; eauto | by rewrite lookup_insert_ne]. Qed.
Lemma extends_markUsed k v : extends grows (markUsed k v).
Proof. by intros c b c' [= <- <-]. Qed.
Lemma extends_storeCompiled k x : extends grows (storeCompiled k x).
Proof. intros c b c' [= <- <-]. split; simpl; auto using is_Some_insert_other. Qed.
Lemma extends_storeFunction k x : extends grows (storeFunction k x).
Proof. intros c b c' [= <- <-]. split; simpl; auto using is_Some_insert_other. Qed.
#[local] Hint Resolve extends_markUsed extends_storeCompiled extends_storeFunction : grow.

Variable wireText : ValueWire → string.
Variable registry : gmap string (goRegistration D).
Variable owner : nat.

Lemma extends_expression_with (r : Expression → goM (goCompiled D)) e cat :
  extends grows (r e) → extends grows (expression_with wireText r e cat).
Proof. intros H. unfold expression_with. growth. Qed.

Lemma extends_compileArgs (r : Expression → goM (goCompiled D)) i args :
  (∀ e, extends grows (r e)) → extends grows (compileArgs wireText r i args).
Proof.
  intros Hr. revert i. induction args as [|a args IH]; intros i; simpl; growth.
  intros c x c'. destruct (expression_with wireText r a catValue c) as [[y c1]|] eqn:E; [|done].
  intros [= <- <-]. by eapply extends_expression_with.
Qed.

Lemma extends_raw fuel e : extends grows (raw wireText registry owner fuel e).
Proof.
  revert e. induction fuel as [|fuel IH]; intros e; simpl; [apply extends_fail|].
  growth; [destruct (AsString _); growth|].
  destruct (decodeGoRef _); [|growth]. destruct (registry !! _); [|growth]. growth. by apply extends_compileArgs.
Qed.

#[export] Instance grows_walk : WalkRelation wireText registry owner grows.
Proof.
  assert (∀ e cat, extends grows (goExpression wireText registry owner e cat)) as He
    by (intros; apply extends_expression_with, extends_raw).
  split; [apply _ | done|]. intros f. unfold goCall. growth.
Qed.
End growth.

(** ** What a walk has checked can be resolved *)

Section resolves.
Context {D : Type}.
Variable wireText : ValueWire → string.
Variable registry : gmap string (goRegistration D).
Variable owner : nat.
Variable fingerprint : string.
Variable factory : outcome (option D).
Variable codec : GoSnapshotCodec D.
Variable inspectionCodec : GoInspectionCodec D.
Variable parseDuration : string → result Z.

(** The program that a compilation in state [c] would return. *)
Definition progOf (c : goCompile D) : DatamodelProgram (DM := GoDatamodelSession D) :=
  programOf wireText (mkGoProgram owner factory codec inspectionCodec fingerprint (gc_compiled c) (gc_functions c)
    (gc_declared c) (gc_dataLocations c)).

Definition resolves (c : goCompile D) (e : Expression) : Prop := is_Ok (ResolveExpression (progOf c) e).
Definition resolvesOpt (c : goCompile D) (o : option Expression) : Prop := ∀ e, o = Some e → resolves c e.
Definition located (c : goCompile D) (id : Identifier) : Prop := is_Ok (ResolveDataLocation (progOf c) id).

(** Every declared ID has a location. *)
Definition locates (c : goCompile D) : Prop := ∀ id, id ∈ gc_declarations c → is_Some (gc_dataLocations c !! id).

Lemma is_Ok_match {A B} (o : option A) (f : A → B) e :
  is_Ok (f <$> match o with Some x => Ok x | None => Err e end) ↔ is_Some o.
Proof. destruct o as [x|]; split; [by exists x | by exists (f x) | by intros [] | by intros []]. Qed.

Lemma resolves_iff c e : resolves c e ↔ is_Some (gc_compiled c !! valueKeyInternal wireText e).
Proof. apply is_Ok_match. Qed.
Lemma located_iff c id : located c id ↔ is_Some (gc_dataLocations c !! id).
Proof. apply is_Ok_match. Qed.
Lemma function_iff c f : is_Ok (ResolveFunction (progOf c) f) ↔ is_Some (gc_functions c !! functionKeyInternal wireText f).
Proof. apply is_Ok_match. Qed.
#[local] Opaque progOf.

(** After [m] has succeeded in a state that locates its declarations, [P] holds
    of every later state. *)
Definition settles {A} (m : goM (D := D) A) (P : goCompile D → Prop) : Prop :=
  ∀ c a c', locates c → m c = Ok (a, c') → ∀ c2, grows c' c2 → P c2.

Lemma grows_locates c c' : grows c c' → locates c → locates c'.
Proof. intros [_ _ Hd _ Hl] H id. rewrite Hd, Hl. apply H. Qed.

Lemma settles_bind {A B} (m : goM A) (f : A → goM B) P Q :
  extends grows m → settles m P → (∀ a, extends grows (f a)) → (∀ a, settles (f a) Q) → settles (goBind m f) (λ c, P c ∧ Q c).
Proof.
  intros Em Hm Ef Hf c b c'' Hc (a & c' & H1 & H2)%goBind_Ok c2 Hg.
  pose proof (Em _ _ _ H1). pose proof (Ef _ _ _ _ H2). split.
  - eapply Hm; [exact Hc | exact H1 | by etrans].
  - eapply Hf; [by apply (grows_locates c) | exact H2 | done].
Qed.

Lemma settles_impl {A} (m : goM A) (P Q : goCompile D → Prop) : settles m P → (∀ c, P c → Q c) → settles m Q.
Proof. intros H HPQ c a c' Hc Hm c2 Hg. by eapply HPQ, H. Qed.

Lemma settles_each {A} (f : A → goM unit) (P : A → goCompile D → Prop) xs :
  (∀ x, x ∈ xs → extends grows (f x)) → (∀ x, x ∈ xs → settles (f x) (P x)) →
  settles (goEach f xs) (λ c, Forall (λ x, P x c) xs).
Proof.
  induction xs as [|x xs IH]; intros He Hs; simpl; [by intros c a c' _ _ c2 _; constructor|].
  eapply settles_impl; [apply settles_bind with (Q := λ c, Forall (λ x, P x c) xs)|].
  - apply He. left.
  - apply Hs. left.
  - intros _. apply extends_each; [apply _|]. intros y Hy. apply He. by right.
  - intros _. apply IH; intros y Hy; [apply He | apply Hs]; by right.
  - intros c [H1 H2]. by constructor.
Qed.

Lemma settles_when {A} (o : option A) (f : A → goM unit) (P : A → goCompile D → Prop) :
  (∀ a, o = Some a → settles (f a) (P a)) → settles (goWhen o f) (λ c, ∀ a, o = Some a → P a c).
Proof. destruct o as [a|]; simpl; intros H; [|done]. intros c b c' Hc Hm c2 Hg a' [= <-]. by eapply H. Qed.

Lemma grows_resolves c c' e : grows c c' → resolves c e → resolves c' e.
Proof. rewrite !resolves_iff. intros [Hc _ _ _ _]. apply Hc. Qed.

Lemma settles_check cat e : settles (checkExpression wireText registry owner cat e) (λ c, resolves c e).
Proof.
  intros c [] c' _ H c2 Hg. apply (grows_resolves c'); [done|]. clear Hg c2.
  unfold checkExpression, goExpression, expression_with in H.
  apply goBind_Ok in H as (x & c1 & (y & c3 & Hy & H)%goBind_Ok & [= <-]).
  destruct (validIn cat (co_kind y)); [|done]. apply goBind_Ok in H as ([] & c4 & [= <-] & [= <- <-]).
  rewrite resolves_iff. simpl. rewrite lookup_insert_eq. by eexists.
Qed.

Lemma settles_values es : settles (valueExpressions wireText registry owner es) (λ c, Forall (resolvesOpt c) es).
Proof.
  unfold valueExpressions. apply (settles_each _ (λ o c, resolvesOpt c o)); intros o _.
  - growth.
  - apply (settles_when o _ (λ e c, resolves c e)). intros e _. apply settles_check.
Qed.

Lemma settles_location o : settles (locationExpression wireText registry owner o) (λ c, resolvesOpt c o).
Proof. apply (settles_when o _ (λ e c, resolves c e)). intros e _. apply settles_check. Qed.

Definition paramResolves (c : goCompile D) (q : ParamDefinition) : Prop :=
  resolvesOpt c (pd_Expr q) ∧ resolvesOpt c (pd_Location q).

Lemma settles_params qs : settles (goParams wireText registry owner qs) (λ c, Forall (paramResolves c) qs).
Proof.
  unfold goParams. apply (settles_each _ (λ q c, paramResolves c q)); intros q _; unfold goParam.
  - growth.
  - eapply settles_impl; [apply settles_bind|].
    + growth.
    + apply settles_values.
    + intros _. growth.
    + intros _. apply (settles_when _ _ (λ e c, resolves c e)). intros e _. apply settles_check.
    + intros c [H1 H2]. split; [|done]. by apply Forall_cons in H1 as [? _].
Qed.

(** ** The requests of the chart compiler *)

Lemma resolve_opt c o : resolvesOpt c o → is_Ok (resolveExpr (progOf c) o).
Proof. intros H. unfold resolveExpr. destruct o as [e|]; [|by eexists]. apply is_Ok_fmap. by apply H. Qed.

Lemma add_resolves c path o field : resolvesOpt c o → is_Ok (add (progOf c) path o field).
Proof. intros H. by apply is_Ok_at_path, resolve_opt. Qed.

Lemma payload_resolves c ps content path :
  valid_params ps → Forall (paramResolves c) ps → resolvesOpt c content → is_Ok (compilePayload (progOf c) ps content path).
Proof.
  intros Hv Hp Hc. unfold compilePayload. destruct content as [e|].
  { succeeds. by apply Hc. }
  apply is_Ok_bind; [|auto with succeeds]. apply is_Ok_collectEach. unfold valid_params in Hv.
  rewrite Forall_forall in *. intros q Hq i. destruct (Hp q Hq) as [H1 H2]. unfold compileParam.
  destruct (pd_Expr q) as [e|] eqn:E1; [succeeds; by apply H1|].
  destruct (pd_Location q) as [e|] eqn:E2; [succeeds; by apply H2|].
  destruct (Hv q Hq) as [[? ?]|[? ?]]; congruence.
Qed.

Lemma isDeclared_located id c ok c' : locates c → isDeclared id c = Ok (ok, c') → ok = true → ∀ c2, grows c' c2 → located c2 id.
Proof.
  intros Hc [= <- <-] Hid%bool_decide_eq_true c2 Hg. apply located_iff. rewrite (gr_dataLocations _ _ Hg). by apply Hc.
Qed.

Lemma settles_bindings item index :
  settles (goBindings wireText registry owner item index) (λ c, located c item ∧ (index ≠ "" → located c index)).
Proof.
  intros c [] c' Hc H c2 Hg. unfold goBindings in H. apply goBind_Ok in H as (ok & c1 & H1 & H).
  destruct ok; simpl in H; [|done]. pose proof (isDeclared_located _ _ _ _ Hc H1 eq_refl) as Hitem.
  injection H1 as _ <-. apply goBind_Ok in H as ([] & c3 & H3%extends_check & H). case_decide as Hi.
  - injection H as <-. split; [|done]. apply Hitem. by etrans.
  - apply goBind_Ok in H as (ok & c4 & H4 & H). destruct ok; simpl in H; [|done].
    pose proof (isDeclared_located _ _ _ _ (grows_locates _ _ H3 Hc) H4 eq_refl) as Hindex. injection H4 as _ <-.
    apply extends_check in H. split; [|intros _]; [apply Hitem | apply Hindex]; by repeat (etrans; [eassumption|]).
Qed.

Lemma settles_call f : settles (goCall wireText registry owner f) (λ c, is_Ok (ResolveFunction (progOf c) f)).
Proof.
  intros c [] c' _ H c2 Hg. apply function_iff, (gr_functions _ _ Hg).
  unfold goCall in H. apply goBind_Ok in H as (x & c1 & _ & [= <-]). simpl. rewrite lookup_insert_eq. by eexists.
Qed.

Lemma send_resolves s :
  valid_params (sn_Params s) → delayParses parseDuration s = true →
  settles (goSend wireText registry owner s) (λ c, ∀ path, is_Ok (compileSend parseDuration (progOf c) s path)).
Proof.
  intros Hv Hd. unfold goSend. eapply settles_impl; [apply settles_bind|].
  - growth.
  - apply settles_values.
  - intros _. growth.
  - intros _. apply settles_bind; [growth | apply settles_location | intros _; growth
      | intros _; apply settles_params].
  - intros c (Hes & Hl & Hp) path.
    repeat match goal with H : Forall _ (_ :: _) |- _ => apply Forall_cons in H as [? H] end.
    unfold compileSend. repeat (apply is_Ok_bind; [by apply add_resolves|]; intros ?).
    apply is_Ok_bind.
    + unfold delayParses in Hd. destruct (nonBlank _); [|by eexists]. by destruct (parseDuration _); [eexists|].
    + intros delay. succeeds. by apply payload_resolves.
Qed.

Definition compiles (e : Executable) (c : goCompile D) : Prop :=
  ∀ path, is_Ok (compileOperation parseDuration (progOf c) e path).
Definition blocksCompile (bs : list ExecutableBlock) (c : goCompile D) : Prop := blocks_all (λ e, compiles e c) bs.

Lemma blocks_compile bs c path : blocksCompile bs c → is_Ok (compileBlocks parseDuration (progOf c) bs path).
Proof.
  intros Hc. apply is_Ok_collectEach. eapply Forall_impl; [exact Hc|]. intros b Hb i.
  apply is_Ok_collectEach. eapply Forall_impl; [exact Hb|]. intros e He j. apply He.
Qed.
#[local] Hint Resolve blocks_compile resolve_opt add_resolves payload_resolves : succeeds.

Lemma settles_blocks bs :
  blocks_all (λ e, settles (goExecutable wireText registry owner e) (compiles e)) bs →
  settles (goBlocks wireText registry owner bs) (blocksCompile bs).
Proof.
  unfold blocks_all. rewrite Forall_forall. intros H. unfold goBlocks, goBlocks_with.
  eapply settles_impl; [apply (settles_each _ (λ b c, Forall (λ e, compiles e c) b))|].
  - intros b _. growth.
  - intros b Hb. specialize (H b Hb). rewrite Forall_forall in H.
    apply (settles_each _ compiles); [|done]. intros e _. growth.
  - done.
Qed.

(** The blocks inside of valid content that can be compiled. *)
Lemma portable_inner fin bs :
  valid_blocks fin bs → portableBlocks parseDuration bs = true →
  blocks_all (λ e, portable parseDuration e = true → valid_node fin e → settles (goExecutable wireText registry owner e) (compiles e)) bs →
  settles (goBlocks wireText registry owner bs) (blocksCompile bs).
Proof.
  unfold valid_blocks, portableBlocks, blocks_all. rewrite !Forall_forall, forallb_forall. intros Hv Hp H.
  apply settles_blocks. apply Forall_forall. intros b Hb. specialize (Hv b Hb). specialize (H b Hb).
  apply list_elem_of_In in Hb as Hb'. specialize (Hp b Hb'). rewrite Forall_forall in *. rewrite forallb_forall in Hp.
  intros e He. apply H; [done| |by apply Hv]. by apply Hp, list_elem_of_In.
Qed.

Lemma branch_resolves fin cond acts :
  valid_blocks fin acts → portableBlocks parseDuration acts = true →
  blocks_all (λ e, portable parseDuration e = true → valid_node fin e → settles (goExecutable wireText registry owner e) (compiles e)) acts →
  settles (goBind (checkExpression wireText registry owner catBoolean cond) (λ _, goBlocks wireText registry owner acts))
    (λ c, resolves c cond ∧ blocksCompile acts c).
Proof.
  intros Hv Hp H. apply settles_bind; [growth | apply settles_check | intros _; growth | intros _].
  by eapply portable_inner.
Qed.

Lemma choose_resolves fin bs els k r s cn l a f sc ca ex :
  k = ExecutableChoose →
  Forall (λ b, valid_blocks fin (cb_Actions b)) bs → valid_blocks fin els →
  portable parseDuration (mkExecutable k r s cn l a (Some (mkChoose bs els)) f sc ca ex) = true →
  inner_all (λ e, portable parseDuration e = true → valid_node fin e → settles (goExecutable wireText registry owner e) (compiles e))
    (mkExecutable k r s cn l a (Some (mkChoose bs els)) f sc ca ex) →
  settles (goExecutable wireText registry owner (mkExecutable k r s cn l a (Some (mkChoose bs els)) f sc ca ex))
    (compiles (mkExecutable k r s cn l a (Some (mkChoose bs els)) f sc ca ex)).
Proof.
  intros -> Hbs Hels Hp [[IHb IHe] _]. simpl in Hp, IHb, IHe. rewrite !andb_true_iff in Hp. destruct Hp as [[_ [Hpb Hpe]] _].
  rewrite forallb_forall in Hpb. rewrite Forall_forall in Hbs, IHb. unfold compiles. simpl.
  eapply settles_impl; [apply settles_bind with (Q := blocksCompile els);
    [|apply (settles_each _ (λ b c, resolves c (cb_Condition b) ∧ blocksCompile (cb_Actions b) c))| |]|].
  - growth. case_match. growth.
  - intros [cond acts] _. growth.
  - intros [cond acts] Hin. apply (branch_resolves fin).
    + apply (Hbs _ Hin).
    + apply list_elem_of_In in Hin. apply (Hpb _ Hin).
    + apply (IHb _ Hin).
  - intros _. growth.
  - intros _. by apply (portable_inner fin).
  - intros c [Hc He] path. apply is_Ok_bind; [|intros x; apply is_Ok_bind; [by apply blocks_compile | auto with succeeds]].
    apply is_Ok_collectEach. eapply Forall_impl; [exact Hc|]. intros [cond acts] [H1 H2] i.
    succeeds. by apply blocks_compile.
Qed.

Lemma foreach_resolves fin array item index acts k r s cn l a ch sc ca ex :
  k = ExecutableForEach →
  valid_blocks fin acts →
  portable parseDuration (mkExecutable k r s cn l a ch (Some (mkForEach array item index acts)) sc ca ex) = true →
  inner_all (λ e, portable parseDuration e = true → valid_node fin e → settles (goExecutable wireText registry owner e) (compiles e))
    (mkExecutable k r s cn l a ch (Some (mkForEach array item index acts)) sc ca ex) →
  settles (goExecutable wireText registry owner (mkExecutable k r s cn l a ch (Some (mkForEach array item index acts)) sc ca ex))
    (compiles (mkExecutable k r s cn l a ch (Some (mkForEach array item index acts)) sc ca ex)).
Proof.
  intros -> Hv Hp [_ IH]. simpl in Hp, IH. rewrite !andb_true_iff in Hp. destruct Hp as [_ Hp]. unfold compiles. simpl.
  eapply settles_impl; [apply settles_bind; [growth | apply settles_check | |]|].
  - intros _. growth.
  - intros _. apply settles_bind; [growth | apply settles_bindings | intros _; growth | intros _].
    by apply (portable_inner fin).
  - intros c (Ha & [Hi Hx] & Hb) path. succeeds; [|by apply blocks_compile].
    case_decide; [by eexists|]. succeeds. by apply Hx.
Qed.

Lemma pair_resolves c o o' : Forall (resolvesOpt c) [o; o'] → resolvesOpt c o ∧ resolvesOpt c o'.
Proof. intros [? [? _]%Forall_cons]%Forall_cons. done. Qed.

Lemma executable_resolves fin e :
  portable parseDuration e = true → valid_node fin e → settles (goExecutable wireText registry owner e) (compiles e).
Proof.
  induction e as [e IH] using Executable_nested_ind. intros Hp Hv. pose proof (validateExecutable_payload fin e Hv) as [_ Hpay].
  destruct e as [k rs sd cn lg asg ch fe sc ca ex]. simpl in Hpay.
  destruct Hpay as [[-> [x ->]]|[(x & -> & -> & Hps)|[[-> [x ->]]|[[-> [x ->]]|[[-> [x ->]]|[(bs & els & -> & -> & Hbs & Hels)
    |[(a & i & x & bs & -> & -> & Hbs)|[[-> [x ->]]|[[-> [x ->]]|[-> [x ->]]]]]]]]]]];
    [..|done]; try by eauto using choose_resolves, foreach_resolves.
  all: unfold compiles; simpl.
  - eapply settles_impl; [apply (settles_values [rd_EventExpr x; rd_Data x])|]. intros c H path. apply pair_resolves in H as [].
    succeeds.
  - simpl in Hp. rewrite !andb_true_iff in Hp. apply send_resolves; [done | tauto].
  - eapply settles_impl; [apply (settles_values [cn_SendIDExpr x])|]. intros c [H _]%Forall_cons path.
    succeeds.
  - eapply settles_impl; [apply (settles_values [lg_LabelExpr x; lg_Expr x])|]. intros c H path. apply pair_resolves in H as [].
    succeeds.
  - eapply settles_impl; [apply settles_bind; [growth | apply settles_check | intros _; growth
      | intros _; apply settles_check]|]. intros c [H1 H2] path. succeeds.
  - eapply settles_impl; [apply settles_check|]. intros c H path. succeeds.
  - eapply settles_impl; [apply settles_call|]. intros c H path. succeeds.
Qed.

Lemma blocks_resolve fin bs :
  valid_blocks fin bs → portableBlocks parseDuration bs = true → settles (goBlocks wireText registry owner bs) (blocksCompile bs).
Proof.
  intros Hv Hp. apply (portable_inner fin); [done..|]. repeat (apply Forall_forall; intros ? _). apply executable_resolves.
Qed.

(** ** States *)

Definition datumResolves (c : goCompile D) (d : DataDefinition) : Prop :=
  da_Source d = "" ∧ resolvesOpt c (match da_Expr d with Some e => Some e | None => da_Content d end).

Lemma settles_data ds : settles (goData wireText registry owner ds) (λ c, Forall (datumResolves c) ds).
Proof.
  unfold goData. apply (settles_each _ (λ d c, datumResolves c d)); intros d _; unfold goDatum.
  - destruct (negb _); [growth|]. growth.
  - destruct (negb _) eqn:E; [done|]. apply negb_false_iff, bool_decide_eq_true in E.
    eapply settles_impl; [apply (settles_when _ _ (λ e c, resolves c e)); intros e _; apply settles_check|].
    intros c H. by split.
Qed.

Lemma data_resolves c ds path :
  Forall (datumResolves c) ds → Forall (λ d, located c (da_ID d)) ds → is_Ok (compileData (progOf c) ds path).
Proof.
  rewrite !Forall_forall. intros Hd Hl. apply is_Ok_collectEach, Forall_forall. intros d Hin i.
  destruct (Hd d Hin) as [Hsrc He]. unfold compileDatum. rewrite Hsrc. succeeds; [by eexists | by apply Hl|].
  destruct (da_Expr d) as [e|]; [succeeds; by apply He|]. destruct (da_Content d) as [e|]; [succeeds; by apply He | by eexists].
Qed.

Definition transitionCompiles (t : TransitionDefinition) (c : goCompile D) : Prop :=
  ∀ source i path, is_Ok (compileDefinitionTransition parseDuration (progOf c) t source i path).

Lemma transition_resolves t :
  valid_blocks false (td_Actions t) → portableBlocks parseDuration (td_Actions t) = true →
  settles (goTransition wireText registry owner t) (transitionCompiles t).
Proof.
  intros Hv Hp. unfold goTransition. eapply settles_impl; [apply settles_bind|].
  - growth.
  - apply (settles_when _ _ (λ e c, resolves c e)). intros e _. apply settles_check.
  - intros _. growth.
  - intros _. by apply (blocks_resolve false).
  - intros c [H1 H2] source i path. unfold compileDefinitionTransition. succeeds.
Qed.

Definition invokeCompiles (iv : InvokeDefinition) (c : goCompile D) : Prop :=
  ∀ own path, is_Ok (compileDefinitionInvoke parseDuration (progOf c) iv own path).

Lemma invoke_resolves iv :
  valid_params (id_Params iv) → valid_blocks true (id_Finalize iv) → portableBlocks parseDuration (id_Finalize iv) = true →
  settles (goInvoke wireText registry owner iv) (invokeCompiles iv).
Proof.
  intros Hq Hv Hp. unfold goInvoke. eapply settles_impl; [apply settles_bind|].
  - growth.
  - apply settles_values.
  - intros _. growth.
  - intros _. apply settles_bind; [growth | apply settles_location | | intros _; apply settles_bind;
      [growth | apply settles_params | intros _; growth | intros _; by apply (blocks_resolve true)]].
    intros _. growth.
  - intros c (Hes & Hl & Hps & Hb) own path. unfold compileDefinitionInvoke.
    repeat match goal with H : Forall _ (_ :: _) |- _ => apply Forall_cons in H as [? H] end.
    succeeds.
Qed.

Definition doneCompiles (d : DoneDataDefinition) (c : goCompile D) : Prop :=
  ∀ path, is_Ok (compilePayload (progOf c) (dn_Params d) (dn_Content d) path).

Lemma done_resolves d : valid_params (dn_Params d) → settles (goDoneData wireText registry owner d) (doneCompiles d).
Proof.
  intros Hv. unfold goDoneData. eapply settles_impl; [apply settles_bind; [growth | apply settles_params
    | intros _; growth | intros _; apply settles_values]|].
  intros c [Hp [Hc _]%Forall_cons] path. by apply payload_resolves.
Qed.

(** The IDs of the data of a state are declared. *)
Definition declaresData (c : goCompile D) (ds : list DataDefinition) : Prop := Forall (λ d, da_ID d ∈ gc_declarations c) ds.

Definition selfCompiles (s : StateDefinition) (c : goCompile D) : Prop :=
  declaresData c (sd_Data s) → locates c → ∀ q i path, is_Ok (compileStateSelf parseDuration (progOf c) s q i path).

Lemma located_data c ds : declaresData c ds → locates c → Forall (λ d, located c (da_ID d)) ds.
Proof. intros Hd Hl. eapply Forall_impl; [exact Hd|]. intros d Hin. apply located_iff. by apply Hl. Qed.

Lemma entry_exit_settles s :
  valid_blocks false (sd_OnEntry s) → valid_blocks false (sd_OnExit s) →
  portableBlocks parseDuration (sd_OnEntry s) = true → portableBlocks parseDuration (sd_OnExit s) = true →
  settles (goEach (λ b, goBlocks wireText registry owner [b]) (sd_OnEntry s ++ sd_OnExit s))
    (λ c, blocksCompile (sd_OnEntry s) c ∧ blocksCompile (sd_OnExit s) c).
Proof.
  intros H1 H2 P1 P2. assert (valid_blocks false (sd_OnEntry s ++ sd_OnExit s)) as Hv by (apply Forall_app; done).
  assert (portableBlocks parseDuration (sd_OnEntry s ++ sd_OnExit s) = true) as Hp
    by (unfold portableBlocks; rewrite forallb_app; by apply andb_true_iff).
  eapply settles_impl; [apply (settles_each _ (λ b c, blocksCompile [b] c))|].
  - intros b _. growth.
  - intros b Hb. apply (blocks_resolve false).
    + apply Forall_singleton. unfold valid_blocks, blocks_all in Hv. rewrite Forall_forall in Hv. by apply Hv.
    + unfold portableBlocks in *. rewrite forallb_forall in Hp. simpl. rewrite andb_true_r. by apply Hp, list_elem_of_In.
  - intros c Hc. apply Forall_app. eapply Forall_impl; [exact Hc|]. intros b Hb.
    by apply (proj1 (Forall_singleton _ _)) in Hb.
Qed.

Lemma self_resolves s :
  content_ok s → portableSelf parseDuration s = true → settles (goStateSelf wireText registry owner s) (selfCompiles s).
Proof.
  intros [C1 C2 C3 C4 C5 C6] Hp. unfold portableSelf in Hp. rewrite !andb_true_iff, !forallb_forall in Hp.
  destruct Hp as [[[[P1 P2] P3] P4] P5]. unfold goStateSelf.
  eapply settles_impl; [repeat (apply settles_bind; [growth| |intros _; growth|intros _])|].
  - apply settles_data.
  - apply (settles_when _ _ transitionCompiles). intros t Ht. apply transition_resolves; [by apply C3 | by rewrite Ht in P3].
  - by apply entry_exit_settles.
  - apply (settles_each _ transitionCompiles); intros t Ht; [growth|].
    apply transition_resolves; [by apply C4 | by apply P4, list_elem_of_In].
  - apply (settles_each _ invokeCompiles); intros iv Hiv; [growth|]. destruct (C5 iv Hiv).
    apply invoke_resolves; [done..|]. by apply P5, list_elem_of_In.
  - apply (settles_when _ _ doneCompiles). intros d Hd. apply done_resolves. by apply C6.
  - intros c (Hd & Hi & [Hen Hex] & Hts & Hivs & Hdn) Hdecl Hloc q i path. unfold compileStateSelf.
    repeat (apply is_Ok_bind; [|intros ?]); [by auto with succeeds..| | | | | |by eexists].
    + apply data_resolves; [done | by apply located_data].
    + destruct (sd_DoneData s) as [d|]; [|by eexists]. apply is_Ok_fmap. by apply (Hdn d).
    + destruct (sd_Initial s) as [t|]; [|by eexists]. apply is_Ok_fmap. by apply (Hi t).
    + apply is_Ok_collectEach. eapply Forall_impl; [exact Hts|]. intros t Ht k. apply Ht.
    + apply is_Ok_collectEach. eapply Forall_impl; [exact Hivs|]. intros iv Hiv k. apply Hiv.
Qed.

Lemma goState_unfold s :
  goState wireText registry owner s
  = goBind (goStateSelf wireText registry owner s) (λ _, goEach (goState wireText registry owner) (sd_Children s)).
Proof. by destruct s. Qed.

Lemma state_resolves s :
  every content_ok s → portableState parseDuration s = true →
  settles (goState wireText registry owner s) (λ c, every (λ x, selfCompiles x c) s).
Proof.
  induction s as [s IH] using StateDefinition_nested_ind. intros [Hs Hch]%every_inv Hp. rewrite goState_unfold.
  assert (portableSelf parseDuration s = true ∧ forallb (portableState parseDuration) (sd_Children s) = true) as [Hp1 Hp2]
    by (destruct s; by apply andb_true_iff in Hp).
  rewrite forallb_forall in Hp2. rewrite Forall_forall in IH, Hch. eapply settles_impl; [apply settles_bind|].
  - growth.
  - by apply self_resolves.
  - intros _. growth.
  - intros _. apply (settles_each _ (λ x c, every (λ y, selfCompiles y c) x)); intros x Hx; [growth|].
    apply IH; [done | by apply Hch | by apply Hp2, list_elem_of_In].
  - intros c [H1 H2]. by constructor.
Qed.

Lemma compile_states s c par path b :
  every (λ x, ∀ q i path, is_Ok (compileStateSelf parseDuration (progOf c) x q i path)) s →
  is_Ok (compileDefinitionState parseDuration (progOf c) s par path b).
Proof.
  revert par path b. induction s as [s IH] using StateDefinition_nested_ind. intros par path b [Hs Hch]%every_inv.
  rewrite compileDefinitionState_unfold. apply is_Ok_bind; [apply Hs|]. intros cs. apply is_Ok_forRange.
  rewrite Forall_forall in *. intros x Hx i st. apply is_Ok_bind; [by apply IH; [|apply Hch] | auto with succeeds].
Qed.

End resolves.

(** ** The declared IDs *)

Section declared.
Context {D : Type}.
Variable owner : nat.

Lemma goAdd_declares (c : goCompile D) id :
  gc_declarations c ⊆ gc_declarations (goAdd owner c id) ∧ id ∈ gc_declarations (goAdd owner c id)
  ∧ (locates c → locates (goAdd owner c id)).
Proof.
  unfold goAdd. case_decide as H; [done|]. simpl. split_and!; [set_solver..|].
  unfold locates. simpl. intros Hc j [->%elem_of_singleton|Hj]%elem_of_union.
  - rewrite lookup_insert_eq. by eexists.
  - apply is_Some_insert_other. by apply Hc.
Qed.

Lemma collectDataIDs_declares ds (c : goCompile D) :
  gc_declarations c ⊆ gc_declarations (collectDataIDs owner ds c) ∧ declaresData (collectDataIDs owner ds c) ds
  ∧ (locates c → locates (collectDataIDs owner ds c)).
Proof.
  unfold collectDataIDs, declaresData. revert c. induction ds as [|d ds IH]; intros c; simpl; [by split_and!|].
  destruct (goAdd_declares c (da_ID d)) as (H1 & H2 & H3), (IH (goAdd owner c (da_ID d))) as (J1 & J2 & J3).
  split_and!; [set_solver | constructor; [set_solver | done] | auto].
Qed.

Lemma collectState_unfold s (c : goCompile D) :
  collectStateDataIDs owner s c = foldl (λ c x, collectStateDataIDs owner x c) (collectDataIDs owner (sd_Data s) c) (sd_Children s).
Proof. by destruct s. Qed.

Lemma declaresData_mono (c c' : goCompile D) ds : gc_declarations c ⊆ gc_declarations c' → declaresData c ds → declaresData c' ds.
Proof. intros Hs H. eapply Forall_impl; [exact H|]. set_solver. Qed.

Lemma collectState_declares s (c : goCompile D) :
  gc_declarations c ⊆ gc_declarations (collectStateDataIDs owner s c)
  ∧ every (λ x, ∀ c2 : goCompile D, gc_declarations (collectStateDataIDs owner s c) ⊆ gc_declarations c2 → declaresData c2 (sd_Data x)) s
  ∧ (locates c → locates (collectStateDataIDs owner s c)).
Proof.
  revert c. induction s as [s IH] using StateDefinition_nested_ind. intros c. rewrite collectState_unfold.
  destruct (collectDataIDs_declares (sd_Data s) c) as (H1 & H2 & H3). revert H1 H2 H3.
  generalize (collectDataIDs owner (sd_Data s) c) as c1. intros c1 H1 H2 H3.
  assert (∀ cc : goCompile D, gc_declarations cc ⊆ gc_declarations (foldl (λ c x, collectStateDataIDs owner x c) cc (sd_Children s))
    ∧ Forall (every (λ x, ∀ c2 : goCompile D, gc_declarations (foldl (λ c x, collectStateDataIDs owner x c) cc (sd_Children s))
        ⊆ gc_declarations c2 → declaresData c2 (sd_Data x))) (sd_Children s)
    ∧ (locates cc → locates (foldl (λ c x, collectStateDataIDs owner x c) cc (sd_Children s)))) as Hfold.
  { induction IH as [|x xs Hx _ IHxs]; intros cc; simpl; [by split_and!|].
    destruct (Hx cc) as (J1 & J2 & J3), (IHxs (collectStateDataIDs owner x cc)) as (K1 & K2 & K3).
    split_and!; [set_solver| |auto]. constructor; [|done].
    eapply every_impl; [|exact J2]. intros y Hy c2 Hc2. apply Hy. set_solver. }
  destruct (Hfold c1) as (F1 & F2 & F3). split_and!; [set_solver| |auto].
  constructor; [|done]. intros c2 Hc2. eapply declaresData_mono; [|exact H2]. set_solver.
Qed.

Lemma collectIDs_declares d :
  declaresData (collectIDs (D := D) owner d) (df_Data d)
  ∧ every (λ x, declaresData (collectIDs (D := D) owner d) (sd_Data x)) (df_Root d) ∧ locates (collectIDs (D := D) owner d).
Proof.
  unfold collectIDs. destruct (collectDataIDs_declares (df_Data d) emptyCompile) as (H1 & H2 & H3).
  destruct (collectState_declares (df_Root d) (collectDataIDs owner (df_Data d) emptyCompile)) as (J1 & J2 & J3).
  split_and!.
  - by eapply declaresData_mono.
  - eapply every_impl; [|exact J2]. intros x Hx. by apply Hx.
  - apply J3, H3. intros id. simpl. set_solver.
Qed.

End declared.

(** ** The chart compiler never asks in vain *)

Lemma every_and_impl (P Q R : StateDefinition → Prop) s : every P s → every Q s → (∀ x, P x → Q x → R x) → every R s.
Proof.
  intros HP HQ HR. revert HP HQ. induction s as [s IH] using StateDefinition_nested_ind.
  intros [Hp Hps]%every_inv [Hq Hqs]%every_inv. constructor; [by apply HR|].
  rewrite Forall_forall in *. intros x Hx. by apply IH; [|apply Hps|apply Hqs].
Qed.

Section theorem.
Context {D : Type}.
Variable wireText : ValueWire → string.
Variable sum256 : string → string.
Variable parseDuration : string → result Z.
Variable jsonMarshal : ChartDefinition → result string.
Variable sha256 : string → string.

Lemma goCompile_program owner (m : GoModel D) d p :
  GoCompile wireText sum256 owner m d = Ok p →
  df_Datamodel d = GoName
  ∧ ∃ c factory, gm_factory m = Some factory
    ∧ goDefinition wireText (gm_registrations m) owner d (collectIDs owner d) = Ok ((), c)
    ∧ p = mkGoProgram owner factory (gm_codec m) (gm_inspectionCodec m) (sum256 (fingerprintMaterial (gc_used c)))
            (gc_compiled c) (gc_functions c) (gc_declared c) (gc_dataLocations c).
Proof.
  unfold GoCompile. intros ([] & _ & H)%result_bind_Ok.
  apply result_bind_Ok in H as ([] & Hn%fail_if_Ok & H). apply negb_false_iff, bool_decide_eq_true in Hn.
  destruct (gm_factory m) as [factory|]; [|done]. apply result_bind_Ok in H as ([] & _ & H).
  apply result_bind_Ok in H as ([[] c] & Hc & [= <-]). split; [done|]. by exists c, factory.
Qed.

(** C11 (refinement): the Go datamodel keeps what its interface promises the chart
    compiler.  When [GoModel.Compile] has returned a program for the normal form
    of a definition, every expression, function and data ID that the chart
    compiler asks the program for is resolved: [Compile] returns a chart, unless
    the definition has an extension element, a delay that [time.ParseDuration]
    rejects, or no canonical bytes. *)
Theorem go_program_resolves (d n : ChartDefinition) (owner : nat) (m : GoModel D) (p : goProgram D) :
  normalizeDefinition d = Ok n →
  GoCompile wireText sum256 owner m n = Ok p → gp_fingerprint p ≠ "" →
  is_Ok (CanonicalBytes jsonMarshal n) → portableState parseDuration (df_Root n) = true →
  ∃ cc, Compile (DM := GoDatamodelSession D) parseDuration jsonMarshal sha256 d (Some (goDatamodel wireText sum256 owner m)) = Ok cc
    ∧ cc_definition cc = n ∧ cc_fingerprint cc = gp_fingerprint p.
Proof.
  intros Hn Hp Hfp [bytes Hb] Hport. pose proof (goCompile_program _ _ _ _ Hp) as (Hname & c & factory & _ & Hwalk & ->).
  unfold Compile. rewrite Hn. simpl. rewrite bool_decide_true by done. simpl. rewrite Hp. simpl.
  rewrite bool_decide_false by done. simpl. rewrite Hb. simpl.
  unfold goDefinition in Hwalk. apply goBind_Ok in Hwalk as ([] & c1 & H1 & H2).
  destruct (collectIDs_declares (D := D) owner n) as (Hd1 & Hd2 & Hloc).
  pose proof (extends_data (R := grows) _ _ _ _ H1) as G1. pose proof (extends_state (R := grows) _ _ _ _ H2) as G2.
  pose proof (grows_locates _ _ (transitivity G1 G2) Hloc) as Hloc'.
  assert (∀ ds, declaresData (collectIDs (D := D) owner n) ds → declaresData c ds) as Hdecl.
  { intros ds. apply declaresData_mono. by rewrite (gr_declarations _ _ (transitivity G1 G2)). }
  set (fp := sum256 _) in *.
  change (programOf wireText _) with (progOf wireText owner fp factory (gm_codec m) (gm_inspectionCodec m) c).
  edestruct (data_resolves wireText owner fp factory (gm_codec m) (gm_inspectionCodec m) c (df_Data n)) as [g ->].
  { eapply settles_data; [exact Hloc | exact H1 | exact G2]. }
  { apply located_data; [by apply Hdecl | done]. }
  simpl. edestruct (compile_states wireText owner fp factory (gm_codec m) (gm_inspectionCodec m) parseDuration (df_Root n) c)
    as [b ->].
  { eapply every_and_impl; [exact Hd2 | eapply state_resolves; [by eapply normalized_content | exact Hport | | exact H2 | done]|].
    - by apply (grows_locates _ _ G1).
    - intros x Hx1 Hx2. apply Hx2; [by apply Hdecl | done]. }
  simpl. eexists. split; [done|]. done.
Qed.

End theorem.
