(* ===== verification/GoSession.v ===== *)
(** * Theorems: references, handles, sessions and snapshots of the Go datamodel

    References survive their encoding as values; a resolved handle is the one of
    the expression it was asked for; a session contains the panics of the host
    callbacks and keeps exactly the declared variables; a snapshot restores it,
    up to the order of map entries; and the fingerprint names the registrations
    that the definition mentions. *)

From S2P Require Import Prelude Identifier Values Events Datamodel Chart Interp Actions Steps Definitions Validate Layout Compile.
From S2P Require Import Indexed Validated Accepted Authoring Normalize Content Compiled Safety Snapshot Restored JSONRoundtrip GoModel GoProgram.
From stdpp Require Import options.

(** ** Plain identifiers are ASCII *)

Definition asciiByte (a : Ascii.ascii) : bool := ((0 <? N_of_ascii a) && (N_of_ascii a <? 128))%N.

Lemma segmentByte_ascii a : segmentByte a = true → asciiByte a = true.
Proof. by destruct a as [[] [] [] [] [] [] [] []]. Qed.

Lemma all_bytes_impl (p q : Ascii.ascii → bool) s : (∀ a, p a = true → q a = true) → all_bytes p s = true → all_bytes q s = true.
Proof. intros Hpq. induction s as [|a s IH]; simpl; [done|]. rewrite !andb_true_iff. naive_solver. Qed.

Lemma all_bytes_Split (p : Ascii.ascii → bool) c s : p c = true → forallb (all_bytes p) (Split c s) = true → all_bytes p s = true.
Proof.
  intros Hc. induction s as [|a s IH]; simpl; [done|]. pose proof (Split_nonempty c s). case_decide as Ha.
  - simpl. intros H'. subst a. by rewrite Hc, IH.
  - destruct (Split c s) as [|h t]; [done|]. simpl. rewrite !andb_true_iff. intros [[H1 H2] H3]. split; [done|]. apply IH.
    simpl. by rewrite H2, H3.
Qed.

Lemma plain_ascii s : validatePlainIdentifier s = Ok () → all_bytes asciiByte s = true ∧ s ≠ "".
Proof.
  intros H. split; [|by intros ->]. apply plain_segments_necessary in H. apply (all_bytes_Split _ "."%char); [done|].
  rewrite forallb_forall in H |- *. intros x Hx. specialize (H x Hx). unfold segmentPattern in H.
  apply andb_true_iff in H as [_ H]. eapply all_bytes_impl; [|exact H]. apply segmentByte_ascii.
Qed.

Lemma ascii_valid s : all_bytes asciiByte s = true → ValidString s = true.
Proof.
  unfold ValidString. induction s as [|a s IH]; simpl; [done|]. rewrite andb_true_iff. intros [Ha Hs].
  unfold asciiByte in Ha. apply andb_true_iff in Ha as [_ Ha]. unfold utf8_first. rewrite Ha. by apply IH.
Qed.

(** ** References and their encoding *)

Lemma stringOrZero_valid s : ValidString s = true → stringOrZero s = TextValue s.
Proof. unfold stringOrZero, StringValue. by intros ->. Qed.

Lemma encodeExpression_Ok e : encodeExpression e = Ok (MapOf [("kind", stringOrZero (xp_Kind e)); ("data", xp_Data e)]).
Proof. unfold encodeExpression, MapValue. simpl. rewrite !Clone_id. done. Qed.

(** The encoding of an expression. *)
Definition expressionValue (e : Expression) : Value := MapOf [("kind", stringOrZero (xp_Kind e)); ("data", xp_Data e)].

Lemma encodedGoRef_eq ref :
  encodeGoRef ref = Ok (encodedGoRef ref)
  ∧ encodedGoRef ref = MapOf [("name", stringOrZero (fr_Name ref)); ("version", stringOrZero (fr_Version ref));
                              ("args", ListOf (map expressionValue (fr_Args ref)))].
Proof.
  assert (result_mapM encodeExpression (fr_Args ref) = Ok (map expressionValue (fr_Args ref))) as Hargs.
  { induction (fr_Args ref) as [|e es IH]; [done|]. cbn [result_mapM]. rewrite encodeExpression_Ok. cbn. by rewrite IH. }
  unfold encodedGoRef, encodeGoRef. rewrite Hargs. simpl. unfold MapValue, ListValue. simpl.
  rewrite !Clone_id, map_Clone. change (map (λ v, Clone v)) with (map Clone). by rewrite ?map_Clone.
Qed.

Definition expression_ok (e : Expression) : Prop := validatePlainIdentifier (xp_Kind e) = Ok () ∧ is_Ok (Wire (xp_Data e)).

Lemma validateExpression_ok e path : validateExpression e path = Ok () → expression_ok e.
Proof.
  unfold validateExpression. intros H. apply result_bind_Ok in H as ([] & H1 & H). apply result_bind_Ok in H as (w & H2 & _).
  apply at_path_Ok in H1, H2. split; [done | by eexists].
Qed.

Lemma decodeExpression_expressionValue e : validatePlainIdentifier (xp_Kind e) = Ok () → decodeExpression (expressionValue e) = Ok e.
Proof.
  intros [Ha Hne]%plain_ascii. unfold decodeExpression, expressionValue. simpl. rewrite stringOrZero_valid by by apply ascii_valid.
  unfold entry. simpl. rewrite decide_False by done. rewrite !Clone_id. by destruct e.
Qed.

Lemma Wire_text s : ValidString s = true → is_Ok (Wire (TextValue s)).
Proof. simpl. intros ->. by eexists. Qed.

Lemma expressionValue_wire e : expression_ok e → is_Ok (Wire (expressionValue e)).
Proof.
  intros [[Ha _]%plain_ascii [w Hw]]. unfold expressionValue. rewrite stringOrZero_valid by by apply ascii_valid.
  simpl. rewrite ascii_valid by done. simpl. rewrite Hw. simpl. by eexists.
Qed.

Lemma result_list_Ok {A B} (f : A → result B) l : Forall (λ x, is_Ok (f x)) l → is_Ok (result_list f l).
Proof.
  induction 1 as [|x l [y Hy] _ [ys Hys]]; simpl; [by eexists|]. rewrite Hy. simpl. rewrite Hys. simpl. by eexists.
Qed.

(** A function reference that the validator accepts can be
    encoded as a value; the value has a wire form, and decoding it gives the
    reference back, its name, its version and all its arguments. *)
Theorem go_reference_roundtrip (ref : FunctionRef) (path : string) :
  validateFunctionRef ref path = Ok () →
  ∃ v, encodeGoRef ref = Ok v ∧ decodeGoRef v = Ok ref ∧ is_Ok (Wire v).
Proof.
  unfold validateFunctionRef. intros H. apply result_bind_Ok in H as ([] & Hn & H). apply at_path_Ok in Hn.
  apply result_bind_Ok in H as ([] & Hv%fail_if_Ok & H). apply bool_decide_eq_false in Hv.
  apply result_bind_Ok in H as ([] & Hu & H). apply at_path_Ok in Hu. unfold validateUTF8 in Hu.
  apply fail_if_Ok, negb_false_iff in Hu. apply plain_ascii in Hn as [Ha Hne].
  assert (Forall expression_ok (fr_Args ref)) as Hargs.
  { apply Forall_forall. intros e He. eapply checkEach_Ok in H as (j & Hj); [|exact He]. by eapply validateExpression_ok. }
  destruct (encodedGoRef_eq ref) as [E Eq]. eexists. split; [exact E|].
  rewrite Eq, !stringOrZero_valid by (done || by apply ascii_valid). split.
  - unfold decodeGoRef. simpl. unfold entry. simpl. rewrite decide_False by naive_solver.
    unfold clone_list. rewrite !map_Clone.
    assert (result_mapM decodeExpression (map expressionValue (fr_Args ref)) = Ok (fr_Args ref)) as ->.
    { clear -Hargs. induction Hargs as [|e es [Hk _] _ IH]; [done|]. cbn [result_mapM map].
      rewrite decodeExpression_expressionValue by done. cbn. by rewrite IH. }
    simpl. by destruct ref.
  - simpl. rewrite Hu, (ascii_valid (fr_Name ref)) by done. simpl.
    destruct (result_list_Ok Wire (map expressionValue (fr_Args ref))) as [ws ->].
    { apply Forall_map. eapply Forall_impl; [exact Hargs|]. apply expressionValue_wire. }
    simpl. by eexists.
Qed.

(** ** The fuel of [raw] *)

Lemma vsize_pos v : 1 ≤ vsize v.
Proof. destruct v; simpl; lia. Qed.

Lemma vsize_assoc k m v : assoc k m = Some v → vsize v < vsize (MapOf m).
Proof.
  simpl. induction m as [|[k' x] m IH]; simpl; [done|]. case_decide; [intros [= ->]; lia|]. intros Hm. specialize (IH Hm). lia.
Qed.

Lemma vsize_list l v : v ∈ l → vsize v < vsize (ListOf l).
Proof. simpl. induction 1 as [v l|v x l _ IH]; simpl; lia. Qed.

Lemma AsMap_Some v m : AsMap v = Some m → v = MapOf m.
Proof. destruct v; try done. simpl. rewrite map_Clone_assoc. by intros [= ->]. Qed.
Lemma AsList_Some v l : AsList v = Some l → v = ListOf l.
Proof. destruct v; try done. simpl. rewrite map_Clone. by intros [= ->]. Qed.
Lemma AsString_Some v s : AsString v = Some s → v = TextValue s.
Proof. destruct v; try done. by intros [= ->]. Qed.

Lemma entry_text k m s : AsString (entry k m) = Some s → assoc k m = Some (TextValue s).
Proof. unfold entry. intros H%AsString_Some. destruct (assoc k m); simpl in H; by simplify_eq. Qed.

Lemma decodeExpression_inv v e :
  decodeExpression v = Ok e ↔ ∃ m, v = MapOf m ∧ assoc "kind" m = Some (TextValue (xp_Kind e)) ∧ xp_Kind e ≠ ""
    ∧ xp_Data e = entry "data" m.
Proof.
  unfold decodeExpression. split.
  - destruct (AsMap v) as [m|] eqn:E; [|done]. apply AsMap_Some in E as ->. destruct (AsString (entry "kind" m)) as [k|] eqn:Ek; [|done].
    apply entry_text in Ek. case_decide as Hk; [done|]. intros [= <-]. exists m. simpl. by rewrite Clone_id.
  - intros (m & -> & Hk & Hne & Hd). simpl. rewrite map_Clone_assoc. unfold entry at 1. rewrite Hk. simpl.
    rewrite decide_False by done. rewrite Clone_id, <- Hd. by destruct e.
Qed.

Lemma decodeGoRef_inv v ref :
  decodeGoRef v = Ok ref ↔ ∃ m args, v = MapOf m ∧ assoc "name" m = Some (TextValue (fr_Name ref))
    ∧ assoc "version" m = Some (TextValue (fr_Version ref)) ∧ assoc "args" m = Some (ListOf args)
    ∧ fr_Name ref ≠ "" ∧ fr_Version ref ≠ "" ∧ Forall2 (λ a e, decodeExpression a = Ok e) args (fr_Args ref).
Proof.
  unfold decodeGoRef. split.
  - destruct (AsMap v) as [m|] eqn:E; [|done]. apply AsMap_Some in E as ->.
    destruct (AsString (entry "name" m)) as [n|] eqn:En; [|done]. destruct (AsString (entry "version" m)) as [ver|] eqn:Ev; [|done].
    destruct (AsList (entry "args" m)) as [args|] eqn:Ea; [|done]. apply entry_text in En, Ev. apply AsList_Some in Ea.
    case_decide as Hne; [done|]. intros (es & Hes%result_mapM_Ok & [= <-])%result_bind_Ok. exists m, args. simpl.
    unfold entry in Ea. destruct (assoc "args" m) as [x|]; simpl in Ea; [subst x | done]. by repeat split; auto.
  - intros (m & args & -> & Hn & Hv & Ha & N1 & N2 & Hargs). simpl. rewrite map_Clone_assoc. unfold entry. rewrite Hn, Hv, Ha. simpl.
    rewrite decide_False by naive_solver. rewrite map_Clone. apply result_mapM_Ok in Hargs as ->. simpl. by destruct ref.
Qed.

Lemma decodeExpression_size v e : decodeExpression v = Ok e → vsize (xp_Data e) < vsize v.
Proof.
  intros (m & -> & Hk & _ & ->)%decodeExpression_inv. unfold entry. destruct (assoc "data" m) as [x|] eqn:E; simpl default.
  - by eapply vsize_assoc.
  - apply vsize_assoc in Hk. simpl in *. lia.
Qed.

Lemma decodeGoRef_size v ref e : decodeGoRef v = Ok ref → e ∈ fr_Args ref → vsize (xp_Data e) < vsize v.
Proof.
  intros (m & args & -> & _ & _ & Ha & _ & _ & Hargs)%decodeGoRef_inv [i Hi]%list_elem_of_lookup_1.
  destruct (Forall2_lookup_r _ _ _ _ _ Hargs Hi) as (a & Hla & Hd). apply decodeExpression_size in Hd.
  apply list_elem_of_lookup_2, vsize_list in Hla. apply vsize_assoc in Ha. lia.
Qed.

Section fuel.
Context {D : Type}.
Variable wireText : ValueWire → string.
Variable registry : gmap string (goRegistration D).
Variable owner : nat.

Lemma compileArgs_ext (r r' : Expression → goM (goCompiled D)) i args c :
  (∀ e c, e ∈ args → r e c = r' e c) → compileArgs wireText r i args c = compileArgs wireText r' i args c.
Proof.
  revert i c. induction args as [|a args IH]; intros i c H; [done|]. cbn [compileArgs].
  unfold goBind. assert (expression_with wireText r a catValue c = expression_with wireText r' a catValue c) as ->.
  { unfold expression_with, goBind. by rewrite (H a c) by left. }
  destruct (expression_with _ _ _ _ _) as [[x c1]|]; simpl; [|done].
  rewrite (IH (i + 1)%N); [done|]. intros e c2 He. apply H. by right.
Qed.

(** With any fuel above the size of its data, the compilation of an expression
    is the same: the bound [rawFuel] is never reached. *)
Lemma raw_fuel_enough fuel fuel' e c :
  rawFuel e ≤ fuel → rawFuel e ≤ fuel' → raw wireText registry owner fuel e c = raw wireText registry owner fuel' e c.
Proof.
  unfold rawFuel. revert fuel' e c. induction fuel as [|fuel IH]; intros fuel' e c H1 H2; [lia|].
  destruct fuel' as [|fuel']; [lia|]. cbn [raw].
  destruct (decide (xp_Kind e = goLiteralKind)); [done|]. destruct (decide (xp_Kind e = goDataKind)); [done|].
  destruct (decodeGoRef (xp_Data e)) as [ref|] eqn:Er; [|done]. destruct (registry !! _) as [r|]; [|done].
  destruct (negb _); [done|]. destruct (nilCallback r); [done|]. unfold goBind, markUsed. cbn.
  rewrite (compileArgs_ext (raw wireText registry owner fuel) (raw wireText registry owner fuel')); [done|].
  intros a c' Ha. pose proof (decodeGoRef_size _ _ _ Er Ha). apply IH; lia.
Qed.
End fuel.

(** ** Values up to the order of map entries *)

Inductive same : Value → Value → Prop :=
| same_null : same NullValue NullValue
| same_bool b : same (BoolValue b) (BoolValue b)
| same_text s : same (TextValue s) (TextValue s)
| same_num s : same (NumValue s) (NumValue s)
| same_list l l' : Forall2 same l l' → same (ListOf l) (ListOf l')
| same_map m m' : (∀ k, option_Forall2 same (assoc k m) (assoc k m')) → same (MapOf m) (MapOf m')
| same_tagged t v v' : same v v' → same (TaggedOf t v) (TaggedOf t v').

Lemma assoc_elem {A} k (m : list (string * A)) a : assoc k m = Some a → (k, a) ∈ m.
Proof. induction m as [|[k' x] m IH]; simpl; [done|]. case_decide; [intros [= ->]; subst; left | right; auto]. Qed.

#[export] Instance same_refl : Reflexive same.
Proof.
  intros v. induction v as [| | | |l IH|m IH|] using Value_nested_ind; constructor; try done.
  - induction IH; constructor; auto.
  - intros k. destruct (assoc k m) as [x|] eqn:E; constructor. apply assoc_elem in E. rewrite Forall_forall in IH. by apply (IH _ E).
Qed.

Lemma same_list_inv l v : same (ListOf l) v → ∃ l', v = ListOf l' ∧ Forall2 same l l'.
Proof. inversion 1. eauto. Qed.
Lemma same_map_inv m v : same (MapOf m) v → ∃ m', v = MapOf m' ∧ ∀ k, option_Forall2 same (assoc k m) (assoc k m').
Proof. inversion 1. eauto. Qed.
Lemma same_tagged_inv t p v : same (TaggedOf t p) v → ∃ p', v = TaggedOf t p' ∧ same p p'.
Proof. inversion 1. eauto. Qed.

#[export] Instance same_trans : Transitive same.
Proof.
  intros v. induction v as [| | | |l IH|m IH|t v IH] using Value_nested_ind; intros v1 v2 H1 H2.
  1-4: by inversion H1; subst.
  - apply same_list_inv in H1 as (l1 & -> & H1). apply same_list_inv in H2 as (l2 & -> & H2). constructor.
    revert l1 l2 H1 H2. induction IH as [|x l Hx _ IHl]; intros l1 l2 H1 H2; inversion H1; subst; inversion H2; subst; constructor;
      [by eapply Hx | by eapply IHl].
  - apply same_map_inv in H1 as (m1 & -> & H1). apply same_map_inv in H2 as (m2 & -> & H2). constructor. intros k.
    specialize (H1 k). specialize (H2 k). destruct (assoc k m) as [x|] eqn:E.
    + destruct (assoc k m1) as [y|]; [|by inversion H1]. destruct (assoc k m2) as [z|]; [|by inversion H2].
      inversion H1; subst. inversion H2; subst. constructor.
      apply assoc_elem in E. rewrite Forall_forall in IH. by eapply (IH _ E).
    + destruct (assoc k m1); [by inversion H1|]. destruct (assoc k m2); [by inversion H2 | constructor].
  - apply same_tagged_inv in H1 as (p1 & -> & H1). apply same_tagged_inv in H2 as (p2 & -> & H2). constructor. by eapply IH.
Qed.

Definition same_expression (e e' : Expression) : Prop := xp_Kind e = xp_Kind e' ∧ same (xp_Data e) (xp_Data e').

Lemma same_entry k m m' : option_Forall2 same (assoc k m) (assoc k m') → same (entry k m) (entry k m').
Proof. unfold entry. intros H. inversion H; subst; simpl; [done | constructor]. Qed.

Lemma same_assoc k m m' v : (∀ k, option_Forall2 same (assoc k m) (assoc k m')) → assoc k m = Some v →
  ∃ v', assoc k m' = Some v' ∧ same v v'.
Proof. intros H E. specialize (H k). rewrite E in H. inversion H; subst. eauto. Qed.

Lemma decodeExpression_same v v' e : same v v' → decodeExpression v = Ok e → ∃ e', decodeExpression v' = Ok e' ∧ same_expression e e'.
Proof.
  intros Hs (m & -> & Hk & Hne & Hd)%decodeExpression_inv. inversion Hs as [| | | | |? m' Hm|]; subst.
  destruct (same_assoc _ _ _ _ Hm Hk) as (x & Hx & Hsx). inversion Hsx; subst.
  exists (mkExpression (xp_Kind e) (entry "data" m')). split.
  - apply decodeExpression_inv. by exists m'.
  - split; [done|]. simpl. rewrite Hd. apply same_entry, Hm.
Qed.

Lemma decodeGoRef_same v v' ref :
  same v v' → decodeGoRef v = Ok ref →
  ∃ ref', decodeGoRef v' = Ok ref' ∧ fr_Name ref' = fr_Name ref ∧ fr_Version ref' = fr_Version ref
    ∧ Forall2 same_expression (fr_Args ref) (fr_Args ref').
Proof.
  intros Hs (m & args & -> & Hn & Hv & Ha & N1 & N2 & Hargs)%decodeGoRef_inv. inversion Hs as [| | | | |? m' Hm|]; subst.
  destruct (same_assoc _ _ _ _ Hm Hn) as (x & Hx & Hsx). inversion Hsx; subst.
  destruct (same_assoc _ _ _ _ Hm Hv) as (y & Hy & Hsy). inversion Hsy; subst.
  destruct (same_assoc _ _ _ _ Hm Ha) as (z & Hz & Hsz). inversion Hsz as [| | | |? args' Hargs'| |]; subst.
  assert (∃ es', Forall2 (λ a e, decodeExpression a = Ok e) args' es' ∧ Forall2 same_expression (fr_Args ref) es') as (es' & H1 & H2).
  { clear -Hargs Hargs'. revert args' Hargs'. induction Hargs as [|a e args es Hae _ IH]; intros args' H'; inversion H' as [|? a' ? as' Ha Has]; subst.
    - by exists [].
    - destruct (decodeExpression_same _ _ _ Ha Hae) as (e' & He' & Hse). destruct (IH _ Has) as (es' & ? & ?).
      exists (e' :: es'). split; by constructor. }
  exists (mkFunctionRef (fr_Name ref) (fr_Version ref) es'). split_and!; [|done..]. apply decodeGoRef_inv. by exists m', args'.
Qed.

(** ** What a handle stands for *)

Section compiled_ind.
Context {D : Type} (P : goCompiled D → Prop).
Hypothesis step : ∀ x, Forall P (co_args x) → P x.
Fixpoint goCompiled_nested_ind (x : goCompiled D) : P x.
Proof using step.
  apply step. destruct x as [o k r args l d]. simpl. revert args. fix Hargs 1. intros [|y args]; constructor;
    [apply goCompiled_nested_ind | apply Hargs].
Defined.
End compiled_ind.

Section denotes.
Context {D : Type}.
Variable registry : gmap string (goRegistration D).
Variable owner : nat.
Variable declared : gset string.

(** The handle of an expression, by its kind: a literal is carried, a data ID is
    declared, and a reference has the registration of its name and version and
    the handles of its arguments. *)
Inductive denotes : goCompiled D → Expression → Prop :=
| den_literal e v : xp_Kind e = goLiteralKind → same v (xp_Data e) →
    denotes (mkGoCompiled owner goLiteralKind zeroRegistration [] v "") e
| den_data e id : xp_Kind e = goDataKind → xp_Data e = TextValue id → id ∈ declared →
    denotes (mkGoCompiled owner goDataKind zeroRegistration [] NullValue id) e
| den_ref e ref r args : xp_Kind e ≠ goLiteralKind → xp_Kind e ≠ goDataKind → decodeGoRef (xp_Data e) = Ok ref →
    registry !! registrationKey (fr_Name ref) (fr_Version ref) = Some r → reg_kind r = xp_Kind e → nilCallback r = false →
    Forall2 denotes args (fr_Args ref) →
    denotes (mkGoCompiled owner (xp_Kind e) r args NullValue "") e.

Lemma denotes_kind x e : denotes x e → co_kind x = xp_Kind e ∧ co_owner x = owner ∧ (co_kind x = goDataKind → co_dataID x ∈ declared).
Proof. destruct 1; simpl; by split_and!. Qed.

Lemma denotes_same x e e' : denotes x e → same_expression e e' → denotes x e'.
Proof.
  revert e e'. induction x as [x IH] using goCompiled_nested_ind. intros e e' Hx [Hk Hd]. destruct Hx as [e v He Hv|e id He Hid Hin|e ref r args N1 N2 Href Hreg Hkind Hnil Hargs].
  - constructor; [congruence|]. by etrans.
  - apply den_data; [congruence| |done]. rewrite Hid in Hd. by inversion Hd.
  - destruct (decodeGoRef_same _ _ _ Hd Href) as (ref' & Href' & En & Ev & Hsame). rewrite Hk.
    apply (den_ref e' ref'); try congruence. simpl in IH. clear -IH Hargs Hsame.
    revert Hsame. generalize (fr_Args ref') as es'. induction Hargs as [|a e args es Hae _ IHargs]; intros es' H; inversion H; subst; constructor.
    + apply Forall_cons in IH as [IHa _]. by eapply IHa.
    + apply IHargs; [by apply Forall_cons in IH as [_ ?] | done].
Qed.
End denotes.

(** ** Keys *)

Lemma frame_inj (n n' : N) s s' : itoa n +:+ ":" +:+ s = itoa n' +:+ ":" +:+ s' → n = n' ∧ s = s'.
Proof.
  intros H. unfold itoa in H.
  assert (∀ m t, span_digits (pretty (m : N) +:+ ":" +:+ t) = (pretty m, ":" +:+ t)) as Hspan.
  { intros m t. apply span_digits_app; [apply all_digits_pretty | done]. }
  pose proof (Hspan n s) as H1. rewrite H, Hspan in H1. injection H1 as Hn Hs. split; [by apply (inj pretty) in Hn | done].
Qed.

Lemma string_app_inj_length (s s' t t' : string) : String.length s = String.length s' → s +:+ t = s' +:+ t' → s = s' ∧ t = t'.
Proof.
  revert s'. induction s as [|a s IH]; intros [|a' s']; [done..|]. rewrite !string_app_cons. intros [= Hl] [= -> H].
  by destruct (IH s' Hl H) as [-> ->].
Qed.

Section handles.
Context {D : Type}.
Variable wireText : ValueWire → string.
Variable registry : gmap string (goRegistration D).
Variable owner : nat.

Lemma valueKeyInternal_inj e e' :
  valueKeyInternal wireText e = valueKeyInternal wireText e' →
  xp_Kind e = xp_Kind e' ∧ marshaled wireText (xp_Data e) = marshaled wireText (xp_Data e').
Proof.
  unfold valueKeyInternal. intros [Hl H]%frame_inj. apply string_app_inj_length in H; [done|]. lia.
Qed.

(** ** Every handle of a program is the one of an expression *)

Record faithful (c : goCompile D) : Prop := {
  fa_compiled k x : gc_compiled c !! k = Some x →
    ∃ e, k = valueKeyInternal wireText e ∧ denotes registry owner (gc_declarations c) x e;
  fa_functions k x : gc_functions c !! k = Some x →
    ∃ f, k = functionKeyInternal wireText f
      ∧ denotes registry owner (gc_declarations c) x (mkExpression goScriptKind (encodedGoRef f));
  fa_locations id x : gc_dataLocations c !! id = Some x →
    x = mkGoCompiled owner goDataKind zeroRegistration [] NullValue id ∧ id ∈ gc_declarations c
}.

Definition stays_faithful (c c' : goCompile D) : Prop :=
  gc_declarations c' = gc_declarations c ∧ gc_dataLocations c' = gc_dataLocations c ∧ (faithful c → faithful c').

#[export] Instance stays_faithful_preorder : PreOrder stays_faithful.
Proof.
  split; [by intros x; split_and!|]. intros x y z (H1 & H2 & H3) (J1 & J2 & J3). split_and!; [congruence..|]. auto.
Qed.

Definition yields (m : goM (D := D) (goCompiled D)) (e : Expression) : Prop :=
  ∀ c x c', m c = Ok (x, c') → stays_faithful c c' ∧ (faithful c → denotes registry owner (gc_declarations c) x e).

Lemma yields_expression_with r e cat : yields (r e) e → yields (expression_with wireText r e cat) e.
Proof.
  intros Hr c x c' (y & c1 & H1 & H2)%goBind_Ok. apply Hr in H1 as [[Hd [Hl Hf]] Hy].
  destruct (validIn cat (co_kind y)); [|done]. apply goBind_Ok in H2 as ([] & c2 & [= <-] & [= <- <-]). split; [|done].
  split_and!; [done..|]. intros Hc. specialize (Hf Hc). split; simpl.
  - intros k z [[<- <-]|[_ Hz]]%lookup_insert_Some; [|by apply (fa_compiled _ Hf)]. exists e. split; [done|]. rewrite Hd. by apply Hy.
  - apply (fa_functions _ Hf).
  - apply (fa_locations _ Hf).
Qed.

Lemma yields_compileArgs r i args c xs c' :
  (∀ e, yields (r e) e) → compileArgs wireText r i args c = Ok (xs, c') →
  stays_faithful c c' ∧ (faithful c → Forall2 (denotes registry owner (gc_declarations c)) xs args).
Proof.
  intros Hr. revert i c xs c'. induction args as [|a args IH]; intros i c xs c'; cbn [compileArgs].
  { intros [= <- <-]. split; [done | constructor]. }
  intros (x & c1 & H1 & (ys & c2 & H2 & [= <- <-])%goBind_Ok)%goBind_Ok.
  destruct (expression_with wireText r a catValue c) as [[y c3]|] eqn:E; [|done]. injection H1 as -> ->.
  apply yields_expression_with in E as [S1 Hy]; [|apply Hr]. apply IH in H2 as [S2 Hys].
  split; [by etrans|]. intros Hc. destruct S1 as (Hd & _ & Hf). constructor; [by apply Hy|]. rewrite <- Hd. auto.
Qed.

Lemma yields_raw fuel e : yields (raw wireText registry owner fuel e) e.
Proof.
  revert e. induction fuel as [|fuel IH]; intros e c x c'; [done|]. cbn [raw].
  destruct (decide (xp_Kind e = goLiteralKind)) as [Hk|N1].
  { intros [= <- <-]. split; [done|]. intros _. rewrite Hk, Clone_id. by constructor. }
  destruct (decide (xp_Kind e = goDataKind)) as [Hk|N2].
  { destruct (AsString (xp_Data e)) as [id|] eqn:E; [|done]. intros (ok & c1 & [= <- <-] & H)%goBind_Ok.
    destruct (bool_decide _) eqn:Ed; [|done]. apply bool_decide_eq_true in Ed. injection H as <- <-. split; [done|]. intros _.
    rewrite Hk. apply den_data; [done | by apply AsString_Some | done]. }
  destruct (decodeGoRef (xp_Data e)) as [ref|] eqn:Er; [|done]. destruct (registry !! _) as [r|] eqn:Ereg; [|done].
  destruct (negb (bool_decide (reg_kind r = xp_Kind e))) eqn:Ek; [done|]. apply negb_false_iff, bool_decide_eq_true in Ek.
  destruct (nilCallback r) eqn:En; [done|].
  intros ([] & c1 & [= <-] & (args & c2 & H & [= <- <-])%goBind_Ok)%goBind_Ok.
  apply yields_compileArgs in H as [S Hargs]; [|done].
  assert (faithful c → faithful (mkGoCompile (gc_declarations c) (<[registrationKey (fr_Name ref) (fr_Version ref) := reg_kind r]> (gc_used c))
    (gc_compiled c) (gc_functions c) (gc_declared c) (gc_dataLocations c))) as Hc1 by (intros [F1 F2 F3]; by split).
  split; [|intros Hc; by eapply den_ref; eauto]. destruct S as (Hd & Hl & Hf). split_and!; [done..|]. auto.
Qed.

#[export] Instance faithful_walk : WalkRelation wireText registry owner stays_faithful.
Proof.
  split; [apply _|intros e cat c x c' H|].
  - by apply yields_expression_with in H as [? _]; [|apply yields_raw].
  - intros f c [] c' (x & c1 & H & [= <-])%goBind_Ok. apply yields_expression_with in H as [(Hd & Hl & Hf) Hx]; [|apply yields_raw].
    split_and!; [done..|]. intros Hc. specialize (Hf Hc). split; simpl.
    + apply (fa_compiled _ Hf).
    + intros k z [[<- <-]|[_ Hz]]%lookup_insert_Some; [|by apply (fa_functions _ Hf)]. exists f. split; [done|]. rewrite Hd. by apply Hx.
    + apply (fa_locations _ Hf).
Qed.
End handles.

(** ** The program *)

Section collection.
Context {D : Type}.

Lemma collectIDs_ind (P : goCompile D → Prop) (Q : string → Prop) owner d :
  (∀ c id, Q id → P c → P (goAdd owner c id)) → P emptyCompile →
  Forall (λ x, Q (da_ID x)) (df_Data d) → every (λ s, Forall (λ x, Q (da_ID x)) (sd_Data s)) (df_Root d) → P (collectIDs owner d).
Proof.
  intros Hadd H0 Hdata Hroot. assert (∀ ds c, Forall (λ x, Q (da_ID x)) ds → P c → P (collectDataIDs owner ds c)) as Hds.
  { unfold collectDataIDs. intros ds c Hq. revert c. induction Hq as [|x ds Hx _ IH]; intros c Hc; simpl; auto. }
  unfold collectIDs. pose proof (Hds (df_Data d) _ Hdata H0) as H1. revert H1.
  generalize (collectDataIDs (D := D) owner (df_Data d) emptyCompile) as c.
  induction (df_Root d) as [s IH] using StateDefinition_nested_ind. intros c Hc. rewrite collectState_unfold.
  apply every_inv in Hroot as [Hs Hch]. apply (Hds (sd_Data s)) in Hc; [|done]. revert Hc.
  generalize (collectDataIDs owner (sd_Data s) c) as c1. clear c Hs.
  induction IH as [|x xs Hx _ IHxs]; intros c Hc; simpl; [done|]. apply Forall_cons in Hch as [Hx' Hxs]. auto.
Qed.

Lemma every_True (P : StateDefinition → Prop) s : (∀ x, P x) → every P s.
Proof.
  intros H. induction s as [s IH] using StateDefinition_nested_ind. by constructor.
Qed.

(** What the collection of the IDs has put in place. *)
Record collected_ids (owner : nat) (c : goCompile D) : Prop := {
  ci_compiled : gc_compiled c = ∅;
  ci_functions : gc_functions c = ∅;
  ci_used : gc_used c = ∅;
  ci_locations id x : gc_dataLocations c !! id = Some x →
    x = mkGoCompiled owner goDataKind zeroRegistration [] NullValue id ∧ id ∈ gc_declarations c;
  ci_declared : list_to_set (gc_declared c) = gc_declarations c
}.

Lemma collectIDs_collected owner d : collected_ids owner (collectIDs owner d).
Proof.
  apply (collectIDs_ind _ (λ _, True)); [|by split|by apply Forall_true|by apply every_True; intros; apply Forall_true].
  intros c id _ Hc. unfold goAdd. case_decide; [done|].
  destruct Hc as [H1 H2 H3 H4 H5]. split; simpl; [done..| |].
  - intros j x [[<- <-]|[_ Hx]]%lookup_insert_Some; [split; [done | set_solver]|]. apply H4 in Hx as [? ?]. split; [done | set_solver].
  - rewrite list_to_set_app_L, H5. set_solver.
Qed.

End collection.

Section program.
Context {D : Type}.
Variable wireText : ValueWire → string.
Variable sum256 : string → string.

(** The IDs that a program declares. *)
Definition declaredIDs (p : goProgram D) : gset string := list_to_set (gp_declarations p).

Lemma program_faithful owner m d p :
  GoCompile wireText sum256 owner m d = Ok p →
  gp_owner p = owner
  ∧ ∃ c, faithful wireText (gm_registrations m) owner c ∧ gc_declarations c = declaredIDs p
    ∧ gp_compiled p = gc_compiled c ∧ gp_functions p = gc_functions c ∧ gp_dataLocations p = gc_dataLocations c.
Proof.
  intros (_ & c & factory & _ & Hwalk & ->)%goCompile_program. split; [done|]. exists c. destruct (collectIDs_collected (D := D) owner d) as [H1 H2 H3 H4 H5].
  pose proof (extends_definition (R := stays_faithful wireText (gm_registrations m) owner) _ _ _ _ Hwalk) as (Hd & Hl & Hf).
  pose proof (extends_definition (R := grows) _ _ _ _ Hwalk) as Hg.
  split_and!; [|by unfold declaredIDs; simpl; rewrite Hd, (gr_declared _ _ Hg), H5|done..].
  apply Hf. split; [by rewrite H1; intros ? ?; rewrite lookup_empty | by rewrite H2; intros ? ?; rewrite lookup_empty | done].
Qed.

(** Two texts of [json.Marshal] that are equal are read as the same value; no
    text is empty. *)
Hypothesis text_nonempty : ∀ w, wireText w ≠ "".
Hypothesis text_determines : ∀ w w' v v',
  wireText w = wireText w' → ValueFromWire w = Ok v → ValueFromWire w' = Ok v' → same v v'.

Lemma marshaled_same v v' w : Wire v' = Ok w → marshaled wireText v = marshaled wireText v' → same v v'.
Proof using text_nonempty text_determines.
  unfold marshaled, MarshalBinary. intros Hw. rewrite Hw. simpl. destruct (Wire v) as [w0|] eqn:E; simpl; intros H.
  - by apply (text_determines w0 w); [|apply ValueFromWire_Wire..].
  - by destruct (text_nonempty w).
Qed.

(** C13 (functional): what a program resolves is what was asked for.  The handle
    that a compiled program returns for an expression stands for that very
    expression, and not for another one with a colliding key: it carries the
    literal, or names the declared datum, or has the registration under the
    reference's name and version and, in order, handles that stand for its
    arguments.  The same holds for the handle of a function reference, and the
    location of a data ID names it. *)
Theorem go_handles_denote (owner : nat) (m : GoModel D) (d : ChartDefinition) (p : goProgram D) :
  GoCompile wireText sum256 owner m d = Ok p →
  (∀ e x, is_Ok (Wire (xp_Data e)) → goResolveExpression wireText p e = Ok x →
     denotes (gm_registrations m) owner (declaredIDs p) x e)
  ∧ (∀ f x, is_Ok (Wire (encodedGoRef f)) → goResolveFunction wireText p f = Ok x →
       denotes (gm_registrations m) owner (declaredIDs p) x (mkExpression goScriptKind (encodedGoRef f)))
  ∧ (∀ id x, goResolveDataLocation p id = Ok x → ValidString id = true →
       denotes (gm_registrations m) owner (declaredIDs p) x (GoData id)).
Proof using text_nonempty text_determines.
  intros (_ & c & [F1 F2 F3] & Hd & Ec & Ef & El)%program_faithful. rewrite <- Hd. split_and!.
  - intros e x [w Hw]. unfold goResolveExpression. rewrite Ec. destruct (gc_compiled c !! _) as [y|] eqn:E; [|done]. intros [= ->].
    apply F1 in E as (e' & Hk & Hx). symmetry in Hk. apply valueKeyInternal_inj in Hk as [Hk Hm].
    eapply denotes_same; [exact Hx|]. split; [done | by eapply marshaled_same].
  - intros f x [w Hw]. unfold goResolveFunction. rewrite Ef. destruct (gc_functions c !! _) as [y|] eqn:E; [|done]. intros [= ->].
    apply F2 in E as (f' & Hk & Hx). eapply denotes_same; [exact Hx|]. split; [done|]. by eapply marshaled_same.
  - intros id x. unfold goResolveDataLocation. rewrite El. destruct (gc_dataLocations c !! id) as [y|] eqn:E; [|done]. intros [= ->] Hv.
    apply F3 in E as [-> Hid]. apply den_data; [done | by apply stringOrZero_valid | done].
Qed.
End program.

(** ** The declared IDs are plain identifiers *)

Definition plain (id : string) : Prop := validatePlainIdentifier id = Ok ().

Lemma validateDataDefinitions_plain ds path seen seen' :
  validateDataDefinitions ds path seen = Ok seen' → Forall (λ x, plain (da_ID x)) ds.
Proof.
  unfold validateDataDefinitions. intros H. apply Forall_forall. intros x Hx.
  eapply forRange_each in H as (j & s1 & s2 & Hj); [|exact Hx]. unfold validateDatum in Hj.
  apply result_bind_Ok in Hj as ([] & Hj & _). by apply at_path_Ok in Hj.
Qed.

Lemma validateStateSelf_plain v n s b seen seen' : validateStateSelf v n s b seen = Ok seen' → Forall (λ x, plain (da_ID x)) (sd_Data s).
Proof.
  unfold validateStateSelf. intros (u & Hh & H)%result_bind_Ok. apply result_bind_Ok in H as (s1 & Hd & _).
  destruct b; [|by eapply validateDataDefinitions_plain]. unfold validateStateHead in Hh.
  do 5 apply result_bind_Ok in Hh as ([] & _ & Hh). apply result_bind_Ok in Hh as ([] & Hr%fail_if_Ok & _).
  simpl in Hr. apply nonEmpty_false in Hr as ->. constructor.
Qed.

Lemma normalized_plain d n :
  normalizeDefinition d = Ok n →
  Forall (λ x, plain (da_ID x)) (df_Data n) ∧ every (λ s, Forall (λ x, plain (da_ID x)) (sd_Data s)) (df_Root n).
Proof.
  intros H. split.
  - unfold normalizeDefinition in H. apply result_bind_Ok in H as ([] & _ & H). apply result_bind_Ok in H as (seen & Hs & H).
    do 3 apply result_bind_Ok in H as (? & _ & H). injection H as <-. by eapply validateDataDefinitions_plain.
  - apply (every_layout _ _ None 0). intros k x q Hk. apply normalizeDefinition_Ok in H as (v & seen & seen' & Hv & Hval).
    apply collected_index in Hv as (Hn & Hix & _).
    eapply (validateState_each v (λ _ s, Forall (λ x, plain (da_ID x)) (sd_Data s))) in Hval; [exact Hval | | |exact Hk].
    + intros. by eapply validateStateSelf_plain.
    + intros k' x' q' Hk'. by eapply index_lookup.
Qed.

Lemma declared_plain {D} (wireText : ValueWire → string) sum256 owner (m : GoModel D) d n p id :
  normalizeDefinition d = Ok n → GoCompile wireText sum256 owner m n = Ok p → id ∈ declaredIDs p → plain id.
Proof.
  intros [Hd Hs]%normalized_plain Hp Hid. apply goCompile_program in Hp as (_ & c & factory & _ & Hwalk & ->).
  pose proof (extends_definition (R := grows) _ _ _ _ Hwalk) as Hg. unfold declaredIDs in Hid. simpl in Hid.
  rewrite (gr_declared _ _ Hg) in Hid. revert Hid.
  apply (collectIDs_ind (λ c : goCompile D, id ∈ list_to_set (C := gset string) (gc_declared c) → plain id) plain); [|set_solver|done..].
  intros c' j Hj IH. unfold goAdd. case_decide; [done|]. simpl. rewrite list_to_set_app_L. set_unfold. naive_solver.
Qed.

(** ** Sessions *)

Section sessions.
Context {D : Type}.

(** What no operation changes. *)
Definition same_frame (s s' : goSession D) : Prop :=
  gs_owner s' = gs_owner s ∧ gs_codec s' = gs_codec s ∧ gs_inspectionCodec s' = gs_inspectionCodec s.

(** A host call can change the application's data only. *)
Definition hostile {A} (m : goS (D := D) A) : Prop := ∀ s s' eff o, m s = (s', eff, o) → same_frame s s' ∧ gs_values s' = gs_values s.

Lemma hostile_ret {A} (a : A) : hostile (sRet a).
Proof. by intros s s' eff o [= <- <- <-]. Qed.
Lemma hostile_fail {A} e : hostile (sFail (A := A) e).
Proof. by intros s s' eff o [= <- <- <-]. Qed.
Lemma hostile_bind {A B} (m : goS A) (f : A → goS B) : hostile m → (∀ a, hostile (f a)) → hostile (sBind m f).
Proof.
  intros Hm Hf s s' eff o. unfold sBind. destruct (m s) as [[s1 eff1] [a|e|p]] eqn:E; apply Hm in E as [(O1 & C1 & I1) V1].
  - destruct (f a s1) as [[s2 eff2] o2] eqn:E2. apply Hf in E2 as [(O2 & C2 & I2) V2]. intros [= <- <- <-].
    split; [split_and!|]; congruence.
  - by intros [= <- <- <-].
  - by intros [= <- <- <-].
Qed.
Lemma hostile_asCompiled e : hostile (sAsCompiled e).
Proof. intros s s' eff o. unfold sAsCompiled, sLift. by intros [= <- <- <-]. Qed.
Lemma hostile_host {A B} (fn : option B) (call : B → D → D * list effect * outcome A) : hostile (callHost fn call).
Proof.
  intros s s' eff o. unfold callHost. destruct fn as [f|]; [|by intros [= <- <- <-]].
  destruct (call f (gs_data s)) as [[d eff'] o']. by intros [= <- <- <-].
Qed.

Lemma hostile_arguments (ev : goCompiled D → goS Value) xs : Forall (λ x, hostile (ev x)) xs → hostile (arguments_with ev xs).
Proof.
  induction 1 as [|x xs Hx _ IH]; simpl; [apply hostile_ret|]. apply hostile_bind; [done|]. intros v.
  apply hostile_bind; [done|]. intros vs. apply hostile_ret.
Qed.

Lemma hostile_eval ec x : hostile (eval ec x).
Proof.
  induction x as [x IH] using goCompiled_nested_ind. destruct x as [o k r args l id]. simpl in *.
  repeat case_decide; [apply hostile_ret | by intros s s' eff o' [= <- <- <-] | | apply hostile_fail].
  apply hostile_bind; [by apply hostile_arguments | intros a; apply hostile_host].
Qed.

Lemma hostile_args ec x : hostile (arguments ec x).
Proof. apply hostile_arguments, Forall_forall. intros y _. apply hostile_eval. Qed.

(** The operations that cannot assign a variable. *)
Lemma evaluate_boolean_hostile ec e :
  hostile (sBind (sAsCompiled e) (λ x, if decide (co_kind x = goConditionKind) then
      sBind (arguments ec x) (λ a, callHost (reg_cond (co_reg x)) (λ f d, f d ec a))
    else sFail (Errorf ("statecharts: boolean expression has kind " +:+ quote (co_kind x))))).
Proof.
  apply hostile_bind; [apply hostile_asCompiled|]. intros x. case_decide; [|apply hostile_fail].
  apply hostile_bind; [apply hostile_args | intros a; apply hostile_host].
Qed.

Lemma evaluate_value_hostile ec e : hostile (sBind (sAsCompiled e) (λ x, sBind (eval ec x) (λ v, sRet (Clone v)))).
Proof.
  apply hostile_bind; [apply hostile_asCompiled|]. intros x. apply hostile_bind; [apply hostile_eval | intros v; apply hostile_ret].
Qed.

Lemma execute_hostile ec e :
  hostile (sBind (sAsCompiled e) (λ x, if decide (co_kind x = goScriptKind) then
      sBind (arguments ec x) (λ a, callHost (reg_act (co_reg x)) (λ f d, f d ec a))
    else sFail (Errorf ("statecharts: script expression has kind " +:+ quote (co_kind x))))).
Proof.
  apply hostile_bind; [apply hostile_asCompiled|]. intros x. case_decide; [|apply hostile_fail].
  apply hostile_bind; [apply hostile_args | intros a; apply hostile_host].
Qed.

(** ** Recovered operations *)

Lemma recoverGo_inv {A} (m : goS (D := D) A) s s' eff o :
  recoverGo m s = (s', eff, o) → (∀ t, o ≠ Panicked t) ∧ ∃ o', m s = (s', eff, o').
Proof.
  unfold recoverGo. destruct (m s) as [[s1 eff1] o1]. intros [= <- <- <-]. split; [by destruct o1 | by eexists].
Qed.

Definition foreign (owner : nat) (h : option (goCompiled D)) : Prop := ∀ x, h = Some x → co_owner x ≠ owner.

Lemma recoverGo_foreign {A} (k : goCompiled D → goS A) h s s' eff o :
  foreign (gs_owner s) h → recoverGo (sBind (sAsCompiled h) k) s = (s', eff, o) → s' = s ∧ eff = [] ∧ ∃ e, o = Failed e.
Proof.
  intros Hf. unfold recoverGo, sBind, sAsCompiled, sLift, asCompiled. destruct h as [x|].
  - rewrite decide_False by by apply Hf. intros [= <- <- <-]. by eauto.
  - intros [= <- <- <-]. by eauto.
Qed.

Lemma sBind_own {A} (k : goCompiled D → goS A) x s : co_owner x = gs_owner s → sBind (sAsCompiled (Some x)) k s = k x s.
Proof.
  intros H. unfold sBind, sAsCompiled, sLift, asCompiled. rewrite decide_True by done. simpl. by destruct (k x s) as [[? ?] ?].
Qed.

(** The session of a program: it carries the program's owner and codecs and has
    exactly the declared variables. *)
Record sessionOf (p : goProgram D) (s : goSession D) : Prop := {
  so_owner : gs_owner s = gp_owner p;
  so_codec : gs_codec s = gp_codec p;
  so_inspection : gs_inspectionCodec s = gp_inspectionCodec p;
  so_values : dom (gs_values s) = declaredIDs p
}.

(** The handles of a program.  Its owner is unexported and known to its handles
    only: a handle with this owner is in one of its tables. *)
Definition issued (p : goProgram D) (x : goCompiled D) : Prop :=
  (∃ k, gp_compiled p !! k = Some x) ∨ (∃ k, gp_functions p !! k = Some x) ∨ (∃ k, gp_dataLocations p !! k = Some x).
Definition unforged (p : goProgram D) (h : option (goCompiled D)) : Prop := ∀ x, h = Some x → co_owner x = gp_owner p → issued p x.

(** An operation on a session of [p] with handle [h]: it ends in a value or an
    error and leaves a session of [p]; with the handle of another program or
    datamodel it fails, changes nothing and calls nothing. *)
Definition contained {A} (p : goProgram D) (h : option (goCompiled D)) (s : goSession D) (r : goSession D * list effect * outcome A) : Prop :=
  let '(s', eff, o) := r in
  sessionOf p s' ∧ (∀ t, o ≠ Panicked t) ∧ (foreign (gp_owner p) h → s' = s ∧ eff = [] ∧ ∃ e, o = Failed e).

Lemma contained_hostile {A} p h s (k : goCompiled D → goS A) :
  hostile (sBind (sAsCompiled h) k) → sessionOf p s → contained p h s (recoverGo (sBind (sAsCompiled h) k) s).
Proof.
  intros Hk [O C I V]. destruct (recoverGo _ s) as [[s' eff] o] eqn:E. pose proof E as (Hp & o' & H)%recoverGo_inv.
  apply Hk in H as [(O' & C' & I') V']. split_and!; [|done|].
  - split; congruence.
  - intros Hf. eapply recoverGo_foreign; [|exact E]. by rewrite O.
Qed.

Lemma issued_declared wireText sum256 owner (m : GoModel D) d p x :
  GoCompile wireText sum256 owner m d = Ok p → issued p x → co_kind x = goDataKind → co_dataID x ∈ declaredIDs p.
Proof.
  intros (_ & c & [F1 F2 F3] & Hd & Ec & Ef & El)%program_faithful. unfold issued. rewrite Ec, Ef, El, <- Hd.
  intros [[k Hk]|[[k Hk]|[k Hk]]].
  - apply F1 in Hk as (e & _ & He). by apply denotes_kind in He as (_ & _ & ?).
  - apply F2 in Hk as (f & _ & He). by apply denotes_kind in He as (_ & _ & ?).
  - apply F3 in Hk as [-> Hid]. done.
Qed.

Lemma assign_contained wireText sum256 owner (m : GoModel D) d p h s ec v :
  GoCompile wireText sum256 owner m d = Ok p → sessionOf p s → unforged p h → contained p h s (goAssign ec h v s).
Proof.
  intros Hp Hs Hh. destruct (goAssign ec h v s) as [[s' eff] o] eqn:E. unfold goAssign in E.
  pose proof E as (Hpan & o' & H)%recoverGo_inv. split_and!; [|done|].
  2: { intros Hf. eapply recoverGo_foreign; [|exact E]. by rewrite (so_owner _ _ Hs). }
  clear E. destruct h as [x|]; [|by injection H as <- <- <-]. destruct (decide (co_owner x = gs_owner s)) as [Ho|Ho].
  2: { unfold sBind, sAsCompiled, sLift, asCompiled in H. rewrite decide_False in H by done. by injection H as <- <- <-. }
  rewrite sBind_own in H by done. destruct (decide (co_kind x = goDataKind)) as [Hk|Hk].
  - injection H as <- <- <-. destruct Hs as [O C I V]. split; [done..|]. simpl. rewrite dom_insert_L, V.
    assert (co_dataID x ∈ declaredIDs p); [|set_solver]. eapply issued_declared; [exact Hp | | done]. apply Hh; [done | congruence].
  - assert (hostile (if decide (co_kind x = goLocationKind) then
        sBind (arguments ec x) (λ a, callHost (reg_set (co_reg x)) (λ f d, f d ec (Clone v) a))
      else sFail (Errorf "statecharts: location expression type mismatch"))) as Hh'.
    { case_decide; [|apply hostile_fail]. apply hostile_bind; [apply hostile_args | intros a; apply hostile_host]. }
    apply Hh' in H as [(O' & C' & I') V']. destruct Hs as [O C I V]. split; congruence.
Qed.

Lemma sBind_keeps {A B} (P : goSession D → Prop) (m : goS A) (k : A → goS (D := D) B) :
  (∀ s, P s → P (m s).1.1) → (∀ a s, P s → P (k a s).1.1) → ∀ s, P s → P (sBind m k s).1.1.
Proof.
  intros Hm Hk s Hs. apply Hm in Hs. unfold sBind. destruct (m s) as [[s1 eff1] [a|e|t]]; simpl in *; [|done..].
  specialize (Hk a s1 Hs). by destruct (k a s1) as [[s2 eff2] o2].
Qed.

Lemma contained_session {A} p h s (r : goSession D * list effect * outcome A) : contained p h s r → sessionOf p r.1.1.
Proof. destruct r as [[s' eff] o]. by intros [H _]. Qed.

Lemma forEachItems_session wireText sum256 owner (m : GoModel D) d p ec (b : IterationBindings (DM := GoDatamodelSession D)) body :
  GoCompile wireText sum256 owner m d = Ok p → unforged p (bind_Item b) → (∀ h, bind_Index b = Some h → unforged p h) →
  (∀ s, sessionOf p s → sessionOf p (body s).1.1) →
  ∀ items i s, sessionOf p s → sessionOf p (goForEachItems ec b body i items s).1.1.
Proof.
  intros Hp Hitem Hindex Hbody items. induction items as [|x items IH]; intros i; simpl; [done|].
  apply sBind_keeps; [intros s Hs; by eapply contained_session, assign_contained|]. intros _. apply sBind_keeps.
  { destruct (bind_Index b) as [h|]; [|done]. intros s Hs. eapply contained_session, assign_contained; [done..|by apply Hindex]. }
  intros _. apply sBind_keeps; [exact Hbody|]. intros _. apply IH.
Qed.

Lemma forEach_contained wireText sum256 owner (m : GoModel D) d p h s ec (b : IterationBindings (DM := GoDatamodelSession D)) body :
  GoCompile wireText sum256 owner m d = Ok p → sessionOf p s → unforged p (bind_Item b) →
  (∀ x, bind_Index b = Some x → unforged p x) →
  (∀ run, body = Some run → ∀ s, sessionOf p s → sessionOf p (run s).1.1) →
  contained p h s (goForEach ec h b body s).
Proof.
  intros Hp Hs Hitem Hindex Hbody. destruct (goForEach ec h b body s) as [[s' eff] o] eqn:E. unfold goForEach in E.
  pose proof E as (Hpan & o' & H)%recoverGo_inv. split_and!; [|done|].
  - change s' with (s', eff, o').1.1. rewrite <- H. clear H E. destruct body as [run|]; [|done]. revert s Hs.
    apply sBind_keeps; [intros s Hs|intros x; apply sBind_keeps; [intros s Hs|intros v]].
    + unfold sAsCompiled, sLift. by destruct (asCompiled h (gs_owner s)).
    + destruct (eval ec x s) as [[s1 e1] o1] eqn:E. apply hostile_eval in E as [(O' & C' & I') V']. destruct Hs as [O C I V]. split; simpl; congruence.
    + destruct (AsList v); [|done]. eapply forEachItems_session; [done..|]. by apply Hbody.
  - intros Hf. destruct body as [run|]; [eapply recoverGo_foreign; [|exact E]; by rewrite (so_owner _ _ Hs)|].
    injection E as <- <- <-. by eauto.
Qed.

(** [DecodeSnapshot] accepts exactly the declared variables. *)
Lemma decode_sessionOf unmarshalSnapshot p b (s s' : goSession D) :
  sessionOf p s → goDecodeSnapshot unmarshalSnapshot b s = Ok s' → sessionOf p s'.
Proof.
  intros Hf H. unfold goDecodeSnapshot in H. apply result_bind_Ok in H as (env & _ & H). apply result_bind_Ok in H as (values & _ & H).
  apply result_bind_Ok in H as ([] & _ & H). destruct values as [values|]; [|done].
  apply result_bind_Ok in H as (od & _ & H). destruct od as [od|]; [|done]. apply result_bind_Ok in H as ([] & Hsize%fail_if_Ok & H).
  apply negb_false_iff, bool_decide_eq_true in Hsize.
  destruct (map_to_list (filter _ values)) as [|[k v] l] eqn:E; [|done]. injection H as <-. apply map_to_list_empty_iff in E.
  destruct Hf as [O C I V]. split; [done..|]. simpl. rewrite dom_fmap_L, <- V.
  assert (dom values ⊆ dom (gs_values s)) as Hsub.
  { intros k Hk. apply elem_of_dom in Hk as [v Hk]. apply elem_of_dom. destruct (gs_values s !! k) as [y|] eqn:Ey; [by eexists|].
    eapply (map_filter_empty_not_lookup _ _ k v) in E; [|exact Ey]. done. }
  apply set_subseteq_size_eq; [done|]. by rewrite !size_dom, Hsize.
Qed.

(** A codec of the application that panics. *)
Definition codecs_contained (s : goSession D) : Prop :=
  (∀ t, codecCall (inspection_Encode (gs_inspectionCodec s)) (gs_data s) = Panicked t →
     Inspect s = Err (Errorf ("statecharts: Go inspection codec panicked: " +:+ t)))
  ∧ (∀ marshalSnapshot t, codecCall (codec_Encode (gs_codec s)) (gs_data s) = Panicked t →
       goEncodeSnapshot marshalSnapshot s = Err (Errorf ("statecharts: Go snapshot codec panicked: " +:+ t)))
  ∧ (∀ unmarshalSnapshot b env values t, unmarshalSnapshot b = Ok env → snap_Version env = 1%Z → snap_Values env = Some values →
       is_Ok (lookupResult (ValueFromWire <$> values)) → codecCall (codec_Decode (gs_codec s)) (snap_Data env) = Panicked t →
       goDecodeSnapshot unmarshalSnapshot b s = Err (Errorf ("statecharts: Go snapshot codec panicked: " +:+ t))).

Lemma codecs_are_contained s : codecs_contained s.
Proof.
  split_and!.
  - intros t E. unfold Inspect. by rewrite E.
  - intros ? t E. unfold goEncodeSnapshot. by rewrite E.
  - intros unmarshalSnapshot b env values t Hb Hv Hvs [vs Hvalues] E. unfold goDecodeSnapshot. rewrite Hb. simpl. rewrite Hvs, Hvalues. simpl.
    rewrite Hv. simpl. by rewrite E.
Qed.

(** C12 (safety): a session contains the application's code.  Whatever its
    callbacks and codecs do, fail, panic or change their data, every operation of
    a session ends in a value or an error, never in a panic: [EvaluateBoolean],
    [EvaluateValue], [Execute], [Assign], [ForEach] (with a body that itself keeps
    to the program's sessions, and may fail or panic), [Inspect], [EncodeSnapshot]
    and [DecodeSnapshot].  Each leaves a session of the same program with exactly
    the declared variables, and the two evaluations and [Execute] leave the
    variables' values alone: only [Assign], [ForEach] and [DecodeSnapshot] set
    them.  A handle of another program or datamodel is refused before anything is
    called. *)
Theorem go_session_contained wireText sum256 (owner : nat) (m : GoModel D) (d : ChartDefinition) (p : goProgram D)
    (s : goSession D) (h : option (goCompiled D)) (ec : ExecContext) (v : Value)
    (b : IterationBindings (DM := GoDatamodelSession D)) (body : option (goS unit)) :
  GoCompile wireText sum256 owner m d = Ok p → sessionOf p s → unforged p h →
  unforged p (bind_Item b) → (∀ x, bind_Index b = Some x → unforged p x) →
  (∀ run, body = Some run → ∀ s, sessionOf p s → sessionOf p (run s).1.1) →
  contained p h s (goEvaluateBoolean ec h s)
  ∧ contained p h s (goEvaluateValue ec h s)
  ∧ contained p h s (goExecute ec h s)
  ∧ contained p h s (goAssign ec h v s)
  ∧ contained p h s (goForEach ec h b body s)
  ∧ codecs_contained s
  ∧ (∀ unmarshalSnapshot bytes s', goDecodeSnapshot unmarshalSnapshot bytes s = Ok s' → sessionOf p s')
  ∧ gs_values (goEvaluateBoolean ec h s).1.1 = gs_values s
  ∧ gs_values (goEvaluateValue ec h s).1.1 = gs_values s
  ∧ gs_values (goExecute ec h s).1.1 = gs_values s.
Proof.
  intros Hp Hs Hh Hitem Hindex Hbody. pose proof (evaluate_boolean_hostile ec h) as Hb. pose proof (evaluate_value_hostile ec h) as Hv.
  pose proof (execute_hostile ec h) as Hx. split_and!.
  - by apply contained_hostile.
  - by apply contained_hostile.
  - by apply contained_hostile.
  - by eapply assign_contained.
  - by eapply forEach_contained.
  - apply codecs_are_contained.
  - intros ? bytes s' H. by eapply decode_sessionOf.
  - destruct (goEvaluateBoolean ec h s) as [[s' eff] o] eqn:E. apply recoverGo_inv in E as (_ & o' & E). by apply Hb in E as [_ ?].
  - destruct (goEvaluateValue ec h s) as [[s' eff] o] eqn:E. apply recoverGo_inv in E as (_ & o' & E). by apply Hv in E as [_ ?].
  - destruct (goExecute ec h s) as [[s' eff] o] eqn:E. apply recoverGo_inv in E as (_ & o' & E). by apply Hx in E as [_ ?].
Qed.
End sessions.

(** ** Variables *)

Section variables.
Context {D : Type}.

Lemma dom_declaredValues ids : dom (declaredValues ids) = list_to_set (C := gset string) ids.
Proof.
  unfold declaredValues. assert (∀ (vs : gmap string Value), dom (foldl (λ vs id, <[id := NullValue]> vs) vs ids) = dom vs ∪ list_to_set ids) as H.
  { induction ids as [|id ids IH]; intros vs; simpl; [set_solver|]. rewrite IH, dom_insert_L. set_solver. }
  rewrite H. set_solver.
Qed.

Lemma NewSession_sessionOf (p : goProgram D) s : NewSession p = Ok s → sessionOf p s.
Proof.
  unfold NewSession. intros (d & _ & H)%result_bind_Ok. destruct d as [d|]; [|done]. injection H as <-.
  split; [done..|]. simpl. apply dom_declaredValues.
Qed.

Lemma location_handle wireText sum256 owner (m : GoModel D) d p id x :
  GoCompile wireText sum256 owner m d = Ok p → goResolveDataLocation p id = Ok x →
  x = mkGoCompiled (gp_owner p) goDataKind zeroRegistration [] NullValue id.
Proof.
  intros (<- & c & [_ _ F3] & _ & _ & _ & El)%program_faithful. unfold goResolveDataLocation. rewrite El.
  destruct (gc_dataLocations c !! id) as [y|] eqn:E; [|done]. intros [= ->]. by apply F3 in E as [-> _].
Qed.

Lemma read_variable ec owner id (s : goSession D) :
  gs_owner s = owner →
  goEvaluateValue ec (Some (mkGoCompiled owner goDataKind zeroRegistration [] NullValue id)) s
  = (s, [], Returned (default NullValue (gs_values s !! id))).
Proof.
  intros H. unfold goEvaluateValue, recoverGo. rewrite sBind_own by done. simpl. unfold sBind. simpl. by rewrite !Clone_id.
Qed.

(** The variables of a session behave as variables.  Assigning
    through the location of a declared ID succeeds without calling anything and
    leaves the application's data alone; reading that location afterwards returns
    the assigned value, and reading any other returns what it did before. *)
Theorem go_assign_reads wireText sum256 (owner : nat) (m : GoModel D) (d : ChartDefinition) (p : goProgram D)
    (s : goSession D) (id : Identifier) (x : goCompiled D) (ec : ExecContext) (v : Value) :
  GoCompile wireText sum256 owner m d = Ok p → sessionOf p s → goResolveDataLocation p id = Ok x →
  ∃ s', goAssign ec (Some x) v s = (s', [], Returned ())
    ∧ gs_data s' = gs_data s
    ∧ goEvaluateValue ec (Some x) s' = (s', [], Returned v)
    ∧ ∀ id' y, id' ≠ id → goResolveDataLocation p id' = Ok y →
        (goEvaluateValue ec (Some y) s').2 = (goEvaluateValue ec (Some y) s).2.
Proof.
  intros Hp [O _ _ _] ->%(location_handle _ _ _ _ _ _ _ _ Hp).
  exists (set_values (<[id := v]> (gs_values s)) s). split_and!.
  - unfold goAssign, recoverGo. rewrite sBind_own by done. simpl. by rewrite Clone_id.
  - done.
  - rewrite read_variable by done. simpl. by rewrite lookup_insert_eq.
  - intros id' y Hne ->%(location_handle _ _ _ _ _ _ _ _ Hp). rewrite !read_variable by done. simpl. by rewrite lookup_insert_ne.
Qed.
End variables.

(** ** Wires up to the order of map entries

    A map of a wire is a Go map: [encoding/json] writes its entries sorted by
    their keys, and reads them back into a map that has no order. *)

Inductive sameWire : ValueWire → ValueWire → Prop :=
| same_wire v k b s n l l' m m' t q q' :
    option_Forall2 (Forall2 sameWire) l l' →
    option_Forall2 (λ m m', NoDup m'.*1 ∧ ∀ k, option_Forall2 sameWire (assoc k m) (assoc k m')) m m' →
    option_Forall2 sameWire q q' →
    sameWire (mkWire v k b s n l m t q) (mkWire v k b s n l' m' t q').

Lemma assoc_NoDup {A} k (m : list (string * A)) a : NoDup m.*1 → (k, a) ∈ m → assoc k m = Some a.
Proof.
  induction m as [|[k' x] m IH]; simpl; [by intros _ ?%elem_of_nil|].
  intros [Hk Hm]%NoDup_cons [[= -> ->]|Hin]%elem_of_cons; [by rewrite decide_True|].
  rewrite decide_False; [by apply IH|]. intros <-. apply Hk. by apply (list_elem_of_fmap_2 fst _ (k, a)).
Qed.

Lemma result_assoc_lookup {A B} (f : A → result B) m ws k : result_assoc f m = Ok ws →
  match assoc k ws with
  | Some b => ValidString k = true ∧ ∃ a, assoc k m = Some a ∧ f a = Ok b
  | None => assoc k m = None
  end.
Proof.
  revert ws. induction m as [|[k' a] m IH]; simpl; [by intros ws [= <-]|]. intros ws. destruct (ValidString k') eqn:Hv; [|done].
  intros (b & Hb & (r & Hr & [= <-])%result_bind_Ok)%result_bind_Ok. simpl. case_decide as Hk; [|by apply IH]. subst. eauto.
Qed.

Lemma result_assoc_all {A B} (f : A → result B) m :
  (∀ k a, (k, a) ∈ m → ValidString k = true ∧ is_Ok (f a)) → is_Ok (result_assoc f m).
Proof.
  induction m as [|[k a] m IH]; intros H; simpl; [by eexists|]. destruct (H k a) as [-> [b ->]]; [by left|].
  destruct IH as [ws Hws]; [|simpl; rewrite Hws; by eexists]. intros k' a' Hin. apply H. by right.
Qed.

Lemma sameWire_list l ws l' : Forall (λ v, ∀ w w', Wire v = Ok w → sameWire w w' → ∃ v', ValueFromWire w' = Ok v' ∧ same v v') l →
  result_list Wire l = Ok ws → Forall2 sameWire ws l' → ∃ vs', result_list ValueFromWire l' = Ok vs' ∧ Forall2 same l vs'.
Proof.
  intros Hall. revert ws l'. induction Hall as [|v l Hv _ IH]; intros ws l'; simpl.
  - intros [= <-] H%Forall2_nil_inv_l. subst. by exists [].
  - intros (w & Hw & (r & Hr & [= <-])%result_bind_Ok)%result_bind_Ok (w' & r' & Hsw & Hsr & ->)%Forall2_cons_inv_l.
    destruct (Hv w w' Hw Hsw) as (v' & Hv' & Hs). destruct (IH r r' Hr Hsr) as (vs' & Hvs & Hss). exists (v' :: vs').
    simpl. rewrite Hv'. simpl. rewrite Hvs. split; [done | by constructor].
Qed.

(** The other wire of a scalar. *)
Ltac same_scalar :=
  let H := fresh in
  intros H; inversion H as [? ? ? ? ? ? ? ? ? ? ? ? Hl Hm Hq]; subst; inversion Hl; inversion Hm; inversion Hq; subst; simpl.

(** What is read of a value's wire is the value, up to that order. *)
Lemma sameWire_value v w w' : Wire v = Ok w → sameWire w w' → ∃ v', ValueFromWire w' = Ok v' ∧ same v v'.
Proof.
  revert w w'. induction v as [|b|s|s|l IH|m IH|tag p IH] using Value_nested_ind; intros w w'; simpl.
  - intros [= <-]. same_scalar. by eexists.
  - intros [= <-]. same_scalar. by eexists.
  - destruct (ValidString s) eqn:Hs; [|done]. intros [= <-]. same_scalar. unfold StringValue. rewrite Hs. by eexists.
  - case_decide as Hc; [|done]. intros [= <-]. same_scalar. unfold NumberValue. rewrite Hc. by eexists.
  - intros (ws & Hws & [= <-])%result_bind_Ok H. inversion H as [? ? ? ? ? ? l' ? m' ? ? q' Hl Hm Hq]; subst.
    inversion Hl as [? ls Hls|]; inversion Hm; inversion Hq; subst. destruct (sameWire_list l ws ls IH Hws Hls) as (vs & Hvs & Hss).
    simpl. rewrite Hvs. eexists. split; [done | by constructor].
  - intros (ws & Hws & [= <-])%result_bind_Ok H. inversion H as [? ? ? ? ? ? l' ? m' ? ? q' Hl Hm Hq]; subst.
    inversion Hl; inversion Hm as [? ms [Hnd Hms]|]; inversion Hq; subst.
    assert (∀ k w, assoc k ms = Some w → ValidString k = true ∧ ∃ v v', assoc k m = Some v ∧ ValueFromWire w = Ok v' ∧ same v v') as Hent.
    { intros k w1 Hw1. specialize (Hms k). rewrite Hw1 in Hms. pose proof (result_assoc_lookup Wire m ws k Hws) as Hk.
      destruct (assoc k ws) as [w0|]; [|by inversion Hms]. destruct Hk as (Hvk & v & Hv & Hwv). split; [done|].
      rewrite Forall_forall in IH. destruct (IH _ (assoc_elem _ _ _ Hv) w0 w1) as (v' & ? & ?); [done | by inversion Hms | eauto]. }
    destruct (result_assoc_all ValueFromWire ms) as [mv Hmv].
    { intros k w1 Hin. apply (assoc_NoDup _ _ _ Hnd) in Hin. destruct (Hent _ _ Hin) as (? & ? & ? & _ & ? & _). split; [done | by eexists]. }
    simpl. rewrite Hmv. eexists. split; [done|]. constructor. intros k. specialize (Hms k).
    pose proof (result_assoc_lookup _ _ _ k Hmv) as Hk. pose proof (result_assoc_lookup _ _ _ k Hws) as Hkw.
    destruct (assoc k mv) as [v'|].
    + destruct Hk as (_ & w1 & Hw1 & Hv'). destruct (Hent _ _ Hw1) as (_ & v & v'' & -> & Hv'' & Hs).
      constructor. congruence.
    + rewrite Hk in Hms. destruct (assoc k ws); [by inversion Hms|]. rewrite Hkw. constructor.
  - case_decide as Ht; [done|]. destruct (ValidString tag) eqn:Hs; [|done].
    intros (ws & Hws & [= <-])%result_bind_Ok H. inversion H as [? ? ? ? ? ? l' ? m' ? ? q' Hl Hm Hq]; subst.
    inversion Hl; inversion Hm; inversion Hq as [? w1 Hw1|]; subst. destruct (IH ws w1 Hws Hw1) as (v' & Hv' & Hsv).
    simpl. rewrite decide_False, Hs, Hv' by done. eexists. split; [done | by constructor].
Qed.

Lemma assoc_Forall2 {A} (R : relation A) (m : list (string * A)) k : Forall (λ kx, R kx.2 kx.2) m → option_Forall2 R (assoc k m) (assoc k m).
Proof.
  intros H. destruct (assoc k m) as [x|] eqn:E; constructor. rewrite Forall_forall in H. exact (H _ (assoc_elem _ _ _ E)).
Qed.

(** A value whose maps are maps has a wire that may be read back as it is. *)
Lemma sameWire_refl v w : Wire v = Ok w → distinctKeys v = true → sameWire w w.
Proof.
  revert w. induction v as [|b|s|s|l IH|m IH|tag p IH] using Value_nested_ind; intros w; simpl.
  1-2: intros [= <-] _; repeat constructor.
  - destruct (ValidString s); [|done]. intros [= <-] _. repeat constructor.
  - case_decide; [|done]. intros [= <-] _. repeat constructor.
  - intros (ws & Hws & [= <-])%result_bind_Ok Hd. repeat constructor. revert ws Hws Hd.
    induction IH as [|v l Hv _ IHl]; simpl; [by intros ws [= <-]; constructor|].
    intros ws (w & Hw & (r & Hr & [= <-])%result_bind_Ok)%result_bind_Ok [H1 H2]%andb_true_iff. constructor; auto.
  - intros (ws & Hws & [= <-])%result_bind_Ok [Hn%bool_decide_eq_true Hd]%andb_true_iff. constructor; [constructor| |constructor].
    constructor. split; [by rewrite (result_assoc_keys _ _ _ Hws)|]. intros k. apply assoc_Forall2. clear Hn. revert ws Hws Hd.
    induction IH as [|[k' v] m Hv _ IHm]; simpl; [by intros ws [= <-]; constructor|]. intros ws. destruct (ValidString k'); [|done].
    intros (w & Hw & (r & Hr & [= <-])%result_bind_Ok)%result_bind_Ok [H1 H2]%andb_true_iff. constructor; simpl in *; auto.
  - case_decide; [done|]. destruct (ValidString tag); [|done]. intros (w' & Hw & [= <-])%result_bind_Ok Hd. repeat constructor. auto.
Qed.

(** ** Snapshots *)

Lemma lookupResult_Ok {A} (m : gmap string (result A)) m' : lookupResult m = Ok m' ↔ m = Ok <$> m'.
Proof.
  unfold lookupResult. split.
  - intros (pairs & H%result_mapM_Ok & [= <-])%result_bind_Ok. rewrite <- list_to_map_fmap.
    rewrite <- (list_to_map_to_list m) at 1. f_equal.
    induction H as [|[k r] [k' v] l pairs Hr _ IH]; [done|]. simpl. destruct r; simpl in Hr; [|done]. injection Hr as <- <-.
    by rewrite IH.
  - intros ->. rewrite map_to_list_fmap.
    assert (result_mapM (λ '(k, r), v ← r; Ok (k, v)) (prod_map id Ok <$> map_to_list m') = Ok (map_to_list m')) as ->.
    { induction (map_to_list m') as [|[k v] l IH]; [done|]. cbn. cbn in IH. by rewrite IH. }
    simpl. by rewrite list_to_map_to_list.
Qed.

Section snapshots.
Context {D : Type}.
Variable marshalSnapshot : goSnapshot → string.
Variable unmarshalSnapshot : string → result goSnapshot.

(** The envelopes that a session writes: the keys of the map are valid UTF-8, and
    the values are wires of values in which no map repeats a key. *)
Definition writable (env : goSnapshot) : Prop :=
  snap_Version env = 1%Z ∧ ∀ ws k w, snap_Values env = Some ws → ws !! k = Some w → ValidString k = true ∧ ∃ v, Wire v = Ok w ∧ distinctKeys v = true.

(** The same envelope, up to the order of map entries. *)
Definition sameEnvelope (env env' : goSnapshot) : Prop :=
  snap_Version env' = snap_Version env ∧ snap_Data env' = snap_Data env
  ∧ option_Forall2 (λ ws ws' : gmap string ValueWire, ∀ k, option_Forall2 sameWire (ws !! k) (ws' !! k)) (snap_Values env) (snap_Values env').

(** [encoding/json] reads back the envelope that it has written, up to the order
    of map entries. *)
Definition envelope_lawful : Prop :=
  ∀ env, writable env → ∃ env', unmarshalSnapshot (marshalSnapshot env) = Ok env' ∧ sameEnvelope env env'.

(** The application's codec reads back what it has written. *)
Definition codec_lawful (c : GoSnapshotCodec D) : Prop :=
  ∀ d b, codecCall (codec_Encode c) d = Returned b → codecCall (codec_Decode c) b = Returned (Some d).

Definition valid_ids (p : goProgram D) : Prop := ∀ id, id ∈ declaredIDs p → ValidString id = true.

Lemma compiled_valid_ids wireText sum256 owner (m : GoModel D) d n p :
  normalizeDefinition d = Ok n → GoCompile wireText sum256 owner m n = Ok p → valid_ids p.
Proof. intros Hn Hp id Hid. eapply declared_plain in Hid; [|done..]. by apply plain_ascii in Hid as [?%ascii_valid _]. Qed.

Lemma recovered_Ok {A} what (o : outcome A) a : asResult (recovered what o) = Ok a → o = Returned a.
Proof. destruct o; simpl; by intros [=<-]. Qed.

(** The maps of the session's variables are maps. *)
Definition distinct_values (s : goSession D) : Prop := ∀ id v, gs_values s !! id = Some v → distinctKeys v = true.

(** What an envelope is decoded to when its values are those of a session of the
    program. *)
Lemma decode_envelope p (fresh : goSession D) b env ws (vs : gmap string Value) d :
  sessionOf p fresh → unmarshalSnapshot b = Ok env → snap_Version env = 1%Z → snap_Values env = Some ws →
  ValueFromWire <$> ws = Ok <$> vs → dom vs = declaredIDs p → codecCall (codec_Decode (gp_codec p)) (snap_Data env) = Returned (Some d) →
  goDecodeSnapshot unmarshalSnapshot b fresh = Ok (set_values vs (set_data d fresh)).
Proof using Type.
  intros [O C I V] Hb Hv Hws Hvs Hdom Hd. unfold goDecodeSnapshot. rewrite Hb. simpl. rewrite Hws, (proj2 (lookupResult_Ok _ vs) Hvs). simpl.
  rewrite Hv. simpl. rewrite C, Hd. simpl. rewrite bool_decide_true by by rewrite <- !(size_dom (D := gset string)), V, Hdom. simpl.
  assert (map_to_list (filter (λ '(id, _), gs_values fresh !! id = None) vs) = []) as ->.
  { apply map_to_list_empty_iff, map_eq. intros k. rewrite lookup_empty. apply map_lookup_filter_None. right. intros v Hk Hnone.
    apply (not_elem_of_dom_2 (D := gset string)) in Hnone. rewrite V, <- Hdom in Hnone. apply Hnone. by apply elem_of_dom. }
  do 2 f_equal. etrans; [|apply map_fmap_id]. apply map_fmap_ext. intros k v _. apply Clone_id.
Qed.

(** What is written of a session. *)
Lemma encode_envelope p (s : goSession D) b :
  valid_ids p → sessionOf p s → distinct_values s → goEncodeSnapshot marshalSnapshot s = Ok b →
  ∃ data ws, b = marshalSnapshot (mkGoSnapshot 1 data (Some ws)) ∧ writable (mkGoSnapshot 1 data (Some ws))
    ∧ codecCall (codec_Encode (gp_codec p)) (gs_data s) = Returned data
    ∧ ∀ k, option_Forall2 (λ v w, Wire v = Ok w) (gs_values s !! k) (ws !! k).
Proof using Type.
  intros Hids [O C I V] Hdist H. unfold goEncodeSnapshot in H. apply result_bind_Ok in H as (data & Hd%recovered_Ok & H).
  apply result_bind_Ok in H as (ws & Hws%lookupResult_Ok & [= <-]). exists data, ws. rewrite C in Hd.
  assert (∀ k, option_Forall2 (λ v w, Wire v = Ok w) (gs_values s !! k) (ws !! k)) as Hall.
  { intros k. apply (f_equal (lookup k)) in Hws. rewrite !(lookup_fmap (M := gmap string)) in Hws.
    destruct (gs_values s !! k) as [v|], (ws !! k) as [w|]; simplify_eq/=; constructor. by rewrite Clone_id in Hws. }
  split_and!; [done | | done..]. split; [done|]. intros ws' k w [= <-] Hw. simpl in Hw. specialize (Hall k). rewrite Hw in Hall.
  destruct (gs_values s !! k) as [v|] eqn:Ev; [|by inversion Hall]. split.
  - apply Hids. rewrite <- V. apply elem_of_dom. by eexists.
  - exists v. split; [by inversion Hall | by eapply Hdist].
Qed.

Lemma decode_encode_session p (s fresh : goSession D) b : envelope_lawful →
  codec_lawful (gp_codec p) → valid_ids p → sessionOf p s → sessionOf p fresh → distinct_values s →
  goEncodeSnapshot marshalSnapshot s = Ok b →
  ∃ s', goDecodeSnapshot unmarshalSnapshot b fresh = Ok s' ∧ gs_data s' = gs_data s
    ∧ ∀ k, option_Forall2 same (gs_values s !! k) (gs_values s' !! k).
Proof using Type.
  intros Henv Hlaw Hids Hs Hf Hdist (data & ws & -> & Hw & Hd & Hws)%(encode_envelope p); [|done..].
  destruct (Henv _ Hw) as (env' & Hb & E1 & E2 & Hvalues). destruct (snap_Values env') as [ws'|] eqn:Ews; [|by inversion Hvalues].
  assert (∀ k, option_Forall2 sameWire (ws !! k) (ws' !! k)) as Hsame by (by inversion Hvalues).
  assert (∀ k, option_Forall2 (λ v w', ∃ v', ValueFromWire w' = Ok v' ∧ same v v') (gs_values s !! k) (ws' !! k)) as Hread.
  { intros k. specialize (Hws k). specialize (Hsame k). destruct (gs_values s !! k) as [v|], (ws !! k) as [w|]; [|by inversion Hws..|].
    - destruct (ws' !! k) as [w'|]; [|by inversion Hsame]. constructor. inversion Hws; subst. inversion Hsame; subst. by eapply sameWire_value.
    - inversion Hsame; subst. constructor. }
  assert (∃ vs, ValueFromWire <$> ws' = Ok <$> vs ∧ ∀ k, option_Forall2 same (gs_values s !! k) (vs !! k)) as (vs & Hvs & Hrel).
  { exists (omap (λ w, match ValueFromWire w with Ok v => Some v | Err _ => None end) ws'). split.
    - apply map_eq. intros k. rewrite !lookup_fmap, lookup_omap. specialize (Hread k). destruct (ws' !! k) as [w'|]; [|done].
      destruct (gs_values s !! k) as [v|]; [|by inversion Hread]. inversion Hread as [? ? (v' & Hv' & _)|]; subst. simpl. by rewrite Hv'.
    - intros k. rewrite lookup_omap. specialize (Hread k). destruct Hread as [v w' (v' & Hv' & Hs')|]; simpl; [rewrite Hv'; by constructor | constructor]. }
  eexists. split; [|split].
  - eapply (decode_envelope p fresh _ env' ws' vs (gs_data s)); [done | exact Hb | exact E1 | done | exact Hvs | |].
    + rewrite <- (so_values _ _ Hs). apply set_eq. intros k. rewrite !elem_of_dom. specialize (Hrel k). inversion Hrel; split; eauto; by intros [? ?].
    + rewrite E2. by apply Hlaw.
  - done.
  - exact Hrel.
Qed.

(** C14 (roundtrip): a snapshot restores a session.  What [EncodeSnapshot] wrote
    of a session, [DecodeSnapshot] reads in any session of the same program, and
    the result has the application's data and every variable of the session that
    was encoded, up to the order of map entries, which a Go map does not have.
    It is assumed that the application's snapshot codec is lossless (it decodes
    what it encoded to the same data) and that [encoding/json] reads back the
    envelope, up to that order.  Of arbitrary bytes, [DecodeSnapshot] accepts only
    those that define exactly the declared variables. *)
Theorem go_snapshot_restores wireText sum256 (owner : nat) (m : GoModel D) (d n : ChartDefinition) (p : goProgram D)
    (s fresh : goSession D) :
  envelope_lawful → normalizeDefinition d = Ok n → GoCompile wireText sum256 owner m n = Ok p →
  codec_lawful (gp_codec p) → sessionOf p s → sessionOf p fresh → distinct_values s →
  (∀ b, goEncodeSnapshot marshalSnapshot s = Ok b →
     ∃ s', goDecodeSnapshot unmarshalSnapshot b fresh = Ok s' ∧ sessionOf p s' ∧ gs_data s' = gs_data s
       ∧ ∀ id, option_Forall2 same (gs_values s !! id) (gs_values s' !! id))
  ∧ (∀ b s', goDecodeSnapshot unmarshalSnapshot b fresh = Ok s' → sessionOf p s').
Proof using Type.
  intros Henv Hn Hp Hlaw Hs Hf Hdist. pose proof (compiled_valid_ids _ _ _ _ _ _ _ Hn Hp) as Hids. split.
  - intros b Hb. destruct (decode_encode_session p s fresh b) as (s' & H1 & H2 & H3); [done..|].
    exists s'. split_and!; [done | by eapply decode_sessionOf | done..].
  - intros b s'. by apply decode_sessionOf.
Qed.
End snapshots.

(** ** The fingerprint *)

Lemma Split_no_byte c s : ContainsByte c s = false → Split c s = [s].
Proof.
  induction s as [|a s IH]; simpl; [done|]. rewrite orb_false_iff, bool_decide_eq_false. intros [Ha Hs].
  rewrite decide_False by done. by rewrite IH.
Qed.

Lemma zeroByte_inj k k' t t' :
  ContainsByte Ascii.zero t = false → ContainsByte Ascii.zero t' = false →
  k +:+ zeroByte +:+ t = k' +:+ zeroByte +:+ t' → k = k' ∧ t = t'.
Proof.
  intros Ht Ht' H. apply (f_equal (Split Ascii.zero)) in H. change (zeroByte +:+ t) with (String Ascii.zero t) in H.
  change (zeroByte +:+ t') with (String Ascii.zero t') in H. rewrite !Split_app_sep, (Split_no_byte _ t), (Split_no_byte _ t') in H by done.
  apply app_inj_tail in H as [H ->]. split; [|done]. by rewrite <- (Join_Split Ascii.zero k), H, Join_Split.
Qed.

Lemma framed_inj l l' : foldr (λ k s, framed k +:+ s) "" l = foldr (λ k s, framed k +:+ s) "" l' → l = l'.
Proof.
  assert (∀ k s, framed k +:+ s ≠ "") as Hne.
  { intros k s. unfold framed, itoa. destruct (pretty_N_head (N.of_nat (String.length k))) as (a & t & -> & _).
    by rewrite !string_app_cons. }
  revert l'. induction l as [|k l IH]; intros [|k' l']; simpl; [done | by intros H; destruct (Hne k' _ (eq_sym H)) | by intros H; destruct (Hne k _ H)|].
  unfold framed. rewrite !string_app_assoc. intros [Hl H]%frame_inj. apply string_app_inj_length in H as [-> H]; [|lia].
  f_equal. by apply IH.
Qed.

(** No kind of a registration has a zero byte. *)
Definition plain_kinds (used : gmap string Identifier) : Prop := ∀ k kind, used !! k = Some kind → ContainsByte Ascii.zero kind = false.

Lemma elem_of_usedKeys used x : x ∈ usedKeys used ↔ ∃ k kind, used !! k = Some kind ∧ x = k +:+ zeroByte +:+ kind.
Proof.
  unfold usedKeys. rewrite merge_sort_Permutation. change (map ?f ?l) with (f <$> l). rewrite list_elem_of_fmap. split.
  - intros ([k kind] & -> & H%elem_of_map_to_list). eauto.
  - intros (k & kind & H & ->). exists (k, kind). split; [done | by apply elem_of_map_to_list].
Qed.

Lemma fingerprintMaterial_inj used used' :
  plain_kinds used → plain_kinds used' → fingerprintMaterial used = fingerprintMaterial used' → used = used'.
Proof.
  intros H1 H2 H. unfold fingerprintMaterial in H. do 2 apply string_app_inj_l in H. apply framed_inj in H.
  assert (∀ u u', plain_kinds u → plain_kinds u' → usedKeys u = usedKeys u' → ∀ k kind, u !! k = Some kind → u' !! k = Some kind) as Hsub.
  { intros u u' P P' E k kind Hk. assert (k +:+ zeroByte +:+ kind ∈ usedKeys u') as Hin by (rewrite <- E; apply elem_of_usedKeys; eauto).
    apply elem_of_usedKeys in Hin as (k' & kind' & Hk' & Eq). apply zeroByte_inj in Eq as [-> ->]; [done | by eapply P | by eapply P']. }
  apply map_eq. intros k. destruct (used !! k) as [x|] eqn:E.
  - symmetry. by apply (Hsub used used').
  - destruct (used' !! k) as [y|] eqn:E'; [|done]. apply (Hsub used' used) in E'; [congruence | done..].
Qed.

(** ** The registrations that a definition mentions *)

(** The expressions of a definition, by the places where one may be.  A call is
    the script expression of its function; the item and the index of a loop are
    names of data. *)
Definition optional (es : list (option Expression)) : list Expression := concat (map (from_option (λ e, [e]) []) es).

Definition paramExpressions (qs : list ParamDefinition) : list Expression := concat (map (λ q, optional [pd_Expr q; pd_Location q]) qs).

(** The initialiser of a datum is its expression or else its content. *)
Definition dataExpressions (ds : list DataDefinition) : list Expression :=
  concat (map (λ d, optional [match da_Expr d with Some e => Some e | None => da_Content d end]) ds).

Definition sendExpressions (s : SendDefinition) : list Expression :=
  optional [sn_EventExpr s; sn_TargetExpr s; sn_TypeExpr s; sn_DelayExpr s; sn_Content s; sn_IDLocation s] ++ paramExpressions (sn_Params s).

Definition callExpression (f : FunctionRef) : Expression := mkExpression goScriptKind (encodedGoRef f).

Definition nestedExpressions (f : Executable → list Expression) (bs : list ExecutableBlock) : list Expression :=
  concat (map (λ b, concat (map f b)) bs).

Fixpoint executableExpressions (e : Executable) : list Expression :=
  let 'mkExecutable k raise send cancel log assign choose foreach script call extension := e in
  if decide (k = ExecutableRaise) then from_option (λ r, optional [rd_EventExpr r; rd_Data r]) [] raise
  else if decide (k = ExecutableSend) then from_option sendExpressions [] send
  else if decide (k = ExecutableCancel) then from_option (λ x, optional [cn_SendIDExpr x]) [] cancel
  else if decide (k = ExecutableLog) then from_option (λ l, optional [lg_LabelExpr l; lg_Expr l]) [] log
  else if decide (k = ExecutableAssign) then from_option (λ a, [as_Location a; as_Expr a]) [] assign
  else if decide (k = ExecutableScript) then from_option (λ s, [sc_Expr s]) [] script
  else if decide (k = ExecutableCall) then from_option (λ x, [callExpression (cl_Function x)]) [] call
  else if decide (k = ExecutableForEach) then
    match foreach with
    | Some (mkForEach array item index actions) => array :: nestedExpressions executableExpressions actions
    | None => []
    end
  else if decide (k = ExecutableChoose) then
    match choose with
    | Some (mkChoose branches otherwise) =>
        concat (map (λ '(mkBranch cond actions), cond :: nestedExpressions executableExpressions actions) branches)
        ++ nestedExpressions executableExpressions otherwise
    | None => []
    end
  else [].

Definition blockExpressions : list ExecutableBlock → list Expression := nestedExpressions executableExpressions.

Definition transitionExpressions (t : TransitionDefinition) : list Expression :=
  optional [td_Condition t] ++ blockExpressions (td_Actions t).

Definition invokeExpressions (v : InvokeDefinition) : list Expression :=
  optional [id_TypeExpr v; id_SrcExpr v; id_Content v; id_IDLocation v] ++ paramExpressions (id_Params v) ++ blockExpressions (id_Finalize v).

Definition doneDataExpressions (d : DoneDataDefinition) : list Expression := paramExpressions (dn_Params d) ++ optional [dn_Content d].

Fixpoint stateExpressions (s : StateDefinition) : list Expression :=
  dataExpressions (sd_Data s) ++ from_option transitionExpressions [] (sd_Initial s)
  ++ blockExpressions (sd_OnEntry s ++ sd_OnExit s) ++ concat (map transitionExpressions (sd_Transitions s))
  ++ concat (map invokeExpressions (sd_Invokes s)) ++ from_option doneDataExpressions [] (sd_DoneData s)
  ++ concat (map stateExpressions (sd_Children s)).

Definition definitionExpressions (d : ChartDefinition) : list Expression := dataExpressions (df_Data d) ++ stateExpressions (df_Root d).

(** A reference mentions the function of its name and version, with the kind of
    the expression, and what its arguments mention. *)
Inductive mentions : Expression → string → Identifier → Prop :=
| mentions_function e ref : xp_Kind e ≠ goLiteralKind → xp_Kind e ≠ goDataKind → decodeGoRef (xp_Data e) = Ok ref →
    mentions e (registrationKey (fr_Name ref) (fr_Version ref)) (xp_Kind e)
| mentions_argument e ref a k kind : xp_Kind e ≠ goLiteralKind → xp_Kind e ≠ goDataKind → decodeGoRef (xp_Data e) = Ok ref →
    a ∈ fr_Args ref → mentions a k kind → mentions e k kind.

Definition uses (d : ChartDefinition) (k : string) (kind : Identifier) : Prop :=
  ∃ e, e ∈ definitionExpressions d ∧ mentions e k kind.

Section fingerprint.
Context {D : Type}.
Variable wireText : ValueWire → string.

Section collects.
Variable registry : gmap string (goRegistration D).
Variable owner : nat.

(** What is marked as used is registered with that kind. *)
Definition registered (c : goCompile D) : Prop := ∀ k kind, gc_used c !! k = Some kind → reg_kind <$> registry !! k = Some kind.

(** A successful [m] marks what the expressions [es] mention, and nothing else. *)
Definition collects {A} (es : list Expression) (m : goM (D := D) A) : Prop :=
  ∀ c a c', m c = Ok (a, c') → registered c →
    registered c' ∧ ∀ k kind, gc_used c' !! k = Some kind ↔ gc_used c !! k = Some kind ∨ ∃ e, e ∈ es ∧ mentions e k kind.

Lemma collects_same {A} (m : goM A) : (∀ c a c', m c = Ok (a, c') → gc_used c' = gc_used c) → collects [] m.
Proof using Type.
  intros H c a c' E%H Hc. unfold registered. rewrite E. split; [done|]. intros k kind. split; [by left|].
  intros [?|(e & He%elem_of_nil & _)]; [done | destruct He].
Qed.

Lemma collects_equiv {A} es es' (m : goM A) : (∀ e, e ∈ es ↔ e ∈ es') → collects es m → collects es' m.
Proof using Type. intros He Hm c a c' H Hc. destruct (Hm c a c' H Hc) as [H1 H2]. split; [done|]. intros k kind. rewrite H2. set_solver. Qed.

Lemma collects_ret {A} (a : A) : collects [] (goRet a).
Proof using Type. apply collects_same. by intros c b c' [= <- <-]. Qed.
Lemma collects_fail {A} es e : collects es (goFail (A := A) e).
Proof using Type. by intros c b c'. Qed.
Lemma collects_isDeclared id : collects [] (isDeclared id).
Proof using Type. apply collects_same. by intros c b c' [= <- <-]. Qed.

Lemma collects_bind {A B} es es' (m : goM A) (f : A → goM B) :
  collects es m → (∀ a, collects es' (f a)) → collects (es ++ es') (goBind m f).
Proof using Type.
  intros Hm Hf c b c'' (a & c' & H1 & H2)%goBind_Ok Hc. destruct (Hm _ _ _ H1 Hc) as [Hc' E1]. destruct (Hf _ _ _ _ H2 Hc') as [Hc'' E2].
  split; [done|]. intros k kind. rewrite E2, E1. set_solver.
Qed.

(** A bind whose second part marks nothing. *)
Lemma collects_bind_l {A B} es (m : goM A) (f : A → goM B) : collects es m → (∀ a, collects [] (f a)) → collects es (goBind m f).
Proof using Type. intros Hm Hf. rewrite <- (app_nil_r es). by apply collects_bind. Qed.

Lemma collects_each {A} (g : A → list Expression) (f : A → goM unit) xs :
  (∀ x, x ∈ xs → collects (g x) (f x)) → collects (concat (map g xs)) (goEach f xs).
Proof using Type.
  induction xs as [|x xs IH]; intros H; simpl; [apply collects_ret|]. apply collects_bind; [apply H; left|]. intros _. apply IH.
  intros y Hy. apply H. by right.
Qed.

Lemma collects_when {A} (g : A → list Expression) (o : option A) f :
  (∀ a, o = Some a → collects (g a) (f a)) → collects (from_option g [] o) (goWhen o f).
Proof using Type. destruct o; simpl; intros H; [by apply H | apply collects_ret]. Qed.
Lemma collects_deref {A} (g : A → list Expression) (o : option A) f :
  (∀ a, o = Some a → collects (g a) (f a)) → collects (from_option g [] o) (goDeref o f).
Proof using Type. destruct o; simpl; intros H; [by apply H | apply collects_fail]. Qed.

Lemma collects_expression_with (r : Expression → goM (goCompiled D)) e cat : collects [e] (r e) → collects [e] (expression_with wireText r e cat).
Proof using Type.
  intros Hr. apply collects_bind_l; [done|]. intros x. destruct (validIn cat (co_kind x)); [|apply collects_fail].
  apply collects_same. by intros c a c' ([] & c1 & [= <-] & [= <- <-])%goBind_Ok.
Qed.

Lemma collects_args (r : Expression → goM (goCompiled D)) i args : (∀ e, collects [e] (r e)) → collects args (compileArgs wireText r i args).
Proof using Type.
  intros Hr. revert i. induction args as [|a args IH]; intros i; cbn [compileArgs]; [apply collects_ret|].
  change (a :: args) with ([a] ++ args). apply collects_bind.
  - intros c x c'. destruct (expression_with wireText r a catValue c) as [[y c1]|] eqn:E; [|done]. intros [= <- <-].
    by eapply collects_expression_with.
  - intros x. apply collects_bind_l; [apply IH | intros xs; apply collects_ret].
Qed.

Lemma mentions_ref e ref k kind : xp_Kind e ≠ goLiteralKind → xp_Kind e ≠ goDataKind → decodeGoRef (xp_Data e) = Ok ref →
  mentions e k kind ↔ (k = registrationKey (fr_Name ref) (fr_Version ref) ∧ kind = xp_Kind e) ∨ ∃ a, a ∈ fr_Args ref ∧ mentions a k kind.
Proof using Type.
  intros N1 N2 Href. split.
  - destruct 1 as [e ref' _ _ E|e ref' a k kind _ _ E Ha Hm]; rewrite Href in E; injection E as <-; [by left | right; eauto].
  - intros [[-> ->]|(a & Ha & Hm)]; [by constructor | by eapply mentions_argument].
Qed.

Lemma mentions_plain e k kind : xp_Kind e = goLiteralKind ∨ xp_Kind e = goDataKind → ¬ mentions e k kind.
Proof using Type. intros H Hm. destruct Hm; naive_solver. Qed.

(** An expression that mentions nothing. *)
Lemma collects_plain {A} e (m : goM A) : xp_Kind e = goLiteralKind ∨ xp_Kind e = goDataKind → collects [] m → collects [e] m.
Proof using Type.
  intros He Hm c a c' H Hc. destruct (Hm c a c' H Hc) as [H1 H2]. split; [done|]. intros k kind. rewrite H2.
  pose proof (mentions_plain e k kind He). set_solver.
Qed.

Lemma collects_raw fuel e : collects [e] (raw wireText registry owner fuel e).
Proof using Type.
  revert e. induction fuel as [|fuel IH]; intros e; [apply collects_fail|]. cbn [raw].
  destruct (decide (xp_Kind e = goLiteralKind)) as [Hk|N1]; [apply collects_plain; [by left | apply collects_ret]|].
  destruct (decide (xp_Kind e = goDataKind)) as [Hk|N2].
  { apply collects_plain; [by right|]. destruct (AsString _) as [id|]; [|apply collects_fail].
    apply collects_bind_l; [apply collects_isDeclared|]. intros []; [apply collects_ret | apply collects_fail]. }
  destruct (decodeGoRef _) as [ref|] eqn:Eref; [|apply collects_fail]. destruct (registry !! _) as [r|] eqn:Er; [|apply collects_fail].
  destruct (negb _) eqn:Ek; [apply collects_fail|]. apply negb_false_iff, bool_decide_eq_true in Ek. destruct (nilCallback r); [apply collects_fail|].
  intros c x c' (u & c1 & [= _ <-] & H)%goBind_Ok Hc.
  set (key := registrationKey (fr_Name ref) (fr_Version ref)) in *. set (c1 := mkGoCompile _ _ _ _ _ _) in H.
  assert (registered c1 ∧ ∀ k kind, gc_used c1 !! k = Some kind ↔ gc_used c !! k = Some kind ∨ (k = key ∧ kind = xp_Kind e)) as [Hc1 E1].
  { change (gc_used c1) with (<[key := reg_kind r]> (gc_used c)). split.
    { intros k kind. change (gc_used c1) with (<[key := reg_kind r]> (gc_used c)).
      intros [[<- <-]|[_ H1]]%lookup_insert_Some; [by rewrite Er | by apply Hc]. }
    intros k kind. rewrite lookup_insert_Some, Ek.
    split; [naive_solver|]. intros [Hu|[-> ->]]; [|by left]. destruct (decide (key = k)) as [<-|]; [left|by right].
    apply Hc in Hu. rewrite Er in Hu. injection Hu as <-. by rewrite Ek. }
  destruct (collects_bind_l (fr_Args ref) (compileArgs wireText (raw wireText registry owner fuel) 0 (fr_Args ref))
    (λ args, goRet (mkGoCompiled owner (xp_Kind e) r args NullValue ""))) with (2 := λ args, collects_ret (mkGoCompiled owner (xp_Kind e) r args NullValue "")) (3 := H) (4 := Hc1) as [Hc' E2].
  { by apply collects_args. }
  split; [done|]. intros k kind. rewrite E2, E1. pose proof (mentions_ref e ref k kind N1 N2 Eref) as Hm. fold key in Hm. set_solver.
Qed.

Lemma collects_check cat e : collects [e] (checkExpression wireText registry owner cat e).
Proof using Type.
  apply collects_bind_l; [|intros x; apply collects_ret]. apply collects_expression_with, collects_raw.
Qed.

(** The walk *)

Lemma collects_values es : collects (optional es) (valueExpressions wireText registry owner es).
Proof using Type. apply collects_each. intros o _. apply collects_when. intros e _. apply collects_check. Qed.

Lemma collects_whenCheck cat o : collects (optional [o]) (goWhen o (checkExpression wireText registry owner cat)).
Proof using Type.
  unfold optional. simpl. rewrite app_nil_r. apply collects_when. intros e _. apply collects_check.
Qed.

Lemma optional_app es es' : optional (es ++ es') = optional es ++ optional es'.
Proof using Type. unfold optional. by rewrite map_app, concat_app. Qed.

Lemma collects_params qs : collects (paramExpressions qs) (goParams wireText registry owner qs).
Proof using Type.
  apply collects_each. intros q _. change [pd_Expr q; pd_Location q] with ([pd_Expr q] ++ [pd_Location q]). rewrite optional_app.
  apply collects_bind; [apply collects_values | intros _; apply collects_whenCheck].
Qed.

Lemma collects_data ds : collects (dataExpressions ds) (goData wireText registry owner ds).
Proof using Type. apply collects_each. intros d _. unfold goDatum. destruct (negb _); [apply collects_fail | apply collects_whenCheck]. Qed.

Lemma collects_send s : collects (sendExpressions s) (goSend wireText registry owner s).
Proof using Type.
  unfold sendExpressions.
  change [sn_EventExpr s; sn_TargetExpr s; sn_TypeExpr s; sn_DelayExpr s; sn_Content s; sn_IDLocation s]
    with ([sn_EventExpr s; sn_TargetExpr s; sn_TypeExpr s; sn_DelayExpr s; sn_Content s] ++ [sn_IDLocation s]).
  rewrite optional_app, <- app_assoc. apply collects_bind; [apply collects_values|]. intros _.
  apply collects_bind; [apply collects_whenCheck | intros _; apply collects_params].
Qed.

Lemma collects_call f : collects [callExpression f] (goCall wireText registry owner f).
Proof using Type.
  apply collects_bind_l; [apply collects_expression_with, collects_raw|]. intros x. apply collects_same. by intros c a c' [= _ <-].
Qed.

Lemma collects_bindings item index : collects [] (goBindings wireText registry owner item index).
Proof using Type.
  assert (∀ id, collects [] (checkExpression wireText registry owner catLocation (GoData id))) as Hd.
  { intros id c a c' H Hc. destruct (collects_check _ _ _ _ _ H Hc) as [H1 H2]. split; [done|]. intros k kind. rewrite H2.
    pose proof (mentions_plain (GoData id) k kind (or_intror eq_refl)). set_solver. }
  unfold goBindings. apply collects_bind_l; [apply collects_isDeclared|]. intros ok. destruct (negb ok); [apply collects_fail|].
  apply collects_bind_l; [apply Hd|]. intros _. case_decide; [apply collects_ret|].
  apply collects_bind_l; [apply collects_isDeclared|]. intros ok'. destruct (negb ok'); [apply collects_fail | apply Hd].
Qed.

Lemma collects_blocks_with (g : Executable → list Expression) (f : Executable → goM (D := D) unit) bs :
  blocks_all (λ e, collects (g e) (f e)) bs → collects (nestedExpressions g bs) (goBlocks_with f bs).
Proof using Type.
  unfold blocks_all. rewrite Forall_forall. intros H. apply collects_each. intros b Hb. specialize (H b Hb). rewrite Forall_forall in H.
  by apply collects_each.
Qed.

Lemma collects_executable e : collects (executableExpressions e) (goExecutable wireText registry owner e).
Proof using Type.
  induction e as [e [IHc IHf]] using Executable_nested_ind. destruct e as [k r s c l a ch f sc ca ex]. simpl in *.
  repeat match goal with |- context [if decide (k = ?x) then _ else _] => destruct (decide (k = x)) end.
  - apply collects_deref. intros x _. apply collects_values.
  - apply collects_deref. intros x _. apply collects_send.
  - apply collects_deref. intros x _. apply collects_values.
  - apply collects_deref. intros x _. apply collects_values.
  - apply collects_deref. intros x _. apply (collects_bind [_] [_]); [apply collects_check | intros _; apply collects_check].
  - apply collects_deref. intros x _. apply collects_check.
  - apply collects_deref. intros x _. apply collects_call.
  - destruct f as [[]|]; [|apply collects_fail]. apply (collects_bind [_]); [apply collects_check|]. intros _.
    apply (collects_bind []); [apply collects_bindings|]. intros _. by apply collects_blocks_with.
  - destruct ch as [[bs els]|]; [|apply collects_fail]. destruct IHc as [Hb He]. simpl in *. rewrite Forall_forall in Hb.
    apply collects_bind; [|intros _; by apply collects_blocks_with]. apply collects_each. intros [cond acts] Hin. apply Hb in Hin.
    apply (collects_bind [_]); [apply collects_check|]. intros _. by apply collects_blocks_with.
  - apply collects_ret.
Qed.

Lemma collects_blocks bs : collects (blockExpressions bs) (goBlocks wireText registry owner bs).
Proof using Type. apply collects_blocks_with. repeat (apply Forall_forall; intros). apply collects_executable. Qed.

Lemma collects_transition t : collects (transitionExpressions t) (goTransition wireText registry owner t).
Proof using Type. apply collects_bind; [apply collects_whenCheck | intros _; apply collects_blocks]. Qed.

Lemma collects_invoke v : collects (invokeExpressions v) (goInvoke wireText registry owner v).
Proof using Type.
  unfold invokeExpressions. change [id_TypeExpr v; id_SrcExpr v; id_Content v; id_IDLocation v]
    with ([id_TypeExpr v; id_SrcExpr v; id_Content v] ++ [id_IDLocation v]).
  rewrite optional_app, <- app_assoc. apply collects_bind; [apply collects_values|]. intros _.
  apply collects_bind; [apply collects_whenCheck|]. intros _. apply collects_bind; [apply collects_params | intros _; apply collects_blocks].
Qed.

Lemma collects_doneData d : collects (doneDataExpressions d) (goDoneData wireText registry owner d).
Proof using Type. apply collects_bind; [apply collects_params | intros _; apply collects_values]. Qed.

Lemma collects_each_block bs : collects (blockExpressions bs) (goEach (λ b, goBlocks wireText registry owner [b]) bs).
Proof using Type.
  unfold blockExpressions, nestedExpressions. apply collects_each. intros b _.
  rewrite <- (app_nil_r (concat (map executableExpressions b))). apply (collects_blocks [b]).
Qed.

Lemma collects_state s : collects (stateExpressions s) (goState wireText registry owner s).
Proof using Type.
  induction s as [s IH] using StateDefinition_nested_ind. destruct s. simpl in *. rewrite Forall_forall in IH. unfold goStateSelf. simpl.
  eapply collects_equiv; [|eapply collects_bind; [|intros _; by apply collects_each]].
  2: { apply collects_bind; [apply collects_data|]. intros _. apply collects_bind; [apply collects_when; intros t _; apply collects_transition|]. intros _.
       apply collects_bind; [apply collects_each_block|]. intros _. apply collects_bind; [apply collects_each; intros t _; apply collects_transition|].
       intros _. apply collects_bind; [apply collects_each; intros v _; apply collects_invoke|]. intros _.
       apply collects_when. intros d _. apply collects_doneData. }
  intros e. by rewrite <- !app_assoc.
Qed.

Lemma collects_definition d : collects (definitionExpressions d) (goDefinition wireText registry owner d).
Proof using Type. apply collects_bind; [apply collects_data | intros _; apply collects_state]. Qed.
End collects.

Variable sum256 : string → string.

(** The registrations of a model made with [Condition], [Script], [Value] and
    [Location]. *)
Definition typed_registry (m : GoModel D) : Prop :=
  ∀ k r, gm_registrations m !! k = Some r → reg_kind r ∈ [goConditionKind; goScriptKind; goValueKind; goLocationKind].

Lemma register_typed n v r (m m' : GoModel D) :
  reg_kind r ∈ [goConditionKind; goScriptKind; goValueKind; goLocationKind] → typed_registry m → register n v r m = Ok m' → typed_registry m'.
Proof.
  intros Hr Hm H. unfold register in H. do 5 apply result_bind_Ok in H as ([] & _ & H). injection H as <-.
  intros k r'. simpl. intros [[<- <-]|[_ Hk]]%lookup_insert_Some; [done | by eapply Hm].
Qed.

(** The table whose digest is the fingerprint: it has the registrations that the
    definition mentions, and each of them is registered with its kind. *)
Record digests (m : GoModel D) (d : ChartDefinition) (p : goProgram D) (used : gmap string Identifier) : Prop := {
  dg_fingerprint : gp_fingerprint p = sum256 (fingerprintMaterial used);
  dg_used k kind : used !! k = Some kind ↔ uses d k kind;
  dg_registered k kind : uses d k kind → reg_kind <$> gm_registrations m !! k = Some kind
}.

Lemma program_digests owner m d p : GoCompile wireText sum256 owner m d = Ok p → ∃ used, digests m d p used.
Proof.
  intros (_ & c & factory & _ & Hwalk & ->)%goCompile_program. exists (gc_used c).
  destruct (collectIDs_collected (D := D) owner d) as [_ _ H3 _ _].
  destruct (collects_definition _ _ _ _ _ _ Hwalk) as [Hr Hu]; [by intros k kind; rewrite H3, lookup_empty|].
  assert (∀ k kind, gc_used c !! k = Some kind ↔ uses d k kind) as Hiff.
  { intros k kind. rewrite Hu, H3, lookup_empty. unfold uses. naive_solver. }
  split; [done | exact Hiff |]. intros k kind Hk%Hiff. by apply Hr.
Qed.

Lemma digests_plain m d p used : typed_registry m → digests m d p used → plain_kinds used.
Proof.
  intros Ht [_ U R] k kind Hk%U%R. destruct (gm_registrations m !! k) as [r|] eqn:Er; [|done]. injection Hk as <-.
  apply Ht in Er. repeat (apply elem_of_cons in Er as [->|Er]; [reflexivity|]). by apply elem_of_nil in Er.
Qed.

(** C24 (equivalence): the fingerprint identifies the host code a program uses.
    It is the digest of a table of registrations; the table has exactly those
    that an expression of the definition mentions, at any depth of its arguments,
    each under its name and version with its kind, and all of them are
    registered in the model.  For two programs, of any two models filled by the
    typed methods and any definitions, what is hashed is the same exactly when their definitions
    mention the same registrations: neither the order of a Go map nor the framing
    of the keys can make two different sets collide before the hash. *)
Theorem go_fingerprint_identifies (owner owner' : nat) (m m' : GoModel D) (d d' : ChartDefinition) (p p' : goProgram D) :
  GoCompile wireText sum256 owner m d = Ok p → GoCompile wireText sum256 owner' m' d' = Ok p' →
  typed_registry m → typed_registry m' →
  ∃ used used', digests m d p used ∧ digests m' d' p' used'
    ∧ (fingerprintMaterial used = fingerprintMaterial used' ↔ ∀ k kind, uses d k kind ↔ uses d' k kind).
Proof.
  intros (used & U)%program_digests (used' & U')%program_digests Ht Ht'. exists used, used'. split_and!; [done..|]. split.
  - intros H. apply fingerprintMaterial_inj in H; [|exact (digests_plain _ _ _ _ Ht U) | exact (digests_plain _ _ _ _ Ht' U')]. subst. intros k kind.
    by rewrite <- (dg_used _ _ _ _ U), <- (dg_used _ _ _ _ U').
  - intros H. f_equal. apply map_eq. intros k. apply option_eq. intros kind. by rewrite (dg_used _ _ _ _ U), (dg_used _ _ _ _ U').
Qed.
End fingerprint.

(** ** A text for wires and envelopes

    An injective encoding, used to instantiate [json.Marshal]: a wire as a tree,
    a tree as a number, a number as its bits. *)

Definition scalars : Type := Z * string * option bool * option string * option string * option string.
Abbreviation wireTree := (gen_tree (scalars + string)) (only parsing).

Fixpoint treeOf (w : ValueWire) : wireTree :=
  let 'mkWire v k b s n l m t q := w in
  GenNode 0 [GenLeaf (inl (v, k, b, s, n, t));
             match l with Some l => GenNode 1 (map treeOf l) | None => GenNode 0 [] end;
             match m with Some m => GenNode 1 (map (λ '(k, w), GenNode 2 [GenLeaf (inr k); treeOf w]) m) | None => GenNode 0 [] end;
             match q with Some w => GenNode 1 [treeOf w] | None => GenNode 0 [] end].

Fixpoint ofTree (t : wireTree) : ValueWire :=
  match t with
  | GenNode 0 [GenLeaf (inl (v, k, b, s, n, tag)); l; m; q] =>
      mkWire v k b s n
        match l with GenNode 1 l => Some (map ofTree l) | _ => None end
        match m with
        | GenNode 1 m => Some (map (λ t, match t with GenNode 2 [GenLeaf (inr k); w] => (k, ofTree w) | _ => ("", emptyWire "") end) m)
        | _ => None
        end
        tag
        match q with GenNode 1 [w] => Some (ofTree w) | _ => None end
  | _ => emptyWire ""
  end.

Lemma ofTree_treeOf w : ofTree (treeOf w) = w.
Proof.
  induction w as [v k b s n l m t q Hl Hm Hq] using ValueWire_nested_ind. simpl. f_equal.
  - destruct l as [l|]; [|done]. f_equal. rewrite map_map. apply list_map_id_Forall. exact Hl.
  - destruct m as [m|]; [|done]. f_equal. rewrite map_map. apply list_map_id_Forall. eapply Forall_impl; [exact Hm|].
    intros [k' w] H. simpl in *. by rewrite H.
  - destruct q as [w|]; [|done]. by f_equal.
Qed.

Fixpoint bits (x : positive) : string :=
  match x with xH => "." | xO x => String "0" (bits x) | xI x => String "1" (bits x) end.
Fixpoint ofBits (s : string) : option positive :=
  match s with
  | String "."%char EmptyString => Some xH
  | String "0"%char s => xO <$> ofBits s
  | String "1"%char s => xI <$> ofBits s
  | _ => None
  end.

Lemma ofBits_bits x : ofBits (bits x) = Some x.
Proof. induction x as [x IH|x IH|]; simpl; [by rewrite IH.. | done]. Qed.

Definition wireBits (w : ValueWire) : string := bits (encode (treeOf w)).

Lemma wireBits_nonempty w : wireBits w ≠ "".
Proof. unfold wireBits. generalize (encode (treeOf w)) as x. by intros []. Qed.

Lemma wireBits_inj w w' : wireBits w = wireBits w' → w = w'.
Proof.
  unfold wireBits. intros H%(f_equal ofBits). rewrite !ofBits_bits in H. injection H as H%(inj encode).
  by rewrite <- (ofTree_treeOf w), H, ofTree_treeOf.
Qed.

Lemma wireBits_determines w w' v v' : wireBits w = wireBits w' → ValueFromWire w = Ok v → ValueFromWire w' = Ok v' → same v v'.
Proof. intros ->%wireBits_inj H1 H2. rewrite H1 in H2. injection H2 as <-. reflexivity. Qed.

Definition envelopeBits (env : goSnapshot) : string :=
  bits (encode (snap_Version env, snap_Data env, (λ ws, (prod_map id treeOf) <$> map_to_list ws) <$> snap_Values env)).
Definition ofEnvelopeBits (s : string) : result goSnapshot :=
  match ofBits s ≫= decode with
  | Some (v, d, ws) => Ok (mkGoSnapshot v d ((λ l : list (string * wireTree), ofTree <$> (list_to_map l : gmap string wireTree)) <$> ws))
  | None => Err (Errorf "unexpected end of JSON input")
  end.

Lemma envelopeBits_roundtrip env : ofEnvelopeBits (envelopeBits env) = Ok env.
Proof.
  unfold ofEnvelopeBits, envelopeBits. rewrite ofBits_bits. simpl. rewrite countable.decode_encode. destruct env as [v d ws]. simpl. do 2 f_equal.
  destruct ws as [ws|]; [|done]. simpl. f_equal. rewrite list_to_map_fmap, list_to_map_to_list, <- map_fmap_compose.
  etrans; [|apply map_fmap_id]. apply map_fmap_ext. intros k w _. apply ofTree_treeOf.
Qed.

(** ** A tank: a model over [Z] *)

Definition tankLevel (d : Z) (ec : ExecContext) (args : list Value) : Z * list effect * outcome Value := (d, [], Returned (counter_value d)).
Definition tankFill (d : Z) (ec : ExecContext) (args : list Value) : Z * list effect * outcome unit :=
  match args with
  | [v] => match AsInt64 v with Some n => ((d + n)%Z, [EffLog "filled" v], Returned ()) | None => (d, [], Panicked "not a number") end
  | _ => (d, [], Failed (Errorf "one argument"))
  end.
Definition tankFull (d : Z) (ec : ExecContext) (args : list Value) : Z * list effect * outcome bool := (d, [], Returned (bool_decide (10 <= d)%Z)).
Definition tankSet (d : Z) (ec : ExecContext) (v : Value) (args : list Value) : Z * list effect * outcome unit :=
  match AsInt64 v with Some n => (n, [], Returned ()) | None => (d, [], Failed (Errorf "not a number")) end.

Definition tankCodec : GoSnapshotCodec Z :=
  mkSnapshotCodec (Some (λ d, Returned (bits (encode d))))
    (Some (λ b, match ofBits b ≫= decode with Some z => Returned (Some z) | None => Failed (Errorf "not a number") end)).
Definition tankInspection : GoInspectionCodec Z := mkInspectionCodec (Some (λ d, Returned (counter_value d))).

Definition tank0 : GoModel Z := mkGoModel (Some (Returned (Some 0%Z))) tankCodec tankInspection ∅.
Definition orSame (m : GoModel Z) (r : result (GoModel Z)) : GoModel Z := match r with Ok m => m | Err _ => m end.
Definition level : GoLocationRef := mkLocationRef "tank.level" "v1".
Definition fill : GoActionRef := mkActionRef "tank.fill" "v1".
Definition full : GoConditionRef := mkConditionRef "tank.full" "v1".
Definition tank : GoModel Z :=
  let m := orSame tank0 (Location "tank.level" "v1" (Some tankLevel) (Some tankSet) tank0).2 in
  let m := orSame m (Action "tank.fill" "v1" (Some tankFill) m).2 in
  orSame m (Condition "tank.full" "v1" (Some tankFull) m).2.

(** A chart that fills the tank by the value of a variable and leaves when it is
    full. *)
Definition tankDefinition : ChartDefinition :=
  mkDefinition "tank" "" "go" "" "" [mkDataDefinition "step" "" (Some (GoLiteral (counter_value 4))) None]
    (Compound "root" "filling" [Children [
       Atomic "filling" [
         On "pump" [Then [Do fill [GoData "step"]]];
         On "boost" [Then [Call fill [GoData "step"]; NewAssignExecutable (mkAssign (GoData "step") (At level []))]];
         On "check" [Target ["full"]; Authoring.If (GoModel.If full [])]];
       Final "full" []]]).

Definition tankNormal : ChartDefinition := match normalizeDefinition tankDefinition with Ok n => n | Err _ => tankDefinition end.
Definition tankCompile : result (goProgram Z) := GoCompile wireBits (λ s, s) 1 tank tankNormal.

Definition tankProgram : goProgram Z :=
  match tankCompile with Ok p => p | Err _ => mkGoProgram 0 (Returned None) tankCodec tankInspection "" ∅ ∅ [] ∅ end.

Lemma orDefault {A} (r : result A) a : match r with Ok _ => true | Err _ => false end = true → r = Ok (match r with Ok x => x | Err _ => a end).
Proof. by destruct r. Qed.

Lemma tankNormal_ok : normalizeDefinition tankDefinition = Ok tankNormal.
Proof. apply orDefault. vm_compute. reflexivity. Qed.
Lemma tankProgram_ok : GoCompile wireBits (λ s, s) 1 tank tankNormal = Ok tankProgram.
Proof. apply orDefault. vm_compute. reflexivity. Qed.

Lemma program_codec {D} wireText sum256 owner (m : GoModel D) d p : GoCompile wireText sum256 owner m d = Ok p → gp_codec p = gm_codec m.
Proof. by intros (_ & c & factory & _ & _ & ->)%goCompile_program. Qed.

Lemma tankCodec_lawful : codec_lawful (gp_codec tankProgram).
Proof.
  rewrite (program_codec _ _ _ _ _ _ tankProgram_ok). assert (gm_codec tank = tankCodec) as -> by (vm_compute; reflexivity).
  intros d b [= <-]. unfold codecCall, tankCodec. cbn [codec_Decode]. rewrite ofBits_bits. cbn [mbind option_bind].
  by rewrite countable.decode_encode.
Qed.

Definition tankSession : goSession Z :=
  match NewSession tankProgram with Ok s => s | Err _ => mkGoSession 0 0%Z tankCodec tankInspection ∅ end.
Lemma tankSession_of : sessionOf tankProgram tankSession.
Proof. apply NewSession_sessionOf, orDefault. vm_compute. reflexivity. Qed.

Definition quietContext : ExecContext := mkExecContext (newEvent "pump" EventExternal NullValue) true "" "" (λ _, false) false.

(** The handle of an expression. *)
Definition tankHandle (e : Expression) : goCompiled Z :=
  match goResolveExpression wireBits tankProgram e with
  | Ok x => x | Err _ => mkGoCompiled 0 "" zeroRegistration [] NullValue ""
  end.

Definition pumpExpression : Expression := actionExpression fill [GoData "step"].

Lemma resolved_unforged {D} wireText (p : goProgram D) e x : goResolveExpression wireText p e = Ok x → unforged p (Some x).
Proof.
  unfold goResolveExpression. destruct (gp_compiled p !! _) as [y|] eqn:E; [|done]. intros [= ->] z [= <-] _. left. by eexists.
Qed.

Lemma pump_resolved : goResolveExpression wireBits tankProgram pumpExpression = Ok (tankHandle pumpExpression).
Proof. apply orDefault. vm_compute. reflexivity. Qed.

(** A run: the tank is empty, the variable unset; the callback panics on it, the
    session reports an error; after an assignment it fills the tank. *)
Example tank_runs :
  let h := Some (tankHandle pumpExpression) in
  let '(s1, _, o1) := goExecute quietContext h tankSession in
  let '(s2, _, o2) := goAssign quietContext (Some (tankHandle (GoData "step"))) (counter_value 4) s1 in
  let '(s3, eff3, o3) := goExecute quietContext h s2 in
  o1 = Failed (Errorf "statecharts: Go callback panicked: not a number") ∧ gs_data s1 = 0%Z
  ∧ o2 = Returned () ∧ o3 = Returned () ∧ gs_data s3 = 4%Z ∧ eff3 = [EffLog "filled" (counter_value 4)].
Proof. vm_compute. split_and!; reflexivity. Qed.

Lemma go_reference_roundtrip_witness :
  ∃ v, encodeGoRef (actionFunction fill [GoData "step"]) = Ok v ∧ decodeGoRef v = Ok (actionFunction fill [GoData "step"]) ∧ is_Ok (Wire v).
Proof. apply (go_reference_roundtrip (actionFunction fill [GoData "step"]) "call"). vm_compute. reflexivity. Defined.

Lemma go_program_resolves_witness :
  ∃ cc, Compile (DM := GoDatamodelSession Z) oneSecond (λ d, Ok (df_ID d)) (λ s, s) tankDefinition
      (Some (goDatamodel wireBits (λ s, s) 1 tank)) = Ok cc
    ∧ cc_definition cc = tankNormal ∧ cc_fingerprint cc = gp_fingerprint tankProgram.
Proof.
  apply (go_program_resolves wireBits (λ s, s) oneSecond (λ d, Ok (df_ID d)) (λ s, s) tankDefinition tankNormal 1 tank tankProgram
    tankNormal_ok tankProgram_ok).
  - vm_compute. discriminate.
  - vm_compute. eexists. reflexivity.
  - vm_compute. reflexivity.
Defined.

Lemma go_handles_denote_witness :
  denotes (gm_registrations tank) 1 (declaredIDs tankProgram) (tankHandle pumpExpression) pumpExpression.
Proof.
  apply (proj1 (go_handles_denote wireBits (λ s, s) wireBits_nonempty wireBits_determines 1 tank tankNormal tankProgram tankProgram_ok)
    pumpExpression (tankHandle pumpExpression)).
  - vm_compute. eexists. reflexivity.
  - exact pump_resolved.
Defined.

Definition stepLocation : goCompiled Z :=
  match goResolveDataLocation tankProgram "step" with Ok x => x | Err _ => mkGoCompiled 0 "" zeroRegistration [] NullValue "" end.
Lemma stepLocation_ok : goResolveDataLocation tankProgram "step" = Ok stepLocation.
Proof. apply orDefault. vm_compute. reflexivity. Qed.

(** A loop over a list of two numbers that fills the tank by each of them, and
    one whose body panics. *)
Definition stepBindings : IterationBindings (DM := GoDatamodelSession Z) := mkBindings (DM := GoDatamodelSession Z) (Some stepLocation) None.
Definition pumpBody : goS (D := Z) unit := goExecute quietContext (Some (tankHandle pumpExpression)).
Example tank_foreach :
  let '(s1, _, _) := goAssign quietContext (Some stepLocation) (ListOf [counter_value 4; counter_value 5]) tankSession in
  let h := Some (tankHandle (GoData "step")) in
  let '(s2, eff2, o2) := goForEach quietContext h stepBindings (Some pumpBody) s1 in
  let '(_, _, o3) := goForEach quietContext h stepBindings (Some (λ s, (s, [], Panicked "out of water"))) s1 in
  o2 = Returned () ∧ gs_data s2 = 9%Z ∧ eff2 = [EffLog "filled" (counter_value 4); EffLog "filled" (counter_value 5)]
  ∧ o3 = Failed (Errorf "statecharts: Go callback panicked: out of water")
  ∧ (goForEach quietContext h stepBindings (Some pumpBody) tankSession).2
    = Failed (Errorf "statecharts: foreach array is null, want list").
Proof. vm_compute. split_and!; reflexivity. Qed.

Lemma located_unforged {D} (p : goProgram D) id x : goResolveDataLocation p id = Ok x → unforged p (Some x).
Proof.
  unfold goResolveDataLocation. destruct (gp_dataLocations p !! id) as [y|] eqn:E; [|done]. intros [= ->] z [= <-] _.
  right. right. by exists id.
Qed.

Lemma none_some {A} (x : A) (P : Prop) : None = Some x → P.
Proof. done. Qed.

Lemma stepLocation_unforged : unforged tankProgram (Some stepLocation).
Proof. exact (located_unforged _ _ _ stepLocation_ok). Qed.

Lemma go_session_contained_witness :
  contained tankProgram (Some (tankHandle pumpExpression)) tankSession (goExecute quietContext (Some (tankHandle pumpExpression)) tankSession)
  ∧ contained tankProgram (Some (tankHandle pumpExpression)) tankSession
      (goForEach quietContext (Some (tankHandle pumpExpression)) stepBindings (Some (λ s, (s, [], Panicked "out of water"))) tankSession).
Proof.
  destruct (go_session_contained wireBits (λ s, s) 1 tank tankNormal tankProgram tankSession (Some (tankHandle pumpExpression)) quietContext
    NullValue stepBindings (Some (λ s, (s, [], Panicked "out of water"))) tankProgram_ok tankSession_of) as (_ & _ & H & _ & H' & _).
  - exact (resolved_unforged _ _ _ _ pump_resolved).
  - exact stepLocation_unforged.
  - intros x. exact (none_some x _).
  - intros run [= <-] s Hs. exact Hs.
  - split; [exact H | exact H'].
Defined.

Lemma go_assign_reads_witness :
  ∃ s', goAssign quietContext (Some stepLocation) (counter_value 7) tankSession = (s', [], Returned ())
    ∧ goEvaluateValue quietContext (Some stepLocation) s' = (s', [], Returned (counter_value 7)).
Proof.
  destruct (go_assign_reads wireBits (λ s, s) 1 tank tankNormal tankProgram tankSession "step" stepLocation quietContext (counter_value 7)
    tankProgram_ok tankSession_of stepLocation_ok) as (s' & H1 & _ & H2 & _).
  exists s'. split; [exact H1 | exact H2].
Defined.

Lemma envelopeBits_lawful : envelope_lawful envelopeBits ofEnvelopeBits.
Proof.
  intros env [_ Hw]. exists env. split; [apply envelopeBits_roundtrip|]. split_and!; [done..|].
  destruct (snap_Values env) as [ws|] eqn:E; constructor. intros k. destruct (ws !! k) as [w|] eqn:Ew; constructor.
  destruct (Hw ws k w eq_refl Ew) as (_ & v & Hv & Hd). by eapply sameWire_refl.
Qed.

(** The tank's variable holds a map. *)
Definition tankWithMap : goSession Z :=
  (goAssign quietContext (Some stepLocation) (MapOf [("litres", counter_value 4); ("hours", NullValue)]) tankSession).1.1.
Lemma tankWithMap_of : sessionOf tankProgram tankWithMap.
Proof. eapply contained_session, assign_contained; [exact tankProgram_ok | exact tankSession_of | exact stepLocation_unforged]. Qed.
Lemma tankWithMap_distinct : distinct_values tankWithMap.
Proof.
  intros id v Hv. assert (map_to_list (gs_values tankWithMap) = [("step", MapOf [("litres", counter_value 4); ("hours", NullValue)])]) as E
    by (vm_compute; reflexivity).
  apply elem_of_map_to_list in Hv. rewrite E in Hv. apply list_elem_of_singleton in Hv. injection Hv as _ ->. reflexivity.
Qed.

Definition tankBytes : string := match goEncodeSnapshot envelopeBits tankWithMap with Ok b => b | Err _ => "" end.
Lemma tankBytes_ok : goEncodeSnapshot envelopeBits tankWithMap = Ok tankBytes.
Proof. apply orDefault. vm_compute. reflexivity. Qed.

Lemma go_snapshot_restores_witness :
  ∃ s', goDecodeSnapshot ofEnvelopeBits tankBytes tankSession = Ok s' ∧ gs_data s' = gs_data tankWithMap
    ∧ option_Forall2 same (gs_values tankWithMap !! "step") (gs_values s' !! "step").
Proof.
  destruct (proj1 (go_snapshot_restores envelopeBits ofEnvelopeBits wireBits (λ s, s) 1 tank tankDefinition
    tankNormal tankProgram tankWithMap tankSession envelopeBits_lawful tankNormal_ok tankProgram_ok tankCodec_lawful tankWithMap_of tankSession_of
    tankWithMap_distinct) tankBytes tankBytes_ok) as (s' & H1 & _ & H2 & H3).
  exists s'. split; [exact H1|]. split; [exact H2 | exact (H3 "step")].
Defined.

Lemma tank_typed : typed_registry tank.
Proof.
  intros k r H. apply elem_of_map_to_list in H.
  assert (forallb (λ x, bool_decide (In (reg_kind x.2 : string) [goConditionKind : string; goScriptKind; goValueKind; goLocationKind]))
    (map_to_list (gm_registrations tank)) = true) as Hall by (vm_compute; reflexivity).
  rewrite forallb_forall in Hall. apply list_elem_of_In in H. apply list_elem_of_In. specialize (Hall _ H).
  by apply bool_decide_eq_true_1 in Hall.
Qed.

Lemma go_fingerprint_identifies_witness :
  ∃ used, digests (λ s, s) tank tankNormal tankProgram used ∧ gp_fingerprint tankProgram = fingerprintMaterial used
    ∧ used !! registrationKey "tank.fill" "v1" = Some goScriptKind.
Proof.
  destruct (go_fingerprint_identifies wireBits (λ s, s) 1 1 tank tank tankNormal tankNormal tankProgram tankProgram tankProgram_ok tankProgram_ok
    tank_typed tank_typed) as (used & _ & U & _).
  exists used. split; [exact U|]. split; [exact (dg_fingerprint _ _ _ _ _ U)|]. apply (dg_used _ _ _ _ _ U).
  exists pumpExpression. split; [vm_compute; repeat constructor|].
  apply (mentions_function pumpExpression (mkFunctionRef "tank.fill" "v1" [GoData "step"])); [discriminate | discriminate | vm_compute; reflexivity].
Defined.
